(* ===== verification/_CoqProject ===== *)
-Q . S2P
Prelude.v
Order.v
GraphTypes.v
EdgeIds.v
GraphIndex.v
GraphQuery.v
GraphPreflight.v
GraphTraversal.v
TraversalProof.v
GraphWatch.v
WatchProof.v
GraphWindow.v
WindowProof.v
Fixtures.v
GraphTheorems.v
TraversalTheorems.v
WatchTheorems.v
ServerTypes.v
Relationship.v
Pipeline.v
Ingest.v
ServerFixtures.v
PipelineProof.v
PipelineInvariant.v
PipelineTotal.v
RelationshipProof.v
RelationshipCycle.v
PipelineOutcome.v
ServerTheorems.v
Filter.v
FilterTheorems.v
ClientSession.v
ClientWatch.v
SessionProof.v
SessionRun.v
MapWindow.v
Connection.v
ClientTheorems.v
QueryRoute.v
SourceIndex.v
SourceIndexProof.v
SourceFollow.v
LiveQuery.v
LiveQueryProof.v
LiveTick.v
QueryFixtures.v
QueryTheorems.v
RelatedWatch.v
RelatedProof.v
RelatedRun.v
RelatedView.v
RelatedTheorems.v
ReplaceOutcome.v
TypedGraph.v
TypedProof.v
TypedFixtures.v
GraphCommands.v
SyncProof.v
SyncRun.v
GraphCommandTheorems.v
ViewSampling.v
ViewSamplingProof.v
ViewSamplingTheorems.v
SearchIndex.v
SearchProof.v
SearchTheorems.v
CacheKey.v
CellCache.v
CellCacheProof.v
CellCacheProgress.v
CellCacheSharing.v
CellCacheOnce.v
CellCacheTheorems.v
McpGateway.v
McpTheorems.v
DurableLog.v
DurableProof.v
DurableWorld.v
DurableProgress.v
DurableTheorems.v
