(* ===== verification/Prelude.v ===== *)
(** * Myko: verification library

    Myko is a reactive entity server: typed items live in per-type stores, mutations pass
    through one pipeline that validates them against a graph of edges and derives further
    mutations from the relationships between types, and queries are live maps that clients
    receive as snapshots and changes.  This library models that core from the Rust sources
    under [src/libs/myko] and proves what makes it correct.  Paths below are relative to that
    directory; definitions keep the names of the code.

    ** Parts of the program and files of the library

    - Shared: [Prelude] (machine integers, fallible code, lists and maps), [Order] (the derived
      [Ord]s, sorting, [BTreeSet] as a strictly increasing list).
    - The graph, [core/src/core/graph.rs].  [GraphTypes] is the data: entity references,
      policies, registrations; [EdgeIds] the buckets and their windows.  [GraphIndex] is the
      state of the index (adjacency and pair projections, entities, counters), its
      construction, [apply] and [rebuild]; [GraphQuery] the lookups; [GraphPreflight]
      validation and the plan of an endpoint deletion; [GraphTraversal] the bounded
      breadth-first search; [GraphWatch] the router, live maps and counts; [GraphWindow] the
      paged snapshots and live windows.  Proofs: [TraversalProof], [WatchProof],
      [WindowProof]; properties: [GraphTheorems], [TraversalTheorems], [WatchTheorems]; the
      graph they are instantiated at: [Fixtures].
    - The server, [core/src/server/context.rs] and [core/src/server/relationship_manager.rs].
      [ServerTypes] is the state [Ctx] and the state-and-error monad [M]; [Relationship] the
      manager's tables, child indexes, cascades and startup; [Pipeline] the causal queue, the
      single, grouped and replacement emissions and their effects; [Ingest] the entry points
      and the buffered ingest of wire events.  Proofs: [PipelineProof] (the budget),
      [PipelineInvariant] (the Hoare logic of successful runs), [PipelineTotal],
      [PipelineOutcome], [RelationshipProof], [RelationshipCycle]; properties:
      [ServerTheorems], which ends with the departures from the contract; contexts:
      [ServerFixtures].
    - Filters, [core/src/core/query/filter.rs]: [Filter] and [FilterTheorems].
    - Client sessions and watches.  [ClientSession] is [core/src/server/client_session.rs],
      [ClientWatch] is [core/src/client/query_map.rs], [map_response.rs] and the list and
      windowed watches of [core/src/client/mod.rs], [MapWindow] is
      [WindowedQuerySource::from_map] of [core/src/core/query/cell.rs], [Connection] the
      transition system of a session, the frames in flight and a watch, with the data of the
      examples.  Proofs: [SessionProof], [SessionRun], the end of [MapWindow]; properties:
      [ClientTheorems].
    - Routed and live queries, [core/src/core/query/registration.rs] and the routing code that
      [macros/src/item.rs] generates.  [QueryRoute] is the interface [LiveFilterQuery] with
      its laws and the generated implementation, [SourceIndex] the foreign-key index with its
      buckets, queue and unions, [LiveQuery] the live query.  Proofs: [SourceIndexProof],
      [SourceFollow] (buckets and unions), [LiveQueryProof] (and a query by value),
      [LiveTick] (ticks and store writes); properties: [QueryTheorems]; data: [QueryFixtures].
    - Related entities, the last part of [graph.rs], [core/src/core/item/cell_map_cast.rs] and
      [core/src/core/query/context.rs].  [RelatedWatch] is the join of a live map of edges
      with the entities at their other ends, and the typed maps; [RelatedView] the graph
      methods of [QueryBuildContext].  Proofs: [RelatedProof] (the reference counts,
      the output), [RelatedRun] (any interleaving); properties: [RelatedTheorems].
    - The typed surface of the graph, [graph.rs], [core/src/core/command/handler.rs],
      [core/src/core/capability.rs] and [macros/src/graph.rs].  [TypedGraph] is the endpoint,
      scope and edge traits, the registration the macro derives from them and [EdgeQuery];
      [GraphCommands] the generated connect, sync and ensure commands, where a reconciliation
      is a machine of atomic steps between which other operations run.  Proofs: [TypedProof],
      [ReplaceOutcome], [SyncProof] (the plan), [SyncRun] (its runs, the commands);
      properties: [GraphCommandTheorems]; data: [TypedFixtures].

    - Sampled views, [server/src/view_sampling.rs] and [core/src/client/view_map.rs].
      [ViewSampling] is the delivery that holds back and merges the responses of a view, the
      turns of the writer of [server/src/ws_handler.rs] that drive it, and the view watch.
      Proofs: [ViewSamplingProof] (pending changes, runs of the writer and
      of a session); properties: [ViewSamplingTheorems].

    - Search, [core/src/search]: [SearchIndex] is the typed index (interned ids, postings,
      compaction, the three tiers), the registry that routes items to the index of their type
      and the wrapper the server calls.  Proofs: [SearchProof] (the index as a map of
      documents, what a search returns); properties: [SearchTheorems].

    - The caches of cells, [core/src/server/context.rs] and [core/src/core/request.rs].
      [CacheKey] is the request context and the keys; [CellCache] the threads that look a
      cell up, take a gate, build, publish and project, one shared operation per step, among
      panics, sweeps and owners that drop their cells.  Proofs: [CellCacheProof] (where cells
      come from), [CellCacheProgress] (gates, termination), [CellCacheSharing] (held cells),
      [CellCacheOnce] (runs without drops); properties: [CellCacheTheorems].

    - The MCP gateway, [server/src/mcp]: [McpGateway] is the filters and their patterns, the
      capability index, the calls a script makes and the requests it answers; properties:
      [McpTheorems].

    - The durable log, [server/src/postgres.rs], [core/src/server/persister.rs] and
      [core/src/server/history_replay.rs].  [DurableLog] is the table of events, the producer
      of a server (its channel, its transactions and their retries), the consumer (snapshot,
      polling), what the server does with a row, the replay of a table into a store, the
      health counters and the windows over the history of an entity; several servers share
      one table, and the table's answers are the environment's.  Proofs: [DurableProof]
      (replays, snapshots), [DurableWorld] (invariants of all runs), [DurableProgress]
      (delivery, catching up, windows); properties: [DurableTheorems].

    ** How the parts interact

    A mutation enters through [Ingest], opens a causal root in [Pipeline], is validated by
    [GraphPreflight], reduced into the stores, projected by [GraphIndex.apply], published to
    the watches of [GraphWatch], persisted, and handed to [Relationship], whose derived
    mutations join the root's queue until it is empty.  The store's diffs drive
    [SourceIndex], whose buckets feed the views and live queries; a session turns the diffs
    of such a map into responses, and the watch of the client folds the responses back into
    a map.  Interfaces are type classes with laws: [Cmp]/[TotalOrd] (orders), [CellMap] (the
    reactive map of the hyphae crate), [LiveFilterQuery]/[RoutedLaws] (a filter and its
    route, discharged by the generated queries), [HashOrder] (an unspecified iteration
    order), [Filter]/[CanonicalFilter], [GraphEdgeLaws]/[EdgeScopeLaws] (an edge type).

    ** What the theorems show

    - Graph: the incremental projections are those of a rebuild, also after a failed [apply];
      every lookup strategy answers like a scan of the stores; preflight accepts exactly the
      valid edges and replacements keep pairs unique; deletion plans are exact; traversal
      terminates, is sound, complete when untruncated, finds shortest paths and does not
      depend on the projections; live maps, counts and windows never go stale.
    - Server: submissions return, keep the projections exact when they succeed, change nothing
      when the graph refuses a set, and queue derived mutations within their limits; buffered
      ingest is one deferred batch; child indexes answer like scans; exactly the cyclic
      [ensure_for] schemas are rejected.
    - Filters: canonical forms decide equivalence and the wire format round-trips.
    - Clients: a watch that received what was sent shows the current page, a watch that says
      it is ready shows a state the source has been in, reconnecting recovers, refused
      responses change nothing, sessions stay well formed.  The same holds of a view whose
      responses are merged and sent at a rate, and the rate is kept.
    - Queries: a held bucket shows the rows of its key whatever the interleaving, a union the
      rows of its keys, a routed view what a scan shows, and a live query exactly the stored
      rows its current filter matches, through changes of filter, route and store.
    - Related entities: a view of the entities an edge map references shows exactly the stored
      ones, whatever the interleaving of edge changes, store writes and their notifications.
    - Typed graph and commands: typed queries find the edges their addresses describe;
      reconciling an endpoint is atomic although it reads without a lock, and terminates when
      undisturbed; [Ensure] names the edge that occupies the pair, whoever created it.

    - Caches: callers are given cells built for their own key, a cell that is kept alive is
      shared by the requests that come after it, a key is built once while nothing is dropped,
      and requests cannot deadlock.
    - MCP gateway: only operations the filters show and permit reach the server, whatever a
      script calls; what is visible is what the patterns of the filters match.
    - Durable log: an entity that one server changes, and persists in the order of its changes,
      is the same on every server that has read its rows; a snapshot is the replay of the rows
      it stands for; a consumer that is let run catches up; from its start on a producer writes
      the events it was given in their order and loses none it has let go of, however the
      database fails, repeating only those whose acknowledgement was lost; and a window over a
      history, opened on a server that has caught up, shows the page the table has.
    - Search: after any history of indexing, removals and compactions a search returns the
      best matches among the documents as they were last indexed.

    ** Bounds and fuel

    [u64] and [usize] are [Z] with the code's saturating (or, for [fetch_add], wrapping)
    arithmetic; indices into lists are [nat].  Loops that are not structural take fuel, and
    theorems show it suffices: a traversal one unit per node of its limit plus one, the merge
    of buckets one unit per entry, a submission three levels of recursion and a queue of one
    step more than the budget of derived mutations, the cycle search one level more than the
    number of types, the drain of an index one unit per queued action and batch, catching up
    three steps and one more per fetch of the rows that are missing.  Sequence
    numbers and generations are assumed not to exhaust 64 bits where a theorem says so.

    ** Assumptions

    Extraction functions, parsers, serialisers, hashes and persisters are code the server is
    given, and are parameters; so are the bitmaps, the fuzzy scores and the edit distances of
    the crates the search index uses; so are the JavaScript engine, JSON, the transports and the
    executor of the MCP gateway, whose patterns are trimmed of ASCII white space. A projection of a cached map keeps its source alive.
    Operations of one server context run one after the other, as their locks make them; the
    steps that run outside a lock are steps of their own ([SourceIndex], [CellCache],
    [LateCallback] in [LiveQuery]). In [Connection] frames arrive in the order they were queued;
    the queue may refuse some, and that no complete replacement is among those of the session
    is a hypothesis of the theorem about what the watch shows meanwhile, a lemma after it
    showing why. The caches know the parameters of an operation by their 64-bit hash, so
    parameters with one hash are one key. The numeric filters are over totally ordered values. That no row moves between
    two keys of one union within a diff, and that a live query is not handed a complete
    replacement of the store, are hypotheses of the theorems about unions and live queries; the
    lemmas at the end of [QueryTheorems] show what happens otherwise. In [RelatedWatch] a store
    write and the notification of its subscribers are two steps, and a watch that has switched
    to the whole store is handed diffs that change an id once; the callbacks of the
    subscriptions it dropped then carry the current value and are not modelled on their own.
    The lemmas at the end of [RelatedTheorems] show what the typed maps in between drop. That
    the operations which interleave with a reconciliation advance the generation of the graph
    when they change the edges is a hypothesis about each of them. In [DurableLog] what the
    database answers is an input of each step, JSON and time stamps are parameters, the two
    statements of a page read one table, a snapshot is loaded in one step, a commit whose
    acknowledgement was lost is settled before it is retried, and that ids become visible in
    order is a hypothesis, as are that an entity is changed by one host, which produces and
    persists its changes in order and is not restarted, and that windows are opened on hosts
    that have caught up; the lemmas at the end of [DurableTheorems] show what happens without
    them. A statement in flight when its host ends has been settled before.

    ** Not modelled

    The typed publishing methods; the generated graph queries and reports; what a query,
    view or report builds; commands, sagas and reports, which are application code run
    by the server; of the persisters the schema, the ranges of [load_between] and the rates of
    the log; the websocket server, which is I/O; code generators,
    language bindings and the other macros. *)

From stdpp Require Import base strings numbers option gmap sets list.

(** ** Machine integers

    [u64] and [usize] counters are kept as [Z]; every addition and subtraction of the
    program on them is saturating, and is written with the operators below. *)

Declare Scope myko_scope.
Delimit Scope myko_scope with myko.

Definition u64_max : Z := 18446744073709551615%Z.
(** [usize] on the 64-bit targets the server runs on. *)
Definition usize_max : Z := u64_max.

Definition sat_add (x y : Z) : Z := Z.min (x + y) u64_max.
Definition sat_sub (x y : Z) : Z := Z.max (x - y) 0.

Notation "x '+ₛ' y" := (sat_add x y) (at level 50, left associativity) : myko_scope.
Notation "x '-ₛ' y" := (sat_sub x y) (at level 50, left associativity) : myko_scope.

(** ** Fallible code

    [anyhow::Result<T>] and the other [Result]s of the program. *)

Inductive result (E A : Type) : Type :=
| Ok (a : A)
| Err (e : E).
Arguments Ok {E A} a.
Arguments Err {E A} e.

#[export] Instance result_ret {E} : MRet (result E) := λ A a, Ok a.
#[export] Instance result_bind {E} : MBind (result E) := λ A B f r,
  match r with Ok a => f a | Err e => Err e end.
#[export] Instance result_fmap {E} : FMap (result E) := λ A B f r,
  match r with Ok a => Ok (f a) | Err e => Err e end.

(** [Option::context] of [anyhow]. *)
Definition ok_or {E A} (e : E) (o : option A) : result E A :=
  match o with Some a => Ok a | None => Err e end.

(** [Result::map]. *)
Definition map_ok {E A B} (f : A → B) (r : result E A) : result E B :=
  match r with Ok a => Ok (f a) | Err e => Err e end.

(** [Result::ok]. *)
Definition ok {E A} (r : result E A) : option A :=
  match r with Ok a => Some a | Err _ => None end.

Definition is_ok {E A} (r : result E A) : bool :=
  match r with Ok _ => true | Err _ => false end.

(** A [for] loop whose body may return early with [?] or [bail!]. *)
Fixpoint try_fold {E A B} (f : A → B → result E A) (acc : A) (l : list B) : result E A :=
  match l with
  | [] => Ok acc
  | x :: l' => match f acc x with Ok acc' => try_fold f acc' l' | Err e => Err e end
  end.

(** ** Strings *)

(** [str::contains] with a string pattern. *)
Fixpoint str_contains (pattern s : string) : bool :=
  String.prefix pattern s ||
  match s with
  | EmptyString => false
  | String _ s' => str_contains pattern s'
  end.

(** ** Tactics *)

(** Split conjunctive and existential hypotheses, keeping the witnesses' names. *)
Ltac deex_step :=
  match goal with
  | H : ∃ x, _ |- _ => let x' := fresh x in destruct H as [x' H]
  | H : _ ∧ _ |- _ => destruct H
  end.
Ltac deex := repeat deex_step.

(** Case analysis on every [match] of the goal, closing what computation closes. *)
Ltac case_all := repeat (case_match; simplify_eq/=); try done.

Create HintDb myko.

(** ** Lemmas on the definitions above *)

Lemma sat_add_exact x y : (x + y ≤ u64_max)%Z → sat_add x y = (x + y)%Z.
Proof. unfold sat_add. lia. Qed.

Lemma sat_add_bound x y : (sat_add x y ≤ u64_max)%Z.
Proof. unfold sat_add. lia. Qed.

Lemma sat_sub_nonneg x y : (0 ≤ sat_sub x y)%Z.
Proof. unfold sat_sub. lia. Qed.

Lemma ok_Some {E A} (r : result E A) a : ok r = Some a ↔ r = Ok a.
Proof. destruct r; split; intros [=]; by subst. Qed.

Lemma is_ok_True {E A} (r : result E A) : is_ok r = true ↔ ∃ a, r = Ok a.
Proof. destruct r; split; intros E0; try done; [eauto|by destruct E0]. Qed.

Lemma bind_Ok {E A B} (r : result E A) (f : A → result E B) b :
  (r ≫= f) = Ok b ↔ ∃ a, r = Ok a ∧ f a = Ok b.
Proof.
  destruct r as [a|e]; simpl; split; [eauto| |done|].
  - by intros (a' & [= ->] & ?).
  - by intros (a' & ? & ?).
Qed.

#[export] Hint Resolve sat_add_bound sat_sub_nonneg : myko.

(** ** Generic list lemmas *)

Lemma omap_map_to_list_elem {K V B} `{Countable K} (m : gmap K V) (f : K * V → option B) b :
  b ∈ omap f (map_to_list m) ↔ ∃ k v, m !! k = Some v ∧ f (k, v) = Some b.
Proof.
  rewrite list_elem_of_omap. split.
  - intros ([k v] & Hin & Hf). apply elem_of_map_to_list in Hin. eauto.
  - intros (k & v & Hk & Hf). exists (k, v). by rewrite elem_of_map_to_list.
Qed.

(** ** [Iterator::take] and [Iterator::skip] with a [usize] count *)

Fixpoint take_z {A} (n : Z) (l : list A) : list A :=
  match l with
  | [] => []
  | x :: l' => if (n <=? 0)%Z then [] else x :: take_z (n - 1) l'
  end.

Fixpoint skip_z {A} (n : Z) (l : list A) : list A :=
  match l with
  | [] => []
  | x :: l' => if (n <=? 0)%Z then x :: l' else skip_z (n - 1) l'
  end.

(** [Vec::len], [HashMap::len] and the like, as [usize]. *)
Definition len {A} (l : list A) : Z := Z.of_nat (length l).

Lemma take_z_take {A} n (l : list A) : take_z n l = take (Z.to_nat n) l.
Proof.
  revert n. induction l as [|x l IH]; intros n; simpl; [by rewrite take_nil|].
  destruct (Z.leb_spec n 0) as [Hn|Hn].
  - by replace (Z.to_nat n) with 0 by lia.
  - rewrite IH. by replace (Z.to_nat n) with (S (Z.to_nat (n - 1))) by lia.
Qed.

Lemma skip_z_drop {A} n (l : list A) : skip_z n l = drop (Z.to_nat n) l.
Proof.
  revert n. induction l as [|x l IH]; intros n; simpl; [by rewrite drop_nil|].
  destruct (Z.leb_spec n 0) as [Hn|Hn].
  - by replace (Z.to_nat n) with 0 by lia.
  - rewrite IH. by replace (Z.to_nat n) with (S (Z.to_nat (n - 1))) by lia.
Qed.

Lemma len_nonneg {A} (l : list A) : (0 ≤ len l)%Z.
Proof. unfold len. lia. Qed.
#[export] Hint Resolve len_nonneg : myko.

(** ** Collecting loops

    A loop body that fails exactly on the elements [R] and otherwise adds to the
    accumulated set the keys [C] of the element; loops over such bodies are again so. *)
Section collects.
Context {E X K : Type} `{Countable K}.

Definition collects (R : X → Prop) (C : X → K → Prop) (f : gset K → X → result E (gset K)) (x : X) : Prop :=
  ∀ acc, match f acc x with
         | Ok acc' => ¬ R x ∧ ∀ k, k ∈ acc' ↔ k ∈ acc ∨ C x k
         | Err _ => R x
         end.

Lemma try_fold_collects R C f l acc :
  (∀ x, x ∈ l → collects R C f x) →
  match try_fold f acc l with
  | Ok acc' => (∀ x, x ∈ l → ¬ R x) ∧ ∀ k, k ∈ acc' ↔ k ∈ acc ∨ ∃ x, x ∈ l ∧ C x k
  | Err _ => ∃ x, x ∈ l ∧ R x
  end.
Proof.
  revert acc. induction l as [|x l IH]; intros acc F; simpl.
  { split; [by intros x ?%elem_of_nil|]. intros k. split; [by left|].
    intros [|(x & ?%elem_of_nil & _)]; done. }
  pose proof (F x (list_elem_of_here _ _) acc) as Fx.
  destruct (f acc x) as [acc'|e]; [|exists x; split; [left|done]].
  destruct Fx as [Nx Fx]. specialize (IH acc' (λ y Hy, F y (list_elem_of_further _ _ _ Hy))).
  destruct (try_fold f acc' l) as [acc''|e].
  - destruct IH as [N IH]. split.
    + intros y [->|Hy]%elem_of_cons; [done|by apply N].
    + intros k. rewrite IH, Fx. setoid_rewrite elem_of_cons. naive_solver.
  - destruct IH as (y & Hy & Ry). exists y. split; [by right|done].
Qed.
End collects.
