(* ===== verification/Order.v ===== *)
(** * Total orders and the ordered collections of [std::collections]

    The program compares ids, entity references and endpoint values with their derived
    [Ord] implementations, keeps ids in [BTreeSet]s, and sorts lists before it returns
    them.  [Cmp] is the comparison, [TotalOrd] its laws; a [BTreeSet] is the strictly
    increasing list of its elements. *)

From Stdlib Require Import Strings.Byte Sorting.Sorted.
From stdpp Require Import base strings numbers option gmap sets list.
From S2P Require Import Prelude.

Class Cmp (A : Type) := cmp : A → A → comparison.

Class TotalOrd (A : Type) `{Cmp A} : Prop := {
  cmp_eq (x y : A) : cmp x y = Eq ↔ x = y;
  cmp_opp (x y : A) : cmp y x = CompOpp (cmp x y);
  cmp_trans (x y z : A) : cmp x y = Lt → cmp y z = Lt → cmp x z = Lt
}.

Definition cmp_lt {A} `{Cmp A} (x y : A) : Prop := cmp x y = Lt.

(** ** Derived comparisons *)

#[export] Instance Z_cmp : Cmp Z := Z.compare.
#[export] Instance byte_cmp : Cmp Byte.byte := λ x y, N.compare (Byte.to_N x) (Byte.to_N y).
(** [str] compares its UTF-8 bytes lexicographically. *)
#[export] Instance string_cmp : Cmp string := String.compare.

Definition then_cmp (c d : comparison) : comparison :=
  match c with Eq => d | _ => c end.

#[export] Instance prod_cmp {A B} `{Cmp A, Cmp B} : Cmp (A * B) := λ p q,
  then_cmp (cmp p.1 q.1) (cmp p.2 q.2).

(** [None] is less than every [Some]. *)
#[export] Instance option_cmp {A} `{Cmp A} : Cmp (option A) := λ x y,
  match x, y with
  | None, None => Eq
  | None, Some _ => Lt
  | Some _, None => Gt
  | Some a, Some b => cmp a b
  end.

Fixpoint list_compare {A} `{Cmp A} (l k : list A) : comparison :=
  match l, k with
  | [], [] => Eq
  | [], _ :: _ => Lt
  | _ :: _, [] => Gt
  | x :: l', y :: k' => then_cmp (cmp x y) (list_compare l' k')
  end.
#[export] Instance list_cmp {A} `{Cmp A} : Cmp (list A) := list_compare.

(** ** [BTreeSet] *)

Section btree.
Context {A : Type} `{Cmp A}.

Definition sorted (l : list A) : Prop := StronglySorted cmp_lt l.

Fixpoint bt_insert (x : A) (l : list A) : list A :=
  match l with
  | [] => [x]
  | y :: l' =>
      match cmp x y with
      | Lt => x :: y :: l'
      | Eq => y :: l'
      | Gt => y :: bt_insert x l'
      end
  end.

Fixpoint bt_remove (x : A) (l : list A) : list A :=
  match l with
  | [] => []
  | y :: l' =>
      match cmp x y with
      | Lt => y :: l'
      | Eq => l'
      | Gt => y :: bt_remove x l'
      end
  end.

Fixpoint bt_contains (x : A) (l : list A) : bool :=
  match l with
  | [] => false
  | y :: l' =>
      match cmp x y with
      | Lt => false
      | Eq => true
      | Gt => bt_contains x l'
      end
  end.

(** [BTreeSet::extend] and [FromIterator]. *)
Definition bt_extend (xs l : list A) : list A := foldl (λ acc x, bt_insert x acc) l xs.
Definition bt_of_list (xs : list A) : list A := bt_extend xs [].
End btree.

(** ** The orders are total *)

Section instances.
Lemma then_cmp_opp c d : then_cmp (CompOpp c) (CompOpp d) = CompOpp (then_cmp c d).
Proof. by destruct c. Qed.

#[export] Instance Z_total : TotalOrd Z.
Proof.
  split; unfold cmp, Z_cmp.
  - intros. apply Z.compare_eq_iff.
  - intros. apply Z.compare_antisym.
  - intros x y z. rewrite !Z.compare_lt_iff. lia.
Qed.

Lemma byte_to_N_inj x y : Byte.to_N x = Byte.to_N y → x = y.
Proof.
  intros E. assert (Some x = Some y) as [= ->]; [|done].
  by rewrite <-(Byte.of_to_N x), <-(Byte.of_to_N y), E.
Qed.

#[export] Instance byte_total : TotalOrd Byte.byte.
Proof.
  split; unfold cmp, byte_cmp.
  - intros x y. rewrite N.compare_eq_iff. split; [apply byte_to_N_inj|by intros ->].
  - intros. apply N.compare_antisym.
  - intros x y z. rewrite !N.compare_lt_iff. lia.
Qed.

Lemma ascii_compare_trans a b c :
  Ascii.compare a b = Lt → Ascii.compare b c = Lt → Ascii.compare a c = Lt.
Proof. unfold Ascii.compare. rewrite !N.compare_lt_iff. lia. Qed.

Lemma ascii_compare_eq a b : Ascii.compare a b = Eq ↔ a = b.
Proof.
  unfold Ascii.compare. rewrite N.compare_eq_iff. split; [|by intros ->].
  intros E. by rewrite <-(Ascii.ascii_N_embedding a), <-(Ascii.ascii_N_embedding b), E.
Qed.

#[export] Instance string_total : TotalOrd string.
Proof.
  split; unfold cmp, string_cmp.
  - intros x y. split; [apply String.compare_eq_iff|intros <-].
    induction x as [|a x IH]; simpl; [done|].
    by assert (Ascii.compare a a = Eq) as -> by by apply ascii_compare_eq.
  - intros. apply String.compare_antisym.
  - intros x. induction x as [|a x IH]; intros [|b y] [|c z]; simpl; try done.
    destruct (Ascii.compare a b) eqn:Eab; destruct (Ascii.compare b c) eqn:Ebc; try done;
      intros H1 H2.
    + apply ascii_compare_eq in Eab, Ebc. subst.
      assert (Ascii.compare c c = Eq) as -> by by apply ascii_compare_eq. eauto.
    + apply ascii_compare_eq in Eab. subst. by rewrite Ebc.
    + apply ascii_compare_eq in Ebc. subst. by rewrite Eab.
    + by rewrite (ascii_compare_trans _ _ _ Eab Ebc).
Qed.

#[export] Instance prod_total {A B} `{TotalOrd A, TotalOrd B} : TotalOrd (A * B).
Proof.
  split; unfold cmp, prod_cmp.
  - intros [a b] [a' b']; simpl. destruct (cmp a a') eqn:E; simpl.
    + apply cmp_eq in E as ->. rewrite cmp_eq. naive_solver.
    + split; [done|]. intros [= -> ->]. assert (cmp a' a' = Eq) by by apply cmp_eq. congruence.
    + split; [done|]. intros [= -> ->]. assert (cmp a' a' = Eq) by by apply cmp_eq. congruence.
  - intros [a b] [a' b']; simpl. rewrite (cmp_opp a a'), (cmp_opp b b'). apply then_cmp_opp.
  - intros [a b] [a' b'] [a'' b'']; simpl.
    destruct (cmp a a') eqn:E1; destruct (cmp a' a'') eqn:E2; simpl; try done; intros H1' H2'.
    + apply cmp_eq in E1, E2. subst. assert (cmp a'' a'' = Eq) as -> by by apply cmp_eq. simpl.
      eauto using cmp_trans.
    + apply cmp_eq in E1. subst. by rewrite E2.
    + apply cmp_eq in E2. subst. by rewrite E1.
    + by rewrite (cmp_trans _ _ _ E1 E2).
Qed.

#[export] Instance option_total {A} `{TotalOrd A} : TotalOrd (option A).
Proof.
  split; unfold cmp, option_cmp.
  - intros [x|] [y|]; [rewrite cmp_eq; naive_solver|done..].
  - intros [x|] [y|]; [apply cmp_opp|done..].
  - intros [x|] [y|] [z|]; try done. apply cmp_trans.
Qed.

#[export] Instance list_total {A} `{TotalOrd A} : TotalOrd (list A).
Proof.
  split; unfold cmp, list_cmp.
  - intros x. induction x as [|a x IH]; intros [|b y]; simpl; try done.
    destruct (cmp a b) eqn:E; simpl.
    + apply cmp_eq in E as ->. rewrite IH. split; [by intros ->|by intros [= ->]].
    + split; [done|]. intros [= -> ->]. assert (cmp b b = Eq) by by apply cmp_eq. congruence.
    + split; [done|]. intros [= -> ->]. assert (cmp b b = Eq) by by apply cmp_eq. congruence.
  - intros x. induction x as [|a x IH]; intros [|b y]; simpl; try done.
    rewrite (cmp_opp a b), IH. apply then_cmp_opp.
  - intros x. induction x as [|a x IH]; intros [|b y] [|c z]; simpl; try done.
    destruct (cmp a b) eqn:E1; destruct (cmp b c) eqn:E2; simpl; try done; intros H1' H2'.
    + apply cmp_eq in E1, E2. subst. assert (cmp c c = Eq) as -> by by apply cmp_eq. simpl.
      eauto.
    + apply cmp_eq in E1. subst. by rewrite E2.
    + apply cmp_eq in E2. subst. by rewrite E1.
    + by rewrite (cmp_trans _ _ _ E1 E2).
Qed.
End instances.

(** ** Reasoning about comparisons and [BTreeSet]s *)

Section laws.
Context {A : Type} `{TotalOrd A}.
Implicit Types (x y z : A) (l k : list A).

Lemma cmp_refl x : cmp x x = Eq.
Proof. by apply cmp_eq. Qed.

Lemma cmp_gt_lt x y : cmp x y = Gt ↔ cmp y x = Lt.
Proof. rewrite (cmp_opp x y). by destruct (cmp x y). Qed.

Lemma cmp_lt_irrefl x : ¬ cmp_lt x x.
Proof. unfold cmp_lt. by rewrite cmp_refl. Qed.

Lemma cmp_spec x y : CompareSpec (x = y) (cmp_lt x y) (cmp_lt y x) (cmp x y).
Proof.
  destruct (cmp x y) eqn:E; constructor; [by apply cmp_eq|done|by apply cmp_gt_lt].
Qed.

Lemma cmp_lt_trans x y z : cmp_lt x y → cmp_lt y z → cmp_lt x z.
Proof. apply cmp_trans. Qed.

Lemma cmp_lt_asym x y : cmp_lt x y → cmp_lt y x → False.
Proof. intros L1 L2. by eapply cmp_lt_irrefl, cmp_lt_trans. Qed.

Lemma cmp_lt_ne x y : cmp_lt x y → x ≠ y.
Proof. intros L ->. by eapply cmp_lt_irrefl. Qed.

#[export] Instance cmp_lt_dec x y : Decision (cmp_lt x y).
Proof. unfold cmp_lt. solve_decision. Defined.

Lemma sorted_cons x l : sorted (x :: l) ↔ sorted l ∧ ∀ y, y ∈ l → cmp_lt x y.
Proof.
  unfold sorted. split.
  - intros S. apply StronglySorted_inv in S as [S F]. rewrite Forall_forall in F. by split.
  - intros [S F]. constructor; [done|]. by apply Forall_forall.
Qed.

Lemma sorted_nil : sorted (@nil A).
Proof. constructor. Qed.

Lemma sorted_singleton x : sorted [x].
Proof. apply sorted_cons. split; [apply sorted_nil|]. by intros y ?%elem_of_nil. Qed.

Lemma sorted_NoDup l : sorted l → NoDup l.
Proof.
  induction l as [|x l IH]; [constructor|]. rewrite sorted_cons. intros [S F].
  constructor; [|by apply IH]. intros E. by eapply cmp_lt_irrefl, F.
Qed.

Lemma sorted_app l k :
  sorted (l ++ k) ↔ sorted l ∧ sorted k ∧ ∀ x y, x ∈ l → y ∈ k → cmp_lt x y.
Proof.
  induction l as [|z l IH]; simpl.
  { split; [|naive_solver]. intros. split_and!; [apply sorted_nil|done|].
    by intros x y ?%elem_of_nil. }
  rewrite !sorted_cons, IH. setoid_rewrite elem_of_app. setoid_rewrite elem_of_cons.
  split.
  - intros ((?&?&?)&?). split_and!; [done|auto|done|]. intros x y [->|?] ?; auto.
  - intros ((?&?)&?&?). split_and!; [done|done|auto|]. intros y [?|?]; auto.
Qed.

Lemma sorted_sublist l k : sublist l k → sorted k → sorted l.
Proof.
  induction 1 as [|x l k Hs IH|x l k Hs IH]; [done| |].
  - rewrite !sorted_cons. intros [S F]. split; [by apply IH|]. intros y Hy.
    apply F. by eapply elem_of_sublist.
  - rewrite sorted_cons. naive_solver.
Qed.

Lemma sorted_take n l : sorted l → sorted (take n l).
Proof. apply sorted_sublist, sublist_take. Qed.
Lemma sorted_drop n l : sorted l → sorted (drop n l).
Proof. apply sorted_sublist, sublist_drop. Qed.
Lemma sorted_filter (P : A → Prop) `{!∀ x, Decision (P x)} l : sorted l → sorted (filter P l).
Proof. apply sorted_sublist, sublist_filter. Qed.

(** A sorted list is determined by its elements. *)
Lemma sorted_ext l k : sorted l → sorted k → (∀ x, x ∈ l ↔ x ∈ k) → l = k.
Proof.
  revert k. induction l as [|x l IH]; intros [|y k] Sl Sk E.
  - done.
  - exfalso. apply (not_elem_of_nil y), E. left.
  - exfalso. apply (not_elem_of_nil x), E. left.
  - apply sorted_cons in Sl as [Sl Fl]. apply sorted_cons in Sk as [Sk Fk].
    assert (x = y) as ->.
    { destruct (cmp_spec x y) as [|L|L]; [done| |].
      - destruct (proj1 (elem_of_cons _ _ _) (proj1 (E x) (list_elem_of_here _ _))) as [|Hx];
          [done|]. destruct (cmp_lt_asym x y); auto.
      - destruct (proj1 (elem_of_cons _ _ _) (proj2 (E y) (list_elem_of_here _ _))) as [|Hy];
          [done|]. destruct (cmp_lt_asym y x); auto. }
    f_equal. apply IH; [done..|]. intros z. specialize (E z). rewrite !elem_of_cons in E.
    split; intros Hz.
    + destruct (proj1 E (or_intror Hz)) as [->|]; [|done]. by destruct (cmp_lt_irrefl y (Fl _ Hz)).
    + destruct (proj2 E (or_intror Hz)) as [->|]; [|done]. by destruct (cmp_lt_irrefl y (Fk _ Hz)).
Qed.

Lemma bt_contains_spec x l : sorted l → bt_contains x l = true ↔ x ∈ l.
Proof.
  induction l as [|y l IH]; simpl; [by rewrite elem_of_nil|].
  rewrite sorted_cons, elem_of_cons. intros [S F]. destruct (cmp_spec x y) as [->|L|L].
  - naive_solver.
  - split; [done|]. intros [->|Hy]; [by apply cmp_lt_irrefl in L|].
    exfalso. eapply cmp_lt_asym; eauto.
  - rewrite IH by done. apply cmp_lt_ne in L. naive_solver.
Qed.

Lemma elem_of_bt_insert x y l : y ∈ bt_insert x l ↔ y = x ∨ y ∈ l.
Proof.
  induction l as [|z l IH]; simpl; [rewrite list_elem_of_singleton, elem_of_nil; naive_solver|].
  destruct (cmp_spec x z) as [->|L|L]; rewrite ?elem_of_cons, ?IH; naive_solver.
Qed.

Lemma bt_insert_sorted x l : sorted l → sorted (bt_insert x l).
Proof.
  induction l as [|z l IH]; simpl; [intros; apply sorted_singleton|].
  destruct (cmp_spec x z) as [->|L|L]; [done| |]; rewrite !sorted_cons.
  - intros [S F]. split_and!; [done..|]. intros y [->|Hy]%elem_of_cons; [done|].
    eauto using cmp_lt_trans.
  - intros [S F]. split; [auto|]. intros y [->|Hy]%elem_of_bt_insert; auto.
Qed.

Lemma elem_of_bt_remove x y l : sorted l → y ∈ bt_remove x l ↔ y ∈ l ∧ y ≠ x.
Proof.
  induction l as [|z l IH]; simpl; [by rewrite elem_of_nil; naive_solver|].
  rewrite sorted_cons. intros [S F].
  assert (∀ w, w ∈ l → w ≠ z) as N by (intros w Hw ->; by eapply cmp_lt_irrefl, F).
  destruct (cmp_spec x z) as [->|L|L]; rewrite ?elem_of_cons, ?IH by done.
  - naive_solver.
  - split; [|naive_solver]. intros Hy. split; [done|]. intros ->.
    destruct Hy as [->|Hy]; [by eapply cmp_lt_irrefl|]. eapply cmp_lt_asym; eauto.
  - apply cmp_lt_ne in L. naive_solver.
Qed.

Lemma bt_remove_sublist x l : sublist (bt_remove x l) l.
Proof.
  induction l as [|z l IH]; simpl; [done|].
  destruct (cmp x z); [by apply sublist_cons|done|by apply sublist_skip].
Qed.

Lemma bt_remove_sorted x l : sorted l → sorted (bt_remove x l).
Proof. apply sorted_sublist, bt_remove_sublist. Qed.

Lemma elem_of_bt_extend y xs l : y ∈ bt_extend xs l ↔ y ∈ xs ∨ y ∈ l.
Proof.
  unfold bt_extend. revert l. induction xs as [|x xs IH]; intros l; simpl.
  - rewrite elem_of_nil. naive_solver.
  - rewrite IH, elem_of_cons, elem_of_bt_insert. naive_solver.
Qed.

Lemma bt_extend_sorted xs l : sorted l → sorted (bt_extend xs l).
Proof. unfold bt_extend. revert l. induction xs; simpl; auto using bt_insert_sorted. Qed.

Lemma elem_of_bt_of_list y xs : y ∈ bt_of_list xs ↔ y ∈ xs.
Proof. unfold bt_of_list. rewrite elem_of_bt_extend, elem_of_nil. naive_solver. Qed.

Lemma bt_of_list_sorted xs : sorted (bt_of_list xs).
Proof. apply bt_extend_sorted, sorted_nil. Qed.

Lemma bt_of_list_sorted_id l : sorted l → bt_of_list l = l.
Proof. intros. apply sorted_ext; [apply bt_of_list_sorted|done|intros; apply elem_of_bt_of_list]. Qed.
End laws.

#[export] Hint Resolve sorted_nil sorted_singleton sorted_NoDup sorted_take sorted_drop
  sorted_filter bt_insert_sorted bt_remove_sorted bt_extend_sorted bt_of_list_sorted : myko.
