(* ===== verification/GraphTypes.v ===== *)
(** * Graph data model

    The data of [core/src/core/graph.rs] that is not a registry or an index: entity
    references, endpoint values, the policies an edge type declares, its registration,
    and the errors of the graph index with their display text. *)

From Stdlib Require Import Strings.Byte.
From stdpp Require Import base strings numbers option countable gmap sets list.
From S2P Require Import Prelude Order.

(** ** Entity references and endpoint values *)

Record EntityRef := mkEntityRef { ref_type : string; ref_id : string }.

(** Canonical bytes of a qualifier or scope. *)
Record IndexValue := mkIndexValue { index_bytes : list Byte.byte }.

Record EndpointValue := mkEndpointValue {
  ep_entity : EntityRef;
  ep_qualifier : option IndexValue
}.

Record EdgeEndpoints := mkEdgeEndpoints { ends_a : EndpointValue; ends_b : EndpointValue }.

Inductive EdgeShapeKind := Directed | Undirected.
Inductive EndPosition := PosA | PosB.
Inductive PairPolicy := Parallel | Unique.
Inductive PairProjectionPolicy := IntersectAdjacency | PairEager.
Inductive AdjacencyPolicy := DemandDriven | Eager.
Inductive SelfLoopPolicy := AllowLoops | RejectLoops.
Inductive EndpointDeletePolicy := CascadeEdge | RestrictEndpointDelete | RetainDangling.
Inductive EdgeApplyMode := Authoritative | Replay | Import | Federated | Observe.
Inductive Direction := Forward | Reverse | Both.

Inductive EndpointRequirement :=
| Concrete (expected : string)
| OneOf (expected : list string)
| Category (category : string)
| AnyRegisteredItem.

Inductive MEventType := SET | DEL.

(** ** Decidable equality, countability and the derived orders *)

#[export] Instance byte_eq_dec : EqDecision Byte.byte := Byte.byte_eq_dec.
#[export] Instance byte_countable : Countable Byte.byte.
Proof.
  apply (inj_countable Byte.to_N Byte.of_N). exact Byte.of_to_N.
Defined.

#[export] Instance EntityRef_eq_dec : EqDecision EntityRef.
Proof. solve_decision. Defined.
#[export] Instance EntityRef_countable : Countable EntityRef.
Proof.
  by apply (inj_countable' (λ r, (ref_type r, ref_id r)) (λ p, mkEntityRef p.1 p.2)); intros [].
Defined.
#[export] Instance EntityRef_cmp : Cmp EntityRef := λ r s,
  cmp (ref_type r, ref_id r) (ref_type s, ref_id s).

#[export] Instance IndexValue_eq_dec : EqDecision IndexValue.
Proof. solve_decision. Defined.
#[export] Instance IndexValue_countable : Countable IndexValue.
Proof. by apply (inj_countable' index_bytes mkIndexValue); intros []. Defined.
#[export] Instance IndexValue_cmp : Cmp IndexValue := λ v w, cmp (index_bytes v) (index_bytes w).

#[export] Instance EndpointValue_eq_dec : EqDecision EndpointValue.
Proof. solve_decision. Defined.
#[export] Instance EndpointValue_countable : Countable EndpointValue.
Proof.
  by apply (inj_countable' (λ e, (ep_entity e, ep_qualifier e)) (λ p, mkEndpointValue p.1 p.2));
    intros [].
Defined.
#[export] Instance EndpointValue_cmp : Cmp EndpointValue := λ e f,
  cmp (ep_entity e, ep_qualifier e) (ep_entity f, ep_qualifier f).

#[export] Instance EdgeEndpoints_eq_dec : EqDecision EdgeEndpoints.
Proof. solve_decision. Defined.
#[export] Instance EdgeShapeKind_eq_dec : EqDecision EdgeShapeKind.
Proof. solve_decision. Defined.
#[export] Instance EndPosition_eq_dec : EqDecision EndPosition.
Proof. solve_decision. Defined.
#[export] Instance PairPolicy_eq_dec : EqDecision PairPolicy.
Proof. solve_decision. Defined.
#[export] Instance PairProjectionPolicy_eq_dec : EqDecision PairProjectionPolicy.
Proof. solve_decision. Defined.
#[export] Instance AdjacencyPolicy_eq_dec : EqDecision AdjacencyPolicy.
Proof. solve_decision. Defined.
#[export] Instance SelfLoopPolicy_eq_dec : EqDecision SelfLoopPolicy.
Proof. solve_decision. Defined.
#[export] Instance EndpointDeletePolicy_eq_dec : EqDecision EndpointDeletePolicy.
Proof. solve_decision. Defined.
#[export] Instance EdgeApplyMode_eq_dec : EqDecision EdgeApplyMode.
Proof. solve_decision. Defined.
#[export] Instance Direction_eq_dec : EqDecision Direction.
Proof. solve_decision. Defined.
#[export] Instance MEventType_eq_dec : EqDecision MEventType.
Proof. solve_decision. Defined.
#[export] Instance EndpointRequirement_eq_dec : EqDecision EndpointRequirement.
Proof. solve_decision. Defined.
#[export] Instance EndPosition_countable : Countable EndPosition.
Proof.
  by apply (inj_countable' (λ p, match p with PosA => false | PosB => true end)
    (λ b : bool, if b then PosB else PosA)); intros [].
Defined.

#[export] Instance EndPosition_cmp : Cmp EndPosition := λ p q,
  match p, q with PosA, PosB => Lt | PosB, PosA => Gt | _, _ => Eq end.

(** A comparison pulled back along an injection is total. *)
Lemma total_via {A B} `{Cmp A, TotalOrd B} (f : A → B) :
  (∀ x y, f x = f y → x = y) → (∀ x y : A, cmp x y = cmp (f x) (f y)) → TotalOrd A.
Proof.
  intros I E. split; intros *; rewrite ?E.
  - rewrite cmp_eq. split; [apply I|by intros ->].
  - apply cmp_opp.
  - apply cmp_trans.
Qed.

#[export] Instance EntityRef_total : TotalOrd EntityRef.
Proof. by apply (total_via (λ r, (ref_type r, ref_id r))); [intros [] [] [= -> ->]|]. Qed.
#[export] Instance IndexValue_total : TotalOrd IndexValue.
Proof. by apply (total_via index_bytes); [intros [] [] [= ->]|]. Qed.
#[export] Instance EndpointValue_total : TotalOrd EndpointValue.
Proof. by apply (total_via (λ e, (ep_entity e, ep_qualifier e))); [intros [] [] [= -> ->]|]. Qed.

(** The endpoint of an edge at a position. *)
Definition end_at (position : EndPosition) (e : EdgeEndpoints) : EndpointValue :=
  match position with PosA => ends_a e | PosB => ends_b e end.

(** ** Errors

    One constructor per [bail!] or [context] of the index; [ErrMsg] carries the message of
    an error that the extraction functions or a domain validator return. *)

Inductive GraphError :=
| ErrNoCanonicalItem
| ErrNoNewValue
| ErrEndpointRejects (edge_type : string) (position : EndPosition) (entity_type : string)
| ErrEndpointMissing (edge_type : string) (position : EndPosition) (entity : EntityRef)
| ErrSelfLoop (edge_type : string)
| ErrPairOccupied (edge_type existing : string)
| ErrDuplicateReservation (edge_type existing id : string)
| ErrDeleteRestricted (entity : EntityRef) (edge_type id : string) (position : EndPosition)
| ErrMsg (message : string).

Definition show_position (p : EndPosition) : string :=
  match p with PosA => "A" | PosB => "B" end.

(** The text of [error.to_string()]. *)
Definition display (e : GraphError) : string :=
  match e with
  | ErrNoCanonicalItem => "graph mutation has no canonical item"
  | ErrNoNewValue => "edge deletion has no new value"
  | ErrEndpointRejects t p et =>
      t +:+ " endpoint " +:+ show_position p +:+ " rejects entity type " +:+ et
  | ErrEndpointMissing t p r =>
      t +:+ " endpoint " +:+ show_position p +:+ " does not exist: " +:+ ref_type r +:+ ":" +:+
      ref_id r
  | ErrSelfLoop t => t +:+ " rejects self-loops"
  | ErrPairOccupied t id => t +:+ " pair is already occupied by edge " +:+ id
  | ErrDuplicateReservation t i j =>
      t +:+ " batch contains duplicate pair reservations " +:+ i +:+ " and " +:+ j
  | ErrDeleteRestricted r t id p =>
      "cannot delete " +:+ ref_type r +:+ ":" +:+ ref_id r +:+ "; " +:+ t +:+ " edge " +:+ id +:+
      " is incident at " +:+ show_position p
  | ErrMsg m => m
  end.

(** ** Items and edge registrations *)

(** A [dyn AnyItem]: its type name, its id, and the fields the type defines. *)
Record Item (P : Type) := mkItem { item_type : string; item_id : string; item_payload : P }.
Arguments mkItem {P}.
Arguments item_type {P}.
Arguments item_id {P}.
Arguments item_payload {P}.

Record EdgeEndpointRegistration := mkEndpointReg {
  er_position : EndPosition;
  er_requirement : EndpointRequirement;
  er_qualifier_type : option string
}.

(** [EdgeRegistration]; the function pointers are the fields [extract], [extract_scope] and
    [validate], the last one given the existence test of its [EdgeValidationContext]. *)
Record EdgeRegistration (P : Type) := mkEdgeRegistration {
  edge_type : string;
  shape : EdgeShapeKind;
  pair_policy : PairPolicy;
  pair_projection : PairProjectionPolicy;
  endpoint_a : EdgeEndpointRegistration;
  endpoint_b : EdgeEndpointRegistration;
  scope_type : option string;
  adjacency : AdjacencyPolicy;
  self_loops : SelfLoopPolicy;
  a_delete : EndpointDeletePolicy;
  b_delete : EndpointDeletePolicy;
  extract : Item P → result GraphError EdgeEndpoints;
  extract_scope : Item P → result GraphError (option IndexValue);
  validate : option ((EntityRef → bool) → Item P → result GraphError unit)
}.
Arguments edge_type {P}.
Arguments shape {P}.
Arguments pair_policy {P}.
Arguments pair_projection {P}.
Arguments endpoint_a {P}.
Arguments endpoint_b {P}.
Arguments scope_type {P}.
Arguments adjacency {P}.
Arguments self_loops {P}.
Arguments a_delete {P}.
Arguments b_delete {P}.
Arguments extract {P}.
Arguments extract_scope {P}.
Arguments validate {P}.

(** One store per entity type, and a store's items by id. *)
Abbreviation EntityStore P := (gmap string (Item P)).
Abbreviation StoreRegistry P := (gmap string (gmap string (Item P))).

(** ** Canonical stores

    [StoreRegistry::get_or_create] followed by [CellMap::insert] or [CellMap::remove], as
    [reduce_one] of [core/src/server/context.rs] performs them. *)
Section stores.
Context {P : Type}.
Implicit Types (registry : StoreRegistry P) (item : Item P).

Definition get_or_create registry (t : string) : EntityStore P := default ∅ (registry !! t).

Definition store_insert registry item : StoreRegistry P :=
  <[item_type item := <[item_id item := item]> (get_or_create registry (item_type item))]> registry.

Definition store_remove registry (t id : string) : StoreRegistry P :=
  <[t := delete id (get_or_create registry t)]> registry.

(** Every item is stored under its own type and id. *)
Definition registry_ok registry : Prop :=
  ∀ t store id item, registry !! t = Some store → store !! id = Some item →
    item_type item = t ∧ item_id item = id.

Lemma get_or_create_ok registry t id item :
  registry_ok registry → get_or_create registry t !! id = Some item →
  item_type item = t ∧ item_id item = id.
Proof.
  intros W E. unfold get_or_create in E. destruct (registry !! t) as [s|] eqn:Et; simpl in E.
  - by eapply W.
  - by rewrite lookup_empty in E.
Qed.

Lemma get_or_create_insert registry item t :
  get_or_create (store_insert registry item) t =
    if decide (item_type item = t)
    then <[item_id item := item]> (get_or_create registry t) else get_or_create registry t.
Proof.
  unfold store_insert. case_decide as E; unfold get_or_create at 1.
  - subst. by rewrite lookup_insert_eq.
  - by rewrite lookup_insert_ne.
Qed.

Lemma get_or_create_remove registry t id t' :
  get_or_create (store_remove registry t id) t' =
    if decide (t = t') then delete id (get_or_create registry t') else get_or_create registry t'.
Proof.
  unfold store_remove. case_decide as E; unfold get_or_create at 1.
  - subst. by rewrite lookup_insert_eq.
  - by rewrite lookup_insert_ne.
Qed.

Lemma store_insert_ok registry item : registry_ok registry → registry_ok (store_insert registry item).
Proof.
  intros W t s id it Hs Hi. unfold store_insert in Hs.
  apply lookup_insert_Some in Hs as [[<- <-]|[? Hs]]; [|by eapply W].
  apply lookup_insert_Some in Hi as [[<- <-]|[? Hi]]; [done|by apply get_or_create_ok in Hi].
Qed.

Lemma store_remove_ok registry t id : registry_ok registry → registry_ok (store_remove registry t id).
Proof.
  intros W t' s i it Hs Hi. unfold store_remove in Hs.
  apply lookup_insert_Some in Hs as [[<- <-]|[? Hs]]; [|by eapply W].
  apply lookup_delete_Some in Hi as [_ Hi]. by apply get_or_create_ok in Hi.
Qed.

Lemma empty_registry_ok : registry_ok (∅ : StoreRegistry P).
Proof. intros t s id item Hs. by rewrite lookup_empty in Hs. Qed.
End stores.

#[export] Hint Resolve store_insert_ok store_remove_ok empty_registry_ok : myko.
