(* ===== verification/EdgeIds.v ===== *)
(** * Edge id buckets

    [EdgeIds] of [core/src/core/graph.rs]: the ids that share one key of an adjacency or
    pair index, kept unboxed while there is only one.  The abstract view of a bucket is
    the sorted list of its ids. *)

From stdpp Require Import base strings numbers option gmap sets list.
From S2P Require Import Prelude Order GraphTypes.

(** ** Windows ([wire/query.rs]) *)

Record QueryWindow := mkQueryWindow { offset : Z; limit : Z }.

Record QueryCursorWindow := mkQueryCursorWindow {
  cw_after : option string;
  cw_before : option string;
  cw_limit : Z
}.

Definition cursor_first (limit : Z) : QueryCursorWindow := mkQueryCursorWindow None None limit.
Definition cursor_after (c : string) (limit : Z) : QueryCursorWindow :=
  mkQueryCursorWindow (Some c) None limit.
Definition cursor_before (c : string) (limit : Z) : QueryCursorWindow :=
  mkQueryCursorWindow None (Some c) limit.

(** [QueryCursorWindow::validate]: at most one direction. *)
Definition cursor_validate (w : QueryCursorWindow) : result string unit :=
  match cw_after w, cw_before w with
  | Some _, Some _ => Err "cursor window cannot contain both after and before"
  | _, _ => Ok ()
  end.

#[export] Instance QueryWindow_eq_dec : EqDecision QueryWindow.
Proof. solve_decision. Defined.
#[export] Instance QueryCursorWindow_eq_dec : EqDecision QueryCursorWindow.
Proof. solve_decision. Defined.

Inductive GraphWindowSelection :=
| Offset (window : option QueryWindow)
| Cursor (window : QueryCursorWindow).

#[export] Instance GraphWindowSelection_eq_dec : EqDecision GraphWindowSelection.
Proof. solve_decision. Defined.

Definition offset_window (s : GraphWindowSelection) : option QueryWindow :=
  match s with Offset w => w | Cursor _ => None end.

(** ** The bucket *)

Inductive EdgeIds :=
| One (id : string)
| Many (ids : list string).

Module EdgeIds.
Definition insert (b : EdgeIds) (id : string) : EdgeIds :=
  match b with
  | One existing => if decide (existing = id) then One existing else Many (bt_of_list [existing; id])
  | Many ids => Many (bt_insert id ids)
  end.

(** The bucket after removal, and whether the containing map entry is now empty. *)
Definition remove (b : EdgeIds) (id : string) : EdgeIds * bool :=
  match b with
  | One existing => (One existing, bool_decide (existing = id))
  | Many ids =>
      let ids' := bt_remove id ids in
      let empty := bool_decide (ids' = []) in
      match ids' with
      | [remaining] => (One remaining, empty)
      | _ => (Many ids', empty)
      end
  end.

Definition ids (b : EdgeIds) : list string :=
  match b with One id => [id] | Many ids => ids end.

Definition window (b : EdgeIds) (w : option QueryWindow) : list string :=
  let '(offset, limit) :=
    match w with None => (0, usize_max) | Some w => (offset w, limit w) end%Z in
  if decide (limit = 0%Z) then []
  else match b with
       | One id => if decide (offset = 0%Z) then [id] else []
       | Many ids => take_z limit (skip_z offset ids)
       end.

Definition cursor_window (b : EdgeIds) (w : QueryCursorWindow) : list string :=
  if decide (cw_limit w = 0%Z) then []
  else match b with
       | One id =>
           let after_matches :=
             match cw_after w with None => true | Some a => bool_decide (cmp_lt a id) end in
           let before_matches :=
             match cw_before w with None => true | Some c => bool_decide (cmp_lt id c) end in
           if after_matches && before_matches then [id] else []
       | Many ids =>
           match cw_after w with
           | Some a => take_z (cw_limit w) (filter (λ id, cmp_lt a id) ids)
           | None =>
               match cw_before w with
               | None => take_z (cw_limit w) ids
               | Some c => rev (take_z (cw_limit w) (rev (filter (λ id, cmp_lt id c) ids)))
               end
           end
       end.

Definition extend_cloned (b : EdgeIds) (target : list string) : list string :=
  match b with
  | One id => bt_insert id target
  | Many ids => bt_extend ids target
  end.

Definition len (b : EdgeIds) : Z :=
  match b with One _ => 1%Z | Many ids => len ids end.

Definition is_empty (b : EdgeIds) : bool := bool_decide (len b = 0%Z).

Definition contains (b : EdgeIds) (candidate : string) : bool :=
  match b with
  | One id => bool_decide (id = candidate)
  | Many ids => bt_contains candidate ids
  end.

Definition first (b : EdgeIds) : option string :=
  match b with One id => Some id | Many ids => head ids end.

Definition conflicting_id_ignoring (b : EdgeIds) (candidate : string) (ignored : gset string)
  : option string :=
  let conflicts id := negb (bool_decide (id = candidate)) && negb (bool_decide (id ∈ ignored)) in
  match b with
  | One id => if conflicts id then Some id else None
  | Many ids => List.find conflicts ids
  end.

(** A bucket as the index builds it: [Many] only with two ids or more, in order. *)
Definition wf (b : EdgeIds) : Prop :=
  match b with One _ => True | Many ids => sorted ids ∧ 2 ≤ length ids end.

(** *** The bucket as a sorted set *)

Lemma ids_sorted b : wf b → sorted (ids b).
Proof. destruct b; simpl; [intros; apply sorted_singleton|by intros []]. Qed.

Lemma ids_nonempty b : wf b → ids b ≠ [].
Proof. destruct b as [|[]]; simpl; [done|intros []; lia|done]. Qed.

Lemma insert_ids b id : wf b → ids (insert b id) = bt_insert id (ids b).
Proof.
  destruct b as [e|l]; simpl; [|done]. intros _. case_decide as E; simpl.
  - subst. by rewrite cmp_refl.
  - unfold bt_of_list, bt_extend. simpl. destruct (cmp_spec id e); [done| |]; done.
Qed.

Lemma insert_wf b id : wf b → wf (insert b id).
Proof.
  destruct b as [e|l]; simpl.
  - intros _. case_decide as E; simpl; [done|]. split; [apply bt_of_list_sorted|].
    unfold bt_of_list, bt_extend. simpl. destruct (cmp_spec id e); [congruence|simpl; lia..].
  - intros [S L]. split; [by apply bt_insert_sorted|].
    assert (length l ≤ length (bt_insert id l)); [|lia].
    clear. induction l as [|x l IH]; simpl; [lia|]. destruct (cmp id x); simpl; lia.
Qed.

(** Removal is removal from the sorted set; the flag says when the set became empty. *)
Lemma remove_spec b id b' empty :
  wf b → remove b id = (b', empty) →
  if empty then bt_remove id (ids b) = []
  else wf b' ∧ ids b' = bt_remove id (ids b).
Proof.
  destruct b as [e|l]; simpl.
  - intros _ [= <- <-]. destruct (cmp_spec id e) as [->|L|L]; simpl.
    + by rewrite bool_decide_eq_true_2.
    + rewrite bool_decide_eq_false_2 by (by apply not_eq_sym, cmp_lt_ne). done.
    + rewrite bool_decide_eq_false_2 by (by apply cmp_lt_ne). done.
  - intros [S _]. pose proof (bt_remove_sorted id l S) as S'.
    destruct (bt_remove id l) as [|x [|y r]]; intros [= <- <-]; simpl; [done..|].
    split; [|done]. split; [done|simpl; lia].
Qed.

Lemma contains_spec b id : wf b → contains b id = true ↔ id ∈ ids b.
Proof.
  destruct b as [e|l]; simpl.
  - rewrite bool_decide_eq_true, list_elem_of_singleton. naive_solver.
  - intros [S _]. by apply bt_contains_spec.
Qed.

Lemma len_spec b : len b = Prelude.len (ids b).
Proof. by destruct b. Qed.

Lemma is_empty_spec b : is_empty b = true ↔ ids b = [].
Proof.
  unfold is_empty. rewrite len_spec, bool_decide_eq_true. unfold Prelude.len.
  destruct (ids b); simpl; split; try done; lia.
Qed.

Lemma elem_of_extend_cloned b target id :
  id ∈ extend_cloned b target ↔ id ∈ ids b ∨ id ∈ target.
Proof.
  destruct b; simpl.
  - by rewrite elem_of_bt_insert, list_elem_of_singleton.
  - apply elem_of_bt_extend.
Qed.

Lemma extend_cloned_sorted b target : sorted target → sorted (extend_cloned b target).
Proof. destruct b; simpl; [apply bt_insert_sorted|apply bt_extend_sorted]. Qed.

Lemma first_spec b : first b = head (ids b).
Proof. by destruct b. Qed.

(** The id reported as a conflict is one of the bucket, and none is reported exactly
    when all the ids are the candidate or ignored. *)
Lemma conflicting_id_spec b candidate ignored :
  match conflicting_id_ignoring b candidate ignored with
  | Some id => id ∈ ids b ∧ id ≠ candidate ∧ id ∉ ignored
  | None => ∀ id, id ∈ ids b → id = candidate ∨ id ∈ ignored
  end.
Proof.
  destruct b as [e|l]; simpl.
  - destruct (negb _ && negb _) eqn:E.
    + apply andb_true_iff in E as [E1%negb_true_iff%bool_decide_eq_false
        E2%negb_true_iff%bool_decide_eq_false]. by rewrite list_elem_of_singleton.
    + intros id ->%list_elem_of_singleton. apply andb_false_iff in E.
      rewrite !negb_false_iff, !bool_decide_eq_true in E. done.
  - destruct (List.find _ l) as [id|] eqn:E.
    + apply List.find_some in E as [Hin E].
      apply andb_true_iff in E as [E1%negb_true_iff%bool_decide_eq_false
        E2%negb_true_iff%bool_decide_eq_false]. by rewrite list_elem_of_In.
    + intros id Hin%list_elem_of_In. pose proof (List.find_none _ _ E _ Hin) as N.
      apply andb_false_iff in N. rewrite !negb_false_iff, !bool_decide_eq_true in N. done.
Qed.

(** *** Windows *)

Lemma window_ids b w :
  wf b → (0 ≤ offset w)%Z → (0 ≤ limit w)%Z →
  window b (Some w) = take_z (limit w) (skip_z (offset w) (ids b)).
Proof.
  destruct w as [o l]; cbn [offset limit]. intros W Ho Hl. unfold window. cbn [offset limit].
  case_decide as E.
  - subst. rewrite take_z_take. done.
  - destruct b as [e|r]; cbn [ids]; [|done].
    rewrite skip_z_drop, take_z_take. case_decide as E'.
    + subst. replace (Z.to_nat l) with (S (Z.to_nat (l - 1))) by lia. simpl. by rewrite take_nil.
    + replace (Z.to_nat o) with (S (Z.to_nat (o - 1))) by lia. simpl.
      by rewrite drop_nil, take_nil.
Qed.

(** What a valid cursor selects: the first ids after the cursor, or the last before it. *)
Definition cursor_spec (w : QueryCursorWindow) (l : list string) : list string :=
  match cw_after w, cw_before w with
  | Some a, _ => take_z (cw_limit w) (filter (λ id, cmp_lt a id) l)
  | None, Some c => rev (take_z (cw_limit w) (rev (filter (λ id, cmp_lt id c) l)))
  | None, None => take_z (cw_limit w) l
  end.

Lemma take_z_0 {A} (l : list A) : take_z 0 l = [].
Proof. by destruct l. Qed.

Lemma take_z_singleton {A} n (x : A) : (0 < n)%Z → take_z n [x] = [x].
Proof. simpl. intros. destruct (Z.leb_spec n 0); [lia|done]. Qed.

Lemma filter_one (P : string → Prop) `{!∀ x, Decision (P x)} x :
  filter P [x] = if decide (P x) then [x] else [].
Proof. done. Qed.

Lemma cursor_window_ids b w :
  cursor_validate w = Ok () → (0 ≤ cw_limit w)%Z →
  cursor_window b w = cursor_spec w (ids b).
Proof.
  destruct w as [a c l]; unfold cursor_validate, cursor_window, cursor_spec; simpl.
  intros V Hl. case_decide as E.
  { subst l. by destruct a, c; rewrite !take_z_0. }
  destruct b as [e|r]; simpl; [|by destruct a, c].
  destruct a as [a|], c as [c|]; [done|..]; cbn [ids]; rewrite ?andb_true_r;
    rewrite ?filter_one; [case_bool_decide..|].
  all: rewrite ?decide_True by done. all: rewrite ?decide_False by done. all: cbn [andb rev app].
  all: rewrite ?take_z_singleton by lia; try done.
  simpl. by replace (l <=? 0)%Z with false by lia.
Qed.

(** *** Reading a whole bucket page by page

    The client protocol over these windows: ask for a page, continue after its last id. *)
Fixpoint scroll (fuel : nat) (b : EdgeIds) (cursor : option string) (limit : Z)
  : list string :=
  match fuel with
  | 0 => []
  | S fuel' =>
      let page := cursor_window b (mkQueryCursorWindow cursor None limit) in
      match last page with
      | None => []
      | Some l => page ++ scroll fuel' b (Some l) limit
      end
  end.

Definition pending (cursor : option string) (l : list string) : list string :=
  match cursor with None => l | Some a => filter (λ id, cmp_lt a id) l end.

Lemma after_page (x : string) page rest :
  sorted (page ++ rest) → last page = Some x →
  filter (λ id, cmp_lt x id) (page ++ rest) = rest.
Proof.
  intros S L. pose proof S as (Sp & Sr & F)%sorted_app.
  apply sorted_ext; [by apply sorted_filter|done|]. intros y.
  apply last_Some in L as [p' ->]. rewrite list_elem_of_filter, !elem_of_app.
  split.
  - intros [Lt [[Hy| ->%list_elem_of_singleton]|?]]; [|by destruct (cmp_lt_irrefl x)|done].
    apply sorted_app in Sp as (_ & _ & F'). exfalso.
    apply (cmp_lt_asym x y Lt), F'; [done|by left].
  - intros Hy. split; [|by right]. apply F; [|done]. rewrite elem_of_app. right. left.
Qed.

Lemma pending_sorted cursor l : sorted l → sorted (pending cursor l).
Proof. destruct cursor; [apply sorted_filter|done]. Qed.

Lemma scroll_pending fuel b cursor limit :
  wf b → (0 < limit)%Z → length (pending cursor (ids b)) ≤ fuel →
  scroll fuel b cursor limit = pending cursor (ids b).
Proof.
  intros W Hl. revert cursor. induction fuel as [|fuel IH]; intros cursor Hf; simpl.
  { destruct (pending cursor (ids b)); [done|simpl in *; lia]. }
  assert (cursor_window b (mkQueryCursorWindow cursor None limit)
          = take (Z.to_nat limit) (pending cursor (ids b))) as ->.
  { rewrite cursor_window_ids by (first [by destruct cursor|simpl; lia]).
    unfold cursor_spec. destruct cursor; simpl; by rewrite take_z_take. }
  set (l := pending cursor (ids b)) in *.
  assert (sorted l) as Sl by (by apply pending_sorted, ids_sorted).
  destruct (last (take (Z.to_nat limit) l)) as [x|] eqn:L.
  2: { apply last_None in L. destruct l as [|y l']; [done|].
       replace (Z.to_nat limit) with (S (Z.to_nat (limit - 1))) in L by lia. done. }
  assert (pending (Some x) (ids b) = drop (Z.to_nat limit) l) as E.
  { assert (pending (Some x) (ids b) = filter (λ id, cmp_lt x id) l) as ->.
    { subst l. destruct cursor as [a|]; simpl; [|done].
      rewrite list_filter_filter_l; [done|]. intros y Lt. eapply cmp_lt_trans; [|done].
      apply last_Some_elem_of, elem_of_take in L as (i & L & _).
      apply list_elem_of_lookup_2, list_elem_of_filter in L. by destruct L. }
    rewrite <-(take_drop (Z.to_nat limit) l) at 1. apply after_page; [|done].
    by rewrite take_drop. }
  rewrite IH, E; [apply take_drop|].
  rewrite E, length_drop. destruct l; simpl in *; lia.
Qed.
End EdgeIds.
