(* ===== verification/GraphIndex.v ===== *)
(** * The graph index

    [GraphIndex], [GraphState] and the projection maintenance of
    [core/src/core/graph.rs]: construction from the inventory, the per-type adjacency and
    pair projections, and [apply], which keeps them in step with the canonical stores.
    The invariant [index_ok] says that every projection is exactly the one computed from
    the canonical store; [apply] preserves it and [rebuild] establishes it. *)

From stdpp Require Import base strings numbers option countable gmap sets list.
From S2P Require Import Prelude Order GraphTypes EdgeIds.

(** ** State *)

Record EdgePairKey := mkPairKey {
  pk_scope : option IndexValue;
  pk_a : EndpointValue;
  pk_b : EndpointValue
}.
#[export] Instance EdgePairKey_eq_dec : EqDecision EdgePairKey.
Proof. solve_decision. Defined.
#[export] Instance EdgePairKey_countable : Countable EdgePairKey.
Proof.
  by apply (inj_countable' (λ k, (pk_scope k, pk_a k, pk_b k))
    (λ p, mkPairKey p.1.1 p.1.2 p.2)); intros [].
Defined.

Record IndexedEdge := mkIndexedEdge {
  ie_id : string;
  ie_endpoints : EdgeEndpoints;
  ie_scope : option IndexValue
}.

Record EdgeTypeState := mkEdgeTypeState {
  et_generation : Z;
  et_edges : gmap string IndexedEdge;
  et_a : gmap EndpointValue EdgeIds;
  et_b : gmap EndpointValue EdgeIds;
  et_a_entities : gmap EntityRef EdgeIds;
  et_b_entities : gmap EntityRef EdgeIds;
  et_pairs : gmap EdgePairKey EdgeIds
}.
Definition EdgeTypeState_default : EdgeTypeState := mkEdgeTypeState 0 ∅ ∅ ∅ ∅ ∅ ∅.

Record GraphState := mkGraphState {
  gs_generation : Z;
  gs_edge_types : gmap string EdgeTypeState;
  gs_invalid_mutations : Z;
  gs_uniqueness_rejections : Z;
  gs_failed : bool
}.
Definition GraphState_default : GraphState := mkGraphState 0 ∅ 0 0 false.

(** The part of [GraphIndex] that [apply] does not change; [g_items] is the inventory of
    registered item types that [AnyRegisteredItem] endpoints consult. *)
Record GraphIndex (P : Type) := mkGraphIndex {
  g_registrations : gmap string (EdgeRegistration P);
  g_apply_modes : gmap string EdgeApplyMode;
  g_endpoint_adjacency : gmap string (AdjacencyPolicy * AdjacencyPolicy);
  g_categories : gmap string (gset string);
  g_items : gset string
}.
Arguments mkGraphIndex {P}.
Arguments g_registrations {P}.
Arguments g_apply_modes {P}.
Arguments g_endpoint_adjacency {P}.
Arguments g_categories {P}.
Arguments g_items {P}.

(** [collect::<HashMap>]: a later entry replaces an earlier one with its key. *)
Definition collect_map {K V} `{Countable K} (l : list (K * V)) : gmap K V :=
  foldl (λ m kv, <[kv.1:=kv.2]> m) ∅ l.

Section graph_index.
Context {P : Type}.
Implicit Types (g : GraphIndex P) (r : EdgeRegistration P) (item : Item P)
  (old new : option (Item P)) (et : EdgeTypeState) (st : GraphState)
  (registry : StoreRegistry P) (store : EntityStore P).

(** ** Construction *)

(** The inventory the program links: edge registrations, per-end adjacency overrides,
    category and category-membership registrations, and item registrations. *)
Record Inventory := mkInventory {
  inv_edges : list (EdgeRegistration P);
  inv_adjacency : list (string * (AdjacencyPolicy * AdjacencyPolicy));
  inv_categories : list string;
  inv_memberships : list (string * string);
  inv_items : list string
}.

Definition symmetric_ends r : bool :=
  bool_decide (er_requirement (endpoint_a r) = er_requirement (endpoint_b r)) &&
  bool_decide (er_qualifier_type (endpoint_a r) = er_qualifier_type (endpoint_b r)).

Definition add_membership (m : gmap string (gset string)) (membership : string * string)
  : gmap string (gset string) :=
  <[membership.1 := {[membership.2]} ∪ default ∅ (m !! membership.1)]> m.

(** [from_inventory]: [Ok None] when nothing is registered, [Err] when the schema
    assertion panics. *)
Definition from_inventory (inv : Inventory) : result string (option (GraphIndex P)) :=
  let registrations := collect_map ((λ r, (edge_type r, r)) <$> inv_edges inv) in
  if bool_decide (registrations = ∅) && bool_decide (inv_categories inv = [])
  then Ok None
  else
    let overrides := collect_map (inv_adjacency inv) in
    let adjacencies := (λ r : EdgeRegistration P,
      default (adjacency r, adjacency r) (overrides !! edge_type r)) <$> registrations in
    match List.find (λ r, bool_decide (shape r = Undirected) && negb (symmetric_ends r))
            (snd <$> map_to_list registrations) with
    | Some r => Err ("undirected edge " +:+ edge_type r +:+ " has asymmetric endpoint schemas")
    | None =>
        Ok (Some (mkGraphIndex registrations ∅ adjacencies
              (foldl add_membership ∅ (inv_memberships inv)) (list_to_set (inv_items inv))))
    end.

(** ** Lookups *)

Definition registration g (et : string) : option (EdgeRegistration P) :=
  g_registrations g !! et.

(** [set_apply_mode]. *)
Definition set_apply_mode g (et : string) (mode : EdgeApplyMode) : result GraphError (GraphIndex P) :=
  match g_registrations g !! et with
  | None => Err (ErrMsg ("graph edge " +:+ et +:+ " is not registered"))
  | Some _ => Ok (mkGraphIndex (g_registrations g) (<[et:=mode]> (g_apply_modes g))
                    (g_endpoint_adjacency g) (g_categories g) (g_items g))
  end.

Definition effective_apply_mode g (et : string) (requested : EdgeApplyMode) : EdgeApplyMode :=
  if decide (requested ≠ Authoritative) then requested
  else default requested (g_apply_modes g !! et).

Definition projects_endpoint g (et : string) (position : EndPosition) : bool :=
  match g_endpoint_adjacency g !! et with
  | None => false
  | Some (a, b) => bool_decide ((match position with PosA => a | PosB => b end) = Eager)
  end.

Definition projects_any_endpoint g (et : string) : bool :=
  projects_endpoint g et PosA || projects_endpoint g et PosB.

Definition requirement_accepts g (requirement : EndpointRequirement) (entity_type : string) : bool :=
  match requirement with
  | Concrete expected => bool_decide (expected = entity_type)
  | OneOf expected => bool_decide (entity_type ∈ expected)
  | Category category =>
      match g_categories g !! category with
      | Some members => bool_decide (entity_type ∈ members)
      | None => false
      end
  | AnyRegisteredItem => bool_decide (entity_type ∈ g_items g)
  end.

Definition lookup_item registry (type id : string) : option (Item P) :=
  registry !! type ≫= λ store : EntityStore P, store !! id.

Definition exists_entity registry (entity : EntityRef) : bool :=
  bool_decide (is_Some (lookup_item registry (ref_type entity) (ref_id entity))).

(** Whether a mutation of [item] must hold the graph authority lock. *)
Definition coordinates g item (change : MEventType) : bool :=
  match registration g (item_type item) with
  | Some _ => true
  | None =>
      match change with
      | SET => false
      | DEL =>
          existsb (λ r,
            (negb (bool_decide (a_delete r = RetainDangling)) &&
              requirement_accepts g (er_requirement (endpoint_a r)) (item_type item)) ||
            (negb (bool_decide (b_delete r = RetainDangling)) &&
              requirement_accepts g (er_requirement (endpoint_b r)) (item_type item)))
            (snd <$> map_to_list (g_registrations g))
      end
  end.

(** ** Pair keys *)

(** Undirected pairs are ordered, so that both orders share a key. *)
Definition order_pair r (a b : EndpointValue) : EndpointValue * EndpointValue :=
  if bool_decide (shape r = Undirected) && bool_decide (cmp_lt b a) then (b, a) else (a, b).

Definition pair_key_from_values r (a b : EndpointValue) (scope : option IndexValue) : EdgePairKey :=
  let '(a, b) := order_pair r a b in mkPairKey scope a b.

Definition pair_key r (e : EdgeEndpoints) (scope : option IndexValue) : EdgePairKey :=
  pair_key_from_values r (ends_a e) (ends_b e) scope.

Definition projects_pairs r : bool :=
  bool_decide (pair_policy r = Unique) || bool_decide (pair_projection r = PairEager).

Definition uses_unscoped_pair_fast_path r : bool :=
  projects_pairs r && bool_decide (scope_type r = None).

Definition endpoints_match r (e : EdgeEndpoints) (a b : EndpointValue) : bool :=
  (bool_decide (ends_a e = a) && bool_decide (ends_b e = b)) ||
  (bool_decide (shape r = Undirected) && bool_decide (ends_a e = b) && bool_decide (ends_b e = a)).

(** ** Projection maintenance *)

Definition insert_incidence {K} `{Countable K} (m : gmap K EdgeIds) (key : K) (id : string)
  : gmap K EdgeIds :=
  match m !! key with
  | Some b => <[key := EdgeIds.insert b id]> m
  | None => <[key := One id]> m
  end.

Definition remove_incidence {K} `{Countable K} (m : gmap K EdgeIds) (key : K) (id : string)
  : gmap K EdgeIds :=
  match m !! key with
  | Some b => let '(b', empty) := EdgeIds.remove b id in
              if empty then delete key m else <[key := b']> m
  | None => m
  end.

Definition remove_indexed r et (e : IndexedEdge) : EdgeTypeState :=
  mkEdgeTypeState (et_generation et) (et_edges et)
    (remove_incidence (et_a et) (ends_a (ie_endpoints e)) (ie_id e))
    (remove_incidence (et_b et) (ends_b (ie_endpoints e)) (ie_id e))
    (remove_incidence (et_a_entities et) (ep_entity (ends_a (ie_endpoints e))) (ie_id e))
    (remove_incidence (et_b_entities et) (ep_entity (ends_b (ie_endpoints e))) (ie_id e))
    (if projects_pairs r
     then remove_incidence (et_pairs et) (pair_key r (ie_endpoints e) (ie_scope e)) (ie_id e)
     else et_pairs et).

Definition insert_indexed g r et (e : IndexedEdge) : EdgeTypeState :=
  let t := edge_type r in
  mkEdgeTypeState (et_generation et)
    (if projects_any_endpoint g t then <[ie_id e := e]> (et_edges et) else et_edges et)
    (if projects_endpoint g t PosA
     then insert_incidence (et_a et) (ends_a (ie_endpoints e)) (ie_id e) else et_a et)
    (if projects_endpoint g t PosB
     then insert_incidence (et_b et) (ends_b (ie_endpoints e)) (ie_id e) else et_b et)
    (if projects_endpoint g t PosA
     then insert_incidence (et_a_entities et) (ep_entity (ends_a (ie_endpoints e))) (ie_id e)
     else et_a_entities et)
    (if projects_endpoint g t PosB
     then insert_incidence (et_b_entities et) (ep_entity (ends_b (ie_endpoints e))) (ie_id e)
     else et_b_entities et)
    (if projects_pairs r
     then insert_incidence (et_pairs et) (pair_key r (ie_endpoints e) (ie_scope e)) (ie_id e)
     else et_pairs et).

(** The [IndexedEdge] literal of [apply], whose fields may fail to extract. *)
Definition indexed r item : result GraphError IndexedEdge :=
  endpoints ← extract r item;
  scope ← extract_scope r item;
  mret (mkIndexedEdge (item_id item) endpoints scope).

Definition remove_edge et (id : string) : EdgeTypeState :=
  mkEdgeTypeState (et_generation et) (delete id (et_edges et)) (et_a et) (et_b et)
    (et_a_entities et) (et_b_entities et) (et_pairs et).

Definition bump et : EdgeTypeState :=
  mkEdgeTypeState (sat_add (et_generation et) 1) (et_edges et) (et_a et) (et_b et)
    (et_a_entities et) (et_b_entities et) (et_pairs et).

(** The removal half of [apply] on one type's projections. *)
Definition apply_old r et old : EdgeTypeState * result GraphError unit :=
  match old with
  | None => (et, Ok ())
  | Some item =>
      match indexed r item with
      | Err e => (et, Err e)
      | Ok ie => (remove_indexed r (remove_edge et (item_id item)) ie, Ok ())
      end
  end.

(** The insertion half. *)
Definition apply_new g r et new : EdgeTypeState * result GraphError unit :=
  match new with
  | None => (et, Ok ())
  | Some item =>
      match indexed r item with
      | Err e => (et, Err e)
      | Ok ie => (insert_indexed g r et ie, Ok ())
      end
  end.

Definition with_edge_type st (t : string) et : GraphState :=
  mkGraphState (gs_generation st) (<[t := et]> (gs_edge_types st)) (gs_invalid_mutations st)
    (gs_uniqueness_rejections st) (gs_failed st).

(** [apply]: an extraction error leaves the changes made before it. *)
Definition apply g st old new : GraphState * result GraphError Z :=
  match (match new with Some i => Some i | None => old end) with
  | None => (st, Err ErrNoCanonicalItem)
  | Some item =>
      match registration g (item_type item) with
      | None => (st, Ok (gs_generation st))
      | Some r =>
          let et := default EdgeTypeState_default (gs_edge_types st !! edge_type r) in
          match apply_old r et old with
          | (et1, Err e) => (with_edge_type st (edge_type r) et1, Err e)
          | (et1, Ok _) =>
              match apply_new g r et1 new with
              | (et2, Err e) => (with_edge_type st (edge_type r) et2, Err e)
              | (et2, Ok _) =>
                  let st' := with_edge_type st (edge_type r) (bump et2) in
                  let generation := sat_add (gs_generation st) 1 in
                  (mkGraphState generation (gs_edge_types st') (gs_invalid_mutations st')
                     (gs_uniqueness_rejections st') (gs_failed st'), Ok generation)
              end
          end
      end
  end.

(** [for (_, item) in store.snapshot() { self.apply(None, Some(item))?; }] *)
Fixpoint apply_all g st (snapshot : list (Item P)) : GraphState * result GraphError unit :=
  match snapshot with
  | [] => (st, Ok ())
  | item :: rest =>
      match apply g st None (Some item) with
      | (st', Err e) => (st', Err e)
      | (st', Ok _) => apply_all g st' rest
      end
  end.

(** The items [rebuild] visits: every registered type's store, in some order. *)
Definition rebuild_items g registry : list (Item P) :=
  map_to_list (g_registrations g) ≫= λ tr, 
    match registry !! tr.1 with
    | None => []
    | Some store => snd <$> map_to_list store
    end.

Definition rebuild g registry : GraphState * result GraphError Z :=
  match apply_all g GraphState_default (rebuild_items g registry) with
  | (st, Err e) => (st, Err e)
  | (st, Ok _) => (st, Ok (gs_generation st))
  end.
End graph_index.

(** ** The projection invariant *)

Section projection.
Context {K : Type} `{Countable K}.
Implicit Types (canon : gmap string IndexedEdge) (m : gmap K EdgeIds) (key : IndexedEdge → K).

(** [m] is the incidence index of the edges [canon] by [key], or empty when [on] is off. *)
Definition proj_ok (on : bool) key canon m : Prop :=
  ∀ k, match m !! k with
       | Some b => EdgeIds.wf b ∧ on = true ∧
                   ∀ id, id ∈ EdgeIds.ids b ↔ ∃ e, canon !! id = Some e ∧ key e = k
       | None => on = true → ∀ id e, canon !! id = Some e → key e ≠ k
       end.

Lemma proj_ok_empty on key : proj_ok on key ∅ ∅.
Proof. intros k. rewrite lookup_empty. intros _ id e E. by rewrite lookup_empty in E. Qed.

Lemma proj_ok_off key canon m : proj_ok false key canon m ↔ m = ∅.
Proof.
  split.
  - intros M. apply map_empty. intros k. specialize (M k). destruct (m !! k); [|done].
    by destruct M as (_ & ? & _).
  - intros -> k. by rewrite lookup_empty.
Qed.

Lemma proj_ok_insert on key canon m id e :
  proj_ok on key canon m → canon !! id = None →
  proj_ok on key (<[id := e]> canon) (if on then insert_incidence m (key e) id else m).
Proof.
  destruct on; [|by rewrite !proj_ok_off]. intros M N k. pose proof (M k) as Mk.
  unfold insert_incidence. destruct (decide (key e = k)) as [<-|Nk].
  - destruct (m !! key e) as [b|]; rewrite lookup_insert_eq.
    + destruct Mk as (W & _ & E). split_and!; [by apply EdgeIds.insert_wf|done|].
      intros id'. rewrite EdgeIds.insert_ids, elem_of_bt_insert, E by done. split.
      * intros [->|(e' & E' & Ek)]; [exists e; by rewrite lookup_insert_eq|].
        exists e'. split; [|done]. rewrite lookup_insert_ne; [done|by intros ->; congruence].
      * intros (e' & [[<- <-]|[? E']]%lookup_insert_Some & Ek); [by left|right; eauto].
    + split_and!; [done..|]. intros id'. simpl. rewrite list_elem_of_singleton. split.
      * intros ->. exists e. by rewrite lookup_insert_eq.
      * intros (e' & [[<- <-]|[? E']]%lookup_insert_Some & Ek); [done|].
        by destruct (Mk eq_refl _ _ E').
  - replace ((match m !! key e with
              | Some b => <[key e := EdgeIds.insert b id]> m
              | None => <[key e := One id]> m end) !! k) with (m !! k)
      by (destruct (m !! key e); by rewrite lookup_insert_ne).
    destruct (m !! k) as [b|].
    + destruct Mk as (W & _ & E). split_and!; [done..|]. intros id'. rewrite E.
      split; intros (e' & E' & Ek); exists e'; (split; [|done]).
      * rewrite lookup_insert_ne; [done|by intros ->; congruence].
      * by apply lookup_insert_Some in E' as [[<- <-]|[? E']].
    + intros _ id' e' [[<- <-]|[? E']]%lookup_insert_Some; [done|by apply (Mk eq_refl id')].
Qed.

Lemma proj_ok_remove on key canon m id e :
  proj_ok on key canon m → canon !! id = Some e →
  proj_ok on key (delete id canon) (remove_incidence m (key e) id).
Proof.
  destruct on; [|rewrite !proj_ok_off; intros -> _; unfold remove_incidence; by rewrite lookup_empty].
  intros M C k. pose proof (M k) as Mk. pose proof (M (key e)) as Me.
  unfold remove_incidence.
  destruct (m !! key e) as [b|] eqn:Eb; [|by destruct (Me eq_refl _ _ C)].
  destruct Me as (W & _ & E). destruct (EdgeIds.remove b id) as [b' empty] eqn:R.
  pose proof (EdgeIds.remove_spec _ _ _ _ W R) as S.
  pose proof (EdgeIds.ids_sorted _ W) as Sb.
  destruct (decide (key e = k)) as [<-|Nk].
  - assert (∀ id', id' ∈ bt_remove id (EdgeIds.ids b) ↔
              ∃ e', delete id canon !! id' = Some e' ∧ key e' = key e) as E'.
    { intros id'. rewrite elem_of_bt_remove, E by done. split.
      - intros [(e' & Ce & Ke) N]. exists e'. by rewrite lookup_delete_ne.
      - intros (e' & [N Ce]%lookup_delete_Some & Ke). eauto. }
    destruct empty.
    + rewrite lookup_delete_eq. intros _ id' e' Ce Ke.
      apply (not_elem_of_nil id'). rewrite <-S. apply E'. eauto.
    + destruct S as [W' S]. rewrite lookup_insert_eq, S. done.
  - replace ((if empty then delete (key e) m else <[key e := b']> m) !! k) with (m !! k)
      by (destruct empty; [by rewrite lookup_delete_ne|by rewrite lookup_insert_ne]).
    destruct (m !! k) as [c|].
    + destruct Mk as (Wc & _ & Ec). split_and!; [done..|]. intros id'. rewrite Ec.
      split; intros (e' & Ce & Ke); exists e'; (split; [|done]).
      * rewrite lookup_delete_ne; [done|by intros ->; congruence].
      * by apply lookup_delete_Some in Ce as [_ ?].
    + intros _ id' e' [_ Ce]%lookup_delete_Some. by apply (Mk eq_refl id').
Qed.

Lemma bucket_determined b c : EdgeIds.wf b → EdgeIds.wf c → EdgeIds.ids b = EdgeIds.ids c → b = c.
Proof.
  destruct b as [x|l], c as [y|k]; simpl; intros W1 W2 E; simplify_eq; try done.
  - destruct W2. simpl in *. lia.
  - destruct W1. simpl in *. lia.
Qed.

(** The invariant determines the projection. *)
Lemma proj_ok_unique on key canon m1 m2 : proj_ok on key canon m1 → proj_ok on key canon m2 → m1 = m2.
Proof.
  destruct on; [|by rewrite !proj_ok_off; intros -> ->]. intros M1 M2. apply map_eq. intros k.
  specialize (M1 k). specialize (M2 k).
  destruct (m1 !! k) as [b|], (m2 !! k) as [c|]; [| | |done].
  - destruct M1 as (W1 & _ & E1), M2 as (W2 & _ & E2). f_equal. apply bucket_determined; [done..|].
    apply sorted_ext; [by apply EdgeIds.ids_sorted..|]. intros id. by rewrite E1, E2.
  - destruct M1 as (W1 & _ & E1). exfalso. destruct (EdgeIds.ids b) as [|id l] eqn:Eb.
    + by apply (EdgeIds.ids_nonempty b).
    + destruct (proj1 (E1 id)) as (e & C & Ke); [left|]. by apply (M2 eq_refl id e).
  - destruct M2 as (W2 & _ & E2). exfalso. destruct (EdgeIds.ids c) as [|id l] eqn:Ec.
    + by apply (EdgeIds.ids_nonempty c).
    + destruct (proj1 (E2 id)) as (e & C & Ke); [left|]. by apply (M1 eq_refl id e).
Qed.

(** The ids of the bucket of [k], in order. *)
Definition bucket_ids m (k : K) : list string :=
  match m !! k with Some b => EdgeIds.ids b | None => [] end.

Lemma proj_ok_bucket on key canon m k id :
  proj_ok on key canon m → on = true →
  id ∈ bucket_ids m k ↔ ∃ e, canon !! id = Some e ∧ key e = k.
Proof.
  intros M ->. specialize (M k). unfold bucket_ids. destruct (m !! k) as [b|].
  - by destruct M as (_ & _ & ->).
  - rewrite elem_of_nil. split; [done|]. intros (e & C & Ke). by apply (M eq_refl) in C.
Qed.

Lemma proj_ok_bucket_sorted on key canon m k : proj_ok on key canon m → sorted (bucket_ids m k).
Proof.
  intros M. specialize (M k). unfold bucket_ids. destruct (m !! k); [|apply sorted_nil].
  apply EdgeIds.ids_sorted, M.
Qed.
End projection.

(** ** The index invariant *)

Section index_ok.
Context {P : Type}.
Implicit Types (g : GraphIndex P) (r : EdgeRegistration P) (item : Item P)
  (et : EdgeTypeState) (st : GraphState) (registry : StoreRegistry P) (store : EntityStore P).

(** The indexed edges of a canonical store. *)
Definition indexed_store r store : gmap string IndexedEdge := omap (λ item, ok (indexed r item)) store.

(** Every item of the store extracts; the program keeps such stores by refusing, or
    failing on, the mutations that do not. *)
Definition extractable r store : Prop :=
  ∀ id item, store !! id = Some item → is_ok (indexed r item) = true.

Definition a_key (e : IndexedEdge) : EndpointValue := ends_a (ie_endpoints e).
Definition b_key (e : IndexedEdge) : EndpointValue := ends_b (ie_endpoints e).
Definition a_entity_key (e : IndexedEdge) : EntityRef := ep_entity (a_key e).
Definition b_entity_key (e : IndexedEdge) : EntityRef := ep_entity (b_key e).
Definition pair_key_of r (e : IndexedEdge) : EdgePairKey := pair_key r (ie_endpoints e) (ie_scope e).

(** Every projection of [et] is the one of the edges [canon]. *)
Record index_ok g r (canon : gmap string IndexedEdge) et : Prop := mkIndexOk {
  ok_edges : et_edges et = if projects_any_endpoint g (edge_type r) then canon else ∅;
  ok_a : proj_ok (projects_endpoint g (edge_type r) PosA) a_key canon (et_a et);
  ok_b : proj_ok (projects_endpoint g (edge_type r) PosB) b_key canon (et_b et);
  ok_a_entities : proj_ok (projects_endpoint g (edge_type r) PosA) a_entity_key canon (et_a_entities et);
  ok_b_entities : proj_ok (projects_endpoint g (edge_type r) PosB) b_entity_key canon (et_b_entities et);
  ok_pairs : proj_ok (projects_pairs r) (pair_key_of r) canon (et_pairs et)
}.

Lemma index_ok_default g r : index_ok g r ∅ EdgeTypeState_default.
Proof. split; simpl; [by case_match|apply proj_ok_empty..]. Qed.

Lemma index_ok_bump g r canon et : index_ok g r canon et → index_ok g r canon (bump et).
Proof. by intros []. Qed.

Lemma remove_indexed_ok g r canon et e :
  index_ok g r canon et → canon !! ie_id e = Some e →
  index_ok g r (delete (ie_id e) canon) (remove_indexed r (remove_edge et (ie_id e)) e).
Proof.
  intros [E A B AE BE Q] C. split; simpl.
  - rewrite E. case_match; [done|apply delete_empty].
  - by apply (proj_ok_remove _ a_key).
  - by apply (proj_ok_remove _ b_key).
  - by apply (proj_ok_remove _ a_entity_key).
  - by apply (proj_ok_remove _ b_entity_key).
  - destruct (projects_pairs r); [by apply (proj_ok_remove _ (pair_key_of r))|].
    by apply proj_ok_off in Q as ->; apply proj_ok_off.
Qed.

Lemma insert_indexed_ok g r canon et e :
  index_ok g r canon et → canon !! ie_id e = None →
  index_ok g r (<[ie_id e := e]> canon) (insert_indexed g r et e).
Proof.
  intros [E A B AE BE Q] C. split; simpl.
  - rewrite E. by case_match.
  - by apply (proj_ok_insert _ a_key).
  - by apply (proj_ok_insert _ b_key).
  - by apply (proj_ok_insert _ a_entity_key).
  - by apply (proj_ok_insert _ b_entity_key).
  - by apply (proj_ok_insert _ (pair_key_of r)).
Qed.

(** *** Indexed stores under canonical mutations *)

Lemma indexed_id r item e : indexed r item = Ok e → ie_id e = item_id item.
Proof.
  unfold indexed. intros (ep & _ & (sc & _ & [= <-])%bind_Ok)%bind_Ok. done.
Qed.

Lemma lookup_indexed_store r store id e :
  indexed_store r store !! id = Some e ↔ ∃ item, store !! id = Some item ∧ indexed r item = Ok e.
Proof.
  unfold indexed_store. rewrite lookup_omap_Some. by setoid_rewrite ok_Some; split;
    intros (item & E1 & E2); exists item.
Qed.

Lemma indexed_store_delete r store id :
  indexed_store r (delete id store) = delete id (indexed_store r store).
Proof. apply omap_delete. Qed.

Lemma indexed_store_insert r store id item e :
  indexed r item = Ok e →
  indexed_store r (<[id := item]> store) = <[id := e]> (indexed_store r store).
Proof. intros E. unfold indexed_store. apply omap_insert_Some. by rewrite E. Qed.

Lemma extractable_delete r store id : extractable r store → extractable r (delete id store).
Proof. intros X i it [_ ?]%lookup_delete_Some. by eapply X. Qed.

Lemma extractable_insert r store id item :
  extractable r store → is_ok (indexed r item) = true → extractable r (<[id := item]> store).
Proof. intros X E i it [[<- <-]|[_ ?]]%lookup_insert_Some; [done|by eapply X]. Qed.

(** *** The two halves of [apply] *)

Lemma apply_old_ok g r store et old et' :
  index_ok g r (indexed_store r store) et →
  (∀ item, old = Some item → store !! item_id item = Some item) →
  apply_old r et old = (et', Ok ()) →
  index_ok g r (indexed_store r (match old with Some i => delete (item_id i) store | None => store end)) et'.
Proof.
  intros I C E. destruct old as [item|]; simpl in E; [|by simplify_eq].
  destruct (indexed r item) as [e|] eqn:X; simplify_eq.
  rewrite indexed_store_delete, <-(indexed_id _ _ _ X).
  apply remove_indexed_ok; [done|]. apply lookup_indexed_store. exists item.
  rewrite (indexed_id _ _ _ X). split; [by apply C|done].
Qed.

Lemma apply_new_ok g r store et new et' :
  index_ok g r (indexed_store r store) et →
  (∀ item, new = Some item → store !! item_id item = None) →
  apply_new g r et new = (et', Ok ()) →
  index_ok g r (indexed_store r (match new with Some i => <[item_id i := i]> store | None => store end)) et'.
Proof.
  intros I C E. destruct new as [item|]; simpl in E; [|by simplify_eq].
  destruct (indexed r item) as [e|] eqn:X; simplify_eq.
  rewrite (indexed_store_insert _ _ _ _ _ X), <-(indexed_id _ _ _ X).
  apply insert_indexed_ok; [done|]. apply eq_None_not_Some. intros [e' Hs].
  apply lookup_indexed_store in Hs as (it & Hs & _).
  rewrite (indexed_id _ _ _ X), C in Hs by done. done.
Qed.

(** The projections of a type, without its generation counter. *)
Definition projections et :=
  (et_edges et, et_a et, et_b et, et_a_entities et, et_b_entities et, et_pairs et).

Lemma index_ok_unique g r canon et1 et2 :
  index_ok g r canon et1 → index_ok g r canon et2 → projections et1 = projections et2.
Proof.
  intros [E1 A1 B1 AE1 BE1 Q1] [E2 A2 B2 AE2 BE2 Q2]. unfold projections.
  by rewrite E1, E2, (proj_ok_unique _ _ _ _ _ A1 A2), (proj_ok_unique _ _ _ _ _ B1 B2),
    (proj_ok_unique _ _ _ _ _ AE1 AE2), (proj_ok_unique _ _ _ _ _ BE1 BE2),
    (proj_ok_unique _ _ _ _ _ Q1 Q2).
Qed.

(** *** The whole graph *)

Definition edge_state st (t : string) : EdgeTypeState :=
  default EdgeTypeState_default (gs_edge_types st !! t).

(** Registrations are keyed by their edge type, as [from_inventory] builds them. *)
Definition registrations_ok g : Prop :=
  ∀ t r, g_registrations g !! t = Some r → edge_type r = t.

(** Every registered edge type's projections are those of its canonical store. *)
Definition graph_ok g registry st : Prop :=
  ∀ t r, registration g t = Some r →
    extractable r (get_or_create registry t) ∧
    index_ok g r (indexed_store r (get_or_create registry t)) (edge_state st t).

Lemma edge_state_with st t et t' :
  edge_state (with_edge_type st t et) t' = if decide (t = t') then et else edge_state st t'.
Proof.
  unfold edge_state. simpl. case_decide as E.
  - subst. by rewrite lookup_insert_eq.
  - by rewrite lookup_insert_ne.
Qed.

(** *** [apply] refines the canonical mutation *)

(** The store half of a mutation, as [reduce_one] performs it. *)
Definition reduce registry (change : MEventType) item : StoreRegistry P :=
  match change with
  | SET => store_insert registry item
  | DEL => store_remove registry (item_type item) (item_id item)
  end.

(** The new value [emit_one] hands to [preflight] and [apply]. *)
Definition new_value (change : MEventType) item : option (Item P) :=
  match change with SET => Some item | DEL => None end.

Lemma lookup_get_or_create registry t id :
  lookup_item registry t id = get_or_create registry t !! id.
Proof.
  unfold lookup_item, get_or_create. destruct (registry !! t); simpl; [done|].
  by rewrite lookup_empty.
Qed.

Lemma apply_registered g st old new st' n r item :
  registrations_ok g →
  (match new with Some i => Some i | None => old end) = Some item →
  registration g (item_type item) = Some r →
  apply g st old new = (st', Ok n) →
  ∃ et1 et2, apply_old r (edge_state st (item_type item)) old = (et1, Ok ()) ∧
    apply_new g r et1 new = (et2, Ok ()) ∧
    ∀ t, edge_state st' t = if decide (item_type item = t) then bump et2 else edge_state st t.
Proof.
  intros R E Hr A. unfold apply in A. rewrite E, Hr in A. rewrite (R _ _ Hr) in A.
  fold (edge_state st (item_type item)) in A.
  destruct (apply_old r _ old) as [et1 [[]|]] eqn:E1; [|done].
  destruct (apply_new g r et1 new) as [et2 [[]|]] eqn:E2; [|done].
  injection A as <- <-. exists et1, et2. split_and!; [done..|]. intros t.
  change (edge_state (with_edge_type st (item_type item) (bump et2)) t
          = if decide (item_type item = t) then bump et2 else edge_state st t).
  apply edge_state_with.
Qed.

Lemma apply_new_extractable g r et new et' :
  apply_new g r et new = (et', Ok ()) → ∀ item, new = Some item → is_ok (indexed r item) = true.
Proof. intros E item ->. simpl in E. by destruct (indexed r item). Qed.

Lemma apply_ok g registry st change item st' n :
  registrations_ok g → registry_ok registry → graph_ok g registry st →
  apply g st (lookup_item registry (item_type item) (item_id item)) (new_value change item) = (st', Ok n) →
  graph_ok g (reduce registry change item) st'.
Proof.
  intros R W G A. set (t := item_type item) in *. set (id := item_id item) in *.
  rewrite lookup_get_or_create in A.
  set (old := get_or_create registry t !! id) in *.
  assert (∀ it, old = Some it → item_type it = t ∧ item_id it = id) as Wo
    by (intros it Ho; by apply (get_or_create_ok registry)).
  assert (∀ t', get_or_create (reduce registry change item) t' =
    if decide (t = t') then (match change with SET => <[id:=item]> | DEL => delete id end)
      (get_or_create registry t') else get_or_create registry t') as Es.
  { intros t'. destruct change; [apply get_or_create_insert|apply get_or_create_remove]. }
  destruct (match new_value change item with Some i => Some i | None => old end) as [it|] eqn:Ei.
  2: { unfold apply in A. by rewrite Ei in A. }
  assert (item_type it = t) as Et.
  { destruct change; simpl in Ei; [by simplify_eq|by apply Wo]. }
  destruct (registration g t) as [r|] eqn:Hr.
  2: { unfold apply in A. rewrite Ei, Et, Hr in A. injection A as <- <-. intros t' r' Hr'.
       rewrite Es, decide_False by congruence. by apply G. }
  rewrite <-Et in Hr.
  destruct (apply_registered _ _ _ _ _ _ _ _ R Ei Hr A) as (et1 & et2 & A1 & A2 & S).
  rewrite Et in *. intros t' r' Hr'. rewrite S, Es. case_decide as D; [subst t'|by apply G].
  rewrite Hr' in Hr. injection Hr as ->. destruct (G _ _ Hr') as [X I].
  apply (apply_old_ok g r (get_or_create registry t)) in A1;
    [|done|intros it' Ho; by rewrite (proj2 (Wo _ Ho))].
  pose proof (apply_new_extractable _ _ _ _ _ A2) as X2.
  assert (old = None → delete id (get_or_create registry t) = get_or_create registry t) as Dn
    by apply delete_id.
  assert ((match old with Some i => delete (item_id i) (get_or_create registry t)
           | None => get_or_create registry t end) = delete id (get_or_create registry t)) as Eo.
  { destruct old as [i|]; [by destruct (Wo i) as [_ ->]|by rewrite Dn]. }
  rewrite Eo in A1. apply (apply_new_ok g r (delete id (get_or_create registry t))) in A2; [|done|].
  2: { intros i Hi. destruct change; simplify_eq/=. apply lookup_delete_eq. }
  split.
  - destruct change; [|by apply extractable_delete]. apply extractable_insert; [done|by apply X2].
  - apply index_ok_bump. destruct change; simpl in A2; [|done].
    by rewrite insert_delete_eq in A2.
Qed.

(** A failed insertion leaves the removal done. *)
Lemma apply_failed g registry st item r st' e :
  registrations_ok g → registry_ok registry → graph_ok g registry st →
  registration g (item_type item) = Some r → is_ok (indexed r item) = false →
  apply g st (get_or_create registry (item_type item) !! item_id item) (Some item) = (st', Err e) →
  graph_ok g (store_remove registry (item_type item) (item_id item)) st' ∧ gs_generation st' = gs_generation st.
Proof.
  intros R W G Hr X A. unfold apply in A. rewrite Hr, (R _ _ Hr) in A.
  set (old := get_or_create registry (item_type item) !! item_id item) in *.
  fold (edge_state st (item_type item)) in A. destruct (G _ _ Hr) as [Xs I].
  assert (∀ it, old = Some it → item_id it = item_id item ∧ is_ok (indexed r it) = true) as Wo.
  { intros it Ho. split; [by eapply (get_or_create_ok registry)|by eapply Xs]. }
  destruct (apply_old r (edge_state st (item_type item)) old) as [et1 [[]|e1]] eqn:A1; simpl in A.
  2: { exfalso. destruct old as [it|] eqn:Ho; [|done]. simpl in A1.
       destruct (Wo _ eq_refl) as [_ Xi]. by destruct (indexed r it). }
  assert (st' = with_edge_type st (item_type item) et1) as ->
    by (destruct (indexed r item); [done|congruence]).
  apply (apply_old_ok g r (get_or_create registry (item_type item))) in A1; [|done|].
  2: { intros it Ho. destruct (Wo _ Ho) as [-> _]. done. }
  split; [|done]. intros t r' Hr'. rewrite edge_state_with, get_or_create_remove.
  destruct (decide (item_type item = t)) as [<-|]; [|by apply G].
  rewrite Hr' in Hr. injection Hr as ->. split; [by apply extractable_delete|].
  assert ((match old with Some i => delete (item_id i) (get_or_create registry (item_type item))
           | None => get_or_create registry (item_type item) end)
      = delete (item_id item) (get_or_create registry (item_type item))) as <-; [|done].
  destruct old as [i|] eqn:Ho; [by destruct (Wo _ eq_refl) as [-> _]|by rewrite delete_id].
Qed.

(** *** [rebuild] *)

Definition item_key item : string * string := (item_type item, item_id item).

Lemma elem_of_rebuild_items g registry item :
  registry_ok registry →
  item ∈ rebuild_items g registry ↔
    is_Some (registration g (item_type item)) ∧
    get_or_create registry (item_type item) !! item_id item = Some item.
Proof.
  intros W. unfold rebuild_items, registration. rewrite list_elem_of_bind. split.
  - intros ([t r] & Hin & Hr). apply elem_of_map_to_list in Hr. simpl in Hin.
    destruct (registry !! t) as [store|] eqn:Es; [|by apply elem_of_nil in Hin].
    apply list_elem_of_fmap in Hin as ([id it] & -> & Hin). apply elem_of_map_to_list in Hin.
    simpl. destruct (W _ _ _ _ Es Hin) as [-> ->]. split; [eauto|].
    unfold get_or_create. by rewrite Es.
  - intros [[r Hr] Hl]. exists (item_type item, r). rewrite elem_of_map_to_list. split; [|done].
    simpl. unfold get_or_create in Hl.
    destruct (registry !! item_type item) as [store|]; simpl in Hl; [|by rewrite lookup_empty in Hl].
    apply list_elem_of_fmap. exists (item_id item, item). by rewrite elem_of_map_to_list.
Qed.

Lemma rebuild_items_keys g registry :
  registry_ok registry → NoDup (item_key <$> rebuild_items g registry).
Proof.
  intros W. apply NoDup_fmap_2_strong.
  - intros x y Hx Hy [= Et Ei]. apply elem_of_rebuild_items in Hx as [_ Hx], Hy as [_ Hy]; [|done..].
    rewrite Et, Ei in Hx. congruence.
  - unfold rebuild_items. apply NoDup_bind.
    + intros [t1 r1] [t2 r2] y H1 H2 E1 E2. simpl in *.
      apply elem_of_map_to_list in H1, H2.
      assert (t1 = t2) as ->; [|congruence].
      destruct (registry !! t1) as [s1|] eqn:S1; [|by apply elem_of_nil in E1].
      destruct (registry !! t2) as [s2|] eqn:S2; [|by apply elem_of_nil in E2].
      apply list_elem_of_fmap in E1 as ([i1 x1] & -> & E1), E2 as ([i2 x2] & ? & E2).
      apply elem_of_map_to_list in E1, E2. simpl in *. subst.
      destruct (W _ _ _ _ S1 E1), (W _ _ _ _ S2 E2). congruence.
    + intros [t r] _. simpl. destruct (registry !! t) as [s|] eqn:S; [|constructor].
      apply NoDup_fmap_2_strong; [|apply NoDup_map_to_list].
      intros [i1 x1] [i2 x2] H1%elem_of_map_to_list H2%elem_of_map_to_list E. simpl in E. subst.
      destruct (W _ _ _ _ S H1), (W _ _ _ _ S H2). congruence.
    + apply NoDup_map_to_list.
Qed.

Lemma get_or_create_foldl items registry t id :
  NoDup (item_key <$> items) →
  get_or_create (foldl store_insert registry items) t !! id =
    match List.find (λ it, bool_decide (item_key it = (t, id))) items with
    | Some it => Some it
    | None => get_or_create registry t !! id
    end.
Proof.
  revert registry. induction items as [|x items IH]; intros registry ND; simpl; [done|].
  apply NoDup_cons in ND as [Nx ND]. rewrite IH by done. case_bool_decide as E.
  - injection E as <- <-.
    destruct (List.find _ items) as [y|] eqn:F.
    + apply List.find_some in F as [Hy Ky%bool_decide_eq_true]. exfalso. apply Nx.
      apply list_elem_of_fmap. exists y. rewrite list_elem_of_In. done.
    + rewrite get_or_create_insert, decide_True by done. apply lookup_insert_eq.
  - destruct (List.find _ items); [done|]. rewrite get_or_create_insert.
    case_decide as D; [|done]. rewrite lookup_insert_ne; [done|].
    intros D'. apply E. unfold item_key. congruence.
Qed.

Lemma apply_insert_total g st item :
  (∀ r, registration g (item_type item) = Some r → is_ok (indexed r item) = true) →
  ∃ st' n, apply g st None (Some item) = (st', Ok n).
Proof.
  intros X. unfold apply. simpl. destruct (registration g (item_type item)) as [r|]; [|eauto].
  specialize (X r eq_refl). simpl. destruct (indexed r item); [eauto|done].
Qed.

Lemma apply_all_ok g items registry st :
  registrations_ok g → registry_ok registry → graph_ok g registry st →
  NoDup (item_key <$> items) →
  (∀ it, it ∈ items → get_or_create registry (item_type it) !! item_id it = None ∧
     ∀ r, registration g (item_type it) = Some r → is_ok (indexed r it) = true) →
  ∃ st', apply_all g st items = (st', Ok ()) ∧ graph_ok g (foldl store_insert registry items) st'.
Proof.
  intros R. revert registry st. induction items as [|x items IH]; intros registry st W G ND F; simpl.
  { eauto. }
  apply NoDup_cons in ND as [Nx ND]. destruct (F x) as [Fx X]; [left|].
  destruct (apply_insert_total g st x X) as (st1 & n & A). rewrite A.
  apply IH; [by apply store_insert_ok| |done|].
  - apply (apply_ok g registry st SET x st1 n); [done..|].
    by rewrite lookup_get_or_create, Fx.
  - intros it Hit. destruct (F it) as [Fit Xit]; [by right|]. split; [|done].
    rewrite get_or_create_insert. case_decide as D; [|done].
    rewrite lookup_insert_ne; [done|]. intros D'. apply Nx. apply list_elem_of_fmap.
    exists it. unfold item_key. split; [congruence|done].
Qed.

(** The graph invariant reads only the stores of the registered types. *)
Lemma graph_ok_stores g registry1 registry2 st :
  (∀ t, is_Some (registration g t) → get_or_create registry1 t = get_or_create registry2 t) →
  graph_ok g registry1 st → graph_ok g registry2 st.
Proof. intros E G t r Hr. rewrite <-E by eauto. by apply G. Qed.

Lemma graph_ok_empty g : graph_ok g ∅ GraphState_default.
Proof.
  intros t r Hr. unfold get_or_create, edge_state. rewrite !lookup_empty. simpl. split.
  - intros i it E. by rewrite lookup_empty in E.
  - assert (indexed_store r ∅ = ∅) as -> by apply omap_empty. apply index_ok_default.
Qed.

Lemma rebuild_ok g registry :
  registrations_ok g → registry_ok registry →
  (∀ t r, registration g t = Some r → extractable r (get_or_create registry t)) →
  ∃ st n, rebuild g registry = (st, Ok n) ∧ graph_ok g registry st.
Proof.
  intros R W X. unfold rebuild.
  destruct (apply_all_ok g (rebuild_items g registry) ∅ GraphState_default) as (st & -> & G).
  - done.
  - apply empty_registry_ok.
  - apply graph_ok_empty.
  - by apply rebuild_items_keys.
  - intros it Hit. apply elem_of_rebuild_items in Hit as [_ Hit]; [|done]. split.
    + unfold get_or_create. by rewrite lookup_empty.
    + intros r Hr. by eapply X.
  - eexists _, _. split; [done|]. revert G. apply graph_ok_stores. intros t Ht. apply map_eq. intros id.
    rewrite get_or_create_foldl by (by apply rebuild_items_keys).
    destruct (List.find _ _) as [it|] eqn:F.
    + apply List.find_some in F as [Hit [= <- <-]%bool_decide_eq_true].
      apply list_elem_of_In, elem_of_rebuild_items in Hit as [_ Hit]; [|done]. done.
    + unfold get_or_create at 1. rewrite lookup_empty. simpl. rewrite lookup_empty.
      destruct (get_or_create registry t !! id) as [it|] eqn:E; [|done].
      destruct (get_or_create_ok _ _ _ _ W E) as [<- <-].
      eapply List.find_none in F; [|apply list_elem_of_In, elem_of_rebuild_items; done].
      by rewrite bool_decide_eq_true_2 in F.
Qed.

(** *** Sequences of mutations

    One coordinated mutation: the canonical reduction and the projection update that goes
    with it, the old value being the one the canonical store holds. *)
Inductive mutates g : StoreRegistry P * GraphState → StoreRegistry P * GraphState → Prop :=
| mutates_item registry st change item st' n :
    apply g st (lookup_item registry (item_type item) (item_id item)) (new_value change item) = (st', Ok n) →
    mutates g (registry, st) (reduce registry change item, st').

Lemma mutates_computed g registry st change item :
  is_ok (apply g st (lookup_item registry (item_type item) (item_id item)) (new_value change item)).2 = true →
  mutates g (registry, st) (reduce registry change item,
    (apply g st (lookup_item registry (item_type item) (item_id item)) (new_value change item)).1).
Proof.
  intros E. destruct (apply _ _ _ _) as [st' [n|e]] eqn:A; [|done]. by eapply mutates_item.
Qed.

Lemma reduce_ok registry change item : registry_ok registry → registry_ok (reduce registry change item).
Proof. destruct change; simpl; auto with myko. Qed.

Lemma mutates_ok g s s' :
  registrations_ok g → rtc (mutates g) s s' →
  registry_ok s.1 ∧ graph_ok g s.1 s.2 → registry_ok s'.1 ∧ graph_ok g s'.1 s'.2.
Proof.
  intros R. induction 1 as [s|s s1 s' M _ IH]; [done|]. intros [W G]. apply IH. clear IH.
  destruct M; simpl in *. split; [by apply reduce_ok|by eapply apply_ok].
Qed.
End index_ok.
