(* ===== verification/GraphQuery.v ===== *)
(** * One-hop graph queries

    The endpoint and pair lookups of [GraphIndex] in [core/src/core/graph.rs]: ids, counts
    and existence at an endpoint and between two endpoints, with or without a scope, each
    answered from a projection when the edge type keeps one and by a scan of the canonical
    store when it does not; and the plan counters the scans feed.  The theorems say that
    every strategy gives the answer of the scan. *)

From stdpp Require Import base strings numbers option countable pretty sorting gmap sets list.
From S2P Require Import Prelude Order GraphTypes EdgeIds GraphIndex.

(** ** Plan counters *)

Record GraphPlanCounters := mkPlanCounters {
  pc_lookups : Z;
  pc_scanned_edges : Z;
  pc_returned_edges : Z
}.

(** One entry per registered edge type and position. *)
Abbreviation PlanCounters := (gmap (string * EndPosition) GraphPlanCounters).

(** [AtomicU64::fetch_add] wraps. *)
Definition fetch_add (x y : Z) : Z := ((x + y) mod (u64_max + 1))%Z.

Definition record_plan_observation (counters : PlanCounters) (t : string) (position : EndPosition)
    (scanned returned : Z) : PlanCounters :=
  match counters !! (t, position) with
  | None => counters
  | Some c => <[(t, position) := mkPlanCounters (fetch_add (pc_lookups c) 1)
                  (fetch_add (pc_scanned_edges c) scanned)
                  (fetch_add (pc_returned_edges c) returned)]> counters
  end.

Record GraphPlanTelemetry := mkPlanTelemetry {
  pt_edge_type : string;
  pt_position : EndPosition;
  pt_policy : AdjacencyPolicy;
  pt_lookups : Z;
  pt_scanned_edges : Z;
  pt_returned_edges : Z;
  pt_recommend_eager : bool;
  pt_reason : string
}.

Section queries.
Context {P : Type}.
Implicit Types (g : GraphIndex P) (r : EdgeRegistration P) (item : Item P)
  (et : EdgeTypeState) (st : GraphState) (registry : StoreRegistry P) (store : EntityStore P)
  (t : string) (position : EndPosition) (endpoint a b : EndpointValue)
  (counters : PlanCounters).

Definition telemetry_of g (entry : string * EndPosition * GraphPlanCounters) : GraphPlanTelemetry :=
  let '(t, position, c) := entry in
  let '(a_policy, b_policy) := default (DemandDriven, DemandDriven) (g_endpoint_adjacency g !! t) in
  let policy := match position with PosA => a_policy | PosB => b_policy end in
  let recommend_eager := bool_decide (policy = DemandDriven) && (8 <=? pc_lookups c)%Z &&
                         (10000 <=? pc_scanned_edges c)%Z in
  let reason :=
    if recommend_eager then
      pretty (pc_lookups c) +:+ " endpoint lookups scanned " +:+ pretty (pc_scanned_edges c) +:+
      " edges to return " +:+ pretty (pc_returned_edges c) +:+
      "; eager adjacency would replace repeated scans with bucket lookups"
    else if bool_decide (policy = Eager) then
      "eager adjacency already avoids canonical scans; counters stay disabled on this hot path"
    else
      pretty (pc_lookups c) +:+ " endpoint lookups scanned " +:+ pretty (pc_scanned_edges c) +:+
      " edges; recommendation threshold is 8 lookups and 10000 scanned edges" in
  mkPlanTelemetry t position policy (pc_lookups c) (pc_scanned_edges c) (pc_returned_edges c)
    recommend_eager reason.

Definition telemetry_le (x y : GraphPlanTelemetry) : Prop :=
  cmp (pt_edge_type x, pt_position x) (pt_edge_type y, pt_position y) ≠ Gt.
#[export] Instance telemetry_le_dec x y : Decision (telemetry_le x y).
Proof. unfold telemetry_le. solve_decision. Defined.

(** [plan_telemetry]: every counter, sorted by type and position. *)
Definition plan_telemetry g counters : list GraphPlanTelemetry :=
  merge_sort telemetry_le (telemetry_of g <$> map_to_list counters).

(** ** Canonical scans *)

Definition matches_at r position endpoint item : bool :=
  match extract r item with
  | Ok e => bool_decide (end_at position e = endpoint)
  | Err _ => false
  end.

Definition matches_any_at r position (endpoints : gset EndpointValue) item : bool :=
  match extract r item with
  | Ok e => bool_decide (end_at position e ∈ endpoints)
  | Err _ => false
  end.

Definition matches_between r a b item : bool :=
  match extract r item with
  | Ok e => endpoints_match r e a b
  | Err _ => false
  end.

Definition matches_between_in_scope r a b (scope : IndexValue) item : bool :=
  match extract r item, extract_scope r item with
  | Ok e, Ok s => bool_decide (s = Some scope) && endpoints_match r e a b
  | _, _ => false
  end.

(** [store.snapshot().into_iter().filter_map(..)] over the store of a type, if any. *)
Definition scan registry t (p : Item P → bool) : list string :=
  match registry !! t with
  | None => []
  | Some store =>
      omap (λ entry : string * Item P, if p entry.2 then Some (item_id entry.2) else None)
        (map_to_list store)
  end.

Definition snapshot_len registry t : Z :=
  match registry !! t with None => 0%Z | Some store => len (map_to_list store) end.

(** ** At one endpoint *)

Definition adjacency_map et position : gmap EndpointValue EdgeIds :=
  match position with PosA => et_a et | PosB => et_b et end.

(** The counters change only on the scan path, and only if the type has a store. *)
Definition observe_scan registry counters t position (result : list string) : PlanCounters :=
  match registry !! t with
  | None => counters
  | Some _ => record_plan_observation counters t position (snapshot_len registry t) (len result)
  end.

Definition edge_ids_at g st registry counters t position endpoint : PlanCounters * list string :=
  match registration g t with
  | None => (counters, [])
  | Some r =>
      if negb (projects_endpoint g t position) then
        let result := scan registry t (matches_at r position endpoint) in
        (observe_scan registry counters t position result, result)
      else
        match gs_edge_types st !! t with
        | None => (counters, [])
        | Some et => (counters, bucket_ids (adjacency_map et position) endpoint)
        end
  end.

Definition edge_ids_many_at g st registry counters t position (endpoints : gset EndpointValue)
  : PlanCounters * list string :=
  if decide (endpoints = ∅) then (counters, [])
  else
    match registration g t with
    | None => (counters, [])
    | Some r =>
        if negb (projects_endpoint g t position) then
          let result := scan registry t (matches_any_at r position endpoints) in
          (observe_scan registry counters t position result, result)
        else
          match gs_edge_types st !! t with
          | None => (counters, [])
          | Some et =>
              let map := adjacency_map et position in
              (counters,
               foldl (λ ids endpoint, match map !! endpoint with
                                      | Some bucket => EdgeIds.extend_cloned bucket ids
                                      | None => ids
                                      end) [] (elements endpoints))
          end
    end.

Definition edge_count_at g st registry t position endpoint : Z :=
  match registration g t with
  | None => 0%Z
  | Some r =>
      if negb (projects_endpoint g t position)
      then len (scan registry t (matches_at r position endpoint))
      else match gs_edge_types st !! t with
           | None => 0%Z
           | Some et => match adjacency_map et position !! endpoint with
                        | None => 0%Z | Some ids => EdgeIds.len ids end
           end
  end.

Definition has_edge_at g st registry t position endpoint : bool :=
  match registration g t with
  | None => false
  | Some r =>
      if negb (projects_endpoint g t position)
      then match registry !! t with
           | None => false
           | Some store =>
               existsb (λ entry : string * Item P, matches_at r position endpoint entry.2)
                 (map_to_list store)
           end
      else match gs_edge_types st !! t with
           | None => false
           | Some et => match adjacency_map et position !! endpoint with
                        | None => false | Some ids => negb (EdgeIds.is_empty ids) end
           end
  end.

(** The [incident] lookup: both positions, sorted and deduplicated. *)
Definition incident_ids g st registry counters t endpoint : PlanCounters * list string :=
  let '(counters, at_a) := edge_ids_at g st registry counters t PosA endpoint in
  let '(counters, at_b) := edge_ids_at g st registry counters t PosB endpoint in
  (counters, bt_of_list (at_a ++ at_b)).

(** ** Between two endpoints *)

Definition in_scope et (scope : option IndexValue) (id : string) : bool :=
  match scope with
  | None => true
  | Some s => match et_edges et !! id with
              | Some e => bool_decide (ie_scope e = Some s)
              | None => false
              end
  end.

Definition extend_from (m : gmap EndpointValue EdgeIds) endpoint (candidates : list string)
  : list string :=
  match m !! endpoint with
  | Some ids => EdgeIds.extend_cloned ids candidates
  | None => candidates
  end.

(** With a cold end, or an undirected type: the edges incident at the projected ends. *)
Definition candidates_between g r et a b : list string :=
  let a_eager := projects_endpoint g (edge_type r) PosA in
  let b_eager := projects_endpoint g (edge_type r) PosB in
  let undirected := bool_decide (shape r = Undirected) in
  let candidates := if a_eager then extend_from (et_a et) a [] else [] in
  let candidates := if a_eager && undirected then extend_from (et_a et) b candidates else candidates in
  let candidates := if b_eager then extend_from (et_b et) b candidates else candidates in
  if b_eager && undirected then extend_from (et_b et) a candidates else candidates.

Definition indexed_ids_between g r et a b (scope : option IndexValue) : list string :=
  let a_eager := projects_endpoint g (edge_type r) PosA in
  let b_eager := projects_endpoint g (edge_type r) PosB in
  if a_eager && b_eager && bool_decide (shape r = Directed) then
    match et_a et !! a, et_b et !! b with
    | Some a_ids, Some b_ids =>
        let '(small, other) :=
          if (EdgeIds.len a_ids <=? EdgeIds.len b_ids)%Z then (a_ids, b_ids) else (b_ids, a_ids) in
        List.filter (λ id, EdgeIds.contains other id && in_scope et scope id) (EdgeIds.ids small)
    | _, _ => []
    end
  else
    List.filter (λ id, match et_edges et !! id with
                       | Some e => endpoints_match r (ie_endpoints e) a b &&
                                   match scope with
                                   | None => true
                                   | Some s => bool_decide (ie_scope e = Some s)
                                   end
                       | None => false
                       end) (candidates_between g r et a b).

(** The bucket of a pair key in the state of a type, if any. *)
Definition pair_bucket st t (key : EdgePairKey) : option EdgeIds :=
  gs_edge_types st !! t ≫= λ et, et_pairs et !! key.

Definition edge_ids_between g st registry t a b : list string :=
  match registration g t with
  | None => []
  | Some r =>
      if uses_unscoped_pair_fast_path r then
        match pair_bucket st t (pair_key_from_values r a b None) with
        | None => [] | Some ids => EdgeIds.ids ids end
      else if negb (projects_any_endpoint g t) then scan registry t (matches_between r a b)
      else match gs_edge_types st !! t with
           | None => []
           | Some et => indexed_ids_between g r et a b None
           end
  end.

Definition edge_count_between g st registry t a b : Z :=
  match registration g t with
  | None => 0%Z
  | Some r =>
      if uses_unscoped_pair_fast_path r then
        match pair_bucket st t (pair_key_from_values r a b None) with
        | None => 0%Z | Some ids => EdgeIds.len ids end
      else len (edge_ids_between g st registry t a b)
  end.

Definition has_edge_between g st registry t a b : bool :=
  match registration g t with
  | None => false
  | Some r =>
      if uses_unscoped_pair_fast_path r then
        match pair_bucket st t (pair_key_from_values r a b None) with
        | None => false | Some ids => negb (EdgeIds.is_empty ids) end
      else negb (bool_decide (edge_ids_between g st registry t a b = []))
  end.

Definition edge_ids_between_in_scope g st registry t a b (scope : IndexValue) : list string :=
  match registration g t with
  | None => []
  | Some r =>
      if projects_pairs r then
        match pair_bucket st t (pair_key_from_values r a b (Some scope)) with
        | None => [] | Some ids => EdgeIds.ids ids end
      else if negb (projects_any_endpoint g t)
      then scan registry t (matches_between_in_scope r a b scope)
      else match gs_edge_types st !! t with
           | None => []
           | Some et => indexed_ids_between g r et a b (Some scope)
           end
  end.

Definition edge_count_between_in_scope g st registry t a b (scope : IndexValue) : Z :=
  match registration g t with
  | None => 0%Z
  | Some r =>
      if projects_pairs r then
        match pair_bucket st t (pair_key_from_values r a b (Some scope)) with
        | None => 0%Z | Some ids => EdgeIds.len ids end
      else len (edge_ids_between_in_scope g st registry t a b scope)
  end.

Definition has_edge_between_in_scope g st registry t a b (scope : IndexValue) : bool :=
  match registration g t with
  | None => false
  | Some r =>
      if projects_pairs r then
        match pair_bucket st t (pair_key_from_values r a b (Some scope)) with
        | None => false | Some ids => negb (EdgeIds.is_empty ids) end
      else negb (bool_decide (edge_ids_between_in_scope g st registry t a b scope = []))
  end.
End queries.

(** ** Every strategy selects what the scan selects *)

Section selected.
Context {P : Type}.
Implicit Types (g : GraphIndex P) (r : EdgeRegistration P) (item : Item P)
  (et : EdgeTypeState) (st : GraphState) (registry : StoreRegistry P) (store : EntityStore P)
  (t : string) (position : EndPosition) (endpoint a b : EndpointValue)
  (counters : PlanCounters) (p : Item P → bool) (ids : list string).

(** [ids] lists, once each, the ids of the items of [store] that satisfy [p]. *)
Definition selected store p ids : Prop :=
  NoDup ids ∧ ∀ id, id ∈ ids ↔ ∃ item, store !! id = Some item ∧ p item = true.

(** The reference count. *)
Definition count_store store p : Z := Z.of_nat (size (filter (λ x : string * Item P, p x.2 = true) store)).

Lemma selected_perm store p ids1 ids2 :
  selected store p ids1 → selected store p ids2 → ids1 ≡ₚ ids2.
Proof. intros [N1 E1] [N2 E2]. apply NoDup_Permutation; [done..|]. intros x. by rewrite E1, E2. Qed.

Lemma selected_len store p ids : selected store p ids → len ids = count_store store p.
Proof.
  intros S. unfold count_store, len. f_equal.
  rewrite <-(size_dom (D := gset string)), <-(size_list_to_set (C := gset string) ids) by apply S.
  f_equal. apply set_eq. intros id. rewrite elem_of_list_to_set, (proj2 S), elem_of_dom.
  split.
  - intros (item & E1 & E2). exists item. by apply map_lookup_filter_Some.
  - intros [item [E1 E2]%map_lookup_filter_Some]. eauto.
Qed.

Lemma selected_nil store p : (∀ id item, store !! id = Some item → p item = false) → selected store p [].
Proof.
  intros N. split; [constructor|]. intros id. rewrite elem_of_nil. split; [done|].
  intros (item & E1 & E2). by rewrite (N _ _ E1) in E2.
Qed.

Lemma selected_empty store p ids : selected store p ids → ids = [] ↔ ∀ id item, store !! id = Some item → p item = false.
Proof.
  intros [N S]. split.
  - intros -> id item E. apply not_true_is_false. intros E'.
    apply (not_elem_of_nil id), S. eauto.
  - intros F. destruct ids as [|id l]; [done|]. destruct (proj1 (S id)) as (it & E1 & E2); [left|].
    by rewrite (F _ _ E1) in E2.
Qed.

Lemma scan_selected registry t p :
  registry_ok registry → selected (get_or_create registry t) p (scan registry t p).
Proof.
  intros W. unfold scan, get_or_create.
  destruct (registry !! t) as [store|] eqn:Es; simpl; [|apply selected_nil; intros i x E; by rewrite lookup_empty in E].
  split.
  - assert (omap (λ entry : string * Item P, if p entry.2 then Some (item_id entry.2) else None) (map_to_list store)
            = (filter (λ x : string * Item P, p x.2 = true) (map_to_list store)).*1) as ->.
    { assert (∀ i x, (i, x) ∈ map_to_list store → item_id x = i) as Hid.
      { intros i x Hx%elem_of_map_to_list. by destruct (W _ _ _ _ Es Hx). }
      induction (map_to_list store) as [|[i x] l IH]; [done|]. csimpl. rewrite filter_cons.
      rewrite (Hid i x) by left. csimpl. destruct (p x); csimpl; rewrite IH; try done;
        intros j y Hy; apply Hid; by right. }
    apply NoDup_fmap_fst; [|apply NoDup_filter, NoDup_map_to_list].
    intros i x y [_ Hx]%list_elem_of_filter [_ Hy]%list_elem_of_filter.
    apply elem_of_map_to_list in Hx, Hy. congruence.
  - intros id. rewrite omap_map_to_list_elem. simpl. split.
    + intros (k & x & E & F). destruct (W _ _ _ _ Es E) as [_ <-].
      destruct (p x) eqn:Px; simplify_eq. eauto.
    + intros (x & E & Px). exists id, x. rewrite Px. by destruct (W _ _ _ _ Es E) as [_ ->].
Qed.

(** A projection's bucket selects the items whose key it is. *)
Lemma bucket_selected {K} `{Countable K} r store (key : IndexedEdge → K) (m : gmap K EdgeIds) k p :
  proj_ok true key (indexed_store r store) m →
  (∀ id item, store !! id = Some item → p item = true ↔ ∃ e, indexed r item = Ok e ∧ key e = k) →
  selected store p (bucket_ids m k).
Proof.
  intros M Hp. split; [by eapply sorted_NoDup, proj_ok_bucket_sorted|].
  intros id. rewrite (proj_ok_bucket _ _ _ _ _ _ M eq_refl). split.
  - intros (e & (item & E1 & E2)%lookup_indexed_store & Ek). exists item. split; [done|].
    apply (Hp _ _ E1). eauto.
  - intros (item & E1 & (e & E2 & Ek)%(Hp _ _ E1)). exists e. split; [|done].
    apply lookup_indexed_store. eauto.
Qed.

Lemma indexed_extract r item e :
  indexed r item = Ok e → extract r item = Ok (ie_endpoints e) ∧ extract_scope r item = Ok (ie_scope e).
Proof. unfold indexed. by intros (ep & -> & (sc & -> & [= <-])%bind_Ok)%bind_Ok. Qed.

Lemma matches_at_indexed r store position endpoint id item :
  extractable r store → store !! id = Some item →
  matches_at r position endpoint item = true ↔
    ∃ e, indexed r item = Ok e ∧ end_at position (ie_endpoints e) = endpoint.
Proof.
  intros X E. specialize (X _ _ E). apply is_ok_True in X as [e X].
  destruct (indexed_extract _ _ _ X) as [Xe _]. unfold matches_at. rewrite Xe, bool_decide_eq_true.
  rewrite X. split; [eauto|]. by intros (e' & [= <-] & ?).
Qed.

Lemma graph_ok_proj g registry st t r position :
  registrations_ok g → graph_ok g registry st → registration g t = Some r →
  proj_ok (projects_endpoint g t position) (λ e, end_at position (ie_endpoints e))
    (indexed_store r (get_or_create registry t)) (adjacency_map (edge_state st t) position).
Proof.
  intros R G Hr. destruct (G _ _ Hr) as [_ I]. rewrite <-(R _ _ Hr) at 1.
  destruct position; [apply I|apply I].
Qed.

(** An absent type state reads like the default one. *)
Lemma adjacency_edge_state st t position endpoint :
  match gs_edge_types st !! t with
  | None => []
  | Some et => bucket_ids (adjacency_map et position) endpoint
  end = bucket_ids (adjacency_map (edge_state st t) position) endpoint.
Proof. unfold edge_state. destruct (gs_edge_types st !! t); [done|]. by destruct position. Qed.

Lemma edge_ids_at_selected g registry st counters t r position endpoint :
  registrations_ok g → registry_ok registry → graph_ok g registry st →
  registration g t = Some r →
  selected (get_or_create registry t) (matches_at r position endpoint)
    (edge_ids_at g st registry counters t position endpoint).2.
Proof.
  intros R W G Hr. unfold edge_ids_at. rewrite Hr.
  pose proof (graph_ok_proj _ _ _ _ _ position R G Hr) as M.
  destruct (projects_endpoint g t position); simpl; [|by apply scan_selected].
  replace ((match gs_edge_types st !! t with
            | Some et => (counters, bucket_ids (adjacency_map et position) endpoint)
            | None => (counters, []) end).2)
    with (bucket_ids (adjacency_map (edge_state st t) position) endpoint)
    by (rewrite <-adjacency_edge_state; by destruct (gs_edge_types st !! t)).
  eapply bucket_selected; [done|]. intros id item E.
  by apply (matches_at_indexed _ (get_or_create registry t) _ _ id); [apply (G _ _ Hr)|].
Qed.

(** *** Pair keys *)

Lemma order_pair_match r a b a' b' :
  order_pair r a' b' = order_pair r a b ↔ endpoints_match r (mkEdgeEndpoints a' b') a b = true.
Proof.
  unfold order_pair, endpoints_match. simpl.
  rewrite orb_true_iff, !andb_true_iff, !bool_decide_eq_true.
  destruct (decide (shape r = Undirected)) as [E|E].
  - rewrite (bool_decide_eq_true_2 (shape r = Undirected)) by done. simpl. split.
    + intros Heq. repeat case_bool_decide; simplify_eq; auto.
    + intros [[-> ->]|[[_ ->] ->]]; [done|].
      destruct (cmp_spec a b) as [->|L|L]; [done| |];
        rewrite (bool_decide_eq_true_2 _ L), bool_decide_eq_false_2; try done;
        intros L'; by apply (cmp_lt_asym _ _ L).
  - rewrite (bool_decide_eq_false_2 (shape r = Undirected)) by done. simpl.
    split; [intros [= -> ->]; by left|]. by intros [[-> ->]|[[? _] _]].
Qed.

Lemma pair_key_match r e scope a b scope' :
  pair_key r e scope = pair_key_from_values r a b scope' ↔
    scope = scope' ∧ endpoints_match r e a b = true.
Proof.
  destruct e as [a' b']. rewrite <-order_pair_match. unfold pair_key, pair_key_from_values. simpl.
  destruct (order_pair r a' b'), (order_pair r a b).
  split; [by intros [= -> -> ->]|by intros [-> [= -> ->]]].
Qed.

(** *** Edges between two endpoints *)

Definition edge_between r a b (scope : option IndexValue) (e : IndexedEdge) : bool :=
  endpoints_match r (ie_endpoints e) a b &&
  match scope with None => true | Some s => bool_decide (ie_scope e = Some s) end.

Lemma matches_between_indexed r a b item e :
  indexed r item = Ok e → matches_between r a b item = edge_between r a b None e.
Proof.
  intros [Xe _]%indexed_extract. unfold matches_between, edge_between. by rewrite Xe, andb_true_r.
Qed.

Lemma matches_in_scope_indexed r a b s item e :
  indexed r item = Ok e → matches_between_in_scope r a b s item = edge_between r a b (Some s) e.
Proof.
  intros [Xe Xs]%indexed_extract. unfold matches_between_in_scope, edge_between.
  by rewrite Xe, Xs, andb_comm.
Qed.

(** The items between [a] and [b], with their scope if one is given. *)
Definition between_pred r a b (scope : option IndexValue) : Item P → bool :=
  match scope with None => matches_between r a b | Some s => matches_between_in_scope r a b s end.

Lemma between_pred_indexed r a b scope item e :
  indexed r item = Ok e → between_pred r a b scope item = edge_between r a b scope e.
Proof. destruct scope; [apply matches_in_scope_indexed|apply matches_between_indexed]. Qed.

(** Unscoped edge types extract no scope. *)
Definition scopes_ok r : Prop :=
  scope_type r = None → ∀ item s, extract_scope r item = Ok s → s = None.

Lemma pair_bucket_selected g registry st t r a b scope :
  registrations_ok g → graph_ok g registry st → registration g t = Some r →
  projects_pairs r = true →
  (scope = None → scope_type r = None ∧ scopes_ok r) →
  selected (get_or_create registry t) (between_pred r a b scope)
    (match pair_bucket st t (pair_key_from_values r a b scope) with
     | None => [] | Some ids => EdgeIds.ids ids end).
Proof.
  intros R G Hr Hp Hs. destruct (G _ _ Hr) as [X I].
  replace (match pair_bucket st t (pair_key_from_values r a b scope) with
           | None => [] | Some ids => EdgeIds.ids ids end)
    with (bucket_ids (et_pairs (edge_state st t)) (pair_key_from_values r a b scope))
    by (unfold pair_bucket, edge_state, bucket_ids; by destruct (gs_edge_types st !! t)).
  pose proof (ok_pairs _ _ _ _ I) as M. rewrite Hp in M.
  eapply bucket_selected; [done|]. intros id item E.
  destruct (proj1 (is_ok_True _) (X _ _ E)) as [e Xe].
  rewrite (between_pred_indexed _ _ _ _ _ _ Xe), Xe. unfold pair_key_of, edge_between.
  rewrite andb_true_iff. split.
  - intros [Em Es]. exists e. split; [done|]. apply pair_key_match. split; [|done].
    destruct scope as [s|]; [by apply bool_decide_eq_true in Es|].
    destruct (Hs eq_refl) as [Ht So]. apply (So Ht item). by apply indexed_extract.
  - intros (e' & [= <-] & [Es Em]%pair_key_match). split; [done|].
    destruct scope; [|done]. by apply bool_decide_eq_true.
Qed.

Lemma extend_from_sorted (m : gmap EndpointValue EdgeIds) endpoint l :
  sorted l → sorted (extend_from m endpoint l).
Proof. unfold extend_from. case_match; [apply EdgeIds.extend_cloned_sorted|done]. Qed.

Lemma elem_of_extend_from (m : gmap EndpointValue EdgeIds) endpoint l id :
  id ∈ extend_from m endpoint l ↔ id ∈ bucket_ids m endpoint ∨ id ∈ l.
Proof.
  unfold extend_from, bucket_ids. case_match; [apply EdgeIds.elem_of_extend_cloned|].
  rewrite elem_of_nil. split; [by right|by intros [|]].
Qed.

Lemma in_scope_spec et canon scope id e :
  et_edges et = canon → canon !! id = Some e →
  in_scope et scope id = match scope with None => true | Some s => bool_decide (ie_scope e = Some s) end.
Proof. intros Ec E. unfold in_scope. destruct scope; [|done]. by rewrite Ec, E. Qed.

Lemma elem_of_List_filter {A} (f : A → bool) l x : x ∈ List.filter f l ↔ x ∈ l ∧ f x = true.
Proof. by rewrite !list_elem_of_In, List.filter_In. Qed.

Lemma List_filter_sorted (f : string → bool) l : sorted l → sorted (List.filter f l).
Proof.
  apply sorted_sublist. induction l as [|x l IH]; simpl; [done|].
  destruct (f x); [by apply sublist_skip|by apply sublist_cons].
Qed.

(** The directed hot path: intersect the two buckets. *)
Lemma hot_path_spec g r canon et a b scope id :
  index_ok g r canon et → projects_endpoint g (edge_type r) PosA = true →
  projects_endpoint g (edge_type r) PosB = true → shape r = Directed →
  (∀ e, canon !! id = Some e → in_scope et scope id
     = match scope with None => true | Some s => bool_decide (ie_scope e = Some s) end) →
  (id ∈ bucket_ids (et_a et) a ∧ id ∈ bucket_ids (et_b et) b ∧ in_scope et scope id = true) ↔
    ∃ e, canon !! id = Some e ∧ edge_between r a b scope e = true.
Proof.
  intros I Pa Pb D Sc.
  rewrite (proj_ok_bucket _ _ _ _ _ _ (ok_a _ _ _ _ I) Pa), (proj_ok_bucket _ _ _ _ _ _ (ok_b _ _ _ _ I) Pb).
  unfold edge_between, endpoints_match, a_key, b_key. split.
  - intros ((e & C & Ka) & (e' & C' & Kb) & S). assert (e' = e) as -> by congruence.
    exists e. split; [done|]. rewrite (Sc _ C) in S. rewrite S, !bool_decide_eq_true_2 by done. done.
  - intros (e & C & [Em Es]%andb_true_iff). rewrite (Sc _ C).
    rewrite D, (bool_decide_eq_false_2 (Directed = Undirected)), orb_false_r in Em by done.
    apply andb_true_iff in Em as [Ea%bool_decide_eq_true Eb%bool_decide_eq_true]. eauto 10.
Qed.

Lemma indexed_ids_between_sorted g r canon et a b scope :
  index_ok g r canon et → sorted (indexed_ids_between g r et a b scope).
Proof.
  intros I. unfold indexed_ids_between. case_match.
  - pose proof (ok_a _ _ _ _ I a) as A. pose proof (ok_b _ _ _ _ I b) as B.
    destruct (et_a et !! a) as [la|]; [|apply sorted_nil].
    destruct (et_b et !! b) as [lb|]; [|apply sorted_nil].
    destruct (EdgeIds.len la <=? EdgeIds.len lb)%Z;
      apply List_filter_sorted, EdgeIds.ids_sorted; [apply A|apply B].
  - apply List_filter_sorted. unfold candidates_between.
    repeat (case_match || apply extend_from_sorted || apply sorted_nil).
Qed.

Lemma elem_of_candidates_between g r et a b id :
  id ∈ candidates_between g r et a b ↔
    projects_endpoint g (edge_type r) PosA = true ∧
      (id ∈ bucket_ids (et_a et) a ∨ shape r = Undirected ∧ id ∈ bucket_ids (et_a et) b) ∨
    projects_endpoint g (edge_type r) PosB = true ∧
      (id ∈ bucket_ids (et_b et) b ∨ shape r = Undirected ∧ id ∈ bucket_ids (et_b et) a).
Proof.
  unfold candidates_between. destruct (decide (shape r = Undirected)) as [U|U].
  - rewrite (bool_decide_eq_true_2 (shape r = Undirected)) by done.
    destruct (projects_endpoint g _ PosA), (projects_endpoint g _ PosB); simpl;
      rewrite ?elem_of_extend_from, ?elem_of_nil; tauto || naive_solver.
  - rewrite (bool_decide_eq_false_2 (shape r = Undirected)) by done.
    destruct (projects_endpoint g _ PosA), (projects_endpoint g _ PosB); simpl;
      rewrite ?elem_of_extend_from, ?elem_of_nil; tauto || naive_solver.
Qed.

Lemma elem_of_indexed_ids_between g r canon et a b scope id :
  index_ok g r canon et → projects_any_endpoint g (edge_type r) = true →
  id ∈ indexed_ids_between g r et a b scope ↔
    ∃ e, canon !! id = Some e ∧ edge_between r a b scope e = true.
Proof.
  intros I Pany. pose proof (ok_edges _ _ _ _ I) as Ec. rewrite Pany in Ec.
  assert (∀ e, canon !! id = Some e → in_scope et scope id
     = match scope with None => true | Some s => bool_decide (ie_scope e = Some s) end) as Sc
    by (intros e C; by apply (in_scope_spec _ canon)).
  unfold indexed_ids_between.
  destruct (projects_endpoint g (edge_type r) PosA && projects_endpoint g (edge_type r) PosB
            && bool_decide (shape r = Directed)) eqn:Hot.
  - apply andb_true_iff in Hot as [[Pa Pb]%andb_true_iff D%bool_decide_eq_true].
    rewrite <-(hot_path_spec g r canon et a b scope id I Pa Pb D Sc).
    unfold bucket_ids. pose proof (ok_a _ _ _ _ I a) as A. pose proof (ok_b _ _ _ _ I b) as B.
    destruct (et_a et !! a) as [la|]; [|rewrite !elem_of_nil; naive_solver].
    destruct (et_b et !! b) as [lb|]; [|rewrite !elem_of_nil; naive_solver].
    destruct A as [Wa _], B as [Wb _].
    destruct (EdgeIds.len la <=? EdgeIds.len lb)%Z;
      rewrite elem_of_List_filter, andb_true_iff, EdgeIds.contains_spec by done; naive_solver.
  - clear Hot. rewrite elem_of_List_filter, Ec.
    assert (∀ k e, canon !! id = Some e → projects_endpoint g (edge_type r) PosA = true →
              ends_a (ie_endpoints e) = k → id ∈ bucket_ids (et_a et) k) as Ha.
    { intros k e C Pa Ek. apply (proj_ok_bucket _ _ _ _ _ _ (ok_a _ _ _ _ I) Pa). eauto. }
    assert (∀ k e, canon !! id = Some e → projects_endpoint g (edge_type r) PosB = true →
              ends_b (ie_endpoints e) = k → id ∈ bucket_ids (et_b et) k) as Hb.
    { intros k e C Pb Ek. apply (proj_ok_bucket _ _ _ _ _ _ (ok_b _ _ _ _ I) Pb). eauto. }
    fold (edge_between r a b scope). split.
    + intros [_ F]. destruct (canon !! id) as [e|] eqn:C; [|done]. by exists e.
    + intros (e & C & F). rewrite C. split; [|done].
      unfold edge_between in F. apply andb_true_iff in F as [F _]. unfold endpoints_match in F.
      rewrite orb_true_iff, !andb_true_iff, !bool_decide_eq_true in F.
      rewrite elem_of_candidates_between. apply orb_true_iff in Pany.
      destruct Pany as [Pa|Pb]; [left|right]; (split; [done|]);
        destruct F as [[Fa Fb]|[[Fs Fa] Fb]]; eauto.
Qed.

Lemma selected_ext store p q ids :
  (∀ id item, store !! id = Some item → p item = q item) → selected store p ids → selected store q ids.
Proof.
  intros E [N S]. split; [done|]. intros id. rewrite S.
  split; intros (item & E1 & E2); exists item; (split; [done|]).
  - by rewrite <-(E _ _ E1).
  - by rewrite (E _ _ E1).
Qed.

Lemma indexed_ids_between_default g r a b scope :
  indexed_ids_between g r EdgeTypeState_default a b scope = [].
Proof.
  unfold indexed_ids_between, candidates_between. simpl. rewrite !lookup_empty.
  by destruct (projects_endpoint g _ PosA), (projects_endpoint g _ PosB),
    (bool_decide (shape r = Directed)), (bool_decide (shape r = Undirected)).
Qed.

Lemma indexed_selected g registry st t r a b scope :
  registrations_ok g → graph_ok g registry st → registration g t = Some r →
  projects_any_endpoint g t = true →
  selected (get_or_create registry t) (between_pred r a b scope)
    (match gs_edge_types st !! t with
     | None => [] | Some et => indexed_ids_between g r et a b scope end).
Proof.
  intros R G Hr Pany. destruct (G _ _ Hr) as [X I]. unfold edge_state in I.
  rewrite <-(R _ _ Hr) in Pany.
  assert (∀ id, (∃ e, indexed_store r (get_or_create registry t) !! id = Some e ∧ edge_between r a b scope e = true)
            ↔ (∃ item, get_or_create registry t !! id = Some item ∧ between_pred r a b scope item = true)) as Hb.
  { intros id. split.
    - intros (e & (item & E & Xe)%lookup_indexed_store & F). exists item.
      by rewrite (between_pred_indexed _ _ _ _ _ _ Xe).
    - intros (item & E & F). destruct (proj1 (is_ok_True _) (X _ _ E)) as [e Xe]. exists e.
      rewrite lookup_indexed_store. rewrite (between_pred_indexed _ _ _ _ _ _ Xe) in F. eauto. }
  assert (∀ et, index_ok g r (indexed_store r (get_or_create registry t)) et →
            selected (get_or_create registry t) (between_pred r a b scope)
              (indexed_ids_between g r et a b scope)) as H.
  { intros et I'. split; [by eapply sorted_NoDup, indexed_ids_between_sorted|]. intros id.
    rewrite <-Hb. by apply elem_of_indexed_ids_between. }
  destruct (gs_edge_types st !! t) as [et|]; simpl in I; [by apply H|].
  apply H in I. by rewrite indexed_ids_between_default in I.
Qed.

Lemma edge_ids_between_selected g registry st t r a b :
  registrations_ok g → registry_ok registry → graph_ok g registry st → scopes_ok r →
  registration g t = Some r →
  selected (get_or_create registry t) (matches_between r a b) (edge_ids_between g st registry t a b).
Proof.
  intros R W G So Hr. unfold edge_ids_between. rewrite Hr.
  destruct (uses_unscoped_pair_fast_path r) eqn:F.
  - apply andb_true_iff in F as [Fp Fs%bool_decide_eq_true].
    by apply (pair_bucket_selected g registry st t r a b None).
  - destruct (projects_any_endpoint g t) eqn:Pany; simpl; [|by apply scan_selected].
    by apply (indexed_selected g registry st t r a b None).
Qed.

Lemma edge_ids_between_in_scope_selected g registry st t r a b scope :
  registrations_ok g → registry_ok registry → graph_ok g registry st →
  registration g t = Some r →
  selected (get_or_create registry t) (matches_between_in_scope r a b scope)
    (edge_ids_between_in_scope g st registry t a b scope).
Proof.
  intros R W G Hr. unfold edge_ids_between_in_scope. rewrite Hr.
  destruct (projects_pairs r) eqn:F.
  - by apply (pair_bucket_selected g registry st t r a b (Some scope)).
  - destruct (projects_any_endpoint g t) eqn:Pany; simpl; [|by apply scan_selected].
    by apply (indexed_selected g registry st t r a b (Some scope)).
Qed.

(** *** Counts and existence agree with the ids *)

Lemma bucket_len (o : option EdgeIds) :
  match o with None => 0%Z | Some b => EdgeIds.len b end
    = len (match o with None => [] | Some b => EdgeIds.ids b end).
Proof. destruct o; [apply EdgeIds.len_spec|done]. Qed.

Lemma bucket_nonempty (o : option EdgeIds) :
  match o with None => false | Some b => negb (EdgeIds.is_empty b) end
    = negb (bool_decide (match o with None => [] | Some b => EdgeIds.ids b end = [])).
Proof.
  destruct o as [b|]; [|done]. f_equal. apply eq_true_iff_eq.
  by rewrite EdgeIds.is_empty_spec, bool_decide_eq_true.
Qed.

Lemma edge_count_at_ids g registry st counters t position endpoint :
  edge_count_at g st registry t position endpoint
    = len (edge_ids_at g st registry counters t position endpoint).2.
Proof.
  unfold edge_count_at, edge_ids_at. destruct (registration g t) as [r|]; [|done].
  destruct (negb _); [done|]. destruct (gs_edge_types st !! t); [|done]. simpl. apply bucket_len.
Qed.

Lemma existsb_scan registry t (p : Item P → bool) :
  match registry !! t with
  | None => false
  | Some store => existsb (λ entry : string * Item P, p entry.2) (map_to_list store)
  end = negb (bool_decide (scan registry t p = [])).
Proof.
  unfold scan. destruct (registry !! t) as [store|]; [|done].
  induction (map_to_list store) as [|[i x] l IH]; [done|]. csimpl. by destruct (p x).
Qed.

Lemma has_edge_at_ids g registry st counters t position endpoint :
  has_edge_at g st registry t position endpoint
    = negb (bool_decide ((edge_ids_at g st registry counters t position endpoint).2 = [])).
Proof.
  unfold has_edge_at, edge_ids_at. destruct (registration g t) as [r|]; [|done].
  destruct (negb _); [apply existsb_scan|]. destruct (gs_edge_types st !! t); [|done].
  simpl. apply bucket_nonempty.
Qed.

Lemma edge_count_between_ids g registry st t a b :
  edge_count_between g st registry t a b = len (edge_ids_between g st registry t a b).
Proof.
  unfold edge_count_between. destruct (registration g t) as [r|] eqn:Hr; [|unfold edge_ids_between; by rewrite Hr].
  destruct (uses_unscoped_pair_fast_path r) eqn:F; [|done].
  unfold edge_ids_between. rewrite Hr, F. apply bucket_len.
Qed.

Lemma has_edge_between_ids g registry st t a b :
  has_edge_between g st registry t a b = negb (bool_decide (edge_ids_between g st registry t a b = [])).
Proof.
  unfold has_edge_between. destruct (registration g t) as [r|] eqn:Hr; [|unfold edge_ids_between; by rewrite Hr].
  destruct (uses_unscoped_pair_fast_path r) eqn:F; [|done].
  unfold edge_ids_between. rewrite Hr, F. apply bucket_nonempty.
Qed.

Lemma edge_count_between_in_scope_ids g registry st t a b scope :
  edge_count_between_in_scope g st registry t a b scope
    = len (edge_ids_between_in_scope g st registry t a b scope).
Proof.
  unfold edge_count_between_in_scope, edge_ids_between_in_scope.
  destruct (registration g t) as [r|] eqn:Hr; [|done].
  destruct (projects_pairs r) eqn:F; [apply bucket_len|done].
Qed.

Lemma has_edge_between_in_scope_ids g registry st t a b scope :
  has_edge_between_in_scope g st registry t a b scope
    = negb (bool_decide (edge_ids_between_in_scope g st registry t a b scope = [])).
Proof.
  unfold has_edge_between_in_scope, edge_ids_between_in_scope.
  destruct (registration g t) as [r|] eqn:Hr; [|done].
  destruct (projects_pairs r) eqn:F; [apply bucket_nonempty|done].
Qed.

(** *** Several endpoints, and both positions *)

Lemma elem_of_union_buckets (m : gmap EndpointValue EdgeIds) (eps : list EndpointValue) acc id :
  id ∈ foldl (λ ids endpoint, match m !! endpoint with
                              | Some bucket => EdgeIds.extend_cloned bucket ids
                              | None => ids end) acc eps ↔
    id ∈ acc ∨ ∃ ep, ep ∈ eps ∧ id ∈ bucket_ids m ep.
Proof.
  revert acc. induction eps as [|ep eps IH]; intros acc; simpl.
  { split; [by left|]. intros [|(ep & []%elem_of_nil & _)]; done. }
  rewrite IH. setoid_rewrite elem_of_cons.
  change (match m !! ep with Some bucket => EdgeIds.extend_cloned bucket acc | None => acc end)
    with (extend_from m ep acc). rewrite elem_of_extend_from. naive_solver.
Qed.

Lemma union_buckets_sorted (m : gmap EndpointValue EdgeIds) (eps : list EndpointValue) acc :
  sorted acc →
  sorted (foldl (λ ids endpoint, match m !! endpoint with
                                 | Some bucket => EdgeIds.extend_cloned bucket ids
                                 | None => ids end) acc eps).
Proof.
  revert acc. induction eps as [|ep eps IH]; intros acc S; simpl; [done|].
  apply IH. by apply (extend_from_sorted m ep).
Qed.

Lemma edge_ids_many_at_selected g registry st counters t r position endpoints :
  registrations_ok g → registry_ok registry → graph_ok g registry st →
  registration g t = Some r →
  selected (get_or_create registry t) (matches_any_at r position endpoints)
    (edge_ids_many_at g st registry counters t position endpoints).2.
Proof.
  intros R W G Hr. unfold edge_ids_many_at. case_decide as Ee.
  { subst. apply selected_nil. intros id item _. unfold matches_any_at. case_match; [|done].
    by rewrite bool_decide_eq_false_2 by set_solver. }
  rewrite Hr. pose proof (graph_ok_proj _ _ _ _ _ position R G Hr) as M.
  destruct (projects_endpoint g t position) eqn:Pj; simpl; [|by apply scan_selected].
  destruct (G _ _ Hr) as [X _]. unfold edge_state in M.
  assert (∀ id, (∃ ep, ep ∈ elements endpoints ∧
      id ∈ bucket_ids (adjacency_map (default EdgeTypeState_default (gs_edge_types st !! t)) position) ep) ↔
      ∃ item, get_or_create registry t !! id = Some item ∧ matches_any_at r position endpoints item = true) as Hb.
  { intros id. setoid_rewrite elem_of_elements. setoid_rewrite (proj_ok_bucket _ _ _ _ _ _ M eq_refl).
    unfold matches_any_at. split.
    - intros (ep & Hep & e & (item & E & Xe)%lookup_indexed_store & Ek). exists item.
      destruct (indexed_extract _ _ _ Xe) as [-> _]. split; [done|]. apply bool_decide_eq_true.
      by rewrite Ek.
    - intros (item & E & F). destruct (proj1 (is_ok_True _) (X _ _ E)) as [e Xe].
      destruct (indexed_extract _ _ _ Xe) as [Xe' _]. rewrite Xe' in F.
      apply bool_decide_eq_true in F. eexists. split; [done|]. exists e.
      rewrite lookup_indexed_store. eauto. }
  destruct (gs_edge_types st !! t) as [et|]; simpl in *.
  - split; [eapply sorted_NoDup, union_buckets_sorted, sorted_nil|].
    intros id. rewrite elem_of_union_buckets, elem_of_nil, <-Hb. naive_solver.
  - split; [constructor|]. intros id. rewrite <-Hb, elem_of_nil. split; [done|].
    intros (ep & _ & Hid). destruct position; simpl in Hid; unfold bucket_ids in Hid;
      rewrite lookup_empty in Hid; by apply elem_of_nil in Hid.
Qed.

(** The items with the endpoint at either end. *)
Definition matches_incident r endpoint item : bool :=
  matches_at r PosA endpoint item || matches_at r PosB endpoint item.

Lemma incident_ids_selected g registry st counters t r endpoint :
  registrations_ok g → registry_ok registry → graph_ok g registry st →
  registration g t = Some r →
  selected (get_or_create registry t) (matches_incident r endpoint)
    (incident_ids g st registry counters t endpoint).2.
Proof.
  intros R W G Hr. unfold incident_ids.
  pose proof (edge_ids_at_selected g registry st counters t r PosA endpoint R W G Hr) as SA.
  destruct (edge_ids_at g st registry counters t PosA endpoint) as [c1 la] eqn:E1.
  pose proof (edge_ids_at_selected g registry st c1 t r PosB endpoint R W G Hr) as SB.
  destruct (edge_ids_at g st registry c1 t PosB endpoint) as [c2 lb] eqn:E2. simpl in *.
  split; [apply sorted_NoDup, bt_of_list_sorted|]. intros id.
  rewrite elem_of_bt_of_list, elem_of_app, (proj2 SA), (proj2 SB).
  unfold matches_incident. setoid_rewrite orb_true_iff. naive_solver.
Qed.
End selected.
