(* ===== verification/GraphPreflight.v ===== *)
(** * Validation of graph mutations

    [preflight], [preflight_batch], [preflight_replace_batch] and [endpoint_delete_plan] of
    [GraphIndex] in [core/src/core/graph.rs], and the counters they maintain.  A successful
    authoritative preflight is characterised from the canonical stores alone, and the delete
    plan is the set of incident edges whose policy is to cascade. *)

From stdpp Require Import base strings numbers option countable gmap sets list.
From S2P Require Import Prelude Order GraphTypes EdgeIds GraphIndex GraphQuery.

Inductive GraphReadiness := Building (watermark : Z) | Ready (generation : Z) | Failed.

Record GraphDiagnostics := mkDiagnostics {
  gd_generation : Z;
  gd_edge_count : Z;
  gd_adjacency_entries : Z;
  gd_pair_entries : Z;
  gd_invalid_mutations : Z;
  gd_uniqueness_rejections : Z
}.

(** [usize] summation, which wraps in release builds. *)
Definition usize_sum (l : list Z) : Z := foldr (λ x y, (x + y) mod (usize_max + 1))%Z 0%Z l.

Section preflight.
Context {P : Type}.
Implicit Types (g : GraphIndex P) (r : EdgeRegistration P) (item : Item P)
  (old new : option (Item P)) (et : EdgeTypeState) (st : GraphState)
  (registry : StoreRegistry P) (store : EntityStore P) (mode : EdgeApplyMode)
  (endpoint : EntityRef).

(** ** One mutation *)

Definition validate_end g registry r (specification : EdgeEndpointRegistration)
    (value : EndpointValue) : result GraphError unit :=
  let entity := ep_entity value in
  if negb (requirement_accepts g (er_requirement specification) (ref_type entity))
  then Err (ErrEndpointRejects (edge_type r) (er_position specification) (ref_type entity))
  else if negb (exists_entity registry entity)
  then Err (ErrEndpointMissing (edge_type r) (er_position specification) entity)
  else Ok ().

(** The unique-pair check, against the pair projection. *)
Definition validate_pair st r item (endpoints : EdgeEndpoints) (ignored : gset string)
  : result GraphError unit :=
  if bool_decide (pair_policy r = Unique) then
    scope ← extract_scope r item;
    match gs_edge_types st !! edge_type r ≫= λ et, et_pairs et !! pair_key r endpoints scope with
    | None => Ok ()
    | Some existing_ids =>
        match EdgeIds.conflicting_id_ignoring existing_ids (item_id item) ignored with
        | Some existing => Err (ErrPairOccupied (edge_type r) existing)
        | None => Ok ()
        end
    end
  else Ok ().

(** The [validate] closure of [preflight_ignoring]. *)
Definition validate_candidate g registry st r new (ignored : gset string)
  : result GraphError unit :=
  candidate ← ok_or ErrNoNewValue new;
  endpoints ← extract r candidate;
  _ ← validate_end g registry r (endpoint_a r) (ends_a endpoints);
  _ ← validate_end g registry r (endpoint_b r) (ends_b endpoints);
  _ ← (if bool_decide (self_loops r = RejectLoops) && bool_decide (ends_a endpoints = ends_b endpoints)
       then Err (ErrSelfLoop (edge_type r)) else Ok ());
  _ ← (match validate r with
       | Some v => v (exists_entity registry) candidate
       | None => Ok ()
       end);
  validate_pair st r candidate endpoints ignored.

(** The counters an invalid mutation increments; a uniqueness rejection is told by the
    text of the error. *)
Definition count_invalid st (uniqueness : bool) : GraphState :=
  mkGraphState (gs_generation st) (gs_edge_types st) (sat_add (gs_invalid_mutations st) 1)
    (if uniqueness then sat_add (gs_uniqueness_rejections st) 1 else gs_uniqueness_rejections st)
    (gs_failed st).

Definition preflight_ignoring g registry st old new mode (ignored : gset string)
  : GraphState * result GraphError unit :=
  match (match new with Some i => Some i | None => old end) with
  | None => (st, Err ErrNoCanonicalItem)
  | Some item =>
      match registration g (item_type item) with
      | None => (st, Ok ())
      | Some r =>
          let mode := effective_apply_mode g (edge_type r) mode in
          match new with
          | None => (st, Ok ())
          | Some _ =>
              match validate_candidate g registry st r new ignored with
              | Ok _ => (st, Ok ())
              | Err e =>
                  (count_invalid st (str_contains "already occupied" (display e)),
                   if bool_decide (mode = Authoritative) then Err e else Ok ())
              end
          end
      end
  end.

Definition preflight g registry st old new mode : GraphState * result GraphError unit :=
  preflight_ignoring g registry st old new mode ∅.

(** ** Batches *)

(** The reservations of the pairs a batch's items take. *)
Fixpoint preflight_batch_from g (reservations : gmap (string * EdgePairKey) string) st
    (items : list (Item P)) mode : GraphState * result GraphError unit :=
  match items with
  | [] => (st, Ok ())
  | item :: rest =>
      match registration g (item_type item) with
      | None => preflight_batch_from g reservations st rest mode
      | Some r =>
          if bool_decide (pair_policy r = Unique) then
            match extract r item, extract_scope r item with
            | Err e, _ => (st, Err e)
            | Ok _, Err e => (st, Err e)
            | Ok endpoints, Ok scope =>
                let key := (edge_type r, pair_key r endpoints scope) in
                let reservations' := <[key := item_id item]> reservations in
                match reservations !! key with
                | None => preflight_batch_from g reservations' st rest mode
                | Some existing =>
                    if bool_decide (existing = item_id item)
                    then preflight_batch_from g reservations' st rest mode
                    else
                      let st' := count_invalid st true in
                      if bool_decide (effective_apply_mode g (edge_type r) mode = Authoritative)
                      then (st', Err (ErrDuplicateReservation (edge_type r) existing (item_id item)))
                      else preflight_batch_from g reservations' st' rest mode
                end
            end
          else preflight_batch_from g reservations st rest mode
      end
  end.

Definition preflight_batch g st (items : list (Item P)) mode : GraphState * result GraphError unit :=
  preflight_batch_from g ∅ st items mode.

(** The ids a replacement deletes, by type. *)
Definition ignored_of_type (deletes : list (Item P)) (t : string) : gset string :=
  list_to_set (item_id <$> filter (λ item, item_type item = t) deletes).

Fixpoint preflight_all_ignoring g registry st (items deletes : list (Item P)) mode
  : GraphState * result GraphError unit :=
  match items with
  | [] => (st, Ok ())
  | item :: rest =>
      match preflight_ignoring g registry st None (Some item) mode
              (ignored_of_type deletes (item_type item)) with
      | (st', Err e) => (st', Err e)
      | (st', Ok _) => preflight_all_ignoring g registry st' rest deletes mode
      end
  end.

Definition preflight_replace_batch g registry st (upserts deletes : list (Item P)) mode
  : GraphState * result GraphError unit :=
  match preflight_batch g st upserts mode with
  | (st', Err e) => (st', Err e)
  | (st', Ok _) => preflight_all_ignoring g registry st' upserts deletes mode
  end.

(** ** Readiness and diagnostics *)

Definition readiness st : GraphReadiness :=
  if gs_failed st then Failed else Ready (gs_generation st).

Definition diagnostics st : GraphDiagnostics :=
  let types := snd <$> map_to_list (gs_edge_types st) in
  mkDiagnostics (gs_generation st)
    (usize_sum ((λ et, Z.of_nat (size (et_edges et))) <$> types))
    (usize_sum ((λ et, sat_add (Z.of_nat (size (et_a_entities et))) (Z.of_nat (size (et_b_entities et))))
                  <$> types))
    (usize_sum ((λ et, Z.of_nat (size (et_pairs et))) <$> types))
    (gs_invalid_mutations st) (gs_uniqueness_rejections st).

(** ** Deleting an endpoint *)

(** One role of an edge type whose incidence is projected. *)
Definition plan_projected_role g endpoint (t : string) (cascade : gset (string * string))
    (role : EndPosition * option EdgeIds * EndpointDeletePolicy)
  : result GraphError (gset (string * string)) :=
  let '(position, ids, policy) := role in
  if negb (projects_endpoint g t position) then Ok cascade
  else
    match ids with
    | None => Ok cascade
    | Some ids =>
        match policy with
        | RestrictEndpointDelete =>
            match EdgeIds.first ids with
            | Some id => Err (ErrDeleteRestricted endpoint t id position)
            | None => Ok cascade
            end
        | CascadeEdge => Ok (cascade ∪ list_to_set ((λ id, (t, id)) <$> EdgeIds.ids ids))
        | RetainDangling => Ok cascade
        end
    end.

Definition plan_projected_type g st endpoint (cascade : gset (string * string))
    (entry : string * EdgeRegistration P) : result GraphError (gset (string * string)) :=
  let '(t, r) := entry in
  match gs_edge_types st !! t with
  | None => Ok cascade
  | Some et =>
      try_fold (plan_projected_role g endpoint t) cascade
        [(PosB, et_b_entities et !! endpoint, b_delete r); (PosA, et_a_entities et !! endpoint, a_delete r)]
  end.

(** One role of one stored edge, when the role is not projected. *)
Definition plan_scanned_role g endpoint (t id : string) (cascade : gset (string * string))
    (role : EndPosition * EndpointValue * EndpointDeletePolicy)
  : result GraphError (gset (string * string)) :=
  let '(position, value, policy) := role in
  if projects_endpoint g t position || bool_decide (policy = RetainDangling) ||
     negb (bool_decide (ep_entity value = endpoint))
  then Ok cascade
  else
    match policy with
    | RestrictEndpointDelete => Err (ErrDeleteRestricted endpoint t id position)
    | CascadeEdge => Ok ({[(t, id)]} ∪ cascade)
    | RetainDangling => Ok cascade
    end.

Definition plan_scanned_item g endpoint (t : string) r (cascade : gset (string * string)) item
  : result GraphError (gset (string * string)) :=
  match indexed r item with
  | Err e => Err e
  | Ok e =>
      try_fold (plan_scanned_role g endpoint t (item_id item)) cascade
        [(PosA, ends_a (ie_endpoints e), a_delete r); (PosB, ends_b (ie_endpoints e), b_delete r)]
  end.

Definition plan_scanned_type g registry endpoint (cascade : gset (string * string))
    (entry : string * EdgeRegistration P) : result GraphError (gset (string * string)) :=
  let '(t, r) := entry in
  let a_needs_scan := negb (projects_endpoint g t PosA) && negb (bool_decide (a_delete r = RetainDangling)) in
  let b_needs_scan := negb (projects_endpoint g t PosB) && negb (bool_decide (b_delete r = RetainDangling)) in
  if negb a_needs_scan && negb b_needs_scan then Ok cascade
  else
    match registry !! t with
    | None => Ok cascade
    | Some store => try_fold (plan_scanned_item g endpoint t r) cascade (snd <$> map_to_list store)
    end.

(** [endpoint_delete_plan]: the canonical items to delete with the endpoint. *)
Definition endpoint_delete_plan g st registry endpoint : result GraphError (list (Item P)) :=
  let registrations := map_to_list (g_registrations g) in
  projected ← try_fold (plan_projected_type g st endpoint) ∅ registrations;
  cascade ← try_fold (plan_scanned_type g registry endpoint) projected registrations;
  mret (omap (λ k : string * string, lookup_item registry k.1 k.2) (elements cascade)).
End preflight.

(** ** What a validated mutation promises *)

Section preflight_spec.
Context {P : Type}.
Implicit Types (g : GraphIndex P) (r : EdgeRegistration P) (item : Item P)
  (old new : option (Item P)) (et : EdgeTypeState) (st : GraphState)
  (registry : StoreRegistry P) (store : EntityStore P) (mode : EdgeApplyMode)
  (endpoint : EntityRef).

(** The endpoint's type is accepted and the entity exists. *)
Definition end_valid g registry (specification : EdgeEndpointRegistration) (value : EndpointValue) : Prop :=
  requirement_accepts g (er_requirement specification) (ref_type (ep_entity value)) = true ∧
  is_Some (lookup_item registry (ref_type (ep_entity value)) (ref_id (ep_entity value))).

(** No stored edge has the key, the candidate and the ignored ids apart. *)
Definition pair_free r store (key : EdgePairKey) (id : string) (ignored : gset string) : Prop :=
  ∀ id' x e, store !! id' = Some x → indexed r x = Ok e → pair_key_of r e = key →
    id' = id ∨ id' ∈ ignored.

(** What the documentation of the edge schema asks of a new edge, in terms of the
    canonical stores. *)
Definition candidate_valid g registry r item (ignored : gset string) : Prop :=
  ∃ e, extract r item = Ok e ∧
    end_valid g registry (endpoint_a r) (ends_a e) ∧ end_valid g registry (endpoint_b r) (ends_b e) ∧
    (self_loops r = RejectLoops → ends_a e ≠ ends_b e) ∧
    (∀ v, validate r = Some v → v (exists_entity registry) item = Ok tt) ∧
    (pair_policy r = Unique → ∃ scope, extract_scope r item = Ok scope ∧
       pair_free r (get_or_create registry (edge_type r)) (pair_key r e scope) (item_id item) ignored).

Lemma unit_Ok {E} (x : result E unit) : (∃ u, x = Ok u) ↔ x = Ok tt.
Proof. split; [by intros ([] & ->)|by exists tt]. Qed.

Lemma validate_end_spec g registry r specification value :
  validate_end g registry r specification value = Ok tt ↔ end_valid g registry specification value.
Proof.
  unfold validate_end, end_valid, exists_entity.
  destruct (requirement_accepts _ _ _); simpl; [|by split; [|intros [? _]]].
  case_bool_decide as E; simpl; split; naive_solver.
Qed.

Lemma validate_pair_spec g registry st r item e ignored :
  graph_ok g registry st → registrations_ok g → registration g (edge_type r) = Some r →
  validate_pair st r item e ignored = Ok tt ↔
    (pair_policy r = Unique → ∃ scope, extract_scope r item = Ok scope ∧
       pair_free r (get_or_create registry (edge_type r)) (pair_key r e scope) (item_id item) ignored).
Proof.
  intros G R Hr. destruct (G _ _ Hr) as [_ I]. pose proof (ok_pairs _ _ _ _ I) as Q.
  unfold validate_pair. case_bool_decide as U; [|naive_solver].
  assert (projects_pairs r = true) as Pp by (unfold projects_pairs; by rewrite bool_decide_eq_true_2).
  rewrite Pp in Q. destruct (extract_scope r item) as [scope|err]; simpl; [|naive_solver].
  assert (∀ id', id' ∈ bucket_ids (et_pairs (edge_state st (edge_type r))) (pair_key r e scope) ↔
     ∃ x e', get_or_create registry (edge_type r) !! id' = Some x ∧ indexed r x = Ok e' ∧
       pair_key_of r e' = pair_key r e scope) as B.
  { intros id'. rewrite (proj_ok_bucket _ _ _ _ _ _ Q eq_refl). setoid_rewrite lookup_indexed_store.
    naive_solver. }
  assert ((∀ id', id' ∈ bucket_ids (et_pairs (edge_state st (edge_type r))) (pair_key r e scope) →
            id' = item_id item ∨ id' ∈ ignored) ↔
     pair_free r (get_or_create registry (edge_type r)) (pair_key r e scope) (item_id item) ignored) as F.
  { unfold pair_free. split; intros H.
    - intros id' x e' ? ? ?. apply H, B. eauto.
    - intros id' (x & e' & ? & ? & ?)%B. eauto. }
  trans (pair_free r (get_or_create registry (edge_type r)) (pair_key r e scope) (item_id item) ignored);
    [|naive_solver]. rewrite <-F. clear F B Q I. unfold bucket_ids, edge_state.
  destruct (gs_edge_types st !! edge_type r) as [et|]; simpl.
  - destruct (et_pairs et !! pair_key r e scope) as [b|].
    + pose proof (EdgeIds.conflicting_id_spec b (item_id item) ignored) as C.
      destruct (EdgeIds.conflicting_id_ignoring b (item_id item) ignored) as [id|]; [|done].
      split; [done|]. intros H. destruct C as (Hid & N1 & N2). by destruct (H _ Hid).
    + split; [|done]. by intros _ id' ?%elem_of_nil.
  - rewrite lookup_empty. split; [|done]. by intros _ id' ?%elem_of_nil.
Qed.

Lemma validate_candidate_spec g registry st r item ignored :
  graph_ok g registry st → registrations_ok g → registration g (edge_type r) = Some r →
  validate_candidate g registry st r (Some item) ignored = Ok tt ↔
    candidate_valid g registry r item ignored.
Proof.
  intros G R Hr. unfold validate_candidate, candidate_valid. simpl.
  rewrite bind_Ok. f_equiv; intros e. rewrite bind_Ok, <-!validate_end_spec with (r := r).
  setoid_rewrite bind_Ok. setoid_rewrite bind_Ok. setoid_rewrite bind_Ok.
  setoid_rewrite (validate_pair_spec g registry); [|done..].
  assert ((if bool_decide (self_loops r = RejectLoops) && bool_decide (ends_a e = ends_b e)
           then Err (ErrSelfLoop (edge_type r)) else Ok ()) = Ok tt ↔
          (self_loops r = RejectLoops → ends_a e ≠ ends_b e)) as <-.
  { destruct (decide (self_loops r = RejectLoops)), (decide (ends_a e = ends_b e));
      rewrite ?bool_decide_eq_true_2, ?bool_decide_eq_false_2 by done; simpl; naive_solver. }
  assert ((match validate r with Some v => v (exists_entity registry) item | None => Ok () end) = Ok tt ↔
          ∀ v, validate r = Some v → v (exists_entity registry) item = Ok tt) as <-
    by (destruct (validate r); naive_solver).
  split.
  - intros (He & [] & Ha & [] & Hb & [] & Hs & [] & Hv & Hp). done.
  - intros (He & Ha & Hb & Hs & Hv & Hp). split; [done|]. by repeat (exists tt; split; [done|]).
Qed.

(** *** Preflights change counters only *)

Definition same_index st st' : Prop :=
  gs_generation st' = gs_generation st ∧ gs_edge_types st' = gs_edge_types st ∧
  gs_failed st' = gs_failed st.

Lemma same_index_refl st : same_index st st.
Proof. done. Qed.

Lemma same_index_trans st1 st2 st3 : same_index st1 st2 → same_index st2 st3 → same_index st1 st3.
Proof. unfold same_index. naive_solver congruence. Qed.

Lemma graph_ok_same_index g registry st st' : same_index st st' → graph_ok g registry st → graph_ok g registry st'.
Proof. intros (_ & E & _) G t r Hr. unfold edge_state. rewrite E. by apply G. Qed.

Lemma preflight_ignoring_same g registry st old new mode ignored :
  same_index st (preflight_ignoring g registry st old new mode ignored).1.
Proof. unfold preflight_ignoring. by repeat case_match. Qed.

Lemma preflight_batch_from_same g reservations st items mode :
  same_index st (preflight_batch_from g reservations st items mode).1.
Proof.
  revert reservations st. induction items as [|x items IH]; intros reservations st; simpl; [done|].
  repeat (case_match; try apply IH; try done).
  eapply same_index_trans; [|apply IH]. done.
Qed.

Lemma preflight_all_same g registry st items deletes mode :
  same_index st (preflight_all_ignoring g registry st items deletes mode).1.
Proof.
  revert st. induction items as [|x items IH]; intros st; simpl; [done|].
  pose proof (preflight_ignoring_same g registry st None (Some x) mode
    (ignored_of_type deletes (item_type x))) as S.
  destruct (preflight_ignoring _ _ _ _ _ _ _) as [st' []]; [|done].
  eapply same_index_trans; [apply S|apply IH].
Qed.

(** *** Authoritative preflights accept exactly the valid candidates *)

Lemma preflight_ignoring_spec g registry st old item r mode ignored :
  graph_ok g registry st → registrations_ok g → registration g (item_type item) = Some r →
  effective_apply_mode g (edge_type r) mode = Authoritative →
  (preflight_ignoring g registry st old (Some item) mode ignored).2 = Ok tt ↔
    candidate_valid g registry r item ignored.
Proof.
  intros G R Hr M. pose proof (R _ _ Hr) as Et. rewrite <-Et in Hr.
  rewrite <-(validate_candidate_spec g registry st) by done.
  unfold preflight_ignoring. rewrite <-Et, Hr, M.
  destruct (validate_candidate _ _ _ _ _ _) as [[]|err]; [by split|].
  by rewrite bool_decide_eq_true_2.
Qed.

(** Every other mode accepts every candidate. *)
Lemma preflight_ignoring_lenient g registry st old item r mode ignored :
  registration g (item_type item) = Some r →
  effective_apply_mode g (edge_type r) mode ≠ Authoritative →
  (preflight_ignoring g registry st old (Some item) mode ignored).2 = Ok tt.
Proof.
  intros Hr M. unfold preflight_ignoring. rewrite Hr.
  destruct (validate_candidate _ _ _ _ _ _) as [[]|err]; [done|].
  by rewrite bool_decide_eq_false_2.
Qed.

Lemma preflight_ignoring_counts g registry st old item r mode ignored :
  graph_ok g registry st → registrations_ok g → registration g (item_type item) = Some r →
  let out := preflight_ignoring g registry st old (Some item) mode ignored in
  (candidate_valid g registry r item ignored → out.1 = st ∧ out.2 = Ok tt) ∧
  (¬ candidate_valid g registry r item ignored →
     gs_invalid_mutations out.1 = sat_add (gs_invalid_mutations st) 1).
Proof.
  intros G R Hr. pose proof (R _ _ Hr) as Et. rewrite <-Et in Hr. unfold preflight_ignoring.
  rewrite <-(validate_candidate_spec g registry st) by done. rewrite <-Et, Hr.
  by destruct (validate_candidate _ _ _ _ _ _) as [[]|err].
Qed.

(** *** Pairs stay unique *)

Definition unique_pairs g registry : Prop :=
  ∀ t r id1 id2 x1 x2 e1 e2,
    registration g t = Some r → pair_policy r = Unique →
    get_or_create registry t !! id1 = Some x1 → get_or_create registry t !! id2 = Some x2 →
    indexed r x1 = Ok e1 → indexed r x2 = Ok e2 →
    pair_key_of r e1 = pair_key_of r e2 → id1 = id2.

Lemma candidate_valid_pair g registry r item ignored e :
  candidate_valid g registry r item ignored → pair_policy r = Unique → indexed r item = Ok e →
  pair_free r (get_or_create registry (edge_type r)) (pair_key_of r e) (item_id item) ignored.
Proof.
  intros (ep & Xe & _ & _ & _ & _ & Hp) U [X1 X2]%indexed_extract.
  destruct (Hp U) as (scope & Xs & F). unfold pair_key_of.
  assert (ep = ie_endpoints e) as -> by congruence. assert (scope = ie_scope e) as -> by congruence.
  done.
Qed.

Lemma unique_pairs_remove g registry t id : unique_pairs g registry → unique_pairs g (store_remove registry t id).
Proof.
  intros U t' r id1 id2 x1 x2 e1 e2 Hr Hu. rewrite get_or_create_remove. case_decide; [|by apply U].
  intros [_ E1]%lookup_delete_Some [_ E2]%lookup_delete_Some. by eapply U.
Qed.

Lemma unique_pairs_insert g registry item :
  unique_pairs g registry →
  (∀ r e, registration g (item_type item) = Some r → pair_policy r = Unique → indexed r item = Ok e →
     pair_free r (get_or_create registry (item_type item)) (pair_key_of r e) (item_id item) ∅) →
  unique_pairs g (store_insert registry item).
Proof.
  intros U F t r id1 id2 x1 x2 e1 e2 Hr Hu. rewrite get_or_create_insert. case_decide as D; [|by apply U].
  subst t. intros [[<- <-]|[N1 E1]]%lookup_insert_Some [[<- <-]|[N2 E2]]%lookup_insert_Some X1 X2 K; try done.
  - destruct (F _ _ Hr Hu X1 _ _ _ E2 X2 (eq_sym K)) as [->|C]; [done|by apply not_elem_of_empty in C].
  - destruct (F _ _ Hr Hu X2 _ _ _ E1 X1 K) as [->|C]; [done|by apply not_elem_of_empty in C].
  - by eapply U.
Qed.

(** *** Batches reserve their pairs *)

(** The reservation an item of a batch takes, if its type keeps pairs unique. *)
Definition reserved g item : option (result GraphError (string * EdgePairKey)) :=
  match registration g (item_type item) with
  | Some r =>
      if bool_decide (pair_policy r = Unique)
      then Some ((λ e, (edge_type r, pair_key_of r e)) <$> indexed r item) else None
  | None => None
  end.

Definition batch_extractable g (items : list (Item P)) : Prop :=
  ∀ x err, x ∈ items → reserved g x ≠ Some (Err err).

Definition batch_unique g (items : list (Item P)) : Prop :=
  ∀ x y k, x ∈ items → y ∈ items → reserved g x = Some (Ok k) → reserved g y = Some (Ok k) →
    item_id x = item_id y.

Definition reservations_free g (reservations : gmap (string * EdgePairKey) string) (items : list (Item P)) : Prop :=
  ∀ x k id, x ∈ items → reserved g x = Some (Ok k) → reservations !! k = Some id → id = item_id x.

(** The next step of the loop, by the reservation of the item. *)
Lemma preflight_batch_cons g reservations st x items mode :
  (∀ r, registration g (item_type x) = Some r → effective_apply_mode g (edge_type r) mode = Authoritative) →
  (preflight_batch_from g reservations st (x :: items) mode).2 = Ok tt ↔
    match reserved g x with
    | None => (preflight_batch_from g reservations st items mode).2 = Ok tt
    | Some (Err _) => False
    | Some (Ok k) =>
        (∀ id, reservations !! k = Some id → id = item_id x) ∧
        (preflight_batch_from g (<[k := item_id x]> reservations) st items mode).2 = Ok tt
    end.
Proof.
  intros M. unfold reserved. simpl. destruct (registration g (item_type x)) as [r|]; [|done].
  case_bool_decide as U; [|done]. unfold indexed.
  destruct (extract r x) as [e|]; simpl; [|done]. destruct (extract_scope r x) as [s|]; simpl; [|done].
  unfold pair_key_of. simpl. rewrite (M r eq_refl).
  destruct (reservations !! _) as [id|]; [|naive_solver].
  case_bool_decide as Ei; simpl; [subst|]; naive_solver.
Qed.

Lemma preflight_batch_from_spec g reservations st items mode :
  (∀ x r, x ∈ items → registration g (item_type x) = Some r →
     effective_apply_mode g (edge_type r) mode = Authoritative) →
  (preflight_batch_from g reservations st items mode).2 = Ok tt ↔
    batch_extractable g items ∧ reservations_free g reservations items ∧ batch_unique g items.
Proof.
  revert reservations. induction items as [|x items IH]; intros reservations M.
  { split; [|done]. intros _. split_and!.
    - by intros x err ?%elem_of_nil.
    - by intros x k id ?%elem_of_nil.
    - by intros x y k ?%elem_of_nil. }
  rewrite preflight_batch_cons by (intros r; apply M; left).
  assert (∀ y r, y ∈ items → registration g (item_type y) = Some r →
     effective_apply_mode g (edge_type r) mode = Authoritative) as M' by (intros; eapply M; [by right|done]).
  unfold batch_extractable, reservations_free, batch_unique in *.
  setoid_rewrite elem_of_cons.
  destruct (reserved g x) as [[k|err]|] eqn:Rx.
  - rewrite IH by done. clear IH M M'. split.
    + intros (F & X & Fr & U). split_and!.
      * intros y err [->|Hy]; [by rewrite Rx|by apply X].
      * intros y k' id [->|Hy] Ry L; [simplify_eq; by apply F|].
        destruct (decide (k' = k)) as [->|N].
        -- rewrite (F _ L). eapply Fr; [done..|]. apply lookup_insert_eq.
        -- eapply Fr; [done..|]. by rewrite lookup_insert_ne.
      * intros y z k' [->|Hy] [->|Hz] Ry Rz; simplify_eq; try done.
        -- eapply Fr; [done..|]. apply lookup_insert_eq.
        -- symmetry. eapply Fr; [done..|]. apply lookup_insert_eq.
        -- eapply U; done.
    + intros (X & Fr & U). split_and!.
      * intros id L. eapply Fr; [by left|done..].
      * intros y err Hy. apply X. by right.
      * intros y k' id Hy Ry [[<- <-]|[_ L]]%lookup_insert_Some.
        -- eapply U; [by left|by right|done..].
        -- eapply Fr; [by right|done..].
      * intros y z k' Hy Hz. eapply U; by right.
  - split; [done|]. intros (X & _). by apply (X x err (or_introl eq_refl)).
  - rewrite IH by done. clear IH M M'. split.
    + intros (X & Fr & U). split_and!.
      * intros y err [->|Hy]; [by rewrite Rx|by apply X].
      * intros y k' id [->|Hy] Ry; [by rewrite Rx in Ry|]. by apply Fr.
      * intros y z k' [->|Hy] [->|Hz] Ry Rz; [by rewrite Rx in *..|]. by eapply U.
    + intros (X & Fr & U). split_and!.
      * intros y err Hy. apply X. by right.
      * intros y k' id Hy. apply Fr. by right.
      * intros y z k' Hy Hz. apply U; by right.
Qed.

Lemma preflight_batch_ok g st items mode :
  (∀ x r, x ∈ items → registration g (item_type x) = Some r →
     effective_apply_mode g (edge_type r) mode = Authoritative) →
  (preflight_batch g st items mode).2 = Ok tt ↔ batch_extractable g items ∧ batch_unique g items.
Proof.
  intros M. unfold preflight_batch. rewrite preflight_batch_from_spec by done. split; [naive_solver|].
  intros [X U]. split_and!; [done| |done]. intros x k id _ _ L. by rewrite lookup_empty in L.
Qed.

Lemma preflight_all_ok g registry st items deletes mode :
  graph_ok g registry st → registrations_ok g →
  (∀ x r, x ∈ items → registration g (item_type x) = Some r →
     effective_apply_mode g (edge_type r) mode = Authoritative) →
  (preflight_all_ignoring g registry st items deletes mode).2 = Ok tt ↔
    ∀ x r, x ∈ items → registration g (item_type x) = Some r →
      candidate_valid g registry r x (ignored_of_type deletes (item_type x)).
Proof.
  intros G R M. revert st G. induction items as [|x items IH]; intros st G; simpl.
  { split; [|done]. by intros _ x r ?%elem_of_nil. }
  assert (∀ y r, y ∈ items → registration g (item_type y) = Some r →
     effective_apply_mode g (edge_type r) mode = Authoritative) as M' by (intros; eapply M; [by right|done]).
  pose proof (preflight_ignoring_same g registry st None (Some x) mode
    (ignored_of_type deletes (item_type x))) as S.
  assert ((preflight_ignoring g registry st None (Some x) mode (ignored_of_type deletes (item_type x))).2 = Ok tt ↔
    ∀ r, registration g (item_type x) = Some r →
      candidate_valid g registry r x (ignored_of_type deletes (item_type x))) as Hx.
  { destruct (registration g (item_type x)) as [r|] eqn:Hr.
    - rewrite (preflight_ignoring_spec g registry st) by (done || (eapply M; [left|done])).
      naive_solver.
    - unfold preflight_ignoring. rewrite Hr. naive_solver. }
  setoid_rewrite elem_of_cons.
  destruct (preflight_ignoring _ _ _ _ _ _ _) as [st' [[]|err]]; simpl in *.
  - rewrite IH by (done || by eapply graph_ok_same_index). naive_solver.
  - split; [done|]. intros F. by destruct (proj2 Hx (λ r, F x r (or_introl eq_refl))).
Qed.

(** An accepted replacement accepts each upsert, the deleted ids ignored, and reserves
    every pair once. *)
Lemma preflight_replace_ok g registry st upserts deletes mode :
  graph_ok g registry st → registrations_ok g →
  (∀ x r, x ∈ upserts → registration g (item_type x) = Some r →
     effective_apply_mode g (edge_type r) mode = Authoritative) →
  (preflight_replace_batch g registry st upserts deletes mode).2 = Ok tt ↔
    batch_extractable g upserts ∧ batch_unique g upserts ∧
    ∀ x r, x ∈ upserts → registration g (item_type x) = Some r →
      candidate_valid g registry r x (ignored_of_type deletes (item_type x)).
Proof.
  intros G R M. unfold preflight_replace_batch.
  pose proof (preflight_batch_ok g st upserts mode M) as B.
  pose proof (preflight_batch_from_same g ∅ st upserts mode) as S. fold (preflight_batch g st upserts mode) in S.
  destruct (preflight_batch g st upserts mode) as [st' [[]|err]]; simpl in *.
  - rewrite preflight_all_ok by (done || by eapply graph_ok_same_index). naive_solver.
  - split; [done|]. intros (X & U & _). by destruct (proj2 B (conj X U)).
Qed.

(** *** The final state of a replacement *)

Definition remove_item registry item : StoreRegistry P :=
  store_remove registry (item_type item) (item_id item).

(** The stores after [emit_replace_grouped] applied its batch. *)
Definition replace_registry registry (upserts deletes : list (Item P)) : StoreRegistry P :=
  foldl store_insert (foldl remove_item registry deletes) upserts.

Lemma elem_of_ignored deletes t id :
  id ∈ ignored_of_type deletes t ↔ ∃ x : Item P, x ∈ deletes ∧ item_type x = t ∧ item_id x = id.
Proof.
  unfold ignored_of_type. rewrite elem_of_list_to_set, list_elem_of_fmap.
  setoid_rewrite list_elem_of_filter. naive_solver.
Qed.

Lemma get_or_create_removes registry deletes t id :
  get_or_create (foldl remove_item registry deletes) t !! id =
    if decide (id ∈ ignored_of_type deletes t) then None else get_or_create registry t !! id.
Proof.
  revert registry. induction deletes as [|x deletes IH]; intros registry; simpl.
  { by rewrite decide_False by (rewrite elem_of_ignored; by intros (y & ?%elem_of_nil & _)). }
  rewrite IH. unfold remove_item. rewrite get_or_create_remove.
  destruct (decide (id ∈ ignored_of_type (x :: deletes) t)) as [E|N].
  - case_decide as N; [done|]. apply elem_of_ignored in E as (y & [->|Hy]%elem_of_cons & <- & <-).
    + rewrite decide_True by done. apply lookup_delete_eq.
    + destruct N. apply elem_of_ignored. eauto.
  - rewrite decide_False.
    + destruct (decide (item_type x = t)) as [D|]; [|done]. rewrite lookup_delete_ne; [done|]. intros D'. apply N.
      apply elem_of_ignored. exists x. split; [left|done].
    + intros (y & Hy & <- & <-)%elem_of_ignored. apply N, elem_of_ignored. exists y. by split; [right|].
Qed.

Lemma lookup_replace_registry registry upserts deletes t id x :
  NoDup (item_key <$> upserts) →
  (get_or_create (replace_registry registry upserts deletes) t !! id = Some x) →
  (x ∈ upserts ∧ item_type x = t ∧ item_id x = id) ∨
  ((id ∉ ignored_of_type deletes t) ∧ get_or_create registry t !! id = Some x).
Proof.
  intros ND. unfold replace_registry. rewrite get_or_create_foldl by done.
  destruct (List.find _ upserts) as [y|] eqn:F.
  - intros [= ->]. apply List.find_some in F as [Hx K%bool_decide_eq_true].
    unfold item_key in K. simplify_eq. left. by rewrite list_elem_of_In.
  - rewrite get_or_create_removes. case_decide; [done|]. by right.
Qed.

Lemma reserved_indexed g r x e :
  registration g (item_type x) = Some r → pair_policy r = Unique → indexed r x = Ok e →
  reserved g x = Some (Ok (edge_type r, pair_key_of r e)).
Proof.
  intros Hr U X. unfold reserved. rewrite Hr, bool_decide_eq_true_2 by done. by rewrite X.
Qed.

Lemma replace_unique_pairs g registry upserts deletes :
  registrations_ok g → unique_pairs g registry → NoDup (item_key <$> upserts) →
  batch_unique g upserts →
  (∀ x r, x ∈ upserts → registration g (item_type x) = Some r →
      candidate_valid g registry r x (ignored_of_type deletes (item_type x))) →
  unique_pairs g (replace_registry registry upserts deletes).
Proof.
  intros R U ND B V t r id1 id2 x1 x2 e1 e2 Hr Hu E1 E2 X1 X2 K.
  apply lookup_replace_registry in E1 as [(H1 & T1 & <-)|[N1 E1]], E2 as [(H2 & T2 & <-)|[N2 E2]]; try done.
  - eapply B; [done..|by eapply reserved_indexed; rewrite ?T1|].
    rewrite K. by eapply reserved_indexed; rewrite ?T2.
  - rewrite <-T1 in *. pose proof (V _ _ H1 Hr) as Vx.
    pose proof (candidate_valid_pair _ _ _ _ _ _ Vx Hu X1) as F. rewrite (R _ _ Hr) in F.
    by destruct (F _ _ _ E2 X2 (eq_sym K)).
  - rewrite <-T2 in *. pose proof (V _ _ H2 Hr) as Vx.
    pose proof (candidate_valid_pair _ _ _ _ _ _ Vx Hu X2) as F. rewrite (R _ _ Hr) in F.
    by destruct (F _ _ _ E1 X1 K).
  - by eapply U.
Qed.

(** *** The delete plan *)

(** The edge's role at [position] is the entity, with the given policy. *)
Definition incident_with r endpoint (policy : EndpointDeletePolicy) (e : IndexedEdge) : Prop :=
  (a_entity_key e = endpoint ∧ a_delete r = policy) ∨ (b_entity_key e = endpoint ∧ b_delete r = policy).

(** The stored edge [id] of type [t] is incident with the policy. *)
Definition incident_edge g registry endpoint (policy : EndpointDeletePolicy) (t id : string) : Prop :=
  ∃ r x e, registration g t = Some r ∧ get_or_create registry t !! id = Some x ∧
    indexed r x = Ok e ∧ incident_with r endpoint policy e.

Definition policy_at r position : EndpointDeletePolicy :=
  match position with PosA => a_delete r | PosB => b_delete r end.
Definition entity_at position (e : IndexedEdge) : EntityRef :=
  ep_entity (end_at position (ie_endpoints e)).

(** The restriction and the cascade of one role of a type, over its indexed edges. *)
Definition role_restricts r endpoint (canon : gmap string IndexedEdge) position : Prop :=
  policy_at r position = RestrictEndpointDelete ∧ ∃ id e, canon !! id = Some e ∧ entity_at position e = endpoint.
Definition role_cascades r endpoint (canon : gmap string IndexedEdge) t position (k : string * string) : Prop :=
  policy_at r position = CascadeEdge ∧ k.1 = t ∧ ∃ e, canon !! k.2 = Some e ∧ entity_at position e = endpoint.

Lemma plan_projected_role_collects g endpoint r t canon position (m : gmap EntityRef EdgeIds) :
  proj_ok (projects_endpoint g t position) (entity_at position) canon m →
  collects (λ _, projects_endpoint g t position = true ∧ role_restricts r endpoint canon position)
    (λ _ k, projects_endpoint g t position = true ∧ role_cascades r endpoint canon t position k)
    (plan_projected_role g endpoint t) (position, m !! endpoint, policy_at r position).
Proof.
  intros M acc. unfold plan_projected_role, role_restricts, role_cascades.
  destruct (projects_endpoint g t position) eqn:Pj; simpl; [|naive_solver].
  specialize (M endpoint). unfold entity_at in *.
  destruct (m !! endpoint) as [b|] eqn:Eb.
  - destruct M as (W & _ & S). destruct (policy_at r position).
    + split; [naive_solver|]. intros [t' id]. simpl.
      rewrite elem_of_union, elem_of_list_to_set, list_elem_of_fmap. setoid_rewrite S. naive_solver.
    + rewrite EdgeIds.first_spec. pose proof (EdgeIds.ids_nonempty _ W) as N.
      destruct (EdgeIds.ids b) as [|id l]; [done|]. simpl. split_and!; [done..|].
      destruct (proj1 (S id)) as (e & ? & ?); [left|eauto].
    + naive_solver.
  - assert (¬ ∃ id e, canon !! id = Some e ∧ ep_entity (end_at position (ie_endpoints e)) = endpoint)
      as N by (intros (id & e & C & K); by apply (M eq_refl) in C).
    split; [naive_solver|]. intros k. split; [by left|].
    intros [|(_ & _ & _ & e & C & K)]; [done|]. destruct N; eauto.
Qed.

Lemma plan_scanned_role_collects g endpoint r t id e position :
  collects (λ _, projects_endpoint g t position = false ∧ policy_at r position = RestrictEndpointDelete ∧
              entity_at position e = endpoint)
    (λ _ k, projects_endpoint g t position = false ∧ policy_at r position = CascadeEdge ∧ k = (t, id) ∧
              entity_at position e = endpoint)
    (plan_scanned_role g endpoint t id)
    (position, end_at position (ie_endpoints e), policy_at r position).
Proof.
  intros acc. unfold plan_scanned_role, entity_at.
  destruct (projects_endpoint g t position); simpl; [naive_solver|].
  case_bool_decide as R; simpl; [naive_solver congruence|].
  case_bool_decide as E; simpl; [|naive_solver].
  destruct (policy_at r position); [|done|done].
  split; [naive_solver|]. intros k. rewrite elem_of_union, elem_of_singleton. naive_solver.
Qed.

Lemma plan_projected_type_collects g registry st endpoint t r :
  registrations_ok g → graph_ok g registry st → registration g t = Some r →
  collects
    (λ x : string * EdgeRegistration P, ∃ p, projects_endpoint g x.1 p = true ∧
       role_restricts x.2 endpoint (indexed_store x.2 (get_or_create registry x.1)) p)
    (λ x k, ∃ p, projects_endpoint g x.1 p = true ∧
       role_cascades x.2 endpoint (indexed_store x.2 (get_or_create registry x.1)) x.1 p k)
    (plan_projected_type g st endpoint) (t, r).
Proof.
  intros R G Hr acc. destruct (G _ _ Hr) as [_ I]. pose proof (R _ _ Hr) as Et.
  unfold plan_projected_type. cbn [fst snd].
  set (canon := indexed_store r (get_or_create registry t)) in *.
  pose proof (ok_a_entities _ _ _ _ I) as QA. pose proof (ok_b_entities _ _ _ _ I) as QB.
  rewrite Et in QA, QB. clear I Et. unfold edge_state in *.
  set (et := default EdgeTypeState_default (gs_edge_types st !! t)) in *.
  assert (match gs_edge_types st !! t with
          | Some et => try_fold (plan_projected_role g endpoint t) acc
              [(PosB, et_b_entities et !! endpoint, b_delete r); (PosA, et_a_entities et !! endpoint, a_delete r)]
          | None => Ok acc end
        = try_fold (plan_projected_role g endpoint t) acc
            [(PosB, et_b_entities et !! endpoint, b_delete r); (PosA, et_a_entities et !! endpoint, a_delete r)])
    as ->.
  { unfold et. destruct (gs_edge_types st !! t); [done|]. simpl. rewrite !lookup_empty.
    by destruct (projects_endpoint g t PosA), (projects_endpoint g t PosB). }
  assert (∀ x, x ∈ [(PosB, et_b_entities et !! endpoint, b_delete r); (PosA, et_a_entities et !! endpoint, a_delete r)] →
     collects (λ x : EndPosition * option EdgeIds * EndpointDeletePolicy,
         projects_endpoint g t x.1.1 = true ∧ role_restricts r endpoint canon x.1.1)
       (λ x k, projects_endpoint g t x.1.1 = true ∧ role_cascades r endpoint canon t x.1.1 k)
       (plan_projected_role g endpoint t) x) as H.
  { intros x [->|[->|[]%elem_of_nil]%elem_of_cons]%elem_of_cons.
    - by apply (plan_projected_role_collects g endpoint r t canon PosB).
    - by apply (plan_projected_role_collects g endpoint r t canon PosA). }
  pose proof (try_fold_collects _ _ _ _ acc H) as F.
  destruct (try_fold _ _ _) as [acc'|err].
  - destruct F as [N F]. split.
    + intros (p & Pp & Rp). destruct p; [eapply (N (PosA, _, _))|eapply (N (PosB, _, _))];
        try (split; done); rewrite !elem_of_cons; eauto.
    + intros k. rewrite F. apply or_iff_compat_l. split.
      * intros (x & _ & Cx). eauto.
      * intros (p & Cp). destruct p; [exists (PosA, et_a_entities et !! endpoint, a_delete r)
          |exists (PosB, et_b_entities et !! endpoint, b_delete r)]; (split; [rewrite !elem_of_cons; tauto|done]).
  - destruct F as (x & _ & Rx). eauto.
Qed.

Lemma plan_scanned_item_collects g endpoint t r x :
  is_ok (indexed r x) = true →
  collects
    (λ x, ∃ p e, projects_endpoint g t p = false ∧ indexed r x = Ok e ∧
       policy_at r p = RestrictEndpointDelete ∧ entity_at p e = endpoint)
    (λ x k, ∃ p e, projects_endpoint g t p = false ∧ indexed r x = Ok e ∧
       policy_at r p = CascadeEdge ∧ k = (t, item_id x) ∧ entity_at p e = endpoint)
    (plan_scanned_item g endpoint t r) x.
Proof.
  intros [e X]%is_ok_True acc. unfold plan_scanned_item. rewrite X.
  assert (∀ x', x' ∈ [(PosA, ends_a (ie_endpoints e), a_delete r); (PosB, ends_b (ie_endpoints e), b_delete r)] →
     collects (λ x' : EndPosition * EndpointValue * EndpointDeletePolicy,
          projects_endpoint g t x'.1.1 = false ∧ policy_at r x'.1.1 = RestrictEndpointDelete ∧
          entity_at x'.1.1 e = endpoint)
       (λ x' k, projects_endpoint g t x'.1.1 = false ∧ policy_at r x'.1.1 = CascadeEdge ∧
          k = (t, item_id x) ∧ entity_at x'.1.1 e = endpoint)
       (plan_scanned_role g endpoint t (item_id x)) x') as H.
  { intros x' [->|[->|[]%elem_of_nil]%elem_of_cons]%elem_of_cons.
    - by apply (plan_scanned_role_collects g endpoint r t (item_id x) e PosA).
    - by apply (plan_scanned_role_collects g endpoint r t (item_id x) e PosB). }
  pose proof (try_fold_collects _ _ _ _ acc H) as F.
  destruct (try_fold _ _ _) as [acc'|err].
  - destruct F as [N F]. split.
    + intros (p & e' & Pp & [= <-] & Rp). destruct p; [eapply (N (PosA, _, _))|eapply (N (PosB, _, _))];
        try (split; done); rewrite !elem_of_cons; eauto.
    + intros k. rewrite F. apply or_iff_compat_l. split.
      * intros (x' & _ & Pp & Po & -> & En). eauto 10.
      * intros (p & e' & Pp & [= <-] & Po & Ek & En).
        destruct p; [exists (PosA, ends_a (ie_endpoints e), a_delete r)
          |exists (PosB, ends_b (ie_endpoints e), b_delete r)]; (split; [rewrite !elem_of_cons; tauto|done]).
  - destruct F as (x' & _ & Pp & Po & En). eauto 10.
Qed.

Lemma plan_scanned_type_collects g registry st endpoint t r :
  registry_ok registry → graph_ok g registry st → registration g t = Some r →
  collects
    (λ x : string * EdgeRegistration P, ∃ p, projects_endpoint g x.1 p = false ∧
       role_restricts x.2 endpoint (indexed_store x.2 (get_or_create registry x.1)) p)
    (λ x k, ∃ p, projects_endpoint g x.1 p = false ∧
       role_cascades x.2 endpoint (indexed_store x.2 (get_or_create registry x.1)) x.1 p k)
    (plan_scanned_type g registry endpoint) (t, r).
Proof.
  intros W G Hr acc. destruct (G _ _ Hr) as [X _]. unfold plan_scanned_type. cbn [fst snd].
  unfold role_restricts, role_cascades.
  destruct (negb (_ && _) && negb (_ && _)) eqn:Q.
  { assert (∀ p, projects_endpoint g t p = false → policy_at r p = RetainDangling) as N.
    { rewrite andb_true_iff, !negb_true_iff, !andb_false_iff, !negb_false_iff,
        !bool_decide_eq_true in Q. intros [] Pp; simpl; rewrite Pp in Q; naive_solver. }
    split.
    - intros (p & Pp & Rp & _). by rewrite (N _ Pp) in Rp.
    - intros k. split; [by left|]. intros [|(p & Pp & Cp & _)]; [done|]. by rewrite (N _ Pp) in Cp. }
  clear Q. unfold get_or_create in *.
  destruct (registry !! t) as [store|] eqn:Es; simpl in *.
  2: { split; [|intros k; split; [by left|]].
    - intros (p & _ & _ & id & e & (x & E & _)%lookup_indexed_store & _). by rewrite lookup_empty in E.
    - intros [|(p & _ & _ & _ & e & (x & E & _)%lookup_indexed_store & _)]; [done|].
      by rewrite lookup_empty in E. }
  assert (∀ x, x ∈ snd <$> map_to_list store ↔ store !! item_id x = Some x) as Hin.
  { intros x. rewrite list_elem_of_fmap. split.
    - intros ([id y] & -> & E%elem_of_map_to_list). simpl. by destruct (W _ _ _ _ Es E) as [_ ->].
    - intros E. exists (item_id x, x). by rewrite elem_of_map_to_list. }
  pose proof (try_fold_collects _ _ _ _ acc (λ x Hx,
    plan_scanned_item_collects g endpoint t r x (X _ _ (proj1 (Hin x) Hx)))) as F.
  destruct (try_fold _ _ _) as [acc'|err].
  - destruct F as [N F]. split.
    + intros (p & Pp & Po & id & e & (x & E & Xe)%lookup_indexed_store & En).
      destruct (W _ _ _ _ Es E) as [_ Ei]. apply (N x); [apply Hin; by rewrite Ei|eauto 10].
    + intros [t' id]. rewrite F. apply or_iff_compat_l. split.
      * intros (x & E%Hin & p & e & Pp & Xe & Po & [= -> ->] & En). setoid_rewrite lookup_indexed_store.
        eauto 10.
      * intros (p & Pp & Po & Et & e & (x & E & Xe)%lookup_indexed_store & En). simpl in *. subst t'.
        destruct (W _ _ _ _ Es E) as [_ Ei]. exists x. split; [apply Hin; by rewrite Ei|].
        exists p, e. by rewrite Ei.
  - destruct F as (x & E%Hin & p & e & Pp & Xe & Po & En).
    setoid_rewrite lookup_indexed_store. eauto 10.
Qed.

Lemma incident_edge_roles g registry endpoint policy t id :
  incident_edge g registry endpoint policy t id ↔
    ∃ r p, registration g t = Some r ∧ policy_at r p = policy ∧
      ∃ e, indexed_store r (get_or_create registry t) !! id = Some e ∧ entity_at p e = endpoint.
Proof.
  unfold incident_edge, incident_with. setoid_rewrite lookup_indexed_store. split.
  - intros (r & x & e & Hr & E & X & [[K D]|[K D]]).
    + exists r, PosA. eauto 10.
    + exists r, PosB. eauto 10.
  - intros (r & p & Hr & D & e & (x & E & X) & K). exists r, x, e. split_and!; [done..|].
    destruct p; [by left|by right].
Qed.

Lemma endpoint_delete_plan_spec g registry st endpoint :
  registrations_ok g → registry_ok registry → graph_ok g registry st →
  match endpoint_delete_plan g st registry endpoint with
  | Ok plan =>
      (∀ t id, ¬ incident_edge g registry endpoint RestrictEndpointDelete t id) ∧
      ∀ x, x ∈ plan ↔ incident_edge g registry endpoint CascadeEdge (item_type x) (item_id x) ∧
                      lookup_item registry (item_type x) (item_id x) = Some x
  | Err _ => ∃ t id, incident_edge g registry endpoint RestrictEndpointDelete t id
  end.
Proof.
  intros R W G. unfold endpoint_delete_plan.
  assert (∀ x, x ∈ map_to_list (g_registrations g) ↔ registration g x.1 = Some x.2) as Hin
    by (intros [t r]; apply elem_of_map_to_list).
  assert (∀ x, x ∈ map_to_list (g_registrations g) →
    collects (λ x : string * EdgeRegistration P, ∃ p, projects_endpoint g x.1 p = true ∧
       role_restricts x.2 endpoint (indexed_store x.2 (get_or_create registry x.1)) p)
      (λ x k, ∃ p, projects_endpoint g x.1 p = true ∧
       role_cascades x.2 endpoint (indexed_store x.2 (get_or_create registry x.1)) x.1 p k)
      (plan_projected_type g st endpoint) x) as H1
    by (intros [t r] Hx%Hin; by apply plan_projected_type_collects).
  assert (∀ x, x ∈ map_to_list (g_registrations g) →
    collects (λ x : string * EdgeRegistration P, ∃ p, projects_endpoint g x.1 p = false ∧
       role_restricts x.2 endpoint (indexed_store x.2 (get_or_create registry x.1)) p)
      (λ x k, ∃ p, projects_endpoint g x.1 p = false ∧
       role_cascades x.2 endpoint (indexed_store x.2 (get_or_create registry x.1)) x.1 p k)
      (plan_scanned_type g registry endpoint) x) as H2
    by (intros [t r] Hx%Hin; by eapply plan_scanned_type_collects).
  pose proof (try_fold_collects _ _ _ _ ∅ H1) as F1.
  destruct (try_fold (plan_projected_type g st endpoint) _ _) as [projected|err]; simpl.
  2: { destruct F1 as ([t r] & Hr%Hin & p & _ & Po & id & e & C & K).
       exists t, id. apply incident_edge_roles. eauto 10. }
  destruct F1 as [N1 F1]. pose proof (try_fold_collects _ _ _ _ projected H2) as F2.
  destruct (try_fold (plan_scanned_type g registry endpoint) _ _) as [cascade|err]; simpl.
  2: { destruct F2 as ([t r] & Hr%Hin & p & _ & Po & id & e & C & K).
       exists t, id. apply incident_edge_roles. eauto 10. }
  destruct F2 as [N2 F2]. split.
  - intros t id (r & p & Hr & Po & e & C & K)%incident_edge_roles. destruct (projects_endpoint g t p) eqn:Pp.
    + apply (N1 (t, r)); [by apply Hin|]. exists p. split; [done|]. split; [done|eauto].
    + apply (N2 (t, r)); [by apply Hin|]. exists p. split; [done|]. split; [done|eauto].
  - assert (∀ t id, (t, id) ∈ cascade ↔ incident_edge g registry endpoint CascadeEdge t id) as Hc.
    { intros t id. rewrite incident_edge_roles, F2, F1, elem_of_empty. split.
      - intros [[[]|([t' r] & Hr%Hin & p & _ & Po & E & e & C & K)]|([t' r] & Hr%Hin & p & _ & Po & E & e & C & K)];
          simpl in *; subst; eauto 10.
      - intros (r & p & Hr & Po & e & C & K). destruct (projects_endpoint g t p) eqn:Pp.
        + left; right. exists (t, r). rewrite Hin. split; [done|]. exists p. split; [done|].
          split; [done|]. eauto.
        + right. exists (t, r). rewrite Hin. split; [done|]. exists p. split; [done|].
          split; [done|]. eauto. }
    intros x. rewrite list_elem_of_omap. split.
    + intros ([t id] & Hk%elem_of_elements%Hc & L). simpl in L.
      assert (item_type x = t ∧ item_id x = id) as [<- <-].
      { rewrite lookup_get_or_create in L. by apply (get_or_create_ok registry). }
      done.
    + intros [Hk L]. exists (item_type x, item_id x). rewrite elem_of_elements, Hc. done.
Qed.
End preflight_spec.
