(* ===== verification/GraphTraversal.v ===== *)
(** * Bounded traversal

    The breadth-first search of [core/src/core/graph.rs]: [run_bounded_traversal] over any
    neighbour function, [traversal_path], the two neighbour functions (from the entity
    projections, and from a request-local map of one canonical snapshot), and
    [TraversalBuilder::execute_internal] with its argument checks.  The loop is modelled
    with fuel; [max_nodes + 1] iterations are always enough, since every queued node is
    counted in the visited set. *)

From stdpp Require Import base strings numbers option countable sorting gmap sets list.
From S2P Require Import Prelude Order GraphTypes EdgeIds GraphIndex GraphQuery.

Record TraversalPath := mkTraversalPath { tp_nodes : list EntityRef; tp_edge_ids : list string }.
Definition path_depth (p : TraversalPath) : Z := len (tp_edge_ids p).

Record TraversalResult := mkTraversalResult {
  tr_nodes : list EntityRef;
  tr_edge_ids : list string;
  tr_truncated : bool
}.

Record TraversalRun := mkTraversalRun {
  run_result : TraversalResult;
  run_path : option TraversalPath;
  run_matched : bool
}.

Record TraversalRequest := mkTraversalRequest {
  rq_start : EntityRef;
  rq_direction : Direction;
  rq_scope : option IndexValue;
  rq_max_depth : Z;
  rq_max_nodes : Z;
  rq_max_edges : Z;
  rq_collect_edges : bool;
  rq_target : option EntityRef;
  rq_record_path : bool
}.

Definition empty_at (start : EntityRef) (target : option EntityRef) : TraversalRun :=
  mkTraversalRun (mkTraversalResult [] [] false)
    (if bool_decide (target = Some start) then Some (mkTraversalPath [start] []) else None)
    (bool_decide (target = Some start)).

(** ** The search *)

(** The local variables of [run_bounded_traversal]. *)
Record Search := mkSearch {
  visited : gset EntityRef;
  queue : list (EntityRef * Z);
  result_edges : list string;
  predecessors : option (gmap EntityRef (EntityRef * string));
  traversed_edges : Z;
  truncated : bool;
  matched : option EntityRef
}.

Section search.
Context (request : TraversalRequest) (neighbors : EntityRef → list (string * EntityRef)).
Implicit Types (s : Search) (node : EntityRef) (depth : Z).

Definition visit_edge s (edge_id : string) : Search :=
  mkSearch (visited s) (queue s)
    (if rq_collect_edges request then bt_insert edge_id (result_edges s) else result_edges s)
    (predecessors s) (sat_add (traversed_edges s) 1) (truncated s) (matched s).

Definition truncate s : Search :=
  mkSearch (visited s) (queue s) (result_edges s) (predecessors s) (traversed_edges s) true (matched s).

(** A neighbour seen for the first time: it is the target, or it is queued. *)
Definition visit_node s node depth (edge_id : string) (neighbor : EntityRef) : Search :=
  mkSearch ({[neighbor]} ∪ visited s)
    (if bool_decide (rq_target request = Some neighbor) then queue s
     else queue s ++ [(neighbor, sat_add depth 1)])
    (result_edges s) (<[neighbor := (node, edge_id)]> <$> predecessors s) (traversed_edges s)
    (truncated s)
    (if bool_decide (rq_target request = Some neighbor) then Some neighbor else matched s).

(** The inner loop over the popped edges; the flag tells a [break 'search]. *)
Fixpoint scan_edges s node depth (popped : list (string * EntityRef)) : Search * bool :=
  match popped with
  | [] => (s, false)
  | (edge_id, neighbor) :: rest =>
      if (rq_max_edges request <=? traversed_edges s)%Z then (truncate s, true)
      else
        let s := visit_edge s edge_id in
        if bool_decide (neighbor ∈ visited s) then scan_edges s node depth rest
        else if (rq_max_nodes request <=? sat_sub (Z.of_nat (size (visited s))) 1)%Z then (truncate s, true)
        else
          let s := visit_node s node depth edge_id neighbor in
          if bool_decide (rq_target request = Some neighbor) then (s, true)
          else scan_edges s node depth rest
  end.

Definition pop s (rest : list (EntityRef * Z)) : Search :=
  mkSearch (visited s) rest (result_edges s) (predecessors s) (traversed_edges s) (truncated s) (matched s).

(** The outer loop; [None] is out of fuel. *)
Fixpoint search (fuel : nat) s : option Search :=
  match queue s with
  | [] => Some s
  | (node, depth) :: rest =>
      match fuel with
      | 0 => None
      | S fuel =>
          let s := pop s rest in
          if (rq_max_depth request <=? depth)%Z then search fuel s
          else
            match scan_edges s node depth (rev (neighbors node)) with
            | (s, true) => Some s
            | (s, false) => search fuel s
            end
      end
  end.

Definition search_start : Search :=
  mkSearch {[rq_start request]} [(rq_start request, 0%Z)] []
    (if rq_record_path request then Some ∅ else None) 0 false None.

(** The loop of [traversal_path], which prepends instead of reversing at the end. *)
Fixpoint path_from (fuel : nat) (preds : gmap EntityRef (EntityRef * string)) (cursor : EntityRef)
    (nodes : list EntityRef) (edge_ids : list string) : option TraversalPath :=
  if bool_decide (cursor = rq_start request) then Some (mkTraversalPath nodes edge_ids)
  else
    match preds !! cursor with
    | None => Some (mkTraversalPath nodes edge_ids)
    | Some (previous, edge_id) =>
        match fuel with
        | 0 => None
        | S fuel => path_from fuel preds previous (previous :: nodes) (edge_id :: edge_ids)
        end
    end.

Definition traversal_path (target : EntityRef) (preds : gmap EntityRef (EntityRef * string))
  : option TraversalPath := path_from (size preds) preds target [target] [].

(** The results read off the final state. *)
Definition finish s : TraversalRun :=
  mkTraversalRun
    (mkTraversalResult (bt_of_list (elements (visited s ∖ {[rq_start request]}))) (result_edges s) (truncated s))
    (target ← matched s; preds ← predecessors s; traversal_path target preds)
    (bool_decide (is_Some (matched s))).

(** [None] is out of fuel, which never happens. *)
Definition run_bounded_traversal : option TraversalRun :=
  if bool_decide (rq_target request = Some (rq_start request))
  then Some (empty_at (rq_start request) (rq_target request))
  else finish <$> search (S (Z.to_nat (rq_max_nodes request))) search_start.
End search.

(** ** Neighbours *)
Section neighbors.
Context {P : Type}.
Implicit Types (g : GraphIndex P) (r : EdgeRegistration P) (registry : StoreRegistry P)
  (st : GraphState) (et : EdgeTypeState) (direction : Direction) (node : EntityRef)
  (scope : option IndexValue).

(** Whether edges are followed from A to B, and from B to A. *)
Definition follows_a r direction : bool :=
  negb (bool_decide (direction = Reverse)) || bool_decide (shape r = Undirected).
Definition follows_b r direction : bool :=
  negb (bool_decide (direction = Forward)) || bool_decide (shape r = Undirected).

Definition traversal_uses_projection g (t : string) r direction : bool :=
  (negb (follows_a r direction) || projects_endpoint g t PosA) &&
  (negb (follows_b r direction) || projects_endpoint g t PosB).

Definition scope_accepts scope (edge_scope : option IndexValue) : bool :=
  negb (bool_decide (is_Some scope) && negb (bool_decide (edge_scope = scope))).

(** The neighbour an indexed edge gives at [node]. *)
Definition projected_neighbor r et node direction scope (id : string) : option (string * EntityRef) :=
  e ← et_edges et !! id;
  if negb (scope_accepts scope (ie_scope e)) then None
  else if bool_decide (ep_entity (ends_a (ie_endpoints e)) = node) && follows_a r direction
  then Some (id, ep_entity (ends_b (ie_endpoints e)))
  else if bool_decide (ep_entity (ends_b (ie_endpoints e)) = node) && follows_b r direction
  then Some (id, ep_entity (ends_a (ie_endpoints e)))
  else None.

Definition entity_bucket (m : gmap EntityRef EdgeIds) node (candidates : list string) : list string :=
  match m !! node with Some ids => EdgeIds.extend_cloned ids candidates | None => candidates end.

(** Appended to an empty scratch buffer, in reverse of the ascending edge ids. *)
Definition projected_traversal_neighbors r et node direction scope : list (string * EntityRef) :=
  let candidates := if follows_a r direction then entity_bucket (et_a_entities et) node [] else [] in
  let candidates := if follows_b r direction then entity_bucket (et_b_entities et) node candidates else candidates in
  rev (omap (projected_neighbor r et node direction scope) candidates).

(** [entry(node).or_default().push(..)] *)
Definition push_neighbor (adjacency : gmap EntityRef (list (string * EntityRef))) node
    (neighbor : string * EntityRef) : gmap EntityRef (list (string * EntityRef)) :=
  <[node := default [] (adjacency !! node) ++ [neighbor]]> adjacency.

Definition demand_step r direction scope (adjacency : gmap EntityRef (list (string * EntityRef)))
    (item : Item P) : gmap EntityRef (list (string * EntityRef)) :=
  match extract r item, extract_scope r item with
  | Ok e, Ok edge_scope =>
      if negb (scope_accepts scope edge_scope) then adjacency
      else
        let a := ep_entity (ends_a e) in
        let b := ep_entity (ends_b e) in
        let adjacency := if follows_a r direction then push_neighbor adjacency a (item_id item, b) else adjacency in
        if follows_b r direction && negb (bool_decide (a = b))
        then push_neighbor adjacency b (item_id item, a) else adjacency
  | _, _ => adjacency
  end.

(** [sort_unstable_by(|a, b| b.cmp(a))]: descending. *)
Definition descending (x y : string * EntityRef) : Prop := cmp y x ≠ Gt.
#[global] Instance descending_dec x y : Decision (descending x y).
Proof. unfold descending. solve_decision. Defined.

Definition demand_traversal_adjacency registry r direction scope
  : gmap EntityRef (list (string * EntityRef)) :=
  match registry !! edge_type r with
  | None => ∅
  | Some store =>
      merge_sort descending <$>
        foldl (demand_step r direction scope) ∅ (snd <$> map_to_list store)
  end.

(** The neighbours the second closure of [traverse_bounded] yields. *)
Definition demand_neighbors registry r direction scope node : list (string * EntityRef) :=
  default [] (demand_traversal_adjacency registry r direction scope !! node).

Definition traverse_bounded g st registry (t : string) (request : TraversalRequest) : option TraversalRun :=
  match registration g t with
  | None => Some (empty_at (rq_start request) (rq_target request))
  | Some r =>
      if traversal_uses_projection g t r (rq_direction request) then
        match gs_edge_types st !! t with
        | None => Some (empty_at (rq_start request) (rq_target request))
        | Some et =>
            run_bounded_traversal request (λ node,
              projected_traversal_neighbors r et node (rq_direction request) (rq_scope request))
        end
      else
        run_bounded_traversal request
          (demand_neighbors registry r (rq_direction request) (rq_scope request))
  end.

(** ** The builder *)

Record TraversalBuilder := mkTraversalBuilder {
  tb_start : option EntityRef;
  tb_direction : Direction;
  tb_scope : option IndexValue;
  tb_max_depth : option Z;
  tb_max_nodes : option Z;
  tb_max_edges : option Z;
  tb_collect_edges : bool
}.

Definition builder_new : TraversalBuilder := mkTraversalBuilder None Forward None None None None true.

(** [graph] is [None] when the application has no graph registrations. *)
Definition execute_internal (graph : option (GraphIndex P)) st registry (t : string) (b : TraversalBuilder)
    (target : option EntityRef) (record_path : bool) : result string (option TraversalRun) :=
  start ← ok_or "traversal start endpoint is invalid" (tb_start b);
  max_depth ← ok_or "traversal max_depth is required" (tb_max_depth b);
  max_nodes ← ok_or "traversal max_nodes is required" (tb_max_nodes b);
  if (max_nodes =? 0)%Z then Err "traversal max_nodes must be greater than zero"
  else
    let max_edges := default usize_max (tb_max_edges b) in
    if (max_edges =? 0)%Z then Err "traversal max_edges must be greater than zero"
    else
      g ← ok_or "application has no graph registrations" graph;
      mret (traverse_bounded g st registry t
        (mkTraversalRequest start (tb_direction b) (tb_scope b) max_depth max_nodes max_edges
           (tb_collect_edges b) target record_path)).

Definition without_edges (b : TraversalBuilder) : TraversalBuilder :=
  mkTraversalBuilder (tb_start b) (tb_direction b) (tb_scope b) (tb_max_depth b) (tb_max_nodes b)
    (tb_max_edges b) false.

Definition execute (graph : option (GraphIndex P)) st registry (t : string) (b : TraversalBuilder)
  : result string (option TraversalResult) :=
  map_ok (option_map run_result) (execute_internal graph st registry t b None false).

Definition is_reachable (graph : option (GraphIndex P)) st registry (t : string) (b : TraversalBuilder)
    (target : EntityRef) : result string (option bool) :=
  map_ok (option_map run_matched) (execute_internal graph st registry t (without_edges b) (Some target) false).

Definition path (graph : option (GraphIndex P)) st registry (t : string) (b : TraversalBuilder)
    (target : EntityRef) : result string (option (option TraversalPath)) :=
  map_ok (option_map run_path) (execute_internal graph st registry t (without_edges b) (Some target) true).
End neighbors.
