(* ===== verification/TraversalProof.v ===== *)
(** * Correctness of the breadth-first search

    The invariant of [run_bounded_traversal], for any neighbour function: visited nodes carry
    the length of a shortest walk, the queue holds at most two consecutive levels, and every
    processed node's neighbours are visited.  From it: the search returns, what it visits is
    reachable, what it omits without truncation is not, and the path it records is a shortest
    one. *)

From stdpp Require Import base strings numbers option countable sorting gmap sets list.
From S2P Require Import Prelude Order GraphTypes GraphTraversal.
From S2P Require Import EdgeIds GraphIndex GraphQuery.

Section bfs.
Context (request : TraversalRequest) (neighbors : EntityRef → list (string * EntityRef)).
Implicit Types (s : Search) (u v w : EntityRef) (dist : gmap EntityRef nat).
Abbreviation start := (rq_start request).

(** Walks along the neighbour function, by length. *)
Inductive walk : nat → EntityRef → Prop :=
| walk_start : walk 0 start
| walk_step n u v id : walk n u → (id, v) ∈ neighbors u → walk (S n) v.

(** The bounds are [usize] values. *)
Record bounds_ok : Prop := mkBoundsOk {
  depth_bound : (0 ≤ rq_max_depth request ≤ usize_max)%Z;
  nodes_bound : (0 ≤ rq_max_nodes request < usize_max)%Z;
  edges_bound : (0 ≤ rq_max_edges request ≤ usize_max)%Z
}.

(** What holds of the state however the search stops; [dist] gives the visited nodes their
    level. *)
Record sound s dist : Prop := mkSound {
  so_dom : ∀ v, v ∈ visited s ↔ is_Some (dist !! v);
  so_start : dist !! start = Some 0;
  so_walk : ∀ v d, dist !! v = Some d → walk d v ∧ (Z.of_nat d ≤ rq_max_depth request)%Z;
  so_size : (Z.of_nat (size (visited s)) ≤ rq_max_nodes request + 1)%Z;
  so_preds : ∀ preds, predecessors s = Some preds → ∀ v d, dist !! v = Some (S d) →
    ∃ u id, preds !! v = Some (u, id) ∧ (id, v) ∈ neighbors u ∧ dist !! u = Some d;
  so_record : predecessors s = None ↔ rq_record_path request = false;
  so_traversed : (len (result_edges s) ≤ traversed_edges s ∧ 0 ≤ traversed_edges s ≤ rq_max_edges request)%Z;
  so_edges : ∀ id, id ∈ result_edges s → ∃ u w, u ∈ visited s ∧ (id, w) ∈ neighbors u
}.

(** The state of the loop, at level [D], with the edges [todo] of the node [cur] still to be
    looked at. *)
Record inv s dist (D : nat) (cur : option EntityRef) (todo : list (string * EntityRef)) : Prop := mkInv {
  in_sound : sound s dist;
  in_queue : ∀ v z, (v, z) ∈ queue s → ∃ d, z = Z.of_nat d ∧ dist !! v = Some d ∧ D ≤ d ≤ S D;
  in_nodup : NoDup (queue s).*1;
  in_sorted : StronglySorted Z.le (queue s).*2;
  in_level : ∀ k v, k ≤ D → walk k v → ∃ d, dist !! v = Some d ∧ d ≤ k;
  in_bound : ∀ v d, dist !! v = Some d → d ≤ S D;
  in_done : ∀ v d id w, dist !! v = Some d → (Z.of_nat d < rq_max_depth request)%Z → v ∉ (queue s).*1 →
    (id, w) ∈ neighbors v →
    (cur = Some v ∧ (id, w) ∈ todo) ∨
    ((∃ d', dist !! w = Some d' ∧ d' ≤ S d) ∧ (rq_collect_edges request = true → id ∈ result_edges s));
  in_cur : ∀ u, cur = Some u → dist !! u = Some D ∧ (Z.of_nat D < rq_max_depth request)%Z ∧ u ∉ (queue s).*1;
  in_todo : ∀ u e, cur = Some u → e ∈ todo → e ∈ neighbors u;
  in_running : truncated s = false ∧ matched s = None ∧ ∀ t, rq_target request = Some t → t ∉ visited s
}.

(** The two ways to leave the loop early. *)
Definition stopped s : Prop :=
  ∃ dist, sound s dist ∧
    ((truncated s = true ∧ matched s = None) ∨
     (truncated s = false ∧ ∃ t d, rq_target request = Some t ∧ matched s = Some t ∧ t ≠ start ∧ dist !! t = Some d ∧
        ∀ k, walk k t → d ≤ k)).

Definition exhausted s : Prop := ∃ dist D, inv s dist D None [] ∧ queue s = [].

(** *** The inner loop *)

Lemma bt_insert_len (id : string) (l : list string) : (len (bt_insert id l) ≤ len l + 1)%Z.
Proof.
  unfold len. induction l as [|x l IH]; simpl; [lia|]. destruct (cmp id x); simpl; lia.
Qed.

Lemma visit_edge_sound s dist u w id :
  bounds_ok → sound s dist → (traversed_edges s < rq_max_edges request)%Z → u ∈ visited s → (id, w) ∈ neighbors u →
  sound (visit_edge request s id) dist.
Proof.
  intros B [So1 So2 So3 So4 So5 So6 So7 So8] L Hu Hn. pose proof (edges_bound B).
  split; simpl; try done.
  - rewrite sat_add_exact by (unfold usize_max in *; lia).
    pose proof (bt_insert_len id (result_edges s)). destruct (rq_collect_edges request); lia.
  - intros id'. destruct (rq_collect_edges request); [|apply So8].
    rewrite elem_of_bt_insert. intros [->|?]; [eauto|by apply So8].
Qed.

Lemma visit_edge_collects s id : rq_collect_edges request = true → id ∈ result_edges (visit_edge request s id).
Proof. simpl. intros ->. rewrite elem_of_bt_insert. by left. Qed.

Lemma visit_edge_edges s id id' : id' ∈ result_edges s → id' ∈ result_edges (visit_edge request s id).
Proof. simpl. destruct (rq_collect_edges request); [|done]. rewrite elem_of_bt_insert. by right. Qed.

(** Looking at an edge whose end is already visited. *)
Lemma inv_seen s dist D u id w todo :
  bounds_ok → inv s dist D (Some u) ((id, w) :: todo) → (traversed_edges s < rq_max_edges request)%Z →
  w ∈ visited s → inv (visit_edge request s id) dist D (Some u) todo.
Proof.
  intros B I L Hw. destruct (in_cur _ _ _ _ _ I u eq_refl) as (Du & Dm & Nq).
  assert ((id, w) ∈ neighbors u) as Hn by (eapply (in_todo _ _ _ _ _ I); [done|left]).
  split; simpl; try by apply I.
  - apply (visit_edge_sound _ _ u w); [done|apply I|done| |done]. apply (so_dom _ _ (in_sound _ _ _ _ _ I)). eauto.
  - intros v d id' w' Dv Dd Nv Hv.
    destruct (in_done _ _ _ _ _ I _ _ _ _ Dv Dd Nv Hv) as [[[= <-] [[= -> ->]|Ht]%elem_of_cons]|[(d' & ? & ?) Hc]].
    + right. apply (so_dom _ _ (in_sound _ _ _ _ _ I)) in Hw as [d' Hw].
      assert (d = D) as -> by congruence. split.
      * exists d'. split; [done|]. by apply (in_bound _ _ _ _ _ I w).
      * apply visit_edge_collects.
    + by left.
    + right. split; [eauto|]. intros C. by apply visit_edge_edges, Hc.
  - intros u' e [= <-] He. eapply (in_todo _ _ _ _ _ I); [done|by right].
Qed.

(** Extending the levels with a new node. *)
Lemma visit_node_sound s dist D u id w :
  bounds_ok → sound s dist → dist !! u = Some D → (Z.of_nat D < rq_max_depth request)%Z → (id, w) ∈ neighbors u →
  w ∉ visited s → (sat_sub (Z.of_nat (size (visited s))) 1 < rq_max_nodes request)%Z →
  sound (visit_node request s u (Z.of_nat D) id w) (<[w := S D]> dist).
Proof.
  intros B [So1 So2 So3 So4 So5 So6 So7 So8] Du Dm Hn Nw Lm.
  assert (dist !! w = None) as Dw.
  { destruct (dist !! w) eqn:E; [|done]. destruct Nw. apply So1. eauto. }
  split; simpl.
  - intros v. rewrite elem_of_union, elem_of_singleton, So1, lookup_insert_is_Some. split.
    + intros [->|?]; [by left|]. destruct (decide (w = v)) as [->|]; [by left|by right].
    + intros [<-|[_ ?]]; [by left|by right].
  - rewrite lookup_insert_ne; [done|]. intros ->. congruence.
  - intros v d [[<- <-]|[_ E]]%lookup_insert_Some; [|by apply So3].
    split; [|lia]. eapply walk_step; [|done]. by apply (So3 u D).
  - rewrite size_union, size_singleton by set_solver. unfold sat_sub in Lm. lia.
  - intros preds' E v d [[<- [= <-]]|[Nv E']]%lookup_insert_Some.
    + destruct (predecessors s) as [preds|] eqn:Ep; [|done]. simpl in E. injection E as <-.
      exists u, id. rewrite lookup_insert_eq. split_and!; [done..|].
      rewrite lookup_insert_ne; [done|]. intros ->. congruence.
    + destruct (predecessors s) as [preds|] eqn:Ep; [|done]. simpl in E. injection E as <-.
      destruct (So5 _ eq_refl _ _ E') as (u' & id' & ? & ? & Hu'). exists u', id'.
      rewrite !lookup_insert_ne by (try done; intros ->; congruence). done.
  - rewrite <-So6. by destruct (predecessors s).
  - done.
  - intros id' Hid. destruct (So8 _ Hid) as (u' & w' & ? & ?). exists u', w'. set_solver.
Qed.

Lemma StronglySorted_snoc (l : list Z) x :
  StronglySorted Z.le l → (∀ y, y ∈ l → (y ≤ x)%Z) → StronglySorted Z.le (l ++ [x]).
Proof.
  intros S F. induction S as [|y l S IH H]; simpl; [repeat constructor|]. constructor.
  - apply IH. intros z Hz. apply F. by right.
  - apply Forall_app. split; [done|]. constructor; [|constructor]. apply F. left.
Qed.

(** A new node other than the target joins the queue. *)
Lemma inv_new s dist D u id w todo :
  bounds_ok → inv s dist D (Some u) ((id, w) :: todo) → (traversed_edges s < rq_max_edges request)%Z →
  w ∉ visited s → (sat_sub (Z.of_nat (size (visited s))) 1 < rq_max_nodes request)%Z →
  rq_target request ≠ Some w →
  inv (visit_node request (visit_edge request s id) u (Z.of_nat D) id w) (<[w := S D]> dist) D (Some u) todo.
Proof.
  intros B I L Nw Lm Nt. destruct (in_cur _ _ _ _ _ I u eq_refl) as (Du & Dm & Nq).
  assert ((id, w) ∈ neighbors u) as Hn by (eapply (in_todo _ _ _ _ _ I); [done|left]).
  pose proof (in_sound _ _ _ _ _ I) as So. pose proof (depth_bound B) as Bd.
  assert (dist !! w = None) as Dw.
  { destruct (dist !! w) eqn:E; [|done]. destruct Nw. apply (so_dom _ _ So). eauto. }
  assert (w ∉ (queue s).*1) as Nwq.
  { intros ([v z] & -> & Hv)%list_elem_of_fmap. destruct (in_queue _ _ _ _ _ I _ _ Hv) as (d & _ & E & _).
    simpl in *. congruence. }
  assert (sat_add (Z.of_nat D) 1 = Z.of_nat (S D)) as Ed by (rewrite sat_add_exact; unfold usize_max in *; lia).
  assert (∀ v d, dist !! v = Some d → <[w := S D]> dist !! v = Some d) as Ext.
  { intros v d E. rewrite lookup_insert_ne; [done|]. intros ->. congruence. }
  assert (sound (visit_edge request s id) dist) as So'.
  { apply (visit_edge_sound _ _ u w); try done. apply (so_dom _ _ So). eauto. }
  assert (queue (visit_node request (visit_edge request s id) u (Z.of_nat D) id w)
          = queue s ++ [(w, Z.of_nat (S D))]) as Eq.
  { simpl. by rewrite bool_decide_eq_false_2, Ed by done. }
  split; rewrite ?Eq, ?fmap_app; simpl fmap.
  - by apply visit_node_sound.
  - intros v z [Hv|[= -> ->]%list_elem_of_singleton]%elem_of_app.
    + destruct (in_queue _ _ _ _ _ I _ _ Hv) as (d & ? & ? & ?). eauto 10.
    + exists (S D). rewrite lookup_insert_eq. split_and!; [done..|lia|lia].
  - apply NoDup_app. split_and!; [apply I| |apply NoDup_singleton].
    intros v Hv ->%list_elem_of_singleton. done.
  - apply StronglySorted_snoc; [apply I|]. intros y ([v z] & -> & Hv)%list_elem_of_fmap.
    destruct (in_queue _ _ _ _ _ I _ _ Hv) as (d & -> & _ & ?). simpl. lia.
  - intros k v Hk W. destruct (in_level _ _ _ _ _ I _ _ Hk W) as (d & ? & ?). eauto.
  - intros v d [[<- <-]|[_ E]]%lookup_insert_Some; [done|]. by apply (in_bound _ _ _ _ _ I v).
  - intros v d id' w' Dv Dd Nv Hv. apply not_elem_of_app in Nv as [Nv Nv'].
    apply lookup_insert_Some in Dv as [[<- <-]|[_ Dv]].
    { destruct Nv'. left. }
    destruct (in_done _ _ _ _ _ I _ _ _ _ Dv Dd Nv Hv) as [[[= <-] [[= -> ->]|Ht]%elem_of_cons]|[(d' & ? & ?) Hc]].
    + right. assert (d = D) as -> by congruence. split; [exists (S D); by rewrite lookup_insert_eq|].
      apply visit_edge_collects.
    + by left.
    + right. split; [eauto|]. intros C. by apply visit_edge_edges, Hc.
  - intros u' [= <-]. split_and!; [by apply Ext|done|]. rewrite not_elem_of_app, list_elem_of_singleton.
    split; [done|]. intros ->. congruence.
  - intros u' e [= <-] He. eapply (in_todo _ _ _ _ _ I); [done|by right].
  - destruct (in_running _ _ _ _ _ I) as (? & ? & Nv). simpl. rewrite bool_decide_eq_false_2 by done.
    split_and!; [done..|]. intros t Ht. specialize (Nv t Ht). set_solver.
Qed.

(** A new node that is the target ends the search, at its shortest distance. *)
Lemma inv_match s dist D u id w todo :
  bounds_ok → inv s dist D (Some u) ((id, w) :: todo) → (traversed_edges s < rq_max_edges request)%Z →
  w ∉ visited s → (sat_sub (Z.of_nat (size (visited s))) 1 < rq_max_nodes request)%Z →
  rq_target request = Some w →
  stopped (visit_node request (visit_edge request s id) u (Z.of_nat D) id w).
Proof.
  intros B I L Nw Lm Ht. destruct (in_cur _ _ _ _ _ I u eq_refl) as (Du & Dm & Nq).
  assert ((id, w) ∈ neighbors u) as Hn by (eapply (in_todo _ _ _ _ _ I); [done|left]).
  pose proof (in_sound _ _ _ _ _ I) as So.
  exists (<[w := S D]> dist). split.
  { apply visit_node_sound; try done. apply (visit_edge_sound _ _ u w); try done.
    apply (so_dom _ _ So). eauto. }
  right. simpl. rewrite bool_decide_eq_true_2 by done. split; [apply I|]. exists w, (S D).
  rewrite lookup_insert_eq. split_and!; [done..| |done|].
  - intros ->. apply Nw, (so_dom _ _ So). rewrite (so_start _ _ So). eauto.
  - intros k W. destruct (decide (k ≤ D)) as [Hk|]; [|lia].
    destruct (in_level _ _ _ _ _ I _ _ Hk W) as (d & E & _). destruct Nw. apply (so_dom _ _ So). eauto.
Qed.

Lemma truncate_stopped s dist D u todo : inv s dist D (Some u) todo → stopped (truncate s).
Proof.
  intros I. exists dist. split; [by destruct (in_sound _ _ _ _ _ I)|]. left. split; [done|]. apply I.
Qed.

Lemma truncate_edge_stopped s dist D u id w todo :
  bounds_ok → inv s dist D (Some u) ((id, w) :: todo) → (traversed_edges s < rq_max_edges request)%Z →
  stopped (truncate (visit_edge request s id)).
Proof.
  intros B I L. destruct (in_cur _ _ _ _ _ I u eq_refl) as (Du & _ & _).
  pose proof (in_sound _ _ _ _ _ I) as So.
  assert (sound (visit_edge request s id) dist) as So'.
  { apply (visit_edge_sound _ _ u w); try done; [|eapply (in_todo _ _ _ _ _ I); [done|left]].
    apply (so_dom _ _ So). eauto. }
  exists dist. split; [by destruct So'|]. left. split; [done|]. simpl. apply I.
Qed.

(** Work left for the outer loop: each queued node, and each node still to be visited. *)
Definition work s : nat := length (queue s) + (Z.to_nat (rq_max_nodes request) + 1 - size (visited s)).

Lemma scan_edges_inv u D popped s dist :
  bounds_ok → inv s dist D (Some u) popped →
  match scan_edges request s u (Z.of_nat D) popped with
  | (s', true) => stopped s'
  | (s', false) => (∃ dist', inv s' dist' D (Some u) []) ∧ work s' = work s
  end.
Proof.
  intros B. revert s dist. induction popped as [|[id w] popped IH]; intros s dist I; simpl; [eauto|].
  destruct (Z.leb_spec (rq_max_edges request) (traversed_edges s)) as [|L]; [by eapply truncate_stopped|].
  case_bool_decide as Hw.
  { pose proof (IH _ _ (inv_seen _ _ _ _ _ _ _ B I L Hw)) as R.
    by destruct (scan_edges _ _ _ _ popped) as [s' []]. }
  destruct (Z.leb_spec (rq_max_nodes request) (sat_sub (Z.of_nat (size (visited s))) 1)) as [|Lm];
    [by eapply truncate_edge_stopped|].
  case_bool_decide as Ht; [by eapply inv_match|].
  pose proof (IH _ _ (inv_new _ _ _ _ _ _ _ B I L Hw Lm Ht)) as R.
  destruct (scan_edges _ _ _ _ popped) as [s' []]; [done|]. destruct R as [R Ew]. split; [done|].
  rewrite Ew. unfold work. simpl. rewrite bool_decide_eq_false_2, length_app by done. simpl.
  simpl in Hw. rewrite size_union, size_singleton by set_solver.
  unfold sat_sub in Lm. lia.
Qed.

(** *** The outer loop *)

Lemma inv_shift s dist D u rest :
  bounds_ok → inv s dist D None [] → queue s = (u, Z.of_nat (S D)) :: rest → inv s dist (S D) None [].
Proof.
  intros B I Eq.
  assert (∀ v z, (v, z) ∈ queue s → ∃ d, z = Z.of_nat d ∧ dist !! v = Some d ∧ d = S D) as Q.
  { intros v z Hv. pose proof (in_queue _ _ _ _ _ I _ _ Hv) as (d & -> & ? & ?). exists d. split_and!; [done..|].
    pose proof (in_sorted _ _ _ _ _ I) as S. rewrite Eq in S, Hv. simpl in S.
    apply elem_of_cons in Hv as [[= -> Hz]|Hv]; [lia|].
    apply StronglySorted_inv in S as [_ S]. rewrite Forall_forall in S.
    specialize (S (Z.of_nat d) ltac:(apply list_elem_of_fmap; by exists (v, Z.of_nat d))). lia. }
  assert (Z.of_nat (S D) ≤ rq_max_depth request)%Z as Dm.
  { destruct (Q u (Z.of_nat (S D))) as (d & Hd & E & ->); [rewrite Eq; left|].
    by apply (so_walk _ _ (in_sound _ _ _ _ _ I) u). }
  split; try by apply I.
  - intros v z (d & -> & ? & ->)%Q. eexists. split_and!; [done..|lia|lia].
  - intros k v Hk W. destruct (decide (k ≤ D)) as [|Nk]; [by eapply in_level|].
    assert (k = S D) as -> by lia. inversion W as [|n u' ? id W' Hn]; subst.
    destruct (in_level _ _ _ _ _ I _ _ (le_n D) W') as (d & Du & Hd).
    destruct (in_done _ _ _ _ _ I u' d id v) as [[? _]|[(d' & ? & ?) _]]; [done|lia| |done|done|].
    + intros ([v' z] & -> & Hv)%list_elem_of_fmap. apply Q in Hv as (d' & _ & E & ->). simpl in *.
      assert (d = S D) by congruence. lia.
    + exists d'. split; [done|lia].
  - intros v d E. pose proof (in_bound _ _ _ _ _ I _ _ E). lia.
  - done.
Qed.

Lemma pop_sound s dist rest : sound s dist → sound (pop s rest) dist.
Proof. by intros []. Qed.

(** Taking the head off the queue leaves its edges to be done. *)
Lemma inv_pop s dist D u rest :
  inv s dist D None [] → queue s = (u, Z.of_nat D) :: rest → (Z.of_nat D < rq_max_depth request)%Z →
  inv (pop s rest) dist D (Some u) (rev (neighbors u)).
Proof.
  intros I Eq Dm. pose proof (in_nodup _ _ _ _ _ I) as ND. pose proof (in_sorted _ _ _ _ _ I) as S.
  rewrite Eq in ND, S. apply NoDup_cons in ND as [Nu ND]. apply StronglySorted_inv in S as [S _].
  destruct (in_queue _ _ _ _ _ I u (Z.of_nat D)) as (d & Ed & Du & _); [rewrite Eq; left|].
  assert (d = D) as -> by lia.
  split; simpl; try by apply I; try done.
  - apply pop_sound, I.
  - intros v z Hv. apply (in_queue _ _ _ _ _ I). rewrite Eq. by right.
  - done.
  - done.
  - intros v d id w Dv Dd Nv Hn. destruct (decide (v = u)) as [->|Nvu].
    + left. split; [done|]. apply list_elem_of_In. rewrite <-in_rev. by apply list_elem_of_In.
    + destruct (in_done _ _ _ _ _ I v d id w) as [[? _]|?]; try done; [|by right].
      rewrite Eq. simpl. by apply not_elem_of_cons.
  - intros u' [= <-]. done.
  - intros u' e [= <-] He. apply list_elem_of_In, in_rev. by apply list_elem_of_In.
Qed.

Lemma inv_skip s dist D u rest :
  inv s dist D None [] → queue s = (u, Z.of_nat D) :: rest → (rq_max_depth request ≤ Z.of_nat D)%Z →
  inv (pop s rest) dist D None [].
Proof.
  intros I Eq Dm. pose proof (in_nodup _ _ _ _ _ I) as ND. pose proof (in_sorted _ _ _ _ _ I) as S.
  rewrite Eq in ND, S. apply NoDup_cons in ND as [Nu ND]. apply StronglySorted_inv in S as [S _].
  destruct (in_queue _ _ _ _ _ I u (Z.of_nat D)) as (d & Ed & Du & _); [rewrite Eq; left|].
  assert (d = D) as -> by lia.
  split; simpl; try by apply I; try done.
  - apply pop_sound, I.
  - intros v z Hv. apply (in_queue _ _ _ _ _ I). rewrite Eq. by right.
  - done.
  - done.
  - intros v d id w Dv Dd Nv Hn. destruct (decide (v = u)) as [->|Nvu]; [simplify_eq; lia|].
    destruct (in_done _ _ _ _ _ I v d id w) as [[? _]|?]; try done; [|by right].
    rewrite Eq. simpl. by apply not_elem_of_cons.
  - done.
Qed.

Lemma inv_todo_done s dist D u : inv s dist D (Some u) [] → inv s dist D None [].
Proof.
  intros I. split; try by apply I.
  - intros v d id w Dv Dd Nv Hn.
    destruct (in_done _ _ _ _ _ I v d id w) as [[_ []%elem_of_nil]|?]; try done. by right.
  - done.
  - done.
Qed.

(** The search returns, with the queue empty or stopped early. *)
Lemma search_inv fuel s dist D :
  bounds_ok → inv s dist D None [] → work s ≤ fuel →
  ∃ s', search request neighbors fuel s = Some s' ∧ (exhausted s' ∨ stopped s').
Proof.
  intros B. revert s dist D. induction fuel as [|fuel IH]; intros s dist D I F.
  - assert (queue s = []) as Eq by (apply nil_length_inv; unfold work in F; lia).
    exists s. simpl. rewrite Eq. split; [done|]. left. by exists dist, D.
  - simpl. destruct (queue s) as [|[u z] rest] eqn:Eq.
    { exists s. split; [done|]. left. by exists dist, D. }
    destruct (in_queue _ _ _ _ _ I u z) as (d & -> & Du & Hd); [rewrite Eq; left|].
    assert (inv s dist d None []) as I'.
    { destruct (decide (d = D)) as [->|]; [done|]. assert (d = S D) as -> by lia. by eapply inv_shift. }
    assert (work (pop s rest) ≤ fuel) as F' by (unfold work in *; rewrite Eq in F; simpl in *; lia).
    destruct (Z.leb_spec (rq_max_depth request) (Z.of_nat d)) as [Dm|Dm].
    { eapply IH; [|done]. by eapply inv_skip. }
    pose proof (scan_edges_inv u d _ _ dist B (inv_pop _ _ _ _ _ I' Eq Dm)) as R.
    destruct (scan_edges _ _ _ _ _) as [s' []]; [eauto|]. destruct R as [[dist' R] Ew].
    eapply IH; [by eapply inv_todo_done|]. by rewrite Ew.
Qed.

Lemma search_start_size : size (visited (search_start request)) = 1.
Proof. exact (size_singleton (C := gset EntityRef) start). Qed.

Lemma inv_start :
  bounds_ok → rq_target request ≠ Some start →
  inv (search_start request) {[start := 0]} 0 None [].
Proof.
  intros B Nt. pose proof (nodes_bound B). pose proof (depth_bound B). pose proof (edges_bound B).
  split; simpl.
  - split; simpl.
    + intros v. rewrite elem_of_singleton, lookup_singleton_is_Some. naive_solver.
    + apply lookup_singleton_eq.
    + intros v d [<- <-]%lookup_singleton_Some. split; [constructor|lia].
    + change (Z.of_nat (size (visited (search_start request))) ≤ rq_max_nodes request + 1)%Z.
      rewrite search_start_size. lia.
    + intros preds _ v d [_ [=]]%lookup_singleton_Some.
    + by destruct (rq_record_path request).
    + unfold len. simpl. lia.
    + by intros id ?%elem_of_nil.
  - intros v z [= -> ->]%list_elem_of_singleton. exists 0. rewrite lookup_singleton_eq. split_and!; [done..|lia|lia].
  - apply NoDup_singleton.
  - repeat constructor.
  - intros k v Hk W. assert (k = 0) as -> by lia. inversion W; subst. exists 0. by rewrite lookup_singleton_eq.
  - intros v d [<- <-]%lookup_singleton_Some. lia.
  - intros v d id w [<- <-]%lookup_singleton_Some _ N. destruct N. left.
  - done.
  - done.
  - split_and!; [done..|]. intros t Ht. rewrite elem_of_singleton. congruence.
Qed.

Lemma search_start_work : work (search_start request) ≤ S (Z.to_nat (rq_max_nodes request)).
Proof. unfold work. rewrite search_start_size. simpl length. lia. Qed.

(** *** Paths *)

(** Consecutive nodes joined by the edges, in order. *)
Inductive linked : list EntityRef → list string → Prop :=
| linked_one v : linked [v] []
| linked_cons u v id nodes ids :
    (id, v) ∈ neighbors u → linked (v :: nodes) ids → linked (u :: v :: nodes) (id :: ids).

(** A path from the start to [t] of [d] edges. *)
Definition path_ok (p : TraversalPath) (t : EntityRef) (d : nat) : Prop :=
  linked (tp_nodes p) (tp_edge_ids p) ∧ head (tp_nodes p) = Some start ∧ last (tp_nodes p) = Some t ∧
  length (tp_edge_ids p) = d.

Lemma walk_0 v : walk 0 v → v = start.
Proof. by inversion 1. Qed.

Lemma preds_size s dist preds v d :
  sound s dist → predecessors s = Some preds → dist !! v = Some d → d ≤ size preds.
Proof.
  intros So Ep E. rewrite <-(size_dom (D := gset EntityRef)).
  cut (∃ X : gset EntityRef, size X = d ∧ X ⊆ dom preds ∧ ∀ x, x ∈ X → ∃ k, dist !! x = Some k ∧ k ≤ d).
  { intros (X & <- & HX & _). by apply subseteq_size. }
  revert v E. induction d as [|d IH]; intros v E.
  { exists ∅. split_and!; set_solver. }
  destruct (so_preds _ _ So _ Ep _ _ E) as (u & id & Ev & _ & Eu).
  destruct (IH _ Eu) as (X & Sx & HX & Hk). exists ({[v]} ∪ X). split_and!.
  - rewrite size_union, size_singleton, Sx; [lia|]. intros x ->%elem_of_singleton Hx.
    destruct (Hk _ Hx) as (k & ? & ?). simplify_eq. lia.
  - apply union_subseteq. split; [|done]. intros x ->%elem_of_singleton. apply elem_of_dom. eauto.
  - intros x [->%elem_of_singleton|Hx]%elem_of_union; [eauto|]. destruct (Hk _ Hx) as (k & ? & ?). eauto with lia.
Qed.

Lemma path_from_ok s dist preds fuel v d nodes ids t :
  sound s dist → predecessors s = Some preds → dist !! v = Some d → d ≤ fuel →
  linked (v :: nodes) ids → last (v :: nodes) = Some t →
  ∃ p, path_from request fuel preds v (v :: nodes) ids = Some p ∧ path_ok p t (d + length ids).
Proof.
  intros So Ep. revert v d nodes ids. induction fuel as [|fuel IH]; intros v d nodes ids E F Lk La; simpl.
  - assert (d = 0) as -> by lia. pose proof (walk_0 _ (proj1 (so_walk _ _ So _ _ E))) as ->.
    rewrite bool_decide_eq_true_2 by done. eexists. split; [done|]. by split_and!.
  - case_bool_decide as Ev.
    + subst. rewrite (so_start _ _ So) in E. injection E as <-. eexists. split; [done|]. by split_and!.
    + destruct d as [|d]; [by destruct Ev; apply walk_0, (so_walk _ _ So _ _ E)|].
      destruct (so_preds _ _ So _ Ep _ _ E) as (u & id & -> & Hn & Eu).
      destruct (IH u d (v :: nodes) (id :: ids)) as (p & -> & Hp); [done|lia|by constructor|done|].
      exists p. split; [done|]. simpl in Hp. by rewrite Nat.add_succ_r in Hp.
Qed.

Lemma traversal_path_ok s dist preds t d :
  sound s dist → predecessors s = Some preds → dist !! t = Some d →
  ∃ p, traversal_path request t preds = Some p ∧ path_ok p t d.
Proof.
  intros So Ep E. destruct (path_from_ok s dist preds (size preds) t d [] [] t) as (p & Hp & Ok); try done.
  - by eapply preds_size.
  - constructor.
  - exists p. by rewrite Nat.add_0_r in Ok.
Qed.

(** *** The results *)

Record run_ok (run : TraversalRun) : Prop := mkRunOk {
  ro_sorted : sorted (tr_nodes (run_result run));
  ro_nodes : ∀ v, v ∈ tr_nodes (run_result run) →
    v ≠ start ∧ ∃ k, walk k v ∧ (Z.of_nat k ≤ rq_max_depth request)%Z;
  ro_edges : ∀ id, id ∈ tr_edge_ids (run_result run) →
    ∃ u w, (u = start ∨ u ∈ tr_nodes (run_result run)) ∧ (id, w) ∈ neighbors u;
  ro_bounds : (len (tr_nodes (run_result run)) ≤ rq_max_nodes request ∧
               len (tr_edge_ids (run_result run)) ≤ rq_max_edges request)%Z;
  ro_complete : tr_truncated (run_result run) = false → run_matched run = false →
    ∀ k v, walk k v → (Z.of_nat k ≤ rq_max_depth request)%Z →
      (v = start ∨ v ∈ tr_nodes (run_result run)) ∧ rq_target request ≠ Some v ∧
      ((Z.of_nat k < rq_max_depth request)%Z → rq_collect_edges request = true →
         ∀ id w, (id, w) ∈ neighbors v → id ∈ tr_edge_ids (run_result run));
  ro_matched : run_matched run = true →
    ∃ t d, rq_target request = Some t ∧ walk d t ∧ (Z.of_nat d ≤ rq_max_depth request)%Z ∧
      (∀ k, walk k t → d ≤ k) ∧
      (rq_record_path request = true → ∃ p, run_path run = Some p ∧ path_ok p t d)
}.

Lemma elem_of_nodes s v :
  v ∈ tr_nodes (run_result (finish request s)) ↔ v ∈ visited s ∧ v ≠ start.
Proof. simpl. rewrite elem_of_bt_of_list, elem_of_elements. set_solver. Qed.

Lemma length_bt_of_list (l : list EntityRef) : length (bt_of_list l) ≤ length l.
Proof.
  assert (∀ x (k : list EntityRef), length (bt_insert x k) ≤ S (length k)) as Hi.
  { intros x k. induction k as [|y k IH]; simpl; [lia|]. destruct (cmp x y); simpl; lia. }
  assert (∀ acc : list EntityRef, length (bt_extend l acc) ≤ length l + length acc) as H.
  { induction l as [|x l IH]; intros acc; simpl; [lia|].
    unfold bt_extend in *. simpl. etrans; [apply IH|]. pose proof (Hi x acc). lia. }
  specialize (H []). unfold bt_of_list. simpl in H. lia.
Qed.

Lemma sound_bounds s dist :
  sound s dist →
  (len (tr_nodes (run_result (finish request s))) ≤ rq_max_nodes request ∧
   len (tr_edge_ids (run_result (finish request s))) ≤ rq_max_edges request)%Z.
Proof.
  intros So. pose proof (so_size _ _ So) as Sz. pose proof (so_traversed _ _ So) as Tr. simpl. split; [|lia].
  unfold len. pose proof (length_bt_of_list (elements (visited s ∖ {[start]}))) as Le.
  assert (size (visited s) = S (size (visited s ∖ {[start]}))) as Es.
  { rewrite size_difference, size_singleton by
      (intros x ->%elem_of_singleton; apply (so_dom _ _ So); rewrite (so_start _ _ So); eauto).
    assert (start ∈ visited s) as Hs by (apply (so_dom _ _ So); rewrite (so_start _ _ So); eauto).
    assert (size (visited s) ≠ 0); [|lia]. intros Z%size_empty_inv. set_solver. }
  change (length (elements ?X)) with (size X) in Le. lia.
Qed.

Lemma exhausted_level s dist D k v :
  inv s dist D None [] → queue s = [] → walk k v → (Z.of_nat k ≤ rq_max_depth request)%Z →
  ∃ d, dist !! v = Some d ∧ d ≤ k.
Proof.
  intros I Eq W. induction W as [|n u v id W IH Hn]; intros Hk.
  { exists 0. by rewrite (so_start _ _ (in_sound _ _ _ _ _ I)). }
  destruct IH as (d & Du & Hd); [lia|].
  destruct (in_done _ _ _ _ _ I u d id v) as [[? _]|[(d' & ? & ?) _]]; [done|lia| |done|done|].
  - rewrite Eq. apply not_elem_of_nil.
  - exists d'. split; [done|lia].
Qed.

Lemma finish_nodes s dist v :
  sound s dist → v ∈ tr_nodes (run_result (finish request s)) →
  v ≠ start ∧ ∃ k, walk k v ∧ (Z.of_nat k ≤ rq_max_depth request)%Z.
Proof.
  intros So [Hv Ns]%elem_of_nodes. split; [done|]. apply (so_dom _ _ So) in Hv as [d E].
  exists d. by apply (so_walk _ _ So).
Qed.

Lemma finish_edges s dist id :
  sound s dist → id ∈ tr_edge_ids (run_result (finish request s)) →
  ∃ u w, (u = start ∨ u ∈ tr_nodes (run_result (finish request s))) ∧ (id, w) ∈ neighbors u.
Proof.
  intros So (u & w & Hu & Hn)%(so_edges _ _ So). exists u, w. split; [|done].
  destruct (decide (u = start)); [by left|]. right. by apply elem_of_nodes.
Qed.

Lemma finish_exhausted s : exhausted s → run_ok (finish request s).
Proof.
  intros (dist & D & I & Eq). pose proof (in_sound _ _ _ _ _ I) as So.
  destruct (in_running _ _ _ _ _ I) as (Tr & Ma & Nt). split.
  - apply bt_of_list_sorted.
  - intros v. by apply (finish_nodes _ dist).
  - intros id. by apply (finish_edges _ dist).
  - by apply (sound_bounds _ dist).
  - intros _ _ k v W Hk. destruct (exhausted_level _ _ _ _ _ I Eq W Hk) as (d & E & Hd).
    assert (v ∈ visited s) as Hv by (apply (so_dom _ _ So); eauto). split_and!.
    + destruct (decide (v = start)); [by left|]. right. by apply elem_of_nodes.
    + intros Ht. by apply (Nt _ Ht).
    + intros Hlt C id w Hn. destruct (in_done _ _ _ _ _ I v d id w) as [[? _]|[_ Hc]]; [done|lia| |done|done|by apply Hc].
      rewrite Eq. apply not_elem_of_nil.
  - simpl. rewrite Ma. by rewrite bool_decide_eq_false_2 by (by intros []).
Qed.

Lemma finish_stopped s : stopped s → run_ok (finish request s).
Proof.
  intros (dist & So & C). split.
  - apply bt_of_list_sorted.
  - intros v. by apply (finish_nodes _ dist).
  - intros id. by apply (finish_edges _ dist).
  - by apply (sound_bounds _ dist).
  - simpl. destruct C as [[-> _]|(-> & t & d & _ & -> & _)]; [done|].
    rewrite bool_decide_eq_true_2 by eauto. done.
  - simpl. destruct C as [[_ ->]|(_ & t & d & Ht & Ma & _ & E & Min)].
    { by rewrite bool_decide_eq_false_2 by (by intros []). }
    intros _. exists t, d. destruct (so_walk _ _ So _ _ E) as [W Hd]. split_and!; [done..|].
    intros Hr. destruct (predecessors s) as [preds|] eqn:Ep; [|by rewrite (proj1 (so_record _ _ So) Ep) in Hr].
    rewrite Ma. simpl. by eapply traversal_path_ok.
Qed.

Lemma run_empty_ok : bounds_ok → rq_target request = Some start → run_ok (empty_at start (rq_target request)).
Proof.
  intros B Ht. pose proof (nodes_bound B). pose proof (edges_bound B). pose proof (depth_bound B).
  unfold empty_at. rewrite bool_decide_eq_true_2 by done. split; simpl.
  - apply sorted_nil.
  - by intros v ?%elem_of_nil.
  - by intros id ?%elem_of_nil.
  - unfold len. simpl. lia.
  - done.
  - intros _. exists start, 0. split_and!; [done|constructor|lia|lia|]. intros _. eexists. split; [done|].
    split_and!; [constructor|done..].
Qed.

(** The search returns, and its result is correct. *)
Lemma run_bounded_traversal_ok :
  bounds_ok → ∃ run, run_bounded_traversal request neighbors = Some run ∧ run_ok run.
Proof.
  intros B. unfold run_bounded_traversal. case_bool_decide as Ht.
  { eexists. split; [done|]. by apply run_empty_ok. }
  destruct (search_inv _ _ _ _ B (inv_start B Ht) search_start_work) as (s & -> & [X|X]).
  - eexists. split; [done|]. by apply finish_exhausted.
  - eexists. split; [done|]. by apply finish_stopped.
Qed.
End bfs.

(** * The two neighbour functions agree

    [projected_traversal_neighbors] reads the entity projections, [demand_neighbors] a map
    built from one canonical snapshot.  They give the same list, in the same order, at every
    node, unless the traversal follows a directed type in reverse over an edge whose two ends
    are the same entity. *)

Section agree.
Context {P : Type}.
Implicit Types (g : GraphIndex P) (r : EdgeRegistration P) (registry : StoreRegistry P)
  (st : GraphState) (et : EdgeTypeState) (direction : Direction) (node : EntityRef)
  (scope : option IndexValue) (item : Item P).

(** The entity an edge leads to from [node], by the rule of each function. *)
Definition projected_rule r direction node (e : IndexedEdge) : option EntityRef :=
  if bool_decide (a_entity_key e = node) && follows_a r direction then Some (b_entity_key e)
  else if bool_decide (b_entity_key e = node) && follows_b r direction then Some (a_entity_key e)
  else None.
Definition demand_rule r direction node (e : IndexedEdge) : option EntityRef :=
  if bool_decide (a_entity_key e = node) && follows_a r direction then Some (b_entity_key e)
  else if bool_decide (b_entity_key e = node) && follows_b r direction && negb (bool_decide (a_entity_key e = node))
  then Some (a_entity_key e)
  else None.

(** An edge on which the rules differ. *)
Definition reverse_loop r direction (e : IndexedEdge) : Prop :=
  follows_a r direction = false ∧ a_entity_key e = b_entity_key e.

Lemma rules_agree r direction node e :
  ¬ reverse_loop r direction e → projected_rule r direction node e = demand_rule r direction node e.
Proof.
  unfold reverse_loop, projected_rule, demand_rule. intros N.
  destruct (follows_a r direction), (follows_b r direction);
    rewrite ?andb_false_r, ?andb_true_r; repeat case_bool_decide; simpl; try done.
  destruct N. split; congruence.
Qed.

(** *** The demand-driven list *)

(** What one item contributes to the list of [node]. *)
Definition demand_at r direction scope node item : option (string * EntityRef) :=
  match indexed r item with
  | Ok e => if scope_accepts scope (ie_scope e) then pair (item_id item) <$> demand_rule r direction node e else None
  | Err _ => None
  end.

Lemma lookup_push adjacency node n x :
  default [] (push_neighbor adjacency node n !! x)
    = default [] (adjacency !! x) ++ (if decide (node = x) then [n] else []).
Proof.
  unfold push_neighbor. case_decide as E.
  - subst. by rewrite lookup_insert_eq.
  - by rewrite lookup_insert_ne, app_nil_r by done.
Qed.

Lemma demand_step_lookup r direction scope adjacency item node :
  default [] (demand_step r direction scope adjacency item !! node)
    = default [] (adjacency !! node) ++ option_list (demand_at r direction scope node item).
Proof.
  unfold demand_step, demand_at, indexed.
  destruct (extract r item) as [e|]; simpl; [|by rewrite app_nil_r].
  destruct (extract_scope r item) as [s|]; simpl; [|by rewrite app_nil_r].
  destruct (scope_accepts scope s); simpl; [|by rewrite app_nil_r].
  unfold demand_rule, a_entity_key, b_entity_key, a_key, b_key. simpl.
  set (a := ep_entity (ends_a e)). set (b := ep_entity (ends_b e)).
  destruct (follows_a r direction), (follows_b r direction); simpl; rewrite ?andb_false_r, ?andb_true_r; simpl.
  all: repeat (case_bool_decide; simpl); rewrite ?lookup_push; repeat case_decide; simpl; rewrite ?app_nil_r;
    try done; congruence.
Qed.

Lemma demand_fold_lookup r direction scope adjacency items node :
  default [] (foldl (demand_step r direction scope) adjacency items !! node)
    = default [] (adjacency !! node) ++ omap (demand_at r direction scope node) items.
Proof.
  revert adjacency. induction items as [|x items IH]; intros adjacency; simpl; [by rewrite app_nil_r|].
  rewrite IH, demand_step_lookup, <-app_assoc. f_equal. csimpl.
  by destruct (demand_at r direction scope node x).
Qed.

Lemma demand_neighbors_eq registry r direction scope node :
  demand_neighbors registry r direction scope node
    = merge_sort descending (omap (demand_at r direction scope node)
        (snd <$> map_to_list (get_or_create registry (edge_type r)))).
Proof.
  unfold demand_neighbors, demand_traversal_adjacency, get_or_create.
  destruct (registry !! edge_type r) as [store|]; simpl.
  - rewrite lookup_fmap. pose proof (demand_fold_lookup r direction scope ∅ (snd <$> map_to_list store) node) as F.
    rewrite lookup_empty in F. simpl in F. rewrite <-F. by destruct (_ !! node).
  - rewrite lookup_empty, map_to_list_empty. done.
Qed.

(** *** Descending lists *)

Lemma sorted_rev_ext {A} `{TotalOrd A} (l k : list A) :
  sorted (rev l) → sorted (rev k) → (∀ x, x ∈ l ↔ x ∈ k) → l = k.
Proof.
  intros Sl Sk E. rewrite <-(rev_involutive l), <-(rev_involutive k). f_equal.
  apply sorted_ext; [done..|]. intros x. rewrite !list_elem_of_In, <-!in_rev, <-!list_elem_of_In. apply E.
Qed.

#[local] Instance descending_total : Total descending.
Proof.
  intros x y. unfold descending. destruct (cmp y x) eqn:E; [by left|by left|right].
  rewrite cmp_opp, E. done.
Qed.

#[local] Instance descending_trans : Transitive descending.
Proof.
  intros x y z. unfold descending. intros H1 H2 G. apply cmp_gt_lt in G.
  destruct (cmp_spec y x) as [E|L|L]; [subst; by apply H2; apply cmp_gt_lt| |].
  - apply H2. apply cmp_gt_lt. eapply cmp_lt_trans; [exact L|]. exact G.
  - done.
Qed.

Lemma merge_sort_descending (l : list (string * EntityRef)) :
  NoDup l → sorted (rev (merge_sort descending l)).
Proof.
  intros ND. assert (NoDup (merge_sort descending l)) as ND' by (by rewrite merge_sort_Permutation).
  pose proof (StronglySorted_merge_sort descending l) as S. revert ND' S.
  generalize (merge_sort descending l) as k. clear. induction k as [|x k IH]; intros ND S; simpl; [apply sorted_nil|].
  apply NoDup_cons in ND as [Nx ND]. apply StronglySorted_inv in S as [S F]. rewrite Forall_forall in F.
  apply sorted_app. split_and!; [by apply IH|apply sorted_singleton|].
  intros y z Hy ->%list_elem_of_singleton. rewrite list_elem_of_In, <-in_rev, <-list_elem_of_In in Hy.
  specialize (F _ Hy). unfold descending in F. destruct (cmp_spec y x) as [E|L|L]; [by subst|done|]. by destruct F.
Qed.

(** Pairs whose first components ascend, ascend. *)
Lemma sorted_omap_pairs (f : string → option (string * EntityRef)) (ids : list string) :
  (∀ id p, f id = Some p → p.1 = id) → sorted ids → sorted (omap f ids).
Proof.
  intros F. induction ids as [|x ids IH]; intros S; csimpl; [apply sorted_nil|].
  apply sorted_cons in S as [S L]. destruct (f x) as [p|] eqn:E; [|by apply IH]. apply sorted_cons.
  split; [by apply IH|]. intros q (y & Hy & Ey)%list_elem_of_omap.
  pose proof (F _ _ E) as Ex. pose proof (F _ _ Ey) as Eq. specialize (L y Hy).
  destruct p as [i u], q as [j v]. simpl in *. subst.
  change (then_cmp (cmp x y) (cmp u v) = Lt). unfold cmp_lt in L. by rewrite L.
Qed.

(** *** The projected list *)

Lemma projected_neighbor_spec r et node direction scope id :
  projected_neighbor r et node direction scope id =
    match et_edges et !! id with
    | Some e => if scope_accepts scope (ie_scope e) then pair id <$> projected_rule r direction node e else None
    | None => None
    end.
Proof.
  unfold projected_neighbor. destruct (et_edges et !! id) as [e|]; [|done]. simpl.
  destruct (scope_accepts scope (ie_scope e)); [|done]. simpl.
  unfold projected_rule, a_entity_key, b_entity_key, a_key, b_key. by repeat case_match.
Qed.

Lemma entity_bucket_sorted m node l : sorted l → sorted (entity_bucket m node l).
Proof. unfold entity_bucket. destruct (m !! node); [apply EdgeIds.extend_cloned_sorted|done]. Qed.

Lemma elem_of_entity_bucket (m : gmap EntityRef EdgeIds) node l id :
  id ∈ entity_bucket m node l ↔ id ∈ bucket_ids m node ∨ id ∈ l.
Proof.
  unfold entity_bucket, bucket_ids. destruct (m !! node); [apply EdgeIds.elem_of_extend_cloned|].
  rewrite elem_of_nil. tauto.
Qed.

Lemma projected_sorted r et node direction scope :
  sorted (rev (projected_traversal_neighbors r et node direction scope)).
Proof.
  unfold projected_traversal_neighbors. rewrite rev_involutive. apply sorted_omap_pairs.
  - intros id p. rewrite projected_neighbor_spec. destruct (et_edges et !! id); [|done].
    case_match; [|done]. by intros (x & _ & ->)%fmap_Some.
  - repeat case_match; repeat apply entity_bucket_sorted; apply sorted_nil.
Qed.

Lemma follows_some r direction : follows_a r direction || follows_b r direction = true.
Proof.
  unfold follows_a, follows_b. destruct direction, (shape r); done.
Qed.

Lemma elem_of_projected g r canon et node direction scope id w :
  index_ok g r canon et → traversal_uses_projection g (edge_type r) r direction = true →
  (id, w) ∈ projected_traversal_neighbors r et node direction scope ↔
    ∃ e, canon !! id = Some e ∧ scope_accepts scope (ie_scope e) = true ∧ projected_rule r direction node e = Some w.
Proof.
  intros I U. apply andb_true_iff in U as [Ua Ub]. pose proof (follows_some r direction) as Fs.
  assert (projects_any_endpoint g (edge_type r) = true) as Pany.
  { unfold projects_any_endpoint.
    destruct (follows_a r direction), (follows_b r direction); simpl in *; try done;
      apply orb_true_iff; auto. }
  pose proof (ok_edges _ _ _ _ I) as Ee. rewrite Pany in Ee.
  assert (∀ i, follows_a r direction = true → i ∈ bucket_ids (et_a_entities et) node ↔
            ∃ e, canon !! i = Some e ∧ a_entity_key e = node) as Ha.
  { intros i Fa. rewrite Fa in Ua. by apply (proj_ok_bucket _ _ _ _ _ _ (ok_a_entities _ _ _ _ I)). }
  assert (∀ i, follows_b r direction = true → i ∈ bucket_ids (et_b_entities et) node ↔
            ∃ e, canon !! i = Some e ∧ b_entity_key e = node) as Hb.
  { intros i Fb. rewrite Fb in Ub. by apply (proj_ok_bucket _ _ _ _ _ _ (ok_b_entities _ _ _ _ I)). }
  unfold projected_traversal_neighbors. rewrite list_elem_of_In, <-in_rev, <-list_elem_of_In, list_elem_of_omap.
  setoid_rewrite projected_neighbor_spec. rewrite Ee. split.
  - intros (i & _ & H). destruct (canon !! i) as [e|] eqn:C; [|done].
    destruct (scope_accepts scope (ie_scope e)) eqn:Sc; [|done].
    apply fmap_Some in H as (x & Hx & [= -> ->]). eauto.
  - intros (e & C & Sc & Hr). exists id. rewrite C, Sc, Hr. split; [|done].
    unfold projected_rule in Hr.
    destruct (bool_decide (a_entity_key e = node) && follows_a r direction) eqn:Ka.
    + apply andb_true_iff in Ka as [Ka%bool_decide_eq_true Fa]. rewrite Fa.
      destruct (follows_b r direction); rewrite ?elem_of_entity_bucket, Ha by done; eauto.
    + destruct (bool_decide (b_entity_key e = node) && follows_b r direction) eqn:Kb; [|done].
      apply andb_true_iff in Kb as [Kb%bool_decide_eq_true Fb]. rewrite Fb.
      rewrite elem_of_entity_bucket, Hb by done. eauto.
Qed.

(** *** Agreement *)

Lemma demand_NoDup registry r direction scope node :
  registry_ok registry →
  NoDup (omap (demand_at r direction scope node) (snd <$> map_to_list (get_or_create registry (edge_type r)))).
Proof.
  intros W. apply (NoDup_fmap_1 fst). set (store := get_or_create registry (edge_type r)).
  assert (∀ id x, (id, x) ∈ map_to_list store → item_id x = id) as Hid.
  { intros id x E%elem_of_map_to_list. by eapply (get_or_create_ok registry). }
  pose proof (NoDup_fst_map_to_list store) as ND.
  induction (map_to_list store) as [|[id x] l IH]; csimpl; [constructor|].
  simpl in ND. apply NoDup_cons in ND as [Nx ND].
  assert (∀ i y, (i, y) ∈ l → item_id y = i) as Hid' by (intros i y Hy; apply Hid; by right).
  specialize (IH Hid' ND). destruct (demand_at r direction scope node x) as [p|] eqn:E; [|done]. simpl.
  apply NoDup_cons. split; [|done]. intros (q & Eq & (y & Hy & Ey)%list_elem_of_omap)%list_elem_of_fmap.
  assert (∀ z p', demand_at r direction scope node z = Some p' → p'.1 = item_id z) as F.
  { intros z p'. unfold demand_at. repeat (case_match; try done). by intros (w & _ & ->)%fmap_Some. }
  rewrite (F _ _ E), (F _ _ Ey), (Hid id x) in Eq by left.
  apply list_elem_of_fmap in Hy as ([j y'] & -> & Hy). apply Nx. apply list_elem_of_fmap.
  exists (j, y'). split; [|done]. simpl in *. by rewrite Eq, (Hid' _ _ Hy).
Qed.

Lemma elem_of_demand registry r direction scope node id w :
  registry_ok registry →
  (id, w) ∈ demand_neighbors registry r direction scope node ↔
    ∃ e, indexed_store r (get_or_create registry (edge_type r)) !! id = Some e ∧
      scope_accepts scope (ie_scope e) = true ∧ demand_rule r direction node e = Some w.
Proof.
  intros W. rewrite demand_neighbors_eq, merge_sort_Permutation, list_elem_of_omap. split.
  - intros (x & ([i y] & -> & Hy%elem_of_map_to_list)%list_elem_of_fmap & H). simpl in H. unfold demand_at in H.
    destruct (indexed r y) as [e|] eqn:X; [|done]. destruct (scope_accepts scope (ie_scope e)) eqn:Sc; [|done].
    apply fmap_Some in H as (w' & Hw & [= -> ->]). exists e. split; [|done].
    apply lookup_indexed_store. exists y. split; [|done].
    by destruct (get_or_create_ok _ _ _ _ W Hy) as [_ ->].
  - intros (e & (y & Hy & X)%lookup_indexed_store & Sc & Hr). exists y. split.
    + apply list_elem_of_fmap. exists (id, y). by rewrite elem_of_map_to_list.
    + unfold demand_at. rewrite X, Sc, Hr. simpl. by destruct (get_or_create_ok _ _ _ _ W Hy) as [_ ->].
Qed.

(** No stored edge distinguishes the two functions. *)
Definition no_reverse_loops r direction (store : EntityStore P) : Prop :=
  ∀ id item e, store !! id = Some item → indexed r item = Ok e → ¬ reverse_loop r direction e.

Lemma neighbors_agree g registry st t r direction scope node :
  registrations_ok g → registry_ok registry → graph_ok g registry st → registration g t = Some r →
  traversal_uses_projection g t r direction = true →
  no_reverse_loops r direction (get_or_create registry t) →
  projected_traversal_neighbors r (edge_state st t) node direction scope
    = demand_neighbors registry r direction scope node.
Proof.
  intros R W G Hr U N. destruct (G _ _ Hr) as [_ I]. pose proof (R _ _ Hr) as Et. rewrite <-Et in *.
  apply sorted_rev_ext.
  - apply projected_sorted.
  - rewrite demand_neighbors_eq. by apply merge_sort_descending, demand_NoDup.
  - intros [id w]. rewrite (elem_of_projected g r _ _ _ _ _ _ _ I U), (elem_of_demand registry) by done.
    split; intros (e & C & Sc & H); exists e; (split_and!; [done..|]);
      apply lookup_indexed_store in C as (item & E & X).
    + rewrite <-(rules_agree r direction node e); [done|by eapply N].
    + rewrite (rules_agree r direction node e); [done|by eapply N].
Qed.
End agree.

(** *** The search depends on the neighbours only *)

Lemma search_ext request n1 n2 fuel s :
  (∀ v, n1 v = n2 v) → search request n1 fuel s = search request n2 fuel s.
Proof.
  intros E. revert s. induction fuel as [|fuel IH]; intros s; simpl; [done|].
  destruct (queue s) as [|[u z] rest]; [done|]. rewrite E. case_match; [apply IH|].
  destruct (scan_edges _ _ _ _ _) as [s' []]; [done|apply IH].
Qed.

Lemma run_ext request n1 n2 :
  (∀ v, n1 v = n2 v) → run_bounded_traversal request n1 = run_bounded_traversal request n2.
Proof.
  intros E. unfold run_bounded_traversal. by rewrite (search_ext request n1 n2 _ _ E).
Qed.

Lemma run_no_neighbors request n :
  (∀ v, n v = []) → run_bounded_traversal request n = Some (empty_at (rq_start request) (rq_target request)).
Proof.
  intros E. unfold run_bounded_traversal. case_bool_decide as Ht; [done|].
  cbn [search search_start queue pop]. rewrite E. simpl.
  assert (finish request (pop (search_start request) []) = empty_at (rq_start request) (rq_target request)) as Ef.
  { unfold finish, empty_at. simpl. rewrite (bool_decide_eq_false_2 (rq_target request = _)) by done.
    replace ({[rq_start request]} ∖ {[rq_start request]} : gset EntityRef) with (∅ : gset EntityRef) by set_solver.
    by rewrite elements_empty. }
  destruct (rq_max_depth request <=? 0)%Z; destruct (Z.to_nat (rq_max_nodes request)); simpl; by f_equal.
Qed.

Lemma traverse_bounded_demand {P} (g : GraphIndex P) registry st t r request :
  registrations_ok g → registry_ok registry → graph_ok g registry st → registration g t = Some r →
  no_reverse_loops r (rq_direction request) (get_or_create registry t) →
  traverse_bounded g st registry t request
    = run_bounded_traversal request (demand_neighbors registry r (rq_direction request) (rq_scope request)).
Proof.
  intros R W G Hr N. unfold traverse_bounded. rewrite Hr.
  destruct (traversal_uses_projection g t r (rq_direction request)) eqn:U; [|done].
  assert (∀ v, projected_traversal_neighbors r (edge_state st t) v (rq_direction request) (rq_scope request)
    = demand_neighbors registry r (rq_direction request) (rq_scope request) v) as E
    by (intros v; by eapply neighbors_agree).
  unfold edge_state in E. destruct (gs_edge_types st !! t) as [et|]; simpl in E; [by apply run_ext|].
  symmetry. apply run_no_neighbors. intros v. rewrite <-E.
  unfold projected_traversal_neighbors, entity_bucket. simpl. rewrite lookup_empty.
  by destruct (follows_a _ _), (follows_b _ _).
Qed.
