(* ===== verification/GraphWatch.v ===== *)
(** * Live watches of the graph

    [GraphWatchRouter], the routing of canonical changes, the filtering of diffs, and the
    live maps, counts and windows of [core/src/core/graph.rs].  The reactive containers the
    program uses are the [hyphae] crate's: [CellMap] below states what the code relies on of
    [CellMap::apply_diff_owned], and everything that follows is proved against it. *)

From stdpp Require Import base strings numbers option countable gmap sets list.
From S2P Require Import Prelude Order GraphTypes EdgeIds GraphIndex GraphQuery.

(** ** Diffs *)

(** [hyphae::MapDiff] over string keys. *)
Inductive MapDiff (V : Type) : Type :=
| Initial (entries : list (string * V))
| Insert (key : string) (value : V)
| Remove (key : string) (old_value : V)
| Update (key : string) (old_value new_value : V)
| Batch (changes : list (MapDiff V)).
Arguments Initial {V}.
Arguments Insert {V}.
Arguments Remove {V}.
Arguments Update {V}.
Arguments Batch {V}.

(** Induction that reaches the changes of a batch. *)
Definition MapDiff_rect' {V} (Q : MapDiff V → Prop)
    (HI : ∀ entries, Q (Initial entries)) (Hins : ∀ key value, Q (Insert key value))
    (Hrem : ∀ key old, Q (Remove key old)) (Hupd : ∀ key old new, Q (Update key old new))
    (Hb : ∀ changes, Forall Q changes → Q (Batch changes)) : ∀ d, Q d :=
  fix go d := match d with
              | Initial entries => HI entries
              | Insert key value => Hins key value
              | Remove key old => Hrem key old
              | Update key old new => Hupd key old new
              | Batch changes => Hb changes ((fix all l : Forall Q l :=
                  match l with
                  | [] => Forall_nil_2 Q
                  | d :: l => Forall_cons_2 Q d l (go d) (all l)
                  end) changes)
              end.

(** What the program relies on of [CellMap::apply_diff_owned]. *)
Class CellMap (V : Type) := {
  apply_diff : MapDiff V → gmap string V → gmap string V;
  apply_initial entries m : NoDup entries.*1 → apply_diff (Initial entries) m = list_to_map entries;
  apply_insert key value m : apply_diff (Insert key value) m = <[key := value]> m;
  apply_remove key old m : apply_diff (Remove key old) m = delete key m;
  apply_update key old new m : apply_diff (Update key old new) m = <[key := new]> m;
  apply_batch changes m : apply_diff (Batch changes) m = foldl (λ m d, apply_diff d m) m changes
}.

(** ** Routes *)

Inductive GraphWatchRoute :=
| EndpointRoute (edge_type : string) (position : EndPosition) (endpoint : EndpointValue)
| PairRoute (edge_type : string) (a b : EndpointValue)
| IncidentRoute (edge_type : string) (endpoint : EndpointValue).
#[export] Instance GraphWatchRoute_eq_dec : EqDecision GraphWatchRoute.
Proof. solve_decision. Defined.
#[export] Instance GraphWatchRoute_countable : Countable GraphWatchRoute.
Proof.
  apply (inj_countable'
    (λ x, match x with
          | EndpointRoute t p e => inl (inl (t, p, e))
          | PairRoute t a b => inl (inr (t, a, b))
          | IncidentRoute t e => inr (t, e)
          end)
    (λ x, match x with
          | inl (inl (t, p, e)) => EndpointRoute t p e
          | inl (inr (t, a, b)) => PairRoute t a b
          | inr (t, e) => IncidentRoute t e
          end)).
  by intros [].
Defined.

(** ** The router *)
Section router.
Context {CB : Type}.

Record GraphWatchRouter := mkRouter {
  next_id : Z;
  routes : gmap GraphWatchRoute (gmap Z CB);
  active_subscriptions : Z;
  dispatched_callbacks : Z
}.
Definition router_default : GraphWatchRouter := mkRouter 0 ∅ 0 0.
Implicit Types (w : GraphWatchRouter) (rs : gset GraphWatchRoute).

(** [entry(route).or_default().insert(id, callback)] for one route. *)
Definition add_listener (id : Z) (callback : CB) (m : gmap GraphWatchRoute (gmap Z CB)) (route : GraphWatchRoute)
  : gmap GraphWatchRoute (gmap Z CB) :=
  <[route := <[id := callback]> (default ∅ (m !! route))]> m.

(** The subscription, and what its guard needs to undo it: nothing when no route was
    given. *)
Definition subscribe_many w (rs : list GraphWatchRoute) (callback : CB)
  : GraphWatchRouter * option (gset GraphWatchRoute * Z) :=
  let rs : gset GraphWatchRoute := list_to_set rs in
  if decide (rs = ∅) then (w, None)
  else
    let id := next_id w in
    (mkRouter (fetch_add (next_id w) 1) (foldl (add_listener id callback) (routes w) (elements rs))
       (fetch_add (active_subscriptions w) 1) (dispatched_callbacks w), Some (rs, id)).

Definition subscribe w (route : GraphWatchRoute) (callback : CB) :=
  subscribe_many w [route] callback.

Definition remove_listener (id : Z) (m : gmap GraphWatchRoute (gmap Z CB)) (route : GraphWatchRoute)
  : gmap GraphWatchRoute (gmap Z CB) :=
  match m !! route with
  | None => m
  | Some listeners =>
      let listeners := delete id listeners in
      if decide (listeners = ∅) then delete route m else <[route := listeners]> m
  end.

(** [AtomicU64::fetch_sub] wraps. *)
Definition fetch_sub (x y : Z) : Z := ((x - y) mod (u64_max + 1))%Z.

(** Dropping the guard. *)
Definition unsubscribe w (guard : option (gset GraphWatchRoute * Z)) : GraphWatchRouter :=
  match guard with
  | None => w
  | Some (rs, id) =>
      mkRouter (next_id w) (foldl (remove_listener id) (routes w) (elements rs))
        (fetch_sub (active_subscriptions w) 1) (dispatched_callbacks w)
  end.

Definition has_subscribers w : bool := negb (bool_decide (active_subscriptions w = 0%Z)).

(** The callbacks collected for the routes, by subscription id. *)
Definition collect_listeners w (rs : list GraphWatchRoute) : gmap Z CB :=
  foldl (λ callbacks route, match routes w !! route with
                            | Some listeners => listeners ∪ callbacks
                            | None => callbacks
                            end) ∅ rs.

(** The callbacks to run, once each, and the router with its counter. *)
Definition dispatch w (rs : list GraphWatchRoute) : GraphWatchRouter * list CB :=
  let callbacks := snd <$> map_to_list (collect_listeners w rs) in
  (mkRouter (next_id w) (routes w) (active_subscriptions w)
     (fetch_add (dispatched_callbacks w) (len callbacks)), callbacks).
End router.
Arguments GraphWatchRouter : clear implicits.

(** ** Routing changes *)
Section routing.
Context {P : Type}.
Implicit Types (g : GraphIndex P) (r : EdgeRegistration P) (item : Item P) (diff : MapDiff (Item P)).

Definition pair_watch_route r (a b : EndpointValue) : GraphWatchRoute :=
  let '(a, b) := order_pair r a b in PairRoute (edge_type r) a b.

Definition routes_for_item r item : result GraphError (list GraphWatchRoute) :=
  endpoints ← extract r item;
  mret [EndpointRoute (edge_type r) PosA (ends_a endpoints); IncidentRoute (edge_type r) (ends_a endpoints);
        EndpointRoute (edge_type r) PosB (ends_b endpoints); IncidentRoute (edge_type r) (ends_b endpoints);
        pair_watch_route r (ends_a endpoints) (ends_b endpoints)].

(** [if let Some(registration) = self.registration(item.entity_type()) { .. }] *)
Definition add_watch_routes_for_item g (acc : list GraphWatchRoute) item
  : result GraphError (list GraphWatchRoute) :=
  match registration g (item_type item) with
  | None => Ok acc
  | Some r => app acc <$> routes_for_item r item
  end.

Fixpoint add_watch_routes_for_diff g (acc : list GraphWatchRoute) diff
  : result GraphError (list GraphWatchRoute) :=
  match diff with
  | Initial entries => try_fold (λ acc entry, add_watch_routes_for_item g acc entry.2) acc entries
  | Insert _ value => add_watch_routes_for_item g acc value
  | Remove _ old_value => add_watch_routes_for_item g acc old_value
  | Update _ old_value new_value =>
      match add_watch_routes_for_item g acc old_value with
      | Ok acc => add_watch_routes_for_item g acc new_value
      | Err e => Err e
      end
  | Batch changes =>
      (fix go acc changes := match changes with
                             | [] => Ok acc
                             | change :: rest => match add_watch_routes_for_diff g acc change with
                                                 | Ok acc => go acc rest
                                                 | Err e => Err e
                                                 end
                             end) acc changes
  end.

Definition watch_diff_from_change g (old new : option (Item P)) : option (MapDiff (Item P)) :=
  item ← (match new with Some i => Some i | None => old end);
  _ ← registration g (item_type item);
  match old, new with
  | None, Some value => Some (Insert (item_id value) value)
  | Some old_value, None => Some (Remove (item_id old_value) old_value)
  | Some old_value, Some new_value => Some (Update (item_id new_value) old_value new_value)
  | None, None => None
  end.

(** The routes a diff is dispatched to; those of a batch are first collected in a set. *)
Definition routes_of_diff g diff : result GraphError (list GraphWatchRoute) :=
  match diff with
  | Batch _ => (λ rs, elements (list_to_set rs : gset GraphWatchRoute)) <$> add_watch_routes_for_diff g [] diff
  | _ => add_watch_routes_for_diff g [] diff
  end.

Definition publish_watch_diff {CB} g (w : GraphWatchRouter CB) diff
  : GraphWatchRouter CB * result GraphError (list (CB * MapDiff (Item P))) :=
  match routes_of_diff g diff with
  | Err e => (w, Err e)
  | Ok rs => let '(w, callbacks) := dispatch w rs in (w, Ok ((λ cb, (cb, diff)) <$> callbacks))
  end.

(** The callbacks run, each with the diff it is given. *)
Definition publish_watch_change {CB} g (w : GraphWatchRouter CB) (old new : option (Item P))
  : GraphWatchRouter CB * result GraphError (list (CB * MapDiff (Item P))) :=
  if negb (has_subscribers w) then (w, Ok [])
  else
    match watch_diff_from_change g old new with
    | None => (w, Ok [])
    | Some diff => publish_watch_diff g w diff
    end.

Definition publish_watch_changes {CB} g (w : GraphWatchRouter CB)
    (changes : list (option (Item P) * option (Item P)))
  : GraphWatchRouter CB * result GraphError (list (CB * MapDiff (Item P))) :=
  if negb (has_subscribers w) then (w, Ok [])
  else
    match omap (λ change, watch_diff_from_change g change.1 change.2) changes with
    | [] => (w, Ok [])
    | [diff] => publish_watch_diff g w diff
    | diffs => publish_watch_diff g w (Batch diffs)
    end.

(** ** Filtering diffs *)

(** Whether an item is an edge of the type that the watch selects. *)
Definition watch_matches r (matches_endpoints : EdgeEndpoints → bool) item : bool :=
  match extract r item with Ok endpoints => matches_endpoints endpoints | Err _ => false end.

Fixpoint watch_diff_matching r (matches_endpoints : EdgeEndpoints → bool) diff : option (MapDiff (Item P)) :=
  let matches := watch_matches r matches_endpoints in
  match diff with
  | Initial entries => Some (Initial (List.filter (λ entry, matches entry.2) entries))
  | Insert key value => if matches value then Some (Insert key value) else None
  | Remove key old_value => if matches old_value then Some (Remove key old_value) else None
  | Update key old_value new_value =>
      match matches old_value, matches new_value with
      | true, true => Some (Update key old_value new_value)
      | true, false => Some (Remove key old_value)
      | false, true => Some (Insert key new_value)
      | false, false => None
      end
  | Batch changes =>
      match omap (watch_diff_matching r matches_endpoints) changes with
      | [] => None
      | changes => Some (Batch changes)
      end
  end.

Fixpoint apply_watch_count_diff r (matches_endpoints : EdgeEndpoints → bool) diff (count : Z) : Z :=
  let matches := watch_matches r matches_endpoints in
  match diff with
  | Initial entries => len (List.filter (λ entry, matches entry.2) entries)
  | Insert _ value => if matches value then sat_add count 1 else count
  | Remove _ old_value => if matches old_value then sat_sub count 1 else count
  | Update _ old_value new_value =>
      match matches old_value, matches new_value with
      | true, false => sat_sub count 1
      | false, true => sat_add count 1
      | _, _ => count
      end
  | Batch changes => foldl (λ count change, apply_watch_count_diff r matches_endpoints change count) count changes
  end.

Fixpoint watch_diff_affects_window r (matches_endpoints : EdgeEndpoints → bool) diff
    (visible_entries : list (string * Item P)) : bool :=
  let matches := watch_matches r matches_endpoints in
  match diff with
  | Initial _ => true
  | Insert _ value => matches value
  | Remove _ old_value => matches old_value
  | Update key old_value new_value =>
      match matches old_value, matches new_value with
      | false, false => false
      | true, false | false, true => true
      | true, true => existsb (λ entry : string * Item P, bool_decide (entry.1 = key)) visible_entries
      end
  | Batch changes => existsb (λ change, watch_diff_affects_window r matches_endpoints change visible_entries) changes
  end.
End routing.

(** ** Live maps and counts *)
Section live.
Context {P : Type} `{!CellMap (Item P)}.
Implicit Types (g : GraphIndex P) (r : EdgeRegistration P) (st : GraphState) (registry : StoreRegistry P)
  (counters : PlanCounters) (live : gmap string (Item P)).

(** What a watch selects: the arguments of [watch_at], [watch_many_at], [watch_between] and
    [watch_incident]. *)
Inductive WatchSelector :=
| WatchAt (position : EndPosition) (endpoint : EndpointValue)
| WatchManyAt (position : EndPosition) (endpoints : gset EndpointValue)
| WatchBetween (a b : EndpointValue)
| WatchIncident (endpoint : EndpointValue).

(** The routing keys each of them subscribes under. *)
Definition selector_routes r (s : WatchSelector) : list GraphWatchRoute :=
  match s with
  | WatchAt position endpoint => [EndpointRoute (edge_type r) position endpoint]
  | WatchManyAt position endpoints => (λ endpoint, EndpointRoute (edge_type r) position endpoint) <$> elements endpoints
  | WatchBetween a b => [pair_watch_route r a b]
  | WatchIncident endpoint => [IncidentRoute (edge_type r) endpoint]
  end.

(** The [matches_endpoints] closure each of them passes. *)
Definition selector_matches r (s : WatchSelector) (endpoints : EdgeEndpoints) : bool :=
  match s with
  | WatchAt position endpoint => bool_decide (end_at position endpoints = endpoint)
  | WatchManyAt position selected => bool_decide (end_at position endpoints ∈ selected)
  | WatchBetween a b => endpoints_match r endpoints a b
  | WatchIncident endpoint => bool_decide (ends_a endpoints = endpoint) || bool_decide (ends_b endpoints = endpoint)
  end.

(** The initial map of [watch_matching]. *)
Definition watch_seed registry (t : string) (ids : list string) : gmap string (Item P) :=
  apply_diff (Initial (omap (λ id, pair id <$> get_or_create registry t !! id) ids)) ∅.

(** The callback of [watch_matching]. *)
Definition watch_callback r (s : WatchSelector) (diff : MapDiff (Item P)) live : gmap string (Item P) :=
  match watch_diff_matching r (selector_matches r s) diff with
  | Some diff => apply_diff diff live
  | None => live
  end.

(** The callback of [watch_count_matching]: the new count, and the value published if any. *)
Definition count_callback r (s : WatchSelector) (diff : MapDiff (Item P)) (count : Z) : Z * option Z :=
  let next := apply_watch_count_diff r (selector_matches r s) diff count in
  (next, if decide (next ≠ count) then Some next else None).

(** *** Opening a watch

    [cb] stands for the callback closure registered with the router; the result is the
    router, the guard the map owns, the plan counters and the seeded map (or count). *)
Section opening.
Context {CB : Type}.
Implicit Types (w : GraphWatchRouter CB) (cb : CB) (t : string).
Abbreviation Opened V := (result GraphError (GraphWatchRouter CB * option (gset GraphWatchRoute * Z) * PlanCounters * V))%type.

Definition watch_matching g registry w t (rs : list GraphWatchRoute) (initial_ids : PlanCounters * list string) cb
  : Opened (gmap string (Item P)) :=
  match registration g t with
  | None => Err (ErrMsg "edge type is not registered")
  | Some _ =>
      let '(w', guard) := subscribe_many w rs cb in
      Ok (w', guard, initial_ids.1, watch_seed registry t initial_ids.2)
  end.

Definition watch_count_matching g counters w t (route : GraphWatchRoute) (initial_count : Z) cb : Opened Z :=
  match registration g t with
  | None => Err (ErrMsg "edge type is not registered")
  | Some _ => let '(w', guard) := subscribe w route cb in Ok (w', guard, counters, initial_count)
  end.

Definition watch_at g st registry counters w t (position : EndPosition) (endpoint : EndpointValue) cb :=
  watch_matching g registry w t [EndpointRoute t position endpoint]
    (edge_ids_at g st registry counters t position endpoint) cb.

Definition watch_many_at g st registry counters w t (position : EndPosition) (endpoints : list EndpointValue) cb :=
  let endpoints := list_to_set endpoints : gset EndpointValue in
  let rs := (λ endpoint, EndpointRoute t position endpoint) <$> elements endpoints in
  watch_matching g registry w t rs (edge_ids_many_at g st registry counters t position endpoints) cb.

Definition watch_between g st registry counters w t (a b : EndpointValue) cb : Opened (gmap string (Item P)) :=
  match registration g t with
  | None => Err (ErrMsg "edge type is not registered")
  | Some r =>
      watch_matching g registry w t [pair_watch_route r a b] (counters, edge_ids_between g st registry t a b) cb
  end.

Definition watch_incident g st registry counters w t (endpoint : EndpointValue) cb :=
  watch_matching g registry w t [IncidentRoute t endpoint] (incident_ids g st registry counters t endpoint) cb.

Definition watch_count_at g st registry counters w t (position : EndPosition) (endpoint : EndpointValue) cb :=
  watch_count_matching g counters w t (EndpointRoute t position endpoint)
    (edge_count_at g st registry t position endpoint) cb.

Definition watch_count_between g st registry counters w t (a b : EndpointValue) cb : Opened Z :=
  match registration g t with
  | None => Err (ErrMsg "edge type is not registered")
  | Some r =>
      watch_count_matching g counters w t (pair_watch_route r a b) (edge_count_between g st registry t a b) cb
  end.

(** The four maps, by selector. *)
Definition watch g st registry counters w t (s : WatchSelector) cb :=
  match s with
  | WatchAt position endpoint => watch_at g st registry counters w t position endpoint cb
  | WatchManyAt position endpoints => watch_many_at g st registry counters w t position (elements endpoints) cb
  | WatchBetween a b => watch_between g st registry counters w t a b cb
  | WatchIncident endpoint => watch_incident g st registry counters w t endpoint cb
  end.
End opening.

(** The map of the watch whose callback is [cb] after the callbacks of a publication ran. *)
Definition deliver {CB} `{EqDecision CB} r (s : WatchSelector) (cb : CB)
    (runs : list (CB * MapDiff (Item P))) live : gmap string (Item P) :=
  foldl (λ live run, if decide (run.1 = cb) then watch_callback r s run.2 live else live) live runs.
End live.
