(* ===== verification/WatchProof.v ===== *)
(** * Watches follow the canonical store

    Filtering a diff commutes with applying it, counts move with the filtered size, a route
    a change may concern is among those it is dispatched to, and a subscription is called at
    most once per dispatch and leaves no trace when dropped. *)

From stdpp Require Import base strings numbers option countable gmap sets list.
From S2P Require Import Prelude Order GraphTypes EdgeIds GraphIndex GraphQuery GraphWatch.

(** ** Diffs *)
Section diffs.
Context {P : Type} `{!CellMap (Item P)}.
Implicit Types (r : EdgeRegistration P) (d : MapDiff (Item P)) (m : gmap string (Item P)).

(** A diff that describes a change of [m]: it inserts absent keys and carries the old values. *)
Fixpoint diff_valid d m : Prop :=
  match d with
  | Initial entries => NoDup entries.*1
  | Insert key _ => m !! key = None
  | Remove key old | Update key old _ => m !! key = Some old
  | Batch changes =>
      (fix all changes m := match changes with
                            | [] => True
                            | change :: rest => diff_valid change m ∧ all rest (apply_diff change m)
                            end) changes m
  end.

Definition select (matches : Item P → bool) m : gmap string (Item P) :=
  filter (λ kv : string * Item P, matches kv.2 = true) m.

Definition apply_opt (o : option (MapDiff (Item P))) m : gmap string (Item P) :=
  match o with Some d => apply_diff d m | None => m end.

Lemma lookup_select matches m k x : select matches m !! k = Some x ↔ m !! k = Some x ∧ matches x = true.
Proof. unfold select. by rewrite map_lookup_filter_Some. Qed.

Lemma select_insert matches m k x :
  select matches (<[k := x]> m) = if matches x then <[k := x]> (select matches m) else delete k (select matches m).
Proof.
  unfold select. rewrite map_filter_insert. simpl. destruct (matches x).
  - by rewrite decide_True.
  - rewrite decide_False by done. by rewrite map_filter_delete.
Qed.

Lemma select_delete matches m k : select matches (delete k m) = delete k (select matches m).
Proof. unfold select. by rewrite map_filter_delete. Qed.

Lemma select_absent matches m k : m !! k = None → delete k (select matches m) = select matches m.
Proof. intros E. apply delete_id. unfold select. rewrite map_lookup_filter_None. by left. Qed.

Lemma select_unmatched matches m k x : m !! k = Some x → matches x = false → delete k (select matches m) = select matches m.
Proof.
  intros E N. apply delete_id. unfold select. rewrite map_lookup_filter_None. right. simpl.
  intros y Hy. rewrite E in Hy. injection Hy as <-. by rewrite N.
Qed.

Lemma elem_of_filter_keys (matches : Item P → bool) (entries : list (string * Item P)) k :
  k ∈ (List.filter (λ entry, matches entry.2) entries).*1 → k ∈ entries.*1.
Proof.
  intros ([k' y] & -> & Hy)%list_elem_of_fmap. apply list_elem_of_In, filter_In in Hy as [Hy _].
  apply list_elem_of_fmap. exists (k', y). by rewrite list_elem_of_In.
Qed.

Lemma filter_keys_NoDup (matches : Item P → bool) (entries : list (string * Item P)) :
  NoDup entries.*1 → NoDup (List.filter (λ entry, matches entry.2) entries).*1.
Proof.
  induction entries as [|[k x] entries IH]; simpl; [done|]. intros [Nk ND]%NoDup_cons.
  destruct (matches x); simpl; [|by apply IH]. apply NoDup_cons. split; [|by apply IH].
  by intros ?%elem_of_filter_keys.
Qed.

Lemma list_to_map_filter (matches : Item P → bool) (entries : list (string * Item P)) :
  NoDup entries.*1 →
  list_to_map (List.filter (λ entry, matches entry.2) entries) = select matches (list_to_map entries).
Proof.
  induction entries as [|[k x] entries IH]; intros ND; simpl; [unfold select; by rewrite map_filter_empty|].
  apply NoDup_cons in ND as [Nk ND]. rewrite select_insert, <-IH by done. destruct (matches x); [done|].
  simpl. symmetry. apply delete_id. apply not_elem_of_list_to_map_1. intros Hk. apply Nk.
  by eapply elem_of_filter_keys.
Qed.

(** Applying the filtered changes one after the other is applying the filtered batch. *)
Lemma apply_opt_batch changes m :
  apply_opt (match changes with [] => None | c :: cs => Some (Batch (c :: cs)) end) m
    = foldl (λ m d, apply_diff d m) m changes.
Proof. destruct changes; [done|]. simpl. by rewrite apply_batch. Qed.

Lemma foldl_omap_opt (f : MapDiff (Item P) → option (MapDiff (Item P))) changes m :
  foldl (λ m d, apply_diff d m) m (omap f changes) = foldl (λ m d, apply_opt (f d) m) m changes.
Proof.
  revert m. induction changes as [|d changes IH]; intros m; csimpl; [done|].
  destruct (f d); simpl; apply IH.
Qed.

Lemma watch_diff_commutes r p d m :
  diff_valid d m →
  apply_opt (watch_diff_matching r p d) (select (watch_matches r p) m) = select (watch_matches r p) (apply_diff d m).
Proof.
  revert m. induction d as [entries|k x|k x|k x y|changes IH] using MapDiff_rect'; intros m V; simpl in *.
  - rewrite !apply_initial; [by apply list_to_map_filter|done|].
    by apply filter_keys_NoDup.
  - rewrite apply_insert, select_insert. destruct (watch_matches r p x); simpl; [by rewrite apply_insert|].
    by rewrite select_absent.
  - rewrite apply_remove, select_delete. destruct (watch_matches r p x) eqn:E; simpl; [by rewrite apply_remove|].
    by rewrite (select_unmatched _ _ _ x).
  - rewrite apply_update, select_insert.
    destruct (watch_matches r p x) eqn:Ex, (watch_matches r p y); simpl;
      rewrite ?apply_update, ?apply_insert, ?apply_remove; try done.
    by rewrite (select_unmatched _ _ _ x).
  - rewrite apply_batch, apply_opt_batch, foldl_omap_opt.
    revert m V. induction IH as [|d changes Hd _ IH']; intros m V; simpl; [done|].
    destruct V as [Vd V]. rewrite (Hd m Vd). by apply IH'.
Qed.

(** The entries a diff can add. *)
Fixpoint diff_weight d : nat :=
  match d with
  | Initial entries => length entries
  | Insert _ _ | Update _ _ _ => 1
  | Remove _ _ => 0
  | Batch changes => sum_list_with diff_weight changes
  end.

Definition count matches m : Z := Z.of_nat (size (select matches m)).

Lemma count_insert_new matches m k x :
  m !! k = None → count matches (<[k := x]> m) = if matches x then (count matches m + 1)%Z else count matches m.
Proof.
  intros N. unfold count. rewrite select_insert. destruct (matches x).
  - rewrite map_size_insert_None; [lia|]. unfold select. rewrite map_lookup_filter_None. by left.
  - by rewrite select_absent.
Qed.

Lemma count_delete matches m k x :
  m !! k = Some x → count matches m = (count matches (delete k m) + if matches x then 1 else 0)%Z.
Proof.
  intros E. rewrite <-(insert_delete_id m k x) at 1 by done.
  rewrite count_insert_new by apply lookup_delete_eq. destruct (matches x); lia.
Qed.

Lemma count_update matches m k x y :
  m !! k = Some x →
  count matches (<[k := y]> m)
    = (count matches m - (if matches x then 1 else 0) + (if matches y then 1 else 0))%Z.
Proof.
  intros E. rewrite <-insert_delete_eq, count_insert_new by apply lookup_delete_eq.
  rewrite (count_delete matches m k x E). destruct (matches x), (matches y); lia.
Qed.

Lemma count_nonneg matches m : (0 ≤ count matches m)%Z.
Proof. unfold count. lia. Qed.

(** Incremental counts are the filtered sizes, while they fit in a [usize]. *)
Lemma watch_count_commutes r p d m :
  diff_valid d m → (count (watch_matches r p) m + Z.of_nat (diff_weight d) ≤ usize_max)%Z →
  apply_watch_count_diff r p d (count (watch_matches r p) m) = count (watch_matches r p) (apply_diff d m) ∧
  (count (watch_matches r p) (apply_diff d m) ≤ count (watch_matches r p) m + Z.of_nat (diff_weight d))%Z.
Proof.
  revert m. induction d as [entries|k x|k x|k x y|changes IH] using MapDiff_rect'; intros m V B; simpl in *;
    pose proof (count_nonneg (watch_matches r p) m) as Cn.
  - rewrite apply_initial by done.
    assert (len (List.filter (λ entry, watch_matches r p entry.2) entries)
            = count (watch_matches r p) (list_to_map entries)) as E.
    { unfold count. rewrite <-list_to_map_filter by done. unfold len. f_equal.
      rewrite <-length_map_to_list, map_to_list_to_map; [done|].
      by apply filter_keys_NoDup. }
    rewrite E. split; [done|]. rewrite <-E. unfold len.
    pose proof (List.filter_length_le (λ entry, watch_matches r p entry.2) entries). lia.
  - rewrite apply_insert, count_insert_new by done.
    destruct (watch_matches r p x); [rewrite sat_add_exact by (unfold usize_max in *; lia)|]; lia.
  - rewrite apply_remove. pose proof (count_delete (watch_matches r p) m k x V) as E.
    pose proof (count_nonneg (watch_matches r p) (delete k m)).
    destruct (watch_matches r p x); unfold sat_sub; lia.
  - rewrite apply_update, (count_update _ m k x y) by done.
    pose proof (count_delete (watch_matches r p) m k x V) as E.
    pose proof (count_nonneg (watch_matches r p) (delete k m)).
    destruct (watch_matches r p x), (watch_matches r p y); unfold sat_sub;
      rewrite ?sat_add_exact by (unfold usize_max in *; lia); lia.
  - rewrite apply_batch. clear Cn. revert m V B. induction IH as [|d changes Hd _ IH']; intros m V B; simpl in *; [lia|].
    destruct V as [Vd V]. destruct (Hd m Vd) as [-> Hle]; [lia|].
    destruct (IH' (apply_diff d m)) as [-> Hle']; [done|lia|]. split; [done|lia].
Qed.
End diffs.

(** ** The router *)
Section router.
Context {CB : Type}.
Implicit Types (w : GraphWatchRouter CB) (m : gmap GraphWatchRoute (gmap Z CB)).

(** Listeners are never kept empty, their ids were given out, and an id has one callback. *)
Record router_ok w : Prop := mkRouterOk {
  ro_nonempty : ∀ route ls, routes w !! route = Some ls → ls ≠ ∅;
  ro_ids : ∀ route ls id cb, routes w !! route = Some ls → ls !! id = Some cb → (id < next_id w)%Z;
  ro_same : ∀ route route' ls ls' id cb cb', routes w !! route = Some ls → routes w !! route' = Some ls' →
    ls !! id = Some cb → ls' !! id = Some cb' → cb = cb'
}.

Lemma lookup_add_listeners id cb rs m route :
  NoDup rs →
  foldl (add_listener id cb) m rs !! route =
    if decide (route ∈ rs) then Some (<[id := cb]> (default ∅ (m !! route))) else m !! route.
Proof.
  revert m. induction rs as [|x rs IH]; intros m ND; simpl; [done|].
  apply NoDup_cons in ND as [Nx ND]. rewrite IH by done. unfold add_listener.
  destruct (decide (route = x)) as [->|N].
  - rewrite decide_False by done. rewrite decide_True by left. by rewrite lookup_insert_eq.
  - rewrite lookup_insert_ne by done. destruct (decide (route ∈ rs)).
    + by rewrite decide_True by (by right).
    + by rewrite decide_False by (by apply not_elem_of_cons).
Qed.

Lemma lookup_remove_listeners id rs m route :
  NoDup rs →
  foldl (remove_listener id) m rs !! route =
    if decide (route ∈ rs)
    then ls ← m !! route; if decide (delete id ls = ∅) then None else Some (delete id ls)
    else m !! route.
Proof.
  revert m. induction rs as [|x rs IH]; intros m ND; simpl; [done|].
  apply NoDup_cons in ND as [Nx ND]. rewrite IH by done. unfold remove_listener.
  destruct (decide (route = x)) as [->|N].
  - rewrite decide_False by done. rewrite decide_True by left.
    destruct (m !! x) as [ls|] eqn:E; simpl; [|by rewrite E].
    destruct (decide (delete id ls = ∅)).
    + apply lookup_delete_eq.
    + apply lookup_insert_eq.
  - assert (match m !! x with
            | Some listeners => if decide (delete id listeners = ∅) then delete x m else <[x := delete id listeners]> m
            | None => m end !! route = m !! route) as ->.
    { destruct (m !! x) as [ls|]; [|done]. destruct (decide (delete id ls = ∅)); [by rewrite lookup_delete_ne|by rewrite lookup_insert_ne]. }
    destruct (decide (route ∈ rs)).
    + by rewrite decide_True by (by right).
    + by rewrite decide_False by (by apply not_elem_of_cons).
Qed.

(** A fresh id is in no listener map. *)
Lemma fresh_listener w route ls : router_ok w → routes w !! route = Some ls → ls !! next_id w = None.
Proof.
  intros W E. destruct (ls !! next_id w) as [cb|] eqn:L; [|done].
  pose proof (ro_ids _ W _ _ _ _ E L). lia.
Qed.

Lemma subscribe_unsubscribe w rs cb :
  router_ok w → (0 ≤ active_subscriptions w < u64_max)%Z →
  let '(w', guard) := subscribe_many w rs cb in
  routes (unsubscribe w' guard) = routes w ∧ active_subscriptions (unsubscribe w' guard) = active_subscriptions w.
Proof.
  intros W A. unfold subscribe_many. case_decide as E; [done|]. simpl. split.
  - apply map_eq. intros route. rewrite lookup_remove_listeners, lookup_add_listeners by apply NoDup_elements.
    case_decide as Hr; [|done]. simpl. destruct (routes w !! route) as [ls|] eqn:L; simpl.
    + rewrite delete_insert_id by (by eapply fresh_listener).
      rewrite decide_False; [done|]. by eapply ro_nonempty.
    + by rewrite insert_empty, delete_singleton_eq, decide_True.
  - unfold fetch_sub, fetch_add. rewrite Zminus_mod_idemp_l.
    replace (active_subscriptions w + 1 - 1)%Z with (active_subscriptions w) by lia.
    rewrite Z.mod_small; lia.
Qed.

Lemma router_default_ok : router_ok (router_default (CB := CB)).
Proof. split; intros *; simpl; by rewrite lookup_empty. Qed.

Lemma lookup_subscribed w rs cb route ls :
  (list_to_set rs : gset GraphWatchRoute) ≠ ∅ →
  routes (subscribe_many w rs cb).1 !! route = Some ls ↔
    (route ∈ rs ∧ ls = <[next_id w := cb]> (default ∅ (routes w !! route))) ∨ ((route ∉ rs) ∧ routes w !! route = Some ls).
Proof.
  intros Ne. unfold subscribe_many. rewrite decide_False by done. simpl.
  rewrite lookup_add_listeners by apply NoDup_elements.
  destruct (decide (route ∈ elements (list_to_set rs : gset GraphWatchRoute))) as [H|H];
    rewrite elem_of_elements, elem_of_list_to_set in H; naive_solver.
Qed.

Lemma subscribe_ok w rs cb :
  router_ok w → (0 ≤ next_id w < u64_max)%Z → router_ok (subscribe_many w rs cb).1.
Proof.
  intros W B. destruct (decide ((list_to_set rs : gset GraphWatchRoute) = ∅)) as [E|Ne].
  { unfold subscribe_many. by rewrite decide_True. }
  assert (next_id (subscribe_many w rs cb).1 = (next_id w + 1)%Z) as En.
  { unfold subscribe_many. rewrite decide_False by done. simpl. unfold fetch_add. rewrite Z.mod_small; lia. }
  assert (∀ route ls id c, routes (subscribe_many w rs cb).1 !! route = Some ls → ls !! id = Some c →
    (id = next_id w ∧ c = cb) ∨ (id ≠ next_id w ∧ ∃ ls', routes w !! route = Some ls' ∧ ls' !! id = Some c)) as L.
  { intros route ls id c [[_ ->]|[_ E]]%lookup_subscribed Hc; [..|done].
    - apply lookup_insert_Some in Hc as [[<- <-]|[N Hc]]; [by left|]. right. split; [done|].
      destruct (routes w !! route) as [ls'|]; simpl in Hc; [eauto|]. by rewrite lookup_empty in Hc.
    - right. split; [|eauto]. intros ->. pose proof (ro_ids _ W _ _ _ _ E Hc). lia. }
  split.
  - intros route ls [[_ ->]|[_ E]]%lookup_subscribed; [apply insert_non_empty|by eapply ro_nonempty|done].
  - intros route ls id c E Hc. rewrite En. destruct (L _ _ _ _ E Hc) as [[-> _]|(_ & ls' & E' & H')]; [lia|].
    pose proof (ro_ids _ W _ _ _ _ E' H'). lia.
  - intros route route' ls ls' id c c' E E' Hc Hc'.
    destruct (L _ _ _ _ E Hc) as [[-> ->]|(N & l1 & E1 & H1)], (L _ _ _ _ E' Hc') as [[? ->]|(N' & l2 & E2 & H2)]; try done.
    by eapply (ro_same _ W route route').
Qed.

Lemma lookup_collect w rs id cb :
  router_ok w →
  collect_listeners w rs !! id = Some cb ↔
    ∃ route ls, route ∈ rs ∧ routes w !! route = Some ls ∧ ls !! id = Some cb.
Proof.
  intros W. unfold collect_listeners.
  assert (∀ acc, (∀ cb', acc !! id = Some cb' → ∃ route ls, routes w !! route = Some ls ∧ ls !! id = Some cb') →
    foldl (λ callbacks route, match routes w !! route with
                              | Some listeners => listeners ∪ callbacks | None => callbacks end) acc rs !! id = Some cb ↔
    acc !! id = Some cb ∨ ∃ route ls, route ∈ rs ∧ routes w !! route = Some ls ∧ ls !! id = Some cb) as H.
  { induction rs as [|x rs IH]; intros acc Ha; simpl.
    { split; [by left|]. intros [|(route & ls & ?%elem_of_nil & _)]; done. }
    setoid_rewrite elem_of_cons. destruct (routes w !! x) as [ls|] eqn:E.
    - rewrite IH.
      + rewrite lookup_union_Some_raw. split.
        * intros [[?|[_ ?]]|(route & ls' & ? & ? & ?)]; [right; eauto 10|by left|right; eauto 10].
        * intros [L|(route & ls' & [->|Hr] & E' & L)].
          -- left. destruct (ls !! id) as [cb'|] eqn:L'; [left|by right].
             destruct (Ha _ L) as (route & ls' & E' & L''). f_equal. by eapply (ro_same _ W x route).
          -- left; left. congruence.
          -- right; eauto 10.
      + intros cb' [L|[_ L]]%lookup_union_Some_raw; [eauto|by apply Ha].
    - rewrite IH by done. split; intros [L|(route & ls' & Hr & E' & L)]; [by left|right; eauto 10|by left|].
      destruct Hr as [->|Hr]; [congruence|right; eauto 10]. }
  rewrite H by (intros cb' L; by rewrite lookup_empty in L). rewrite lookup_empty. naive_solver.
Qed.
(** A subscription is among the listeners of a dispatch iff one of its routes is dispatched. *)
Lemma subscribed_dispatch w rs cb dispatched :
  router_ok w → (0 ≤ next_id w < u64_max)%Z → rs ≠ [] →
  collect_listeners (subscribe_many w rs cb).1 dispatched !! next_id w = Some cb ↔
    ∃ route, route ∈ dispatched ∧ route ∈ rs.
Proof.
  intros W N Ne. assert ((list_to_set rs : gset GraphWatchRoute) ≠ ∅) as Ne' by (destruct rs; set_solver).
  rewrite lookup_collect by (by apply subscribe_ok). split.
  - intros (route & ls & D & [[R _]|[_ E]]%lookup_subscribed & L); [by eauto| |done].
    by rewrite (fresh_listener _ _ _ W E) in L.
  - intros (route & D & R). eexists route, _. split; [done|]. split; [apply lookup_subscribed; [done|by left]|].
    apply lookup_insert_eq.
Qed.
End router.

(** ** Routing is complete *)
Section routing.
Context {P : Type}.
Implicit Types (g : GraphIndex P) (r : EdgeRegistration P) (item : Item P) (d : MapDiff (Item P)) (s : WatchSelector).

Lemma pair_route_match r a b e :
  endpoints_match r e a b = true → pair_watch_route r (ends_a e) (ends_b e) = pair_watch_route r a b.
Proof.
  intros M. unfold pair_watch_route. destruct e as [a' b']. apply order_pair_match in M. simpl. by rewrite M.
Qed.

(** An edge a selector matches is routed to it. *)
Lemma item_routes_complete r s item e :
  extract r item = Ok e → selector_matches r s e = true →
  ∃ rs route, routes_for_item r item = Ok rs ∧ route ∈ rs ∧ route ∈ selector_routes r s.
Proof.
  intros X M. unfold routes_for_item. rewrite X. simpl. eexists _.
  destruct s as [position endpoint|position endpoints|a b|endpoint]; simpl in M.
  - apply bool_decide_eq_true in M as <-. exists (EndpointRoute (edge_type r) position (end_at position e)).
    split_and!; [done| |left]. rewrite !elem_of_cons. destruct position; simpl; tauto.
  - apply bool_decide_eq_true in M. exists (EndpointRoute (edge_type r) position (end_at position e)).
    split_and!; [done| |].
    + rewrite !elem_of_cons. destruct position; simpl; tauto.
    + simpl. apply list_elem_of_fmap. eexists. split; [done|]. by apply elem_of_elements.
  - exists (pair_watch_route r a b). split_and!; [done| |left].
    rewrite !elem_of_cons, (pair_route_match _ _ _ _ M). tauto.
  - exists (IncidentRoute (edge_type r) endpoint). split_and!; [done| |left].
    apply orb_true_iff in M. rewrite !bool_decide_eq_true in M. rewrite !elem_of_cons.
    destruct M as [<-|<-]; tauto.
Qed.

(** Edge extraction accepts items of its own type only. *)
Definition typed_extract g r : Prop :=
  ∀ item e, extract r item = Ok e → registration g (item_type item) = Some r.

Definition hits r s (rs : list GraphWatchRoute) : Prop := ∃ route, route ∈ rs ∧ route ∈ selector_routes r s.

Lemma add_item_mono g acc item rs : add_watch_routes_for_item g acc item = Ok rs → acc ⊆ rs.
Proof.
  unfold add_watch_routes_for_item. destruct (registration g (item_type item)) as [r|]; [|by intros [= ->]].
  destruct (routes_for_item r item); intros [= <-]. set_solver.
Qed.

Lemma add_item_hits g r s acc item rs :
  typed_extract g r → add_watch_routes_for_item g acc item = Ok rs →
  watch_matches r (selector_matches r s) item = true → hits r s rs.
Proof.
  intros T A M. unfold watch_matches in M. destruct (extract r item) as [e|] eqn:X; [|done].
  unfold add_watch_routes_for_item in A. rewrite (T _ _ X) in A.
  destruct (item_routes_complete _ _ _ _ X M) as (rs' & route & E & H1 & H2). rewrite E in A.
  injection A as <-. exists route. set_solver.
Qed.

Lemma hits_mono r s rs rs' : rs ⊆ rs' → hits r s rs → hits r s rs'.
Proof. intros S (route & H1 & H2). exists route. set_solver. Qed.

(** Diffs of canonical changes carry no snapshot. *)
Fixpoint no_initial d : bool :=
  match d with
  | Initial _ => false
  | Batch changes => forallb no_initial changes
  | _ => true
  end.

Lemma add_diff_hits g r s d acc rs :
  typed_extract g r → no_initial d = true → add_watch_routes_for_diff g acc d = Ok rs →
  acc ⊆ rs ∧ (is_Some (watch_diff_matching r (selector_matches r s) d) → hits r s rs).
Proof.
  intros T. revert acc rs.
  induction d as [entries|k x|k x|k x y|changes IH] using MapDiff_rect'; intros acc rs N A; simpl in *; [done|..].
  - split; [by eapply add_item_mono|]. destruct (watch_matches r _ x) eqn:M; [|by intros []].
    intros _. by eapply add_item_hits.
  - split; [by eapply add_item_mono|]. destruct (watch_matches r _ x) eqn:M; [|by intros []].
    intros _. by eapply add_item_hits.
  - destruct (add_watch_routes_for_item g acc x) as [acc'|] eqn:A1; [|done].
    pose proof (add_item_mono _ _ _ _ A1). pose proof (add_item_mono _ _ _ _ A). split; [set_solver|].
    intros Hd. destruct (watch_matches r (selector_matches r s) y) eqn:My; [by eapply add_item_hits|].
    destruct (watch_matches r (selector_matches r s) x) eqn:Mx; [|by destruct Hd].
    eapply hits_mono; [done|]. by eapply add_item_hits.
  - assert (acc ⊆ rs ∧ (omap (watch_diff_matching r (selector_matches r s)) changes ≠ [] → hits r s rs)) as [S H].
    { revert acc A N. induction IH as [|d changes Hd _ IH']; intros acc A N.
      { injection A as ->. split; [done|]. csimpl. done. }
      apply andb_true_iff in N as [Nd N]. destruct (add_watch_routes_for_diff g acc d) as [acc'|] eqn:A1; [|done].
      destruct (Hd _ _ Nd A1) as [S1 H1]. destruct (IH' _ A N) as [S2 H2]. split; [set_solver|].
      csimpl. destruct (watch_diff_matching r (selector_matches r s) d) as [d'|]; [|by apply H2].
      intros _. eapply hits_mono; [done|]. by apply H1. }
    split; [done|]. intros Hd. apply H. intros E. rewrite E in Hd. by destruct Hd.
Qed.

Lemma routes_of_diff_hits g r s d rs :
  typed_extract g r → no_initial d = true → routes_of_diff g d = Ok rs →
  is_Some (watch_diff_matching r (selector_matches r s) d) → hits r s rs.
Proof.
  intros T N A Hd. unfold routes_of_diff in A.
  destruct d as [entries|k x|k x|k x y|changes];
    try (destruct (add_diff_hits g r s _ [] rs T N A) as [_ H]; by apply H).
  destruct (add_watch_routes_for_diff g [] (Batch changes)) as [rs'|] eqn:A'; [|done].
  injection A as <-. destruct (add_diff_hits g r s _ [] rs' T N A') as [_ H].
  destruct (H Hd) as (route & H1 & H2). exists route. split; [|done].
  rewrite elem_of_elements, elem_of_list_to_set. done.
Qed.
End routing.

(** ** Live maps follow the store *)
Section live.
Context {P CB : Type} `{!CellMap (Item P)} `{EqDecision CB}.
Implicit Types (g : GraphIndex P) (r : EdgeRegistration P) (d : MapDiff (Item P)) (s : WatchSelector)
  (w : GraphWatchRouter CB) (m live : gmap string (Item P)).

(** The subscription [id] of the callback [cb] is registered under the selector's routes,
    and the callback under nothing else. *)
Definition subscribed w r s (id : Z) (cb : CB) : Prop :=
  (∀ route, route ∈ selector_routes r s → ∃ ls, routes w !! route = Some ls ∧ ls !! id = Some cb) ∧
  (∀ route ls id', routes w !! route = Some ls → ls !! id' = Some cb → id' = id).

Lemma subscribe_subscribed w r s cb :
  router_ok w → selector_routes r s ≠ [] →
  (∀ route ls id, routes w !! route = Some ls → ls !! id ≠ Some cb) →
  subscribed (subscribe_many w (selector_routes r s) cb).1 r s (next_id w) cb.
Proof.
  intros W Ne F. assert ((list_to_set (selector_routes r s) : gset GraphWatchRoute) ≠ ∅) as Ne'.
  { destruct (selector_routes r s); set_solver. }
  split.
  - intros route Hr. eexists. split; [apply lookup_subscribed; [done|]; by left|]. apply lookup_insert_eq.
  - intros route ls id' [[_ ->]|[_ E]]%lookup_subscribed Hc; [..|done].
    + apply lookup_insert_Some in Hc as [[<- _]|[_ Hc]]; [done|].
      destruct (routes w !! route) as [ls'|] eqn:E; simpl in Hc; [by destruct (F _ _ id' E)|by rewrite lookup_empty in Hc].
    + by destruct (F _ _ id' E).
Qed.

Lemma deliver_once r s (cb : CB) d live (l : list (Z * CB)) id :
  NoDup l.*1 → (∀ id', (id', cb) ∈ l → id' = id) →
  deliver r s cb ((λ cb, (cb, d)) <$> l.*2) live =
    if decide ((id, cb) ∈ l) then watch_callback r s d live else live.
Proof.
  revert live. induction l as [|[i c] l IH]; intros live ND U; [done|].
  simpl in ND. apply NoDup_cons in ND as [Ni ND].
  assert (∀ id', (id', cb) ∈ l → id' = id) as U' by (intros id' H; apply U; by right).
  unfold deliver in *. simpl. rewrite IH by done. destruct (decide (c = cb)) as [->|Nc].
  - assert (i = id) as -> by (apply U; left). rewrite decide_False, decide_True; [done|left|].
    intros H. apply Ni. apply list_elem_of_fmap. by exists (id, cb).
  - destruct (decide ((id, cb) ∈ l)).
    + by rewrite decide_True by (by right).
    + rewrite decide_False; [done|]. rewrite elem_of_cons. intros [[= -> ->]|]; done.
Qed.

Lemma published_diff_reaches_watch g w w' r s id cb d m runs :
  router_ok w → subscribed w r s id cb → typed_extract g r → no_initial d = true → diff_valid d m →
  publish_watch_diff g w d = (w', Ok runs) →
  deliver r s cb runs (select (watch_matches r (selector_matches r s)) m)
    = select (watch_matches r (selector_matches r s)) (apply_diff d m).
Proof.
  intros W [S1 S2] T N V A. unfold publish_watch_diff in A.
  destruct (routes_of_diff g d) as [rs|] eqn:Er; [|done]. unfold dispatch in A. injection A as <- <-.
  pose proof (watch_diff_commutes r (selector_matches r s) d m V) as C.
  assert (∀ id' cb', (id', cb') ∈ map_to_list (collect_listeners w rs) ↔ ∃ route ls,
    route ∈ rs ∧ routes w !! route = Some ls ∧ ls !! id' = Some cb') as L.
  { intros id' cb'. rewrite elem_of_map_to_list. by apply lookup_collect. }
  rewrite (deliver_once r s cb d _ _ id).
  - case_decide as H.
    + rewrite <-C. unfold watch_callback, apply_opt. done.
    + rewrite <-C. destruct (watch_diff_matching r (selector_matches r s) d) as [d'|] eqn:E; [|done].
      destruct H. apply L.
      destruct (routes_of_diff_hits g r s d rs T N Er) as (route & H1 & H2); [by rewrite E|].
      destruct (S1 _ H2) as (ls & ? & ?). eauto.
  - apply NoDup_fst_map_to_list.
  - intros id' (route & ls & _ & E1 & E2)%L. by eapply S2.
Qed.

(** The seed is the selection of the store. *)
Lemma watch_seed_select registry t r s ids :
  selected (get_or_create registry t) (watch_matches r (selector_matches r s)) ids →
  watch_seed registry t ids = select (watch_matches r (selector_matches r s)) (get_or_create registry t).
Proof.
  intros [ND S]. unfold watch_seed. set (store := get_or_create registry t) in *.
  assert (∀ l, (omap (λ id, pair id <$> store !! id) l).*1 = filter (λ id, is_Some (store !! id)) l) as Ek.
  { induction l as [|x l IH]; [done|]. csimpl. rewrite filter_cons. destruct (store !! x) eqn:E; simpl.
    - f_equal. exact IH.
    - exact IH. }
  rewrite apply_initial by (rewrite Ek; by apply NoDup_filter).
  apply map_eq. intros k. apply option_eq. intros x. rewrite lookup_select.
  rewrite <-elem_of_list_to_map by (rewrite Ek; by apply NoDup_filter).
  rewrite list_elem_of_omap. split.
  - intros (id & Hid & (y & Hy & [= -> ->])%fmap_Some). split; [done|].
    apply S in Hid as (z & Hz & Hm). congruence.
  - intros [Hk Hm]. exists k. split; [apply S; eauto|]. by rewrite Hk.
Qed.

Lemma watch_opens g registry st counters w t r s cb :
  registrations_ok g → registry_ok registry → graph_ok g registry st → registration g t = Some r → scopes_ok r →
  ∃ counters', watch g st registry counters w t s cb =
    Ok ((subscribe_many w (selector_routes r s) cb).1, (subscribe_many w (selector_routes r s) cb).2, counters',
        select (watch_matches r (selector_matches r s)) (get_or_create registry t)).
Proof.
  intros R W G Hr So. pose proof (R _ _ Hr) as Et.
  assert (∀ rs ids, rs = selector_routes r s →
    selected (get_or_create registry t) (watch_matches r (selector_matches r s)) ids.2 →
    watch_matching g registry w t rs ids cb =
      Ok ((subscribe_many w (selector_routes r s) cb).1, (subscribe_many w (selector_routes r s) cb).2, ids.1,
          select (watch_matches r (selector_matches r s)) (get_or_create registry t))) as H.
  { intros rs ids -> S. unfold watch_matching. rewrite Hr, (watch_seed_select _ _ _ _ _ S).
    by destruct (subscribe_many w _ cb). }
  destruct s as [position endpoint|position endpoints|a b|endpoint]; simpl; eexists.
  - apply H; [by rewrite <-Et|]. eapply selected_ext, edge_ids_at_selected; try done.
  - unfold watch_many_at. rewrite list_to_set_elements_L. apply H; [by rewrite <-Et|].
    eapply selected_ext, edge_ids_many_at_selected; try done.
  - unfold watch_between. rewrite Hr. apply H; [done|]. eapply selected_ext, edge_ids_between_selected; try done.
  - apply H; [by rewrite <-Et|]. eapply selected_ext, incident_ids_selected; try done.
    intros id item _. unfold watch_matches, matches_incident, matches_at. by destruct (extract r item).
Qed.

Lemma count_selected m (p : Item P → bool) ids : selected m p ids → len ids = count p m.
Proof.
  intros [ND S]. unfold len, count. f_equal. rewrite <-(size_dom (select p m)). 
  replace (dom (select p m)) with (list_to_set ids : gset string).
  { by rewrite size_list_to_set. }
  apply set_eq. intros k. rewrite elem_of_list_to_set, S, elem_of_dom. unfold is_Some.
  by setoid_rewrite lookup_select.
Qed.
End live.
