(* ===== verification/GraphWindow.v ===== *)
(** * Live windows

    [window_snapshot_at], [window_snapshot_many_at] (the merge of sorted buckets through a
    heap), [window_snapshot_between] and the window cell of [watch_window_matching] in
    [core/src/core/graph.rs].  The merge loop is modelled with fuel, one unit per bucket
    entry. *)

From stdpp Require Import base strings numbers option countable gmap sets list.
From S2P Require Import Prelude Order GraphTypes EdgeIds GraphIndex GraphQuery GraphWatch.

Record WindowedQuerySnapshot (P : Type) := mkSnapshot {
  ws_entries : list (string * Item P);
  ws_total_count : Z;
  ws_window : option QueryWindow
}.
Arguments mkSnapshot {P}.
Arguments ws_entries {P}.
Arguments ws_total_count {P}.
Arguments ws_window {P}.

(** ** Merging sorted buckets *)

(** The variables of the merge loop: the distinct ids seen, the last one, and the page. *)
Record Merge := mkMerge {
  mg_total : Z;
  mg_previous : option string;
  mg_selected : list string;
  mg_before : list string
}.
Definition merge_start : Merge := mkMerge 0 None [] [].

Definition page_bounds (selection : GraphWindowSelection) : Z * Z :=
  match selection with
  | Offset None => (0, usize_max)%Z
  | Offset (Some window) => (offset window, limit window)
  | Cursor window => (0, cw_limit window)%Z
  end.

(** [pop_front] when the page is full, then [push_back]. *)
Definition push_before (limit : Z) (before : list string) (id : string) : list string :=
  (if decide (len before = limit) then tail before else before) ++ [id].

(** The page after a distinct id. *)
Definition select_id (selection : GraphWindowSelection) (m : Merge) (id : string) : Merge :=
  let '(offset, limit) := page_bounds selection in
  let select := mkMerge (mg_total m) (mg_previous m) (mg_selected m ++ [id]) (mg_before m) in
  match selection with
  | Offset _ =>
      if (offset <=? mg_total m)%Z && (len (mg_selected m) <? limit)%Z then select else m
  | Cursor window =>
      match cw_before window with
      | Some before =>
          if (0 <? limit)%Z && bool_decide (cmp_lt id before)
          then mkMerge (mg_total m) (mg_previous m) (mg_selected m) (push_before limit (mg_before m) id)
          else m
      | None =>
          if (match cw_after window with None => true | Some after => bool_decide (cmp_lt after id) end) &&
             (len (mg_selected m) <? limit)%Z
          then select else m
      end
  end.

Definition visit_id (selection : GraphWindowSelection) (m : Merge) (id : string) : Merge :=
  if decide (mg_previous m = Some id) then m
  else
    let m := select_id selection m id in
    mkMerge (sat_add (mg_total m) 1) (Some id) (mg_selected m) (mg_before m).

(** The heap holds the next id of each bucket with the bucket's index, least first. *)
Definition push_next (iterators : list (list string)) (pending : list (string * Z)) (index : nat)
  : list (list string) * list (string * Z) :=
  match iterators !! index with
  | Some (id :: rest) => (<[index := rest]> iterators, bt_insert (id, Z.of_nat index) pending)
  | _ => (iterators, pending)
  end.

Fixpoint merge_init (indices : list nat) (iterators : list (list string)) (pending : list (string * Z))
  : list (list string) * list (string * Z) :=
  match indices with
  | [] => (iterators, pending)
  | index :: rest => let '(iterators, pending) := push_next iterators pending index in
                     merge_init rest iterators pending
  end.

Fixpoint merge_loop (fuel : nat) (selection : GraphWindowSelection) (iterators : list (list string))
    (pending : list (string * Z)) (m : Merge) : option Merge :=
  match pending with
  | [] => Some m
  | (id, index) :: pending =>
      match fuel with
      | 0 => None
      | S fuel =>
          let m := visit_id selection m id in
          let '(iterators, pending) := push_next iterators pending (Z.to_nat index) in
          merge_loop fuel selection iterators pending m
      end
  end.

(** The page and the total; [None] is out of fuel. *)
Definition merge_buckets (selection : GraphWindowSelection) (buckets : list EdgeIds) : option (list string * Z) :=
  let iterators := EdgeIds.ids <$> buckets in
  let '(rest, pending) := merge_init (seq 0 (length iterators)) iterators [] in
  m ← merge_loop (sum_list (length <$> iterators)) selection rest pending merge_start;
  Some (match selection with
        | Cursor window => if decide (is_Some (cw_before window)) then mg_before m else mg_selected m
        | Offset _ => mg_selected m
        end, mg_total m).

(** ** Snapshots *)
Section snapshots.
Context {P : Type}.
Implicit Types (g : GraphIndex P) (st : GraphState) (registry : StoreRegistry P) (t : string)
  (selection : GraphWindowSelection).

Definition load_entries registry t (ids : list string) : list (string * Item P) :=
  omap (λ id, pair id <$> get_or_create registry t !! id) ids.

Definition select_page (selection : GraphWindowSelection) (ids : EdgeIds) : list string :=
  match selection with
  | Offset window => EdgeIds.window ids window
  | Cursor window => EdgeIds.cursor_window ids window
  end.

Definition bucket_snapshot registry t (ids : option EdgeIds) selection : WindowedQuerySnapshot P :=
  mkSnapshot (load_entries registry t (match ids with Some ids => select_page selection ids | None => [] end))
    (match ids with Some ids => EdgeIds.len ids | None => 0%Z end) (offset_window selection).

Definition window_snapshot_at st registry t (position : EndPosition) (endpoint : EndpointValue) selection
  : WindowedQuerySnapshot P :=
  bucket_snapshot registry t
    (et ← gs_edge_types st !! t; adjacency_map et position !! endpoint) selection.

Definition window_snapshot_many_at st registry t (position : EndPosition) (endpoints : gset EndpointValue) selection
  : option (WindowedQuerySnapshot P) :=
  let buckets := match gs_edge_types st !! t with
                 | None => []
                 | Some et => omap (λ endpoint, adjacency_map et position !! endpoint) (elements endpoints)
                 end in
  page ← merge_buckets selection buckets;
  Some (mkSnapshot (load_entries registry t page.1) page.2 (offset_window selection)).

Definition window_snapshot_between g st registry t (a b : EndpointValue) selection : WindowedQuerySnapshot P :=
  match registration g t with
  | None => mkSnapshot [] 0 (offset_window selection)
  | Some r => bucket_snapshot registry t (pair_bucket st t (pair_key_from_values r a b None)) selection
  end.

(** ** The window cell

    The selection and the snapshot published; [select] is the closure that recomputes it
    from the current graph. *)
Record WindowCell := mkWindowCell { wc_selection : GraphWindowSelection; wc_snapshot : WindowedQuerySnapshot P }.

Definition window_open (select : GraphWindowSelection → WindowedQuerySnapshot P) (initial : QueryWindow) : WindowCell :=
  mkWindowCell (Offset (Some initial)) (select (Offset (Some initial))).

(** The diff callback: nothing when the diff cannot concern the page. *)
Definition window_callback (r : EdgeRegistration P) (matches_endpoints : EdgeEndpoints → bool)
    (select : GraphWindowSelection → WindowedQuerySnapshot P) (diff : MapDiff (Item P)) (c : WindowCell) : WindowCell :=
  if negb (watch_diff_affects_window r matches_endpoints diff (ws_entries (wc_snapshot c))) then c
  else mkWindowCell (wc_selection c) (select (wc_selection c)).

Definition set_window (select : GraphWindowSelection → WindowedQuerySnapshot P) (next : option QueryWindow)
    (c : WindowCell) : WindowCell :=
  if decide (wc_selection c = Offset next) then c else mkWindowCell (Offset next) (select (Offset next)).

Definition set_cursor_window (select : GraphWindowSelection → WindowedQuerySnapshot P) (next : QueryCursorWindow)
    (c : WindowCell) : WindowCell :=
  match cursor_validate next with
  | Err _ => c
  | Ok _ => if decide (wc_selection c = Cursor next) then c else mkWindowCell (Cursor next) (select (Cursor next))
  end.

(** [watch_window_at], [watch_window_many_at] and [watch_window_between] give no window on a type without the
    projection. *)
Definition watch_window_at g st registry t (position : EndPosition) (endpoint : EndpointValue) (window : QueryWindow)
  : result GraphError (option WindowCell) :=
  if negb (projects_endpoint g t position) then Ok None
  else match registration g t with
       | None => Err (ErrMsg "edge type is not registered")
       | Some _ => Ok (Some (window_open (window_snapshot_at st registry t position endpoint) window))
       end.

(** The outer [None] is the fuel of the merge, which is never exhausted. *)
Definition watch_window_many_at g st registry t (position : EndPosition) (endpoints : list EndpointValue)
    (window : QueryWindow) : option (result GraphError (option WindowCell)) :=
  if negb (projects_endpoint g t position) then Some (Ok None)
  else match registration g t with
       | None => Some (Err (ErrMsg "edge type is not registered"))
       | Some _ =>
           snapshot ← window_snapshot_many_at st registry t position (list_to_set endpoints) (Offset (Some window));
           Some (Ok (Some (mkWindowCell (Offset (Some window)) snapshot)))
       end.

Definition watch_window_between g st registry t (a b : EndpointValue) (window : QueryWindow)
  : result GraphError (option WindowCell) :=
  match registration g t with
  | None => Err (ErrMsg "edge type is not registered")
  | Some r =>
      if negb (projects_pairs r) then Ok None
      else Ok (Some (window_open (window_snapshot_between g st registry t a b) window))
  end.
End snapshots.
