(* ===== verification/WindowProof.v ===== *)
(** * Windows are pages of the sorted ids

    The heap merge of [window_snapshot_many_at] visits the distinct ids of the buckets in
    order, so its page and total are those of the sorted union; and a diff that the window
    callback ignores leaves the snapshot as it is. *)

From stdpp Require Import base strings numbers option countable sorting gmap sets list.
From S2P Require Import Prelude Order GraphTypes EdgeIds GraphIndex GraphQuery GraphWatch WatchProof GraphWindow.

(** ** The merge *)

Definition le_str (x y : string) : Prop := cmp x y ≠ Gt.

Lemma le_lt x y : le_str x y ↔ x = y ∨ cmp_lt x y.
Proof.
  unfold le_str. destruct (cmp_spec x y) as [E|L|L].
  - naive_solver.
  - naive_solver.
  - split; [done|]. intros [->|L']; [by destruct (cmp_lt_irrefl y)|by destruct (cmp_lt_asym x y)].
Qed.

Lemma le_trans x y z : le_str x y → le_str y z → le_str x z.
Proof.
  rewrite !le_lt. intros [->|H1] [->|H2]; try by (left + right). right. by eapply cmp_lt_trans.
Qed.

Lemma bt_insert_perm {A} `{TotalOrd A} (x : A) l : sorted l → x ∉ l → bt_insert x l ≡ₚ x :: l.
Proof.
  intros S N. apply NoDup_Permutation.
  - by apply sorted_NoDup, bt_insert_sorted.
  - apply NoDup_cons. split; [done|by apply sorted_NoDup].
  - intros y. by rewrite elem_of_bt_insert, elem_of_cons.
Qed.

Lemma concat_pop (its : list (list string)) i x rest :
  its !! i = Some (x :: rest) → x :: concat (<[i := rest]> its) ≡ₚ concat its.
Proof.
  revert i. induction its as [|l its IH]; intros [|i] E; simplify_eq/=; [done|].
  rewrite <-(IH _ E). by rewrite Permutation_middle.
Qed.

(** The heap and the iterators, with the indices [todo] not yet entered in the heap. *)
Record merge_inv (todo : list nat) (its : list (list string)) (pending : list (string * Z)) : Prop := mkMergeInv {
  mi_sorted : sorted pending;
  mi_iterators : ∀ i l, its !! i = Some l → sorted l;
  mi_head : ∀ x i, (x, i) ∈ pending → (0 ≤ i)%Z ∧ (Z.to_nat i ∉ todo) ∧
    ∃ l, its !! Z.to_nat i = Some l ∧ ∀ y, y ∈ l → cmp_lt x y;
  mi_unique : ∀ x y i, (x, i) ∈ pending → (y, i) ∈ pending → x = y;
  mi_entered : ∀ i l, its !! i = Some l → l ≠ [] → i ∈ todo ∨ ∃ x, (x, Z.of_nat i) ∈ pending
}.

Definition content (its : list (list string)) (pending : list (string * Z)) : list string :=
  pending.*1 ++ concat its.

(** Entering the next id of an index that is not in the heap. *)
Lemma push_next_inv todo its pending i :
  merge_inv (i :: todo) its pending → i ∉ todo →
  let '(its', pending') := push_next its pending i in
  merge_inv todo its' pending' ∧ content its' pending' ≡ₚ content its pending.
Proof.
  intros [Ms Mi Mh Mu Me] Nt.
  assert (∀ x, (x, Z.of_nat i) ∉ pending) as Np.
  { intros x Hx. destruct (Mh _ _ Hx) as (_ & N & _). apply N. rewrite Nat2Z.id. left. }
  unfold push_next. destruct (its !! i) as [[|x rest]|] eqn:E.
  1, 3: split; [|done]; split; try done;
    [intros y j Hy; destruct (Mh _ _ Hy) as (? & N & ?); split_and!; try done; set_solver
    |intros j l Ej Nl; destruct (Me _ _ Ej Nl) as [[->|?]%elem_of_cons|?]; [congruence|by left|by right]].
  pose proof (Mi _ _ E) as Sx. apply sorted_cons in Sx as [Sr Lx].
  assert ((x, Z.of_nat i) ∉ pending) as Nx by apply Np.
  split.
  - split.
    + by apply bt_insert_sorted.
    + intros j l [(-> & <- & _)|[_ Ej]]%list_lookup_insert_Some; [done|by eapply Mi].
    + intros y j. rewrite elem_of_bt_insert. intros [[= -> ->]|Hy].
      * split_and!; [lia|by rewrite Nat2Z.id|]. rewrite Nat2Z.id. exists rest. split; [|done].
        apply list_lookup_insert_eq. by eapply lookup_lt_Some.
      * destruct (Mh _ _ Hy) as (? & N & l & El & Ll). split_and!; [done|set_solver|].
        exists l. split; [|done]. rewrite list_lookup_insert_ne; [done|]. intros ->. apply N. left.
    + intros y z j. rewrite !elem_of_bt_insert. intros [[= -> ->]|Hy] [[= ->]|Hz]; try done; subst.
      * by destruct (Np z).
      * by destruct (Np y).
      * by eapply Mu.
    + intros j l [(-> & <- & _)|[Nj Ej]]%list_lookup_insert_Some Nl.
      * right. exists x. rewrite elem_of_bt_insert. by left.
      * destruct (Me _ _ Ej Nl) as [[->|?]%elem_of_cons|[y Hy]]; [done|by left|].
        right. exists y. rewrite elem_of_bt_insert. by right.
  - unfold content. rewrite (bt_insert_perm (x, Z.of_nat i) pending) by done. simpl.
    rewrite <-(concat_pop _ _ _ _ E). by rewrite Permutation_middle.
Qed.

Lemma merge_init_inv todo its pending :
  merge_inv todo its pending → NoDup todo →
  let '(its', pending') := merge_init todo its pending in
  merge_inv [] its' pending' ∧ content its' pending' ≡ₚ content its pending.
Proof.
  revert its pending. induction todo as [|i todo IH]; intros its pending I ND; simpl; [done|].
  apply NoDup_cons in ND as [Ni ND]. pose proof (push_next_inv _ _ _ _ I Ni) as R.
  destruct (push_next its pending i) as [its1 pending1]. destruct R as [I1 C1].
  specialize (IH _ _ I1 ND). destruct (merge_init todo its1 pending1) as [its' pending'].
  destruct IH as [I' C']. split; [done|]. by rewrite C'.
Qed.

(** The popped id is least, and popping keeps the rest. *)
Lemma pop_inv its x i pending :
  merge_inv [] its ((x, i) :: pending) →
  merge_inv [Z.to_nat i] its pending ∧ ∀ y, y ∈ content its pending → le_str x y.
Proof.
  intros [Ms Mi Mh Mu Me]. apply sorted_cons in Ms as [Ms L]. destruct (Mh x i) as (Hi & _ & l & El & Ll); [left|].
  assert (∀ y j, (y, j) ∈ pending → j ≠ i) as Nj.
  { intros y j Hy ->. assert (x = y) as <- by (eapply Mu; [left|by right]).
    exact (cmp_lt_irrefl (x, i) (L _ Hy)). }
  assert (∀ y j, (y, j) ∈ pending → le_str x y) as Lp.
  { intros y j Hy. specialize (L _ Hy). unfold cmp_lt, cmp, prod_cmp in L. simpl in L. apply le_lt.
    unfold then_cmp in L. destruct (cmp x y) eqn:E; [apply cmp_eq in E; by left|by right|done]. }
  split.
  - split; try done.
    + intros y j Hy. destruct (Mh y j) as (? & _ & l' & ? & ?); [by right|]. split_and!; [done| |eauto].
      rewrite list_elem_of_singleton. intros E. apply (Nj _ _ Hy). lia.
    + intros y z j Hy Hz. by eapply Mu; right.
    + intros j l' Ej Nl. destruct (Me _ _ Ej Nl) as [[]%elem_of_nil|[y [[= -> <-]|Hy]%elem_of_cons]].
      * left. rewrite Nat2Z.id. left.
      * right. eauto.
  - intros y [([z j] & -> & Hz)%list_elem_of_fmap|Hy]%elem_of_app; [by eapply Lp|].
    apply list_elem_of_In, in_concat in Hy as (l' & Hl & Hy).
    apply list_elem_of_In, list_elem_of_lookup in Hl as [j Ej]. apply list_elem_of_In in Hy.
    destruct (Me _ _ Ej) as [[]%elem_of_nil|[z Hz]]; [by intros ->; apply elem_of_nil in Hy|].
    destruct (Mh _ _ Hz) as (_ & _ & l'' & El'' & Ll''). rewrite Nat2Z.id in El''.
    assert (l'' = l') as -> by congruence. specialize (Ll'' _ Hy).
    apply (le_trans _ z); [|apply le_lt; by right].
    apply elem_of_cons in Hz as [[= -> _]|Hz]; [apply le_lt; by left|by eapply Lp].
Qed.

Lemma merge_loop_spec fuel selection its pending m :
  merge_inv [] its pending → length (content its pending) ≤ fuel →
  ∃ ids, ids ≡ₚ content its pending ∧ StronglySorted le_str ids ∧
    merge_loop fuel selection its pending m = Some (foldl (visit_id selection) m ids).
Proof.
  revert its pending m. induction fuel as [|fuel IH]; intros its pending m I F.
  - destruct pending as [|p pending]; [|simpl in F; lia]. exists []. unfold content in *. simpl in *.
    destruct (concat its); [|simpl in F; lia]. by split_and!; constructor.
  - destruct pending as [|[x i] pending].
    + assert (concat its = []) as Ec.
      { destruct (concat its) as [|y c] eqn:E; [done|]. exfalso.
        assert (y ∈ concat its) as Hy by (rewrite E; left).
        apply list_elem_of_In, in_concat in Hy as (l & Hl & Hy).
        apply list_elem_of_In, list_elem_of_lookup in Hl as [j Ej].
        destruct (mi_entered _ _ _ I _ _ Ej) as [[]%elem_of_nil|[z []%elem_of_nil]]. by intros ->. }
      exists []. unfold content. simpl. rewrite Ec. by split_and!; constructor.
    + destruct (pop_inv _ _ _ _ I) as [I1 Lx]. simpl.
      pose proof (push_next_inv _ _ _ _ I1 (not_elem_of_nil _)) as R.
      destruct (push_next its pending (Z.to_nat i)) as [its' pending']. destruct R as [I' C'].
      destruct (IH its' pending' (visit_id selection m x) I') as (ids & Pi & Si & ->).
      { rewrite C'. change (S (length (content its pending)) ≤ S fuel) in F. lia. }
      exists (x :: ids). split_and!; [|constructor; [done|]|done].
      * by rewrite Pi, C'.
      * apply Forall_forall. intros y Hy. apply Lx. by rewrite <-C', <-Pi.
Qed.

(** *** Distinct ids *)

(** A visit of an id that is not the previous one. *)
Definition visit_new (selection : GraphWindowSelection) (m : Merge) (id : string) : Merge :=
  let m := select_id selection m id in
  mkMerge (sat_add (mg_total m) 1) (Some id) (mg_selected m) (mg_before m).

(** The visits that are not skipped. *)
Fixpoint fresh (previous : option string) (ids : list string) : list string :=
  match ids with
  | [] => []
  | x :: ids => if decide (previous = Some x) then fresh previous ids else x :: fresh (Some x) ids
  end.

Lemma foldl_visit_fresh selection ids m :
  foldl (visit_id selection) m ids = foldl (visit_new selection) m (fresh (mg_previous m) ids).
Proof.
  revert m. induction ids as [|x ids IH]; intros m; simpl; [done|]. unfold visit_id at 2.
  case_decide as E; [apply IH|]. simpl. by rewrite IH.
Qed.

Lemma fresh_spec ids previous :
  StronglySorted le_str ids → (∀ p x, previous = Some p → x ∈ ids → le_str p x) →
  sorted (fresh previous ids) ∧ (∀ x, x ∈ fresh previous ids ↔ x ∈ ids ∧ previous ≠ Some x).
Proof.
  intros S. revert previous. induction S as [|x ids S IH F]; intros previous L; simpl.
  { split; [apply sorted_nil|]. intros x. rewrite elem_of_nil. naive_solver. }
  rewrite Forall_forall in F. case_decide as E.
  - subst. destruct (IH (Some x)) as [Sf Ef]; [intros p y [= <-]; by apply F|]. split; [done|].
    intros y. rewrite Ef, elem_of_cons. naive_solver.
  - destruct (IH (Some x)) as [Sf Ef]; [intros p y [= <-]; by apply F|]. split.
    + apply sorted_cons. split; [done|]. intros y [Hy Ny]%Ef. specialize (F y Hy).
      apply le_lt in F as [->|]; [done|done].
    + intros y. rewrite !elem_of_cons, Ef. split.
      * intros [->|[Hy Ny]]; [naive_solver|]. split; [by right|]. intros ->.
        specialize (L y x eq_refl). specialize (F y Hy). rewrite elem_of_cons in L.
        specialize (L (or_introl eq_refl)). apply le_lt in F as [->|F]; [done|].
        apply le_lt in L as [->|L]; [done|]. by apply (cmp_lt_asym x y).
      * intros [[->|Hy] Ny]; [by left|]. destruct (decide (x = y)) as [->|]; [by left|right]. naive_solver.
Qed.

(** *** Pages *)

(** The page of a selection over sorted ids. *)
Definition page_of (selection : GraphWindowSelection) (ids : list string) : list string :=
  match selection with
  | Offset None => ids
  | Offset (Some w) => take_z (limit w) (skip_z (offset w) ids)
  | Cursor w => EdgeIds.cursor_spec w ids
  end.

Definition merged_page (selection : GraphWindowSelection) (m : Merge) : list string :=
  match selection with
  | Cursor window => if decide (is_Some (cw_before window)) then mg_before m else mg_selected m
  | Offset _ => mg_selected m
  end.

Lemma visit_total selection ids m :
  (0 ≤ mg_total m)%Z → (mg_total m + len ids ≤ u64_max)%Z →
  mg_total (foldl (visit_new selection) m ids) = (mg_total m + len ids)%Z.
Proof.
  revert m. induction ids as [|x ids IH]; intros m H0 H1; unfold len in *; simpl in *; [lia|].
  assert (mg_total (select_id selection m x) = mg_total m) as E
    by (unfold select_id; destruct (page_bounds selection); by repeat case_match).
  rewrite IH; unfold visit_new; simpl; rewrite E, sat_add_exact by lia; lia.
Qed.

Lemma visit_offset w ids m :
  (0 ≤ mg_total m)%Z → (mg_total m + len ids ≤ u64_max)%Z →
  mg_selected (foldl (visit_new (Offset w)) m ids) =
    mg_selected m ++ take_z ((page_bounds (Offset w)).2 - len (mg_selected m))
      (skip_z ((page_bounds (Offset w)).1 - mg_total m) ids).
Proof.
  destruct (page_bounds (Offset w)) as [o l] eqn:Ew. simpl.
  revert m. induction ids as [|x ids IH]; intros m H0 H1; unfold len in *; cbn [length foldl take_z skip_z] in *;
    [by rewrite app_nil_r|].
  rewrite IH; unfold visit_new, select_id; rewrite Ew; simpl.
  2, 3: destruct (_ && _); simpl; rewrite sat_add_exact; lia.
  destruct (Z.leb_spec o (mg_total m)) as [Ho|Ho]; simpl.
  - replace (o - mg_total m <=? 0)%Z with true by lia. unfold len. destruct (Z.ltb_spec (Z.of_nat (length (mg_selected m))) l) as [Hl|Hl]; simpl.
    + rewrite length_app, sat_add_exact by lia. simpl. replace (l - Z.of_nat (length (mg_selected m)) <=? 0)%Z with false by lia.
      rewrite <-app_assoc. simpl. do 3 f_equal; [lia|]. rewrite skip_z_drop. by replace (Z.to_nat _) with 0 by lia.
    + replace (l - Z.of_nat (length (mg_selected m)) <=? 0)%Z with true by lia. rewrite !take_z_take.
      replace (Z.to_nat (l - _)) with 0 by lia. by rewrite take_0.
  - replace (o - mg_total m <=? 0)%Z with false by lia. rewrite sat_add_exact by lia. do 3 f_equal. lia.
Qed.

Lemma visit_cursor w ids m :
  cw_before w = None →
  mg_selected (foldl (visit_new (Cursor w)) m ids) =
    mg_selected m ++ take_z (cw_limit w - len (mg_selected m)) (EdgeIds.pending (cw_after w) ids).
Proof.
  intros Eb. revert m. induction ids as [|x ids IH]; intros m; simpl.
  { destruct (cw_after w); simpl; by rewrite app_nil_r. }
  rewrite IH. unfold visit_new, select_id. simpl. rewrite Eb. simpl.
  assert (EdgeIds.pending (cw_after w) (x :: ids)
    = (if match cw_after w with None => true | Some after => bool_decide (cmp_lt after x) end then [x] else [])
      ++ EdgeIds.pending (cw_after w) ids) as ->.
  { destruct (cw_after w) as [a|]; [|done]. unfold EdgeIds.pending. rewrite filter_cons.
    destruct (decide (cmp_lt a x)); [by rewrite bool_decide_eq_true_2|by rewrite bool_decide_eq_false_2]. }
  destruct (match cw_after w with None => true | Some after => bool_decide (cmp_lt after x) end); simpl; [|done].
  unfold len. destruct (Z.ltb_spec (Z.of_nat (length (mg_selected m))) (cw_limit w)) as [Hl|Hl]; simpl.
  - rewrite length_app. simpl. replace (cw_limit w - Z.of_nat (length (mg_selected m)) <=? 0)%Z with false by lia.
    rewrite <-app_assoc. simpl. do 3 f_equal. lia.
  - replace (cw_limit w - Z.of_nat (length (mg_selected m)) <=? 0)%Z with true by lia.
    rewrite take_z_take. by replace (Z.to_nat (cw_limit w - _)) with 0 by lia.
Qed.

(** The last [limit] ids, kept in a queue. *)
Definition last_z (limit : Z) (l : list string) : list string := rev (take_z limit (rev l)).

Lemma push_before_last limit (l : list string) x :
  (0 < limit)%Z → push_before limit (last_z limit l) x = last_z limit (l ++ [x]).
Proof.
  intros Hl. unfold push_before, last_z, len. rewrite rev_app_distr, !take_z_take, length_rev. simpl.
  replace (Z.to_nat limit) with (S (Z.to_nat (limit - 1))) by lia. cbn [take rev].
  set (k := Z.to_nat (limit - 1)). f_equal. rewrite length_take, length_rev.
  case_decide as E.
  - assert (S k ≤ length l) as Hk by lia.
    assert (∃ y, take (S k) (rev l) = take k (rev l) ++ [y]) as [y ->].
    { destruct (lookup_lt_is_Some_2 (rev l) k) as [y Hy]; [rewrite length_rev; lia|]. exists y. by apply take_S_r. }
    by rewrite rev_app_distr.
  - assert (length l ≤ k) by lia. rewrite !take_ge by (rewrite length_rev; lia). done.
Qed.

Lemma visit_before w before ids m base :
  cw_before w = Some before → (0 ≤ cw_limit w)%Z → mg_before m = last_z (cw_limit w) base →
  mg_before (foldl (visit_new (Cursor w)) m ids)
    = last_z (cw_limit w) (base ++ filter (λ id, cmp_lt id before) ids).
Proof.
  intros Eb Hl. revert m base. induction ids as [|x ids IH]; intros m base Hm; [by rewrite app_nil_r|].
  rewrite filter_cons. cbn [foldl].
  assert (mg_before (visit_new (Cursor w) m x)
    = last_z (cw_limit w) (base ++ if decide (cmp_lt x before) then [x] else [])) as E.
  { unfold visit_new, select_id. simpl. rewrite Eb. destruct (decide (cmp_lt x before)) as [Lt|Lt].
    - rewrite bool_decide_eq_true_2 by done. destruct (Z.ltb_spec 0 (cw_limit w)) as [H0|H0]; simpl.
      + rewrite Hm. by apply push_before_last.
      + rewrite Hm. unfold last_z. rewrite !take_z_take. by replace (Z.to_nat (cw_limit w)) with 0 by lia.
    - rewrite bool_decide_eq_false_2 by done. rewrite andb_false_r, app_nil_r. done. }
  rewrite (IH _ _ E). f_equal. rewrite <-app_assoc. f_equal. by case_decide.
Qed.

(** The merged page is the page of the sorted union. *)
Lemma merged_page_spec selection ids :
  (match selection with Cursor w => cursor_validate w = Ok () ∧ (0 ≤ cw_limit w)%Z
   | Offset _ => True end) →
  (len ids ≤ u64_max)%Z →
  merged_page selection (foldl (visit_new selection) merge_start ids) = page_of selection ids.
Proof.
  intros V L. destruct selection as [w|w]; simpl.
  - rewrite visit_offset by (simpl; lia). simpl. destruct w as [w|]; simpl; rewrite !Z.sub_0_r; [done|].
    rewrite skip_z_drop, take_z_take. simpl. apply take_ge. unfold len, usize_max in *. lia.
  - destruct V as [V Hl]. unfold EdgeIds.cursor_spec, cursor_validate in *.
    destruct (cw_before w) as [before|] eqn:Eb.
    + rewrite decide_True by eauto. destruct (cw_after w); [done|].
      by rewrite (visit_before w before ids merge_start []).
    + rewrite decide_False by (by intros []). rewrite visit_cursor by done. simpl. rewrite Z.sub_0_r.
      by destruct (cw_after w).
Qed.

(** *** The whole merge *)

Definition all_ids (buckets : list EdgeIds) : list string := bt_of_list (concat (EdgeIds.ids <$> buckets)).

Lemma merge_start_inv (buckets : list EdgeIds) :
  Forall EdgeIds.wf buckets → merge_inv (seq 0 (length (EdgeIds.ids <$> buckets))) (EdgeIds.ids <$> buckets) [].
Proof.
  intros W. split.
  - apply sorted_nil.
  - intros i l E. apply list_lookup_fmap_Some in E as (b & -> & Eb).
    apply EdgeIds.ids_sorted. by eapply Forall_lookup_1.
  - by intros x i ?%elem_of_nil.
  - by intros x y i ?%elem_of_nil.
  - intros i l E _. left. apply elem_of_seq. apply lookup_lt_Some in E. lia.
Qed.

Lemma merge_buckets_spec selection buckets :
  Forall EdgeIds.wf buckets →
  (match selection with Cursor w => cursor_validate w = Ok () ∧ (0 ≤ cw_limit w)%Z
   | Offset _ => True end) →
  (len (all_ids buckets) ≤ u64_max)%Z →
  merge_buckets selection buckets = Some (page_of selection (all_ids buckets), len (all_ids buckets)).
Proof.
  intros W V L. unfold merge_buckets. set (its := EdgeIds.ids <$> buckets) in *.
  pose proof (merge_init_inv _ _ _ (merge_start_inv _ W) (NoDup_seq _ _)) as R.
  fold its in R. destruct (merge_init (seq 0 (length its)) its []) as [its' pending]. destruct R as [I C].
  destruct (merge_loop_spec (sum_list (length <$> its)) selection its' pending merge_start I) as (ids & Pi & Si & ->).
  { rewrite C. unfold content. simpl. rewrite length_concat. done. }
  simpl. rewrite foldl_visit_fresh. simpl.
  assert (fresh None ids = all_ids buckets) as ->.
  { destruct (fresh_spec ids None Si) as [Sf Ef]; [done|]. apply sorted_ext; [done|apply bt_of_list_sorted|].
    intros x. rewrite Ef. unfold all_ids. rewrite elem_of_bt_of_list, Pi, C. unfold content. naive_solver. }
  f_equal. f_equal.
  - by apply merged_page_spec.
  - rewrite visit_total by (simpl; lia). simpl. lia.
Qed.

(** ** Snapshots as functions of the store *)
Section snapshots.
Context {P : Type} `{!CellMap (Item P)}.
Implicit Types (g : GraphIndex P) (r : EdgeRegistration P) (m : gmap string (Item P)) (matches : Item P → bool)
  (registry : StoreRegistry P) (st : GraphState).

(** The selections the program builds: [usize] bounds, and cursors it has validated. *)
Definition selection_ok (selection : GraphWindowSelection) : Prop :=
  match selection with
  | Offset None => True
  | Offset (Some w) => (0 ≤ offset w)%Z ∧ (0 ≤ limit w)%Z
  | Cursor w => cursor_validate w = Ok () ∧ (0 ≤ cw_limit w)%Z
  end.

(** The ids of the matching items, in order, and the snapshot they give. *)
Definition keys matches m : list string := bt_of_list (elements (dom (select matches m) : gset string)).
Definition load m (ids : list string) : list (string * Item P) := omap (λ id, pair id <$> m !! id) ids.
Definition snapshot_of (selection : GraphWindowSelection) matches m : WindowedQuerySnapshot P :=
  mkSnapshot (load m (page_of selection (keys matches m))) (len (keys matches m)) (offset_window selection).

Lemma elem_of_keys matches m id : id ∈ keys matches m ↔ ∃ x, m !! id = Some x ∧ matches x = true.
Proof.
  unfold keys. rewrite elem_of_bt_of_list, elem_of_elements, elem_of_dom. split.
  - intros [x Hx%lookup_select]. eauto.
  - intros (x & Hx). exists x. by apply lookup_select.
Qed.

Lemma keys_sorted matches m : sorted (keys matches m).
Proof. apply bt_of_list_sorted. Qed.

Lemma page_of_subset selection l : page_of selection l ⊆ l.
Proof.
  assert (∀ n (k : list string), take_z n k ⊆ k) as Ht.
  { intros n k. rewrite take_z_take. intros x (i & Hi & _)%elem_of_take. by eapply list_elem_of_lookup_2. }
  destruct selection as [[w|]|w]; simpl; [|done|].
  - rewrite skip_z_drop. etrans; [apply Ht|]. intros x Hx. apply list_elem_of_lookup in Hx as [i Hi].
    rewrite lookup_drop in Hi. by eapply list_elem_of_lookup_2.
  - unfold EdgeIds.cursor_spec. destruct (cw_after w) as [a|].
    + etrans; [apply Ht|]. intros x Hx. apply list_elem_of_filter in Hx. by destruct Hx.
    + destruct (cw_before w) as [c|]; [|apply Ht]. intros x Hx.
      rewrite list_elem_of_In, <-in_rev, <-list_elem_of_In in Hx. apply Ht in Hx.
      rewrite list_elem_of_In, <-in_rev, <-list_elem_of_In in Hx. apply list_elem_of_filter in Hx. by destruct Hx.
Qed.

Lemma load_keys m ids : (∀ id, id ∈ ids → is_Some (m !! id)) → (load m ids).*1 = ids.
Proof.
  unfold load. induction ids as [|x ids IH]; intros F; [done|]. csimpl.
  destruct (F x) as [y ->]; [left|]. csimpl. f_equal. apply IH. intros id Hid. apply F. by right.
Qed.

Lemma load_ext m m' ids : (∀ id, id ∈ ids → m !! id = m' !! id) → load m ids = load m' ids.
Proof.
  unfold load. induction ids as [|x ids IH]; intros F; [done|]. csimpl. rewrite (F x) by left.
  rewrite IH; [done|]. intros id Hid. apply F. by right.
Qed.

Lemma keys_ext matches m m' :
  (∀ id, (∃ x, m !! id = Some x ∧ matches x = true) ↔ (∃ x, m' !! id = Some x ∧ matches x = true)) →
  keys matches m = keys matches m'.
Proof. intros E. apply sorted_ext; [apply keys_sorted..|]. intros id. by rewrite !elem_of_keys, E. Qed.

Lemma keys_len matches m : (len (keys matches m) ≤ Z.of_nat (size m))%Z.
Proof.
  unfold len. rewrite <-(size_list_to_set (C := gset string) (keys matches m)) by apply sorted_NoDup, keys_sorted.
  rewrite <-(size_dom (D := gset string) m). apply inj_le, subseteq_size. intros id.
  rewrite elem_of_list_to_set, elem_of_keys, elem_of_dom. intros (x & Hx & _). eauto.
Qed.

Lemma window_all b : EdgeIds.wf b → (len (EdgeIds.ids b) ≤ usize_max)%Z → EdgeIds.window b None = EdgeIds.ids b.
Proof.
  intros W L. unfold EdgeIds.window. rewrite decide_False by done. destruct b as [x|l]; [done|].
  rewrite skip_z_drop, take_z_take. simpl. apply take_ge. unfold len in L. simpl in L. lia.
Qed.

(** The stored value of one key changes without changing the selection. *)
Lemma snapshot_unaffected selection matches m m' k :
  (∀ id, id ≠ k → m' !! id = m !! id) →
  ((∃ x, m !! k = Some x ∧ matches x = true) ↔ (∃ x, m' !! k = Some x ∧ matches x = true)) →
  k ∉ (ws_entries (snapshot_of selection matches m)).*1 →
  snapshot_of selection matches m' = snapshot_of selection matches m.
Proof.
  intros E Ek N. assert (keys matches m' = keys matches m) as Kk.
  { apply keys_ext. intros id. destruct (decide (id = k)) as [->|Ni]; [by rewrite Ek|by rewrite E]. }
  unfold snapshot_of in *. simpl in N. rewrite Kk. f_equal. apply load_ext. intros id Hid. apply E. intros ->.
  apply N. rewrite load_keys; [done|]. intros id Hid'. apply page_of_subset, elem_of_keys in Hid' as (x & -> & _). eauto.
Qed.

Lemma not_visible (entries : list (string * Item P)) k :
  existsb (λ entry : string * Item P, bool_decide (entry.1 = k)) entries = false → k ∉ entries.*1.
Proof.
  intros E ([k' x] & -> & H)%list_elem_of_fmap. apply list_elem_of_In in H. apply not_true_iff_false in E. destruct E.
  apply existsb_exists. exists (k', x). split; [done|]. by apply bool_decide_eq_true.
Qed.

(** A diff the window callback ignores does not change the snapshot. *)
Lemma ignored_diff selection r p d m visible :
  diff_valid d m → visible = ws_entries (snapshot_of selection (watch_matches r p) m) →
  watch_diff_affects_window r p d visible = false →
  snapshot_of selection (watch_matches r p) (apply_diff d m) = snapshot_of selection (watch_matches r p) m.
Proof.
  assert (∀ m k (x : Item P), m !! k = Some x → watch_matches r p x = false →
    k ∉ (ws_entries (snapshot_of selection (watch_matches r p) m)).*1) as Nk.
  { intros m' k x E M. simpl. intros ([k' y] & -> & H)%list_elem_of_fmap. unfold load in H.
    apply list_elem_of_omap in H as (id & Hid & (z & Hz & [= -> ->])%fmap_Some).
    apply page_of_subset, elem_of_keys in Hid as (z' & ? & ?). simpl in *. congruence. }
  revert m. induction d as [entries|k x|k x|k x y|changes IH] using MapDiff_rect'; intros m V Ev A; simpl in V, A; [done|..].
  - rewrite apply_insert. apply (snapshot_unaffected _ _ _ _ k).
    + intros id Ni. by rewrite lookup_insert_ne.
    + rewrite V, lookup_insert_eq. naive_solver congruence.
    + simpl. intros ([k' y] & -> & H)%list_elem_of_fmap. unfold load in H.
      apply list_elem_of_omap in H as (id & Hid & (z & Hz & [= -> ->])%fmap_Some). simpl in *. congruence.
  - rewrite apply_remove. apply (snapshot_unaffected _ _ _ _ k).
    + intros id Ni. by rewrite lookup_delete_ne.
    + rewrite V, lookup_delete_eq. naive_solver congruence.
    + by eapply Nk.
  - rewrite apply_update. destruct (watch_matches r p x) eqn:Mx, (watch_matches r p y) eqn:My; try done.
    + apply (snapshot_unaffected _ _ _ _ k).
      * intros id Ni. by rewrite lookup_insert_ne.
      * rewrite V, lookup_insert_eq. naive_solver.
      * rewrite <-Ev. by apply not_visible.
    + apply (snapshot_unaffected _ _ _ _ k).
      * intros id Ni. by rewrite lookup_insert_ne.
      * rewrite V, lookup_insert_eq. naive_solver congruence.
      * by eapply Nk.
  - rewrite apply_batch. revert m V Ev A. induction IH as [|d changes Hd _ IH']; intros m V Ev A; [done|].
    destruct V as [Vd V]. simpl in A. apply orb_false_iff in A as [Ad A].
    specialize (Hd _ Vd Ev Ad). cbn [foldl]. rewrite <-Hd in Ev. by rewrite (IH' _ V Ev A).
Qed.

(** The snapshot at an endpoint is the one of the store. *)
Lemma window_snapshot_at_spec g registry st t r position endpoint selection :
  registrations_ok g → graph_ok g registry st → registration g t = Some r →
  projects_endpoint g t position = true → selection_ok selection →
  (Z.of_nat (size (get_or_create registry t)) ≤ usize_max)%Z →
  window_snapshot_at st registry t position endpoint selection
    = snapshot_of selection (watch_matches r (λ e, bool_decide (end_at position e = endpoint)))
        (get_or_create registry t).
Proof.
  intros R G Hr Pj So Sz. pose proof (graph_ok_proj _ _ _ _ _ position R G Hr) as M. rewrite Pj in M.
  destruct (G _ _ Hr) as [X _]. set (store := get_or_create registry t) in *.
  set (matches := watch_matches r (λ e, bool_decide (end_at position e = endpoint))).
  assert (bucket_ids (adjacency_map (edge_state st t) position) endpoint = keys matches store) as Eb.
  { apply sorted_ext; [by eapply proj_ok_bucket_sorted|apply keys_sorted|]. intros id.
    rewrite elem_of_keys, (proj_ok_bucket _ _ _ _ _ _ M eq_refl). unfold matches, watch_matches. split.
    - intros (e & (x & Hx & Xe)%lookup_indexed_store & Ke). exists x. split; [done|].
      destruct (indexed_extract _ _ _ Xe) as [-> _]. by apply bool_decide_eq_true.
    - intros (x & Hx & Mx). destruct (proj1 (is_ok_True _) (X _ _ Hx)) as [e Xe].
      destruct (indexed_extract _ _ _ Xe) as [Xe' _]. rewrite Xe' in Mx. apply bool_decide_eq_true in Mx.
      exists e. rewrite lookup_indexed_store. eauto. }
  unfold window_snapshot_at, snapshot_of, bucket_snapshot. rewrite <-Eb.
  assert ((et ← gs_edge_types st !! t; adjacency_map et position !! endpoint)
    = adjacency_map (edge_state st t) position !! endpoint) as ->.
  { unfold edge_state. destruct (gs_edge_types st !! t); [done|]. simpl. destruct position; simpl; by rewrite lookup_empty. }
  unfold bucket_ids in *. specialize (M endpoint).
  destruct (adjacency_map (edge_state st t) position !! endpoint) as [b|].
  - destruct M as (Wb & _ & _). rewrite <-EdgeIds.len_spec. f_equal. unfold load_entries, load. f_equal.
    destruct selection as [[w|]|w]; simpl.
    + destruct So. by apply EdgeIds.window_ids.
    + apply window_all; [done|]. rewrite Eb. pose proof (keys_len matches store). lia.
    + destruct So. by apply EdgeIds.cursor_window_ids.
  - f_equal. unfold load_entries. destruct selection as [[w|]|w]; simpl; [done|done|].
    unfold EdgeIds.cursor_spec. destruct (cw_after w); [done|]. by destruct (cw_before w).
Qed.
End snapshots.
