(* ===== verification/Fixtures.v ===== *)
(** * A small graph

    A concrete inventory, canonical stores and rebuilt index, at which the theorems of the
    library are instantiated: [Node]s joined by [Link] edges (directed, unique, projected at
    both ends), [Peer] edges (undirected, scoped, pair projection only) and [Cold] edges
    (directed, scanned); with decision procedures for the hypotheses the theorems share. *)

From Stdlib Require Import Strings.Byte.
From stdpp Require Import base strings numbers option countable gmap sets list.
From S2P Require Import Prelude Order GraphTypes EdgeIds GraphIndex GraphQuery GraphPreflight GraphWatch.

(** ** Deciding the hypotheses *)
Section checkers.
Context {P : Type}.
Implicit Types (g : GraphIndex P) (registry : StoreRegistry P).

Definition registrations_okb g : bool :=
  forallb (λ x : string * EdgeRegistration P, bool_decide (edge_type x.2 = x.1)) (map_to_list (g_registrations g)).

Definition registry_okb registry : bool :=
  forallb (λ x : string * gmap string (Item P),
    forallb (λ y : string * Item P, bool_decide (item_type y.2 = x.1) && bool_decide (item_id y.2 = y.1))
      (map_to_list x.2)) (map_to_list registry).

Definition extractableb g registry : bool :=
  forallb (λ x : string * EdgeRegistration P,
    forallb (λ y : string * Item P, is_ok (indexed x.2 y.2)) (map_to_list (get_or_create registry x.1)))
    (map_to_list (g_registrations g)).

Lemma registrations_okb_spec g : registrations_okb g = true → registrations_ok g.
Proof.
  unfold registrations_okb. rewrite forallb_forall. intros H t r Hr.
  apply (bool_decide_eq_true (edge_type r = t)). apply (H (t, r)). by apply list_elem_of_In, elem_of_map_to_list.
Qed.

Lemma registry_okb_spec registry : registry_okb registry = true → registry_ok registry.
Proof.
  unfold registry_okb. rewrite forallb_forall. intros H t store id x Hs Hx.
  specialize (H (t, store)). rewrite <-list_elem_of_In, elem_of_map_to_list in H. specialize (H Hs).
  rewrite forallb_forall in H. specialize (H (id, x)).
  rewrite <-list_elem_of_In, elem_of_map_to_list in H. specialize (H Hx).
  apply andb_true_iff in H as [?%bool_decide_eq_true ?%bool_decide_eq_true]. done.
Qed.

Lemma extractableb_spec g registry :
  extractableb g registry = true →
  ∀ t r, registration g t = Some r → extractable r (get_or_create registry t).
Proof.
  unfold extractableb. rewrite forallb_forall. intros H t r Hr id x Hx.
  specialize (H (t, r)). rewrite <-list_elem_of_In, elem_of_map_to_list in H. specialize (H Hr).
  rewrite forallb_forall in H. apply (H (id, x)).
  by rewrite <-list_elem_of_In, elem_of_map_to_list.
Qed.

Definition unique_pairsb g registry : bool :=
  forallb (λ x : string * EdgeRegistration P,
    negb (bool_decide (pair_policy x.2 = Unique)) ||
    bool_decide (NoDup (omap (λ y : string * Item P, pair_key_of x.2 <$> ok (indexed x.2 y.2))
      (map_to_list (get_or_create registry x.1))))) (map_to_list (g_registrations g)).

Lemma unique_pairsb_spec g registry : unique_pairsb g registry = true → unique_pairs g registry.
Proof.
  unfold unique_pairsb. rewrite forallb_forall. intros H t r id1 id2 x1 x2 e1 e2 Hr U E1 E2 X1 X2 K.
  specialize (H (t, r)). rewrite <-list_elem_of_In, elem_of_map_to_list in H. specialize (H Hr).
  simpl in H. rewrite bool_decide_eq_true_2 in H by done. apply bool_decide_eq_true in H.
  apply elem_of_map_to_list in E1, E2.
  apply list_elem_of_lookup in E1 as [i1 E1], E2 as [i2 E2].
  revert H i1 i2 E1 E2. generalize (map_to_list (get_or_create registry t)).
  assert (∀ (l : list (string * Item P)) i id x e, l !! i = Some (id, x) → indexed r x = Ok e →
    pair_key_of r e ∈ omap (λ y : string * Item P, pair_key_of r <$> ok (indexed r y.2)) l) as Hin.
  { intros l i id x e E X. apply list_elem_of_omap. exists (id, x).
    split; [by eapply list_elem_of_lookup_2|]. simpl. by rewrite X. }
  induction l as [|[id x] l IH]; intros ND [|i1] [|i2] L1 L2; simplify_eq/=; try done.
  - csimpl in ND. rewrite X1 in ND. simpl in ND. apply NoDup_cons in ND as [N _]. destruct N. rewrite K. by eapply Hin.
  - csimpl in ND. rewrite X2 in ND. simpl in ND. apply NoDup_cons in ND as [N _]. destruct N. rewrite <-K. by eapply Hin.
  - csimpl in ND. eapply IH; [|done..]. destruct (pair_key_of r <$> ok (indexed r x)); [|done].
    by apply NoDup_cons in ND as [_ ND].
Qed.

(** The rebuilt index of checked stores satisfies the invariant. *)
Lemma rebuild_checked g registry :
  registrations_okb g = true → registry_okb registry = true → extractableb g registry = true →
  graph_ok g registry (rebuild g registry).1.
Proof.
  intros R%registrations_okb_spec W%registry_okb_spec X.
  destruct (rebuild_ok g registry R W (extractableb_spec _ _ X)) as (st & n & -> & G). done.
Qed.
End checkers.

(** ** The inventory *)
Module Fx.
(** The payload of an item: the ends and scope of an edge, nothing for a node. *)
Definition Payload : Type := option (EndpointValue * EndpointValue * option IndexValue).

Definition at_node (id : string) : EndpointValue := mkEndpointValue (mkEntityRef "Node" id) None.

Definition extract_ends (item : Item Payload) : result GraphError EdgeEndpoints :=
  match item_payload item with
  | Some (a, b, _) => Ok (mkEdgeEndpoints a b)
  | None => Err (ErrMsg "graph edge item type mismatch")
  end.

Definition extract_scope_of (item : Item Payload) : result GraphError (option IndexValue) :=
  match item_payload item with
  | Some (_, _, s) => Ok s
  | None => Err (ErrMsg "graph edge item type mismatch")
  end.

Definition no_scope (item : Item Payload) : result GraphError (option IndexValue) := Ok None.

Definition node_end (p : EndPosition) : EdgeEndpointRegistration :=
  mkEndpointReg p (Concrete "Node") None.

Definition link : EdgeRegistration Payload :=
  mkEdgeRegistration _ "Link" Directed Unique IntersectAdjacency (node_end PosA) (node_end PosB)
    None Eager RejectLoops CascadeEdge RestrictEndpointDelete extract_ends no_scope None.
Definition peer : EdgeRegistration Payload :=
  mkEdgeRegistration _ "Peer" Undirected Parallel PairEager (node_end PosA) (node_end PosB)
    (Some "Zone") DemandDriven AllowLoops CascadeEdge CascadeEdge extract_ends extract_scope_of None.
Definition cold : EdgeRegistration Payload :=
  mkEdgeRegistration _ "Cold" Directed Parallel IntersectAdjacency (node_end PosA) (node_end PosB)
    None DemandDriven AllowLoops CascadeEdge RetainDangling extract_ends no_scope None.

Definition inventory : Inventory (P := Payload) :=
  mkInventory [link; peer; cold] [] ["Placed"] [("Placed", "Node")] ["Node"; "Link"; "Peer"; "Cold"].

Definition graph : GraphIndex Payload :=
  match from_inventory inventory with
  | Ok (Some g) => g
  | _ => mkGraphIndex ∅ ∅ ∅ ∅ ∅
  end.

(** ** Canonical stores *)

Definition node (id : string) : Item Payload := mkItem "Node" id None.
Definition edge (t id a b : string) : Item Payload := mkItem t id (Some (at_node a, at_node b, None)).
Definition zone (z : Byte.byte) : IndexValue := mkIndexValue [z].
Definition scoped (id a b : string) (z : Byte.byte) : Item Payload :=
  mkItem "Peer" id (Some (at_node a, at_node b, Some (zone z))).

Definition registry : StoreRegistry Payload :=
  foldl store_insert ∅
    [node "n1"; node "n2"; node "n3"; node "n4";
     edge "Link" "l1" "n1" "n2"; edge "Link" "l2" "n2" "n3"; edge "Link" "l3" "n1" "n3";
     scoped "p1" "n1" "n2" x01; scoped "p2" "n2" "n1" x02; edge "Cold" "c1" "n4" "n1"].

Definition state : GraphState := (rebuild graph registry).1.

Lemma registrations_fx : registrations_ok graph.
Proof. by apply registrations_okb_spec; vm_compute. Qed.
Lemma registry_fx : registry_ok registry.
Proof. by apply registry_okb_spec; vm_compute. Qed.
Lemma graph_fx : graph_ok graph registry state.
Proof. unfold state. by apply rebuild_checked; vm_compute. Qed.
Lemma unique_fx : unique_pairs graph registry.
Proof. by apply unique_pairsb_spec; vm_compute. Qed.
Lemma link_scopes : scopes_ok link.
Proof. intros _ item s E. unfold link, no_scope in E. cbn in E. congruence. Qed.
End Fx.

(** ** An instance of the reactive map *)

Fixpoint fx_apply {V} (d : MapDiff V) (m : gmap string V) : gmap string V :=
  match d with
  | Initial entries => list_to_map entries
  | Insert key value => <[key := value]> m
  | Remove key _ => delete key m
  | Update key _ new => <[key := new]> m
  | Batch changes => foldl (λ m d, fx_apply d m) m changes
  end.
#[export] Instance fx_cellmap V : CellMap V.
Proof. by refine {| apply_diff := fx_apply |}. Defined.
