(* ===== verification/GraphTheorems.v ===== *)
(** * Properties of the graph index

    The theorems about [core/src/core/graph.rs]: the projections follow the canonical stores,
    the queries agree with scans of the stores, validation accepts exactly the valid edges,
    and endpoint deletion plans the incident edges; each with an instance at the graph of
    [Fixtures]. *)

From Stdlib Require Import Strings.Byte.
From stdpp Require Import base strings numbers option countable gmap sets list.
From S2P Require Import Prelude Order GraphTypes EdgeIds GraphIndex GraphQuery GraphPreflight Fixtures.

(** ** Projections *)

(** C1: Updating the index mutation by mutation gives the projections of a rebuild: after
    any sequence of coordinated mutations from an index that projects its stores, rebuilding
    from the stores reached succeeds, and every registered type's edges, adjacency and pair
    projections are those of the rebuilt index. *)
Theorem incremental_matches_rebuild {P} (g : GraphIndex P) s s' :
  registrations_ok g → registry_ok s.1 → graph_ok g s.1 s.2 → rtc (mutates g) s s' →
  ∃ st n, rebuild g s'.1 = (st, Ok n) ∧
    ∀ t r, registration g t = Some r → projections (edge_state s'.2 t) = projections (edge_state st t).
Proof.
  intros R W G M. destruct (mutates_ok g s s' R M (conj W G)) as [W' G'].
  destruct (rebuild_ok g s'.1 R W') as (st & n & E & B); [intros t r Hr; by apply (G' t r)|].
  exists st, n. split; [done|]. intros t r Hr.
  by eapply index_ok_unique; [apply (G' _ _ Hr)|apply (B _ _ Hr)].
Qed.

(** Moving [l1] and deleting [c1] from the rebuilt index. *)
Lemma incremental_matches_rebuild_witness :
  ∃ s', rtc (mutates Fx.graph) (Fx.registry, Fx.state) s' ∧
  ∃ st n, rebuild Fx.graph s'.1 = (st, Ok n) ∧
    ∀ t r, registration Fx.graph t = Some r → projections (edge_state s'.2 t) = projections (edge_state st t).
Proof.
  set (moved := Fx.edge "Link" "l1" "n2" "n1"). set (gone := Fx.edge "Cold" "c1" "n4" "n1").
  set (st1 := (apply Fx.graph Fx.state (lookup_item Fx.registry "Link" "l1") (Some moved)).1).
  set (reg1 := reduce Fx.registry SET moved).
  set (st2 := (apply Fx.graph st1 (lookup_item reg1 "Cold" "c1") None).1).
  assert (rtc (mutates Fx.graph) (Fx.registry, Fx.state) (reduce reg1 DEL gone, st2)) as M.
  { eapply rtc_l; [|eapply rtc_l; [|apply rtc_refl]].
    - apply (mutates_computed _ Fx.registry Fx.state SET moved). vm_compute. reflexivity.
    - apply (mutates_computed _ reg1 st1 DEL gone). vm_compute. reflexivity. }
  eexists. split; [exact M|].
  apply (incremental_matches_rebuild Fx.graph (Fx.registry, Fx.state)); [apply Fx.registrations_fx|apply Fx.registry_fx|
    apply Fx.graph_fx|exact M].
Defined.

(** A mutation whose item does not extract leaves the index without the replaced edge:
    when [apply] fails on the new value, the projections are those of the canonical store
    with the item's id deleted, whatever the store now holds under that id. *)
Theorem failed_apply_drops_the_old_edge {P} (g : GraphIndex P) registry st item r st' e :
  registrations_ok g → registry_ok registry → graph_ok g registry st →
  registration g (item_type item) = Some r → is_ok (indexed r item) = false →
  apply g st (lookup_item registry (item_type item) (item_id item)) (Some item) = (st', Err e) →
  graph_ok g (store_remove registry (item_type item) (item_id item)) st' ∧ gs_generation st' = gs_generation st.
Proof.
  intros R W G Hr X A. rewrite lookup_get_or_create in A. by eapply apply_failed; [..|exact A].
Qed.

(** A [Link] that does not carry its ends, over [l1]. *)
Lemma failed_apply_drops_the_old_edge_witness :
  let bad := mkItem "Link" "l1" None : Item Fx.Payload in
  ∃ st' e, apply Fx.graph Fx.state (lookup_item Fx.registry (item_type bad) (item_id bad)) (Some bad) = (st', Err e) ∧
    graph_ok Fx.graph (store_remove Fx.registry (item_type bad) (item_id bad)) st' ∧
    gs_generation st' = gs_generation Fx.state.
Proof.
  intros bad.
  assert (is_ok (apply Fx.graph Fx.state (lookup_item Fx.registry (item_type bad) (item_id bad)) (Some bad)).2 = false)
    as N by (vm_compute; reflexivity).
  destruct (apply _ _ _ _) as [st' [n|e]] eqn:A; [discriminate N|]. exists st', e. split; [reflexivity|].
  exact (failed_apply_drops_the_old_edge Fx.graph Fx.registry Fx.state bad Fx.link st' e Fx.registrations_fx
    Fx.registry_fx Fx.graph_fx eq_refl eq_refl A).
Defined.

(** ** Queries *)

(** C2: At an endpoint, the ids found are exactly those of the stored edges with that end,
    each once, whether the type is projected there or scanned; the count is their number
    and the existence test tells whether there are any. *)
Theorem endpoint_queries_agree_with_scan {P} (g : GraphIndex P) registry st counters t r position endpoint :
  registrations_ok g → registry_ok registry → graph_ok g registry st → registration g t = Some r →
  let ids := (edge_ids_at g st registry counters t position endpoint).2 in
  selected (get_or_create registry t) (matches_at r position endpoint) ids ∧
  edge_count_at g st registry t position endpoint = len ids ∧
  has_edge_at g st registry t position endpoint = negb (bool_decide (ids = [])).
Proof.
  intros R W G Hr ids. split_and!.
  - by apply edge_ids_at_selected.
  - apply edge_count_at_ids.
  - apply has_edge_at_ids.
Qed.

Lemma endpoint_queries_agree_with_scan_witness :
  let ids := (edge_ids_at Fx.graph Fx.state Fx.registry ∅ "Link" PosA (Fx.at_node "n1")).2 in
  selected (get_or_create Fx.registry "Link") (matches_at Fx.link PosA (Fx.at_node "n1")) ids ∧
  edge_count_at Fx.graph Fx.state Fx.registry "Link" PosA (Fx.at_node "n1") = len ids ∧
  has_edge_at Fx.graph Fx.state Fx.registry "Link" PosA (Fx.at_node "n1") = negb (bool_decide (ids = [])).
Proof.
  apply endpoint_queries_agree_with_scan; [apply Fx.registrations_fx|apply Fx.registry_fx|apply Fx.graph_fx|].
  vm_compute. reflexivity.
Defined.

(** C3: Between two endpoints, the pair projection, the intersection of adjacency buckets,
    the one-sided candidate set and the scan all find exactly the stored edges that join
    them (in either order for an undirected type), and count and existence agree; within a
    scope they find exactly those of that scope. *)
Theorem pair_queries_agree_with_scan {P} (g : GraphIndex P) registry st t r a b :
  registrations_ok g → registry_ok registry → graph_ok g registry st → registration g t = Some r →
  (scopes_ok r →
   let ids := edge_ids_between g st registry t a b in
   selected (get_or_create registry t) (matches_between r a b) ids ∧
   edge_count_between g st registry t a b = len ids ∧
   has_edge_between g st registry t a b = negb (bool_decide (ids = []))) ∧
  ∀ scope,
   let ids := edge_ids_between_in_scope g st registry t a b scope in
   selected (get_or_create registry t) (matches_between_in_scope r a b scope) ids ∧
   edge_count_between_in_scope g st registry t a b scope = len ids ∧
   has_edge_between_in_scope g st registry t a b scope = negb (bool_decide (ids = [])).
Proof.
  intros R W G Hr. split; [intros So ids|intros scope ids]; split_and!.
  - by apply edge_ids_between_selected.
  - apply edge_count_between_ids.
  - apply has_edge_between_ids.
  - by apply edge_ids_between_in_scope_selected.
  - apply edge_count_between_in_scope_ids.
  - apply has_edge_between_in_scope_ids.
Qed.

(** The links between [n1] and [n2], and the undirected [Peer] from [n2] to [n1] in the first
    zone, which is [p1]. *)
Lemma pair_queries_agree_with_scan_witness :
  selected (get_or_create Fx.registry "Link") (matches_between Fx.link (Fx.at_node "n1") (Fx.at_node "n2"))
    (edge_ids_between Fx.graph Fx.state Fx.registry "Link" (Fx.at_node "n1") (Fx.at_node "n2")) ∧
  edge_ids_between_in_scope Fx.graph Fx.state Fx.registry "Peer" (Fx.at_node "n2") (Fx.at_node "n1") (Fx.zone x01)
    = ["p1"] ∧
  selected (get_or_create Fx.registry "Peer")
    (matches_between_in_scope Fx.peer (Fx.at_node "n2") (Fx.at_node "n1") (Fx.zone x01)) ["p1"].
Proof.
  destruct (pair_queries_agree_with_scan Fx.graph Fx.registry Fx.state "Link" Fx.link (Fx.at_node "n1") (Fx.at_node "n2")
    Fx.registrations_fx Fx.registry_fx Fx.graph_fx eq_refl) as [L _].
  destruct (pair_queries_agree_with_scan Fx.graph Fx.registry Fx.state "Peer" Fx.peer (Fx.at_node "n2") (Fx.at_node "n1")
    Fx.registrations_fx Fx.registry_fx Fx.graph_fx eq_refl) as [_ Z].
  split; [exact (proj1 (L Fx.link_scopes))|]. split; [vm_compute; reflexivity|]. exact (proj1 (Z (Fx.zone x01))).
Defined.

(** A lookup at several endpoints finds the edges whose end is one of them, each once,
    and the incident lookup those with the endpoint at either end. *)
Theorem multi_endpoint_queries_agree_with_scan {P} (g : GraphIndex P) registry st counters t r position endpoints endpoint :
  registrations_ok g → registry_ok registry → graph_ok g registry st → registration g t = Some r →
  selected (get_or_create registry t) (matches_any_at r position endpoints)
    (edge_ids_many_at g st registry counters t position endpoints).2 ∧
  selected (get_or_create registry t) (matches_incident r endpoint)
    (incident_ids g st registry counters t endpoint).2.
Proof.
  intros R W G Hr. split; [by apply edge_ids_many_at_selected|by apply incident_ids_selected].
Qed.

Lemma multi_endpoint_queries_agree_with_scan_witness :
  selected (get_or_create Fx.registry "Link") (matches_any_at Fx.link PosB {[Fx.at_node "n2"; Fx.at_node "n3"]})
    (edge_ids_many_at Fx.graph Fx.state Fx.registry ∅ "Link" PosB {[Fx.at_node "n2"; Fx.at_node "n3"]}).2 ∧
  selected (get_or_create Fx.registry "Link") (matches_incident Fx.link (Fx.at_node "n2"))
    (incident_ids Fx.graph Fx.state Fx.registry ∅ "Link" (Fx.at_node "n2")).2.
Proof.
  apply multi_endpoint_queries_agree_with_scan; [apply Fx.registrations_fx|apply Fx.registry_fx|apply Fx.graph_fx|].
  vm_compute. reflexivity.
Defined.

(** ** Validation *)

(** C4: An authoritative preflight of a new value succeeds exactly when the edge is valid
    with respect to the canonical stores: both ends of an accepted type and existing, no
    forbidden self-loop, the domain validator content, and, for a unique type, no other
    stored edge with the same pair and scope. *)
Theorem authoritative_preflight_accepts_valid_edges {P} (g : GraphIndex P) registry st old item r mode :
  registrations_ok g → graph_ok g registry st → registration g (item_type item) = Some r →
  effective_apply_mode g (edge_type r) mode = Authoritative →
  (preflight g registry st old (Some item) mode).2 = Ok tt ↔ candidate_valid g registry r item ∅.
Proof. intros R G Hr M. by apply preflight_ignoring_spec. Qed.

(** A second [Link] from [n1] to [n2] is refused, so it is not valid. *)
Lemma authoritative_preflight_accepts_valid_edges_witness :
  ¬ candidate_valid Fx.graph Fx.registry Fx.link (Fx.edge "Link" "l9" "n1" "n2") ∅ ∧
  candidate_valid Fx.graph Fx.registry Fx.link (Fx.edge "Link" "l9" "n2" "n1") ∅.
Proof.
  split.
  - intros V. apply (authoritative_preflight_accepts_valid_edges Fx.graph Fx.registry Fx.state None
      (Fx.edge "Link" "l9" "n1" "n2") Fx.link Authoritative Fx.registrations_fx Fx.graph_fx eq_refl eq_refl) in V.
    vm_compute in V. discriminate V.
  - apply (authoritative_preflight_accepts_valid_edges Fx.graph Fx.registry Fx.state None
      (Fx.edge "Link" "l9" "n2" "n1") Fx.link Authoritative Fx.registrations_fx Fx.graph_fx eq_refl eq_refl).
    vm_compute. reflexivity.
Defined.

(** In every other mode a preflight accepts any new value; in all modes it leaves the
    projections alone, and counts one invalid mutation exactly when the edge is invalid. *)
Theorem preflight_counts_invalid_mutations {P} (g : GraphIndex P) registry st old item r mode :
  registrations_ok g → graph_ok g registry st → registration g (item_type item) = Some r →
  let '(st', outcome) := preflight g registry st old (Some item) mode in
  same_index st st' ∧
  (effective_apply_mode g (edge_type r) mode ≠ Authoritative → outcome = Ok tt) ∧
  (candidate_valid g registry r item ∅ → st' = st ∧ outcome = Ok tt) ∧
  (¬ candidate_valid g registry r item ∅ → gs_invalid_mutations st' = sat_add (gs_invalid_mutations st) 1).
Proof.
  intros R G Hr. pose proof (preflight_ignoring_same g registry st old (Some item) mode ∅) as S.
  pose proof (preflight_ignoring_lenient g registry st old item r mode ∅ Hr) as L.
  pose proof (preflight_ignoring_counts g registry st old item r mode ∅ G R Hr) as C.
  unfold preflight. by destruct (preflight_ignoring _ _ _ _ _ _ _) as [st' outcome].
Qed.

Lemma preflight_counts_invalid_mutations_witness :
  let '(st', outcome) := preflight Fx.graph Fx.registry Fx.state None (Some (Fx.edge "Link" "l9" "n1" "n2")) Import in
  same_index Fx.state st' ∧
  (effective_apply_mode Fx.graph (edge_type Fx.link) Import ≠ Authoritative → outcome = Ok tt) ∧
  (candidate_valid Fx.graph Fx.registry Fx.link (Fx.edge "Link" "l9" "n1" "n2") ∅ → st' = Fx.state ∧ outcome = Ok tt) ∧
  (¬ candidate_valid Fx.graph Fx.registry Fx.link (Fx.edge "Link" "l9" "n1" "n2") ∅ →
     gs_invalid_mutations st' = sat_add (gs_invalid_mutations Fx.state) 1).
Proof.
  exact (preflight_counts_invalid_mutations Fx.graph Fx.registry Fx.state None (Fx.edge "Link" "l9" "n1" "n2")
    Fx.link Import Fx.registrations_fx Fx.graph_fx eq_refl).
Defined.

(** A replacement batch accepted by an authoritative preflight keeps pairs unique: if no
    two stored edges of a unique type share a pair and scope, none do after the deletions
    and upserts, even when an upsert takes the pair of a deleted edge. *)
Theorem accepted_replacement_keeps_pairs_unique {P} (g : GraphIndex P) registry st upserts deletes mode :
  registrations_ok g → graph_ok g registry st → unique_pairs g registry →
  NoDup (item_key <$> upserts) →
  (∀ x r, x ∈ upserts → registration g (item_type x) = Some r →
     effective_apply_mode g (edge_type r) mode = Authoritative) →
  (preflight_replace_batch g registry st upserts deletes mode).2 = Ok tt →
  unique_pairs g (replace_registry registry upserts deletes).
Proof.
  intros R G U ND M A. apply (preflight_replace_ok g registry st) in A as (X & B & V); [|done..].
  by apply replace_unique_pairs.
Qed.

(** [l9] takes the pair of the deleted [l1]. *)
Lemma accepted_replacement_keeps_pairs_unique_witness :
  unique_pairs Fx.graph (replace_registry Fx.registry [Fx.edge "Link" "l9" "n1" "n2"] [Fx.edge "Link" "l1" "n1" "n2"]).
Proof.
  apply (accepted_replacement_keeps_pairs_unique Fx.graph Fx.registry Fx.state _ _ Authoritative
    Fx.registrations_fx Fx.graph_fx Fx.unique_fx).
  - apply NoDup_singleton.
  - intros x r Hx Hr. reflexivity.
  - vm_compute. reflexivity.
Defined.

(** A replacement that exchanges the pairs of two edges is refused although its final
    state has every pair once: the upsert of each is checked against the pair the other
    still holds, since only the ids of deleted edges are ignored. *)
Theorem replacement_swap_is_rejected :
  let swap := [Fx.edge "Link" "l1" "n2" "n3"; Fx.edge "Link" "l2" "n1" "n2"] in
  (preflight_replace_batch Fx.graph Fx.registry Fx.state swap [] Authoritative).2
    = Err (ErrPairOccupied "Link" "l2") ∧
  unique_pairs Fx.graph (replace_registry Fx.registry swap []).
Proof. intros swap. split; [by vm_compute|]. by apply unique_pairsb_spec; vm_compute. Qed.

(** C5: Deleting an endpoint fails exactly when some stored edge is incident at a role
    that restricts deletion, whatever cascades elsewhere; otherwise the plan is exactly the
    canonical items of the edges incident at a cascading role. *)
Theorem endpoint_delete_plan_is_exact {P} (g : GraphIndex P) registry st endpoint :
  registrations_ok g → registry_ok registry → graph_ok g registry st →
  match endpoint_delete_plan g st registry endpoint with
  | Ok plan =>
      (∀ t id, ¬ incident_edge g registry endpoint RestrictEndpointDelete t id) ∧
      ∀ x, x ∈ plan ↔ incident_edge g registry endpoint CascadeEdge (item_type x) (item_id x) ∧
                      lookup_item registry (item_type x) (item_id x) = Some x
  | Err _ => ∃ t id, incident_edge g registry endpoint RestrictEndpointDelete t id
  end.
Proof. intros R W G. by apply endpoint_delete_plan_spec. Qed.

(** [n2] is the restricting end of [l1]; deleting [n1] would cascade. *)
Lemma endpoint_delete_plan_is_exact_witness :
  (∃ t id, incident_edge Fx.graph Fx.registry (mkEntityRef "Node" "n2") RestrictEndpointDelete t id) ∧
  ∀ t id, ¬ incident_edge Fx.graph Fx.registry (mkEntityRef "Node" "n1") RestrictEndpointDelete t id.
Proof.
  pose proof (endpoint_delete_plan_is_exact Fx.graph Fx.registry Fx.state (mkEntityRef "Node" "n2")
    Fx.registrations_fx Fx.registry_fx Fx.graph_fx) as H2.
  pose proof (endpoint_delete_plan_is_exact Fx.graph Fx.registry Fx.state (mkEntityRef "Node" "n1")
    Fx.registrations_fx Fx.registry_fx Fx.graph_fx) as H1.
  split.
  - destruct (endpoint_delete_plan _ _ _ (mkEntityRef "Node" "n2")) as [plan|e] eqn:E; [|exact H2].
    exfalso. assert (is_ok (endpoint_delete_plan Fx.graph Fx.state Fx.registry (mkEntityRef "Node" "n2")) = false)
      as N by (vm_compute; reflexivity). rewrite E in N. discriminate N.
  - destruct (endpoint_delete_plan _ _ _ (mkEntityRef "Node" "n1")) as [plan|e] eqn:E; [exact (proj1 H1)|].
    exfalso. assert (is_ok (endpoint_delete_plan Fx.graph Fx.state Fx.registry (mkEntityRef "Node" "n1")) = true)
      as N by (vm_compute; reflexivity). rewrite E in N. discriminate N.
Defined.
