(* ===== verification/TraversalTheorems.v ===== *)
(** * Properties of bounded traversal

    The theorems about [run_bounded_traversal], [traversal_path] and [traverse_bounded] of
    [core/src/core/graph.rs], with instances at the graph of [Fixtures]. *)

From stdpp Require Import base strings numbers option countable gmap sets list.
From S2P Require Import Prelude Order GraphTypes EdgeIds GraphIndex GraphQuery GraphTraversal TraversalProof Fixtures.

(** Requests over the fixture, from [n1]. *)
Definition fx_request (direction : Direction) (target : option EntityRef) : TraversalRequest :=
  mkTraversalRequest (mkEntityRef "Node" "n1") direction None 3 10 20 true target true.

Lemma fx_bounds direction target : bounds_ok (fx_request direction target).
Proof. split; simpl; unfold usize_max, u64_max; lia. Qed.

Definition fx_links (node : EntityRef) : list (string * EntityRef) :=
  demand_neighbors Fx.registry Fx.link Forward None node.

(** C6: A traversal always returns; every node it lists differs from the start and is
    reached by a walk of at most [max_depth] edges, every edge id it lists leaves the start
    or a listed node, the nodes are sorted without repetition, and there are at most
    [max_nodes] nodes and [max_edges] edge ids. *)
Theorem traversal_returns_reachable_nodes request neighbors :
  bounds_ok request →
  ∃ run, run_bounded_traversal request neighbors = Some run ∧
    sorted (tr_nodes (run_result run)) ∧
    (∀ v, v ∈ tr_nodes (run_result run) →
       v ≠ rq_start request ∧ ∃ k, walk request neighbors k v ∧ (Z.of_nat k ≤ rq_max_depth request)%Z) ∧
    (∀ id, id ∈ tr_edge_ids (run_result run) →
       ∃ u w, (u = rq_start request ∨ u ∈ tr_nodes (run_result run)) ∧ (id, w) ∈ neighbors u) ∧
    (len (tr_nodes (run_result run)) ≤ rq_max_nodes request)%Z ∧
    (len (tr_edge_ids (run_result run)) ≤ rq_max_edges request)%Z.
Proof.
  intros B. destruct (run_bounded_traversal_ok request neighbors B) as (run & E & Ok).
  exists run. split; [done|]. split_and!; apply Ok.
Qed.

Lemma traversal_returns_reachable_nodes_witness :
  ∃ run, run_bounded_traversal (fx_request Forward None) fx_links = Some run ∧
    sorted (tr_nodes (run_result run)) ∧
    (∀ v, v ∈ tr_nodes (run_result run) →
       v ≠ rq_start (fx_request Forward None) ∧ ∃ k, walk (fx_request Forward None) fx_links k v ∧
         (Z.of_nat k ≤ rq_max_depth (fx_request Forward None))%Z) ∧
    (∀ id, id ∈ tr_edge_ids (run_result run) →
       ∃ u w, (u = rq_start (fx_request Forward None) ∨ u ∈ tr_nodes (run_result run)) ∧ (id, w) ∈ fx_links u) ∧
    (len (tr_nodes (run_result run)) ≤ rq_max_nodes (fx_request Forward None))%Z ∧
    (len (tr_edge_ids (run_result run)) ≤ rq_max_edges (fx_request Forward None))%Z.
Proof. exact (traversal_returns_reachable_nodes (fx_request Forward None) fx_links (fx_bounds Forward None)). Defined.

(** C7: Without truncation and without a match, nothing in range is missed: every node
    reached by a walk of at most [max_depth] edges is the start or listed, the target is not
    among them, and, when edges are collected, so is every edge leaving a node reached by
    fewer than [max_depth] edges. *)
Theorem untruncated_traversal_is_complete request neighbors run k v :
  bounds_ok request → run_bounded_traversal request neighbors = Some run →
  tr_truncated (run_result run) = false → run_matched run = false →
  walk request neighbors k v → (Z.of_nat k ≤ rq_max_depth request)%Z →
  (v = rq_start request ∨ v ∈ tr_nodes (run_result run)) ∧ rq_target request ≠ Some v ∧
  ((Z.of_nat k < rq_max_depth request)%Z → rq_collect_edges request = true →
     ∀ id w, (id, w) ∈ neighbors v → id ∈ tr_edge_ids (run_result run)).
Proof.
  intros B E T M W Hk. destruct (run_bounded_traversal_ok request neighbors B) as (run' & E' & Ok).
  rewrite E in E'. injection E' as <-. by apply Ok.
Qed.

(** From [n1], [n3] is two links away. *)
Lemma untruncated_traversal_is_complete_witness :
  ∃ run, run_bounded_traversal (fx_request Forward None) fx_links = Some run ∧
    mkEntityRef "Node" "n3" ∈ tr_nodes (run_result run).
Proof.
  destruct (run_bounded_traversal (fx_request Forward None) fx_links) as [run|] eqn:E.
  2: { exfalso. vm_compute in E. discriminate E. }
  exists run. split; [reflexivity|].
  destruct (untruncated_traversal_is_complete (fx_request Forward None) fx_links run 2 (mkEntityRef "Node" "n3")
    (fx_bounds Forward None) E) as [[H|H] _]; [..|exact H].
  - vm_compute in E. injection E as <-. reflexivity.
  - vm_compute in E. injection E as <-. reflexivity.
  - apply (walk_step _ _ 1 (mkEntityRef "Node" "n2") _ "l2"); [apply (walk_step _ _ 0 (mkEntityRef "Node" "n1") _ "l1")|].
    + apply (walk_start (fx_request Forward None)).
    + apply (bool_decide_eq_true_1 (_ ∈ _)). vm_compute. reflexivity.
    + apply (bool_decide_eq_true_1 (_ ∈ _)). vm_compute. reflexivity.
  - simpl. lia.
  - discriminate H.
Defined.

(** C8: A match is at its shortest distance: when the target is matched it is reached by
    a walk within [max_depth], no shorter walk reaches it, and a recorded path leads from
    the start to it along consecutive edges, with that minimal number of edges. *)
Theorem matched_path_is_shortest request neighbors run :
  bounds_ok request → run_bounded_traversal request neighbors = Some run → run_matched run = true →
  ∃ t d, rq_target request = Some t ∧ walk request neighbors d t ∧ (Z.of_nat d ≤ rq_max_depth request)%Z ∧
    (∀ k, walk request neighbors k t → d ≤ k) ∧
    (rq_record_path request = true → ∃ p, run_path run = Some p ∧ path_ok request neighbors p t d).
Proof.
  intros B E M. destruct (run_bounded_traversal_ok request neighbors B) as (run' & E' & Ok).
  rewrite E in E'. injection E' as <-. by apply Ok.
Qed.

Lemma matched_path_is_shortest_witness :
  let request := fx_request Forward (Some (mkEntityRef "Node" "n3")) in
  ∃ run t d, run_bounded_traversal request fx_links = Some run ∧
    run_path run = Some (mkTraversalPath [mkEntityRef "Node" "n1"; mkEntityRef "Node" "n3"] ["l3"]) ∧
    rq_target request = Some t ∧ walk request fx_links d t ∧
    (∀ k, walk request fx_links k t → d ≤ k).
Proof.
  intros request. destruct (run_bounded_traversal request fx_links) as [run|] eqn:E.
  2: { exfalso. vm_compute in E. discriminate E. }
  destruct (matched_path_is_shortest request fx_links run (fx_bounds _ _) E) as (t & d & Ht & W & _ & Min & _).
  { vm_compute in E. injection E as <-. reflexivity. }
  exists run, t, d. split_and!; [reflexivity| |exact Ht|exact W|exact Min].
  vm_compute in E. injection E as <-. reflexivity.
Defined.

(** The adjacency policy does not change what a traversal returns: whether the type is
    projected or scanned, the run is that of the search over the canonical stores, provided
    that, when a directed type is followed in reverse, no stored edge has the same entity at
    both ends. *)
Theorem traversal_is_independent_of_projection {P} (g : GraphIndex P) registry st t r request :
  registrations_ok g → registry_ok registry → graph_ok g registry st → registration g t = Some r →
  no_reverse_loops r (rq_direction request) (get_or_create registry t) →
  traverse_bounded g st registry t request
    = run_bounded_traversal request (demand_neighbors registry r (rq_direction request) (rq_scope request)).
Proof. intros R W G Hr N. by apply traverse_bounded_demand. Qed.

Lemma traversal_is_independent_of_projection_witness :
  traverse_bounded Fx.graph Fx.state Fx.registry "Link" (fx_request Forward None)
    = run_bounded_traversal (fx_request Forward None) (demand_neighbors Fx.registry Fx.link Forward None).
Proof.
  apply (traversal_is_independent_of_projection Fx.graph Fx.registry Fx.state "Link" Fx.link (fx_request Forward None)
    Fx.registrations_fx Fx.registry_fx Fx.graph_fx eq_refl).
  intros id item e _ _ [F _]. discriminate F.
Defined.

(** ** Where the two neighbour functions differ *)

(** A self-loop on a scanned type, and the same type projected at both ends. *)
Definition loop_registry : StoreRegistry Fx.Payload := store_insert Fx.registry (Fx.edge "Cold" "c9" "n1" "n1").
Definition eager_graph : GraphIndex Fx.Payload :=
  match from_inventory (mkInventory [Fx.cold] [("Cold", (Eager, Eager))] [] [] ["Node"; "Cold"]) with
  | Ok (Some g) => g
  | _ => Fx.graph
  end.

(** In reverse over a directed type, an edge from an entity to itself is listed when
    the type is projected and omitted when it is scanned, so the edge ids returned (and the
    [max_edges] budget used) depend on the adjacency policy. *)
Theorem reverse_self_loop_depends_on_projection :
  (tr_edge_ids ∘ run_result <$> traverse_bounded eager_graph (rebuild eager_graph loop_registry).1 loop_registry
     "Cold" (fx_request Reverse None)) = Some ["c1"; "c9"] ∧
  (tr_edge_ids ∘ run_result <$> traverse_bounded Fx.graph (rebuild Fx.graph loop_registry).1 loop_registry
     "Cold" (fx_request Reverse None)) = Some ["c1"].
Proof. split; by vm_compute. Qed.
