(* ===== verification/WatchTheorems.v ===== *)
(** * Properties of live watches and windows

    The theorems about the watch router, the live maps, counts and windows of
    [core/src/core/graph.rs], with instances at the graph of [Fixtures]. *)

From Stdlib Require Import Strings.Byte.
From stdpp Require Import base strings numbers option countable gmap sets list.
From S2P Require Import Prelude Order GraphTypes EdgeIds GraphIndex GraphQuery GraphWatch WatchProof GraphWindow WindowProof Fixtures.

(** ** Live maps *)

(** C9: A live map follows the store: if it holds the store's edges that the watch selects,
    then after any diff of the store is published, and the callbacks the router chose have
    run, it holds those of the new store. *)
Theorem live_map_follows_store {P CB} `{!CellMap (Item P)} `{EqDecision CB}
    (g : GraphIndex P) (w w' : GraphWatchRouter CB) r s id cb d m runs :
  router_ok w → subscribed w r s id cb → typed_extract g r → no_initial d = true → diff_valid d m →
  publish_watch_diff g w d = (w', Ok runs) →
  deliver r s cb runs (select (watch_matches r (selector_matches r s)) m)
    = select (watch_matches r (selector_matches r s)) (apply_diff d m).
Proof. intros W S T N V A. by eapply published_diff_reaches_watch. Qed.

(** The links from [n1], watched, when [l1] moves to [n2] and [l2] is deleted. *)
Definition fx_watch : WatchSelector := WatchAt PosA (Fx.at_node "n1").
Definition fx_router : GraphWatchRouter nat := (subscribe_many router_default (selector_routes Fx.link fx_watch) 7).1.
Definition fx_diff : MapDiff (Item Fx.Payload) :=
  Batch [Update "l1" (Fx.edge "Link" "l1" "n1" "n2") (Fx.edge "Link" "l1" "n2" "n1");
         Remove "l2" (Fx.edge "Link" "l2" "n2" "n3")].
Definition fx_extract_typed (item : Item Fx.Payload) : result GraphError EdgeEndpoints :=
  if bool_decide (item_type item = "Link") then Fx.extract_ends item else Err (ErrMsg "graph edge item type mismatch").
Definition fx_typed_link : EdgeRegistration Fx.Payload :=
  mkEdgeRegistration _ "Link" Directed Unique IntersectAdjacency (Fx.node_end PosA) (Fx.node_end PosB)
    None Eager RejectLoops CascadeEdge RestrictEndpointDelete fx_extract_typed Fx.no_scope None.
Definition fx_typed_graph : GraphIndex Fx.Payload := mkGraphIndex {["Link" := fx_typed_link]} ∅ ∅ ∅ ∅.

Lemma live_map_follows_store_witness :
  ∃ w' runs, publish_watch_diff fx_typed_graph fx_router fx_diff = (w', Ok runs) ∧
    deliver fx_typed_link fx_watch 7 runs
        (select (watch_matches fx_typed_link (selector_matches fx_typed_link fx_watch)) (get_or_create Fx.registry "Link"))
      = select (watch_matches fx_typed_link (selector_matches fx_typed_link fx_watch))
          (apply_diff fx_diff (get_or_create Fx.registry "Link")).
Proof.
  destruct (publish_watch_diff fx_typed_graph fx_router fx_diff) as [w' [runs|e]] eqn:A.
  2: { exfalso. assert (is_ok (publish_watch_diff fx_typed_graph fx_router fx_diff).2 = true) as N by (vm_compute; reflexivity).
       rewrite A in N. discriminate N. }
  exists w', runs. split; [reflexivity|].
  apply (live_map_follows_store fx_typed_graph fx_router w' fx_typed_link fx_watch 0 7 fx_diff).
  - apply subscribe_ok; [apply router_default_ok|]. unfold u64_max. simpl. lia.
  - apply (subscribe_subscribed router_default fx_typed_link fx_watch 7); [apply router_default_ok|discriminate|].
    intros route ls id E. vm_compute in E. discriminate E.
  - intros item e X. unfold fx_typed_link, fx_extract_typed in X. cbn in X. case_bool_decide as T; [|discriminate X].
    unfold registration, fx_typed_graph. simpl. rewrite T. apply lookup_singleton_eq.
  - reflexivity.
  - repeat split; vm_compute; reflexivity.
  - exact A.
Defined.

(** Opening a watch, at one endpoint, at several, between two or incident to one, gives
    the map of the stored edges it selects, on projected and on demand-driven types alike,
    and subscribes its callback under the routes of that selection. *)
Theorem watch_opens_with_the_stored_edges {P CB} `{!CellMap (Item P)} (g : GraphIndex P) registry st counters
    (w : GraphWatchRouter CB) t r s cb :
  registrations_ok g → registry_ok registry → graph_ok g registry st → registration g t = Some r → scopes_ok r →
  ∃ w' guard counters', watch g st registry counters w t s cb =
      Ok (w', guard, counters', select (watch_matches r (selector_matches r s)) (get_or_create registry t)) ∧
    (w', guard) = subscribe_many w (selector_routes r s) cb.
Proof.
  intros R W G Hr So. destruct (watch_opens g registry st counters w t r s cb R W G Hr So) as [c E].
  eexists _, _, c. split; [exact E|]. by destruct (subscribe_many w (selector_routes r s) cb).
Qed.

Lemma watch_opens_with_the_stored_edges_witness :
  ∃ w' guard counters', watch Fx.graph Fx.state Fx.registry ∅ (router_default (CB := nat)) "Link" fx_watch 7 =
      Ok (w', guard, counters',
        select (watch_matches Fx.link (selector_matches Fx.link fx_watch)) (get_or_create Fx.registry "Link")) ∧
    (w', guard) = subscribe_many router_default (selector_routes Fx.link fx_watch) 7.
Proof.
  exact (watch_opens_with_the_stored_edges Fx.graph Fx.registry Fx.state ∅ router_default "Link" Fx.link fx_watch 7
    Fx.registrations_fx Fx.registry_fx Fx.graph_fx eq_refl Fx.link_scopes).
Defined.

(** Counting watches are exact: the number a watch at an endpoint or between two opens
    with is that of the matching stored edges, and after any diff of the store the
    incremental count is the number of matching edges of the new store, as long as these
    numbers fit in a [usize]. *)
Theorem live_count_follows_store {P CB} `{!CellMap (Item P)} (g : GraphIndex P) registry st counters
    (w : GraphWatchRouter CB) t r cb :
  registrations_ok g → registry_ok registry → graph_ok g registry st → registration g t = Some r → scopes_ok r →
  let m := get_or_create registry t in
  let number s store := count (watch_matches r (selector_matches r s)) store in
  (∀ position endpoint, ∃ w' guard, watch_count_at g st registry counters w t position endpoint cb =
     Ok (w', guard, counters, number (WatchAt position endpoint) m)) ∧
  (∀ a b, ∃ w' guard, watch_count_between g st registry counters w t a b cb =
     Ok (w', guard, counters, number (WatchBetween a b) m)) ∧
  (∀ s d, diff_valid d m → (number s m + Z.of_nat (diff_weight d) ≤ usize_max)%Z →
     (count_callback r s d (number s m)).1 = number s (apply_diff d m)).
Proof.
  intros R W G Hr So m number. split_and!.
  - intros position endpoint. unfold watch_count_at, watch_count_matching. rewrite Hr.
    destruct (subscribe w _ cb) as [w' guard]. exists w', guard. do 2 f_equal.
    rewrite (edge_count_at_ids _ _ _ counters). by apply count_selected, edge_ids_at_selected.
  - intros a b. unfold watch_count_between, watch_count_matching. rewrite Hr.
    destruct (subscribe w _ cb) as [w' guard]. exists w', guard. do 2 f_equal.
    rewrite edge_count_between_ids. by apply count_selected, edge_ids_between_selected.
  - intros s d V B. by apply watch_count_commutes.
Qed.

Lemma live_count_follows_store_witness :
  let number s store := count (watch_matches Fx.link (selector_matches Fx.link s)) store in
  number fx_watch (get_or_create Fx.registry "Link") = 2%Z ∧
  (count_callback Fx.link fx_watch fx_diff (number fx_watch (get_or_create Fx.registry "Link"))).1
    = number fx_watch (apply_diff fx_diff (get_or_create Fx.registry "Link")).
Proof.
  intros number. split; [vm_compute; reflexivity|].
  apply (live_count_follows_store Fx.graph Fx.registry Fx.state ∅ (router_default (CB := nat)) "Link" Fx.link 7
    Fx.registrations_fx Fx.registry_fx Fx.graph_fx eq_refl Fx.link_scopes).
  - repeat split; vm_compute; reflexivity.
  - vm_compute. discriminate.
Defined.

(** A subscription under several routes is called once per dispatch if any of the
    dispatched routes is one of its own, and never otherwise; dropping its guard restores the
    router's routes and its number of subscriptions. *)
Theorem subscription_is_called_once {CB} (w : GraphWatchRouter CB) rs cb dispatched :
  router_ok w → (0 ≤ next_id w < u64_max)%Z → (0 ≤ active_subscriptions w < u64_max)%Z → rs ≠ [] →
  let '(w', guard) := subscribe_many w rs cb in
  (collect_listeners w' dispatched !! next_id w = Some cb ↔ ∃ route, route ∈ dispatched ∧ route ∈ rs) ∧
  routes (unsubscribe w' guard) = routes w ∧ active_subscriptions (unsubscribe w' guard) = active_subscriptions w.
Proof.
  intros W N A Ne. pose proof (subscribe_unsubscribe w rs cb W A) as U.
  pose proof (subscribed_dispatch w rs cb dispatched W N Ne) as D.
  destruct (subscribe_many w rs cb) as [w' guard]. split; [|done]. by apply D.
Qed.

Lemma subscription_is_called_once_witness :
  let '(w', guard) := subscribe_many (router_default (CB := nat)) (selector_routes Fx.link fx_watch) 7 in
  (collect_listeners w' [IncidentRoute "Link" (Fx.at_node "n1"); EndpointRoute "Link" PosA (Fx.at_node "n1")] !! 0%Z = Some 7 ↔
     ∃ route, route ∈ [IncidentRoute "Link" (Fx.at_node "n1"); EndpointRoute "Link" PosA (Fx.at_node "n1")] ∧
       route ∈ selector_routes Fx.link fx_watch) ∧
  routes (unsubscribe w' guard) = routes (router_default (CB := nat)) ∧
  active_subscriptions (unsubscribe w' guard) = active_subscriptions (router_default (CB := nat)).
Proof.
  apply (subscription_is_called_once (router_default (CB := nat)) (selector_routes Fx.link fx_watch) 7).
  - apply router_default_ok.
  - unfold u64_max. simpl. lia.
  - unfold u64_max. simpl. lia.
  - discriminate.
Defined.

(** ** Windows *)

(** The window over several endpoints is the page of the sorted union: the heap merge
    of the buckets returns, within one step per bucket entry, the page an offset or a
    validated cursor selects from the distinct ids in order, and their exact number. *)
Theorem merged_window_is_page_of_union selection buckets :
  Forall EdgeIds.wf buckets →
  (match selection with Cursor w => cursor_validate w = Ok () ∧ (0 ≤ cw_limit w)%Z | Offset _ => True end) →
  (len (all_ids buckets) ≤ u64_max)%Z →
  merge_buckets selection buckets = Some (page_of selection (all_ids buckets), len (all_ids buckets)).
Proof. intros W V L. by apply merge_buckets_spec. Qed.

Lemma merged_window_is_page_of_union_witness :
  merge_buckets (Cursor (cursor_before "e" 2)) [Many ["a"; "c"; "f"]; One "c"; Many ["b"; "d"]] = Some (["c"; "d"], 5%Z).
Proof.
  rewrite (merged_window_is_page_of_union (Cursor (cursor_before "e" 2)) [Many ["a"; "c"; "f"]; One "c"; Many ["b"; "d"]]).
  - vm_compute. reflexivity.
  - assert (sorted ["a"; "c"; "f"] ∧ sorted ["b"; "d"]) as [S1 S2].
    { change (sorted (bt_of_list ["a"; "c"; "f"]) ∧ sorted (bt_of_list ["b"; "d"])). split; apply bt_of_list_sorted. }
    repeat constructor; try exact S1; try exact S2; simpl; lia.
  - split; [reflexivity|]. simpl. lia.
  - vm_compute. discriminate.
Defined.

(** C10: A live window is never stale: the callback that recomputes the page only for the
    diffs that concern it leaves the cell with the page of the new store, whatever the diff
    and the selection. *)
Theorem live_window_follows_store {P} `{!CellMap (Item P)} (r : EdgeRegistration P) p selection d m :
  diff_valid d m →
  let cell := mkWindowCell selection (snapshot_of selection (watch_matches r p) m) in
  let select sel := snapshot_of sel (watch_matches r p) (apply_diff d m) in
  window_callback r p select d cell = mkWindowCell selection (select selection).
Proof.
  intros V cell sel. unfold window_callback. simpl wc_snapshot.
  destruct (watch_diff_affects_window _ _ _ _) eqn:A; [done|]. simpl. unfold cell, sel. f_equal. symmetry.
  by eapply ignored_diff.
Qed.

Lemma live_window_follows_store_witness :
  let p := selector_matches Fx.link fx_watch in
  let selection := Offset (Some (mkQueryWindow 0 1)) in
  let m := get_or_create Fx.registry "Link" in
  let d := Update "l3" (Fx.edge "Link" "l3" "n1" "n3") (Fx.edge "Link" "l3" "n1" "n4") in
  window_callback Fx.link p (λ sel, snapshot_of sel (watch_matches Fx.link p) (apply_diff d m)) d
      (mkWindowCell selection (snapshot_of selection (watch_matches Fx.link p) m))
    = mkWindowCell selection (snapshot_of selection (watch_matches Fx.link p) (apply_diff d m)).
Proof.
  intros p selection m d. apply (live_window_follows_store Fx.link p selection d m). vm_compute. reflexivity.
Defined.

(** The snapshot the graph computes at an endpoint is the page of the canonical store:
    its entries are the stored edges of the selected page of the sorted matching ids, and
    its total is the number of matching edges. *)
Theorem endpoint_window_is_page_of_store {P} (g : GraphIndex P) registry st t r position endpoint selection :
  registrations_ok g → graph_ok g registry st → registration g t = Some r →
  projects_endpoint g t position = true → selection_ok selection →
  (Z.of_nat (size (get_or_create registry t)) ≤ usize_max)%Z →
  window_snapshot_at st registry t position endpoint selection
    = snapshot_of selection (watch_matches r (λ e, bool_decide (end_at position e = endpoint))) (get_or_create registry t).
Proof. intros R G Hr Pj So Sz. by apply (window_snapshot_at_spec g). Qed.

Lemma endpoint_window_is_page_of_store_witness :
  window_snapshot_at Fx.state Fx.registry "Link" PosA (Fx.at_node "n1") (Cursor (cursor_after "l1" 5))
    = snapshot_of (Cursor (cursor_after "l1" 5))
        (watch_matches Fx.link (λ e, bool_decide (end_at PosA e = Fx.at_node "n1"))) (get_or_create Fx.registry "Link").
Proof.
  apply (endpoint_window_is_page_of_store Fx.graph Fx.registry Fx.state "Link" Fx.link PosA (Fx.at_node "n1")
    (Cursor (cursor_after "l1" 5)) Fx.registrations_fx Fx.graph_fx eq_refl).
  - vm_compute. reflexivity.
  - split; [reflexivity|simpl; lia].
  - vm_compute. discriminate.
Defined.

(** On a scoped type with a pair projection, the window between two endpoints misses
    edges: it looks up the pair without a scope while the edges are filed under theirs, so,
    in a store with two edges between the endpoints, it is empty with a total of 0, where
    the lookups between the same endpoints return both edges, or the one of the scope. *)
Theorem scoped_pair_window_is_empty :
  edge_ids_between Fx.graph Fx.state Fx.registry "Peer" (Fx.at_node "n1") (Fx.at_node "n2") = ["p1"; "p2"] ∧
  edge_ids_between_in_scope Fx.graph Fx.state Fx.registry "Peer" (Fx.at_node "n1") (Fx.at_node "n2") (Fx.zone x01) = ["p1"] ∧
  watch_window_between Fx.graph Fx.state Fx.registry "Peer" (Fx.at_node "n1") (Fx.at_node "n2") (mkQueryWindow 0 10)
    = Ok (Some (mkWindowCell (Offset (Some (mkQueryWindow 0 10))) (mkSnapshot [] 0 (Some (mkQueryWindow 0 10))))).
Proof. split_and!; by vm_compute. Qed.
