(* ===== verification/ServerTypes.v ===== *)
(** * State of the server context

    The data of [core/src/server/context.rs], [core/src/server/persister.rs],
    [core/src/core/relationship/mod.rs] and of the tables of
    [core/src/server/relationship_manager.rs]: the mutation pipeline's state [Ctx], and the
    state-and-error monad [M] its operations are written in.

    One [Ctx] is one server context, so the thread-local [CAUSAL_STATES], a stack of causal
    states told apart by their owner, is the [option] of this owner's state.  The code
    outside the repository that the pipeline calls is the record [Env]: the JSON
    serialisation and hash of an item, fresh UUIDs, the item parsers, and the persisters,
    each a function of the events it accepted before.  Calls of the search index are
    recorded in order; the counters of [entity_set_stats] are not modelled. *)

From stdpp Require Import base strings numbers option countable gmap sets list pretty.
From S2P Require Import Prelude Order GraphTypes EdgeIds GraphIndex GraphQuery GraphPreflight GraphWatch.

(** ** Origins and limits *)

Inductive Origin := Local | Cascade | RelationshipFixup | Transient.
#[export] Instance Origin_eq_dec : EqDecision Origin.
Proof. solve_decision. Defined.

Definition should_cascade (origin : Origin) (change : MEventType) : bool :=
  match origin with
  | Local | Cascade => true
  | RelationshipFixup | Transient => false
  end.

Definition should_produce (origin : Origin) : bool :=
  match origin with
  | RelationshipFixup | Transient => false
  | _ => true
  end.

(** The [Debug] texts used in causal chains. *)
Definition show_origin (origin : Origin) : string :=
  match origin with
  | Local => "Local" | Cascade => "Cascade" | RelationshipFixup => "RelationshipFixup" | Transient => "Transient"
  end.
Definition show_change (change : MEventType) : string :=
  match change with SET => "SET" | DEL => "DEL" end.

Record CausalLimits := mkLimits { max_depth : Z; max_derived_mutations : Z }.
Definition limits_default : CausalLimits := mkLimits 64 100000.

Record CausalCounters := mkCounters {
  cc_roots : Z;
  cc_derived_mutations : Z;
  cc_duplicate_transitions_suppressed : Z;
  cc_budget_exhaustions : Z;
  cc_max_observed_depth : Z
}.
Definition counters_default : CausalCounters := mkCounters 0 0 0 0 0.

Record TransitionKey := mkTransitionKey {
  tk_entity_type : string;
  tk_id : string;
  tk_operation : Z;
  tk_content_hash : Z
}.
#[export] Instance TransitionKey_eq_dec : EqDecision TransitionKey.
Proof. solve_decision. Defined.
#[export] Instance TransitionKey_countable : Countable TransitionKey.
Proof.
  apply (inj_countable' (λ k, (tk_entity_type k, tk_id k, tk_operation k, tk_content_hash k))
    (λ x, let '(t, i, o, h) := x in mkTransitionKey t i o h)).
  by intros [].
Defined.

Record PersistError := mkPersistError { pe_entity_type : string; pe_message : string }.

(** A produced event: the change and the item it carries. *)
Record Event (P : Type) := mkEvent { ev_change : MEventType; ev_item : Item P }.
Arguments mkEvent {P}.
Arguments ev_change {P}.
Arguments ev_item {P}.

Inductive SearchCall (P : Type) :=
| IndexItem (item : Item P)
| RemoveEntity (entity_type id : string).
Arguments IndexItem {P}.
Arguments RemoveEntity {P}.

Inductive IngestBufferPolicy := NoBuffer | TimeWindow (window_ms : Z).

(** A wire event whose item is not parsed yet. *)
Record MEvent (J : Type) := mkMEvent { me_item_type : string; me_change_type : MEventType; me_item : J }.
Arguments mkMEvent {J}.
Arguments me_item_type {J}.
Arguments me_change_type {J}.
Arguments me_item {J}.

Section types.
Context {P : Type}.

(** ** Pending mutations *)

Inductive PendingMutationKind :=
| Uniform (items : list (Item P)) (change : MEventType)
| Replace (upserts deletes : list (Item P)) (expected_graph_generation : option Z).

Record PendingMutation := mkPending {
  pm_kind : PendingMutationKind;
  pm_origin : Origin;
  pm_mode : EdgeApplyMode;
  pm_depth : Z;
  pm_chain : list string
}.

Record CausalState := mkCausal {
  cs_root_tx : string;
  cs_queue : list PendingMutation;
  cs_seen : gset TransitionKey;
  cs_derived_count : Z;
  cs_current_depth : option Z;
  cs_current_mode : option EdgeApplyMode;
  cs_current_chain : list string
}.

(** ** Relationships *)

Record EnsureForDependency := mkDependency {
  dep_foreign_type : string;
  dep_extract_fk : Item P → option string
}.

(** [Relation]; an [EntityFactory] is also given the number of UUIDs drawn so far, because
    the entities it makes carry fresh ids. *)
Inductive Relation :=
| BelongsTo (local_type foreign_type : string) (extract_fk : Item P → option string)
| OwnsMany (local_type foreign_type : string) (extract_ids : Item P → option (list string))
    (remove_id : Item P → string → option (Item P))
| EnsureFor (local_type : string) (dependencies : list EnsureForDependency)
    (make_entity : Z → list string → Item P).

Record BelongsToLookup := mkBelongsTo {
  bt_id : Z;
  bt_local_type : string;
  bt_foreign_type : string;
  bt_extract_fk : Item P → option string
}.

Record OwnsManyLookup := mkOwnsMany {
  om_local_type : string;
  om_foreign_type : string;
  om_extract_ids : Item P → option (list string);
  om_remove_id : Item P → string → option (Item P)
}.

Record EnsureForLookup := mkEnsureFor {
  ef_local_type : string;
  ef_dependencies : list EnsureForDependency;
  ef_make_entity : Z → list string → Item P
}.

Record RelationshipTables := mkTables {
  belongs_to_by_foreign : gmap string (list BelongsToLookup);
  belongs_to_by_local : gmap string (list BelongsToLookup);
  owns_many_by_local : gmap string (list OwnsManyLookup);
  owns_many_by_foreign : gmap string (list OwnsManyLookup);
  ensure_for_by_dependency : gmap string (list EnsureForLookup);
  next_belongs_to_id : Z
}.
Definition tables_default : RelationshipTables := mkTables ∅ ∅ ∅ ∅ ∅ 0.

(** The manager: its tables and its mutable indexes; a set of child ids is kept as the
    ordered list of a [BTreeSet]. *)
Record RelationshipManager := mkManager {
  rm_tables : RelationshipTables;
  belongs_to_children_by_parent : gmap Z (gmap string (list string));
  belongs_to_parent_by_child : gmap Z (gmap string string);
  ensure_for_in_flight : gset (string * list string)
}.
End types.
Arguments PendingMutationKind : clear implicits.
Arguments PendingMutation : clear implicits.
Arguments CausalState : clear implicits.
Arguments EnsureForDependency : clear implicits.
Arguments Relation : clear implicits.
Arguments BelongsToLookup : clear implicits.
Arguments OwnsManyLookup : clear implicits.
Arguments EnsureForLookup : clear implicits.
Arguments RelationshipTables : clear implicits.
Arguments RelationshipManager : clear implicits.

(** ** The environment and the context *)

(** A persister, given the events it accepted and the next one. *)
Abbreviation Persister P := (list (Event P) → Event P → result PersistError unit).

Record PersisterRouter (P : Type) := mkPersisterRouter {
  pr_default : option (Persister P);
  pr_overrides : gmap string (Persister P)
}.
Arguments mkPersisterRouter {P}.
Arguments pr_default {P}.
Arguments pr_overrides {P}.

Definition resolve {P} (router : PersisterRouter P) (entity_type : string) : option (Persister P) :=
  match pr_overrides router !! entity_type with
  | Some persister => Some persister
  | None => pr_default router
  end.

Record Env (P J : Type) := mkEnv {
  env_host_id : string;
  env_content_hash : Item P → Z;
  env_new_v4 : Z → string;
  env_item_parser : string → option (J → option (Item P));
  env_buffer_policies : gmap string IngestBufferPolicy;
  env_server_owner : Item P → option string;
  env_bake_server_owner : Item P → string → option (Item P);
  env_persisters : PersisterRouter P;
  env_event_sink : bool
}.
Arguments env_host_id {P J}.
Arguments env_content_hash {P J}.
Arguments env_new_v4 {P J}.
Arguments env_item_parser {P J}.
Arguments env_buffer_policies {P J}.
Arguments env_server_owner {P J}.
Arguments env_bake_server_owner {P J}.
Arguments env_persisters {P J}.
Arguments env_event_sink {P J}.

Record BufferedIngestState (J : Type) := mkBuffer { bi_events : list (MEvent J); bi_flush_scheduled : bool }.
Arguments mkBuffer {J}.
Arguments bi_events {J}.
Arguments bi_flush_scheduled {J}.

(** The mutable parts of [MykoServerContext]; [ctx_runs], [ctx_persisted], [ctx_sunk] and
    [ctx_search] record the watch callbacks run, the events the persisters accepted, the
    events sent to the saga sink and the calls of the search index. *)
Record Ctx (P CB J : Type) := mkCtx {
  ctx_registry : StoreRegistry P;
  ctx_graph : option (GraphIndex P);
  ctx_gstate : GraphState;
  ctx_router : GraphWatchRouter CB;
  ctx_runs : list (CB * MapDiff (Item P));
  ctx_rel : RelationshipManager P;
  ctx_persisted : list (Event P);
  ctx_sunk : list (Event P);
  ctx_search : list (SearchCall P);
  ctx_buffers : gmap string (BufferedIngestState J);
  ctx_limits : CausalLimits;
  ctx_counters : CausalCounters;
  ctx_causal : option (CausalState P);
  ctx_uuids : Z
}.
Arguments mkCtx {P CB J}.
Arguments ctx_registry {P CB J}.
Arguments ctx_graph {P CB J}.
Arguments ctx_gstate {P CB J}.
Arguments ctx_router {P CB J}.
Arguments ctx_runs {P CB J}.
Arguments ctx_rel {P CB J}.
Arguments ctx_persisted {P CB J}.
Arguments ctx_sunk {P CB J}.
Arguments ctx_search {P CB J}.
Arguments ctx_buffers {P CB J}.
Arguments ctx_limits {P CB J}.
Arguments ctx_counters {P CB J}.
Arguments ctx_causal {P CB J}.
Arguments ctx_uuids {P CB J}.

(** ** Field updates *)
Section updates.
Context {P CB J : Type}.
Implicit Types s : Ctx P CB J.

Definition set_registry x s := mkCtx x (ctx_graph s) (ctx_gstate s) (ctx_router s) (ctx_runs s) (ctx_rel s)
  (ctx_persisted s) (ctx_sunk s) (ctx_search s) (ctx_buffers s) (ctx_limits s) (ctx_counters s) (ctx_causal s) (ctx_uuids s).
Definition set_graph x s := mkCtx (ctx_registry s) x (ctx_gstate s) (ctx_router s) (ctx_runs s) (ctx_rel s)
  (ctx_persisted s) (ctx_sunk s) (ctx_search s) (ctx_buffers s) (ctx_limits s) (ctx_counters s) (ctx_causal s) (ctx_uuids s).
Definition set_gstate x s := mkCtx (ctx_registry s) (ctx_graph s) x (ctx_router s) (ctx_runs s) (ctx_rel s)
  (ctx_persisted s) (ctx_sunk s) (ctx_search s) (ctx_buffers s) (ctx_limits s) (ctx_counters s) (ctx_causal s) (ctx_uuids s).
Definition set_router (w : GraphWatchRouter CB) runs s := mkCtx (ctx_registry s) (ctx_graph s) (ctx_gstate s) w (ctx_runs s ++ runs) (ctx_rel s)
  (ctx_persisted s) (ctx_sunk s) (ctx_search s) (ctx_buffers s) (ctx_limits s) (ctx_counters s) (ctx_causal s) (ctx_uuids s).
Definition set_rel x s := mkCtx (ctx_registry s) (ctx_graph s) (ctx_gstate s) (ctx_router s) (ctx_runs s) x
  (ctx_persisted s) (ctx_sunk s) (ctx_search s) (ctx_buffers s) (ctx_limits s) (ctx_counters s) (ctx_causal s) (ctx_uuids s).
Definition set_persisted x s := mkCtx (ctx_registry s) (ctx_graph s) (ctx_gstate s) (ctx_router s) (ctx_runs s) (ctx_rel s)
  x (ctx_sunk s) (ctx_search s) (ctx_buffers s) (ctx_limits s) (ctx_counters s) (ctx_causal s) (ctx_uuids s).
Definition set_sunk x s := mkCtx (ctx_registry s) (ctx_graph s) (ctx_gstate s) (ctx_router s) (ctx_runs s) (ctx_rel s)
  (ctx_persisted s) x (ctx_search s) (ctx_buffers s) (ctx_limits s) (ctx_counters s) (ctx_causal s) (ctx_uuids s).
Definition set_search x s := mkCtx (ctx_registry s) (ctx_graph s) (ctx_gstate s) (ctx_router s) (ctx_runs s) (ctx_rel s)
  (ctx_persisted s) (ctx_sunk s) x (ctx_buffers s) (ctx_limits s) (ctx_counters s) (ctx_causal s) (ctx_uuids s).
Definition set_buffers (x : gmap string (BufferedIngestState J)) s := mkCtx (ctx_registry s) (ctx_graph s) (ctx_gstate s) (ctx_router s) (ctx_runs s) (ctx_rel s)
  (ctx_persisted s) (ctx_sunk s) (ctx_search s) x (ctx_limits s) (ctx_counters s) (ctx_causal s) (ctx_uuids s).
Definition set_limits x s := mkCtx (ctx_registry s) (ctx_graph s) (ctx_gstate s) (ctx_router s) (ctx_runs s) (ctx_rel s)
  (ctx_persisted s) (ctx_sunk s) (ctx_search s) (ctx_buffers s) x (ctx_counters s) (ctx_causal s) (ctx_uuids s).
Definition set_counters x s := mkCtx (ctx_registry s) (ctx_graph s) (ctx_gstate s) (ctx_router s) (ctx_runs s) (ctx_rel s)
  (ctx_persisted s) (ctx_sunk s) (ctx_search s) (ctx_buffers s) (ctx_limits s) x (ctx_causal s) (ctx_uuids s).
Definition set_causal x s := mkCtx (ctx_registry s) (ctx_graph s) (ctx_gstate s) (ctx_router s) (ctx_runs s) (ctx_rel s)
  (ctx_persisted s) (ctx_sunk s) (ctx_search s) (ctx_buffers s) (ctx_limits s) (ctx_counters s) x (ctx_uuids s).
Definition set_uuids x s := mkCtx (ctx_registry s) (ctx_graph s) (ctx_gstate s) (ctx_router s) (ctx_runs s) (ctx_rel s)
  (ctx_persisted s) (ctx_sunk s) (ctx_search s) (ctx_buffers s) (ctx_limits s) (ctx_counters s) (ctx_causal s) x.
End updates.

(** ** The monad

    State, errors, and the [None] of exhausted fuel. *)
Definition M (P CB J A : Type) : Type := Ctx P CB J → option (Ctx P CB J * result PersistError A).

#[export] Instance M_ret {P CB J} : MRet (M P CB J) := λ A a s, Some (s, Ok a).
#[export] Instance M_bind {P CB J} : MBind (M P CB J) := λ A B k m s,
  match m s with
  | Some (s', Ok a) => k a s'
  | Some (s', Err e) => Some (s', Err e)
  | None => None
  end.

Section monad.
Context {P CB J : Type}.
Abbreviation M := (M P CB J).

Definition get : M (Ctx P CB J) := λ s, Some (s, Ok s).
Definition modify (f : Ctx P CB J → Ctx P CB J) : M unit := λ s, Some (f s, Ok ()).
Definition raise {A} (e : PersistError) : M A := λ s, Some (s, Err e).

(** A [Result] kept as a value, to be returned later. *)
Definition catch {A} (m : M A) : M (result PersistError A) := λ s,
  match m s with Some (s', r) => Some (s', Ok r) | None => None end.
Definition lift {A} (r : result PersistError A) : M A := λ s, Some (s, r).
Definition of_option {A} (o : option A) : M A := λ s, a ← o; Some (s, Ok a).

(** A [for] loop whose body may return early with [?]. *)
Fixpoint for_each {A} (f : A → M unit) (l : list A) : M unit :=
  match l with
  | [] => mret ()
  | x :: l => f x ≫= λ _, for_each f l
  end.
End monad.
