(* ===== verification/Relationship.v ===== *)
(** * Relationship cascades

    [RelationshipTables] and [RelationshipManager] of
    [core/src/server/relationship_manager.rs].  The manager publishes what it derives through
    the context, so its operations take the context's [submit_mutation] as the argument
    [submit]; inside a causal root this is the queue, see [Pipeline]. *)

From stdpp Require Import base strings numbers option countable gmap sets list.
From S2P Require Import Prelude Order GraphTypes EdgeIds GraphIndex ServerTypes.

(** *** Combinations *)

(** One more axis: every combination so far, extended by every id of the set. *)
Definition extend_combinations (result : list (list string)) (set : list string) : list (list string) :=
  result ≫= λ existing : list string, (λ id : string, existing ++ [id]) <$> set.

Definition cartesian_product (sets : list (list string)) : list (list string) :=
  match sets with
  | [] => []
  | _ => foldl extend_combinations [[]] sets
  end.

(** ** Tables *)
Section tables.
Context {P : Type}.
Implicit Types (tables : RelationshipTables P) (rm : RelationshipManager P) (item : Item P) (registry : StoreRegistry P).

(** [entry(key).or_default().push(x)] *)
Definition push_lookup {A} (m : gmap string (list A)) (key : string) (x : A) : gmap string (list A) :=
  <[key := default [] (m !! key) ++ [x]]> m.

Definition register_belongs_to tables (local_type foreign_type : string) (extract_fk : Item P → option string)
  : RelationshipTables P :=
  let id := sat_add (next_belongs_to_id tables) 1 in
  let lookup := mkBelongsTo id local_type foreign_type extract_fk in
  mkTables (push_lookup (belongs_to_by_foreign tables) foreign_type lookup)
    (push_lookup (belongs_to_by_local tables) local_type lookup)
    (owns_many_by_local tables) (owns_many_by_foreign tables) (ensure_for_by_dependency tables) id.

Definition register_owns_many tables (local_type foreign_type : string)
    (extract_ids : Item P → option (list string)) (remove_id : Item P → string → option (Item P))
  : RelationshipTables P :=
  let lookup := mkOwnsMany local_type foreign_type extract_ids remove_id in
  mkTables (belongs_to_by_foreign tables) (belongs_to_by_local tables)
    (push_lookup (owns_many_by_local tables) local_type lookup)
    (push_lookup (owns_many_by_foreign tables) foreign_type lookup)
    (ensure_for_by_dependency tables) (next_belongs_to_id tables).

(** The lookup is indexed once under each distinct dependency type. *)
Definition register_ensure_for tables (local_type : string) (dependencies : list (EnsureForDependency P))
    (make_entity : Z → list string → Item P) : RelationshipTables P :=
  let lookup := mkEnsureFor local_type dependencies make_entity in
  let step acc (dependency : EnsureForDependency P) :=
    let '(indexed_types, m) := acc in
    let t := dep_foreign_type dependency in
    if bool_decide (t ∈ (indexed_types : gset string)) then acc
    else ({[t]} ∪ indexed_types, push_lookup m t lookup) in
  mkTables (belongs_to_by_foreign tables) (belongs_to_by_local tables)
    (owns_many_by_local tables) (owns_many_by_foreign tables)
    (foldl step (∅, ensure_for_by_dependency tables) dependencies).2 (next_belongs_to_id tables).

Definition register tables (relation : Relation P) : RelationshipTables P :=
  match relation with
  | BelongsTo local_type foreign_type extract_fk => register_belongs_to tables local_type foreign_type extract_fk
  | OwnsMany local_type foreign_type extract_ids remove_id =>
      register_owns_many tables local_type foreign_type extract_ids remove_id
  | EnsureFor local_type dependencies make_entity => register_ensure_for tables local_type dependencies make_entity
  end.

(** *** Cycles of [ensure_for] *)

(** [visit]: the states are 1 while a node is on the stack and 2 once it is done; [stack] is
    in push order.  [None] is exhausted fuel. *)
Fixpoint visit (fuel : nat) (graph : gmap string (list string)) (node : string) (states : gmap string Z)
    (stack : list string) : option (gmap string Z * option (list string)) :=
  match fuel with
  | O => None
  | S fuel =>
      match states !! node with
      | Some 1%Z =>
          let start := match list_find (λ entry, entry = node) stack with Some (i, _) => i | None => 0 end in
          Some (states, Some (drop start stack ++ [node]))
      | Some 2%Z => Some (states, None)
      | _ =>
          (fix visit_all (next : list string) (states : gmap string Z) :=
             match next with
             | [] => Some (<[node := 2%Z]> states, None)
             | dependent :: next =>
                 match visit fuel graph dependent states (stack ++ [node]) with
                 | None => None
                 | Some (states, Some cycle) => Some (states, Some cycle)
                 | Some (states, None) => visit_all next states
                 end
             end) (default [] (graph !! node)) (<[node := 1%Z]> states)
      end
  end.

(** The edges from a dependency type to the types ensured for it. *)
Definition ensure_for_graph tables : gmap string (list string) :=
  (λ lookups : list (EnsureForLookup P),
     foldl (λ dependents lookup,
       if bool_decide (ef_local_type lookup ∈ dependents) then dependents else dependents ++ [ef_local_type lookup])
       [] lookups) <$> ensure_for_by_dependency tables.

Fixpoint visit_keys (fuel : nat) (graph : gmap string (list string)) (keys : list string) (states : gmap string Z)
  : option (option (list string)) :=
  match keys with
  | [] => Some None
  | node :: keys =>
      match visit fuel graph node states [] with
      | None => None
      | Some (_, Some cycle) => Some (Some cycle)
      | Some (states, None) => visit_keys fuel graph keys states
      end
  end.

(** Enough fuel: one more than the nodes that can be on the stack. *)
Definition cycle_fuel (graph : gmap string (list string)) : nat := S (S (size graph)).

Definition ensure_for_cycle tables : option (option (list string)) :=
  let graph := ensure_for_graph tables in
  visit_keys (cycle_fuel graph) graph (map_to_list graph).*1 ∅.

(** [RelationshipManager::new]: [Err] is the panic on a cyclic schema. *)
Definition manager_new (relations : list (Relation P)) : option (result string (RelationshipManager P)) :=
  let tables := foldl register tables_default relations in
  cycle ← ensure_for_cycle tables;
  Some match cycle with
       | Some cycle => Err ("cyclic ensure_for relationship graph: " +:+ String.concat " -> " cycle)
       | None => Ok (mkManager tables ∅ ∅ ∅)
       end.

Definition rel_coordinates rm (entity_type : string) (change : MEventType) : bool :=
  let tables := rm_tables rm in
  match change with
  | SET =>
      bool_decide (is_Some (belongs_to_by_local tables !! entity_type)) ||
      bool_decide (is_Some (ensure_for_by_dependency tables !! entity_type))
  | DEL =>
      bool_decide (is_Some (belongs_to_by_foreign tables !! entity_type)) ||
      bool_decide (is_Some (belongs_to_by_local tables !! entity_type)) ||
      bool_decide (is_Some (owns_many_by_local tables !! entity_type)) ||
      bool_decide (is_Some (owns_many_by_foreign tables !! entity_type)) ||
      bool_decide (is_Some (ensure_for_by_dependency tables !! entity_type))
  end.

(** *** Index and reservation updates *)

(** [dependencies.map(extract_fk).collect::<Option<Vec<_>>>()] *)
Definition combination_of (dependencies : list (EnsureForDependency P)) item : option (list string) :=
  mapM (λ dependency, dep_extract_fk dependency item) dependencies.

Definition set_in_flight (x : gset (string * list string)) rm : RelationshipManager P :=
  mkManager (rm_tables rm) (belongs_to_children_by_parent rm) (belongs_to_parent_by_child rm) x.

Definition release_ensure_reservation_for_item rm item : RelationshipManager P :=
  let lookups := (map_to_list (ensure_for_by_dependency (rm_tables rm))).*2 ≫= id in
  let reservations := omap (λ lookup : EnsureForLookup P,
    if bool_decide (ef_local_type lookup = item_type item)
    then pair (ef_local_type lookup) <$> combination_of (ef_dependencies lookup) item else None) lookups in
  set_in_flight (ensure_for_in_flight rm ∖ list_to_set reservations) rm.

Definition remove_belongs_to_child (lookup : BelongsToLookup P) (child_id : string) rm : RelationshipManager P :=
  match belongs_to_parent_by_child rm !! bt_id lookup with
  | None => rm
  | Some parent_map =>
      match parent_map !! child_id with
      | None => rm
      | Some parent_id =>
          let parents := <[bt_id lookup := delete child_id parent_map]> (belongs_to_parent_by_child rm) in
          let children :=
            match belongs_to_children_by_parent rm !! bt_id lookup with
            | None => belongs_to_children_by_parent rm
            | Some children_by_parent =>
                match children_by_parent !! parent_id with
                | None => belongs_to_children_by_parent rm
                | Some child_ids =>
                    let child_ids := bt_remove child_id child_ids in
                    <[bt_id lookup := if bool_decide (child_ids = []) then delete parent_id children_by_parent
                                      else <[parent_id := child_ids]> children_by_parent]>
                      (belongs_to_children_by_parent rm)
                end
            end in
          mkManager (rm_tables rm) children parents (ensure_for_in_flight rm)
      end
  end.

(** Adding a child to the sets of a lookup. *)
Definition add_child (child_id parent_id : string) (m : gmap string (list string)) : gmap string (list string) :=
  <[parent_id := bt_insert child_id (default [] (m !! parent_id))]> m.

Definition index_belongs_to_child (lookup : BelongsToLookup P) item rm : RelationshipManager P :=
  let child_id := item_id item in
  let rm := remove_belongs_to_child lookup child_id rm in
  match bt_extract_fk lookup item with
  | None => rm
  | Some parent_id =>
      mkManager (rm_tables rm)
        (<[bt_id lookup := add_child child_id parent_id (default ∅ (belongs_to_children_by_parent rm !! bt_id lookup))]>
           (belongs_to_children_by_parent rm))
        (<[bt_id lookup := <[child_id := parent_id]> (default ∅ (belongs_to_parent_by_child rm !! bt_id lookup))]>
           (belongs_to_parent_by_child rm))
        (ensure_for_in_flight rm)
  end.

(** The indexes [ensure_belongs_to_index_loaded] builds from a snapshot. *)
Definition load_child (lookup : BelongsToLookup P) (acc : gmap string string * gmap string (list string)) item
  : gmap string string * gmap string (list string) :=
  match bt_extract_fk lookup item with
  | None => acc
  | Some parent_id => (<[item_id item := parent_id]> acc.1, add_child (item_id item) parent_id acc.2)
  end.

Definition ensure_belongs_to_index_loaded registry (lookup : BelongsToLookup P) rm : RelationshipManager P :=
  if bool_decide (is_Some (belongs_to_parent_by_child rm !! bt_id lookup)) then rm
  else
    let '(child_index, parent_index) :=
      foldl (load_child lookup) (∅, ∅) (map_to_list (get_or_create registry (bt_local_type lookup))).*2 in
    mkManager (rm_tables rm) (<[bt_id lookup := parent_index]> (belongs_to_children_by_parent rm))
      (<[bt_id lookup := child_index]> (belongs_to_parent_by_child rm)) (ensure_for_in_flight rm).

Definition find_children_by_fk registry (lookup : BelongsToLookup P) (parent_id : string) rm
  : RelationshipManager P * list (Item P) :=
  let rm := ensure_belongs_to_index_loaded registry lookup rm in
  let store := get_or_create registry (bt_local_type lookup) in
  (rm, match belongs_to_children_by_parent rm !! bt_id lookup with
       | Some parent_map =>
           match parent_map !! parent_id with
           | None => []
           | Some child_ids => omap (λ child_id, store !! child_id) child_ids
           end
       | None => filter (λ item, bt_extract_fk lookup item = Some parent_id) (map_to_list store).*2
       end).

(** *** Queries *)

Definition get_by_id registry (entity_type id : string) : option (Item P) := get_or_create registry entity_type !! id.

Definition get_all_items registry (entity_type : string) : list (Item P) :=
  (map_to_list (get_or_create registry entity_type)).*2.

Definition find_parents_containing registry (lookup : OwnsManyLookup P) (child_id : string) : list (Item P) :=
  filter (λ item, match om_extract_ids lookup item with
                  | Some ids => existsb (λ id, bool_decide (id = child_id)) ids
                  | None => false
                  end = true)
    (get_all_items registry (om_local_type lookup)).

Definition get_dependency_combinations registry (dependencies : list (EnsureForDependency P)) : list (list string) :=
  match dependencies with
  | [] => []
  | _ => cartesian_product ((λ dep, item_id <$> get_all_items registry (dep_foreign_type dep)) <$> dependencies)
  end.

(** Whether the fields of an ensured entity are the combination. *)
Definition matches_combo (dependencies : list (EnsureForDependency P)) (combo : list string) item : bool :=
  forallb (λ p : EnsureForDependency P * string, bool_decide (dep_extract_fk p.1 item = Some p.2)) (zip dependencies combo).

Definition find_ensure_for_entity_in (items : list (Item P)) (dependencies : list (EnsureForDependency P))
    (combo : list string) : option (Item P) :=
  match dependencies, combo with
  | [], _ | _, [] => None
  | _, _ => List.find (matches_combo dependencies combo) items
  end.

Definition find_ensure_for_children_by_dependencies registry (lookup : EnsureForLookup P)
    (dependencies : list (EnsureForDependency P)) (dep_ids : gset string) : list (Item P) :=
  filter (λ item, existsb (λ dep, match dep_extract_fk dep item with
                                  | Some fk => bool_decide (fk ∈ dep_ids)
                                  | None => false
                                  end) dependencies = true)
    (get_all_items registry (ef_local_type lookup)).
End tables.

(** ** Cascades *)
Section cascades.
Context {P CB J : Type} (env : Env P J).
Abbreviation M := (M P CB J).
(** [MykoServerContext::submit_mutation]. *)
Context (submit : list (Item P) → MEventType → Origin → M unit).
Implicit Types (item : Item P) (items : list (Item P)).

(** *** Publishing *)

Definition publish_set_cascade item : M unit :=
  let item := match env_server_owner env item with
              | None => default item (env_bake_server_owner env item (env_host_id env))
              | Some _ => item
              end in
  submit [item] SET Cascade.

Definition publish_relationship_fixup_batch items : M unit := submit items SET RelationshipFixup.

Definition publish_del_cascade (entity_type id : string) : M unit :=
  s ← get;
  match get_or_create (ctx_registry s) entity_type !! id with
  | Some item => submit [item] DEL Cascade
  | None => mret ()
  end.

Definition publish_del_cascade_batch items : M unit :=
  match items with [] => mret () | _ => submit items DEL Cascade end.

(** Updating the manager. *)
Definition update_rel (f : RelationshipManager P → RelationshipManager P) : M unit :=
  modify (λ s, set_rel (f (ctx_rel s)) s).

(** A query that may load an index of the manager. *)
Definition query_rel {A} (f : StoreRegistry P → RelationshipManager P → RelationshipManager P * A) : M A := λ s,
  let '(rm, a) := f (ctx_registry s) (ctx_rel s) in Some (set_rel rm s, Ok a).

(** *** [belongs_to] *)

(** The children of the parents, each once, the first one found kept. *)
Definition children_of_parents (lookup : BelongsToLookup P) (parent_ids : list string) : M (gmap string (Item P)) :=
  (fix go parent_ids (children_by_id : gmap string (Item P)) : M (gmap string (Item P)) :=
     match parent_ids with
     | [] => mret children_by_id
     | parent_id :: parent_ids =>
         children ← query_rel (λ registry rm, find_children_by_fk registry lookup parent_id rm);
         go parent_ids (foldl (λ m child, match m !! item_id child with
                                          | Some _ => m
                                          | None => <[item_id child := child]> m
                                          end) children_by_id children)
     end) parent_ids ∅.

Definition handle_belongs_to_cascade_batch items : M unit :=
  match items with
  | [] => mret ()
  | first :: _ =>
      s ← get;
      match belongs_to_by_foreign (rm_tables (ctx_rel s)) !! item_type first with
      | None => mret ()
      | Some lookups =>
          for_each (λ lookup,
            children_by_id ← children_of_parents lookup (item_id <$> items);
            publish_del_cascade_batch (map_to_list children_by_id).*2) lookups
      end
  end.

(** *** [owns_many] *)

Definition handle_owns_many_parent_delete_batch items : M unit :=
  match items with
  | [] => mret ()
  | first :: _ =>
      s ← get;
      match owns_many_by_local (rm_tables (ctx_rel s)) !! item_type first with
      | None => mret ()
      | Some lookups =>
          for_each (λ lookup,
            s ← get;
            let child_ids := foldl (λ child_ids ids, bt_extend ids child_ids) [] (omap (om_extract_ids lookup) items) in
            publish_del_cascade_batch (omap (get_by_id (ctx_registry s) (om_foreign_type lookup)) child_ids)) lookups
      end
  end.

Definition handle_owns_many_child_delete item : M unit :=
  s ← get;
  match owns_many_by_foreign (rm_tables (ctx_rel s)) !! item_type item with
  | None => mret ()
  | Some lookups =>
      for_each (λ lookup,
        s ← get;
        let parents := find_parents_containing (ctx_registry s) lookup (item_id item) in
        match omap (λ parent_item, om_remove_id lookup parent_item (item_id item)) parents with
        | [] => mret ()
        | updates => publish_relationship_fixup_batch updates
        end) lookups
  end.

(** *** [ensure_for] *)

Definition ensure_combination (lookup : EnsureForLookup P) (combo : list string) : M bool :=
  let reservation := (ef_local_type lookup, combo) in
  s ← get;
  if bool_decide (reservation ∈ ensure_for_in_flight (ctx_rel s)) then mret false
  else
    _ ← update_rel (λ rm, set_in_flight ({[reservation]} ∪ ensure_for_in_flight rm) rm);
    match find_ensure_for_entity_in (get_all_items (ctx_registry s) (ef_local_type lookup)) (ef_dependencies lookup) combo with
    | Some _ =>
        _ ← update_rel (λ rm, set_in_flight (ensure_for_in_flight rm ∖ {[reservation]}) rm);
        mret false
    | None =>
        let entity := ef_make_entity lookup (ctx_uuids s) combo in
        _ ← modify (set_uuids (ctx_uuids s + 1)%Z);
        result ← catch (publish_set_cascade entity);
        match result with
        | Ok _ => mret true
        | Err e =>
            _ ← update_rel (λ rm, set_in_flight (ensure_for_in_flight rm ∖ {[reservation]}) rm);
            raise e
        end
    end.

(** The loop over the missing combinations of one lookup. *)
Fixpoint ensure_missing (lookup : EnsureForLookup P) (combinations : list (list string))
    (existing_combinations : gset (list string)) : M unit :=
  match combinations with
  | [] => mret ()
  | combo :: combinations =>
      if bool_decide (combo ∈ existing_combinations) then ensure_missing lookup combinations existing_combinations
      else
        created ← ensure_combination lookup combo;
        ensure_missing lookup combinations
          (if created : bool then {[combo]} ∪ existing_combinations else existing_combinations)
  end.

Definition handle_ensure_for_type (entity_type : string) : M unit :=
  s ← get;
  match ensure_for_by_dependency (rm_tables (ctx_rel s)) !! entity_type with
  | None => mret ()
  | Some lookups =>
      for_each (λ lookup,
        s ← get;
        ensure_missing lookup (get_dependency_combinations (ctx_registry s) (ef_dependencies lookup))
          (list_to_set (omap (combination_of (ef_dependencies lookup))
             (get_all_items (ctx_registry s) (ef_local_type lookup))))) lookups
  end.

Definition handle_ensure_for_delete_batch items : M unit :=
  match items with
  | [] => mret ()
  | first :: _ =>
      s ← get;
      match ensure_for_by_dependency (rm_tables (ctx_rel s)) !! item_type first with
      | None => mret ()
      | Some lookups =>
          for_each (λ lookup,
            s ← get;
            let dependencies := filter (λ dep, dep_foreign_type dep = item_type first) (ef_dependencies lookup) in
            publish_del_cascade_batch
              (find_ensure_for_children_by_dependencies (ctx_registry s) lookup dependencies
                 (list_to_set (item_id <$> items)))) lookups
      end
  end.

(** *** Forwarding *)

Definition forward_set_batch items : M unit :=
  match items with
  | [] => mret ()
  | first :: _ =>
      s ← get;
      _ ← for_each (λ lookup,
            s ← get;
            _ ← update_rel (ensure_belongs_to_index_loaded (ctx_registry s) lookup);
            update_rel (λ rm, foldl (λ rm item, index_belongs_to_child lookup item rm) rm items))
          (default [] (belongs_to_by_local (rm_tables (ctx_rel s)) !! item_type first));
      handle_ensure_for_type (item_type first)
  end.

Definition forward_del_batch items : M unit :=
  match items with
  | [] => mret ()
  | _ =>
      _ ← handle_belongs_to_cascade_batch items;
      _ ← handle_owns_many_parent_delete_batch items;
      _ ← handle_ensure_for_delete_batch items;
      for_each (λ item,
        _ ← handle_owns_many_child_delete item;
        s ← get;
        update_rel (λ rm, foldl (λ rm lookup, remove_belongs_to_child lookup (item_id item) rm) rm
          (default [] (belongs_to_by_local (rm_tables (ctx_rel s)) !! item_type item)))) items
  end.

(** *** Startup *)

Definition cleanup_belongs_to_orphans : M unit :=
  s ← get;
  for_each (λ entry : string * list (BelongsToLookup P),
    for_each (λ lookup,
      s ← get;
      let parent_ids := list_to_set (item_id <$> get_all_items (ctx_registry s) (bt_foreign_type lookup)) : gset string in
      for_each (λ child,
        match bt_extract_fk lookup child with
        | Some fk_value =>
            if bool_decide (fk_value ∈ parent_ids) then mret () else publish_del_cascade entry.1 (item_id child)
        | None => mret ()
        end) (get_all_items (ctx_registry s) entry.1)) entry.2)
    (map_to_list (belongs_to_by_local (rm_tables (ctx_rel s)))).

Definition cleanup_owns_many_orphans : M unit :=
  s ← get;
  for_each (λ entry : string * list (OwnsManyLookup P),
    for_each (λ lookup,
      s ← get;
      let referenced_ids :=
        list_to_set (omap (om_extract_ids lookup) (get_all_items (ctx_registry s) entry.1) ≫= id) : gset string in
      for_each (λ child,
        if bool_decide (item_id child ∈ referenced_ids) then mret ()
        else publish_del_cascade (om_foreign_type lookup) (item_id child))
        (get_all_items (ctx_registry s) (om_foreign_type lookup))) entry.2)
    (map_to_list (owns_many_by_local (rm_tables (ctx_rel s)))).

(** One pass per ensured type. *)
Fixpoint initialize_lookups (lookups : list (EnsureForLookup P)) (processed : gset string) : M unit :=
  match lookups with
  | [] => mret ()
  | lookup :: lookups =>
      if bool_decide (ef_local_type lookup ∈ processed) then initialize_lookups lookups processed
      else
        s ← get;
        let existing_items := get_all_items (ctx_registry s) (ef_local_type lookup) in
        _ ← for_each (λ combo,
              match find_ensure_for_entity_in existing_items (ef_dependencies lookup) combo with
              | Some _ => mret ()
              | None => _ ← ensure_combination lookup combo; mret ()
              end) (get_dependency_combinations (ctx_registry s) (ef_dependencies lookup));
        initialize_lookups lookups ({[ef_local_type lookup]} ∪ processed)
  end.

Definition initialize_ensure_for : M unit :=
  s ← get;
  initialize_lookups ((map_to_list (ensure_for_by_dependency (rm_tables (ctx_rel s)))).*2 ≫= id) ∅.

Definition establish_relations : M unit :=
  _ ← cleanup_belongs_to_orphans;
  _ ← cleanup_owns_many_orphans;
  initialize_ensure_for.
End cascades.
