(* ===== verification/Pipeline.v ===== *)
(** * The mutation pipeline

    The emission path of [MykoServerContext] in [core/src/server/context.rs]: the causal
    queue that bounds derived mutations, [emit_one], [emit_grouped] and
    [emit_replace_grouped], the effects that follow a reduction, the typed entry points, and
    wire ingest with its buffers.

    A [hyphae::batch] delays the reactive subscribers of the stores until its end; these
    subscribers are outside the model, so a batch is its body.  [submit_mutation_mode] calls
    the emission functions, which call it again for what they derive; its recursion takes
    the fuel [fuel] (three levels are enough), and the loop that drains a root's queue takes
    [steps] (one per pending mutation). *)

From stdpp Require Import base strings numbers option countable gmap sets list pretty.
From S2P Require Import Prelude Order GraphTypes EdgeIds GraphIndex GraphQuery GraphPreflight GraphWatch ServerTypes Relationship.

Section pipeline.
Context {P CB J : Type} (env : Env P J).
Abbreviation M := (M P CB J).
Implicit Types (item : Item P) (items : list (Item P)) (change : MEventType) (origin : Origin) (mode : EdgeApplyMode)
  (s : Ctx P CB J) (st : CausalState P).

(** ** Errors *)

Definition causal_error item (message : string) : PersistError :=
  mkPersistError (item_type item) ("causal loop protection: " +:+ message).

Definition graph_error item (error : string) : PersistError :=
  mkPersistError (item_type item) ("graph mutation rejected: " +:+ error).

(** [map_err] to a graph error of the item. *)
Definition graph_result {A} item (r : result GraphError A) : M A :=
  lift match r with Ok a => Ok a | Err e => Err (graph_error item (display e)) end.

(** ** Counters *)

Definition count_root (c : CausalCounters) : CausalCounters :=
  mkCounters (fetch_add (cc_roots c) 1) (cc_derived_mutations c) (cc_duplicate_transitions_suppressed c)
    (cc_budget_exhaustions c) (cc_max_observed_depth c).
Definition count_derived (c : CausalCounters) : CausalCounters :=
  mkCounters (cc_roots c) (fetch_add (cc_derived_mutations c) 1) (cc_duplicate_transitions_suppressed c)
    (cc_budget_exhaustions c) (cc_max_observed_depth c).
Definition count_duplicate (c : CausalCounters) : CausalCounters :=
  mkCounters (cc_roots c) (cc_derived_mutations c) (fetch_add (cc_duplicate_transitions_suppressed c) 1)
    (cc_budget_exhaustions c) (cc_max_observed_depth c).
Definition count_exhaustion (c : CausalCounters) : CausalCounters :=
  mkCounters (cc_roots c) (cc_derived_mutations c) (cc_duplicate_transitions_suppressed c)
    (fetch_add (cc_budget_exhaustions c) 1) (cc_max_observed_depth c).
Definition observe_depth (depth : Z) (c : CausalCounters) : CausalCounters :=
  mkCounters (cc_roots c) (cc_derived_mutations c) (cc_duplicate_transitions_suppressed c)
    (cc_budget_exhaustions c) (Z.max (cc_max_observed_depth c) depth).

(** ** The causal queue *)

Definition transition_key item change : TransitionKey :=
  mkTransitionKey (item_type item) (item_id item) (match change with SET => 1 | DEL => 2 end)
    (env_content_hash env item).

Definition chain_text (chain : list string) : string := String.concat " -> " chain.

(** The loop over the submitted items: repeated transitions are dropped, and derived ones
    counted against the budget. *)
Fixpoint accept_items (limits : CausalLimits) (depth : Z) (chain : list string) change st (counters : CausalCounters)
    items (accepted : list (Item P)) : CausalState P * CausalCounters * result PersistError (list (Item P)) :=
  match items with
  | [] => (st, counters, Ok accepted)
  | item :: items =>
      let key := transition_key item change in
      if bool_decide (key ∈ cs_seen st)
      then accept_items limits depth chain change st (count_duplicate counters) items accepted
      else
        let seen := {[key]} ∪ cs_seen st in
        let derived := if (0 <? depth)%Z then sat_add (cs_derived_count st) 1 else cs_derived_count st in
        let st := mkCausal (cs_root_tx st) (cs_queue st) seen derived (cs_current_depth st) (cs_current_mode st)
                    (cs_current_chain st) in
        if (0 <? depth)%Z && (max_derived_mutations limits <? derived)%Z
        then (st, count_exhaustion counters,
              Err (causal_error item ("root=" +:+ cs_root_tx st +:+ " exceeded derived mutation budget " +:+
                     pretty (max_derived_mutations limits) +:+ ": " +:+ chain_text chain)))
        else accept_items limits depth chain change st
               (if (0 <? depth)%Z then count_derived counters else counters) items (accepted ++ [item])
  end.

(** [state.queue.push_back]. *)
Definition push_pending (pending : PendingMutation P) st : CausalState P :=
  mkCausal (cs_root_tx st) (cs_queue st ++ [pending]) (cs_seen st) (cs_derived_count st) (cs_current_depth st)
    (cs_current_mode st) (cs_current_chain st).

(** The part of [enqueue_causal] and [enqueue_causal_replace] before the items are accepted:
    the mode, depth and chain of the new mutation. *)
Definition enqueue_with (first : Item P) (requested_mode : EdgeApplyMode) (label : Z → string)
    (accept : CausalState P → CausalCounters → EdgeApplyMode → Z → list string →
      CausalState P * CausalCounters * result PersistError unit) : M unit := λ s,
  match ctx_causal s with
  | None => Some (s, Err (causal_error first "internal causal state was not initialized"))
  | Some st =>
      let mode := default requested_mode (cs_current_mode st) in
      let depth := match cs_current_depth st with None => 0%Z | Some depth => sat_add depth 1 end in
      let chain := cs_current_chain st ++ [label depth] in
      if (max_depth (ctx_limits s) <? depth)%Z
      then Some (set_counters (count_exhaustion (ctx_counters s)) s,
                 Err (causal_error first ("root=" +:+ cs_root_tx st +:+ " exceeded max depth " +:+
                        pretty (max_depth (ctx_limits s)) +:+ ": " +:+ chain_text chain)))
      else
        let '(st, counters, r) := accept st (ctx_counters s) mode depth chain in
        Some (set_causal (Some st) (set_counters counters s), r)
  end.

(** Accepting a uniform mutation: nothing is queued when every item was seen. *)
Definition accept_uniform items change origin (limits : CausalLimits) st (counters : CausalCounters) mode (depth : Z)
    (chain : list string) : CausalState P * CausalCounters * result PersistError unit :=
  match accept_items limits depth chain change st counters items [] with
  | (st, counters, Err e) => (st, counters, Err e)
  | (st, counters, Ok []) => (st, counters, Ok ())
  | (st, counters, Ok accepted) =>
      (push_pending (mkPending (Uniform accepted change) origin mode depth chain) st, observe_depth depth counters, Ok ())
  end.

Definition enqueue_causal items change origin requested_mode : M unit := λ s,
  match items with
  | [] => Some (s, Ok ())
  | first :: _ =>
      enqueue_with first requested_mode
        (λ depth, show_origin origin +:+ ":" +:+ show_change change +:+ "@" +:+ pretty depth)
        (accept_uniform items change origin (ctx_limits s)) s
  end.

(** Accepting a replacement, its deletes first. *)
Definition accept_replacement (upserts deletes : list (Item P)) origin (expected_graph_generation : option Z)
    (limits : CausalLimits) st (counters : CausalCounters) mode (depth : Z) (chain : list string)
  : CausalState P * CausalCounters * result PersistError unit :=
  match accept_items limits depth chain DEL st counters deletes [] with
  | (st, counters, Err e) => (st, counters, Err e)
  | (st, counters, Ok deletes) =>
      match accept_items limits depth chain SET st counters upserts [] with
      | (st, counters, Err e) => (st, counters, Err e)
      | (st, counters, Ok upserts) =>
          match upserts, deletes with
          | [], [] => (st, counters, Ok ())
          | _, _ =>
              (push_pending (mkPending (Replace upserts deletes expected_graph_generation) origin mode depth chain) st,
               observe_depth depth counters, Ok ())
          end
      end
  end.

Definition enqueue_causal_replace (upserts deletes : list (Item P)) origin requested_mode
    (expected_graph_generation : option Z) : M unit := λ s,
  match upserts ++ deletes with
  | [] => Some (s, Ok ())
  | first :: _ =>
      enqueue_with first requested_mode (λ depth, show_origin origin +:+ ":REPLACE@" +:+ pretty depth)
        (accept_replacement upserts deletes origin expected_graph_generation (ctx_limits s)) s
  end.

(** ** Production *)

Definition persist_dyn item change : M unit := λ s,
  match resolve (env_persisters env) (item_type item) with
  | None => Some (s, Ok ())
  | Some persister =>
      let event := mkEvent change item in
      match persister (ctx_persisted s) event with
      | Ok _ => Some (set_persisted (ctx_persisted s ++ [event]) s, Ok ())
      | Err e => Some (s, Err e)
      end
  end.

Definition send_dyn_to_sink item change : M unit :=
  modify (λ s, if env_event_sink env then set_sunk (ctx_sunk s ++ [mkEvent change item]) s else s).

(** [produce_dyn]: the persister, then the sink. *)
Definition produce_dyn item change : M unit :=
  _ ← persist_dyn item change;
  send_dyn_to_sink item change.

(** ** Effects *)

(** The calls of the search index for one item. *)
Definition search_call item change : SearchCall P :=
  match change with SET => IndexItem item | DEL => RemoveEntity (item_type item) (item_id item) end.

(** ** One mutation *)

Definition canonical_item s item : option (Item P) := lookup_item (ctx_registry s) (item_type item) (item_id item).

(** [(change == MEventType::SET).then_some(item)] is [new_value change item]. *)

Definition entity_of item : EntityRef := mkEntityRef (item_type item) (item_id item).

(** [graph.preflight(..)?] *)
Definition preflight_step (g : GraphIndex P) (old : option (Item P)) item change mode : M unit :=
  s ← get;
  let '(gst, r) := preflight g (ctx_registry s) (ctx_gstate s) old (new_value change item) mode in
  _ ← modify (set_gstate gst);
  graph_result item r.

(** [graph.apply(..)?] *)
Definition apply_step (g : GraphIndex P) (old : option (Item P)) item change : M unit :=
  s ← get;
  let '(gst, r) := apply g (ctx_gstate s) old (new_value change item) in
  _ ← modify (set_gstate gst);
  _ ← graph_result item r;
  mret ().

(** [graph.endpoint_delete_plan(..)?.cascade_edges] *)
Definition delete_plan_step (g : GraphIndex P) item : M (list (Item P)) :=
  s ← get;
  graph_result item (endpoint_delete_plan g (ctx_gstate s) (ctx_registry s) (entity_of item)).

(** The cascades of a deletion, and the validation of the new value. *)
Definition validate_step (coordinated_graph : option (GraphIndex P)) (old : option (Item P)) item change mode
  : M (list (Item P)) :=
  match coordinated_graph with
  | None => mret []
  | Some g =>
      cascades ← match change with DEL => delete_plan_step g item | SET => mret [] end;
      _ ← preflight_step g old item change mode;
      mret cascades
  end.

Definition reduce_one item change : M unit :=
  modify (λ s,
    let s := set_registry (reduce (ctx_registry s) change item) s in
    match change with
    | SET => set_rel (release_ensure_reservation_for_item (ctx_rel s) item) s
    | DEL => s
    end).

(** [publish_watch_change] or [publish_watch_changes], and the callbacks it runs. *)
Definition publish_step item
    (publish : GraphWatchRouter CB → GraphWatchRouter CB * result GraphError (list (CB * MapDiff (Item P)))) : M unit :=
  s ← get;
  let '(w, r) := publish (ctx_router s) in
  _ ← modify (set_router w (match r with Ok runs => runs | Err _ => [] end));
  _ ← graph_result item r;
  mret ().

(** [emit_one] up to the end of its batch: validation, reduction, projection, persistence
    and watches; the result is the edges to cascade to. *)
Definition commit_one item change origin mode : M (list (Item P)) :=
  s ← get;
  let coordinated_graph :=
    match ctx_graph s with Some g => if coordinates g item change then Some g else None | None => None end in
  let old := canonical_item s item in
  graph_cascades ← validate_step coordinated_graph old item change mode;
  _ ← reduce_one item change;
  _ ← match coordinated_graph with Some g => apply_step g old item change | None => mret () end;
  persist_result ← catch (if should_produce origin then persist_dyn item change else mret ());
  watch_result ← catch match coordinated_graph with
                       | None => mret ()
                       | Some g =>
                           s ← get;
                           if has_subscribers (ctx_router s) && bool_decide (is_Some (registration g (item_type item)))
                           then publish_step item (λ w, publish_watch_change g w old (new_value change item))
                           else mret ()
                       end;
  _ ← lift persist_result;
  _ ← lift watch_result;
  mret graph_cascades.

(** ** Batches of one change *)

(** The groups of a [BTreeMap] from type to items, in its order. *)
Definition group_by_type items : list (string * list (Item P)) :=
  (λ t, (t, filter (λ item, item_type item = t) items)) <$> bt_of_list (item_type <$> items).

(** Planning and validating one item of a batch; the accumulated old values and cascades. *)
Definition plan_item (coordinated_graph : option (GraphIndex P)) change mode
    (acc : gmap (string * string) (option (Item P)) * list (Item P)) item
  : M (gmap (string * string) (option (Item P)) * list (Item P)) :=
  s ← get;
  let old := canonical_item s item in
  cascades ← validate_step coordinated_graph old item change mode;
  mret (<[(item_type item, item_id item) := old]> acc.1, acc.2 ++ cascades).

(** A [for] loop that accumulates. *)
Fixpoint fold_each {A B} (f : A → B → M A) (acc : A) (l : list B) : M A :=
  match l with
  | [] => mret acc
  | x :: l => acc ← f acc x; fold_each f acc l
  end.

(** [old_by_key.get(..).cloned().flatten()] *)
Definition old_of (old_by_key : gmap (string * string) (option (Item P))) item : option (Item P) :=
  default None (old_by_key !! (item_type item, item_id item)).

(** [insert_many] or [remove_many] on the store of the group's type. *)
Definition reduce_group change (registry : StoreRegistry P) (group : string * list (Item P)) : StoreRegistry P :=
  foldl (λ registry item, reduce registry change item) registry group.2.

(** Projection and persistence of one reduced item. *)
Definition commit_item (coordinated_graph : option (GraphIndex P))
    (old_by_key : gmap (string * string) (option (Item P))) change origin item : M unit :=
  _ ← match coordinated_graph with Some g => apply_step g (old_of old_by_key item) item change | None => mret () end;
  if should_produce origin then persist_dyn item change else mret ().

(** [emit_grouped] up to the end of its batch. *)
Definition commit_grouped items change origin mode : M (list (Item P)) :=
  match items with
  | [] => mret []
  | first_item :: _ =>
      s ← get;
      let by_type := group_by_type items in
      let grouped := by_type ≫= snd in
      let coordinated_graph :=
        match ctx_graph s with
        | Some g => if existsb (λ item, coordinates g item change) grouped then Some g else None
        | None => None
        end in
      _ ← match coordinated_graph, change with
          | Some g, SET =>
              let '(gst, r) := preflight_batch g (ctx_gstate s) items mode in
              _ ← modify (set_gstate gst);
              graph_result first_item r
          | _, _ => mret ()
          end;
      plan ← fold_each (plan_item coordinated_graph change mode) (∅, []) grouped;
      let '(old_by_key, graph_cascades) := plan in
      s ← get;
      let graph_watch_changes :=
        match coordinated_graph with
        | Some g =>
            if has_subscribers (ctx_router s)
            then (λ item, (old_of old_by_key item, new_value change item)) <$>
                   filter (λ item, is_Some (registration g (item_type item))) grouped
            else []
        | None => []
        end in
      _ ← modify (λ s, set_registry (foldl (reduce_group change) (ctx_registry s) by_type) s);
      mutation_result ← catch (for_each (commit_item coordinated_graph old_by_key change origin) grouped);
      watch_result ← catch match graph_watch_changes, coordinated_graph with
                           | _ :: _, Some g =>
                               publish_step first_item (λ w, publish_watch_changes g w graph_watch_changes)
                           | _, _ => mret ()
                           end;
      _ ← lift mutation_result;
      _ ← lift watch_result;
      mret graph_cascades
  end.

(** ** Replacements *)

(** Planning one deletion; a delete of a missing item is not effective. *)
Definition plan_delete (coordinated_graph : option (GraphIndex P))
    (acc : gmap (string * string) (option (Item P)) * list (Item P) * list (Item P)) item
  : M (gmap (string * string) (option (Item P)) * list (Item P) * list (Item P)) :=
  let '(old_by_key, effective_deletes, graph_cascades) := acc in
  s ← get;
  match canonical_item s item with
  | None => mret (<[(item_type item, item_id item) := None]> old_by_key, effective_deletes, graph_cascades)
  | Some old =>
      cascades ← match coordinated_graph with Some g => delete_plan_step g item | None => mret [] end;
      mret (<[(item_type item, item_id item) := Some old]> old_by_key, effective_deletes ++ [item],
            graph_cascades ++ cascades)
  end.

(** The first item whose type and id were seen before. *)
Fixpoint repeated_item (seen : gset (string * string)) items : option (Item P) :=
  match items with
  | [] => None
  | item :: items =>
      if bool_decide ((item_type item, item_id item) ∈ seen) then Some item
      else repeated_item ({[(item_type item, item_id item)]} ∪ seen) items
  end.

(** The deletes and upserts of each type, in type order. *)
Definition replace_by_type (effective_deletes upserts : list (Item P)) : list (list (Item P) * list (Item P)) :=
  (λ t, (filter (λ item, item_type item = t) effective_deletes, filter (λ item, item_type item = t) upserts)) <$>
    bt_of_list (item_type <$> (effective_deletes ++ upserts)).

(** [store.apply_batch(changes)] of one type. *)
Definition reduce_replacement (registry : StoreRegistry P) (group : list (Item P) * list (Item P)) : StoreRegistry P :=
  foldl store_insert (foldl remove_item registry group.1) group.2.

(** The stores of every type, then the index and the persisters: deletes first. *)
Definition commit_changes (coordinated_graph : option (GraphIndex P))
    (old_by_key : gmap (string * string) (option (Item P))) (effective_deletes upserts : list (Item P)) origin : M unit :=
  _ ← modify (λ s, set_registry (foldl reduce_replacement (ctx_registry s) (replace_by_type effective_deletes upserts)) s);
  _ ← for_each (commit_item coordinated_graph old_by_key DEL origin) effective_deletes;
  for_each (commit_item coordinated_graph old_by_key SET origin) upserts.

(** [emit_replace_grouped] up to the end of its batch: the groups and the cascades, or
    [None] when the expected generation is stale. *)
Definition commit_replacement (upserts deletes : list (Item P)) origin mode (expected_graph_generation : option Z)
  : M (option (list (list (Item P) * list (Item P)) * list (Item P))) :=
  match upserts ++ deletes with
  | [] => mret (Some ([], []))
  | first_item :: _ =>
      match repeated_item ∅ (deletes ++ upserts) with
      | Some item => raise (graph_error item "replacement batch contains the same entity ID more than once")
      | None =>
          s ← get;
          let coordinated_graph :=
            match ctx_graph s with
            | Some g => if existsb (λ item, coordinates g item DEL) deletes ||
                           existsb (λ item, coordinates g item SET) upserts then Some g else None
            | None => None
            end in
          let stale :=
            match coordinated_graph, expected_graph_generation with
            | Some _, Some expected => negb (bool_decide (gs_generation (ctx_gstate s) = expected))
            | _, _ => false
            end in
          if stale : bool then mret None
          else
            plan ← fold_each (plan_delete coordinated_graph) (∅, [], []) deletes;
            let '(old_by_key, effective_deletes, graph_cascades) := plan in
            s ← get;
            let old_by_key :=
              foldl (λ m item, <[(item_type item, item_id item) := canonical_item s item]> m) old_by_key upserts in
            _ ← match coordinated_graph with
                | Some g =>
                    let '(gst, r) := preflight_replace_batch g (ctx_registry s) (ctx_gstate s) upserts effective_deletes mode in
                    _ ← modify (set_gstate gst);
                    graph_result first_item r
                | None => mret ()
                end;
            let edge_items (g : GraphIndex P) := filter (λ item : Item P, is_Some (registration g (item_type item))) in
            let graph_watch_changes :=
              match coordinated_graph with
              | Some g =>
                  if has_subscribers (ctx_router s)
                  then omap (λ item, (λ old, (Some old, None)) <$> old_of old_by_key item) (edge_items g effective_deletes) ++
                       ((λ item, (old_of old_by_key item, Some item)) <$> edge_items g upserts)
                  else []
              | None => []
              end in
            let by_type := replace_by_type effective_deletes upserts in
            _ ← commit_changes coordinated_graph old_by_key effective_deletes upserts origin;
            _ ← match graph_watch_changes, coordinated_graph with
                | _ :: _, Some g => publish_step first_item (λ w, publish_watch_changes g w graph_watch_changes)
                | _, _ => mret ()
                end;
            mret (Some (by_type, graph_cascades))
      end
  end.

(** ** Emission *)
Section emit.
(** [submit_mutation]. *)
Context (submit : list (Item P) → MEventType → Origin → M unit).

Definition apply_effects items change origin (persister_already_enqueued : bool) : M unit :=
  _ ← modify (λ s, set_search (ctx_search s ++ ((λ item, search_call item change) <$> items)) s);
  _ ← (if should_cascade origin change
       then match change with
            | SET => forward_set_batch env submit items
            | DEL => forward_del_batch submit items
            end
       else mret ());
  if should_produce origin
  then for_each (λ item, if persister_already_enqueued then send_dyn_to_sink item change
                         else produce_dyn item change) items
  else mret ().

Definition emit_one item change origin mode : M unit :=
  graph_cascades ← commit_one item change origin mode;
  _ ← apply_effects [item] change origin true;
  submit graph_cascades DEL Cascade.

Definition emit_grouped items change origin mode : M unit :=
  match items with
  | [] => mret ()
  | _ =>
      graph_cascades ← commit_grouped items change origin mode;
      _ ← for_each (λ group : string * list (Item P), apply_effects group.2 change origin true) (group_by_type items);
      submit graph_cascades DEL Cascade
  end.

Definition emit_replace_grouped (upserts deletes : list (Item P)) origin mode (expected_graph_generation : option Z)
  : M bool :=
  match upserts ++ deletes with
  | [] => mret true
  | _ =>
      plan ← commit_replacement upserts deletes origin mode expected_graph_generation;
      match plan with
      | None => mret false
      | Some (by_type, graph_cascades) =>
          _ ← for_each (λ group : list (Item P) * list (Item P),
                _ ← apply_effects group.1 DEL origin true;
                apply_effects group.2 SET origin true) by_type;
          _ ← submit graph_cascades DEL Cascade;
          mret true
      end
  end.

(** A uniform mutation: the single-item path, or the batch path. *)
Definition emit_uniform items change origin mode : M unit :=
  match items with
  | [item] => emit_one item change origin mode
  | _ => emit_grouped items change origin mode
  end.

(** ** Draining a root *)

(** Popping the queue makes the mutation the current one. *)
Definition pop_pending : M (option (PendingMutation P)) := λ s,
  match ctx_causal s with
  | None => Some (s, Ok None)
  | Some st =>
      match cs_queue st with
      | [] => Some (s, Ok None)
      | pending :: queue =>
          Some (set_causal (Some (mkCausal (cs_root_tx st) queue (cs_seen st) (cs_derived_count st)
                  (Some (pm_depth pending)) (Some (pm_mode pending)) (pm_chain pending))) s, Ok (Some pending))
      end
  end.

Definition emit_pending (pending : PendingMutation P) : M bool :=
  match pm_kind pending with
  | Uniform items change => _ ← emit_uniform items change (pm_origin pending) (pm_mode pending); mret true
  | Replace upserts deletes expected =>
      emit_replace_grouped upserts deletes (pm_origin pending) (pm_mode pending) expected
  end.

(** [stop_on_stale] is the [return Ok(false)] of the replacing root. *)
Fixpoint drain (steps : nat) (stop_on_stale : bool) : M bool := λ s,
  match steps with
  | O => None
  | S steps =>
      (pending ← pop_pending;
       match pending with
       | None => mret true
       | Some pending =>
           applied ← emit_pending pending;
           if negb applied && stop_on_stale then mret false else drain steps stop_on_stale
       end) s
  end.
End emit.

(** ** Roots *)

Definition open_root : M unit := λ s,
  let root_tx := env_new_v4 env (ctx_uuids s) in
  Some (set_causal (Some (mkCausal root_tx [] ∅ 0 None None []))
          (set_uuids (ctx_uuids s + 1)%Z (set_counters (count_root (ctx_counters s)) s)), Ok ()).

(** The root's state is dropped whatever the outcome. *)
Definition in_root {A} (body : M A) : M A :=
  _ ← open_root;
  result ← catch body;
  _ ← modify (set_causal None);
  lift result.

Definition needs_causal_root s items change origin : bool :=
  should_cascade origin change &&
  existsb (λ item, rel_coordinates (ctx_rel s) (item_type item) change ||
                   match ctx_graph s with Some g => coordinates g item change | None => false end) items.

Fixpoint submit_mutation_mode (fuel steps : nat) items change origin mode : M unit := λ s,
  match fuel with
  | O => None
  | S fuel =>
      let submit items change origin := submit_mutation_mode fuel steps items change origin Authoritative in
      match ctx_causal s with
      | Some _ => enqueue_causal items change origin mode s
      | None =>
          if negb (needs_causal_root s items change origin)
          then emit_uniform submit items change origin mode s
          else in_root (_ ← enqueue_causal items change origin mode; _ ← drain submit steps false; mret ()) s
      end
  end.

Definition submit_mutation (fuel steps : nat) items change origin : M unit :=
  submit_mutation_mode fuel steps items change origin Authoritative.

Definition submit_replace_mutation_inner (fuel steps : nat) (upserts deletes : list (Item P)) origin
    (expected_graph_generation : option Z) : M bool := λ s,
  match upserts, deletes with
  | [], [] => Some (s, Ok true)
  | _, _ =>
      match ctx_causal s with
      | Some _ =>
          match expected_graph_generation with
          | Some _ => Some (s, Ok false)
          | None => (_ ← enqueue_causal_replace upserts deletes origin Authoritative None; mret true) s
          end
      | None =>
          in_root (_ ← enqueue_causal_replace upserts deletes origin Authoritative expected_graph_generation;
                   drain (submit_mutation fuel steps) steps true) s
      end
  end.
End pipeline.
