(* ===== verification/Ingest.v ===== *)
(** * Entry points and wire ingest

    The publishing methods of [MykoServerContext] in [core/src/server/context.rs] and its
    ingest of wire events, immediate or buffered per entity type.  The thread that flushes a
    buffer after its time window is the operation [flush_buffered_events_for_type], run at
    some later point; [bi_flush_scheduled] says that one is pending.  A poisoned lock is not
    modelled.  [fuel] and [steps] are those of [submit_mutation_mode]. *)

From stdpp Require Import base strings numbers option countable gmap sets list.
From S2P Require Import Prelude Order GraphTypes EdgeIds GraphIndex GraphQuery GraphPreflight GraphWatch ServerTypes Relationship Pipeline.

Section ingest.
Context {P CB J : Type} (env : Env P J) (fuel steps : nat).
Abbreviation M := (M P CB J).
Implicit Types (item : Item P) (items : list (Item P)) (s : Ctx P CB J).

(** ** Typed and dynamic publishing *)

Definition set_dyn_with_origin item (origin : Origin) : M unit := submit_mutation env fuel steps [item] SET origin.
Definition set_dyn item : M unit := set_dyn_with_origin item Local.
Definition set_transient item : M unit := set_dyn_with_origin item Transient.
Definition del_dyn_with_origin item (origin : Origin) : M unit := submit_mutation env fuel steps [item] DEL origin.
Definition del_dyn item : M unit := del_dyn_with_origin item Local.
Definition set_batch_any items : M unit := submit_mutation env fuel steps items SET Local.
Definition del_batch_any items : M unit := submit_mutation env fuel steps items DEL Local.

Definition replace_batch_any (upserts deletes : list (Item P)) : M unit :=
  _ ← submit_replace_mutation_inner env fuel steps upserts deletes Local None; mret ().
Definition replace_batch_any_if_graph_generation (upserts deletes : list (Item P)) (expected : Z) : M bool :=
  submit_replace_mutation_inner env fuel steps upserts deletes Local (Some expected).

(** Deletion by type and id, which goes neither through the graph nor through the
    relationships. *)
Definition del_by_id_with_origin (entity_type id : string) (origin : Origin) : M unit :=
  s ← get;
  let existing := lookup_item (ctx_registry s) entity_type id in
  _ ← modify (λ s, set_registry (store_remove (ctx_registry s) entity_type id) s);
  _ ← modify (λ s, set_search (ctx_search s ++ [RemoveEntity entity_type id]) s);
  if should_produce origin
  then match existing with Some item => produce_dyn env item DEL | None => mret () end
  else mret ().
Definition del_by_id (entity_type id : string) : M unit := del_by_id_with_origin entity_type id Local.

Definition set_causal_limits (limits : CausalLimits) : M unit := modify (set_limits limits).

(** ** Wire events *)

Definition parse_item (entity_type : string) (json : J) : option (Item P) :=
  parse ← env_item_parser env entity_type;
  parse json.

(** The parsed items of one change, in order. *)
Definition parsed (change : MEventType) (events : list (MEvent J)) : list (Item P) :=
  omap (λ event, if bool_decide (me_change_type event = change)
                 then parse_item (me_item_type event) (me_item event) else None) events.

Definition apply_event_batch_immediate (events : list (MEvent J)) : M Z :=
  match events with
  | [] => mret 0%Z
  | _ =>
      let set_items := parsed SET events in
      let del_items := parsed DEL events in
      let applied := sat_add (len set_items) (len del_items) in
      if bool_decide (applied = 0%Z) then mret 0%Z
      else
        _ ← submit_mutation_mode env fuel steps set_items SET Local Import;
        _ ← submit_mutation_mode env fuel steps del_items DEL Local Import;
        mret applied
  end.

Definition item_buffer_policy (entity_type : string) : IngestBufferPolicy :=
  default NoBuffer (env_buffer_policies env !! entity_type).

(** [should_schedule] is the returned flag; the thread it spawns runs the flush. *)
Definition enqueue_buffered_events (entity_type : string) (events : list (MEvent J)) : M bool := λ s,
  let buffer := default (mkBuffer [] false) (ctx_buffers s !! entity_type) in
  Some (set_buffers (<[entity_type := mkBuffer (bi_events buffer ++ events) true]> (ctx_buffers s)) s,
        Ok (negb (bi_flush_scheduled buffer))).

(** [buffered_by_type.entry(..).or_insert_with(..).1.push(event)] *)
Definition buffer_event (m : gmap string (Z * list (MEvent J))) (window_ms : Z) (event : MEvent J)
  : gmap string (Z * list (MEvent J)) :=
  let '(w, events) := default (window_ms, []) (m !! me_item_type event) in
  <[me_item_type event := (w, events ++ [event])]> m.

(** The immediate events, and the buffered ones by type. *)
Definition split_event (acc : list (MEvent J) * gmap string (Z * list (MEvent J))) (event : MEvent J)
  : list (MEvent J) * gmap string (Z * list (MEvent J)) :=
  match item_buffer_policy (me_item_type event) with
  | NoBuffer => (acc.1 ++ [event], acc.2)
  | TimeWindow window_ms => (acc.1, buffer_event acc.2 window_ms event)
  end.

Definition apply_event_batch (events : list (MEvent J)) : M Z :=
  match events with
  | [] => mret 0%Z
  | _ =>
      let '(immediate_events, buffered_by_type) := foldl split_event ([], ∅) events in
      accepted ← match immediate_events with [] => mret 0%Z | _ => apply_event_batch_immediate immediate_events end;
      fold_each (λ accepted (entry : string * (Z * list (MEvent J))),
        _ ← enqueue_buffered_events entry.1 entry.2.2;
        mret (sat_add accepted (len entry.2.2))) accepted (map_to_list buffered_by_type)
  end.

Definition apply_event (event : MEvent J) : M bool :=
  accepted ← apply_event_batch [event];
  mret (bool_decide (accepted = 1%Z)).

(** Errors of the flush are logged and swallowed. *)
Definition flush_buffered_events_for_type (entity_type : string) : M Z :=
  s ← get;
  match ctx_buffers s !! entity_type with
  | None => mret 0%Z
  | Some buffer =>
      _ ← modify (set_buffers (<[entity_type := mkBuffer [] false]> (ctx_buffers s)));
      match bi_events buffer with
      | [] => mret 0%Z
      | events =>
          result ← catch (apply_event_batch_immediate events);
          mret match result with Ok count => count | Err _ => 0%Z end
      end
  end.
End ingest.
