(* ===== verification/ServerFixtures.v ===== *)
(** * Concrete server contexts

    Two contexts at which the theorems about the server are instantiated: [Gx], the graph of
    [Fixtures] behind a server without relationships, and [Rx], a server without a graph
    whose items are related: [Folder]s nest by [belongs_to], a [Scene] owns [Part]s, and one
    [Status] is ensured for every [Session] and [Scene]. *)

From stdpp Require Import base strings numbers option countable gmap sets list pretty.
From S2P Require Import Prelude Order GraphTypes EdgeIds GraphIndex GraphQuery GraphPreflight GraphWatch Fixtures ServerTypes Relationship Pipeline Ingest.

Section common.
Context {P : Type} `{Countable P}.

(** Items are their own wire form; their hash is their encoding modulo a 64-bit prime. *)
Definition content_hash_fx (item : Item P) : Z :=
  (Zpos (encode (item_type item, item_id item, item_payload item)) mod 18446744073709551557)%Z.

Definition accepting : Persister P := λ _ _, Ok ().

Definition env_fx (persister : Persister P) : Env P (Item P) :=
  mkEnv P (Item P) "host" content_hash_fx (λ n, "tx" +:+ pretty n) (λ _, Some Some) {["Pulse" := TimeWindow 5]}
    (λ _, None) (λ _ _, None) (mkPersisterRouter (Some persister) ∅) true.

Definition ctx_fx (registry : StoreRegistry P) (graph : option (GraphIndex P)) (gst : GraphState)
    (rm : RelationshipManager P) : Ctx P nat (Item P) :=
  mkCtx registry graph gst router_default [] rm [] [] [] ∅ limits_default counters_default None 0.

Definition no_relations : RelationshipManager P := mkManager tables_default ∅ ∅ ∅.
End common.

(** ** A server with a graph *)
Module Gx.
Definition ctx : Ctx Fx.Payload nat (Item Fx.Payload) := ctx_fx Fx.registry (Some Fx.graph) Fx.state no_relations.
Definition env := env_fx (P := Fx.Payload) accepting.
End Gx.

(** ** A server with relationships *)
Module Rx.
(** The fields of an item, by position. *)
Definition Fields := list string.

Definition folder (id parent : string) : Item Fields := mkItem "Folder" id [parent].
Definition part (id : string) : Item Fields := mkItem "Part" id [].
Definition scene (id : string) (parts : list string) : Item Fields := mkItem "Scene" id parts.
Definition session (id : string) : Item Fields := mkItem "Session" id [].
Definition status (id session scene : string) : Item Fields := mkItem "Status" id [session; scene].

Definition field (i : nat) (item : Item Fields) : option string := item_payload item !! i.

Definition relations : list (Relation Fields) :=
  [BelongsTo "Folder" "Folder" (field 0);
   OwnsMany "Scene" "Part" (λ item, Some (item_payload item))
     (λ item id, Some (mkItem (item_type item) (item_id item) (filter (λ x, x ≠ id) (item_payload item))));
   EnsureFor "Status" [mkDependency "Session" (field 0); mkDependency "Scene" (field 1)]
     (λ uuid combo, mkItem "Status" ("st" +:+ pretty uuid) combo)].

Definition manager : RelationshipManager Fields :=
  match manager_new relations with Some (Ok rm) => rm | _ => no_relations end.

Definition env := env_fx (P := Fields) accepting.

Definition ctx_of (items : list (Item Fields)) : Ctx Fields nat (Item Fields) :=
  ctx_fx (foldl store_insert ∅ items) None GraphState_default manager.

Definition state_after {A} (m : M Fields nat (Item Fields) A) (s : Ctx Fields nat (Item Fields))
  : option (list (Item Fields) * bool) :=
  match m s with
  | Some (s', r) => Some ((map_to_list (ctx_registry s')).*2 ≫= λ store, (map_to_list store).*2, is_ok r)
  | None => None
  end.
End Rx.
