(* ===== verification/PipelineProof.v ===== *)
(** * Termination of the mutation pipeline

    A small program logic for the monad [M], and with it the proof that a submission always
    returns: each pending mutation is paid for from the budget of derived mutations, so the
    queue of a root is empty after at most one step more than the budget. *)

From stdpp Require Import base strings numbers option countable gmap sets list.
From S2P Require Import Prelude Order GraphTypes EdgeIds GraphIndex GraphQuery GraphPreflight GraphWatch ServerTypes Relationship Pipeline.

(** ** Total correctness with an invariant and a relation between the states *)
Section keeps.
Context {P CB J : Type} (I : Ctx P CB J → Prop) (R : relation (Ctx P CB J)) `{!PreOrder R}.
Abbreviation M := (M P CB J).
Implicit Types s : Ctx P CB J.

(** From any state with the invariant the code returns, in such a state, related to it. *)
Definition keeps {A} (m : M A) : Prop :=
  ∀ s, I s → ∃ s' r, m s = Some (s', r) ∧ I s' ∧ R s s'.

Lemma keeps_pure {A} (r : result PersistError A) : keeps (lift r).
Proof. intros s Hs. exists s, r. by split_and!. Qed.
Lemma keeps_ret {A} (a : A) : keeps (mret a).
Proof. apply (keeps_pure (Ok a)). Qed.
Lemma keeps_raise {A} e : keeps (raise (A := A) e).
Proof. apply (keeps_pure (Err e)). Qed.

Lemma keeps_bind {A B} (m : M A) (k : A → M B) : keeps m → (∀ a, keeps (k a)) → keeps (m ≫= k).
Proof.
  intros Hm Hk s Hs. destruct (Hm s Hs) as (s1 & [a|e] & E & H1 & R1); unfold mbind, M_bind; rewrite E.
  - destruct (Hk a s1 H1) as (s2 & r & E2 & H2 & R2). exists s2, r. split_and!; try done. by etrans.
  - by exists s1, (Err e).
Qed.

Lemma keeps_get {B} (k : Ctx P CB J → M B) : (∀ s, I s → keeps (k s)) → keeps (get ≫= k).
Proof. intros Hk s Hs. unfold mbind, M_bind, get. by apply (Hk s Hs). Qed.

Lemma keeps_modify f : (∀ s, I s → I (f s) ∧ R s (f s)) → keeps (modify f).
Proof. intros H s Hs. destruct (H s Hs). by exists (f s), (Ok ()). Qed.

Lemma keeps_catch {A} (m : M A) : keeps m → keeps (catch m).
Proof.
  intros Hm s Hs. destruct (Hm s Hs) as (s' & r & E & ? & ?). unfold catch. rewrite E. by exists s', (Ok r).
Qed.

Lemma keeps_for_each {A} (f : A → M unit) l : (∀ x, x ∈ l → keeps (f x)) → keeps (for_each f l).
Proof.
  induction l as [|x l IH]; intros H; simpl; [apply keeps_ret|].
  apply keeps_bind; [apply H; by left|]. intros _. apply IH. intros y Hy. apply H. by right.
Qed.

Lemma keeps_fold_each {A B} (f : A → B → M A) l acc : (∀ acc x, x ∈ l → keeps (f acc x)) → keeps (fold_each f acc l).
Proof.
  revert acc. induction l as [|x l IH]; intros acc H; simpl; [apply keeps_ret|].
  apply keeps_bind; [apply H; by left|]. intros acc'. apply IH. intros a y Hy. apply H. by right.
Qed.
End keeps.

Create HintDb keeps.
#[export] Hint Resolve keeps_pure keeps_ret keeps_raise keeps_catch : keeps.

(** Walks through a block of [keeps] goals; what remains are the updates and the calls. *)
Ltac keeps_apply L := apply L; try lazymatch goal with |- PreOrder _ => apply _ end.
Ltac keeps_step :=
  match goal with
  | |- ∀ _, _ => intros ?
  | |- keeps _ _ (mbind _ get) => apply keeps_get
  | |- keeps _ _ (mbind _ _) => keeps_apply @keeps_bind
  | |- keeps _ _ (mret _) => keeps_apply @keeps_ret
  | |- keeps _ _ (lift _) => keeps_apply @keeps_pure
  | |- keeps _ _ (raise _) => keeps_apply @keeps_raise
  | |- keeps _ _ (catch _) => apply keeps_catch
  | |- keeps _ _ (for_each _ _) => keeps_apply @keeps_for_each
  | |- keeps _ _ (fold_each _ _ _) => keeps_apply @keeps_fold_each
  | |- keeps _ _ (match ?x with _ => _ end) => destruct x
  | |- keeps _ _ (let '(_, _) := ?x in _) => destruct x
  | |- keeps _ _ (if ?x then _ else _) => destruct x
  end.
Ltac keeps_tac := repeat (cbv zeta; keeps_step); try done; eauto with keeps.

(** ** Frames: what emission leaves alone *)
Section frame.
Context {P CB J : Type} (env : Env P J).
Implicit Types (s : Ctx P CB J) (item : Item P).

Record frame s s' : Prop := mkFrame {
  frame_causal : ctx_causal s' = ctx_causal s;
  frame_limits : ctx_limits s' = ctx_limits s;
  frame_graph : ctx_graph s' = ctx_graph s;
  frame_tables : rm_tables (ctx_rel s') = rm_tables (ctx_rel s);
  frame_buffers : ctx_buffers s' = ctx_buffers s
}.
#[export] Instance frame_preorder : PreOrder frame.
Proof. split; [by split|]. intros s1 s2 s3 [] []. split; congruence. Qed.

(** The committing part of an emission always returns and keeps the frame; any invariant of
    the frame may be added. *)
Context (I : Ctx P CB J → Prop) (HI : ∀ s s', frame s s' → I s → I s').
Abbreviation K := (keeps I frame).

Lemma modify_frame f : (∀ s, frame s (f s)) → K (modify f).
Proof. intros H. apply keeps_modify. intros s Hs. split; [exact (HI _ _ (H s) Hs)|exact (H s)]. Qed.

Lemma graph_result_frame {A} item (r : result GraphError A) : K (graph_result item r).
Proof. apply keeps_pure, _. Qed.

Lemma persist_frame item change : K (persist_dyn env item change).
Proof.
  intros s Hs. unfold persist_dyn. destruct (resolve _ _) as [p|]; [|by exists s, (Ok ())].
  destruct (p _ _); [|by exists s, (Err e)].
  assert (frame s (set_persisted (ctx_persisted s ++ [mkEvent change item]) s)) as F by by split.
  eexists _, _. split; [done|]. split; [exact (HI _ _ F Hs)|exact F].
Qed.

Lemma sink_frame item change : K (send_dyn_to_sink env item change).
Proof. apply modify_frame. intros s. by destruct (env_event_sink env). Qed.

Lemma preflight_frame g old item change mode : K (preflight_step g old item change mode).
Proof.
  unfold preflight_step. keeps_tac; [apply modify_frame; by split|apply graph_result_frame].
Qed.

Lemma apply_frame g old item change : K (apply_step g old item change).
Proof.
  unfold apply_step. keeps_tac; [apply modify_frame; by split|apply graph_result_frame].
Qed.

Lemma delete_plan_frame g item : K (delete_plan_step g item).
Proof. unfold delete_plan_step. keeps_tac. apply graph_result_frame. Qed.

Lemma reduce_one_frame item change : K (reduce_one item change).
Proof. apply modify_frame. intros s. by destruct change. Qed.

Lemma publish_frame item publish : K (publish_step item publish).
Proof. unfold publish_step. keeps_tac; [apply modify_frame; by split|apply graph_result_frame]. Qed.
#[local] Hint Resolve graph_result_frame persist_frame sink_frame preflight_frame apply_frame delete_plan_frame
  reduce_one_frame publish_frame : keeps.

Lemma validate_frame graph old item change mode : K (validate_step graph old item change mode).
Proof. unfold validate_step. keeps_tac. Qed.
#[local] Hint Resolve validate_frame : keeps.

Lemma commit_one_frame item change origin mode : K (commit_one env item change origin mode).
Proof. unfold commit_one. keeps_tac. Qed.

Lemma commit_item_frame graph old_by_key change origin item : K (commit_item env graph old_by_key change origin item).
Proof. unfold commit_item. keeps_tac. Qed.

Lemma plan_item_frame graph change mode acc item : K (plan_item graph change mode acc item).
Proof. unfold plan_item. keeps_tac. Qed.

Lemma plan_delete_frame graph acc item : K (plan_delete graph acc item).
Proof. unfold plan_delete. keeps_tac. Qed.
#[local] Hint Resolve commit_item_frame plan_item_frame plan_delete_frame : keeps.

Lemma commit_grouped_frame items change origin mode : K (commit_grouped env items change origin mode).
Proof. unfold commit_grouped. keeps_tac; apply modify_frame; by split. Qed.

Lemma commit_changes_frame graph old_by_key deletes upserts origin :
  K (commit_changes env graph old_by_key deletes upserts origin).
Proof. unfold commit_changes. keeps_tac. apply modify_frame. by split. Qed.
#[local] Hint Resolve commit_changes_frame : keeps.

Lemma commit_replacement_frame upserts deletes origin mode expected :
  K (commit_replacement env upserts deletes origin mode expected).
Proof. unfold commit_replacement. keeps_tac; apply modify_frame; by split. Qed.
End frame.
#[export] Hint Resolve graph_result_frame persist_frame sink_frame preflight_frame apply_frame delete_plan_frame
  reduce_one_frame publish_frame : keeps.

(** ** Effects and emissions, for any submission *)
Section tables_kept.
Context {P : Type}.
Implicit Types (rm : RelationshipManager P) (lookup : BelongsToLookup P).

Lemma remove_child_tables lookup id rm : rm_tables (remove_belongs_to_child lookup id rm) = rm_tables rm.
Proof. unfold remove_belongs_to_child. by repeat case_match. Qed.

Lemma index_child_tables lookup item rm : rm_tables (index_belongs_to_child lookup item rm) = rm_tables rm.
Proof. unfold index_belongs_to_child. case_match; simpl; apply remove_child_tables. Qed.

Lemma load_tables registry lookup rm : rm_tables (ensure_belongs_to_index_loaded registry lookup rm) = rm_tables rm.
Proof. unfold ensure_belongs_to_index_loaded. case_match; [done|]. by destruct (foldl _ _ _). Qed.

Lemma foldl_tables {A} (f : A → RelationshipManager P → RelationshipManager P) l rm :
  (∀ x rm, rm_tables (f x rm) = rm_tables rm) → rm_tables (foldl (λ rm x, f x rm) rm l) = rm_tables rm.
Proof. intros H. revert rm. induction l as [|x l IH]; intros rm; simpl; [done|]. by rewrite IH, H. Qed.
End tables_kept.

Section effects.
Context {P CB J : Type} (env : Env P J) (I : Ctx P CB J → Prop) (R : relation (Ctx P CB J)) `{!PreOrder R}.
Context (HF : ∀ s s', frame s s' → I s → I s' ∧ R s s').
Context (submit : list (Item P) → MEventType → Origin → M P CB J unit).
Context (Hsubmit : ∀ items change origin, keeps I R (submit items change origin)).
Abbreviation K := (keeps I R).

Lemma framed_keeps {A} (m : M P CB J A) : keeps I frame m → K m.
Proof.
  intros H s Hs. destruct (H s Hs) as (s' & r & E & _ & F). exists s', r. split; [done|]. by apply HF.
Qed.

Lemma modify_keeps f : (∀ s, frame s (f s)) → K (modify f).
Proof. intros H. apply keeps_modify. intros s Hs. by apply HF. Qed.

Lemma update_rel_keeps f : (∀ rm, rm_tables (f rm) = rm_tables rm) → K (update_rel f).
Proof. intros H. apply modify_keeps. intros s. split; try done. apply H. Qed.

Lemma publish_batch_keeps items : K (publish_del_cascade_batch submit items).
Proof. unfold publish_del_cascade_batch. keeps_tac. Qed.
#[local] Hint Resolve publish_batch_keeps : keeps.

Lemma find_children_tables registry lookup id (rm : RelationshipManager P) :
  rm_tables (find_children_by_fk registry lookup id rm).1 = rm_tables rm.
Proof. apply load_tables. Qed.

Lemma children_keeps lookup ids : K (children_of_parents lookup ids).
Proof.
  unfold children_of_parents. generalize (∅ : gmap string (Item P)).
  induction ids as [|id ids IH]; intros acc; [apply keeps_ret, _|].
  apply keeps_bind; [apply _| |intros children; apply IH].
  intros s Hs. unfold query_rel. pose proof (find_children_tables (ctx_registry s) lookup id (ctx_rel s)) as T.
  destruct (find_children_by_fk _ _ _ _) as [rm children]. eexists _, _. split; [done|]. apply HF; [|done]. by split.
Qed.
#[local] Hint Resolve children_keeps : keeps.

Lemma ensure_combination_keeps lookup combo : K (ensure_combination env submit lookup combo).
Proof.
  unfold ensure_combination, publish_set_cascade. keeps_tac; try by apply update_rel_keeps.
  apply modify_keeps. by split.
Qed.
#[local] Hint Resolve ensure_combination_keeps : keeps.

Lemma ensure_missing_keeps lookup combos existing : K (ensure_missing env submit lookup combos existing).
Proof. revert existing. induction combos as [|combo combos IH]; intros existing; simpl; keeps_tac. Qed.
#[local] Hint Resolve ensure_missing_keeps : keeps.

Lemma forward_set_keeps items : K (forward_set_batch env submit items).
Proof.
  unfold forward_set_batch, handle_ensure_for_type. keeps_tac.
  - apply update_rel_keeps. intros rm. apply load_tables.
  - apply update_rel_keeps. intros rm. apply (foldl_tables (index_belongs_to_child _)). intros. apply index_child_tables.
Qed.

Lemma forward_del_keeps items : K (forward_del_batch submit items).
Proof.
  unfold forward_del_batch, handle_belongs_to_cascade_batch, handle_owns_many_parent_delete_batch,
    handle_ensure_for_delete_batch, handle_owns_many_child_delete, publish_relationship_fixup_batch. keeps_tac.
  apply update_rel_keeps. intros rm. apply (foldl_tables (λ lookup, remove_belongs_to_child lookup _)).
  intros. apply remove_child_tables.
Qed.
#[local] Hint Resolve forward_set_keeps forward_del_keeps : keeps.

Lemma produce_keeps item change : K (produce_dyn env item change).
Proof. unfold produce_dyn. keeps_tac; apply framed_keeps; [apply persist_frame|apply sink_frame]; by apply HF. Qed.

Lemma sink_keeps item change : K (send_dyn_to_sink env item change).
Proof. apply framed_keeps, sink_frame. by apply HF. Qed.
#[local] Hint Resolve produce_keeps sink_keeps : keeps.

Lemma apply_effects_keeps items change origin already : K (apply_effects env submit items change origin already).
Proof. unfold apply_effects. keeps_tac. apply modify_keeps. by split. Qed.
#[local] Hint Resolve apply_effects_keeps : keeps.

Lemma emit_one_keeps item change origin mode : K (emit_one env submit item change origin mode).
Proof. unfold emit_one. keeps_tac. apply framed_keeps, commit_one_frame. by apply HF. Qed.

Lemma emit_grouped_keeps items change origin mode : K (emit_grouped env submit items change origin mode).
Proof. unfold emit_grouped. keeps_tac. apply framed_keeps, commit_grouped_frame. by apply HF. Qed.

Lemma emit_replace_keeps upserts deletes origin mode expected :
  K (emit_replace_grouped env submit upserts deletes origin mode expected).
Proof. unfold emit_replace_grouped. keeps_tac; apply framed_keeps, commit_replacement_frame; by apply HF. Qed.
#[local] Hint Resolve emit_one_keeps emit_grouped_keeps emit_replace_keeps : keeps.

Lemma emit_uniform_keeps items change origin mode : K (emit_uniform env submit items change origin mode).
Proof. unfold emit_uniform. keeps_tac. Qed.
#[local] Hint Resolve emit_uniform_keeps : keeps.

Lemma emit_pending_keeps pending : K (emit_pending env submit pending).
Proof. unfold emit_pending. keeps_tac. Qed.
End effects.

(** ** The causal budget *)
Section budget.
Context {P CB J : Type} (env : Env P J).
Implicit Types (s : Ctx P CB J) (st : CausalState P) (item : Item P) (items : list (Item P)).

Definition keys (change : MEventType) items : list TransitionKey := (λ item, transition_key env item change) <$> items.

(** What accepting items does: their new transitions, each once, are added to the seen
    ones. *)
Lemma accept_items_new limits depth chain change st counters items acc st' counters' r :
  accept_items env limits depth chain change st counters items acc = (st', counters', r) →
  cs_queue st' = cs_queue st ∧ cs_current_depth st' = cs_current_depth st ∧
  match r with
  | Err _ => True
  | Ok accepted => ∃ new, accepted = acc ++ new ∧ sublist new items ∧ NoDup (keys change new) ∧
      (∀ key, key ∈ keys change new → key ∉ cs_seen st) ∧ cs_seen st' = cs_seen st ∪ list_to_set (keys change new)
  end.
Proof.
  revert st counters acc. induction items as [|item items IH]; intros st counters acc A; simpl in A.
  { simplify_eq. split_and!; try done. exists []. rewrite app_nil_r. split_and!; try done.
    - constructor.
    - by intros key ?%elem_of_nil.
    - simpl. by rewrite (right_id_L ∅ (∪)). }
  case_bool_decide as Seen.
  { destruct (IH _ _ _ A) as (? & ? & Hr). split_and!; try done.
    destruct r as [accepted|]; [|done]. destruct Hr as (new & ? & ? & ? & ? & ?). exists new.
    split_and!; [done|by apply sublist_cons|done..]. }
  destruct ((0 <? depth)%Z && _); [by simplify_eq|].
  apply IH in A. simpl in A. destruct A as (? & ? & Hr). split_and!; try done. destruct r as [accepted|]; [|done].
  destruct Hr as (new & -> & Sub & ND & Fresh & Es). exists (item :: new).
  split_and!; [by rewrite <-app_assoc|by apply sublist_skip|..].
  - apply NoDup_cons. split; [|done]. intros Hin. apply (Fresh _ Hin). apply elem_of_union_l. by apply elem_of_singleton.
  - intros key [->|Hin]%elem_of_cons; [done|]. specialize (Fresh _ Hin). by apply not_elem_of_union in Fresh as [_ ?].
  - rewrite Es. simpl. by rewrite (assoc_L (∪)), (comm_L (∪) (cs_seen st)).
Qed.

(** Derived items are counted, and none is accepted beyond the budget. *)
Lemma accept_items_budget limits depth chain change st counters items acc st' counters' r :
  accept_items env limits depth chain change st counters items acc = (st', counters', r) →
  (cs_derived_count st ≤ u64_max)%Z → (max_derived_mutations limits < u64_max)%Z →
  (cs_derived_count st ≤ cs_derived_count st' ≤ u64_max)%Z ∧
  match r with
  | Err _ => True
  | Ok accepted => (0 < depth → cs_derived_count st' = cs_derived_count st + (len accepted - len acc) ∧
         (len accepted = len acc ∨ cs_derived_count st' ≤ max_derived_mutations limits))%Z
  end.
Proof.
  revert st counters acc. induction items as [|item items IH]; intros st counters acc A Hd Hm; simpl in A.
  { simplify_eq. split_and!; [lia..|]. intros _. split; [lia|by left]. }
  case_bool_decide as Seen; [by apply (IH _ _ _ A)|].
  set (derived := if (0 <? depth)%Z then sat_add (cs_derived_count st) 1 else cs_derived_count st) in *.
  assert (cs_derived_count st ≤ derived ≤ u64_max)%Z as Hder by (unfold derived, sat_add; destruct (0 <? depth)%Z; lia).
  destruct ((0 <? depth)%Z && (max_derived_mutations limits <? derived)%Z) eqn:Lim.
  { simplify_eq. simpl. split_and!; done || lia. }
  apply IH in A; simpl; [|lia..]. simpl in A. destruct A as [Hle Hr]. split; [lia|]. destruct r as [accepted|]; [|done].
  intros D. destruct (Hr D) as [B1 B2]. apply andb_false_iff in Lim.
  assert (derived ≤ max_derived_mutations limits)%Z as Hd' by (destruct Lim as [L|L]; lia).
  assert (derived = cs_derived_count st + 1)%Z as Ed.
  { unfold derived, sat_add in *. destruct (Z.ltb_spec 0 depth); lia. }
  unfold len in *. rewrite length_app in *. simpl in *. split; [lia|]. right. lia.
Qed.

(** The mutations a root can still emit: those queued, and those left in the budget. *)
Definition potential s : Z :=
  match ctx_causal s with
  | None => 0
  | Some st => len (cs_queue st) + Z.max 0 (max_derived_mutations (ctx_limits s) - cs_derived_count st)
  end.

(** A root whose queue is well formed. *)
Record queued s : Prop := mkQueued {
  q_state : is_Some (ctx_causal s);
  q_depths st : ctx_causal s = Some st → Forall (λ pending, (0 ≤ pm_depth pending)%Z) (cs_queue st);
  q_derived st : ctx_causal s = Some st → (0 ≤ cs_derived_count st ≤ u64_max)%Z;
  q_limits : (max_derived_mutations (ctx_limits s) < u64_max)%Z
}.

(** A root that is emitting a mutation. *)
Definition emitting s : Prop :=
  queued s ∧ ∀ st, ctx_causal s = Some st → ∃ depth, cs_current_depth st = Some depth ∧ (0 ≤ depth)%Z.

(** What a step inside a root preserves. *)
Record root_step s s' : Prop := mkRootStep {
  rs_potential : (potential s' ≤ potential s)%Z;
  rs_limits : ctx_limits s' = ctx_limits s;
  rs_graph : ctx_graph s' = ctx_graph s;
  rs_tables : rm_tables (ctx_rel s') = rm_tables (ctx_rel s);
  rs_buffers : ctx_buffers s' = ctx_buffers s
}.
#[export] Instance root_step_preorder : PreOrder root_step.
Proof. split; [by split|]. intros s1 s2 s3 [] []. split; [lia|congruence..]. Qed.

Lemma frame_emitting s s' : frame s s' → emitting s → emitting s' ∧ root_step s s'.
Proof.
  intros [Ec El Eg Et Eb] [[Q1 Q2 Q3 Q4] D]. split; [split; [split|]; rewrite ?Ec, ?El; done|].
  split; try done. unfold potential. by rewrite Ec, El.
Qed.

(** Enqueueing: one more pending mutation at most, paid from the budget. *)
Lemma enqueue_with_keeps first mode label accept :
  (∀ limits st counters mode depth chain st' counters' r,
     accept limits st counters mode depth chain = (st', counters', r) →
     (0 < depth)%Z → (0 ≤ cs_derived_count st ≤ u64_max)%Z → (max_derived_mutations limits < u64_max)%Z →
     cs_current_depth st' = cs_current_depth st ∧
     (cs_derived_count st ≤ cs_derived_count st' ≤ u64_max)%Z ∧
     (cs_queue st' = cs_queue st ∨
      ∃ pending, cs_queue st' = cs_queue st ++ [pending] ∧ pm_depth pending = depth ∧
        (cs_derived_count st < cs_derived_count st' ≤ max_derived_mutations limits)%Z)) →
  keeps emitting root_step (λ s : Ctx P CB J, enqueue_with first mode label (accept (ctx_limits s)) s).
Proof.
  intros Ha s [[[st Est] Q2 Q3 Q4] D]. unfold enqueue_with. rewrite Est.
  specialize (Q2 _ Est). specialize (Q3 _ Est). destruct (D _ Est) as (d & Ed & Hd). rewrite Ed.
  case_match.
  { eexists _, _. split; [done|]. apply frame_emitting; [by split|]. split; [split; [by rewrite Est|by intros ? [= <-]%(eq_trans (eq_sym Est))..|done]|done]. }
  destruct (accept _ _ _ _ _ _) as [[st' counters'] r] eqn:A.
  apply Ha in A as (Ed' & B & Hq); [|unfold sat_add, u64_max; lia|done..].
  eexists _, r. split; [done|]. split.
  - split.
    + split; simpl; [done|..|done]; intros ? [= <-]; [|lia].
      destruct Hq as [->|(pending & -> & Ep & _)]; [done|]. apply Forall_app. split; [done|]. constructor; [|constructor].
      rewrite Ep. unfold sat_add, u64_max. lia.
    + intros ? [= <-]. exists d. by rewrite Ed'.
  - split; try done. unfold potential. simpl. rewrite Est.
    destruct Hq as [->|(pending & -> & _ & Lt)]; unfold len; rewrite ?length_app; simpl; lia.
Qed.

Lemma enqueue_causal_keeps items change origin mode : keeps emitting root_step (enqueue_causal (CB := CB) env items change origin mode).
Proof.
  unfold enqueue_causal. destruct items as [|first items]; [apply keeps_ret, _|].
  apply (enqueue_with_keeps _ _ _ (accept_uniform env (first :: items) change origin)).
  intros limits st counters mode' depth chain st' counters' r A D Hd Hm. unfold accept_uniform in A.
  destruct (accept_items _ _ _ _ _ _ _ _ _) as [[st1 c1] r1] eqn:Ac.
  pose proof (accept_items_new _ _ _ _ _ _ _ _ _ _ _ Ac) as (Eq & Ed & _).
  apply accept_items_budget in Ac as [B Hr]; [|lia..]. destruct r1 as [[|x accepted]|e]; simplify_eq; simpl.
  - split_and!; try done; [lia..|]. by left.
  - destruct (Hr D) as [Hn [Hb|Hb]]; unfold len in *; simpl in *; [lia|].
    split_and!; try done; [lia..|]. right. eexists. rewrite Eq. split_and!; try done. lia.
  - split_and!; try done; [lia..|]. by left.
Qed.

(** Inside a root, submitting is enqueueing. *)
Lemma submit_emitting fuel steps items change origin mode :
  keeps emitting root_step (submit_mutation_mode env (S fuel) steps items change origin mode : M P CB J unit).
Proof.
  intros s Hs. pose proof Hs as [[[st Est] _ _ _] _]. simpl. rewrite Est. by apply enqueue_causal_keeps.
Qed.

(** ** Draining *)

Lemma pop_pending_spec s : queued s →
  (∃ s', pop_pending s = Some (s', Ok None)) ∨
  (∃ s' pending, pop_pending s = Some (s', Ok (Some pending)) ∧ emitting s' ∧ (potential s' < potential s)%Z ∧
     ctx_limits s' = ctx_limits s).
Proof.
  intros [[st Est] Q2 Q3 Q4]. unfold pop_pending. rewrite Est. specialize (Q2 _ Est). specialize (Q3 _ Est).
  destruct (cs_queue st) as [|pending queue] eqn:Eq; [left; by eexists|right].
  apply Forall_cons in Q2 as [Q2 Q2']. eexists _, pending. split; [done|]. split_and!; [| |done].
  - split; [split; simpl; [done|by intros ? [= <-]..|done]|]. intros ? [= <-]. by eexists.
  - unfold potential. simpl. rewrite Est, Eq. unfold len. simpl. lia.
Qed.

Lemma drain_total fuel steps steps' stop s :
  queued s → (potential s < Z.of_nat steps)%Z →
  ∃ s' r, drain env (submit_mutation env (S fuel) steps') steps stop s = Some (s', r).
Proof.
  revert s. induction steps as [|steps IH]; intros s Hq Hp.
  { exfalso. destruct Hq as [[st Est] _ _ _]. unfold potential, len in Hp. rewrite Est in Hp. lia. }
  simpl. unfold mbind, M_bind. destruct (pop_pending_spec s Hq) as [[s' ->]|(s1 & pending & -> & He & Hlt & El)]; [by eexists _, _|].
  destruct (emit_pending_keeps env emitting root_step frame_emitting (submit_mutation env (S fuel) steps')
    (λ items change origin, submit_emitting fuel steps' items change origin Authoritative) pending s1 He)
    as (s2 & [applied|e] & -> & [He2 _] & Hr); [|by eexists _, _].
  destruct (negb applied && stop); [by eexists _, _|]. apply IH; [done|]. pose proof (rs_potential _ _ Hr). lia.
Qed.
End budget.
