(* ===== verification/PipelineInvariant.v ===== *)
(** * The invariant of the mutation pipeline

    A Hoare logic for the successful runs of the monad [M], and with it the proof that a
    mutation that returns [Ok], with everything it derives, leaves the graph's projections
    equal to those of the canonical stores. *)

From stdpp Require Import base strings numbers option countable gmap sets list.
From S2P Require Import Prelude Order GraphTypes EdgeIds GraphIndex GraphQuery GraphPreflight GraphWatch ServerTypes Relationship Pipeline PipelineProof.

(** ** Successful runs *)
Section hoare.
Context {P CB J : Type}.
Abbreviation M := (M P CB J).
Abbreviation State := (Ctx P CB J).

Definition hoare {A} (Pre : State → Prop) (m : M A) (Post : A → State → Prop) : Prop :=
  ∀ s s' a, Pre s → m s = Some (s', Ok a) → Post a s'.

Lemma hoare_weaken {A} (Pre Pre' : State → Prop) (m : M A) (Post Post' : A → State → Prop) :
  hoare Pre m Post → (∀ s, Pre' s → Pre s) → (∀ a s, Post a s → Post' a s) → hoare Pre' m Post'.
Proof. intros H H1 H2 s s' a Hs E. eapply H2, H; [by apply H1|done]. Qed.

Lemma hoare_ret {A} (Post : A → State → Prop) a : hoare (Post a) (mret a) Post.
Proof. intros s s' a' Hs [= <- <-]. done. Qed.

Lemma hoare_lift {A} (Post : A → State → Prop) (r : result PersistError A) :
  hoare (λ s, ∀ a, r = Ok a → Post a s) (lift r) Post.
Proof. intros s s' a Hs [= <- ->]. by apply Hs. Qed.

Lemma hoare_raise {A} Pre (Post : A → State → Prop) e : hoare Pre (raise e) Post.
Proof. intros s s' a _ [=]. Qed.

Lemma hoare_modify (Post : unit → State → Prop) f : hoare (λ s, Post () (f s)) (modify f) Post.
Proof. intros s s' [] Hs [= <-]. done. Qed.

Lemma hoare_bind {A B} Pre Mid Post (m : M A) (k : A → M B) :
  hoare Pre m Mid → (∀ a, hoare (Mid a) (k a) Post) → hoare Pre (m ≫= k) Post.
Proof.
  intros Hm Hk s s' b Hs. unfold mbind, M_bind. destruct (m s) as [[s1 [a|e]]|] eqn:E; try done.
  apply Hk. by eapply Hm.
Qed.

Lemma hoare_get {B} Pre Post (k : State → M B) :
  (∀ s0, Pre s0 → hoare (λ s, s = s0) (k s0) Post) → hoare Pre (get ≫= k) Post.
Proof. intros Hk s s' b Hs. unfold mbind, M_bind, get. intros E. by eapply (Hk s Hs). Qed.

Lemma hoare_pure {A} (Pre : State → Prop) (φ : Prop) (m : M A) Post :
  (φ → hoare Pre m Post) → hoare (λ s, Pre s ∧ φ) m Post.
Proof. intros H s s' a [Hs Hφ]. by apply H. Qed.

Lemma hoare_catch {A} Pre Post (m : M A) :
  hoare Pre m Post → hoare Pre (catch m) (λ r s, ∀ a, r = Ok a → Post a s).
Proof.
  intros Hm s s' r Hs. unfold catch. destruct (m s) as [[s1 r1]|] eqn:E; [|done]. intros [= <- <-] a ->. by eapply Hm.
Qed.

Lemma hoare_for_each {A} (I : list A → State → Prop) (f : A → M unit) l :
  (∀ l1 x l2, l = l1 ++ x :: l2 → hoare (I l1) (f x) (λ _, I (l1 ++ [x]))) →
  hoare (I []) (for_each f l) (λ _, I l).
Proof.
  assert (∀ l1 l2, l = l1 ++ l2 →
    (∀ l1 x l2, l = l1 ++ x :: l2 → hoare (I l1) (f x) (λ _, I (l1 ++ [x]))) →
    hoare (I l1) (for_each f l2) (λ _, I l)) as H.
  { intros l1 l2. revert l1. induction l2 as [|x l2 IH]; intros l1 E Hf; simpl.
    - rewrite app_nil_r in E. subst. apply (hoare_ret (λ _, I l1)).
    - eapply hoare_bind; [by eapply Hf|]. intros u. apply IH; [|done]. by rewrite <-app_assoc. }
  intros Hf. by apply (H [] l).
Qed.

Lemma hoare_fold_each {A B} (I : list B → A → State → Prop) (f : A → B → M A) l acc :
  (∀ l1 x l2 acc, l = l1 ++ x :: l2 → hoare (I l1 acc) (f acc x) (I (l1 ++ [x]))) →
  hoare (I [] acc) (fold_each f acc l) (I l).
Proof.
  assert (∀ l1 l2 acc, l = l1 ++ l2 →
    (∀ l1 x l2 acc, l = l1 ++ x :: l2 → hoare (I l1 acc) (f acc x) (I (l1 ++ [x]))) →
    hoare (I l1 acc) (fold_each f acc l2) (I l)) as H.
  { intros l1 l2. revert l1. induction l2 as [|x l2 IH]; intros l1 acc' E Hf; simpl.
    - rewrite app_nil_r in E. subst. apply hoare_ret.
    - eapply hoare_bind; [by eapply Hf|]. intros acc''. apply IH; [|done]. by rewrite <-app_assoc. }
  intros Hf. by apply (H [] l).
Qed.

(** A loop that preserves a predicate. *)
Lemma hoare_loop {A} (I : State → Prop) (f : A → M unit) l :
  (∀ x, x ∈ l → hoare I (f x) (λ _, I)) → hoare I (for_each f l) (λ _, I).
Proof.
  intros H. apply (hoare_for_each (λ _, I)). intros l1 x l2 E. apply H. rewrite E, elem_of_app, elem_of_cons. auto.
Qed.
(** Loops whose body reads the state first. *)
Lemma hoare_read_loop {A} (I : State → Prop) (f : A → State → M unit) l :
  (∀ x s, x ∈ l → I s → hoare I (f x s) (λ _, I)) → hoare I (for_each (λ x, get ≫= f x) l) (λ _, I).
Proof.
  intros H. apply hoare_loop. intros x Hx. apply hoare_get. intros s Hs.
  eapply hoare_weaken; [by apply (H x s)|by intros ? ->|done].
Qed.

(** After reading a state, only the invariant of that state is used. *)
Lemma hoare_read {B} (I : State → Prop) (k : State → M B) (Post : B → State → Prop) :
  (∀ s, I s → hoare I (k s) Post) → hoare I (get ≫= k) Post.
Proof. intros H. apply hoare_get. intros s Hs. eapply hoare_weaken; [by apply (H s Hs)|by intros ? ->|done]. Qed.
End hoare.

(** ** Runs of mutations on the stores *)
Section runs.
Context {P : Type}.
Implicit Types (registry : StoreRegistry P) (item : Item P) (ops : list (MEventType * Item P)).

Definition op_key (op : MEventType * Item P) : string * string := item_key op.2.
Definition run_ops registry ops : StoreRegistry P := foldl (λ registry op, reduce registry op.1 op.2) registry ops.

Lemma lookup_reduce registry change item t id :
  lookup_item (reduce registry change item) t id =
    if decide (item_key item = (t, id)) then new_value change item else lookup_item registry t id.
Proof.
  rewrite !lookup_get_or_create. destruct change; simpl; rewrite ?get_or_create_insert, ?get_or_create_remove; unfold item_key.
  - destruct (decide (item_type item = t)) as [<-|N]; [|rewrite decide_False; [done|congruence]].
    destruct (decide (item_id item = id)) as [<-|N]; [by rewrite lookup_insert_eq, decide_True|].
    rewrite lookup_insert_ne by done. rewrite decide_False; [done|congruence].
  - destruct (decide (item_type item = t)) as [<-|N]; [|rewrite decide_False; [done|congruence]].
    destruct (decide (item_id item = id)) as [<-|N]; [by rewrite lookup_delete_eq, decide_True|].
    rewrite lookup_delete_ne by done. rewrite decide_False; [done|congruence].
Qed.

Lemma lookup_run_other registry ops t id :
  ((t, id) ∉ op_key <$> ops) → lookup_item (run_ops registry ops) t id = lookup_item registry t id.
Proof.
  revert registry. induction ops as [|op ops IH]; intros registry H; simpl; [done|].
  csimpl in H. apply not_elem_of_cons in H as [H1 H2]. rewrite IH by done. rewrite lookup_reduce. by rewrite decide_False.
Qed.

Lemma lookup_run_op registry ops op :
  NoDup (op_key <$> ops) → op ∈ ops →
  lookup_item (run_ops registry ops) (item_type op.2) (item_id op.2) = new_value op.1 op.2.
Proof.
  revert registry. induction ops as [|o ops IH]; intros registry ND Hin; [by apply elem_of_nil in Hin|].
  csimpl in ND. apply NoDup_cons in ND as [N ND]. simpl. apply elem_of_cons in Hin as [->|Hin]; [|by apply IH].
  rewrite lookup_run_other by done. rewrite lookup_reduce. by rewrite decide_True.
Qed.

(** Runs over distinct keys commute. *)
Lemma run_ops_perm registry ops ops' t :
  NoDup (op_key <$> ops) → ops ≡ₚ ops' → get_or_create (run_ops registry ops) t = get_or_create (run_ops registry ops') t.
Proof.
  intros ND Hp. apply map_eq. intros id. rewrite <-!lookup_get_or_create.
  destruct (decide ((t, id) ∈ op_key <$> ops)) as [Hin|Hn].
  - apply list_elem_of_fmap in Hin as (op & E & Hin). unfold op_key, item_key in E. injection E as -> ->.
    rewrite !lookup_run_op; [done|by rewrite <-Hp|by rewrite <-Hp|done|done].
  - rewrite !lookup_run_other; [done|by rewrite <-Hp|done].
Qed.

Lemma run_ops_ok registry ops : registry_ok registry → registry_ok (run_ops registry ops).
Proof.
  revert registry. induction ops as [|op ops IH]; intros registry W; simpl; [done|]. by apply IH, reduce_ok.
Qed.

Lemma run_ops_app registry ops ops' : run_ops registry (ops ++ ops') = run_ops (run_ops registry ops) ops'.
Proof. apply foldl_app. Qed.
End runs.

(** ** The invariant *)
Section invariant.
Context {P CB J : Type} (env : Env P J).
Implicit Types (s : Ctx P CB J) (item : Item P) (items : list (Item P)) (registry : StoreRegistry P) (gst : GraphState)
  (og : option (GraphIndex P)).

(** Removing an id from a parent's array gives a version of the same parent. *)
Definition relations_ok (tables : RelationshipTables P) : Prop :=
  ∀ t lookups lookup parent child parent',
    owns_many_by_foreign tables !! t = Some lookups → lookup ∈ lookups →
    om_remove_id lookup parent child = Some parent' → item_key parent' = item_key parent.

(** A uniform batch has one item per key. *)
Definition pending_ok (pending : PendingMutation P) : Prop :=
  match pm_kind pending with
  | Uniform items _ => NoDup (item_key <$> items)
  | Replace _ _ _ => True
  end.

(** The projections are those of the stores. *)
Definition graph_exact og registry gst : Prop := ∀ g, og = Some g → registrations_ok g ∧ graph_ok g registry gst.

Record ctx_ok og s : Prop := mkCtxOk {
  co_graph_is : ctx_graph s = og;
  co_registry : registry_ok (ctx_registry s);
  co_graph : graph_exact og (ctx_registry s) (ctx_gstate s);
  co_queue st : ctx_causal s = Some st → Forall pending_ok (cs_queue st);
  co_relations : relations_ok (rm_tables (ctx_rel s))
}.

(** Versions of an item in a batch are equal. *)
Definition consistent items : Prop := ∀ x y, x ∈ items → y ∈ items → item_key x = item_key y → x = y.

Lemma NoDup_consistent items : NoDup (item_key <$> items) → consistent items.
Proof.
  intros ND x y Hx Hy E. apply list_elem_of_lookup in Hx as [i Hi]. apply list_elem_of_lookup in Hy as [j Hj].
  assert (i = j) as ->; [|congruence].
  eapply (NoDup_lookup (item_key <$> items)); [done|by rewrite list_lookup_fmap, Hi|].
  rewrite list_lookup_fmap, Hj. simpl. by f_equal.
Qed.

(** ** States near a given one: the frame, given stores, and a predicate of the index *)
Definition near s0 registry (Q : GraphState → Prop) s : Prop :=
  frame s0 s ∧ ctx_registry s = registry ∧ Q (ctx_gstate s).

Lemma near_frame_step s0 registry Q {A} (m : M P CB J A) :
  (∀ s s' a, m s = Some (s', Ok a) → frame s s' ∧ ctx_registry s' = ctx_registry s ∧ ctx_gstate s' = ctx_gstate s) →
  hoare (near s0 registry Q) m (λ _, near s0 registry Q).
Proof.
  intros H s s' a (F & Er & Hq) E. destruct (H _ _ _ E) as (F' & E1 & E2).
  split; [by etrans|]. split; [congruence|by rewrite E2].
Qed.

Lemma persist_near s0 registry Q item change : hoare (near s0 registry Q) (persist_dyn env item change) (λ _, near s0 registry Q).
Proof.
  apply near_frame_step. intros s s' a. unfold persist_dyn. destruct (resolve _ _) as [p|]; [|by intros [= <- _]].
  destruct (p _ _); [|done]. intros [= <- _]. by split_and!.
Qed.

Lemma publish_near s0 registry Q item publish : hoare (near s0 registry Q) (publish_step item publish) (λ _, near s0 registry Q).
Proof.
  apply near_frame_step. intros s s' a. unfold publish_step, mbind, M_bind, get, modify, graph_result, lift.
  destruct (publish (ctx_router s)) as [w [runs|e]]; [|done]. intros [= <- _]. by split_and!.
Qed.

Lemma preflight_near s0 registry Q g old item change mode :
  (∀ gst gst', same_index gst gst' → Q gst → Q gst') →
  hoare (near s0 registry Q) (preflight_step g old item change mode) (λ _, near s0 registry Q).
Proof.
  intros HQ s s' a (F & Er & Hq). unfold preflight_step, mbind, M_bind, get, modify, graph_result, lift.
  pose proof (preflight_ignoring_same g (ctx_registry s) (ctx_gstate s) old (new_value change item) mode ∅) as S.
  unfold preflight. destruct (preflight_ignoring _ _ _ _ _ _ _) as [gst' r]. intros [= <- _].
  split; [etrans; [done|by split]|]. split; [done|]. by eapply HQ.
Qed.

Lemma apply_near s0 registry (Q Q' : GraphState → Prop) g old item change :
  (∀ gst gst' n, Q gst → apply g gst old (new_value change item) = (gst', Ok n) → Q' gst') →
  hoare (near s0 registry Q) (apply_step g old item change) (λ _, near s0 registry Q').
Proof.
  intros HQ s s' a (F & Er & Hq). unfold apply_step, mbind, M_bind, get, modify, graph_result, lift.
  destruct (apply g (ctx_gstate s) old (new_value change item)) as [gst' [n|e]] eqn:A; [|done]. intros [= <- _].
  split; [etrans; [done|by split]|]. split; [done|]. by eapply HQ.
Qed.

Lemma delete_plan_near s0 registry Q g item :
  hoare (near s0 registry Q) (delete_plan_step g item)
    (λ cascades s, near s0 registry Q s ∧ ∃ gst, Q gst ∧ endpoint_delete_plan g gst registry (entity_of item) = Ok cascades).
Proof.
  intros s s' cascades (F & Er & Hq). unfold delete_plan_step, mbind, M_bind, get, graph_result, lift.
  destruct (endpoint_delete_plan _ _ _ _) as [plan|e] eqn:E; [|done]. intros [= <- <-].
  split; [done|]. exists (ctx_gstate s). split; [done|]. by rewrite <-Er.
Qed.

Lemma reduce_near s0 registry Q item change :
  hoare (near s0 registry Q) (reduce_one item change) (λ _, near s0 (reduce registry change item) Q).
Proof.
  intros s s' a (F & Er & Hq) [= <- _]. split; [etrans; [done|by destruct change]|]. split; [|by destruct change].
  rewrite <-Er. by destruct change.
Qed.

Lemma near_ok og s0 registry s :
  ctx_ok og s0 → registry_ok registry → near s0 registry (graph_exact og registry) s → ctx_ok og s.
Proof.
  intros [Eg _ _ Q R] W (F & Er & G). destruct F as [Fc Fl Fg Ft Fb].
  split; [congruence|by rewrite Er|by rewrite Er|by rewrite Fc|by rewrite Ft].
Qed.

(** *** Cascading edges *)

Definition cascade_ok og items : Prop :=
  consistent items ∧ ∀ x, x ∈ items → ∃ g, og = Some g ∧ is_Some (registration g (item_type x)).

(** Canonical edges of registered types. *)
Definition planned og registry items : Prop :=
  ∀ x, x ∈ items → lookup_item registry (item_type x) (item_id x) = Some x ∧
    ∃ g, og = Some g ∧ is_Some (registration g (item_type x)).

Lemma planned_cascade og registry items : planned og registry items → cascade_ok og items.
Proof.
  intros H. split; [|intros x Hx; by apply H]. intros x y Hx Hy E. unfold item_key in E. injection E as E1 E2.
  destruct (H x Hx) as [Ex _], (H y Hy) as [Ey _]. congruence.
Qed.

Lemma planned_nil og registry : planned og registry [].
Proof. by intros x ?%elem_of_nil. Qed.

Lemma planned_app og registry items items' :
  planned og registry items → planned og registry items' → planned og registry (items ++ items').
Proof. intros H H' x [Hx|Hx]%elem_of_app; [by apply H|by apply H']. Qed.

Lemma delete_plan_planned og g registry gst item items :
  og = Some g → registry_ok registry → graph_exact og registry gst →
  endpoint_delete_plan g gst registry (entity_of item) = Ok items → planned og registry items.
Proof.
  intros Eg W G E. destruct (G g Eg) as [R Gk].
  pose proof (endpoint_delete_plan_spec g registry gst (entity_of item) R W Gk) as S. rewrite E in S.
  destruct S as [_ S]. intros x Hx. apply S in Hx as [(r & _ & _ & Hr & _) Hl]. split; [done|]. eauto.
Qed.

(** *** Items the graph does not concern *)

Lemma uncoordinated_registration (g : GraphIndex P) item change : coordinates g item change = false → registration g (item_type item) = None.
Proof. unfold coordinates. by destruct (registration g (item_type item)). Qed.

Lemma reduce_unregistered og registry change item gst :
  (∀ g, og = Some g → registration g (item_type item) = None) →
  graph_exact og registry gst → graph_exact og (reduce registry change item) gst.
Proof.
  intros N G g Eg. destruct (G g Eg) as [R Gk]. split; [done|]. revert Gk. apply graph_ok_stores.
  intros t [r Hr]. specialize (N g Eg).
  destruct change; simpl; rewrite ?get_or_create_insert, ?get_or_create_remove; rewrite decide_False; congruence.
Qed.

Lemma exact_same_index og registry gst gst' : same_index gst gst' → graph_exact og registry gst → graph_exact og registry gst'.
Proof. intros S G g Eg. destruct (G g Eg). split; [done|]. by eapply graph_ok_same_index. Qed.

Lemma apply_exact g registry gst change item gst' n :
  registry_ok registry → graph_exact (Some g) registry gst →
  apply g gst (lookup_item registry (item_type item) (item_id item)) (new_value change item) = (gst', Ok n) →
  graph_exact (Some g) (reduce registry change item) gst'.
Proof. intros W G A ? [= <-]. destruct (G g eq_refl) as [R Gk]. split; [done|]. by eapply apply_ok. Qed.

Lemma validate_near og s0 registry coordinated old item change mode :
  registry_ok registry → (∀ g, coordinated = Some g → og = Some g) →
  hoare (near s0 registry (graph_exact og registry)) (validate_step coordinated old item change mode)
    (λ cascades s, near s0 registry (graph_exact og registry) s ∧ planned og registry cascades).
Proof.
  intros W Hc. destruct coordinated as [g|]; [|intros s s' a N [= <- <-]; split; [done|apply planned_nil]].
  specialize (Hc g eq_refl).
  apply hoare_bind with (λ cascades s, near s0 registry (graph_exact og registry) s ∧ planned og registry cascades).
  - destruct change; [intros s s' a N [= <- <-]; split; [done|apply planned_nil]|].
    eapply hoare_weaken; [apply (delete_plan_near s0 registry (graph_exact og registry))|done|].
    intros cascades s (N & gst & Hg & E). split; [done|]. by eapply delete_plan_planned.
  - intros cascades. apply hoare_pure. intros Pl. eapply hoare_bind.
    + apply (preflight_near s0 registry (graph_exact og registry)). intros gst gst'. apply exact_same_index.
    + intros u s s' a N [= <- <-]. by split.
Qed.

(** *** One mutation *)

(** Two results kept as values and returned in turn. *)
Lemma hoare_results {A} (I0 I : Ctx P CB J → Prop) (m1 m2 : M P CB J unit) (k : M P CB J A) Post :
  hoare I0 m1 (λ _, I) → hoare I m2 (λ _, I) → hoare I k Post →
  hoare I0 (r1 ← catch m1; r2 ← catch m2; _ ← lift r1; _ ← lift r2; k) Post.
Proof.
  intros H1 H2 Hk s s' a Hs. unfold mbind, M_bind, catch, lift.
  destruct (m1 s) as [[s1 [u1|e1]]|] eqn:E1; [|by destruct (m2 s1) as [[s2 [u2|e2]]|]|done].
  destruct (m2 s1) as [[s2 [u2|e2]]|] eqn:E2; [|done..]. intros E. eapply Hk; [|done]. eapply H2; [|done]. by eapply H1.
Qed.

Lemma commit_one_ok og s0 item change origin mode :
  ctx_ok og s0 →
  hoare (λ s, s = s0) (commit_one env item change origin mode) (λ cascades s, ctx_ok og s ∧ cascade_ok og cascades).
Proof.
  intros H0. pose proof H0 as [Eg W G _ _]. unfold commit_one. apply hoare_get. intros s ->.
  set (registry := ctx_registry s0) in *.
  set (coordinated := match ctx_graph s0 with Some g => _ | None => _ end).
  assert (match coordinated with
          | Some g => og = Some g
          | None => ∀ g, og = Some g → registration g (item_type item) = None
          end) as Hc.
  { unfold coordinated. rewrite Eg. destruct og as [g|]; [|done]. destruct (coordinates g item change) eqn:C; [done|].
    intros g' [= <-]. by eapply uncoordinated_registration. }
  eapply hoare_bind.
  { eapply hoare_weaken; [apply (validate_near og s0 registry); [done|intros g E; by rewrite E in Hc]|by intros s ->; split_and!|done]. }
  intros cascades. apply hoare_pure. intros Pl.
  eapply hoare_bind; [apply reduce_near|]. intros u.
  apply hoare_bind with (λ _, near s0 (reduce registry change item) (graph_exact og (reduce registry change item))).
  { destruct coordinated as [g|].
    - apply apply_near. intros gst gst' n Hg A. rewrite Hc in Hg |- *. by eapply apply_exact.
    - intros s s' a (F & Er & Hq) [= <- _]. split_and!; [done..|]. by apply reduce_unregistered. }
  intros u'. eapply hoare_results.
  - destruct (should_produce origin); [apply persist_near|apply (hoare_ret (λ _, _))].
  - destruct coordinated as [g|]; [|apply (hoare_ret (λ _, _))]. apply hoare_get. intros s1 N1.
    destruct (_ && _); [|by intros s s' a -> [= <- _]].
    eapply hoare_weaken; [apply publish_near|by intros s ->|done].
  - intros s s' a N [= <- <-]. split; [|by eapply planned_cascade]. eapply near_ok; [done|by apply reduce_ok|done].
Qed.

(** *** Batches of one change *)

Lemma group_by_types_perm items (types : list string) :
  NoDup types → (∀ x, x ∈ items → item_type x ∈ types) →
  (types ≫= λ t, filter (λ item : Item P, item_type item = t) items) ≡ₚ items.
Proof.
  revert items. induction types as [|t types IH]; intros items ND Hin; csimpl.
  { destruct items as [|x items]; [done|]. exfalso. by eapply not_elem_of_nil, Hin, list_elem_of_here. }
  apply NoDup_cons in ND as [Nt ND].
  assert ((types ≫= λ t', filter (λ item : Item P, item_type item = t') items) =
    (types ≫= λ t', filter (λ item : Item P, item_type item = t') (filter (λ item, ¬ item_type item = t) items))) as ->.
  { clear IH Hin. induction types as [|t' types IH]; [done|]. csimpl. apply NoDup_cons in ND as [_ ND].
    apply not_elem_of_cons in Nt as [Ne Nt]. rewrite IH by done. f_equal. rewrite list_filter_filter.
    apply list_filter_iff. intros x. naive_solver. }
  rewrite IH; [apply filter_app_complement|done|].
  intros x [Nx Hx]%list_elem_of_filter. specialize (Hin x Hx). apply elem_of_cons in Hin as [?|?]; done.
Qed.

Lemma grouped_perm items : group_by_type items ≫= snd ≡ₚ items.
Proof.
  unfold group_by_type. rewrite list_fmap_bind. etrans; [|apply (group_by_types_perm items (bt_of_list (item_type <$> items)))].
  - done.
  - apply sorted_NoDup, bt_of_list_sorted.
  - intros x Hx. rewrite elem_of_bt_of_list. by apply list_elem_of_fmap_2.
Qed.

Definition ops_of change items : list (MEventType * Item P) := (λ item, (change, item)) <$> items.

Lemma ops_of_keys change items : op_key <$> ops_of change items = item_key <$> items.
Proof. unfold ops_of. rewrite <-list_fmap_compose. done. Qed.

Lemma reduce_groups change registry (groups : list (string * list (Item P))) :
  foldl (reduce_group change) registry groups = run_ops registry (ops_of change (groups ≫= snd)).
Proof.
  revert registry. induction groups as [|group groups IH]; intros registry; [done|]. csimpl.
  unfold ops_of. rewrite fmap_app, run_ops_app, IH. f_equal. unfold reduce_group, run_ops.
  induction group.2 as [|x l IHl] in registry |- *; [done|]. simpl. apply IHl.
Qed.

(** The old values a plan has read. *)
Definition olds_of registry (old_by_key : gmap (string * string) (option (Item P))) items : Prop :=
  (∀ k v, old_by_key !! k = Some v → v = lookup_item registry k.1 k.2) ∧
  (∀ x, x ∈ items → is_Some (old_by_key !! item_key x)).

Lemma old_of_olds registry old_by_key items x :
  olds_of registry old_by_key items → x ∈ items → old_of old_by_key x = lookup_item registry (item_type x) (item_id x).
Proof. intros [H1 H2] Hx. destruct (H2 x Hx) as [v Hv]. unfold old_of. unfold item_key in Hv. rewrite Hv. by apply (H1 _ _ Hv). Qed.

Lemma olds_insert registry old_by_key items x :
  olds_of registry old_by_key items →
  olds_of registry (<[item_key x := lookup_item registry (item_type x) (item_id x)]> old_by_key) (items ++ [x]).
Proof.
  intros [H1 H2]. split.
  - intros k v [[<- <-]|[_ Hk]]%lookup_insert_Some; [done|by apply H1].
  - intros y [Hy| ->%list_elem_of_singleton]%elem_of_app; [|by rewrite lookup_insert_eq].
    destruct (decide (item_key x = item_key y)) as [->|N]; [by rewrite lookup_insert_eq|]. rewrite lookup_insert_ne by done. by apply H2.
Qed.

(** What a coordination decision promises of the items it was made for. *)
Definition coordinated_ok og (coordinated : option (GraphIndex P)) items : Prop :=
  match coordinated with
  | Some g => og = Some g
  | None => ∀ g x, og = Some g → x ∈ items → registration g (item_type x) = None
  end.

Lemma plan_item_ok og s0 registry coordinated change mode items acc x :
  registry_ok registry → ctx_registry s0 = registry → coordinated_ok og coordinated (items ++ [x]) →
  hoare (λ s, near s0 registry (graph_exact og registry) s ∧ (olds_of registry acc.1 items ∧ planned og registry acc.2))
    (plan_item coordinated change mode acc x)
    (λ acc s, near s0 registry (graph_exact og registry) s ∧ (olds_of registry acc.1 (items ++ [x]) ∧ planned og registry acc.2)).
Proof.
  intros W Er Hc. apply hoare_pure. intros [Ho Hp]. unfold plan_item. apply hoare_get. intros s1 N1.
  assert (canonical_item s1 x = lookup_item registry (item_type x) (item_id x)) as Ec.
  { unfold canonical_item. destruct N1 as (_ & -> & _). done. }
  rewrite Ec.
  eapply hoare_bind.
  { eapply hoare_weaken; [apply (validate_near og s0 registry); [done|by intros g ->]|by intros s ->|done]. }
  intros cascades. apply hoare_pure. intros Pl s s' a N [= <- <-]. split; [done|]. split; [by apply olds_insert|].
  by apply planned_app.
Qed.

(** Projecting and persisting the next item of a run. *)
Lemma commit_item_ok og s0 registry registry' coordinated old_by_key change origin ops x :
  registry_ok registry → coordinated_ok og coordinated [x] →
  old_of old_by_key x = lookup_item registry (item_type x) (item_id x) → (item_key x ∉ op_key <$> ops) →
  hoare (near s0 registry' (graph_exact og (run_ops registry ops)))
    (commit_item env coordinated old_by_key change origin x)
    (λ _, near s0 registry' (graph_exact og (run_ops registry (ops ++ [(change, x)])))).
Proof.
  intros W Hc Ho Nk. unfold commit_item. rewrite run_ops_app. simpl.
  apply hoare_bind with (λ _, near s0 registry' (graph_exact og (reduce (run_ops registry ops) change x))).
  - destruct coordinated as [g|].
    + simpl in Hc. subst og. apply apply_near. intros gst gst' n Hg A. eapply apply_exact; [by apply run_ops_ok|done|].
      rewrite lookup_run_other by done. by rewrite <-Ho.
    + intros s s' a (F & Er & Hq) [= <- _]. split_and!; [done..|]. apply reduce_unregistered; [|done].
      intros g Eg. apply (Hc g x Eg). by left.
  - intros u. destruct (should_produce origin); [apply persist_near|apply (hoare_ret (λ _, _))].
Qed.

Lemma coordinated_sub og coordinated items items' :
  items' ⊆ items → coordinated_ok og coordinated items → coordinated_ok og coordinated items'.
Proof. intros S. destruct coordinated; simpl; [done|]. intros H g x Eg Hx. apply (H g x Eg). by apply S. Qed.

Lemma commit_items_ok og s0 registry registry' coordinated old_by_key change origin ops items :
  registry_ok registry → coordinated_ok og coordinated items →
  (∀ x, x ∈ items → old_of old_by_key x = lookup_item registry (item_type x) (item_id x)) →
  NoDup (op_key <$> ops ++ ops_of change items) →
  hoare (near s0 registry' (graph_exact og (run_ops registry ops)))
    (for_each (commit_item env coordinated old_by_key change origin) items)
    (λ _, near s0 registry' (graph_exact og (run_ops registry (ops ++ ops_of change items)))).
Proof.
  intros W Hc Ho ND.
  eapply hoare_weaken;
    [apply (hoare_for_each (λ l, near s0 registry' (graph_exact og (run_ops registry (ops ++ ops_of change l)))))| |done].
  - intros l1 x l2 ->. unfold ops_of. rewrite fmap_app. simpl. rewrite (assoc_L (++)). apply commit_item_ok; [done|..].
    + eapply coordinated_sub; [|done]. set_solver.
    + apply Ho. set_solver.
    + unfold ops_of in ND. rewrite (fmap_app _ l1), (assoc_L (++)), fmap_app in ND.
      apply NoDup_app in ND as (_ & N & _). intros Hin. apply (N _ Hin). csimpl. by left.
  - intros s. unfold ops_of. simpl. by rewrite app_nil_r.
Qed.

Lemma existsb_false {A} (f : A → bool) l : existsb f l = false → ∀ x, x ∈ l → f x = false.
Proof.
  intros E x Hx. destruct (f x) eqn:F; [|done]. rewrite <-E. symmetry. apply existsb_exists. exists x.
  split; [by apply list_elem_of_In|done].
Qed.

Lemma commit_grouped_ok og s0 items change origin mode :
  ctx_ok og s0 → NoDup (item_key <$> items) →
  hoare (λ s, s = s0) (commit_grouped env items change origin mode) (λ cascades s, ctx_ok og s ∧ cascade_ok og cascades).
Proof.
  intros H0 ND. pose proof H0 as [Eg W G _ _]. unfold commit_grouped.
  destruct items as [|first items']; [intros s s' a -> [= <- <-]; split; [done|]; apply (planned_cascade og ∅), planned_nil|].
  set (items := first :: items') in *. apply hoare_get. intros s ->. set (registry := ctx_registry s0) in *.
  set (by_type := group_by_type items). set (grouped := by_type ≫= snd).
  set (coordinated := match ctx_graph s0 with Some g => _ | None => _ end).
  assert (coordinated_ok og coordinated grouped) as Hc.
  { unfold coordinated. rewrite Eg. destruct og as [g|]; [|done]. destruct (existsb _ _) eqn:C; [done|].
    intros g' x [= <-] Hx. eapply uncoordinated_registration. by apply (existsb_false _ _ C). }
  assert (NoDup (item_key <$> grouped)) as NDg by (unfold grouped, by_type; by rewrite grouped_perm).
  apply hoare_bind with (λ _, near s0 registry (graph_exact og registry)).
  { destruct coordinated as [g|]; [|by intros s s' a -> [= <- _]; split_and!].
    destruct change; [|by intros s s' a -> [= <- _]; split_and!].
    pose proof (preflight_batch_from_same g ∅ (ctx_gstate s0) items mode) as S. unfold preflight_batch.
    destruct (preflight_batch_from _ _ _ _ _) as [gst [u|e]]; intros s s' a -> [= <- _].
    split; [by split|]. split; [done|]. by eapply exact_same_index. }
  intros u. eapply hoare_bind.
  { eapply hoare_weaken; [apply (hoare_fold_each (λ l acc s, near s0 registry (graph_exact og registry) s ∧
      (olds_of registry acc.1 l ∧ planned og registry acc.2)))| |done].
    - intros l1 x l2 acc El. apply plan_item_ok; [done..|]. eapply coordinated_sub; [|done]. rewrite El. set_solver.
    - intros s N. split; [done|]. split; [|apply planned_nil]. split; [intros k v; simpl; by rewrite lookup_empty|by intros x ?%elem_of_nil]. }
  intros [old_by_key cascades]. apply hoare_pure. simpl. intros [Ho Pl]. apply hoare_get. intros s1 N1.
  set (changes := match coordinated with Some g => _ | None => _ end).
  apply hoare_bind with (λ _, near s0 (run_ops registry (ops_of change grouped)) (graph_exact og (run_ops registry []))).
  { intros s s' a -> [= <- _]. destruct N1 as (F & Er & Hq). split; [etrans; [done|by split]|]. split; [|done].
    simpl. rewrite Er. apply reduce_groups. }
  intros u'. eapply hoare_results.
  - apply (commit_items_ok og s0 registry _ coordinated old_by_key change origin [] grouped); [done..| |].
    + intros x Hx. by eapply old_of_olds.
    + simpl. by rewrite ops_of_keys.
  - simpl. destruct changes; [apply (hoare_ret (λ _, _))|]. destruct coordinated as [g|]; [apply publish_near|apply (hoare_ret (λ _, _))].
  - intros s s' a N [= <- <-]. split; [|by eapply planned_cascade]. eapply near_ok; [done|by apply run_ops_ok|done].
Qed.

(** *** Replacements *)

Lemma repeated_item_None seen items :
  repeated_item seen items = None → NoDup (item_key <$> items) ∧ ∀ x, x ∈ items → item_key x ∉ seen.
Proof.
  revert seen. induction items as [|x items IH]; intros seen E; [split; [constructor|by intros x ?%elem_of_nil]|].
  simpl in E. case_bool_decide as S; [done|]. destruct (IH _ E) as [ND F]. csimpl. split.
  - apply NoDup_cons. split; [|done]. intros (y & Ey & Hy)%list_elem_of_fmap.
    apply (F y Hy). rewrite <-Ey. apply elem_of_union_l. by apply elem_of_singleton.
  - intros y [->|Hy]%elem_of_cons; [done|]. specialize (F y Hy). by apply not_elem_of_union in F as [_ ?].
Qed.

(** The deletions that find their item, and the edges cascaded from some deletions. *)
Definition effective registry items : list (Item P) :=
  filter (λ x, is_Some (lookup_item registry (item_type x) (item_id x))) items.

Definition cascaded og registry items cascades : Prop :=
  planned og registry cascades ∧
  ∀ c, c ∈ cascades → ∃ x g, x ∈ items ∧ og = Some g ∧
    incident_edge g registry (entity_of x) CascadeEdge (item_type c) (item_id c).

Lemma cascaded_nil og registry items : cascaded og registry items [].
Proof. split; [apply planned_nil|by intros c ?%elem_of_nil]. Qed.

Lemma cascaded_app og registry items items' cascades cascades' :
  cascaded og registry items cascades → cascaded og registry items' cascades' →
  cascaded og registry (items ++ items') (cascades ++ cascades').
Proof.
  intros [P1 C1] [P2 C2]. split; [by apply planned_app|].
  intros c [Hc|Hc]%elem_of_app; [destruct (C1 c Hc) as (x & g & Hx & ?)|destruct (C2 c Hc) as (x & g & Hx & ?)];
    exists x, g; (split; [apply elem_of_app; by (left + right)|done]).
Qed.

Lemma delete_plan_cascaded og g registry gst item items :
  og = Some g → registry_ok registry → graph_exact og registry gst →
  endpoint_delete_plan g gst registry (entity_of item) = Ok items → cascaded og registry [item] items.
Proof.
  intros Eg W G E. split; [by eapply delete_plan_planned|]. destruct (G g Eg) as [R Gk].
  pose proof (endpoint_delete_plan_spec g registry gst (entity_of item) R W Gk) as S. rewrite E in S.
  intros c [Hc _]%(proj2 S). exists item, g. split; [by left|done].
Qed.

Lemma plan_delete_ok og s0 registry coordinated items acc x :
  registry_ok registry → (∀ g, coordinated = Some g → og = Some g) →
  hoare (λ s, near s0 registry (graph_exact og registry) s ∧
              (olds_of registry acc.1.1 items ∧ acc.1.2 = effective registry items ∧ cascaded og registry items acc.2))
    (plan_delete coordinated acc x)
    (λ acc s, near s0 registry (graph_exact og registry) s ∧
              (olds_of registry acc.1.1 (items ++ [x]) ∧ acc.1.2 = effective registry (items ++ [x]) ∧
               cascaded og registry (items ++ [x]) acc.2)).
Proof.
  intros W Hc. apply hoare_pure. destruct acc as [[olds eff] cascades]. simpl. intros (Ho & -> & Hp).
  apply hoare_get. intros s1 N1. unfold effective. rewrite filter_app.
  assert (canonical_item s1 x = lookup_item registry (item_type x) (item_id x)) as Ec.
  { unfold canonical_item. destruct N1 as (_ & -> & _). done. }
  pose proof (olds_insert _ _ _ x Ho) as Ho'. rewrite <-Ec in Ho'. destruct (canonical_item s1 x) as [old|].
  - apply hoare_bind with (λ cascades s, near s0 registry (graph_exact og registry) s ∧ cascaded og registry [x] cascades).
    + destruct coordinated as [g|]; [|intros s s' a -> [= <- <-]; split; [done|apply cascaded_nil]].
      eapply hoare_weaken; [apply (delete_plan_near s0 registry (graph_exact og registry))|by intros s ->|].
      intros plan s (N & gst & Hg & E). split; [done|]. by eapply delete_plan_cascaded; [by apply Hc|..].
    + intros plan. apply hoare_pure. intros Pl s s' a N [= <- <-]. split; [done|]. split_and!; [done| |by apply cascaded_app].
      simpl. rewrite filter_cons_True by (by rewrite <-Ec). by rewrite filter_nil.
  - intros s s' a -> [= <- <-]. split; [done|]. split_and!; [done| |].
    + simpl. rewrite filter_cons_False by (rewrite <-Ec; by intros [? ?]). by rewrite filter_nil, app_nil_r.
    + rewrite <-(app_nil_r cascades). apply cascaded_app; [done|apply cascaded_nil].
Qed.

Lemma reduce_replacements registry (groups : list (list (Item P) * list (Item P))) :
  foldl reduce_replacement registry groups =
    run_ops registry (groups ≫= λ group, ops_of DEL group.1 ++ ops_of SET group.2).
Proof.
  revert registry. induction groups as [|group groups IH]; intros registry; [done|]. csimpl.
  rewrite !run_ops_app, IH. f_equal. unfold reduce_replacement, run_ops, ops_of. rewrite !foldl_fmap. done.
Qed.

Lemma replacement_perm (deletes upserts : list (Item P)) :
  (replace_by_type deletes upserts ≫= λ group, ops_of DEL group.1 ++ ops_of SET group.2)
    ≡ₚ ops_of DEL deletes ++ ops_of SET upserts.
Proof.
  unfold replace_by_type. set (types := bt_of_list _). rewrite list_fmap_bind.
  assert (∀ types : list string, (types ≫= ((λ group, ops_of DEL group.1 ++ ops_of SET group.2) ∘ λ t,
      (filter (λ item : Item P, item_type item = t) deletes, filter (λ item : Item P, item_type item = t) upserts)))
    ≡ₚ ops_of DEL (types ≫= λ t, filter (λ item, item_type item = t) deletes) ++
       ops_of SET (types ≫= λ t, filter (λ item, item_type item = t) upserts)) as H.
  { clear. induction types as [|t types IH]; [done|]. csimpl. unfold ops_of in *. rewrite IH, !fmap_app. solve_Permutation. }
  rewrite H. assert (NoDup types) as ND by apply sorted_NoDup, bt_of_list_sorted.
  assert (∀ x, x ∈ deletes ++ upserts → item_type x ∈ types) as Hin.
  { intros x Hx. unfold types. rewrite elem_of_bt_of_list. by apply list_elem_of_fmap_2. }
  unfold ops_of. rewrite !group_by_types_perm; [done|done|set_solver|done|set_solver].
Qed.

Lemma preflight_replace_same (g : GraphIndex P) registry gst upserts deletes mode :
  same_index gst (preflight_replace_batch g registry gst upserts deletes mode).1.
Proof.
  unfold preflight_replace_batch. pose proof (preflight_batch_from_same g ∅ gst upserts mode) as S. unfold preflight_batch.
  destruct (preflight_batch_from _ _ _ _ _) as [gst' []]; [|done].
  eapply same_index_trans; [exact S|apply preflight_all_same].
Qed.

Lemma olds_extend registry olds items upserts s1 :
  ctx_registry (P := P) (CB := CB) (J := J) s1 = registry → olds_of registry olds items →
  olds_of registry (foldl (λ m item, <[(item_type item, item_id item) := canonical_item s1 item]> m) olds upserts)
    (items ++ upserts).
Proof.
  intros Er. revert olds items. induction upserts as [|x upserts IH]; intros olds items H; simpl; [by rewrite app_nil_r|].
  replace (items ++ x :: upserts) with ((items ++ [x]) ++ upserts) by by rewrite <-app_assoc.
  apply IH. unfold canonical_item. rewrite Er. by apply olds_insert.
Qed.

(** The run a replacement performs, by type or deletes first. *)
Lemma replacement_exact og registry gst (deletes upserts : list (Item P)) :
  NoDup (item_key <$> deletes ++ upserts) →
  graph_exact og (run_ops registry (ops_of DEL deletes ++ ops_of SET upserts)) gst →
  graph_exact og (foldl reduce_replacement registry (replace_by_type deletes upserts)) gst.
Proof.
  intros ND G g Eg. destruct (G g Eg) as [R Gk]. split; [done|]. revert Gk. apply graph_ok_stores. intros t _.
  rewrite reduce_replacements. apply run_ops_perm; [|by rewrite replacement_perm].
  rewrite fmap_app, !ops_of_keys, <-fmap_app. done.
Qed.

Lemma commit_changes_ok og s0 registry coordinated olds deletes upserts origin :
  registry_ok registry → coordinated_ok og coordinated deletes → coordinated_ok og coordinated upserts →
  (∀ x, x ∈ deletes ++ upserts → old_of olds x = lookup_item registry (item_type x) (item_id x)) →
  NoDup (item_key <$> deletes ++ upserts) →
  let registry' := foldl reduce_replacement registry (replace_by_type deletes upserts) in
  hoare (near s0 registry (graph_exact og registry)) (commit_changes env coordinated olds deletes upserts origin)
    (λ _, near s0 registry' (graph_exact og registry')).
Proof.
  intros W Hcd Hcu Ho ND registry'. unfold commit_changes.
  apply hoare_bind with (λ _, near s0 registry' (graph_exact og (run_ops registry []))).
  { intros s s' a (F & Er & Hq) [= <- _]. split; [etrans; [done|by split]|]. split; [|done]. simpl. by rewrite Er. }
  intros u. eapply hoare_bind.
  { apply (commit_items_ok og s0 registry registry' coordinated olds DEL origin [] deletes); [done|done|..].
    - intros x Hx. apply Ho, elem_of_app. by left.
    - simpl. rewrite ops_of_keys. rewrite fmap_app in ND. by apply NoDup_app in ND as (? & _ & _). }
  intros u'. eapply hoare_weaken;
    [apply (commit_items_ok og s0 registry registry' coordinated olds SET origin (ops_of DEL deletes) upserts); [done|done|..]| |].
  - intros x Hx. apply Ho, elem_of_app. by right.
  - by rewrite fmap_app, !ops_of_keys, <-fmap_app.
  - done.
  - intros u'' s (F & Er & Hq). split; [done|]. split; [done|]. by apply replacement_exact.
Qed.

(** A replacement reduces the stores by its effective deletes and its upserts. *)
Lemma commit_replacement_spec og s0 upserts deletes origin mode expected :
  ctx_ok og s0 →
  hoare (λ s, s = s0) (commit_replacement env upserts deletes origin mode expected)
    (λ plan s, ctx_ok og s ∧ frame s0 s ∧
       match plan with
       | Some (by_type, cascades) =>
           by_type = replace_by_type (effective (ctx_registry s0) deletes) upserts ∧
           ctx_registry s = foldl reduce_replacement (ctx_registry s0) by_type ∧
           cascaded og (ctx_registry s0) deletes cascades
       | None => s = s0 ∧ ∃ generation, expected = Some generation ∧ gs_generation (ctx_gstate s0) ≠ generation
       end).
Proof.
  intros H0. pose proof H0 as [Eg W G _ _]. unfold commit_replacement.
  destruct (upserts ++ deletes) as [|first rest] eqn:Eall.
  { apply app_nil in Eall as [-> ->]. intros s s' a -> [= <- <-]. split_and!; [done..|apply cascaded_nil]. }
  destruct (repeated_item ∅ (deletes ++ upserts)) as [x|] eqn:Rep; [apply hoare_raise|].
  apply repeated_item_None in Rep as [ND _]. apply hoare_get. intros s ->. set (registry := ctx_registry s0) in *.
  set (coordinated := match ctx_graph s0 with Some g => _ | None => _ end).
  assert (coordinated_ok og coordinated upserts ∧ coordinated_ok og coordinated deletes) as [Hcu Hcd].
  { unfold coordinated. rewrite Eg. destruct og as [g|]; [|done]. destruct (_ || _) eqn:C; [done|].
    apply orb_false_iff in C as [Cd Cu].
    split; intros g' x [= <-] Hx; eapply uncoordinated_registration; [by apply (existsb_false _ _ Cu)|by apply (existsb_false _ _ Cd)]. }
  destruct (match coordinated with Some _ => _ | None => _ end) eqn:Stale.
  { intros s s' a -> [= <- <-]. split_and!; [done..|]. destruct coordinated, expected as [generation|]; try done.
    exists generation. split; [done|]. by apply negb_true_iff, bool_decide_eq_false in Stale. }
  clear Stale.
  eapply hoare_bind.
  { eapply hoare_weaken; [apply (hoare_fold_each (λ l acc s, near s0 registry (graph_exact og registry) s ∧
      (olds_of registry acc.1.1 l ∧ acc.1.2 = effective registry l ∧ cascaded og registry l acc.2)))| |done].
    - intros l1 x l2 acc El. apply plan_delete_ok; [done|]. intros g E. by rewrite E in Hcd.
    - intros s ->. split; [by split_and!|]. split_and!; [|done|apply cascaded_nil].
      split; [intros k v; simpl; by rewrite lookup_empty|by intros x ?%elem_of_nil]. }
  intros [[olds eff] cascades]. apply hoare_pure. simpl. intros (Ho & Eeff & Pl).
  assert (sublist eff deletes) as Sub by (rewrite Eeff; apply sublist_filter). apply hoare_get. intros s1 N1.
  pose proof (olds_extend registry olds deletes upserts s1 (proj1 (proj2 N1)) Ho) as Ho'. set (olds' := foldl _ olds upserts) in *.
  assert (NoDup (item_key <$> eff ++ upserts)) as NDe.
  { eapply (sublist_NoDup (item_key <$> eff ++ upserts)); [exact ND|]. rewrite !fmap_app. apply sublist_app; [|done]. by apply fmap_sublist. }
  assert (∀ x, x ∈ eff → x ∈ deletes) as Hsub by by apply sublist_subseteq.
  apply hoare_bind with (λ _, near s0 registry (graph_exact og registry)).
  { destruct coordinated as [g|]; [|by intros s s' a -> [= <- _]].
    pose proof (preflight_replace_same g (ctx_registry s1) (ctx_gstate s1) upserts eff mode) as S.
    destruct (preflight_replace_batch _ _ _ _ _ _) as [gst [u|e]]; intros s s' a -> [= <- _].
    destruct N1 as (F & Er & Hq). split; [etrans; [done|by split]|]. split; [done|]. by eapply exact_same_index. }
  intros u. set (changes := match coordinated with Some g => _ | None => _ end).
  eapply hoare_bind; [apply (commit_changes_ok og s0 registry coordinated olds' eff upserts)|]; try done.
  { eapply coordinated_sub; [|done]. intros x. apply Hsub. }
  { intros x [Hx|Hx]%elem_of_app; (eapply old_of_olds; [done|]); apply elem_of_app; [left; by apply Hsub|by right]. }
  intros u3. eapply hoare_bind.
  { destruct changes; [apply (hoare_ret (λ _, _))|]. destruct coordinated; [apply publish_near|apply (hoare_ret (λ _, _))]. }
  intros u4 s s' a N [= <- <-]. split; [|split; [apply N|subst eff; by split_and!; [|apply N|]]].
  eapply near_ok; [done| |exact N]. rewrite reduce_replacements. by apply run_ops_ok.
Qed.

Lemma commit_replacement_ok og s0 upserts deletes origin mode expected :
  ctx_ok og s0 →
  hoare (λ s, s = s0) (commit_replacement env upserts deletes origin mode expected)
    (λ plan s, ctx_ok og s ∧ match plan with Some (_, cascades) => cascade_ok og cascades | None => True end).
Proof.
  intros H0. eapply hoare_weaken; [by apply (commit_replacement_spec og)|done|].
  intros [[by_type cascades]|] s (Hs & _ & Hp); (split; [done|]); [|done].
  destruct Hp as (_ & _ & Hp & _). by eapply planned_cascade.
Qed.
End invariant.

(** ** Effects *)
Section keyed.
Context {P : Type}.

Lemma NoDup_ids_keys (items : list (Item P)) : NoDup (item_id <$> items) → NoDup (item_key <$> items).
Proof. intros ND. apply (NoDup_fmap_1 snd). by rewrite <-list_fmap_compose. Qed.

(** The values of a map keyed by their ids. *)
Lemma NoDup_keyed (m : gmap string (Item P)) :
  (∀ k x, m !! k = Some x → item_id x = k) → NoDup (item_id <$> (map_to_list m).*2).
Proof.
  intros H. replace (item_id <$> (map_to_list m).*2) with (map_to_list m).*1; [apply NoDup_fst_map_to_list|].
  rewrite <-list_fmap_compose. apply list_fmap_ext. intros i [k x] Hi. simpl. symmetry. apply H.
  apply elem_of_map_to_list. by eapply list_elem_of_lookup_2.
Qed.

Lemma NoDup_all_items (registry : StoreRegistry P) t : registry_ok registry → NoDup (item_id <$> get_all_items registry t).
Proof. intros W. apply NoDup_keyed. intros k x E. by apply (get_or_create_ok registry t k x W) in E as [_ ?]. Qed.

Lemma NoDup_sublist_ids (l l' : list (Item P)) : sublist l l' → NoDup (item_id <$> l') → NoDup (item_id <$> l).
Proof. intros S ND. eapply sublist_NoDup; [exact ND|]. by apply fmap_sublist. Qed.
End keyed.

Section effects.
Context {P CB J : Type} (env : Env P J) (og : option (GraphIndex P)).
Context (submit : list (Item P) → MEventType → Origin → M P CB J unit).
Abbreviation I := (ctx_ok (CB := CB) (J := J) og).
Context (Hsubmit : ∀ items change origin, NoDup (item_key <$> items) → hoare I (submit items change origin) (λ _, I)).
Context (Hcascade : ∀ items, cascade_ok og items → hoare I (submit items DEL Cascade) (λ _, I)).

Lemma hoare_skip : hoare I (mret ()) (λ _, I).
Proof. apply (hoare_ret (λ _, I)). Qed.

Lemma frame_ok s s' :
  frame s s' → ctx_registry s' = ctx_registry s → ctx_gstate s' = ctx_gstate s → I s → I s'.
Proof.
  intros [Fc Fl Fg Ft Fb] Er Es [H1 H2 H3 H4 H5].
  split; [congruence|by rewrite Er|by rewrite Er, Es|by rewrite Fc|by rewrite Ft].
Qed.

Lemma update_rel_ok f : (∀ rm, rm_tables (f rm) = rm_tables rm) → hoare I (update_rel f) (λ _, I).
Proof. intros H s s' a Hs [= <- _]. apply (frame_ok s); try done. split; try done. apply H. Qed.

Lemma publish_batch_ok items : NoDup (item_key <$> items) → hoare I (publish_del_cascade_batch submit items) (λ _, I).
Proof. intros ND. unfold publish_del_cascade_batch. destruct items; [apply hoare_skip|by apply Hsubmit]. Qed.

Lemma children_ok lookup ids :
  hoare I (children_of_parents lookup ids) (λ m s, I s ∧ ∀ k x, m !! k = Some x → item_id x = k).
Proof.
  unfold children_of_parents.
  assert (∀ k (x : Item P), (∅ : gmap string (Item P)) !! k = Some x → item_id x = k) as H0 by (intros k x; by rewrite lookup_empty).
  revert H0. generalize (∅ : gmap string (Item P)). induction ids as [|id ids IH]; intros acc Ha.
  - intros s s' m Hs [= <- <-]. done.
  - apply hoare_bind with (λ _, I).
    + intros s s' children Hs. unfold query_rel.
      pose proof (find_children_tables (ctx_registry s) lookup id (ctx_rel s)) as T.
      destruct (find_children_by_fk _ _ _ _) as [rm l]. intros [= <- <-]. by apply (frame_ok s); [split|..].
    + intros children. apply IH. clear IH. induction children as [|c children IHc] in acc, Ha |- *; [done|]. simpl.
      apply IHc. destruct (acc !! item_id c); [done|]. intros k x [[<- <-]|[_ Hk]]%lookup_insert_Some; [done|by apply Ha].
Qed.

Lemma belongs_to_ok items : hoare I (handle_belongs_to_cascade_batch submit items) (λ _, I).
Proof.
  unfold handle_belongs_to_cascade_batch. destruct items as [|first items]; [apply hoare_skip|].
  apply hoare_get. intros s0 H0. eapply hoare_weaken; [|intros s ->; exact H0|intros a s Hs; exact Hs].
  destruct (belongs_to_by_foreign _ !! _) as [lookups|]; [|apply hoare_skip].
  apply hoare_loop. intros lookup _. eapply hoare_bind; [apply children_ok|]. intros m. apply hoare_pure. intros Hm.
  by apply publish_batch_ok, NoDup_ids_keys, NoDup_keyed.
Qed.

Lemma owned_ok items : hoare I (handle_owns_many_parent_delete_batch submit items) (λ _, I).
Proof.
  unfold handle_owns_many_parent_delete_batch. destruct items as [|first items]; [apply hoare_skip|].
  apply hoare_get. intros s0 H0. eapply hoare_weaken; [|intros s ->; exact H0|intros a s Hs; exact Hs].
  destruct (owns_many_by_local _ !! _) as [lookups|]; [|apply hoare_skip].
  apply hoare_read_loop. intros lookup s _ Hs. apply publish_batch_ok, NoDup_ids_keys.
  set (ids := foldl _ [] _). assert (NoDup ids) as ND.
  { apply sorted_NoDup. unfold ids. assert (sorted (@nil string)) as Hn by apply sorted_nil. revert Hn.
    generalize (@nil string). induction (omap _ _) as [|l ls IH]; intros acc Ha; simpl; [done|]. by apply IH, bt_extend_sorted. }
  clearbody ids. pose proof (co_registry _ _ Hs) as W.
  assert (∀ l : list string, item_id <$> omap (get_by_id (ctx_registry s) (om_foreign_type lookup)) l =
    filter (λ id, is_Some (get_by_id (ctx_registry s) (om_foreign_type lookup) id)) l) as E.
  { induction l as [|id l IH]; [done|]. csimpl. rewrite filter_cons. unfold get_by_id in *.
    destruct (get_or_create _ _ !! id) as [x|] eqn:Ex; simpl; [|exact IH].
    f_equal; [|exact IH]. by apply (get_or_create_ok _ _ _ _ W) in Ex as [_ ?]. }
  rewrite E. by apply NoDup_filter.
Qed.

Lemma ensure_delete_ok items : hoare I (handle_ensure_for_delete_batch submit items) (λ _, I).
Proof.
  unfold handle_ensure_for_delete_batch. destruct items as [|first items]; [apply hoare_skip|].
  apply hoare_get. intros s0 H0. eapply hoare_weaken; [|intros s ->; exact H0|intros a s Hs; exact Hs].
  destruct (ensure_for_by_dependency _ !! _) as [lookups|]; [|apply hoare_skip].
  apply hoare_read_loop. intros lookup s _ Hs. apply publish_batch_ok, NoDup_ids_keys.
  eapply NoDup_sublist_ids; [apply sublist_filter|]. apply NoDup_all_items. by apply co_registry in Hs.
Qed.

Lemma fixup_ok item : hoare I (handle_owns_many_child_delete submit item) (λ _, I).
Proof.
  unfold handle_owns_many_child_delete. apply hoare_get. intros s0 H0.
  eapply hoare_weaken; [|intros s ->; exact H0|intros a s Hs; exact Hs].
  destruct (owns_many_by_foreign _ !! _) as [lookups|] eqn:El; [|apply hoare_skip].
  apply hoare_read_loop. intros lookup s Hl Hs.
  assert (NoDup (item_key <$> omap (λ parent, om_remove_id lookup parent (item_id item))
    (find_parents_containing (ctx_registry s) lookup (item_id item)))) as ND.
  { assert (NoDup (item_key <$> find_parents_containing (ctx_registry s) lookup (item_id item))) as Hp.
    { apply NoDup_ids_keys. eapply NoDup_sublist_ids; [apply sublist_filter|]. apply NoDup_all_items. by apply co_registry in Hs. }
    revert Hp. induction (find_parents_containing _ _ _) as [|p l IH]; [done|]. csimpl. intros [Np Hp]%NoDup_cons.
    destruct (om_remove_id lookup p (item_id item)) as [p'|] eqn:Er; [|by apply IH]. csimpl. apply NoDup_cons.
    split; [|by apply IH]. pose proof (co_relations _ _ H0 _ _ _ _ _ _ El Hl Er) as Ek. rewrite Ek.
    intros (y & Ey & (q & Hq & Eq)%list_elem_of_omap)%list_elem_of_fmap. apply Np.
    pose proof (co_relations _ _ H0 _ _ _ _ _ _ El Hl Eq) as Ek'. rewrite Ey, Ek'. by apply list_elem_of_fmap_2. }
  destruct (omap _ _); [apply hoare_skip|]. by apply Hsubmit.
Qed.

Lemma NoDup_one (item : Item P) : NoDup (item_key <$> [item]).
Proof. csimpl. apply NoDup_singleton. Qed.

Lemma ensure_combination_ok lookup combo : hoare I (ensure_combination env submit lookup combo) (λ _, I).
Proof.
  unfold ensure_combination. apply hoare_get. intros s0 H0.
  eapply hoare_weaken; [|intros s ->; exact H0|intros a s Hs; exact Hs].
  destruct (bool_decide _); [apply (hoare_ret (λ _, I))|].
  eapply hoare_bind; [by apply update_rel_ok|]. intros u. destruct (find_ensure_for_entity_in _ _ _).
  - eapply hoare_bind; [by apply update_rel_ok|]. intros u'. apply (hoare_ret (λ _, I)).
  - apply hoare_bind with (λ _, I).
    { intros s s' a Hs [= <- _]. apply (frame_ok s); [by split|done..]. }
    intros u'. eapply hoare_bind; [apply hoare_catch, Hsubmit, NoDup_one|]. intros [[]|e].
    + intros s s' a Hs [= <- _]. by apply (Hs ()).
    + eapply hoare_bind with (λ _ _, True); [done|]. intros u''. apply hoare_raise.
Qed.

Lemma ensure_missing_ok lookup combos existing : hoare I (ensure_missing env submit lookup combos existing) (λ _, I).
Proof.
  revert existing. induction combos as [|combo combos IH]; intros existing; simpl; [apply hoare_skip|].
  destruct (bool_decide _); [apply IH|]. eapply hoare_bind; [apply ensure_combination_ok|]. intros created. apply IH.
Qed.

Lemma forward_set_ok items : hoare I (forward_set_batch env submit items) (λ _, I).
Proof.
  unfold forward_set_batch. destruct items as [|first items]; [apply hoare_skip|].
  apply hoare_get. intros s0 H0. eapply hoare_weaken; [|intros s ->; exact H0|intros a s Hs; exact Hs].
  eapply hoare_bind.
  - apply hoare_read_loop. intros lookup s _ Hs. eapply hoare_bind.
    + apply update_rel_ok. intros rm. apply load_tables.
    + intros u. apply update_rel_ok. intros rm. apply (foldl_tables (index_belongs_to_child lookup)). intros. apply index_child_tables.
  - intros u. unfold handle_ensure_for_type. apply hoare_get. intros s1 H1.
    eapply hoare_weaken; [|intros s ->; exact H1|intros a s Hs; exact Hs].
    destruct (ensure_for_by_dependency _ !! _); [|apply hoare_skip].
    apply hoare_read_loop. intros lookup s _ Hs. apply ensure_missing_ok.
Qed.

Lemma forward_del_ok items : hoare I (forward_del_batch submit items) (λ _, I).
Proof.
  unfold forward_del_batch. destruct items as [|first items]; [apply hoare_skip|].
  eapply hoare_bind; [apply belongs_to_ok|]. intros u1. eapply hoare_bind; [apply owned_ok|]. intros u2.
  eapply hoare_bind; [apply ensure_delete_ok|]. intros u3. apply hoare_loop. intros item _.
  eapply hoare_bind; [apply fixup_ok|]. intros u4. apply hoare_get. intros s Hs.
  eapply hoare_weaken; [|intros ? ->; exact Hs|intros a s' Hs'; exact Hs'].
  apply update_rel_ok. intros rm. apply (foldl_tables (λ lookup, remove_belongs_to_child lookup (item_id item))).
  intros. apply remove_child_tables.
Qed.

Lemma sink_ok item change : hoare I (send_dyn_to_sink env item change) (λ _, I).
Proof. intros s s' a Hs [= <- _]. destruct (env_event_sink env); [|done]. apply (frame_ok s); [by split|done..]. Qed.

Lemma produce_ok item change : hoare I (produce_dyn env item change) (λ _, I).
Proof.
  apply hoare_bind with (λ _, I); [|intros u; apply sink_ok]. intros s s' a Hs. unfold persist_dyn.
  destruct (resolve _ _) as [p|]; [|by intros [= <- _]]. destruct (p _ _); [|done]. intros [= <- _].
  apply (frame_ok s); [by split|done..].
Qed.

Lemma apply_effects_ok items change origin already : hoare I (apply_effects env submit items change origin already) (λ _, I).
Proof.
  unfold apply_effects. apply hoare_bind with (λ _, I).
  { intros s s' a Hs [= <- _]. apply (frame_ok s); [by split|done..]. }
  intros u. eapply hoare_bind.
  { destruct (should_cascade origin change); [|apply hoare_skip]. destruct change; [apply forward_set_ok|apply forward_del_ok]. }
  intros u'. destruct (should_produce origin); [|apply hoare_skip]. apply hoare_loop. intros item _.
  destruct already; [apply sink_ok|apply produce_ok].
Qed.

(** ** Emissions *)

(** A computation whose outcome holds from each state with the invariant. *)
Lemma hoare_at {A} (m : M P CB J A) Post : (∀ s0, I s0 → hoare (λ s, s = s0) m Post) → hoare I m Post.
Proof. intros H s s' a Hs E. by apply (H s Hs s). Qed.

Lemma emit_one_ok item change origin mode : hoare I (emit_one env submit item change origin mode) (λ _, I).
Proof.
  unfold emit_one. eapply hoare_bind; [apply hoare_at; intros s0 H0; by apply commit_one_ok|].
  intros cascades. apply hoare_pure. intros Hc. eapply hoare_bind; [apply apply_effects_ok|]. intros u. by apply Hcascade.
Qed.

Lemma emit_grouped_ok items change origin mode :
  NoDup (item_key <$> items) → hoare I (emit_grouped env submit items change origin mode) (λ _, I).
Proof.
  intros ND. unfold emit_grouped. destruct items as [|first items]; [apply hoare_skip|].
  eapply hoare_bind; [apply hoare_at; intros s0 H0; by apply commit_grouped_ok|].
  intros cascades. apply hoare_pure. intros Hc. eapply hoare_bind; [|intros u; by apply Hcascade].
  apply hoare_loop. intros group _. apply apply_effects_ok.
Qed.

Lemma emit_replace_ok upserts deletes origin mode expected :
  hoare I (emit_replace_grouped env submit upserts deletes origin mode expected) (λ _, I).
Proof.
  unfold emit_replace_grouped. destruct (upserts ++ deletes); [apply (hoare_ret (λ _, I))|].
  eapply hoare_bind; [apply hoare_at; intros s0 H0; by apply commit_replacement_ok|].
  intros [[by_type cascades]|]; apply hoare_pure; [|intros _; apply (hoare_ret (λ _, I))]. intros Hc.
  eapply hoare_bind; [|intros u; eapply hoare_bind; [by apply Hcascade|intros u'; apply (hoare_ret (λ _, I))]].
  apply hoare_loop. intros group _. eapply hoare_bind; [apply apply_effects_ok|intros u; apply apply_effects_ok].
Qed.

Lemma emit_uniform_ok items change origin mode :
  NoDup (item_key <$> items) → hoare I (emit_uniform env submit items change origin mode) (λ _, I).
Proof.
  intros ND. unfold emit_uniform. destruct items as [|x [|y items]]; [by apply emit_grouped_ok|apply emit_one_ok|by apply emit_grouped_ok].
Qed.

Lemma emit_pending_ok pending : pending_ok pending → hoare I (emit_pending env submit pending) (λ _, I).
Proof.
  unfold pending_ok, emit_pending. destruct (pm_kind pending); intros Hp; [|apply emit_replace_ok].
  eapply hoare_bind; [by apply emit_uniform_ok|]. intros u. apply (hoare_ret (λ _, I)).
Qed.

Lemma drain_ok steps stop : hoare I (drain env submit steps stop) (λ _, I).
Proof.
  induction steps as [|steps IH]; [done|]. simpl. intros s s' a Hs. revert Hs. revert s s' a.
  apply (hoare_bind I (λ pending s, I s ∧ match pending with Some p => pending_ok p | None => True end)).
  - intros s s' pending Hs. unfold pop_pending. destruct (ctx_causal s) as [st|] eqn:Ec; [|by intros [= <- <-]].
    pose proof (co_queue _ _ Hs _ Ec) as Q. destruct (cs_queue st) as [|p queue]; intros [= <- <-]; [done|].
    apply Forall_cons in Q as [Qp Q]. split; [|done]. destruct Hs as [H1 H2 H3 H4 H5]. split; try done. by intros ? [= <-].
  - intros [pending|]; apply hoare_pure; intros Hp; [|apply (hoare_ret (λ _, I))].
    eapply hoare_bind; [by apply emit_pending_ok|]. intros applied.
    destruct (negb applied && stop); [apply (hoare_ret (λ _, I))|apply IH].
Qed.
End effects.

(** ** Submissions *)
Section submissions.
Context {P CB J : Type} (env : Env P J) (og : option (GraphIndex P)).
Abbreviation I := (ctx_ok (CB := CB) (J := J) og).
Implicit Types (items : list (Item P)) (s : Ctx P CB J).

(** The accepted versions of a consistent batch have distinct keys. *)
Lemma accepted_NoDup items new change :
  consistent items → sublist new items → NoDup (keys env change new) → NoDup (item_key <$> new).
Proof.
  intros C S ND. assert (∀ x, x ∈ new → x ∈ items) as Sub by by apply sublist_subseteq. clear S. revert ND Sub.
  induction new as [|x new IH]; [constructor|]. csimpl. intros [N ND]%NoDup_cons Sub. apply NoDup_cons.
  split; [|apply IH; [done|]; intros y Hy; apply Sub; by right].
  intros (y & Ey & Hy)%list_elem_of_fmap. apply N. rewrite (C x y); [by apply (list_elem_of_fmap_2 (λ item, transition_key env item change))|..|done];
    apply Sub; [left|by right].
Qed.

Lemma enqueue_ok items change origin mode : consistent items → hoare I (enqueue_causal env items change origin mode) (λ _, I).
Proof.
  intros C s s' u Hs. unfold enqueue_causal. destruct items as [|first items]; [by intros [= <- _]|].
  unfold enqueue_with. destruct (ctx_causal s) as [st|] eqn:Ec; [|done].
  destruct (_ <? _)%Z; [done|]. unfold accept_uniform.
  destruct (accept_items _ _ _ _ _ _ _ _ _) as [[st' counters'] r] eqn:A.
  apply accept_items_new in A as (Eq & _ & Hr). pose proof (co_queue _ _ Hs _ Ec) as Q. destruct Hs as [H1 H2 H3 H4 H5].
  destruct r as [[|x accepted]|e]; intros E; [injection E as <- _|injection E as <- _|done].
  - split; try done. simpl. intros ? [= <-]. by rewrite Eq.
  - destruct Hr as (new & [= <-] & S & ND & _). split; try done. simpl. intros ? [= <-]. simpl. rewrite Eq.
    apply Forall_app. split; [done|]. constructor; [|constructor]. by eapply accepted_NoDup.
Qed.

Lemma enqueue_replace_ok upserts deletes origin mode expected :
  hoare I (enqueue_causal_replace env upserts deletes origin mode expected) (λ _, I).
Proof.
  intros s s' u Hs. unfold enqueue_causal_replace. destruct (upserts ++ deletes) as [|first rest]; [by intros [= <- _]|].
  unfold enqueue_with. destruct (ctx_causal s) as [st|] eqn:Ec; [|done].
  destruct (_ <? _)%Z; [done|]. unfold accept_replacement.
  destruct (accept_items _ _ _ _ _ _ _ deletes _) as [[st1 c1] [dels|e]] eqn:A1; [|done].
  destruct (accept_items _ _ _ _ _ _ _ upserts _) as [[st2 c2] [ups|e]] eqn:A2; [|done].
  apply accept_items_new in A1 as (E1 & _ & _), A2 as (E2 & _ & _).
  pose proof (co_queue _ _ Hs _ Ec) as Q. destruct Hs as [H1 H2 H3 H4 H5].
  assert (∀ st' c', cs_queue st' = cs_queue st2 ∨ (∃ p, cs_queue st' = cs_queue st2 ++ [p] ∧ pending_ok p) →
    I (set_causal (Some st') (set_counters c' s))) as H.
  { intros st' c' Hq. split; try done. simpl. intros ? [= <-]. rewrite E2, E1 in Hq.
    destruct Hq as [->|(p & -> & Hp)]; [done|]. apply Forall_app. by split; [|constructor]. }
  destruct ups, dels; intros E; injection E as <- _; apply H; ((by left) || (right; by eexists)).
Qed.

Lemma in_root_ok {A} (body : M P CB J A) : hoare I body (λ _, I) → hoare I (in_root env body) (λ _, I).
Proof.
  intros Hb. unfold in_root. apply hoare_bind with (λ _, I).
  { intros s s' u Hs [= <- _]. destruct Hs as [H1 H2 H3 H4 H5]. split; try done. intros ? [= <-]. constructor. }
  intros u. eapply hoare_bind; [apply hoare_catch, Hb|]. intros r.
  apply hoare_bind with (λ _ s, ∀ a, r = Ok a → I s); [|intros u'; apply (hoare_lift (λ _, I))].
  intros s s' u' Hs [= <- _] a Er. destruct (Hs a Er) as [H1 H2 H3 H4 H5]. by split.
Qed.

Lemma submit_ok fuel steps :
  (∀ items change origin mode, NoDup (item_key <$> items) →
     hoare I (submit_mutation_mode env fuel steps items change origin mode) (λ _, I)) ∧
  (∀ items, cascade_ok og items → hoare I (submit_mutation env fuel steps items DEL Cascade) (λ _, I)).
Proof.
  induction fuel as [|fuel [IH1 IH2]]; [done|].
  assert (∀ items change origin mode, consistent items →
    (∀ s, I s → needs_causal_root s items change origin = false → NoDup (item_key <$> items)) →
    hoare I (submit_mutation_mode env (S fuel) steps items change origin mode) (λ _, I)) as H.
  { intros items change origin mode C ND s s' u Hs. simpl. destruct (ctx_causal s) as [st|] eqn:Ec.
    - intros E. by eapply enqueue_ok.
    - destruct (needs_causal_root s items change origin) eqn:Nr; simpl.
      + intros E. eapply (in_root_ok (enqueue_causal env items change origin mode ≫= λ _,
          drain env (submit_mutation env fuel steps) steps false ≫= λ _, mret ())); [|done|exact E].
        eapply hoare_bind; [by apply enqueue_ok|]. intros u1. eapply hoare_bind; [|intros u2; apply (hoare_ret (λ _, I))].
        apply drain_ok; [intros; by apply IH1|done].
      + intros E. eapply (emit_uniform_ok env og (submit_mutation env fuel steps)); [intros; by apply IH1|done|by eapply ND|done|exact E]. }
  split.
  - intros items change origin mode ND. apply H; [by apply NoDup_consistent|done].
  - intros items [C Hc]. apply H; [done|]. intros s Hs Nr. destruct items as [|x items]; [constructor|]. exfalso.
    destruct (Hc x) as (g & Eg & [r Hr]); [left|]. unfold needs_causal_root in Nr. simpl in Nr.
    rewrite (co_graph_is _ _ Hs), Eg in Nr. unfold coordinates in Nr at 1. rewrite Hr in Nr. by rewrite orb_true_r in Nr.
Qed.

Lemma submit_replace_ok fuel steps upserts deletes origin expected :
  hoare I (submit_replace_mutation_inner env fuel steps upserts deletes origin expected) (λ _, I).
Proof.
  assert (hoare I (enqueue_causal_replace env upserts deletes origin Authoritative None ≫= λ _, mret true) (λ _, I)) as H1
    by (eapply hoare_bind; [apply enqueue_replace_ok|intros u; apply (hoare_ret (λ _, I))]).
  assert (hoare I (in_root env (enqueue_causal_replace env upserts deletes origin Authoritative expected ≫= λ _,
    drain env (submit_mutation env fuel steps) steps true)) (λ _, I)) as H2.
  { apply in_root_ok. eapply hoare_bind; [apply enqueue_replace_ok|]. intros u. destruct (submit_ok fuel steps) as [S1 S2].
    apply drain_ok; [intros; by apply S1|done]. }
  intros s s' b Hs. unfold submit_replace_mutation_inner.
  destruct upserts, deletes; [by intros [= <- <-]|..];
    (destruct (ctx_causal s); [destruct expected; [by intros [= <- <-]|by apply H1]|by apply H2]).
Qed.
End submissions.
