(* ===== verification/PipelineTotal.v ===== *)
(** * Submissions return

    Every submission outside a causal root returns, with an error or not, and leaves no root
    open: inside a root the budget pays for each pending mutation ([PipelineProof]), and a
    mutation submitted without a root derives nothing but the cascades of an edge deletion,
    which open one. *)

From stdpp Require Import base strings numbers option countable gmap sets list.
From S2P Require Import Prelude Order GraphTypes EdgeIds GraphIndex GraphQuery GraphPreflight GraphWatch ServerTypes Relationship Pipeline PipelineProof PipelineInvariant.

Section total.
Context {P CB J : Type} (env : Env P J).
Implicit Types (items : list (Item P)) (s : Ctx P CB J) (og : option (GraphIndex P)).

(** Steps that leave the stores and the index alone. *)
Record aside s s' : Prop := mkAside {
  aside_frame : frame s s';
  aside_registry : ctx_registry s' = ctx_registry s;
  aside_gstate : ctx_gstate s' = ctx_gstate s
}.
#[export] Instance aside_preorder : PreOrder aside.
Proof. split; [by split|]. intros s1 s2 s3 [] []. split; [by etrans|congruence..]. Qed.

Lemma keeps_weaken {A} (I : Ctx P CB J → Prop) R R' (m : M P CB J A) :
  (∀ s s', R s s' → R' s s') → keeps I R m → keeps I R' m.
Proof. intros H K s Hs. destruct (K s Hs) as (s' & r & E & HI & HR). exists s', r. split_and!; auto. Qed.

Lemma modify_aside (I : Ctx P CB J → Prop) f :
  (∀ s s', frame s s' → I s → I s') → (∀ s, aside s (f s)) → keeps I aside (modify f).
Proof. intros HI H. apply keeps_modify. intros s Hs. split; [eapply HI; [apply (H s)|done]|done]. Qed.

Lemma produce_aside (I : Ctx P CB J → Prop) item change :
  (∀ s s', frame s s' → I s → I s') → keeps I aside (produce_dyn (CB := CB) env item change).
Proof.
  intros HI. unfold produce_dyn. apply keeps_bind; [apply _| |intros u; apply modify_aside; [done|intros s; by destruct (env_event_sink env)]].
  intros s Hs. unfold persist_dyn. destruct (resolve _ _) as [p|]; [|by exists s, (Ok ())].
  destruct (p _ _); [|by exists s, (Err e)].
  assert (aside s (set_persisted (ctx_persisted s ++ [mkEvent change item]) s)) as F by by split.
  eexists _, _. split; [done|]. split; [eapply HI; [apply F|done]|exact F].
Qed.

(** Types without relationships derive nothing. *)
Lemma not_is_Some_lookup {A} (m : gmap string A) t : bool_decide (is_Some (m !! t)) = false → m !! t = None.
Proof. intros H%bool_decide_eq_false. by apply eq_None_not_Some. Qed.

Lemma uncoordinated_effects (tables : RelationshipTables P) submit t items change origin already :
  (∀ x, x ∈ items → item_type x = t) →
  (should_cascade origin change = true → ∀ rm, rm_tables rm = tables → rel_coordinates rm t change = false) →
  keeps (λ s : Ctx P CB J, rm_tables (ctx_rel s) = tables) aside (apply_effects env submit items change origin already).
Proof.
  intros Ht Hn. set (I := λ s : Ctx P CB J, _).
  assert (∀ s s', frame s s' → I s → I s') as HI by (intros s s' F; unfold I; by rewrite (frame_tables _ _ F)).
  unfold apply_effects. apply keeps_bind; [apply _|apply (modify_aside I); [done|by split]|]. intros u.
  apply keeps_bind; [apply _| |intros u'; destruct (should_produce origin); keeps_tac;
    [apply modify_aside; [done|intros s; by destruct (env_event_sink env)]|by apply produce_aside]].
  destruct (should_cascade origin change); [|apply keeps_ret, _]. specialize (Hn eq_refl).
  destruct items as [|first items]; [destruct change; apply keeps_ret, _|].
  assert (item_type first = t) as Ef by (apply Ht; left).
  destruct change; unfold rel_coordinates in Hn.
  - simpl. unfold handle_ensure_for_type. apply keeps_get. intros s Hs. specialize (Hn _ Hs).
    apply orb_false_iff in Hn as [N1%not_is_Some_lookup N2%not_is_Some_lookup]. rewrite Ef, N1. simpl.
    apply keeps_bind; [apply _|apply keeps_ret, _|]. intros u'. apply keeps_get. intros s' Hs'.
    unfold I in Hs, Hs'. rewrite Hs', <-Hs, N2. apply keeps_ret, _.
  - assert (∀ rm, rm_tables rm = tables → belongs_to_by_foreign (rm_tables rm) !! t = None ∧
      belongs_to_by_local (rm_tables rm) !! t = None ∧ owns_many_by_local (rm_tables rm) !! t = None ∧
      owns_many_by_foreign (rm_tables rm) !! t = None ∧ ensure_for_by_dependency (rm_tables rm) !! t = None) as N.
    { intros rm Hrm. specialize (Hn rm Hrm). rewrite !orb_false_iff in Hn.
      destruct Hn as [[[[N1 N2] N3] N4] N5]. split_and!; by apply not_is_Some_lookup. }
    unfold forward_del_batch, handle_belongs_to_cascade_batch, handle_owns_many_parent_delete_batch,
      handle_ensure_for_delete_batch, handle_owns_many_child_delete. rewrite Ef.
    apply keeps_bind; [apply _|apply keeps_get; intros s Hs; destruct (N _ Hs) as (-> & _); apply keeps_ret, _|]. intros u1.
    apply keeps_bind; [apply _|apply keeps_get; intros s Hs; destruct (N _ Hs) as (_ & _ & -> & _); apply keeps_ret, _|]. intros u2.
    apply keeps_bind; [apply _|apply keeps_get; intros s Hs; destruct (N _ Hs) as (_ & _ & _ & _ & ->); apply keeps_ret, _|]. intros u3.
    apply (keeps_for_each _ _ _ (first :: items)). intros x Hx. rewrite (Ht x Hx).
    apply keeps_bind; [apply _|apply keeps_get; intros s Hs; destruct (N _ Hs) as (_ & _ & _ & -> & _); apply keeps_ret, _|]. intros u4.
    apply keeps_get. intros s Hs. destruct (N _ Hs) as (_ & -> & _). simpl. apply (modify_aside I); [done|by split].
Qed.

(** *** Roots *)

(** A root just opened. *)
Definition opened s : Prop :=
  ∃ st, ctx_causal s = Some st ∧ cs_queue st = [] ∧ cs_current_depth st = None ∧ cs_derived_count st = 0%Z ∧
    (max_derived_mutations (ctx_limits s) < u64_max)%Z.

(** A root whose queue can be drained within the budget. *)
Definition drainable s : Prop :=
  queued s ∧ (potential s ≤ 1 + Z.max 0 (max_derived_mutations (ctx_limits s)))%Z.

Definition small_queue st : Prop :=
  (0 ≤ cs_derived_count st ≤ u64_max)%Z ∧
  (cs_queue st = [] ∨ ∃ pending : PendingMutation P, cs_queue st = [pending] ∧ pm_depth pending = 0%Z).

Lemma enqueue_with_root first mode label accept s :
  opened s →
  (∀ st counters mode chain st' counters' r,
     cs_queue st = [] → cs_derived_count st = 0%Z → accept st counters mode 0%Z chain = (st', counters', r) → small_queue st') →
  ∃ s' r, enqueue_with first mode label accept s = Some (s', r) ∧ drainable s' ∧ ctx_limits s' = ctx_limits s.
Proof.
  intros (st & Ec & Eq & Ed & En & Hm) Ha. unfold enqueue_with. rewrite Ec, Ed.
  assert (∀ st' c', small_queue st' → drainable (set_causal (Some st') (set_counters c' s))) as H.
  { intros st' c' [Hd Hq]. split.
    - split; simpl; [done|..|done]; intros ? [= <-]; [|done].
      destruct Hq as [->|(pending & -> & Ep)]; [constructor|]. constructor; [lia|constructor].
    - unfold potential. simpl. destruct Hq as [->|(pending & -> & Ep)]; unfold len; simpl; lia. }
  case_match.
  - eexists _, _. split; [done|]. split; [|done]. specialize (H st (count_exhaustion (ctx_counters s))).
    unfold set_causal, set_counters in *. simpl in *. rewrite <-Ec in H. apply H. split; [rewrite En; by vm_compute|by left].
  - destruct (accept _ _ _ _ _) as [[st' c'] r] eqn:A. eexists _, _. split; [done|]. split; [|done].
    apply H. by eapply Ha.
Qed.

Lemma accept_items_root limits chain change st counters items st' counters' r :
  cs_derived_count st = 0%Z →
  accept_items env limits 0 chain change st counters items [] = (st', counters', r) →
  cs_queue st' = cs_queue st ∧ cs_derived_count st' = 0%Z.
Proof.
  intros E0 A. split; [by apply accept_items_new in A as (? & _)|]. revert st counters E0 A. generalize (@nil (Item P)).
  induction items as [|item items IH]; intros acc st counters E0 A; simpl in A; [by simplify_eq|].
  case_bool_decide; by eapply IH; [|exact A].
Qed.


Lemma opened_drainable s : opened s → drainable s.
Proof.
  intros (st & Ec & Eq & Ed & En & Hm). split.
  - split; [done|..|done]; rewrite Ec; intros ? [= <-]; [by rewrite Eq|by rewrite En].
  - unfold potential. rewrite Ec, Eq, En. unfold len. simpl. lia.
Qed.

Lemma enqueue_root items change origin mode s :
  opened s → ∃ s' r, enqueue_causal env items change origin mode s = Some (s', r) ∧ drainable s' ∧ ctx_limits s' = ctx_limits s.
Proof.
  intros O. unfold enqueue_causal. destruct items as [|first items]; [by eexists s, _; auto using opened_drainable|].
  apply enqueue_with_root; [done|]. intros st counters mode' chain st' counters' r Eq En A. unfold accept_uniform in A.
  destruct (accept_items _ _ _ _ _ _ _ _ _) as [[st1 c1] r1] eqn:Ac.
  apply accept_items_root in Ac as [Eq1 En1]; [|done]. rewrite Eq in Eq1.
  destruct r1 as [[|x accepted]|e]; simplify_eq; split; simpl; rewrite ?En1, ?Eq1; try (by vm_compute); try (by left).
  right. by eexists.
Qed.

Lemma enqueue_replace_root upserts deletes origin mode expected s :
  opened s → ∃ s' r, enqueue_causal_replace env upserts deletes origin mode expected s = Some (s', r) ∧ drainable s' ∧
    ctx_limits s' = ctx_limits s.
Proof.
  intros O. unfold enqueue_causal_replace.
  destruct (upserts ++ deletes) as [|first items]; [by eexists s, _; auto using opened_drainable|].
  apply enqueue_with_root; [done|]. intros st counters mode' chain st' counters' r Eq En A. unfold accept_replacement in A.
  destruct (accept_items _ _ _ _ _ _ _ deletes _) as [[st1 c1] [dels|e]] eqn:A1;
    (apply accept_items_root in A1 as [Eq1 En1]; [|done]; rewrite Eq in Eq1);
    [|simplify_eq; split; [rewrite ?En1, ?En2; by vm_compute|by left]].
  destruct (accept_items _ _ _ _ _ _ _ upserts _) as [[st2 c2] [ups|e]] eqn:A2;
    (apply accept_items_root in A2 as [Eq2 En2]; [|done]; rewrite Eq1 in Eq2);
    [|simplify_eq; split; [rewrite ?En1, ?En2; by vm_compute|by left]].
  destruct ups, dels; simplify_eq; split; simpl; rewrite ?En2, ?Eq2; try (by vm_compute); ((by left) || (right; by eexists)).
Qed.

(** A root returns, whatever it enqueues first, and is closed. *)
Definition bounded (steps : nat) s : Prop :=
  (max_derived_mutations (ctx_limits s) < u64_max ∧ 1 + Z.max 0 (max_derived_mutations (ctx_limits s)) < Z.of_nat steps)%Z.

Lemma in_root_total {A B} steps (enqueue : M P CB J A) (rest : M P CB J B) s :
  bounded steps s →
  (∀ s, opened s → ∃ s' r, enqueue s = Some (s', r) ∧ drainable s' ∧ ctx_limits s' = ctx_limits s) →
  (∀ s, queued s → (potential s < Z.of_nat steps)%Z → ∃ s' r, rest s = Some (s', r)) →
  ∃ s' r, in_root env (_ ← enqueue; rest) s = Some (s', r) ∧ ctx_causal s' = None.
Proof.
  intros [Hm Hs] He Hk. unfold in_root. unfold mbind at 1, M_bind at 1. unfold open_root at 1. cbn beta iota zeta.
  set (s1 := set_causal _ _). assert (opened s1) as O by by eexists.
  destruct (He s1 O) as (s2 & r2 & E2 & [Hq Hp] & El).
  assert (∃ s' r, (enqueue ≫= λ _, rest) s1 = Some (s', r)) as (s3 & r3 & E3).
  { unfold mbind, M_bind. rewrite E2. destruct r2 as [a|e]; [|by eexists _, _].
    apply Hk; [done|]. rewrite El in Hp. simpl in Hp. lia. }
  unfold mbind, M_bind, catch in *. rewrite E3. by eexists _, _.
Qed.

Lemma drain_rest fuel steps steps' s :
  queued s → (potential s < Z.of_nat steps)%Z →
  ∃ s' r, (_ ← drain env (submit_mutation env (S fuel) steps') steps false; mret ()) s = Some (s', r).
Proof.
  intros Hq Hp. destruct (drain_total env fuel steps steps' false s Hq Hp) as (s' & [b|e] & E);
    unfold mbind, M_bind; rewrite E; by eexists _, _.
Qed.

Lemma rel_coordinates_tables (rm rm' : RelationshipManager P) t change :
  rm_tables rm = rm_tables rm' → rel_coordinates rm t change = rel_coordinates rm' t change.
Proof. intros E. unfold rel_coordinates. by rewrite E. Qed.

Lemma rootless_relations s items change origin x :
  needs_causal_root s items change origin = false → x ∈ items →
  should_cascade origin change = true → ∀ rm, rm_tables rm = rm_tables (ctx_rel s) → rel_coordinates rm (item_type x) change = false.
Proof.
  unfold needs_causal_root. intros N Hx C rm E. rewrite C in N. simpl in N.
  apply (existsb_false _ _) with (x := x) in N; [|done]. apply orb_false_iff in N as [N _].
  by rewrite (rel_coordinates_tables _ _ _ _ E).
Qed.

(** Submitting cascading edges outside a root: there are none, or they open a root. *)
Lemma submit_cascades_total og fuel steps items s :
  ctx_graph s = og → cascade_ok og items → ctx_causal s = None → bounded steps s →
  ∃ s' r, submit_mutation env (S (S fuel)) steps items DEL Cascade s = Some (s', r) ∧ ctx_causal s' = None.
Proof.
  intros Eg [C Hc] Ec B. unfold submit_mutation. cbn [submit_mutation_mode]. rewrite Ec.
  destruct items as [|x items]; [by eexists _, _|].
  assert (needs_causal_root s (x :: items) DEL Cascade = true) as ->.
  { destruct (Hc x) as (g & Eg' & [r Hr]); [left|]. unfold needs_causal_root, coordinates. simpl.
    rewrite Eg, Eg', Hr. by rewrite orb_true_r. }
  apply in_root_total with steps; [done|intros s1; apply enqueue_root|apply drain_rest].
Qed.

(** A commit, its effects and its cascades. *)
Lemma committed_total og fuel steps (commit : M P CB J (list (Item P))) (effects : M P CB J unit) s :
  ctx_graph s = og → ctx_causal s = None → bounded steps s →
  keeps (λ _, True) frame commit →
  hoare (λ s', s' = s) commit (λ cascades s', cascade_ok og cascades) →
  keeps (λ s', rm_tables (ctx_rel s') = rm_tables (ctx_rel s)) frame effects →
  ∃ s' r, (cascades ← commit; _ ← effects; submit_mutation env (S (S fuel)) steps cascades DEL Cascade) s = Some (s', r) ∧
    ctx_causal s' = None.
Proof.
  intros Eg Ec B Kc Hc Ke. unfold mbind, M_bind. destruct (Kc s I) as (s1 & [cascades|e] & E1 & _ & F1); rewrite E1;
    [|by eexists _, _; rewrite (frame_causal _ _ F1)].
  specialize (Hc s s1 cascades eq_refl E1). destruct (Ke s1 (frame_tables _ _ F1)) as (s2 & [u|e] & -> & _ & F2).
  - assert (frame s s2) as F by by etrans. apply (submit_cascades_total og); [by rewrite (frame_graph _ _ F)|done|..].
    + by rewrite (frame_causal _ _ F).
    + unfold bounded. by rewrite (frame_limits _ _ F).
  - eexists _, _. split; [done|]. rewrite (frame_causal _ _ F2). by rewrite (frame_causal _ _ F1).
Qed.

Lemma rootless_total og fuel steps items change origin mode s :
  ctx_ok og s → NoDup (item_key <$> items) → ctx_causal s = None → bounded steps s →
  needs_causal_root s items change origin = false →
  ∃ s' r, emit_uniform env (submit_mutation env (S (S fuel)) steps) items change origin mode s = Some (s', r) ∧
    ctx_causal s' = None.
Proof.
  intros H0 ND Ec B N. pose proof (rootless_relations s items change origin) as Rel.
  assert (∀ x : Ctx P CB J, ∀ y, frame x y → True → True) as HI by done.
  assert (∃ s' r, emit_grouped env (submit_mutation env (S (S fuel)) steps) items change origin mode s = Some (s', r) ∧
    ctx_causal s' = None) as Grouped.
  { unfold emit_grouped. destruct items as [|x0 items0] eqn:Ei; [by eexists _, _|]. rewrite <-Ei in *.
    apply (committed_total og); [apply H0|done|done|by apply commit_grouped_frame| |].
    - eapply hoare_weaken; [by apply (commit_grouped_ok env og s)|done|by intros ?? []].
    - apply keeps_for_each; [apply _|]. intros group Hg. unfold group_by_type in Hg.
      apply list_elem_of_fmap in Hg as (t & -> & Ht). simpl.
      apply elem_of_bt_of_list, list_elem_of_fmap in Ht as (x & -> & Hx).
      eapply keeps_weaken; [apply aside_frame|]. apply uncoordinated_effects with (item_type x); [by intros y [? _]%list_elem_of_filter|]. by apply Rel. }
  destruct items as [|x [|y items]]; [exact Grouped| |exact Grouped].
  apply (committed_total og); [apply H0|done|done|by apply commit_one_frame| |].
  - eapply hoare_weaken; [by apply (commit_one_ok env og s)|done|by intros ?? []].
  - eapply keeps_weaken; [apply aside_frame|]. apply uncoordinated_effects with (item_type x); [by intros y ->%list_elem_of_singleton|]. apply Rel; [done|left].
Qed.

(** ** Every submission returns, and no root stays open *)
Lemma submit_total og fuel steps items change origin mode s :
  ctx_ok og s → NoDup (item_key <$> items) → ctx_causal s = None → bounded steps s →
  ∃ s' r, submit_mutation_mode env (S (S (S fuel))) steps items change origin mode s = Some (s', r) ∧ ctx_causal s' = None.
Proof.
  intros H0 ND Ec B. set (f := S (S fuel)). cbn [submit_mutation_mode]. rewrite Ec.
  destruct (needs_causal_root s items change origin) eqn:N; simpl negb; cbv iota.
  - apply in_root_total with steps; [done|intros s1; apply enqueue_root|apply drain_rest].
  - by apply (rootless_total og).
Qed.

Lemma submit_replace_total fuel steps upserts deletes origin expected s :
  ctx_causal s = None → bounded steps s →
  ∃ s' r, submit_replace_mutation_inner env (S fuel) steps upserts deletes origin expected s = Some (s', r) ∧ ctx_causal s' = None.
Proof.
  intros Ec B. unfold submit_replace_mutation_inner. rewrite Ec.
  destruct upserts as [|x upserts], deletes as [|y deletes]; [by eexists _, _|..];
    (apply in_root_total with steps; [done|intros s1; apply enqueue_replace_root|apply drain_total]).
Qed.
End total.
