(* ===== verification/RelationshipProof.v ===== *)
(** * The [belongs_to] index and the combinations of [ensure_for]

    The child index of a [belongs_to] lookup, loaded from the stores at its first use and
    then updated item by item, always answers like a scan of the child store; the cartesian
    product lists each combination once. *)

From stdpp Require Import base strings numbers option countable gmap sets list.
From S2P Require Import Prelude Order GraphTypes EdgeIds GraphIndex ServerTypes Relationship Pipeline PipelineInvariant.

(** ** Combinations *)

Lemma elem_of_extend result set combo :
  combo ∈ extend_combinations result set ↔ ∃ existing id, combo = existing ++ [id] ∧ existing ∈ result ∧ id ∈ set.
Proof.
  unfold extend_combinations. rewrite list_elem_of_bind. split.
  - intros (existing & (id & -> & Hid)%list_elem_of_fmap & He). eauto.
  - intros (existing & id & -> & He & Hid). exists existing. split; [|done]. by apply (list_elem_of_fmap_2 (λ id, existing ++ [id])).
Qed.

Lemma elem_of_combinations sets result combo :
  combo ∈ foldl extend_combinations result sets ↔
    ∃ existing rest, combo = existing ++ rest ∧ existing ∈ result ∧ Forall2 (∈) rest sets.
Proof.
  revert result. induction sets as [|set sets IH]; intros result; simpl.
  - split; [intros H; exists combo, []; by rewrite app_nil_r|].
    intros (existing & rest & -> & H & ->%Forall2_nil_inv_r). by rewrite app_nil_r.
  - rewrite IH. split.
    + intros (? & rest & -> & (existing & id & -> & He & Hid)%elem_of_extend & F).
      exists existing, (id :: rest). rewrite <-app_assoc. split_and!; [done..|]. by constructor.
    + intros (existing & rest & -> & He & (id & rest' & Hid & F & ->)%Forall2_cons_inv_r).
      exists (existing ++ [id]), rest'. rewrite <-app_assoc. split_and!; [done| |done]. apply elem_of_extend. eauto.
Qed.

Lemma extend_NoDup result set : NoDup result → NoDup set → NoDup (extend_combinations result set).
Proof.
  intros Hr Hs. unfold extend_combinations. induction Hr as [|existing result Hn Hr IH]; csimpl; [constructor|].
  apply NoDup_app. split_and!; [|intros combo|done].
  - apply NoDup_fmap_2_strong; [|done]. intros ???? [_ [=]]%app_inj_2; [done|done].
  - intros (id & -> & Hid)%list_elem_of_fmap (ex' & id' & E & He & _)%elem_of_extend.
    apply app_inj_2 in E as [-> _]; done.
Qed.

Lemma combinations_NoDup sets result :
  NoDup result → Forall NoDup sets → NoDup (foldl extend_combinations result sets).
Proof.
  intros Hr Hs. revert result Hr. induction Hs as [|set sets H Hs IH]; intros result Hr; simpl; [done|].
  by apply IH, extend_NoDup.
Qed.

(** ** The child index *)

(** The index of a relation from children to parents. *)
Record child_index_ok (fks parents : gmap string string) (children : gmap string (list string)) : Prop := mkChildIndexOk {
  ci_parents : parents = fks;
  ci_children parent ids : children !! parent = Some ids → sorted ids ∧ ids ≠ [] ∧ ∀ child, child ∈ ids ↔ fks !! child = Some parent;
  ci_absent parent : children !! parent = None → ∀ child, fks !! child ≠ Some parent
}.

Lemma child_index_empty : child_index_ok ∅ ∅ ∅.
Proof. split; [done|..]; intros *; by rewrite lookup_empty. Qed.

Lemma child_index_add fks parents children child parent :
  child_index_ok fks parents children → fks !! child = None →
  child_index_ok (<[child := parent]> fks) (<[child := parent]> parents) (add_child child parent children).
Proof.
  intros [-> Hc Ha] N. split; [done|..]; unfold add_child.
  - intros p ids. destruct (decide (p = parent)) as [->|Np].
    + rewrite lookup_insert_eq. intros [= <-].
      assert (sorted (default [] (children !! parent)) ∧ ∀ c, c ∈ default [] (children !! parent) ↔ fks !! c = Some parent) as [S E].
      { destruct (children !! parent) as [ids|] eqn:El; simpl.
        - apply Hc in El as (? & _ & ?). done.
        - split; [apply sorted_nil|]. intros c. rewrite elem_of_nil. split; [done|]. intros. by eapply Ha. }
      split_and!; [by apply bt_insert_sorted|..].
      * intros En. apply (not_elem_of_nil child). rewrite <-En. apply elem_of_bt_insert. by left.
      * intros c. rewrite elem_of_bt_insert, E. destruct (decide (c = child)) as [->|Nc].
        -- rewrite lookup_insert_eq. naive_solver.
        -- rewrite lookup_insert_ne by done. naive_solver.
    + rewrite lookup_insert_ne by done. intros (S & Ne & E)%Hc. split_and!; [done..|]. intros c. rewrite E.
      destruct (decide (c = child)) as [->|Nc]; [rewrite lookup_insert_eq, N; naive_solver|by rewrite lookup_insert_ne].
  - intros p Hp c. destruct (decide (p = parent)) as [->|Np]; [by rewrite lookup_insert_eq in Hp|].
    rewrite lookup_insert_ne in Hp by done. destruct (decide (c = child)) as [->|Nc];
      [rewrite lookup_insert_eq; congruence|rewrite lookup_insert_ne by done; by apply Ha].
Qed.

Lemma child_index_remove fks parents children child parent ids :
  child_index_ok fks parents children → fks !! child = Some parent → children !! parent = Some ids →
  child_index_ok (delete child fks) (delete child parents)
    (if bool_decide (bt_remove child ids = []) then delete parent children else <[parent := bt_remove child ids]> children).
Proof.
  intros [-> Hc Ha] Hf Hp. destruct (Hc _ _ Hp) as (S & _ & E).
  assert (∀ c, c ∈ bt_remove child ids ↔ delete child fks !! c = Some parent) as E'.
  { intros c. rewrite elem_of_bt_remove, E by done. rewrite lookup_delete_Some. naive_solver. }
  assert (∀ p c, p ≠ parent → delete child fks !! c = Some p ↔ fks !! c = Some p) as O.
  { intros p c Np. rewrite lookup_delete_Some. split; [by intros [_ ?]|]. intros H. split; [|done]. intros <-. congruence. }
  split; [done|..].
  - intros p ids' H. case_bool_decide as Em.
    + apply lookup_delete_Some in H as [Np H]. apply Hc in H as (? & ? & Ep). split_and!; [done..|]. intros c. by rewrite Ep, O.
    + apply lookup_insert_Some in H as [[<- <-]|[Np H]]; [split_and!; [by apply bt_remove_sorted|done..]|].
      apply Hc in H as (? & ? & Ep). split_and!; [done..|]. intros c. by rewrite Ep, O.
  - intros p H c. destruct (decide (p = parent)) as [->|Np].
    + case_bool_decide as Em; [|by rewrite lookup_insert_eq in H]. rewrite <-E', Em. apply not_elem_of_nil.
    + rewrite O by done. apply Ha. case_bool_decide; [by rewrite lookup_delete_ne in H|by rewrite lookup_insert_ne in H].
Qed.

(** ** The manager's index of a lookup *)
Section belongs_to.
Context {P : Type}.
Implicit Types (rm : RelationshipManager P) (lookup : BelongsToLookup P) (item : Item P) (items : list (Item P))
  (registry : StoreRegistry P) (fks : gmap string string).

(** The foreign keys of the child store. *)
Definition fks_of lookup registry : gmap string string :=
  omap (bt_extract_fk lookup) (get_or_create registry (bt_local_type lookup)).

(** The loaded index of the lookup is that of the keys. *)
Definition indexes lookup fks rm : Prop :=
  ∃ parents children, belongs_to_parent_by_child rm !! bt_id lookup = Some parents ∧
    belongs_to_children_by_parent rm !! bt_id lookup = Some children ∧ child_index_ok fks parents children.

(** The index is that of the stores, or not loaded yet. *)
Definition index_ok lookup registry rm : Prop :=
  belongs_to_parent_by_child rm !! bt_id lookup = None ∨ indexes lookup (fks_of lookup registry) rm.

(** The key of one child after a set, or a deletion. *)
Definition with_fk lookup fks item : gmap string string :=
  match bt_extract_fk lookup item with
  | Some parent => <[item_id item := parent]> fks
  | None => delete (item_id item) fks
  end.

Lemma with_fk_other lookup fks item id : id ≠ item_id item → with_fk lookup fks item !! id = fks !! id.
Proof. intros N. unfold with_fk. by destruct (bt_extract_fk lookup item); rewrite ?lookup_insert_ne, ?lookup_delete_ne by done. Qed.

Lemma with_fk_at lookup fks item : with_fk lookup fks item !! item_id item = bt_extract_fk lookup item.
Proof. unfold with_fk. destruct (bt_extract_fk lookup item); by rewrite ?lookup_insert_eq, ?lookup_delete_eq. Qed.

Lemma fks_insert lookup registry item :
  item_type item = bt_local_type lookup → fks_of lookup (store_insert registry item) = with_fk lookup (fks_of lookup registry) item.
Proof.
  intros Et. apply map_eq. intros id. unfold fks_of. rewrite lookup_omap, get_or_create_insert.
  rewrite decide_True by done. destruct (decide (id = item_id item)) as [->|N].
  - by rewrite lookup_insert_eq, with_fk_at.
  - rewrite lookup_insert_ne, with_fk_other by done. by rewrite lookup_omap.
Qed.

Lemma fks_remove lookup registry id :
  fks_of lookup (store_remove registry (bt_local_type lookup) id) = delete id (fks_of lookup registry).
Proof.
  apply map_eq. intros id'. unfold fks_of. rewrite lookup_omap, get_or_create_remove. rewrite decide_True by done.
  destruct (decide (id = id')) as [->|N]; [by rewrite !lookup_delete_eq|]. rewrite !lookup_delete_ne by done. by rewrite lookup_omap.
Qed.

(** Setting the same items twice changes nothing more. *)
Lemma with_fks_agree lookup items fks fks' :
  (∀ id, id ∉ item_id <$> items → fks !! id = fks' !! id) → foldl (with_fk lookup) fks items = foldl (with_fk lookup) fks' items.
Proof.
  revert fks fks'. induction items as [|item items IH]; intros fks fks' H; simpl; [apply map_eq; intros id; apply H; by intros ?%elem_of_nil|].
  apply IH. intros id N. destruct (decide (id = item_id item)) as [->|Ni]; [by rewrite !with_fk_at|].
  rewrite !with_fk_other by done. apply H. csimpl. apply not_elem_of_cons. done.
Qed.

Lemma with_fks_other lookup items fks id : id ∉ item_id <$> items → foldl (with_fk lookup) fks items !! id = fks !! id.
Proof.
  revert fks. induction items as [|item items IH]; intros fks N; simpl; [done|].
  csimpl in N. apply not_elem_of_cons in N as [N1 N2]. rewrite IH by done. by apply with_fk_other.
Qed.

Lemma fks_inserts lookup registry items :
  (∀ x, x ∈ items → item_type x = bt_local_type lookup) →
  fks_of lookup (foldl store_insert registry items) = foldl (with_fk lookup) (fks_of lookup registry) items.
Proof.
  revert registry. induction items as [|item items IH]; intros registry Ht; simpl; [done|].
  rewrite IH by (intros x Hx; apply Ht; by right). by rewrite fks_insert by (apply Ht; left).
Qed.

(** *** Loading *)

Lemma load_children lookup items fks parents children :
  NoDup (item_id <$> items) → (∀ x, x ∈ items → fks !! item_id x = None) → child_index_ok fks parents children →
  child_index_ok (foldl (with_fk lookup) fks items) (foldl (load_child lookup) (parents, children) items).1
    (foldl (load_child lookup) (parents, children) items).2.
Proof.
  revert fks parents children. induction items as [|item items IH]; intros fks parents children ND N H; simpl; [done|].
  csimpl in ND. apply NoDup_cons in ND as [Nx ND].
  assert (fks !! item_id item = None) as Nf by (apply N; left).
  assert (∀ x, x ∈ items → with_fk lookup fks item !! item_id x = None) as N'.
  { intros x Hx. rewrite with_fk_other; [apply N; by right|]. intros E. apply Nx. rewrite <-E. by apply list_elem_of_fmap_2. }
  unfold load_child at 2 4. unfold with_fk at 2. unfold with_fk in N'. destruct (bt_extract_fk lookup item) as [parent|].
  - apply IH; [done..|]. by apply child_index_add.
  - rewrite delete_id in N' |- * by done. by apply IH.
Qed.

Lemma fks_of_items lookup registry :
  registry_ok registry →
  foldl (with_fk lookup) ∅ (map_to_list (get_or_create registry (bt_local_type lookup))).*2 = fks_of lookup registry.
Proof.
  intros W. set (store := get_or_create registry (bt_local_type lookup)).
  assert (∀ id x, store !! id = Some x → item_id x = id) as Hk by (intros id x E; by apply (get_or_create_ok registry _ id x W) in E as [_ ?]).
  apply map_eq. intros id. unfold fks_of. fold store. rewrite lookup_omap.
  assert (∀ x, x ∈ (map_to_list store).*2 ↔ store !! item_id x = Some x) as Hin.
  { intros x. rewrite list_elem_of_fmap. split.
    - intros ([k y] & -> & E%elem_of_map_to_list). simpl. by rewrite (Hk k y).
    - intros E. exists (item_id x, x). split; [done|]. by apply elem_of_map_to_list. }
  assert (NoDup (item_id <$> (map_to_list store).*2)) as ND by by apply NoDup_keyed.
  assert (∀ items fks, NoDup (item_id <$> items) → ∀ x, x ∈ items → foldl (with_fk lookup) fks items !! item_id x = bt_extract_fk lookup x) as At.
  { clear. induction items as [|y items IH]; intros fks ND x Hx; [by apply elem_of_nil in Hx|]. csimpl in ND.
    apply NoDup_cons in ND as [N ND]. simpl. apply elem_of_cons in Hx as [->|Hx]; [|by apply IH].
    rewrite with_fks_other by done. apply with_fk_at. }
  destruct (store !! id) as [x|] eqn:E; simpl.
  - assert (item_id x = id) as <- by by apply Hk. apply At; [done|]. by apply Hin.
  - rewrite with_fks_other; [apply lookup_empty|]. intros (x & -> & Hx)%list_elem_of_fmap. apply Hin in Hx. congruence.
Qed.

Lemma load_indexes lookup registry rm :
  registry_ok registry → index_ok lookup registry rm →
  indexes lookup (fks_of lookup registry) (ensure_belongs_to_index_loaded registry lookup rm).
Proof.
  intros W [N|H]; unfold ensure_belongs_to_index_loaded.
  - rewrite N. simpl.
    pose proof (load_children lookup (map_to_list (get_or_create registry (bt_local_type lookup))).*2 ∅ ∅ ∅) as L.
    destruct (foldl (load_child lookup) (∅, ∅) _) as [parents children]. exists parents, children. simpl. rewrite !lookup_insert_eq.
    split_and!; [done..|]. rewrite <-fks_of_items by done. apply L; [|intros; apply lookup_empty|apply child_index_empty].
    apply NoDup_keyed. intros k x E. by apply (get_or_create_ok registry _ k x W) in E as [_ ?].
  - rewrite bool_decide_true; [done|]. destruct H as (parents & children & -> & _). done.
Qed.

(** *** Updating *)

Lemma remove_child_indexes lookup fks rm child :
  indexes lookup fks rm → indexes lookup (delete child fks) (remove_belongs_to_child lookup child rm).
Proof.
  intros (parents & children & Ep & Ec & H). unfold remove_belongs_to_child. rewrite Ep.
  assert (parents = fks) as -> by apply H. destruct (fks !! child) as [parent|] eqn:Ef.
  - rewrite Ec. destruct (children !! parent) as [ids|] eqn:Ei.
    + eexists _, _. simpl. rewrite !lookup_insert_eq. split_and!; [done..|]. by eapply child_index_remove.
    + destruct (ci_absent _ _ _ H _ Ei _ Ef).
  - rewrite delete_id by done. by eexists _, _.
Qed.

Lemma index_child_indexes lookup fks rm item :
  indexes lookup fks rm → indexes lookup (with_fk lookup fks item) (index_belongs_to_child lookup item rm).
Proof.
  intros H. unfold index_belongs_to_child, with_fk. apply (remove_child_indexes _ _ _ (item_id item)) in H.
  destruct (bt_extract_fk lookup item) as [parent|]; [|done]. destruct H as (parents & children & -> & -> & H).
  eexists _, _. simpl. rewrite !lookup_insert_eq. split_and!; [done..|].
  rewrite <-(insert_delete_eq fks). apply child_index_add; [done|]. apply lookup_delete_eq.
Qed.

Lemma index_children_indexes lookup fks rm items :
  indexes lookup fks rm →
  indexes lookup (foldl (with_fk lookup) fks items) (foldl (λ rm item, index_belongs_to_child lookup item rm) rm items).
Proof.
  revert fks rm. induction items as [|item items IH]; intros fks rm H; simpl; [done|]. by apply IH, index_child_indexes.
Qed.
End belongs_to.

(** ** Lookups of the tables *)
Section lookups.
Context {P : Type}.
Implicit Types (tables : RelationshipTables P) (rm : RelationshipManager P) (lookup : BelongsToLookup P).

(** A registered [belongs_to] relation. *)
Definition lookup_in tables lookup : Prop :=
  ∃ lookups, belongs_to_by_local tables !! bt_local_type lookup = Some lookups ∧ lookup ∈ lookups.

(** The tables of [register]: each lookup is found under its own local type, under its
    own number. *)
Record lookups_ok tables : Prop := mkLookupsOk {
  lo_local t lookups lookup : belongs_to_by_local tables !! t = Some lookups → lookup ∈ lookups → bt_local_type lookup = t;
  lo_ids lookup lookup' : lookup_in tables lookup → lookup_in tables lookup' → bt_id lookup = bt_id lookup' → lookup = lookup';
  lo_foreign t lookups lookup : belongs_to_by_foreign tables !! t = Some lookups → lookup ∈ lookups → lookup_in tables lookup
}.

Lemma elem_of_push {A} (m : gmap string (list A)) key x t l y :
  push_lookup m key x !! t = Some l → y ∈ l → (t = key ∧ y = x) ∨ ∃ l', m !! t = Some l' ∧ y ∈ l'.
Proof.
  unfold push_lookup. intros [[<- <-]|[N E]]%lookup_insert_Some Hy; [|right; eauto].
  apply elem_of_app in Hy as [Hy|Hy%list_elem_of_singleton]; [|by left].
  destruct (m !! key) as [l'|]; [eauto|by apply elem_of_nil in Hy].
Qed.

Lemma push_elem {A} (m : gmap string (list A)) key x : ∃ l, push_lookup m key x !! key = Some l ∧ x ∈ l.
Proof. eexists. unfold push_lookup. rewrite lookup_insert_eq. split; [done|]. apply elem_of_app. right. by apply list_elem_of_singleton. Qed.

Lemma push_old {A} (m : gmap string (list A)) key x t l y :
  m !! t = Some l → y ∈ l → ∃ l', push_lookup m key x !! t = Some l' ∧ y ∈ l'.
Proof.
  intros E Hy. unfold push_lookup. destruct (decide (key = t)) as [->|N].
  - rewrite lookup_insert_eq, E. simpl. eexists. split; [done|]. apply elem_of_app. by left.
  - rewrite lookup_insert_ne by done. eauto.
Qed.

(** The registered lookups have the numbers drawn so far. *)
Definition numbered tables : Prop :=
  lookups_ok tables ∧ ∀ lookup, lookup_in tables lookup → (bt_id lookup ≤ next_belongs_to_id tables)%Z.

Lemma numbered_same tables tables' :
  belongs_to_by_local tables' = belongs_to_by_local tables → belongs_to_by_foreign tables' = belongs_to_by_foreign tables →
  next_belongs_to_id tables' = next_belongs_to_id tables → numbered tables → numbered tables'.
Proof.
  intros E1 E2 E3 [[H1 H3 H4] H5]. unfold lookup_in in *. split; [split|]; unfold lookup_in; rewrite ?E1, ?E2, ?E3; eauto.
Qed.

Lemma numbered_register tables relation :
  (next_belongs_to_id tables < u64_max)%Z → numbered tables → numbered (register tables relation).
Proof.
  intros Hn Hok. destruct relation as [local foreign fk| |]; [|by eapply numbered_same; [..|exact Hok]..].
  destruct Hok as [[H1 H3 H4] H5]. simpl. unfold register_belongs_to. set (id := sat_add _ _).
  assert (id = next_belongs_to_id tables + 1)%Z as Eid by (unfold id, sat_add; lia).
  set (new := mkBelongsTo id local foreign fk). set (tables' := mkTables _ _ _ _ _ _).
  assert (∀ lookup, lookup_in tables' lookup ↔ lookup = new ∨ lookup_in tables lookup) as In.
  { intros lookup. unfold lookup_in. simpl. split.
    - intros (l & E & Hl). by destruct (elem_of_push _ _ _ _ _ _ E Hl) as [[_ ->]|?]; [left|right].
    - intros [->|(l & E & Hl)]; [apply push_elem|by eapply push_old]. }
  assert (∀ lookup, lookup_in tables lookup → bt_id lookup ≠ id) as Fresh by (intros lookup H%H5; lia).
  split; [split|].
  - simpl. intros t l lookup E Hl. destruct (elem_of_push _ _ _ _ _ _ E Hl) as [[-> ->]|(l' & E' & Hl')]; [done|by eapply H1].
  - intros a b [->|Ha]%In [->|Hb]%In E; [done|by destruct (Fresh b)|by destruct (Fresh a)|by apply H3].
  - simpl. intros t l lookup E Hl. apply In. destruct (elem_of_push _ _ _ _ _ _ E Hl) as [[_ ->]|(l' & E' & Hl')]; [by left|right; by eapply H4].
  - intros lookup [->|H]%In; simpl; [lia|]. apply H5 in H. fold id. lia.
Qed.

Lemma register_next tables relation :
  (next_belongs_to_id tables ≤ next_belongs_to_id (register tables relation) ≤ next_belongs_to_id tables + 1)%Z ∨
  (u64_max < next_belongs_to_id tables)%Z.
Proof. destruct relation; simpl; unfold sat_add; lia. Qed.

(** The tables of a manager. *)
Lemma registered_lookups (relations : list (Relation P)) :
  (len relations < u64_max)%Z → lookups_ok (foldl register tables_default relations).
Proof.
  assert (∀ relations tables, (0 ≤ next_belongs_to_id tables)%Z → (next_belongs_to_id tables + len relations < u64_max)%Z →
    numbered tables → numbered (foldl register tables relations)) as H.
  { clear. induction relations as [|relation relations IH]; intros tables H0 Hn Hok; simpl; [done|].
    unfold len in Hn. simpl in Hn. destruct (register_next tables relation) as [B|B]; [|lia].
    apply IH; [lia|unfold len; lia|]. apply numbered_register; [lia|done]. }
  intros Hn. apply (H relations tables_default); [done|done|].
  split; [split|]; unfold lookup_in; simpl; intros *; rewrite ?lookup_empty; try done; intros (? & [=] & _).
Qed.
End lookups.

(** ** Forwarding keeps the index in line *)
Section forwarding.
Context {P CB J : Type} (env : Env P J) (submit : list (Item P) → MEventType → Origin → M P CB J unit).
Implicit Types (rm : RelationshipManager P) (lookup : BelongsToLookup P) (item : Item P) (items : list (Item P))
  (registry : StoreRegistry P) (s : Ctx P CB J).

(** Other lookups do not see an update. *)
Definition same_maps lookup rm rm' : Prop :=
  belongs_to_parent_by_child rm' !! bt_id lookup = belongs_to_parent_by_child rm !! bt_id lookup ∧
  belongs_to_children_by_parent rm' !! bt_id lookup = belongs_to_children_by_parent rm !! bt_id lookup.

Lemma same_maps_trans lookup rm1 rm2 rm3 : same_maps lookup rm1 rm2 → same_maps lookup rm2 rm3 → same_maps lookup rm1 rm3.
Proof. intros [E1 E2] [E3 E4]. split; congruence. Qed.

Lemma indexes_same lookup fks rm rm' : same_maps lookup rm rm' → indexes lookup fks rm → indexes lookup fks rm'.
Proof. intros [E1 E2]. unfold indexes. by rewrite E1, E2. Qed.

Lemma remove_child_other lookup lookup' child rm :
  bt_id lookup' ≠ bt_id lookup → same_maps lookup rm (remove_belongs_to_child lookup' child rm).
Proof.
  intros N. unfold remove_belongs_to_child. destruct (belongs_to_parent_by_child rm !! bt_id lookup') as [m|]; [|done].
  destruct (m !! child) as [parent|]; [|done]. split; simpl; [by rewrite lookup_insert_ne|].
  destruct (belongs_to_children_by_parent rm !! bt_id lookup') as [m'|]; [|done].
  destruct (m' !! parent); [|done]. by rewrite lookup_insert_ne.
Qed.

Lemma index_child_other lookup lookup' item rm :
  bt_id lookup' ≠ bt_id lookup → same_maps lookup rm (index_belongs_to_child lookup' item rm).
Proof.
  intros N. eapply same_maps_trans; [by apply (remove_child_other lookup lookup' (item_id item))|].
  unfold index_belongs_to_child. destruct (bt_extract_fk lookup' item); [|done]. split; simpl; by rewrite lookup_insert_ne.
Qed.

Lemma index_children_other lookup lookup' items rm :
  bt_id lookup' ≠ bt_id lookup → same_maps lookup rm (foldl (λ rm item, index_belongs_to_child lookup' item rm) rm items).
Proof.
  intros N. revert rm. induction items as [|item items IH]; intros rm; simpl; [done|].
  eapply same_maps_trans; [by apply index_child_other|apply IH].
Qed.

Lemma load_other lookup lookup' registry rm :
  bt_id lookup' ≠ bt_id lookup → same_maps lookup rm (ensure_belongs_to_index_loaded registry lookup' rm).
Proof.
  intros N. unfold ensure_belongs_to_index_loaded. case_bool_decide; [done|].
  destruct (foldl _ _ _). split; simpl; by rewrite lookup_insert_ne.
Qed.

(** The index may be behind the stores for the given children only. *)
Definition behind lookup registry (ids : gset string) rm : Prop :=
  belongs_to_parent_by_child rm !! bt_id lookup = None ∨
  ∃ fks, indexes lookup fks rm ∧ ∀ id, id ∉ ids → fks !! id = fks_of lookup registry !! id.

Lemma behind_same lookup registry ids rm rm' : same_maps lookup rm rm' → behind lookup registry ids rm → behind lookup registry ids rm'.
Proof.
  intros S [N|(fks & H & A)]; [left; by destruct S as [-> _]|right]. exists fks. split; [|done]. by eapply indexes_same.
Qed.

Lemma behind_none lookup registry rm : behind lookup registry ∅ rm ↔ index_ok lookup registry rm.
Proof.
  split; intros [N|H]; [by left|right|by left|right; by exists (fks_of lookup registry)].
  destruct H as (fks & H & A). replace (fks_of lookup registry) with fks; [done|]. apply map_eq. intros id. apply A. set_solver.
Qed.

Lemma behind_load lookup lookup' registry ids rm :
  registry_ok registry → (bt_id lookup = bt_id lookup' → lookup = lookup') →
  behind lookup registry ids rm → behind lookup registry ids (ensure_belongs_to_index_loaded registry lookup' rm).
Proof.
  intros W Inj H. destruct (decide (bt_id lookup' = bt_id lookup)) as [E|N]; [|by eapply behind_same; [apply load_other|]].
  rewrite <-(Inj (eq_sym E)). destruct H as [N|H].
  - right. eexists. split; [by apply load_indexes; [|left]|done].
  - right. destruct H as (fks & H & A). exists fks. split; [|done]. unfold ensure_belongs_to_index_loaded.
    rewrite bool_decide_true; [done|]. destruct H as (parents & children & -> & _). done.
Qed.

(** What the steps of forwarding preserve: the stores, the tables, the causal root, and a
    predicate of the indexes. *)
Definition steady registry (tables : RelationshipTables P) (Q : BelongsToLookup P → RelationshipManager P → Prop) s : Prop :=
  ctx_registry s = registry ∧ rm_tables (ctx_rel s) = tables ∧ is_Some (ctx_causal s) ∧
  ∀ lookup, lookup_in tables lookup → Q lookup (ctx_rel s).

(** Inside a causal root, submitting only queues. *)
Definition only_queues : Prop := ∀ items change origin s s' r,
  is_Some (ctx_causal s) → submit items change origin s = Some (s', r) →
  ctx_registry s' = ctx_registry s ∧ ctx_rel s' = ctx_rel s ∧ is_Some (ctx_causal s').
Context (Hsubmit : only_queues).
Context (registry : StoreRegistry P) (tables : RelationshipTables P) (Htables : lookups_ok tables) (W : registry_ok registry).

Lemma submit_steady Q items change origin : hoare (steady registry tables Q) (submit items change origin) (λ _, steady registry tables Q).
Proof.
  intros s s' a (E1 & E2 & E3 & H) E. destruct (Hsubmit _ _ _ _ _ _ E3 E) as (F1 & F2 & F3).
  split_and!; [congruence..|done|]. by rewrite F2.
Qed.

Section steps.
Context (Q : BelongsToLookup P → RelationshipManager P → Prop).
Context (HQ : ∀ lookup rm rm', same_maps lookup rm rm' → Q lookup rm → Q lookup rm').
Abbreviation I := (steady registry tables Q).

Lemma steady_ret {A} (a : A) : hoare I (mret a) (λ _, I).
Proof. apply (hoare_ret (λ _, I)). Qed.

Lemma flight_steady f : hoare I (update_rel (λ rm, set_in_flight (f rm) rm)) (λ _, I).
Proof.
  intros s s' a (E1 & E2 & E3 & H) [= <- _]. split_and!; try done. intros lookup Hl. eapply HQ; [|by apply H]. done.
Qed.

Lemma combination_steady (lookup : EnsureForLookup P) combo : hoare I (ensure_combination env submit lookup combo) (λ _, I).
Proof.
  unfold ensure_combination. apply hoare_read. intros s0 H0. case_bool_decide; [apply steady_ret|].
  eapply hoare_bind; [apply flight_steady|]. intros u.
  destruct (find_ensure_for_entity_in _ _ _).
  { eapply hoare_bind; [apply flight_steady|]. intros u'. apply steady_ret. }
  apply hoare_bind with (λ _, I); [by intros s s' a Hs [= <- _]|]. intros u'.
  apply hoare_bind with (λ r s, ∀ a, r = Ok a → I s); [apply (hoare_catch I (λ _, I)), submit_steady|].
  intros [[]|e]; [|apply hoare_bind with (λ _ _, True); [done|intros u''; apply hoare_raise]].
  intros s s' a Hs [= <- _]. by eapply Hs.
Qed.

Lemma ensure_type_steady t : hoare I (handle_ensure_for_type env submit t) (λ _, I).
Proof.
  unfold handle_ensure_for_type. apply hoare_read. intros s0 H0. destruct (_ !! t) as [lookups|]; [|apply steady_ret].
  apply hoare_read_loop. intros lookup s _ Hs.
  generalize (list_to_set (C := gset (list string)) (omap (combination_of (ef_dependencies lookup))
    (get_all_items (ctx_registry s) (ef_local_type lookup)))).
  induction (get_dependency_combinations _ _) as [|combo combos IH]; intros existing; simpl; [apply steady_ret|].
  case_bool_decide; [apply IH|]. eapply hoare_bind; [apply combination_steady|]. intros created. apply IH.
Qed.

Lemma batch_steady items : hoare I (publish_del_cascade_batch submit items) (λ _, I).
Proof. unfold publish_del_cascade_batch. destruct items; [apply steady_ret|apply submit_steady]. Qed.

Lemma owned_steady items : hoare I (handle_owns_many_parent_delete_batch submit items) (λ _, I).
Proof.
  unfold handle_owns_many_parent_delete_batch. destruct items as [|first items]; [apply steady_ret|].
  apply hoare_read. intros s0 H0. destruct (_ !! item_type first); [|apply steady_ret]. apply hoare_read_loop. intros lookup s _ _. apply batch_steady.
Qed.

Lemma ensured_steady items : hoare I (handle_ensure_for_delete_batch submit items) (λ _, I).
Proof.
  unfold handle_ensure_for_delete_batch. destruct items as [|first items]; [apply steady_ret|].
  apply hoare_read. intros s0 H0. destruct (_ !! item_type first); [|apply steady_ret]. apply hoare_read_loop. intros lookup s _ _. apply batch_steady.
Qed.

Lemma fixups_steady item : hoare I (handle_owns_many_child_delete submit item) (λ _, I).
Proof.
  unfold handle_owns_many_child_delete. apply hoare_read. intros s0 H0.
  destruct (_ !! item_type item); [|apply steady_ret]. apply hoare_read_loop. intros lookup s _ _.
  destruct (omap _ _); [apply steady_ret|apply submit_steady].
Qed.

Context (Hload : ∀ lookup lookup' rm, lookup_in tables lookup → lookup_in tables lookup' → Q lookup rm →
  Q lookup (ensure_belongs_to_index_loaded registry lookup' rm)).

Lemma children_steady lookup ids : lookup_in tables lookup → hoare I (children_of_parents lookup ids) (λ _, I).
Proof.
  intros Hl. unfold children_of_parents. generalize (∅ : gmap string (Item P)).
  induction ids as [|id ids IH]; intros acc; [apply steady_ret|].
  apply hoare_bind with (λ _, I); [|intros children; apply IH].
  intros s s' a (E1 & E2 & E3 & H). unfold query_rel, find_children_by_fk. rewrite E1. intros [= <- _]. split_and!; simpl.
  - done.
  - by rewrite <-E2, PipelineProof.load_tables.
  - done.
  - intros lookup' Hl'. apply Hload; [done..|]. by apply H.
Qed.

Lemma belongs_steady items : hoare I (handle_belongs_to_cascade_batch submit items) (λ _, I).
Proof.
  unfold handle_belongs_to_cascade_batch. destruct items as [|first items]; [apply steady_ret|].
  apply hoare_read. intros s0 H0. destruct (_ !! item_type first) as [lookups|] eqn:El; [|apply steady_ret]. destruct H0 as (_ & Et & _). rewrite Et in El.
  apply hoare_loop. intros lookup Hl. eapply hoare_bind; [by apply children_steady; eapply lo_foreign|].
  intros children. apply batch_steady.
Qed.
End steps.

(** *** Sets *)

Lemma fks_of_lookup lookup r id : fks_of lookup r !! id = lookup_item r (bt_local_type lookup) id ≫= bt_extract_fk lookup.
Proof. unfold fks_of. rewrite lookup_omap, lookup_get_or_create. done. Qed.

(** The children of the batch, for the lookups of its type. *)
Definition batch_ids (t : string) items lookup : gset string :=
  if decide (bt_local_type lookup = t) then list_to_set (item_id <$> items) else ∅.

(** Before forwarding, the index is behind for the items of the batch. *)
Lemma behind_run lookup registry0 change t items rm :
  (∀ x, x ∈ items → item_type x = t) → index_ok lookup registry0 rm →
  behind lookup (run_ops registry0 (ops_of change items)) (batch_ids t items lookup) rm.
Proof.
  intros Ht [N|H]; [by left|right]. exists (fks_of lookup registry0). split; [done|]. intros id Hid.
  rewrite !fks_of_lookup, lookup_run_other; [done|]. rewrite ops_of_keys. intros (x & E & Hx)%list_elem_of_fmap.
  unfold item_key in E. injection E as E ->. unfold batch_ids in Hid. rewrite decide_True in Hid by (rewrite E; by apply Ht).
  apply Hid, elem_of_list_to_set. by apply list_elem_of_fmap_2.
Qed.

Lemma index_batch lookup registry0 items rm :
  (∀ x, x ∈ items → item_type x = bt_local_type lookup) → registry = run_ops registry0 (ops_of SET items) →
  behind lookup registry (list_to_set (item_id <$> items)) rm →
  indexes lookup (fks_of lookup registry)
    (foldl (λ rm item, index_belongs_to_child lookup item rm) (ensure_belongs_to_index_loaded registry lookup rm) items).
Proof.
  intros Ht Er H.
  assert (∃ fks, indexes lookup fks (ensure_belongs_to_index_loaded registry lookup rm) ∧
    ∀ id, id ∉ item_id <$> items → fks !! id = fks_of lookup registry !! id) as (fks & Hi & A).
  { destruct (behind_load lookup lookup registry (list_to_set (item_id <$> items)) rm W (λ _, eq_refl) H) as [N|(fks & Hi & A)].
    - exfalso. revert N. unfold ensure_belongs_to_index_loaded. case_bool_decide as B; [intros E; destruct B as [? B]; congruence|].
      destruct (foldl _ _ _). simpl. by rewrite lookup_insert_eq.
    - exists fks. split; [done|]. intros id Hid. apply A. by rewrite elem_of_list_to_set. }
  assert (registry = foldl store_insert registry0 items) as Er'.
  { rewrite Er. unfold run_ops, ops_of. clear. revert registry0. induction items as [|x items IH]; intros r; csimpl; [done|]. apply IH. }
  replace (fks_of lookup registry) with (foldl (with_fk lookup) fks items); [by apply index_children_indexes|].
  rewrite Er', fks_inserts in A |- * by done. apply with_fks_agree. intros id Hid. rewrite A by done. by apply with_fks_other.
Qed.

(** While the lookups are updated one by one: those done are in line. *)
Definition in_progress t items (l : list (BelongsToLookup P)) lookup rm : Prop :=
  behind lookup registry (batch_ids t items lookup) rm ∧ (lookup ∈ l → index_ok lookup registry rm).

Lemma index_ok_same lookup rm rm' : same_maps lookup rm rm' → index_ok lookup registry rm → index_ok lookup registry rm'.
Proof. intros S H. apply behind_none. eapply behind_same; [done|]. by apply behind_none. Qed.

Lemma update_lookup_step registry0 t items l1 x :
  (∀ x, x ∈ items → item_type x = t) → registry = run_ops registry0 (ops_of SET items) →
  lookup_in tables x → bt_local_type x = t →
  hoare (steady registry tables (in_progress t items l1))
    (s ← get; _ ← update_rel (ensure_belongs_to_index_loaded (ctx_registry s) x);
     update_rel (λ rm, foldl (λ rm item, index_belongs_to_child x item rm) rm items))
    (λ (_ : unit) (s : Ctx P CB J), steady registry tables (in_progress t items (l1 ++ [x])) s).
Proof.
  intros Ht Er Hx Ex. apply hoare_read. intros s1 (E1 & _). rewrite E1. intros s s' a (F1 & F2 & F3 & H).
  unfold mbind, M_bind, update_rel, modify. intros [= <- _]. split_and!; simpl; [done| |done|].
  { rewrite (PipelineProof.foldl_tables (index_belongs_to_child x)) by (intros; apply PipelineProof.index_child_tables).
    by rewrite PipelineProof.load_tables. }
  intros lookup Hl. destruct (H lookup Hl) as [B O]. destruct (decide (bt_id x = bt_id lookup)) as [E|N].
  - assert (lookup = x) as -> by by eapply lo_ids.
    assert (indexes x (fks_of x registry) (foldl (λ rm item, index_belongs_to_child x item rm)
      (ensure_belongs_to_index_loaded registry x (ctx_rel s)) items)) as Hok.
    { eapply index_batch; [by rewrite Ex|exact Er|]. unfold batch_ids in B. by rewrite decide_True in B. }
    split; [right; by eexists|by right].
  - assert (same_maps lookup (ctx_rel s) (foldl (λ rm item, index_belongs_to_child x item rm)
      (ensure_belongs_to_index_loaded registry x (ctx_rel s)) items)) as S
      by (eapply same_maps_trans; [by apply load_other|by apply index_children_other]).
    split; [by eapply behind_same|].
    intros [Hin|Hin%list_elem_of_singleton]%elem_of_app; [by eapply index_ok_same; [|apply O]|congruence].
Qed.

Lemma forward_set_index registry0 t items :
  (∀ x, x ∈ items → item_type x = t) → registry = run_ops registry0 (ops_of SET items) →
  hoare (steady registry tables (λ lookup, behind lookup registry (batch_ids t items lookup)))
    (forward_set_batch env submit items) (λ _, steady registry tables (λ lookup, index_ok lookup registry)).
Proof.
  intros Ht Er. eapply (hoare_weaken (steady registry tables (in_progress t items [])) _ _ (λ _, steady registry tables (λ lookup, index_ok lookup registry)));
    [|intros s (E1 & E2 & E3 & H)|done].
  2: { split_and!; try done. intros lookup Hl. split; [by apply H|by intros ?%elem_of_nil]. }
  assert (∀ lookup rm, in_progress t items [] lookup rm → bt_local_type lookup ≠ t ∨ items = [] → index_ok lookup registry rm) as Done.
  { intros lookup rm [B _] H. apply behind_none. revert B. unfold batch_ids. destruct (decide _); [|done]. by destruct H as [?| ->]. }
  unfold forward_set_batch. destruct items as [|first items'].
  { intros s s' a (E1 & E2 & E3 & H) [= <- <-]. split_and!; try done. intros lookup Hl. apply Done; [by apply H|by right]. }
  assert (item_type first = t) as -> by (apply Ht; left). apply hoare_read. intros s0 (_ & Et & _).
  rewrite Et. set (lookups := default [] _). apply hoare_bind with (λ _, steady registry tables (in_progress t (first :: items') lookups)).
  - apply (hoare_for_each (λ l, steady registry tables (in_progress t (first :: items') l))). intros l1 x l2 El.
    assert (lookup_in tables x ∧ bt_local_type x = t) as [Hx Ex]; [|by eapply update_lookup_step].
    unfold lookups in El. destruct (belongs_to_by_local tables !! t) as [l|] eqn:E; simpl in El; [|by destruct l1].
    assert (bt_local_type x = t) as Ex by (eapply lo_local; [done..|]; rewrite El; set_solver).
    split; [|done]. exists l. rewrite Ex. split; [done|]. rewrite El. set_solver.
  - intros u. eapply hoare_weaken; [apply (ensure_type_steady (λ lookup, index_ok lookup registry) index_ok_same)| |done].
    intros s (E1 & E2 & E3 & H). split_and!; try done. intros lookup Hl. destruct (H lookup Hl) as [B O].
    destruct (decide (bt_local_type lookup = t)) as [E|N]; [|apply Done; [split; [done|by intros ?%elem_of_nil]|by left]].
    apply O. unfold lookups. destruct Hl as (l & El & Hin). by rewrite <-E, El.
Qed.

(** *** Deletions *)

Lemma remove_behind lookup x child ids rm :
  (bt_id x = bt_id lookup → x = lookup ∧ fks_of lookup registry !! child = None) → behind lookup registry ids rm →
  behind lookup registry ids (remove_belongs_to_child x child rm).
Proof.
  intros Inj H. destruct (decide (bt_id x = bt_id lookup)) as [E|Ne]; [|by eapply behind_same; [apply remove_child_other|]].
  destruct (Inj E) as [-> N]. destruct H as [Hn|(fks & Hi & A)].
  - left. unfold remove_belongs_to_child. by rewrite Hn.
  - right. exists (delete child fks). split; [by apply remove_child_indexes|]. intros id Hid.
    destruct (decide (child = id)) as [<-|Nc]; [by rewrite lookup_delete_eq|rewrite lookup_delete_ne by done; by apply A].
Qed.

Lemma remove_behind_same lookup child ids rm :
  fks_of lookup registry !! child = None → behind lookup registry ids rm →
  behind lookup registry (ids ∖ {[child]}) (remove_belongs_to_child lookup child rm).
Proof.
  intros N [Hn|(fks & Hi & A)].
  - left. unfold remove_belongs_to_child. by rewrite Hn.
  - right. exists (delete child fks). split; [by apply remove_child_indexes|]. intros id Hid.
    destruct (decide (child = id)) as [<-|Nc]; [by rewrite lookup_delete_eq|rewrite lookup_delete_ne by done; apply A; set_solver].
Qed.

Lemma remove_all_behind lookup lookups child ids rm :
  (∀ x, x ∈ lookups → bt_id x = bt_id lookup → x = lookup ∧ fks_of lookup registry !! child = None) →
  behind lookup registry ids rm →
  let rm' := foldl (λ rm x, remove_belongs_to_child x child rm) rm lookups in
  behind lookup registry ids rm' ∧ (lookup ∈ lookups → behind lookup registry (ids ∖ {[child]}) rm').
Proof.
  revert ids rm. induction lookups as [|x lookups IH]; intros ids rm Inj H; simpl; [split; [done|by intros ?%elem_of_nil]|].
  assert (∀ x, x ∈ lookups → bt_id x = bt_id lookup → x = lookup ∧ fks_of lookup registry !! child = None) as Inj'
    by (intros y Hy; apply Inj; by right).
  destruct (IH ids (remove_belongs_to_child x child rm) Inj') as [H1 H2]; [apply remove_behind; [apply Inj; left|done]|].
  split; [done|]. intros [<-|Hin]%elem_of_cons; [|by apply H2].
  apply (proj1 (IH (ids ∖ {[child]}) (remove_belongs_to_child lookup child rm) Inj'
    (remove_behind_same _ _ _ _ (proj2 (Inj lookup (list_elem_of_here _ _) eq_refl)) H))).
Qed.

Lemma lookup_run_del items r x :
  x ∈ items → lookup_item (run_ops r (ops_of DEL items)) (item_type x) (item_id x) = None.
Proof.
  revert x r. induction items as [|y items IH]; intros x r Hx; [by apply elem_of_nil in Hx|].
  destruct (decide (item_key x ∈ item_key <$> items)) as [Hin|N].
  - apply list_elem_of_fmap in Hin as (z & E & Hz). unfold item_key in E. injection E as -> ->. by apply (IH z (reduce r DEL y)).
  - apply elem_of_cons in Hx as [->|Hx]; [|by destruct N; apply list_elem_of_fmap_2].
    change (run_ops r (ops_of DEL (y :: items))) with (run_ops (reduce r DEL y) (ops_of DEL items)).
    rewrite lookup_run_other by (by rewrite ops_of_keys). rewrite lookup_reduce. by rewrite decide_True.
Qed.

Lemma forward_del_index registry0 t items :
  (∀ x, x ∈ items → item_type x = t) → registry = run_ops registry0 (ops_of DEL items) →
  hoare (steady registry tables (λ lookup, behind lookup registry (batch_ids t items lookup)))
    (forward_del_batch submit items) (λ _, steady registry tables (λ lookup, index_ok lookup registry)).
Proof.
  intros Ht Er. set (Q := λ l lookup, behind lookup registry (batch_ids t l lookup)).
  assert (∀ l lookup rm rm', same_maps lookup rm rm' → Q l lookup rm → Q l lookup rm') as HQ by (intros l lookup rm rm'; apply behind_same).
  assert (∀ lookup rm, Q [] lookup rm → index_ok lookup registry rm) as Done.
  { intros lookup rm H. apply behind_none. unfold Q, batch_ids in H. by destruct (decide _). }
  assert (∀ l lookup lookup' rm, lookup_in tables lookup → lookup_in tables lookup' → Q l lookup rm →
    Q l lookup (ensure_belongs_to_index_loaded registry lookup' rm)) as HL.
  { intros l lookup lookup' rm Hl Hl'. apply behind_load; [done|]. by eapply lo_ids. }
  eapply (hoare_weaken (steady registry tables (Q items)) _ _ (λ _, steady registry tables (Q []))); [|done|].
  2: { intros u s (E1 & E2 & E3 & H). split_and!; try done. intros lookup Hl. by apply Done, H. }
  unfold forward_del_batch. destruct items as [|first items'] eqn:Ei; [apply (hoare_ret (λ _, steady registry tables (Q [])))|]. rewrite <-Ei in *.
  eapply hoare_bind; [apply (belongs_steady (Q items) (HL items))|]. intros u1.
  eapply hoare_bind; [apply (owned_steady (Q items))|]. intros u2.
  eapply hoare_bind; [apply (ensured_steady (Q items))|]. intros u3.
  eapply hoare_weaken; [apply (hoare_for_each (λ l s, ∃ rest, items = l ++ rest ∧ steady registry tables (Q rest) s))| |].
  - intros l1 x l2 El. intros s s' a (rest & Er' & Hs). assert (rest = x :: l2) as -> by (apply (app_inv_head l1); congruence).
    assert (item_type x = t) as Ex by (apply Ht; rewrite El; set_solver).
    apply (hoare_bind (steady registry tables (Q (x :: l2))) (λ _, steady registry tables (Q (x :: l2)))
      (λ _ s, ∃ rest, items = (l1 ++ [x]) ++ rest ∧ steady registry tables (Q rest) s)); [apply (fixups_steady (Q (x :: l2)))| |done].
    intros u4. apply hoare_read. intros s0 (_ & Et & _). rewrite Et, Ex. intros s1 s2 u5 (E1 & E2 & E3 & H) [= <- _].
    exists l2. split; [by rewrite <-app_assoc|]. split_and!; simpl; [done| |done|].
    { by rewrite (PipelineProof.foldl_tables (λ x', remove_belongs_to_child x' (item_id x))) by (intros; apply PipelineProof.remove_child_tables). }
    intros lookup Hl. specialize (H lookup Hl). unfold Q, batch_ids in H |- *. set (lookups := default [] _).
    assert (∀ y, y ∈ lookups → lookup_in tables y ∧ bt_local_type y = t) as Hin.
    { intros y. unfold lookups. destruct (belongs_to_by_local tables !! t) as [l|] eqn:E; simpl; [|by intros ?%elem_of_nil].
      intros Hy. assert (bt_local_type y = t) as Ey by by eapply lo_local. split; [|done]. exists l. by rewrite Ey. }
    edestruct (remove_all_behind lookup lookups (item_id x)) as [R1 R2].
    { intros y Hy E. destruct (Hin y Hy) as [Hy' Ey]. assert (y = lookup) as -> by by eapply lo_ids.
      split; [done|]. by rewrite fks_of_lookup, Ey, Er, <-Ex, lookup_run_del by (rewrite El; set_solver). }
    { exact H. }
    destruct (decide (bt_local_type lookup = t)) as [E|N]; [|done].
    assert (lookup ∈ lookups) as Hlk by (unfold lookups; destruct Hl as (l & El' & Hl); by rewrite <-E, El').
    specialize (R2 Hlk). csimpl in R2. destruct R2 as [R|(fks & Hi & A)]; [by left|right]. exists fks. split; [done|].
    intros id Hid. apply A. set_solver.
  - intros s Hs. by exists items.
  - intros u s (rest & Er' & Hs). assert (rest = []) as -> by (apply (app_inv_head items); by rewrite app_nil_r). done.
Qed.
End forwarding.

(** ** Answers and submissions *)
Section answers.
Context {P CB J : Type} (env : Env P J).
Implicit Types (rm : RelationshipManager P) (lookup : BelongsToLookup P) (registry : StoreRegistry P).

(** The children found are those a scan of the child store finds. *)
Lemma find_children_spec registry lookup parent rm :
  registry_ok registry → index_ok lookup registry rm →
  let '(rm', children) := find_children_by_fk registry lookup parent rm in
  indexes lookup (fks_of lookup registry) rm' ∧ NoDup children ∧
  ∀ x, x ∈ children ↔ lookup_item registry (bt_local_type lookup) (item_id x) = Some x ∧ bt_extract_fk lookup x = Some parent.
Proof.
  intros W H. unfold find_children_by_fk. pose proof (load_indexes lookup registry rm W H) as L.
  set (rm' := ensure_belongs_to_index_loaded registry lookup rm) in *. split; [done|].
  destruct L as (parents & children & _ & -> & L). set (store := get_or_create registry (bt_local_type lookup)).
  assert (∀ id x, store !! id = Some x → item_id x = id) as Hk by (intros id x E; by apply (get_or_create_ok registry _ id x W) in E as [_ ?]).
  assert (∀ x, lookup_item registry (bt_local_type lookup) (item_id x) = Some x ∧ bt_extract_fk lookup x = Some parent ↔
    fks_of lookup registry !! item_id x = Some parent ∧ store !! item_id x = Some x) as E.
  { intros x. rewrite fks_of_lookup, lookup_get_or_create. fold store. split; [intros [Hx Hp]; by rewrite Hx|].
    intros [Hp Hx]. rewrite Hx in Hp. done. }
  destruct (children !! parent) as [ids|] eqn:Ec.
  - destruct (ci_children _ _ _ L _ _ Ec) as (S & _ & Hin). split.
    + assert (NoDup ids) as ND by by apply sorted_NoDup. clear S Hin Ec. induction ids as [|id ids IH]; csimpl; [constructor|].
      apply NoDup_cons in ND as [N ND]. destruct (store !! id) as [x|] eqn:Ex; [|by apply IH]. apply NoDup_cons.
      split; [|by apply IH]. intros (id' & Hid' & Ex')%list_elem_of_omap. apply N. apply Hk in Ex, Ex'. congruence.
    + intros x. rewrite E, list_elem_of_omap. split.
      * intros (id & Hid & Ex). apply Hin in Hid. assert (item_id x = id) as <- by by apply Hk. done.
      * intros [Hp Hx]. exists (item_id x). split; [by apply Hin|done].
  - split; [constructor|]. intros x. rewrite E. split; [by intros ?%elem_of_nil|]. intros [Hp _].
    by destruct (ci_absent _ _ _ L _ Ec (item_id x)).
Qed.

(** Inside a causal root, [submit_mutation] only queues. *)
Lemma submit_only_queues fuel steps : only_queues (submit_mutation env (S fuel) steps : list (Item P) → MEventType → Origin → M P CB J unit).
Proof.
  intros items change origin s s' r [st Ec] E. unfold submit_mutation in E. cbn [submit_mutation_mode] in E. rewrite Ec in E.
  unfold enqueue_causal in E. destruct items as [|first items]; [by injection E as <- <-; rewrite Ec|].
  unfold enqueue_with in E. rewrite Ec in E. destruct (_ <? _)%Z; [by injection E as <- <-; simpl; rewrite Ec|].
  destruct (accept_uniform _ _ _ _ _ _ _ _ _ _) as [[st' c'] r']. by injection E as <- <-.
Qed.

(** Every registered index is in line with the stores, or not loaded. *)
Definition belongs_to_ok (s : Ctx P CB J) : Prop :=
  ∀ lookup, lookup_in (rm_tables (ctx_rel s)) lookup → index_ok lookup (ctx_registry s) (ctx_rel s).

Definition forward_batch submit items change : M P CB J unit :=
  match change with SET => forward_set_batch env submit items | DEL => forward_del_batch submit items end.

Lemma forward_belongs_to_ok fuel steps t items change s s' :
  lookups_ok (rm_tables (ctx_rel s)) → registry_ok (ctx_registry s) → is_Some (ctx_causal s) → belongs_to_ok s →
  (∀ x, x ∈ items → item_type x = t) →
  forward_batch (submit_mutation env (S fuel) steps) items change
    (set_registry (run_ops (ctx_registry s) (ops_of change items)) s) = Some (s', Ok ()) →
  belongs_to_ok s'.
Proof.
  intros Ht W Hc B Hi E. set (registry := run_ops (ctx_registry s) (ops_of change items)) in *. set (tables := rm_tables (ctx_rel s)).
  assert (registry_ok registry) as W' by by apply run_ops_ok.
  assert (steady registry tables (λ lookup, behind lookup registry (batch_ids t items lookup)) (set_registry registry s)) as Hs.
  { split_and!; [done..|]. intros lookup Hl. apply behind_run; [done|]. by apply B. }
  assert (steady registry tables (λ lookup, index_ok lookup registry) s') as (E1 & E2 & _ & H).
  { pose proof (submit_only_queues fuel steps) as Hq. destruct change.
    - by apply (forward_set_index env _ Hq registry tables Ht W' (ctx_registry s) t items Hi eq_refl _ _ () Hs E).
    - by apply (forward_del_index _ Hq registry tables Ht W' (ctx_registry s) t items Hi eq_refl _ _ () Hs E). }
  intros lookup. rewrite E1, E2. apply H.
Qed.
End answers.
