(* ===== verification/RelationshipCycle.v ===== *)
(** * Cycles of [ensure_for]

    The depth-first search by which [RelationshipManager::new] rejects a cyclic schema: it
    ends within its fuel, the cycle it reports is one, and when it reports none there is
    none. *)

From stdpp Require Import base strings numbers option countable relations gmap sets list.
From S2P Require Import Prelude Order GraphTypes EdgeIds GraphIndex ServerTypes Relationship RelationshipProof.

(** ** The search *)
Section dfs.
Context (graph : gmap string (list string)).
Implicit Types (node n : string) (states : gmap string Z) (stack : list string).

Definition edge (u v : string) : Prop := v ∈ default [] (graph !! u).

(** Consecutive nodes are joined by edges. *)
Definition edge_path (l : list string) : Prop := ∀ i u v, l !! i = Some u → l !! S i = Some v → edge u v.

(** A closed edge_path, its first node repeated at its end. *)
Definition is_cycle (l : list string) : Prop := ∃ node rest, l = node :: rest ++ [node] ∧ edge_path l.

Lemma edge_path_drop i l : edge_path l → edge_path (drop i l).
Proof. intros H j u v. rewrite !lookup_drop, <-plus_n_Sm. apply H. Qed.

Lemma edge_path_snoc l u v : edge_path (l ++ [u]) → edge u v → edge_path ((l ++ [u]) ++ [v]).
Proof.
  intros H E i a b Ha Hb. assert (S i < length ((l ++ [u]) ++ [v])) as Hi by by eapply lookup_lt_Some.
  rewrite !length_app in Hi. simpl in Hi. destruct (decide (S i < length (l ++ [u]))) as [Lt|Ge].
  - rewrite lookup_app_l in Ha, Hb by lia. by eapply H.
  - rewrite length_app in Ge. simpl in Ge. assert (i = length l) as -> by lia. rewrite <-app_assoc in Ha, Hb.
    rewrite lookup_app_r, Nat.sub_diag in Ha by done. rewrite lookup_app_r in Hb by lia.
    replace (S (length l) - length l) with 1 in Hb by lia. simpl in Ha, Hb. by simplify_eq.
Qed.

(** A cycle goes back to its start. *)
Lemma cycle_tc l : is_cycle l → ∃ node, node ∈ l ∧ tc edge node node.
Proof.
  intros (node & rest & -> & H). exists node. split; [left|].
  assert (∀ rest u, edge_path (u :: rest ++ [node]) → tc edge u node) as T; [|by eapply T].
  clear. induction rest as [|v rest IH]; intros u H.
  - apply tc_once. by apply (H 0).
  - eapply tc_l; [by apply (H 0)|]. apply IH. intros i. apply (H (S i)).
Qed.

(** The nodes done are closed under edges, and on no cycle. *)
Record dfs_ok states : Prop := mkDfsOk {
  dfs_values n z : states !! n = Some z → z = 1%Z ∨ z = 2%Z;
  dfs_closed n v : states !! n = Some 2%Z → edge n v → states !! v = Some 2%Z;
  dfs_acyclic n : states !! n = Some 2%Z → ¬ tc edge n n
}.

Lemma done_reach states n m : dfs_ok states → states !! n = Some 2%Z → tc edge n m → states !! m = Some 2%Z.
Proof. intros H Hn T. induction T as [x y E|x y z E T IH]; [by eapply dfs_closed|]. apply IH. by eapply dfs_closed. Qed.

(** The nodes on the stack are those being visited. *)
Definition on_stack states stack : Prop := ∀ n, states !! n = Some 1%Z ↔ n ∈ stack.

(** What a visit establishes. *)
Definition visited states stack node (states' : gmap string Z) (r : option (list string)) : Prop :=
  match r with
  | Some cycle => is_cycle cycle
  | None => dfs_ok states' ∧ on_stack states' stack ∧ (∀ n, states !! n = Some 2%Z → states' !! n = Some 2%Z) ∧
      states' !! node = Some 2%Z
  end.

(** The cycle found on the stack. *)
Lemma stack_cycle node stack :
  node ∈ stack → edge_path (stack ++ [node]) →
  is_cycle (drop (match list_find (λ entry, entry = node) stack with Some (i, _) => i | None => 0 end) stack ++ [node]).
Proof.
  intros Hin H. destruct (list_find_elem_of (λ entry, entry = node) stack node Hin eq_refl) as [[i x] E]. rewrite E.
  apply list_find_Some in E as (E & -> & _). exists node, (drop (S i) stack). rewrite (drop_S _ _ _ E). split; [done|].
  rewrite <-(drop_S _ _ _ E). rewrite <-drop_app_le by (apply Nat.lt_le_incl; by eapply lookup_lt_Some). by apply edge_path_drop.
Qed.

(** Finishing a node whose successors are all done. *)
Lemma finish_node states stack node :
  dfs_ok states → on_stack states (stack ++ [node]) → node ∉ stack → (∀ v, edge node v → states !! v = Some 2%Z) →
  dfs_ok (<[node := 2%Z]> states) ∧ on_stack (<[node := 2%Z]> states) stack.
Proof.
  intros H S N D. assert (states !! node = Some 1%Z) as E1 by (apply S, elem_of_app; right; by apply list_elem_of_singleton).
  assert (∀ n, <[node := 2%Z]> states !! n = Some 2%Z → n = node ∨ states !! n = Some 2%Z) as Two.
  { intros n [[<- _]|[_ E]]%lookup_insert_Some; [by left|by right]. }
  assert (∀ v, states !! v = Some 2%Z → <[node := 2%Z]> states !! v = Some 2%Z) as Keep.
  { intros v E. rewrite lookup_insert_ne; [done|]. intros <-. congruence. }
  split; [split|].
  - intros n z [[<- <-]|[_ E]]%lookup_insert_Some; [by right|by eapply dfs_values].
  - intros n v [->|E]%Two Ev; apply Keep; [by apply D|by eapply dfs_closed].
  - intros n [->|E]%Two T; [|by eapply dfs_acyclic].
    assert (states !! node = Some 2%Z); [|congruence].
    inversion T as [x y E|x y z E T']; subst; [by apply D|]. by eapply done_reach; [..|exact T']; [|apply D].
  - intros n. destruct (decide (n = node)) as [->|Nn]; [rewrite lookup_insert_eq; split; [done|by intros ?]|].
    rewrite lookup_insert_ne by done. rewrite (S n), elem_of_app, list_elem_of_singleton. naive_solver.
Qed.

(** Starting a node that was not seen. *)
Lemma start_node states stack node :
  dfs_ok states → on_stack states stack → states !! node = None →
  dfs_ok (<[node := 1%Z]> states) ∧ on_stack (<[node := 1%Z]> states) (stack ++ [node]).
Proof.
  intros H S N.
  assert (∀ n, <[node := 1%Z]> states !! n = Some 2%Z ↔ states !! n = Some 2%Z) as Two.
  { intros n. destruct (decide (n = node)) as [->|Nn]; [rewrite lookup_insert_eq, N; naive_solver|by rewrite lookup_insert_ne]. }
  split; [split|].
  - intros n z [[<- <-]|[_ E]]%lookup_insert_Some; [by left|by eapply dfs_values].
  - intros n v. rewrite !Two. by apply dfs_closed.
  - intros n. rewrite Two. by apply dfs_acyclic.
  - intros n. rewrite elem_of_app, list_elem_of_singleton. destruct (decide (n = node)) as [->|Nn].
    + rewrite lookup_insert_eq. naive_solver.
    + rewrite lookup_insert_ne by done. rewrite (S n). naive_solver.
Qed.

Lemma stack_small stack : NoDup stack → (∀ n, n ∈ stack → is_Some (graph !! n)) → length stack ≤ size graph.
Proof.
  intros ND H. rewrite <-size_dom, <-(size_list_to_set stack (C := gset string)) by done. apply subseteq_size.
  intros n Hn%elem_of_list_to_set. by apply elem_of_dom, H.
Qed.

Lemma visit_spec fuel node states stack :
  dfs_ok states → on_stack states stack → NoDup stack → (∀ n, n ∈ stack → is_Some (graph !! n)) → edge_path (stack ++ [node]) →
  fuel + length stack = size graph + 2 →
  ∃ states' r, visit fuel graph node states stack = Some (states', r) ∧ visited states stack node states' r.
Proof.
  revert node states stack. induction fuel as [|fuel IH]; intros node states stack H S ND Hg Hp Hf.
  { pose proof (stack_small stack ND Hg). lia. }
  cbn [visit]. destruct (states !! node) as [z|] eqn:Ez.
  { destruct (dfs_values _ H _ _ Ez) as [-> | ->].
    - eexists _, (Some _). split; [done|]. apply stack_cycle; [by apply S|done].
    - exists states, None. split; [done|]. by split_and!. }
  destruct (start_node states stack node H S Ez) as [H0 S0].
  assert (node ∉ stack) as N by (intros E%S; congruence).
  set (states0 := <[node := 1%Z]> states) in *.
  assert (∀ n, states !! n = Some 2%Z → states0 !! n = Some 2%Z) as K0.
  { intros n E. unfold states0. rewrite lookup_insert_ne; [done|]. intros <-. congruence. }
  assert (∀ v, v ∈ default [] (graph !! node) → edge node v) as Next by done.
  assert (∀ v, edge node v → v ∈ default [] (graph !! node) ∨ states0 !! v = Some 2%Z) as Rest by by left.
  revert H0 S0 K0 Next Rest. clearbody states0. generalize (default [] (graph !! node)) as next. intros next. revert states0.
  induction next as [|v next IHn]; intros states0 H0 S0 K0 Next Rest.
  - exists (<[node := 2%Z]> states0), None. split; [done|].
    destruct (finish_node states0 stack node H0 S0 N) as [H1 S1].
    { intros v E. destruct (Rest v E) as [Hin|E']; [by apply elem_of_nil in Hin|done]. }
    split_and!; [done|done| |apply lookup_insert_eq]. intros n E. apply K0 in E. destruct (decide (n = node)) as [->|Nn]; [apply lookup_insert_eq|by rewrite lookup_insert_ne].
  - assert (is_Some (graph !! node)) as G.
    { assert (edge node v) as E by (apply Next; left). unfold edge in E. destruct (graph !! node); [done|by apply elem_of_nil in E]. }
    destruct (IH v states0 (stack ++ [node])) as (states1 & r & -> & V); [done|done| | | | |].
    + apply NoDup_app. split_and!; [done| |apply NoDup_singleton]. by intros n Hn ->%list_elem_of_singleton.
    + intros n [Hn| ->%list_elem_of_singleton]%elem_of_app; [by apply Hg|done].
    + apply edge_path_snoc; [done|]. apply Next. left.
    + rewrite length_app. simpl. lia.
    + destruct r as [cycle|]; [by exists states1, (Some cycle)|]. destruct V as (H1 & S1 & K1 & Ev).
      apply IHn; [done|done|intros n E; by apply K1, K0|intros w Hw; apply Next; by right|].
      intros w E. destruct (Rest w E) as [[->|Hin]%elem_of_cons|E']; [by right|by left|right; by apply K1].
Qed.

(** The search over the keys of the graph. *)
Lemma visit_keys_spec nodes states :
  dfs_ok states → on_stack states [] →
  ∃ r, visit_keys (cycle_fuel graph) graph nodes states = Some r ∧
    match r with
    | Some cycle => is_cycle cycle
    | None => ∃ states', dfs_ok states' ∧ (∀ n, states !! n = Some 2%Z → states' !! n = Some 2%Z) ∧
        ∀ n, n ∈ nodes → states' !! n = Some 2%Z
    end.
Proof.
  revert states. induction nodes as [|node nodes IH]; intros states H S; cbn [visit_keys].
  { exists None. split; [done|]. exists states. split_and!; [done..|]. by intros n ?%elem_of_nil. }
  destruct (visit_spec (cycle_fuel graph) node states []) as (states1 & r & -> & V); [done|done|constructor|by intros n ?%elem_of_nil|..].
  { by intros [|i] u v. }
  { unfold cycle_fuel. simpl. lia. }
  destruct r as [cycle|]; [by exists (Some cycle)|]. destruct V as (H1 & S1 & K1 & E).
  destruct (IH states1 H1 S1) as (r & -> & Hr). exists r. split; [done|]. destruct r as [cycle|]; [done|].
  destruct Hr as (states' & H' & K' & D'). exists states'. split_and!; [done|intros n En; by apply K', K1|].
  intros n [->|Hn]%elem_of_cons; [by apply K'|by apply D'].
Qed.

Lemma search_spec :
  ∃ r, visit_keys (cycle_fuel graph) graph (map_to_list graph).*1 ∅ = Some r ∧
    match r with Some cycle => is_cycle cycle | None => ∀ n, ¬ tc edge n n end.
Proof.
  destruct (visit_keys_spec (map_to_list graph).*1 ∅) as (r & E & Hr).
  { split; intros *; by rewrite lookup_empty. }
  { intros n. rewrite lookup_empty. split; [done|by intros ?%elem_of_nil]. }
  exists r. split; [done|]. destruct r as [cycle|]; [done|]. destruct Hr as (states & H & _ & D). intros n T.
  assert (is_Some (graph !! n)) as [l Hl].
  { assert (∃ v, edge n v) as [v Ev] by (inversion T; subst; eauto). unfold edge in Ev.
    destruct (graph !! n); [done|by apply elem_of_nil in Ev]. }
  eapply dfs_acyclic; [done| |exact T]. apply D. apply list_elem_of_fmap. exists (n, l). split; [done|]. by apply elem_of_map_to_list.
Qed.
End dfs.

(** ** The graph of the registered relations *)
Section schema.
Context {P : Type}.
Implicit Types (tables : RelationshipTables P) (relations : list (Relation P)) (lookup : EnsureForLookup P).

(** [u] is ensured for each [t]. *)
Definition ensures relations (t u : string) : Prop :=
  ∃ dependencies make dependency, EnsureFor u dependencies make ∈ relations ∧ dependency ∈ dependencies ∧
    dep_foreign_type dependency = t.

Definition ensured_in (m : gmap string (list (EnsureForLookup P))) (t : string) lookup : Prop :=
  ∃ lookups, m !! t = Some lookups ∧ lookup ∈ lookups.

Lemma ensured_in_push m key new t lookup : ensured_in (push_lookup m key new) t lookup ↔ ensured_in m t lookup ∨ (t = key ∧ lookup = new).
Proof.
  split.
  - intros (l & E & Hl). destruct (elem_of_push _ _ _ _ _ _ E Hl) as [?|?]; [by right|by left].
  - intros [(l & E & Hl)|[-> ->]]; [by eapply push_old|apply push_elem].
Qed.

Lemma ensured_in_register tables local dependencies make t lookup :
  ensured_in (ensure_for_by_dependency (register_ensure_for tables local dependencies make)) t lookup ↔
    ensured_in (ensure_for_by_dependency tables) t lookup ∨
    (lookup = mkEnsureFor local dependencies make ∧ ∃ dependency, dependency ∈ dependencies ∧ dep_foreign_type dependency = t).
Proof.
  unfold register_ensure_for. simpl. set (new := mkEnsureFor local dependencies make).
  set (step := λ acc dependency, let '(indexed_types, m) := acc in _).
  assert (∀ deps (indexed : gset string) m, (∀ u, u ∈ indexed → ensured_in m u new) →
    ensured_in (foldl step (indexed, m) deps).2 t lookup ↔
      ensured_in m t lookup ∨ (lookup = new ∧ ∃ dependency, dependency ∈ deps ∧ dep_foreign_type dependency = t)) as H.
  { clear. induction deps as [|dep deps IH]; intros indexed m Hi; simpl.
    - split; [by left|]. intros [?|(_ & ? & ?%elem_of_nil & _)]; done.
    - case_bool_decide as B.
      + rewrite IH by done. setoid_rewrite elem_of_cons. split; [naive_solver|].
        intros [?|(-> & d & [->|Hd] & <-)]; [by left|left; by apply Hi|right; eauto].
      + rewrite IH.
        * rewrite ensured_in_push. setoid_rewrite elem_of_cons. naive_solver.
        * intros u [->%elem_of_singleton|Hu]%elem_of_union; apply ensured_in_push; [by right|left; by apply Hi]. }
  apply H. by intros u ?%elem_of_empty.
Qed.

Lemma ensured_in_registered relations t lookup :
  ensured_in (ensure_for_by_dependency (foldl register tables_default relations)) t lookup ↔
    ∃ local dependencies make, EnsureFor local dependencies make ∈ relations ∧
      lookup = mkEnsureFor local dependencies make ∧ ∃ dependency, dependency ∈ dependencies ∧ dep_foreign_type dependency = t.
Proof.
  induction relations as [|relation relations IH] using rev_ind.
  - simpl. split; [intros (l & E & _); by rewrite lookup_empty in E|intros (? & ? & ? & ?%elem_of_nil & _); done].
  - rewrite foldl_app. cbn [foldl]. setoid_rewrite elem_of_app. setoid_rewrite list_elem_of_singleton.
    destruct relation as [| |local dependencies make]; cbn [register]; [simpl; rewrite IH; naive_solver..|].
    rewrite ensured_in_register, IH. split.
    + intros [(l & d & m & H & R)|[-> R]]; [exists l, d, m|exists local, dependencies, make]; auto.
    + intros (l & d & m & [H|[= -> -> ->]] & E & R); [left; exists l, d, m|right]; auto.
Qed.

Lemma elem_of_dependents (lookups : list (EnsureForLookup P)) acc u :
  u ∈ foldl (λ dependents lookup, if bool_decide (ef_local_type lookup ∈ dependents) then dependents
                                  else dependents ++ [ef_local_type lookup]) acc lookups ↔
    u ∈ acc ∨ ∃ lookup, lookup ∈ lookups ∧ ef_local_type lookup = u.
Proof.
  revert acc. induction lookups as [|lookup lookups IH]; intros acc; simpl.
  - split; [by left|]. intros [?|(? & ?%elem_of_nil & _)]; done.
  - rewrite IH. setoid_rewrite elem_of_cons. case_bool_decide; [naive_solver|].
    rewrite elem_of_app, list_elem_of_singleton. naive_solver.
Qed.

Lemma graph_edge tables t u :
  edge (ensure_for_graph tables) t u ↔ ∃ lookup, ensured_in (ensure_for_by_dependency tables) t lookup ∧ ef_local_type lookup = u.
Proof.
  unfold edge, ensure_for_graph, ensured_in. rewrite lookup_fmap.
  destruct (ensure_for_by_dependency tables !! t) as [lookups|]; simpl.
  - rewrite elem_of_dependents, elem_of_nil. naive_solver.
  - rewrite elem_of_nil. naive_solver.
Qed.

Lemma ensures_edge relations t u : edge (ensure_for_graph (foldl register tables_default relations)) t u ↔ ensures relations t u.
Proof.
  rewrite graph_edge. setoid_rewrite ensured_in_registered. unfold ensures. split.
  - intros (lookup & (local & dependencies & make & Hin & -> & d & Hd & Ed) & <-). simpl. eauto 7.
  - intros (dependencies & make & d & Hin & Hd & Ed). exists (mkEnsureFor u dependencies make). split; [|done]. eauto 10.
Qed.

(** [manager_new] ends, and rejects exactly the cyclic schemas. *)
Lemma manager_new_spec relations :
  ∃ r, manager_new relations = Some r ∧
    match r with
    | Ok rm => rm = mkManager (foldl register tables_default relations) ∅ ∅ ∅ ∧ ∀ t, ¬ tc (ensures relations) t t
    | Err _ => ∃ t, tc (ensures relations) t t
    end.
Proof.
  unfold manager_new, ensure_for_cycle. set (tables := foldl register tables_default relations).
  destruct (search_spec (ensure_for_graph tables)) as (r & -> & Hr). simpl.
  assert (∀ t, tc (edge (ensure_for_graph tables)) t t ↔ tc (ensures relations) t t) as T.
  { assert (∀ t u, tc (edge (ensure_for_graph tables)) t u ↔ tc (ensures relations) t u) as T; [|done].
    intros t u. split; intros H; (induction H as [x y E|x y z E H IH]; [apply tc_once|eapply tc_l; [|exact IH]]); by apply ensures_edge. }
  eexists. split; [done|]. destruct r as [cycle|].
  - destruct (cycle_tc _ _ Hr) as (node & _ & H). exists node. by apply T.
  - split; [done|]. intros t H%T. by apply (Hr t).
Qed.
End schema.
