(* ===== verification/PipelineOutcome.v ===== *)
(** * Outcomes of mutations

    What a root does with its first mutation: it is accepted whole when its items are
    distinct, a rejected mutation changes nothing but the counters, a replacement against a
    stale graph generation is refused, and a transient write is not produced.  Buffered
    ingest applies the buffered events as one batch. *)

From stdpp Require Import base strings numbers option countable gmap sets list.
From S2P Require Import Prelude Order GraphTypes EdgeIds GraphIndex GraphQuery GraphPreflight GraphWatch ServerTypes Relationship Pipeline Ingest PipelineProof PipelineInvariant.

(** ** The first mutation of a root *)
Section first.
Context {P CB J : Type} (env : Env P J).
Implicit Types (s : Ctx P CB J) (item : Item P) (items : list (Item P)) (st : CausalState P).

(** Distinct items are all accepted by a root. *)
Lemma accept_all limits chain change st counters items acc :
  NoDup (keys env change items) → (∀ key, key ∈ keys env change items → key ∉ cs_seen st) →
  ∃ st', accept_items env limits 0 chain change st counters items acc = (st', counters, Ok (acc ++ items)) ∧
    cs_queue st' = cs_queue st ∧ cs_root_tx st' = cs_root_tx st ∧ cs_current_chain st' = cs_current_chain st ∧
    cs_seen st' = cs_seen st ∪ list_to_set (keys env change items).
Proof.
  revert st acc. induction items as [|item items IH]; intros st acc ND N; simpl.
  { exists st. rewrite app_nil_r, (right_id_L ∅ (∪)). done. }
  csimpl in ND. apply NoDup_cons in ND as [Nk ND]. rewrite bool_decide_false by (apply N; left).
  edestruct IH as (st' & -> & Eq & Er & Ec & Es); [exact ND| |].
  - intros key Hk. simpl. apply not_elem_of_union. split; [|apply N; by right].
    intros ->%elem_of_singleton. done.
  - exists st'. rewrite <-app_assoc. split_and!; try done. rewrite Es. simpl. set_solver.
Qed.

(** Distinct keys give distinct transitions. *)
Lemma NoDup_transitions change items : NoDup (item_key <$> items) → NoDup (keys env change items).
Proof.
  intros ND. apply (NoDup_fmap_1 (λ k, (tk_entity_type k, tk_id k))). unfold keys. by rewrite <-list_fmap_compose.
Qed.

(** A state as the root opened from [s] sees it: only the causal state and the counters
    differ. *)
Record root_of s s1 : Prop := mkRootOf {
  ro_registry : ctx_registry s1 = ctx_registry s;
  ro_graph : ctx_graph s1 = ctx_graph s;
  ro_gstate : ctx_gstate s1 = ctx_gstate s;
  ro_router : ctx_router s1 = ctx_router s;
  ro_runs : ctx_runs s1 = ctx_runs s;
  ro_rel : ctx_rel s1 = ctx_rel s;
  ro_persisted : ctx_persisted s1 = ctx_persisted s;
  ro_sunk : ctx_sunk s1 = ctx_sunk s;
  ro_search : ctx_search s1 = ctx_search s;
  ro_buffers : ctx_buffers s1 = ctx_buffers s;
  ro_limits : ctx_limits s1 = ctx_limits s
}.

Definition fresh_root (root_tx : string) : CausalState P := mkCausal root_tx [] ∅ 0 None None [].

(** A fresh root queues a batch of distinct items. *)
Lemma enqueue_fresh root_tx items change origin mode s :
  ctx_causal s = Some (fresh_root root_tx) → items ≠ [] → NoDup (item_key <$> items) → (0 ≤ max_depth (ctx_limits s))%Z →
  ∃ st c chain, enqueue_causal env items change origin mode s = Some (set_causal (Some st) (set_counters c s), Ok ()) ∧
    cs_queue st = [mkPending (Uniform items change) origin mode 0 chain].
Proof.
  intros Ec Ne ND Hd. unfold enqueue_causal. destruct items as [|first items]; [done|].
  unfold enqueue_with. rewrite Ec. simpl. rewrite (proj2 (Z.ltb_ge _ _)) by done.
  set (chain := [_]). unfold accept_uniform.
  destruct (accept_all (ctx_limits s) chain change (fresh_root root_tx) (ctx_counters s) (first :: items) [])
    as (st & -> & Eq & _); [by apply NoDup_transitions|intros; apply not_elem_of_empty|].
  eexists _, _, chain. split; [done|]. simpl. by rewrite Eq.
Qed.

(** A fresh root queues a replacement of distinct items. *)
Lemma enqueue_replace_fresh root_tx upserts deletes origin mode expected s :
  ctx_causal s = Some (fresh_root root_tx) → upserts ++ deletes ≠ [] → NoDup (item_key <$> deletes ++ upserts) →
  (0 ≤ max_depth (ctx_limits s))%Z →
  ∃ st c chain, enqueue_causal_replace env upserts deletes origin mode expected s =
      Some (set_causal (Some st) (set_counters c s), Ok ()) ∧
    cs_queue st = [mkPending (Replace upserts deletes expected) origin mode 0 chain].
Proof.
  intros Ec Ne ND Hd. unfold enqueue_causal_replace. destruct (upserts ++ deletes) as [|first rest] eqn:El; [done|].
  unfold enqueue_with. rewrite Ec. simpl. rewrite (proj2 (Z.ltb_ge _ _)) by done.
  set (chain := [_]). unfold accept_replacement. rewrite fmap_app in ND. apply NoDup_app in ND as (ND1 & _ & ND2).
  destruct (accept_all (ctx_limits s) chain DEL (fresh_root root_tx) (ctx_counters s) deletes [])
    as (st1 & -> & Eq1 & _ & _ & Es); [by apply NoDup_transitions|intros; apply not_elem_of_empty|].
  destruct (accept_all (ctx_limits s) chain SET st1 (ctx_counters s) upserts [])
    as (st2 & -> & Eq2 & _); [by apply NoDup_transitions| |].
  { intros key (x & -> & Hx)%list_elem_of_fmap. rewrite Es. simpl. rewrite (left_id_L ∅ (∪)), elem_of_list_to_set.
    intros (y & [=] & _)%list_elem_of_fmap. }
  simpl. rewrite Eq1 in Eq2. destruct upserts, deletes; [done|..]; (eexists _, _, chain; split; [done|simpl; by rewrite Eq2]).
Qed.

(** What a root does after its first mutation. *)
Definition finish_root {A} (r : option (Ctx P CB J * result PersistError A)) : option (Ctx P CB J * result PersistError A) :=
  match r with Some (s, a) => Some (set_causal None s, a) | None => None end.

(** Submitting distinct items as a root emits them, in a state that only differs in the
    causal bookkeeping, and then drains what they derived; an error ends the root. *)
Lemma root_emits fuel steps items change origin mode s :
  ctx_causal s = None → needs_causal_root s items change origin = true → NoDup (item_key <$> items) →
  (0 ≤ max_depth (ctx_limits s))%Z →
  ∃ s1 st, root_of s s1 ∧ ctx_causal s1 = Some st ∧ cs_queue st = [] ∧
    submit_mutation_mode env (S fuel) (S steps) items change origin mode s =
      finish_root ((_ ← emit_uniform env (submit_mutation env fuel (S steps)) items change origin mode;
                    _ ← drain env (submit_mutation env fuel (S steps)) steps false; mret ()) s1).
Proof.
  intros Ec N ND Hd. cbn [submit_mutation_mode]. rewrite Ec, N. cbn [negb].
  assert (items ≠ []) as Ne by (intros ->; unfold needs_causal_root in N; simpl in N; by rewrite andb_false_r in N).
  unfold in_root, mbind at 1, M_bind at 1, open_root. cbn beta iota zeta. set (s0 := set_causal _ _).
  destruct (enqueue_fresh (env_new_v4 env (ctx_uuids s)) items change origin mode s0) as (st & c & chain & E1 & Eq); [done..|].
  set (st1 := mkCausal (P := P) (cs_root_tx st) [] (cs_seen st) (cs_derived_count st) (Some 0%Z) (Some mode) chain).
  exists (set_causal (Some st1) (set_counters c s0)), st1. split; [done|]. split; [done|]. split; [done|].
  unfold mbind, M_bind, catch. rewrite E1. simpl. unfold mbind, M_bind, pop_pending. simpl.
  rewrite Eq. unfold emit_pending. simpl. unfold mbind, M_bind, submit_mutation.
  set (s1 := set_causal (Some st1) _). match goal with |- context [emit_uniform _ _ _ _ _ _ ?x] => change x with s1 end.
  destruct (emit_uniform _ _ _ _ _ _ s1) as [[s2 [u|e]]|]; [|done..]. cbn.
  by destruct (drain _ _ _ _ s2) as [[s3 [b|e]]|].
Qed.

(** The same for a replacement, which stops when it is stale. *)
Lemma root_replaces fuel steps upserts deletes origin expected s :
  ctx_causal s = None → upserts ++ deletes ≠ [] → NoDup (item_key <$> deletes ++ upserts) → (0 ≤ max_depth (ctx_limits s))%Z →
  ∃ s1 st, root_of s s1 ∧ ctx_causal s1 = Some st ∧ cs_queue st = [] ∧
    submit_replace_mutation_inner env fuel (S steps) upserts deletes origin expected s =
      finish_root ((applied ← emit_replace_grouped env (submit_mutation env fuel (S steps)) upserts deletes origin Authoritative expected;
                    if applied : bool then drain env (submit_mutation env fuel (S steps)) steps true else mret false) s1).
Proof.
  intros Ec Ne ND Hd. unfold submit_replace_mutation_inner. rewrite Ec.
  assert (∀ (body : M P CB J bool), match upserts, deletes with [], [] => Some (s, Ok true) | _, _ => body s end = body s) as -> by by destruct upserts, deletes.
  unfold in_root, mbind at 1, M_bind at 1, open_root. cbn beta iota zeta. set (s0 := set_causal _ _).
  destruct (enqueue_replace_fresh (env_new_v4 env (ctx_uuids s)) upserts deletes origin Authoritative expected s0) as (st & c & chain & E1 & Eq); [done..|].
  set (st1 := mkCausal (P := P) (cs_root_tx st) [] (cs_seen st) (cs_derived_count st) (Some 0%Z) (Some Authoritative) chain).
  exists (set_causal (Some st1) (set_counters c s0)), st1. split; [done|]. split; [done|]. split; [done|].
  unfold mbind, M_bind, catch. rewrite E1. simpl. unfold mbind, M_bind, pop_pending. simpl.
  rewrite Eq. unfold emit_pending. simpl.
  set (s1 := set_causal (Some st1) _). match goal with |- context [emit_replace_grouped _ _ _ _ _ _ _ ?x] => change x with s1 end.
  destruct (emit_replace_grouped _ _ _ _ _ _ _ s1) as [[s2 [[|]|e]]|]; [|done..]. cbn.
  by destruct (drain _ _ _ _ s2) as [[s3 [b|e]]|].
Qed.
End first.

(** ** Rejections *)
Section rejected.
Context {P CB J : Type} (env : Env P J).
Implicit Types (s : Ctx P CB J) (item : Item P) (items : list (Item P)).

(** Nothing but the causal counters, the drawn transaction ids and the scratch caches of the
    graph differs. *)
Record unchanged s s' : Prop := mkUnchanged {
  un_registry : ctx_registry s' = ctx_registry s;
  un_index : same_index (ctx_gstate s) (ctx_gstate s');
  un_router : ctx_router s' = ctx_router s ∧ ctx_runs s' = ctx_runs s;
  un_rel : ctx_rel s' = ctx_rel s;
  un_outputs : ctx_persisted s' = ctx_persisted s ∧ ctx_sunk s' = ctx_sunk s ∧ ctx_search s' = ctx_search s;
  un_rest : ctx_graph s' = ctx_graph s ∧ ctx_buffers s' = ctx_buffers s ∧ ctx_limits s' = ctx_limits s;
  un_causal : ctx_causal s' = None
}.

Lemma root_unchanged s s1 gst :
  root_of s s1 → same_index (ctx_gstate s) gst → unchanged s (set_causal None (set_gstate gst s1)).
Proof. intros []. by split; simpl. Qed.

(** The validation of the items one after the other; the first rejection, with its item. *)
Fixpoint preflight_each g s gst items mode : GraphState * result (Item P * GraphError) unit :=
  match items with
  | [] => (gst, Ok ())
  | item :: items =>
      match preflight g (ctx_registry s) gst (canonical_item s item) (Some item) mode with
      | (gst, Err e) => (gst, Err (item, e))
      | (gst, Ok _) => preflight_each g s gst items mode
      end
  end.

(** The validation of a set: that of [emit_one], or of [emit_grouped], which first compares
    the items of the batch with each other. *)
Definition validation g s items mode : GraphState * result (Item P * GraphError) unit :=
  match items with
  | [] => (ctx_gstate s, Ok ())
  | [item] => preflight_each g s (ctx_gstate s) [item] mode
  | first_item :: _ =>
      match preflight_batch g (ctx_gstate s) items mode with
      | (gst, Err e) => (gst, Err (first_item, e))
      | (gst, Ok _) => preflight_each g s gst (group_by_type items ≫= snd) mode
      end
  end.

Lemma preflight_each_same g s gst items mode : same_index gst (preflight_each g s gst items mode).1.
Proof.
  revert gst. induction items as [|x items IH]; intros gst; simpl; [done|].
  pose proof (preflight_ignoring_same g (ctx_registry s) gst (canonical_item s x) (Some x) mode ∅) as Sm.
  change (preflight_ignoring _ _ _ _ _ _ _) with (preflight g (ctx_registry s) gst (canonical_item s x) (Some x) mode) in Sm.
  destruct (preflight _ _ _ _ _ _) as [gst' [u|e]]; [|done]. eapply same_index_trans; [exact Sm|apply IH].
Qed.

Lemma validation_same g s items mode : same_index (ctx_gstate s) (validation g s items mode).1.
Proof.
  unfold validation. destruct items as [|x [|y items]]; [done|apply preflight_each_same|].
  pose proof (preflight_batch_from_same g ∅ (ctx_gstate s) (x :: y :: items) mode) as Sm.
  change (preflight_batch_from _ _ _ _ _) with (preflight_batch g (ctx_gstate s) (x :: y :: items) mode) in Sm.
  destruct (preflight_batch _ _ _ _) as [gst [u|e]]; [|done]. eapply same_index_trans; [exact Sm|apply preflight_each_same].
Qed.

(** The step of one item. *)
Lemma validate_set g s gst item mode :
  validate_step (Some g) (canonical_item s item) item SET mode (set_gstate gst s) =
    let '(gst, r) := preflight g (ctx_registry s) gst (canonical_item s item) (Some item) mode in
    Some (set_gstate gst s, match r with Ok _ => Ok [] | Err e => Err (graph_error item (display e)) end).
Proof.
  unfold validate_step, preflight_step, mbind, M_bind, get, modify, mret, M_ret. cbn -[preflight].
  by destruct (preflight _ _ _ _ _ _) as [gst' [u|e]].
Qed.

Lemma plan_set g s gst item mode acc :
  plan_item (Some g) SET mode acc item (set_gstate gst s) =
    let '(gst, r) := preflight g (ctx_registry s) gst (canonical_item s item) (Some item) mode in
    Some (set_gstate gst s, match r with
                            | Ok _ => Ok (<[(item_type item, item_id item) := canonical_item s item]> acc.1, acc.2 ++ [])
                            | Err e => Err (graph_error item (display e))
                            end).
Proof.
  unfold plan_item, mbind, M_bind, get. cbv zeta. change (canonical_item (set_gstate gst s) item) with (canonical_item s item).
  rewrite validate_set. by destruct (preflight _ _ _ _ _ _) as [gst' [u|e]].
Qed.

(** The planning loop stops at the first item the graph rejects. *)
Lemma plan_rejected g s gst items mode acc gst' x e :
  preflight_each g s gst items mode = (gst', Err (x, e)) →
  fold_each (plan_item (Some g) SET mode) acc items (set_gstate gst s) = Some (set_gstate gst' s, Err (graph_error x (display e))).
Proof.
  revert gst acc. induction items as [|y items IH]; intros gst acc E; [done|]. cbn [preflight_each fold_each] in E |- *.
  unfold mbind at 1, M_bind at 1. rewrite plan_set. destruct (preflight _ _ _ _ _ _) as [gst1 [u|e1]]; [by apply IH|by simplify_eq].
Qed.

Lemma set_gstate_same s : set_gstate (ctx_gstate s) s = s.
Proof. by destruct s. Qed.

Lemma emit_rejected submit g s items origin mode gst x e :
  ctx_graph s = Some g → existsb (λ item, coordinates g item SET) items = true →
  validation g s items mode = (gst, Err (x, e)) →
  emit_uniform env submit items SET origin mode s = Some (set_gstate gst s, Err (graph_error x (display e))).
Proof.
  intros Eg Co V. unfold emit_uniform. destruct items as [|first [|y items]]; [done| |].
  - simpl in Co. rewrite orb_false_r in Co.
    pose proof (validate_set g s (ctx_gstate s) first mode) as Vs. rewrite set_gstate_same in Vs. simpl in V.
    unfold emit_one, commit_one, mbind, M_bind, get. rewrite Eg, Co, Vs.
    destruct (preflight _ _ _ _ _ _) as [gst1 [u|e1]]; by simplify_eq.
  - set (all := first :: y :: items) in *. unfold emit_grouped, commit_grouped, mbind, M_bind, get. simpl. fold all.
    rewrite Eg.
    assert (existsb (λ item, coordinates g item SET) (group_by_type all ≫= snd) = true) as Co'.
    { apply existsb_exists. apply existsb_exists in Co as (z & Hz & Ez). exists z. split; [|done].
      apply list_elem_of_In. rewrite grouped_perm. by apply list_elem_of_In. }
    unfold mbind, M_bind in Co' |- *. rewrite Co'. simpl in V. fold all in V.
    destruct (preflight_batch g (ctx_gstate s) all mode) as [gst1 [u|e1]]; [|by simplify_eq].
    cbn. erewrite plan_rejected by exact V. done.
Qed.

(** Opening a root leaves what the validation reads. *)
Lemma validation_root g s s1 items mode : root_of s s1 → validation g s1 items mode = validation g s items mode.
Proof.
  intros R. assert (∀ gst items, preflight_each g s1 gst items mode = preflight_each g s gst items mode) as E.
  { intros gst l. revert gst. induction l as [|x l IH]; intros gst; simpl; [done|]. unfold canonical_item. rewrite (ro_registry _ _ R).
    destruct (preflight _ _ _ _ _ _) as [gst' [u|e]]; [apply IH|done]. }
  unfold validation. rewrite (ro_gstate _ _ R). destruct items as [|x [|y items]]; [done|apply E|].
  destruct (preflight_batch _ _ _ _) as [gst [u|e]]; [apply E|done].
Qed.

Lemma submit_rejected fuel steps g s first items origin mode gst x e :
  ctx_causal s = None → ctx_graph s = Some g → should_cascade origin SET = true →
  existsb (λ item, coordinates g item SET) (first :: items) = true →
  NoDup (item_key <$> first :: items) → (0 ≤ max_depth (ctx_limits s))%Z →
  validation g s (first :: items) mode = (gst, Err (x, e)) →
  ∃ s', submit_mutation_mode env (S fuel) (S steps) (first :: items) SET origin mode s =
      Some (s', Err (graph_error x (display e))) ∧ unchanged s s'.
Proof.
  intros Ec Eg Sc Co ND Hd V. destruct (root_emits env fuel steps (first :: items) SET origin mode s) as (s1 & st & R & _ & _ & H); [done| |done..|].
  { unfold needs_causal_root. rewrite Sc, Eg. cbn [andb]. apply existsb_exists. apply existsb_exists in Co as (z & Hz & Ez).
    exists z. split; [done|]. rewrite Ez. apply orb_true_r. }
  exists (set_causal None (set_gstate gst s1)). split.
  - rewrite H. unfold mbind at 1, M_bind at 1. erewrite (emit_rejected _ g); [done| by rewrite (ro_graph _ _ R)|done|].
    by rewrite (validation_root g s s1).
  - apply root_unchanged; [done|]. pose proof (validation_same g s (first :: items) mode) as S. by rewrite V in S.
Qed.

(** ** Stale replacements *)

Lemma repeated_item_NoDup items seen :
  NoDup (item_key <$> items) → (∀ x, x ∈ items → item_key x ∉ seen) → repeated_item seen items = None.
Proof.
  revert seen. induction items as [|x items IH]; intros seen ND N; simpl; [done|]. csimpl in ND. apply NoDup_cons in ND as [Nx ND].
  rewrite bool_decide_false by (apply (N x); left). apply IH; [done|]. intros y Hy. apply not_elem_of_union. split; [|apply N; by right].
  intros Ey%elem_of_singleton. apply Nx. change (item_type x, item_id x) with (item_key x) in Ey. rewrite <-Ey.
  by apply list_elem_of_fmap_2.
Qed.

(** The graph is concerned by a replacement. *)
Definition concerned (g : GraphIndex P) (upserts deletes : list (Item P)) : bool :=
  existsb (λ item, coordinates g item DEL) deletes || existsb (λ item, coordinates g item SET) upserts.

Lemma submit_stale fuel steps g s upserts deletes origin expected :
  ctx_causal s = None → ctx_graph s = Some g → concerned g upserts deletes = true → NoDup (item_key <$> deletes ++ upserts) →
  (0 ≤ max_depth (ctx_limits s))%Z → gs_generation (ctx_gstate s) ≠ expected →
  ∃ s', submit_replace_mutation_inner env fuel (S steps) upserts deletes origin (Some expected) s = Some (s', Ok false) ∧
    unchanged s s'.
Proof.
  intros Ec Eg Co ND Hd Ns. assert (upserts ++ deletes ≠ []) as Ne by (intros [-> ->]%app_nil; done).
  destruct (root_replaces env fuel steps upserts deletes origin (Some expected) s) as (s1 & st & R & _ & _ & H); [done..|].
  exists (set_causal None s1). split; [|by destruct R; split; simpl; rewrite ?ro_gstate0].
  rewrite H. unfold mbind at 1, M_bind at 1. unfold emit_replace_grouped, commit_replacement. destruct (upserts ++ deletes); [done|].
  rewrite repeated_item_NoDup; [|done|intros; apply not_elem_of_empty].
  unfold mbind, M_bind, get. rewrite (ro_graph _ _ R), Eg. unfold concerned in Co. rewrite Co, (ro_gstate _ _ R).
  by rewrite bool_decide_false.
Qed.
End rejected.

(** ** Transient writes *)
Section transient.
Context {P CB J : Type} (env : Env P J).
Implicit Types (s : Ctx P CB J) (item : Item P).

(** A successful emission of one item reduces exactly it; a set cascades to no edge. *)
Lemma commit_one_stores s0 item change origin mode :
  hoare (λ s, s = s0) (commit_one env item change origin mode)
    (λ cascades s, ctx_registry s = reduce (ctx_registry s0) change item ∧ (change = SET → cascades = [])).
Proof.
  unfold commit_one. apply hoare_get. intros s ->. set (coordinated := match ctx_graph s0 with Some _ => _ | None => _ end).
  apply hoare_bind with (λ cascades s, near s0 (ctx_registry s0) (λ _, True) s ∧ (change = SET → cascades = [])).
  - eapply hoare_weaken with (Pre := near s0 (ctx_registry s0) (λ _, True)); [|by intros s ->; split_and!|intros cascades s Hs; exact Hs].
    unfold validate_step. destruct coordinated as [g|]; [|by intros s s' a N [= <- <-]].
    apply hoare_bind with (λ cascades s, near s0 (ctx_registry s0) (λ _, True) s ∧ (change = SET → cascades = [])).
    + destruct change; [by intros s s' a N [= <- <-]|]. eapply hoare_weaken; [apply (delete_plan_near s0 (ctx_registry s0) (λ _, True))|done|].
      intros cascades s [N _]. by split.
    + intros cascades. apply hoare_pure. intros Hc. eapply hoare_bind; [by apply (preflight_near s0 (ctx_registry s0) (λ _, True))|].
      by intros u s s' a N [= <- <-].
  - intros cascades. apply hoare_pure. intros Hc. eapply hoare_bind; [apply reduce_near|]. intros u.
    apply hoare_bind with (λ _, near s0 (reduce (ctx_registry s0) change item) (λ _, True)).
    { destruct coordinated as [g|]; [by apply (apply_near s0 _ (λ _, True))|by intros s s' a N [= <- _]]. }
    intros u'. eapply hoare_results.
    + destruct (should_produce origin); [apply persist_near|apply (hoare_ret (λ _, near s0 _ _))].
    + destruct coordinated as [g|]; [|apply (hoare_ret (λ _, near s0 _ _))]. apply hoare_read. intros s1 N1.
      destruct (_ && _); [apply publish_near|apply (hoare_ret (λ _, near s0 _ _))].
    + intros s s' a (_ & N & _) [= <- <-]. by split.
Qed.

(** Steps that produce nothing. *)
Definition quiet s s' : Prop := ctx_persisted s' = ctx_persisted s ∧ ctx_sunk s' = ctx_sunk s ∧ ctx_causal s' = ctx_causal s.
#[local] Instance quiet_preorder : PreOrder quiet.
Proof. split; [done|]. intros s1 s2 s3 (? & ? & ?) (? & ? & ?). split_and!; congruence. Qed.
Abbreviation K := (keeps (λ _ : Ctx P CB J, True) quiet).

Lemma modify_quiet f : (∀ s, quiet s (f s)) → K (modify f).
Proof. intros H. by apply keeps_modify. Qed.

Lemma commit_one_quiet item change origin mode :
  should_produce origin = false → K (commit_one env item change origin mode).
Proof.
  intros Hp. unfold commit_one, validate_step, delete_plan_step, preflight_step, apply_step, publish_step, reduce_one, graph_result.
  rewrite Hp. keeps_tac; apply modify_quiet; intros ?; by try destruct change.
Qed.

(** A transient set returns, produces nothing, and stores its item when it succeeds. *)
Lemma set_transient_spec fuel steps item s :
  ctx_causal s = None →
  ∃ s' r, set_transient env (S (S fuel)) steps item s = Some (s', r) ∧ quiet s s' ∧
    (r = Ok () → ctx_registry s' = store_insert (ctx_registry s) item).
Proof.
  intros Ec. unfold set_transient, set_dyn_with_origin, submit_mutation. cbn [submit_mutation_mode]. rewrite Ec.
  unfold needs_causal_root. cbn [should_cascade andb negb emit_uniform]. unfold emit_one, mbind, M_bind.
  destruct (commit_one_quiet item SET Transient Authoritative eq_refl s I) as (s1 & r1 & E1 & _ & Q1). rewrite E1.
  destruct r1 as [cascades|e]; [|by eexists _, _].
  destruct (commit_one_stores s item SET Transient Authoritative s s1 cascades eq_refl E1) as [Er Hc].
  rewrite (Hc eq_refl). unfold apply_effects, mbind, M_bind. cbn. destruct Q1 as (Q1 & Q2 & Q3). rewrite Q3, Ec.
  eexists _, _. split; [done|]. by split.
Qed.
End transient.

(** ** Buffered ingest *)
Section buffers.
Context {P CB J : Type} (env : Env P J) (fuel steps : nat).
Implicit Types (s : Ctx P CB J) (events : list (MEvent J)).

Lemma buffered_split t window events immediate m pre :
  item_buffer_policy env t = TimeWindow window → (∀ event, event ∈ events → me_item_type event = t) →
  (events = [] → pre ≠ []) →
  foldl (split_event env) (immediate, <[t := (window, pre)]> m) events = (immediate, <[t := (window, pre ++ events)]> m).
Proof.
  intros Hp. revert pre. induction events as [|event events IH]; intros pre Ht Hn; simpl; [by rewrite app_nil_r|].
  unfold split_event at 2. simpl. rewrite (Ht event) by left. rewrite Hp. unfold buffer_event. rewrite (Ht event) by left.
  rewrite lookup_insert_eq. simpl. rewrite insert_insert_eq, IH, <-app_assoc; [done|intros e He; apply Ht; by right|by destruct pre].
Qed.

(** Events of a buffered type are only appended to the type's buffer. *)
Lemma apply_buffered t window events s :
  item_buffer_policy env t = TimeWindow window → (∀ event, event ∈ events → me_item_type event = t) →
  (len events ≤ u64_max)%Z → events ≠ [] →
  let pending := default [] (bi_events <$> ctx_buffers s !! t) in
  apply_event_batch env fuel steps events s =
    Some (set_buffers (<[t := mkBuffer (pending ++ events) true]> (ctx_buffers s)) s, Ok (len events)).
Proof.
  intros Hp Ht Hl Hn pending. unfold apply_event_batch. destruct events as [|event events]; [done|]. cbn [foldl].
  unfold split_event at 2. simpl. rewrite (Ht event) by left. rewrite Hp. unfold buffer_event. rewrite (Ht event) by left.
  rewrite lookup_empty. simpl. rewrite (buffered_split t window); [|done|intros e He; apply Ht; by right|done].
  rewrite insert_empty, map_to_list_singleton. unfold mbind, M_bind, mret, M_ret. simpl. unfold enqueue_buffered_events, mbind, M_bind, mret, M_ret. simpl.
  unfold pending. rewrite sat_add_exact by (simpl; lia). destruct (ctx_buffers s !! t); done.
Qed.
End buffers.

(** ** Accepting a batch *)
Section accepting.
Context {P CB J : Type} (env : Env P J).
Implicit Types (s : Ctx P CB J) (items : list (Item P)) (st : CausalState P).

Lemma accept_items_seen limits depth chain change st counters items acc st' counters' accepted :
  accept_items env limits depth chain change st counters items acc = (st', counters', Ok accepted) →
  cs_seen st ⊆ cs_seen st' ∧ ∀ x, x ∈ items → transition_key env x change ∈ cs_seen st'.
Proof.
  revert st counters acc. induction items as [|item items IH]; intros st counters acc A; simpl in A.
  { simplify_eq. split; [done|]. by intros x ?%elem_of_nil. }
  case_bool_decide as Seen.
  - apply IH in A as [S A]. split; [done|]. intros x [->|Hx]%elem_of_cons; [by apply S|by apply A].
  - destruct ((0 <? depth)%Z && _); [by simplify_eq|]. apply IH in A as [S A]. simpl in S. split; [set_solver|].
    intros x [->|Hx]%elem_of_cons; [apply S; set_solver|by apply A].
Qed.

(** The depth of a mutation submitted now. *)
Definition next_depth st : Z := match cs_current_depth st with None => 0 | Some depth => sat_add depth 1 end.

Lemma enqueue_causal_spec items change origin mode s s' st :
  ctx_causal s = Some st → items ≠ [] → (0 ≤ cs_derived_count st ≤ u64_max)%Z → (max_derived_mutations (ctx_limits s) < u64_max)%Z →
  enqueue_causal env items change origin mode s = Some (s', Ok ()) →
  ∃ st' new chain, ctx_causal s' = Some st' ∧ ctx_registry s' = ctx_registry s ∧
    sublist new items ∧ NoDup (keys env change new) ∧ (∀ key, key ∈ keys env change new → key ∉ cs_seen st) ∧
    (∀ x, x ∈ items → transition_key env x change ∈ cs_seen st') ∧
    cs_seen st' = cs_seen st ∪ list_to_set (keys env change new) ∧
    (next_depth st ≤ max_depth (ctx_limits s))%Z ∧
    cs_queue st' = cs_queue st ++ (if decide (new = []) then [] else
      [mkPending (Uniform new change) origin (default mode (cs_current_mode st)) (next_depth st) chain]) ∧
    (0 < next_depth st → cs_derived_count st' = cs_derived_count st + len new ∧
      (new = [] ∨ cs_derived_count st' ≤ max_derived_mutations (ctx_limits s)))%Z.
Proof.
  intros Ec Ne Hd Hm. unfold enqueue_causal. destruct items as [|first items]; [done|]. unfold enqueue_with. rewrite Ec.
  fold (next_depth st). destruct (Z.ltb_spec (max_depth (ctx_limits s)) (next_depth st)) as [|Le]; [done|].
  set (chain := cs_current_chain st ++ _). unfold accept_uniform.
  destruct (accept_items _ _ _ _ _ _ _ _ _) as [[st1 c1] [accepted|e]] eqn:A; [|done].
  pose proof (accept_items_new _ _ _ _ _ _ _ _ _ _ _ _ A) as (Eq & _ & new & Ea & Sub & ND & Fresh & Es).
  pose proof (accept_items_budget _ _ _ _ _ _ _ _ _ _ _ _ A (proj2 Hd) Hm) as [_ B].
  pose proof (accept_items_seen _ _ _ _ _ _ _ _ _ _ _ A) as [_ Seen]. simpl in Ea. subst accepted.
  assert (∀ D, next_depth st > 0 → D = cs_derived_count st1 → (D = cs_derived_count st + len new ∧ (new = [] ∨ D ≤ max_derived_mutations (ctx_limits s))))%Z as B'.
  { intros D Hp ->. destruct B as [B1 B2]; [lia|]. unfold len in *. simpl in *. split; [lia|]. destruct B2 as [B2|B2]; [left|by right].
    destruct new; [done|simpl in B2; lia]. }
  destruct new as [|x new]; intros [= <-].
  - exists st1, [], chain. split_and!; try done; [by rewrite Eq, app_nil_r|]. intros. apply B'; [lia|done].
  - eexists _, (x :: new), chain. split; [done|]. split_and!; try done; [simpl; by rewrite Eq|]. intros. apply B'; [lia|done].
Qed.
End accepting.
