(* ===== verification/ServerTheorems.v ===== *)
(** * Properties of the server's mutation pipeline

    The theorems about [core/src/server/context.rs] and
    [core/src/server/relationship_manager.rs], each with an instance at a context of
    [ServerFixtures]. *)

From stdpp Require Import base strings numbers option countable relations gmap sets list.
From S2P Require Import Prelude Order GraphTypes EdgeIds GraphIndex GraphQuery GraphPreflight GraphWatch Fixtures ServerTypes Relationship Pipeline Ingest ServerFixtures PipelineProof PipelineInvariant PipelineTotal RelationshipProof RelationshipCycle PipelineOutcome.

(** ** Instances *)

(** Whether a run succeeds. *)
Definition succeeds {P CB J A} (m : M P CB J A) (s : Ctx P CB J) : bool :=
  match m s with Some (_, Ok _) => true | _ => false end.

Lemma succeeds_run {P CB J A} (m : M P CB J A) (s : Ctx P CB J) : succeeds m s = true → ∃ s' a, m s = Some (s', Ok a).
Proof. unfold succeeds. destruct (m s) as [[s' [a|e]]|]; [|done..]. intros _. by exists s', a. Qed.

Lemma gx_ok : ctx_ok (Some Fx.graph) Gx.ctx.
Proof.
  apply mkCtxOk; [reflexivity|exact Fx.registry_fx| |intros st E; discriminate E|].
  - intros g E. apply Some_inj in E as <-. split; [exact Fx.registrations_fx|exact Fx.graph_fx].
  - intros t lookups lookup parent child parent' E. simpl in E. by rewrite lookup_empty in E.
Qed.

Lemma singleton_keys {P} (item : Item P) : NoDup (item_key <$> [item]).
Proof. apply NoDup_singleton. Qed.

(** ** The graph behind the pipeline *)

(** C11: A mutation or a replacement that returns [Ok], with the relationship effects,
    cascades and fixups it derives, whether it is queued in an open root, opens one or needs
    none, and whether a replacement is applied or refused as stale, leaves the stores well
    keyed and the graph's projections equal to those of the stores; the items of a batch are
    distinct. *)
Theorem submissions_keep_the_graph_exact {P CB J} (env : Env P J) (og : option (GraphIndex P)) fuel steps (s s' : Ctx P CB J) :
  ctx_ok og s →
  (∀ items change origin mode, NoDup (item_key <$> items) →
    submit_mutation_mode env fuel steps items change origin mode s = Some (s', Ok ()) → ctx_ok og s') ∧
  (∀ upserts deletes origin expected applied,
    submit_replace_mutation_inner env fuel steps upserts deletes origin expected s = Some (s', Ok applied) → ctx_ok og s').
Proof.
  intros Hs. split.
  - intros items change origin mode ND. by apply (proj1 (submit_ok env og fuel steps) items change origin mode ND s s' ()).
  - intros upserts deletes origin expected applied.
    by apply (submit_replace_ok env og fuel steps upserts deletes origin expected s s' applied).
Qed.

(** Deleting [n1] and, by cascade, its edges; moving the pair of [l1] to a new edge. *)
Lemma submissions_keep_the_graph_exact_witness :
  (∃ s', submit_mutation_mode Gx.env 3 10 [Fx.node "n1"] DEL Local Authoritative Gx.ctx = Some (s', Ok ()) ∧
    ctx_ok (Some Fx.graph) s') ∧
  ∃ s' applied, submit_replace_mutation_inner Gx.env 3 10 [Fx.edge "Link" "l9" "n1" "n2"] [Fx.edge "Link" "l1" "n1" "n2"] Local
      None Gx.ctx = Some (s', Ok applied) ∧ ctx_ok (Some Fx.graph) s'.
Proof.
  split.
  - destruct (succeeds_run (submit_mutation_mode Gx.env 3 10 [Fx.node "n1"] DEL Local Authoritative) Gx.ctx) as (s' & [] & E);
      [vm_compute; reflexivity|].
    exists s'. split; [exact E|].
    exact (proj1 (submissions_keep_the_graph_exact Gx.env (Some Fx.graph) 3 10 Gx.ctx s' gx_ok) _ _ _ _ (singleton_keys _) E).
  - destruct (succeeds_run (submit_replace_mutation_inner Gx.env 3 10 [Fx.edge "Link" "l9" "n1" "n2"]
      [Fx.edge "Link" "l1" "n1" "n2"] Local None) Gx.ctx) as (s' & applied & E); [vm_compute; reflexivity|].
    exists s', applied. split; [exact E|].
    exact (proj2 (submissions_keep_the_graph_exact Gx.env (Some Fx.graph) 3 10 Gx.ctx s' gx_ok) _ _ _ _ _ E).
Defined.

(** ** Termination *)

(** C12: A mutation or a replacement submitted outside a causal root always returns, with a
    result or an error, and leaves no root open: whatever the relationships derive, the
    budget of derived mutations bounds the queue, so one step more than the budget drains
    it, and three levels of submission are enough. *)
Theorem submissions_return {P CB J} (env : Env P J) (og : option (GraphIndex P)) fuel steps (s : Ctx P CB J) :
  ctx_ok og s → ctx_causal s = None → (max_derived_mutations (ctx_limits s) < u64_max)%Z →
  (1 + Z.max 0 (max_derived_mutations (ctx_limits s)) < Z.of_nat steps)%Z →
  (∀ items change origin mode, NoDup (item_key <$> items) →
    ∃ s' r, submit_mutation_mode env (3 + fuel) steps items change origin mode s = Some (s', r) ∧ ctx_causal s' = None) ∧
  (∀ upserts deletes origin expected,
    ∃ s' r, submit_replace_mutation_inner env (1 + fuel) steps upserts deletes origin expected s = Some (s', r) ∧
      ctx_causal s' = None).
Proof.
  intros Hs Ec H1 H2. split.
  - intros items change origin mode ND. by apply (submit_total env og fuel).
  - intros upserts deletes origin expected. by apply submit_replace_total.
Qed.

(** The budget of [Gx], lowered to ten derived mutations. *)
Lemma submissions_return_witness :
  let s := set_limits (mkLimits 64 10) Gx.ctx in
  ctx_causal s = None ∧
  (∃ s' r, submit_mutation_mode Gx.env 3 12 [Fx.node "n1"] DEL Local Authoritative s = Some (s', r) ∧ ctx_causal s' = None) ∧
  ∃ s' r, submit_replace_mutation_inner Gx.env 3 12 [Fx.node "n9"] [Fx.node "n1"] Local None s = Some (s', r) ∧
    ctx_causal s' = None.
Proof.
  intros s. assert (ctx_ok (Some Fx.graph) s) as Hs by (destruct gx_ok; by split).
  split; [reflexivity|]. split.
  - refine (proj1 (submissions_return Gx.env (Some Fx.graph) 0 12 s Hs eq_refl _ _) _ _ _ _ (singleton_keys _)); reflexivity.
  - refine (proj2 (submissions_return Gx.env (Some Fx.graph) 2 12 s Hs eq_refl _ _) _ _ _ _); reflexivity.
Defined.

(** ** The causal queue *)

(** Inside a root, a batch is accepted only within the depth limit, as at most one
    pending mutation behind the others, under the mode of the root's current mutation; it
    holds the items whose transition the root had not seen, each transition once, all the
    batch's transitions are seen from then on, and below the root mutation the accepted
    items are counted and stay within the budget of derived mutations. *)
Theorem queue_accepts_new_transitions_within_limits {P CB J} (env : Env P J) items change origin mode (s s' : Ctx P CB J) st :
  ctx_causal s = Some st → items ≠ [] → (0 ≤ cs_derived_count st ≤ u64_max)%Z →
  (max_derived_mutations (ctx_limits s) < u64_max)%Z →
  enqueue_causal env items change origin mode s = Some (s', Ok ()) →
  ∃ st' new chain, ctx_causal s' = Some st' ∧ ctx_registry s' = ctx_registry s ∧
    sublist new items ∧ NoDup (keys env change new) ∧ (∀ key, key ∈ keys env change new → key ∉ cs_seen st) ∧
    (∀ x, x ∈ items → transition_key env x change ∈ cs_seen st') ∧
    cs_seen st' = cs_seen st ∪ list_to_set (keys env change new) ∧
    (next_depth st ≤ max_depth (ctx_limits s))%Z ∧
    cs_queue st' = cs_queue st ++ (if decide (new = []) then [] else
      [mkPending (Uniform new change) origin (default mode (cs_current_mode st)) (next_depth st) chain]) ∧
    (0 < next_depth st → cs_derived_count st' = cs_derived_count st + len new ∧
      (new = [] ∨ cs_derived_count st' ≤ max_derived_mutations (ctx_limits s)))%Z.
Proof. intros Ec Ne Hd Hm. by apply enqueue_causal_spec. Qed.

(** A derived batch, one of whose items occurs twice. *)
Lemma queue_accepts_new_transitions_within_limits_witness :
  let st := mkCausal "tx" [] ∅ 3 (Some 0%Z) (Some Authoritative) [] in
  let s := set_causal (Some st) Gx.ctx in
  let items := [Fx.node "n8"; Fx.node "n9"; Fx.node "n8"] in
  ∃ s', enqueue_causal Gx.env items SET Cascade Import s = Some (s', Ok ()) ∧
  ∃ st' new chain, ctx_causal s' = Some st' ∧ ctx_registry s' = ctx_registry s ∧
    sublist new items ∧ NoDup (keys Gx.env SET new) ∧ (∀ key, key ∈ keys Gx.env SET new → key ∉ cs_seen st) ∧
    (∀ x, x ∈ items → transition_key Gx.env x SET ∈ cs_seen st') ∧
    cs_seen st' = cs_seen st ∪ list_to_set (keys Gx.env SET new) ∧
    (next_depth st ≤ max_depth (ctx_limits s))%Z ∧
    cs_queue st' = cs_queue st ++ (if decide (new = []) then [] else
      [mkPending (Uniform new SET) Cascade (default Import (cs_current_mode st)) (next_depth st) chain]) ∧
    (0 < next_depth st → cs_derived_count st' = cs_derived_count st + len new ∧
      (new = [] ∨ cs_derived_count st' ≤ max_derived_mutations (ctx_limits s)))%Z.
Proof.
  intros st s items. destruct (succeeds_run (enqueue_causal Gx.env items SET Cascade Import) s) as (s' & [] & E); [vm_compute; reflexivity|].
  exists s'. split; [exact E|].
  apply (queue_accepts_new_transitions_within_limits Gx.env items SET Cascade Import s s' st); [reflexivity|discriminate|done|reflexivity|exact E].
Defined.

(** ** Refusals *)

(** C13: A set that the graph rejects, of one item or of a batch, whether because the items of
    the batch conflict with each other or because the planning loop comes to an item the graph
    does not accept, returns the rejection as an error of the item concerned and changes
    nothing: the stores, the projections, the watches, the relationship indexes, the persisted
    and published events, the search calls and the buffers are as before, and no root stays
    open. *)
Theorem rejected_set_changes_nothing {P CB J} (env : Env P J) fuel steps g (s : Ctx P CB J) first items origin mode gst x e :
  ctx_causal s = None → ctx_graph s = Some g → should_cascade origin SET = true →
  existsb (λ item, coordinates g item SET) (first :: items) = true →
  NoDup (item_key <$> first :: items) → (0 ≤ max_depth (ctx_limits s))%Z →
  validation g s (first :: items) mode = (gst, Err (x, e)) →
  ∃ s', submit_mutation_mode env (S fuel) (S steps) (first :: items) SET origin mode s =
      Some (s', Err (graph_error x (display e))) ∧ unchanged s s'.
Proof. intros Ec Eg Sc Co ND Hd V. by apply (submit_rejected env fuel steps g s first items origin mode gst x e). Qed.

(** A batch whose items agree with each other, the second of which takes the pair of [l1]. *)
Lemma rejected_set_changes_nothing_witness :
  let items := [Fx.edge "Link" "l8" "n2" "n4"; Fx.edge "Link" "l9" "n1" "n2"] in
  is_ok (preflight_batch Fx.graph (ctx_gstate Gx.ctx) items Authoritative).2 = true ∧
  ∃ (x : Item Fx.Payload) e s', item_id x = "l9" ∧
    submit_mutation_mode Gx.env 3 10 items SET Local Authoritative Gx.ctx = Some (s', Err (graph_error x (display e))) ∧
    unchanged Gx.ctx s'.
Proof.
  intros items. split; [vm_compute; reflexivity|].
  assert (match (validation Fx.graph Gx.ctx items Authoritative).2 with Err (x, _) => item_id x | Ok _ => "" end = "l9") as V
    by (vm_compute; reflexivity).
  destruct (validation Fx.graph Gx.ctx items Authoritative) as [gst [u|[x e]]] eqn:E; [discriminate V|]. exists x, e.
  destruct (rejected_set_changes_nothing Gx.env 2 9 Fx.graph Gx.ctx (Fx.edge "Link" "l8" "n2" "n4") [Fx.edge "Link" "l9" "n1" "n2"]
    Local Authoritative gst x e) as (s' & Es & U); [reflexivity|reflexivity|reflexivity|vm_compute; reflexivity| |done|exact E|].
  - apply (bool_decide_unpack _). vm_compute. exact I.
  - exists s'. split; [exact V|]. split; [exact Es|exact U].
Defined.

(** A replacement of distinct items that concerns the graph and expects another graph
    generation than the present one returns [Ok false] and changes nothing. *)
Theorem stale_replacement_changes_nothing {P CB J} (env : Env P J) fuel steps g (s : Ctx P CB J) upserts deletes origin expected :
  ctx_causal s = None → ctx_graph s = Some g → concerned g upserts deletes = true →
  NoDup (item_key <$> deletes ++ upserts) → (0 ≤ max_depth (ctx_limits s))%Z → gs_generation (ctx_gstate s) ≠ expected →
  ∃ s', submit_replace_mutation_inner env fuel (S steps) upserts deletes origin (Some expected) s = Some (s', Ok false) ∧
    unchanged s s'.
Proof. intros Ec Eg Co ND Hd Ns. by apply (submit_stale env fuel steps g). Qed.

Lemma stale_replacement_changes_nothing_witness :
  ∃ s', submit_replace_mutation_inner Gx.env 3 10 [Fx.edge "Link" "l9" "n1" "n2"] [Fx.edge "Link" "l1" "n1" "n2"] Local
      (Some 7%Z) Gx.ctx = Some (s', Ok false) ∧ unchanged Gx.ctx s'.
Proof.
  apply (stale_replacement_changes_nothing Gx.env 3 9 Fx.graph);
    [reflexivity|reflexivity|vm_compute; reflexivity| |done|vm_compute; discriminate].
  apply (bool_decide_unpack _). vm_compute. exact I.
Defined.

(** A transient set outside a causal root always returns, and hands nothing to the
    persister or to the event sink; when it succeeds the store holds the item. *)
Theorem transient_set_is_not_produced {P CB J} (env : Env P J) fuel steps item (s : Ctx P CB J) :
  ctx_causal s = None →
  ∃ s' r, set_transient env (2 + fuel) steps item s = Some (s', r) ∧
    ctx_persisted s' = ctx_persisted s ∧ ctx_sunk s' = ctx_sunk s ∧ ctx_causal s' = None ∧
    (r = Ok () → ctx_registry s' = store_insert (ctx_registry s) item).
Proof.
  intros Ec. destruct (set_transient_spec env fuel steps item s Ec) as (s' & r & E & (Q1 & Q2 & Q3) & H).
  exists s', r. by rewrite Q3.
Qed.

Lemma transient_set_is_not_produced_witness :
  ∃ s' r, set_transient Gx.env 3 10 (Fx.node "n9") Gx.ctx = Some (s', r) ∧
    ctx_persisted s' = ctx_persisted Gx.ctx ∧ ctx_sunk s' = ctx_sunk Gx.ctx ∧ ctx_causal s' = None ∧
    (r = Ok () → ctx_registry s' = store_insert (ctx_registry Gx.ctx) (Fx.node "n9")).
Proof. exact (transient_set_is_not_produced Gx.env 1 10 (Fx.node "n9") Gx.ctx eq_refl). Defined.

(** Events of a type with a buffering window are not applied when they arrive: the call
    accepts all of them, and the flush of the type then applies the whole buffer, the earlier
    events first, as one immediate batch on the state with the buffer emptied, counting what
    it applied, or zero when it fails. *)
Theorem flush_applies_the_buffered_events {P CB J} (env : Env P J) fuel steps t window events (s : Ctx P CB J) :
  item_buffer_policy env t = TimeWindow window → (∀ event, event ∈ events → me_item_type event = t) →
  (len events ≤ u64_max)%Z → events ≠ [] →
  let pending := default [] (bi_events <$> ctx_buffers s !! t) in
  let emptied := set_buffers (<[t := mkBuffer [] false]> (ctx_buffers s)) s in
  (∃ s', apply_event_batch env fuel steps events s = Some (s', Ok (len events)) ∧ ctx_registry s' = ctx_registry s) ∧
  (_ ← apply_event_batch env fuel steps events; flush_buffered_events_for_type env fuel steps t) s =
    match apply_event_batch_immediate env fuel steps (pending ++ events) emptied with
    | Some (s', Ok count) => Some (s', Ok count)
    | Some (s', Err _) => Some (s', Ok 0%Z)
    | None => None
    end.
Proof.
  intros Hp Ht Hl Hn pending emptied. pose proof (apply_buffered env fuel steps t window events s Hp Ht Hl Hn) as A.
  fold pending in A. split; [by eexists|]. unfold mbind at 1, M_bind at 1. rewrite A.
  unfold flush_buffered_events_for_type, mbind, M_bind, get, modify. cbn -[apply_event_batch_immediate].
  rewrite lookup_insert_eq. cbn -[apply_event_batch_immediate].
  assert (set_buffers (<[t := mkBuffer [] false]> (<[t := mkBuffer (pending ++ events) true]> (ctx_buffers s)))
    (set_buffers (<[t := mkBuffer (pending ++ events) true]> (ctx_buffers s)) s) = emptied) as ->.
  { unfold emptied, set_buffers. simpl. by rewrite insert_insert_eq. }
  destruct (pending ++ events) as [|event rest] eqn:El; [by apply app_nil in El as [_ ?]|].
  unfold catch. by destruct (apply_event_batch_immediate _ _ _ _ _) as [[s' [n|e]]|].
Qed.

(** Two pulses, buffered and flushed. *)
Lemma flush_applies_the_buffered_events_witness :
  let pulse id := mkMEvent "Pulse" SET (mkItem "Pulse" id None) : MEvent (Item Fx.Payload) in
  let events := [pulse "u1"; pulse "u2"] in
  let pending := default [] (bi_events <$> ctx_buffers Gx.ctx !! "Pulse") in
  let emptied := set_buffers (<["Pulse" := mkBuffer [] false]> (ctx_buffers Gx.ctx)) Gx.ctx in
  (∃ s', apply_event_batch Gx.env 3 10 events Gx.ctx = Some (s', Ok (len events)) ∧ ctx_registry s' = ctx_registry Gx.ctx) ∧
  (_ ← apply_event_batch Gx.env 3 10 events; flush_buffered_events_for_type Gx.env 3 10 "Pulse") Gx.ctx =
    match apply_event_batch_immediate Gx.env 3 10 (pending ++ events) emptied with
    | Some (s', Ok count) => Some (s', Ok count)
    | Some (s', Err _) => Some (s', Ok 0%Z)
    | None => None
    end.
Proof.
  intros pulse events.
  apply (flush_applies_the_buffered_events Gx.env 3 10 "Pulse" 5 events Gx.ctx); [reflexivity| |done|discriminate].
  intros event [->|[->|[]%elem_of_nil]%elem_of_cons]%elem_of_cons; reflexivity.
Defined.

(** ** Relationships *)

(** The combinations of the dependencies of an [ensure_for] relation are exactly the
    tuples with the id of one canonical entity of each dependency's type, each tuple once. *)
Theorem dependency_combinations_are_the_tuples {P} (registry : StoreRegistry P) (dependencies : list (EnsureForDependency P)) :
  registry_ok registry →
  NoDup (get_dependency_combinations registry dependencies) ∧
  ∀ combo, combo ∈ get_dependency_combinations registry dependencies ↔
    dependencies ≠ [] ∧
    Forall2 (λ id dependency, is_Some (lookup_item registry (dep_foreign_type dependency) id)) combo dependencies.
Proof.
  intros W. assert (∀ t id, id ∈ item_id <$> get_all_items registry t ↔ is_Some (lookup_item registry t id)) as Hin.
  { intros t id. rewrite lookup_get_or_create. unfold get_all_items. rewrite list_elem_of_fmap. split.
    - intros (x & -> & ([k y] & -> & E%elem_of_map_to_list)%list_elem_of_fmap). simpl.
      apply (get_or_create_ok registry t k y W) in E as H. destruct H as [_ ->]. by exists y.
    - intros [x E]. exists x. pose proof (get_or_create_ok registry t id x W E) as [_ Ei]. split; [done|].
      apply list_elem_of_fmap. exists (id, x). split; [done|]. by apply elem_of_map_to_list. }
  unfold get_dependency_combinations. destruct dependencies as [|dependency dependencies]; [split; [constructor|]; intros combo; rewrite elem_of_nil; naive_solver|].
  set (sets := (λ dep, item_id <$> get_all_items registry (dep_foreign_type dep)) <$> dependency :: dependencies).
  change (cartesian_product sets) with (foldl extend_combinations [[]] sets). split.
  - apply combinations_NoDup; [apply NoDup_singleton|]. apply Forall_fmap, Forall_forall. intros dep _. by apply NoDup_all_items.
  - intros combo. rewrite elem_of_combinations. setoid_rewrite list_elem_of_singleton.
    assert (∀ rest, Forall2 (∈) rest sets ↔
      Forall2 (λ id dep, is_Some (lookup_item registry (dep_foreign_type dep) id)) rest (dependency :: dependencies)) as E.
    { intros rest. unfold sets. rewrite Forall2_fmap_r. split; intros F; (eapply Forall2_impl; [exact F|]); intros id dep; apply Hin. }
    split.
    + intros (existing & rest & -> & -> & F). split; [done|]. by apply E.
    + intros [_ F]. exists [], combo. split_and!; [done..|]. by apply E.
Qed.

(** Two sessions and one scene. *)
Lemma dependency_combinations_are_the_tuples_witness :
  let registry := foldl store_insert ∅ [Rx.session "s1"; Rx.session "s2"; Rx.scene "c" []] in
  let dependencies := [mkDependency "Session" (Rx.field 0); mkDependency "Scene" (Rx.field 1)] in
  registry_ok registry ∧
  (NoDup (get_dependency_combinations registry dependencies) ∧
   ∀ combo, combo ∈ get_dependency_combinations registry dependencies ↔
     dependencies ≠ [] ∧
     Forall2 (λ id dependency, is_Some (lookup_item registry (dep_foreign_type dependency) id)) combo dependencies).
Proof.
  intros registry dependencies. assert (registry_ok registry) as W by (repeat apply store_insert_ok; apply empty_registry_ok).
  split; [exact W|]. exact (dependency_combinations_are_the_tuples registry dependencies W).
Defined.

(** While the index of a [belongs_to] relation is in line with the stores, or not
    loaded yet, the children found for a parent are exactly those a scan of the child store
    finds, each once, and the index is loaded and in line afterwards. *)
Theorem belongs_to_children_are_those_of_a_scan {P} registry (lookup : BelongsToLookup P) parent (rm : RelationshipManager P) :
  registry_ok registry → index_ok lookup registry rm →
  let '(rm', children) := find_children_by_fk registry lookup parent rm in
  indexes lookup (fks_of lookup registry) rm' ∧ NoDup children ∧
  ∀ x, x ∈ children ↔ lookup_item registry (bt_local_type lookup) (item_id x) = Some x ∧ bt_extract_fk lookup x = Some parent.
Proof. apply find_children_spec. Qed.

(** The children of the root folder, found with an index that is not loaded yet. *)
Lemma belongs_to_children_are_those_of_a_scan_witness :
  let registry := foldl store_insert ∅ [Rx.folder "r" ""; Rx.folder "a" "r"; Rx.folder "b" "r"] in
  let lookup := mkBelongsTo 1 "Folder" "Folder" (Rx.field 0) in
  registry_ok registry ∧
  let '(rm', children) := find_children_by_fk registry lookup "r" Rx.manager in
  indexes lookup (fks_of lookup registry) rm' ∧ NoDup children ∧
  ∀ x, x ∈ children ↔ lookup_item registry (bt_local_type lookup) (item_id x) = Some x ∧ bt_extract_fk lookup x = Some "r".
Proof.
  intros registry lookup. assert (registry_ok registry) as W by (repeat apply store_insert_ok; apply empty_registry_ok).
  split; [exact W|]. apply (belongs_to_children_are_those_of_a_scan registry lookup "r" Rx.manager W). left. vm_compute. reflexivity.
Defined.

(** C14: Forwarding a committed batch of one type brings every registered [belongs_to] index
    in line again: if the indexes were in line with the stores before the batch, then after
    the batch is reduced and forwarded with success inside a causal root, cascades and
    ensured entities included, they are in line with the stores after it. *)
Theorem forwarding_keeps_the_belongs_to_indexes {P CB J} (env : Env P J) fuel steps t items change (s s' : Ctx P CB J) :
  lookups_ok (rm_tables (ctx_rel s)) → registry_ok (ctx_registry s) → is_Some (ctx_causal s) → belongs_to_ok s →
  (∀ x, x ∈ items → item_type x = t) →
  forward_batch env (submit_mutation env (S fuel) steps) items change
    (set_registry (run_ops (ctx_registry s) (ops_of change items)) s) = Some (s', Ok ()) →
  belongs_to_ok s'.
Proof. intros Ht W Hc B Hi E. by apply (forward_belongs_to_ok env fuel steps t items change s s'). Qed.

(** Deleting the root folder, whose children are then queued for deletion. *)
Lemma forwarding_keeps_the_belongs_to_indexes_witness :
  let s := set_causal (Some (mkCausal "tx" [] ∅ 0 (Some 0%Z) (Some Authoritative) []))
             (Rx.ctx_of [Rx.folder "r" ""; Rx.folder "a" "r"; Rx.folder "b" "r"]) in
  ∃ s', forward_batch Rx.env (submit_mutation Rx.env 3 10) [Rx.folder "r" ""] DEL
      (set_registry (run_ops (ctx_registry s) (ops_of DEL [Rx.folder "r" ""])) s) = Some (s', Ok ()) ∧
    belongs_to_ok s'.
Proof.
  intros s.
  destruct (succeeds_run (forward_batch Rx.env (submit_mutation Rx.env 3 10) [Rx.folder "r" ""] DEL)
    (set_registry (run_ops (ctx_registry s) (ops_of DEL [Rx.folder "r" ""])) s)) as (s' & [] & E); [vm_compute; reflexivity|].
  exists s'. split; [exact E|].
  apply (forwarding_keeps_the_belongs_to_indexes Rx.env 2 10 "Folder" [Rx.folder "r" ""] DEL s s').
  - apply (registered_lookups Rx.relations). reflexivity.
  - unfold s. repeat apply store_insert_ok. apply empty_registry_ok.
  - by eexists.
  - intros lookup Hl. left. apply lookup_empty.
  - intros x [->|[]%elem_of_nil]%elem_of_cons. reflexivity.
  - exact E.
Defined.

(** C15: Building a relationship manager always ends; it fails exactly when some entity type
    is, through a chain of [ensure_for] relations, ensured for itself, and otherwise holds
    the tables of the relations and nothing else. *)
Theorem manager_rejects_exactly_cyclic_schemas {P} (relations : list (Relation P)) :
  ∃ r, manager_new relations = Some r ∧
    match r with
    | Ok rm => rm = mkManager (foldl register tables_default relations) ∅ ∅ ∅ ∧ ∀ t, ¬ tc (ensures relations) t t
    | Err _ => ∃ t, tc (ensures relations) t t
    end.
Proof. apply manager_new_spec. Qed.

(** * Where the pipeline departs from its contract

    Concrete runs, at the contexts of [ServerFixtures], in which the stores, the graph's
    projections or the relationship indexes end up out of line although every call
    succeeds, or an accepted request is refused midway.  They mark the hypotheses of the
    general theorems that cannot be dropped. *)

(** ** Observations *)
Section observe.
Context {P CB J : Type}.

(** Whether a run succeeds, its message when it fails, and the state it leaves. *)
Definition ran {A} (m : M P CB J A) (s : Ctx P CB J) : bool := match m s with Some (_, Ok _) => true | _ => false end.
Definition failure {A} (m : M P CB J A) (s : Ctx P CB J) : option string :=
  match m s with Some (_, Err e) => Some (pe_message e) | _ => None end.
Definition after {A} (m : M P CB J A) (s : Ctx P CB J) : Ctx P CB J := match m s with Some (s', _) => s' | None => s end.

(** The ids stored under a type, and one item. *)
Definition stored_ids (t : string) (s : Ctx P CB J) : list string := (map_to_list (get_or_create (ctx_registry s) t)).*1.
Definition stored (t id : string) (s : Ctx P CB J) : option (Item P) := lookup_item (ctx_registry s) t id.
End observe.

(** The [Link]s the index of [Gx] lists at the first end of a node. *)
Definition links_at (id : string) (s : Ctx Fx.Payload nat (Item Fx.Payload)) : list string :=
  (edge_ids_at Fx.graph (ctx_gstate s) (ctx_registry s) ∅ "Link" PosA (Fx.at_node id)).2.
Definition link (id a b : string) : Item Fx.Payload := Fx.edge "Link" id a b.

(** ** The graph *)

(** A batch that sets two versions of one new edge is accepted, and leaves the index
    listing the first version's endpoint, which no stored edge has; deleting the edge does
    not remove it. *)
Theorem repeated_id_leaves_a_phantom_edge :
  let set := set_batch_any Gx.env 3 10 [link "l7" "n2" "n1"; link "l7" "n3" "n1"] in
  let del := del_dyn Gx.env 3 10 (link "l7" "n3" "n1") in
  let s1 := after set Gx.ctx in
  let s2 := after del s1 in
  ran set Gx.ctx = true ∧ stored "Link" "l7" s1 = Some (link "l7" "n3" "n1") ∧
  links_at "n2" s1 = ["l2"; "l7"] ∧ links_at "n3" s1 = ["l7"] ∧
  ran del s1 = true ∧ stored "Link" "l7" s2 = None ∧ links_at "n2" s2 = ["l2"; "l7"].
Proof. vm_compute. repeat split. Qed.

(** Deleting an edge with [del_by_id] removes it from its store but not from the graph's
    projections: its endpoint still lists it, and its pair stays occupied, so an edge over
    the same pair is rejected. *)
Theorem delete_by_id_leaves_the_projections :
  let del := del_by_id Gx.env "Link" "l1" in
  let s := after del Gx.ctx in
  ran del Gx.ctx = true ∧ stored "Link" "l1" s = None ∧ links_at "n1" s = ["l1"; "l3"] ∧
  failure (set_dyn Gx.env 3 10 (link "l9" "n1" "n2")) s =
    Some "graph mutation rejected: Link pair is already occupied by edge l1".
Proof. vm_compute. repeat split. Qed.

(** ** Relationships *)

(** Deleting two parts of a scene in one batch leaves the scene listing one of them:
    each deleted part queues a version of the scene without itself, made from the same
    stored scene, and the last version wins. *)
Theorem owner_of_two_deleted_children_keeps_one :
  let del := del_batch_any Rx.env 3 10 [Rx.part "p1"; Rx.part "p2"] in
  let s0 := Rx.ctx_of [Rx.part "p1"; Rx.part "p2"; Rx.part "p3"; Rx.scene "s" ["p1"; "p2"; "p3"]] in
  ran del s0 = true ∧ stored_ids "Part" (after del s0) = ["p3"] ∧
  stored "Scene" "s" (after del s0) = Some (Rx.scene "s" ["p1"; "p3"]).
Proof. vm_compute. repeat split. Qed.

(** A transient set of a child does not update the [belongs_to] index: a folder moved that
    way from [r] to [q] is not deleted with [q], and is deleted with [r]. *)
Lemma transient_move_is_not_indexed :
  let s0 := after (set_dyn Rx.env 3 10 (Rx.folder "x" "r")) (Rx.ctx_of [Rx.folder "r" ""; Rx.folder "q" ""]) in
  let s1 := after (set_transient Rx.env 3 10 (Rx.folder "x" "q")) s0 in
  stored "Folder" "x" s1 = Some (Rx.folder "x" "q") ∧
  stored_ids "Folder" (after (del_dyn Rx.env 3 10 (Rx.folder "q" "")) s1) = ["r"; "x"] ∧
  stored_ids "Folder" (after (del_dyn Rx.env 3 10 (Rx.folder "r" "")) s1) = ["q"].
Proof. vm_compute. repeat split. Qed.

(** ** Ingest *)

Definition event (change : MEventType) (item : Item Fx.Payload) : MEvent (Item Fx.Payload) :=
  mkMEvent (item_type item) change item.

(** An ingested batch applies all its sets before all its deletions: an item deleted and
    then set again ends up deleted. *)
Lemma deleted_then_set_ends_deleted :
  let m := apply_event_batch Gx.env 3 10 [event DEL (Fx.node "n4"); event SET (Fx.node "n4")] in
  let single := _ ← apply_event Gx.env 3 10 (event DEL (Fx.node "n4")); apply_event Gx.env 3 10 (event SET (Fx.node "n4")) in
  ran m Gx.ctx = true ∧ stored "Node" "n4" (after m Gx.ctx) = None ∧
  ran single Gx.ctx = true ∧ stored "Node" "n4" (after single Gx.ctx) = Some (Fx.node "n4").
Proof. vm_compute. repeat split. Qed.

(** ** Failures midway *)

(** A persister that refuses the edge [l8]. *)
Definition refusing : Persister Fx.Payload := λ _ event,
  if bool_decide (item_id (ev_item event) = "l8") then Err (mkPersistError "Link" "disk full") else Ok ().
Definition refusing_env := env_fx (P := Fx.Payload) refusing.

(** When the persister refuses one item of a batch, the call fails with all the items in
    their stores, the items before it in the projections, and those after it in neither the
    projections nor the persisted events. *)
Lemma refused_batch_is_half_applied :
  let m := set_batch_any refusing_env 3 10 [link "l7" "n2" "n1"; link "l8" "n3" "n1"; link "l9" "n3" "n2"] in
  let s := after m Gx.ctx in
  failure m Gx.ctx = Some "disk full" ∧
  stored "Link" "l9" s = Some (link "l9" "n3" "n2") ∧ stored "Link" "l8" s = Some (link "l8" "n3" "n1") ∧
  links_at "n2" s = ["l2"; "l7"] ∧ links_at "n3" s = ["l8"] ∧
  (λ e, item_id (ev_item e)) <$> ctx_persisted s = ["l7"].
Proof. vm_compute. repeat split. Qed.

(** Deleting an edge that is not stored is refused. *)
Lemma deleting_an_unknown_edge_is_refused :
  failure (del_dyn Gx.env 3 10 (link "l9" "n1" "n2")) Gx.ctx = Some "graph mutation rejected: graph mutation has no canonical item".
Proof. vm_compute. reflexivity. Qed.

(** A batch that deletes a node and, under another payload than the stored one, an edge that
    cascades from the node, fails when the cascade deletes that edge again: the node is gone
    and its other edge stays. *)
Lemma deleting_a_cascaded_edge_again_fails :
  let m := del_batch_any Gx.env 3 10 [Fx.node "n1"; link "l1" "n1" "n4"] in
  let s := after m Gx.ctx in
  failure m Gx.ctx = Some "graph mutation rejected: graph mutation has no canonical item" ∧
  stored "Node" "n1" s = None ∧ stored "Link" "l3" s = Some (link "l3" "n1" "n3") ∧ links_at "n1" s = ["l3"].
Proof. vm_compute. repeat split. Qed.
