(* ===== verification/Filter.v ===== *)
(** * Field filters of advanced queries ([core/query/filter.rs])

    Each field type has the filters that are meaningful for it: exact match and membership
    for ids and opaque values, ranges for numbers, substrings and prefixes for strings, bare
    equality for booleans.  [matches] tests a value, [canonicalize] gives the form under which
    queries are cached.  The second part is the wire format: a bare value stands for exact
    match and every other operator is an object with one [$]-sigilled key.

    The numeric filter is modelled at the types whose comparison is total: the integers and
    the ordered floats; a [NaN] has no place in any order the code could use. *)

From Stdlib Require Import Sorting.Sorted.
From stdpp Require Import base strings numbers option gmap sets list.
From S2P Require Import Prelude Order.

(** A filter that can test whether a value of type [T] matches. *)
Class Filter (F T : Type) := matches : F → T → bool.
(** A filter with a canonical form. *)
Class CanonicalFilter (F : Type) := canonicalize : F → F.

(** ** Value sets *)

Section values.
Context {T : Type} `{Cmp T}.

(** [<[T]>::sort], stable. *)
Fixpoint sort_insert (x : T) (l : list T) : list T :=
  match l with
  | [] => [x]
  | y :: l' => match cmp x y with Gt => y :: sort_insert x l' | _ => x :: y :: l' end
  end.
Definition sort (l : list T) : list T := foldr sort_insert [] l.

(** [Vec::dedup]: drops each element that equals the one kept before it. *)
Fixpoint dedup (l : list T) : list T :=
  match l with
  | x :: ((y :: _) as l') => match cmp x y with Eq => dedup l' | _ => x :: dedup l' end
  | _ => l
  end.

Definition canonical_in_values (values : list T) : list T := dedup (sort values).

(** The same with [sort_by] on [partial_cmp] and [dedup_by] on [==]. *)
Definition canonical_in_values_partial (values : list T) : list T := dedup (sort values).
End values.

(** Membership test for [In] filters: a linear scan. *)
Definition in_matches {T} `{EqDecision T} (values : list T) (value : T) : bool :=
  existsb (λ v, bool_decide (v = value)) values.

(** ** Filters *)

Inductive IdFilter (T : Type) := IdEq (value : T) | IdIn (values : list T).
Arguments IdEq {T} value.
Arguments IdIn {T} values.

Definition key_values {T} (f : IdFilter T) : list T :=
  match f with IdEq value => [value] | IdIn values => values end.

#[export] Instance id_filter_canonicalize {T} `{Cmp T} : CanonicalFilter (IdFilter T) := λ f,
  match f with
  | IdIn values =>
      match canonical_in_values values with
      | [only] => IdEq only
      | values => IdIn values
      end
  | IdEq value => IdEq value
  end.

#[export] Instance id_filter_matches {T} `{EqDecision T} : Filter (IdFilter T) T := λ f value,
  match f with
  | IdEq expected => bool_decide (value = expected)
  | IdIn values => in_matches values value
  end.

Inductive NumericFilter (T : Type) :=
| NumEq (value : T)
| NumIn (values : list T)
| NumRange (min max : option T).
Arguments NumEq {T} value.
Arguments NumIn {T} values.
Arguments NumRange {T} min max.

#[export] Instance numeric_filter_canonicalize {T} `{Cmp T, EqDecision T} : CanonicalFilter (NumericFilter T) := λ f,
  match f with
  | NumIn values =>
      match canonical_in_values_partial values with
      | [only] => NumEq only
      | values => NumIn values
      end
  | NumRange (Some a) (Some b) => if decide (a = b) then NumEq a else NumRange (Some a) (Some b)
  | NumEq value => NumEq value
  | NumRange min max => NumRange min max
  end.

(** [>=] and [<=] of [PartialOrd]. *)
Definition ge {T} `{Cmp T} (x y : T) : bool := match cmp x y with Lt => false | _ => true end.
Definition le {T} `{Cmp T} (x y : T) : bool := match cmp x y with Gt => false | _ => true end.

(** [Option::is_none_or]. *)
Definition is_none_or {A} (o : option A) (p : A → bool) : bool :=
  match o with Some a => p a | None => true end.

#[export] Instance numeric_filter_matches {T} `{Cmp T, EqDecision T} : Filter (NumericFilter T) T := λ f value,
  match f with
  | NumEq expected => bool_decide (value = expected)
  | NumIn values => existsb (λ v, bool_decide (v = value)) values
  | NumRange min max => is_none_or min (λ min, ge value min) && is_none_or max (λ max, le value max)
  end.

Inductive StringFilter :=
| StrEq (value : string)
| StrIn (values : list string)
| StrContains (needle : string)
| StrStartsWith (prefix : string).

#[export] Instance string_filter_canonicalize : CanonicalFilter StringFilter := λ f,
  match f with
  | StrIn values =>
      match canonical_in_values values with
      | [only] => StrEq only
      | values => StrIn values
      end
  | StrEq value => StrEq value
  | StrContains value => StrContains value
  | StrStartsWith value => StrStartsWith value
  end.

#[export] Instance string_filter_matches : Filter StringFilter string := λ f value,
  match f with
  | StrEq expected => bool_decide (value = expected)
  | StrIn values => in_matches values value
  | StrContains needle => str_contains needle value
  | StrStartsWith prefix => String.prefix prefix value
  end.

#[export] Instance bool_filter_matches : Filter bool bool := λ f value, eqb f value.
#[export] Instance bool_filter_canonicalize : CanonicalFilter bool := λ f, f.

Inductive EqFilter (T : Type) := EqEq (value : T) | EqIn (values : list T).
Arguments EqEq {T} value.
Arguments EqIn {T} values.

#[export] Instance eq_filter_canonicalize {T} `{Cmp T} : CanonicalFilter (EqFilter T) := λ f,
  match f with
  | EqIn values =>
      match canonical_in_values values with
      | [only] => EqEq only
      | values => EqIn values
      end
  | EqEq value => EqEq value
  end.

#[export] Instance eq_filter_matches {T} `{EqDecision T} : Filter (EqFilter T) T := λ f value,
  match f with
  | EqEq expected => bool_decide (value = expected)
  | EqIn values => existsb (λ v, bool_decide (v = value)) values
  end.

(** The filter type of a payload without meaningful equality: no value has one. *)
Inductive Unfilterable : Type := .
#[export] Instance unfilterable_matches {T} : Filter Unfilterable T := λ _ _, false.
#[export] Instance unfilterable_canonicalize : CanonicalFilter Unfilterable := λ f, match f with end.

(** ** Wire format

    A self-describing format, JSON or CBOR, is a type of values with sequences and maps; the
    deserializers are those that [serde] derives for the types of [wire_serde]: an enum whose
    variants are keys of one-entry maps, an untagged choice, and a struct of two optional
    fields that default to absent. *)
Class SelfDescribing (V : Type) := {
  is_null : V → bool;
  fmt_seq : list V → V;
  fmt_map : list (string * V) → V;
  de_seq {X} : (V → option X) → V → option (list X);
  de_enum {X} : list (string * (V → option X)) → V → option X;
  de_untagged {X} : list (V → option X) → V → option X;
  de_bounds {X} : string → string → (V → option X) → V → option (option X * option X)
}.

(** What [Option] makes of a field: absent and null are [None]. *)
Definition field_spec {V X} `{SelfDescribing V} (de : V → option X) (o : option V) : option (option X) :=
  match o with
  | None => Some None
  | Some v => if is_null v then Some None else Some <$> de v
  end.

Class SelfDescribingLaws (V : Type) `{SelfDescribing V} : Prop := {
  de_seq_seq {X} (de : V → option X) vs : de_seq de (fmt_seq vs) = mapM de vs;
  de_enum_tag {X} (variants : list (string * (V → option X))) k d v :
    NoDup variants.*1 → (k, d) ∈ variants → de_enum variants (fmt_map [(k, v)]) = d v;
  de_enum_other {X} (variants : list (string * (V → option X))) v :
    (∀ k w, k ∈ variants.*1 → v ≠ fmt_map [(k, w)]) → de_enum variants v = None;
  de_untagged_nil {X} v : de_untagged (X:=X) [] v = None;
  de_untagged_cons {X} (d : V → option X) ds v :
    de_untagged (d :: ds) v = match d v with Some x => Some x | None => de_untagged ds v end;
  de_bounds_map {X} k1 k2 (de : V → option X) entries :
    NoDup entries.*1 →
    de_bounds k1 k2 de (fmt_map entries) =
      (x ← field_spec de (list_to_map (M:=gmap string V) entries !! k1);
       y ← field_spec de (list_to_map (M:=gmap string V) entries !! k2);
       Some (x, y))
}.

(** A value type with its [Serialize] and [Deserialize]. *)
Class Wire (V X : Type) := { to_wire : X → V; of_wire : V → option X }.

(** What the format relies on: values round-trip, are not null, and are never an object with
    one [$]-sigilled key. *)
Class WireLaws (V X : Type) `{SelfDescribing V, Wire V X} : Prop := {
  of_to_wire (x : X) : of_wire (to_wire x) = Some x;
  to_wire_not_null (x : X) : is_null (to_wire x) = false;
  to_wire_not_sigilled (x : X) k w : String.prefix "$" k = true → to_wire x ≠ fmt_map [(k, w)]
}.

Section wire.
Context {V : Type} `{SelfDescribing V}.

Definition serialize_op (key : string) (value : V) : V := fmt_map [(key, value)].

Definition serialize_seq {T} `{Wire V T} (vs : list T) : V := fmt_seq (to_wire <$> vs).
Definition deserialize_seq {T} `{Wire V T} (v : V) : option (list T) := de_seq of_wire v.

Definition serialize_id {T} `{Wire V T} (f : IdFilter T) : V :=
  match f with IdEq v => to_wire v | IdIn vs => serialize_op "$in" (serialize_seq vs) end.
Definition deserialize_id {T} `{Wire V T} (v : V) : option (IdFilter T) :=
  de_untagged
    [de_enum [("$in", λ v, IdIn <$> deserialize_seq v)];
     λ v, IdEq <$> of_wire v] v.

Definition serialize_eq {T} `{Wire V T} (f : EqFilter T) : V :=
  match f with EqEq v => to_wire v | EqIn vs => serialize_op "$in" (serialize_seq vs) end.
Definition deserialize_eq {T} `{Wire V T} (v : V) : option (EqFilter T) :=
  de_untagged
    [de_enum [("$in", λ v, EqIn <$> deserialize_seq v)];
     λ v, EqEq <$> of_wire v] v.

Definition serialize_string `{Wire V string} (f : StringFilter) : V :=
  match f with
  | StrEq v => to_wire v
  | StrIn vs => serialize_op "$in" (serialize_seq vs)
  | StrContains v => serialize_op "$contains" (to_wire v)
  | StrStartsWith v => serialize_op "$startsWith" (to_wire v)
  end.
Definition deserialize_string `{Wire V string} (v : V) : option StringFilter :=
  de_untagged
    [de_enum [("$in", λ v, StrIn <$> deserialize_seq v);
              ("$contains", λ v, StrContains <$> of_wire v);
              ("$startsWith", λ v, StrStartsWith <$> of_wire v)];
     λ v, StrEq <$> of_wire v] v.

(** A bound is an entry of the map when it is set. *)
Definition serialize_bounds {T} `{Wire V T} (min max : option T) : V :=
  fmt_map (match min with Some v => [("min", to_wire v)] | None => [] end
        ++ match max with Some v => [("max", to_wire v)] | None => [] end).

Definition serialize_numeric {T} `{Wire V T} (f : NumericFilter T) : V :=
  match f with
  | NumEq v => to_wire v
  | NumIn vs => serialize_op "$in" (serialize_seq vs)
  | NumRange min max => serialize_op "$range" (serialize_bounds min max)
  end.
Definition deserialize_numeric {T} `{Wire V T} (v : V) : option (NumericFilter T) :=
  de_untagged
    [de_enum [("$in", λ v, NumIn <$> deserialize_seq v);
              ("$range", λ v, (λ b, NumRange b.1 b.2) <$> de_bounds "min" "max" of_wire v)];
     λ v, NumEq <$> of_wire v] v.
End wire.

(** ** Canonical value sets *)

Section canonical.
Context {T : Type} `{TotalOrd T} `{!EqDecision T}.
Implicit Types (x y : T) (l values : list T).

(** Weakly increasing lists. *)
Definition cmp_le x y : Prop := cmp x y ≠ Gt.

Lemma elem_of_sort_insert y x l : y ∈ sort_insert x l ↔ y = x ∨ y ∈ l.
Proof.
  induction l as [|z l IH]; simpl; [rewrite list_elem_of_singleton, elem_of_nil; naive_solver|].
  destruct (cmp x z); rewrite ?elem_of_cons, ?IH; naive_solver.
Qed.

Lemma elem_of_sort y l : y ∈ sort l ↔ y ∈ l.
Proof. induction l as [|x l IH]; simpl; [done|]. by rewrite elem_of_sort_insert, IH, elem_of_cons. Qed.

Lemma cmp_le_trans x y z : cmp_le x y → cmp_le y z → cmp_le x z.
Proof.
  unfold cmp_le. destruct (cmp_spec x y) as [->|L|L]; [done| |done]. intros _.
  destruct (cmp_spec y z) as [->|L'|L']; [by rewrite L| |done]. intros _.
  by rewrite (cmp_lt_trans _ _ _ L L').
Qed.

Lemma sort_sorted l : StronglySorted cmp_le (sort l).
Proof.
  induction l as [|x l IH]; simpl; [constructor|].
  induction (sort l) as [|y k IHk]; simpl; [repeat constructor|].
  apply StronglySorted_inv in IH as [Sk F]. destruct (cmp x y) eqn:E.
  1,2: constructor; [by constructor|]; constructor; [unfold cmp_le; congruence|];
    eapply Forall_impl; [exact F|]; intros z Hz; eapply cmp_le_trans; [|exact Hz]; unfold cmp_le; congruence.
  constructor; [by apply IHk|]. apply Forall_forall. intros z [->|Hz]%elem_of_sort_insert.
  - unfold cmp_le. rewrite (cmp_opp x y), E. done.
  - rewrite Forall_forall in F. by apply F.
Qed.

Lemma dedup_cons2 x z l :
  dedup (x :: z :: l) = match cmp x z with Eq => dedup (z :: l) | _ => x :: dedup (z :: l) end.
Proof. done. Qed.

Lemma elem_of_dedup y l : y ∈ dedup l ↔ y ∈ l.
Proof.
  induction l as [|x [|z l] IH]; [done..|]. rewrite dedup_cons2. destruct (cmp_spec x z) as [->|L|L].
  - rewrite IH, !elem_of_cons. naive_solver.
  - by rewrite elem_of_cons, IH, <-elem_of_cons.
  - by rewrite elem_of_cons, IH, <-elem_of_cons.
Qed.

Lemma dedup_sorted l : StronglySorted cmp_le l → sorted (dedup l).
Proof.
  induction l as [|x [|z l] IH]; intros S; [constructor|repeat constructor|].
  apply StronglySorted_inv in S as [S F]. rewrite dedup_cons2.
  destruct (cmp_spec x z) as [->|L|L]; [by apply IH| |].
  - apply sorted_cons. split; [by apply IH|]. intros y Hy. apply (proj1 (elem_of_dedup _ _)) in Hy.
    apply elem_of_cons in Hy as [Hy|Hy]; [by subst|]. apply StronglySorted_inv in S as [_ Fz].
    rewrite Forall_forall in Fz. specialize (Fz y Hy). unfold cmp_le in Fz.
    destruct (cmp_spec z y) as [E|L'|L']; [by subst|by eapply cmp_lt_trans|done].
  - exfalso. rewrite Forall_forall in F. specialize (F z (list_elem_of_here _ _)). apply F. by apply cmp_gt_lt.
Qed.

(** Sorting and removing neighbours that are equal gives the set of the values. *)
Lemma canonical_in_values_set values : canonical_in_values values = bt_of_list values.
Proof.
  apply sorted_ext; [apply dedup_sorted, sort_sorted|apply bt_of_list_sorted|].
  intros x. unfold canonical_in_values. by rewrite elem_of_dedup, elem_of_sort, elem_of_bt_of_list.
Qed.

Lemma bt_of_list_idem values : bt_of_list (bt_of_list values) = bt_of_list values.
Proof. apply bt_of_list_sorted_id, bt_of_list_sorted. Qed.

Lemma bt_of_list_ext l k : (∀ x, x ∈ l ↔ x ∈ k) → bt_of_list l = bt_of_list k.
Proof.
  intros E. apply sorted_ext; [apply bt_of_list_sorted..|]. intros x. by rewrite !elem_of_bt_of_list.
Qed.

Lemma in_matches_elem values x : in_matches values x = true ↔ x ∈ values.
Proof.
  unfold in_matches. rewrite existsb_exists. setoid_rewrite bool_decide_eq_true.
  split; [by intros (y & ?%list_elem_of_In & ->)|]. intros ?%list_elem_of_In. eauto.
Qed.

Lemma in_matches_canonical values x : in_matches (bt_of_list values) x = in_matches values x.
Proof. apply eq_bool_prop_intro. rewrite !Is_true_true, !in_matches_elem. apply elem_of_bt_of_list. Qed.
End canonical.
