(* ===== verification/FilterTheorems.v ===== *)
(** * What the filters promise

    The canonical form of a filter matches the same values, identifies exactly the equivalent
    set filters, and survives the wire. *)

From stdpp Require Import base strings numbers option gmap sets list.
From S2P Require Import Prelude Order Filter.

(** ** Canonical forms *)

Section forms.
Context {T : Type} `{TotalOrd T} `{!EqDecision T}.

(** The common form of [In] filters: one value collapses to exact match. *)
Definition id_of_set (values : list T) : IdFilter T :=
  match values with [only] => IdEq only | values => IdIn values end.
Definition eq_of_set (values : list T) : EqFilter T :=
  match values with [only] => EqEq only | values => EqIn values end.
Definition eq_values (f : EqFilter T) : list T :=
  match f with EqEq value => [value] | EqIn values => values end.

Lemma canonicalize_id (f : IdFilter T) : canonicalize f = id_of_set (bt_of_list (key_values f)).
Proof.
  destruct f as [v|vs]; [done|]. unfold canonicalize, id_filter_canonicalize.
  rewrite canonical_in_values_set. change (key_values (IdIn vs)) with vs. by destruct (bt_of_list vs) as [|? [|??]].
Qed.

Lemma canonicalize_eq (f : EqFilter T) : canonicalize f = eq_of_set (bt_of_list (eq_values f)).
Proof.
  destruct f as [v|vs]; [done|]. unfold canonicalize, eq_filter_canonicalize.
  rewrite canonical_in_values_set. change (eq_values (EqIn vs)) with vs. by destruct (bt_of_list vs) as [|? [|??]].
Qed.

Lemma id_of_set_inj (l k : list T) : id_of_set l = id_of_set k → l = k.
Proof. destruct l as [|x [|y l]], k as [|x' [|y' k]]; simpl; congruence. Qed.

Lemma eq_of_set_inj (l k : list T) : eq_of_set l = eq_of_set k → l = k.
Proof. destruct l as [|x [|y l]], k as [|x' [|y' k]]; simpl; congruence. Qed.

Lemma matches_id (f : IdFilter T) v : matches f v = true ↔ v ∈ key_values f.
Proof.
  destruct f as [x|xs]; [|by apply in_matches_elem].
  unfold matches, id_filter_matches. simpl. by rewrite bool_decide_eq_true, list_elem_of_singleton.
Qed.

Lemma matches_eq (f : EqFilter T) v : matches f v = true ↔ v ∈ eq_values f.
Proof.
  destruct f as [x|xs]; [|by apply in_matches_elem].
  unfold matches, eq_filter_matches. simpl. by rewrite bool_decide_eq_true, list_elem_of_singleton.
Qed.

(** Two sets of values have one canonical list exactly if they have the same members. *)
Lemma same_set (l k : list T) : bt_of_list l = bt_of_list k ↔ ∀ x, x ∈ l ↔ x ∈ k.
Proof.
  split; [|apply bt_of_list_ext]. intros E x. by rewrite <-(elem_of_bt_of_list x l), E, elem_of_bt_of_list.
Qed.

Lemma matches_canonical_set {F} (e : T → F) (i : list T → F) `{!Filter F T} values v :
  (∀ x, matches (e x) v = bool_decide (v = x)) → (∀ xs, matches (i xs) v = in_matches xs v) →
  matches (match canonical_in_values values with [only] => e only | values => i values end) v = in_matches values v.
Proof.
  intros He Hi. rewrite canonical_in_values_set, <-in_matches_canonical.
  destruct (bt_of_list values) as [|x [|y l]]; [by rewrite Hi| |by rewrite Hi].
  rewrite He. unfold in_matches. simpl. rewrite orb_false_r. by apply bool_decide_ext.
Qed.

Lemma canonical_set_idem {F} (e : T → F) (i : list T → F) `{!CanonicalFilter F} values :
  (∀ x, canonicalize (e x) = e x) →
  (∀ xs, canonicalize (i xs) = match canonical_in_values xs with [only] => e only | values => i values end) →
  canonicalize (canonicalize (i values)) = canonicalize (i values).
Proof.
  intros He Hi. rewrite Hi, canonical_in_values_set.
  assert (∀ l, bt_of_list l = l →
    canonicalize (match l with [only] => e only | values => i values end)
      = match l with [only] => e only | values => i values end) as Hl.
  { intros [|x [|y l]] El; [|by rewrite He|]; by rewrite Hi, canonical_in_values_set, El. }
  specialize (Hl _ (bt_of_list_idem values)). by destruct (bt_of_list values) as [|? [|??]].
Qed.
End forms.

(** C21: The canonical form decides equivalence: two id filters, or two filters of opaque
    values, are cached under one form exactly when they match the same values, whatever the
    order and the repetitions of their value sets. *)
Theorem canonical_form_decides_equivalence {T} `{TotalOrd T} `{!EqDecision T} :
  (∀ f g : IdFilter T, canonicalize f = canonicalize g ↔ ∀ v, matches f v = matches g v) ∧
  (∀ f g : EqFilter T, canonicalize f = canonicalize g ↔ ∀ v, matches f v = matches g v).
Proof.
  split; intros f g.
  - rewrite !canonicalize_id. transitivity (bt_of_list (key_values f) = bt_of_list (key_values g)).
    { split; [apply id_of_set_inj|congruence]. }
    rewrite same_set. setoid_rewrite eq_iff_eq_true. by setoid_rewrite matches_id.
  - rewrite !canonicalize_eq. transitivity (bt_of_list (eq_values f) = bt_of_list (eq_values g)).
    { split; [apply eq_of_set_inj|congruence]. }
    rewrite same_set. setoid_rewrite eq_iff_eq_true. by setoid_rewrite matches_eq.
Qed.

Lemma canonical_form_decides_equivalence_witness :
  (canonicalize (IdIn ["c"; "a"; "c"]) = canonicalize (IdIn ["a"; "c"])) ∧
  (∀ f g : IdFilter string, canonicalize f = canonicalize g ↔ ∀ v, matches f v = matches g v).
Proof. split; [reflexivity|]. exact (proj1 (canonical_form_decides_equivalence (T:=string))). Defined.

(** Canonical numeric and string filters match the same values as before, a collapsed
    range and a collapsed set included, and are canonical. *)
Theorem canonical_filters_match_the_same {T} `{TotalOrd T} `{!EqDecision T} (f : NumericFilter T) (s : StringFilter) :
  (∀ v, matches (canonicalize f) v = matches f v) ∧ canonicalize (canonicalize f) = canonicalize f ∧
  (∀ v, matches (canonicalize s) v = matches s v) ∧ canonicalize (canonicalize s) = canonicalize s.
Proof.
  split_and!.
  - intros v. destruct f as [x|xs|[a|] [b|]]; try done.
    + by apply (matches_canonical_set NumEq NumIn).
    + unfold canonicalize, numeric_filter_canonicalize. case_decide as E; [|done]. subst b.
      unfold matches, numeric_filter_matches. simpl. unfold ge, le.
      destruct (cmp_spec v a) as [->|L|L]; [by rewrite bool_decide_true| |]; simpl;
        rewrite bool_decide_false; try done; intros ->; by eapply cmp_lt_irrefl.
  - destruct f as [x|xs|[a|] [b|]]; try done.
    + by apply (canonical_set_idem NumEq NumIn).
    + unfold canonicalize, numeric_filter_canonicalize. case_decide; [done|]. by rewrite decide_False.
  - intros v. destruct s as [x|xs|n|p]; try done. by apply (matches_canonical_set StrEq StrIn).
  - destruct s as [x|xs|n|p]; try done. by apply (canonical_set_idem StrEq StrIn).
Qed.

Lemma canonical_filters_match_the_same_witness :
  canonicalize (NumRange (Some 3%Z) (Some 3%Z)) = NumEq 3%Z ∧
  ∀ v, matches (canonicalize (NumRange (Some 3%Z) (Some 3%Z))) v = matches (NumRange (Some 3%Z) (Some 3%Z)) v.
Proof.
  split; [reflexivity|]. exact (proj1 (canonical_filters_match_the_same (NumRange (Some 3%Z) (Some 3%Z)) (StrEq "a"))).
Defined.

(** ** The wire *)

Section wire_lemmas.
Context {V : Type} `{SelfDescribingLaws V}.

Lemma wire_seq {T} `{!Wire V T, !WireLaws V T} (vs : list T) : deserialize_seq (serialize_seq vs) = Some vs.
Proof.
  unfold deserialize_seq, serialize_seq. rewrite de_seq_seq.
  apply mapM_Some, Forall2_fmap_l, Forall_Forall2_diag, Forall_forall. intros v _. apply of_to_wire.
Qed.

(** An operator is read by its variant. *)
Lemma untagged_op {X} (variants : list (string * (V → option X))) bare k d v x :
  NoDup variants.*1 → (k, d) ∈ variants → d v = Some x →
  de_untagged [de_enum variants; bare] (serialize_op k v) = Some x.
Proof. intros ND Hk Hd. unfold serialize_op. by rewrite de_untagged_cons, (de_enum_tag variants k d v ND Hk), Hd. Qed.

(** A bare value is none of the operators. *)
Lemma untagged_bare {X T} `{!Wire V T, !WireLaws V T} (variants : list (string * (V → option X))) (bare : V → option X) (v : T) :
  forallb (String.prefix "$") variants.*1 = true →
  de_untagged [de_enum variants; bare] (to_wire v) = bare (to_wire v).
Proof.
  intros Hp. rewrite de_untagged_cons, de_enum_other.
  - rewrite de_untagged_cons. destruct (bare _); [done|]. by rewrite de_untagged_nil.
  - intros k w Hk. apply to_wire_not_sigilled. rewrite forallb_forall in Hp. by apply Hp, list_elem_of_In.
Qed.

Lemma keys_NoDup (ks : list string) : bool_decide (NoDup ks) = true → NoDup ks.
Proof. apply bool_decide_eq_true. Qed.

Lemma wire_bounds {T} `{!Wire V T, !WireLaws V T} (min max : option T) :
  de_bounds "min" "max" of_wire (serialize_bounds min max) = Some (min, max).
Proof.
  unfold serialize_bounds. rewrite de_bounds_map.
  - assert (∀ x : T, (if is_null (to_wire x) then Some None else Some <$> of_wire (to_wire x)) = Some (Some x)) as E.
    { intros x. by rewrite to_wire_not_null, of_to_wire. }
    destruct min, max; simpl; simplify_map_eq; simpl; by rewrite ?E.
  - by destruct min, max; apply keys_NoDup.
Qed.
End wire_lemmas.

(** C22: Every filter survives the wire, in any self-describing format: an exact match is sent
    as the bare value, every other operator under its sigilled key, and the untagged choice
    that reads them back finds the filter that was sent. *)
Theorem filters_round_trip {V} `{SelfDescribingLaws V} {T} `{!Wire V T, !Wire V string, !WireLaws V T, !WireLaws V string} :
  (∀ f : IdFilter T, deserialize_id (serialize_id f) = Some f) ∧
  (∀ f : EqFilter T, deserialize_eq (serialize_eq f) = Some f) ∧
  (∀ f : StringFilter, deserialize_string (serialize_string f) = Some f) ∧
  (∀ f : NumericFilter T, deserialize_numeric (serialize_numeric f) = Some f) ∧
  (∀ v : T, deserialize_id (to_wire v) = Some (IdEq v) ∧ deserialize_numeric (to_wire v) = Some (NumEq v)).
Proof.
  split_and!; [intros [v|vs]|intros [v|vs]|intros [v|vs|v|v]|intros [v|vs|mn mx]|intros v; split].
  all: try (etrans; [by apply untagged_bare|]; by rewrite of_to_wire).
  all: eapply untagged_op; [by apply keys_NoDup|repeat first [apply list_elem_of_here|apply list_elem_of_further]|]; cbn beta.
  all: by rewrite ?wire_seq, ?of_to_wire, ?wire_bounds.
Qed.

(** *** JSON values *)

Inductive Json :=
| JNull | JBool (b : bool) | JNumber (z : Z) | JString (s : string) | JArray (vs : list Json) | JObject (entries : list (string * Json)).


Definition json_enum {X} (variants : list (string * (Json → option X))) (v : Json) : option X :=
  match v with
  | JObject [(k, w)] => list_find (λ kd, kd.1 = k) variants ≫= λ kd, kd.2.2 w
  | _ => None
  end.

Definition json_untagged {X} (ds : list (Json → option X)) (v : Json) : option X :=
  foldr (λ d rest, match d v with Some x => Some x | None => rest end) None ds.

Definition json_field {X} (entries : list (string * Json)) (k : string) (de : Json → option X) : option (option X) :=
  match list_to_map (M:=gmap string Json) entries !! k with
  | None | Some JNull => Some None
  | Some v => Some <$> de v
  end.

#[export] Instance json_format : SelfDescribing Json := {|
  is_null v := match v with JNull => true | _ => false end;
  fmt_seq := JArray;
  fmt_map := JObject;
  de_seq X de v := match v with JArray vs => mapM de vs | _ => None end;
  de_enum X := json_enum;
  de_untagged X := json_untagged;
  de_bounds X k1 k2 de v :=
    match v with
    | JObject entries => x ← json_field entries k1 de; y ← json_field entries k2 de; Some (x, y)
    | _ => None
    end
|}.

Lemma json_find {X} (variants : list (string * (Json → option X))) k d :
  NoDup variants.*1 → (k, d) ∈ variants → ∃ i, list_find (λ kd, kd.1 = k) variants = Some (i, (k, d)).
Proof.
  induction variants as [|[k' d'] vs IH]; simpl; [by intros _ ?%elem_of_nil|].
  intros [Hk ND]%NoDup_cons [[= -> ->]|Hin]%elem_of_cons; [exists 0; by rewrite decide_True|].
  destruct (IH ND Hin) as [i E]. rewrite decide_False; [rewrite E; by exists (S i)|].
  intros ->. apply Hk. apply list_elem_of_fmap. by exists (k, d).
Qed.

#[export] Instance json_laws : SelfDescribingLaws Json.
Proof.
  split; try done.
  - intros X vs k d v ND Hin. simpl. by destruct (json_find vs k d ND Hin) as [i ->].
  - intros X vs [| | | | |[|[k w] [|]]] Hn; try done. simpl.
    destruct (list_find _ vs) as [[i [k' d]]|] eqn:E; [|done]. exfalso.
    apply list_find_Some in E as (Hi & Hk & _). simpl in Hk. subst k'.
    eapply (Hn k w); [|done]. apply list_elem_of_fmap. exists (k, d). split; [done|]. by eapply list_elem_of_lookup_2.
  - intros X k1 k2 de entries ND. simpl. unfold json_field, field_spec.
    destruct (list_to_map entries !! k1) as [[]|]; simpl; try done;
      destruct (list_to_map entries !! k2) as [[]|]; done.
Qed.

#[export] Instance json_number : Wire Json Z :=
  {| to_wire := JNumber; of_wire v := match v with JNumber z => Some z | _ => None end |}.
#[export] Instance json_string : Wire Json string :=
  {| to_wire := JString; of_wire v := match v with JString s => Some s | _ => None end |}.
#[export] Instance json_number_laws : WireLaws Json Z.
Proof. by split. Qed.
#[export] Instance json_string_laws : WireLaws Json string.
Proof. by split. Qed.

Lemma filters_round_trip_witness :
  serialize_numeric (NumRange (Some 1%Z) None) = JObject [("$range", JObject [("min", JNumber 1%Z)])] ∧
  deserialize_string (JObject [("$startsWith", JString "p")]) = Some (StrStartsWith "p") ∧
  ∀ f : NumericFilter Z, deserialize_numeric (serialize_numeric f) = Some f.
Proof.
  split_and!; [reflexivity..|]. intros f.
  destruct (filters_round_trip (V:=Json) (T:=Z)) as (_ & _ & _ & N & _). exact (N f).
Defined.
