(* ===== verification/ClientSession.v ===== *)
(** * Client sessions of the server ([server/client_session.rs])

    A session holds one entry per subscription.  A materialized query keeps the whole result
    and the page its client sees, and answers each diff of the source, and each change of the
    window, with the rows that changed; a pushed query answers each snapshot of a bounded
    source.  [PendingQueryResponse] is what the writer is given, and its conversion to the
    wire. *)

From stdpp Require Import base strings numbers option countable gmap sets list.
From S2P Require Import Prelude Order GraphTypes EdgeIds GraphWatch GraphWindow.

(** ** Responses *)

Record PendingQueryResponse (P : Type) := mkPending {
  pr_tx : string;
  pr_sequence : Z;
  pr_upsert_items : list (Item P);
  pr_deletes : list string;
  pr_total_count : Z;
  pr_window : option QueryWindow;
  pr_window_order_ids : option (list string)
}.
Arguments mkPending {P}.
Arguments pr_tx {P}. Arguments pr_sequence {P}. Arguments pr_upsert_items {P}.
Arguments pr_deletes {P}. Arguments pr_total_count {P}. Arguments pr_window {P}.
Arguments pr_window_order_ids {P}.

(** [wire/query.rs]: an item on the wire carries its type. *)
Record ErasedWrappedItem (P : Type) := mkErased { ew_item : Item P; ew_type : string }.
Arguments mkErased {P}. Arguments ew_item {P}. Arguments ew_type {P}.

Inductive QueryChange (P : Type) :=
| Upsert (item : ErasedWrappedItem P)
| Delete (id : string)
| WindowOrder (ids : list string) (total_count : Z) (window : option QueryWindow).
Arguments Upsert {P}. Arguments Delete {P}. Arguments WindowOrder {P}.

Record QueryResponse (P : Type) := mkResponse {
  qr_changes : list (QueryChange P);
  qr_deletes : list string;
  qr_upserts : list (ErasedWrappedItem P);
  qr_sequence : Z;
  qr_tx : string;
  qr_total_count : option Z;
  qr_window : option QueryWindow
}.
Arguments mkResponse {P}.
Arguments qr_changes {P}. Arguments qr_deletes {P}. Arguments qr_upserts {P}.
Arguments qr_sequence {P}. Arguments qr_tx {P}. Arguments qr_total_count {P}. Arguments qr_window {P}.

(** [PendingQueryResponse::into_wire]: only the order of a window travels among the changes. *)
Definition into_wire {P} (r : PendingQueryResponse P) : QueryResponse P :=
  mkResponse
    (match pr_window_order_ids r with
     | Some ids => [WindowOrder ids (pr_total_count r) (pr_window r)]
     | None => []
     end)
    (pr_deletes r) ((λ item, mkErased item (item_type item)) <$> pr_upsert_items r)
    (pr_sequence r) (pr_tx r) (Some (pr_total_count r)) (pr_window r).

(** ** Collections *)

(** [map.keys().cloned().collect()], then [sort_unstable]. *)
Definition sorted_keys {A} (m : gmap string A) : list string := bt_of_list (map_to_list m).*1.

(** [HashSet::into_iter().collect()], then [sort_unstable]. *)
Definition sorted_elements (s : gset string) : list string := bt_of_list (elements s).

(** [slice::partition_point]. *)
Fixpoint partition_point {A} (p : A → bool) (l : list A) : Z :=
  match l with
  | [] => 0
  | x :: l' => if p x then 1 + partition_point p l' else 0
  end.

(** [slice::get(start..end).unwrap_or_default()]. *)
Definition get_range {A} (first last : Z) (l : list A) : list A :=
  if ((first <=? last) && (last <=? len l))%Z then take_z (last - first) (skip_z first l) else [].

Definition contains_key {A} (m : gmap string A) (id : string) : bool := bool_decide (is_Some (m !! id)).

(** ** Materialized subscriptions *)

Record QuerySubscriptionState (P : Type) := mkSub {
  qs_sequence : Z;
  qs_window : option QueryWindow;
  qs_cursor_window : option QueryCursorWindow;
  qs_all_items : gmap string (Item P);
  qs_visible_items : gmap string (Item P)
}.
Arguments mkSub {P}.
Arguments qs_sequence {P}. Arguments qs_window {P}. Arguments qs_cursor_window {P}.
Arguments qs_all_items {P}. Arguments qs_visible_items {P}.

Section materialized.
Context {P : Type}.
Abbreviation State := (QuerySubscriptionState P).
Implicit Types (s : State) (diff : MapDiff (Item P)) (tx : string).

Definition sub_default (window : option QueryWindow) : State := mkSub 0 window None ∅ ∅.

Definition with_sequence s sequence : State :=
  mkSub sequence (qs_window s) (qs_cursor_window s) (qs_all_items s) (qs_visible_items s).
Definition with_all s all : State :=
  mkSub (qs_sequence s) (qs_window s) (qs_cursor_window s) all (qs_visible_items s).
Definition with_visible s visible : State :=
  mkSub (qs_sequence s) (qs_window s) (qs_cursor_window s) (qs_all_items s) visible.

(** The source contents, the ids the changes touched, and whether one of them was a full
    replacement. *)
Record Changes := mkChanges {
  ch_all : gmap string (Item P);
  ch_affected : gset string;
  ch_initial : bool
}.

Fixpoint apply_source_changes diff (c : Changes) : Changes :=
  match diff with
  | Initial entries =>
      foldl (λ c entry, mkChanges (<[entry.1 := entry.2]> (ch_all c)) ({[entry.1]} ∪ ch_affected c) (ch_initial c))
        (mkChanges ∅ (ch_affected c ∪ dom (ch_all c)) true) entries
  | Insert key value | Update key _ value =>
      mkChanges (<[key := value]> (ch_all c)) ({[key]} ∪ ch_affected c) (ch_initial c)
  | Remove key _ => mkChanges (delete key (ch_all c)) ({[key]} ∪ ch_affected c) (ch_initial c)
  | Batch changes => foldl (λ c change, apply_source_changes change c) c changes
  end.

(** The upserts and deletes of a list of ids. *)
Definition split_ids (all : gmap string (Item P)) (ids : list string) : list (Item P) * list string :=
  foldl (λ acc id, match all !! id with
                   | Some item => (acc.1 ++ [item], acc.2)
                   | None => (acc.1, acc.2 ++ [id])
                   end) ([], []) ids.

Definition apply_source_diff_unwindowed s diff tx : State * option (PendingQueryResponse P) :=
  let previous_total_count := Z.of_nat (size (qs_all_items s)) in
  let c := apply_source_changes diff (mkChanges (qs_all_items s) ∅ false) in
  let s := with_all s (ch_all c) in
  let s := if ch_initial c then with_sequence s 0 else s in
  let response_ids := if ch_initial c then sorted_keys (qs_all_items s) else sorted_elements (ch_affected c) in
  let '(upsert_items, deletes) := split_ids (qs_all_items s) response_ids in
  let total_count := Z.of_nat (size (qs_all_items s)) in
  let total_count_changed := negb (bool_decide (previous_total_count = total_count)) in
  let visible_changed := negb (bool_decide (length upsert_items = 0)) || negb (bool_decide (length deletes = 0)) in
  let should_emit := bool_decide (qs_sequence s = 0%Z) || visible_changed || total_count_changed in
  if negb should_emit then (s, None)
  else (with_sequence s (sat_add (qs_sequence s) 1),
        Some (mkPending tx (qs_sequence s) upsert_items deletes total_count None None)).

Definition compute_unwindowed_response s tx (changed_ids removed_ids : gset string) (previous_total_count : Z)
    (force_emit : bool) : State * option (PendingQueryResponse P) :=
  let s :=
    with_visible s
      (if bool_decide (qs_sequence s = 0%Z) then qs_all_items s
       else
         set_fold (λ id visible, match qs_all_items s !! id with
                                 | Some item => <[id := item]> visible
                                 | None => visible
                                 end)
           (set_fold (λ id visible, delete id visible) (qs_visible_items s) removed_ids) changed_ids) in
  let deletes := bt_of_list (List.filter (λ id, negb (contains_key (qs_all_items s) id)) (elements removed_ids)) in
  let source_ids :=
    if bool_decide (qs_sequence s = 0%Z) then sorted_keys (qs_all_items s) else sorted_elements changed_ids in
  let upsert_items := omap (λ id, qs_all_items s !! id) source_ids in
  let total_count := Z.of_nat (size (qs_all_items s)) in
  let total_count_changed := negb (bool_decide (previous_total_count = total_count)) in
  let visible_changed := negb (bool_decide (length upsert_items = 0)) || negb (bool_decide (length deletes = 0)) in
  let should_emit := force_emit || bool_decide (qs_sequence s = 0%Z) || visible_changed || total_count_changed in
  if negb should_emit then (s, None)
  else (with_sequence s (sat_add (qs_sequence s) 1),
        Some (mkPending tx (qs_sequence s) upsert_items deletes total_count None None)).

(** The page of the ordered ids that the cursor or the offset window selects. *)
Definition visible_page s (ordered_ids : list string) : list string :=
  match qs_cursor_window s with
  | Some cursor =>
      let '(start, end_) :=
        match cw_after cursor with
        | None =>
            match cw_before cursor with
            | None => (0%Z, Z.min (cw_limit cursor) (len ordered_ids))
            | Some before =>
                let end_ := partition_point (λ id, bool_decide (cmp_lt id before)) ordered_ids in
                (sat_sub end_ (cw_limit cursor), end_)
            end
        | Some after =>
            let start := partition_point (λ id, negb (bool_decide (cmp_lt after id))) ordered_ids in
            (start, Z.min (sat_add start (cw_limit cursor)) (len ordered_ids))
        end in
      get_range start end_ ordered_ids
  | None =>
      match qs_window s with
      | Some window =>
          if bool_decide (limit window = 0%Z) then []
          else
            let start := Z.min (offset window) (len ordered_ids) in
            let end_ := Z.min (sat_add start (limit window)) (len ordered_ids) in
            get_range start end_ ordered_ids
      | None => ordered_ids
      end
  end.

Definition compute_bounded_window_response s tx (changed_ids : gset string) (previous_total_count : Z)
    (force_emit : bool) : State * option (PendingQueryResponse P) :=
  let ordered_ids := sorted_keys (qs_all_items s) in
  let visible_ids := visible_page s ordered_ids in
  let previous_visible := qs_visible_items s in
  let previous_visible_ids := sorted_keys previous_visible in
  let next_visible :=
    foldl (λ next id, match qs_all_items s !! id with Some item => <[id := item]> next | None => next end)
      (∅ : gmap string (Item P)) visible_ids in
  let deletes :=
    bt_of_list (List.filter (λ id, negb (contains_key next_visible id)) (map_to_list previous_visible).*1) in
  let upsert_items :=
    omap (λ id,
      let is_new := negb (contains_key previous_visible id) in
      let is_changed := bool_decide (id ∈ changed_ids) in
      if bool_decide (qs_sequence s = 0%Z) || is_new || is_changed then next_visible !! id else None) visible_ids in
  let total_count := Z.of_nat (size (qs_all_items s)) in
  let window_order_changed := negb (bool_decide (previous_visible_ids = visible_ids)) in
  let total_count_changed := negb (bool_decide (previous_total_count = total_count)) in
  let visible_changed := negb (bool_decide (length upsert_items = 0)) || negb (bool_decide (length deletes = 0)) in
  let should_emit :=
    force_emit || bool_decide (qs_sequence s = 0%Z) || visible_changed || window_order_changed || total_count_changed in
  let s := with_visible s next_visible in
  if negb should_emit then (s, None)
  else (with_sequence s (sat_add (qs_sequence s) 1),
        Some (mkPending tx (qs_sequence s) upsert_items deletes total_count (qs_window s)
          (if bool_decide (is_Some (qs_window s)) || bool_decide (is_Some (qs_cursor_window s))
           then Some visible_ids else None))).

Definition is_unwindowed s : bool :=
  bool_decide (qs_window s = None) && bool_decide (qs_cursor_window s = None).

Definition compute_windowed_response s tx (changed_ids removed_ids : gset string) (previous_total_count : Z)
    (force_emit : bool) : State * option (PendingQueryResponse P) :=
  if is_unwindowed s then compute_unwindowed_response s tx changed_ids removed_ids previous_total_count force_emit
  else compute_bounded_window_response s tx changed_ids previous_total_count force_emit.

Definition apply_source_diff s diff tx : State * option (PendingQueryResponse P) :=
  if is_unwindowed s then apply_source_diff_unwindowed s diff tx
  else
    let previous_total_count := Z.of_nat (size (qs_all_items s)) in
    let c := apply_source_changes diff (mkChanges (qs_all_items s) ∅ false) in
    let s := with_all s (ch_all c) in
    let s := if ch_initial c then with_sequence s 0 else s in
    compute_windowed_response s tx (ch_affected c) (ch_affected c) previous_total_count false.

Definition same_window (current next : option QueryWindow) : bool :=
  match current, next with
  | None, None => true
  | Some current, Some next => bool_decide (offset current = offset next) && bool_decide (limit current = limit next)
  | _, _ => false
  end.

Definition apply_window_update s (window : option QueryWindow) tx : State * option (PendingQueryResponse P) :=
  if same_window (qs_window s) window then (s, None)
  else
    let was_windowed := bool_decide (is_Some (qs_window s)) || bool_decide (is_Some (qs_cursor_window s)) in
    let s := mkSub (qs_sequence s) window None (qs_all_items s) (qs_visible_items s) in
    let s := if was_windowed && bool_decide (window = None) then with_sequence s 0 else s in
    compute_windowed_response s tx ∅ ∅ (Z.of_nat (size (qs_all_items s))) true.

Definition apply_cursor_window_update s (window : QueryCursorWindow) tx : State * option (PendingQueryResponse P) :=
  if decide (qs_cursor_window s = Some window) then (s, None)
  else
    let s := mkSub (qs_sequence s) (qs_window s) (Some window) (qs_all_items s) (qs_visible_items s) in
    compute_windowed_response s tx ∅ ∅ (Z.of_nat (size (qs_all_items s))) true.
End materialized.
Arguments Changes P : clear implicits.
Arguments mkChanges {P}. Arguments ch_all {P}. Arguments ch_affected {P}. Arguments ch_initial {P}.

(** ** Pushed subscriptions *)

Record PushedQuerySubscriptionState (P : Type) := mkPushed {
  ps_sequence : Z;
  ps_window : option QueryWindow;
  ps_visible_ids : list string;
  ps_visible_items : gmap string (Item P)
}.
Arguments mkPushed {P}.
Arguments ps_sequence {P}. Arguments ps_window {P}. Arguments ps_visible_ids {P}. Arguments ps_visible_items {P}.

Section pushed.
Context {P : Type} `{!EqDecision (Item P)}.

Definition pushed_default : PushedQuerySubscriptionState P := mkPushed 0 None [] ∅.

Definition apply_snapshot (s : PushedQuerySubscriptionState P) (snapshot : WindowedQuerySnapshot P) (tx : string)
  : PushedQuerySubscriptionState P * PendingQueryResponse P :=
  let sequence :=
    if bool_decide (is_Some (ps_window s)) && bool_decide (ws_window snapshot = None) then 0%Z else ps_sequence s in
  let next_ids := (ws_entries snapshot).*1 in
  let next_items : gmap string (Item P) :=
    foldl (λ m entry, <[entry.1 := entry.2]> m) ∅ (ws_entries snapshot) in
  let deletes :=
    bt_of_list (List.filter (λ id, negb (contains_key next_items id)) (ps_visible_ids s)) in
  let upsert_items :=
    (List.filter (λ entry, bool_decide (sequence = 0%Z)
                           || negb (bool_decide (ps_visible_items s !! entry.1 = Some entry.2)))
       (ws_entries snapshot)).*2 in
  (mkPushed (sat_add sequence 1) (ws_window snapshot) next_ids next_items,
   mkPending tx sequence upsert_items deletes (ws_total_count snapshot) (ws_window snapshot)
     ((λ _, next_ids) <$> ws_window snapshot)).
End pushed.

(** ** The session *)

(** A pushed source ([WindowedQuerySource]): moving its window gives the snapshot it
    publishes, if any. *)
Class WindowedQuerySource (P S : Type) := {
  src_snapshot : S → WindowedQuerySnapshot P;
  src_set_window : option QueryWindow → S → S * option (WindowedQuerySnapshot P);
  src_set_cursor_window : QueryCursorWindow → S → S * option (WindowedQuerySnapshot P)
}.

Inductive QuerySubscriptionKind := KindQuery | KindView.

Inductive QueryWindowControl (P S : Type) :=
| Materialized (state : QuerySubscriptionState P)
| Pushed (source : S) (state : PushedQuerySubscriptionState P).
Arguments Materialized {P S}. Arguments Pushed {P S}.

Inductive SubscriptionEntry (P S : Type) :=
| SubQuery (control : QueryWindowControl P S) (kind : QuerySubscriptionKind)
| SubGuard.
Arguments SubQuery {P S}. Arguments SubGuard {P S}.

(** The subscriptions by transaction, and what the writer was given, the view flag included. *)
Record ClientSession (P S : Type) := mkSession {
  cs_client_id : string;
  cs_subscriptions : gmap string (SubscriptionEntry P S);
  cs_written : list (PendingQueryResponse P * bool)
}.
Arguments mkSession {P S}.
Arguments cs_client_id {P S}. Arguments cs_subscriptions {P S}. Arguments cs_written {P S}.

Section session.
Context {P S : Type} `{!EqDecision (Item P)} `{!WindowedQuerySource P S}.
Abbreviation Session := (ClientSession P S).
Implicit Types (c : Session) (tx : string) (diff : MapDiff (Item P)).

Definition session_new (client_id : string) : Session := mkSession client_id ∅ [].

Definition is_view (kind : QuerySubscriptionKind) : bool := match kind with KindQuery => false | KindView => true end.

Definition send_query_response (r : option (PendingQueryResponse P)) (kind : QuerySubscriptionKind) c : Session :=
  match r with
  | Some r => mkSession (cs_client_id c) (cs_subscriptions c) (cs_written c ++ [(r, is_view kind)])
  | None => c
  end.

Definition put_subscription tx (entry : SubscriptionEntry P S) c : Session :=
  mkSession (cs_client_id c) (<[tx := entry]> (cs_subscriptions c)) (cs_written c).

(** [subscribe_query] and [subscribe_view]: the source sends its contents first, as an
    [Initial] diff; a subscription with the same transaction is replaced. *)
Definition subscribe_materialized tx (entries : list (string * Item P)) (window : option QueryWindow)
    (kind : QuerySubscriptionKind) c : Session :=
  let '(state, response) := apply_source_diff (sub_default window) (Initial entries) tx in
  put_subscription tx (SubQuery (Materialized state) kind) (send_query_response response kind c).

Definition subscribe_query tx entries window c : Session := subscribe_materialized tx entries window KindQuery c.
Definition subscribe_view tx entries window c : Session := subscribe_materialized tx entries window KindView c.

Definition subscribe_windowed_query tx (source : S) c : Session :=
  let '(state, response) := apply_snapshot pushed_default (src_snapshot source) tx in
  put_subscription tx (SubQuery (Pushed source state) KindQuery) (send_query_response (Some response) KindQuery c).

Definition subscribe_report tx c : Session := put_subscription tx SubGuard c.

(** The callback of a materialized subscription. *)
Definition on_source_diff tx diff c : Session :=
  match cs_subscriptions c !! tx with
  | Some (SubQuery (Materialized state) kind) =>
      let '(state, response) := apply_source_diff state diff tx in
      put_subscription tx (SubQuery (Materialized state) kind) (send_query_response response kind c)
  | _ => c
  end.

(** The callback of a pushed subscription, on the snapshot its source publishes. *)
Definition on_snapshot tx (source : S) (snapshot : option (WindowedQuerySnapshot P)) c : Session :=
  match cs_subscriptions c !! tx with
  | Some (SubQuery (Pushed _ state) kind) =>
      match snapshot with
      | Some snapshot =>
          let '(state, response) := apply_snapshot state snapshot tx in
          put_subscription tx (SubQuery (Pushed source state) kind) (send_query_response (Some response) kind c)
      | None => put_subscription tx (SubQuery (Pushed source state) kind) c
      end
  | _ => c
  end.

(** The work left for the runtime is a pushed source and its new window. *)
Definition prepare_query_window_update tx (window : option QueryWindow) c : Session * option (S * option QueryWindow) :=
  match cs_subscriptions c !! tx with
  | Some (SubQuery (Materialized state) kind) =>
      let '(state, response) := apply_window_update state window tx in
      (put_subscription tx (SubQuery (Materialized state) kind) (send_query_response response kind c), None)
  | Some (SubQuery (Pushed source _) _) => (c, Some (source, window))
  | _ => (c, None)
  end.

Definition update_query_window tx (window : option QueryWindow) c : Session :=
  match prepare_query_window_update tx window c with
  | (c, Some (source, window)) =>
      let '(source, snapshot) := src_set_window window source in on_snapshot tx source snapshot c
  | (c, None) => c
  end.

Definition update_query_cursor_window tx (window : QueryCursorWindow) c : Session :=
  match cursor_validate window with
  | Err _ => c
  | Ok _ =>
      match cs_subscriptions c !! tx with
      | Some (SubQuery (Materialized state) kind) =>
          let state := mkSub (qs_sequence state) None (qs_cursor_window state) (qs_all_items state) (qs_visible_items state) in
          let '(state, response) := apply_cursor_window_update state window tx in
          put_subscription tx (SubQuery (Materialized state) kind) (send_query_response response kind c)
      | Some (SubQuery (Pushed source _) _) =>
          let '(source, snapshot) := src_set_cursor_window window source in on_snapshot tx source snapshot c
      | _ => c
      end
  end.

Definition update_view_window tx (window : option QueryWindow) c : Session := update_query_window tx window c.

Definition cancel tx c : Session := mkSession (cs_client_id c) (delete tx (cs_subscriptions c)) (cs_written c).
Definition cancel_all c : Session := mkSession (cs_client_id c) ∅ (cs_written c).
Definition subscription_count c : Z := Z.of_nat (size (cs_subscriptions c)).
Definition has_subscription c tx : bool := contains_key (cs_subscriptions c) tx.
End session.
