(* ===== verification/ClientWatch.v ===== *)
(** * Query watches of the client ([client/query_map.rs], [client/map_response.rs], [client/mod.rs])

    The handler of a subscription receives the responses of the server: it checks that their
    sequence continues the one of the current connection, decodes all the rows before it
    changes anything, and keeps a map, a list or a page of the query's result, with a flag
    that says whether the server has answered.  A change of the connection starts a new
    epoch and sends the request again. *)

From stdpp Require Import base strings numbers option countable gmap sets list.
From S2P Require Import Prelude Order GraphTypes EdgeIds ClientSession.

(** ** Responses as the client reads them ([wire/query.rs]) *)

Record WrappedItem (V : Type) := mkWrapped { wi_item : V; wi_type : string }.
Arguments mkWrapped {V}. Arguments wi_item {V}. Arguments wi_type {V}.

Inductive ClientQueryChange (V : Type) :=
| ClientUpsert (item : WrappedItem V)
| ClientDelete (id : string)
| ClientWindowOrder (ids : list string) (total_count : Z) (window : option QueryWindow).
Arguments ClientUpsert {V}. Arguments ClientDelete {V}. Arguments ClientWindowOrder {V}.

Record ClientQueryResponse (V : Type) := mkClientResponse {
  cr_changes : list (ClientQueryChange V);
  cr_deletes : list string;
  cr_upserts : list (WrappedItem V);
  cr_sequence : Z;
  cr_tx : string;
  cr_total_count : option Z;
  cr_window : option QueryWindow
}.
Arguments mkClientResponse {V}.
Arguments cr_changes {V}. Arguments cr_deletes {V}. Arguments cr_upserts {V}.
Arguments cr_sequence {V}. Arguments cr_tx {V}. Arguments cr_total_count {V}. Arguments cr_window {V}.

(** ** Sequences ([MapSequence]) *)

Record SequenceState := mkSequence { awaiting_snapshot : bool; next : Z }.

Definition sequence_new : SequenceState := mkSequence true 0.
Definition reset_epoch (s : SequenceState) : SequenceState := mkSequence true (next s).

Definition accept (sequence : Z) (s : SequenceState) : SequenceState * bool :=
  if decide (sequence = 0%Z) then (mkSequence false 1, true)
  else if awaiting_snapshot s then (s, false)
  else if decide (sequence ≠ next s) then (s, false)
  else if (u64_max <? next s + 1)%Z then (s, false)
  else (mkSequence (awaiting_snapshot s) (next s + 1), true).

(** ** Decoding *)

(** The entity type of a query: how its rows are read from the wire. *)
Class Entity (V T : Type) := { from_value : V → option T; entity_id : T → string }.

(** What the program relies on of the bulk operations of [hyphae::CellMap]: distinct keys are
    replaced, removed and inserted. *)
Class CellMapMany (T : Type) := {
  replace_all : list (string * T) → gmap string T → gmap string T;
  cell_remove_many : list string → gmap string T → gmap string T;
  cell_insert_many : list (string * T) → gmap string T → gmap string T;
  replace_all_spec entries m : NoDup entries.*1 → replace_all entries m = list_to_map entries;
  cell_remove_many_spec ks m k : cell_remove_many ks m !! k = if decide (k ∈ ks) then None else m !! k;
  cell_insert_many_spec entries m : NoDup entries.*1 → cell_insert_many entries m = list_to_map entries ∪ m
}.

Section client.
Context {V T : Type} `{!Entity V T} `{!CellMapMany T}.

(** One malformed row invalidates the whole response. *)
Definition decode_map_upserts (upserts : list (WrappedItem V)) : option (list (string * T)) :=
  mapM (λ wrapped, item ← from_value (wi_item wrapped); Some (entity_id item, item)) upserts.

Definition apply_incremental_map_update (deletes : list string) (upserts : list (string * T)) (m : gmap string T)
  : gmap string T :=
  let m := match deletes with [] => m | _ => cell_remove_many deletes m end in
  match upserts with [] => m | _ => cell_insert_many upserts m end.

(** The guards every handler shares: a response that was parsed, for this transaction, whose
    rows all decode, and in sequence. *)
Definition screen_response tx (response : option (ClientQueryResponse V)) (s : SequenceState)
  : SequenceState * option (ClientQueryResponse V * list (string * T)) :=
  match response with
  | None => (s, None)
  | Some response =>
      if negb (bool_decide (cr_tx response = tx)) then (s, None)
      else match decode_map_upserts (cr_upserts response) with
           | None => (s, None)
           | Some upserts =>
               let '(s, accepted) := accept (cr_sequence response) s in
               (s, if accepted then Some (response, upserts) else None)
           end
  end.

(** ** [watch_query_map_state] *)

Record QueryMapWatch := mkMapWatch {
  mw_map : gmap string T;
  mw_ready : bool;
  mw_sequences : SequenceState
}.

Definition map_watch_new : QueryMapWatch := mkMapWatch ∅ false sequence_new.

Definition map_response tx (response : option (ClientQueryResponse V)) (w : QueryMapWatch) : QueryMapWatch :=
  match screen_response tx response (mw_sequences w) with
  | (s, None) => mkMapWatch (mw_map w) (mw_ready w) s
  | (s, Some (response, upserts)) =>
      if decide (cr_sequence response = 0%Z) then mkMapWatch (replace_all upserts (mw_map w)) true s
      else mkMapWatch (apply_incremental_map_update (cr_deletes response) upserts (mw_map w)) (mw_ready w) s
  end.

(** Every value of the connection status starts an epoch; the request is sent when connected. *)
Definition map_status (connected : bool) (w : QueryMapWatch) : QueryMapWatch * bool :=
  (mkMapWatch (mw_map w) false (reset_epoch (mw_sequences w)), connected).

(** ** [watch_query_state]: the accumulated rows, in no order *)

Record QueryWatch := mkListWatch {
  lw_state : gmap string T;
  lw_items : list T;
  lw_ready : bool;
  lw_sequences : SequenceState
}.

Definition list_watch_new : QueryWatch := mkListWatch ∅ [] false sequence_new.

(** [HashMap::remove] for each delete, then [HashMap::insert] for each upsert. *)
Definition accumulate (is_initial : bool) (deletes : list string) (upserts : list (string * T)) (m : gmap string T)
  : gmap string T :=
  let m := if is_initial then ∅ else m in
  let m := foldl (λ m id, delete id m) m deletes in
  foldl (λ m u, <[u.1 := u.2]> m) m upserts.

Definition list_response tx (response : option (ClientQueryResponse V)) (w : QueryWatch) : QueryWatch :=
  match screen_response tx response (lw_sequences w) with
  | (s, None) => mkListWatch (lw_state w) (lw_items w) (lw_ready w) s
  | (s, Some (response, upserts)) =>
      let is_initial_response := bool_decide (cr_sequence response = 0%Z) in
      let state := accumulate is_initial_response (cr_deletes response) upserts (lw_state w) in
      mkListWatch state (map_to_list state).*2 (is_initial_response || lw_ready w) s
  end.

Definition list_status (connected : bool) (w : QueryWatch) : QueryWatch * bool :=
  (mkListWatch (lw_state w) (lw_items w) false (reset_epoch (lw_sequences w)), connected).

(** ** [watch_query_windowed] *)

(** [WindowedQueryState]: a page with what a page control shows. *)
Record WindowedQueryState := mkPageState {
  wq_items : list T;
  wq_ready : bool;
  wq_total_count : option Z;
  wq_window : option QueryWindow;
  page_index : option Z;
  page_count : option Z;
  has_previous_page : bool;
  has_next_page : bool
}.

(** [usize::div_ceil]. *)
Definition div_ceil (a b : Z) : Z := (a / b + if decide (a mod b = 0) then 0 else 1)%Z.

Definition page_state_new (items : list T) (ready : bool) (total_count : option Z) (window : option QueryWindow)
  : WindowedQueryState :=
  mkPageState items ready total_count window
    (w ← window; if decide (limit w = 0%Z) then None else Some (offset w / limit w)%Z)
    (total ← total_count; w ← window; if (0 <? limit w)%Z then Some (div_ceil total (limit w)) else None)
    (ready && match window with Some w => (0 <? limit w)%Z && (0 <? offset w)%Z | None => false end)
    (ready && match total_count, window with
              | Some total, Some w => (0 <? limit w)%Z && (sat_add (offset w) (limit w) <? total)%Z
              | _, _ => false
              end).

(** The cells of the watch, the rows the handler accumulates, and the cursor page asked for. *)
Record WindowedQueryWatch := mkWindowWatch {
  ww_items : list T;
  ww_ready : bool;
  ww_total_count : option Z;
  ww_window : option QueryWindow;
  ww_state : WindowedQueryState;
  ww_cursor_window : option QueryCursorWindow;
  ww_rows : gmap string T;
  ww_sequences : SequenceState
}.

Definition window_watch_new (initial_window : QueryWindow) : WindowedQueryWatch :=
  mkWindowWatch [] false None (Some initial_window) (page_state_new [] false None (Some initial_window)) None ∅
    sequence_new.

(** The order of the page, when the response has one. *)
Fixpoint find_order (changes : list (ClientQueryChange V)) : option (list string) :=
  match changes with
  | [] => None
  | ClientWindowOrder ids _ _ :: _ => Some ids
  | _ :: changes => find_order changes
  end.

Definition window_response tx (response : option (ClientQueryResponse V)) (w : WindowedQueryWatch) : WindowedQueryWatch :=
  match screen_response tx response (ww_sequences w) with
  | (s, None) =>
      mkWindowWatch (ww_items w) (ww_ready w) (ww_total_count w) (ww_window w) (ww_state w) (ww_cursor_window w)
        (ww_rows w) s
  | (s, Some (response, upserts)) =>
      let order := find_order (cr_changes response) in
      let is_initial := bool_decide (cr_sequence response = 0%Z) in
      let rows := accumulate is_initial (cr_deletes response) upserts (ww_rows w) in
      let ids := default (sorted_keys rows) order in
      let next_items := omap (λ id, rows !! id) ids in
      let next_ready := ww_ready w || is_initial in
      mkWindowWatch next_items (is_initial || ww_ready w) (cr_total_count response) (cr_window response)
        (page_state_new next_items next_ready (cr_total_count response) (cr_window response)) (ww_cursor_window w) rows s
  end.

(** What a reconnected watch sends: the query with its window, then the cursor page. *)
Inductive ControlMessage :=
| MsgQuery (window : option QueryWindow)
| MsgQueryWindow (window : option QueryWindow)
| MsgQueryCursorWindow (window : QueryCursorWindow).

Definition window_status (initial_window : QueryWindow) (connected : bool) (w : WindowedQueryWatch)
  : WindowedQueryWatch * list ControlMessage :=
  (mkWindowWatch (ww_items w) false (ww_total_count w) (ww_window w)
     (page_state_new (wq_items (ww_state w)) false (wq_total_count (ww_state w)) (wq_window (ww_state w)))
     (ww_cursor_window w) (ww_rows w) (reset_epoch (ww_sequences w)),
   if connected then
     match ww_cursor_window w with
     | Some cursor => [MsgQuery (Some initial_window); MsgQueryCursorWindow cursor]
     | None => [MsgQuery (ww_window w)]
     end
   else []).

(** *** Page controls

    Each gives the watch, the messages sent or queued, and whether a page was asked for. *)
Definition with_cursor (cursor : option QueryCursorWindow) (w : WindowedQueryWatch) : WindowedQueryWatch :=
  mkWindowWatch (ww_items w) (ww_ready w) (ww_total_count w) (ww_window w) (ww_state w) cursor (ww_rows w)
    (ww_sequences w).

Abbreviation Control := (WindowedQueryWatch * list ControlMessage * bool)%type.

Definition client_set_window (window : option QueryWindow) (w : WindowedQueryWatch) : Control :=
  (with_cursor None w, [MsgQueryWindow window], true).

Definition client_set_cursor_window (window : QueryCursorWindow) (w : WindowedQueryWatch) : result string Control :=
  match cursor_validate window with
  | Err e => Err e
  | Ok _ => Ok (with_cursor (Some window) w, [MsgQueryCursorWindow window], true)
  end.

Definition first_cursor_page (limit : Z) (w : WindowedQueryWatch) : result string Control :=
  client_set_cursor_window (cursor_first limit) w.

Definition next_cursor_page (limit : Z) (w : WindowedQueryWatch) : result string Control :=
  match last (ww_items w) with
  | None => Ok (w, [], false)
  | Some item => client_set_cursor_window (cursor_after (entity_id item) limit) w
  end.

Definition previous_cursor_page (limit : Z) (w : WindowedQueryWatch) : result string Control :=
  match head (ww_items w) with
  | None => Ok (w, [], false)
  | Some item => client_set_cursor_window (cursor_before (entity_id item) limit) w
  end.

Definition set_page (first limit : Z) (w : WindowedQueryWatch) : Control :=
  client_set_window (Some (mkQueryWindow first limit)) w.

Definition next_page (w : WindowedQueryWatch) : Control :=
  match wq_window (ww_state w) with
  | None => (w, [], false)
  | Some window =>
      if negb (has_next_page (ww_state w)) then (w, [], false)
      else set_page (sat_add (offset window) (limit window)) (limit window) w
  end.

Definition previous_page (w : WindowedQueryWatch) : Control :=
  match wq_window (ww_state w) with
  | None => (w, [], false)
  | Some window =>
      if negb (has_previous_page (ww_state w)) then (w, [], false)
      else set_page (sat_sub (offset window) (limit window)) (limit window) w
  end.

Definition first_page (w : WindowedQueryWatch) : Control :=
  match wq_window (ww_state w) with
  | None => (w, [], false)
  | Some window =>
      if negb (has_previous_page (ww_state w)) then (w, [], false) else set_page 0 (limit window) w
  end.

Definition set_page_index (index : Z) (w : WindowedQueryWatch) : Control :=
  if negb (wq_ready (ww_state w)) then (w, [], false)
  else match wq_window (ww_state w), page_count (ww_state w) with
       | Some window, Some count =>
           if bool_decide (limit window = 0%Z) || (count <=? index)%Z
              || bool_decide (page_index (ww_state w) = Some index)
           then (w, [], false)
           else if (usize_max <? index * limit window)%Z then (w, [], false)
           else set_page (index * limit window) (limit window) w
       | _, _ => (w, [], false)
       end.

Definition last_page (w : WindowedQueryWatch) : Control :=
  match page_count (ww_state w) with
  | None => (w, [], false)
  | Some count => if (count <? 1)%Z then (w, [], false) else set_page_index (count - 1) w
  end.
End client.
Arguments QueryMapWatch T : clear implicits.
Arguments mkMapWatch {T}. Arguments mw_map {T}. Arguments mw_ready {T}. Arguments mw_sequences {T}.
Arguments QueryWatch T : clear implicits.
Arguments mkListWatch {T}. Arguments lw_state {T}. Arguments lw_items {T}. Arguments lw_ready {T}. Arguments lw_sequences {T}.
Arguments WindowedQueryState T : clear implicits.
Arguments mkPageState {T}. Arguments wq_items {T}. Arguments wq_ready {T}. Arguments wq_total_count {T}.
Arguments wq_window {T}. Arguments page_index {T}. Arguments page_count {T}. Arguments has_previous_page {T}.
Arguments has_next_page {T}.
Arguments WindowedQueryWatch T : clear implicits.
Arguments mkWindowWatch {T}. Arguments ww_items {T}. Arguments ww_ready {T}. Arguments ww_total_count {T}.
Arguments ww_window {T}. Arguments ww_state {T}. Arguments ww_cursor_window {T}. Arguments ww_rows {T}.
Arguments ww_sequences {T}.
