(* ===== verification/SessionProof.v ===== *)
(** * What a session sends follows its source

    The changes a diff makes are those the source makes, the page is the one of the graph's
    windows, and a client that applies a response has the rows of the new state. *)

From stdpp Require Import base strings numbers option countable gmap sets list.
From S2P Require Import Prelude Order GraphTypes EdgeIds GraphWatch GraphWindow WatchProof WindowProof ClientSession ClientWatch.

(** ** Collections *)

Lemma elem_of_sorted_keys {A} (m : gmap string A) k : k ∈ sorted_keys m ↔ is_Some (m !! k).
Proof.
  unfold sorted_keys. rewrite elem_of_bt_of_list, list_elem_of_fmap. split.
  - intros ([k' x] & -> & Hx%elem_of_map_to_list). eauto.
  - intros [x Hx]. exists (k, x). by rewrite elem_of_map_to_list.
Qed.

Lemma sorted_keys_sorted {A} (m : gmap string A) : sorted (sorted_keys m).
Proof. apply bt_of_list_sorted. Qed.

Lemma sorted_keys_ext {A B} (m : gmap string A) (m' : gmap string B) :
  (∀ k, is_Some (m !! k) ↔ is_Some (m' !! k)) → sorted_keys m = sorted_keys m'.
Proof.
  intros E. apply sorted_ext; [apply sorted_keys_sorted..|]. intros k. by rewrite !elem_of_sorted_keys, E.
Qed.

Lemma sorted_keys_len {A} (m : gmap string A) : len (sorted_keys m) = Z.of_nat (size m).
Proof.
  unfold len. f_equal. rewrite <-(size_dom (D := gset string) m).
  rewrite <-(size_list_to_set (C := gset string) (sorted_keys m)) by apply sorted_NoDup, sorted_keys_sorted.
  f_equal. apply set_eq. intros k. by rewrite elem_of_list_to_set, elem_of_sorted_keys, elem_of_dom.
Qed.

Lemma elem_of_sorted_elements (s : gset string) k : k ∈ sorted_elements s ↔ k ∈ s.
Proof. unfold sorted_elements. by rewrite elem_of_bt_of_list, elem_of_elements. Qed.

Lemma contains_key_spec {A} (m : gmap string A) k : contains_key m k = true ↔ is_Some (m !! k).
Proof. apply bool_decide_eq_true. Qed.

Lemma contains_key_false {A} (m : gmap string A) k : contains_key m k = false ↔ m !! k = None.
Proof. unfold contains_key. rewrite bool_decide_eq_false, eq_None_not_Some. done. Qed.

(** *** Slices of a sorted list *)

Lemma partition_point_spec {A} (p : A → bool) l :
  (0 ≤ partition_point p l ≤ len l)%Z ∧
  (∀ x, x ∈ take (Z.to_nat (partition_point p l)) l → p x = true) ∧
  ∀ x, head (drop (Z.to_nat (partition_point p l)) l) = Some x → p x = false.
Proof.
  unfold len. induction l as [|y l (B & Ht & Hd)]; simpl.
  { split_and!; [lia|lia|by intros x ?%elem_of_nil|done]. }
  destruct (p y) eqn:Ey.
  - replace (Z.to_nat (1 + partition_point p l)) with (S (Z.to_nat (partition_point p l))) by lia. simpl.
    split_and!; [lia|lia| |done]. intros x [->|Hx]%elem_of_cons; auto.
  - simpl. split_and!; [lia|lia|by intros x ?%elem_of_nil|]. by intros x [= <-].
Qed.

(** On a sorted list, the elements before the point are those that satisfy a predicate that
    only fails upwards. *)
Lemma partition_point_filter (p : string → bool) l :
  sorted l → (∀ x y, cmp_lt x y → p y = true → p x = true) →
  take (Z.to_nat (partition_point p l)) l = List.filter p l ∧
  drop (Z.to_nat (partition_point p l)) l = List.filter (λ x, negb (p x)) l.
Proof.
  intros Sl Hp. induction l as [|y l IH]; [done|]. apply sorted_cons in Sl as [Sl F].
  cbn [partition_point List.filter]. destruct (p y) eqn:Ey; cbn [negb].
  - pose proof (proj1 (partition_point_spec p l)) as B.
    replace (Z.to_nat (1 + partition_point p l)) with (S (Z.to_nat (partition_point p l))) by lia. simpl.
    destruct (IH Sl) as [-> ->]. done.
  - simpl. assert (∀ x, x ∈ l → p x = false) as N.
    { intros x Hx. destruct (p x) eqn:Ex; [|done]. rewrite <-Ey. symmetry. eapply Hp; [by apply F|done]. }
    split; [symmetry|f_equal; symmetry].
    + clear -N. induction l as [|x l IH]; [done|]. simpl. rewrite (N x) by left. apply IH. intros z Hz. apply N. by right.
    + clear -N. induction l as [|x l IH]; [done|]. simpl. rewrite (N x) by left. simpl. f_equal.
      apply IH. intros z Hz. apply N. by right.
Qed.

Lemma get_range_spec {A} (i j : Z) (l : list A) :
  (0 ≤ i ≤ j)%Z → (j ≤ len l)%Z → get_range i j l = take (Z.to_nat (j - i)) (drop (Z.to_nat i) l).
Proof.
  intros Hi Hj. unfold get_range. replace (i <=? j)%Z with true by lia. replace (j <=? len l)%Z with true by lia.
  simpl. by rewrite take_z_take, skip_z_drop.
Qed.

Lemma filter_bool {A} (Q : A → Prop) `{!∀ x, Decision (Q x)} (p : A → bool) l :
  (∀ x, p x = true ↔ Q x) → List.filter p l = filter Q l.
Proof.
  intros E. induction l as [|x l IH]; [done|]. simpl. unfold filter in *. simpl. destruct (p x) eqn:Ex.
  - rewrite decide_True by by apply E. by f_equal.
  - rewrite decide_False; [done|]. rewrite <-E. by rewrite Ex.
Qed.

(** ** The page of a subscription is the page of its selection *)

Definition selection {P} (s : QuerySubscriptionState P) : GraphWindowSelection :=
  match qs_cursor_window s with Some cursor => Cursor cursor | None => Offset (qs_window s) end.

Lemma take_all_z {A} n (l : list A) : (len l ≤ n)%Z → take_z n l = l.
Proof. intros Hn. rewrite take_z_take, take_ge; [done|]. unfold len in Hn. lia. Qed.

Lemma take_min {A} (n m : Z) (l : list A) : (len l ≤ m)%Z → take (Z.to_nat (Z.min n m)) l = take (Z.to_nat n) l.
Proof.
  unfold len. intros Hm. destruct (Z.min_spec n m) as [[? ->]|[? ->]]; [done|].
  rewrite !take_ge; [done|lia..].
Qed.

Lemma min_sat_add (n m k : Z) : (k ≤ u64_max)%Z → Z.min (sat_add n m) k = Z.min (n + m) k.
Proof. unfold sat_add. lia. Qed.

(** A slice that ends at the bound or at the end of the list. *)
Lemma get_range_from {A} (i n : Z) (l : list A) :
  (0 ≤ i ≤ len l)%Z → (0 ≤ n)%Z → (len l ≤ u64_max)%Z →
  get_range i (Z.min (sat_add i n) (len l)) l = take (Z.to_nat n) (drop (Z.to_nat i) l).
Proof.
  intros Hi Hn Hl. rewrite min_sat_add by done. rewrite get_range_spec by lia.
  replace (Z.min (i + n) (len l) - i)%Z with (Z.min n (len l - i))%Z by lia.
  apply take_min. unfold len in *. rewrite length_drop. lia.
Qed.

Lemma rev_take_rev {A} n (l : list A) : rev (take n (rev l)) = drop (length l - n) l.
Proof.
  rewrite <-(take_drop (length l - n) l) at 1. rewrite rev_app_distr.
  destruct (decide (n ≤ length l)).
  - rewrite take_app_le, take_ge; rewrite ?length_rev, ?length_drop; try lia. by rewrite rev_involutive.
  - replace (length l - n) with 0 by lia. simpl. rewrite app_nil_r, take_ge; [by rewrite rev_involutive|].
    rewrite length_rev, length_drop. lia.
Qed.

Lemma visible_page_spec {P} (s : QuerySubscriptionState P) l :
  sorted l → selection_ok (selection s) → (len l ≤ u64_max)%Z → visible_page s l = page_of (selection s) l.
Proof.
  intros Sl So Hl. unfold visible_page, selection in *. destruct (qs_cursor_window s) as [[a b n]|].
  - unfold selection_ok, page_of, EdgeIds.cursor_spec in *. simpl in *. destruct So as [V Hn]. destruct a as [a|].
    + set (p := λ id, negb (bool_decide (cmp_lt a id))).
      pose proof (partition_point_spec p l) as (B & _ & _).
      assert (∀ x y, cmp_lt x y → p y = true → p x = true) as Hp.
      { unfold p. intros x y L. rewrite !negb_true_iff, !bool_decide_eq_false. intros N L'. apply N. by eapply cmp_lt_trans. }
      rewrite get_range_from by lia. destruct (partition_point_filter p l Sl Hp) as [_ ->].
      rewrite take_z_take. f_equal. apply filter_bool. intros x. unfold p. by rewrite negb_involutive, bool_decide_eq_true.
    + destruct b as [b|].
      * set (p := λ id, bool_decide (cmp_lt id b)). pose proof (partition_point_spec p l) as (B & _ & _).
        assert (∀ x y, cmp_lt x y → p y = true → p x = true) as Hp.
        { unfold p. intros x y L. rewrite !bool_decide_eq_true. apply cmp_lt_trans. done. }
        rewrite get_range_spec by (unfold sat_sub; lia). destruct (partition_point_filter p l Sl Hp) as [Ht _].
        rewrite <-(filter_bool (λ id, cmp_lt id b) p) by (intros; apply bool_decide_eq_true).
        rewrite <-Ht, take_z_take, rev_take_rev, take_drop_commute.
        assert (length (take (Z.to_nat (partition_point p l)) l) = Z.to_nat (partition_point p l)) as ->.
        { rewrite length_take. unfold len in B. lia. }
        unfold sat_sub. f_equal; [lia|]. f_equal. lia.
      * rewrite get_range_spec by (unfold len in *; lia). rewrite take_z_take, Z.sub_0_r. simpl. rewrite drop_0.
        by apply take_min.
  - destruct (qs_window s) as [w|]; [|done]. simpl in *. rewrite take_z_take, skip_z_drop.
    case_bool_decide as E; [by rewrite E|].
    rewrite get_range_from by (unfold len in *; lia). destruct (Z.min_spec (offset w) (len l)) as [[? ->]|[? ->]]; [done|].
    unfold len in *. rewrite !drop_ge by lia. done.
Qed.

Lemma page_of_sublist selection l : sublist (page_of selection l) l.
Proof.
  destruct selection as [[w|]|w]; simpl; [|done|].
  - rewrite take_z_take, skip_z_drop. etrans; [apply sublist_take|apply sublist_drop].
  - unfold EdgeIds.cursor_spec. destruct (cw_after w) as [a|].
    + rewrite take_z_take. etrans; [apply sublist_take|apply sublist_filter].
    + destruct (cw_before w) as [c|]; [|rewrite take_z_take; apply sublist_take].
      rewrite take_z_take, rev_take_rev. etrans; [apply sublist_drop|apply sublist_filter].
Qed.

Lemma page_of_sorted selection l : sorted l → sorted (page_of selection l).
Proof. apply sorted_sublist, page_of_sublist. Qed.

Lemma NoDup_List_filter {A} (p : A → bool) (l : list A) : NoDup l → NoDup (List.filter p l).
Proof.
  induction 1 as [|x l Hx ND IH]; simpl; [constructor|]. destruct (p x); [|done]. constructor; [|done].
  rewrite list_elem_of_In, filter_In, <-list_elem_of_In. tauto.
Qed.

(** ** What the changes touch *)
Section changes.
Context {P : Type}.
Implicit Types (diff : MapDiff (Item P)) (c : Changes P).

Lemma initial_changes (entries : list (string * Item P)) c :
  let c' := foldl (λ c entry, mkChanges (<[entry.1 := entry.2]> (ch_all c)) ({[entry.1]} ∪ ch_affected c) (ch_initial c))
              c entries in
  ch_affected c ⊆ ch_affected c' ∧ ∀ id, id ∉ ch_affected c' → ch_all c' !! id = ch_all c !! id.
Proof.
  revert c. induction entries as [|[k x] entries IH]; intros c; simpl; [done|].
  destruct (IH (mkChanges (<[k:=x]> (ch_all c)) ({[k]} ∪ ch_affected c) (ch_initial c))) as [S E]; simpl in *.
  split; [set_solver|]. intros id N. rewrite (E id N), lookup_insert_ne; [done|]. set_solver.
Qed.

(** Outside the affected ids nothing changes. *)
Lemma changes_touch diff c :
  let c' := apply_source_changes diff c in
  ch_affected c ⊆ ch_affected c' ∧ ∀ id, id ∉ ch_affected c' → ch_all c' !! id = ch_all c !! id.
Proof.
  revert c. induction diff as [entries|k x|k x|k x y|changes IH] using MapDiff_rect'; intros c; simpl.
  - destruct (initial_changes entries (mkChanges ∅ (ch_affected c ∪ dom (ch_all c)) true)) as [S E]; simpl in *.
    split; [set_solver|]. intros id N. rewrite (E id N), lookup_empty. symmetry. apply not_elem_of_dom. set_solver.
  - split; [set_solver|]. intros id N. rewrite lookup_insert_ne; [done|]. set_solver.
  - split; [set_solver|]. intros id N. rewrite lookup_delete_ne; [done|]. set_solver.
  - split; [set_solver|]. intros id N. rewrite lookup_insert_ne; [done|]. set_solver.
  - revert c. induction IH as [|d changes Hd _ IH']; intros c; simpl; [done|].
    destruct (Hd c) as [S1 E1], (IH' (apply_source_changes d c)) as [S2 E2].
    split; [by etrans|]. intros id N. rewrite (E2 id N). apply E1. set_solver.
Qed.

Lemma foldl_insert_spec {A} (entries : list (string * A)) (m : gmap string A) :
  NoDup entries.*1 → foldl (λ m u, <[u.1 := u.2]> m) m entries = list_to_map entries ∪ m.
Proof.
  revert m. induction entries as [|[k x] entries IH]; intros m ND; simpl in *; [by rewrite (left_id_L ∅ (∪))|].
  apply NoDup_cons in ND as [Nk ND]. rewrite IH by done. apply map_eq. intros i.
  rewrite <-insert_union_l. destruct (decide (i = k)) as [->|Ni].
  - rewrite lookup_insert_eq, lookup_union_r; [by rewrite lookup_insert_eq|]. by apply not_elem_of_list_to_map_1.
  - rewrite (lookup_insert_ne (_ ∪ _)) by done. by rewrite !lookup_union, lookup_insert_ne.
Qed.

Lemma initial_all (entries : list (string * Item P)) c :
  ch_all (foldl (λ c entry, mkChanges (<[entry.1 := entry.2]> (ch_all c)) ({[entry.1]} ∪ ch_affected c) (ch_initial c))
            c entries) = foldl (λ m u, <[u.1 := u.2]> m) (ch_all c) entries.
Proof. revert c. induction entries as [|e entries IH]; intros c; simpl; [done|]. by rewrite IH. Qed.

(** The copy of the session is the source. *)
Lemma changes_apply `{!CellMap (Item P)} diff c :
  diff_valid diff (ch_all c) → ch_all (apply_source_changes diff c) = apply_diff diff (ch_all c).
Proof.
  revert c. induction diff as [entries|k x|k x|k x y|changes IH] using MapDiff_rect'; intros c V; simpl in *.
  - rewrite initial_all, apply_initial, foldl_insert_spec by done. simpl. apply (right_id_L ∅ (∪)).
  - by rewrite apply_insert.
  - by rewrite apply_remove.
  - by rewrite apply_update.
  - rewrite apply_batch. revert c V. induction IH as [|d changes Hd _ IH']; intros c V; simpl; [done|].
    destruct V as [Vd V]. rewrite <-(Hd c Vd) in V |- *. by apply IH'.
Qed.
End changes.

(** ** The rows of a client *)

Definition restrict {A} (ids : list string) (m : gmap string A) : gmap string A :=
  filter (λ kv : string * A, kv.1 ∈ ids) m.

Lemma lookup_restrict {A} ids (m : gmap string A) k : restrict ids m !! k = if decide (k ∈ ids) then m !! k else None.
Proof.
  unfold restrict. case_decide as E.
  - destruct (m !! k) eqn:Em; [by apply map_lookup_filter_Some_2|]. rewrite map_lookup_filter_None. by left.
  - rewrite map_lookup_filter_None. right. by intros x _.
Qed.

(** Items are stored under their ids. *)
Definition well_keyed {P} (m : gmap string (Item P)) : Prop := ∀ k x, m !! k = Some x → item_id x = k.

Section rows.
Context {P T : Type} (view : Item P → T).
Implicit Types (all : gmap string (Item P)) (rows : gmap string T) (ids : list string).

Definition entry_of (x : Item P) : string * T := (item_id x, view x).

Lemma upserts_spec all ids :
  well_keyed all → NoDup ids →
  let us := entry_of <$> omap (λ id, all !! id) ids in
  NoDup us.*1 ∧ us.*1 ⊆ ids ∧ ∀ k, list_to_map (M:=gmap string T) us !! k = if decide (k ∈ ids) then view <$> all !! k else None.
Proof.
  intros W. induction ids as [|i ids IH]; intros ND; [split_and!; [constructor|set_solver|done]|].
  apply NoDup_cons in ND as [Ni ND]. destruct (IH ND) as (N & S & L). csimpl.
  destruct (all !! i) as [x|] eqn:E; csimpl.
  - rewrite (W _ _ E). split_and!.
    + constructor; [|done]. intros Hi. by apply Ni, S.
    + set_solver.
    + intros k. destruct (decide (k = i)) as [->|Nk].
      * rewrite lookup_insert_eq, decide_True, E by left. done.
      * rewrite lookup_insert_ne, L by done. apply decide_ext. set_solver.
  - split_and!; [done|set_solver|]. intros k. rewrite L. destruct (decide (k = i)) as [->|Nk].
    + rewrite decide_False by done. rewrite E. by case_decide.
    + apply decide_ext. set_solver.
Qed.

Lemma lookup_foldl_delete ids rows k :
  foldl (λ m id, delete id m) rows ids !! k = if decide (k ∈ ids) then None else rows !! k.
Proof.
  revert rows. induction ids as [|i ids IH]; intros rows; cbn [foldl].
  { rewrite decide_False; [done|apply not_elem_of_nil]. }
  rewrite IH. destruct (decide (k ∈ ids)); [by rewrite decide_True by set_solver|].
  destruct (decide (k = i)) as [->|]; [by rewrite lookup_delete_eq, decide_True by set_solver|].
  rewrite lookup_delete_ne by done. rewrite decide_False by set_solver. done.
Qed.

(** The rows of a client that receives a response. *)
Definition apply_response (r : PendingQueryResponse P) rows : gmap string T :=
  accumulate (bool_decide (pr_sequence r = 0%Z)) (pr_deletes r) (entry_of <$> pr_upsert_items r) rows.

Lemma lookup_apply_response (r : PendingQueryResponse P) rows all ids k :
  well_keyed all → NoDup ids → pr_upsert_items r = omap (λ id, all !! id) ids →
  apply_response r rows !! k =
    if decide (k ∈ ids ∧ is_Some (all !! k)) then view <$> all !! k
    else if decide (pr_sequence r = 0%Z ∨ k ∈ pr_deletes r) then None else rows !! k.
Proof.
  intros W ND E. destruct (upserts_spec all ids W ND) as (N & _ & L). unfold apply_response, accumulate.
  rewrite E, foldl_insert_spec by done. rewrite lookup_union, L, lookup_foldl_delete.
  assert (∀ o : option T, None ∪ o = o) as Hn by (by intros []).
  assert ((if decide (k ∈ pr_deletes r) then None else (if bool_decide (pr_sequence r = 0%Z) then ∅ else rows) !! k)
          = if decide (pr_sequence r = 0%Z ∨ k ∈ pr_deletes r) then None else rows !! k) as ->.
  { destruct (decide (k ∈ pr_deletes r)); [by rewrite decide_True by naive_solver|].
    case_bool_decide; [by rewrite lookup_empty, decide_True by naive_solver|]. by rewrite decide_False by naive_solver. }
  destruct (decide (k ∈ ids)) as [Hk|Hk]; [|rewrite Hn; symmetry; rewrite decide_False; [done|by intros [? _]]].
  destruct (all !! k) as [x|]; simpl; [|rewrite Hn; symmetry; rewrite decide_False; [done|by intros [_ [? ?]]]].
  symmetry. rewrite decide_True by (split; [done|by eexists]). by destruct (if decide _ then _ else _).
Qed.
End rows.

(** ** Responses of a materialized subscription *)
Section compute.
Context {P T : Type} (view : Item P → T).
Implicit Types (s : QuerySubscriptionState P) (rows : gmap string T) (r : PendingQueryResponse P).

Abbreviation all := qs_all_items.

Lemma split_ids_spec (m : gmap string (Item P)) ids :
  split_ids m ids = (omap (λ id, m !! id) ids, List.filter (λ id, negb (contains_key m id)) ids).
Proof.
  unfold split_ids. set (f := λ acc id, _).
  assert (∀ us ds, foldl f (us, ds) ids =
    (us ++ omap (λ id, m !! id) ids, ds ++ List.filter (λ id, negb (contains_key m id)) ids)) as E; [|apply E].
  induction ids as [|i ids IH]; intros us ds; csimpl; [by rewrite !app_nil_r|]. unfold f at 2; cbn beta.
  unfold contains_key. destruct (m !! i) as [x|] eqn:E; simpl.
  - rewrite IH, <-app_assoc. done.
  - rewrite IH, <-app_assoc. done.
Qed.

(** The rows shown for the current page. *)
Definition page_ids s : list string := page_of (selection s) (sorted_keys (all s)).
Definition page_items s : list T := omap (λ id, view <$> all s !! id) (page_ids s).

(** What a response tells of the state it leaves. *)
Definition describes (r : PendingQueryResponse P) s tx : Prop :=
  pr_tx r = tx ∧ pr_total_count r = Z.of_nat (size (all s)) ∧ pr_window r = qs_window s ∧
  pr_window_order_ids r = (if is_unwindowed s then None else Some (page_ids s)) ∧
  ∃ ids, NoDup ids ∧ pr_upsert_items r = omap (λ id, all s !! id) ids.

Definition same_selection s s' : Prop := qs_window s' = qs_window s ∧ qs_cursor_window s' = qs_cursor_window s.

Lemma page_ids_elem s id : id ∈ page_ids s → is_Some (all s !! id).
Proof. intros Hid%page_of_subset. by apply elem_of_sorted_keys. Qed.

(** A subscription without a window, when a diff is applied. *)
Lemma unwindowed_diff s d tx rows :
  let c := apply_source_changes d (mkChanges (all s) ∅ false) in
  is_unwindowed s = true → well_keyed (ch_all c) → rows = view <$> all s → qs_sequence s ≠ 0%Z ∨ ch_initial c = true →
  let '(s', o) := apply_source_diff_unwindowed s d tx in
  all s' = ch_all c ∧ same_selection s s' ∧ qs_visible_items s' = qs_visible_items s ∧
  match o with
  | Some r => describes r s' tx ∧ (pr_sequence r = 0 ∨ pr_sequence r = qs_sequence s)%Z ∧
              qs_sequence s' = sat_add (pr_sequence r) 1 ∧ apply_response view r rows = view <$> all s'
  | None => all s' = all s ∧ qs_sequence s' = qs_sequence s ∧ qs_sequence s ≠ 0%Z
  end.
Proof.
  intros c Hu W -> Hz. unfold apply_source_diff_unwindowed. fold c.
  destruct (changes_touch d (mkChanges (all s) ∅ false)) as [_ Touch]. fold c in Touch. simpl in Touch.
  set (s1 := if ch_initial c then with_sequence (with_all s (ch_all c)) 0 else with_all s (ch_all c)).
  assert (qs_all_items s1 = ch_all c ∧ same_selection s s1 ∧ qs_visible_items s1 = qs_visible_items s ∧
    qs_sequence s1 = if ch_initial c then 0%Z else qs_sequence s) as (Ea & Es & Ev & Eq)
    by (unfold s1, same_selection; by destruct (ch_initial c)).
  rewrite Ea. set (ids := if ch_initial c then sorted_keys (ch_all c) else sorted_elements (ch_affected c)).
  assert (NoDup ids) as ND by (unfold ids; case_match; apply sorted_NoDup, bt_of_list_sorted).
  rewrite split_ids_spec. destruct (negb _) eqn:Emit.
  - apply negb_true_iff, orb_false_iff in Emit as [Emit _]. apply orb_false_iff in Emit as [E0 E1].
    apply bool_decide_eq_false in E0. rewrite Eq in E0. destruct (ch_initial c) eqn:Ei; [done|].
    apply orb_false_iff in E1 as [E1 E2]. apply negb_false_iff, bool_decide_eq_true, nil_length_inv in E1, E2.
    assert (∀ id, id ∉ ids) as Hn.
    { intros id Hid. destruct (ch_all c !! id) as [x|] eqn:Ex.
      - apply (not_elem_of_nil x). rewrite <-E1. apply list_elem_of_omap. eauto.
      - apply (not_elem_of_nil id). rewrite <-E2, list_elem_of_In, filter_In, <-list_elem_of_In.
        split; [done|]. apply negb_true_iff. by apply contains_key_false. }
    assert (ch_all c = all s) as Eall.
    { apply map_eq. intros id. apply Touch. intros Hid. apply (Hn id). by apply elem_of_sorted_elements. }
    rewrite Ea, Eall, Eq. split_and!; try done; by destruct Es.
  - simpl. rewrite Ea. assert (same_selection s (with_sequence s1 (sat_add (qs_sequence s1) 1))) as Es' by done.
    split_and!; try done.
    + unfold describes. simpl. destruct Es as [Hw Hc].
      assert (is_unwindowed (with_sequence s1 (sat_add (qs_sequence s1) 1)) = true) as Hu'
        by (unfold is_unwindowed in *; simpl; by rewrite Hw, Hc).
      rewrite Hu'. split_and!; [done|by rewrite ?Ea| |done|exists ids; by rewrite ?Ea].
      simpl. rewrite Hw. unfold is_unwindowed in Hu. apply andb_true_iff in Hu as [Hu _].
      by apply bool_decide_eq_true in Hu.
    + rewrite Eq. destruct (ch_initial c); auto.
    + apply map_eq. intros k. rewrite (lookup_apply_response view _ _ (ch_all c) ids) by done. simpl.
      rewrite !lookup_fmap, Eq. destruct (ch_all c !! k) as [x|] eqn:Ex; simpl.
      * destruct (decide (k ∈ ids)) as [Hk|Hk]; [by rewrite decide_True|].
        rewrite decide_False by tauto. unfold ids in Hk. destruct (ch_initial c) eqn:Ei.
        { exfalso. apply Hk, elem_of_sorted_keys. eauto. }
        rewrite elem_of_sorted_elements in Hk. rewrite decide_False; [by rewrite <-(Touch k Hk), Ex|].
        intros [E|Hd]; [by destruct Hz|].
        apply list_elem_of_In, filter_In in Hd as [Hd _]. apply Hk. apply list_elem_of_In in Hd.
        unfold ids in Hd. by apply elem_of_sorted_elements in Hd.
      * rewrite decide_False by (intros [_ [? ?]]; done).
        destruct (ch_initial c) eqn:Ei; [by rewrite decide_True by by left|]. unfold ids.
        match goal with |- (if decide ?Q then _ else _) = _ => destruct (decide Q) as [Hd|Hd] end; [done|]. rewrite <-(Touch k), Ex; [done|]. intros Hk. apply Hd. right.
        rewrite list_elem_of_In, filter_In, <-list_elem_of_In, elem_of_sorted_elements. split; [done|].
        apply negb_true_iff. by apply contains_key_false.
Qed.

(** Leaving a window sends the whole source as a new snapshot. *)
Lemma unwindowed_snapshot s tx changed removed previous rows :
  is_unwindowed s = true → qs_sequence s = 0%Z → well_keyed (all s) →
  let '(s', o) := compute_unwindowed_response s tx changed removed previous true in
  all s' = all s ∧ same_selection s s' ∧ qs_sequence s' = sat_add 0 1 ∧
  ∃ r, o = Some r ∧ describes r s' tx ∧ pr_sequence r = 0%Z ∧ apply_response view r rows = view <$> all s'.
Proof.
  intros Hu E0 W. unfold compute_unwindowed_response. cbn -[sat_add sorted_keys]. rewrite !(bool_decide_true _ E0).
  pose proof (sorted_keys_sorted (all s)) as Sk.
  split_and!; [done|done|simpl; by rewrite E0|]. eexists. split; [done|]. split_and!; [|by rewrite ?E0|].
  - unfold describes. simpl. pose proof Hu as Hu'. unfold is_unwindowed in Hu |- *. simpl.
    rewrite Hu. split_and!; [done|done| |done|].
    + apply andb_true_iff in Hu as [Hu _]. by apply bool_decide_eq_true in Hu.
    + exists (sorted_keys (all s)). split; [by apply sorted_NoDup|done].
  - apply map_eq. intros k. rewrite (lookup_apply_response view _ _ (all s) (sorted_keys (all s))); try done;
      [|by apply sorted_NoDup]. simpl. rewrite lookup_fmap.
    destruct (all s !! k) as [x|] eqn:Ex; simpl.
    + rewrite decide_True; [done|]. split; [by apply elem_of_sorted_keys|done].
    + rewrite decide_False by (intros [_ [? ?]]; done). rewrite decide_True; [done|by left].
Qed.

Lemma next_visible_spec (m : gmap string (Item P)) ids base :
  foldl (λ next id, match m !! id with Some item => <[id := item]> next | None => next end) base ids
    = restrict ids m ∪ base.
Proof.
  revert base. induction ids as [|i ids IH]; intros base; cbn [foldl]; [|rewrite IH]; apply map_eq; intros k.
  - rewrite lookup_union, lookup_restrict, decide_False by apply not_elem_of_nil. by destruct (base !! k).
  - rewrite !lookup_union, !lookup_restrict. destruct (decide (k = i)) as [->|N].
    + rewrite (decide_True (P:=i ∈ i :: ids)) by left. destruct (m !! i) as [x|] eqn:E.
      * rewrite lookup_insert_eq. by destruct (decide (i ∈ ids)), (base !! i).
      * by destruct (decide (i ∈ ids)).
    + assert ((if decide (k ∈ i :: ids) then m !! k else None) = (if decide (k ∈ ids) then m !! k else None)) as ->
        by (apply decide_ext; set_solver).
      destruct (m !! i); [by rewrite lookup_insert_ne|done].
Qed.

Lemma omap_filtered {A B} (p : A → bool) (f : A → option B) (l : list A) :
  omap (λ x, if p x then f x else None) l = omap f (List.filter p l).
Proof. induction l as [|x l IH]; csimpl; [done|]. destruct (p x); csimpl; [by rewrite IH|done]. Qed.

Lemma omap_ext {A B} (f g : A → option B) (l : list A) : (∀ x, x ∈ l → f x = g x) → omap f l = omap g l.
Proof.
  induction l as [|x l IH]; intros E; csimpl; [done|]. rewrite (E x) by left. rewrite IH; [done|].
  intros y Hy. apply E. by right.
Qed.

(** The page after a change: the client keeps the rows it still sees and receives the others. *)
Lemma bounded_response s tx changed previous force rows :
  is_unwindowed s = false → well_keyed (all s) → selection_ok (selection s) → (Z.of_nat (size (all s)) ≤ u64_max)%Z →
  (∀ k, is_Some (qs_visible_items s !! k) → k ∉ changed → rows !! k = view <$> all s !! k) →
  let '(s', o) := compute_bounded_window_response s tx changed previous force in
  all s' = all s ∧ same_selection s s' ∧ qs_visible_items s' = restrict (page_ids s) (all s) ∧
  match o with
  | Some r => describes r s' tx ∧ pr_sequence r = qs_sequence s ∧ qs_sequence s' = sat_add (qs_sequence s) 1 ∧
              ∀ k, k ∈ page_ids s → apply_response view r rows !! k = view <$> all s !! k
  | None => qs_sequence s' = qs_sequence s ∧ qs_sequence s ≠ 0%Z ∧ force = false ∧
            previous = Z.of_nat (size (all s)) ∧ sorted_keys (qs_visible_items s) = page_ids s ∧
            ∀ k, k ∈ page_ids s → k ∉ changed
  end.
Proof.
  intros Hu W So Hl Hrows. unfold compute_bounded_window_response.
  rewrite visible_page_spec; [|apply sorted_keys_sorted|done|by rewrite sorted_keys_len]. fold (page_ids s).
  set (page := page_ids s). assert (NoDup page) as ND.
  { apply sorted_NoDup. unfold page, page_ids. apply page_of_sorted, sorted_keys_sorted. }
  rewrite next_visible_spec, (right_id_L ∅ (∪)).
  set (cond := λ id, bool_decide (qs_sequence s = 0%Z) || negb (contains_key (qs_visible_items s) id) || bool_decide (id ∈ changed)).
  assert (omap (λ id, if cond id then restrict page (all s) !! id else None) page
          = omap (λ id, all s !! id) (List.filter cond page)) as Eup.
  { rewrite <-omap_filtered. apply omap_ext. intros id Hid. rewrite lookup_restrict, decide_True by done. done. }
  unfold cond in Eup at 1. rewrite Eup. clear Eup. set (ups := List.filter cond page).
  set (dels := bt_of_list _). destruct (negb _) eqn:Emit.
  - apply negb_true_iff, orb_false_iff in Emit as [Emit Et]. apply orb_false_iff in Emit as [Emit Eo].
    apply orb_false_iff in Emit as [Emit Ev]. apply orb_false_iff in Emit as [Ef E0].
    apply orb_false_iff in Ev as [Ev _]. apply negb_false_iff, bool_decide_eq_true in Et, Eo, Ev.
    apply bool_decide_eq_false in E0. split_and!; try done. intros k Hk Hc.
    apply nil_length_inv in Ev. assert (k ∈ ups) as Hup.
    { unfold ups. rewrite list_elem_of_In, filter_In, <-list_elem_of_In. split; [done|]. unfold cond.
      rewrite (bool_decide_true (k ∈ changed)) by done. by rewrite orb_true_r. }
    destruct (page_ids_elem s k Hk) as [x Hx]. apply (not_elem_of_nil x). rewrite <-Ev. apply list_elem_of_omap. eauto.
  - clear Emit. split_and!; try done.
    + unfold describes, is_unwindowed in *. simpl. rewrite Hu. split_and!; try done.
      * destruct (qs_window s), (qs_cursor_window s); done.
      * exists ups. split; [|done]. by apply NoDup_List_filter.
    + intros k Hk. rewrite (lookup_apply_response view _ _ (all s) ups) by (done || by apply NoDup_List_filter). simpl.
      destruct (page_ids_elem s k Hk) as [x Hx]. rewrite Hx. destruct (cond k) eqn:Ec.
      { rewrite decide_True; [done|]. split; [|done]. unfold ups.
        rewrite list_elem_of_In, filter_In, <-list_elem_of_In. done. }
      rewrite decide_False; [|intros [Hin _]; unfold ups in Hin;
        rewrite list_elem_of_In, filter_In in Hin; destruct Hin; congruence].
      unfold cond in Ec. apply orb_false_iff in Ec as [Ec Hc]. apply orb_false_iff in Ec as [E0 Hv].
      apply bool_decide_eq_false in E0, Hc. apply negb_false_iff, contains_key_spec in Hv.
      rewrite decide_False; [by rewrite (Hrows k Hv Hc), Hx|]. intros [|Hd]; [done|].
      unfold dels in Hd. rewrite elem_of_bt_of_list, list_elem_of_In, filter_In in Hd. destruct Hd as [_ Hd].
      apply negb_true_iff, contains_key_false in Hd. by rewrite lookup_restrict, decide_True, Hx in Hd.
Qed.
End compute.
