(* ===== verification/SessionRun.v ===== *)
(** * A session and a watch of its client

    The wire between them, the operations of a session in any order, and the invariant that
    a watch which has received every response shows the current page of the source. *)

From stdpp Require Import base strings numbers option countable gmap sets list.
From S2P Require Import Prelude Order GraphTypes EdgeIds GraphWatch GraphWindow WatchProof WindowProof ClientSession ClientWatch SessionProof.

(** ** The wire *)

(** The rows a client decodes are views of the items the server encodes. *)
Class ItemCodec (P V T : Type) `{Entity V T} := {
  to_value : Item P → V;
  view : Item P → T;
  from_to_value (x : Item P) : from_value (to_value x) = Some (view x);
  view_id (x : Item P) : entity_id (view x) = item_id x
}.

Section wire.
Context {P V T : Type} `{ItemCodec P V T}.

Definition wrap (e : ErasedWrappedItem P) : WrappedItem V := mkWrapped (to_value (ew_item e)) (ew_type e).

Definition read_change (c : QueryChange P) : ClientQueryChange V :=
  match c with
  | Upsert item => ClientUpsert (wrap item)
  | Delete id => ClientDelete id
  | WindowOrder ids total_count window => ClientWindowOrder ids total_count window
  end.

(** The two structs have the same fields. *)
Definition read_response (r : QueryResponse P) : ClientQueryResponse V :=
  mkClientResponse (read_change <$> qr_changes r) (qr_deletes r) (wrap <$> qr_upserts r) (qr_sequence r) (qr_tx r)
    (qr_total_count r) (qr_window r).
End wire.

(** Serializing a response and deserializing it on the client. *)
Class Transport (P V T : Type) `{ItemCodec P V T} := {
  transport : QueryResponse P → option (ClientQueryResponse V);
  transport_spec r : transport r = Some (read_response r)
}.

(** ** Receiving *)
Section receive.
Context {P V T : Type} `{Transport P V T}.
Implicit Types (s : QuerySubscriptionState P) (r : PendingQueryResponse P) (w : WindowedQueryWatch T) (tx : string).

Lemma decode_upserts r : decode_map_upserts (cr_upserts (read_response (into_wire r))) = Some (entry_of view <$> pr_upsert_items r).
Proof.
  unfold decode_map_upserts, read_response, into_wire. simpl. rewrite <-list_fmap_compose.
  apply mapM_Some, Forall2_fmap, Forall_Forall2_diag, Forall_forall. intros x _. simpl.
  rewrite from_to_value. simpl. unfold entry_of. by rewrite view_id.
Qed.

Lemma order_of r : find_order (cr_changes (read_response (into_wire r))) = pr_window_order_ids r.
Proof. unfold read_response, into_wire. simpl. by destruct (pr_window_order_ids r). Qed.

Lemma accept_next (n m : Z) :
  (n = 0 ∨ n = m)%Z → (n < u64_max)%Z → accept n (mkSequence false m) = (mkSequence false (n + 1), true).
Proof.
  intros Hn Hb. unfold accept. destruct (decide (n = 0%Z)) as [->|N]; [done|]. simpl.
  destruct Hn as [?|<-]; [done|]. rewrite decide_False by (intros N'; by apply N').
  destruct (Z.ltb_spec u64_max (n + 1)); [lia|done].
Qed.

(** A sequence number is in order: the snapshot always is. *)
Definition in_order (n : Z) (q : SequenceState) : Prop := n = 0%Z ∨ q = mkSequence false n.

Lemma accept_in_order n q : in_order n q → (n < u64_max)%Z → accept n q = (mkSequence false (n + 1), true).
Proof. intros [->| ->] Hb; [done|]. apply accept_next; auto. Qed.

Lemma screen_spec tx r q :
  pr_tx r = tx → in_order (pr_sequence r) q → (pr_sequence r < u64_max)%Z →
  screen_response tx (transport (into_wire r)) q =
    (mkSequence false (pr_sequence r + 1), Some (read_response (into_wire r), entry_of view <$> pr_upsert_items r)).
Proof.
  intros Et Eq Hb. unfold screen_response. rewrite transport_spec.
  change (cr_tx (read_response (into_wire r))) with (pr_tx r). rewrite bool_decide_true by done. cbn [negb].
  rewrite decode_upserts. change (cr_sequence (read_response (into_wire r))) with (pr_sequence r).
  by rewrite (accept_in_order _ _ Eq Hb).
Qed.

Lemma screen_other tx r q : pr_tx r ≠ tx → screen_response tx (transport (into_wire r)) q = (q, None).
Proof.
  intros Et. unfold screen_response. rewrite transport_spec.
  change (cr_tx (read_response (into_wire r))) with (pr_tx r). by rewrite bool_decide_false.
Qed.

Definition receive tx w r : WindowedQueryWatch T := window_response tx (transport (into_wire r)) w.

Lemma receive_other tx w r : pr_tx r ≠ tx → receive tx w r = w.
Proof. intros Et. unfold receive, window_response. rewrite screen_other by done. by destruct w. Qed.

(** ** The watch shows the page *)
Record watching s w : Prop := {
  watch_visible : ∀ k, is_Some (qs_visible_items s !! k) → ww_rows w !! k = view <$> qs_all_items s !! k;
  watch_all : is_unwindowed s = true → ww_rows w = view <$> qs_all_items s;
  watch_page : is_unwindowed s = false → qs_visible_items s = restrict (page_ids s) (qs_all_items s);
  watch_items : ww_items w = page_items view s;
  watch_total : ww_total_count w = Some (Z.of_nat (size (qs_all_items s)));
  watch_window : ww_window w = qs_window s;
  watch_ready : ww_ready w = true;
  watch_sequence : ww_sequences w = mkSequence false (qs_sequence s);
  watch_started : (0 < qs_sequence s)%Z;
  watch_state : ww_state w = page_state_new (ww_items w) true (ww_total_count w) (ww_window w)
}.

Lemma unwindowed_page s : is_unwindowed s = true → page_ids s = sorted_keys (qs_all_items s).
Proof.
  unfold is_unwindowed, page_ids, selection. intros [Hw Hc]%andb_true_iff.
  apply bool_decide_eq_true in Hw, Hc. by rewrite Hw, Hc.
Qed.

Lemma receive_watching tx s w r :
  describes r s tx → in_order (pr_sequence r) (ww_sequences w) →
  (pr_sequence r = 0%Z ∨ ww_ready w = true) → (0 ≤ pr_sequence r < u64_max)%Z →
  qs_sequence s = sat_add (pr_sequence r) 1 →
  (if is_unwindowed s then apply_response view r (ww_rows w) = view <$> qs_all_items s
   else qs_visible_items s = restrict (page_ids s) (qs_all_items s) ∧
        ∀ k, k ∈ page_ids s → apply_response view r (ww_rows w) !! k = view <$> qs_all_items s !! k) →
  watching s (receive tx w r).
Proof.
  intros (Et & Ec & Ew & Eo & _) Hq Hr Hb Es Hrows. unfold receive, window_response.
  rewrite (screen_spec tx r _ Et Hq) by lia. cbn beta iota. rewrite order_of.
  change (accumulate _ _ _ (ww_rows w)) with (apply_response view r (ww_rows w)).
  change (cr_total_count _) with (Some (pr_total_count r)). change (cr_window _) with (pr_window r).
  change (cr_sequence _) with (pr_sequence r). rewrite Ec, Ew.
  set (rows := apply_response view r (ww_rows w)) in *.
  assert (omap (λ id, rows !! id) (default (sorted_keys rows) (pr_window_order_ids r)) = page_items view s) as Ei.
  { rewrite Eo. unfold page_items. destruct (is_unwindowed s) eqn:Hu; cbn [default].
    - rewrite Hrows, unwindowed_page by done.
      rewrite (sorted_keys_ext (view <$> qs_all_items s) (qs_all_items s)) by (intros k; by rewrite lookup_fmap, fmap_is_Some).
      apply omap_ext. intros k _. by rewrite lookup_fmap.
    - apply omap_ext. intros k Hk. by apply Hrows. }
  assert (bool_decide (pr_sequence r = 0%Z) || ww_ready w = true) as Er
    by (destruct Hr as [Hr|Hr]; [by rewrite bool_decide_true|by rewrite Hr, orb_true_r]).
  rewrite Ei, (orb_comm (ww_ready w)), Er.
  split; cbn [ww_items ww_ready ww_total_count ww_window ww_state ww_rows ww_sequences]; try done.
  - intros k Hk. destruct (is_unwindowed s) eqn:Hu; [by rewrite Hrows, lookup_fmap|].
    destruct Hrows as [Ev Hk']. apply Hk'. rewrite Ev, lookup_restrict in Hk. by destruct (decide (k ∈ page_ids s)); [|destruct Hk].
  - intros Hu. by rewrite Hu in Hrows.
  - intros Hu. rewrite Hu in Hrows. by destruct Hrows.
  - rewrite Es. unfold sat_add. f_equal. lia.
  - rewrite Es. unfold sat_add. unfold u64_max. lia.
Qed.
End receive.

(** ** Events of one subscription *)

Inductive SubscriptionEvent (P : Type) :=
| EvDiff (diff : MapDiff (Item P))
| EvWindow (window : option QueryWindow)
| EvCursor (window : QueryCursorWindow).
Arguments EvDiff {P}. Arguments EvWindow {P}. Arguments EvCursor {P}.

Section events.
Context {P V T : Type} `{Transport P V T}.
Implicit Types (s : QuerySubscriptionState P) (w : WindowedQueryWatch T) (tx : string) (d : MapDiff (Item P)).

Definition subscription_event s (e : SubscriptionEvent P) tx : QuerySubscriptionState P * option (PendingQueryResponse P) :=
  match e with
  | EvDiff d => apply_source_diff s d tx
  | EvWindow window => apply_window_update s window tx
  | EvCursor window =>
      match cursor_validate window with
      | Err _ => (s, None)
      | Ok _ => apply_cursor_window_update (mkSub (qs_sequence s) None (qs_cursor_window s) (qs_all_items s) (qs_visible_items s)) window tx
      end
  end.

(** The rows of a diff are keyed by their ids. *)
Fixpoint diff_keyed d : Prop :=
  match d with
  | Initial entries => ∀ k x, (k, x) ∈ entries → item_id x = k
  | Insert k x | Update k _ x => item_id x = k
  | Remove _ _ => True
  | Batch changes => (fix all changes := match changes with [] => True | c :: cs => diff_keyed c ∧ all cs end) changes
  end.

Definition event_fine (e : SubscriptionEvent P) : Prop :=
  match e with
  | EvDiff d => diff_keyed d
  | EvWindow window => selection_ok (Offset window)
  | EvCursor window => (0 ≤ cw_limit window)%Z
  end.

(** A subscription has one kind of window at most, windows the program can build, rows under
    their ids. *)
Definition subscription_fine s : Prop :=
  (qs_window s = None ∨ qs_cursor_window s = None) ∧ selection_ok (selection s) ∧ well_keyed (qs_all_items s).

Lemma changes_keyed d (c : Changes P) : diff_keyed d → well_keyed (ch_all c) → well_keyed (ch_all (apply_source_changes d c)).
Proof.
  revert c. induction d as [entries|k x|k x|k x y|changes IH] using MapDiff_rect'; intros c K W; simpl in *.
  - rewrite initial_all. simpl. assert (well_keyed (P:=P) ∅) as W0 by (intros k x; by rewrite lookup_empty).
    revert W0. generalize (∅ : gmap string (Item P)). induction entries as [|[k x] entries IH]; intros m W0; simpl; [done|].
    apply IH; [intros k' x' Hin; apply K; by right|]. intros k' x' [[<- <-]|[_ E]]%lookup_insert_Some; [|by apply W0].
    apply K. left.
  - intros k' x' [[<- <-]|[_ E]]%lookup_insert_Some; [done|by apply W].
  - intros k' x' [_ E]%lookup_delete_Some. by apply W.
  - intros k' x' [[<- <-]|[_ E]]%lookup_insert_Some; [done|by apply W].
  - revert c W. induction IH as [|d changes Hd _ IH']; intros c W; simpl; [done|].
    destruct K as [Kd K]. apply IH'; [done|]. by apply Hd.
Qed.

Lemma insert_size_le {A} k (x : A) (m : gmap string A) : size (<[k := x]> m) ≤ S (size m).
Proof. rewrite map_size_insert. destruct (m !! k); simpl; unfold id; lia. Qed.

Lemma foldl_insert_size {A} (entries : list (string * A)) (m : gmap string A) :
  size (foldl (λ m u, <[u.1 := u.2]> m) m entries) ≤ size m + length entries.
Proof.
  revert m. induction entries as [|[k x] entries IH]; intros m; simpl; [lia|].
  etrans; [apply IH|]. simpl. pose proof (insert_size_le k x m). lia.
Qed.

Lemma changes_size d (c : Changes P) : size (ch_all (apply_source_changes d c)) ≤ size (ch_all c) + diff_weight d.
Proof.
  revert c. induction d as [entries|k x|k x|k x y|changes IH] using MapDiff_rect'; intros c; simpl in *.
  - rewrite initial_all. etrans; [apply foldl_insert_size|]. simpl. rewrite map_size_empty. lia.
  - pose proof (insert_size_le k x (ch_all c)). lia.
  - rewrite map_size_delete. destruct (ch_all c !! k); simpl; lia.
  - pose proof (insert_size_le k y (ch_all c)). lia.
  - revert c. induction IH as [|d changes Hd _ IH']; intros c; simpl; [lia|].
    specialize (IH' (apply_source_changes d c)). specialize (Hd c). lia.
Qed.

Lemma fine_selection s s' : same_selection s s' → selection s' = selection s ∧ is_unwindowed s' = is_unwindowed s.
Proof. intros [Ew Ec]. unfold selection, is_unwindowed. by rewrite Ew, Ec. Qed.

(** The state after a source diff, windowed or not, before the response is computed. *)
Definition after_changes s d : QuerySubscriptionState P :=
  let c := apply_source_changes d (mkChanges (qs_all_items s) ∅ false) in
  if ch_initial c then with_sequence (with_all s (ch_all c)) 0 else with_all s (ch_all c).

Definition client_after tx w (o : option (PendingQueryResponse P)) : WindowedQueryWatch T :=
  match o with Some r => receive tx w r | None => w end.

(** A page response to a watched subscription. *)
Lemma bounded_watching tx s w s1 changed previous force :
  watching s w → is_unwindowed s1 = false → well_keyed (qs_all_items s1) → selection_ok (selection s1) →
  (Z.of_nat (size (qs_all_items s1)) ≤ u64_max)%Z → qs_visible_items s1 = qs_visible_items s →
  (qs_sequence s1 = 0 ∨ qs_sequence s1 = qs_sequence s)%Z → (qs_sequence s < u64_max)%Z →
  (∀ k, k ∉ changed → qs_all_items s1 !! k = qs_all_items s !! k) →
  previous = Z.of_nat (size (qs_all_items s)) → (force = true ∨ same_selection s s1) →
  let '(s', o) := compute_bounded_window_response s1 tx changed previous force in
  watching s' (client_after tx w o) ∧ same_selection s1 s' ∧ qs_all_items s' = qs_all_items s1.
Proof.
  intros W Hu Wk So Hb Ev Eq Hq Hc Ep Hf.
  pose proof (bounded_response view s1 tx changed previous force (ww_rows w) Hu Wk So Hb) as R.
  destruct (compute_bounded_window_response s1 tx changed previous force) as [s' o].
  destruct R as (Ea & Es & Evis & R).
  { intros k Hk Nk. rewrite Ev in Hk. rewrite (watch_visible _ _ W k Hk). by rewrite Hc. }
  pose proof (fine_selection _ _ Es) as [Esel Eu]. rewrite Hu in Eu.
  assert (page_ids s' = page_ids s1) as Epage by (unfold page_ids; by rewrite Esel, Ea).
  split; [|done]. destruct o as [r|]; simpl.
  - destruct R as (D & Er & Es' & Hrows). apply receive_watching; try done.
    + unfold in_order. rewrite Er, (watch_sequence _ _ W). destruct Eq as [->|E]; [by left|right; by rewrite E].
    + right. apply W.
    + rewrite Er. pose proof (watch_started _ _ W). destruct Eq as [->| ->]; [|lia]. unfold u64_max. lia.
    + by rewrite Er.
    + rewrite Eu, Epage, Ea. split; [done|]. intros k Hk. by apply Hrows.
  - destruct R as (Es' & N0 & -> & Ep' & Epg & Hpg). destruct Hf as [|Hf]; [done|].
    pose proof (fine_selection _ _ Hf) as [Esel1 Eu1]. rewrite Hu in Eu1. symmetry in Eu1.
    assert (page_ids s1 = page_ids s) as Epg1.
    { rewrite <-Epg, Ev, (watch_page _ _ W Eu1). apply sorted_ext; [apply sorted_keys_sorted| |].
      - apply page_of_sorted, sorted_keys_sorted.
      - intros k. rewrite elem_of_sorted_keys, lookup_restrict. split; [by destruct (decide (k ∈ page_ids s)); [|intros []]|].
        intros Hk. rewrite decide_True by done. by apply page_ids_elem. }
    assert (∀ k, k ∈ page_ids s → qs_all_items s1 !! k = qs_all_items s !! k) as Hk1
      by (intros k Hk; apply Hc, Hpg; by rewrite Epg1).
    destruct W as [W1 W2 W3 W4 W5 W6 W7 W8 W9 W10]. split; try done.
    + intros k Hk. rewrite Evis, lookup_restrict in Hk. destruct (decide (k ∈ page_ids s1)) as [Hin|]; [|by destruct Hk].
      rewrite Epg1 in Hin. rewrite Ea, Hk1 by done. apply W1. rewrite W3, lookup_restrict, decide_True by done.
      by apply page_ids_elem.
    + by rewrite Eu.
    + rewrite Epage, Evis, Ea. done.
    + rewrite W4. unfold page_items. rewrite Epage, Epg1. apply omap_ext. intros k Hk. by rewrite Ea, Hk1.
    + rewrite Ea, W5, <-Ep', Ep. done.
    + destruct Es as [-> _], Hf as [-> _]. done.
    + rewrite Es', W8. f_equal. by destruct Eq.
    + rewrite Es'. destruct Eq as [E| ->]; [by rewrite E in N0|done].
Qed.

Definition event_weight (e : SubscriptionEvent P) : nat := match e with EvDiff d => diff_weight d | _ => 0 end.

Lemma diff_watching tx s w d :
  watching s w → subscription_fine s → diff_keyed d → (qs_sequence s < u64_max)%Z →
  (Z.of_nat (size (qs_all_items s) + diff_weight d) ≤ u64_max)%Z →
  let '(s', o) := apply_source_diff s d tx in watching s' (client_after tx w o) ∧ subscription_fine s'.
Proof.
  intros W (Hw & So & Wk) Kd Hq Hb. unfold apply_source_diff.
  set (c := apply_source_changes d (mkChanges (qs_all_items s) ∅ false)).
  assert (well_keyed (ch_all c)) as Wk' by by apply changes_keyed.
  pose proof (changes_size d (mkChanges (qs_all_items s) ∅ false)) as Hs. fold c in Hs. simpl in Hs.
  destruct (changes_touch d (mkChanges (qs_all_items s) ∅ false)) as [_ Touch]. fold c in Touch. simpl in Touch.
  pose proof (watch_started _ _ W) as Hst.
  destruct (is_unwindowed s) eqn:Hu.
  - pose proof (unwindowed_diff view s d tx (ww_rows w)) as R. fold c in R. cbv zeta in R.
    specialize (R Hu Wk' (watch_all _ _ W Hu) ltac:(left; lia)).
    destruct (apply_source_diff_unwindowed s d tx) as [s' o]. destruct R as (Ea & Es & Ev & R).
    pose proof (fine_selection _ _ Es) as [Esel Eu]. rewrite Hu in Eu.
    assert (subscription_fine s') as Fs.
    { unfold subscription_fine. destruct Es as [Ew Ec]. by rewrite Ew, Ec, Esel, Ea. }
    split; [|done]. destruct o as [r|]; simpl.
    + destruct R as (D & Er & Es' & Hrows). apply receive_watching; try done.
      * destruct Er as [Er|Er]; [by left|]. right. rewrite Er. apply W.
      * right. apply W.
      * destruct Er as [->| ->]; [|lia]. unfold u64_max. lia.
      * by rewrite Eu.
    + destruct R as (Eall & Eseq & N0). destruct W as [W1 W2 W3 W4 W5 W6 W7 W8 W9 W10]. split; try done.
      * rewrite Ev, Eall. done.
      * by rewrite Eall, W2.
      * by rewrite Eu.
      * rewrite W4. unfold page_items, page_ids. by rewrite Esel, Eall.
      * by rewrite Eall.
      * destruct Es as [-> _]. done.
      * by rewrite Eseq.
      * by rewrite Eseq.
  - change (if ch_initial c then _ else _) with (after_changes s d).
    set (s1 := after_changes s d).
    assert (qs_all_items s1 = ch_all c ∧ same_selection s s1 ∧ qs_visible_items s1 = qs_visible_items s ∧
      (qs_sequence s1 = 0%Z ∨ qs_sequence s1 = qs_sequence s)) as (Ea & Es & Ev & Eq).
    { unfold s1, after_changes. fold c. destruct (ch_initial c); split_and!; try done; auto. }
    pose proof (fine_selection _ _ Es) as [Esel Eu]. rewrite Hu in Eu.
    unfold compute_windowed_response. rewrite Eu.
    pose proof (bounded_watching tx s w s1 (ch_affected c) (Z.of_nat (size (qs_all_items s))) false) as R.
    specialize (R W Eu ltac:(by rewrite Ea) ltac:(by rewrite Esel) ltac:(rewrite Ea; lia) Ev Eq Hq).
    specialize (R ltac:(intros k Hk; rewrite Ea; by apply Touch) eq_refl (or_intror Es)).
    destruct (compute_bounded_window_response _ _ _ _ _) as [s' o]. destruct R as (W' & Es' & Ea').
    split; [done|]. pose proof (fine_selection _ _ Es') as [Esel' _]. unfold subscription_fine.
    rewrite Esel', Esel, Ea', Ea. destruct Es as [Ew Ec], Es' as [Ew' Ec']. by rewrite Ew', Ec', Ew, Ec.
Qed.

(** Moving to another page. *)
Lemma move_watching tx s w s1 :
  watching s w → is_unwindowed s1 = false → subscription_fine s1 → qs_all_items s1 = qs_all_items s →
  qs_visible_items s1 = qs_visible_items s → qs_sequence s1 = qs_sequence s → (qs_sequence s < u64_max)%Z →
  (Z.of_nat (size (qs_all_items s)) ≤ u64_max)%Z →
  let '(s', o) := compute_windowed_response s1 tx ∅ ∅ (Z.of_nat (size (qs_all_items s1))) true in
  watching s' (client_after tx w o) ∧ subscription_fine s'.
Proof.
  intros W Hu (Hw & So & Wk) Ea Ev Eq Hq Hb. unfold compute_windowed_response. rewrite Hu, Ea.
  pose proof (bounded_watching tx s w s1 ∅ (Z.of_nat (size (qs_all_items s))) true W Hu Wk So) as R.
  rewrite Ea in R. specialize (R Hb Ev (or_intror Eq) Hq ltac:(done) eq_refl (or_introl eq_refl)).
  destruct (compute_bounded_window_response _ _ _ _ _) as [s' o]. destruct R as (W' & Es' & Ea').
  split; [done|]. pose proof (fine_selection _ _ Es') as [Esel' _]. unfold subscription_fine.
  rewrite Esel', Ea', <-Ea. destruct Es' as [Ew' Ec']. by rewrite Ew', Ec'.
Qed.

Lemma window_watching tx s w window :
  watching s w → subscription_fine s → selection_ok (Offset window) → (qs_sequence s < u64_max)%Z →
  (Z.of_nat (size (qs_all_items s)) ≤ u64_max)%Z →
  let '(s', o) := apply_window_update s window tx in watching s' (client_after tx w o) ∧ subscription_fine s'.
Proof.
  intros W (Hw & So & Wk) Sw Hq Hb. unfold apply_window_update.
  destruct (same_window (qs_window s) window) eqn:Esame; [done|].
  set (s0 := mkSub (qs_sequence s) window None (qs_all_items s) (qs_visible_items s)).
  destruct window as [window|].
  - rewrite (bool_decide_false (Some window = None)) by done. rewrite andb_false_r.
    apply (move_watching tx s w s0); try done. split_and!; [by right|done|done].
  - destruct (qs_window s) as [cur|] eqn:Ecur; [|done].
    rewrite (bool_decide_true (is_Some (Some cur))), (bool_decide_true (None = None)) by done. cbn [orb andb].
    change (compute_windowed_response (with_sequence s0 0) tx ∅ ∅) with (compute_unwindowed_response (with_sequence s0 0) tx ∅ ∅).
    change (qs_all_items (with_sequence s0 0)) with (qs_all_items s).
    pose proof (unwindowed_snapshot view (with_sequence s0 0) tx ∅ ∅ (Z.of_nat (size (qs_all_items s))) (ww_rows w)
      eq_refl eq_refl Wk) as R.
    destruct (compute_unwindowed_response _ _ _ _ _ _) as [s' o]. destruct R as (Ea & Es & Eseq & r & -> & D & Er & Hrows).
    pose proof (fine_selection _ _ Es) as [Esel Eu]. change (is_unwindowed (with_sequence s0 0)) with true in Eu.
    cbn [client_after]. split.
    + apply receive_watching; try done; [by left|by left|rewrite Er; unfold u64_max; lia|by rewrite Er|by rewrite Eu].
    + unfold subscription_fine. rewrite Esel, Ea. destruct Es as [-> ->]. by split_and!; [left| |].
Qed.

Lemma cursor_watching tx s w window :
  watching s w → subscription_fine s → (0 ≤ cw_limit window)%Z → (qs_sequence s < u64_max)%Z →
  (Z.of_nat (size (qs_all_items s)) ≤ u64_max)%Z →
  let '(s', o) := subscription_event s (EvCursor window) tx in watching s' (client_after tx w o) ∧ subscription_fine s'.
Proof.
  intros W F Hl Hq Hb. pose proof F as (Hw & So & Wk). simpl. destruct (cursor_validate window) as [[]|e] eqn:Ev; [|done].
  unfold apply_cursor_window_update. simpl. case_decide as Ec.
  - assert (mkSub (qs_sequence s) None (qs_cursor_window s) (qs_all_items s) (qs_visible_items s) = s) as ->; [|done].
    destruct Hw as [Hw|Hw]; [|congruence]. destruct s; simpl in *; by subst.
  - by apply (move_watching tx s w (mkSub (qs_sequence s) None (Some window) (qs_all_items s) (qs_visible_items s)));
      try done; split_and!; [left| |].
Qed.

(** Every event keeps the watch on its page. *)
Lemma event_watching tx s w e :
  watching s w → subscription_fine s → event_fine e → (qs_sequence s < u64_max)%Z →
  (Z.of_nat (size (qs_all_items s) + event_weight e) ≤ u64_max)%Z →
  let '(s', o) := subscription_event s e tx in watching s' (client_after tx w o) ∧ subscription_fine s'.
Proof.
  intros W F Fe Hq Hb. destruct e as [d|window|window]; simpl in Hb.
  - by apply diff_watching.
  - apply window_watching; try done. lia.
  - apply cursor_watching; try done. lia.
Qed.
End events.

(** ** Operations of a session *)

Inductive SessionOp (P S : Type) :=
| OpEvent (tx : string) (e : SubscriptionEvent P)
| OpSubscribe (tx : string) (entries : list (string * Item P)) (window : option QueryWindow) (kind : QuerySubscriptionKind)
| OpSubscribeWindowed (tx : string) (source : S)
| OpSnapshot (tx : string) (source : S) (snapshot : option (WindowedQuerySnapshot P))
| OpReport (tx : string)
| OpCancel (tx : string).
Arguments OpEvent {P S}. Arguments OpSubscribe {P S}. Arguments OpSubscribeWindowed {P S}.
Arguments OpSnapshot {P S}. Arguments OpReport {P S}. Arguments OpCancel {P S}.

Section ops.
Context {P S : Type} `{!EqDecision (Item P)} `{!WindowedQuerySource P S}.
Implicit Types (c : ClientSession P S) (s : QuerySubscriptionState P) (tx : string) (op : SessionOp P S).

Definition session_op op c : ClientSession P S :=
  match op with
  | OpEvent tx (EvDiff d) => on_source_diff tx d c
  | OpEvent tx (EvWindow window) => update_query_window tx window c
  | OpEvent tx (EvCursor window) => update_query_cursor_window tx window c
  | OpSubscribe tx entries window kind => subscribe_materialized tx entries window kind c
  | OpSubscribeWindowed tx source => subscribe_windowed_query tx source c
  | OpSnapshot tx source snapshot => on_snapshot tx source snapshot c
  | OpReport tx => subscribe_report tx c
  | OpCancel tx => cancel tx c
  end.

Definition op_tx op : string :=
  match op with
  | OpEvent tx _ | OpSubscribe tx _ _ _ | OpSubscribeWindowed tx _ | OpSnapshot tx _ _ | OpReport tx | OpCancel tx => tx
  end.

(** The response of a computation is for its transaction, and counts one more. *)
Lemma compute_shape s tx changed removed previous force :
  let '(s', o) := compute_windowed_response s tx changed removed previous force in
  qs_all_items s' = qs_all_items s ∧ (qs_sequence s' = qs_sequence s ∨ qs_sequence s' = sat_add (qs_sequence s) 1) ∧
  (∀ r, o = Some r → pr_tx r = tx) ∧ same_selection s s'.
Proof.
  unfold same_selection, compute_windowed_response, compute_unwindowed_response, compute_bounded_window_response.
  destruct (is_unwindowed s); cbv zeta; destruct (negb _); split_and!; try done; try (by left); try (by right);
    by intros r [= <-].
Qed.

Ltac destruct_compute s' o R :=
  match goal with |- context [compute_windowed_response ?a ?b ?c ?d ?e ?f] =>
    pose proof (compute_shape a b c d e f) as R; destruct (compute_windowed_response a b c d e f) as [s' o] end.

Lemma sat_add_le (n : Z) : (sat_add n 1 ≤ n + 1)%Z.
Proof. unfold sat_add. lia. Qed.

Lemma event_shape s e tx :
  let '(s', o) := subscription_event s e tx in
  size (qs_all_items s') ≤ size (qs_all_items s) + event_weight e ∧ (qs_sequence s' ≤ Z.max 0 (qs_sequence s) + 1)%Z ∧
  ∀ r, o = Some r → pr_tx r = tx.
Proof.
  destruct e as [d|window|window]; simpl.
  - unfold apply_source_diff. set (c := apply_source_changes d _).
    pose proof (changes_size d (mkChanges (qs_all_items s) ∅ false)) as Hs. fold c in Hs. simpl in Hs.
    pose proof (sat_add_le (qs_sequence s)). pose proof (sat_add_le 0).
    destruct (is_unwindowed s).
    + unfold apply_source_diff_unwindowed. fold c. rewrite split_ids_spec.
      destruct (negb _), (ch_initial c); simpl; split_and!; try done; try lia; by intros r [= <-].
    + destruct_compute s' o R.
      destruct R as (-> & Hseq & Htx & _). destruct (ch_initial c); simpl in *; split_and!; try done; destruct Hseq; lia.
  - unfold apply_window_update. destruct (same_window _ _); [split_and!; try done; lia|].
    destruct_compute s' o R.
    destruct R as (-> & Hseq & Htx & _). pose proof (sat_add_le (qs_sequence s)). pose proof (sat_add_le 0).
    destruct (_ && _); simpl in *; split_and!; try done; try lia; destruct Hseq; lia.
  - destruct (cursor_validate window); [|split_and!; try done; lia].
    unfold apply_cursor_window_update. destruct (decide _); [simpl; split_and!; try done; lia|].
    destruct_compute s' o R.
    destruct R as (-> & Hseq & Htx & _). pose proof (sat_add_le (qs_sequence s)). simpl in *.
    split_and!; try done; try lia; destruct Hseq; lia.
Qed.

(** The copy of the source changes with its diffs only. *)
Lemma source_diff_all s d tx :
  qs_all_items (apply_source_diff s d tx).1 = ch_all (apply_source_changes d (mkChanges (qs_all_items s) ∅ false)).
Proof.
  unfold apply_source_diff. destruct (is_unwindowed s).
  - unfold apply_source_diff_unwindowed. rewrite split_ids_spec. by destruct (ch_initial _), (negb _).
  - destruct_compute s' o R.
    destruct R as (E & _). simpl. rewrite E. by destruct (ch_initial _).
Qed.

Lemma window_update_all s window tx : qs_all_items (apply_window_update s window tx).1 = qs_all_items s.
Proof.
  unfold apply_window_update. destruct (same_window _ _); [done|].
  destruct_compute s' o R.
  destruct R as (E & _). simpl. rewrite E. by destruct (_ && _).
Qed.

Lemma cursor_update_all s window tx :
  qs_all_items (apply_cursor_window_update (mkSub (qs_sequence s) None (qs_cursor_window s) (qs_all_items s) (qs_visible_items s)) window tx).1
    = qs_all_items s.
Proof.
  unfold apply_cursor_window_update. destruct (decide _); [done|].
  destruct_compute s' o R.
  destruct R as (E & _). simpl. by rewrite E.
Qed.

(** Events keep a subscription well formed. *)
Lemma event_keeps_fine s e tx : subscription_fine s → event_fine e → subscription_fine (subscription_event s e tx).1.
Proof.
  intros (Hw & So & W) Fe. unfold subscription_fine. destruct e as [d|window|window]; cbn [subscription_event].
  - rewrite source_diff_all. assert (same_selection s (apply_source_diff s d tx).1) as Es.
    { unfold apply_source_diff. destruct (is_unwindowed s).
      - unfold apply_source_diff_unwindowed. rewrite split_ids_spec. by destruct (ch_initial _), (negb _).
      - destruct_compute s' o R. destruct R as (_ & _ & _ & [Ew Ec]). unfold same_selection. simpl. rewrite Ew, Ec.
        by destruct (ch_initial _). }
    pose proof (fine_selection _ _ Es) as [-> _]. destruct Es as [-> ->]. split_and!; [done|done|by apply changes_keyed].
  - rewrite window_update_all. unfold apply_window_update. destruct (same_window _ _); [done|].
    destruct_compute s' o R. destruct R as (_ & _ & _ & Es). cbn [fst]. pose proof (fine_selection _ _ Es) as [-> _].
    destruct Es as [-> ->]. destruct (_ && _); simpl; by split_and!; [right| |].
  - destruct (cursor_validate window) as [[]|] eqn:Ev; [|done]. rewrite cursor_update_all.
    unfold apply_cursor_window_update. case_decide as E.
    + simpl in *. split_and!; [by left| |done]. unfold selection in *. simpl. by rewrite E in So |- *.
    + destruct_compute s' o R. destruct R as (_ & _ & _ & Es). cbn [fst]. pose proof (fine_selection _ _ Es) as [-> _].
      destruct Es as [-> ->]. by split_and!; [left| |].
Qed.

(** What an operation writes, and its effect on one transaction. *)
Lemma send_written o kind c :
  cs_written (send_query_response o kind c) = cs_written c ++ (match o with Some r => [(r, is_view kind)] | None => [] end) ∧
  cs_subscriptions (send_query_response o kind c) = cs_subscriptions c.
Proof. destruct o; simpl; [done|]. by rewrite app_nil_r. Qed.

Lemma on_snapshot_other tx tx' (source : S) snapshot c :
  tx' ≠ tx → cs_subscriptions (on_snapshot tx' source snapshot c) !! tx = cs_subscriptions c !! tx ∧
  ∃ news, cs_written (on_snapshot tx' source snapshot c) = cs_written c ++ news ∧ Forall (λ m, pr_tx m.1 = tx') news.
Proof.
  intros N. unfold on_snapshot.
  destruct (cs_subscriptions c !! tx') as [[[s|src ps] kind|]|]; try (split; [done|exists []; by rewrite app_nil_r]).
  destruct snapshot as [snapshot|]; simpl; (split; [by rewrite lookup_insert_ne|]).
  - eexists. split; [done|]. by constructor.
  - exists []. by rewrite app_nil_r.
Qed.

Lemma op_event_effect tx e c s kind :
  cs_subscriptions c !! tx = Some (SubQuery (Materialized s) kind) →
  cs_subscriptions (session_op (OpEvent tx e) c) !! tx = Some (SubQuery (Materialized (subscription_event s e tx).1) kind) ∧
  cs_written (session_op (OpEvent tx e) c) =
    cs_written c ++ (match (subscription_event s e tx).2 with Some r => [(r, is_view kind)] | None => [] end).
Proof.
  intros E. destruct e as [d|window|window]; simpl.
  - unfold on_source_diff. rewrite E. destruct (apply_source_diff s d tx) as [s' o]. simpl.
    destruct (send_written o kind c) as [-> ->]. by rewrite lookup_insert_eq.
  - unfold update_query_window, prepare_query_window_update. rewrite E.
    destruct (apply_window_update s window tx) as [s' o]. simpl.
    destruct (send_written o kind c) as [-> ->]. by rewrite lookup_insert_eq.
  - unfold update_query_cursor_window. destruct (cursor_validate window); simpl; [|by rewrite app_nil_r].
    rewrite E. destruct (apply_cursor_window_update _ window tx) as [s' o]. simpl.
    destruct (send_written o kind c) as [-> ->]. by rewrite lookup_insert_eq.
Qed.

Lemma op_other tx op c :
  op_tx op ≠ tx →
  cs_subscriptions (session_op op c) !! tx = cs_subscriptions c !! tx ∧
  ∃ news, cs_written (session_op op c) = cs_written c ++ news ∧ Forall (λ m, pr_tx m.1 = op_tx op) news.
Proof.
  intros N. assert (∀ c, cs_subscriptions c !! tx = cs_subscriptions c !! tx ∧
    ∃ news, cs_written c = cs_written c ++ news ∧ Forall (λ m : PendingQueryResponse P * bool, pr_tx m.1 = op_tx op) news) as Same
    by (intros; split; [done|]; exists []; by rewrite app_nil_r).
  destruct op as [tx' e|tx' entries window kind|tx' source|tx' source snapshot|tx'|tx']; simpl in N |- *.
  - destruct (cs_subscriptions c !! tx') as [[[s|src ps] kind|]|] eqn:E.
    + destruct (op_event_effect tx' e c s kind E) as [_ Hw]. simpl in Hw. rewrite Hw. split.
      * destruct e as [d|window|window].
        -- unfold on_source_diff. rewrite E. destruct (apply_source_diff s d tx') as [s' o]. simpl.
           destruct (send_written o kind c) as [_ ->]. by rewrite lookup_insert_ne.
        -- unfold update_query_window, prepare_query_window_update. rewrite E.
           destruct (apply_window_update s window tx') as [s' o]. simpl.
           destruct (send_written o kind c) as [_ ->]. by rewrite lookup_insert_ne.
        -- unfold update_query_cursor_window. destruct (cursor_validate window); [|done]. rewrite E.
           destruct (apply_cursor_window_update _ window tx') as [s' o]. simpl.
           destruct (send_written o kind c) as [_ ->]. by rewrite lookup_insert_ne.
      * eexists. split; [done|]. pose proof (event_shape s e tx') as R.
        destruct (subscription_event s e tx') as [s' [r|]]; simpl; [|done]. destruct R as (_ & _ & R). constructor; [|done]. by apply R.
    + destruct e as [d|window|window].
      * unfold on_source_diff. rewrite E. apply Same.
      * unfold update_query_window, prepare_query_window_update. rewrite E.
        destruct (src_set_window window src). by apply on_snapshot_other.
      * unfold update_query_cursor_window. destruct (cursor_validate window); [|apply Same]. rewrite E.
        destruct (src_set_cursor_window window src). by apply on_snapshot_other.
    + destruct e; simpl; unfold on_source_diff, update_query_window, prepare_query_window_update, update_query_cursor_window;
        try rewrite E; try case_match; apply Same.
    + destruct e; simpl; unfold on_source_diff, update_query_window, prepare_query_window_update, update_query_cursor_window;
        try rewrite E; try case_match; apply Same.
  - unfold subscribe_materialized.
    pose proof (event_shape (sub_default window) (EvDiff (Initial entries)) tx') as R. simpl in R.
    destruct (apply_source_diff (sub_default window) (Initial entries) tx') as [s' o]. destruct R as (_ & _ & R). simpl.
    destruct (send_written o kind c) as [-> ->]. split; [by rewrite lookup_insert_ne|]. eexists. split; [done|].
    destruct o as [r|]; [|done]. constructor; [by apply R|done].
  - unfold subscribe_windowed_query. simpl. split; [by rewrite lookup_insert_ne|]. eexists. split; [done|]. by constructor.
  - by apply on_snapshot_other.
  - split; [by rewrite lookup_insert_ne|]. exists []. by rewrite app_nil_r.
  - split; [by rewrite lookup_delete_ne|]. exists []. by rewrite app_nil_r.
Qed.
End ops.

(** A snapshot is marked as one. *)
Lemma initial_flag {P} (entries : list (string * Item P)) c : ch_initial (apply_source_changes (Initial entries) c) = true.
Proof.
  simpl. match goal with |- ch_initial (foldl ?f ?c0 entries) = _ => assert (∀ c1, ch_initial c1 = true → ch_initial (foldl f c1 entries) = true) as G end.
  { induction entries as [|e es IH]; intros c1 E; simpl; [done|]. by apply IH. }
  by apply G.
Qed.

(** ** Runs *)
Section runs.
Context {P S V T : Type} `{!EqDecision (Item P)} `{!WindowedQuerySource P S} `{!CellMap (Item P)} `{Transport P V T}.
Implicit Types (c : ClientSession P S) (s : QuerySubscriptionState P) (w : WindowedQueryWatch T) (tx : string)
  (op : SessionOp P S) (m : gmap string (Item P)).

(** The source of a subscription after an operation, and the operations that concern it:
    diffs of the source and moves of the page; it is neither replaced nor cancelled. *)
Definition source_after tx m op : gmap string (Item P) :=
  match op with
  | OpEvent tx' (EvDiff d) => if decide (tx' = tx) then apply_diff d m else m
  | _ => m
  end.

Definition op_fine tx m op : Prop :=
  match op with
  | OpEvent tx' e => tx' = tx → event_fine e ∧ match e with EvDiff d => diff_valid d m | _ => True end
  | _ => op_tx op ≠ tx
  end.

Fixpoint ops_fine tx m (ops : list (SessionOp P S)) : Prop :=
  match ops with
  | [] => True
  | op :: ops => op_fine tx m op ∧ ops_fine tx (source_after tx m op) ops
  end.

Definition op_weight op : nat := match op with OpEvent _ e => event_weight e | _ => 0 end.

Definition run_ops (ops : list (SessionOp P S)) c : ClientSession P S := foldl (λ c op, session_op op c) c ops.
Definition receive_all tx w (messages : list (PendingQueryResponse P * bool)) : WindowedQueryWatch T :=
  foldl (λ w message, receive tx w message.1) w messages.

Lemma receive_all_other tx w (messages : list (PendingQueryResponse P * bool)) : Forall (λ x, pr_tx x.1 ≠ tx) messages → receive_all tx w messages = w.
Proof. induction 1 as [|x l Hx _ IH] in w |- *; simpl; [done|]. rewrite receive_other by done. apply IH. Qed.

Definition subscribed_to tx s c : Prop := cs_subscriptions c !! tx = Some (SubQuery (Materialized s) KindQuery).

(** One operation, seen from a watched subscription. *)
Lemma op_watching tx op c s w :
  subscribed_to tx s c → watching s w → subscription_fine s → op_fine tx (qs_all_items s) op →
  (qs_sequence s < u64_max)%Z → (Z.of_nat (size (qs_all_items s) + op_weight op) ≤ u64_max)%Z →
  ∃ s' news, subscribed_to tx s' (session_op op c) ∧ cs_written (session_op op c) = cs_written c ++ news ∧
    watching s' (receive_all tx w news) ∧ subscription_fine s' ∧
    qs_all_items s' = source_after tx (qs_all_items s) op ∧ (qs_sequence s' ≤ qs_sequence s + 1)%Z ∧
    size (qs_all_items s') ≤ size (qs_all_items s) + op_weight op.
Proof.
  intros Hs W F Fo Hq Hb. destruct (decide (op_tx op = tx)) as [Et|N].
  - destruct op as [tx' e| | | | |]; simpl in *; try done. subst tx'. destruct (Fo eq_refl) as [Fe Fv].
    destruct (op_event_effect tx e c s KindQuery Hs) as [E1 E2].
    pose proof (event_watching tx s w e W F Fe Hq Hb) as R.
    pose proof (event_shape s e tx) as Sh. pose proof (watch_started _ _ W).
    assert (qs_all_items (subscription_event s e tx).1 = source_after tx (qs_all_items s) (OpEvent tx e : SessionOp P S)) as Eall.
    { destruct e as [d|window|window]; simpl.
      - rewrite decide_True by done. rewrite <-(changes_apply d (mkChanges (qs_all_items s) ∅ false)) by done.
        apply source_diff_all.
      - apply window_update_all.
      - destruct (cursor_validate window); [|done]. apply cursor_update_all. }
    destruct (subscription_event s e tx) as [s' o]. destruct R as [W' F']. destruct Sh as (Hsize & Hseq & _). simpl in *.
    exists s'. eexists. split_and!; [exact E1|exact E2| |done|done|lia|lia].
    by destruct o as [r|]; simpl.
  - destruct (op_other tx op c N) as (E1 & news & E2 & Hn). exists s, news. split_and!; try done; try lia.
    + unfold subscribed_to. by rewrite E1.
    + rewrite receive_all_other; [done|]. eapply Forall_impl; [exact Hn|]. intros x Hx. by rewrite Hx.
    + destruct op as [tx' [d|window|window]| | | | |]; simpl in *; try done. by rewrite decide_False.
Qed.

Lemma run_watching tx ops c s w :
  subscribed_to tx s c → watching s w → subscription_fine s → ops_fine tx (qs_all_items s) ops →
  (qs_sequence s + len ops ≤ u64_max)%Z →
  (Z.of_nat (size (qs_all_items s) + sum_list_with op_weight ops) ≤ u64_max)%Z →
  ∃ s' news, subscribed_to tx s' (run_ops ops c) ∧ cs_written (run_ops ops c) = cs_written c ++ news ∧
    watching s' (receive_all tx w news) ∧ qs_all_items s' = foldl (source_after tx) (qs_all_items s) ops.
Proof.
  unfold len. revert c s w. induction ops as [|op ops IH]; intros c s w Hs W F Fo Hq Hb; simpl in *.
  - exists s, []. by rewrite app_nil_r.
  - destruct Fo as [Fop Fo].
    destruct (op_watching tx op c s w Hs W F Fop) as (s1 & news & Hs1 & E1 & W1 & F1 & Ea1 & Hq1 & Hb1); [lia|lia|].
    destruct (IH (session_op op c) s1 (receive_all tx w news) Hs1 W1 F1) as (s2 & news2 & Hs2 & E2 & W2 & Ea2);
      [by rewrite Ea1|lia|lia|].
    exists s2, (news ++ news2). split_and!; [done|by rewrite E2, E1, app_assoc| |by rewrite Ea2, Ea1].
    unfold receive_all in *. by rewrite foldl_app.
Qed.

(** Opening a subscription, from whatever the watch held. *)
Lemma subscribe_watching tx entries window c w :
  NoDup entries.*1 → (∀ k x, (k, x) ∈ entries → item_id x = k) → selection_ok (Offset (Some window)) →
  (len entries ≤ u64_max)%Z →
  ∃ s r, subscribed_to tx s (subscribe_query tx entries (Some window) c) ∧
    cs_written (subscribe_query tx entries (Some window) c) = cs_written c ++ [(r, false)] ∧
    watching s (receive tx w r) ∧ subscription_fine s ∧ qs_all_items s = list_to_map entries ∧ qs_sequence s = 1%Z.
Proof.
  intros ND K So Hl. unfold subscribe_query, subscribe_materialized.
  pose proof (changes_apply (Initial entries) (mkChanges ∅ ∅ false) ND) as Ea. rewrite apply_initial in Ea by done.
  pose proof (changes_keyed (Initial entries) (mkChanges (P:=P) ∅ ∅ false) K ltac:(intros k x; simpl; by rewrite lookup_empty)) as Wk.
  pose proof (changes_size (Initial entries) (mkChanges (P:=P) ∅ ∅ false)) as Hs. rewrite Ea in Wk, Hs. simpl in Hs.
  rewrite map_size_empty in Hs. unfold len in Hl.
  set (s1 := mkSub 0 (Some window) None (list_to_map entries : gmap string (Item P)) ∅).
  assert (apply_source_diff (sub_default (Some window)) (Initial entries) tx =
    compute_bounded_window_response s1 tx (ch_affected (apply_source_changes (Initial entries) (mkChanges ∅ ∅ false))) 0 false) as ->.
  { unfold apply_source_diff. change (is_unwindowed (sub_default (Some window))) with false. cbn match.
    change (qs_all_items (sub_default (Some window))) with (∅ : gmap string (Item P)).
    by rewrite initial_flag, Ea. }
  pose proof (bounded_response view s1 tx (ch_affected (apply_source_changes (Initial entries) (mkChanges ∅ ∅ false))) 0 false (ww_rows w)
    eq_refl Wk So ltac:(simpl; lia)) as R.
  destruct (compute_bounded_window_response _ _ _ _ _) as [s o].
  destruct R as (Ea' & Es & Ev & R); [intros k Hk; simpl in Hk; rewrite lookup_empty in Hk; by destruct Hk|].
  destruct o as [r|]; [|by destruct R as (_ & [] & _)]. destruct R as (D & Er & Eseq & Hrows). simpl in Er, Eseq.
  pose proof (fine_selection _ _ Es) as [Esel Eu]. change (is_unwindowed s1) with false in Eu.
  exists s, r. simpl. unfold subscribed_to, put_subscription. simpl. rewrite lookup_insert_eq. split_and!; try done.
  - apply receive_watching; try done; [by left|by left|rewrite Er; unfold u64_max; lia|by rewrite Er|].
    rewrite Eu. unfold page_ids. by rewrite Esel, Ea'.
  - unfold subscription_fine. rewrite Esel, Ea'. destruct Es as [-> ->]. by split_and!; [right| |].
Qed.
End runs.

(** ** Pushed subscriptions *)
Section pushed.
Context {P V T : Type} `{!EqDecision (Item P)} `{Transport P V T}.
Implicit Types (s : PushedQuerySubscriptionState P) (w : WindowedQueryWatch T) (tx : string) (snapshot : WindowedQuerySnapshot P).

(** A page as the sources publish it: distinct rows in the order of their ids, under them. *)
Definition snapshot_fine snapshot : Prop :=
  sorted (ws_entries snapshot).*1 ∧ ∀ k x, (k, x) ∈ ws_entries snapshot → item_id x = k.

Definition content snapshot : gmap string (Item P) := list_to_map (ws_entries snapshot).

Lemma content_keyed snapshot : snapshot_fine snapshot → well_keyed (content snapshot).
Proof. intros [Sn K] k x Hx. apply K. by apply elem_of_list_to_map_2. Qed.

(** The watch shows the snapshot the session sent last. *)
Record showing snapshot s w : Prop := {
  show_ids : ps_visible_ids s = (ws_entries snapshot).*1;
  show_visible : ps_visible_items s = content snapshot;
  show_pwindow : ps_window s = ws_window snapshot;
  show_rows : ww_rows w = view <$> content snapshot;
  show_items : ww_items w = view <$> (ws_entries snapshot).*2;
  show_total : ww_total_count w = Some (ws_total_count snapshot);
  show_window : ww_window w = ws_window snapshot;
  show_ready : ww_ready w = true;
  show_sequence : ww_sequences w = mkSequence false (ps_sequence s);
  show_started : (0 < ps_sequence s)%Z
}.

Lemma content_lookup snapshot k x : snapshot_fine snapshot → (k, x) ∈ ws_entries snapshot ↔ content snapshot !! k = Some x.
Proof. intros [Sn _]. apply elem_of_list_to_map. by apply sorted_NoDup. Qed.

Lemma content_keys snapshot : snapshot_fine snapshot → sorted_keys (content snapshot) = (ws_entries snapshot).*1.
Proof.
  intros F. pose proof F as [Sn _]. apply sorted_ext; [apply sorted_keys_sorted|done|]. intros k.
  rewrite elem_of_sorted_keys, list_elem_of_fmap. split.
  - intros [x Hx]. exists (k, x). split; [done|]. by apply content_lookup.
  - intros ([k' x] & -> & Hx). exists x. by apply content_lookup.
Qed.

Lemma content_items snapshot (f : Item P → T) : snapshot_fine snapshot →
  omap (λ id, (f <$> content snapshot) !! id) (ws_entries snapshot).*1 = f <$> (ws_entries snapshot).*2.
Proof.
  intros F. assert (∀ e, e ∈ ws_entries snapshot → content snapshot !! e.1 = Some e.2) as E
    by (intros [k x] He; by apply content_lookup).
  revert E. generalize (content snapshot). induction (ws_entries snapshot) as [|[k x] l IH]; intros m E; [done|]. csimpl.
  assert (m !! k = Some x) as Ek by (apply (E (k, x)); left). rewrite lookup_fmap, Ek. csimpl. f_equal.
  apply IH. intros e He. apply E. by right.
Qed.

Lemma upserts_omap (p : string * Item P → bool) (m : gmap string (Item P)) entries :
  (∀ e, e ∈ entries → m !! e.1 = Some e.2) →
  (List.filter p entries).*2 = omap (λ id, m !! id) (List.filter p entries).*1.
Proof.
  induction entries as [|[k x] l IH]; intros E; simpl; [done|].
  assert (m !! k = Some x) as Ek by (apply (E (k, x)); left).
  destruct (p (k, x)); csimpl; rewrite ?Ek; csimpl; rewrite IH; try done; intros e He; apply E; by right.
Qed.

Lemma filter_fst_NoDup (p : string * Item P → bool) entries : NoDup entries.*1 → NoDup (List.filter p entries).*1.
Proof.
  induction entries as [|[k x] l IH]; simpl; [done|]. intros [Nk ND]%NoDup_cons.
  destruct (p (k, x)); simpl; [|by apply IH]. constructor; [|by apply IH].
  intros ([k' x'] & -> & Hin)%list_elem_of_fmap. apply Nk. apply list_elem_of_In, filter_In in Hin as [Hin _].
  simpl. apply list_elem_of_fmap. exists (k', x'). by rewrite list_elem_of_In.
Qed.

Lemma pushed_showing tx s w snapshot :
  snapshot_fine snapshot → (0 ≤ ps_sequence s < u64_max)%Z →
  (ps_sequence s = 0%Z ∨ ∃ previous, showing previous s w) →
  let '(s', r) := apply_snapshot s snapshot tx in
  showing snapshot s' (receive tx w r) ∧ (ps_sequence s' ≤ ps_sequence s + 1)%Z.
Proof.
  intros F Hb Hs. unfold apply_snapshot.
  set (sequence := if bool_decide (is_Some (ps_window s)) && bool_decide (ws_window snapshot = None) then 0%Z else ps_sequence s).
  assert (sequence = 0%Z ∨ sequence = ps_sequence s ∧ ∃ previous, showing previous s w) as Hseq.
  { unfold sequence. destruct (_ && _); [by left|]. destruct Hs as [Hs|Hs]; [by left|right; by split]. }
  assert (0 ≤ sequence ≤ ps_sequence s)%Z as Hle by (destruct Hseq as [->|[-> _]]; lia).
  rewrite foldl_insert_spec by by apply sorted_NoDup, F. rewrite (right_id_L ∅ (∪)). fold (content snapshot).
  set (r := mkPending _ _ _ _ _ _ _).
  assert (pr_sequence r = sequence) as Er by done.
  assert (in_order (pr_sequence r) (ww_sequences w)) as Hin.
  { unfold in_order. rewrite Er. destruct Hseq as [->|[-> [previous Sh]]]; [by left|]. right. apply Sh. }
  assert (apply_response view r (ww_rows w) = view <$> content snapshot) as Erows.
  { set (p := λ entry : string * Item P, bool_decide (sequence = 0%Z) || negb (bool_decide (ps_visible_items s !! entry.1 = Some entry.2))).
    assert (pr_upsert_items r = omap (λ id, content snapshot !! id) (List.filter p (ws_entries snapshot)).*1) as Eu.
    { unfold r. simpl. apply upserts_omap. intros [k x] He. by apply content_lookup. }
    apply map_eq. intros k. rewrite (lookup_apply_response view r _ (content snapshot) _ k (content_keyed _ F) (filter_fst_NoDup p _ (sorted_NoDup _ (proj1 F))) Eu).
    rewrite Er. rewrite lookup_fmap. destruct (content snapshot !! k) as [x|] eqn:Ex; simpl.
    - case_decide as Hk; [done|]. assert (p (k, x) = false) as Hp.
      { destruct (p (k, x)) eqn:Ep; [|done]. exfalso. apply Hk. split; [|done]. apply list_elem_of_fmap. exists (k, x).
        split; [done|]. rewrite list_elem_of_In, filter_In, <-list_elem_of_In. split; [by apply content_lookup|done]. }
      unfold p in Hp. apply orb_false_iff in Hp as [N0 Hp]. apply bool_decide_eq_false in N0.
      apply negb_false_iff, bool_decide_eq_true in Hp. simpl in Hp.
      destruct Hseq as [|[_ [previous Sh]]]; [done|]. rewrite decide_False.
      + rewrite (show_rows _ _ _ Sh), lookup_fmap, <-(show_visible _ _ _ Sh), Hp. done.
      + intros [|Hd]; [done|]. unfold r in Hd. simpl in Hd.
        rewrite elem_of_bt_of_list, list_elem_of_In, filter_In in Hd. destruct Hd as [_ Hd].
        apply negb_true_iff, contains_key_false in Hd. congruence.
    - rewrite decide_False by (intros [_ [? ?]]; done). case_decide as Hd; [done|].
      destruct Hseq as [Hseq|[_ [previous Sh]]]; [exfalso; apply Hd; by left|].
      rewrite (show_rows _ _ _ Sh), lookup_fmap. destruct (content previous !! k) as [y|] eqn:Ey; [|done].
      exfalso. apply Hd. right. unfold r. simpl. rewrite elem_of_bt_of_list, list_elem_of_In, filter_In, <-list_elem_of_In.
      split; [|apply negb_true_iff; by apply contains_key_false]. rewrite (show_ids _ _ _ Sh).
      apply elem_of_list_to_map_2 in Ey. apply list_elem_of_fmap. by exists (k, y). }
  split; [|simpl; unfold sat_add; lia].
  unfold receive, window_response. rewrite (screen_spec tx r _ eq_refl Hin) by (rewrite Er; lia). cbn beta iota. rewrite order_of.
  change (accumulate _ _ _ (ww_rows w)) with (apply_response view r (ww_rows w)). rewrite Erows.
  change (cr_total_count _) with (Some (ws_total_count snapshot)). change (cr_window _) with (ws_window snapshot).
  change (cr_sequence _) with sequence.
  assert (omap (λ id, (view <$> content snapshot) !! id) (default (sorted_keys (view <$> content snapshot)) (pr_window_order_ids r))
    = view <$> (ws_entries snapshot).*2) as Ei.
  { rewrite <-(content_items snapshot view F). f_equal. unfold r. simpl. destruct (ws_window snapshot); simpl; [done|].
    rewrite <-content_keys by done. apply sorted_keys_ext. intros k. by rewrite lookup_fmap, fmap_is_Some. }
  rewrite Ei. assert (bool_decide (sequence = 0%Z) || ww_ready w = true) as Erdy.
  { destruct Hseq as [->|[_ [previous Sh]]]; [done|]. rewrite (show_ready _ _ _ Sh). apply orb_true_r. }
  split; cbn [ww_items ww_ready ww_total_count ww_window ww_rows ww_sequences ps_sequence]; try done.
  - rewrite Er. unfold sat_add. f_equal. lia.
  - unfold sat_add. unfold u64_max in *. lia.
Qed.
End pushed.

(** ** Well-formed sessions *)
Section fine.
Context {P S : Type} `{!EqDecision (Item P)} `{!WindowedQuerySource P S}.
Implicit Types (c : ClientSession P S) (s : QuerySubscriptionState P) (tx : string) (op : SessionOp P S).

(** A pushed subscription holds exactly the rows it showed last. *)
Definition entry_fine (entry : SubscriptionEntry P S) : Prop :=
  match entry with
  | SubQuery (Materialized s) _ => subscription_fine s
  | SubQuery (Pushed _ s) _ => dom (ps_visible_items s) = list_to_set (C := gset string) (ps_visible_ids s)
  | SubGuard => True
  end.

Definition session_fine c : Prop := ∀ tx entry, cs_subscriptions c !! tx = Some entry → entry_fine entry.

Definition op_typed op : Prop :=
  match op with
  | OpEvent _ e => event_fine e
  | OpSubscribe _ entries window _ => (∀ k x, (k, x) ∈ entries → item_id x = k) ∧ selection_ok (Offset window)
  | _ => True
  end.

Lemma put_fine tx entry c : session_fine c → entry_fine entry → session_fine (put_subscription tx entry c).
Proof. intros F Fe tx' e'. simpl. intros [[<- <-]|[_ E]]%lookup_insert_Some; [done|by apply (F tx')]. Qed.

Lemma send_fine o kind c : session_fine c → session_fine (send_query_response o kind c).
Proof. intros F. by destruct o. Qed.

Lemma snapshot_fine_entry (source : S) ps (snapshot : WindowedQuerySnapshot P) tx kind :
  entry_fine (SubQuery (Pushed source (apply_snapshot ps snapshot tx).1) kind).
Proof.
  simpl. assert (∀ m : gmap string (Item P), dom (foldl (λ m entry, <[entry.1:=entry.2]> m) m (ws_entries snapshot))
    = list_to_set (C := gset string) (ws_entries snapshot).*1 ∪ dom m) as E.
  { induction (ws_entries snapshot) as [|[k x] l IH]; intros m; simpl; [set_solver|]. rewrite IH, dom_insert_L. set_solver. }
  rewrite E. rewrite dom_empty_L. set_solver.
Qed.

Lemma on_snapshot_fine tx (source : S) snapshot c : session_fine c → session_fine (on_snapshot tx source snapshot c).
Proof.
  intros F. unfold on_snapshot. destruct (cs_subscriptions c !! tx) as [[[s|src ps] kind|]|] eqn:E; try done.
  destruct snapshot as [snapshot|].
  - pose proof (snapshot_fine_entry source ps snapshot tx kind) as Fe.
    destruct (apply_snapshot ps snapshot tx) as [ps' r]. apply put_fine; [by apply (send_fine (Some r))|done].
  - apply put_fine; [done|]. apply (F tx _ E).
Qed.

Lemma session_op_fine op c : session_fine c → op_typed op → session_fine (session_op op c).
Proof.
  intros F Ty. destruct op as [tx e|tx entries window kind|tx source|tx source snapshot|tx|tx].
  - destruct (cs_subscriptions c !! tx) as [[[s|src ps] kind|]|] eqn:E.
    + assert (session_op (OpEvent tx e) c
        = put_subscription tx (SubQuery (Materialized (subscription_event s e tx).1) kind)
            (send_query_response (subscription_event s e tx).2 kind c) ∨ session_op (OpEvent tx e) c = c) as [->| ->]; [|..].
      { destruct e as [d|window|window]; simpl.
        - left. unfold on_source_diff. rewrite E. by destruct (apply_source_diff s d tx).
        - left. unfold update_query_window, prepare_query_window_update. rewrite E. by destruct (apply_window_update s window tx).
        - unfold update_query_cursor_window. destruct (cursor_validate window); [|by right]. left. rewrite E.
          by destruct (apply_cursor_window_update _ window tx). }
      * apply put_fine; [by apply send_fine|]. apply event_keeps_fine; [apply (F tx _ E)|done].
      * done.
    + destruct e as [d|window|window]; simpl; [unfold on_source_diff; by rewrite E|..].
      * unfold update_query_window, prepare_query_window_update. rewrite E.
        destruct (src_set_window window src). by apply on_snapshot_fine.
      * unfold update_query_cursor_window. destruct (cursor_validate window); [|done]. rewrite E.
        destruct (src_set_cursor_window window src). by apply on_snapshot_fine.
    + destruct e; simpl; unfold on_source_diff, update_query_window, prepare_query_window_update, update_query_cursor_window;
        try rewrite E; by try case_match.
    + destruct e; simpl; unfold on_source_diff, update_query_window, prepare_query_window_update, update_query_cursor_window;
        try rewrite E; by try case_match.
  - simpl. unfold subscribe_materialized. destruct Ty as [K So].
    assert (subscription_fine (sub_default (P:=P) window)) as F0.
    { split_and!; [by right|done|]. intros k x E. unfold sub_default in E. simpl in E. by rewrite lookup_empty in E. }
    pose proof (event_keeps_fine _ (EvDiff (Initial entries)) tx F0 K) as Fe. simpl in Fe.
    destruct (apply_source_diff (sub_default window) (Initial entries) tx) as [s o]. by apply put_fine; [apply send_fine|].
  - simpl. unfold subscribe_windowed_query. pose proof (snapshot_fine_entry source pushed_default (src_snapshot source) tx KindQuery) as Fe.
    destruct (apply_snapshot pushed_default (src_snapshot source) tx) as [ps r]. by apply put_fine; [apply (send_fine (Some r))|].
  - by apply on_snapshot_fine.
  - by apply put_fine.
  - intros tx' e'. simpl. intros [_ E]%lookup_delete_Some. by apply (F tx').
Qed.
End fine.
