(* ===== verification/MapWindow.v ===== *)
(** * Windows over a reactive map ([core/query/cell.rs])

    [WindowedQuerySource::from_map] pushes an ordered window into an existing query map: it
    rebuilds the bounded page when a change can show, and suppresses the others. *)

From stdpp Require Import base strings numbers option countable gmap sets list.
From S2P Require Import Prelude Order GraphTypes EdgeIds GraphWatch GraphWindow WatchProof WindowProof ClientSession SessionProof.
From S2P Require Import ClientWatch SessionRun.

Section map_window.
Context {P : Type} `{!CellMap (Item P)}.
Abbreviation Entries := (list (string * Item P)).
Implicit Types (m : gmap string (Item P)) (entries : Entries) (diff : MapDiff (Item P)).

(** [sort_unstable_by] on the ids, which are distinct. *)
Fixpoint insert_entry (e : string * Item P) entries : Entries :=
  match entries with
  | [] => [e]
  | y :: rest => match cmp e.1 y.1 with Gt => y :: insert_entry e rest | _ => e :: y :: rest end
  end.
Definition sort_entries entries : Entries := foldr insert_entry [] entries.

Definition snapshot entries (selection : GraphWindowSelection) : WindowedQuerySnapshot P :=
  let total_count := len entries in
  let entries := sort_entries entries in
  match selection with
  | Offset None => mkSnapshot entries total_count None
  | Offset (Some window) =>
      let start := Z.min (offset window) (len entries) in
      let end_ := Z.min (sat_add start (limit window)) (len entries) in
      mkSnapshot (get_range start end_ entries) total_count (Some window)
  | Cursor cursor =>
      let '(start, end_) :=
        match cw_after cursor with
        | None =>
            match cw_before cursor with
            | None => (0%Z, Z.min (cw_limit cursor) (len entries))
            | Some before =>
                let end_ := partition_point (λ e, bool_decide (cmp_lt e.1 before)) entries in
                (sat_sub end_ (cw_limit cursor), end_)
            end
        | Some after =>
            let start := partition_point (λ e, negb (bool_decide (cmp_lt after e.1))) entries in
            (start, Z.min (sat_add start (cw_limit cursor)) (len entries))
        end in
      mkSnapshot (get_range start end_ entries) total_count None
  end.

Fixpoint affects_page diff (visible : Entries) : bool :=
  match diff with
  | Initial _ | Insert _ _ | Remove _ _ => true
  | Update key _ _ => existsb (λ e, bool_decide (e.1 = key)) visible
  | Batch changes => existsb (λ change, affects_page change visible) changes
  end.

(** The map, the selection and the published page. *)
Record MapSource := mkMapSource {
  ms_map : gmap string (Item P);
  ms_selection : GraphWindowSelection;
  ms_snapshot : WindowedQuerySnapshot P
}.

(** Subscribing to the map gives its entries as an [Initial] diff. *)
Definition from_map m (initial_window : QueryWindow) : MapSource :=
  mkMapSource m (Offset (Some initial_window)) (snapshot (map_to_list m) (Offset (Some initial_window))).

(** The callback of the map, which already holds the new rows. *)
Definition map_diff diff (s : MapSource) : MapSource * option (WindowedQuerySnapshot P) :=
  let m := apply_diff diff (ms_map s) in
  if negb (affects_page diff (ws_entries (ms_snapshot s))) then (mkMapSource m (ms_selection s) (ms_snapshot s), None)
  else
    let next := snapshot (match diff with Initial entries => entries | _ => map_to_list m end) (ms_selection s) in
    (mkMapSource m (ms_selection s) next, Some next).

Definition map_select (selection : GraphWindowSelection) (s : MapSource) : MapSource * option (WindowedQuerySnapshot P) :=
  if decide (ms_selection s = selection) then (s, None)
  else let next := snapshot (map_to_list (ms_map s)) selection in (mkMapSource (ms_map s) selection next, Some next).

Definition map_set_window (next : option QueryWindow) (s : MapSource) : MapSource * option (WindowedQuerySnapshot P) :=
  map_select (Offset next) s.

Definition map_set_cursor_window (next : QueryCursorWindow) (s : MapSource) : MapSource * option (WindowedQuerySnapshot P) :=
  match cursor_validate next with
  | Err _ => (s, None)
  | Ok _ => map_select (Cursor next) s
  end.

#[export] Instance map_source : WindowedQuerySource P MapSource := {|
  src_snapshot := ms_snapshot;
  src_set_window := map_set_window;
  src_set_cursor_window := map_set_cursor_window
|}.

(** ** The page is the one of the map *)

(** The page of a selection over a map: the graph's windows over all rows. *)
Definition page_snapshot (selection : GraphWindowSelection) m : WindowedQuerySnapshot P :=
  mkSnapshot (load m (page_of selection (sorted_keys m))) (Z.of_nat (size m)) (offset_window selection).

Lemma elem_of_insert_entry e x entries : x ∈ insert_entry e entries ↔ x = e ∨ x ∈ entries.
Proof.
  induction entries as [|y l IH]; simpl; [rewrite list_elem_of_singleton, elem_of_nil; naive_solver|].
  destruct (cmp e.1 y.1); rewrite ?elem_of_cons, ?IH; naive_solver.
Qed.

Lemma elem_of_sort_entries x entries : x ∈ sort_entries entries ↔ x ∈ entries.
Proof. induction entries as [|e l IH]; simpl; [done|]. by rewrite elem_of_insert_entry, IH, elem_of_cons. Qed.

Lemma sort_entries_length entries : length (sort_entries entries) = length entries.
Proof.
  induction entries as [|e l IH]; simpl; [done|]. rewrite <-IH. clear IH.
  induction (sort_entries l) as [|y k IH]; simpl; [done|]. destruct (cmp e.1 y.1); simpl; by rewrite ?IH.
Qed.

Lemma sort_entries_sorted entries : NoDup entries.*1 → sorted (sort_entries entries).*1.
Proof.
  induction entries as [|e l IH]; simpl; [intros; apply sorted_nil|]. intros [Ne ND]%NoDup_cons. specialize (IH ND).
  assert (∀ x, x ∈ sort_entries l → x.1 ≠ e.1) as N.
  { intros x Hx E. apply Ne. rewrite <-E. apply list_elem_of_fmap_2. by apply elem_of_sort_entries. }
  clear Ne. induction (sort_entries l) as [|y k IHk]; simpl in *; [apply sorted_singleton|].
  apply sorted_cons in IH as [Sk F]. destruct (cmp_spec e.1 y.1) as [E|L|L]; simpl.
  - exfalso. apply (N y); [left|done].
  - apply sorted_cons. split; [by apply sorted_cons|]. intros z [->|Hz]%elem_of_cons; [done|].
    by eapply cmp_lt_trans, F.
  - apply sorted_cons. split; [apply IHk; [done|intros x Hx; apply N; by right]|].
    intros z (x & -> & [->|Hx]%elem_of_insert_entry)%list_elem_of_fmap; [done|]. apply F. by apply list_elem_of_fmap_2.
Qed.

(** A sorted listing of a map. *)
Definition lists m entries : Prop := NoDup entries.*1 ∧ ∀ k x, (k, x) ∈ entries ↔ m !! k = Some x.

Lemma lists_map m : lists m (map_to_list m).
Proof. split; [apply NoDup_fst_map_to_list|]. intros k x. apply elem_of_map_to_list. Qed.

Lemma lists_initial entries : NoDup entries.*1 → lists (list_to_map entries) entries.
Proof. intros ND. split; [done|]. intros k x. by apply elem_of_list_to_map. Qed.

Lemma lists_keys m entries : lists m entries → (sort_entries entries).*1 = sorted_keys m.
Proof.
  intros [ND E]. apply sorted_ext; [by apply sort_entries_sorted|apply sorted_keys_sorted|]. intros k.
  rewrite elem_of_sorted_keys, list_elem_of_fmap. split.
  - intros ([k' x] & -> & Hx). apply (proj1 (elem_of_sort_entries _ _)) in Hx. exists x. by apply E.
  - intros [x Hx]. exists (k, x). split; [done|]. by apply elem_of_sort_entries, E.
Qed.

Lemma lists_len m entries : lists m entries → len entries = Z.of_nat (size m).
Proof.
  intros L. rewrite <-sorted_keys_len, <-(lists_keys m entries L). unfold len. by rewrite length_fmap, sort_entries_length.
Qed.

Lemma load_fst m entries : (∀ e, e ∈ entries → m !! e.1 = Some e.2) → load m entries.*1 = entries.
Proof.
  unfold load. induction entries as [|[k x] l IH]; intros F; [done|]. csimpl.
  assert (m !! k = Some x) as -> by (apply (F (k, x)); left). csimpl. f_equal. apply IH. intros e He. apply F. by right.
Qed.

Lemma partition_point_fst (p : string → bool) entries : partition_point (λ e, p e.1) entries = partition_point p entries.*1.
Proof. induction entries as [|[k x] l IH]; simpl; [done|]. by rewrite IH. Qed.

Lemma get_range_fst i j entries : (get_range i j entries).*1 = get_range i j entries.*1.
Proof.
  unfold get_range, len. rewrite length_fmap. destruct (_ && _); [|done].
  by rewrite !take_z_take, !skip_z_drop, fmap_take, fmap_drop.
Qed.

(** The slice of the sorted entries is the page of the ids. *)
Lemma snapshot_ids m entries selection :
  lists m entries → selection_ok selection → (Z.of_nat (size m) ≤ u64_max)%Z →
  (ws_entries (snapshot entries selection)).*1 = page_of selection (sorted_keys m).
Proof.
  intros L So Hb. pose proof (lists_keys m entries L) as Ek. rewrite <-sorted_keys_len in Hb.
  pose proof (sorted_keys_sorted m) as Sk. rewrite <-Ek in *.
  assert (∀ e : Entries, len e.*1 = len e) as Hlen by (intros; unfold len; by rewrite length_fmap).
  destruct selection as [[window|]|cursor]; cbn [snapshot ws_entries].
  - rewrite get_range_fst, <-!Hlen. simpl in So. rewrite get_range_from; [|pose proof (len_nonneg (sort_entries entries).*1); lia|lia|done].
    simpl. rewrite take_z_take, skip_z_drop.
    destruct (Z.min_spec (offset window) (len (sort_entries entries).*1)) as [[? ->]|[? ->]]; [done|].
    unfold len in *. rewrite !drop_ge by lia. done.
  - done.
  - rewrite <-(visible_page_spec (mkSub 0 None (Some cursor) m ∅ : QuerySubscriptionState P)) by done.
    unfold visible_page. simpl. rewrite <-(Hlen (sort_entries entries)).
    destruct (cw_after cursor) as [a|], (cw_before cursor) as [b|]; cbn [ws_entries];
      rewrite get_range_fst, <-?partition_point_fst; done.
Qed.

Lemma snapshot_entries_subset entries selection e : e ∈ ws_entries (snapshot entries selection) → e ∈ entries.
Proof.
  assert (∀ i j, e ∈ get_range i j (sort_entries entries) → e ∈ entries) as R.
  { intros i j. unfold get_range. destruct (_ && _); [|by intros ?%elem_of_nil]. rewrite take_z_take, skip_z_drop.
    intros He. apply elem_of_sort_entries. eapply elem_of_sublist; [exact He|].
    etrans; [apply sublist_take|apply sublist_drop]. }
  destruct selection as [[window|]|cursor]; cbn [snapshot ws_entries]; [apply R|apply elem_of_sort_entries|].
  destruct (cw_after cursor), (cw_before cursor); apply R.
Qed.

Lemma snapshot_spec m entries selection :
  lists m entries → selection_ok selection → (Z.of_nat (size m) ≤ u64_max)%Z →
  snapshot entries selection = page_snapshot selection m.
Proof.
  intros L So Hb. unfold page_snapshot. rewrite <-(snapshot_ids m entries selection L So Hb), load_fst.
  - rewrite <-(lists_len m entries L). destruct selection as [[window|]|cursor]; cbn [snapshot ws_entries offset_window]; try done.
    by destruct (cw_after cursor), (cw_before cursor).
  - intros [k x] He. apply L. by eapply snapshot_entries_subset.
Qed.

(** ** Suppressed changes do not show *)

Lemma existsb_keys key (visible : Entries) : existsb (λ e, bool_decide (e.1 = key)) visible = false → key ∉ visible.*1.
Proof.
  intros N (e & -> & He)%list_elem_of_fmap. apply not_true_iff_false in N. apply N, existsb_exists. exists e.
  split; [by apply list_elem_of_In|]. by apply bool_decide_true.
Qed.

Lemma unaffected_page diff visible m :
  affects_page diff visible = false → diff_valid diff m →
  (∀ k, is_Some (apply_diff diff m !! k) ↔ is_Some (m !! k)) ∧ ∀ k, k ∈ visible.*1 → apply_diff diff m !! k = m !! k.
Proof.
  revert m. induction diff as [entries|k x|k x|k x y|changes IH] using MapDiff_rect'; intros m A V; simpl in *; try done.
  - rewrite apply_update. apply existsb_keys in A. split.
    + intros i. destruct (decide (i = k)) as [->|N]; [rewrite lookup_insert_eq, V|rewrite lookup_insert_ne by done; done].
      split; eauto.
    + intros i Hi. rewrite lookup_insert_ne; [done|]. by intros ->.
  - rewrite apply_batch. revert m V. induction IH as [|d changes Hd _ IH']; intros m V; simpl in *; [done|].
    apply orb_false_iff in A as [Ad A]. destruct V as [Vd V]. destruct (Hd m Ad Vd) as [D1 K1].
    destruct (IH' A (apply_diff d m) V) as [D2 K2]. split.
    + intros i. by rewrite D2.
    + intros i Hi. by rewrite K2, K1.
Qed.

Lemma unaffected_snapshot diff m selection :
  affects_page diff (ws_entries (page_snapshot selection m)) = false → diff_valid diff m →
  page_snapshot selection (apply_diff diff m) = page_snapshot selection m.
Proof.
  intros A V. destruct (unaffected_page diff _ m A V) as [D K]. unfold page_snapshot in *. simpl in *.
  assert (sorted_keys (apply_diff diff m) = sorted_keys m) as Ek by by apply sorted_keys_ext.
  rewrite Ek. f_equal; [|by rewrite <-!sorted_keys_len, Ek].
  apply load_ext. intros id Hid. apply K. rewrite load_keys; [done|].
  intros i Hi%page_of_subset. by apply elem_of_sorted_keys.
Qed.

(** ** The source is never stale *)

Definition fresh (s : MapSource) : Prop := ms_snapshot s = page_snapshot (ms_selection s) (ms_map s).

Lemma from_map_fresh m window :
  selection_ok (Offset (Some window)) → (Z.of_nat (size m) ≤ u64_max)%Z → fresh (from_map m window).
Proof. intros So Hb. unfold fresh, from_map. cbn [ms_snapshot ms_selection ms_map]. apply snapshot_spec; [apply lists_map|done|done]. Qed.

Lemma map_diff_fresh diff s :
  fresh s → selection_ok (ms_selection s) → diff_valid diff (ms_map s) →
  (Z.of_nat (size (apply_diff diff (ms_map s))) ≤ u64_max)%Z → fresh (map_diff diff s).1.
Proof.
  intros F So V Hb. unfold map_diff. destruct (affects_page diff _) eqn:A; cbn [negb fst]; unfold fresh; cbn [ms_snapshot ms_selection ms_map].
  - apply snapshot_spec; [|done|done]. destruct diff; try apply lists_map.
    simpl in V. rewrite apply_initial by done. by apply lists_initial.
  - rewrite F in A |- *. symmetry. by apply unaffected_snapshot.
Qed.

Lemma map_select_fresh selection s :
  fresh s → selection_ok selection → (Z.of_nat (size (ms_map s)) ≤ u64_max)%Z →
  fresh (map_select selection s).1 ∧ ms_selection (map_select selection s).1 = selection ∧
  ms_map (map_select selection s).1 = ms_map s.
Proof.
  intros F So Hb. unfold map_select. case_decide; cbn [fst]; [done|]. split_and!; [|done|done].
  unfold fresh. cbn [ms_snapshot ms_selection ms_map]. apply snapshot_spec; [apply lists_map|done|done].
Qed.

(** A suppressed change leaves the published page as it was; the others publish it. *)
Lemma map_diff_published diff s :
  match (map_diff diff s).2 with
  | Some published => published = ms_snapshot (map_diff diff s).1
  | None => ms_snapshot (map_diff diff s).1 = ms_snapshot s
  end.
Proof. unfold map_diff. by destruct (negb _). Qed.
End map_window.
Arguments MapSource P : clear implicits.
Arguments mkMapSource {P}. Arguments ms_map {P}. Arguments ms_selection {P}. Arguments ms_snapshot {P}.

(** * A pushed query from its source to the client

    The window over a reactive map ([core/query/cell.rs]), the session that forwards its
    snapshots ([server/client_session.rs]) and the watch that receives them: the watch shows
    the page of the map through every change of the map and every move of the window. *)

Section run.
Context {P V T : Type} `{!EqDecision (Item P)} `{!CellMap (Item P)} `{Transport P V T}.
Abbreviation Session := (ClientSession P (MapSource P)).
Implicit Types (c : Session) (src : MapSource P) (ps : PushedQuerySubscriptionState P) (w : WindowedQueryWatch T) (tx : string)
  (e : SubscriptionEvent P).

Definition pushed_to tx src ps c : Prop := cs_subscriptions c !! tx = Some (SubQuery (Pushed src ps) KindQuery).

(** A change of the map runs the callback of the source, and what it publishes the one of the
    session; a move of the window goes through the session. *)
Definition pushed_event tx e c : Session :=
  match e with
  | EvDiff d =>
      match cs_subscriptions c !! tx with
      | Some (SubQuery (Pushed src _) _) => let '(src, published) := map_diff d src in on_snapshot tx src published c
      | _ => c
      end
  | EvWindow window => update_query_window tx window c
  | EvCursor window => update_query_cursor_window tx window c
  end.

(** What the event does to the source. *)
Definition source_event e src : MapSource P * option (WindowedQuerySnapshot P) :=
  match e with
  | EvDiff d => map_diff d src
  | EvWindow window => map_set_window window src
  | EvCursor window => map_set_cursor_window window src
  end.

Definition source_fine src : Prop :=
  fresh src ∧ selection_ok (ms_selection src) ∧ well_keyed (ms_map src) ∧ (Z.of_nat (size (ms_map src)) ≤ u64_max)%Z.

Definition pushed_fine e src : Prop :=
  match e with
  | EvDiff d => diff_valid d (ms_map src) ∧ diff_keyed d ∧ (Z.of_nat (size (apply_diff d (ms_map src))) ≤ u64_max)%Z
  | EvWindow window => selection_ok (Offset window)
  | EvCursor window => (0 ≤ cw_limit window)%Z
  end.

Lemma page_snapshot_fine selection (m : gmap string (Item P)) : well_keyed m → snapshot_fine (page_snapshot selection m).
Proof.
  intros W. split.
  - unfold page_snapshot. simpl. rewrite load_keys; [apply page_of_sorted, sorted_keys_sorted|].
    intros k Hk%page_of_subset. by apply elem_of_sorted_keys.
  - intros k x Hin. unfold page_snapshot, load in Hin. simpl in Hin. apply list_elem_of_omap in Hin as (k' & _ & E).
    destruct (m !! k') as [y|] eqn:Ey; [|done]. injection E as -> ->. by apply W.
Qed.

Lemma map_select_published selection src :
  match (map_select selection src).2 with
  | Some published => published = ms_snapshot (map_select selection src).1
  | None => ms_snapshot (map_select selection src).1 = ms_snapshot src
  end.
Proof. unfold map_select. by case_decide. Qed.

(** The source stays fresh, and what it publishes is its page. *)
Lemma source_event_fine e src :
  source_fine src → pushed_fine e src →
  source_fine (source_event e src).1 ∧
  match (source_event e src).2 with
  | Some published => published = ms_snapshot (source_event e src).1
  | None => ms_snapshot (source_event e src).1 = ms_snapshot src
  end.
Proof.
  intros (Fr & So & W & Hb) Fe. destruct e as [d|window|window]; cbn [source_event].
  - destruct Fe as (Vd & K & Hb'). split; [|apply map_diff_published]. unfold source_fine.
    assert (ms_map (map_diff d src).1 = apply_diff d (ms_map src) ∧ ms_selection (map_diff d src).1 = ms_selection src) as [-> ->]
      by (unfold map_diff; by destruct (negb _)).
    split_and!; [by apply map_diff_fresh|done| |done].
    rewrite <-(changes_apply d (mkChanges (ms_map src) ∅ false) Vd). by apply changes_keyed.
  - split; [|apply map_select_published]. destruct (map_select_fresh (Offset window) src Fr Fe Hb) as (F' & Es & Em).
    unfold source_fine, map_set_window. by rewrite Es, Em.
  - unfold map_set_cursor_window. destruct (cursor_validate window) as [[]|] eqn:Ev; [|done].
    split; [|apply map_select_published]. destruct (map_select_fresh (Cursor window) src Fr) as (F' & Es & Em); [by split|done|].
    unfold source_fine. by rewrite Es, Em.
Qed.

Lemma pushed_event_session tx e src ps c :
  pushed_to tx src ps c →
  pushed_event tx e c = on_snapshot tx (source_event e src).1 (source_event e src).2 c ∨
  pushed_event tx e c = c ∧ source_event e src = (src, None).
Proof.
  intros E. unfold pushed_to in E. destruct e as [d|window|window]; simpl.
  - left. rewrite E. by destruct (map_diff d src).
  - left. unfold update_query_window, prepare_query_window_update. rewrite E. cbn [src_set_window map_source].
    by destruct (map_set_window window src).
  - unfold update_query_cursor_window. destruct (cursor_validate window) as [[]|] eqn:Ev.
    + left. rewrite E. cbn [src_set_cursor_window map_source]. by destruct (map_set_cursor_window window src).
    + right. unfold map_set_cursor_window. by rewrite Ev.
Qed.

(** One event, from the source to the watch. *)
Lemma pushed_event_showing tx e src ps c w :
  pushed_to tx src ps c → source_fine src → pushed_fine e src → showing (ms_snapshot src) ps w → (ps_sequence ps < u64_max)%Z →
  ∃ ps' news, pushed_to tx (source_event e src).1 ps' (pushed_event tx e c) ∧
    cs_written (pushed_event tx e c) = cs_written c ++ news ∧ source_fine (source_event e src).1 ∧
    showing (ms_snapshot (source_event e src).1) ps' (receive_all tx w news) ∧ (ps_sequence ps' ≤ ps_sequence ps + 1)%Z.
Proof.
  intros E F Fe Sh Hq. destruct (source_event_fine e src F Fe) as [F' Hp].
  destruct (pushed_event_session tx e src ps c E) as [->|[-> Ee]].
  2: { rewrite Ee in *. simpl in *. exists ps, []. rewrite app_nil_r. split_and!; try done; lia. }
  destruct (source_event e src) as [src' published]. simpl in F', Hp |- *. unfold on_snapshot.
  rewrite E. destruct published as [snapshot|].
  - subst snapshot. pose proof F' as (Fr & _ & W & _).
    pose proof (pushed_showing tx ps w (ms_snapshot src')) as R. rewrite Fr in R at 1.
    specialize (R (page_snapshot_fine _ _ W) ltac:(pose proof (show_started _ _ _ Sh); lia) (or_intror (ex_intro _ _ Sh))).
    destruct (apply_snapshot ps (ms_snapshot src') tx) as [ps' r]. destruct R as [Sh' Hseq].
    exists ps', [(r, false)]. unfold pushed_to. simpl. by rewrite lookup_insert_eq.
  - exists ps, []. unfold pushed_to. simpl. rewrite lookup_insert_eq, app_nil_r, Hp. split_and!; try done; lia.
Qed.

Fixpoint pushed_run_fine (events : list (SubscriptionEvent P)) src : Prop :=
  match events with
  | [] => True
  | e :: events => pushed_fine e src ∧ pushed_run_fine events (source_event e src).1
  end.

Lemma pushed_run_showing tx events src ps c w :
  pushed_to tx src ps c → source_fine src → pushed_run_fine events src → showing (ms_snapshot src) ps w →
  (ps_sequence ps + len events ≤ u64_max)%Z →
  let src' := foldl (λ src e, (source_event e src).1) src events in
  ∃ ps' news, pushed_to tx src' ps' (foldl (λ c e, pushed_event tx e c) c events) ∧
    cs_written (foldl (λ c e, pushed_event tx e c) c events) = cs_written c ++ news ∧ source_fine src' ∧
    showing (ms_snapshot src') ps' (receive_all tx w news).
Proof.
  unfold len. revert src ps c w. induction events as [|e events IH]; intros src ps c w E F Fe Sh Hq; simpl in *.
  - exists ps, []. by rewrite app_nil_r.
  - destruct Fe as [Fe Fes].
    destruct (pushed_event_showing tx e src ps c w E F Fe Sh) as (ps1 & n1 & E1 & W1 & F1 & Sh1 & Hq1); [lia|].
    destruct (IH _ ps1 (pushed_event tx e c) (receive_all tx w n1) E1 F1 Fes Sh1) as (ps2 & n2 & E2 & W2 & F2 & Sh2); [lia|].
    exists ps2, (n1 ++ n2). split_and!; [done|by rewrite W2, W1, app_assoc|done|].
    unfold receive_all in *. by rewrite foldl_app.
Qed.

(** Opening the subscription. *)
Lemma pushed_open tx src c w :
  source_fine src →
  ∃ ps r, pushed_to tx src ps (subscribe_windowed_query tx src c) ∧
    cs_written (subscribe_windowed_query tx src c) = cs_written c ++ [(r, false)] ∧
    showing (ms_snapshot src) ps (receive tx w r) ∧ (ps_sequence ps ≤ 1)%Z.
Proof.
  intros (Fr & _ & W & _). unfold subscribe_windowed_query. cbn [src_snapshot map_source].
  pose proof (pushed_showing tx pushed_default w (ms_snapshot src)) as R. rewrite Fr in R at 1.
  specialize (R (page_snapshot_fine _ _ W) ltac:(simpl; unfold u64_max; lia) (or_introl eq_refl)).
  destruct (apply_snapshot pushed_default (ms_snapshot src) tx) as [ps r]. destruct R as [Sh Hq].
  exists ps, r. unfold pushed_to. simpl. rewrite lookup_insert_eq. split_and!; try done.
Qed.
End run.
