(* ===== verification/Connection.v ===== *)
(** * A connection between a query map and its source

    The session of the server ([server/client_session.rs]), the frames in flight, and the
    watch of the client ([client/query_map.rs]) as one transition system.  The queue of the
    writer keeps frames in order but may refuse one; [DropLogger::on_drop] of [ws_handler.rs]
    then only raises the overload flag, the session goes on queueing later frames, and some
    time later the read loop sees the flag and ends the session.  What was queued before may
    still be written.  A connection that opens subscribes again. *)

From stdpp Require Import base strings numbers option countable relations gmap sets list.
From S2P Require Import Prelude Order GraphTypes EdgeIds GraphWatch GraphWindow WatchProof WindowProof ClientSession ClientWatch SessionProof SessionRun.
From S2P Require Import GraphIndex Fixtures MapWindow.

Section connection.
Context {P V T : Type} `{!CellMap (Item P)} `{Transport P V T} `{!CellMapMany T}.
Variable tx : string.
Implicit Types (s : QuerySubscriptionState P) (w : QueryMapWatch T) (m : gmap string (Item P)) (r : PendingQueryResponse P)
  (d : MapDiff (Item P)) (rows : gmap string T) (h : list (gmap string (Item P))).

(** The source, the subscription while there is a session, the frames in flight, the watch,
    the overload flag, and, to state what the watch may show, whether a complete replacement
    of the session has been refused by the queue and every state the source has been in. *)
Record Link := mkLink {
  lk_source : gmap string (Item P);
  lk_server : option (QuerySubscriptionState P);
  lk_channel : list (PendingQueryResponse P);
  lk_client : QueryMapWatch T;
  lk_overload : bool;
  lk_lost_snapshot : bool;
  lk_history : list (gmap string (Item P))
}.

Definition link_new m : Link := mkLink m None [] map_watch_new false false [m].

Definition deliver w r : QueryMapWatch T := map_response tx (transport (into_wire r)) w.

Definition diff_fine m d : Prop := diff_valid d m ∧ diff_keyed d.

Inductive link_step : Link → Link → Prop :=
| StepSource m s o s' d q w lag lost h :
    diff_fine m d → (qs_sequence s < u64_max)%Z → apply_source_diff s d tx = (s', o) →
    link_step (mkLink m (Some s) q w lag lost h)
      (mkLink (apply_diff d m) (Some s') (q ++ match o with Some r => [r] | None => [] end) w lag lost (apply_diff d m :: h))
| StepLost m s s' r d q w lag lost h :
    diff_fine m d → (qs_sequence s < u64_max)%Z → apply_source_diff s d tx = (s', Some r) →
    link_step (mkLink m (Some s) q w lag lost h)
      (mkLink (apply_diff d m) (Some s') q w true (lost || bool_decide (pr_sequence r = 0%Z)) (apply_diff d m :: h))
| StepAlone m d q w lag lost h :
    diff_fine m d →
    link_step (mkLink m None q w lag lost h) (mkLink (apply_diff d m) None q w lag lost (apply_diff d m :: h))
| StepDeliver m sv r q w lag lost h :
    link_step (mkLink m sv (r :: q) w lag lost h) (mkLink m sv q (deliver w r) lag lost h)
| StepTeardown m s q q' w lag lost h :
    link_step (mkLink m (Some s) (q ++ q') w lag lost h) (mkLink m None q w lag lost h)
| StepDisconnect m sv q w lag lost h :
    link_step (mkLink m sv q w lag lost h) (mkLink m None [] (map_status false w).1 false false h)
| StepConnect m entries s o w h :
    (∀ k x, (k, x) ∈ entries ↔ m !! k = Some x) → NoDup entries.*1 →
    apply_source_diff (sub_default None) (Initial entries) tx = (s, o) →
    link_step (mkLink m None [] w false false h)
      (mkLink m (Some s) (match o with Some r => [r] | None => [] end) (map_status true w).1 false false h)
| StepConnectLost m entries s r w h :
    (∀ k x, (k, x) ∈ entries ↔ m !! k = Some x) → NoDup entries.*1 →
    apply_source_diff (sub_default None) (Initial entries) tx = (s, Some r) →
    link_step (mkLink m None [] w false false h) (mkLink m (Some s) [] (map_status true w).1 true false h).

(** ** Receiving *)

Definition upserted r : list (string * T) := entry_of view <$> pr_upsert_items r.

Lemma cell_remove_all ids rows : cell_remove_many ids rows = foldl (λ acc id, delete id acc) rows ids.
Proof. apply map_eq. intros k. by rewrite cell_remove_many_spec, lookup_foldl_delete. Qed.

(** The bulk operations of the cell map give the rows of the response. *)
Lemma bulk_rows r rows :
  NoDup (upserted r).*1 → pr_sequence r ≠ 0%Z →
  apply_incremental_map_update (pr_deletes r) (upserted r) rows = apply_response view r rows.
Proof.
  intros ND N0. unfold apply_incremental_map_update, apply_response, accumulate.
  rewrite bool_decide_false by done. fold (upserted r). rewrite foldl_insert_spec by done.
  assert (match pr_deletes r with [] => rows | _ => cell_remove_many (pr_deletes r) rows end
    = foldl (λ acc id, delete id acc) rows (pr_deletes r)) as -> by (destruct (pr_deletes r); [done|apply cell_remove_all]).
  destruct (upserted r) as [|u us] eqn:E; [symmetry; apply (left_id_L ∅ (∪))|]. rewrite <-E in *. by rewrite cell_insert_many_spec.
Qed.

Lemma snapshot_rows r rows :
  NoDup (upserted r).*1 → pr_sequence r = 0%Z → replace_all (upserted r) rows = apply_response view r rows.
Proof.
  intros ND E0. unfold apply_response, accumulate. rewrite bool_decide_true by done. fold (upserted r).
  rewrite foldl_insert_spec, replace_all_spec by done.
  assert (foldl (λ acc id, delete id acc) (∅ : gmap string T) (pr_deletes r) = ∅) as ->; [|symmetry; apply (right_id_L ∅ (∪))].
  apply map_eq. intros k. rewrite lookup_foldl_delete, lookup_empty. by destruct (decide (k ∈ pr_deletes r)).
Qed.

(** A response in order is applied; the snapshot makes the watch ready. *)
Lemma deliver_in_order w r s :
  well_keyed (qs_all_items s) → describes r s tx → in_order (pr_sequence r) (mw_sequences w) → (pr_sequence r < u64_max)%Z →
  deliver w r = mkMapWatch (apply_response view r (mw_map w)) (bool_decide (pr_sequence r = 0%Z) || mw_ready w)
                  (mkSequence false (pr_sequence r + 1)).
Proof.
  intros W (Et & _ & _ & _ & ids & ND & Eu) Hq Hb. unfold deliver, map_response.
  rewrite (screen_spec tx r _ Et Hq Hb). cbn beta iota. change (cr_sequence _) with (pr_sequence r).
  change (cr_deletes _) with (pr_deletes r). fold (upserted r).
  assert (NoDup (upserted r).*1) as N by (unfold upserted; rewrite Eu; by apply upserts_spec).
  destruct (decide (pr_sequence r = 0%Z)) as [E|E].
  - by rewrite snapshot_rows, bool_decide_true.
  - by rewrite bulk_rows, bool_decide_false.
Qed.

(** A response that is neither a snapshot nor the next of the sequence is dropped. *)
Lemma deliver_out_of_order w r :
  pr_sequence r ≠ 0%Z → awaiting_snapshot (mw_sequences w) = true ∨ pr_sequence r ≠ next (mw_sequences w) → deliver w r = w.
Proof.
  intros N0 Hq. unfold deliver, map_response, screen_response. rewrite transport_spec. destruct (bool_decide _); simpl; [|by destruct w].
  destruct (decode_map_upserts _) as [us|]; [|by destruct w].
  replace (accept _ _) with (mw_sequences w, false); [by destruct w|].
  unfold accept. change (cr_sequence (read_response (into_wire r))) with (pr_sequence r). rewrite decide_False by done.
  destruct (awaiting_snapshot (mw_sequences w)); [done|]. destruct Hq as [?|Hq]; [done|]. by rewrite decide_True.
Qed.

(** ** The invariant *)

Definition deliver_all w (q : list (PendingQueryResponse P)) : QueryMapWatch T := foldl deliver w q.

(** A ready watch holds a state the source has been in, now and after any of the frames in
    flight. *)
Definition shows h w : Prop := mw_ready w = true → ∃ m, m ∈ h ∧ mw_map w = view <$> m.
Definition safe h w (q : list (PendingQueryResponse P)) : Prop := ∀ q1 q2, q = q1 ++ q2 → shows h (deliver_all w q1).

(** Once the frames in flight have arrived, the watch is where the session is. *)
Definition converges s w (q : list (PendingQueryResponse P)) : Prop :=
  deliver_all w q = mkMapWatch (view <$> qs_all_items s) true (mkSequence false (qs_sequence s)).

(** After a loss, the watch refuses what the session sends next, until a snapshot. *)
Definition behind s w (q : list (PendingQueryResponse P)) : Prop :=
  awaiting_snapshot (mw_sequences (deliver_all w q)) = true ∨ (next (mw_sequences (deliver_all w q)) < qs_sequence s)%Z.

(** A session and the watch that listens to it. *)
Definition in_session m s w (q : list (PendingQueryResponse P)) (lag lost : bool) : Prop :=
  is_unwindowed s = true ∧ qs_all_items s = m ∧ (0 < qs_sequence s)%Z ∧
  (lag = false → converges s w q) ∧ (lost = false → converges s w q ∨ behind s w q).

Record link_ok (l : Link) : Prop := {
  ok_keyed : well_keyed (lk_source l);
  ok_now : lk_source l ∈ lk_history l;
  ok_safe : lk_lost_snapshot l = false → safe (lk_history l) (lk_client l) (lk_channel l);
  ok_server : match lk_server l with
              | Some s => in_session (lk_source l) s (lk_client l) (lk_channel l) (lk_overload l) (lk_lost_snapshot l)
              | None => True
              end
}.

Lemma shows_more h w m : shows h w → shows (m :: h) w.
Proof. intros S R. destruct (S R) as (m' & Hm & E). exists m'. split; [by right|done]. Qed.

Lemma safe_more h w q m : safe h w q → safe (m :: h) w q.
Proof. intros S q1 q2 E. by eapply shows_more, S. Qed.

Lemma safe_app h w q q' :
  safe h w q → (∀ q1 q2, q' = q1 ++ q2 → q1 ≠ [] → shows h (deliver_all w (q ++ q1))) → safe h w (q ++ q').
Proof.
  intros S S' q1 q2 E. apply app_eq_inv in E as [(k & -> & ->)|(k & -> & ->)].
  - by apply (S q1 k).
  - destruct k as [|r k]; [|by apply (S' (r :: k) q2)]. rewrite app_nil_r. apply (S q []). by rewrite app_nil_r.
Qed.

Lemma prefix_singleton {A} (x : A) l k : [x] = l ++ k → l ≠ [] → l = [x].
Proof. destruct l as [|y [|z l]]; intros E N; simplify_eq/=; done. Qed.

(** The diff of a source without windows, for the watch that will receive it. *)
Lemma source_step m s d :
  is_unwindowed s = true → qs_all_items s = m → well_keyed m → (qs_sequence s ≠ 0%Z) → diff_fine m d →
  let '(s', o) := apply_source_diff s d tx in
  is_unwindowed s' = true ∧ qs_all_items s' = apply_diff d m ∧ well_keyed (apply_diff d m) ∧
  match o with
  | Some r => describes r s' tx ∧ (pr_sequence r = 0 ∨ pr_sequence r = qs_sequence s)%Z ∧
              qs_sequence s' = sat_add (pr_sequence r) 1 ∧ apply_response view r (view <$> m) = view <$> apply_diff d m
  | None => apply_diff d m = m ∧ qs_sequence s' = qs_sequence s
  end.
Proof.
  intros Hu Ea W N0 [Vd K]. unfold apply_source_diff. rewrite Hu.
  pose proof (unwindowed_diff view s d tx (view <$> m)) as R. cbv zeta in R. rewrite Ea in R.
  rewrite (changes_apply d (mkChanges m ∅ false) Vd) in R. simpl in R.
  assert (well_keyed (apply_diff d m)) as W'.
  { rewrite <-(changes_apply d (mkChanges m ∅ false) Vd). by apply changes_keyed. }
  specialize (R Hu W' eq_refl (or_introl N0)). destruct (apply_source_diff_unwindowed s d tx) as [s' o].
  destruct R as (Ea' & Es & _ & R). pose proof (fine_selection _ _ Es) as [_ Eu]. rewrite Hu in Eu.
  split_and!; try done. destruct o as [r|]; [by rewrite Ea' in R|]. destruct R as (E & Eq & _). by rewrite <-Ea', E.
Qed.

Lemma deliver_all_snoc w q r : deliver_all w (q ++ [r]) = deliver (deliver_all w q) r.
Proof. unfold deliver_all. by rewrite foldl_app. Qed.

(** The snapshot a subscription without a window opens with. *)
Lemma opening m entries :
  (∀ k x, (k, x) ∈ entries ↔ m !! k = Some x) → NoDup entries.*1 → well_keyed m →
  let '(s, o) := apply_source_diff (sub_default None) (Initial entries) tx in
  qs_all_items s = m ∧ is_unwindowed s = true ∧ qs_sequence s = 1%Z ∧
  ∃ r, o = Some r ∧ describes r s tx ∧ pr_sequence r = 0%Z ∧ apply_response view r ∅ = view <$> m.
Proof.
  intros Hent ND Wk. destruct (apply_source_diff (sub_default None) (Initial entries) tx) as [s o] eqn:E.
  assert (m = list_to_map entries) as Em.
  { apply map_eq. intros k. apply option_eq. intros x. rewrite <-Hent. by apply elem_of_list_to_map. }
  assert (diff_valid (Initial entries) (∅ : gmap string (Item P))) as Vd by done.
  pose proof (unwindowed_diff view (sub_default None) (Initial entries) tx ∅) as R. cbv zeta in R.
  change (qs_all_items (sub_default None)) with (∅ : gmap string (Item P)) in R.
  rewrite (changes_apply (Initial entries) (mkChanges ∅ ∅ false) Vd), apply_initial, <-Em in R by done.
  specialize (R eq_refl Wk ltac:(by rewrite fmap_empty) (or_intror (initial_flag _ _))).
  unfold apply_source_diff in E. change (is_unwindowed (sub_default None)) with true in E. cbn match in E. rewrite E in R.
  destruct R as (Ea & Es & _ & R). pose proof (fine_selection _ _ Es) as [_ Eu].
  change (is_unwindowed (sub_default None)) with true in Eu.
  destruct o as [r|]; [|by destruct R as (_ & _ & [])]. destruct R as (D & Eseq & Eq & Erows).
  assert (pr_sequence r = 0%Z) as E0 by by destruct Eseq. rewrite E0 in Eq. rewrite Ea in Erows.
  split_and!; [done|done|done|]. exists r. by split_and!.
Qed.

(** What the watch becomes when the response to a diff arrives. *)
Record answers m s s' r : Prop := {
  an_describes : describes r s' tx;
  an_keyed : well_keyed (qs_all_items s');
  an_sequence : pr_sequence r = 0%Z ∨ pr_sequence r = qs_sequence s;
  an_next : qs_sequence s' = sat_add (pr_sequence r) 1;
  an_rows : apply_response view r (view <$> m) = view <$> qs_all_items s'
}.

Lemma replacement_rows r rows rows' : pr_sequence r = 0%Z → apply_response view r rows = apply_response view r rows'.
Proof. intros E. unfold apply_response, accumulate. by rewrite E. Qed.

Lemma answer_arrives m s s' r w q :
  answers m s s' r → qs_all_items s = m → (0 < qs_sequence s < u64_max)%Z →
  converges s w q ∨ pr_sequence r = 0%Z → converges s' w (q ++ [r]).
Proof.
  intros [D Wk Eseq Eq Erows] Ea Hb Cv. unfold converges. rewrite deliver_all_snoc.
  assert (pr_sequence r < u64_max)%Z as Hr by (destruct Eseq as [-> | ->]; [unfold u64_max|]; lia).
  assert (in_order (pr_sequence r) (mw_sequences (deliver_all w q))) as Hq.
  { destruct (decide (pr_sequence r = 0%Z)) as [E0|N0]; [by left|right].
    destruct Cv as [Cv|E0]; [|done]. rewrite Cv. simpl. f_equal. by destruct Eseq. }
  rewrite (deliver_in_order _ r s') by done.
  assert (apply_response view r (mw_map (deliver_all w q)) = view <$> qs_all_items s') as ->.
  { rewrite <-Erows. destruct Cv as [->|E0]; [by rewrite <-Ea|by apply replacement_rows]. }
  assert (bool_decide (pr_sequence r = 0%Z) || mw_ready (deliver_all w q) = true) as ->.
  { destruct Cv as [->|E0]; [apply orb_true_r|by rewrite bool_decide_true]. }
  rewrite Eq. unfold sat_add. do 2 f_equal. destruct Eseq as [-> | ->]; unfold u64_max in *; lia.
Qed.

Lemma answer_refused m s s' r w q :
  answers m s s' r → pr_sequence r ≠ 0%Z → behind s w q → deliver_all w (q ++ [r]) = deliver_all w q.
Proof.
  intros [_ _ Eseq _ _] N0 B. rewrite deliver_all_snoc. apply deliver_out_of_order; [done|].
  destruct B as [B|B]; [by left|right]. destruct Eseq; lia.
Qed.

(** A diff of the source in a session: what it does to the watch, arriving or lost. *)
Lemma session_diff m s w q lag lost d s' o :
  in_session m s w q lag lost → well_keyed m → diff_fine m d → apply_source_diff s d tx = (s', o) → (qs_sequence s < u64_max)%Z →
  well_keyed (apply_diff d m) ∧ is_unwindowed s' = true ∧ qs_all_items s' = apply_diff d m ∧ (0 < qs_sequence s')%Z ∧
  match o with
  | Some r => answers m s s' r ∧ (pr_sequence r ≠ 0%Z → (qs_sequence s < qs_sequence s')%Z)
  | None => apply_diff d m = m ∧ qs_sequence s' = qs_sequence s
  end.
Proof.
  intros (Hu & Ea & Hpos & _) W Df E Hb. pose proof (source_step m s d Hu Ea W ltac:(lia) Df) as R. rewrite E in R.
  destruct R as (Hu' & Ea' & Wk' & R). destruct o as [r|].
  - destruct R as (D & Eseq & Eq & Erows). split_and!; try done.
    + rewrite Eq. unfold sat_add, u64_max. destruct Eseq as [-> | ->]; lia.
    + split; by rewrite ?Ea'.
    + intros N. rewrite Eq. unfold sat_add. destruct Eseq; lia.
  - destruct R as [Em Eq]. split_and!; try done. lia.
Qed.

Lemma session_sends m s w q lag lost h d s' o :
  in_session m s w q lag lost → well_keyed m → diff_fine m d → apply_source_diff s d tx = (s', o) → (qs_sequence s < u64_max)%Z →
  (lost = false → safe h w q) →
  let q' := q ++ match o with Some r => [r] | None => [] end in
  in_session (apply_diff d m) s' w q' lag lost ∧ (lost = false → safe (apply_diff d m :: h) w q').
Proof.
  intros I W Df E Hb Sf q'. destruct (session_diff _ _ _ _ _ _ _ _ _ I W Df E Hb) as (_ & Hu' & Ea' & Hpos' & R).
  destruct I as (_ & Ea & Hpos & Cl & Cb). destruct o as [r|]; unfold q'; clear q'.
  - destruct R as [An Lt]. split.
    + split_and!; [done|done|done|intros L; apply (answer_arrives m s); auto|intros L].
      destruct (Cb L) as [Cv|B]; [left; apply (answer_arrives m s); auto|].
      destruct (decide (pr_sequence r = 0%Z)) as [E0|N0]; [left; apply (answer_arrives m s); auto|right].
      unfold behind. rewrite (answer_refused m s s' r) by done. destruct B as [B|B]; [by left|right]. specialize (Lt N0). lia.
    + intros L. apply safe_app; [by apply safe_more, Sf|]. intros q1 q2 Eq1 N1. rewrite (prefix_singleton r q1 q2 Eq1 N1).
      destruct (Cb L) as [Cv|B]; [|destruct (decide (pr_sequence r = 0%Z)) as [E0|N0]].
      3: rewrite (answer_refused m s s' r) by done; apply shows_more, (Sf L q []); by rewrite app_nil_r.
      all: rewrite (answer_arrives m s s' r w q) by auto; intros _; exists (apply_diff d m); split; [left|by rewrite <-Ea'].
  - destruct R as [Em Eq]. rewrite app_nil_r. split; [|intros L; by apply safe_more, Sf].
    unfold in_session, converges, behind in *. rewrite Eq, Ea', Em, <-Ea. by split_and!.
Qed.

Lemma session_loses m s w q lag lost d s' r :
  in_session m s w q lag lost → well_keyed m → diff_fine m d → apply_source_diff s d tx = (s', Some r) → (qs_sequence s < u64_max)%Z →
  in_session (apply_diff d m) s' w q true (lost || bool_decide (pr_sequence r = 0%Z)).
Proof.
  intros I W Df E Hb. destruct (session_diff _ _ _ _ _ _ _ _ _ I W Df E Hb) as (_ & Hu' & Ea' & Hpos' & An & Lt).
  destruct I as (_ & Ea & Hpos & _ & Cb). split_and!; [done|done|done|done|].
  intros [L N0%bool_decide_eq_false]%orb_false_iff. specialize (Lt N0). right. unfold behind.
  destruct (Cb L) as [Cv|[B|B]]; [right|by left|right; lia]. by rewrite Cv.
Qed.

(** A session that opens, its first frame queued or lost. *)
Lemma session_opens m entries s o w h :
  (∀ k x, (k, x) ∈ entries ↔ m !! k = Some x) → NoDup entries.*1 → well_keyed m →
  apply_source_diff (sub_default None) (Initial entries) tx = (s, o) → m ∈ h →
  let q := match o with Some r => [r] | None => [] end in let w := (map_status true w).1 in
  in_session m s w q false false ∧ safe h w q ∧ in_session m s w [] true false ∧ safe h w [].
Proof.
  intros Hent ND W E Hm q w'. pose proof (opening m entries Hent ND W) as R. rewrite E in R.
  destruct R as (Ea & Eu & Eq & r & Eo & D & E0 & Erows). unfold q; clear q. rewrite Eo; clear o Eo E.
  assert (converges s w' [r]) as Cv.
  { unfold converges, deliver_all. simpl. rewrite (deliver_in_order _ r s); [|by rewrite Ea|done|by left|by rewrite E0].
    rewrite Eq, E0, Ea, <-Erows. simpl. f_equal. by apply replacement_rows. }
  assert (0 < qs_sequence s)%Z as Hpos by by rewrite Eq.
  split; [|split; [|split]].
  { split_and!; try done. by left. }
  2: { split_and!; try done. intros _. by right; left. }
  - intros q1 q2 Eq1. destruct (decide (q1 = [])) as [->|N1]; [done|].
    rewrite (prefix_singleton r q1 q2 Eq1 N1), Cv. intros _. exists m. by rewrite Ea.
  - by intros [|? ?] q2 E.
Qed.

Lemma link_step_ok l l' : link_ok l → link_step l l' → link_ok l'.
Proof.
  intros [Wk Hn Sf Sv] St.
  destruct St as [m s o s' d q w lag lost h Df B E|m s s' r d q w lag lost h Df B E|m d q w lag lost h Df|m sv r q w lag lost h
    |m s q q' w lag lost h|m sv q w lag lost h|m entries s o w h Hent ND E|m entries s r w h Hent ND E];
    cbn [lk_source lk_server lk_channel lk_client lk_overload lk_lost_snapshot lk_history] in *;
    try match goal with E : apply_source_diff ?s _ _ = _, Df : diff_fine _ _, B : (qs_sequence ?s < _)%Z |- _ =>
      pose proof (proj1 (session_diff _ _ _ _ _ _ _ _ _ Sv Wk Df E B)) as Wk';
      pose proof (session_sends _ _ _ _ _ _ h _ _ _ Sv Wk Df E B Sf) as [Sv' Sf'] end;
    split; cbn [lk_source lk_server lk_channel lk_client lk_overload lk_lost_snapshot lk_history]; try done; try (by left).
  - intros [L _]%orb_false_iff. by apply safe_more, Sf.
  - by eapply session_loses.
  - destruct Df as [Vd K]. rewrite <-(changes_apply d (mkChanges m ∅ false) Vd). by apply changes_keyed.
  - intros L. by apply safe_more, Sf.
  - intros L q1 q2 ->. by apply (Sf L (r :: q1) q2).
  - intros L q1 q2 ->. apply (Sf L q1 (q2 ++ q')). by rewrite app_assoc.
  - intros _ [|? ?] q2 E; done.
  - intros _. by eapply session_opens.
  - by eapply session_opens.
  - intros _. by eapply (session_opens m entries s (Some r)).
  - by eapply (session_opens m entries s (Some r)).
Qed.

Definition reachable m l : Prop := rtc link_step (link_new m) l.

Lemma reachable_ok m l : well_keyed m → reachable m l → link_ok l.
Proof.
  intros W R. assert (link_ok (link_new m)) as Init.
  { split; cbn [link_new lk_source lk_server lk_channel lk_client lk_history]; [done|left| |done].
    by intros _ [|? ?] q2 E. }
  revert Init. induction R as [|l1 l2 l3 St _ IH]; [done|]. intros O. by apply IH, (link_step_ok l1).
Qed.

(** Delivering the frames in flight. *)
Lemma deliver_steps m sv q w lag lost h :
  rtc link_step (mkLink m sv q w lag lost h) (mkLink m sv [] (deliver_all w q) lag lost h).
Proof. revert w. induction q as [|r q IH]; intros w; [done|]. eapply rtc_l; [apply StepDeliver|]. apply IH. Qed.

Lemma connected_converges l s :
  link_ok l → lk_server l = Some s → lk_overload l = false →
  mw_map (deliver_all (lk_client l) (lk_channel l)) = view <$> lk_source l ∧ mw_ready (deliver_all (lk_client l) (lk_channel l)) = true.
Proof. intros [_ _ _ Sv] E L. rewrite E in Sv. destruct Sv as (_ & Ea & _ & Cv & _). rewrite (Cv L). simpl. by rewrite Ea. Qed.

(** Closing the connection and opening it. *)
Lemma reconnects m sv q w lag lost h :
  ∃ s q' w', rtc link_step (mkLink m sv q w lag lost h) (mkLink m (Some s) q' w' false false h).
Proof.
  destruct (apply_source_diff (sub_default None) (Initial (map_to_list m)) tx) as [s o] eqn:E.
  exists s, (match o with Some r => [r] | None => [] end), (map_status true (map_status false w).1).1.
  eapply rtc_l; [apply StepDisconnect|]. eapply rtc_l; [|apply rtc_refl].
  apply (StepConnect m (map_to_list m) s o); [intros; apply elem_of_map_to_list|apply NoDup_fst_map_to_list|done].
Qed.
End connection.

(** * A concrete query and its client

    Rows of the graph of [Fixtures] on a wire whose values are optional items, so that a row
    can be malformed, with the instances the client theorems are stated over. *)

Abbreviation Row := (Item Fx.Payload).

#[export] Instance row_eq_dec : EqDecision Row.
Proof. solve_decision. Defined.

#[export] Instance row_entity : Entity (option Row) Row := {| from_value v := v; entity_id := item_id |}.
#[export] Instance row_codec : ItemCodec Fx.Payload (option Row) Row.
Proof. by refine {| to_value := Some; view := λ x, x |}. Defined.
#[export] Instance row_wire : Transport Fx.Payload (option Row) Row.
Proof. by refine {| transport r := Some (read_response r) |}. Defined.

#[export] Instance row_cells : CellMapMany Row.
Proof.
  refine {| replace_all entries _ := list_to_map entries;
            cell_remove_many ks m := foldl (λ m k, delete k m) m ks;
            cell_insert_many entries m := list_to_map entries ∪ m |}; [done| |done].
  intros ks m k. apply SessionProof.lookup_foldl_delete.
Defined.

Module Cx.
(** Four nodes, the second page of two, and a node that moves the page when it goes. *)
Definition entries : list (string * Row) := (λ id, (id, Fx.node id)) <$> ["n1"; "n2"; "n3"; "n4"].
Definition window : QueryWindow := mkQueryWindow 2 2.
Definition source : gmap string Row := list_to_map entries.
Definition removal : MapDiff Row := Remove "n1" (Fx.node "n1").
End Cx.

Lemma cx_keyed : well_keyed Cx.source.
Proof.
  assert (map_Forall (λ k x, item_id x = k) Cx.source) as F; [|exact F].
  apply (bool_decide_eq_true_1 _). vm_compute. reflexivity.
Qed.
