(* ===== verification/ClientTheorems.v ===== *)
(** * What clients see

    Sessions, windows over reactive maps and the watches of the client: a watch that has
    received what was sent shows the source, a connection that fails recovers, and nothing
    else changes it. *)

From stdpp Require Import base strings numbers option countable relations gmap sets list.
From S2P Require Import Prelude Order GraphTypes EdgeIds GraphIndex GraphWatch GraphWindow WatchProof WindowProof Fixtures.
From S2P Require Import ClientSession ClientWatch SessionProof SessionRun MapWindow Connection.

(** ** Windowed watches *)

(** C16: A windowed watch shows the page of the source: from its subscription on, whatever the
    watch held before, after any diffs of the source and moves of the window or the cursor,
    and any traffic of other subscriptions of the session, a watch that has received what
    was written holds exactly the rows of the page the session has selected, in order, with
    the exact total and the window, and is ready; the session's copy is the source. *)
Theorem windowed_watch_shows_the_page {P S V T} `{!EqDecision (Item P), !WindowedQuerySource P S, !CellMap (Item P), Transport P V T}
    (c : ClientSession P S) (w : WindowedQueryWatch T) tx entries window ops :
  NoDup entries.*1 → (∀ k x, (k, x) ∈ entries → item_id x = k) → selection_ok (Offset (Some window)) →
  ops_fine tx (list_to_map entries) ops → (1 + len ops ≤ u64_max)%Z →
  (len entries + Z.of_nat (sum_list_with op_weight ops) ≤ u64_max)%Z →
  ∃ s messages, let w' := receive_all tx w messages in
    let source := foldl (source_after tx) (list_to_map entries) ops in
    subscribed_to tx s (run_ops ops (subscribe_query tx entries (Some window) c)) ∧
    cs_written (run_ops ops (subscribe_query tx entries (Some window) c)) = cs_written c ++ messages ∧
    qs_all_items s = source ∧
    ww_items w' = omap (λ id, view <$> source !! id) (page_of (selection s) (sorted_keys source)) ∧
    ww_total_count w' = Some (Z.of_nat (size source)) ∧ ww_window w' = qs_window s ∧ ww_ready w' = true.
Proof.
  intros ND K So Fo Hq Hb. unfold len in Hb.
  destruct (subscribe_watching tx entries window c w ND K So) as (s0 & r & Hs0 & Ew0 & W0 & F0 & Ea0 & Eq0); [unfold len; lia|].
  pose proof (foldl_insert_size entries (∅ : gmap string (Item P))) as Hsize.
  rewrite foldl_insert_spec, (right_id_L ∅ (∪)), map_size_empty in Hsize by done.
  destruct (run_watching tx ops _ s0 (receive tx w r) Hs0 W0 F0) as (s & news & Hs & Ew & W & Ea);
    [by rewrite Ea0|by rewrite Eq0|rewrite Ea0; lia|].
  exists s, ((r, false) :: news). rewrite Ea0 in Ea.
  change (receive_all tx w ((r, false) :: news)) with (receive_all tx (receive tx w r) news). cbv zeta. rewrite <-Ea.
  split_and!; [done| |done|apply W..]. by rewrite Ew, Ew0, <-app_assoc.
Qed.

(** The page [n3; n4] becomes [n4] when [n1] goes. *)
Lemma windowed_watch_shows_the_page_witness :
  ∃ s messages, let ops := [OpEvent "tx" (EvDiff Cx.removal); OpReport "other"] : list (SessionOp Fx.Payload (MapSource Fx.Payload)) in
    let c := run_ops ops (subscribe_query "tx" Cx.entries (Some Cx.window) (session_new "client")) in
    cs_written c = messages ∧ subscribed_to "tx" s c ∧
    ww_items (receive_all "tx" (window_watch_new Cx.window) messages) = [Fx.node "n4"].
Proof.
  set (ops := [OpEvent "tx" (EvDiff Cx.removal); OpReport "other"] : list (SessionOp Fx.Payload (MapSource Fx.Payload))).
  destruct (windowed_watch_shows_the_page (session_new "client" : ClientSession Fx.Payload (MapSource Fx.Payload))
    (window_watch_new Cx.window) "tx" Cx.entries Cx.window ops) as (s & messages & Hs & Ew & Ea & Ei & _).
  - apply (bool_decide_eq_true_1 _). vm_compute. reflexivity.
  - intros k x Hin. unfold Cx.entries in Hin. apply list_elem_of_fmap in Hin as (id & [= -> ->] & _). done.
  - split; vm_compute; done.
  - split; [intros _; split; [done|vm_compute; reflexivity]|split; [by intros [=]|done]].
  - vm_compute. done.
  - vm_compute. done.
  - exists s, messages. split_and!; [exact Ew|exact Hs|]. rewrite Ei.
    assert (selection s = Offset (Some Cx.window)) as ->; [|vm_compute; reflexivity].
    assert (Some (SubQuery (Materialized s) KindQuery) =
      cs_subscriptions (run_ops ops (subscribe_query "tx" Cx.entries (Some Cx.window)
        (session_new "client" : ClientSession Fx.Payload (MapSource Fx.Payload)))) !! "tx") as Es by (symmetry; exact Hs).
    vm_compute in Es. injection Es as ->. reflexivity.
Defined.

(** A pushed query shows the page of its map: from its subscription on, after any changes
    of the map, of which the source suppresses those that cannot show, and any moves of the
    window, the watch that received what was written holds the rows of the selected page of
    the map as it is now, in order, with the exact total, and is ready. *)
Theorem pushed_watch_shows_the_page {P V T} `{!EqDecision (Item P), !CellMap (Item P), Transport P V T}
    (c : ClientSession P (MapSource P)) (w : WindowedQueryWatch T) tx m window events :
  well_keyed m → (Z.of_nat (size m) ≤ u64_max)%Z → selection_ok (Offset (Some window)) →
  pushed_run_fine events (from_map m window) → (1 + len events ≤ u64_max)%Z →
  let src := foldl (λ src e, (source_event e src).1) (from_map m window) events in
  let c' := foldl (λ c e, pushed_event tx e c) (subscribe_windowed_query tx (from_map m window) c) events in
  ∃ messages, let w' := receive_all tx w messages in
    cs_written c' = cs_written c ++ messages ∧
    ww_items w' = view <$> (load (ms_map src) (page_of (ms_selection src) (sorted_keys (ms_map src)))).*2 ∧
    ww_total_count w' = Some (Z.of_nat (size (ms_map src))) ∧
    ww_window w' = offset_window (ms_selection src) ∧ ww_ready w' = true.
Proof.
  intros W Hb So Fe Hq src c'.
  assert (source_fine (from_map m window)) as F0 by (split_and!; [by apply from_map_fresh|done|done|done]).
  destruct (pushed_open tx (from_map m window) c w F0) as (ps & r & E0 & W0 & Sh0 & Hq0).
  destruct (pushed_run_showing tx events _ ps _ (receive tx w r) E0 F0 Fe Sh0) as (ps' & news & E1 & W1 & (Fr & _) & Sh); [lia|].
  exists ((r, false) :: news). change (receive_all tx w ((r, false) :: news)) with (receive_all tx (receive tx w r) news).
  fold src in Fr, Sh. rewrite Fr in Sh. cbv zeta. split_and!; [unfold c'; by rewrite W1, W0, <-app_assoc|apply Sh..].
Qed.

(** The map of the fixture: its page moves when [n1] goes and when a cursor is set. *)
Lemma pushed_watch_shows_the_page_witness :
  let events := [EvDiff Cx.removal; EvCursor (cursor_before "n4" 1)] : list (SubscriptionEvent Fx.Payload) in
  ∃ messages,
    cs_written (foldl (λ c e, pushed_event "tx" e c)
      (subscribe_windowed_query "tx" (from_map Cx.source Cx.window) (session_new "client")) events) = messages ∧
    ww_items (receive_all "tx" (window_watch_new Cx.window) messages) = [Fx.node "n3"].
Proof.
  intros events.
  destruct (pushed_watch_shows_the_page (session_new "client") (window_watch_new Cx.window) "tx" Cx.source Cx.window events)
    as (messages & Ew & Ei & _).
  - exact cx_keyed.
  - vm_compute. done.
  - split; vm_compute; done.
  - split_and!; try done; vm_compute; done.
  - vm_compute. done.
  - exists messages. split; [exact Ew|]. rewrite Ei. vm_compute. reflexivity.
Defined.

(** ** A connection that fails *)

(** C17: A ready map is a state of the source: however the source changes, frames are
    delivered or refused by the queue of the writer, later frames follow a lost one until the
    session is ended, and connections close and open, a watch that says it is ready holds
    exactly the rows of some state the source has been in, never a mixture; as long as the
    frame lost in the session is not a complete replacement, which restarts the sequence. *)
Theorem ready_map_is_a_source_state {P V T} `{!CellMap (Item P), Transport P V T, !CellMapMany T} tx m (l : Link (P:=P) (T:=T)) :
  well_keyed m → reachable tx m l → lk_lost_snapshot l = false → mw_ready (lk_client l) = true →
  ∃ h, h ∈ lk_history l ∧ mw_map (lk_client l) = view <$> h.
Proof. intros W R L. destruct (reachable_ok tx m l W R) as [_ _ S _]. apply (S L [] (lk_channel l) eq_refl). Qed.

(** C18: A connection catches up: while a session lasts that has lost no frame, delivering
    the frames in flight, and nothing else, leaves the watch ready with the rows of the source
    as it is; and from any reachable state, after losses too, closing the connection, opening
    it and delivering does. *)
Theorem connection_recovers {P V T} `{!CellMap (Item P), Transport P V T, !CellMapMany T} tx m (l : Link (P:=P) (T:=T)) :
  well_keyed m → reachable tx m l →
  let caught_up w := mw_ready w = true ∧ mw_map w = view <$> lk_source l in
  (∀ s, lk_server l = Some s → lk_overload l = false → caught_up (deliver_all tx (lk_client l) (lk_channel l))) ∧
  ∃ l', rtc (link_step tx) l l' ∧ lk_source l' = lk_source l ∧ lk_channel l' = [] ∧ caught_up (lk_client l').
Proof.
  intros W R caught_up. split.
  { intros s Es L. by destruct (connected_converges tx l s (reachable_ok tx m l W R) Es L). }
  destruct l as [m' sv q w lag lost h]. destruct (reconnects tx m' sv q w lag lost h) as (s & q' & w' & R1).
  assert (link_ok tx (mkLink m' (Some s) q' w' false false h)) as Ok' by (apply (reachable_ok tx m); [done|]; unfold reachable in *; by etrans).
  exists (mkLink m' (Some s) [] (deliver_all tx w' q') false false h). split; [etrans; [exact R1|apply deliver_steps]|].
  destruct (connected_converges tx _ s Ok' eq_refl eq_refl) as [E1 E2]. by split_and!.
Qed.

(** The rows of the fixture received once, then a diff whose frame is refused by the queue
    and a diff whose frame arrives. *)
Definition cx_opened := apply_source_diff (sub_default None) (Initial Cx.entries) "tx".
Definition cx_second d1 d2 := apply_source_diff (apply_source_diff cx_opened.1 d1 "tx").1 d2 "tx".
Definition frames (o : option (PendingQueryResponse Fx.Payload)) := match o with Some r => [r] | None => [] end.
Definition cx_after d1 d2 : Link (P:=Fx.Payload) (T:=Row) :=
  let m1 := apply_diff d1 Cx.source in let m2 := apply_diff d2 m1 in
  let w := deliver_all (V:=option Row) "tx" (map_status true map_watch_new).1 (frames cx_opened.2) in
  mkLink m2 (Some (cx_second d1 d2).1) [] (deliver_all (V:=option Row) "tx" w (frames (cx_second d1 d2).2)) true
    (match (apply_source_diff cx_opened.1 d1 "tx").2 with Some r => bool_decide (pr_sequence r = 0%Z) | None => false end)
    [m2; m1; Cx.source].

Lemma cx_after_reachable d1 d2 :
  diff_fine Cx.source d1 → diff_fine (apply_diff d1 Cx.source) d2 → is_Some (apply_source_diff cx_opened.1 d1 "tx").2 →
  (qs_sequence (apply_source_diff cx_opened.1 d1 "tx").1 < u64_max)%Z → reachable (V:=option Row) "tx" Cx.source (cx_after d1 d2).
Proof.
  intros F1 F2 [r E1] B. unfold cx_after. rewrite E1. unfold reachable.
  eapply rtc_l; [apply (StepConnect "tx" Cx.source Cx.entries cx_opened.1 cx_opened.2);
    [|apply (bool_decide_eq_true_1 _); vm_compute; reflexivity|apply surjective_pairing]|].
  { intros k x. unfold Cx.source. apply elem_of_list_to_map. apply (bool_decide_eq_true_1 _). vm_compute. reflexivity. }
  etrans; [apply deliver_steps|]. eapply rtc_l; [eapply (StepLost "tx" Cx.source cx_opened.1 _ r d1)|].
  { done. } { vm_compute. reflexivity. } { rewrite <-E1. apply surjective_pairing. }
  eapply rtc_l; [eapply (StepSource "tx" _ _ (cx_second d1 d2).2 (cx_second d1 d2).1 d2); [done|done|apply surjective_pairing]|].
  etrans; [apply deliver_steps|]. apply rtc_refl.
Qed.

Lemma ready_map_is_a_source_state_witness :
  let l := cx_after Cx.removal (Remove "n2" (Fx.node "n2")) in
  mw_ready (lk_client l) = true ∧ mw_map (lk_client l) ≠ lk_source l ∧ ∃ h, h ∈ lk_history l ∧ mw_map (lk_client l) = (λ x, x) <$> h.
Proof.
  intros l. assert (mw_ready (lk_client l) = true) as Hr by (vm_compute; reflexivity).
  split_and!; [exact Hr|apply (bool_decide_eq_false_1 _); vm_compute; reflexivity|].
  refine (ready_map_is_a_source_state (V:=option Row) "tx" Cx.source l cx_keyed _ _ Hr); [|vm_compute; reflexivity].
  apply cx_after_reachable; [split; vm_compute; done|split; vm_compute; done|vm_compute; eauto|vm_compute; reflexivity].
Defined.

(** Why a lost replacement is excluded: it restarts the sequence, so that the next response
    of the session, based on rows the watch never received, can be the one the watch expects.
    The watch accepts it and holds a mixture, until the session is ended. *)
Lemma lost_snapshot_goes_unnoticed :
  let l := cx_after (Initial [("n2", Fx.node "n2")]) (Insert "n5" (Fx.node "n5")) in
  reachable (V:=option Row) "tx" Cx.source l ∧ lk_overload l = true ∧ mw_ready (lk_client l) = true ∧
  mw_map (lk_client l) = <["n5" := Fx.node "n5"]> Cx.source ∧ mw_map (lk_client l) ∉ lk_history l.
Proof.
  intros l. split_and!; try (vm_compute; reflexivity); [|apply (bool_decide_eq_false_1 _); vm_compute; reflexivity].
  apply cx_after_reachable; [split|split|vm_compute; eauto|vm_compute; reflexivity].
  - apply (bool_decide_eq_true_1 _). vm_compute. reflexivity.
  - by intros k x [= -> ->]%list_elem_of_singleton.
  - vm_compute. reflexivity.
  - done.
Qed.

Lemma connection_recovers_witness :
  ∃ l' : Link (P:=Fx.Payload) (T:=Row), rtc (link_step (V:=option Row) "tx") (link_new Cx.source) l' ∧
    mw_ready (lk_client l') = true ∧ mw_map (lk_client l') = (λ x, x) <$> Cx.source.
Proof.
  destruct (connection_recovers "tx" Cx.source (link_new Cx.source) cx_keyed (rtc_refl _ _)) as [_ (l' & R & _ & _ & Hr & Em)].
  exists l'. split_and!; [exact R|exact Hr|exact Em].
Defined.

(** ** Refused responses *)

Section screen_response.
Context {V T : Type} `{!Entity V T}.

(** A sequence number that is neither a snapshot nor the next one. *)
Definition out_of_sequence (n : Z) (q : SequenceState) : Prop :=
  n ≠ 0%Z ∧ (awaiting_snapshot q = true ∨ n ≠ next q ∨ (u64_max ≤ next q)%Z).

Lemma accept_cases n q :
  (out_of_sequence n q ∧ accept n q = (q, false)) ∨ (¬ out_of_sequence n q ∧ accept n q = (mkSequence false (n + 1), true)).
Proof.
  unfold out_of_sequence, accept. destruct (decide (n = 0%Z)) as [->|N]; [right; split; [tauto|done]|].
  destruct (awaiting_snapshot q) eqn:Ea; [left; tauto|].
  destruct (decide (n ≠ next q)) as [N'|N']; [left; tauto|].
  destruct (Z.ltb_spec u64_max (next q + 1)) as [L|L]; [left; split; [split; [done|right; right; lia]|done]|].
  right. split; [intros [_ [?|[?|?]]]; [done|done|lia]|]. apply dec_stable in N'. by subst n.
Qed.

Definition undecodable (r : ClientQueryResponse V) : Prop := ∃ u, u ∈ cr_upserts r ∧ from_value (T:=T) (wi_item u) = None.

Lemma decode_cases r :
  (undecodable r ∧ decode_map_upserts (T:=T) (cr_upserts r) = None) ∨
  (¬ undecodable r ∧ ∃ us, decode_map_upserts (T:=T) (cr_upserts r) = Some us).
Proof.
  unfold undecodable, decode_map_upserts. induction (cr_upserts r) as [|u l IH]; simpl.
  { right. split; [by intros (u & ?%elem_of_nil & _)|eauto]. }
  destruct (from_value (wi_item u)) as [x|] eqn:Eu; simpl.
  - destruct IH as [[(u' & Hu' & E') ->]|[N [us ->]]]; simpl.
    + left. split; [|done]. exists u'. split; [by right|done].
    + right. split; [|eauto]. intros (u' & [->|Hu']%elem_of_cons & E'); [congruence|]. apply N. eauto.
  - left. split; [|done]. exists u. split; [left|done].
Qed.

(** The conditions under which a response is refused. *)
Definition refusal tx (response : option (ClientQueryResponse V)) (q : SequenceState) : Prop :=
  match response with
  | None => True
  | Some r => cr_tx r ≠ tx ∨ undecodable r ∨ out_of_sequence (cr_sequence r) q
  end.

Lemma screen_cases tx (response : option (ClientQueryResponse V)) q :
  (refusal tx response q ∧ screen_response (T:=T) tx response q = (q, None)) ∨
  ∃ r us, ¬ refusal tx response q ∧ response = Some r ∧ screen_response (T:=T) tx response q = (mkSequence false (cr_sequence r + 1), Some (r, us)).
Proof.
  unfold refusal, screen_response. destruct response as [r|]; [|by left].
  destruct (decide (cr_tx r = tx)) as [Et|Et]; [|left; rewrite bool_decide_false by done; tauto].
  rewrite bool_decide_true by done. simpl. destruct (decode_cases r) as [[Hu ->]|[Hu [us ->]]]; [left; tauto|].
  destruct (accept_cases (cr_sequence r) q) as [[Ho ->]|[Ho ->]]; [left; tauto|]. right. exists r, us. tauto.
Qed.
End screen_response.

(** C19: A response is refused exactly when it cannot be parsed, belongs to another
    transaction, has a row that does not decode, or is neither a snapshot nor the next of the
    sequence; a refused response changes nothing of any watch, and an accepted one moves the
    sequence to the one after it. *)
Theorem refused_responses_change_nothing {V T} `{Entity V T, !CellMapMany T} tx (response : option (ClientQueryResponse V)) (q : SequenceState) :
  let refused := refusal (T:=T) tx response q in
  ((screen_response (T:=T) tx response q).2 = None ↔ refused) ∧
  (refused →
    (∀ w : QueryMapWatch T, mw_sequences w = q → map_response tx response w = w) ∧
    (∀ w : QueryWatch T, lw_sequences w = q → list_response tx response w = w) ∧
    (∀ w : WindowedQueryWatch T, ww_sequences w = q → window_response tx response w = w)) ∧
  (¬ refused → ∃ r, response = Some r ∧ (screen_response (T:=T) tx response q).1 = mkSequence false (cr_sequence r + 1)).
Proof.
  intros refused. unfold refused; clear refused. destruct (screen_cases tx response q) as [[R Ea]|(r & us & N & -> & Ea)].
  - split_and!; [by rewrite Ea| |done]. intros _. unfold map_response, list_response, window_response.
    split_and!; intros w <-; rewrite Ea; by destruct w.
  - split_and!; [by rewrite Ea|done|]. intros _. exists r. by rewrite Ea.
Qed.

(** A gap after the second response, and the snapshot that closes it. *)
Lemma refused_responses_change_nothing_witness :
  let r n := Some (mkClientResponse [] [] [] n "tx" None None) : option (ClientQueryResponse (option Row)) in
  (screen_response (T:=Row) "tx" (r 3%Z) (mkSequence false 2)).2 = None ∧ (screen_response (T:=Row) "tx" (r 0%Z) (mkSequence false 2)).2 ≠ None ∧
  ∀ w : QueryMapWatch Row, mw_sequences w = mkSequence false 2 → map_response "tx" (r 3%Z) w = w.
Proof.
  intros r. destruct (refused_responses_change_nothing (T:=Row) "tx" (r 3%Z) (mkSequence false 2)) as (E & Same & _).
  assert ((screen_response (T:=Row) "tx" (r 3%Z) (mkSequence false 2)).2 = None) as R by (vm_compute; reflexivity).
  split_and!; [exact R|by vm_compute|]. apply (Same (proj1 E R)).
Defined.

(** ** Well-formed sessions *)

(** C20: Sessions stay well formed: through any operations, of any kind and in any order, on
    rows keyed by their ids and windows the program can build, every materialized
    subscription has one kind of window at most and its rows under their ids, and every
    pushed subscription remembers exactly the rows it showed last. *)
Theorem sessions_stay_well_formed {P S} `{!EqDecision (Item P), !WindowedQuerySource P S} client_id (ops : list (SessionOp P S)) :
  Forall op_typed ops → session_fine (run_ops ops (session_new client_id)).
Proof.
  intros Ty. assert (session_fine (session_new client_id : ClientSession P S)) as F
    by (intros tx entry; simpl; by rewrite lookup_empty).
  revert F. generalize (session_new client_id : ClientSession P S).
  induction Ty as [|op ops To _ IH]; intros c F; simpl; [done|]. apply IH. by apply session_op_fine.
Qed.

(** A subscription opened on a page and moved by a cursor. *)
Lemma sessions_stay_well_formed_witness :
  let ops := [OpSubscribe "tx" Cx.entries (Some Cx.window) KindQuery; OpEvent "tx" (EvCursor (cursor_first 1))]
    : list (SessionOp Fx.Payload (MapSource Fx.Payload)) in
  session_fine (run_ops ops (session_new "client")).
Proof.
  intros ops. apply (sessions_stay_well_formed "client" ops). constructor; [split|constructor; [|constructor]].
  - intros k x Hin. unfold Cx.entries in Hin. apply list_elem_of_fmap in Hin as (id & [= -> ->] & _). done.
  - split; vm_compute; done.
  - vm_compute. done.
Defined.

(** ** Page controls *)

(** The page [i] of a result, as the watch asks for it. *)
Definition page_window (limit i : Z) : QueryWindow := mkQueryWindow (i * limit) limit.

Lemma div_ceil_spec a b : (0 ≤ a)%Z → (0 < b)%Z → ((div_ceil a b - 1) * b < a ≤ div_ceil a b * b)%Z ∨ a = 0%Z ∧ div_ceil a b = 0%Z.
Proof.
  intros Ha Hb. unfold div_ceil. pose proof (Z.div_mod a b ltac:(lia)) as E. pose proof (Z.mod_pos_bound a b Hb).
  case_decide as Em; rewrite ?Em in *.
  - destruct (decide (a = 0%Z)) as [->|]; [right; by rewrite Z.div_0_l by lia|]. left. nia.
  - left. nia.
Qed.

(** The first [n] pages are the first [n * limit] rows. *)
Lemma pages_prefix (ids : list string) limit (n : nat) :
  (0 < limit)%Z → mjoin ((λ i : nat, page_of (Offset (Some (page_window limit (Z.of_nat i)))) ids) <$> seq 0 n)
    = take (n * Z.to_nat limit) ids.
Proof.
  intros Hl. induction n as [|n IH]; [done|]. rewrite seq_S, fmap_app, join_app, IH. simpl. rewrite app_nil_r.
  rewrite take_z_take, skip_z_drop. replace (Z.to_nat (Z.of_nat n * limit)) with (n * Z.to_nat limit) by lia.
  rewrite take_take_drop. f_equal. lia.
Qed.

(** The page controls walk the result: the pages up to the page count, one after the
    other, are the whole result; at page [i] of a ready watch, the next page is asked for
    exactly when it exists, the previous one exactly when there is one, and any other page
    exactly when it is within the count. *)
Theorem page_controls_walk_the_result {T} (w : WindowedQueryWatch T) (ids : list string) limit i j items :
  (0 < limit)%Z → (0 ≤ i)%Z → (0 ≤ j)%Z → (len ids + limit ≤ usize_max)%Z → (i * limit < len ids)%Z →
  ww_state w = page_state_new items true (Some (len ids)) (Some (page_window limit i)) →
  let count := div_ceil (len ids) limit in
  let asks (control : WindowedQueryWatch T * list ControlMessage * bool) (page : option Z) :=
    control = match page with
              | Some k => (with_cursor None w, [MsgQueryWindow (Some (page_window limit k))], true)
              | None => (w, [], false)
              end in
  page_index (ww_state w) = Some i ∧ page_count (ww_state w) = Some count ∧
  mjoin ((λ k : nat, page_of (Offset (Some (page_window limit (Z.of_nat k)))) ids) <$> seq 0 (Z.to_nat count)) = ids ∧
  asks (next_page w) (if bool_decide (i + 1 < count)%Z then Some (i + 1)%Z else None) ∧
  asks (previous_page w) (if bool_decide (0 < i)%Z then Some (i - 1)%Z else None) ∧
  asks (set_page_index j w) (if bool_decide (j < count ∧ j ≠ i)%Z then Some j else None).
Proof.
  intros Hl Hi Hj Hb Hil Es count asks. pose proof (len_nonneg ids) as Hn.
  assert (((count - 1) * limit < len ids ≤ count * limit)%Z) as Hc by (destruct (div_ceil_spec (len ids) limit Hn Hl); lia).
  assert (page_index (ww_state w) = Some i) as Epi.
  { rewrite Es. simpl. rewrite decide_False by lia. by rewrite Z.div_mul by lia. }
  assert (page_count (ww_state w) = Some count) as Epc.
  { rewrite Es. simpl. by destruct (Z.ltb_spec 0 limit); [|lia]. }
  assert (usize_max = u64_max) as Eu by done. unfold asks, set_page, client_set_window.
  split_and!; [done|done| | | |].
  - rewrite pages_prefix by done. apply take_ge. unfold len in *. nia.
  - unfold next_page. rewrite Es. simpl. rewrite sat_add_exact by nia.
    destruct (Z.ltb_spec 0 limit); [|lia]. simpl. destruct (Z.ltb_spec (i * limit + limit) (len ids)).
    + rewrite bool_decide_true by nia. simpl. unfold page_window. by replace ((i + 1) * limit)%Z with (i * limit + limit)%Z by ring.
    + rewrite bool_decide_false by nia. done.
  - unfold previous_page. rewrite Es. simpl. destruct (Z.ltb_spec 0 limit); [|lia]. simpl.
    destruct (Z.ltb_spec 0 (i * limit)).
    + rewrite bool_decide_true by nia. simpl. unfold page_window, sat_sub.
      assert (0 ≤ (i - 1) * limit)%Z by (apply Z.mul_nonneg_nonneg; nia).
      by replace (Z.max (i * limit - limit) 0)%Z with ((i - 1) * limit)%Z by lia.
    + rewrite bool_decide_false by nia. done.
  - unfold set_page_index. rewrite Epi, Epc, Es. simpl. rewrite (bool_decide_false (limit = 0%Z)) by lia. simpl.
    destruct (Z.leb_spec count j); simpl; [by rewrite bool_decide_false by lia|].
    destruct (decide (j = i)) as [->|N].
    + rewrite bool_decide_true, bool_decide_false by (done || lia). done.
    + rewrite bool_decide_false by congruence. rewrite bool_decide_true by lia.
      destruct (Z.ltb_spec usize_max (j * limit)); [nia|done].
Qed.

(** The second of three pages of two. *)
Lemma page_controls_walk_the_result_witness :
  let ids := ["a"; "b"; "c"; "d"; "e"] in
  let w := mkWindowWatch ["c"; "d"] true (Some 5%Z) (Some Cx.window) (page_state_new ["c"; "d"] true (Some 5%Z) (Some Cx.window))
    None ∅ (mkSequence false 1) : WindowedQueryWatch string in
  next_page w = (w, [MsgQueryWindow (Some (mkQueryWindow 4 2))], true) ∧ set_page_index 3 w = (w, [], false) ∧
  mjoin ((λ k : nat, page_of (Offset (Some (page_window 2 (Z.of_nat k)))) ids) <$> seq 0 3) = ids.
Proof.
  intros ids w.
  destruct (page_controls_walk_the_result w ids 2 1 3 ["c"; "d"]) as (_ & _ & Ej & En & _ & Es); [done..|].
  split_and!; [exact En|exact Es|exact Ej].
Defined.

(** ** Findings *)

(** After a cursor page, asking for the whole result is ignored: the session compares the
    offset windows only, which are both absent, and stays on the cursor page. *)
Lemma leaving_a_cursor_page_is_ignored :
  let s := (subscription_event (subscription_event (sub_default (P:=Fx.Payload) (Some Cx.window)) (EvDiff (Initial Cx.entries)) "tx").1
    (EvCursor (cursor_first 1)) "tx").1 in
  apply_window_update s None "tx" = (s, None) ∧ selection s = Cursor (cursor_first 1).
Proof. vm_compute. done. Qed.
