(* ===== verification/QueryRoute.v ===== *)
(** * Routes of field-filter queries

    [CompoundKey], [QueryRoute] and the [LiveFilterQuery] interface of
    [core/query/filter.rs], and the implementation of that interface which the item macro
    writes for every entity ([macros/src/item.rs]): the generated filter struct, its
    [matches], and the routing rule that serves a filter from the primary key or from the
    entity's [belongs_to] fields before it scans. *)

From Stdlib Require Import Strings.Ascii.
From stdpp Require Import base strings numbers option countable gmap sets list.
From S2P Require Import Prelude Order GraphTypes Filter.

(** Ordered foreign-key values. *)
Abbreviation CompoundKey := (list string).

Section routes.
Context {P : Type}.

(** The compound key an item contributes; [None] when it is of another type. *)
Definition CompoundFkExtractor : Type := Item P → option CompoundKey.

Record BelongsToRoute := mkBelongsToRoute {
  rt_field_names : list string;
  rt_keys : list CompoundKey;
  rt_extract_fk : CompoundFkExtractor
}.

Inductive QueryRoute :=
| RouteIds (ids : list string)
| RouteBelongsTo (route : BelongsToRoute).

(** A sentinel no Rust field can be called. *)
Definition ID_ROUTE_FIELD_NAMES : list string := ["(id)"].

(** Cartesian product of the value sets: empty as soon as one of them is. *)
Definition cartesian_product (sets : list (list string)) : list CompoundKey :=
  foldl (λ acc set, flat_map (λ prefix, (λ v, prefix ++ [v]) <$> set) acc) [[]] sets.
End routes.
Arguments CompoundFkExtractor : clear implicits.
Arguments BelongsToRoute : clear implicits.
Arguments QueryRoute : clear implicits.

(** The interface [query_live] is generic over. *)
Class LiveFilterQuery (P F : Type) := {
  entity_type : string;
  filter_matches : F → Item P → bool;
  query_route : F → option (QueryRoute P)
}.

(** [live_filter_matches]: an item of another type does not downcast. *)
Definition live_filter_matches {P F} `{LiveFilterQuery P F} (f : F) (item : Item P) : bool :=
  bool_decide (item_type item = entity_type (P:=P) (F:=F)) && filter_matches f item.

(** The fields and keys of a route, and its extractor when it goes through an index. *)
Definition split_query_route {P} (route : QueryRoute P)
  : list string * gset CompoundKey * option (CompoundFkExtractor P) :=
  match route with
  | RouteIds ids => (ID_ROUTE_FIELD_NAMES, list_to_set ((λ id, [id]) <$> ids), None)
  | RouteBelongsTo route =>
      (rt_field_names route, list_to_set (rt_keys route), Some (rt_extract_fk route))
  end.

(** What [query_live] relies on of the interface: a matching item is found under one of the
    keys of the route, an index of given fields has one extractor, and a [belongs_to] route
    does not use the sentinel. *)
Class RoutedLaws (P F : Type) `{LiveFilterQuery P F} := {
  route_extractor : string → CompoundFkExtractor P;
  ids_route_sound f ids item :
    query_route f = Some (RouteIds ids) → live_filter_matches f item = true → item_id item ∈ ids;
  belongs_to_route_sound f route item :
    query_route f = Some (RouteBelongsTo route) → live_filter_matches f item = true →
    ∃ key, rt_extract_fk route item = Some key ∧ key ∈ rt_keys route;
  belongs_to_route_extractor f route :
    query_route f = Some (RouteBelongsTo route) →
    rt_extract_fk route = route_extractor (String.concat "+" (rt_field_names route));
  belongs_to_route_names f route :
    query_route f = Some (RouteBelongsTo route) → rt_field_names route ≠ ID_ROUTE_FIELD_NAMES
}.

Lemma elem_of_cartesian_product sets key :
  key ∈ cartesian_product sets ↔ Forall2 (λ v set, v ∈ set) key sets.
Proof.
  unfold cartesian_product. revert key.
  induction sets as [|set l IH] using rev_ind; intros key; rewrite ?foldl_app; simpl.
  - rewrite list_elem_of_singleton. split; [intros ->; constructor|by intros ?%Forall2_nil_inv_r].
  - rewrite list_elem_of_In, in_flat_map. split.
    + intros (prefix & Hp & Hk). apply list_elem_of_In, IH in Hp. apply list_elem_of_In in Hk.
      apply list_elem_of_fmap in Hk as (v & -> & Hv). apply Forall2_app; [done|]. by repeat constructor.
    + intros (prefix & last & Hp & Hl & ->)%Forall2_app_inv_r. exists prefix.
      split; [by apply list_elem_of_In, IH|]. apply list_elem_of_In, list_elem_of_fmap.
      apply Forall2_cons_inv_r in Hl as (v & l' & Hv & Hl & ->). apply Forall2_nil_inv_r in Hl as ->. by exists v.
Qed.

(** ** The generated filter queries

    For an entity [name] with the [belongs_to] fields [parents] the macro generates a
    struct with one optional filter per field, and one routing arm per non-empty set of
    [belongs_to] fields, the larger sets first. *)
Section generated.
Context {P : Type} (name : string) (parents : list (string * (Item P → string))).

Record XQuery := mkXQuery {
  xq_id : option (IdFilter string);
  xq_parents : list (option (IdFilter string));
  (** the fields that are neither the id nor a foreign key *)
  xq_fields : list (option (Item P → bool))
}.
Implicit Types (q : XQuery) (item : Item P).

Definition is_none_or {A} (p : A → bool) (o : option A) : bool :=
  match o with Some a => p a | None => true end.

Definition xquery_matches q item : bool :=
  is_none_or (λ f, matches f (item_id item)) (xq_id q) &&
  forallb (λ pf : (string * (Item P → string)) * option (IdFilter string),
             is_none_or (λ f, matches f (pf.1.2 item)) pf.2) (zip parents (xq_parents q)) &&
  forallb (is_none_or (λ f : Item P → bool, f item)) (xq_fields q).

(** The fields of a mask, in declared order. *)
Definition selected (mask : N) : list nat :=
  List.filter (λ i, N.testbit mask (N.of_nat i)) (seq 0 (length parents)).

(** Masks by decreasing [count_ones], then by value. *)
#[local] Instance mask_cmp : Cmp N := λ x y,
  then_cmp (Nat.compare (length (selected y)) (length (selected x))) (N.compare x y).

Definition route_masks : list N :=
  if bool_decide (32 ≤ length parents)%nat then []
  else sort (N.of_nat <$> seq 1 (2 ^ length parents - 1)).

Definition mask_fields (mask : N) : list (string * (Item P → string)) :=
  omap (λ i, parents !! i) (selected mask).

Definition mask_extract (mask : N) : CompoundFkExtractor P := λ item,
  if bool_decide (item_type item = name) then Some ((λ field, field.2 item) <$> mask_fields mask) else None.

(** One generated arm. *)
Definition route_arm q (mask : N) : option (BelongsToRoute P) :=
  filters ← mapM (λ i, default None (xq_parents q !! i)) (selected mask);
  Some (mkBelongsToRoute (mask_fields mask).*1 (cartesian_product (key_values <$> filters)) (mask_extract mask)).

Fixpoint first_some {A B} (f : A → option B) (l : list A) : option B :=
  match l with
  | [] => None
  | x :: l => match f x with Some y => Some y | None => first_some f l end
  end.

Definition belongs_to_route q : option (BelongsToRoute P) := first_some (route_arm q) route_masks.

Definition xquery_route q : option (QueryRoute P) :=
  match xq_id q with
  | Some id_filter => Some (RouteIds (key_values id_filter))
  | None => RouteBelongsTo <$> belongs_to_route q
  end.

Instance xquery_live : LiveFilterQuery P XQuery := {
  entity_type := name;
  filter_matches := xquery_matches;
  query_route := xquery_route
}.

Lemma first_some_inv {A B} (f : A → option B) l y : first_some f l = Some y → ∃ x, x ∈ l ∧ f x = Some y.
Proof.
  induction l as [|x l IH]; simpl; [done|]. destruct (f x) eqn:E.
  - intros [= ->]. exists x. split; [left|done].
  - intros (x' & ? & ?)%IH. exists x'. split; [by right|done].
Qed.

Lemma id_filter_matches_elem (f : IdFilter string) v : matches f v = true ↔ v ∈ key_values f.
Proof.
  destruct f as [value|values]; unfold matches, id_filter_matches; simpl.
  - rewrite bool_decide_eq_true, list_elem_of_singleton. naive_solver.
  - unfold in_matches. rewrite existsb_exists. split.
    + intros (x & Hx & <-%bool_decide_eq_true). by apply list_elem_of_In.
    + intros Hv. exists v. split; [by apply list_elem_of_In|by apply bool_decide_eq_true].
Qed.

(** A matching item has its foreign keys among the values of the arm's filters. *)
Lemma arm_sound q item mask route :
  xquery_matches q item = true → item_type item = name → route_arm q mask = Some route →
  ∃ key, rt_extract_fk route item = Some key ∧ key ∈ rt_keys route.
Proof.
  unfold xquery_matches, route_arm. rewrite !andb_true_iff. intros [[_ Hp] _] Et Hr.
  destruct (mapM _ (selected mask)) as [filters|] eqn:EM; simpl in Hr; [|done]. injection Hr as <-. simpl.
  exists ((λ field, field.2 item) <$> mask_fields mask). unfold mask_extract. rewrite bool_decide_true by done.
  split; [done|]. apply elem_of_cartesian_product. apply mapM_Some in EM. unfold mask_fields.
  assert (∀ i, i ∈ selected mask → i < length parents)%nat as Hi.
  { intros i Hi. apply list_elem_of_In, filter_In in Hi as [Hi _]. apply in_seq in Hi. lia. }
  induction EM as [|i f l fs Ef _ IH]; simpl; [constructor|].
  destruct (lookup_lt_is_Some_2 parents i) as [field Efi]; [apply Hi; left|]. csimpl. rewrite Efi. simpl.
  constructor; [|apply IH; intros j Hj; apply Hi; by right].
  destruct (xq_parents q !! i) as [o|] eqn:Eo; simpl in Ef; [|done]. subst o.
  rewrite forallb_forall in Hp. apply id_filter_matches_elem. apply (Hp (field, Some f)).
  apply list_elem_of_In. apply list_elem_of_lookup. exists i. apply lookup_zip_Some. by split.
Qed.

(** ** The generated queries satisfy the interface

    Field names are Rust identifiers, and an entity declares each of them once. *)

Fixpoint chars (s : string) : list Ascii.ascii :=
  match s with EmptyString => [] | String c s => c :: chars s end.
Definition ident (s : string) : bool :=
  negb (String.eqb s "") && forallb (λ c, negb (Ascii.eqb c "+"%char) && negb (Ascii.eqb c "("%char)) (chars s).

Fixpoint before_plus (s : string) : string :=
  match s with
  | EmptyString => EmptyString
  | String c s => if Ascii.eqb c "+"%char then EmptyString else String c (before_plus s)
  end.
Fixpoint after_plus (s : string) : option string :=
  match s with
  | EmptyString => None
  | String c s => if Ascii.eqb c "+"%char then Some s else after_plus s
  end.

Lemma ident_chars c s :
  forallb (λ c, negb (Ascii.eqb c "+"%char) && negb (Ascii.eqb c "("%char)) (chars (String c s)) = true →
  Ascii.eqb c "+"%char = false ∧ forallb (λ c, negb (Ascii.eqb c "+"%char) && negb (Ascii.eqb c "("%char)) (chars s) = true.
Proof. simpl. rewrite !andb_true_iff, negb_true_iff. naive_solver. Qed.

Lemma plus_split s r : ident s = true → before_plus (s +:+ "+" +:+ r) = s ∧ after_plus (s +:+ "+" +:+ r) = Some r.
Proof.
  unfold ident. rewrite andb_true_iff. intros [_ Hc].
  induction s as [|c s IH]; [done|]. apply ident_chars in Hc as [Ec Hc]. simpl. rewrite Ec.
  destruct (IH Hc) as [-> ->]. done.
Qed.

Lemma plus_none s : ident s = true → after_plus s = None.
Proof.
  unfold ident. rewrite andb_true_iff. intros [_ Hc].
  induction s as [|c s IH]; [done|]. apply ident_chars in Hc as [Ec Hc]. simpl. rewrite Ec. by apply IH.
Qed.

Lemma concat_plus_inj l1 l2 :
  Forall (λ s, ident s = true) l1 → Forall (λ s, ident s = true) l2 →
  String.concat "+" l1 = String.concat "+" l2 → l1 = l2.
Proof.
  intros F1. revert l2. induction F1 as [|x l1 Hx F1 IH]; intros l2 F2 E.
  - destruct F2 as [|y l2 Hy _]; [done|]. exfalso. destruct l2; simpl in E.
    + subst y. done.
    + by destruct y.
  - destruct F2 as [|y l2 Hy F2].
    + exfalso. destruct l1; simpl in E; [by subst x|by destruct x].
    + destruct l1 as [|x' l1], l2 as [|y' l2]; simpl in E.
      * by subst.
      * apply (f_equal after_plus) in E. destruct (plus_split y (String.concat "+" (y' :: l2)) Hy) as [_ Ea].
        rewrite plus_none in E by done. simpl in *. congruence.
      * apply (f_equal after_plus) in E. destruct (plus_split x (String.concat "+" (x' :: l1)) Hx) as [_ Ea].
        rewrite (plus_none y) in E by done. simpl in *. congruence.
      * destruct (plus_split x (String.concat "+" (x' :: l1)) Hx) as [Eb Ea].
        destruct (plus_split y (String.concat "+" (y' :: l2)) Hy) as [Eb' Ea'].
        change (x +:+ "+" +:+ String.concat "+" (x' :: l1) = y +:+ "+" +:+ String.concat "+" (y' :: l2)) in E.
        rewrite E in Eb, Ea. f_equal; [congruence|]. apply IH; [done|]. congruence.
Qed.

Definition fields_ok : Prop := NoDup parents.*1 ∧ Forall (λ s, ident s = true) parents.*1.
Hypothesis HF : fields_ok.

Lemma mask_fields_parents mask field : field ∈ mask_fields mask → field ∈ parents.
Proof.
  unfold mask_fields. rewrite list_elem_of_omap. intros (i & _ & E). by eapply list_elem_of_lookup_2.
Qed.

Lemma mask_fields_idents mask : Forall (λ s, ident s = true) (mask_fields mask).*1.
Proof.
  rewrite Forall_forall. intros s (field & -> & Hf)%list_elem_of_fmap. apply mask_fields_parents in Hf.
  destruct HF as [_ Hi]. rewrite Forall_forall in Hi. apply Hi. apply list_elem_of_fmap. by exists field.
Qed.

(** The names determine the fields. *)
Lemma mask_fields_names mask1 mask2 :
  (mask_fields mask1).*1 = (mask_fields mask2).*1 → mask_fields mask1 = mask_fields mask2.
Proof.
  assert (∀ f1 f2, f1 ∈ parents → f2 ∈ parents → f1.1 = f2.1 → f1 = f2) as Hinj.
  { intros [s a1] [s' a2] (i & Ei)%list_elem_of_lookup (j & Ej)%list_elem_of_lookup; simpl. intros <-.
    destruct HF as [ND _]. assert (i = j) as ->; [|congruence].
    apply (NoDup_lookup parents.*1 _ _ s ND); rewrite list_lookup_fmap.
    - by rewrite Ei.
    - by rewrite Ej. }
  pose proof (mask_fields_parents mask1) as H1. pose proof (mask_fields_parents mask2) as H2.
  revert H1 H2. generalize (mask_fields mask2). generalize (mask_fields mask1). intros l1.
  induction l1 as [|f1 l1 IH]; intros [|f2 l2] H1 H2 E; simpl in E; simplify_eq/=; [done|].
  f_equal.
  - apply Hinj; [apply H1; left|apply H2; left|done].
  - apply IH; [intros f ?; apply H1; by right|intros f ?; apply H2; by right|done].
Qed.

Definition generated_extractor (key : string) : CompoundFkExtractor P :=
  match first_some (λ mask, if bool_decide (String.concat "+" (mask_fields mask).*1 = key) then Some mask else None)
          route_masks with
  | Some mask => mask_extract mask
  | None => λ _, None
  end.

Lemma first_some_is_Some {A B} (f : A → option B) l x y : x ∈ l → f x = Some y → is_Some (first_some f l).
Proof.
  induction l as [|x' l IH]; simpl; intros Hx E; [by apply elem_of_nil in Hx|].
  destruct (f x') eqn:E'; [done|]. apply elem_of_cons in Hx as [->|Hx]; [congruence|by apply IH].
Qed.

Lemma generated_extractor_mask mask :
  mask ∈ route_masks → generated_extractor (String.concat "+" (mask_fields mask).*1) = mask_extract mask.
Proof.
  intros Hm. unfold generated_extractor.
  destruct (first_some _ route_masks) as [mask'|] eqn:E.
  - apply first_some_inv in E as (m & _ & E). case_bool_decide as Ek; [|done]. injection E as ->.
    apply concat_plus_inj in Ek; [|apply mask_fields_idents..]. apply mask_fields_names in Ek.
    unfold mask_extract. by rewrite Ek.
  - exfalso. revert E. apply not_eq_None_Some. eapply first_some_is_Some; [done|]. by rewrite bool_decide_true.
Qed.

Lemma belongs_to_route_inv q route :
  xquery_route q = Some (RouteBelongsTo route) → ∃ mask, mask ∈ route_masks ∧ route_arm q mask = Some route.
Proof.
  unfold xquery_route, belongs_to_route. destruct (xq_id q); [done|]. intros E.
  destruct (first_some _ _) as [r|] eqn:Er; simpl in E; [|done]. injection E as ->. by apply first_some_inv.
Qed.

Lemma route_arm_fields q mask route :
  route_arm q mask = Some route →
  rt_field_names route = (mask_fields mask).*1 ∧ rt_extract_fk route = mask_extract mask.
Proof. unfold route_arm. destruct (mapM _ _); simpl; [|done]. by intros [= <-]. Qed.

Instance xquery_laws : RoutedLaws P XQuery.
Proof.
  refine {| route_extractor := generated_extractor |}; simpl; unfold live_filter_matches; simpl.
  - intros q ids item. unfold xquery_route, xquery_matches. rewrite !andb_true_iff. intros Er [_ [[Hm _] _]].
    destruct (xq_id q) as [f|]; simpl in *.
    + injection Er as <-. by apply id_filter_matches_elem.
    + by destruct (belongs_to_route q).
  - intros q route item (mask & _ & Hr)%belongs_to_route_inv. rewrite andb_true_iff. intros [Et%bool_decide_eq_true Hm].
    by eapply arm_sound.
  - intros q route (mask & Hm & Hr)%belongs_to_route_inv. apply route_arm_fields in Hr as [-> ->].
    by rewrite generated_extractor_mask.
  - intros q route (mask & Hm & Hr)%belongs_to_route_inv E. apply route_arm_fields in Hr as [Hn _].
    rewrite Hn in E. pose proof (mask_fields_idents mask) as HI. rewrite E in HI. by inversion HI.
Defined.
End generated.
