(* ===== verification/SourceIndex.v ===== *)
(** * The foreign-key index behind routed queries

    [BelongsToSourceIndex] of [core/query/registration.rs]: the rows of one store grouped by
    compound key, one live map ("bucket") per key somebody is subscribed to, and the queue
    through which the diffs of the store reach the buckets.

    The bucket maps are shared objects, so they have identities here: [si_maps] is the
    store of the map objects, [si_held] says how many strong handles the rest of the program
    holds on each of them, and the index itself only has weak handles.  The publication gate
    makes [submit] and [bucket_for] atomic; what runs outside of it, the drain loop, is a
    step of its own, so that a run can interleave them in any order.

    [union_action] and [additive_union_diff] are the union of several buckets that serves a
    query over more than one key. *)

From stdpp Require Import base strings numbers option countable gmap gmultiset sets list.
From S2P Require Import Prelude Order GraphTypes EdgeIds GraphIndex GraphQuery GraphWatch.
From S2P Require Import Filter QueryRoute.

(** The order in which a [HashMap] keyed by compound keys is iterated is unspecified. *)
Class HashOrder := {
  iterate : ∀ {V : Type}, gmap CompoundKey V → list (CompoundKey * V);
  iterate_perm {V : Type} (m : gmap CompoundKey V) : iterate m ≡ₚ map_to_list m
}.

Section index.
Context {P : Type} `{!CellMap (Item P), !HashOrder}.
Abbreviation Rows := (gmap string (Item P)).
Abbreviation Members := (gmap CompoundKey Rows).
Abbreviation Buckets := (gmap CompoundKey nat).

(** A bucket and the diff it is about to receive; holding the handle keeps the bucket alive. *)
Definition BucketAction : Type := nat * MapDiff (Item P).

Record SourceIndex := mkSourceIndex {
  si_extract : CompoundFkExtractor P;
  (** weak handles *)
  si_buckets : Buckets;
  si_members : Members;
  si_pending : list (list BucketAction);
  si_dispatching : bool;
  (** what the drainer has taken off the queue and not applied yet *)
  si_running : list BucketAction;
  si_maps : gmap nat Rows;
  si_held : gmultiset nat;
  si_next : nat
}.
Implicit Types (idx : SourceIndex) (diff change : MapDiff (Item P)) (ext : CompoundFkExtractor P).

(** [entry(key).or_default().insert(id, item)]. *)
Definition insert_member (key : CompoundKey) (id : string) (item : Item P) (members : Members) : Members :=
  <[key := <[id := item]> (default ∅ (members !! key))]> members.

(** ** Grouping the changes of a diff by key *)

Definition push_change (key : option CompoundKey) change (by_fk : gmap CompoundKey (list (MapDiff (Item P))))
  : gmap CompoundKey (list (MapDiff (Item P))) :=
  match key with
  | Some key => <[key := default [] (by_fk !! key) ++ [change]]> by_fk
  | None => by_fk
  end.

Definition group_change ext (by_fk : gmap CompoundKey (list (MapDiff (Item P)))) change :=
  match change with
  | Insert _ value => push_change (ext value) change by_fk
  | Remove _ old_value => push_change (ext old_value) change by_fk
  | Update key old_value new_value =>
      if bool_decide (ext old_value = ext new_value) then push_change (ext new_value) change by_fk
      else push_change (ext new_value) (Insert key new_value)
             (push_change (ext old_value) (Remove key old_value) by_fk)
  | Initial _ | Batch _ => by_fk
  end.

Definition member_change (rows : Rows) change : Rows :=
  match change with
  | Insert key value => <[key := value]> rows
  | Update key _ new_value => <[key := new_value]> rows
  | Remove key _ => delete key rows
  | Initial _ | Batch _ => rows
  end.

(** ** Routing to the live buckets *)
Section routing.
Variable upgrade : nat → bool.

(** A dead entry is dropped from the table. *)
Definition route_to_live_bucket (key : CompoundKey) (buckets : Buckets) : Buckets * option nat :=
  match buckets !! key with
  | None => (buckets, None)
  | Some h => if upgrade h then (buckets, Some h) else (delete key buckets, None)
  end.

Definition route_action (key : CompoundKey) diff (buckets : Buckets) : Buckets * list BucketAction :=
  let '(buckets, bucket) := route_to_live_bucket key buckets in
  (buckets, match bucket with Some h => [(h, diff)] | None => [] end).

Definition grouped_step (acc : Members * Buckets * list BucketAction)
    (entry : CompoundKey * list (MapDiff (Item P))) : Members * Buckets * list BucketAction :=
  let '(members, buckets, actions) := acc in
  let '(fk, changes) := entry in
  let rows := foldl member_change (default ∅ (members !! fk)) changes in
  let members := if bool_decide (rows = ∅) then delete fk members else <[fk := rows]> members in
  let '(buckets, action) := route_action fk (Batch changes) buckets in
  (members, buckets, actions ++ action).

Definition apply_grouped (grouped : gmap CompoundKey (list (MapDiff (Item P)))) (members : Members) (buckets : Buckets)
  : Members * Buckets * list BucketAction :=
  foldl grouped_step (members, buckets, []) (iterate grouped).

(** A complete replacement: membership is rebuilt and every known bucket gets its rows. *)
Definition initial_members ext (entries : list (string * Item P)) : Members :=
  foldl (λ members entry, match ext entry.2 with
                          | Some fk => insert_member fk entry.1 entry.2 members
                          | None => members
                          end) ∅ entries.

Definition initial_step (members : Members) (acc : Buckets * list BucketAction) (key : CompoundKey)
  : Buckets * list BucketAction :=
  let '(buckets, actions) := acc in
  let '(buckets, action) :=
    route_action key (Initial (map_to_list (default ∅ (members !! key)))) buckets in
  (buckets, actions ++ action).

(** One change of a batch: a nested replacement or batch flushes what was grouped so far. *)
Definition batch_step ext
    (prepare : MapDiff (Item P) → Members → Buckets → Members * Buckets * list BucketAction)
    (acc : Members * Buckets * list BucketAction * gmap CompoundKey (list (MapDiff (Item P)))) change :=
  let '(members, buckets, actions, grouped) := acc in
  match change with
  | Initial _ | Batch _ =>
      let '(members, buckets, flushed) := apply_grouped grouped members buckets in
      let '(members, buckets, nested) := prepare change members buckets in
      (members, buckets, actions ++ flushed ++ nested, ∅)
  | Insert _ _ | Remove _ _ | Update _ _ _ => (members, buckets, actions, group_change ext grouped change)
  end.

Fixpoint prepare_diff_locked ext diff (members : Members) (buckets : Buckets)
  : Members * Buckets * list BucketAction :=
  match diff with
  | Initial entries =>
      let members := initial_members ext entries in
      let '(buckets, actions) := foldl (initial_step members) (buckets, []) (iterate buckets).*1 in
      (members, buckets, actions)
  | Batch changes =>
      let '(members, buckets, actions, grouped) :=
        foldl (batch_step ext (prepare_diff_locked ext)) (members, buckets, [], ∅) changes in
      let '(members, buckets, flushed) := apply_grouped grouped members buckets in
      (members, buckets, actions ++ flushed)
  | Insert _ _ | Remove _ _ | Update _ _ _ => apply_grouped (group_change ext ∅ diff) members buckets
  end.
End routing.

(** ** The index and its queue *)

Definition queued idx : list BucketAction := si_running idx ++ concat (si_pending idx).

(** [Weak::upgrade]: somebody still holds the bucket. *)
Definition alive idx (h : nat) : bool :=
  bool_decide (h ∈ si_held idx) || existsb (λ a : BucketAction, bool_decide (a.1 = h)) (queued idx).

(** The part of [apply_diff] under the gate; the flag tells the caller to drain the queue. *)
Definition submit diff idx : SourceIndex * bool :=
  let '(members, buckets, actions) :=
    prepare_diff_locked (alive idx) (si_extract idx) diff (si_members idx) (si_buckets idx) in
  (mkSourceIndex (si_extract idx) buckets members (si_pending idx ++ [actions]) true (si_running idx)
     (si_maps idx) (si_held idx) (si_next idx), negb (si_dispatching idx)).

(** [bucket.apply_diff_owned(diff)]. *)
Definition deliver (a : BucketAction) (maps : gmap nat Rows) : gmap nat Rows :=
  <[a.1 := apply_diff a.2 (default ∅ (maps !! a.1))]> maps.

(** One turn of the drain loop: deliver an action, take the next batch, or stop. *)
Definition drain_step idx : SourceIndex * option BucketAction :=
  match si_running idx with
  | a :: rest =>
      (mkSourceIndex (si_extract idx) (si_buckets idx) (si_members idx) (si_pending idx) (si_dispatching idx) rest
         (deliver a (si_maps idx)) (si_held idx) (si_next idx), Some a)
  | [] =>
      match si_pending idx with
      | actions :: pending =>
          (mkSourceIndex (si_extract idx) (si_buckets idx) (si_members idx) pending (si_dispatching idx) actions
             (si_maps idx) (si_held idx) (si_next idx), None)
      | [] =>
          (mkSourceIndex (si_extract idx) (si_buckets idx) (si_members idx) [] false []
             (si_maps idx) (si_held idx) (si_next idx), None)
      end
  end.

(** The loop, with the actions in the order their buckets' subscribers see them. *)
Fixpoint drain_index (fuel : nat) idx : SourceIndex * list BucketAction :=
  match fuel with
  | O => (idx, [])
  | S fuel =>
      let '(idx, delivered) := drain_step idx in
      if si_dispatching idx then
        let '(idx, rest) := drain_index fuel idx in (idx, option_list delivered ++ rest)
      else (idx, option_list delivered)
  end.

(** One turn per action, one per batch, one to stop. *)
Definition drain_fuel idx : nat :=
  S (length (si_running idx) + sum_list_with (λ actions, S (length actions)) (si_pending idx)).

(** [apply_diff], uninterrupted. *)
Definition index_apply_diff diff idx : SourceIndex * list BucketAction :=
  let '(idx, drains) := submit diff idx in
  if drains then drain_index (drain_fuel idx) idx else (idx, []).

(** [new]: the subscription to the store starts with its current contents. *)
Definition index_new ext (store : Rows) : SourceIndex :=
  (index_apply_diff (Initial (map_to_list store)) (mkSourceIndex ext ∅ ∅ [] false [] ∅ ∅ 0)).1.

Definition build_backfilled_bucket (members : option Rows) : Rows :=
  match members with
  | Some members => apply_diff (Initial (map_to_list members)) ∅
  | None => ∅
  end.

(** The bucket of a key, with a strong handle on it for the caller: the live one, or a new one
    filled from the membership table. *)
Definition bucket_for (key : CompoundKey) idx : SourceIndex * nat :=
  let hold buckets maps h next :=
    (mkSourceIndex (si_extract idx) buckets (si_members idx) (si_pending idx) (si_dispatching idx) (si_running idx)
       maps ({[+ h +]} ⊎ si_held idx) next, h) in
  let fresh :=
    hold (<[key := si_next idx]> (si_buckets idx))
         (<[si_next idx := build_backfilled_bucket (si_members idx !! key)]> (si_maps idx))
         (si_next idx) (S (si_next idx)) in
  match si_buckets idx !! key with
  | Some h => if alive idx h then hold (si_buckets idx) (si_maps idx) h (si_next idx) else fresh
  | None => fresh
  end.

(** A holder drops its handle. *)
Definition drop_bucket (h : nat) idx : SourceIndex :=
  mkSourceIndex (si_extract idx) (si_buckets idx) (si_members idx) (si_pending idx) (si_dispatching idx)
    (si_running idx) (si_maps idx) (si_held idx ∖ {[+ h +]}) (si_next idx).

Definition sweep_dead_buckets idx : SourceIndex :=
  mkSourceIndex (si_extract idx) (filter (λ entry : CompoundKey * nat, alive idx entry.2 = true) (si_buckets idx))
    (si_members idx) (si_pending idx) (si_dispatching idx)
    (si_running idx) (si_maps idx) (si_held idx) (si_next idx).

(** A bucket holds its index, and so does a thread that is draining it; with no holder the
    weak entry of the registry fails to upgrade. *)
Definition index_alive idx : bool := negb (bool_decide (si_held idx = ∅)) || si_dispatching idx.

(** [snapshot] of a bucket. *)
Definition bucket_rows idx (h : nat) : Rows := default ∅ (si_maps idx !! h).

(** ** Runs *)

Inductive IndexEvent :=
| StoreDiff (diff : MapDiff (Item P))
| DrainStep
| OpenBucket (key : CompoundKey)
| DropBucket (h : nat)
| SweepBuckets.

(** The store and its index; a diff changes both at once, the buckets follow later. *)
Definition index_event (event : IndexEvent) (s : Rows * SourceIndex) : Rows * SourceIndex :=
  match event with
  | StoreDiff diff => (apply_diff diff s.1, (submit diff s.2).1)
  | DrainStep => (s.1, (drain_step s.2).1)
  | OpenBucket key => (s.1, (bucket_for key s.2).1)
  | DropBucket h => (s.1, drop_bucket h s.2)
  | SweepBuckets => (s.1, sweep_dead_buckets s.2)
  end.

(** ** The union of several buckets *)

(** The diff of one bucket as changes that are safe to apply to the union, and the bucket's
    contribution after it. *)
Fixpoint additive_union_diff diff (contribution : Rows) : option (MapDiff (Item P)) * Rows :=
  match diff with
  | Initial entries =>
      let changes := ((λ kv : string * Item P, Remove kv.1 kv.2) <$> map_to_list contribution) ++
                     ((λ kv : string * Item P, Insert kv.1 kv.2) <$> entries) in
      (match changes with [] => None | _ => Some (Batch changes) end,
       foldl (λ c kv, <[kv.1 := kv.2]> c) ∅ entries)
  | Batch changes =>
      let '(rewritten, contribution) :=
        foldl (λ acc change,
                 let '(o, c) := additive_union_diff change acc.2 in (acc.1 ++ option_list o, c))
              ([], contribution) changes in
      (match rewritten with [] => None | _ => Some (Batch rewritten) end, contribution)
  | Insert key value => (Some diff, <[key := value]> contribution)
  | Remove key _ => (Some diff, delete key contribution)
  | Update key _ new_value => (Some diff, <[key := new_value]> contribution)
  end.

(** The union map and its subscriptions: a bucket handle and that bucket's contribution. *)
Record UnionMap := mkUnion { un_result : Rows; un_subscriptions : list (nat * Rows) }.

(** The callbacks of the union's subscriptions on the bucket that changed. *)
Fixpoint notify_union (a : BucketAction) (result : Rows) (subscriptions : list (nat * Rows)) : Rows * list (nat * Rows) :=
  match subscriptions with
  | [] => (result, [])
  | (h, contribution) :: rest =>
      let '(result, contribution) :=
        if bool_decide (h = a.1) then
          let '(additive, contribution) := additive_union_diff a.2 contribution in
          (match additive with Some d => apply_diff d result | None => result end, contribution)
        else (result, contribution) in
      let '(result, rest) := notify_union a result rest in
      (result, (h, contribution) :: rest)
  end.

Definition union_action (a : BucketAction) (u : UnionMap) : UnionMap :=
  let '(result, subscriptions) := notify_union a (un_result u) (un_subscriptions u) in
  mkUnion result subscriptions.

(** Subscribing to a bucket delivers its contents first. *)
Definition union_subscribe (h : nat) idx (u : UnionMap) : UnionMap :=
  let '(result, subscriptions) :=
    notify_union (h, Initial (map_to_list (bucket_rows idx h))) (un_result u) [(h, ∅)] in
  mkUnion result (un_subscriptions u ++ subscriptions).

(** [build_belongs_to_union_source_map]. *)
Definition build_belongs_to_union_source_map (keys : list CompoundKey) idx : SourceIndex * UnionMap :=
  foldl (λ acc key, let '(idx, h) := bucket_for key acc.1 in (idx, union_subscribe h idx acc.2))
    (idx, mkUnion ∅ []) keys.
End index.
Arguments SourceIndex : clear implicits.
Arguments BucketAction : clear implicits.
Arguments UnionMap : clear implicits.
Arguments IndexEvent : clear implicits.
