(* ===== verification/SourceIndexProof.v ===== *)
(** * The buckets of the foreign-key index

    Membership is the store grouped by key after every diff, and a live bucket, with the
    actions still queued for it, is its key's membership; so a drained index holds the rows
    of the store in its buckets, whatever the interleaving. *)

From stdpp Require Import base strings numbers option countable gmap gmultiset sets list.
From S2P Require Import Prelude Order GraphTypes EdgeIds GraphIndex GraphQuery GraphWatch WatchProof.
From S2P Require Import Filter QueryRoute SourceIndex.

Section proof.
Context {P : Type} `{!CellMap (Item P), !HashOrder}.
Abbreviation Rows := (gmap string (Item P)).
Abbreviation Members := (gmap CompoundKey Rows).
Abbreviation Buckets := (gmap CompoundKey nat).
Implicit Types (idx : SourceIndex P) (d change : MapDiff (Item P)) (ext : CompoundFkExtractor P) (m : Rows)
  (members : Members) (buckets : Buckets) (key : CompoundKey) (actions : list (BucketAction P)).

(** The rows of the store under a key: what its bucket promises to hold. *)
Definition bucket_of ext m key : Rows := filter (λ kv : string * Item P, ext kv.2 = Some key) m.

Lemma lookup_bucket_of ext m key id x : bucket_of ext m key !! id = Some x ↔ m !! id = Some x ∧ ext x = Some key.
Proof. unfold bucket_of. by rewrite map_lookup_filter_Some. Qed.

Definition rows_at members key : Rows := default ∅ (members !! key).

(** No key is kept without rows. *)
Definition no_empty members : Prop := ∀ key, members !! key ≠ Some ∅.

Definition members_exact ext m members : Prop := no_empty members ∧ ∀ key, rows_at members key = bucket_of ext m key.

(** ** Simple changes *)

Definition simple d : bool := match d with Initial _ | Batch _ => false | _ => true end.

Lemma member_change_apply rows d : simple d = true → member_change rows d = apply_diff d rows.
Proof. destruct d; simpl; intros ?; rewrite ?apply_insert, ?apply_remove, ?apply_update; done. Qed.

Definition changes_at (grouped : gmap CompoundKey (list (MapDiff (Item P)))) key := default [] (grouped !! key).

Lemma changes_at_push by_fk k d key :
  changes_at (push_change k d by_fk) key = changes_at by_fk key ++ (if bool_decide (k = Some key) then [d] else []).
Proof.
  unfold changes_at. destruct k as [k|]; simpl; [|by rewrite app_nil_r].
  destruct (decide (k = key)) as [->|Hne].
  - rewrite lookup_insert, bool_decide_true by done. by rewrite decide_True.
  - rewrite lookup_insert_ne by done. rewrite bool_decide_false by congruence. by rewrite app_nil_r.
Qed.

Lemma group_change_simple ext by_fk d :
  simple d = true →
  (∀ key, Forall (λ d, simple d = true) (changes_at by_fk key)) →
  ∀ key, Forall (λ d, simple d = true) (changes_at (group_change ext by_fk d) key).
Proof.
  intros Hs Hb key. destruct d as [|k x|k x|k x y|]; simpl; try done; try case_bool_decide;
    rewrite ?changes_at_push, ?Forall_app; repeat split; try apply Hb; case_bool_decide; by repeat constructor.
Qed.

(** Each bucket sees its own part of a change. *)
Lemma group_change_bucket ext by_fk d m key c :
  simple d = true → diff_valid d m → foldl member_change c (changes_at by_fk key) = bucket_of ext m key →
  foldl member_change c (changes_at (group_change ext by_fk d) key) = bucket_of ext (apply_diff d m) key.
Proof.
  intros Hs V Hc.
  assert (∀ k x, m !! k = Some x → ext x ≠ Some key → bucket_of ext m key !! k = None) as Hno.
  { intros k x Ex Nx. apply eq_None_not_Some. intros [y Hy]. apply lookup_bucket_of in Hy as [Ey Ny]. naive_solver. }
  assert (∀ k, m !! k = None → bucket_of ext m key !! k = None) as Hnone.
  { intros k Ek. apply eq_None_not_Some. intros [y Hy]. apply lookup_bucket_of in Hy as [Ey _]. naive_solver. }
  assert (∀ k x, bucket_of ext (<[k := x]> m) key
                 = if bool_decide (ext x = Some key) then <[k := x]> (bucket_of ext m key)
                   else delete k (bucket_of ext m key)) as Hins.
  { intros k x. unfold bucket_of. rewrite map_filter_insert. simpl. case_bool_decide as E.
    - by rewrite decide_True.
    - rewrite decide_False by done. by rewrite map_filter_delete. }
  destruct d as [|k x|k x|k x y|]; try done; simpl in V |- *.
  - rewrite apply_insert, Hins, changes_at_push, foldl_app, Hc. case_bool_decide; simpl; [done|].
    symmetry. apply delete_id. by apply Hnone.
  - rewrite apply_remove, changes_at_push, foldl_app, Hc.
    assert (bucket_of ext (delete k m) key = delete k (bucket_of ext m key)) as -> by apply map_filter_delete.
    case_bool_decide; simpl; [done|]. symmetry. apply delete_id. by eapply Hno.
  - rewrite apply_update, Hins. case_bool_decide as Exy.
    + rewrite changes_at_push, foldl_app, Hc. case_bool_decide as Ey; simpl; [done|].
      symmetry. apply delete_id. eapply Hno; [done|]. by rewrite Exy.
    + rewrite !changes_at_push, !foldl_app, Hc. case_bool_decide as Ex; simpl.
      * by rewrite !bool_decide_false by congruence.
      * case_bool_decide as Ey; simpl; [done|]. symmetry. apply delete_id. by eapply Hno.
Qed.

Lemma valid_snoc changes d rows :
  Forall (λ d, simple d = true) changes → diff_valid (Batch changes) rows →
  diff_valid d (foldl member_change rows changes) → diff_valid (Batch (changes ++ [d])) rows.
Proof.
  intros F. revert rows. induction F as [|c changes Hc _ IH]; intros rows V Vd.
  - by split.
  - destruct V as [Vc V]. split; [done|]. simpl in Vd. rewrite member_change_apply in Vd by done. by apply IH.
Qed.

Lemma group_change_valid ext by_fk d m key c :
  simple d = true → diff_valid d m → Forall (λ d, simple d = true) (changes_at by_fk key) →
  foldl member_change c (changes_at by_fk key) = bucket_of ext m key →
  diff_valid (Batch (changes_at by_fk key)) c →
  diff_valid (Batch (changes_at (group_change ext by_fk d) key)) c.
Proof.
  intros Hs V F Hc Vc.
  destruct d as [|k x|k x|k x y|]; try done; simpl in V |- *; rewrite ?changes_at_push.
  - case_bool_decide as E; [|by rewrite app_nil_r]. apply valid_snoc; [done..|]. rewrite Hc. simpl.
    apply eq_None_not_Some. intros [z Hz]. apply lookup_bucket_of in Hz as [Hz _]. congruence.
  - case_bool_decide as E; [|by rewrite app_nil_r]. apply valid_snoc; [done..|]. rewrite Hc. simpl.
    by apply lookup_bucket_of.
  - case_bool_decide as Exy; rewrite ?changes_at_push.
    + case_bool_decide as E; [|by rewrite app_nil_r]. apply valid_snoc; [done..|]. rewrite Hc. simpl.
      apply lookup_bucket_of. by rewrite Exy.
    + case_bool_decide as Ex.
      * rewrite bool_decide_false by congruence. rewrite app_nil_r. apply valid_snoc; [done..|]. rewrite Hc. simpl.
        by apply lookup_bucket_of.
      * rewrite app_nil_r. case_bool_decide as Ey; [|by rewrite app_nil_r]. apply valid_snoc; [done..|]. rewrite Hc. simpl.
        apply eq_None_not_Some. intros [z Hz]. apply lookup_bucket_of in Hz as [Hz Ez]. congruence.
Qed.

(** ** Routing *)

(** What the actions do to one bucket. *)
Definition replay (h : nat) actions (rows : Rows) : Rows :=
  foldl (λ rows (a : BucketAction P), if bool_decide (a.1 = h) then apply_diff a.2 rows else rows) rows actions.

Lemma replay_app h actions1 actions2 rows : replay h (actions1 ++ actions2) rows = replay h actions2 (replay h actions1 rows).
Proof. unfold replay. apply foldl_app. Qed.

Lemma replay_none h actions rows : (∀ a, a ∈ actions → a.1 ≠ h) → replay h actions rows = rows.
Proof.
  induction actions as [|a actions IH]; intros Ha; simpl; [done|].
  rewrite bool_decide_false by (apply Ha; left). apply IH. intros a' ?. apply Ha. by right.
Qed.

(** Each of them describes a change of the rows it finds. *)
Fixpoint replay_valid (h : nat) actions (rows : Rows) : Prop :=
  match actions with
  | [] => True
  | a :: actions =>
      if bool_decide (a.1 = h) then diff_valid a.2 rows ∧ replay_valid h actions (apply_diff a.2 rows)
      else replay_valid h actions rows
  end.

Lemma replay_valid_app h actions1 actions2 rows :
  replay_valid h (actions1 ++ actions2) rows ↔ replay_valid h actions1 rows ∧ replay_valid h actions2 (replay h actions1 rows).
Proof.
  revert rows. induction actions1 as [|a actions1 IH]; intros rows; simpl; [tauto|].
  case_bool_decide; rewrite IH; tauto.
Qed.

Definition injective buckets : Prop :=
  ∀ key1 key2 h, buckets !! key1 = Some h → buckets !! key2 = Some h → key1 = key2.

(** The actions go to live buckets of the table and take each from the rows [f] gives its key
    to the rows [f'] gives it; only dead entries leave the table. *)
Record routed (upgrade : nat → bool) buckets buckets' (f f' : CompoundKey → Rows) actions : Prop := {
  routed_kept key h : buckets !! key = Some h → upgrade h = true → buckets' !! key = Some h;
  routed_sub : buckets' ⊆ buckets;
  routed_from a : a ∈ actions → ∃ key, buckets !! key = Some a.1 ∧ upgrade a.1 = true;
  routed_effect key h : buckets !! key = Some h → upgrade h = true → replay h actions (f key) = f' key;
  routed_valid key h : buckets !! key = Some h → upgrade h = true → replay_valid h actions (f key)
}.

Lemma injective_sub buckets buckets' : buckets' ⊆ buckets → injective buckets → injective buckets'.
Proof. intros Hs Hi key1 key2 h H1 H2. eapply Hi; by eapply lookup_weaken. Qed.

Lemma routed_refl upgrade buckets f f' : (∀ key, f key = f' key) → routed upgrade buckets buckets f f' [].
Proof.
  intros E. split; try done.
  - intros a Ha. by apply elem_of_nil in Ha.
  - intros key h _ _. apply E.
Qed.

Lemma routed_trans upgrade b1 b2 b3 f1 f2 f3 actions1 actions2 :
  routed upgrade b1 b2 f1 f2 actions1 → routed upgrade b2 b3 f2 f3 actions2 →
  routed upgrade b1 b3 f1 f3 (actions1 ++ actions2).
Proof.
  intros R1 R2. split.
  - intros key h Hk Hu. eapply routed_kept; [done| |done]. by eapply routed_kept.
  - etrans; [apply R2|apply R1].
  - intros a [Ha|Ha]%elem_of_app; [by eapply routed_from|].
    destruct (routed_from _ _ _ _ _ _ R2 a Ha) as (key & Hk & Hu). exists key. split; [|done].
    eapply lookup_weaken; [done|apply R1].
  - intros key h Hk Hu. rewrite replay_app, (routed_effect _ _ _ _ _ _ R1 key h) by done.
    eapply routed_effect; [done| |done]. by eapply routed_kept.
  - intros key h Hk Hu. rewrite replay_valid_app, (routed_effect _ _ _ _ _ _ R1 key h) by done.
    split; [by eapply routed_valid|]. eapply routed_valid; [done| |done]. by eapply routed_kept.
Qed.

Lemma route_action_routed upgrade key d buckets buckets' actions (f f' : CompoundKey → Rows) :
  injective buckets → route_action upgrade key d buckets = (buckets', actions) →
  diff_valid d (f key) → apply_diff d (f key) = f' key → (∀ key', key' ≠ key → f key' = f' key') →
  routed upgrade buckets buckets' f f' actions.
Proof.
  unfold route_action, route_to_live_bucket. intros Hi E Hv Hd Hf.
  destruct (buckets !! key) as [h0|] eqn:Ek.
  - destruct (upgrade h0) eqn:Eu; injection E as <- <-.
    + split; try done.
      * intros a ->%list_elem_of_singleton. by exists key.
      * intros key' h Hk Hu. simpl. case_bool_decide as Eh.
        -- subst h0. by rewrite (Hi key' key h).
        -- apply Hf. intros ->. congruence.
      * intros key' h Hk Hu. simpl. case_bool_decide as Eh; [|done]. subst h0. by rewrite (Hi key' key h).
    + split; try done.
      * intros key' h Hk Hu. rewrite lookup_delete_ne; [done|]. intros ->. congruence.
      * apply delete_subseteq.
      * intros a Ha. by apply elem_of_nil in Ha.
      * intros key' h Hk Hu. simpl. apply Hf. intros ->. congruence.
  - injection E as <- <-. split; try done.
    + intros a Ha. by apply elem_of_nil in Ha.
    + intros key' h Hk Hu. simpl. apply Hf. intros ->. congruence.
Qed.

(** ** Grouped changes *)

Lemma iterate_keys {V} (g : gmap CompoundKey V) : NoDup (iterate g).*1.
Proof. rewrite iterate_perm. apply NoDup_fst_map_to_list. Qed.

Lemma iterate_lookup {V} (g : gmap CompoundKey V) key v : (key, v) ∈ iterate g ↔ g !! key = Some v.
Proof. rewrite iterate_perm. apply elem_of_map_to_list. Qed.

Lemma member_changes_batch rows changes :
  Forall (λ d, simple d = true) changes → apply_diff (Batch changes) rows = foldl member_change rows changes.
Proof.
  intros F. rewrite apply_batch. revert rows. induction F as [|d changes Hd _ IH]; intros rows; simpl; [done|].
  by rewrite IH, member_change_apply.
Qed.

(** The rows of each key after the changes of a list of groups. *)
Definition after_changes (l : list (CompoundKey * list (MapDiff (Item P)))) (f : CompoundKey → Rows) : CompoundKey → Rows :=
  foldl (λ f entry key, if bool_decide (entry.1 = key) then foldl member_change (f key) entry.2 else f key) f l.

Lemma after_changes_notin l f key : key ∉ l.*1 → after_changes l f key = f key.
Proof.
  unfold after_changes. revert f. induction l as [|[fk changes] l IH]; intros f Hk; simpl; [done|]. simpl in Hk.
  rewrite not_elem_of_cons in Hk. rewrite IH by naive_solver. simpl. rewrite bool_decide_false by naive_solver. done.
Qed.

Lemma after_changes_in l f key changes :
  NoDup l.*1 → (key, changes) ∈ l → after_changes l f key = foldl member_change (f key) changes.
Proof.
  revert f. induction l as [|[fk cs] l IH]; intros f ND Hin; [by apply elem_of_nil in Hin|].
  apply NoDup_cons in ND as [Nk ND]. apply elem_of_cons in Hin as [[= <- <-]|Hin].
  - change (after_changes ((key, changes) :: l) f) with
      (after_changes l (λ k, if bool_decide (key = k) then foldl member_change (f k) changes else f k)).
    rewrite after_changes_notin by done. by rewrite bool_decide_true.
  - change (after_changes ((fk, cs) :: l) f) with
      (after_changes l (λ k, if bool_decide (fk = k) then foldl member_change (f k) cs else f k)).
    rewrite (IH _ ND Hin). rewrite bool_decide_false; [done|]. intros ->. apply Nk.
    apply list_elem_of_fmap. by exists (key, changes).
Qed.

Lemma grouped_steps upgrade l members buckets actions members' buckets' actions' :
  injective buckets → no_empty members → NoDup l.*1 → Forall (λ entry, Forall (λ d, simple d = true) entry.2) l →
  (∀ key changes, (key, changes) ∈ l → diff_valid (Batch changes) (rows_at members key)) →
  foldl (grouped_step upgrade) (members, buckets, actions) l = (members', buckets', actions') →
  no_empty members' ∧ (∀ key, rows_at members' key = after_changes l (rows_at members) key) ∧
  ∃ new, actions' = actions ++ new ∧ routed upgrade buckets buckets' (rows_at members) (rows_at members') new.
Proof.
  revert members buckets actions. induction l as [|[fk changes] l IH]; intros members buckets actions Hi Hn ND Hs Hv E.
  - simpl in E. injection E as <- <- <-. split; [done|]. split; [done|]. exists []. rewrite app_nil_r.
    split; [done|]. by apply routed_refl.
  - apply Forall_cons in Hs as [Hc Hs]. apply NoDup_cons in ND as [Nk ND]. cbn [foldl] in E. unfold grouped_step at 2 in E.
    set (rows := foldl member_change (default ∅ (members !! fk)) changes) in E.
    set (members1 := if bool_decide (rows = ∅) then _ else _) in E.
    assert (∀ key, rows_at members1 key = if bool_decide (fk = key) then rows else rows_at members key) as Hm1.
    { intros key. unfold members1, rows_at. case_bool_decide as Er; case_bool_decide as Ek; subst.
      - by rewrite lookup_delete_eq, Er.
      - by rewrite lookup_delete_ne.
      - by rewrite lookup_insert_eq.
      - by rewrite lookup_insert_ne. }
    assert (no_empty members1) as Hn1.
    { intros key. unfold members1. case_bool_decide as Er.
      - intros [? ?]%lookup_delete_Some. by eapply Hn.
      - intros [[-> E']|[? ?]]%lookup_insert_Some; [done|by eapply Hn]. }
    destruct (route_action upgrade fk (Batch changes) buckets) as [buckets1 action] eqn:Ea.
    assert (routed upgrade buckets buckets1 (rows_at members) (rows_at members1) action) as R1.
    { eapply route_action_routed; [done|exact Ea|apply Hv; left| |].
      - rewrite member_changes_batch by done. rewrite Hm1. by rewrite bool_decide_true.
      - intros key Hne. rewrite Hm1. by rewrite bool_decide_false by congruence. }
    assert (injective buckets1) as Hi1 by (eapply injective_sub; [apply R1|done]).
    assert (∀ key cs, (key, cs) ∈ l → diff_valid (Batch cs) (rows_at members1 key)) as Hv1.
    { intros key cs Hin. rewrite Hm1, bool_decide_false; [apply Hv; by right|]. intros ->. apply Nk.
      apply list_elem_of_fmap. by exists (key, cs). }
    destruct (IH _ _ _ Hi1 Hn1 ND Hs Hv1 E) as (Hn' & Hm' & new & -> & R2). split; [done|]. split.
    + intros key. rewrite Hm'. change (after_changes ((fk, changes) :: l) (rows_at members)) with
        (after_changes l (λ k, if bool_decide (fk = k) then foldl member_change (rows_at members k) changes
                               else rows_at members k)).
      clear -Hm1. assert (∀ (f g : CompoundKey → Rows), (∀ k, f k = g k) → ∀ l k, after_changes l f k = after_changes l g k) as Hext.
      { intros f g Hfg l0. unfold after_changes. revert f g Hfg. induction l0 as [|e l0 IH0]; intros f g Hfg k; simpl; [done|].
        apply IH0. intros k'. by rewrite Hfg. }
      apply Hext. intros k. rewrite Hm1. case_bool_decide; by subst.
    + exists (action ++ new). rewrite (assoc_L (++)). split; [done|]. by eapply routed_trans.
Qed.

Lemma apply_grouped_spec upgrade grouped members buckets members' buckets' actions :
  injective buckets → no_empty members → (∀ key, Forall (λ d, simple d = true) (changes_at grouped key)) →
  (∀ key, diff_valid (Batch (changes_at grouped key)) (rows_at members key)) →
  apply_grouped upgrade grouped members buckets = (members', buckets', actions) →
  no_empty members' ∧ (∀ key, rows_at members' key = foldl member_change (rows_at members key) (changes_at grouped key)) ∧
  routed upgrade buckets buckets' (rows_at members) (rows_at members') actions.
Proof.
  unfold apply_grouped. intros Hi Hn Hs Hv E.
  apply grouped_steps in E as (Hn' & Hm & new & -> & R); [|done|done|apply iterate_keys|..].
  - split; [done|]. split; [|done]. intros key. rewrite Hm. unfold changes_at.
    destruct (grouped !! key) as [changes|] eqn:Eg; simpl.
    + apply after_changes_in; [apply iterate_keys|]. by apply iterate_lookup.
    + apply after_changes_notin. intros ([k cs] & -> & Hin)%list_elem_of_fmap. apply iterate_lookup in Hin.
      simpl in Eg. congruence.
  - rewrite Forall_forall. intros [key changes] Hin. apply iterate_lookup in Hin. specialize (Hs key).
    unfold changes_at in Hs. by rewrite Hin in Hs.
  - intros key changes Hin. apply iterate_lookup in Hin. specialize (Hv key). unfold changes_at in Hv.
    by rewrite Hin in Hv.
Qed.

(** ** Complete replacements *)

Lemma insert_member_exact ext m members id x :
  m !! id = None → members_exact ext m members →
  members_exact ext (<[id := x]> m) (match ext x with Some fk => insert_member fk id x members | None => members end).
Proof.
  intros Em [Hn Hm]. assert (∀ key, bucket_of ext (<[id := x]> m) key
    = if bool_decide (ext x = Some key) then <[id := x]> (bucket_of ext m key) else bucket_of ext m key) as Hb.
  { intros key. unfold bucket_of. rewrite map_filter_insert. simpl. case_bool_decide as E.
    - by rewrite decide_True.
    - rewrite decide_False by done. by rewrite delete_id. }
  destruct (ext x) as [fk|]; split.
  - intros key. unfold insert_member. intros [[-> E]|[? E]]%lookup_insert_Some; [|by eapply Hn].
    by apply (insert_non_empty (default ∅ (members !! key)) id x).
  - intros key. rewrite Hb. unfold rows_at, insert_member. case_bool_decide as E; simplify_eq.
    + rewrite lookup_insert_eq. simpl. by rewrite <-Hm.
    + rewrite lookup_insert_ne by congruence. apply Hm.
  - done.
  - intros key. rewrite Hb. rewrite bool_decide_false by done. apply Hm.
Qed.

Lemma initial_members_exact_from ext entries m members :
  NoDup entries.*1 → (∀ k, k ∈ entries.*1 → m !! k = None) → members_exact ext m members →
  members_exact ext (list_to_map entries ∪ m)
    (foldl (λ members (entry : string * Item P), match ext entry.2 with
                            | Some fk => insert_member fk entry.1 entry.2 members
                            | None => members
                            end) members entries).
Proof.
  revert m members. induction entries as [|[k x] entries IH]; intros m members ND Hk Hm; simpl.
  - by rewrite (left_id_L ∅ (∪)).
  - apply NoDup_cons in ND as [Nk ND]. rewrite <-insert_union_l, insert_union_r.
    + apply IH; [done| |].
      * intros k' Hin. rewrite lookup_insert_ne; [apply Hk; by right|]. by intros ->.
      * apply insert_member_exact; [|done]. apply Hk. left.
    + by apply not_elem_of_list_to_map_1.
Qed.

Lemma initial_members_exact ext entries :
  NoDup entries.*1 → members_exact ext (list_to_map entries) (initial_members ext entries).
Proof.
  intros ND. rewrite <-(right_id_L ∅ (∪) (list_to_map entries)). apply initial_members_exact_from; [done..|].
  split; [intros key; by rewrite lookup_empty|]. intros key. unfold rows_at, bucket_of.
  by rewrite lookup_empty, map_filter_empty.
Qed.

Lemma initial_steps upgrade members l buckets actions buckets' actions' (f : CompoundKey → Rows) :
  injective buckets → NoDup l →
  foldl (initial_step upgrade members) (buckets, actions) l = (buckets', actions') →
  ∃ new, actions' = actions ++ new ∧
    routed upgrade buckets buckets' f (λ key, if bool_decide (key ∈ l) then rows_at members key else f key) new.
Proof.
  revert buckets actions f. induction l as [|key l IH]; intros buckets actions f Hi ND E.
  - simpl in E. injection E as <- <-. exists []. rewrite app_nil_r. split; [done|]. apply routed_refl.
    intros key. by rewrite bool_decide_false by apply not_elem_of_nil.
  - apply NoDup_cons in ND as [Nk ND]. cbn [foldl] in E. unfold initial_step at 2 in E.
    destruct (route_action upgrade key _ buckets) as [buckets1 action] eqn:Ea.
    assert (routed upgrade buckets buckets1 f (λ k, if bool_decide (k = key) then rows_at members key else f k) action) as R1.
    { eapply route_action_routed; [done|exact Ea|apply NoDup_fst_map_to_list| |].
      - rewrite apply_initial by apply NoDup_fst_map_to_list. rewrite list_to_map_to_list. by rewrite bool_decide_true.
      - intros key' Hne. by rewrite bool_decide_false. }
    assert (injective buckets1) as Hi1 by (eapply injective_sub; [apply R1|done]).
    destruct (IH _ _ (λ k, if bool_decide (k = key) then rows_at members key else f k) Hi1 ND E) as (new & -> & R2).
    exists (action ++ new). rewrite (assoc_L (++)). split; [done|].
    assert (∀ f1 f2 f3, (∀ k, f2 k = f3 k) → ∀ a b acts, routed upgrade a b f1 f2 acts → routed upgrade a b f1 f3 acts) as Hext.
    { intros f1 f2 f3 Hff a b acts R. destruct R. split; try done. intros k h Hk Hu. rewrite <-Hff. by apply routed_effect0. }
    eapply Hext; [|eapply routed_trans; [exact R1|exact R2]].
    intros k. simpl. destruct (decide (k = key)) as [->|Hne].
    + rewrite (bool_decide_false (key ∈ l)), !bool_decide_true by (done || left). done.
    + rewrite (bool_decide_false (k = key)) by done. case_bool_decide as Hk; case_bool_decide as Hk'; try done.
      * destruct Hk'. by right.
      * apply elem_of_cons in Hk' as [?|?]; done.
Qed.

(** ** The actions of a diff *)

(** What preparing a diff achieves. *)
Definition prepared (upgrade : nat → bool) ext d : Prop := ∀ m members buckets members' buckets' actions,
  diff_valid d m → injective buckets → members_exact ext m members →
  prepare_diff_locked upgrade ext d members buckets = (members', buckets', actions) →
  members_exact ext (apply_diff d m) members' ∧
  routed upgrade buckets buckets' (rows_at members) (rows_at members') actions.

(** The membership table and the changes grouped so far describe the store [m]. *)
Record grouping ext m members (grouped : gmap CompoundKey (list (MapDiff (Item P)))) : Prop := {
  grouping_no_empty : no_empty members;
  grouping_simple key : Forall (λ d, simple d = true) (changes_at grouped key);
  grouping_valid key : diff_valid (Batch (changes_at grouped key)) (rows_at members key);
  grouping_rows key : foldl member_change (rows_at members key) (changes_at grouped key) = bucket_of ext m key
}.

Lemma grouping_empty ext m members : members_exact ext m members → grouping ext m members ∅.
Proof. intros [Hn Hm]. split; [done|constructor|done|done]. Qed.

Lemma grouping_flush upgrade ext m members buckets grouped members' buckets' actions :
  injective buckets → grouping ext m members grouped →
  apply_grouped upgrade grouped members buckets = (members', buckets', actions) →
  members_exact ext m members' ∧ routed upgrade buckets buckets' (rows_at members) (rows_at members') actions.
Proof.
  intros Hi [Hn Hs Hv Hg] E. apply apply_grouped_spec in E as (Hn' & Hm' & R); [|done..].
  split; [|done]. split; [done|]. intros key. by rewrite Hm'.
Qed.

Lemma grouping_simple_change ext m members grouped d :
  simple d = true → diff_valid d m → grouping ext m members grouped →
  grouping ext (apply_diff d m) members (group_change ext grouped d).
Proof.
  intros Hd V [Hn Hs Hv Hg]. split; [done|by apply group_change_simple|..]; intros key.
  - eapply group_change_valid; [done..|apply Hs|apply Hg|apply Hv].
  - by apply group_change_bucket.
Qed.

Lemma batch_step_simple upgrade ext prepare members buckets actions grouped d :
  simple d = true →
  batch_step upgrade ext prepare (members, buckets, actions, grouped) d
    = (members, buckets, actions, group_change ext grouped d).
Proof. by destruct d. Qed.

Lemma batch_step_nested upgrade ext prepare members buckets actions grouped d :
  simple d = false →
  batch_step upgrade ext prepare (members, buckets, actions, grouped) d
    = (let '(members, buckets, flushed) := apply_grouped upgrade grouped members buckets in
       let '(members, buckets, nested) := prepare d members buckets in
       (members, buckets, actions ++ flushed ++ nested, ∅)).
Proof. by destruct d. Qed.

Lemma batch_steps upgrade ext changes :
  Forall (prepared upgrade ext) changes →
  ∀ m members buckets actions grouped members' buckets' actions' grouped',
  diff_valid (Batch changes) m → injective buckets → grouping ext m members grouped →
  foldl (batch_step upgrade ext (prepare_diff_locked upgrade ext)) (members, buckets, actions, grouped) changes
    = (members', buckets', actions', grouped') →
  ∃ new, actions' = actions ++ new ∧ grouping ext (foldl (λ m d, apply_diff d m) m changes) members' grouped' ∧
    routed upgrade buckets buckets' (rows_at members) (rows_at members') new.
Proof.
  induction 1 as [|d changes Hd _ IH];
    intros m members buckets actions grouped members' buckets' actions' grouped' V Hi G E.
  - simpl in E. injection E as <- <- <- <-. exists []. rewrite app_nil_r. split; [done|]. split; [done|].
    by apply routed_refl.
  - destruct V as [Vd V]. cbn [foldl] in E.
    destruct (simple d) eqn:Es.
    + rewrite batch_step_simple in E by done. eapply IH; [exact V|done| |exact E]. by apply grouping_simple_change.
    + rewrite batch_step_nested in E by done.
      destruct (apply_grouped upgrade grouped members buckets) as [[members1 buckets1] flushed] eqn:E1.
      destruct (prepare_diff_locked upgrade ext d members1 buckets1) as [[members2 buckets2] nested] eqn:E2.
      eapply grouping_flush in E1 as [Hm1 R1]; [|done..].
      assert (injective buckets1) as Hi1 by (eapply injective_sub; [apply R1|done]).
      destruct (Hd _ _ _ _ _ _ Vd Hi1 Hm1 E2) as [Hm2 R2].
      assert (injective buckets2) as Hi2 by (eapply injective_sub; [apply R2|done]).
      destruct (IH _ _ _ _ _ _ _ _ _ V Hi2 (grouping_empty _ _ _ Hm2) E) as (new & -> & G' & R3).
      exists (flushed ++ nested ++ new). rewrite <-!(assoc_L (++)). split; [done|]. split; [done|].
      eapply routed_trans; [done|]. by eapply routed_trans.
Qed.

Lemma prepare_spec upgrade ext d : prepared upgrade ext d.
Proof.
  assert (∀ d, simple d = true → ∀ m members buckets members' buckets' actions,
    diff_valid d m → injective buckets → members_exact ext m members →
    apply_grouped upgrade (group_change ext ∅ d) members buckets = (members', buckets', actions) →
    members_exact ext (apply_diff d m) members' ∧
    routed upgrade buckets buckets' (rows_at members) (rows_at members') actions) as Hsimple.
  { intros d' Hs m members buckets members' buckets' actions V Hi Hm E. eapply grouping_flush; [done| |exact E].
    apply grouping_simple_change; [done..|]. by apply grouping_empty. }
  induction d as [entries|k x|k x|k x y|changes IH] using MapDiff_rect';
    intros m members buckets members' buckets' actions V Hi Hm E; try (eapply Hsimple; [|done..]; done).
  - cbn [prepare_diff_locked] in E. simpl in V. rewrite apply_initial by done.
    destruct (foldl _ _ _) as [buckets1 actions1] eqn:Ef. injection E as <- <- <-.
    split; [by apply initial_members_exact|].
    eapply (initial_steps _ _ _ _ _ _ _ (rows_at members)) in Ef as (new & -> & R); [|done|apply iterate_keys].
    destruct R as [Rk Rs Rf Re Rv]. split; try done. intros key h Hk Hu. simpl. rewrite (Re key h) by done.
    rewrite bool_decide_true; [done|]. apply list_elem_of_fmap. exists (key, h). by rewrite iterate_lookup.
  - cbn [prepare_diff_locked] in E. rewrite apply_batch.
    destruct (foldl _ _ _) as [[[members1 buckets1] actions1] grouped1] eqn:Ef.
    eapply batch_steps in Ef as (new & -> & G & R1); [|done..|by apply grouping_empty].
    assert (injective buckets1) as Hi1 by (eapply injective_sub; [apply R1|done]).
    destruct (apply_grouped _ grouped1 members1 buckets1) as [[members2 buckets2] flushed] eqn:E2.
    injection E as <- <- <-. eapply grouping_flush in E2 as [Hm2 R2]; [|done..].
    split; [done|]. simpl. by eapply routed_trans.
Qed.

(** ** The index invariant *)

Record index_ok m idx : Prop := {
  ok_members : members_exact (si_extract idx) m (si_members idx);
  ok_injective : injective (si_buckets idx);
  ok_fresh key h : si_buckets idx !! key = Some h → h < si_next idx;
  ok_alive h : alive idx h = true → ∃ key, si_buckets idx !! key = Some h;
  (** a live bucket and what is queued for it make the rows of its key *)
  ok_bucket key h :
    si_buckets idx !! key = Some h → alive idx h = true →
    replay h (queued idx) (bucket_rows idx h) = rows_at (si_members idx) key;
  ok_idle : si_dispatching idx = false → si_running idx = [] ∧ si_pending idx = []
}.

Lemma alive_spec idx h : alive idx h = true ↔ h ∈ si_held idx ∨ ∃ a, a ∈ queued idx ∧ a.1 = h.
Proof.
  unfold alive. rewrite orb_true_iff, bool_decide_eq_true, existsb_exists. f_equiv.
  split; intros (a & Ha & E); exists a; rewrite ?bool_decide_eq_true in *; by rewrite <-list_elem_of_In in *.
Qed.

Lemma bucket_rows_deliver a maps h :
  default ∅ (deliver a maps !! h) = if bool_decide (a.1 = h) then apply_diff a.2 (default ∅ (maps !! h)) else default ∅ (maps !! h).
Proof.
  unfold deliver. case_bool_decide as E; subst; [by rewrite lookup_insert_eq|by rewrite lookup_insert_ne].
Qed.

Lemma deliver_all actions maps h : default ∅ (foldl (λ maps a, deliver a maps) maps actions !! h) = replay h actions (default ∅ (maps !! h)).
Proof.
  revert maps. induction actions as [|a actions IH]; intros maps; simpl; [done|].
  by rewrite IH, bucket_rows_deliver.
Qed.

(** *** Draining *)

Definition drained idx : SourceIndex P :=
  mkSourceIndex (si_extract idx) (si_buckets idx) (si_members idx) [] false []
    (foldl (λ maps a, deliver a maps) (si_maps idx) (queued idx)) (si_held idx) (si_next idx).

Lemma drain_index_steps fuel idx :
  si_dispatching idx = true → drain_fuel idx ≤ fuel → drain_index fuel idx = (drained idx, queued idx).
Proof.
  revert idx. induction fuel as [|fuel IH]; intros [ext buckets members pending dispatching running maps held next];
    unfold drain_fuel; simpl; intros -> Hf; [lia|].
  unfold drain_step. simpl. destruct running as [|a rest]; [destruct pending as [|actions pending]|]; simpl in *.
  - done.
  - rewrite IH; [|done|unfold drain_fuel; simpl; lia]. done.
  - rewrite IH; [|done|unfold drain_fuel; simpl; lia]. done.
Qed.

Lemma drain_index_idle fuel idx :
  0 < fuel → si_dispatching idx = false → si_running idx = [] → si_pending idx = [] →
  drain_index fuel idx = (drained idx, queued idx).
Proof.
  destruct idx as [ext buckets members pending dispatching running maps held next].
  destruct fuel as [|fuel]; simpl; [lia|]. by intros _ -> -> ->.
Qed.

Lemma drain_index_ok m idx : index_ok m idx → drain_index (drain_fuel idx) idx = (drained idx, queued idx).
Proof.
  intros OK. destruct (si_dispatching idx) eqn:Ed; [by apply drain_index_steps|].
  destruct (ok_idle _ _ OK Ed). apply drain_index_idle; [unfold drain_fuel; lia|done..].
Qed.

Lemma drained_ok m idx : index_ok m idx → index_ok m (drained idx).
Proof.
  intros OK. assert (∀ h, alive (drained idx) h = true → alive idx h = true) as Hal.
  { intros h. rewrite !alive_spec. intros [?|(a & Ha & _)]; [by left|by apply elem_of_nil in Ha]. }
  split; simpl; try apply OK; [|intros key h Hk Ha| done].
  - intros h Hh. apply OK. by apply Hal.
  - unfold bucket_rows. simpl. rewrite deliver_all. by apply OK, Hal.
Qed.

(** *** Events *)

Lemma index_submit_ok m d idx : diff_valid d m → index_ok m idx → index_ok (apply_diff d m) (submit d idx).1.
Proof.
  intros V OK. unfold submit.
  destruct (prepare_diff_locked _ _ _ _ _) as [[members buckets] actions] eqn:E.
  eapply prepare_spec in E as [Hm [Rk Rs Rf Re Rv]]; [|done|apply OK|apply OK]. simpl.
  set (idx' := mkSourceIndex _ _ _ _ _ _ _ _ _).
  assert (queued idx' = queued idx ++ actions) as Hq.
  { unfold queued. simpl. rewrite concat_app. simpl. by rewrite app_nil_r, (assoc_L (++)). }
  assert (∀ h, alive idx' h = true → alive idx h = true) as Hal.
  { intros h. rewrite (alive_spec idx'), Hq. intros [Hh|(a & [Ha|Ha]%elem_of_app & <-)].
    - apply alive_spec. by left.
    - apply alive_spec. right. by exists a.
    - by destruct (Rf a Ha) as (key & _ & ?). }
  split; try done.
  - eapply injective_sub; [exact Rs|apply OK].
  - intros key h Hk. apply (ok_fresh _ _ OK key). by eapply lookup_weaken.
  - intros h Hh%Hal. destruct (ok_alive _ _ OK h Hh) as [key Hk]. exists key. by apply Rk.
  - intros key h Hk Ha%Hal. rewrite Hq, replay_app.
    assert (si_buckets idx !! key = Some h) as Hk' by by eapply lookup_weaken.
    change (bucket_rows idx' h) with (bucket_rows idx h). rewrite (ok_bucket _ _ OK key h) by done. by apply Re.
Qed.

Lemma drain_step_ok m idx : index_ok m idx → index_ok m (drain_step idx).1.
Proof.
  intros OK. destruct idx as [ext buckets members pending dispatching running maps held next].
  unfold drain_step. simpl. destruct running as [|a rest]; [destruct pending as [|actions pending]|]; simpl.
  - destruct OK as [O1 O2 O3 O4 O5 O6]. by split.
  - destruct OK as [O1 O2 O3 O4 O5 O6]. split; try done. simpl. intros ->. by destruct (O6 eq_refl).
  - set (idx := mkSourceIndex _ _ _ _ _ (a :: rest) _ _ _) in *. set (idx' := mkSourceIndex _ _ _ _ _ rest _ _ _).
    assert (queued idx = a :: queued idx') as Hq by done.
    assert (∀ h, alive idx' h = true → alive idx h = true) as Hal.
    { intros h. rewrite !alive_spec, Hq. intros [?|(b & Hb & <-)]; [by left|right]. exists b. split; [by right|done]. }
    destruct OK as [O1 O2 O3 O4 O5 O6]. split; try done.
    + intros h Hh. by apply O4, Hal.
    + intros key h Hk Ha. specialize (O5 key h Hk (Hal h Ha)). rewrite Hq in O5. etrans; [|exact O5]. simpl. unfold bucket_rows. simpl.
      rewrite bucket_rows_deliver. by case_bool_decide.
    + simpl. intros ->. by destruct (O6 eq_refl).
Qed.

Lemma drop_ok m h idx : index_ok m idx → index_ok m (drop_bucket h idx).
Proof.
  intros OK. assert (∀ h', alive (drop_bucket h idx) h' = true → alive idx h' = true) as Hal.
  { intros h'. rewrite !alive_spec. simpl. intros [Hh|?]; [left|by right]. by multiset_solver. }
  destruct OK as [O1 O2 O3 O4 O5 O6]. split; try done.
  - intros h' Hh. by apply O4, Hal.
  - intros key h' Hk Ha. by apply O5, Hal.
Qed.

Lemma sweep_ok m idx : index_ok m idx → index_ok m (sweep_dead_buckets idx).
Proof.
  intros [O1 O2 O3 O4 O5 O6].
  assert (si_buckets (sweep_dead_buckets idx) ⊆ si_buckets idx) as Hs by apply map_filter_subseteq.
  split; try done.
  - by eapply injective_sub.
  - intros key h Hk. apply (O3 key). by eapply lookup_weaken.
  - intros h Hh. destruct (O4 h Hh) as [key Hk]. exists key. apply map_lookup_filter_Some. done.
  - intros key h Hk. apply O5. by eapply lookup_weaken.
Qed.

Lemma bucket_for_ok m key idx : index_ok m idx → index_ok m (bucket_for key idx).1.
Proof.
  intros OK. unfold bucket_for.
  assert (∀ h, alive idx h = true → h < si_next idx) as Hlt.
  { intros h Hh. destruct (ok_alive _ _ OK h Hh) as [k Hk]. by eapply ok_fresh. }
  assert ((∀ h, si_buckets idx !! key = Some h → alive idx h = false) → index_ok m
    (mkSourceIndex (si_extract idx) (<[key := si_next idx]> (si_buckets idx)) (si_members idx) (si_pending idx)
       (si_dispatching idx) (si_running idx)
       (<[si_next idx := build_backfilled_bucket (si_members idx !! key)]> (si_maps idx))
       ({[+ si_next idx +]} ⊎ si_held idx) (S (si_next idx)))) as Hfresh.
  { intros Hdead. set (idx' := mkSourceIndex _ _ _ _ _ _ _ _ _).
    assert (∀ h, alive idx' h = true → h = si_next idx ∨ alive idx h = true) as Hal.
    { intros h. rewrite !alive_spec. simpl. intros [Hh|?]; [|by right; right].
      apply gmultiset_elem_of_disj_union in Hh as [Hh%gmultiset_elem_of_singleton|?]; [by left|by right; left]. }
    assert (si_buckets idx' = <[key := si_next idx]> (si_buckets idx)) as Hb by done.
    destruct OK as [O1 O2 O3 O4 O5 O6]. split; try done; rewrite ?Hb.
    - intros k1 k2 h [[<- <-]|[Hn1 H1]]%lookup_insert_Some [[<- E]|[Hn2 H2]]%lookup_insert_Some; try done.
      + apply O3 in H2. lia.
      + subst h. apply O3 in H1. lia.
      + by eapply O2.
    - intros k h [[<- <-]|[Hn Hk]]%lookup_insert_Some; simpl; [lia|]. apply O3 in Hk. lia.
    - intros h [->|Hh]%Hal; simpl.
      + exists key. by rewrite lookup_insert_eq.
      + destruct (O4 h Hh) as [k Hk]. exists k. rewrite lookup_insert_ne; [done|]. intros <-.
        by rewrite (Hdead h Hk) in Hh.
    - intros k h [[<- <-]|[Hn Hk]]%lookup_insert_Some Ha.
      + unfold bucket_rows. simpl. rewrite lookup_insert_eq. simpl. rewrite replay_none.
        * unfold rows_at, build_backfilled_bucket. destruct (si_members idx !! key) as [rows|]; simpl; [|done].
          rewrite apply_initial by apply NoDup_fst_map_to_list. apply list_to_map_to_list.
        * intros a Ha' E. assert (alive idx a.1 = true) as ?%Hlt; [|lia]. apply alive_spec. right. by exists a.
      + apply Hal in Ha as [->|Ha]; [apply O3 in Hk; lia|].
        unfold bucket_rows. simpl. rewrite lookup_insert_ne; [by apply O5|]. apply O3 in Hk. lia. }
  destruct (si_buckets idx !! key) as [h0|] eqn:Ek; [|apply Hfresh; done].
  destruct (alive idx h0) eqn:Ea; [|apply Hfresh; intros h [= <-]; done].
  simpl. set (idx' := mkSourceIndex _ _ _ _ _ _ _ _ _).
  assert (∀ h, alive idx' h = true → alive idx h = true) as Hal.
  { intros h. rewrite !(alive_spec idx'). simpl. intros [Hh|?]; [|apply alive_spec; by right].
    apply gmultiset_elem_of_disj_union in Hh as [Hh%gmultiset_elem_of_singleton|?]; [by subst|].
    apply alive_spec. by left. }
  destruct OK as [O1 O2 O3 O4 O5 O6]. split; try done.
  - intros h Hh. by apply O4, Hal.
  - intros k h Hk Ha. by apply O5, Hal.
Qed.

Lemma index_new_ok ext m : index_ok m (index_new ext m) ∧ si_dispatching (index_new ext m) = false ∧
  si_extract (index_new ext m) = ext ∧ si_held (index_new ext m) = ∅.
Proof.
  unfold index_new, index_apply_diff. set (idx0 := mkSourceIndex _ _ _ _ _ _ _ _ _).
  assert (index_ok ∅ idx0) as OK0 by by split.
  assert (diff_valid (Initial (map_to_list m)) (∅ : Rows)) as V by apply NoDup_fst_map_to_list.
  pose proof (index_submit_ok _ _ _ V OK0) as OK1. rewrite apply_initial, list_to_map_to_list in OK1 by apply NoDup_fst_map_to_list.
  destruct (submit _ idx0) as [idx1 drains] eqn:Es. simpl in OK1.
  assert (drains = true ∧ si_extract idx1 = ext ∧ si_held idx1 = ∅) as (-> & Hx & Hh).
  { unfold submit in Es. destruct (prepare_diff_locked _ _ _ _ _) as [[? ?] ?]. by injection Es as <- <-. }
  rewrite (drain_index_ok _ _ OK1). simpl. split; [by apply drained_ok|]. done.
Qed.

(** *** Runs *)

Definition event_valid (e : IndexEvent P) m : Prop := match e with StoreDiff d => diff_valid d m | _ => True end.

Fixpoint events_valid (events : list (IndexEvent P)) (s : Rows * SourceIndex P) : Prop :=
  match events with
  | [] => True
  | e :: events => event_valid e s.1 ∧ events_valid events (index_event e s)
  end.

Definition run_index (events : list (IndexEvent P)) (s : Rows * SourceIndex P) : Rows * SourceIndex P :=
  foldl (λ s e, index_event e s) s events.

(** A handle is never given to another key. *)
Definition handles_kept idx idx' : Prop :=
  si_extract idx' = si_extract idx ∧ si_next idx ≤ si_next idx' ∧
  ∀ key h, h < si_next idx → si_buckets idx' !! key = Some h → si_buckets idx !! key = Some h.

Lemma submit_kept m d idx : diff_valid d m → index_ok m idx → handles_kept idx (submit d idx).1.
Proof.
  intros V OK. unfold submit. destruct (prepare_diff_locked _ _ _ _ _) as [[members buckets] actions] eqn:E.
  eapply prepare_spec in E as [_ R]; [|done|apply OK|apply OK]. split; [done|]. split; [done|].
  intros key h _ Hk. eapply lookup_weaken; [exact Hk|apply R].
Qed.

Lemma bucket_for_kept key idx : handles_kept idx (bucket_for key idx).1.
Proof.
  unfold bucket_for. repeat case_match; (split; [done|]; split; [simpl; lia|]; intros k h' Hl Hk; simpl in Hk; try done);
    apply lookup_insert_Some in Hk as [[-> <-]|[? ?]]; try done; lia.
Qed.

Lemma index_event_ok e m idx :
  event_valid e m → index_ok m idx →
  index_ok (index_event e (m, idx)).1 (index_event e (m, idx)).2 ∧ handles_kept idx (index_event e (m, idx)).2.
Proof.
  intros V OK. destruct e as [d| |key|h|]; simpl.
  - split; [by apply index_submit_ok|by eapply submit_kept].
  - split; [by apply drain_step_ok|]. unfold drain_step. repeat case_match; by split.
  - split; [by apply bucket_for_ok|apply bucket_for_kept].
  - split; [by apply drop_ok|by split].
  - split; [by apply sweep_ok|]. split; [done|]. split; [done|]. intros key h _ Hk.
    eapply lookup_weaken; [exact Hk|apply map_filter_subseteq].
Qed.

Lemma run_index_ok events m idx :
  events_valid events (m, idx) → index_ok m idx →
  index_ok (run_index events (m, idx)).1 (run_index events (m, idx)).2 ∧ handles_kept idx (run_index events (m, idx)).2.
Proof.
  revert m idx. induction events as [|e events IH]; intros m idx V OK; simpl.
  - split; [done|]. by split.
  - destruct V as [Ve V]. destruct (index_event_ok e m idx Ve OK) as [OK1 (X1 & N1 & K1)].
    destruct (index_event e (m, idx)) as [m1 idx1]. simpl in X1, N1, K1, OK1. destruct (IH m1 idx1 V OK1) as [OK2 (X2 & N2 & K2)].
    split; [done|]. split; [congruence|]. split; [lia|]. intros key h Hh Hk. apply K1; [done|]. apply K2; [lia|done].
Qed.

Lemma bucket_for_entry key idx :
  si_buckets (bucket_for key idx).1 !! key = Some (bucket_for key idx).2 ∧
  (bucket_for key idx).2 ∈ si_held (bucket_for key idx).1.
Proof.
  unfold bucket_for. repeat case_match; simpl; (split; [by rewrite ?lookup_insert_eq|]);
    apply gmultiset_elem_of_disj_union; left; by apply gmultiset_elem_of_singleton.
Qed.
End proof.
