(* ===== verification/SourceFollow.v ===== *)
(** * Maps that follow several buckets

    Where the actions of a diff go and what they carry, and what a map that subscribes to
    several buckets of an index shows after them: the union of the buckets, provided no row
    passes from one of them to another within the diff. *)

From stdpp Require Import base strings numbers option countable gmap gmultiset sets list.
From S2P Require Import Prelude Order GraphTypes EdgeIds GraphIndex GraphQuery GraphWatch WatchProof.
From S2P Require Import Filter QueryRoute SourceIndex SourceIndexProof.

Section follow.
Context {P : Type} `{!CellMap (Item P), !HashOrder}.
Abbreviation Rows := (gmap string (Item P)).
Abbreviation Members := (gmap CompoundKey Rows).
Abbreviation Buckets := (gmap CompoundKey nat).
Implicit Types (idx : SourceIndex P) (d change : MapDiff (Item P)) (ext : CompoundFkExtractor P) (m c r : Rows)
  (members : Members) (buckets : Buckets) (key : CompoundKey) (actions : list (BucketAction P)).

(** The rows a diff mentions, replaced ones included. *)
Fixpoint diff_entries d : list (string * Item P) :=
  match d with
  | Initial entries => entries
  | Insert key value => [(key, value)]
  | Remove key old_value => [(key, old_value)]
  | Update key old_value new_value => [(key, old_value); (key, new_value)]
  | Batch changes => concat (diff_entries <$> changes)
  end.

Lemma elem_of_batch_entries kv changes : kv ∈ diff_entries (Batch changes) ↔ ∃ d, d ∈ changes ∧ kv ∈ diff_entries d.
Proof.
  simpl. induction changes as [|d changes IH]; csimpl.
  - split; [by intros ?%elem_of_nil|by intros (d & ?%elem_of_nil & _)].
  - rewrite elem_of_app, IH. setoid_rewrite elem_of_cons. naive_solver.
Qed.

(** ** What the actions carry *)

(** Every action goes to a bucket of the table and carries rows of [entries] with its key. *)
Definition sourced ext buckets (entries : list (string * Item P)) actions : Prop :=
  ∀ a, a ∈ actions → ∃ key, buckets !! key = Some a.1 ∧
    ∀ kv, kv ∈ diff_entries a.2 → ext kv.2 = Some key ∧ kv ∈ entries.

Definition grouped_sourced ext (entries : list (string * Item P)) (grouped : gmap CompoundKey (list (MapDiff (Item P)))) : Prop :=
  ∀ key d, d ∈ changes_at grouped key → ∀ kv, kv ∈ diff_entries d → ext kv.2 = Some key ∧ kv ∈ entries.

Lemma sourced_weaken ext buckets buckets' entries entries' actions :
  buckets ⊆ buckets' → entries ⊆ entries' → sourced ext buckets entries actions → sourced ext buckets' entries' actions.
Proof.
  intros Hb He Hsrc a Ha. destruct (Hsrc a Ha) as (key & Hk & Hv). exists key. split; [by eapply lookup_weaken|].
  intros kv Hkv. destruct (Hv kv Hkv). split; [done|by apply He].
Qed.

Lemma sourced_app ext buckets entries actions1 actions2 :
  sourced ext buckets entries actions1 → sourced ext buckets entries actions2 →
  sourced ext buckets entries (actions1 ++ actions2).
Proof. intros Hs1 Hs2 a [Ha|Ha]%elem_of_app; [by apply Hs1|by apply Hs2]. Qed.

Lemma sourced_nil ext buckets entries : sourced ext buckets entries [].
Proof. intros a Ha. by apply elem_of_nil in Ha. Qed.

Lemma route_action_sourced upgrade ext key d buckets buckets' actions entries :
  route_action upgrade key d buckets = (buckets', actions) →
  (∀ kv, kv ∈ diff_entries d → ext kv.2 = Some key ∧ kv ∈ entries) →
  buckets' ⊆ buckets ∧ sourced ext buckets entries actions.
Proof.
  unfold route_action, route_to_live_bucket. intros E Hd.
  destruct (buckets !! key) as [h|] eqn:Ek; [destruct (upgrade h)|]; injection E as <- <-.
  - split; [done|]. intros a ->%list_elem_of_singleton. exists key. by split.
  - split; [apply delete_subseteq|apply sourced_nil].
  - split; [done|apply sourced_nil].
Qed.

Lemma grouped_steps_sourced upgrade ext l members buckets actions members' buckets' actions' entries :
  (∀ key changes, (key, changes) ∈ l → ∀ kv, kv ∈ diff_entries (Batch changes) → ext kv.2 = Some key ∧ kv ∈ entries) →
  foldl (grouped_step upgrade) (members, buckets, actions) l = (members', buckets', actions') →
  buckets' ⊆ buckets ∧ ∃ new, actions' = actions ++ new ∧ sourced ext buckets entries new.
Proof.
  revert members buckets actions. induction l as [|[fk changes] l IH]; intros members buckets actions Hl E.
  - simpl in E. injection E as <- <- <-. split; [done|]. exists []. rewrite app_nil_r. split; [done|apply sourced_nil].
  - cbn [foldl] in E. unfold grouped_step at 2 in E.
    destruct (route_action upgrade fk (Batch changes) buckets) as [buckets1 action] eqn:Ea.
    eapply route_action_sourced in Ea as [Hs Ha]; [|apply Hl; left].
    apply IH in E as (Hs' & new & -> & Hn); [|intros key cs Hin; apply Hl; by right].
    split; [by etrans|]. exists (action ++ new). rewrite (assoc_L (++)). split; [done|].
    apply sourced_app; [done|]. by eapply sourced_weaken.
Qed.

Lemma apply_grouped_sourced upgrade ext grouped members buckets members' buckets' actions entries :
  grouped_sourced ext entries grouped →
  apply_grouped upgrade grouped members buckets = (members', buckets', actions) →
  buckets' ⊆ buckets ∧ sourced ext buckets entries actions.
Proof.
  intros Hg E. unfold apply_grouped in E. eapply grouped_steps_sourced in E as (Hs & new & -> & Hn); [by split|].
  intros key changes Hin%iterate_lookup kv (d & Hd & Hkv)%elem_of_batch_entries. eapply Hg; [|done].
  unfold changes_at. by rewrite Hin.
Qed.

Lemma initial_steps_sourced upgrade ext members l buckets actions buckets' actions' entries :
  (∀ key kv, kv ∈ map_to_list (rows_at members key) → ext kv.2 = Some key ∧ kv ∈ entries) →
  foldl (initial_step upgrade members) (buckets, actions) l = (buckets', actions') →
  buckets' ⊆ buckets ∧ ∃ new, actions' = actions ++ new ∧ sourced ext buckets entries new.
Proof.
  intros Hm. revert buckets actions. induction l as [|key l IH]; intros buckets actions E.
  - simpl in E. injection E as <- <-. split; [done|]. exists []. rewrite app_nil_r. split; [done|apply sourced_nil].
  - cbn [foldl] in E. unfold initial_step at 2 in E.
    destruct (route_action upgrade key _ buckets) as [buckets1 action] eqn:Ea.
    eapply route_action_sourced in Ea as [Hs Ha]; [|exact (Hm key)].
    apply IH in E as (Hs' & new & -> & Hn).
    split; [by etrans|]. exists (action ++ new). rewrite (assoc_L (++)). split; [done|].
    apply sourced_app; [done|]. by eapply sourced_weaken.
Qed.

Lemma push_change_sourced ext entries k d by_fk :
  grouped_sourced ext entries by_fk →
  (∀ key kv, k = Some key → kv ∈ diff_entries d → ext kv.2 = Some key ∧ kv ∈ entries) →
  grouped_sourced ext entries (push_change k d by_fk).
Proof.
  intros Hg Hd key d'. rewrite changes_at_push, elem_of_app. intros [Hin|Hin]; [by apply Hg|].
  case_bool_decide as E; [|by apply elem_of_nil in Hin]. apply list_elem_of_singleton in Hin as ->.
  intros kv. by apply Hd.
Qed.

Lemma group_change_sourced ext entries d by_fk :
  grouped_sourced ext entries by_fk → diff_entries d ⊆ entries → grouped_sourced ext entries (group_change ext by_fk d).
Proof.
  intros Hg He. destruct d as [|k x|k x|k x y|]; simpl in *; try done.
  - apply push_change_sourced; [done|]. intros key kv Hk ->%list_elem_of_singleton. split; [done|]. apply He. left.
  - apply push_change_sourced; [done|]. intros key kv Hk ->%list_elem_of_singleton. split; [done|]. apply He. left.
  - case_bool_decide as E.
    + apply push_change_sourced; [done|]. intros key kv Hk [->| ->%list_elem_of_singleton]%elem_of_cons.
      * split; [by simpl; rewrite E|]. apply He. left.
      * split; [done|]. apply He. by right; left.
    + apply push_change_sourced; [apply push_change_sourced; [done|]|]; intros key kv Hk ->%list_elem_of_singleton.
      * split; [done|]. apply He. left.
      * split; [done|]. apply He. by right; left.
Qed.

Lemma grouped_sourced_empty ext entries : grouped_sourced ext entries ∅.
Proof. intros key d Hd. unfold changes_at in Hd. rewrite lookup_empty in Hd. by apply elem_of_nil in Hd. Qed.

Definition prepared_sourced upgrade ext d : Prop := ∀ m members buckets members' buckets' actions,
  diff_valid d m →
  prepare_diff_locked upgrade ext d members buckets = (members', buckets', actions) →
  buckets' ⊆ buckets ∧ sourced ext buckets (diff_entries d) actions.

Lemma batch_steps_sourced upgrade ext entries changes :
  Forall (λ d, prepared_sourced upgrade ext d ∧ diff_entries d ⊆ entries) changes →
  ∀ m members buckets actions grouped members' buckets' actions' grouped',
  diff_valid (Batch changes) m → grouped_sourced ext entries grouped →
  foldl (batch_step upgrade ext (prepare_diff_locked upgrade ext)) (members, buckets, actions, grouped) changes
    = (members', buckets', actions', grouped') →
  buckets' ⊆ buckets ∧ grouped_sourced ext entries grouped' ∧
  ∃ new, actions' = actions ++ new ∧ sourced ext buckets entries new.
Proof.
  induction 1 as [|d changes [IHd Hd] _ IH];
    intros m members buckets actions grouped members' buckets' actions' grouped' V G E.
  - simpl in E. injection E as <- <- <- <-. split; [done|]. split; [done|]. exists []. rewrite app_nil_r.
    split; [done|apply sourced_nil].
  - destruct V as [Vd V]. cbn [foldl] in E. destruct (simple d) eqn:Es.
    + rewrite batch_step_simple in E by done. eapply IH; [exact V| |exact E]. by apply group_change_sourced.
    + rewrite batch_step_nested in E by done.
      destruct (apply_grouped upgrade grouped members buckets) as [[members2 buckets2] flushed] eqn:E1.
      destruct (prepare_diff_locked upgrade ext d members2 buckets2) as [[members3 buckets3] nested] eqn:E2.
      eapply apply_grouped_sourced in E1 as [Hs1 Hf]; [|done].
      eapply IHd in E2 as [Hs2 Hn]; [|done].
      eapply IH in E as (Hs3 & G' & new & -> & Hnew); [|exact V|apply grouped_sourced_empty].
      split; [by trans buckets3; [|trans buckets2]|]. split; [done|]. exists (flushed ++ nested ++ new).
      rewrite <-!(assoc_L (++)). split; [done|]. apply sourced_app; [done|]. apply sourced_app.
      * eapply sourced_weaken; [exact Hs1|exact Hd|exact Hn].
      * apply (sourced_weaken _ buckets3 _ entries); [by trans buckets2|done..].
Qed.

Lemma prepare_sourced upgrade ext d : prepared_sourced upgrade ext d.
Proof.
  induction d as [entries|k x|k x|k x y|changes IH] using MapDiff_rect';
    intros m members buckets members' buckets' actions V E;
    try (eapply apply_grouped_sourced; [|exact E]; apply group_change_sourced; [apply grouped_sourced_empty|done]).
  - cbn [prepare_diff_locked] in E.
    destruct (foldl _ _ _) as [buckets1 actions1] eqn:Ef. injection E as <- <- <-.
    eapply initial_steps_sourced in Ef as (Hs & new & -> & Hn); [by split|].
    intros key [id y] Hin%elem_of_map_to_list. destruct (initial_members_exact ext entries V) as [_ Hm].
    rewrite Hm in Hin. apply lookup_bucket_of in Hin as [Hin Ey]. split; [done|].
    by apply elem_of_list_to_map_2.
  - cbn [prepare_diff_locked] in E.
    destruct (foldl _ _ _) as [[[members1 buckets1] actions1] grouped1] eqn:Ef.
    eapply (batch_steps_sourced _ _ (diff_entries (Batch changes))) in Ef as (Hs1 & G1 & new & -> & Hn);
      [|rewrite Forall_forall in IH |- *; intros d Hd; split; [by apply IH|]|exact V|apply grouped_sourced_empty].
    + destruct (apply_grouped _ grouped1 members1 buckets1) as [[members2 buckets2] flushed] eqn:E2.
      injection E as <- <- <-. eapply apply_grouped_sourced in E2 as [Hs2 Hf]; [|done].
      split; [by etrans|]. simpl. apply sourced_app; [done|]. by eapply sourced_weaken.
    + intros kv Hkv. apply elem_of_batch_entries. by exists d.
Qed.

(** ** Following *)

(** A row a diff leaves behind was there or is in the diff. *)
Lemma apply_diff_rows d c id x :
  diff_valid d c → apply_diff d c !! id = Some x → c !! id = Some x ∨ (id, x) ∈ diff_entries d.
Proof.
  revert c. induction d as [entries|k y|k y|k y z|changes IH] using MapDiff_rect'; intros c V.
  - rewrite apply_initial by done. intros Hx%elem_of_list_to_map_2. by right.
  - rewrite apply_insert. intros [[-> ->]|[_ Hz]]%lookup_insert_Some; [right|by left]. by apply list_elem_of_singleton.
  - rewrite apply_remove. intros [_ Hz]%lookup_delete_Some. by left.
  - rewrite apply_update. intros [[-> ->]|[_ Hz]]%lookup_insert_Some; [right|by left]. right. left.
  - rewrite apply_batch, elem_of_batch_entries. revert c V.
    induction IH as [|d changes Hd _ IH']; intros c V Hk; [by left|]. destruct V as [Vd V]. simpl in Hk.
    destruct (IH' _ V Hk) as [Hk'|(d' & Hd' & Hx)].
    + destruct (Hd _ Vd Hk') as [?|?]; [by left|]. right. exists d. split; [left|done].
    + right. exists d'. split; [by right|done].
Qed.

Lemma apply_diff_keys d c id : diff_valid d c → is_Some (apply_diff d c !! id) → is_Some (c !! id) ∨ ∃ x, (id, x) ∈ diff_entries d.
Proof. intros V [x [?|?]%apply_diff_rows]; [left; by exists x|right; by exists x|done]. Qed.

(** A callback that keeps its map equal to the selected rows of a bucket, on any set of ids
    that contains the bucket's, and leaves the other ids alone. *)
Definition follows (p : Item P → bool) (allowed : MapDiff (Item P) → Prop)
    (callback : MapDiff (Item P) → Rows → Rows → Rows) : Prop :=
  ∀ (own : string → Prop) d c r,
    allowed d → diff_valid d c → (∀ id, is_Some (c !! id) → own id) → (∀ id x, (id, x) ∈ diff_entries d → own id) →
    (∀ id, own id → r !! id = select p c !! id) →
    (∀ id, own id → callback d c r !! id = select p (apply_diff d c) !! id) ∧
    (∀ id, ¬ own id → callback d c r !! id = r !! id).

Section run.
Context (p : Item P → bool) (allowed : MapDiff (Item P) → Prop) (callback : MapDiff (Item P) → Rows → Rows → Rows).
Hypothesis Hcb : follows p allowed callback.
Variable watched : nat → bool.

(** The contents of the buckets and the map, through an action. *)
Definition follow_step (s : (nat → Rows) * Rows) (a : BucketAction P) : (nat → Rows) * Rows :=
  (λ h, if bool_decide (a.1 = h) then apply_diff a.2 (s.1 h) else s.1 h,
   if watched a.1 then callback a.2 (s.1 a.1) s.2 else s.2).

Lemma follow_contents actions s h : (foldl follow_step s actions).1 h = replay h actions (s.1 h).
Proof. revert s. induction actions as [|a actions IH]; intros s; simpl; [done|]. rewrite IH. simpl. done. Qed.

Lemma follow_actions (own : nat → string → Prop) actions s :
  (∀ h1 h2 id, watched h1 = true → watched h2 = true → own h1 id → own h2 id → h1 = h2) →
  (∀ a, a ∈ actions → watched a.1 = true → allowed a.2 ∧ ∀ id x, (id, x) ∈ diff_entries a.2 → own a.1 id) →
  (∀ h, watched h = true → replay_valid h actions (s.1 h)) →
  (∀ h id, watched h = true → is_Some (s.1 h !! id) → own h id) →
  (∀ h id, watched h = true → own h id → s.2 !! id = select p (s.1 h) !! id) →
  (∀ h id, watched h = true → own h id →
     (foldl follow_step s actions).2 !! id = select p (replay h actions (s.1 h)) !! id) ∧
  (∀ id, (∀ h, watched h = true → ¬ own h id) → (foldl follow_step s actions).2 !! id = s.2 !! id).
Proof.
  intros Hown. revert s. induction actions as [|a actions IH]; intros s Ha Hv Hc Hr; [by split|].
  assert (∀ a, a ∈ actions → watched a.1 = true → allowed a.2 ∧ ∀ id x, (id, x) ∈ diff_entries a.2 → own a.1 id) as Ha'.
  { intros b Hb. apply Ha. by right. }
  assert (∀ h, watched h = true → replay_valid h actions ((follow_step s a).1 h)) as Hv'.
  { intros h Hw. specialize (Hv h Hw). simpl in Hv |- *. by case_bool_decide; [apply Hv|]. }
  simpl. destruct (watched a.1) eqn:Ew.
  - destruct (Ha a) as [Hal Hen]; [left|done|].
    assert (diff_valid a.2 (s.1 a.1)) as Va.
    { specialize (Hv a.1 Ew). simpl in Hv. rewrite bool_decide_true in Hv by done. apply Hv. }
    destruct (Hcb (own a.1) a.2 (s.1 a.1) s.2 Hal Va) as [Hin Hout]; [intros id; by apply Hc|done|intros id; by apply Hr|].
    destruct (IH (follow_step s a)) as [H1 H2]; [done|done| | |].
    + intros h id Hw. simpl. case_bool_decide as E; [|by apply Hc]. subst h.
      intros [?|[x Hx]]%apply_diff_keys; [by apply Hc|by eapply Hen|done].
    + intros h id Hw Ho. simpl. rewrite Ew. case_bool_decide as E; [subst h; by apply Hin|].
      rewrite Hout; [by apply Hr|]. intros Ho'. apply E. by eapply Hown.
    + split; [done|]. intros id Hno. rewrite H2 by done. simpl. rewrite Ew. apply Hout. by apply Hno.
  - destruct (IH (follow_step s a)) as [H1 H2]; [done|done| | |].
    + intros h id Hw. simpl. case_bool_decide as E; [congruence|by apply Hc].
    + intros h id Hw Ho. simpl. rewrite Ew. case_bool_decide as E; [congruence|by apply Hr].
    + split; [done|]. intros id Hno. rewrite H2 by done. simpl. by rewrite Ew.
Qed.
End run.

(** *** The callback of the union *)

Definition union_callback d c r : Rows := apply_opt (additive_union_diff d c).1 r.

Lemma foldl_removes (l : list (string * Item P)) r :
  foldl (λ m d, apply_diff d m) r ((λ kv : string * Item P, Remove kv.1 kv.2) <$> l) = foldl (λ m k, delete k m) r l.*1.
Proof. revert r. induction l as [|kv l IH]; intros r; csimpl; [done|]. by rewrite apply_remove. Qed.

Lemma foldl_deletes_lookup (l : list string) r id :
  foldl (λ m k, delete k m) r l !! id = if bool_decide (id ∈ l) then None else r !! id.
Proof.
  revert r. induction l as [|k l IH]; intros r; simpl; [done|]. rewrite IH.
  destruct (decide (k = id)) as [->|Hne].
  - rewrite lookup_delete_eq. rewrite (bool_decide_true (id ∈ id :: l)) by left. by case_bool_decide.
  - rewrite lookup_delete_ne by done. do 2 case_bool_decide; try done; exfalso; set_solver.
Qed.

Lemma foldl_inserts_lookup (l : list (string * Item P)) r id :
  NoDup l.*1 →
  foldl (λ m d, apply_diff d m) r ((λ kv : string * Item P, Insert kv.1 kv.2) <$> l) !! id
    = match (list_to_map l : Rows) !! id with Some x => Some x | None => r !! id end.
Proof.
  revert r. induction l as [|[k x] l IH]; intros r ND; csimpl; [done|]. apply NoDup_cons in ND as [Nk ND].
  rewrite apply_insert, IH by done. destruct (decide (k = id)) as [->|Hne].
  - rewrite !lookup_insert_eq. by rewrite not_elem_of_list_to_map_1.
  - by rewrite !lookup_insert_ne.
Qed.

Lemma apply_opt_changes (changes : list (MapDiff (Item P))) r :
  apply_opt (match changes with [] => None | _ => Some (Batch changes) end) r = foldl (λ m d, apply_diff d m) r changes.
Proof. destruct changes; [done|]. apply apply_batch. Qed.

Lemma additive_initial entries c r id :
  NoDup entries.*1 →
  union_callback (Initial entries) c r !! id
    = match (list_to_map entries : Rows) !! id with
      | Some x => Some x
      | None => if bool_decide (is_Some (c !! id)) then None else r !! id
      end.
Proof.
  intros ND. unfold union_callback. cbn [additive_union_diff fst].
  rewrite apply_opt_changes, foldl_app, foldl_inserts_lookup, foldl_removes, foldl_deletes_lookup by done.
  destruct (list_to_map entries !! id); [done|].
  assert (id ∈ (map_to_list c).*1 ↔ is_Some (c !! id)) as Hk; [|by rewrite (bool_decide_ext _ _ Hk)].
  rewrite list_elem_of_fmap. split.
  - intros ([k x] & -> & Hx%elem_of_map_to_list). by exists x.
  - intros [x Hx]. exists (id, x). split; [done|]. by apply elem_of_map_to_list.
Qed.

Lemma foldl_insert_pairs (entries : list (string * Item P)) (c : Rows) :
  NoDup entries.*1 → foldl (λ c kv, <[kv.1 := kv.2]> c) c entries = list_to_map entries ∪ c.
Proof.
  revert c. induction entries as [|[k x] entries IH]; intros c ND; simpl; [by rewrite (left_id_L ∅ (∪))|].
  apply NoDup_cons in ND as [Nk ND]. rewrite IH by done. rewrite <-insert_union_l, insert_union_r; [done|].
  by apply not_elem_of_list_to_map_1.
Qed.

(** The batch loop of [additive_union_diff]. *)
Definition additive_step (acc : list (MapDiff (Item P)) * Rows) change : list (MapDiff (Item P)) * Rows :=
  let '(o, c) := additive_union_diff change acc.2 in (acc.1 ++ option_list o, c).

Lemma additive_batch changes c r :
  union_callback (Batch changes) c r = foldl (λ m d, apply_diff d m) r (foldl additive_step ([], c) changes).1 ∧
  (additive_union_diff (Batch changes) c).2 = (foldl additive_step ([], c) changes).2.
Proof.
  unfold union_callback. cbn [additive_union_diff]. fold additive_step.
  change (foldl _ ([], c) changes) with (foldl additive_step ([], c) changes).
  destruct (foldl additive_step ([], c) changes) as [rewritten c']. simpl. split; [|done].
  apply apply_opt_changes.
Qed.

(** The contribution is the content of the bucket. *)
Lemma additive_contribution d c : diff_valid d c → (additive_union_diff d c).2 = apply_diff d c.
Proof.
  revert c. induction d as [entries|k x|k x|k x y|changes IH] using MapDiff_rect'; intros c V.
  - simpl. rewrite apply_initial, foldl_insert_pairs by done. apply (right_id_L ∅ (∪)).
  - simpl. by rewrite apply_insert.
  - simpl. by rewrite apply_remove.
  - simpl. by rewrite apply_update.
  - rewrite apply_batch, (proj2 (additive_batch changes c ∅)).
    generalize ([] : list (MapDiff (Item P))) as acc. revert c V.
    induction IH as [|d changes Hd _ IH']; intros c V acc; [done|]. destruct V as [Vd V]. simpl.
    unfold additive_step at 2. simpl. rewrite <-(Hd c Vd) in V |- *.
    destruct (additive_union_diff d c) as [o c']. simpl in *. by apply IH'.
Qed.

Lemma select_all c : select (λ _, true) c = c.
Proof.
  apply map_eq. intros id. apply option_eq. intros x. rewrite lookup_select. naive_solver.
Qed.

Lemma union_follows : follows (λ _, true) (λ _, True) union_callback.
Proof.
  intros own d c r _ V Hc Hd Hr. setoid_rewrite select_all. setoid_rewrite select_all in Hr.
  revert c r V Hc Hd Hr. induction d as [entries|k x|k x|k x y|changes IH] using MapDiff_rect'; intros c r V Hc Hd Hr.
  - pose proof (λ id, additive_initial entries c r id V) as HI. setoid_rewrite HI. rewrite apply_initial by done. split.
    + intros id Ho. destruct (list_to_map entries !! id); [done|]. case_bool_decide as E; [done|].
      rewrite Hr by done. by apply eq_None_not_Some.
    + intros id Hno. destruct (list_to_map entries !! id) as [x|] eqn:E.
      * exfalso. apply Hno. apply (Hd id x). by apply elem_of_list_to_map_2.
      * rewrite bool_decide_false; [done|]. intros ?. by apply Hno, Hc.
  - unfold union_callback. simpl. rewrite !apply_insert. assert (own k) by (apply (Hd k x); by left). split; intros id Ho.
    + rewrite !lookup_insert. case_decide; [done|by apply Hr].
    + rewrite lookup_insert_ne; [done|]. by intros ->.
  - unfold union_callback. simpl. rewrite !apply_remove. assert (own k) by (apply (Hd k x); by left). split; intros id Ho.
    + rewrite !lookup_delete. case_decide; [done|by apply Hr].
    + rewrite lookup_delete_ne; [done|]. by intros ->.
  - unfold union_callback. simpl. rewrite !apply_update. assert (own k) by (apply (Hd k x); by left). split; intros id Ho.
    + rewrite !lookup_insert. case_decide; [done|by apply Hr].
    + rewrite lookup_insert_ne; [done|]. by intros ->.
  - rewrite (proj1 (additive_batch changes c r)), apply_batch.
    assert (∀ id x d, d ∈ changes → (id, x) ∈ diff_entries d → own id) as Hd'.
    { intros id x d Hin Hx. apply (Hd id x). apply elem_of_batch_entries. by exists d. }
    clear Hd. assert (∀ acc r0, r = foldl (λ m d, apply_diff d m) r0 acc →
      (∀ id, own id → foldl (λ m d, apply_diff d m) r0 (foldl additive_step (acc, c) changes).1 !! id
                      = foldl (λ m d, apply_diff d m) c changes !! id) ∧
      (∀ id, ¬ own id → foldl (λ m d, apply_diff d m) r0 (foldl additive_step (acc, c) changes).1 !! id = r !! id))
      as Hloop; [|by apply (Hloop [] r)].
    revert c r V Hc Hr. induction IH as [|d changes IHd _ IH']; intros c r V Hc Hr acc r0 E.
    + simpl. subst r. split; [done|done].
    + destruct V as [Vd V]. destruct (IHd c r Vd Hc) as [Hin Hout]; [|done|].
      { intros id x Hx. apply (Hd' id x d); [left|done]. }
      simpl. unfold additive_step at 2 4. simpl. pose proof (additive_contribution d c Vd) as Ec.
      unfold union_callback in Hin, Hout. destruct (additive_union_diff d c) as [o c'] eqn:Eo. simpl in Ec, Hin, Hout. subst c'.
      destruct (IH' ltac:(intros id x d' Hd'' Hx; apply (Hd' id x d'); [by right|done])
                  (apply_diff d c) (apply_opt o r) V) with (acc := acc ++ option_list o) (r0 := r0) as [H1 H2].
      * intros id [?|[x Hx]]%apply_diff_keys; [by apply Hc| |done]. apply (Hd' id x d); [left|done].
      * done.
      * rewrite foldl_app, <-E. by destruct o.
      * split; [done|]. intros id Hno. by rewrite H2, Hout.
Qed.

(** *** Diffs without replacement *)

(** Actions that replace nothing as a whole. *)
Definition plain_actions actions : Prop := ∀ a, a ∈ actions → no_initial a.2 = true.

Lemma simple_plain changes : Forall (λ d, simple d = true) changes → no_initial (Batch changes) = true.
Proof.
  intros F. apply forallb_forall. intros d Hd%list_elem_of_In. rewrite Forall_forall in F.
  specialize (F d Hd). by destruct d.
Qed.

Lemma grouped_steps_plain upgrade l members buckets actions members' buckets' actions' :
  Forall (λ entry, Forall (λ d, simple d = true) entry.2) l → plain_actions actions →
  foldl (grouped_step upgrade) (members, buckets, actions) l = (members', buckets', actions') → plain_actions actions'.
Proof.
  intros F. revert members buckets actions. induction F as [|[fk changes] l Hc _ IH]; intros members buckets actions Ha E.
  - simpl in E. by injection E as <- <- <-.
  - cbn [foldl] in E. unfold grouped_step at 2 in E.
    destruct (route_action upgrade fk (Batch changes) buckets) as [buckets1 action] eqn:Ea.
    eapply IH; [|exact E]. intros a [?|Hin]%elem_of_app; [by apply Ha|].
    unfold route_action in Ea. destruct (route_to_live_bucket _ _ _) as [b [h|]]; injection Ea as <- <-;
      [|by apply elem_of_nil in Hin]. apply list_elem_of_singleton in Hin as ->. by apply simple_plain.
Qed.

Lemma apply_grouped_plain upgrade grouped members buckets members' buckets' actions :
  (∀ key, Forall (λ d, simple d = true) (changes_at grouped key)) →
  apply_grouped upgrade grouped members buckets = (members', buckets', actions) → plain_actions actions.
Proof.
  intros Hs E. eapply grouped_steps_plain; [| |exact E].
  - apply Forall_forall. intros [key changes] Hin%iterate_lookup. specialize (Hs key). unfold changes_at in Hs.
    by rewrite Hin in Hs.
  - intros a Ha. by apply elem_of_nil in Ha.
Qed.

Definition prepared_plain upgrade ext d : Prop := ∀ members buckets members' buckets' actions,
  no_initial d = true → prepare_diff_locked upgrade ext d members buckets = (members', buckets', actions) →
  plain_actions actions.

Lemma batch_steps_plain upgrade ext changes :
  Forall (prepared_plain upgrade ext) changes →
  ∀ members buckets actions grouped members' buckets' actions' grouped',
  forallb no_initial changes = true → (∀ key, Forall (λ d, simple d = true) (changes_at grouped key)) → plain_actions actions →
  foldl (batch_step upgrade ext (prepare_diff_locked upgrade ext)) (members, buckets, actions, grouped) changes
    = (members', buckets', actions', grouped') →
  plain_actions actions' ∧ ∀ key, Forall (λ d, simple d = true) (changes_at grouped' key).
Proof.
  induction 1 as [|d changes IHd _ IH];
    intros members buckets actions grouped members' buckets' actions' grouped' N G Ha E.
  - simpl in E. injection E as <- <- <- <-. done.
  - apply andb_true_iff in N as [Nd N]. cbn [foldl] in E. destruct (simple d) eqn:Es.
    + rewrite batch_step_simple in E by done. eapply IH; [done| |done|exact E]. by apply group_change_simple.
    + rewrite batch_step_nested in E by done.
      destruct (apply_grouped upgrade grouped members buckets) as [[members2 buckets2] flushed] eqn:E1.
      destruct (prepare_diff_locked upgrade ext d members2 buckets2) as [[members3 buckets3] nested] eqn:E2.
      apply apply_grouped_plain in E1; [|done]. apply IHd in E2; [|done].
      eapply IH; [exact N| | |exact E]; [intros key; constructor|].
      intros a. rewrite !elem_of_app. naive_solver.
Qed.

Lemma prepare_plain upgrade ext d : prepared_plain upgrade ext d.
Proof.
  assert (∀ key, Forall (λ d : MapDiff (Item P), simple d = true) (changes_at ∅ key)) as H0 by (intros key; constructor).
  induction d as [entries|k x|k x|k x y|changes IH] using MapDiff_rect'; intros members buckets members' buckets' actions N E;
    [done|try (eapply apply_grouped_plain; [|exact E]; by apply group_change_simple)..|].
  cbn [prepare_diff_locked] in E.
  destruct (foldl _ _ _) as [[[members1 buckets1] actions1] grouped1] eqn:Ef.
  eapply batch_steps_plain in Ef as [Ha Hg]; [|exact IH|exact N|exact H0|intros a Hin; by apply elem_of_nil in Hin].
  destruct (apply_grouped _ grouped1 members1 buckets1) as [[members2 buckets2] flushed] eqn:E2.
  injection E as <- <- <-. apply apply_grouped_plain in E2; [|done].
  intros a [?|?]%elem_of_app; [by apply Ha|by apply E2].
Qed.

(** ** Following an index *)

(** What an uninterrupted diff does to an idle index. *)
Record diff_applied m d idx idx' actions : Prop := {
  da_ok : index_ok (apply_diff d m) idx';
  da_idle : si_dispatching idx' = false;
  da_held : si_held idx' = si_held idx;
  da_extract : si_extract idx' = si_extract idx;
  da_kept key h : si_buckets idx !! key = Some h → h ∈ si_held idx → si_buckets idx' !! key = Some h;
  da_effect key h : si_buckets idx !! key = Some h → h ∈ si_held idx →
    replay h actions (bucket_of (si_extract idx) m key) = bucket_of (si_extract idx) (apply_diff d m) key;
  da_valid key h : si_buckets idx !! key = Some h → h ∈ si_held idx →
    replay_valid h actions (bucket_of (si_extract idx) m key);
  da_sourced : sourced (si_extract idx) (si_buckets idx) (diff_entries d) actions;
  da_plain : no_initial d = true → plain_actions actions
}.

Lemma index_apply_diff_spec m d idx idx' actions :
  diff_valid d m → index_ok m idx → si_dispatching idx = false → index_apply_diff d idx = (idx', actions) →
  diff_applied m d idx idx' actions.
Proof.
  intros V OK Hidle E. unfold index_apply_diff in E. pose proof (index_submit_ok m d idx V OK) as OK'.
  destruct (submit d idx) as [idx1 drains] eqn:Es. simpl in OK'. unfold submit in Es.
  destruct (prepare_diff_locked _ _ _ _ _) as [[members buckets] acts] eqn:Ep. injection Es as <- <-.
  rewrite Hidle in E. cbn [negb] in E. rewrite (drain_index_ok _ _ OK') in E. pose proof (drained_ok _ _ OK') as OKd.
  set (idx1 := mkSourceIndex _ _ _ _ _ _ _ _ _) in *. destruct (ok_idle _ _ OK Hidle) as [Er Eq].
  assert (queued idx1 = acts) as Hq by (unfold queued; simpl; rewrite Er, Eq; simpl; by rewrite app_nil_r).
  rewrite Hq in E. injection E as <- <-.
  pose proof (prepare_sourced _ _ _ _ _ _ _ _ _ V Ep) as [_ Hsrc].
  assert (no_initial d = true → plain_actions acts) as Hplain by (intros N; by eapply prepare_plain).
  destruct (ok_members _ _ OK) as [Hn Hm]. pose proof (conj Hn Hm) as Hex.
  eapply prepare_spec in Ep as [[Hn' Hm'] [Rk Rs Rf Re Rv]]; [|done|apply OK|exact Hex].
  assert (∀ h, h ∈ si_held idx → alive idx h = true) as Hal by (intros h Hh; apply alive_spec; by left).
  split; try done.
  - intros key h Hk Hh. by apply Rk, Hal.
  - intros key h Hk Hh. rewrite <-Hm, <-Hm'. by apply Re, Hal.
  - intros key h Hk Hh. rewrite <-Hm. by apply Rv, Hal.
Qed.

(** Idle buckets hold the rows of their keys. *)
Lemma idle_bucket m idx key h :
  index_ok m idx → si_dispatching idx = false → si_buckets idx !! key = Some h → h ∈ si_held idx →
  bucket_rows idx h = bucket_of (si_extract idx) m key.
Proof.
  intros OK Hidle Hk Hh. destruct (ok_idle _ _ OK Hidle) as [Er Eq].
  pose proof (ok_bucket _ _ OK key h Hk) as Hb. unfold queued in Hb. rewrite Er, Eq in Hb. simpl in Hb.
  rewrite Hb by (apply alive_spec; by left). destruct (ok_members _ _ OK) as [_ Hm]. apply Hm.
Qed.

(** The key under which the store files a row before or during a diff. *)
Definition carries ext d m (id : string) key : Prop :=
  m !! id ≫= ext = Some key ∨ Exists (λ kv : string * Item P, kv.1 = id ∧ ext kv.2 = Some key) (diff_entries d).

Lemma carries_old ext d m id key x : m !! id = Some x → ext x = Some key → carries ext d m id key.
Proof. intros Hx Ex. left. by rewrite Hx. Qed.

Lemma carries_diff ext d m id key x : (id, x) ∈ diff_entries d → ext x = Some key → carries ext d m id key.
Proof. intros Hx Ex. right. apply Exists_exists. by exists (id, x). Qed.

(** No row passes from one of the keys to another within the diff. *)
Definition stays ext (keys : list CompoundKey) d m : Prop :=
  ∀ id key1 key2, key1 ∈ keys → key2 ∈ keys → carries ext d m id key1 → carries ext d m id key2 → key1 = key2.

Definition in_keys ext (keys : list CompoundKey) (x : Item P) : bool :=
  match ext x with Some key => bool_decide (key ∈ keys) | None => false end.

Lemma in_keys_spec ext keys x : in_keys ext keys x = true ↔ ∃ key, ext x = Some key ∧ key ∈ keys.
Proof. unfold in_keys. destruct (ext x); [rewrite bool_decide_eq_true|]; naive_solver. Qed.

Definition watches idx (ws : list (CompoundKey * nat)) : Prop :=
  ∀ key h, (key, h) ∈ ws → si_buckets idx !! key = Some h ∧ h ∈ si_held idx.

Lemma watches_functional idx ws key1 key2 h :
  injective (si_buckets idx) → watches idx ws → (key1, h) ∈ ws → (key2, h) ∈ ws → key1 = key2.
Proof. intros Hi Hw [H1 _]%Hw [H2 _]%Hw. by eapply Hi. Qed.

Definition watched_handles (ws : list (CompoundKey * nat)) (h : nat) : bool := bool_decide (h ∈ ws.*2).

(** The map selects the rows filed under the watched keys, and still does after the actions of
    a diff that moves no row between them. *)
Lemma follow_diff p allowed callback m d idx idx' actions ws (σ : nat → Rows) r :
  follows p allowed callback → diff_applied m d idx idx' actions → diff_valid d m →
  injective (si_buckets idx) → watches idx ws →
  stays (si_extract idx) ws.*1 d m → (∀ a, a ∈ actions → allowed a.2) →
  (∀ key h, (key, h) ∈ ws → σ h = bucket_of (si_extract idx) m key) →
  r = select (λ x, p x && in_keys (si_extract idx) ws.*1 x) m →
  (foldl (follow_step callback (watched_handles ws)) (σ, r) actions).2
    = select (λ x, p x && in_keys (si_extract idx) ws.*1 x) (apply_diff d m).
Proof.
  intros Hcb DA V Hinj Hw Hst Hal Hσ ->. set (ext := si_extract idx) in *.
  set (own := λ h id, ∃ key, (key, h) ∈ ws ∧ carries ext d m id key).
  assert (∀ h, watched_handles ws h = true → ∃ key, (key, h) ∈ ws) as Hwh.
  { intros h Hh. apply bool_decide_eq_true, list_elem_of_fmap in Hh as ([key h'] & -> & Hh). by exists key. }
  assert (∀ key h, (key, h) ∈ ws → watched_handles ws h = true ∧ key ∈ ws.*1) as Hwh'.
  { intros key h Hin. split; [apply bool_decide_eq_true|]; apply list_elem_of_fmap; by exists (key, h). }
  assert (∀ key h id x, (key, h) ∈ ws → m !! id = Some x → ext x = Some key → own h id) as Hown.
  { intros key h id x Hin Hx Ex. exists key. split; [done|]. by eapply carries_old. }
  assert (∀ id x key, apply_diff d m !! id = Some x → ext x = Some key → carries ext d m id key) as Hnew.
  { intros id x key Hx Ex. apply apply_diff_rows in Hx as [Hx|Hx]; [by eapply carries_old|by eapply carries_diff|done]. }
  destruct (follow_actions p allowed callback Hcb (watched_handles ws) own actions
    (σ, select (λ x, p x && in_keys ext ws.*1 x) m)) as [Hin Hout].
  - intros h1 h2 id _ _ (key1 & H1 & C1) (key2 & H2 & C2).
    assert (key1 = key2) as <- by (eapply Hst; [by eapply Hwh'|by eapply Hwh'|done..]).
    apply Hw in H1 as [H1 _]. apply Hw in H2 as [H2 _]. congruence.
  - intros a Ha Hwa. split; [by apply Hal|]. intros id x Hx. destruct (Hwh _ Hwa) as [key Hin]. exists key.
    split; [done|]. destruct (da_sourced _ _ _ _ _ DA a Ha) as (key' & Hk' & Hs).
    assert (key' = key) as -> by (apply Hw in Hin as [Hin _]; by eapply Hinj).
    destruct (Hs (id, x) Hx) as [Ex Hx']. by eapply carries_diff.
  - intros h Hh. destruct (Hwh h Hh) as [key Hin]. simpl. rewrite (Hσ key h Hin).
    apply Hw in Hin as [? ?]. by eapply da_valid.
  - intros h id Hh [x Hx]. destruct (Hwh h Hh) as [key Hin]. simpl in Hx. rewrite (Hσ key h Hin) in Hx.
    apply lookup_bucket_of in Hx as [Hx Ex]. by eapply Hown.
  - intros h id Hh (key & Hin & C). simpl. rewrite (Hσ key h Hin). apply option_eq. intros x.
    rewrite !lookup_select, lookup_bucket_of, andb_true_iff, in_keys_spec. split.
    + intros (Hx & Hp & key' & Ex & Hk'). split; [|done]. split; [done|].
      assert (key' = key) as ->; [|done]. eapply Hst; [done|by eapply Hwh'| |done]. by eapply carries_old.
    + intros [[Hx Ex] Hp]. split; [done|]. split; [done|]. exists key. split; [done|]. by eapply Hwh'.
  - apply map_eq. intros id. apply option_eq. intros x. rewrite lookup_select, andb_true_iff, in_keys_spec.
    destruct (decide (Exists (λ kh : CompoundKey * nat, carries ext d m id kh.1) ws)) as [HE|HE].
    + apply Exists_exists in HE as ([key h] & Hkh & C). destruct (Hwh' _ _ Hkh) as [Hh Hk].
      rewrite (Hin h id Hh) by by exists key. simpl. rewrite (Hσ key h Hkh).
      destruct (Hw _ _ Hkh) as [Hbk Hhe]. unfold ext. rewrite (da_effect _ _ _ _ _ DA key h Hbk Hhe).
      rewrite lookup_select, lookup_bucket_of. split.
      * intros [[Hx Ex] Hp]. split; [done|]. split; [done|]. by exists key.
      * intros (Hx & Hp & key' & Ex & Hk'). split; [|done]. split; [done|].
        assert (key' = key) as ->; [|done]. by eapply Hst; [done..|eapply Hnew|].
    + rewrite Hout.
      * simpl. rewrite lookup_select, andb_true_iff, in_keys_spec. split.
        -- intros (Hx & Hp & key & Ex & Hk). exfalso. apply HE. apply Exists_exists.
           apply list_elem_of_fmap in Hk as ([key' h] & -> & Hk). exists (key', h). split; [done|]. by eapply carries_old.
        -- intros (Hx & Hp & key & Ex & Hk). exfalso. apply HE. apply Exists_exists.
           apply list_elem_of_fmap in Hk as ([key' h] & -> & Hk). exists (key', h). split; [done|]. by eapply Hnew.
      * intros h Hh (key & Hkh & C). apply HE. apply Exists_exists. by exists (key, h).
Qed.
End follow.

(** * The union of several buckets

    [build_belongs_to_union_source_map] shows the rows of the store filed under its keys and
    keeps doing so under every diff that moves no row from one of the keys to another. *)

Section union.
Context {P : Type} `{!CellMap (Item P), !HashOrder}.
Abbreviation Rows := (gmap string (Item P)).
Implicit Types (idx : SourceIndex P) (d : MapDiff (Item P)) (ext : CompoundFkExtractor P) (m r : Rows)
  (key : CompoundKey) (actions : list (BucketAction P)) (ws : list (CompoundKey * nat)) (u : UnionMap P).

(** ** Opening buckets *)

Lemma bucket_for_idle key idx :
  si_dispatching (bucket_for key idx).1 = si_dispatching idx ∧ si_extract (bucket_for key idx).1 = si_extract idx.
Proof. unfold bucket_for. by repeat case_match. Qed.

Lemma bucket_for_watches key idx ws : watches idx ws → watches (bucket_for key idx).1 ws.
Proof.
  intros Hw k h Hin. destruct (Hw k h Hin) as [Hk Hh].
  assert (alive idx h = true) as Ha by (apply alive_spec; by left).
  unfold bucket_for. destruct (si_buckets idx !! key) as [h0|] eqn:E0; [destruct (alive idx h0) eqn:Ea|]; simpl;
    (split; [|apply gmultiset_elem_of_disj_union; by right]); try done;
    (rewrite lookup_insert_ne; [done|]); intros ->; congruence.
Qed.

Lemma watches_snoc key idx ws :
  watches idx ws → watches (bucket_for key idx).1 (ws ++ [(key, (bucket_for key idx).2)]).
Proof.
  intros Hw k h [Hin|Hin%list_elem_of_singleton]%elem_of_app; [by apply (bucket_for_watches key idx ws)|].
  injection Hin as -> ->. apply bucket_for_entry.
Qed.

Lemma watches_handles idx ws : injective (si_buckets idx) → watches idx ws → NoDup ws.*1 → NoDup ws.*2.
Proof.
  intros Hi Hw. induction ws as [|[key h] ws IH]; simpl; [constructor|]. intros [Nk ND]%NoDup_cons. constructor.
  - intros ([key' h'] & E & Hin)%list_elem_of_fmap. simpl in E. subst h'. apply Nk.
    assert (key' = key) as ->; [|apply list_elem_of_fmap; by exists (key, h)].
    eapply (watches_functional idx); [done|exact Hw|by right|left].
  - apply IH; [|done]. intros k h' Hin. apply Hw. by right.
Qed.

(** ** The subscriptions as followers *)

Lemma notify_union_spec a r hs (σ : nat → Rows) :
  NoDup hs → (a.1 ∈ hs → diff_valid a.2 (σ a.1)) →
  notify_union a r ((λ h, (h, σ h)) <$> hs)
    = ((follow_step union_callback (λ h, bool_decide (h ∈ hs)) (σ, r) a).2,
       (λ h, (h, (follow_step union_callback (λ h, bool_decide (h ∈ hs)) (σ, r) a).1 h)) <$> hs).
Proof.
  revert r. induction hs as [|h hs IH]; intros r ND V; [done|]. apply NoDup_cons in ND as [Nh ND].
  csimpl. destruct (decide (h = a.1)) as [->|Hne].
  - rewrite (bool_decide_true (a.1 = a.1)) by done.
    assert (diff_valid a.2 (σ a.1)) as Va by (apply V; left).
    pose proof (additive_contribution a.2 (σ a.1) Va) as Ec.
    assert (union_callback a.2 (σ a.1) r = match (additive_union_diff a.2 (σ a.1)).1 with
                                           | Some d => apply_diff d r | None => r end) as Eu by done.
    destruct (additive_union_diff a.2 (σ a.1)) as [o c]. simpl in Ec, Eu. subst c. rewrite <-Eu.
    rewrite IH by done. simpl. rewrite (bool_decide_false (a.1 ∈ hs)) by done.
    rewrite !bool_decide_true by (done || left). done.
  - rewrite (bool_decide_false (h = a.1)) by done. rewrite IH; [|done|intros ?; apply V; by right]. simpl.
    rewrite (bool_decide_false (a.1 = h)) by done.
    assert (bool_decide (a.1 ∈ h :: hs) = bool_decide (a.1 ∈ hs)) as ->; [|done].
    apply bool_decide_ext. rewrite elem_of_cons. naive_solver.
Qed.

Definition with_contents hs (σ : nat → Rows) r : UnionMap P := mkUnion r ((λ h, (h, σ h)) <$> hs).

Lemma union_actions_spec actions hs (σ : nat → Rows) r :
  NoDup hs → (∀ h, h ∈ hs → replay_valid h actions (σ h)) →
  foldl (λ u a, union_action a u) (with_contents hs σ r) actions
    = let s := foldl (follow_step union_callback (λ h, bool_decide (h ∈ hs))) (σ, r) actions in
      with_contents hs s.1 s.2.
Proof.
  intros ND. revert σ r. induction actions as [|a actions IH]; intros σ r V; [done|].
  cbn [foldl]. unfold union_action at 2. unfold with_contents at 1 2. cbn [un_result un_subscriptions].
  rewrite notify_union_spec; [|done|].
  - fold (with_contents hs (follow_step union_callback (λ h, bool_decide (h ∈ hs)) (σ, r) a).1
      (follow_step union_callback (λ h, bool_decide (h ∈ hs)) (σ, r) a).2).
    rewrite IH; [by rewrite <-surjective_pairing|].
    intros h Hh. specialize (V h Hh). simpl in V |- *. by case_bool_decide; [apply V|].
  - intros Ha. specialize (V a.1 Ha). simpl in V. rewrite bool_decide_true in V by done. apply V.
Qed.

(** ** The union and the store *)

Record union_ok m idx ws u : Prop := {
  uo_index : index_ok m idx;
  uo_idle : si_dispatching idx = false;
  uo_watches : watches idx ws;
  uo_keys : NoDup ws.*1;
  uo_union : u = with_contents ws.*2 (bucket_rows idx) (select (in_keys (si_extract idx) ws.*1) m)
}.

Lemma union_empty_ok m idx : index_ok m idx → si_dispatching idx = false → union_ok m idx [] (mkUnion ∅ []).
Proof.
  intros OK Hidle. split; [done|done|intros k h Hin; by apply elem_of_nil in Hin|constructor|].
  unfold with_contents. f_equal. symmetry. apply map_eq. intros id. rewrite lookup_empty. apply eq_None_not_Some.
  intros [x [_ (k & _ & Hk)%in_keys_spec]%lookup_select]. by apply elem_of_nil in Hk.
Qed.

Lemma union_subscribe_ok m idx ws u key :
  union_ok m idx ws u → key ∉ ws.*1 →
  let '(idx', h) := bucket_for key idx in union_ok m idx' (ws ++ [(key, h)]) (union_subscribe h idx' u).
Proof.
  intros [OK Hidle Hw ND ->] Nk. pose proof (bucket_for_ok m key idx OK) as OK'.
  pose proof (watches_snoc key idx ws Hw) as Hw'. pose proof (bucket_for_idle key idx) as [Hi' Hx'].
  destruct (bucket_for key idx) as [idx' h]. simpl in *. rewrite Hidle in Hi'.
  assert (∀ k h', (k, h') ∈ ws → bucket_rows idx' h' = bucket_rows idx h') as Hrows.
  { intros k h' Hin. destruct (Hw k h' Hin). destruct (Hw' k h') as [? ?]; [apply elem_of_app; by left|].
    by rewrite (idle_bucket m idx' k h'), (idle_bucket m idx k h'), Hx'. }
  destruct (Hw' key h) as [Hk Hh]; [apply elem_of_app; right; left|].
  pose proof (idle_bucket m idx' key h OK' Hi' Hk Hh) as Hb. rewrite Hx' in Hb.
  assert (NoDup (map_to_list (bucket_rows idx' h)).*1) as Vi by apply NoDup_fst_map_to_list.
  assert (NoDup (ws ++ [(key, h)]).*1) as ND'.
  { rewrite fmap_app. apply NoDup_app. split; [done|]. split; [|apply NoDup_singleton].
    by intros k Hk' ->%list_elem_of_singleton. }
  split; try done. unfold union_subscribe, with_contents. cbn [un_result un_subscriptions].
  set (first := Initial (map_to_list (bucket_rows idx' h))) in *. set (r := select _ m).
  assert (notify_union (h, first) r [(h, ∅)] = (union_callback first ∅ r, [(h, bucket_rows idx' h)])) as ->.
  { etrans; [exact (notify_union_spec (h, first) r [h] (λ _, ∅) (NoDup_singleton _) (λ _, Vi))|].
    simpl. rewrite !bool_decide_true by (done || left). unfold first. by rewrite apply_initial, list_to_map_to_list. }
  rewrite !fmap_app. f_equal.
  - destruct (union_follows (λ id, is_Some (bucket_rows idx' h !! id)) first ∅ r) as [Hin Hout]; [done|done| | | |].
    + intros id. rewrite lookup_empty. by intros [? ?].
    + intros id x Hx%elem_of_map_to_list. by exists x.
    + intros id [x Hx]. rewrite select_all, lookup_empty. apply eq_None_not_Some. intros [y Hy].
      apply lookup_select in Hy as [Hy Ek]. apply in_keys_spec in Ek as (k & Ek & Hk').
      rewrite Hb in Hx. apply lookup_bucket_of in Hx as [Hx Ex]. apply Nk. congruence.
    + apply map_eq. intros id. destruct (bucket_rows idx' h !! id) as [x|] eqn:Ex.
      * rewrite Hin by by exists x. unfold first. rewrite select_all, apply_initial, list_to_map_to_list, Ex by done. symmetry.
        rewrite Hx'. apply lookup_select. rewrite Hb in Ex. apply lookup_bucket_of in Ex as [Hx Ek]. split; [done|].
        apply in_keys_spec. exists key. split; [done|]. apply elem_of_app. right. left.
      * rewrite Hout by (rewrite Ex; by intros [? ?]). unfold r. rewrite Hx'. apply option_eq. intros x.
        rewrite !lookup_select, !in_keys_spec.
        assert (m !! id = Some x → ((∃ k, si_extract idx x = Some k ∧ k ∈ ws.*1) ↔
                  ∃ k, si_extract idx x = Some k ∧ k ∈ ws.*1 ++ [(key, h)].*1)); [intros Hx|tauto]. split.
        -- intros (k & Ek & Hk'). exists k. split; [done|]. apply elem_of_app. by left.
        -- intros (k & Ek & Hk'). apply elem_of_app in Hk' as [Hk'|Hk'].
           ++ by exists k.
           ++ apply list_elem_of_singleton in Hk' as ->. exfalso. revert Ex. apply not_eq_None_Some.
              exists x. rewrite Hb. by apply lookup_bucket_of.
  - f_equal. apply list_fmap_ext. intros i h' Hh'. f_equal. symmetry.
    apply list_elem_of_lookup_2, list_elem_of_fmap in Hh' as ([k h''] & -> & Hin). by eapply Hrows.
Qed.

Lemma union_build_ok m idx ws u keys :
  union_ok m idx ws u → NoDup (ws.*1 ++ keys) →
  let s := foldl (λ acc key, let '(idx, h) := bucket_for key acc.1 in (idx, union_subscribe h idx acc.2)) (idx, u) keys in
  ∃ ws', union_ok m s.1 ws' s.2 ∧ ws'.*1 = ws.*1 ++ keys ∧ si_extract s.1 = si_extract idx.
Proof.
  revert idx ws u. induction keys as [|key keys IH]; intros idx ws u U ND.
  - exists ws. rewrite app_nil_r. done.
  - cbn [foldl]. cbn [fst snd]. assert (key ∉ ws.*1) as Nk.
    { apply NoDup_app in ND as (_ & Hd & _). intros Hin. by apply (Hd key Hin); left. }
    pose proof (union_subscribe_ok m idx ws u key U Nk) as U'. pose proof (bucket_for_idle key idx) as [_ Hx].
    destruct (bucket_for key idx) as [idx' h]. simpl in Hx.
    destruct (IH idx' _ _ U') as (ws' & Uok & Ek & Ex).
    + rewrite fmap_app. simpl. by rewrite <-(assoc_L (++)).
    + exists ws'. split; [done|]. rewrite Ek, Ex, fmap_app. simpl. by rewrite <-(assoc_L (++)).
Qed.

(** A diff of the store, uninterrupted, and the union's callbacks. *)
Definition union_diff (s : Rows * SourceIndex P * UnionMap P) d : Rows * SourceIndex P * UnionMap P :=
  let '(m, idx, u) := s in
  let '(idx, actions) := index_apply_diff d idx in
  (apply_diff d m, idx, foldl (λ u a, union_action a u) u actions).

Lemma union_diff_ok m idx ws u d :
  union_ok m idx ws u → diff_valid d m → stays (si_extract idx) ws.*1 d m →
  let '(m', idx', u') := union_diff (m, idx, u) d in
  m' = apply_diff d m ∧ union_ok m' idx' ws u' ∧ si_extract idx' = si_extract idx.
Proof.
  intros [OK Hidle Hw ND ->] V Hst. unfold union_diff.
  destruct (index_apply_diff d idx) as [idx' actions] eqn:E.
  pose proof (index_apply_diff_spec m d idx idx' actions V OK Hidle E) as DA.
  pose proof (watches_handles idx ws (ok_injective _ _ OK) Hw ND) as NDh.
  assert (∀ key h, (key, h) ∈ ws → bucket_rows idx h = bucket_of (si_extract idx) m key) as Hσ.
  { intros key h Hin. apply Hw in Hin as [Hk Hh]. by apply idle_bucket. }
  assert (watches idx' ws) as Hw'.
  { intros key h Hin. destruct (Hw key h Hin) as [Hk Hh]. split; [by eapply da_kept|]. by rewrite (da_held _ _ _ _ _ DA). }
  split; [done|]. split; [|apply DA]. split; [apply DA|apply DA|done|done|].
  rewrite union_actions_spec; [|done|].
  - cbn zeta. unfold with_contents. f_equal.
    + rewrite (follow_diff (λ _, true) (λ _, True) union_callback m d idx idx' actions ws); try done.
      * rewrite (da_extract _ _ _ _ _ DA). done.
      * apply union_follows.
      * apply OK.
    + apply list_fmap_ext. intros i h Hh. f_equal. rewrite follow_contents. simpl.
      apply list_elem_of_lookup_2, list_elem_of_fmap in Hh as ([key h'] & -> & Hin). simpl.
      destruct (Hw' key h' Hin) as [Hk' Hh']. rewrite (idle_bucket _ idx' key h' (da_ok _ _ _ _ _ DA) (da_idle _ _ _ _ _ DA) Hk' Hh').
      rewrite (Hσ key h' Hin), (da_extract _ _ _ _ _ DA). destruct (Hw key h' Hin) as [Hk Hh2].
      by apply (da_effect _ _ _ _ _ DA).
  - intros h ([key h'] & -> & Hin)%list_elem_of_fmap. simpl. rewrite (Hσ key h' Hin).
    destruct (Hw key h' Hin). by apply (da_valid _ _ _ _ _ DA).
Qed.
End union.
