(* ===== verification/LiveQuery.v ===== *)
(** * Live filter queries

    [query_live] of [core/query/registration.rs]: one result map kept up to date while both
    the store and the filter change.  A filter with a route subscribes to one bucket per key
    of the route, one without scans the store; a change of filter adds and drops buckets and
    re-tests what is in scope, and never rebuilds the result.

    The filter a callback tests against is a cell shared with the state, stamped with the
    generation of the tick that wrote it ([lw_refs]): a callback whose subscription was
    dropped while it was waiting finds an old generation and does nothing.  All foreign-key
    indexes are of the host and the entity type of the query, so they are named by their
    fields alone. *)

From stdpp Require Import base strings numbers option countable gmap gmultiset sets list.
From S2P Require Import Prelude Order GraphTypes EdgeIds GraphIndex GraphQuery GraphWatch.
From S2P Require Import Filter QueryRoute SourceIndex.

Section live.
Context {P F : Type} `{!CellMap (Item P), !HashOrder, !LiveFilterQuery P F}.
Abbreviation Rows := (gmap string (Item P)).
Implicit Types (result : Rows) (f : F) (diff : MapDiff (Item P)) (candidates : list (string * Item P)) (key : CompoundKey).

(** ** Testing candidates *)

(** One bucket's rows: nothing outside of them is touched. *)
Definition apply_bucket_candidates result f candidates : Rows :=
  foldl (λ result kv, if live_filter_matches f kv.2 then <[kv.1 := kv.2]> result else delete kv.1 result)
    result candidates.

(** The whole scope: ids that are not among the candidates leave the result.  A row that is
    already present is not written again. *)
Definition full_scope_step f (current_ids : gset string) (acc : Rows * gset string) (candidate : string * Item P)
  : Rows * gset string :=
  let '(result, seen) := acc in
  let '(id, item) := candidate in
  (match live_filter_matches f item, bool_decide (id ∈ current_ids) with
   | true, false => <[id := item]> result
   | false, true => delete id result
   | _, _ => result
   end, {[id]} ∪ seen).

Definition reconcile_full_scope_membership result f candidates : Rows :=
  let current_ids := dom result in
  let '(result, seen) := foldl (full_scope_step f current_ids) (result, ∅) candidates in
  foldl (λ result id, delete id result) result (elements (current_ids ∖ seen)).

Inductive LiveDiffScope := BucketScope | FullStore.

Fixpoint apply_live_diff result diff f (scope : LiveDiffScope) : Rows :=
  match diff with
  | Initial entries =>
      match scope with
      | BucketScope => apply_bucket_candidates result f entries
      | FullStore => reconcile_full_scope_membership result f entries
      end
  | Insert key value => if live_filter_matches f value then <[key := value]> result else result
  | Remove key _ => delete key result
  | Update key _ new_value =>
      if live_filter_matches f new_value then <[key := new_value]> result else delete key result
  | Batch changes => foldl (λ result change, apply_live_diff result change f scope) result changes
  end.

(** ** The state of a live query *)

(** A subscribed bucket: one of an index, or the private map of one id that
    [build_ids_source_map] keeps over the store's cell of that id (without an id, the empty
    map). *)
Inductive LiveSource :=
| IndexBucket (index : string) (h : nat)
| IdRows (id : option string) (rows : Rows).

(** A subscription with the cell its callback reads the filter from. *)
Record LiveBucket := mkLiveBucket { lb_source : LiveSource; lb_ref : nat }.

Record LiveFilterGeneration := mkLiveFilter { lf_generation : Z; lf_filter : F }.

Record LiveQueryState := mkLiveState {
  ls_bucket_guards : gmap CompoundKey LiveBucket;
  ls_bucket_filter_refs : gmap CompoundKey nat;
  (** the cell captured by the scan subscription *)
  ls_scan_guard : option nat;
  ls_scan_filter_ref : option nat;
  ls_prev_route_field_names : option (list string)
}.

Record LiveWorld := mkLiveWorld {
  lw_store : Rows;
  lw_indexes : gmap string (SourceIndex P);
  (** the shared filter cells *)
  lw_refs : gmap nat LiveFilterGeneration;
  lw_next_ref : nat;
  lw_generation : Z;
  lw_result : Rows;
  lw_state : LiveQueryState
}.
Implicit Types (w : LiveWorld) (state : LiveQueryState).

Definition with_result result w : LiveWorld :=
  mkLiveWorld (lw_store w) (lw_indexes w) (lw_refs w) (lw_next_ref w) (lw_generation w) result (lw_state w).
Definition with_indexes indexes w : LiveWorld :=
  mkLiveWorld (lw_store w) indexes (lw_refs w) (lw_next_ref w) (lw_generation w) (lw_result w) (lw_state w).
Definition with_state state w : LiveWorld :=
  mkLiveWorld (lw_store w) (lw_indexes w) (lw_refs w) (lw_next_ref w) (lw_generation w) (lw_result w) state.
Definition set_ref (ref : nat) (cell : LiveFilterGeneration) w : LiveWorld :=
  mkLiveWorld (lw_store w) (lw_indexes w) (<[ref := cell]> (lw_refs w)) (lw_next_ref w) (lw_generation w)
    (lw_result w) (lw_state w).
(** [Arc::new(Mutex::new(cell))]. *)
Definition new_ref (cell : LiveFilterGeneration) w : LiveWorld * nat :=
  (mkLiveWorld (lw_store w) (lw_indexes w) (<[lw_next_ref w := cell]> (lw_refs w)) (S (lw_next_ref w))
     (lw_generation w) (lw_result w) (lw_state w), lw_next_ref w).

Definition state_default : LiveQueryState := mkLiveState ∅ ∅ None None None.

(** ** Callbacks *)

(** [current_live_filter]. *)
Definition current_live_filter (ref : nat) w : option F :=
  match lw_refs w !! ref with
  | Some cell => if bool_decide (lf_generation cell = lw_generation w) then Some (lf_filter cell) else None
  | None => None
  end.

(** [build_live_diff_callback]; the gate it waits for is what makes it one step. *)
Definition live_callback (ref : nat) (scope : LiveDiffScope) diff w : LiveWorld :=
  match current_live_filter ref w with
  | Some f => with_result (apply_live_diff (lw_result w) diff f scope) w
  | None => w
  end.

(** ** Bucket sources *)

(** [belongs_to_source_index_for]: a registered index that is still held, or a new one over
    the store. *)
Definition index_key (field_names : list string) : string := String.concat "+" field_names.

Definition belongs_to_source_index_for (field_names : list string) (extract_fk : CompoundFkExtractor P) w : LiveWorld :=
  let fresh := with_indexes (<[index_key field_names := index_new extract_fk (lw_store w)]> (lw_indexes w)) w in
  match lw_indexes w !! index_key field_names with
  | Some idx => if index_alive idx then w else fresh
  | None => fresh
  end.

(** [build_ids_source_map] for one id. *)
Definition build_ids_source_map (store : Rows) (id : string) : Rows :=
  match store !! id with Some item => {[id := item]} | None => ∅ end.

(** [make_source], once its index has been looked up. *)
Definition make_source (field_names : list string) (extract_fk : option (CompoundFkExtractor P)) key w
  : LiveWorld * LiveSource :=
  match extract_fk with
  | None =>
      (w, match key with
          | [] => IdRows None ∅
          | id :: _ => IdRows (Some id) (build_ids_source_map (lw_store w) id)
          end)
  | Some _ =>
      match lw_indexes w !! index_key field_names with
      | Some idx =>
          let '(idx, h) := bucket_for key idx in
          (with_indexes (<[index_key field_names := idx]> (lw_indexes w)) w, IndexBucket (index_key field_names) h)
      | None => (w, IdRows None ∅)
      end
  end.

Definition source_rows (source : LiveSource) w : Rows :=
  match source with
  | IndexBucket index h => match lw_indexes w !! index with Some idx => bucket_rows idx h | None => ∅ end
  | IdRows _ rows => rows
  end.

(** Dropping a guard drops the bucket handle. *)
Definition drop_source (source : LiveSource) w : LiveWorld :=
  match source with
  | IndexBucket index h => with_indexes (alter (drop_bucket h) index (lw_indexes w)) w
  | IdRows _ _ => w
  end.

(** ** Reconciliation *)

Definition remove_ids (rows : Rows) result : Rows := foldl (λ result id, delete id result) result (map_to_list rows).*1.

Definition clear_live_result w : LiveWorld := with_result (remove_ids (lw_result w) (lw_result w)) w.

(** [bucket_guards.clear(); bucket_filter_refs.clear()]. *)
Definition clear_buckets w : LiveWorld :=
  let state := lw_state w in
  let w := foldl (λ w entry, drop_source (lb_source entry.2) w) w (iterate (ls_bucket_guards state)) in
  with_state (mkLiveState ∅ ∅ (ls_scan_guard state) (ls_scan_filter_ref state) (ls_prev_route_field_names state)) w.

(** The order in which a set of keys is iterated. *)
Definition iterate_keys_of (keys : gset CompoundKey) : list CompoundKey := (iterate (gset_to_gmap tt keys)).*1.

Definition set_guards guards refs state : LiveQueryState :=
  mkLiveState guards refs (ls_scan_guard state) (ls_scan_filter_ref state) (ls_prev_route_field_names state).

(** A key the new filter no longer asks for. *)
Definition retract_bucket w (entry : CompoundKey * LiveBucket) : LiveWorld :=
  let '(key, bucket) := entry in
  let w := with_result (remove_ids (source_rows (lb_source bucket) w) (lw_result w)) w in
  let state := lw_state w in
  let w := with_state (set_guards (delete key (ls_bucket_guards state)) (delete key (ls_bucket_filter_refs state)) state) w in
  drop_source (lb_source bucket) w.

(** A key it still asks for. *)
Definition refresh_bucket f (generation : Z) w key : LiveWorld :=
  let w := match ls_bucket_filter_refs (lw_state w) !! key with
           | Some ref => set_ref ref (mkLiveFilter generation f) w
           | None => w
           end in
  match ls_bucket_guards (lw_state w) !! key with
  | Some bucket =>
      with_result (apply_bucket_candidates (lw_result w) f (map_to_list (source_rows (lb_source bucket) w))) w
  | None => w
  end.

Definition reconcile_existing_buckets f (new_keys : gset CompoundKey) (generation : Z) w : LiveWorld :=
  let dropped := List.filter (λ entry, negb (bool_decide (entry.1 ∈ new_keys))) (iterate (ls_bucket_guards (lw_state w))) in
  let w := foldl retract_bucket w dropped in
  foldl (refresh_bucket f generation) w (iterate_keys_of new_keys).

Definition add_live_bucket f (generation : Z) field_names extract_fk w key : LiveWorld :=
  match ls_bucket_guards (lw_state w) !! key with
  | Some _ => w
  | None =>
      let '(w, source) := make_source field_names extract_fk key w in
      let rows := map_to_list (source_rows source w) in
      let w := with_result (apply_bucket_candidates (lw_result w) f rows) w in
      let '(w, ref) := new_ref (mkLiveFilter generation f) w in
      (* the subscription starts with the contents of the bucket *)
      let w := live_callback ref BucketScope (Initial rows) w in
      let state := lw_state w in
      with_state (set_guards (<[key := mkLiveBucket source ref]> (ls_bucket_guards state))
                    (<[key := ref]> (ls_bucket_filter_refs state)) state) w
  end.

Definition reconcile_indexed_live_query f (route : QueryRoute P) (generation : Z) w : LiveWorld :=
  let state := lw_state w in
  let w := with_state (mkLiveState (ls_bucket_guards state) (ls_bucket_filter_refs state) None
                         (ls_scan_filter_ref state) (ls_prev_route_field_names state)) w in
  let '(field_names, new_keys, extract_fk) := split_query_route route in
  let w := if bool_decide (ls_prev_route_field_names (lw_state w) = Some field_names) then w
           else clear_live_result (clear_buckets w) in
  let w := reconcile_existing_buckets f new_keys generation w in
  let w :=
    if existsb (λ key, negb (bool_decide (is_Some (ls_bucket_guards (lw_state w) !! key)))) (iterate_keys_of new_keys)
    then
      let w := match extract_fk with Some ext => belongs_to_source_index_for field_names ext w | None => w end in
      foldl (add_live_bucket f generation field_names extract_fk) w (iterate_keys_of new_keys)
    else w in
  let state := lw_state w in
  with_state (mkLiveState (ls_bucket_guards state) (ls_bucket_filter_refs state) (ls_scan_guard state)
                (ls_scan_filter_ref state) (Some field_names)) w.

Definition reconcile_scan_live_query f (generation : Z) w : LiveWorld :=
  let w :=
    if bool_decide (is_Some (ls_prev_route_field_names (lw_state w))) then
      let w := clear_live_result (clear_buckets w) in
      let state := lw_state w in
      with_state (mkLiveState (ls_bucket_guards state) (ls_bucket_filter_refs state) (ls_scan_guard state)
                    (ls_scan_filter_ref state) None) w
    else w in
  let w := with_result (reconcile_full_scope_membership (lw_result w) f (map_to_list (lw_store w))) w in
  match ls_scan_guard (lw_state w) with
  | None =>
      let '(w, ref) := new_ref (mkLiveFilter generation f) w in
      (* the callback receives the contents of the store before the guard is stored *)
      let state := lw_state w in
      let w := with_state (mkLiveState (ls_bucket_guards state) (ls_bucket_filter_refs state) (ls_scan_guard state)
                             (Some ref) (ls_prev_route_field_names state)) w in
      let w := live_callback ref FullStore (Initial (map_to_list (lw_store w))) w in
      let state := lw_state w in
      with_state (mkLiveState (ls_bucket_guards state) (ls_bucket_filter_refs state) (Some ref)
                    (ls_scan_filter_ref state) (ls_prev_route_field_names state)) w
  | Some _ =>
      match ls_scan_filter_ref (lw_state w) with
      | Some ref => set_ref ref (mkLiveFilter generation f) w
      | None => w
      end
  end.

Definition reconcile_live_query f (generation : Z) w : LiveWorld :=
  match query_route f with
  | Some route => reconcile_indexed_live_query f route generation w
  | None => reconcile_scan_live_query f generation w
  end.

(** A new value of the filter cell: the generation counter wraps, the tick's own number
    saturates. *)
Definition live_tick f w : LiveWorld :=
  let generation := sat_add (lw_generation w) 1 in
  reconcile_live_query f generation
    (mkLiveWorld (lw_store w) (lw_indexes w) (lw_refs w) (lw_next_ref w) (fetch_add (lw_generation w) 1)
       (lw_result w) (lw_state w)).

(** ** The store changes *)

(** The subscription on a bucket receives what the index delivers to it. *)
Definition bucket_action (index : string) w (a : BucketAction P) : LiveWorld :=
  foldl (λ w entry, match lb_source entry.2 with
                    | IndexBucket i h =>
                        if bool_decide (i = index) && bool_decide (h = a.1)
                        then live_callback (lb_ref entry.2) BucketScope a.2 w else w
                    | IdRows _ _ => w
                    end) w (iterate (ls_bucket_guards (lw_state w))).

(** An index applies the diff and drains its queue; nobody holds a dead one. *)
Definition index_diff diff w (index : string) : LiveWorld :=
  match lw_indexes w !! index with
  | Some idx =>
      if index_alive idx then
        let '(idx, actions) := index_apply_diff diff idx in
        foldl (bucket_action index) (with_indexes (<[index := idx]> (lw_indexes w)) w) actions
      else w
  | None => w
  end.

(** The cell of one id has a new value; a value that did not change is an update with itself. *)
Definition id_cell_update (id : string) (value : option (Item P)) (rows : Rows) : Rows * option (MapDiff (Item P)) :=
  match value, rows !! id with
  | Some item, None => (<[id := item]> rows, Some (Insert id item))
  | Some item, Some old => (<[id := item]> rows, Some (Update id old item))
  | None, Some old => (delete id rows, Some (Remove id old))
  | None, None => (rows, None)
  end.

Definition id_action w key : LiveWorld :=
  match ls_bucket_guards (lw_state w) !! key with
  | Some (mkLiveBucket (IdRows (Some id) rows) ref) =>
      let '(rows, change) := id_cell_update id (lw_store w !! id) rows in
      let state := lw_state w in
      let w := with_state (set_guards (<[key := mkLiveBucket (IdRows (Some id) rows) ref]> (ls_bucket_guards state))
                             (ls_bucket_filter_refs state) state) w in
      match change with Some change => live_callback ref BucketScope change w | None => w end
  | _ => w
  end.

(** A diff of the store reaches the indexes, the cells of the ids and the scan subscription. *)
Definition live_store_diff diff w : LiveWorld :=
  let w := mkLiveWorld (apply_diff diff (lw_store w)) (lw_indexes w) (lw_refs w) (lw_next_ref w) (lw_generation w)
             (lw_result w) (lw_state w) in
  let w := foldl (index_diff diff) w (map_to_list (lw_indexes w)).*1 in
  let w := foldl id_action w (iterate (ls_bucket_guards (lw_state w))).*1 in
  match ls_scan_guard (lw_state w) with
  | Some ref => live_callback ref FullStore diff w
  | None => w
  end.

(** ** Runs *)

Inductive LiveEvent :=
| FilterChanged (f : F)
| StoreChanged (diff : MapDiff (Item P))
(** a callback of a dropped subscription that had already started *)
| LateCallback (ref : nat) (scope : LiveDiffScope) (diff : MapDiff (Item P)).

Definition live_event w (event : LiveEvent) : LiveWorld :=
  match event with
  | FilterChanged f => live_tick f w
  | StoreChanged diff => live_store_diff diff w
  | LateCallback ref scope diff => live_callback ref scope diff w
  end.

(** [query_live]: the subscription to the filter cell starts with its current value. *)
Definition query_live (store : Rows) f : LiveWorld :=
  live_tick f (mkLiveWorld store ∅ ∅ 0 0 ∅ state_default).

Definition run_live (events : list LiveEvent) w : LiveWorld := foldl live_event w events.
End live.
Arguments LiveSource : clear implicits.
Arguments LiveBucket : clear implicits.
Arguments LiveFilterGeneration : clear implicits.
Arguments LiveWorld : clear implicits.
Arguments LiveEvent : clear implicits.
Arguments LiveQueryState : clear implicits.
