(* ===== verification/LiveQueryProof.v ===== *)
(** * A live query shows the filtered store: testing candidates

    The pieces of a tick and of a callback on the result map. *)

From stdpp Require Import base strings numbers option countable gmap gmultiset sets list.
From S2P Require Import Prelude Order GraphTypes EdgeIds GraphIndex GraphQuery GraphWatch WatchProof.
From S2P Require Import Filter QueryRoute SourceIndex SourceIndexProof SourceFollow LiveQuery.
From S2P Require Import SessionProof.

Section candidates.
Context {P F : Type} `{!CellMap (Item P), !HashOrder, !LiveFilterQuery P F}.
Abbreviation Rows := (gmap string (Item P)).
Implicit Types (result r m rows : Rows) (f : F) (d : MapDiff (Item P)) (candidates : list (string * Item P)) (key : CompoundKey)
  (kf : string → Item P → option CompoundKey).

(** The rows of the store that a filter selects. *)
Definition filtered f m : Rows := select (live_filter_matches f) m.

(** ** Lookups *)

Lemma foldl_delete_lookup (l : list string) r id :
  foldl (λ r id, delete id r) r l !! id = if bool_decide (id ∈ l) then None else r !! id.
Proof. apply foldl_deletes_lookup. Qed.

Lemma remove_ids_lookup rows r id : remove_ids rows r !! id = if bool_decide (is_Some (rows !! id)) then None else r !! id.
Proof.
  unfold remove_ids. rewrite foldl_delete_lookup.
  assert (id ∈ (map_to_list rows).*1 ↔ is_Some (rows !! id)) as Hk; [|by rewrite (bool_decide_ext _ _ Hk)].
  rewrite list_elem_of_fmap. split.
  - intros ([k x] & -> & Hx%elem_of_map_to_list). by exists x.
  - intros [x Hx]. exists (id, x). split; [done|]. by apply elem_of_map_to_list.
Qed.

Lemma candidates_lookup_notin r f candidates id :
  id ∉ candidates.*1 → apply_bucket_candidates r f candidates !! id = r !! id.
Proof.
  unfold apply_bucket_candidates. revert r. induction candidates as [|[k x] cs IH]; intros r; simpl; [done|].
  intros [Hne Hn]%not_elem_of_cons. rewrite IH by done.
  destruct (live_filter_matches f x); [by rewrite lookup_insert_ne|by rewrite lookup_delete_ne].
Qed.

Lemma candidates_lookup_in r f candidates id x :
  NoDup candidates.*1 → (id, x) ∈ candidates →
  apply_bucket_candidates r f candidates !! id = if live_filter_matches f x then Some x else None.
Proof.
  revert r. induction candidates as [|[k y] cs IH]; intros r ND Hin; [by apply elem_of_nil in Hin|].
  apply NoDup_cons in ND as [Nk ND]. apply elem_of_cons in Hin as [[= <- <-]|Hin].
  - change (apply_bucket_candidates r f ((id, x) :: cs)) with
      (apply_bucket_candidates (if live_filter_matches f x then <[id := x]> r else delete id r) f cs).
    rewrite candidates_lookup_notin by done.
    destruct (live_filter_matches f x); [by rewrite lookup_insert_eq|by rewrite lookup_delete_eq].
  - change (apply_bucket_candidates r f ((k, y) :: cs)) with
      (apply_bucket_candidates (if live_filter_matches f y then <[k := y]> r else delete k r) f cs).
    by apply IH.
Qed.

Lemma candidates_lookup r f rows id :
  apply_bucket_candidates r f (map_to_list rows) !! id
    = match rows !! id with Some x => if live_filter_matches f x then Some x else None | None => r !! id end.
Proof.
  destruct (rows !! id) as [x|] eqn:Ex.
  - apply candidates_lookup_in; [apply NoDup_fst_map_to_list|]. by apply elem_of_map_to_list.
  - apply candidates_lookup_notin. intros ([k x] & -> & Hx%elem_of_map_to_list)%list_elem_of_fmap. simpl in Ex. congruence.
Qed.

(** ** The whole scope *)

Lemma full_scope_steps f (current : gset string) r seen candidates id :
  NoDup candidates.*1 →
  let '(r', seen') := foldl (full_scope_step f current) (r, seen) candidates in
  seen' = list_to_set candidates.*1 ∪ seen ∧
  r' !! id = match (list_to_map candidates : Rows) !! id with
             | Some x => match live_filter_matches f x, bool_decide (id ∈ current) with
                         | true, false => Some x
                         | false, true => None
                         | _, _ => r !! id
                         end
             | None => r !! id
             end.
Proof.
  revert r seen. induction candidates as [|[k x] cs IH]; intros r seen ND; csimpl; [by split; [set_solver|]|].
  apply NoDup_cons in ND as [Nk ND].
  specialize (IH (match live_filter_matches f x, bool_decide (k ∈ current) with
                  | true, false => <[k := x]> r | false, true => delete k r | _, _ => r end) ({[k]} ∪ seen) ND).
  destruct (foldl (full_scope_step f current) _ cs) as [r' seen']. destruct IH as [-> ->].
  split; [set_solver|]. destruct (decide (k = id)) as [->|Hne].
  - rewrite lookup_insert_eq. rewrite not_elem_of_list_to_map_1 by done.
    destruct (live_filter_matches f x), (bool_decide (id ∈ current)); try done;
      [by rewrite lookup_insert_eq|by rewrite lookup_delete_eq].
  - rewrite lookup_insert_ne by done. destruct (list_to_map cs !! id) as [y|];
      destruct (live_filter_matches f x), (bool_decide (k ∈ current));
      try (destruct (live_filter_matches f y), (bool_decide (id ∈ current)));
      rewrite ?lookup_insert_ne, ?lookup_delete_ne by done; done.
Qed.

(** Re-testing the store against a result whose rows are up to date filters the store. *)
Lemma full_scope_filtered r f m :
  r ⊆ m → reconcile_full_scope_membership r f (map_to_list m) = filtered f m.
Proof.
  intros Hs. unfold reconcile_full_scope_membership. apply map_eq. intros id.
  pose proof (full_scope_steps f (dom r) r ∅ (map_to_list m) id (NoDup_fst_map_to_list m)) as Hf.
  destruct (foldl (full_scope_step f (dom r)) (r, ∅) (map_to_list m)) as [r' seen]. destruct Hf as [-> Hr'].
  rewrite foldl_delete_lookup, Hr', list_to_map_to_list. clear Hr'.
  apply option_eq. intros x. unfold filtered. rewrite lookup_select.
  assert (id ∈ elements (dom r ∖ (list_to_set (map_to_list m).*1 ∪ ∅)) ↔ is_Some (r !! id) ∧ m !! id = None) as Hel.
  { rewrite elem_of_elements, elem_of_difference, elem_of_dom, (right_id_L ∅ (∪)), elem_of_list_to_set. f_equiv.
    rewrite list_elem_of_fmap. split.
    - intros Hn. apply eq_None_not_Some. intros [y Hy]. apply Hn. exists (id, y). split; [done|]. by apply elem_of_map_to_list.
    - intros Hn ([k y] & -> & Hy%elem_of_map_to_list). simpl in Hn. congruence. }
  rewrite (bool_decide_ext _ _ Hel). destruct (m !! id) as [y|] eqn:Ey.
  - rewrite bool_decide_false by by intros [_ ?]. destruct (live_filter_matches f y) eqn:Em.
    + assert (Some y = Some x ↔ Some y = Some x ∧ live_filter_matches f x = true) as <-.
      { split; [intros [= ->]; by split|by intros [? _]]. }
      case_bool_decide as Ed; [|done].
      apply elem_of_dom in Ed as [z Hz]. assert (m !! id = Some z) as Hz' by by eapply lookup_weaken.
      by rewrite Hz, <-Hz', Ey.
    + assert (Some y = Some x ∧ live_filter_matches f x = true ↔ False) as ->.
      { split; [|done]. intros [[= ->] ?]. congruence. }
      case_bool_decide as Ed; [by split|]. apply not_elem_of_dom in Ed. rewrite Ed. by split.
  - assert (None = Some x ∧ live_filter_matches f x = true ↔ False) as -> by (by split; [intros [? _]|]).
    case_bool_decide as Ed; [by split|]. split; [|done]. intros Hz. apply Ed. split; [by exists x|done].
Qed.

(** ** The callback follows its source *)

Lemma apply_live_diff_follows f scope :
  follows (live_filter_matches f) (λ d, no_initial d = true) (λ d _ r, apply_live_diff r d f scope).
Proof.
  intros own d c r Hal V Hc Hd Hr. revert c r Hal V Hc Hd Hr.
  induction d as [entries|k x|k x|k x y|changes IH] using MapDiff_rect'; intros c r Hal V Hc Hd Hr; [done|..];
    simpl in V |- *.
  - assert (own k) by (apply (Hd k x); by left). rewrite apply_insert, select_insert. split; intros id Ho.
    + destruct (live_filter_matches f x).
      * rewrite !lookup_insert. case_decide; [done|by apply Hr].
      * rewrite lookup_delete. case_decide as E; [subst id|by apply Hr]. rewrite Hr by done.
        unfold select. apply map_lookup_filter_None. by left.
    + destruct (live_filter_matches f x); [|done]. rewrite lookup_insert_ne; [done|]. by intros ->.
  - assert (own k) by (apply (Hd k x); by left). rewrite apply_remove, select_delete. split; intros id Ho.
    + rewrite !lookup_delete. case_decide; [done|by apply Hr].
    + rewrite lookup_delete_ne; [done|]. by intros ->.
  - assert (own k) by (apply (Hd k x); by left). rewrite apply_update, select_insert. split; intros id Ho.
    + destruct (live_filter_matches f y).
      * rewrite !lookup_insert. case_decide; [done|by apply Hr].
      * rewrite !lookup_delete. case_decide; [done|by apply Hr].
    + destruct (live_filter_matches f y); [rewrite lookup_insert_ne|rewrite lookup_delete_ne]; try done; by intros ->.
  - rewrite apply_batch. simpl in Hal.
    assert (∀ d, d ∈ changes → ∀ id x, (id, x) ∈ diff_entries d → own id) as Hd'.
    { intros d Hin id x Hx. apply (Hd id x). apply elem_of_batch_entries. by exists d. }
    clear Hd. revert c r Hal V Hc Hr. induction IH as [|d changes IHd _ IH']; intros c r Hal V Hc Hr; [by split|].
    simpl in Hal |- *. apply andb_true_iff in Hal as [Hal1 Hal2]. destruct V as [Vd V].
    destruct (IHd c r Hal1 Vd Hc) as [Hin Hout]; [intros id x; apply (Hd' d); left|done|].
    destruct (IH' ltac:(intros d' Hin'; apply Hd'; by right) (apply_diff d c) (apply_live_diff r d f scope) Hal2 V)
      as [H1 H2].
    + intros id [?|[x Hx]]%apply_diff_keys; [by apply Hc| |done]. apply (Hd' d ltac:(left) id x Hx).
    + done.
    + split; [done|]. intros id Hno. by rewrite H2, Hout.
Qed.

(** ** What a result shows, key by key *)

(** The rows of the store whose key passes the test given for it. *)
Definition shown (kf : string → Item P → option CompoundKey) m (φ : CompoundKey → Item P → bool) : Rows :=
  filter (λ kv : string * Item P, match kf kv.1 kv.2 with Some k => φ k kv.2 | None => false end = true) m.
Definition key_rows (kf : string → Item P → option CompoundKey) m key : Rows :=
  filter (λ kv : string * Item P, kf kv.1 kv.2 = Some key) m.

Lemma lookup_shown kf m φ id x : shown kf m φ !! id = Some x ↔ m !! id = Some x ∧ ∃ k, kf id x = Some k ∧ φ k x = true.
Proof.
  unfold shown. rewrite map_lookup_filter_Some. simpl. f_equiv. destruct (kf id x); naive_solver.
Qed.

Lemma lookup_key_rows kf m key id x : key_rows kf m key !! id = Some x ↔ m !! id = Some x ∧ kf id x = Some key.
Proof. unfold key_rows. by rewrite map_lookup_filter_Some. Qed.

Lemma shown_ext kf m φ φ' : (∀ k x, φ k x = φ' k x) → shown kf m φ = shown kf m φ'.
Proof.
  intros E. apply map_eq. intros id. apply option_eq. intros x. rewrite !lookup_shown. by setoid_rewrite E.
Qed.

Definition test_key (φ : CompoundKey → Item P → bool) key (p : Item P → bool) : CompoundKey → Item P → bool :=
  λ k, if bool_decide (k = key) then p else φ k.

Lemma candidates_shown kf m φ f key :
  apply_bucket_candidates (shown kf m φ) f (map_to_list (key_rows kf m key))
    = shown kf m (test_key φ key (live_filter_matches f)).
Proof.
  apply map_eq. intros id. rewrite candidates_lookup. apply option_eq. intros x. rewrite lookup_shown.
  destruct (key_rows kf m key !! id) as [y|] eqn:Ey.
  - apply lookup_key_rows in Ey as [Ey Ek]. rewrite Ey. split.
    + destruct (live_filter_matches f y) eqn:Em; intros [= ->]. split; [done|]. exists key. split; [done|].
      unfold test_key. by rewrite bool_decide_true.
    + intros ([= ->] & k & Ek' & Hp). unfold test_key in Hp. rewrite bool_decide_true in Hp by congruence. by rewrite Hp.
  - rewrite lookup_shown. split; intros [Hx (k & Ek & Hp)]; (split; [done|]); exists k; (split; [done|]);
      unfold test_key in *; rewrite bool_decide_false in *; try done; intros ->;
      (assert (key_rows kf m key !! id = Some x) as Hk by by apply lookup_key_rows); congruence.
Qed.

Lemma remove_shown kf m φ key :
  remove_ids (key_rows kf m key) (shown kf m φ) = shown kf m (test_key φ key (λ _, false)).
Proof.
  apply map_eq. intros id. rewrite remove_ids_lookup. apply option_eq. intros x. case_bool_decide as E.
  - destruct E as [y Hy]. apply lookup_key_rows in Hy as [Hy Ek]. split; [done|].
    intros (Hx & k & Ek' & Hp)%lookup_shown. unfold test_key in Hp.
    rewrite bool_decide_true in Hp by congruence. done.
  - rewrite !lookup_shown. split; intros [Hx (k & Ek & Hp)]; (split; [done|]); exists k; (split; [done|]);
      unfold test_key in *; rewrite bool_decide_false in *; try done; intros ->; apply E; exists x; by apply lookup_key_rows.
Qed.

Lemma remove_all r : remove_ids r r = ∅.
Proof.
  apply map_eq. intros id. rewrite remove_ids_lookup, lookup_empty. case_bool_decide as E; [done|]. by apply eq_None_not_Some.
Qed.

Lemma shown_none kf m : shown kf m (λ _ _, false) = ∅.
Proof.
  apply map_eq. intros id. rewrite lookup_empty. apply eq_None_not_Some. intros [x (_ & k & _ & ?)%lookup_shown]. done.
Qed.

(** With a sound set of keys, the keyed rows that match are the filtered store. *)
Lemma shown_filtered kf m f (keys : gset CompoundKey) :
  (∀ id x, m !! id = Some x → live_filter_matches f x = true → ∃ k, kf id x = Some k ∧ k ∈ keys) →
  shown kf m (λ k x, bool_decide (k ∈ keys) && live_filter_matches f x) = filtered f m.
Proof.
  intros Hs. apply map_eq. intros id. apply option_eq. intros x. unfold filtered. rewrite lookup_shown, lookup_select.
  split.
  - intros (Hx & k & Ek & Hp). apply andb_true_iff in Hp as [_ ?]. done.
  - intros [Hx Hm]. split; [done|]. destruct (Hs id x Hx Hm) as (k & Ek & Hk). exists k. split; [done|].
    by rewrite bool_decide_true, Hm.
Qed.
End candidates.

(** * Views of field-filter queries

    How a query by value is built: [build_view] of the generated queries
    ([macros/src/item.rs]) over the source its route selects, and the fallback of
    [QueryFactory::cell_factory] ([core/query/registration.rs]) that selects from the whole
    store. *)

Section view.
Context {P F : Type} `{!CellMap (Item P), !HashOrder, !LiveFilterQuery P F}.
Abbreviation Rows := (gmap string (Item P)).
Implicit Types (f : F) (store : Rows) (idx : SourceIndex P).

(** [build_ids_source_map]: the cell of each id is subscribed to in turn, and delivers its
    current value. *)
Definition ids_source_map store (ids : list string) : Rows :=
  foldl (λ result id, match store !! id with
                      | Some item => <[id := item]> result
                      | None => delete id result
                      end) ∅ ids.

(** [filter_query_over_source]: the generated [test_entity] is [matches]. *)
Definition filter_query_over_source f (source : Rows) : Rows := select (live_filter_matches f) source.

(** [build_view]; the index is the one the registry has for the fields of the route. *)
Definition build_view f store (index_for : list string → CompoundFkExtractor P → SourceIndex P) : option Rows :=
  route ← query_route f;
  Some (filter_query_over_source f
    (match route with
     | RouteIds ids => ids_source_map store ids
     | RouteBelongsTo route =>
         un_result (build_belongs_to_union_source_map (rt_keys route)
                      (index_for (rt_field_names route) (rt_extract_fk route))).2
     end)).

(** [QueryFactory::cell_factory]. *)
Definition cell_factory f store index_for : Rows :=
  match build_view f store index_for with
  | Some view => view
  | None => select (live_filter_matches f) store
  end.

Lemma lookup_ids_source_map store ids id x :
  ids_source_map store ids !! id = Some x ↔ id ∈ ids ∧ store !! id = Some x.
Proof.
  unfold ids_source_map. induction ids as [|id' ids IH] using rev_ind; simpl.
  - rewrite lookup_empty, elem_of_nil. by split; [|intros [? _]].
  - rewrite foldl_app, elem_of_app, list_elem_of_singleton. simpl.
    destruct (decide (id' = id)) as [->|Hne].
    + destruct (store !! id) as [y|] eqn:Ey; rewrite ?lookup_insert_eq, ?lookup_delete_eq.
      * split; [intros [= ->]; by split; [right|]|by intros [_ ?]].
      * by split; [|intros [_ ?]].
    + destruct (store !! id') as [y|]; rewrite ?lookup_insert_ne, ?lookup_delete_ne, IH by done;
        split; intros [? ?]; (split; [|done]); [by left| |by left|]; by destruct_or!.
Qed.
End view.
