(* ===== verification/LiveTick.v ===== *)
(** * A tick of a live query

    The invariant between a live query, the store and the indexes it subscribes to, and its
    preservation when the filter changes. *)

From stdpp Require Import base strings numbers option countable gmap gmultiset sets list.
From S2P Require Import Prelude Order GraphTypes EdgeIds GraphIndex GraphQuery GraphWatch WatchProof SessionProof.
From S2P Require Import Filter QueryRoute SourceIndex SourceIndexProof SourceFollow LiveQuery LiveQueryProof.
From S2P Require Import SessionRun.

Section tick.
Context {P F : Type} `{!CellMap (Item P), !HashOrder, !LiveFilterQuery P F, !RoutedLaws P F}.
Abbreviation Rows := (gmap string (Item P)).
Implicit Types (w : LiveWorld P F) (m r rows : Rows) (f : F) (key : CompoundKey) (idx : SourceIndex P)
  (source : LiveSource P) (bucket : LiveBucket P) (φ : CompoundKey → Item P → bool).

(** ** Modes *)

Inductive mode := Scan | ByIds | ByIndex (field_names : list string).
Implicit Types (μ : mode).

Definition mode_of (route : option (QueryRoute P)) : mode :=
  match route with
  | None => Scan
  | Some (RouteIds _) => ByIds
  | Some (RouteBelongsTo route) => ByIndex (rt_field_names route)
  end.

Definition mode_names μ : option (list string) :=
  match μ with Scan => None | ByIds => Some ID_ROUTE_FIELD_NAMES | ByIndex names => Some names end.

(** The key under which a mode finds a row. *)
Definition mode_key μ (id : string) (item : Item P) : option CompoundKey :=
  match μ with
  | Scan => Some []
  | ByIds => Some [id]
  | ByIndex names => route_extractor (index_key names) item
  end.

(** A scan has every row in scope and no bucket. *)
Definition scope_keys (route : option (QueryRoute P)) : gset CompoundKey :=
  match route with None => {[ [] ]} | Some route => (split_query_route route).1.2 end.
Definition route_keys (route : option (QueryRoute P)) : gset CompoundKey :=
  match route with None => ∅ | Some route => (split_query_route route).1.2 end.

(** The source of a key in a mode: its bucket in the index of the mode, which it holds, or
    the map of its id. *)
Definition source_ok μ w key source : Prop :=
  match μ, source with
  | ByIndex names, IndexBucket i h =>
      i = index_key names ∧ ∃ idx, lw_indexes w !! i = Some idx ∧ si_buckets idx !! key = Some h ∧ h ∈ si_held idx
  | ByIds, IdRows (Some id) rows => key = [id] ∧ rows = build_ids_source_map (lw_store w) id
  | _, _ => False
  end.

Definition indexes_ok w : Prop :=
  ∀ i idx, lw_indexes w !! i = Some idx → index_alive idx = true →
    index_ok (lw_store w) idx ∧ si_dispatching idx = false ∧ si_extract idx = route_extractor i.

(** ** The invariant inside a tick *)
Record mid μ w φ : Prop := {
  mid_keyed : well_keyed (lw_store w);
  mid_indexes : indexes_ok w;
  mid_guards key bucket : ls_bucket_guards (lw_state w) !! key = Some bucket → source_ok μ w key (lb_source bucket);
  mid_filter_refs : ls_bucket_filter_refs (lw_state w) = lb_ref <$> ls_bucket_guards (lw_state w);
  mid_guard_refs key bucket : ls_bucket_guards (lw_state w) !! key = Some bucket → lb_ref bucket < lw_next_ref w;
  mid_result : lw_result w = shown (mode_key μ) (lw_store w) φ;
  mid_refs ref cell : lw_refs w !! ref = Some cell → ref < lw_next_ref w ∧ (lf_generation cell ≤ lw_generation w)%Z
}.

(** What the steps of a reconciliation leave alone. *)
Record frame w w' : Prop := {
  fr_store : lw_store w' = lw_store w;
  fr_generation : lw_generation w' = lw_generation w;
  fr_scan : ls_scan_guard (lw_state w') = ls_scan_guard (lw_state w);
  fr_scan_ref : ls_scan_filter_ref (lw_state w') = ls_scan_filter_ref (lw_state w);
  fr_names : ls_prev_route_field_names (lw_state w') = ls_prev_route_field_names (lw_state w)
}.

#[local] Instance frame_refl : Reflexive frame.
Proof. by intros w. Qed.
#[local] Instance frame_trans : Transitive frame.
Proof. intros w1 w2 w3 [] []. split; congruence. Qed.

Lemma held_alive idx h : h ∈ si_held idx → index_alive idx = true.
Proof.
  intros Hh. unfold index_alive. rewrite bool_decide_false; [done|]. intros E. rewrite E in Hh. by multiset_solver.
Qed.

Lemma id_rows_key m id : build_ids_source_map m id = key_rows (mode_key ByIds) m [id].
Proof.
  apply map_eq. intros k. apply option_eq. intros x. rewrite lookup_key_rows. unfold build_ids_source_map. simpl.
  destruct (m !! id) as [y|] eqn:Ey.
  - rewrite lookup_singleton_Some. naive_solver.
  - rewrite lookup_empty. naive_solver.
Qed.

(** The source of a key has the rows of the key. *)
Lemma source_rows_ok μ w key source :
  indexes_ok w → source_ok μ w key source → source_rows source w = key_rows (mode_key μ) (lw_store w) key.
Proof.
  intros HI. destruct μ as [| |names], source as [i h|[id|] rows]; simpl; try done.
  - intros [-> ->]. apply id_rows_key.
  - intros (-> & idx & E & Hk & Hh). rewrite E.
    destruct (HI _ _ E (held_alive _ _ Hh)) as (OK & Hidle & Hx). rewrite (idle_bucket _ _ _ _ OK Hidle Hk Hh).
    by rewrite Hx.
Qed.

(** ** Dropping sources *)

Lemma drop_source_frame source w :
  frame w (drop_source source w) ∧ lw_state (drop_source source w) = lw_state w ∧
  lw_result (drop_source source w) = lw_result w ∧ lw_refs (drop_source source w) = lw_refs w ∧
  lw_next_ref (drop_source source w) = lw_next_ref w.
Proof. by destruct source. Qed.

Lemma drop_source_indexes source w : indexes_ok w → indexes_ok (drop_source source w).
Proof.
  intros HI. destruct source as [i h|]; [|done]. intros j idx E Ha. simpl in E |- *.
  destruct (decide (i = j)) as [->|Hne].
  - rewrite lookup_alter_eq in E. apply fmap_Some in E as (idx0 & E & ->).
    assert (index_alive idx0 = true) as Ha0.
    { revert Ha. unfold index_alive. simpl. rewrite !orb_true_iff, !negb_true_iff, !bool_decide_eq_false.
      intros [Hn|?]; [left|by right]. intros E0. apply Hn. rewrite E0. multiset_solver. }
    destruct (HI _ _ E Ha0) as (OK & Hi & Hx). split; [by apply drop_ok|]. done.
  - rewrite lookup_alter_ne in E by done. by apply (HI j).
Qed.

Lemma drop_source_others μ w key source key' source' :
  indexes_ok w → source_ok μ w key source → source_ok μ w key' source' → key' ≠ key →
  source_ok μ (drop_source source w) key' source'.
Proof.
  intros HI Hs Hs' Hne. destruct μ as [| |names], source as [i h|[id|] rows], source' as [i' h'|[id'|] rows']; try done.
  destruct Hs as (-> & idx & E & Hk & Hh), Hs' as (-> & idx' & E' & Hk' & Hh'). simplify_eq.
  split; [done|]. exists (drop_bucket h idx). simpl. rewrite lookup_alter_eq, E. split; [done|]. split; [done|].
  simpl. assert (h' ≠ h) as Hhne.
  { intros ->. apply Hne. destruct (HI _ _ E (held_alive _ _ Hh)) as (OK & _). by eapply ok_injective. }
  multiset_solver.
Qed.

Lemma retract_bucket_mid μ w φ key bucket :
  mid μ w φ → ls_bucket_guards (lw_state w) !! key = Some bucket →
  let w' := retract_bucket w (key, bucket) in
  mid μ w' (test_key φ key (λ _, false)) ∧ frame w w' ∧ lw_refs w' = lw_refs w ∧
  ls_bucket_guards (lw_state w') = delete key (ls_bucket_guards (lw_state w)).
Proof.
  intros [K I G R L S B] E. unfold retract_bucket. set (w1 := with_result _ w). set (w2 := with_state _ w1).
  pose proof (G _ _ E) as Hs.
  destruct (drop_source_frame (lb_source bucket) w2) as (Fr & Es & Er & Ef & En).
  cbn zeta. split; [|split; [|split]].
  - split.
    + by rewrite (fr_store _ _ Fr).
    + by apply drop_source_indexes.
    + rewrite Es. simpl. intros k b [Hne Hk]%lookup_delete_Some.
      apply (drop_source_others μ w2 key); [done|exact Hs|exact (G _ _ Hk)|done].
    + rewrite Es. simpl. rewrite R. by rewrite fmap_delete.
    + rewrite Es, En. simpl. intros k b [_ Hk]%lookup_delete_Some. by eapply L.
    + rewrite Er, (fr_store _ _ Fr). simpl. rewrite S.
      rewrite (source_rows_ok μ w key) by done. apply remove_shown.
    + rewrite Ef, En, (fr_generation _ _ Fr). exact B.
  - trans w2; [done|done].
  - done.
  - by rewrite Es.
Qed.

Lemma mid_ext μ w φ φ' : (∀ k x, φ k x = φ' k x) → mid μ w φ → mid μ w φ'.
Proof. intros E []. split; try done. by rewrite <-(shown_ext _ _ _ _ E). Qed.

Lemma retract_all_mid μ l w φ :
  NoDup l.*1 → (∀ k b, (k, b) ∈ l → ls_bucket_guards (lw_state w) !! k = Some b) → mid μ w φ →
  let w' := foldl retract_bucket w l in
  mid μ w' (λ k x, negb (bool_decide (k ∈ l.*1)) && φ k x) ∧ frame w w' ∧ lw_refs w' = lw_refs w ∧
  (∀ k, ls_bucket_guards (lw_state w') !! k = if bool_decide (k ∈ l.*1) then None else ls_bucket_guards (lw_state w) !! k).
Proof.
  revert w φ. induction l as [|[key bucket] l IH]; intros w φ ND Hl M.
  - cbn zeta. simpl. split; [|done]. eapply mid_ext; [|exact M]. done.
  - rewrite fmap_cons in ND. apply NoDup_cons in ND as [Nk ND].
    destruct (retract_bucket_mid μ w φ key bucket M) as (M1 & F1 & R1 & G1); [apply Hl; left|].
    cbn zeta. cbn [foldl]. set (w1 := retract_bucket w (key, bucket)) in *.
    destruct (IH w1 (test_key φ key (λ _, false)) ND) as (M2 & F2 & R2 & G2); [|exact M1|].
    { intros k b Hin. rewrite G1. rewrite lookup_delete_ne; [apply Hl; by right|]. intros ->. apply Nk.
      apply list_elem_of_fmap. by exists (k, b). }
    split; [|split; [by trans w1|split; [congruence|]]].
    + eapply mid_ext; [|exact M2]. intros k x. rewrite fmap_cons. cbn [fst]. unfold test_key.
      destruct (decide (k = key)) as [->|Hne].
      * rewrite (bool_decide_true (key = key)), (bool_decide_true (key ∈ key :: _)) by (done || left).
        by rewrite andb_false_r.
      * rewrite (bool_decide_false (k = key)) by done.
        assert (bool_decide (k ∈ key :: l.*1) = bool_decide (k ∈ l.*1)) as ->; [|done].
        apply bool_decide_ext. rewrite elem_of_cons. naive_solver.
    + intros k. rewrite G2, G1, fmap_cons. cbn [fst]. destruct (decide (k = key)) as [->|Hne].
      * rewrite lookup_delete_eq, (bool_decide_true (key ∈ key :: l.*1)) by left. by case_bool_decide.
      * rewrite lookup_delete_ne by done.
        assert (bool_decide (k ∈ key :: l.*1) = bool_decide (k ∈ l.*1)) as ->; [|done].
        apply bool_decide_ext. rewrite elem_of_cons. naive_solver.
Qed.

Lemma drop_all_frame (l : list (CompoundKey * LiveBucket P)) w :
  indexes_ok w →
  let w' := foldl (λ w entry, drop_source (lb_source entry.2) w) w l in
  frame w w' ∧ lw_state w' = lw_state w ∧ lw_result w' = lw_result w ∧ lw_refs w' = lw_refs w ∧
  lw_next_ref w' = lw_next_ref w ∧ indexes_ok w'.
Proof.
  revert w. induction l as [|[k b] l IH]; intros w HI; [done|]. cbn zeta. cbn [foldl snd].
  destruct (drop_source_frame (lb_source b) w) as (F1 & E1 & E2 & E3 & E4).
  destruct (IH (drop_source (lb_source b) w)) as (F2 & E5 & E6 & E7 & E8 & I2); [by apply drop_source_indexes|].
  split; [by trans (drop_source (lb_source b) w)|]. split; [congruence|]. split; [congruence|]. split; [congruence|].
  by split; [congruence|].
Qed.

(** Clearing leaves nothing of the mode behind. *)
Lemma clear_mid μ μ' w φ :
  mid μ w φ →
  let w' := clear_live_result (clear_buckets w) in
  mid μ' w' (λ _ _, false) ∧ frame w w' ∧ lw_refs w' = lw_refs w ∧ ls_bucket_guards (lw_state w') = ∅.
Proof.
  intros [K I G R L S B]. unfold clear_live_result, clear_buckets.
  set (w1 := foldl _ w _).
  assert (frame w w1 ∧ lw_state w1 = lw_state w ∧ lw_result w1 = lw_result w ∧ lw_refs w1 = lw_refs w ∧
          lw_next_ref w1 = lw_next_ref w ∧ indexes_ok w1) as (Fr & Es & Er & Ef & En & I1).
  { unfold w1. by apply drop_all_frame. }
  cbn zeta. split; [|split; [|done]].
  - split; simpl; try done.
    + by rewrite (fr_store _ _ Fr).
    + by rewrite shown_none, remove_all.
    + by rewrite Ef, En, (fr_generation _ _ Fr).
  - destruct Fr. split; simpl; try done; by rewrite Es.
Qed.

(** ** Adding and refreshing buckets *)

(** A tick of generation [g] with filter [f] has dealt with the keys of [D]. *)
Record ticking μ w φ f g (D : list CompoundKey) : Prop := {
  tk_mid : mid μ w φ;
  tk_generation : lw_generation w = g;
  tk_done key bucket : key ∈ D → ls_bucket_guards (lw_state w) !! key = Some bucket →
    lw_refs w !! lb_ref bucket = Some (mkLiveFilter g f);
  tk_marked ref cell : lw_refs w !! ref = Some cell → lf_generation cell = g →
    ∃ key bucket, ls_bucket_guards (lw_state w) !! key = Some bucket ∧ lb_ref bucket = ref
}.

Lemma refresh_bucket_ticking μ w φ f g D key :
  ticking μ w φ f g D →
  let w' := refresh_bucket f g w key in
  ticking μ w' (if bool_decide (is_Some (ls_bucket_guards (lw_state w) !! key))
                then test_key φ key (live_filter_matches f) else φ) f g (key :: D) ∧
  frame w w' ∧ lw_state w' = lw_state w ∧ lw_indexes w' = lw_indexes w.
Proof.
  intros [M Eg Hd Hm]. unfold refresh_bucket. rewrite (mid_filter_refs _ _ _ M), lookup_fmap.
  destruct (ls_bucket_guards (lw_state w) !! key) as [bucket|] eqn:Ek; simpl; cbn zeta.
  - rewrite Ek. destruct M as [K I G R L S B].
    split; [|done]. split; simpl.
    + split; simpl; try done.
      * change (source_rows (lb_source bucket) (set_ref (lb_ref bucket) (mkLiveFilter g f) w))
          with (source_rows (lb_source bucket) w).
        rewrite (source_rows_ok μ w key), S by eauto. apply candidates_shown.
      * intros ref cell [[<- <-]|[_ E]]%lookup_insert_Some; [|by eapply B].
        split; [by eapply L|]. simpl. lia.
    + done.
    + intros k b [->|Hk]%elem_of_cons E.
      * rewrite Ek in E. injection E as <-. apply lookup_insert_eq.
      * destruct (decide (lb_ref bucket = lb_ref b)) as [->|Hne]; [apply lookup_insert_eq|].
        rewrite lookup_insert_ne by done. by eapply Hd.
    + intros ref cell [[<- <-]|[_ E]]%lookup_insert_Some Hg; [by exists key, bucket|by eapply Hm].
  - rewrite Ek. split; [|done]. split; try done.
    intros k b [->|Hk]%elem_of_cons E; [congruence|by eapply Hd].
Qed.

Lemma refresh_all_ticking μ l w φ f g D :
  ticking μ w φ f g D →
  let w' := foldl (refresh_bucket f g) w l in
  ∃ φ', ticking μ w' φ' f g (l ++ D) ∧ frame w w' ∧ lw_state w' = lw_state w ∧ lw_indexes w' = lw_indexes w ∧
  ∀ k x, φ' k x = if bool_decide (k ∈ l ∧ is_Some (ls_bucket_guards (lw_state w) !! k)) then live_filter_matches f x
                  else φ k x.
Proof.
  revert w φ D. induction l as [|key l IH]; intros w φ D T.
  - exists φ. do 4 (split; [done|]). intros k x. rewrite bool_decide_false; [done|].
    intros [Hk _]. by apply elem_of_nil in Hk.
  - destruct (refresh_bucket_ticking μ w φ f g D key T) as (T1 & F1 & S1 & I1). cbn zeta. cbn [foldl].
    set (w1 := refresh_bucket f g w key) in *. destruct (IH w1 _ _ T1) as (φ' & T2 & F2 & S2 & I2 & E2).
    exists φ'. split; [|split; [by trans w1|split; [congruence|split; [congruence|]]]].
    + destruct T2 as [M2 G2 D2 H2]. split; try done. intros k b Hk. apply D2.
      revert Hk. rewrite !elem_of_app, !elem_of_cons. naive_solver.
    + intros k x. rewrite E2, S1. destruct (decide (k = key)) as [->|Hne].
      * destruct (ls_bucket_guards (lw_state w) !! key) as [b|] eqn:Ek.
        -- rewrite (bool_decide_true (is_Some (Some b))) by by exists b.
           rewrite (bool_decide_true (key ∈ key :: l ∧ _)) by (split; [left|by exists b]).
           unfold test_key. rewrite (bool_decide_true (key = key)) by done. by destruct (bool_decide (key ∈ l ∧ _)).
        -- assert (¬ is_Some (None : option (LiveBucket P))) as Hn by by intros [? ?].
           by rewrite !bool_decide_false by tauto.
      * assert (bool_decide (k ∈ key :: l ∧ is_Some (ls_bucket_guards (lw_state w) !! k))
                = bool_decide (k ∈ l ∧ is_Some (ls_bucket_guards (lw_state w) !! k))) as ->.
        { apply bool_decide_ext. rewrite elem_of_cons. naive_solver. }
        destruct (bool_decide (k ∈ l ∧ _)); [done|]. destruct (bool_decide (is_Some _)); [|done].
        unfold test_key. by rewrite bool_decide_false.
Qed.

(** The index of the mode is registered and up to date. *)
Definition index_ready μ w : Prop :=
  match μ with
  | ByIndex names => ∃ idx, lw_indexes w !! index_key names = Some idx ∧ index_ok (lw_store w) idx ∧
      si_dispatching idx = false ∧ si_extract idx = route_extractor (index_key names)
  | _ => True
  end.

(** The shape of the arguments [make_source] gets in a mode. *)
Definition fits μ (field_names : list string) (extract_fk : option (CompoundFkExtractor P)) key : Prop :=
  match μ with
  | Scan => False
  | ByIds => extract_fk = None ∧ ∃ id, key = [id]
  | ByIndex names => field_names = names ∧ is_Some extract_fk
  end.

Lemma make_source_mid μ names ext w φ key w1 source :
  mid μ w φ → index_ready μ w → fits μ names ext key → make_source names ext key w = (w1, source) →
  mid μ w1 φ ∧ index_ready μ w1 ∧ source_ok μ w1 key source ∧ frame w w1 ∧ lw_state w1 = lw_state w ∧
  lw_refs w1 = lw_refs w ∧ lw_next_ref w1 = lw_next_ref w.
Proof.
  intros M HR HF E. destruct μ as [| |ns]; [done|..]; simpl in HF.
  - destruct HF as [-> (id & ->)]. simpl in E. injection E as <- <-. split; [done|]. split; [done|]. by split.
  - destruct HF as [-> [e ->]]. destruct HR as (idx & EI & OK & Hi & Hx). unfold make_source in E. rewrite EI in E.
    pose proof (bucket_for_ok (lw_store w) key idx OK) as OK'. pose proof (bucket_for_idle key idx) as [Hi' Hx'].
    pose proof (bucket_for_entry key idx) as [Hk Hh]. pose proof (λ ws, bucket_for_watches key idx ws) as HW.
    destruct (bucket_for key idx) as [idx' h]. simpl in *. injection E as <- <-. rewrite Hi in Hi'. rewrite Hx in Hx'.
    split; [|split; [|split; [|done]]].
    + destruct M as [K I G R L S B]. split; try done.
      * intros i j. simpl. intros [[<- <-]|[_ E]]%lookup_insert_Some Ha; [done|by apply I].
      * intros k b Hb. specialize (G k b Hb). destruct (lb_source b) as [i h'|]; simpl in G |- *; [|done].
        destruct G as (-> & idx0 & E0 & Hk0 & Hh0). rewrite EI in E0. injection E0 as <-. split; [done|].
        exists idx'. rewrite lookup_insert_eq. split; [done|]. apply (HW [(k, h')]); [|left].
        by intros k1 h1 [= -> ->]%list_elem_of_singleton.
    + exists idx'. simpl. by rewrite lookup_insert_eq.
    + split; [done|]. exists idx'. simpl. by rewrite lookup_insert_eq.
Qed.

Lemma test_key_twice φ key p k x : test_key (test_key φ key p) key p k x = test_key φ key p k x.
Proof. unfold test_key. by destruct (bool_decide (k = key)). Qed.

Lemma add_live_bucket_ticking μ names ext w φ f g D key :
  ticking μ w φ f g D → index_ready μ w → fits μ names ext key →
  let w' := add_live_bucket f g names ext w key in
  ∃ φ', ticking μ w' φ' f g D ∧ index_ready μ w' ∧ frame w w' ∧
  (∀ k, is_Some (ls_bucket_guards (lw_state w') !! k) ↔ k = key ∨ is_Some (ls_bucket_guards (lw_state w) !! k)) ∧
  (∀ k x, φ' k x = if bool_decide (k = key ∧ ls_bucket_guards (lw_state w) !! k = None) then live_filter_matches f x
                  else φ k x).
Proof.
  intros T HR HF. unfold add_live_bucket. destruct (ls_bucket_guards (lw_state w) !! key) as [b|] eqn:Ek.
  { exists φ. split; [done|]. split; [done|]. split; [done|]. split.
    - intros k. split; [by right|]. by intros [->|?].
    - intros k x. rewrite bool_decide_false; [done|]. intros [-> ?]. congruence. }
  destruct T as [M Eg Hd Hm].
  destruct (make_source names ext key w) as [w1 source] eqn:Es.
  destruct (make_source_mid _ _ _ _ _ _ _ _ M HR HF Es) as (M1 & HR1 & Hs1 & F1 & S1 & R1 & N1).
  pose proof (source_rows_ok μ w1 key source (mid_indexes _ _ _ M1) Hs1) as Hrows.
  set (rows := map_to_list (source_rows source w1)). destruct M1 as [K I G R L S B].
  set (w2 := with_result _ w1). unfold new_ref. set (w3 := mkLiveWorld _ _ _ _ _ _ _).
  assert (current_live_filter (lw_next_ref w2) w3 = Some f) as Ec.
  { unfold current_live_filter, w3. simpl. rewrite lookup_insert_eq. simpl.
    rewrite bool_decide_true; [done|]. by rewrite (fr_generation _ _ F1). }
  unfold live_callback. rewrite Ec. cbn [apply_live_diff].
  assert (apply_bucket_candidates (lw_result w3) f rows = shown (mode_key μ) (lw_store w1) (test_key φ key (live_filter_matches f))) as Eres.
  { unfold w3, w2. simpl. unfold rows. rewrite S, Hrows, candidates_shown, candidates_shown.
    apply shown_ext. intros k x. apply test_key_twice. }
  rewrite Eres. exists (test_key φ key (live_filter_matches f)).
  set (bk := mkLiveBucket source (lw_next_ref w2)).
  cbn zeta. split; [|split; [|split; [|split]]].
  - split; simpl.
    + split; simpl; try done.
      * intros k b [[<- <-]|[Hne Hb]]%lookup_insert_Some; [exact Hs1|by apply G].
      * by rewrite R, fmap_insert.
      * intros k b [[<- <-]|[Hne Hb]]%lookup_insert_Some; simpl; [lia|]. apply L in Hb. lia.
      * intros ref cell [[<- <-]|[_ E]]%lookup_insert_Some; simpl.
        -- split; [lia|]. rewrite (fr_generation _ _ F1). lia.
        -- apply B in E as [? ?]. split; [lia|done].
    + by rewrite (fr_generation _ _ F1).
    + intros k b Hk [[<- <-]|[Hne Hb]]%lookup_insert_Some; simpl; [apply lookup_insert_eq|].
      rewrite lookup_insert_ne; [rewrite R1; apply (Hd k); [done|by rewrite <-S1]|].
      apply L in Hb. lia.
    + intros ref cell [[<- <-]|[Hne E]]%lookup_insert_Some Hg.
      * exists key, bk. by rewrite lookup_insert_eq.
      * rewrite R1 in E. destruct (Hm ref cell E Hg) as (k & b & Hb & Hr). exists k, b. split; [|done].
        rewrite lookup_insert_ne, S1; [done|]. intros <-. congruence.
  - destruct μ; done.
  - destruct F1. split; done.
  - intros k. simpl. rewrite lookup_insert_is_Some, S1. destruct (decide (key = k)); naive_solver.
  - intros k x. unfold test_key. destruct (decide (k = key)) as [->|Hne].
    + rewrite (bool_decide_true (key = key)) by done. by rewrite (bool_decide_true (key = key ∧ _)).
    + rewrite (bool_decide_false (k = key)) by done. rewrite bool_decide_false; [done|]. by intros [? _].
Qed.

Lemma add_all_ticking μ names ext l w φ f g D :
  ticking μ w φ f g D → index_ready μ w → Forall (fits μ names ext) l →
  let w' := foldl (add_live_bucket f g names ext) w l in
  ∃ φ', ticking μ w' φ' f g D ∧ frame w w' ∧
  (∀ k, is_Some (ls_bucket_guards (lw_state w') !! k) ↔ k ∈ l ∨ is_Some (ls_bucket_guards (lw_state w) !! k)) ∧
  (∀ k x, φ' k x = if bool_decide (k ∈ l ∧ ls_bucket_guards (lw_state w) !! k = None) then live_filter_matches f x
                  else φ k x).
Proof.
  intros T HR HF. revert w φ T HR. induction HF as [|key l Hk _ IH]; intros w φ T HR.
  - exists φ. split; [done|]. split; [done|]. split.
    + intros k. rewrite elem_of_nil. tauto.
    + intros k x. rewrite bool_decide_false; [done|]. intros [Hk _]. by apply elem_of_nil in Hk.
  - destruct (add_live_bucket_ticking μ names ext w φ f g D key T HR Hk) as (φ1 & T1 & HR1 & F1 & G1 & E1).
    cbn zeta. cbn [foldl]. set (w1 := add_live_bucket f g names ext w key) in *.
    destruct (IH w1 φ1 T1 HR1) as (φ2 & T2 & F2 & G2 & E2). exists φ2. split; [done|]. split; [by trans w1|]. split.
    + intros k. rewrite G2, G1, elem_of_cons. tauto.
    + intros k x. rewrite E2, E1. assert (ls_bucket_guards (lw_state w1) !! k = None ↔
        k ≠ key ∧ ls_bucket_guards (lw_state w) !! k = None) as Hn.
      { rewrite !eq_None_not_Some, G1. tauto. }
      rewrite !(bool_decide_decide _). repeat case_decide; try done; exfalso; rewrite ?elem_of_cons in *; tauto.
Qed.

(** ** Between ticks *)

(** A live query between two ticks: what it shows it shows through its guards. *)
Record steady μ w φ : Prop := {
  sd_mid : mid μ w φ;
  sd_generation : (0 ≤ lw_generation w)%Z;
  sd_names : ls_prev_route_field_names (lw_state w) = mode_names μ;
  sd_index names : μ = ByIndex names → names ≠ ID_ROUTE_FIELD_NAMES;
  sd_scope : μ ≠ Scan → ∀ k x, φ k x = true → is_Some (ls_bucket_guards (lw_state w) !! k);
  sd_scan : μ = Scan → ls_bucket_guards (lw_state w) = ∅ ∧
    ∀ ref, ls_scan_guard (lw_state w) = Some ref → ls_scan_filter_ref (lw_state w) = Some ref ∧ ref < lw_next_ref w;
  sd_no_scan : μ ≠ Scan → ls_scan_guard (lw_state w) = None
}.

(** The subscriptions a live query has. *)
Definition subscribed w (ref : nat) : Prop :=
  (∃ key bucket, ls_bucket_guards (lw_state w) !! key = Some bucket ∧ lb_ref bucket = ref) ∨
  ls_scan_guard (lw_state w) = Some ref.

Definition filter_test f : CompoundKey → Item P → bool :=
  λ k x, bool_decide (k ∈ scope_keys (query_route f)) && live_filter_matches f x.

Record live_ok f w : Prop := {
  lo_steady : steady (mode_of (query_route f)) w (filter_test f);
  lo_guards k : is_Some (ls_bucket_guards (lw_state w) !! k) ↔ k ∈ route_keys (query_route f);
  lo_scan : query_route f = None → is_Some (ls_scan_guard (lw_state w));
  lo_current ref : subscribed w ref → lw_refs w !! ref = Some (mkLiveFilter (lw_generation w) f);
  lo_marked ref cell : lw_refs w !! ref = Some cell → lf_generation cell = lw_generation w → subscribed w ref
}.

(** The scope of a filter contains the rows that match it. *)
Lemma scope_sound f m id x :
  well_keyed m → m !! id = Some x → live_filter_matches f x = true →
  ∃ k, mode_key (mode_of (query_route f)) id x = Some k ∧ k ∈ scope_keys (query_route f).
Proof.
  intros K Hx Hm. destruct (query_route f) as [[ids|route]|] eqn:Er; simpl.
  - exists [id]. split; [done|]. apply elem_of_list_to_set, list_elem_of_fmap. exists id. split; [done|].
    rewrite <-(K id x Hx). by eapply ids_route_sound.
  - destruct (belongs_to_route_sound f route x Er Hm) as (k & Ek & Hk). exists k. split.
    + by rewrite <-Ek, (belongs_to_route_extractor f route Er).
    + by apply elem_of_list_to_set.
  - exists []. split; [done|]. by apply elem_of_singleton.
Qed.

Lemma shown_scope f m : well_keyed m → shown (mode_key (mode_of (query_route f))) m (filter_test f) = filtered f m.
Proof. intros K. apply shown_filtered. intros id x Hx Hm. by apply (scope_sound f m). Qed.

Lemma live_ok_result f w : live_ok f w → lw_result w = filtered f (lw_store w).
Proof.
  intros [[M _ _ _ _ _ _] _ _ _ _]. rewrite (mid_result _ _ _ M). apply shown_scope. by apply M.
Qed.

(** A late callback of a dropped subscription finds an old generation. *)
Lemma late_callback f w ref scope d : live_ok f w → ¬ subscribed w ref → live_callback ref scope d w = w.
Proof.
  intros L Hn. unfold live_callback, current_live_filter.
  destruct (lw_refs w !! ref) as [cell|] eqn:E; [|done]. case_bool_decide as Eg; [|done].
  exfalso. apply Hn. by eapply lo_marked.
Qed.

(** ** A tick *)

Lemma mode_names_inj μ μ' :
  (∀ names, μ = ByIndex names → names ≠ ID_ROUTE_FIELD_NAMES) →
  (∀ names, μ' = ByIndex names → names ≠ ID_ROUTE_FIELD_NAMES) → mode_names μ = mode_names μ' → μ = μ'.
Proof.
  intros H1 H2. destruct μ, μ'; simpl; intros E; simplify_eq; try done; exfalso;
    [by eapply H2|by eapply H1].
Qed.

Lemma mode_of_names f names : mode_of (query_route f) = ByIndex names → names ≠ ID_ROUTE_FIELD_NAMES.
Proof.
  destruct (query_route f) as [[ids|route]|] eqn:Er; simpl; [done| |done]. intros [= <-]. by eapply belongs_to_route_names.
Qed.

Lemma source_index_ready f route w φ :
  query_route f = Some (RouteBelongsTo route) → mid (mode_of (query_route f)) w φ →
  let w' := belongs_to_source_index_for (rt_field_names route) (rt_extract_fk route) w in
  mid (mode_of (query_route f)) w' φ ∧ index_ready (mode_of (query_route f)) w' ∧ frame w w' ∧
  lw_state w' = lw_state w ∧ lw_refs w' = lw_refs w ∧ lw_next_ref w' = lw_next_ref w.
Proof.
  intros Er M. rewrite Er in *. simpl in M |- *. unfold belongs_to_source_index_for.
  pose proof (belongs_to_route_extractor f route Er) as Hx. fold (index_key (rt_field_names route)) in Hx.
  set (i := index_key (rt_field_names route)) in *.
  assert ((∀ idx, lw_indexes w !! i = Some idx → index_alive idx = false) →
    let w' := with_indexes (<[i := index_new (rt_extract_fk route) (lw_store w)]> (lw_indexes w)) w in
    mid (ByIndex (rt_field_names route)) w' φ ∧ index_ready (ByIndex (rt_field_names route)) w' ∧ frame w w' ∧
    lw_state w' = lw_state w ∧ lw_refs w' = lw_refs w ∧ lw_next_ref w' = lw_next_ref w) as Hfresh.
  { intros Hdead. destruct (index_new_ok (rt_extract_fk route) (lw_store w)) as (OK & Hi & Ex & Eh).
    cbn zeta. split; [|split; [|done]].
    - destruct M as [K I G R L S B]. split; try done.
      + intros j idx. simpl. intros [[<- <-]|[_ E]]%lookup_insert_Some Ha; [|by apply I].
        split; [done|]. split; [done|]. by rewrite Ex.
      + intros k b Hb. specialize (G k b Hb). destruct (lb_source b) as [j h|]; simpl in G |- *; [|done].
        destruct G as (-> & idx & E & Hk & Hh). exfalso. fold i in E. pose proof (held_alive _ _ Hh) as Ha.
        by rewrite (Hdead idx E) in Ha.
    - simpl. exists (index_new (rt_extract_fk route) (lw_store w)). fold i. rewrite lookup_insert_eq.
      split; [done|]. split; [done|]. split; [done|]. by rewrite Ex. }
  destruct (lw_indexes w !! i) as [idx|] eqn:E; [|by apply Hfresh].
  destruct (index_alive idx) eqn:Ea; [|by apply Hfresh; intros ? [= <-]].
  split; [done|]. split; [|done]. exists idx. fold i. split; [done|]. by eapply (mid_indexes _ _ _ M).
Qed.

Lemma iterate_keys_of_spec (keys : gset CompoundKey) k : k ∈ iterate_keys_of keys ↔ k ∈ keys.
Proof.
  unfold iterate_keys_of. rewrite list_elem_of_fmap. split.
  - intros ([k' []] & -> & Hin). apply iterate_lookup, lookup_gset_to_gmap_Some in Hin as [? _]. done.
  - intros Hk. exists (k, tt). split; [done|]. apply iterate_lookup, lookup_gset_to_gmap_Some. done.
Qed.

(** No cell has the generation of the tick yet. *)
Definition unmarked w : Prop := ∀ ref cell, lw_refs w !! ref = Some cell → (lf_generation cell < lw_generation w)%Z.

Lemma reconcile_existing_ticking μ w φ f (new_keys : gset CompoundKey) :
  mid μ w φ → unmarked w → (∀ k x, φ k x = true → is_Some (ls_bucket_guards (lw_state w) !! k)) →
  let w' := reconcile_existing_buckets f new_keys (lw_generation w) w in
  ∃ φ', ticking μ w' φ' f (lw_generation w) (iterate_keys_of new_keys) ∧ frame w w' ∧
  (∀ k, is_Some (ls_bucket_guards (lw_state w') !! k) → k ∈ new_keys) ∧
  (∀ k x, φ' k x = true → k ∈ new_keys) ∧
  (∀ k x, is_Some (ls_bucket_guards (lw_state w') !! k) → φ' k x = live_filter_matches f x).
Proof.
  intros M Hun Hφ. unfold reconcile_existing_buckets.
  set (l := List.filter _ (iterate (ls_bucket_guards (lw_state w)))).
  assert (∀ k b, (k, b) ∈ l ↔ ls_bucket_guards (lw_state w) !! k = Some b ∧ k ∉ new_keys) as Hl.
  { intros k b. unfold l. rewrite list_elem_of_In, filter_In, <-list_elem_of_In, iterate_lookup. simpl.
    by rewrite negb_true_iff, bool_decide_eq_false. }
  assert (NoDup l.*1) as ND.
  { unfold l. pose proof (iterate_keys (ls_bucket_guards (lw_state w))) as NDi. revert NDi.
    generalize (iterate (ls_bucket_guards (lw_state w))) as it. intros it. induction it as [|[k b] it IH]; [done|].
    rewrite fmap_cons. intros [Nk NDi]%NoDup_cons. cbn [List.filter fst]. case_bool_decide; simpl; [by apply IH|].
    apply NoDup_cons. split; [|by apply IH]. intros ([k' b'] & -> & Hin)%list_elem_of_fmap. apply Nk.
    apply list_elem_of_In, filter_In in Hin as [Hin%list_elem_of_In _]. apply list_elem_of_fmap. by exists (k', b'). }
  assert (∀ k, k ∈ l.*1 ↔ is_Some (ls_bucket_guards (lw_state w) !! k) ∧ k ∉ new_keys) as Hlk.
  { intros k. rewrite list_elem_of_fmap. split.
    - intros ([k' b] & -> & [? ?]%Hl). split; [by exists b|done].
    - intros [[b Hb] Hn]. exists (k, b). split; [done|]. by apply Hl. }
  destruct (retract_all_mid μ l w φ ND) as (M1 & F1 & R1 & G1); [by intros k b [? _]%Hl|done|].
  cbn zeta. set (w1 := foldl retract_bucket w l) in *.
  assert (ticking μ w1 (λ k x, negb (bool_decide (k ∈ l.*1)) && φ k x) f (lw_generation w) []) as T1.
  { split; [done|apply F1| |].
    - intros k b Hk. by apply elem_of_nil in Hk.
    - intros ref cell E Eg. rewrite R1 in E. apply Hun in E. lia. }
  destruct (refresh_all_ticking μ (iterate_keys_of new_keys) _ _ _ _ _ T1) as (φ' & T2 & F2 & S2 & I2 & E2).
  exists φ'. rewrite app_nil_r in T2. split; [done|]. split; [by trans w1|]. rewrite S2.
  assert (∀ k, is_Some (ls_bucket_guards (lw_state w1) !! k) → k ∈ new_keys) as Hnew.
  { intros k. rewrite G1. case_bool_decide as Ek; [by intros [? ?]|]. intros Hk.
    destruct (decide (k ∈ new_keys)); [done|]. exfalso. apply Ek. by apply Hlk. }
  split; [done|]. split.
  - intros k x. rewrite E2. destruct (decide (k ∈ new_keys)) as [|Hn]; [done|].
    rewrite bool_decide_false by (rewrite iterate_keys_of_spec; tauto).
    intros [Hk%negb_true_iff%bool_decide_eq_false Hp%Hφ]%andb_true_iff. exfalso. apply Hk. by apply Hlk.
  - intros k x Hk. rewrite E2. rewrite bool_decide_true; [done|]. rewrite iterate_keys_of_spec. split; [by apply Hnew|done].
Qed.

Lemma split_route_spec f route names keys ext :
  query_route f = Some route → split_query_route route = (names, keys, ext) →
  mode_names (mode_of (query_route f)) = Some names ∧ route_keys (query_route f) = keys ∧
  scope_keys (query_route f) = keys ∧ Forall (fits (mode_of (query_route f)) names ext) (iterate_keys_of keys) ∧
  mode_of (query_route f) ≠ Scan.
Proof.
  intros Er E. rewrite Er. simpl. rewrite E. destruct route as [ids|route]; simpl in E; injection E as <- <- <-.
  - split; [done|]. split; [done|]. split; [done|]. split; [|done]. apply Forall_forall. intros k Hk. split; [done|].
    apply iterate_keys_of_spec, elem_of_list_to_set, list_elem_of_fmap in Hk as (id & -> & _). by exists id.
  - split; [done|]. split; [done|]. split; [done|]. split; [|done]. apply Forall_forall. intros k Hk. by split.
Qed.

(** The missing buckets are added, once the index of the route has been looked up. *)
Definition add_missing f (generation : Z) (names : list string) (ext : option (CompoundFkExtractor P)) (keys : gset CompoundKey) w : LiveWorld P F :=
  if existsb (λ key, negb (bool_decide (is_Some (ls_bucket_guards (lw_state w) !! key)))) (iterate_keys_of keys)
  then
    let w := match ext with Some ext => belongs_to_source_index_for names ext w | None => w end in
    foldl (add_live_bucket f generation names ext) w (iterate_keys_of keys)
  else w.

Lemma add_missing_ticking w φ f route names keys ext :
  query_route f = Some route → split_query_route route = (names, keys, ext) →
  ticking (mode_of (query_route f)) w φ f (lw_generation w) (iterate_keys_of keys) →
  (∀ k, is_Some (ls_bucket_guards (lw_state w) !! k) → k ∈ keys) →
  (∀ k x, φ k x = true → k ∈ keys) →
  (∀ k x, is_Some (ls_bucket_guards (lw_state w) !! k) → φ k x = live_filter_matches f x) →
  let w' := add_missing f (lw_generation w) names ext keys w in
  ticking (mode_of (query_route f)) w' (filter_test f) f (lw_generation w) (iterate_keys_of keys) ∧ frame w w' ∧
  (∀ k, is_Some (ls_bucket_guards (lw_state w') !! k) ↔ k ∈ keys).
Proof.
  intros Er Esp T Hg Hφ Hm. pose proof (split_route_spec f route names keys ext Er Esp) as (_ & _ & Hsc & HF & _).
  assert (∀ φ' w', ticking (mode_of (query_route f)) w' φ' f (lw_generation w) (iterate_keys_of keys) →
    (∀ k x, φ' k x = bool_decide (k ∈ keys) && live_filter_matches f x) →
    ticking (mode_of (query_route f)) w' (filter_test f) f (lw_generation w) (iterate_keys_of keys)) as Hext.
  { intros φ' w' [M ? ? ?] E. split; try done. eapply mid_ext; [|exact M]. intros k x. unfold filter_test. by rewrite Hsc. }
  unfold add_missing. destruct (existsb _ _) eqn:Eex.
  - set (w1 := match ext with Some ext => belongs_to_source_index_for names ext w | None => w end).
    assert (ticking (mode_of (query_route f)) w1 φ f (lw_generation w) (iterate_keys_of keys) ∧
            index_ready (mode_of (query_route f)) w1 ∧ frame w w1 ∧ lw_state w1 = lw_state w) as (T1 & HR1 & F1 & S1).
    { unfold w1. destruct route as [ids|route]; simpl in Esp; injection Esp as <- <- <-.
      - split; [done|]. split; [by rewrite Er|done].
      - destruct T as [M Eg Hd Hmk].
        destruct (source_index_ready f route w φ Er M) as (M1 & HR1 & F1 & S1 & R1 & N1).
        split; [|done]. split; [done|by rewrite (fr_generation _ _ F1)| |].
        + rewrite S1, R1. exact Hd.
        + rewrite S1, R1. exact Hmk. }
    destruct (add_all_ticking _ names ext (iterate_keys_of keys) w1 φ f _ _ T1 HR1 HF) as (φ' & T2 & F2 & G2 & E2).
    cbn zeta. split; [|split; [by trans w1|]].
    + eapply Hext; [exact T2|]. intros k x. rewrite E2, S1. rewrite !(bool_decide_decide _).
      destruct (decide (k ∈ keys)) as [Hk|Hk].
      * destruct (ls_bucket_guards (lw_state w) !! k) as [b|] eqn:Ek.
        -- rewrite decide_False by (by intros [_ ?]). simpl. apply Hm. rewrite Ek. by exists b.
        -- rewrite decide_True; [done|]. by rewrite iterate_keys_of_spec.
      * rewrite decide_False by (rewrite iterate_keys_of_spec; tauto). simpl.
        destruct (φ k x) eqn:Ep; [|done]. exfalso. by eapply Hk, Hφ.
    + intros k. rewrite G2, S1, iterate_keys_of_spec. split; [intros [?|?]; [done|by apply Hg]|by left].
  - assert (∀ k, k ∈ keys → is_Some (ls_bucket_guards (lw_state w) !! k)) as Hall.
    { intros k Hk. destruct (decide (is_Some (ls_bucket_guards (lw_state w) !! k))) as [|Hn]; [done|]. exfalso.
      apply not_true_iff_false in Eex. apply Eex. apply existsb_exists. exists k.
      split; [apply list_elem_of_In, iterate_keys_of_spec; done|]. by rewrite bool_decide_false. }
    split; [|split; [done|]].
    + eapply Hext; [exact T|]. intros k x. case_bool_decide as Hk; [by apply Hm, Hall|]. simpl.
      destruct (φ k x) eqn:Ep; [|done]. exfalso. by eapply Hk, Hφ.
    + intros k. split; [apply Hg|apply Hall].
Qed.

Lemma mid_state μ w φ state :
  ls_bucket_guards state = ls_bucket_guards (lw_state w) →
  ls_bucket_filter_refs state = ls_bucket_filter_refs (lw_state w) → mid μ w φ → mid μ (with_state state w) φ.
Proof. intros E1 E2 [K I G R L S B]. split; simpl; try done; rewrite ?E1, ?E2; done. Qed.

Lemma reconcile_indexed_ok μ w φ f route :
  steady μ w φ → unmarked w → query_route f = Some route →
  let w' := reconcile_indexed_live_query f route (lw_generation w) w in
  live_ok f w' ∧ lw_store w' = lw_store w ∧ lw_generation w' = lw_generation w.
Proof.
  intros [M Hg0 Hn Hix Hsc Hs Hns] Hun Er. unfold reconcile_indexed_live_query.
  set (w1 := with_state _ w). destruct (split_query_route route) as [[names keys] ext] eqn:Esp.
  pose proof (split_route_spec f route names keys ext Er Esp) as (Hnames & Hrk & Hsk & HF & Hnsc).
  set (w2 := if bool_decide _ then w1 else _).
  assert (mid μ w1 φ) as M1 by by apply mid_state.
  assert (∃ φ2, mid (mode_of (query_route f)) w2 φ2 ∧ frame w1 w2 ∧ lw_refs w2 = lw_refs w1 ∧
    ∀ k x, φ2 k x = true → is_Some (ls_bucket_guards (lw_state w2) !! k)) as (φ2 & M2 & F2 & R2 & Hsc2).
  { unfold w2. case_bool_decide as En.
    - simpl in En. exists φ. assert (μ = mode_of (query_route f)) as ->.
      { apply mode_names_inj; [done|apply mode_of_names|]. congruence. }
      split; [done|]. split; [done|]. split; [done|]. intros k x. by apply Hsc.
    - exists (λ _ _, false). destruct (clear_mid μ (mode_of (query_route f)) w1 φ M1) as (M2 & F2 & R2 & G2). done. }
  assert (lw_generation w2 = lw_generation w) as Eg2 by apply F2.
  assert (unmarked w2) as Hun2 by (intros ref cell; rewrite R2, Eg2; apply Hun).
  destruct (reconcile_existing_ticking _ w2 φ2 f keys M2 Hun2 Hsc2) as (φ3 & T3 & F3 & G3 & P3 & E3).
  rewrite Eg2 in T3, F3, G3, E3. set (w3 := reconcile_existing_buckets f keys (lw_generation w) w2) in *.
  assert (lw_generation w3 = lw_generation w) as Eg3 by (rewrite (fr_generation _ _ F3); done).
  rewrite <-Eg3 in T3. destruct (add_missing_ticking w3 φ3 f route names keys ext Er Esp T3 G3 P3 E3) as (T4 & F4 & G4).
  rewrite Eg3 in T4, F4, G4. fold (add_missing f (lw_generation w) names ext keys w3).
  set (w4 := add_missing f (lw_generation w) names ext keys w3) in *. cbn zeta.
  destruct T4 as [M4 Eg4 D4 K4].
  assert (ls_scan_guard (lw_state w4) = None) as Hscan.
  { by rewrite (fr_scan _ _ F4), (fr_scan _ _ F3), (fr_scan _ _ F2). }
  split; [|split; [|exact Eg4]].
  - split; simpl.
    + split; simpl; try done.
      * by apply mid_state.
      * by rewrite Eg4.
      * intros ns. apply mode_of_names.
      * intros _ k x [Hk _]%andb_true_iff. apply bool_decide_eq_true in Hk. apply G4. by rewrite <-Hsk.
    + intros k. by rewrite G4, Hrk.
    + by rewrite Er.
    + intros ref [(k & b & Hb & <-)|Hr]; simpl in *; [|congruence]. rewrite Eg4. apply (D4 k); [|done].
      apply iterate_keys_of_spec, G4. by exists b.
    + intros ref cell E Ec. left. simpl. apply (K4 ref cell E). congruence.
  - simpl. by rewrite (fr_store _ _ F4), (fr_store _ _ F3), (fr_store _ _ F2).
Qed.

(** In scan mode the whole store is in scope. *)
Lemma shown_sub kf m φ : shown kf m φ ⊆ m.
Proof. apply map_filter_subseteq. Qed.

(** What a scan tick starts from, once the buckets of a route have been cleared. *)
Definition scan_start w : LiveWorld P F :=
  if bool_decide (is_Some (ls_prev_route_field_names (lw_state w))) then
    let w := clear_live_result (clear_buckets w) in
    let state := lw_state w in
    with_state (mkLiveState (ls_bucket_guards state) (ls_bucket_filter_refs state) (ls_scan_guard state)
                  (ls_scan_filter_ref state) None) w
  else w.

Lemma scan_start_spec μ w φ :
  steady μ w φ →
  ∃ φ', steady Scan (scan_start w) φ' ∧ lw_store (scan_start w) = lw_store w ∧
    lw_generation (scan_start w) = lw_generation w ∧ lw_refs (scan_start w) = lw_refs w.
Proof.
  intros [M Hg0 Hn Hix Hsc Hs Hns]. unfold scan_start. case_bool_decide as E.
  - destruct (clear_mid μ Scan w φ M) as (M2 & F2 & R2 & G2).
    assert (μ ≠ Scan) as Hne by (intros ->; rewrite Hn in E; by destruct E). exists (λ _ _, false).
    set (w2 := clear_live_result (clear_buckets w)) in *. clearbody w2.
    split; [|split; [|split]]; simpl; try apply F2; [|done].
    split; simpl; try done.
    + by apply mid_state.
    + by rewrite (fr_generation _ _ F2).
    + intros _. split; [done|]. intros ref. rewrite (fr_scan _ _ F2), Hns by done. done.
  - exists φ. assert (μ = Scan) as -> by (destruct μ; [done|..]; exfalso; apply E; rewrite Hn; simpl; by eexists).
    by split.
Qed.

Lemma live_callback_current ref scope d w f :
  lw_refs w !! ref = Some (mkLiveFilter (lw_generation w) f) →
  live_callback ref scope d w = with_result (apply_live_diff (lw_result w) d f scope) w.
Proof.
  intros E. unfold live_callback, current_live_filter. rewrite E. simpl. by rewrite bool_decide_true.
Qed.

Lemma reconcile_scan_ok μ w φ f :
  steady μ w φ → unmarked w → query_route f = None →
  let w' := reconcile_scan_live_query f (lw_generation w) w in
  live_ok f w' ∧ lw_store w' = lw_store w ∧ lw_generation w' = lw_generation w.
Proof.
  intros St Hun Er. unfold reconcile_scan_live_query. fold (scan_start w).
  destruct (scan_start_spec μ w φ St) as (φ1 & [M Hg0 Hn Hix _ Hs _] & E1 & E2 & E3).
  set (w1 := scan_start w) in *. destruct (Hs eq_refl) as [Hgd Hsg].
  assert (unmarked w1) as Hun1 by (intros ref cell; rewrite E2, E3; apply Hun).
  assert (∀ r, r ⊆ lw_store w1 →
    reconcile_full_scope_membership r f (map_to_list (lw_store w1)) = shown (mode_key Scan) (lw_store w1) (filter_test f)) as Hfull.
  { intros r Hr. rewrite full_scope_filtered by done. symmetry. pose proof (shown_scope f (lw_store w1) (mid_keyed _ _ _ M)) as Hsh.
    by rewrite Er in Hsh. }
  destruct M as [K I G R L S B].
  assert (lw_result w1 ⊆ lw_store w1) as Hsub by (rewrite S; apply shown_sub).
  assert (∀ w2, lw_store w2 = lw_store w1 → lw_indexes w2 = lw_indexes w1 → ls_bucket_guards (lw_state w2) = ∅ →
    ls_bucket_filter_refs (lw_state w2) = ∅ → lw_result w2 = shown (mode_key Scan) (lw_store w1) (filter_test f) →
    lw_generation w2 = lw_generation w1 → ls_prev_route_field_names (lw_state w2) = None →
    (∀ ref cell, lw_refs w2 !! ref = Some cell → ref < lw_next_ref w2 ∧ (lf_generation cell ≤ lw_generation w2)%Z) →
    ∀ ref, ls_scan_guard (lw_state w2) = Some ref → ls_scan_filter_ref (lw_state w2) = Some ref →
    lw_refs w2 !! ref = Some (mkLiveFilter (lw_generation w1) f) →
    (∀ ref' cell, lw_refs w2 !! ref' = Some cell → lf_generation cell = lw_generation w1 → ref' = ref) →
    live_ok f w2 ∧ lw_store w2 = lw_store w ∧ lw_generation w2 = lw_generation w) as Hend.
  { intros w2 A1 A2 A3 A4 A5 A6 A7 A8 ref A9 A10 A11 A12. split; [|by split; congruence]. split; rewrite ?Er; simpl.
    - split; simpl; try done.
      + split; simpl; rewrite ?A1; try done.
        * unfold indexes_ok. by rewrite A1, A2.
        * intros k b. by rewrite A3.
        * by rewrite A3, A4.
        * intros k b. by rewrite A3.
      + by rewrite A6.
      + intros _. split; [done|]. intros ref'. rewrite A9. intros [= <-]. split; [done|]. by apply (A8 _ _ A11).
    - intros k. rewrite A3. by split; [intros [? ?]|].
    - intros _. by exists ref.
    - intros ref' [(k & b & Hb & _)|Hr]; [by rewrite A3 in Hb|]. rewrite A9 in Hr. injection Hr as <-. by rewrite A6.
    - intros ref' cell E Eg. right. rewrite A9. f_equal. symmetry. apply (A12 ref' cell); [done|congruence]. }
  destruct (ls_scan_guard (lw_state w1)) as [ref|] eqn:Esg.
  - destruct (Hsg ref eq_refl) as [Hsr Hlt].
    cbn [with_result lw_state]. rewrite Esg, Hsr. apply (Hend _) with (ref := ref); simpl; try done.
    + by rewrite R, Hgd, fmap_empty.
    + by apply Hfull.
    + intros ref' cell [[<- <-]|[_ E]]%lookup_insert_Some; simpl; [split; [done|lia]|by apply B].
    + rewrite lookup_insert_eq. by rewrite E2.
    + intros ref' cell [[<- <-]|[_ E]]%lookup_insert_Some Eg; [done|]. apply Hun1 in E. lia.
  - cbn [with_result lw_state]. rewrite Esg. unfold new_ref. cbn zeta.
    rewrite (live_callback_current _ _ _ _ f); [|simpl; by rewrite lookup_insert_eq, E2].
    cbn [apply_live_diff].
    apply (Hend _) with (ref := lw_next_ref w1); simpl; try done.
    + by rewrite R, Hgd, fmap_empty.
    + rewrite (Hfull (lw_result w1)) by done. apply Hfull, shown_sub.
    + intros ref' cell [[<- <-]|[_ E]]%lookup_insert_Some; simpl; [split; [lia|lia]|].
      apply B in E as [? ?]. split; [lia|done].
    + rewrite lookup_insert_eq. by rewrite E2.
    + intros ref' cell [[<- <-]|[_ E]]%lookup_insert_Some Eg; [done|]. apply Hun1 in E. lia.
Qed.

(** ** A change of filter *)

Lemma live_tick_ok μ w φ f :
  steady μ w φ → (lw_generation w < u64_max)%Z →
  live_ok f (live_tick f w) ∧ lw_store (live_tick f w) = lw_store w ∧
  lw_generation (live_tick f w) = (lw_generation w + 1)%Z.
Proof.
  intros [M Hg0 Hn Hix Hsc Hs Hns] Hb. unfold live_tick.
  assert (sat_add (lw_generation w) 1 = (lw_generation w + 1)%Z) as -> by (apply sat_add_exact; lia).
  assert (fetch_add (lw_generation w) 1 = (lw_generation w + 1)%Z) as ->.
  { unfold fetch_add. apply Z.mod_small. lia. }
  set (w0 := mkLiveWorld _ _ _ _ _ _ _).
  assert (steady μ w0 φ) as S0.
  { split; try done.
    - destruct M as [K I G R L S B]. split; try done. intros ref cell E. apply B in E as [? ?]. split; [done|]. simpl. lia.
    - simpl. lia. }
  assert (unmarked w0) as Hun.
  { intros ref cell E. simpl in *. apply (mid_refs _ _ _ M) in E as [? ?]. lia. }
  unfold reconcile_live_query. change (lw_generation w + 1)%Z with (lw_generation w0).
  destruct (query_route f) as [route|] eqn:Er.
  - by apply (reconcile_indexed_ok μ w0 φ f route).
  - by apply (reconcile_scan_ok μ w0 φ f).
Qed.

Lemma query_live_ok store f :
  well_keyed store → live_ok f (query_live store f) ∧ lw_store (query_live store f) = store ∧
  lw_generation (query_live store f) = 1%Z.
Proof.
  intros K. unfold query_live. set (w0 := mkLiveWorld _ _ _ _ _ _ _).
  destruct (live_tick_ok Scan w0 (λ _ _, false) f) as (L & S & E); [|simpl; unfold u64_max; lia|done].
  split; simpl; try done. split; simpl; try done. by rewrite shown_none.
Qed.
End tick.

(** * A live query and the store

    A diff of the store reaches the live query through the index of its route, the cells of
    its ids or its scan subscription; each of them leaves the result equal to the filtered
    store. *)

Section store.
Context {P F : Type} `{!CellMap (Item P), !HashOrder, !LiveFilterQuery P F, !RoutedLaws P F}.
Abbreviation Rows := (gmap string (Item P)).
Implicit Types (w v : LiveWorld P F) (m r rows : Rows) (f : F) (d : MapDiff (Item P)) (key : CompoundKey)
  (idx : SourceIndex P) (bucket : LiveBucket P) (actions : list (BucketAction P)).

Lemma apply_diff_keyed d m : diff_valid d m → diff_keyed d → well_keyed m → well_keyed (apply_diff d m).
Proof.
  revert m. induction d as [entries|k x|k x|k x y|changes IH] using MapDiff_rect'; intros m V D K.
  - rewrite apply_initial by done. intros id x Hx%elem_of_list_to_map_2. by apply D.
  - rewrite apply_insert. intros id z [[<- <-]|[_ Hz]]%lookup_insert_Some; [done|by apply K].
  - rewrite apply_remove. intros id z [_ Hz]%lookup_delete_Some. by apply K.
  - rewrite apply_update. intros id z [[<- <-]|[_ Hz]]%lookup_insert_Some; [done|by apply K].
  - rewrite apply_batch. revert m V D K. induction IH as [|d changes Hd _ IH']; intros m V D K; [done|].
    destruct V as [Vd V], D as [Dd D]. simpl. apply IH'; [done|done|]. by apply Hd.
Qed.

(** The diffs of a store a live query can follow: they describe changes of the store, hold
    no replacement of the whole store, and move no row from one of the query's keys to another. *)
Definition live_fine f d m : Prop :=
  diff_valid d m ∧ diff_keyed d ∧ no_initial d = true ∧
  match query_route f with
  | Some (RouteBelongsTo route) => stays (rt_extract_fk route) (rt_keys route) d m
  | _ => True
  end.

(** ** One index *)

Definition source_handle (entry : CompoundKey * LiveBucket P) : nat :=
  match lb_source entry.2 with IndexBucket _ h => h | IdRows _ _ => 0 end.

Definition bucket_step (i : string) (a : BucketAction P) w (entry : CompoundKey * LiveBucket P) : LiveWorld P F :=
  match lb_source entry.2 with
  | IndexBucket i' h =>
      if bool_decide (i' = i) && bool_decide (h = a.1) then live_callback (lb_ref entry.2) BucketScope a.2 w else w
  | IdRows _ _ => w
  end.

Lemma bucket_steps_other i a l w :
  (∀ e h, e ∈ l → lb_source e.2 ≠ IndexBucket i h) → foldl (bucket_step i a) w l = w.
Proof.
  revert w. induction l as [|e l IH]; intros w Hl; [done|]. cbn [foldl].
  assert (bucket_step i a w e = w) as ->; [|apply IH; intros e' h Hin; apply Hl; by right].
  unfold bucket_step. specialize (Hl e). destruct (lb_source e.2) as [i' h|]; [|done].
  rewrite bool_decide_false; [done|]. intros ->. apply (Hl h); [left|done].
Qed.

Lemma bucket_steps i a f l w :
  (∀ e, e ∈ l → lw_refs w !! lb_ref e.2 = Some (mkLiveFilter (lw_generation w) f)) →
  (∀ e, e ∈ l → lb_source e.2 = IndexBucket i (source_handle e)) → NoDup (source_handle <$> l) →
  foldl (bucket_step i a) w l
    = if bool_decide (a.1 ∈ source_handle <$> l)
      then with_result (apply_live_diff (lw_result w) a.2 f BucketScope) w else w.
Proof.
  revert w. induction l as [|e l IH]; intros w Hr Hs ND; [done|]. rewrite fmap_cons in ND |- *.
  apply NoDup_cons in ND as [Nk ND].
  assert (∀ e, e ∈ l → lb_source e.2 = IndexBucket i (source_handle e)) as Hs' by (intros e' ?; apply Hs; by right).
  cbn [foldl]. unfold bucket_step at 2. rewrite (Hs e) by left. rewrite (bool_decide_true (i = i)) by done. cbn [andb].
  destruct (decide (source_handle e = a.1)) as [Eh|Hne].
  - rewrite (bool_decide_true (source_handle e = a.1)), (bool_decide_true (a.1 ∈ _ :: _)) by (done || (rewrite Eh; left)).
    rewrite (live_callback_current _ _ _ _ f) by (apply Hr; left).
    rewrite IH; [|intros e' ?; apply Hr; by right|done..]. by rewrite bool_decide_false by by rewrite <-Eh.
  - rewrite (bool_decide_false (source_handle e = a.1)) by done. rewrite IH; [|intros e' ?; apply Hr; by right|done..].
    assert (a.1 ∈ source_handle e :: (source_handle <$> l) ↔ a.1 ∈ source_handle <$> l) as Hiff.
    { rewrite elem_of_cons. naive_solver. }
    by rewrite (bool_decide_ext _ _ Hiff).
Qed.

(** The pairs of key and handle a live query holds in its index. *)
Definition live_watches w : list (CompoundKey * nat) :=
  (λ e, (e.1, source_handle e)) <$> iterate (ls_bucket_guards (lw_state w)).

Lemma live_watches_handles w : (live_watches w).*2 = source_handle <$> iterate (ls_bucket_guards (lw_state w)).
Proof. unfold live_watches. rewrite <-list_fmap_compose. by apply list_fmap_ext. Qed.

Lemma live_watches_keys w : (live_watches w).*1 = (iterate (ls_bucket_guards (lw_state w))).*1.
Proof. unfold live_watches. rewrite <-list_fmap_compose. by apply list_fmap_ext. Qed.

Lemma bucket_actions_spec i f actions w (σ : nat → Rows) :
  (∀ e, e ∈ iterate (ls_bucket_guards (lw_state w)) →
     lw_refs w !! lb_ref e.2 = Some (mkLiveFilter (lw_generation w) f) ∧ lb_source e.2 = IndexBucket i (source_handle e)) →
  NoDup (live_watches w).*2 →
  foldl (bucket_action i) w actions
    = with_result (foldl (follow_step (λ d _ r, apply_live_diff r d f BucketScope) (watched_handles (live_watches w)))
                     (σ, lw_result w) actions).2 w.
Proof.
  revert w σ. induction actions as [|a actions IH]; intros w σ Hg ND; [by destruct w|]. cbn [foldl].
  assert (bucket_action i w a = with_result (follow_step (λ d _ r, apply_live_diff r d f BucketScope)
            (watched_handles (live_watches w)) (σ, lw_result w) a).2 w) as Ea.
  { change (bucket_action i w a) with (foldl (bucket_step i a) w (iterate (ls_bucket_guards (lw_state w)))).
    rewrite (bucket_steps i a f); [|intros e He; by apply Hg..|by rewrite <-live_watches_handles].
    simpl. unfold watched_handles. rewrite live_watches_handles. case_bool_decide; [done|]. by destruct w. }
  rewrite Ea. set (s := follow_step _ _ _ a). rewrite (IH (with_result s.2 w) s.1 Hg ND).
  cbn [lw_result with_result]. by rewrite <-surjective_pairing.
Qed.

(** ** All indexes *)

(** The indexes while a diff reaches them one after the other: those of [l] are still to
    come. *)
Definition indexes_pending m d (l : list string) v : Prop :=
  ∀ i idx, lw_indexes v !! i = Some idx → index_alive idx = true →
    si_dispatching idx = false ∧ si_extract idx = route_extractor i ∧
    index_ok (if bool_decide (i ∈ l) then m else apply_diff d m) idx.

(** What the indexes' turn leaves alone. *)
Definition same_query w v : Prop :=
  lw_store v = lw_store w ∧ lw_refs v = lw_refs w ∧ lw_next_ref v = lw_next_ref w ∧
  lw_generation v = lw_generation w ∧ lw_state v = lw_state w.

#[local] Instance same_query_trans : Transitive same_query.
Proof. intros w1 w2 w3 (?&?&?&?&?) (?&?&?&?&?). repeat split; congruence. Qed.

Lemma indexes_pending_insert m d i l v idx :
  indexes_pending m d (i :: l) v → i ∉ l →
  (index_alive idx = true → si_dispatching idx = false ∧ si_extract idx = route_extractor i ∧ index_ok (apply_diff d m) idx) →
  indexes_pending m d l (with_indexes (<[i := idx]> (lw_indexes v)) v).
Proof.
  intros HP Ni Hi j idx'. simpl. intros [[<- <-]|[Hne E]]%lookup_insert_Some Ha.
  - rewrite bool_decide_false by done. by apply Hi.
  - destruct (HP j idx' E Ha) as (? & ? & OK). split; [done|]. split; [done|].
    assert (j ∈ i :: l ↔ j ∈ l) as Hiff by (rewrite elem_of_cons; naive_solver).
    by rewrite (bool_decide_ext _ _ Hiff) in OK.
Qed.

Lemma indexes_pending_dead m d i l v :
  indexes_pending m d (i :: l) v → (∀ idx, lw_indexes v !! i = Some idx → index_alive idx = false) →
  indexes_pending m d l v.
Proof.
  intros HP Hd j idx E Ha. destruct (HP j idx E Ha) as (? & ? & OK). split; [done|]. split; [done|].
  assert (j ∈ i :: l ↔ j ∈ l) as Hiff.
  { rewrite elem_of_cons. split; [|by right]. intros [->|?]; [|done]. by rewrite (Hd idx E) in Ha. }
  by rewrite (bool_decide_ext _ _ Hiff) in OK.
Qed.

(** An index the live query holds nothing of. *)
Lemma index_diff_other m d i l v :
  diff_valid d m → indexes_pending m d (i :: l) v → i ∉ l →
  (∀ k b h, ls_bucket_guards (lw_state v) !! k = Some b → lb_source b ≠ IndexBucket i h) →
  let v' := index_diff d v i in
  indexes_pending m d l v' ∧ same_query v v' ∧ lw_result v' = lw_result v ∧
  ∀ j, j ≠ i → lw_indexes v' !! j = lw_indexes v !! j.
Proof.
  intros V HP Ni Hg. unfold index_diff. destruct (lw_indexes v !! i) as [idx|] eqn:Ei.
  - destruct (index_alive idx) eqn:Ea.
    + destruct (HP i idx Ei Ea) as (Hidle & Hx & OK). rewrite bool_decide_true in OK by left.
      destruct (index_apply_diff d idx) as [idx' actions] eqn:E.
      pose proof (index_apply_diff_spec m d idx idx' actions V OK Hidle E) as DA.
      set (v1 := with_indexes _ v).
      assert (foldl (bucket_action i) v1 actions = v1) as ->.
      { clear -Hg. induction actions as [|a actions IH]; [done|]. cbn [foldl].
        assert (bucket_action i v1 a = v1) as ->; [|done].
        change (bucket_action i v1 a) with (foldl (bucket_step i a) v1 (iterate (ls_bucket_guards (lw_state v)))).
        apply bucket_steps_other. intros [k b] h Hin%iterate_lookup. by eapply Hg. }
      cbn zeta. split; [|split; [done|split; [done|]]].
      * apply (indexes_pending_insert m d i l v idx' HP Ni). intros _.
        split; [apply DA|]. split; [by rewrite (da_extract _ _ _ _ _ DA)|apply DA].
      * intros j Hj. simpl. by rewrite lookup_insert_ne.
    + split; [|done]. eapply indexes_pending_dead; [exact HP|]. by intros idx' [= <-]%(eq_trans (eq_sym Ei)).
  - split; [|done]. eapply indexes_pending_dead; [exact HP|]. intros idx' E. congruence.
Qed.

Lemma index_diffs_other m d l1 l v :
  diff_valid d m → NoDup (l1 ++ l) → indexes_pending m d (l1 ++ l) v →
  (∀ i k b h, i ∈ l1 → ls_bucket_guards (lw_state v) !! k = Some b → lb_source b ≠ IndexBucket i h) →
  let v' := foldl (index_diff d) v l1 in
  indexes_pending m d l v' ∧ same_query v v' ∧ lw_result v' = lw_result v ∧
  ∀ j, j ∉ l1 → lw_indexes v' !! j = lw_indexes v !! j.
Proof.
  revert v. induction l1 as [|i l1 IH]; intros v V ND HP Hg; [done|].
  cbn [app] in ND, HP. apply NoDup_cons in ND as [Ni ND].
  destruct (index_diff_other m d i (l1 ++ l) v V HP Ni) as (HP1 & Q1 & R1 & J1).
  { intros k b h. apply Hg. left. }
  cbn zeta. cbn [foldl]. set (v1 := index_diff d v i) in *. clearbody v1.
  destruct (IH v1 V ND HP1) as (HP2 & Q2 & R2 & J2).
  { intros j k b h Hj. destruct Q1 as (_ & _ & _ & _ & ->). apply Hg. by right. }
  split; [done|]. split; [by trans v1|]. split; [congruence|].
  intros j [Hj1 Hj2]%not_elem_of_cons. by rewrite J2, J1.
Qed.

(** The index of the live query's route. *)
Record routed_query f (route : BelongsToRoute P) m v : Prop := {
  rq_route : query_route f = Some (RouteBelongsTo route);
  rq_guards k : is_Some (ls_bucket_guards (lw_state v) !! k) ↔ k ∈ rt_keys route;
  rq_sources k b : ls_bucket_guards (lw_state v) !! k = Some b →
    source_ok (ByIndex (rt_field_names route)) v k (lb_source b);
  rq_refs k b : ls_bucket_guards (lw_state v) !! k = Some b →
    lw_refs v !! lb_ref b = Some (mkLiveFilter (lw_generation v) f);
  rq_result : lw_result v = filtered f m
}.

Lemma filtered_in_keys f route m (ks : list CompoundKey) :
  query_route f = Some (RouteBelongsTo route) → (∀ k, k ∈ ks ↔ k ∈ rt_keys route) →
  filtered f m = select (λ x, live_filter_matches f x && in_keys (rt_extract_fk route) ks x) m.
Proof.
  intros Er Hk. apply map_eq. intros id. apply option_eq. intros x. unfold filtered.
  rewrite !lookup_select, andb_true_iff, in_keys_spec. split.
  - intros [Hx Hm]. split; [done|]. split; [done|]. destruct (belongs_to_route_sound f route x Er Hm) as (k & Ek & Hin).
    exists k. split; [done|]. by apply Hk.
  - intros (Hx & Hm & _). done.
Qed.

Lemma index_diff_ours f route m d l v :
  let i := index_key (rt_field_names route) in
  live_fine f d m → routed_query f route m v → indexes_pending m d (i :: l) v → i ∉ l →
  let v' := index_diff d v i in
  indexes_pending m d l v' ∧ same_query v v' ∧ lw_result v' = filtered f (apply_diff d m) ∧
  (∀ k b, ls_bucket_guards (lw_state v') !! k = Some b → source_ok (ByIndex (rt_field_names route)) v' k (lb_source b)).
Proof.
  intros i (V & D & N & St) [Er Hg Hs Hr Hres] HP Ni. rewrite Er in St.
  assert ((∀ idx, lw_indexes v !! i = Some idx → index_alive idx = false) →
    indexes_pending m d l v ∧ same_query v v ∧ lw_result v = filtered f (apply_diff d m) ∧
    (∀ k b, ls_bucket_guards (lw_state v) !! k = Some b → source_ok (ByIndex (rt_field_names route)) v k (lb_source b))) as Hdead.
  { intros Hd. split; [by eapply indexes_pending_dead|]. split; [done|]. split; [|done].
    assert (∀ k, k ∈ [] ↔ k ∈ rt_keys route) as Hnil.
    { intros k. rewrite elem_of_nil, <-Hg. split; [done|]. intros [b Hb]. specialize (Hs k b Hb).
      destruct (lb_source b) as [j h|]; [|done]. destruct Hs as (-> & idx & E & _ & Hh).
      pose proof (held_alive _ _ Hh) as Ha. by rewrite (Hd idx E) in Ha. }
    rewrite Hres, !(filtered_in_keys f route _ [] Er Hnil). apply map_eq. intros id. apply option_eq. intros x.
    rewrite !lookup_select, !andb_true_iff, !in_keys_spec. split; intros (_ & _ & k & _ & Hk); by apply elem_of_nil in Hk. }
  unfold index_diff. destruct (lw_indexes v !! i) as [idx|] eqn:Ei; [|by apply Hdead].
  destruct (index_alive idx) eqn:Ea; [|by apply Hdead; intros ? [= <-]]. clear Hdead.
  destruct (HP i idx Ei Ea) as (Hidle & Hx & OK). rewrite bool_decide_true in OK by left.
  destruct (index_apply_diff d idx) as [idx' actions] eqn:E.
  pose proof (index_apply_diff_spec m d idx idx' actions V OK Hidle E) as DA.
  pose proof (da_plain _ _ _ _ _ DA N) as Hplain.
  set (v1 := with_indexes _ v).
  assert (∀ e, e ∈ iterate (ls_bucket_guards (lw_state v1)) →
    lw_refs v1 !! lb_ref e.2 = Some (mkLiveFilter (lw_generation v1) f) ∧ lb_source e.2 = IndexBucket i (source_handle e) ∧
    si_buckets idx !! e.1 = Some (source_handle e) ∧ source_handle e ∈ si_held idx) as He.
  { intros [k b] Hin%iterate_lookup. simpl. split; [by eapply Hr|]. specialize (Hs k b Hin). unfold source_handle. simpl.
    destruct (lb_source b) as [j h|]; [|done]. destruct Hs as (-> & idx0 & E0 & Hk & Hh). fold i in E0. rewrite Ei in E0.
    injection E0 as <-. done. }
  assert (watches idx (live_watches v1)) as Hw.
  { intros k h (e & [= -> ->] & Hin)%list_elem_of_fmap. destruct (He e Hin) as (_ & _ & ? & ?). done. }
  assert (NoDup (live_watches v1).*1) as ND by (rewrite live_watches_keys; apply iterate_keys).
  pose proof (watches_handles idx (live_watches v1) (ok_injective _ _ OK) Hw ND) as NDh.
  assert (∀ k, k ∈ (live_watches v1).*1 ↔ k ∈ rt_keys route) as Hks.
  { intros k. rewrite live_watches_keys, <-Hg, list_elem_of_fmap. split.
    - intros ([k' b] & -> & Hin%iterate_lookup). by exists b.
    - intros [b Hb]. exists (k, b). split; [done|]. by apply iterate_lookup. }
  assert (si_extract idx = rt_extract_fk route) as Hxr by (by rewrite Hx, (belongs_to_route_extractor f route Er)).
  rewrite (bucket_actions_spec i f actions v1 (bucket_rows idx)); [|intros e Hin; destruct (He e Hin) as (? & ? & _); done|done].
  cbn zeta. split; [|split; [done|split]].
  - apply (indexes_pending_insert m d i l v idx' HP Ni). intros _.
    split; [apply DA|]. split; [by rewrite (da_extract _ _ _ _ _ DA)|apply DA].
  - cbn [lw_result with_result].
    rewrite (follow_diff (live_filter_matches f) (λ d, no_initial d = true) _ m d idx idx' actions (live_watches v1)); try done.
    + rewrite Hxr. symmetry. by apply filtered_in_keys.
    + apply apply_live_diff_follows.
    + apply OK.
    + intros id k1 k2 H1%Hks H2%Hks. rewrite Hxr. by apply St.
    + intros k h Hin. apply Hw in Hin as [? ?]. by apply idle_bucket.
    + simpl. rewrite Hres, Hxr. by apply filtered_in_keys.
  - simpl. intros k b Hb. destruct (He (k, b)) as (_ & Hsrc & Hk & Hh); [by apply iterate_lookup|]. simpl in Hsrc.
    rewrite Hsrc. split; [done|]. exists idx'. rewrite lookup_insert_eq. split; [done|].
    split; [by eapply da_kept|]. by rewrite (da_held _ _ _ _ _ DA).
Qed.

(** ** The cells of the ids *)

Lemma build_ids_lookup m id : build_ids_source_map m id !! id = m !! id.
Proof.
  unfold build_ids_source_map. destruct (m !! id) as [x|] eqn:E; [by rewrite lookup_singleton_eq|by rewrite lookup_empty].
Qed.

(** A cell of one id: its private map follows the store, and so does the id in the result. *)
Lemma id_action_spec f m v id rows ref :
  let v' := id_action v [id] in
  ls_bucket_guards (lw_state v) !! [id] = Some (mkLiveBucket (IdRows (Some id) rows) ref) →
  rows = build_ids_source_map m id → lw_refs v !! ref = Some (mkLiveFilter (lw_generation v) f) →
  lw_result v !! id = filtered f m !! id →
  ls_bucket_guards (lw_state v') = <[[id] := mkLiveBucket (IdRows (Some id) (build_ids_source_map (lw_store v) id)) ref]>
                                     (ls_bucket_guards (lw_state v)) ∧
  lw_result v' !! id = filtered f (lw_store v) !! id ∧ (∀ id', id' ≠ id → lw_result v' !! id' = lw_result v !! id') ∧
  lw_state v' = set_guards (ls_bucket_guards (lw_state v')) (ls_bucket_filter_refs (lw_state v)) (lw_state v) ∧
  lw_store v' = lw_store v ∧ lw_refs v' = lw_refs v ∧ lw_next_ref v' = lw_next_ref v ∧
  lw_generation v' = lw_generation v ∧ lw_indexes v' = lw_indexes v.
Proof.
  intros v' Eg -> Er Hres. subst v'. unfold id_action. rewrite Eg.
  assert (∀ m', filtered f m' !! id = match m' !! id with
                                      | Some x => if live_filter_matches f x then Some x else None
                                      | None => None end) as Hf.
  { intros m'. apply option_eq. intros x. unfold filtered. rewrite lookup_select.
    destruct (m' !! id) as [y|]; [|by split; [intros [? _]|]]. destruct (live_filter_matches f y) eqn:Em; split.
    - by intros [? _].
    - by intros [= ->].
    - intros [[= ->] ?]. congruence.
    - done. }
  rewrite Hf in Hres |- *. unfold id_cell_update. rewrite build_ids_lookup.
  assert (build_ids_source_map (lw_store v) id = match lw_store v !! id with
            | Some x => <[id := x]> (build_ids_source_map m id)
            | None => delete id (build_ids_source_map m id) end) as Hb.
  { unfold build_ids_source_map. destruct (lw_store v !! id) as [x|], (m !! id) as [y|];
      rewrite ?insert_singleton_eq, ?delete_singleton_eq, ?delete_empty; try done. }
  rewrite Hb. destruct (lw_store v !! id) as [x|] eqn:Ex, (m !! id) as [y|] eqn:Ey; cbn zeta beta iota;
    rewrite ?(live_callback_current _ _ _ _ f) by done; cbn [apply_live_diff with_result with_state lw_result lw_state lw_store];
    repeat split; try done; try intros id' Hne.
  all: try (destruct (live_filter_matches f x)); rewrite ?lookup_insert_eq, ?lookup_delete_eq; try done.
  all: rewrite ?lookup_insert_ne, ?lookup_delete_ne by done; try done.
  simpl. rewrite delete_id; [done|]. by rewrite build_ids_lookup.
Qed.

Lemma id_actions_spec f m v l :
  NoDup l →
  (∀ k, k ∈ l → ∃ id b, k = [id] ∧ ls_bucket_guards (lw_state v) !! k = Some b ∧
     lb_source b = IdRows (Some id) (build_ids_source_map m id) ∧
     lw_refs v !! lb_ref b = Some (mkLiveFilter (lw_generation v) f) ∧ lw_result v !! id = filtered f m !! id) →
  let v' := foldl id_action v l in
  (∀ k, k ∉ l → ls_bucket_guards (lw_state v') !! k = ls_bucket_guards (lw_state v) !! k) ∧
  (∀ id b, [id] ∈ l → ls_bucket_guards (lw_state v) !! [id] = Some b →
     ls_bucket_guards (lw_state v') !! [id]
       = Some (mkLiveBucket (IdRows (Some id) (build_ids_source_map (lw_store v) id)) (lb_ref b))) ∧
  (∀ id, [id] ∈ l → lw_result v' !! id = filtered f (lw_store v) !! id) ∧
  (∀ id, [id] ∉ l → lw_result v' !! id = lw_result v !! id) ∧
  lw_state v' = set_guards (ls_bucket_guards (lw_state v')) (ls_bucket_filter_refs (lw_state v)) (lw_state v) ∧
  lw_store v' = lw_store v ∧ lw_refs v' = lw_refs v ∧ lw_next_ref v' = lw_next_ref v ∧
  lw_generation v' = lw_generation v ∧ lw_indexes v' = lw_indexes v.
Proof.
  revert v. induction l as [|k l IH]; intros v ND Hl; cbn zeta.
  - split; [done|]. split; [by intros id b ?%elem_of_nil|]. split; [by intros id ?%elem_of_nil|].
    split; [done|]. split; [by destruct v as [? ? ? ? ? ? []]|done].
  - apply NoDup_cons in ND as [Nk ND].
    destruct (Hl k) as (id & [source ref] & -> & Hb & Hsrc & Hr & Hres); [left|]. simpl in Hsrc, Hr. subst source.
    destruct (id_action_spec f m v id _ ref Hb eq_refl Hr Hres) as (G1 & R1 & O1 & S1 & St1 & Rf1 & N1 & Ge1 & I1).
    cbn [foldl]. set (v1 := id_action v [id]) in *. clearbody v1.
    destruct (IH v1 ND) as (G2 & B2 & R2 & O2 & S2 & St2 & Rf2 & N2 & Ge2 & I2).
    { intros k Hk. destruct (Hl k) as (id' & b' & -> & Hb' & Hs' & Hr' & Hres'); [by right|].
      assert (id' ≠ id) as Hne by by intros ->. exists id', b'. split; [done|].
      rewrite G1, lookup_insert_ne by congruence. rewrite Rf1, Ge1, O1 by done. done. }
    split; [|split; [|split; [|split; [|split; [|by repeat split; congruence]]]]].
    + intros k [Hne Hk]%not_elem_of_cons. rewrite G2, G1 by done. by rewrite lookup_insert_ne.
    + intros id' b' Hin Hb'. destruct (decide (id' = id)) as [->|Hne].
      * rewrite Hb in Hb'. injection Hb' as <-. rewrite G2, G1, lookup_insert_eq by done. done.
      * rewrite <-St1. apply B2.
        -- apply elem_of_cons in Hin as [?|?]; [congruence|done].
        -- rewrite G1, lookup_insert_ne by congruence. done.
    + intros id' Hin. rewrite <-St1. destruct (decide (id' = id)) as [->|Hne].
      * rewrite O2 by done. by rewrite R1, St1.
      * apply R2. apply elem_of_cons in Hin as [?|?]; [congruence|done].
    + intros id' [Hne Hk]%not_elem_of_cons. rewrite O2, O1 by (done || congruence). done.
    + rewrite S2, S1. done.
Qed.

(** ** A diff of the store *)

Lemma live_ok_transfer f w v :
  live_ok f w → well_keyed (lw_store v) → indexes_ok v →
  lw_refs v = lw_refs w → lw_next_ref v = lw_next_ref w → lw_generation v = lw_generation w →
  lw_state v = set_guards (ls_bucket_guards (lw_state v)) (ls_bucket_filter_refs (lw_state w)) (lw_state w) →
  (∀ k, lb_ref <$> ls_bucket_guards (lw_state v) !! k = lb_ref <$> ls_bucket_guards (lw_state w) !! k) →
  (∀ k b, ls_bucket_guards (lw_state v) !! k = Some b → source_ok (mode_of (query_route f)) v k (lb_source b)) →
  lw_result v = filtered f (lw_store v) → live_ok f v.
Proof.
  intros [[[K I G R L S B] Hg0 Hn Hix Hsc Hs Hns] Hgd Hscan Hcur Hmk] K' I' Er En Eg Est Hrefs Hsrc Hres.
  assert (ls_bucket_filter_refs (lw_state v) = ls_bucket_filter_refs (lw_state w)) as E1 by by rewrite Est.
  assert (ls_scan_guard (lw_state v) = ls_scan_guard (lw_state w)) as E2 by by rewrite Est.
  assert (ls_scan_filter_ref (lw_state v) = ls_scan_filter_ref (lw_state w)) as E3 by by rewrite Est.
  assert (ls_prev_route_field_names (lw_state v) = ls_prev_route_field_names (lw_state w)) as E4 by by rewrite Est.
  assert (∀ k, is_Some (ls_bucket_guards (lw_state v) !! k) ↔ is_Some (ls_bucket_guards (lw_state w) !! k)) as Hdom.
  { intros k. rewrite <-!(fmap_is_Some lb_ref). by rewrite Hrefs. }
  assert (∀ k b, ls_bucket_guards (lw_state v) !! k = Some b →
            ∃ b', ls_bucket_guards (lw_state w) !! k = Some b' ∧ lb_ref b' = lb_ref b) as Hback.
  { intros k b Hb. specialize (Hrefs k). rewrite Hb in Hrefs. simpl in Hrefs. symmetry in Hrefs.
    apply fmap_Some in Hrefs as (b' & ? & ?). by exists b'. }
  assert (∀ ref, subscribed v ref ↔ subscribed w ref) as Hsub.
  { intros ref. unfold subscribed. rewrite E2. f_equiv. split.
    - intros (k & b & Hb & <-). destruct (Hback k b Hb) as (b' & ? & ?). by exists k, b'.
    - intros (k & b & Hb & <-). specialize (Hrefs k). rewrite Hb in Hrefs. simpl in Hrefs.
      apply fmap_Some in Hrefs as (b' & ? & ?). by exists k, b'. }
  split.
  - split; rewrite ?Eg, ?E2, ?E3, ?E4; try done.
    + split; try done.
      * rewrite E1, R. apply map_eq. intros k. rewrite !lookup_fmap. by rewrite Hrefs.
      * intros k b Hb. rewrite En. destruct (Hback k b Hb) as (b' & Hb' & <-). by eapply L.
      * rewrite Hres. symmetry. by apply shown_scope.
      * rewrite Er, En, Eg. exact B.
    + intros Hne k x Hp. apply Hdom. by eapply Hsc.
    + intros Hm. destruct (Hs Hm) as [Hgs Hsr]. split; [|by rewrite En].
      apply map_eq. intros k. rewrite lookup_empty. apply eq_None_not_Some. rewrite Hdom, Hgs, lookup_empty. by intros [? ?].
  - intros k. by rewrite Hdom.
  - by rewrite E2.
  - intros ref Hr%Hsub. rewrite Er, Eg. by apply Hcur.
  - intros ref cell. rewrite Er, Eg, Hsub. apply Hmk.
Qed.

(** The state a diff leaves the indexes in, before the cells and the scan have their turn. *)
Definition after_indexes d w : LiveWorld P F :=
  let w0 := mkLiveWorld (apply_diff d (lw_store w)) (lw_indexes w) (lw_refs w) (lw_next_ref w) (lw_generation w)
              (lw_result w) (lw_state w) in
  foldl (index_diff d) w0 (map_to_list (lw_indexes w0)).*1.

Lemma index_names_spec w i : i ∈ (map_to_list (lw_indexes w)).*1 ↔ is_Some (lw_indexes w !! i).
Proof.
  rewrite list_elem_of_fmap. split.
  - intros ([j idx] & -> & Hin%elem_of_map_to_list). by exists idx.
  - intros [idx E]. exists (i, idx). split; [done|]. by apply elem_of_map_to_list.
Qed.

Lemma indexes_pending_start d w (l : list string) :
  indexes_ok w → (∀ i, is_Some (lw_indexes w !! i) → i ∈ l) →
  indexes_pending (lw_store w) d l
    (mkLiveWorld (apply_diff d (lw_store w)) (lw_indexes w) (lw_refs w) (lw_next_ref w) (lw_generation w)
       (lw_result w) (lw_state w)).
Proof.
  intros HI Hl i idx E Ha. destruct (HI i idx E Ha) as (OK & Hi & Hx). split; [done|]. split; [done|].
  rewrite bool_decide_true; [done|]. apply Hl. by exists idx.
Qed.

Lemma indexes_pending_end d w v :
  indexes_pending (lw_store w) d [] v → lw_store v = apply_diff d (lw_store w) → indexes_ok v.
Proof.
  intros HP Est i idx E Ha. destruct (HP i idx E Ha) as (? & ? & OK). split; [|done]. by rewrite Est.
Qed.

Lemma live_keyed f w : live_ok f w → well_keyed (lw_store w).
Proof. intros LO. apply (sd_mid _ _ _ (lo_steady _ _ LO)). Qed.

Lemma live_indexes f w : live_ok f w → indexes_ok w.
Proof. intros LO. apply (sd_mid _ _ _ (lo_steady _ _ LO)). Qed.

Lemma live_source f w k b :
  live_ok f w → ls_bucket_guards (lw_state w) !! k = Some b → source_ok (mode_of (query_route f)) w k (lb_source b).
Proof. intros LO. apply (sd_mid _ _ _ (lo_steady _ _ LO)). Qed.

(** Without a bucket of an index, the indexes' turn does not concern the query. *)
Lemma after_indexes_other f d w :
  live_ok f w → diff_valid d (lw_store w) →
  (∀ k b i h, ls_bucket_guards (lw_state w) !! k = Some b → lb_source b ≠ IndexBucket i h) →
  let v := after_indexes d w in
  indexes_ok v ∧ lw_store v = apply_diff d (lw_store w) ∧ lw_refs v = lw_refs w ∧ lw_next_ref v = lw_next_ref w ∧
  lw_generation v = lw_generation w ∧ lw_state v = lw_state w ∧ lw_result v = lw_result w.
Proof.
  intros LO V Hg. unfold after_indexes. set (w0 := mkLiveWorld _ _ _ _ _ _ _). cbn zeta.
  destruct (index_diffs_other (lw_store w) d (map_to_list (lw_indexes w0)).*1 [] w0 V) as (HP & (E1 & E2 & E3 & E4 & E5) & R & _).
  - rewrite app_nil_r. apply NoDup_fst_map_to_list.
  - rewrite app_nil_r. apply indexes_pending_start; [by apply (live_indexes f)|]. intros i. by rewrite index_names_spec.
  - intros i k b h _ Hb. by eapply Hg.
  - split; [by eapply indexes_pending_end|]. done.
Qed.

Lemma live_store_diff_scan f d w :
  live_ok f w → live_fine f d (lw_store w) → query_route f = None →
  live_ok f (live_store_diff d w) ∧ lw_store (live_store_diff d w) = apply_diff d (lw_store w) ∧
  lw_generation (live_store_diff d w) = lw_generation w.
Proof.
  intros LO (V & D & N & _) Er. unfold live_store_diff. fold (after_indexes d w).
  destruct (sd_scan _ _ _ (lo_steady _ _ LO)) as [Hg Hs]; [by rewrite Er|].
  destruct (after_indexes_other f d w LO V) as (I & E1 & E2 & E3 & E4 & E5 & E6); [intros k b i h; by rewrite Hg|].
  set (v := after_indexes d w) in *. clearbody v.
  assert (iterate (ls_bucket_guards (lw_state v)) = []) as Hit.
  { apply Permutation_nil_r. by rewrite iterate_perm, E5, Hg. }
  rewrite Hit. cbn [fmap list_fmap foldl]. rewrite E5. destruct (lo_scan _ _ LO Er) as [ref Hr]. rewrite Hr.
  rewrite (live_callback_current _ _ _ _ f); [|rewrite E2, E4; apply (lo_current _ _ LO); by right].
  split; [|by split]. apply (live_ok_transfer f w); simpl; try done.
  - rewrite E1. apply apply_diff_keyed; [done|done|by eapply live_keyed].
  - by rewrite E5; destruct (lw_state w).
  - intros k. by rewrite E5.
  - intros k b. by rewrite E5, Hg.
  - rewrite E6, E1, (live_ok_result f w LO). apply map_eq. intros id.
    destruct (apply_live_diff_follows f FullStore (λ _, True) d (lw_store w) (filtered f (lw_store w)) N V) as [Hin _]; try done.
    by apply Hin.
Qed.

Lemma live_store_diff_ids f d w ids :
  live_ok f w → live_fine f d (lw_store w) → query_route f = Some (RouteIds ids) →
  live_ok f (live_store_diff d w) ∧ lw_store (live_store_diff d w) = apply_diff d (lw_store w) ∧
  lw_generation (live_store_diff d w) = lw_generation w.
Proof.
  intros LO (V & D & N & _) Er. unfold live_store_diff. fold (after_indexes d w).
  assert (∀ k b, ls_bucket_guards (lw_state w) !! k = Some b →
    ∃ id, k = [id] ∧ lb_source b = IdRows (Some id) (build_ids_source_map (lw_store w) id)) as Hsrc.
  { intros k b Hb. pose proof (live_source f w k b LO Hb) as Hs. rewrite Er in Hs. simpl in Hs.
    destruct (lb_source b) as [i h|[id|] rows]; try done. destruct Hs as [-> ->]. by exists id. }
  destruct (after_indexes_other f d w LO V) as (I & E1 & E2 & E3 & E4 & E5 & E6).
  { intros k b i h Hb. destruct (Hsrc k b Hb) as (id & _ & ->). done. }
  set (v := after_indexes d w) in *. clearbody v. pose proof (live_keyed f w LO) as K.
  assert (well_keyed (lw_store v)) as K' by (rewrite E1; by apply apply_diff_keyed).
  set (l := (iterate (ls_bucket_guards (lw_state v))).*1).
  assert (∀ k, k ∈ l ↔ is_Some (ls_bucket_guards (lw_state w) !! k)) as Hl.
  { intros k. unfold l. rewrite E5, list_elem_of_fmap. split.
    - intros ([k' b] & -> & Hin%iterate_lookup). by exists b.
    - intros [b Hb]. exists (k, b). split; [done|]. by apply iterate_lookup. }
  destruct (id_actions_spec f (lw_store w) v l) as (G1 & G2 & R1 & R2 & S & A1 & A2 & A3 & A4 & A5).
  { apply iterate_keys. }
  { intros k [b Hb]%Hl. destruct (Hsrc k b Hb) as (id & -> & Hs). exists id, b. split; [done|]. rewrite E5. split; [done|].
    split; [done|]. rewrite E2, E4, E6, (live_ok_result f w LO). split; [|done].
    apply (lo_current _ _ LO). left. by exists [id], b. }
  set (v' := foldl id_action v l) in *. clearbody v'.
  assert (ls_scan_guard (lw_state v') = None) as ->.
  { rewrite S, E5. simpl. apply (sd_no_scan _ _ _ (lo_steady _ _ LO)). by rewrite Er. }
  split; [|split; congruence]. apply (live_ok_transfer f w); try congruence.
  - by rewrite A1.
  - intros i idx. rewrite A5, A1. apply I.
  - intros k. destruct (decide (k ∈ l)) as [Hk|Hk].
    + pose proof (proj1 (Hl k) Hk) as [b Hb]. destruct (Hsrc k b Hb) as (id & -> & _).
      rewrite (G2 id b Hk) by by rewrite E5. by rewrite Hb.
    + rewrite (G1 k Hk), E5. done.
  - intros k b Hb. rewrite Er. simpl. destruct (decide (k ∈ l)) as [Hk|Hk].
    + pose proof (proj1 (Hl k) Hk) as [b' Hb']. destruct (Hsrc k b' Hb') as (id & -> & _).
      rewrite (G2 id b' Hk) in Hb by by rewrite E5. injection Hb as <-. simpl. by rewrite A1.
    + rewrite (G1 k Hk), E5 in Hb. exfalso. apply Hk, Hl. by exists b.
  - apply map_eq. intros id. destruct (decide ([id] ∈ l)) as [Hk|Hk]; [by rewrite R1, A1|].
    rewrite R2, E6, (live_ok_result f w LO) by done.
    assert (∀ m, well_keyed m → filtered f m !! id = None) as Hno; [|rewrite A1; by rewrite !Hno].
    intros m Km. apply eq_None_not_Some. intros [x [Hx Hm]%lookup_select]. apply Hk, Hl, (lo_guards _ _ LO).
    rewrite Er. simpl. apply elem_of_list_to_set, list_elem_of_fmap. exists id. split; [done|].
    rewrite <-(Km id x Hx). by eapply ids_route_sound.
Qed.

(** The index of the route takes its turn among the others. *)
Lemma after_indexes_ours f route d w :
  let w0 := mkLiveWorld (apply_diff d (lw_store w)) (lw_indexes w) (lw_refs w) (lw_next_ref w) (lw_generation w)
              (lw_result w) (lw_state w) in
  live_fine f d (lw_store w) → indexes_ok w → routed_query f route (lw_store w) w0 →
  let v := after_indexes d w in
  indexes_ok v ∧ same_query w0 v ∧ lw_result v = filtered f (apply_diff d (lw_store w)) ∧
  (∀ k b, ls_bucket_guards (lw_state v) !! k = Some b → source_ok (ByIndex (rt_field_names route)) v k (lb_source b)).
Proof.
  intros w0 Hfine I RQ. pose proof Hfine as (V & _). cbn zeta. unfold after_indexes. fold w0.
  set (i := index_key (rt_field_names route)).
  assert (∀ (l : list string) v, i ∉ l → same_query w0 v →
    ∀ j k b h, j ∈ l → ls_bucket_guards (lw_state v) !! k = Some b → lb_source b ≠ IndexBucket j h) as Hother.
  { intros l v Ni Q j k b h Hj Hb Hs. destruct Q as (_ & _ & _ & _ & Est). rewrite Est in Hb.
    pose proof (rq_sources _ _ _ _ RQ k b Hb) as Hso. rewrite Hs in Hso. destruct Hso as [-> _]. done. }
  pose proof (NoDup_fst_map_to_list (lw_indexes w0)) as ND.
  destruct (decide (i ∈ (map_to_list (lw_indexes w0)).*1)) as [Hin|Hin].
  - apply list_elem_of_split in Hin as (l1 & l2 & El). rewrite El in ND |- *.
    pose proof ND as (ND1 & Hd & ND2)%NoDup_app. apply NoDup_cons in ND2 as [Ni2 ND2].
    assert (i ∉ l1) as Ni1 by (intros Hi; apply (Hd i Hi); left).
    assert (indexes_pending (lw_store w) d (l1 ++ i :: l2) w0) as HP.
    { apply indexes_pending_start; [done|]. intros j. rewrite <-El. by rewrite index_names_spec. }
    destruct (index_diffs_other (lw_store w) d l1 (i :: l2) w0 V ND HP) as (HP1 & Q1 & R1 & J1); [by apply (Hother l1)|].
    rewrite foldl_app. cbn [foldl]. set (v1 := foldl (index_diff d) w0 l1) in *. clearbody v1.
    assert (routed_query f route (lw_store w) v1) as RQ1.
    { destruct RQ as [Er Hg Hs Hr Hres], Q1 as (A1 & A2 & A3 & A4 & A5). split; rewrite ?A2, ?A4, ?A5; try done.
      - intros k b Hb. specialize (Hs k b Hb). destruct (lb_source b) as [j h|]; [|done].
        destruct Hs as (-> & idx & E & ?). split; [done|]. exists idx. by rewrite J1.
      - by rewrite R1. }
    destruct (index_diff_ours f route (lw_store w) d l2 v1 Hfine RQ1 HP1 Ni2) as (HP2 & Q2 & R2 & S2).
    fold i in HP2, Q2, R2, S2. set (v2 := index_diff d v1 i) in *. clearbody v2.
    assert (same_query w0 v2) as Q02 by by trans v1.
    assert (indexes_pending (lw_store w) d (l2 ++ []) v2) as HP2' by by rewrite app_nil_r.
    destruct (index_diffs_other (lw_store w) d l2 [] v2 V) as (HP3 & Q3 & R3 & J3);
      [by rewrite app_nil_r|done|by apply (Hother l2)|].
    set (v3 := foldl (index_diff d) v2 l2) in *. clearbody v3.
    assert (same_query w0 v3) as Q03 by by trans v2.
    split; [|split; [done|split; [congruence|]]].
    + eapply indexes_pending_end; [done|]. by destruct Q03 as [-> _].
    + destruct Q3 as (_ & _ & _ & _ & Est). rewrite Est. intros k b Hb. specialize (S2 k b Hb).
      destruct (lb_source b) as [j h|]; [|done]. destruct S2 as (-> & idx & E & ?). split; [done|]. exists idx.
      by rewrite J3.
  - assert (indexes_pending (lw_store w) d ((map_to_list (lw_indexes w0)).*1 ++ []) w0) as HP.
    { rewrite app_nil_r. apply indexes_pending_start; [done|]. intros j. by rewrite index_names_spec. }
    destruct (index_diffs_other (lw_store w) d (map_to_list (lw_indexes w0)).*1 [] w0 V) as (HP1 & Q1 & R1 & J1);
      [by rewrite app_nil_r|done|by apply (Hother (map_to_list (lw_indexes w0)).*1)|].
    set (v1 := foldl (index_diff d) w0 _) in *. clearbody v1.
    assert (lw_indexes v1 !! i = None) as Ei.
    { rewrite J1 by done. apply eq_None_not_Some. by rewrite <-index_names_spec. }
    assert (routed_query f route (lw_store w) v1) as RQ1.
    { destruct RQ as [Er Hg Hs Hr Hres], Q1 as (A1 & A2 & A3 & A4 & A5). split; rewrite ?A2, ?A4, ?A5; try done.
      - intros k b Hb. specialize (Hs k b Hb). destruct (lb_source b) as [j h|]; [|done].
        destruct Hs as (-> & idx & E & ?). split; [done|]. exists idx. by rewrite J1.
      - by rewrite R1. }
    assert (indexes_pending (lw_store w) d [i] v1) as HP1'.
    { intros j idx E Ha. destruct (HP1 j idx E Ha) as (? & ? & OK). split; [done|]. split; [done|].
      assert (j ≠ i) as Hne by (intros ->; congruence).
      rewrite bool_decide_false in OK by by intros ?%elem_of_nil.
      rewrite bool_decide_false; [done|]. by intros ?%list_elem_of_singleton. }
    destruct (index_diff_ours f route (lw_store w) d [] v1 Hfine RQ1 HP1') as (HP2 & Q2 & R2 & S2); [by intros ?%elem_of_nil|].
    fold i in HP2, Q2, R2, S2. unfold index_diff in HP2, Q2, R2, S2. rewrite Ei in HP2, Q2, R2, S2.
    split; [|done]. eapply indexes_pending_end; [done|]. by destruct Q1 as [-> _].
Qed.

Lemma live_store_diff_index f d w route :
  live_ok f w → live_fine f d (lw_store w) → query_route f = Some (RouteBelongsTo route) →
  live_ok f (live_store_diff d w) ∧ lw_store (live_store_diff d w) = apply_diff d (lw_store w) ∧
  lw_generation (live_store_diff d w) = lw_generation w.
Proof.
  intros LO Hfine Er. pose proof Hfine as (V & D & N & _). unfold live_store_diff. fold (after_indexes d w).
  assert (∀ k b, ls_bucket_guards (lw_state w) !! k = Some b → source_ok (ByIndex (rt_field_names route)) w k (lb_source b)) as Hsrc.
  { intros k b Hb. pose proof (live_source f w k b LO Hb) as Hs. by rewrite Er in Hs. }
  set (i := index_key (rt_field_names route)).
  pose proof (live_indexes f w LO) as I. pose proof (live_keyed f w LO) as K.
  assert (routed_query f route (lw_store w)
            (mkLiveWorld (apply_diff d (lw_store w)) (lw_indexes w) (lw_refs w) (lw_next_ref w) (lw_generation w)
               (lw_result w) (lw_state w))) as RQ.
  { split; [done|..]; simpl.
    - intros k. rewrite (lo_guards _ _ LO k), Er. simpl. apply elem_of_list_to_set.
    - exact Hsrc.
    - intros k b Hb. apply (lo_current _ _ LO). left. by exists k, b.
    - by apply live_ok_result. }
  destruct (after_indexes_ours f route d w Hfine I RQ) as (I' & (E1 & E2 & E3 & E4 & E5) & R & S).
  set (v := after_indexes d w) in *. clearbody v. simpl in E1, E2, E3, E4, E5.
  assert (∀ l, foldl id_action v l = v) as ->.
  { intros l. induction l as [|k l IH]; [done|]. cbn [foldl]. assert (id_action v k = v) as ->; [|done].
    unfold id_action. destruct (ls_bucket_guards (lw_state v) !! k) as [[source ref]|] eqn:Eb; [|done].
    specialize (S k _ Eb). simpl in S. by destruct source. }
  assert (ls_scan_guard (lw_state v) = None) as ->.
  { rewrite E5. apply (sd_no_scan _ _ _ (lo_steady _ _ LO)). by rewrite Er. }
  split; [|done]. apply (live_ok_transfer f w); try done.
  - rewrite E1. by apply apply_diff_keyed.
  - rewrite E5. by destruct (lw_state w).
  - intros k. by rewrite E5.
  - by rewrite Er.
  - by rewrite R, E1.
Qed.

(** A diff of the store leaves the live query equal to the filtered store. *)
Lemma live_store_diff_ok f d w :
  live_ok f w → live_fine f d (lw_store w) →
  live_ok f (live_store_diff d w) ∧ lw_store (live_store_diff d w) = apply_diff d (lw_store w) ∧
  lw_generation (live_store_diff d w) = lw_generation w.
Proof.
  intros LO Hfine. destruct (query_route f) as [[ids|route]|] eqn:Er.
  - by apply (live_store_diff_ids f d w ids).
  - by apply (live_store_diff_index f d w route).
  - by apply (live_store_diff_scan f d w).
Qed.
End store.
