(* ===== verification/QueryFixtures.v ===== *)
(** * Concrete rows and queries for the routed query theorems

    Children that belong to a parent and to a session, and two iteration orders of the hash
    maps. *)

From stdpp Require Import base strings numbers option countable gmap gmultiset sets list.
From S2P Require Import Prelude Order GraphTypes GraphWatch WatchProof Fixtures Filter QueryRoute SourceIndex SourceFollow LiveQuery.

(** The order of [map_to_list], and its reverse. *)
Definition forward_order : HashOrder.
Proof. by refine {| iterate := λ V m, map_to_list m |}. Defined.
Definition backward_order : HashOrder.
Proof. refine {| iterate := λ V m, reverse (map_to_list m) |}. intros V m. apply reverse_Permutation. Defined.

Module Qx.
(** A child with its two foreign keys and a rank. *)
Record Child := mkChild { parent : string; session : string; rank : Z }.
#[export] Instance Child_eq_dec : EqDecision Child.
Proof. solve_decision. Defined.

Definition child (id parent session : string) (rank : Z) : Item Child := mkItem "Child" id (mkChild parent session rank).

Definition parents : list (string * (Item Child → string)) :=
  [("parent_id", λ item, parent (item_payload item)); ("session_id", λ item, session (item_payload item))].

Lemma parents_ok : fields_ok parents.
Proof.
  split; [apply (bool_decide_eq_true_1 _); vm_compute; reflexivity|].
  apply (bool_decide_eq_true_1 _). vm_compute. reflexivity.
Qed.

#[export] Instance child_query : LiveFilterQuery Child (XQuery (P:=Child)) := xquery_live "Child" parents.
#[export] Instance child_laws : RoutedLaws Child (XQuery (P:=Child)) := xquery_laws "Child" parents parents_ok.

Definition by_parent (item : Item Child) : option CompoundKey := Some [parent (item_payload item)].

Definition store : gmap string (Item Child) :=
  {["a" := child "a" "p1" "s1" 1; "b" := child "b" "p2" "s1" 2; "c" := child "c" "p3" "s2" 3]}.

(** One row changes parent. *)
Definition move : MapDiff (Item Child) := Update "a" (child "a" "p1" "s1" 1) (child "a" "p2" "s1" 1).
(** One changes rank, one leaves, one arrives. *)
Definition change : MapDiff (Item Child) :=
  Batch [Update "a" (child "a" "p1" "s1" 1) (child "a" "p1" "s1" 5); Remove "b" (child "b" "p2" "s1" 2);
         Insert "d" (child "d" "p2" "s2" 4)].

(** Children of two parents with a rank of at least two; all children of rank at least two;
    two children by id. *)
Definition ranked (item : Item Child) : bool := bool_decide (2 ≤ rank (item_payload item))%Z.
Definition of_parents : XQuery (P:=Child) := mkXQuery None [Some (IdIn ["p1"; "p2"]); None] [Some ranked].
Definition of_rank : XQuery (P:=Child) := mkXQuery None [None; None] [Some ranked].
Definition of_ids : XQuery (P:=Child) := mkXQuery (Some (IdIn ["a"; "d"])) [None; Some (IdEq "s2")] [].
End Qx.
