(* ===== verification/QueryTheorems.v ===== *)
(** * What routed and live queries show

    The contract of the foreign-key index, of the union of its buckets, and of live filter
    queries, with what modelling showed of them. *)

From stdpp Require Import base strings numbers option countable gmap gmultiset sets list.
From S2P Require Import Prelude Order GraphTypes EdgeIds GraphIndex GraphQuery GraphWatch WatchProof SessionProof SessionRun Fixtures.
From S2P Require Import Filter QueryRoute SourceIndex SourceIndexProof SourceFollow LiveQuery LiveQueryProof LiveTick QueryFixtures.

Section index.
Context {P : Type} `{!CellMap (Item P), !HashOrder}.

(** C23: Whatever happens before and after a bucket of [key] is handed out, in any interleaving of
    store diffs, delivery steps, openings, drops and sweeps: as long as its holder keeps it,
    draining the queue terminates and leaves it with exactly the rows of the store filed
    under [key]. *)
Theorem live_buckets_follow_store (ext : CompoundFkExtractor P) (store : gmap string (Item P)) key
    (before after : list (IndexEvent P)) :
  let s1 := run_index before (store, index_new ext store) in
  let opened := bucket_for key s1.2 in
  let s2 := run_index after (s1.1, opened.1) in
  let idle := (drain_index (drain_fuel s2.2) s2.2).1 in
  events_valid before (store, index_new ext store) → events_valid after (s1.1, opened.1) →
  opened.2 ∈ si_held s2.2 →
  queued idle = [] ∧ si_dispatching idle = false ∧ bucket_rows idle opened.2 = bucket_of ext s2.1 key.
Proof.
  intros s1 opened s2 idle V1 V2 Hheld. destruct (index_new_ok ext store) as (OK0 & _ & X0 & _).
  destruct (run_index_ok before store _ V1 OK0) as [OK1 (X1 & _ & _)]. fold s1 in OK1, X1.
  pose proof (bucket_for_ok s1.1 key s1.2 OK1) as OK1'. pose proof (bucket_for_kept key s1.2) as (X1' & _ & _).
  pose proof (bucket_for_entry key s1.2) as [Hk Hh]. fold opened in OK1', X1', Hk, Hh.
  destruct (run_index_ok after s1.1 opened.1 V2 OK1') as [OK2 (X2 & _ & K2)]. fold s2 in OK2, X2, K2.
  subst idle. rewrite (drain_index_ok _ _ OK2). split; [done|]. split; [done|].
  assert (alive s2.2 opened.2 = true) as Ha by (apply alive_spec; by left).
  destruct (ok_alive _ _ OK2 _ Ha) as [key' Hk'].
  assert (key' = key) as ->.
  { eapply (ok_injective _ _ OK1'); [|exact Hk]. apply K2; [|done]. by eapply ok_fresh. }
  cbn [fst]. rewrite (idle_bucket s2.1 (drained s2.2) key _ (drained_ok _ _ OK2)); try done. simpl. by rewrite X2, X1', X1, X0.
Qed.

(** A run of diffs none of which moves a row from one of the keys to another. *)
Fixpoint diffs_stay (ext : CompoundFkExtractor P) keys (diffs : list (MapDiff (Item P))) (m : gmap string (Item P)) : Prop :=
  match diffs with
  | [] => True
  | d :: diffs => diff_valid d m ∧ stays ext keys d m ∧ diffs_stay ext keys diffs (apply_diff d m)
  end.

Lemma union_run ext m idx ws u diffs :
  union_ok m idx ws u → si_extract idx = ext → diffs_stay ext ws.*1 diffs m →
  let '(m', idx', u') := foldl union_diff (m, idx, u) diffs in
  m' = foldl (λ m d, apply_diff d m) m diffs ∧ union_ok m' idx' ws u' ∧ si_extract idx' = ext.
Proof.
  revert m idx u. induction diffs as [|d diffs IH]; intros m idx u U Hx D; [done|]. destruct D as (V & St & D).
  cbn [foldl]. rewrite <-Hx in St. pose proof (union_diff_ok m idx ws u d U V St) as Hd.
  destruct (union_diff (m, idx, u) d) as [[m1 idx1] u1]. destruct Hd as (-> & U1 & X1).
  apply IH; [done|congruence|done].
Qed.

(** The union map of a query over several keys shows the rows of the store filed under one of
    them, from the moment it is built over an index with any history, and after every diff of
    the store that does not move a row directly from one of its keys to another, in whatever
    order the keys of a diff are handed to the buckets. *)
Theorem union_map_follows_store (ext : CompoundFkExtractor P) (store : gmap string (Item P)) keys
    (before : list (IndexEvent P)) (diffs : list (MapDiff (Item P))) :
  let s := run_index before (store, index_new ext store) in
  let built := build_belongs_to_union_source_map keys (drain_index (drain_fuel s.2) s.2).1 in
  let after := foldl union_diff (s.1, built.1, built.2) diffs in
  events_valid before (store, index_new ext store) → NoDup keys → diffs_stay ext keys diffs s.1 →
  after.1.1 = foldl (λ m d, apply_diff d m) s.1 diffs ∧ un_result after.2 = select (in_keys ext keys) after.1.1.
Proof.
  intros s built after V ND D. subst after built.
  destruct (build_belongs_to_union_source_map keys _) as [idx u] eqn:Eb. cbn [fst snd].
  destruct (index_new_ok ext store) as (OK0 & _ & X0 & _).
  destruct (run_index_ok before store _ V OK0) as [OK (X & _ & _)]. fold s in OK, X. rewrite X0 in X.
  rewrite (drain_index_ok _ _ OK) in Eb. cbn [fst] in Eb.
  pose proof (union_empty_ok s.1 (drained s.2) (drained_ok _ _ OK) eq_refl) as U0.
  destruct (union_build_ok s.1 (drained s.2) [] _ keys U0 ND) as (ws & U & Ek & Ex).
  unfold build_belongs_to_union_source_map in Eb. rewrite Eb in U, Ex. simpl in U, Ex, Ek. rewrite X in Ex.
  rewrite <-Ek in D. pose proof (union_run ext s.1 idx ws u diffs U Ex D) as Hr.
  destruct (foldl union_diff (s.1, idx, u) diffs) as [[m idx'] u']. destruct Hr as (-> & [_ _ _ _ ->] & Hx').
  split; [done|]. simpl. by rewrite Hx', Ek.
Qed.
End index.

(** ** Live queries *)
Section live.
Context {P F : Type} `{!CellMap (Item P), !HashOrder, !LiveFilterQuery P F, !RoutedLaws P F}.
Implicit Types (f : F) (w : LiveWorld P F).

(** C24: A query by value shows the same rows whether its filter routes it to the cells of its ids,
    to the union of the buckets of its keys, or to the scan of the store: the rows the filter
    matches. *)
Theorem routed_view_is_the_scan f (store : gmap string (Item P))
    (index_for : list string → CompoundFkExtractor P → SourceIndex P) :
  well_keyed store →
  (∀ names ext, index_ok store (index_for names ext) ∧ si_dispatching (index_for names ext) = false ∧
                si_extract (index_for names ext) = ext) →
  (∀ route, query_route f = Some (RouteBelongsTo route) → NoDup (rt_keys route)) →
  cell_factory f store index_for = filtered f store.
Proof.
  intros K HI HN. unfold cell_factory, build_view. destruct (query_route f) as [[ids|route]|] eqn:Er; simpl; [..|done];
    apply map_eq; intros id; apply option_eq; intros x; unfold filter_query_over_source, filtered; rewrite !lookup_select.
  - rewrite lookup_ids_source_map. split; [by intros [[_ ?] ?]|]. intros [Hx Hm]. split; [|done]. split; [|done].
    rewrite <-(K id x Hx). by eapply ids_route_sound.
  - destruct (HI (rt_field_names route) (rt_extract_fk route)) as (OK & Hi & Hx).
    set (idx := index_for _ _) in *. pose proof (union_empty_ok store idx OK Hi) as U0.
    destruct (union_build_ok store idx [] _ (rt_keys route) U0 (HN route eq_refl)) as (ws & [_ _ _ _ Eu] & Ek & Ex).
    unfold build_belongs_to_union_source_map. rewrite Eu. simpl. rewrite lookup_select, Ex, Hx, Ek. simpl.
    split; [by intros [[? _] ?]|]. intros [Hs Hm]. split; [|done]. split; [done|]. apply in_keys_spec.
    by eapply belongs_to_route_sound.
Qed.

(** The filter in force after the events. *)
Definition filter_after (events : list (LiveEvent P F)) f : F :=
  foldl (λ f event, match event with FilterChanged f' => f' | _ => f end) f events.
Definition store_after (events : list (LiveEvent P F)) (m : gmap string (Item P)) : gmap string (Item P) :=
  foldl (λ m event, match event with StoreChanged d => apply_diff d m | _ => m end) m events.

(** Diffs are of the kind the filter in force can follow; a late callback is one whose
    subscription the query no longer has. *)
Fixpoint live_events_fine (events : list (LiveEvent P F)) f w : Prop :=
  match events with
  | [] => True
  | event :: events =>
      match event with
      | FilterChanged _ => True
      | StoreChanged d => live_fine f d (lw_store w)
      | LateCallback ref _ _ => ¬ subscribed w ref
      end ∧ live_events_fine events (filter_after [event] f) (live_event w event)
  end.

Lemma live_run_ok events f w :
  live_ok f w → (lw_generation w + Z.of_nat (length events) ≤ u64_max)%Z → live_events_fine events f w →
  live_ok (filter_after events f) (run_live events w) ∧ lw_store (run_live events w) = store_after events (lw_store w).
Proof.
  revert f w. induction events as [|event events IH]; intros f w LO Hb Hf; [done|].
  destruct Hf as [He Hf]. cbn [length] in Hb.
  assert (live_ok (filter_after [event] f) (live_event w event) ∧
          lw_store (live_event w event) = store_after [event] (lw_store w) ∧
          (lw_generation (live_event w event) ≤ lw_generation w + 1)%Z) as (L1 & S1 & G1).
  { destruct event as [f'|d|ref scope d]; cbn [live_event filter_after store_after foldl].
    - destruct (live_tick_ok _ _ _ f' (lo_steady _ _ LO)) as (L & S & G); [lia|]. split; [done|]. split; [done|lia].
    - destruct (live_store_diff_ok f d w LO He) as (L & S & G). split; [done|]. split; [done|lia].
    - rewrite (late_callback f) by done. split; [done|]. split; [done|lia]. }
  destruct (IH _ _ L1) as [L2 S2]; [lia|done|]. split; [exact L2|]. cbn [run_live foldl]. rewrite S1 in S2. exact S2.
Qed.

(** C25: A live query shows the rows of the store that its current filter matches: from the start,
    after every change of the filter, whatever the routes of the old and the new one, and
    after every change of the store that is no replacement of the whole store and moves no row
    from one key of the current route to another; a callback that was still waiting when its
    subscription was dropped changes nothing. *)
Theorem live_query_shows_the_filtered_store (store : gmap string (Item P)) f (events : list (LiveEvent P F)) :
  well_keyed store → (Z.of_nat (length events) < u64_max)%Z → live_events_fine events f (query_live store f) →
  lw_result (run_live events (query_live store f)) = filtered (filter_after events f) (store_after events store).
Proof.
  intros K Hb Hf. destruct (query_live_ok store f K) as (L & S & G).
  destruct (live_run_ok events f (query_live store f) L) as [L' S']; [lia|done|].
  rewrite (live_ok_result _ _ L'), S'. by rewrite S.
Qed.
End live.

(** ** Checking the hypotheses on concrete runs *)
Section checks.
Context {P : Type}.
Implicit Types (m : gmap string (Item P)) (d : MapDiff (Item P)).

#[local] Instance carries_dec (ext : CompoundFkExtractor P) d m id key : Decision (carries ext d m id key).
Proof. unfold carries. apply _. Defined.

Definition stays_check (ext : CompoundFkExtractor P) (keys : list CompoundKey) d m : bool :=
  forallb (λ id, forallb (λ key1, forallb (λ key2,
    negb (bool_decide (carries ext d m id key1) && bool_decide (carries ext d m id key2)) || bool_decide (key1 = key2))
    keys) keys) ((map_to_list m).*1 ++ (diff_entries d).*1).

Lemma stays_check_sound ext keys d m : stays_check ext keys d m = true → stays ext keys d m.
Proof.
  unfold stays_check. rewrite forallb_forall. intros Hc id key1 key2 Hk1 Hk2 C1 C2.
  assert (id ∈ (map_to_list m).*1 ++ (diff_entries d).*1) as Hin.
  { apply elem_of_app. destruct C1 as [C|C].
    - left. destruct (m !! id) as [x|] eqn:Ex; [|done]. apply list_elem_of_fmap. exists (id, x). split; [done|].
      by apply elem_of_map_to_list.
    - right. apply Exists_exists in C as ([id' x] & Hx & <- & _). apply list_elem_of_fmap. by exists (id', x). }
  apply list_elem_of_In, Hc in Hin. rewrite forallb_forall in Hin. apply list_elem_of_In, Hin in Hk1.
  rewrite forallb_forall in Hk1. apply list_elem_of_In, Hk1 in Hk2.
  rewrite (bool_decide_true _ C1), (bool_decide_true _ C2) in Hk2. simpl in Hk2. by apply bool_decide_eq_true in Hk2.
Qed.

Lemma not_subscribed {F} (w : LiveWorld P F) ref :
  bool_decide (ref ∈ (λ e, lb_ref e.2) <$> map_to_list (ls_bucket_guards (lw_state w)))
    || bool_decide (ls_scan_guard (lw_state w) = Some ref) = false →
  ¬ subscribed w ref.
Proof.
  rewrite orb_false_iff, !bool_decide_eq_false. intros [H1 H2] [(k & b & Hb & <-)|?]; [|done]. apply H1.
  apply list_elem_of_fmap. exists (k, b). split; [done|]. by apply elem_of_map_to_list.
Qed.
End checks.

#[local] Existing Instances forward_order Qx.child_query Qx.child_laws.

(** A bucket of the first parent opened while a row's arrival is still queued. *)
Definition qx_before : list (IndexEvent Qx.Child) :=
  [OpenBucket ["p2"]; StoreDiff Qx.change; DrainStep; OpenBucket ["p3"]].
Definition qx_after : list (IndexEvent Qx.Child) := [DrainStep; DropBucket 1; SweepBuckets].

Lemma live_buckets_follow_store_witness :
  let s1 := run_index qx_before (Qx.store, index_new Qx.by_parent Qx.store) in
  let opened := bucket_for ["p2"] s1.2 in
  let s2 := run_index qx_after (s1.1, opened.1) in
  let idle := (drain_index (drain_fuel s2.2) s2.2).1 in
  (queued idle = [] ∧ si_dispatching idle = false ∧ bucket_rows idle opened.2 = bucket_of Qx.by_parent s2.1 ["p2"]) ∧
  bucket_rows idle opened.2 = {["d" := Qx.child "d" "p2" "s2" 4]}.
Proof.
  cbv zeta. split.
  - apply (live_buckets_follow_store Qx.by_parent Qx.store ["p2"] qx_before qx_after).
    + vm_compute. repeat split.
    + vm_compute. repeat split.
    + apply (bool_decide_eq_true_1 _). vm_compute. reflexivity.
  - vm_compute. reflexivity.
Defined.

Lemma union_map_follows_store_witness :
  let keys := [["p1"]; ["p2"]] in
  let s := run_index [] (Qx.store, index_new Qx.by_parent Qx.store) in
  let built := build_belongs_to_union_source_map keys (drain_index (drain_fuel s.2) s.2).1 in
  let after := foldl union_diff (s.1, built.1, built.2) [Qx.change] in
  (after.1.1 = foldl (λ m d, apply_diff d m) s.1 [Qx.change] ∧
   un_result after.2 = select (in_keys Qx.by_parent keys) after.1.1) ∧
  un_result after.2 = {["a" := Qx.child "a" "p1" "s1" 5; "d" := Qx.child "d" "p2" "s2" 4]}.
Proof.
  cbv zeta. split.
  - apply (union_map_follows_store Qx.by_parent Qx.store [["p1"]; ["p2"]] [] [Qx.change]).
    + exact I.
    + apply (bool_decide_eq_true_1 _). vm_compute. reflexivity.
    + split; [vm_compute; repeat split|]. split; [|exact I]. apply stays_check_sound. vm_compute. reflexivity.
  - vm_compute. reflexivity.
Defined.

Lemma routed_view_is_the_scan_witness :
  let index_for (_ : list string) ext := index_new ext Qx.store in
  cell_factory Qx.of_parents Qx.store index_for = filtered Qx.of_parents Qx.store ∧
  cell_factory Qx.of_parents Qx.store index_for = ({["b" := Qx.child "b" "p2" "s1" 2]} : gmap string (Item Qx.Child)).
Proof.
  cbv zeta. split; [|vm_compute; reflexivity]. apply (routed_view_is_the_scan Qx.of_parents Qx.store).
  - intros k x Hx. assert (map_Forall (λ k x, item_id x = k) Qx.store) as Hm; [|by apply Hm].
    apply (bool_decide_eq_true_1 _). vm_compute. reflexivity.
  - intros _ ext. destruct (index_new_ok ext Qx.store) as (? & ? & ? & _). done.
  - intros route Er. assert (rt_keys route = [["p1"]; ["p2"]]) as ->.
    { apply (f_equal (λ o, match o with Some (RouteBelongsTo r) => rt_keys r | _ => [] end)) in Er.
      etrans; [symmetry; exact Er|]. vm_compute. reflexivity. }
    apply (bool_decide_eq_true_1 _). vm_compute. reflexivity.
Defined.

(** Two filters routed through buckets, a scan and an id route, rows changing in between, and
    a callback of the first bucket arriving after it was dropped. *)
Definition qx_events : list (LiveEvent Qx.Child (XQuery (P:=Qx.Child))) :=
  [StoreChanged Qx.change; FilterChanged Qx.of_rank; LateCallback 0 BucketScope Qx.change;
   StoreChanged (Remove "c" (Qx.child "c" "p3" "s2" 3)); FilterChanged Qx.of_ids].

Lemma live_query_shows_the_filtered_store_witness :
  let w := run_live qx_events (query_live Qx.store Qx.of_parents) in
  lw_result w = filtered (filter_after qx_events Qx.of_parents) (store_after qx_events Qx.store) ∧
  lw_result w = ({["d" := Qx.child "d" "p2" "s2" 4]} : gmap string (Item Qx.Child)).
Proof.
  cbv zeta. split.
  - apply (live_query_shows_the_filtered_store Qx.store Qx.of_parents qx_events).
    + intros k x Hx. assert (map_Forall (λ k x, item_id x = k) Qx.store) as Hm.
      { apply (bool_decide_eq_true_1 _). vm_compute. reflexivity. }
      by apply Hm.
    + vm_compute. reflexivity.
    + split; [|split; [exact I|split; [|split; [|split; [exact I|exact I]]]]].
      * split; [vm_compute; repeat split|]. split; [vm_compute; repeat split|]. split; [reflexivity|].
        apply stays_check_sound. vm_compute. reflexivity.
      * apply not_subscribed. vm_compute. reflexivity.
      * split; [vm_compute; repeat split|]. split; [vm_compute; repeat split|]. split; [reflexivity|exact I].
  - vm_compute. reflexivity.
Defined.

(** ** What the hypotheses exclude

    Where the code does not keep the contract: rows that move between two keys of one query,
    and complete replacements under a live query. *)

Definition qx_swap : MapDiff (Item Qx.Child) :=
  Batch [Update "a" (Qx.child "a" "p1" "s1" 1) (Qx.child "a" "p2" "s1" 1);
         Update "b" (Qx.child "b" "p2" "s1" 2) (Qx.child "b" "p1" "s1" 2)].

Definition qx_union_after (order : HashOrder) (d : MapDiff (Item Qx.Child)) : gset string :=
  let built := @build_belongs_to_union_source_map Qx.Child _ [["p1"]; ["p2"]] (@index_new _ _ order Qx.by_parent Qx.store) in
  dom (un_result (@union_diff _ _ order (Qx.store, built.1, built.2) d).2).

(** A row that moves from one key of a union to another is in the union before and after, but
    the actions of the two buckets come in the order of a hash map: in one order the union
    loses the row.  Two rows that swap keys in one batch lose one of them in either order. *)
Lemma moved_row_leaves_the_union :
  qx_union_after forward_order Qx.move ≠ qx_union_after backward_order Qx.move ∧
  size (qx_union_after forward_order qx_swap) = 1 ∧ size (qx_union_after backward_order qx_swap) = 1.
Proof.
  split; [|split; vm_compute; reflexivity].
  apply (bool_decide_eq_false_1 _). vm_compute. reflexivity.
Qed.

(** The same for a live query over the two keys. *)
Lemma swapped_rows_leave_the_live_query :
  let q : XQuery (P:=Qx.Child) := mkXQuery None [Some (IdIn ["p1"; "p2"]); None] [] in
  size (lw_result (query_live Qx.store q)) = 2 ∧
  size (lw_result (run_live [StoreChanged qx_swap] (query_live Qx.store q))) = 1 ∧
  size (filtered q (apply_diff qx_swap Qx.store)) = 2.
Proof. vm_compute. done. Qed.

(** A replacement of the store reaches a bucket's subscription as the rows the bucket has
    now, and the rows it no longer has stay in the live query's result. *)
Lemma replaced_store_leaves_stale_rows :
  lw_store (run_live [StoreChanged (Initial [])] (query_live Qx.store Qx.of_parents)) = ∅ ∧
  dom (lw_result (run_live [StoreChanged (Initial [])] (query_live Qx.store Qx.of_parents))) = {["b"]}.
Proof. split; [vm_compute; reflexivity|]. apply (bool_decide_eq_true_1 _). vm_compute. reflexivity. Qed.

(** A scanning query that is handed a replacement keeps the old version of a row that still
    matches. *)
Lemma replaced_row_stays_old :
  let d := Initial [("b", Qx.child "b" "p2" "s1" 9)] in
  lw_result (run_live [StoreChanged d] (query_live Qx.store Qx.of_rank)) !! "b" = Some (Qx.child "b" "p2" "s1" 2) ∧
  lw_store (run_live [StoreChanged d] (query_live Qx.store Qx.of_rank)) !! "b" = Some (Qx.child "b" "p2" "s1" 9).
Proof. split; vm_compute; reflexivity. Qed.
