(* ===== verification/RelatedWatch.v ===== *)
(** * Related-entity watches

    [graph_related_entity_watch] and [graph_neighbor_entity_watch] of
    [core/src/core/graph.rs], which join a live map of edges to the entities at their other
    ends; the typed maps of [core/src/core/item/cell_map_cast.rs] between the two; and the
    routed views of [core/src/core/query/context.rs] built from them.

    A watch subscribes to the cell of every entity it references, and switches for good to one
    subscription on the whole store when it references many.  Its callbacks take the
    [dispatch] lock, so each of them is one step; a store write and the notification of its
    subscribers are two, with [pending] the diffs whose subscribers have not run yet. *)

From stdpp Require Import base strings numbers option countable gmap sets list.
From S2P Require Import Prelude Order GraphTypes EdgeIds GraphIndex GraphQuery GraphWatch WatchProof.

(** ** Typed maps

    [downcast_ref::<T>] succeeds on the items of the entity type [t]. *)
Section typed.
Context {P : Type} `{!CellMap (Item P)}.
Implicit Types (t : string) (diff : MapDiff (Item P)) (item : Item P).

Definition downcast_any_item_arc t item : option (Item P) :=
  if bool_decide (item_type item = t) then Some item else None.

Fixpoint downcast_any_item_map_diff_arc t diff : option (MapDiff (Item P)) :=
  match diff with
  | Initial entries => Some (Initial (omap (λ entry : string * Item P, pair entry.1 <$> downcast_any_item_arc t entry.2) entries))
  | Insert key value => Insert key <$> downcast_any_item_arc t value
  | Remove key old_value => Remove key <$> downcast_any_item_arc t old_value
  | Update key old_value new_value =>
      old ← downcast_any_item_arc t old_value;
      new ← downcast_any_item_arc t new_value;
      Some (Update key old new)
  | Batch changes => Some (Batch (omap (downcast_any_item_map_diff_arc t) changes))
  end.

(** The callback of [typed_map_arc_from_any_item]. *)
Definition typed_callback t diff (typed : gmap string (Item P)) : gmap string (Item P) :=
  match downcast_any_item_map_diff_arc t diff with
  | Some diff => apply_diff diff typed
  | None => typed
  end.

(** The subscription starts with the contents of the source. *)
Definition typed_map_arc_from_any_item t (source : gmap string (Item P)) : gmap string (Item P) :=
  typed_callback t (Initial (map_to_list source)) ∅.

(** The changes of a diff under the ids of the values themselves, flattened. *)
Fixpoint remap_diff_to_typed_id diff : list (MapDiff (Item P)) :=
  match diff with
  | Initial entries => [Initial ((λ entry : string * Item P, (item_id entry.2, entry.2)) <$> entries)]
  | Insert _ value => [Insert (item_id value) value]
  | Remove _ old_value => [Remove (item_id old_value) old_value]
  | Update _ old_value new_value =>
      if bool_decide (item_id old_value = item_id new_value)
      then [Update (item_id new_value) old_value new_value]
      else [Remove (item_id old_value) old_value; Insert (item_id new_value) new_value]
  | Batch changes => concat (remap_diff_to_typed_id <$> changes)
  end.

Definition typed_id_callback t diff (typed : gmap string (Item P)) : gmap string (Item P) :=
  match downcast_any_item_map_diff_arc t diff with
  | None => typed
  | Some diff =>
      match remap_diff_to_typed_id diff with
      | [change] => apply_diff change typed
      | changes => apply_diff (Batch changes) typed
      end
  end.

Definition typed_map_from_any_item_with_typed_id t (source : gmap string (Item P)) : gmap string (Item P) :=
  typed_id_callback t (Initial (map_to_list source)) ∅.
End typed.

(** ** The state of a watch *)
Section related.
Context {P : Type} `{!CellMap (Item P)}.
Implicit Types (edge_id target_id : string) (store output : gmap string (Item P)) (diff : MapDiff (Item P)).

(** The guard of a subscription is named by the generation its callback was created with. *)
Record RelatedTargetSubscription := mkTargetSub {
  ts_references : Z;
  ts_generation : Z;
  ts_guard : option Z
}.

Definition RetiredRelatedTarget : Type := string * option Z.

Record RelatedEntityWatchState := mkRelated {
  rs_edge_targets : gmap string string;
  rs_targets : gmap string RelatedTargetSubscription;
  rs_next_generation : Z;
  rs_bulk_target_guard : bool;
  rs_bulk_targets : bool
}.
Implicit Types (st : RelatedEntityWatchState).

Definition related_default : RelatedEntityWatchState := mkRelated ∅ ∅ 0 false false.

Definition with_targets (edge_targets : gmap string string) (targets : gmap string RelatedTargetSubscription) st :=
  mkRelated edge_targets targets (rs_next_generation st) (rs_bulk_target_guard st) (rs_bulk_targets st).

Definition remove_edge edge_id st : RelatedEntityWatchState * option RetiredRelatedTarget :=
  match rs_edge_targets st !! edge_id with
  | None => (st, None)
  | Some target_id =>
      let edge_targets := delete edge_id (rs_edge_targets st) in
      match rs_targets st !! target_id with
      | None => (with_targets edge_targets (rs_targets st) st, None)
      | Some target =>
          if bool_decide (1 < ts_references target)%Z then
            (with_targets edge_targets
               (<[target_id := mkTargetSub (sat_sub (ts_references target) 1) (ts_generation target) (ts_guard target)]>
                  (rs_targets st)) st, None)
          else
            (with_targets edge_targets (delete target_id (rs_targets st)) st, Some (target_id, ts_guard target))
      end
  end.

(** The state with the targets retired and added since the callback began. *)
Definition Touched : Type := RelatedEntityWatchState * list RetiredRelatedTarget * list (string * Z).
Implicit Types (acc : Touched).

Definition retire_edge edge_id acc : Touched :=
  let '(st, retired, added) := acc in
  match remove_edge edge_id st with
  | (st, Some target) => (st, retired ++ [target], added)
  | (st, None) => (st, retired, added)
  end.

Definition upsert_edge edge_id target_id acc : Touched :=
  if bool_decide (rs_edge_targets acc.1.1 !! edge_id = Some target_id) then acc
  else
    let '(st, retired, added) := retire_edge edge_id acc in
    let edge_targets := <[edge_id := target_id]> (rs_edge_targets st) in
    match rs_targets st !! target_id with
    | Some target =>
        (with_targets edge_targets
           (<[target_id := mkTargetSub (sat_add (ts_references target) 1) (ts_generation target) (ts_guard target)]>
              (rs_targets st)) st, retired, added)
    | None =>
        let generation := sat_add (rs_next_generation st) 1 in
        (mkRelated edge_targets (<[target_id := mkTargetSub 1 generation None]> (rs_targets st)) generation
           (rs_bulk_target_guard st) (rs_bulk_targets st), retired, added ++ [(target_id, generation)])
    end.

(** ** The related end of an edge *)

Definition related_entity_id (r : EdgeRegistration P) (t : string) (position : EndPosition) (edge : Item P) : option string :=
  match extract r edge with
  | Err _ => None
  | Ok endpoints =>
      let entity := ep_entity (end_at position endpoints) in
      if bool_decide (ref_type entity = t) then Some (ref_id entity) else None
  end.

Definition neighbor_entity_id (r : EdgeRegistration P) (t : string) (endpoint : EndpointValue) (edge : Item P) : option string :=
  match extract r edge with
  | Err _ => None
  | Ok endpoints =>
      entity ← (if bool_decide (ends_a endpoints = endpoint) then Some (ep_entity (ends_b endpoints))
                else if bool_decide (ends_b endpoints = endpoint) then Some (ep_entity (ends_a endpoints))
                else None);
      if bool_decide (ref_type entity = t) then Some (ref_id entity) else None
  end.

(** ** Edge diffs *)
Section diffs.
Context (related_id : Item P → option string).

Definition upsert_related acc edge_id (edge : Item P) : Touched :=
  match related_id edge with
  | Some target_id => upsert_edge edge_id target_id acc
  | None => acc
  end.

Definition refresh_related acc edge_id (edge : Item P) : Touched :=
  match related_id edge with
  | Some target_id => upsert_edge edge_id target_id acc
  | None => retire_edge edge_id acc
  end.

Fixpoint apply_related_edge_diff diff acc : Touched :=
  match diff with
  | Initial entries =>
      let '(st, retired, added) := acc in
      let drained := (λ target : string * RelatedTargetSubscription, (target.1, ts_guard target.2)) <$> map_to_list (rs_targets st) in
      foldl (λ acc entry, upsert_related acc entry.1 entry.2) (with_targets ∅ ∅ st, retired ++ drained, added) entries
  | Insert key value | Update key _ value => refresh_related acc key value
  | Remove key _ => retire_edge key acc
  | Batch changes => foldl (λ acc change, apply_related_edge_diff change acc) acc changes
  end.
End diffs.

(** ** The output *)

Record RelatedWatch := mkRelatedWatch {
  rw_state : RelatedEntityWatchState;
  rw_output : gmap string (Item P);
  (** the subscriptions dropped with their targets *)
  rw_dropped : list (string * Z)
}.
Implicit Types (w : RelatedWatch).

Definition with_output output w : RelatedWatch := mkRelatedWatch (rw_state w) output (rw_dropped w).
Definition with_watch_state st w : RelatedWatch := mkRelatedWatch st (rw_output w) (rw_dropped w).

Definition set_row target_id (value : option (Item P)) output : gmap string (Item P) :=
  match value with Some item => <[target_id := item]> output | None => delete target_id output end.

(** The callback on the cell of one target. *)
Definition target_callback target_id (generation : Z) (value : option (Item P)) w : RelatedWatch :=
  let is_current := match rs_targets (rw_state w) !! target_id with
                    | Some target => bool_decide (ts_generation target = generation)
                    | None => false
                    end in
  if is_current then with_output (set_row target_id value (rw_output w)) w else w.

(** The subscription calls back with the current value before its guard is stored; a guard
    that is not stored is dropped. *)
Definition install_related_target_subscription store w (target : string * Z) : RelatedWatch :=
  let '(target_id, generation) := target in
  let w := target_callback target_id generation (store !! target_id) w in
  let st := rw_state w in
  match rs_targets st !! target_id with
  | Some target =>
      if bool_decide (ts_generation target = generation) && bool_decide (ts_guard target = None)
      then with_watch_state (with_targets (rs_edge_targets st)
             (<[target_id := mkTargetSub (ts_references target) generation (Some generation)]> (rs_targets st)) st) w
      else w
  | None => w
  end.

Fixpoint collect_bulk_target_actions diff st (acc : list (string * Item P) * list string)
  : list (string * Item P) * list string :=
  match diff with
  | Initial _ => acc
  | Insert key value | Update key _ value =>
      if bool_decide (is_Some (rs_targets st !! key)) then (acc.1 ++ [(key, value)], acc.2) else acc
  | Remove key _ => if bool_decide (is_Some (rs_targets st !! key)) then (acc.1, acc.2 ++ [key]) else acc
  | Batch changes => foldl (λ (acc : list (string * Item P) * list string) change, collect_bulk_target_actions change st acc) acc changes
  end.

Definition remove_many (keys : list string) output : gmap string (Item P) := foldl (λ output key, delete key output) output keys.
Definition insert_many (entries : list (string * Item P)) output : gmap string (Item P) :=
  foldl (λ output entry, <[entry.1 := entry.2]> output) output entries.

Definition apply_related_output_actions output (removals : list string) (upserts : list (string * Item P))
  : gmap string (Item P) :=
  let output := match removals with
                | [key] => delete key output
                | [] => output
                | _ => remove_many removals output
                end in
  match upserts with
  | [(key, value)] => <[key := value]> output
  | [] => output
  | _ => insert_many upserts output
  end.

(** The callback of the subscription on the whole store. *)
Definition bulk_callback diff w : RelatedWatch :=
  if negb (rs_bulk_targets (rw_state w)) then w
  else
    let '(upserts, removals) := collect_bulk_target_actions diff (rw_state w) ([], []) in
    with_output (apply_related_output_actions (rw_output w) removals upserts) w.

Definition stored_rows store (targets : list string) : list (string * Item P) :=
  omap (λ target_id, pair target_id <$> store !! target_id) targets.

Definition install_bulk_target_subscription store w : RelatedWatch :=
  let w := bulk_callback (Initial (map_to_list store)) w in
  let st := rw_state w in
  let '(w, target_ids) :=
    if rs_bulk_targets st && negb (rs_bulk_target_guard st)
    then (with_watch_state (mkRelated (rs_edge_targets st) (rs_targets st) (rs_next_generation st) true (rs_bulk_targets st)) w,
          (map_to_list (rs_targets st)).*1)
    else (w, []) in
  match stored_rows store target_ids with
  | [] => w
  | entries => with_output (insert_many entries (rw_output w)) w
  end.

Definition MIN_BULK_TARGETS : Z := 1024.
Definition MIN_DENSITY_DENOMINATOR : Z := 4.

Definition prefer_bulk_target_subscription (targets : Z) store : bool :=
  if bool_decide (targets < MIN_BULK_TARGETS)%Z then false
  else bool_decide (Z.of_nat (size store) `div` MIN_DENSITY_DENOMINATOR ≤ targets)%Z.

(** [target.guard.take()] of every target. *)
Definition take_guards (targets : gmap string RelatedTargetSubscription) : gmap string RelatedTargetSubscription :=
  (λ target, mkTargetSub (ts_references target) (ts_generation target) None) <$> targets.

Definition activate (st : RelatedEntityWatchState) : RelatedEntityWatchState :=
  mkRelated (rs_edge_targets st) (take_guards (rs_targets st)) (rs_next_generation st) (rs_bulk_target_guard st) true.

Definition retired_subscriptions (retired : list RetiredRelatedTarget) : list (string * Z) :=
  omap (λ target : RetiredRelatedTarget, pair target.1 <$> target.2) retired.

(** The callback on the edges: [graph_related_entity_watch_by]. *)
Definition edge_callback (related_id : Item P → option string) store diff w : RelatedWatch :=
  let '(st, retired, added) := apply_related_edge_diff related_id diff (rw_state w, [], []) in
  let activate_bulk :=
    negb (rs_bulk_targets st) && prefer_bulk_target_subscription (Z.of_nat (size (rs_targets st))) store in
  let st := if activate_bulk then activate st else st in
  let w := mkRelatedWatch st (rw_output w) (retired_subscriptions retired ++ rw_dropped w) in
  let removals := retired.*1 in
  if activate_bulk then
    install_bulk_target_subscription store (with_output (apply_related_output_actions (rw_output w) removals []) w)
  else if rs_bulk_targets st then
    with_output (apply_related_output_actions (rw_output w) removals (stored_rows store added.*1)) w
  else
    foldl (install_related_target_subscription store)
      (with_output (apply_related_output_actions (rw_output w) removals []) w) added.

(** The subscription to the edges starts with the edges there are. *)
Definition graph_related_entity_watch_by (related_id : Item P → option string) (edges : gmap string (Item P)) store
  : RelatedWatch :=
  edge_callback related_id store (Initial (map_to_list edges)) (mkRelatedWatch related_default ∅ []).

Definition graph_related_entity_watch (r : EdgeRegistration P) (t : string) (edges : gmap string (Item P)) store
    (position : EndPosition) : RelatedWatch :=
  graph_related_entity_watch_by (related_entity_id r t position) edges store.

Definition graph_neighbor_entity_watch (r : EdgeRegistration P) (t : string) (edges : gmap string (Item P)) store
    (endpoint : EndpointValue) : RelatedWatch :=
  graph_related_entity_watch_by (neighbor_entity_id r t endpoint) edges store.

(** ** Notifications of the store *)

(** The value a diff leaves an id with, if it is about it. *)
Fixpoint last_value diff (id : string) : option (option (Item P)) :=
  match diff with
  | Initial _ => None
  | Insert key value | Update key _ value => if bool_decide (key = id) then Some (Some value) else None
  | Remove key _ => if bool_decide (key = id) then Some None else None
  | Batch changes => foldl (λ last change, match last_value change id with Some o => Some o | None => last end) None changes
  end.

(** The cell of a target with a live subscription has a new value. *)
Definition notify_target diff w (target : string * RelatedTargetSubscription) : RelatedWatch :=
  match ts_guard target.2, last_value diff target.1 with
  | Some generation, Some value => target_callback target.1 generation value w
  | _, _ => w
  end.

Definition store_notified diff w : RelatedWatch :=
  let w := foldl (notify_target diff) w (map_to_list (rs_targets (rw_state w))) in
  if rs_bulk_target_guard (rw_state w) then bulk_callback diff w else w.

(** ** Runs *)

Inductive RelatedEvent :=
| EdgesChanged (diff : MapDiff (Item P))
| StoreWritten (diff : MapDiff (Item P))
(** the subscribers of the oldest write that has not been announced run *)
| StoreNotified
(** a callback of a dropped subscription that was waiting for the lock *)
| LateTarget (target_id : string) (generation : Z) (value : option (Item P)).

Record RelatedWorld := mkRelatedWorld {
  rl_edges : gmap string (Item P);
  rl_store : gmap string (Item P);
  rl_pending : list (MapDiff (Item P));
  rl_watch : RelatedWatch
}.

Definition related_event (related_id : Item P → option string) (s : RelatedWorld) (event : RelatedEvent) : RelatedWorld :=
  match event with
  | EdgesChanged diff =>
      mkRelatedWorld (apply_diff diff (rl_edges s)) (rl_store s) (rl_pending s)
        (edge_callback related_id (rl_store s) diff (rl_watch s))
  | StoreWritten diff =>
      mkRelatedWorld (rl_edges s) (apply_diff diff (rl_store s)) (rl_pending s ++ [diff]) (rl_watch s)
  | StoreNotified =>
      match rl_pending s with
      | [] => s
      | diff :: pending => mkRelatedWorld (rl_edges s) (rl_store s) pending (store_notified diff (rl_watch s))
      end
  | LateTarget target_id generation value =>
      mkRelatedWorld (rl_edges s) (rl_store s) (rl_pending s) (target_callback target_id generation value (rl_watch s))
  end.

Definition run_related (related_id : Item P → option string) (events : list RelatedEvent) (s : RelatedWorld) : RelatedWorld :=
  foldl (related_event related_id) s events.
End related.
Arguments RelatedWatch : clear implicits.
Arguments RelatedWorld : clear implicits.
Arguments RelatedEvent : clear implicits.
