(* ===== verification/RelatedProof.v ===== *)
(** * A related-entity watch counts its references

    What one diff of the edges does to the state of a watch: the reference counts are those
    of the edges, and the lists of retired and added targets account for every change of the
    target table. *)

From stdpp Require Import base strings numbers option countable gmap sets list.
From S2P Require Import Prelude Order GraphTypes EdgeIds GraphIndex GraphQuery GraphWatch WatchProof RelatedWatch.

Section related.
Context {P : Type} `{!CellMap (Item P)}.
Context (related_id : Item P → option string).
Implicit Types (st : RelatedEntityWatchState) (acc : Touched) (m : gmap string (Item P)) (d : MapDiff (Item P))
  (et : gmap string string) (s : RelatedTargetSubscription).

(** ** Counting *)

Definition counted et (t : string) : Z := Z.of_nat (size (filter (λ kv : string * string, kv.2 = t) et)).

Lemma counted_empty t : counted ∅ t = 0%Z.
Proof. unfold counted. by rewrite map_filter_empty, map_size_empty. Qed.

Lemma counted_insert et e t t' :
  et !! e = None → counted (<[e := t]> et) t' = (counted et t' + if bool_decide (t = t') then 1 else 0)%Z.
Proof.
  intros E. unfold counted. case_bool_decide as Ht.
  - rewrite map_filter_insert_True by done. rewrite map_size_insert_None; [lia|].
    apply map_lookup_filter_None. by left.
  - rewrite map_filter_insert_not' by (simpl; congruence). lia.
Qed.

Lemma counted_delete et e t t' :
  et !! e = Some t → counted (delete e et) t' = (counted et t' - if bool_decide (t = t') then 1 else 0)%Z.
Proof.
  intros E. pose proof (counted_insert (delete e et) e t t' (lookup_delete_eq _ _)) as Hc.
  rewrite insert_delete_id in Hc by done. lia.
Qed.

Lemma counted_nonneg et t : (0 ≤ counted et t)%Z.
Proof. unfold counted. lia. Qed.

Lemma counted_le et t : (counted et t ≤ Z.of_nat (size et))%Z.
Proof. unfold counted. apply inj_le, map_subseteq_size, map_filter_subseteq. Qed.

Lemma counted_pos et e t : et !! e = Some t → (0 < counted et t)%Z.
Proof.
  intros E. pose proof (counted_delete et e t t E) as Hc. rewrite bool_decide_true in Hc by done.
  pose proof (counted_nonneg (delete e et) t). lia.
Qed.

Lemma counted_zero et t : counted et t = 0%Z → ∀ e, et !! e ≠ Some t.
Proof. intros Hc e E. pose proof (counted_pos _ _ _ E). lia. Qed.

Lemma counted_some et t : (0 < counted et t)%Z → ∃ e, et !! e = Some t.
Proof.
  unfold counted. intros Hc. destruct (map_choose (filter (λ kv : string * string, kv.2 = t) et)) as (e & t' & He).
  - intros E. rewrite E, map_size_empty in Hc. lia.
  - apply map_lookup_filter_Some in He as [He <-]. by exists e.
Qed.

(** The target table counts the edges of each target, and has no other targets. *)
Definition counts_ok st : Prop :=
  ∀ t, match rs_targets st !! t with
       | Some s => ts_references s = counted (rs_edge_targets st) t ∧ (0 < ts_references s)%Z
       | None => counted (rs_edge_targets st) t = 0%Z
       end.

Definition generations_ok st : Prop :=
  (0 ≤ rs_next_generation st)%Z ∧ ∀ t s, rs_targets st !! t = Some s → (0 < ts_generation s ≤ rs_next_generation st)%Z.

(** ** The accounting of a callback

    [st0] is the state when the callback began. *)
Record tracks st0 acc : Prop := {
  tk_counts : counts_ok acc.1.1;
  tk_generations : generations_ok acc.1.1;
  tk_next : (rs_next_generation st0 ≤ rs_next_generation acc.1.1)%Z;
  tk_added t g : (t, g) ∈ acc.2 → (rs_next_generation st0 < g ≤ rs_next_generation acc.1.1)%Z;
  tk_target t s : rs_targets acc.1.1 !! t = Some s →
    (t ∉ acc.1.2.*1 ∧ ∃ s0, rs_targets st0 !! t = Some s0 ∧ ts_generation s0 = ts_generation s ∧ ts_guard s0 = ts_guard s) ∨
    ((t, ts_generation s) ∈ acc.2 ∧ ts_guard s = None ∧ (is_Some (rs_targets st0 !! t) → t ∈ acc.1.2.*1));
  tk_missing t : rs_targets acc.1.1 !! t = None → is_Some (rs_targets st0 !! t) → t ∈ acc.1.2.*1;
  tk_retired t o : (t, o) ∈ acc.1.2 → o = None ∨ ∃ s0, rs_targets st0 !! t = Some s0 ∧ o = ts_guard s0;
  tk_bulk : rs_bulk_targets acc.1.1 = rs_bulk_targets st0;
  tk_bulk_guard : rs_bulk_target_guard acc.1.1 = rs_bulk_target_guard st0
}.

(** Edges and generations so far. *)
Definition within (n : Z) acc : Prop :=
  (rs_next_generation acc.1.1 ≤ n)%Z ∧ (Z.of_nat (size (rs_edge_targets acc.1.1)) ≤ n)%Z.

Lemma tracks_start st : counts_ok st → generations_ok st → tracks st (st, [], []).
Proof.
  intros C G. split; simpl; try done.
  - by intros t g ?%elem_of_nil.
  - intros t s Hs. left. split; [by intros ?%elem_of_nil|]. by exists s.
  - intros t E [s Hs]. congruence.
  - by intros t o ?%elem_of_nil.
Qed.

Lemma retire_edge_targets e acc : rs_edge_targets (retire_edge e acc).1.1 = delete e (rs_edge_targets acc.1.1).
Proof.
  destruct acc as [[st retired] added]. unfold retire_edge, remove_edge. simpl.
  destruct (rs_edge_targets st !! e) as [t|] eqn:E; [|simpl; by rewrite delete_id].
  destruct (rs_targets st !! t) as [s|]; [|done]. by case_bool_decide.
Qed.

Lemma retire_edge_added e acc : (retire_edge e acc).2 = acc.2.
Proof. destruct acc as [[st retired] added]. unfold retire_edge. by destruct (remove_edge e st) as [st' [o|]]. Qed.

Lemma retire_edge_next e acc : rs_next_generation (retire_edge e acc).1.1 = rs_next_generation acc.1.1.
Proof.
  destruct acc as [[st retired] added]. unfold retire_edge, remove_edge. simpl.
  destruct (rs_edge_targets st !! e) as [t|]; [|done]. destruct (rs_targets st !! t) as [s|]; [|done]. by case_bool_decide.
Qed.

Lemma retire_edge_tracks st0 e acc : tracks st0 acc → tracks st0 (retire_edge e acc).
Proof.
  destruct acc as [[st retired] added]. intros [C G N A T M R B BG]. simpl in *. unfold retire_edge, remove_edge.
  destruct (rs_edge_targets st !! e) as [t|] eqn:E; [|by split].
  pose proof (counted_delete _ _ _ t E) as Hd. rewrite bool_decide_true in Hd by done.
  pose proof (counted_pos _ _ _ E) as Hp. pose proof (C t) as Ct.
  destruct (rs_targets st !! t) as [s|] eqn:Es; [|lia]. destruct Ct as [Cr Cp].
  assert (∀ t', t ≠ t' → counted (delete e (rs_edge_targets st)) t' = counted (rs_edge_targets st) t') as Hne.
  { intros t' Hne. rewrite (counted_delete _ _ t) by done. rewrite bool_decide_false by done. lia. }
  case_bool_decide as Hr; split; simpl; try done.
  - intros t'. simpl. destruct (decide (t = t')) as [<-|Hn].
    + rewrite lookup_insert_eq. simpl. unfold sat_sub. lia.
    + rewrite lookup_insert_ne, Hne by done. apply C.
  - destruct G as [G0 G]. split; [done|]. simpl. intros t' s' [[<- <-]|[_ Hs]]%lookup_insert_Some; simpl; by eapply G.
  - intros t' s' [[<- <-]|[_ Hs]]%lookup_insert_Some; simpl; [apply (T _ _ Es)|by apply T].
  - intros t' [En Hne']%lookup_insert_None. by apply M.
  - intros t'. simpl. destruct (decide (t = t')) as [<-|Hn].
    + rewrite lookup_delete_eq. lia.
    + rewrite lookup_delete_ne, Hne by done. apply C.
  - destruct G as [G0 G]. split; [done|]. simpl. intros t' s' [_ Hs]%lookup_delete_Some. by eapply G.
  - intros t' s' [Hn Hs]%lookup_delete_Some. rewrite fmap_app. cbn [fmap list_fmap fst].
    destruct (T _ _ Hs) as [[Hr' Hs']|(Ha & Hg & Hr')]; [left|right].
    + split; [|done]. rewrite elem_of_app, list_elem_of_singleton. naive_solver.
    + split_and!; [done|done|]. rewrite elem_of_app. naive_solver.
  - intros t' En Hs. rewrite fmap_app, elem_of_app. cbn [fmap list_fmap fst]. rewrite list_elem_of_singleton.
    destruct (decide (t = t')) as [<-|Hn]; [by right|]. rewrite lookup_delete_ne in En by done. left. by apply M.
  - intros t' o [Ho| [= -> ->]%list_elem_of_singleton]%elem_of_app; [by apply R|].
    destruct (T _ _ Es) as [[_ (s0 & H0 & _ & Hg)]|(_ & Hg & _)]; [right|by left]. by exists s0.
Qed.

Lemma upsert_edge_targets e t acc : rs_edge_targets (upsert_edge e t acc).1.1 = <[e := t]> (rs_edge_targets acc.1.1).
Proof.
  unfold upsert_edge. case_bool_decide as E; [by rewrite insert_id|].
  pose proof (retire_edge_targets e acc) as Ht. destruct (retire_edge e acc) as [[st retired] added]. simpl in Ht.
  destruct (rs_targets st !! t); simpl; by rewrite Ht, insert_delete_eq.
Qed.

Lemma size_insert_le {V} (m : gmap string V) k v : size (<[k := v]> m) ≤ S (size m).
Proof. rewrite map_size_insert. destruct (m !! k); simpl; lia. Qed.

Lemma size_delete_le {V} (m : gmap string V) k : size (delete k m) ≤ size m.
Proof. rewrite map_size_delete. destruct (m !! k); simpl; lia. Qed.

Lemma upsert_edge_tracks st0 e t acc n :
  tracks st0 acc → within n acc → (n < u64_max)%Z → tracks st0 (upsert_edge e t acc) ∧ within (n + 1) (upsert_edge e t acc).
Proof.
  intros T W Hn. pose proof (upsert_edge_targets e t acc) as Ht. revert Ht. unfold upsert_edge.
  case_bool_decide as E; intros Ht; [split; [done|destruct W; split; lia]|].
  pose proof (retire_edge_tracks st0 e acc T) as T1. pose proof (retire_edge_targets e acc) as Hd.
  pose proof (retire_edge_next e acc) as Hx.
  destruct (retire_edge e acc) as [[st retired] added]. destruct T1 as [C G N A T1 M R B BG]. simpl in *.
  destruct W as [W1 W2]. rewrite <-Hx in W1.
  assert (Z.of_nat (size (<[e := t]> (rs_edge_targets acc.1.1))) ≤ n + 1)%Z as W2'.
  { pose proof (size_insert_le (rs_edge_targets acc.1.1) e t). lia. }
  assert (rs_edge_targets st !! e = None) as Ee by (rewrite Hd; apply lookup_delete_eq).
  pose proof (λ t', counted_insert _ e t t' Ee) as Hc.
  destruct (rs_targets st !! t) as [s|] eqn:Es; simpl in *; (split; [split; simpl; try done|]).
  - intros t'. simpl. rewrite Hc. destruct (decide (t = t')) as [<-|Hne].
    + rewrite lookup_insert_eq, bool_decide_true by done. simpl. pose proof (C t) as Ct. rewrite Es in Ct. destruct Ct as [Cr Cp].
      pose proof (counted_le (<[e := t]> (rs_edge_targets st)) t) as Hle. rewrite Hc, Ht, bool_decide_true in Hle by done.
      rewrite sat_add_exact; lia.
    + rewrite lookup_insert_ne, bool_decide_false by done. rewrite Z.add_0_r. apply C.
  - destruct G as [G0 G]. split; [done|]. simpl. intros t' s' [[<- <-]|[_ Hs]]%lookup_insert_Some; simpl; by eapply G.
  - intros t' s' [[<- <-]|[_ Hs]]%lookup_insert_Some; simpl; [apply (T1 _ _ Es)|by apply T1].
  - intros t' [En Hne']%lookup_insert_None. by apply M.
  - split; simpl; [lia|]. by rewrite Ht.
  - intros t'. simpl. rewrite Hc. destruct (decide (t = t')) as [<-|Hne].
    + rewrite lookup_insert_eq, bool_decide_true by done. simpl. pose proof (C t) as Ct. rewrite Es in Ct. lia.
    + rewrite lookup_insert_ne, bool_decide_false by done. rewrite Z.add_0_r. apply C.
  - destruct G as [G0 G]. split; simpl; rewrite sat_add_exact by lia; [lia|]. intros t' s' [[<- <-]|[_ Hs]]%lookup_insert_Some; simpl.
    + lia.
    + apply G in Hs. lia.
  - rewrite sat_add_exact; lia.
  - rewrite sat_add_exact by lia. intros t' g [Ha|Ha]%elem_of_app; [apply A in Ha; lia|].
    apply list_elem_of_singleton in Ha as [= -> ->]. rewrite ?sat_add_exact; lia.
  - intros t' s' [[<- <-]|[Hne Hs]]%lookup_insert_Some; simpl.
    + right. split; [apply elem_of_app; right; by left|]. split; [done|]. intros Hs. by apply M.
    + destruct (T1 _ _ Hs) as [?|(Ha & ?)]; [by left|right]. split; [|done]. apply elem_of_app. by left.
  - intros t' [En Hne']%lookup_insert_None. by apply M.
  - split; simpl; [|by rewrite Ht]. rewrite sat_add_exact; lia.
Qed.

(** ** One diff *)

Definition drain_targets acc : Touched :=
  let '(st, retired, added) := acc in
  let drained := (λ target : string * RelatedTargetSubscription, (target.1, ts_guard target.2)) <$> map_to_list (rs_targets st) in
  (with_targets ∅ ∅ st, retired ++ drained, added).

Lemma drain_tracks st0 acc n : tracks st0 acc → within n acc → tracks st0 (drain_targets acc) ∧ within n (drain_targets acc).
Proof.
  destruct acc as [[st retired] added]. intros [C [G0 G] N A T M R B BG] [W1 W2]. simpl in *.
  split; [|by split; simpl; rewrite ?map_size_empty; lia].
  assert (∀ t s, rs_targets st !! t = Some s → (t, ts_guard s) ∈ (λ target : string * RelatedTargetSubscription, (target.1, ts_guard target.2)) <$> map_to_list (rs_targets st)) as Hdr.
  { intros t s Hs. apply list_elem_of_fmap. exists (t, s). split; [done|]. by apply elem_of_map_to_list. }
  split; simpl; try done.
  - intros t _ Hs. rewrite fmap_app, elem_of_app. destruct (rs_targets st !! t) as [s|] eqn:Es; [|left; by apply M].
    right. apply list_elem_of_fmap. exists (t, ts_guard s). split; [done|]. by apply Hdr.
  - intros t o [Ho|Ho]%elem_of_app; [by apply R|].
    apply list_elem_of_fmap in Ho as ([t' s] & [= -> ->] & Hs%elem_of_map_to_list).
    destruct (T _ _ Hs) as [[_ (s0 & H0 & _ & Hg)]|(_ & Hg & _)]; [right|by left]. by exists s0.
Qed.

Lemma drain_edge_targets acc : rs_edge_targets (drain_targets acc).1.1 = ∅.
Proof. by destruct acc as [[st retired] added]. Qed.

Lemma upsert_related_tracks st0 e x acc n :
  tracks st0 acc → within n acc → (n < u64_max)%Z →
  tracks st0 (upsert_related related_id acc e x) ∧ within (n + 1) (upsert_related related_id acc e x).
Proof.
  intros T W Hn. unfold upsert_related. destruct (related_id x); [by apply upsert_edge_tracks|].
  split; [done|]. destruct W; split; lia.
Qed.

Lemma upsert_related_map e x acc m :
  rs_edge_targets acc.1.1 = omap related_id m → m !! e = None →
  rs_edge_targets (upsert_related related_id acc e x).1.1 = omap related_id (<[e := x]> m).
Proof.
  intros E Hm. unfold upsert_related. destruct (related_id x) as [t|] eqn:Er.
  - by rewrite upsert_edge_targets, E, (omap_insert_Some _ _ _ _ t).
  - rewrite omap_insert_None by done. rewrite E, delete_id; [done|]. by rewrite lookup_omap, Hm.
Qed.

Lemma foldl_insert_list_to_map (entries : list (string * Item P)) m :
  NoDup entries.*1 → (∀ k, k ∈ entries.*1 → m !! k = None) →
  foldl (λ m entry, <[entry.1 := entry.2]> m) m entries = list_to_map entries ∪ m.
Proof.
  revert m. induction entries as [|[k x] l IH]; intros m ND Hm; [cbn; by rewrite (left_id_L ∅ (∪))|].
  rewrite fmap_cons in ND, Hm. apply NoDup_cons in ND as [Hk ND]. cbn [foldl fst snd list_to_map foldr]. rewrite IH.
  - unfold uncurry. rewrite <-insert_union_r, insert_union_l; [done|]. by apply not_elem_of_list_to_map_1.
  - done.
  - intros k' Hk'. rewrite lookup_insert_ne; [|by intros ->]. apply Hm. by right.
Qed.

Lemma initial_tracks st0 (entries : list (string * Item P)) acc m n :
  tracks st0 acc → within n acc → (n + Z.of_nat (length entries) ≤ u64_max)%Z →
  NoDup entries.*1 → (∀ k, k ∈ entries.*1 → m !! k = None) → rs_edge_targets acc.1.1 = omap related_id m →
  let acc' := foldl (λ acc entry, upsert_related related_id acc entry.1 entry.2) acc entries in
  tracks st0 acc' ∧ within (n + Z.of_nat (length entries)) acc' ∧
  rs_edge_targets acc'.1.1 = omap related_id (foldl (λ m entry, <[entry.1 := entry.2]> m) m entries).
Proof.
  revert acc m n. induction entries as [|[k x] l IH]; intros acc m n T W Hn ND Hm E; cbn zeta; cbn [foldl length] in *.
  - split; [done|]. split; [|done]. destruct W; split; lia.
  - rewrite fmap_cons in ND, Hm. apply NoDup_cons in ND as [Hk ND]. cbn [fst snd].
    destruct (upsert_related_tracks st0 k x acc n T W) as [T1 W1]; [lia|].
    destruct (IH (upsert_related related_id acc k x) (<[k := x]> m) (n + 1)%Z T1 W1) as (T2 & W2 & E2); [lia|done|..].
    + intros k' Hk'. rewrite lookup_insert_ne; [|by intros ->]. apply Hm. by right.
    + apply upsert_related_map; [done|]. apply Hm. by left.
    + split; [done|]. split; [|done]. destruct W2. split; lia.
Qed.

Lemma refresh_related_tracks st0 e x acc n :
  tracks st0 acc → within n acc → (n < u64_max)%Z →
  tracks st0 (refresh_related related_id acc e x) ∧ within (n + 1) (refresh_related related_id acc e x).
Proof.
  intros T W Hn. unfold refresh_related. destruct (related_id x); [by apply upsert_edge_tracks|].
  split; [by apply retire_edge_tracks|]. destruct W as [W1 W2]. split.
  - rewrite retire_edge_next. lia.
  - rewrite retire_edge_targets. pose proof (size_delete_le (rs_edge_targets acc.1.1) e). lia.
Qed.

Lemma refresh_related_map e x acc m :
  rs_edge_targets acc.1.1 = omap related_id m →
  rs_edge_targets (refresh_related related_id acc e x).1.1 = omap related_id (<[e := x]> m).
Proof.
  intros E. unfold refresh_related. destruct (related_id x) as [t|] eqn:Er.
  - by rewrite upsert_edge_targets, E, (omap_insert_Some _ _ _ _ t).
  - by rewrite retire_edge_targets, E, omap_insert_None.
Qed.

Lemma retire_edge_map e acc m :
  rs_edge_targets acc.1.1 = omap related_id m →
  rs_edge_targets (retire_edge e acc).1.1 = omap related_id (delete e m).
Proof. intros E. by rewrite retire_edge_targets, E, omap_delete. Qed.

Lemma related_diff_tracks st0 d acc m n :
  tracks st0 acc → within n acc → (n + Z.of_nat (diff_weight d) ≤ u64_max)%Z → diff_valid d m →
  rs_edge_targets acc.1.1 = omap related_id m →
  let acc' := apply_related_edge_diff related_id d acc in
  tracks st0 acc' ∧ within (n + Z.of_nat (diff_weight d)) acc' ∧ rs_edge_targets acc'.1.1 = omap related_id (apply_diff d m).
Proof.
  revert acc m n. induction d as [entries|k x|k x|k x y|changes IH] using MapDiff_rect'; intros acc m n T W Hn V E; cbn zeta.
  - destruct (drain_tracks st0 acc n T W) as [T1 W1].
    destruct (initial_tracks st0 entries (drain_targets acc) ∅ n T1 W1) as (T2 & W2 & E2); [done|done|done| |].
    { by rewrite drain_edge_targets, omap_empty. }
    rewrite apply_initial by done. rewrite foldl_insert_list_to_map, (right_id_L ∅ (∪)) in E2 by done.
    by destruct acc as [[st retired] added].
  - rewrite apply_insert. destruct (refresh_related_tracks st0 k x acc n T W) as [T1 W1]; [simpl in Hn; lia|].
    split; [done|]. split; [done|]. by apply refresh_related_map.
  - rewrite apply_remove. split; [by apply retire_edge_tracks|]. split; [|by apply retire_edge_map].
    destruct W as [W1 W2]. simpl. rewrite Z.add_0_r. split.
    + by rewrite retire_edge_next.
    + rewrite retire_edge_targets. pose proof (size_delete_le (rs_edge_targets acc.1.1) k). lia.
  - rewrite apply_update. destruct (refresh_related_tracks st0 k y acc n T W) as [T1 W1]; [simpl in Hn; lia|].
    split; [done|]. split; [done|]. by apply refresh_related_map.
  - rewrite apply_batch. simpl in Hn |- *. revert acc m n T W Hn V E.
    induction IH as [|d changes Hd _ IH']; intros acc m n T W Hn V E; simpl in *.
    + split; [done|]. split; [|done]. destruct W; split; lia.
    + destruct V as [Vd V]. destruct (Hd acc m n T W) as (T1 & W1 & E1); [lia|done..|].
      destruct (IH' _ (apply_diff d m) _ T1 W1) as (T2 & W2 & E2); [lia|done..|].
      split; [done|]. split; [|done]. destruct W2; split; lia.
Qed.
End related.

(** * A related-entity watch follows its edges and the store

    The output of a watch: after every callback, on every path (single subscriptions, the
    switch to the whole store, the whole store), it holds the stored entities the edges
    reference, up to the writes whose subscribers have not run. *)

Section related.
Context {P : Type} `{!CellMap (Item P)}.
Context (related_id : Item P → option string).
Implicit Types (st : RelatedEntityWatchState) (acc : Touched) (m store output : gmap string (Item P)) (d : MapDiff (Item P))
  (w : RelatedWatch P) (s : RelatedTargetSubscription) (t : string).

(** ** Diffs that are about each id once *)

Fixpoint diff_ids d : list string :=
  match d with
  | Initial entries => entries.*1
  | Insert key _ | Remove key _ | Update key _ _ => [key]
  | Batch changes => concat (diff_ids <$> changes)
  end.

Definition one_change_per_id d : Prop := no_initial d = true ∧ NoDup (diff_ids d).

(** An added target keeps the edge it was added for. *)
Definition settled (ids : list string) acc : Prop :=
  ∀ t g, (t, g) ∈ acc.2 → ∃ e, e ∈ ids ∧ rs_edge_targets acc.1.1 !! e = Some t.

Lemma settled_mono ids ids' acc : ids ⊆ ids' → settled ids acc → settled ids' acc.
Proof. intros Hs S t g Ha. destruct (S t g Ha) as (e & He & E). exists e. split; [by apply Hs|done]. Qed.

Lemma retire_settled ids e acc : settled ids acc → e ∉ ids → settled ids (retire_edge e acc).
Proof.
  intros S He t g. rewrite retire_edge_added, retire_edge_targets. intros (e' & He' & E)%S. exists e'. split; [done|].
  rewrite lookup_delete_ne; [done|]. by intros ->.
Qed.

Lemma upsert_edge_added e t acc :
  (upsert_edge e t acc).2 = acc.2 ∨ ∃ g, (upsert_edge e t acc).2 = acc.2 ++ [(t, g)].
Proof.
  unfold upsert_edge. case_bool_decide; [by left|]. pose proof (retire_edge_added e acc) as E.
  destruct (retire_edge e acc) as [[st retired] added]. simpl in E. subst added.
  destruct (rs_targets st !! t); [by left|right]. by eexists.
Qed.

Lemma upsert_settled ids e t acc : settled ids acc → e ∉ ids → settled (e :: ids) (upsert_edge e t acc).
Proof.
  intros S He t' g Ha. rewrite upsert_edge_targets. destruct (decide (t' = t)) as [->|Hne].
  - exists e. split; [by left|]. by rewrite lookup_insert_eq.
  - assert ((t', g) ∈ acc.2) as (e' & He' & E)%S.
    { destruct (upsert_edge_added e t acc) as [E|[g' E]]; rewrite E in Ha; [done|].
      apply elem_of_app in Ha as [?|[= -> _]%list_elem_of_singleton]; [done|by destruct Hne]. }
    exists e'. split; [by right|]. rewrite lookup_insert_ne; [done|]. by intros <-.
Qed.

Lemma refresh_settled ids e x acc : settled ids acc → e ∉ ids → settled (e :: ids) (refresh_related related_id acc e x).
Proof.
  intros S He. unfold refresh_related. destruct (related_id x); [by apply upsert_settled|].
  apply (settled_mono ids); [set_solver|]. by apply retire_settled.
Qed.

Lemma diff_settled d ids acc :
  no_initial d = true → NoDup (diff_ids d ++ ids) → settled ids acc →
  settled (diff_ids d ++ ids) (apply_related_edge_diff related_id d acc).
Proof.
  revert ids acc. induction d as [entries|k x|k x|k x y|changes IH] using MapDiff_rect'; intros ids acc N ND S; simpl in *;
    [done|apply NoDup_cons in ND as [Hk _]..|].
  - by apply refresh_settled.
  - apply (settled_mono ids); [set_solver|]. by apply retire_settled.
  - by apply refresh_settled.
  - revert ids acc N ND S. induction IH as [|d changes Hd _ IH']; intros ids acc N ND S; simpl in *; [done|].
    apply andb_true_iff in N as [Nd N].
    rewrite (Permutation_app_comm (diff_ids d)), <-(assoc_L (++)) in ND.
    assert (NoDup (diff_ids d ++ ids)) as NDd by (by apply NoDup_app in ND as (_ & _ & ?)).
    pose proof (IH' _ _ N ND (Hd _ _ Nd NDd S)) as S'. eapply settled_mono; [|exact S']. set_solver.
Qed.

End related.

(** ** Writing the output *)
Section output.
Context {P : Type} `{!CellMap (Item P)}.
Implicit Types (st : RelatedEntityWatchState) (acc : Touched) (m store output : gmap string (Item P)) (d : MapDiff (Item P))
  (w : RelatedWatch P) (s : RelatedTargetSubscription) (t : string).


Lemma lookup_remove_many keys output t : remove_many keys output !! t = if bool_decide (t ∈ keys) then None else output !! t.
Proof.
  revert output. induction keys as [|k keys IH]; intros output; [done|]. cbn [remove_many foldl]. change (foldl _ (delete k output) keys)
    with (remove_many keys (delete k output)). rewrite IH.
  destruct (decide (t ∈ keys)) as [Hk|Hk]; [rewrite !bool_decide_true; [done|by right|done]|].
  rewrite (bool_decide_false _ Hk). destruct (decide (t = k)) as [->|Hne].
  - by rewrite lookup_delete_eq, bool_decide_true by (by left).
  - rewrite lookup_delete_ne, bool_decide_false; [done| |done]. rewrite elem_of_cons. tauto.
Qed.

Lemma lookup_insert_many_notin (entries : list (string * Item P)) output t :
  t ∉ entries.*1 → insert_many entries output !! t = output !! t.
Proof.
  revert output. induction entries as [|[k x] l IH]; intros output Ht; [done|]. rewrite fmap_cons, not_elem_of_cons in Ht.
  cbn [insert_many foldl]. change (foldl _ ?o l) with (insert_many l o). rewrite IH by tauto. apply lookup_insert_ne. simpl in Ht. intros <-. by apply (proj1 Ht).
Qed.

Lemma lookup_insert_many (entries : list (string * Item P)) output t x :
  (∀ y, (t, y) ∈ entries → y = x) → (t, x) ∈ entries → insert_many entries output !! t = Some x.
Proof.
  revert output. induction entries as [|[k y] l IH]; intros output Hu Ht; [by apply elem_of_nil in Ht|].
  cbn [insert_many foldl]. change (foldl _ ?o l) with (insert_many l o). destruct (decide (t ∈ l.*1)) as [Hl|Hl].
  - apply IH; [intros z Hz; apply Hu; by right|]. apply list_elem_of_fmap in Hl as ([t' z] & E & Hz). simpl in E. subst t'.
    rewrite <-(Hu z); [done|]. by right.
  - rewrite lookup_insert_many_notin by done. apply elem_of_cons in Ht as [[= <- <-]|Ht]; [apply lookup_insert_eq|].
    destruct Hl. apply list_elem_of_fmap. by exists (t, x).
Qed.

Lemma output_actions output removals upserts :
  apply_related_output_actions output removals upserts = insert_many upserts (remove_many removals output).
Proof. unfold apply_related_output_actions. by destruct removals as [|k [|]], upserts as [|[k' x] [|]]. Qed.

Lemma elem_of_stored_rows store targets t x : (t, x) ∈ stored_rows store targets ↔ t ∈ targets ∧ store !! t = Some x.
Proof.
  unfold stored_rows. rewrite list_elem_of_omap. split.
  - intros (t' & Ht & E). destruct (store !! t') eqn:Es; simpl in E; [|done]. by injection E as -> ->.
  - intros [Ht E]. exists t. by rewrite E.
Qed.

(** The rows of several targets, freshly read from the store. *)
Lemma lookup_hydrated store targets output t :
  insert_many (stored_rows store targets) output !! t =
    if bool_decide (t ∈ targets) then match store !! t with Some x => Some x | None => output !! t end else output !! t.
Proof.
  destruct (decide (t ∈ targets)) as [Ht|Ht].
  - rewrite bool_decide_true by done. destruct (store !! t) as [x|] eqn:Es.
    + apply lookup_insert_many; [|by apply elem_of_stored_rows]. intros y [_ Ey]%elem_of_stored_rows. congruence.
    + apply lookup_insert_many_notin. intros ([t' y] & E & Hy)%list_elem_of_fmap. simpl in E. subst t'.
      apply elem_of_stored_rows in Hy as [_ Ey]. congruence.
  - rewrite bool_decide_false by done. apply lookup_insert_many_notin. intros ([t' y] & E & Hy)%list_elem_of_fmap.
    simpl in E. subst t'. by apply elem_of_stored_rows in Hy as [? _].
Qed.

(** ** Single subscriptions *)

Definition guarded (added : list (string * Z)) t s : RelatedTargetSubscription :=
  if bool_decide ((t, ts_generation s) ∈ added) && bool_decide (ts_guard s = None)
  then mkTargetSub (ts_references s) (ts_generation s) (Some (ts_generation s)) else s.

(** The subscriptions of the added targets that are still wanted, and the rows they start with. *)
Record installed store (added : list (string * Z)) w w' : Prop := {
  in_dropped : rw_dropped w' = rw_dropped w;
  in_edges : rs_edge_targets (rw_state w') = rs_edge_targets (rw_state w);
  in_next : rs_next_generation (rw_state w') = rs_next_generation (rw_state w);
  in_bulk : rs_bulk_targets (rw_state w') = rs_bulk_targets (rw_state w);
  in_bulk_guard : rs_bulk_target_guard (rw_state w') = rs_bulk_target_guard (rw_state w);
  in_targets t : rs_targets (rw_state w') !! t = guarded added t <$> rs_targets (rw_state w) !! t;
  in_output t : rw_output w' !! t =
    match rs_targets (rw_state w) !! t with
    | Some s => if bool_decide ((t, ts_generation s) ∈ added) then store !! t else rw_output w !! t
    | None => rw_output w !! t
    end
}.

Lemma guarded_cons a added t s : guarded added t (guarded [a] t s) = guarded (a :: added) t s.
Proof.
  unfold guarded. destruct (decide (ts_guard s = None)) as [Hg|Hg].
  - destruct (decide ((t, ts_generation s) = a)) as [<-|Hne].
    + rewrite (bool_decide_true (_ ∈ [_])) by (by left). rewrite (bool_decide_true (_ ∈ _ :: _)) by (by left).
      rewrite (bool_decide_true _ Hg). simpl. by rewrite andb_false_r.
    + rewrite (bool_decide_false (_ ∈ [_])) by (by rewrite list_elem_of_singleton). simpl.
      rewrite (bool_decide_true _ Hg), !andb_true_r. erewrite bool_decide_ext; [done|]. rewrite elem_of_cons. tauto.
  - rewrite (bool_decide_false _ Hg), !andb_false_r. by rewrite (bool_decide_false _ Hg), andb_false_r.
Qed.

Lemma guarded_generation added t s : ts_generation (guarded added t s) = ts_generation s.
Proof. unfold guarded. by destruct (_ && _). Qed.

Lemma lookup_set_row t value output t' : set_row t value output !! t' = if bool_decide (t = t') then value else output !! t'.
Proof.
  destruct value; simpl; case_bool_decide as E; subst; by rewrite ?lookup_insert_eq, ?lookup_delete_eq, ?lookup_insert_ne, ?lookup_delete_ne.
Qed.

Lemma install_one store w a : installed store [a] w (install_related_target_subscription store w a).
Proof.
  destruct a as [t g]. unfold install_related_target_subscription, target_callback.
  destruct (rs_targets (rw_state w) !! t) as [s|] eqn:Es; simpl.
  2: { rewrite Es. split; try done; intros t'; destruct (rs_targets (rw_state w) !! t') as [s'|] eqn:Es'; simpl; try done.
       - unfold guarded. rewrite bool_decide_false; [done|]. intros [= -> _]%list_elem_of_singleton. congruence.
       - rewrite bool_decide_false; [done|]. intros [= -> _]%list_elem_of_singleton. congruence. }
  destruct (decide (ts_generation s = g)) as [<-|Hg].
  - rewrite (bool_decide_true (ts_generation s = _)) by done. simpl. rewrite Es, bool_decide_true by done. simpl.
    assert (∀ t', match rs_targets (rw_state w) !! t' with
                  | Some s' => if bool_decide ((t', ts_generation s') ∈ [(t, ts_generation s)]) then store !! t' else rw_output w !! t'
                  | None => rw_output w !! t'
                  end = set_row t (store !! t) (rw_output w) !! t') as Ho.
    { intros t'. rewrite lookup_set_row. case_bool_decide as Et.
      - subst t'. rewrite Es. by rewrite bool_decide_true by (by left).
      - destruct (rs_targets (rw_state w) !! t'); [|done]. rewrite bool_decide_false; [done|].
        intros [= -> _]%list_elem_of_singleton. done. }
    case_bool_decide as Eg; split; try done; intros t'; simpl; rewrite ?Ho; try done.
    + destruct (decide (t = t')) as [<-|Hne].
      * rewrite lookup_insert_eq, Es. simpl. unfold guarded. rewrite bool_decide_true by (by left). by rewrite (bool_decide_true _ Eg).
      * rewrite lookup_insert_ne by done. destruct (rs_targets (rw_state w) !! t'); [|done]. simpl. unfold guarded.
        rewrite bool_decide_false; [done|]. intros [= -> _]%list_elem_of_singleton. done.
    + destruct (rs_targets (rw_state w) !! t') as [s'|] eqn:Es'; [|done]. simpl. unfold guarded.
      case_bool_decide as Ha; [|done]. apply list_elem_of_singleton in Ha as [= -> _].
      assert (s' = s) as -> by congruence. by rewrite (bool_decide_false _ Eg).
  - rewrite (bool_decide_false _ Hg). rewrite Es, (bool_decide_false _ Hg). simpl.
    assert (∀ t' s', rs_targets (rw_state w) !! t' = Some s' → (t', ts_generation s') ∉ [(t, g)]) as Hn.
    { intros t' s' Es' [= -> Eg]%list_elem_of_singleton. congruence. }
    split; try done; intros t'; destruct (rs_targets (rw_state w) !! t') as [s'|] eqn:Es'; try done; simpl; unfold guarded;
      by rewrite bool_decide_false by (by apply Hn).
Qed.

Lemma install_all store added w : installed store added w (foldl (install_related_target_subscription store) w added).
Proof.
  revert w. induction added as [|a added IH]; intros w; cbn [foldl].
  - split; try done; intros t; destruct (rs_targets (rw_state w) !! t); done.
  - pose proof (install_one store w a) as [D1 E1 N1 B1 G1 T1 O1].
    pose proof (IH (install_related_target_subscription store w a)) as [D2 E2 N2 B2 G2 T2 O2].
    split; try congruence; intros t.
    + rewrite T2, T1. destruct (rs_targets (rw_state w) !! t); [|done]. simpl. by rewrite guarded_cons.
    + rewrite O2, T1, O1. destruct (rs_targets (rw_state w) !! t) as [s|]; [|done]. simpl. rewrite guarded_generation.
      destruct (decide ((t, ts_generation s) ∈ added)) as [Ha|Ha]; [rewrite !bool_decide_true; [done|by right|done]|].
      rewrite (bool_decide_false _ Ha). erewrite bool_decide_ext; [done|]. rewrite list_elem_of_singleton, elem_of_cons. tauto.
Qed.

End output.

(** ** The invariant of a watch *)
Section invariant.
Context {P : Type} `{!CellMap (Item P)}.
Context (related_id : Item P → option string).
Implicit Types (st : RelatedEntityWatchState) (acc : Touched) (m store output : gmap string (Item P)) (d : MapDiff (Item P))
  (w : RelatedWatch P) (s : RelatedTargetSubscription) (t : string).


Record watch_ok (n : Z) m store (pending : list (MapDiff (Item P))) w : Prop := {
  wo_edges : rs_edge_targets (rw_state w) = omap related_id m;
  wo_counts : counts_ok (rw_state w);
  wo_generations : generations_ok (rw_state w);
  wo_within : within n (rw_state w, [], []);
  wo_flags : rs_bulk_target_guard (rw_state w) = rs_bulk_targets (rw_state w);
  wo_guards t s : rs_targets (rw_state w) !! t = Some s →
    ts_guard s = if rs_bulk_targets (rw_state w) then None else Some (ts_generation s);
  wo_dropped t g s : (t, g) ∈ rw_dropped w → rs_targets (rw_state w) !! t = Some s → ts_generation s ≠ g;
  wo_issued t g : (t, g) ∈ rw_dropped w → (g ≤ rs_next_generation (rw_state w))%Z;
  wo_missing t : rs_targets (rw_state w) !! t = None → rw_output w !! t = None;
  wo_rows t : is_Some (rs_targets (rw_state w) !! t) → last_value (Batch pending) t = None → rw_output w !! t = store !! t
}.

Lemma lookup_take_guards (targets : gmap string RelatedTargetSubscription) t :
  take_guards targets !! t = (λ s, mkTargetSub (ts_references s) (ts_generation s) None) <$> targets !! t.
Proof. apply lookup_fmap. Qed.

Lemma install_bulk store w :
  rs_bulk_targets (rw_state w) = true → rs_bulk_target_guard (rw_state w) = false →
  install_bulk_target_subscription store w =
    mkRelatedWatch (mkRelated (rs_edge_targets (rw_state w)) (rs_targets (rw_state w)) (rs_next_generation (rw_state w)) true true)
      (insert_many (stored_rows store (map_to_list (rs_targets (rw_state w))).*1) (rw_output w)) (rw_dropped w).
Proof.
  intros Hb Hg. unfold install_bulk_target_subscription, bulk_callback. rewrite Hb. simpl. rewrite Hb, Hg. simpl.
  by destruct (stored_rows store _).
Qed.

Section edges.
Context (n : Z) (store : gmap string (Item P)) (pending : list (MapDiff (Item P))) (m : gmap string (Item P)) (w : RelatedWatch P).
Context (OK : watch_ok n m store pending w) (st : RelatedEntityWatchState) (retired : list RetiredRelatedTarget) (added : list (string * Z)).
Context (T : tracks (rw_state w) (st, retired, added)).

Lemma retired_dropped t g : (t, g) ∈ retired_subscriptions retired → (t, Some g) ∈ retired.
Proof.
  unfold retired_subscriptions. rewrite list_elem_of_omap. intros ([t' [g'|]] & Ho & E); simpl in E; [|done].
  by injection E as -> ->.
Qed.

Lemma dropped_issued t g :
  (t, g) ∈ retired_subscriptions retired ++ rw_dropped w → (g ≤ rs_next_generation (rw_state w))%Z.
Proof.
  intros [Ho%retired_dropped|Ho]%elem_of_app; [|by eapply wo_issued].
  destruct (tk_retired _ _ T _ _ Ho) as [?|(s0 & H0 & E)]; [done|]. rewrite (wo_guards _ _ _ _ _ OK _ _ H0) in E.
  destruct (rs_bulk_targets _); [done|]. injection E as ->. by apply (proj2 (wo_generations _ _ _ _ _ OK) t).
Qed.

Lemma dropped_not_current t g s :
  (t, g) ∈ retired_subscriptions retired ++ rw_dropped w → rs_targets st !! t = Some s → ts_generation s ≠ g.
Proof.
  intros Ho Hs. pose proof (dropped_issued _ _ Ho) as Hle. destruct (tk_target _ _ T t s Hs) as [[Hr (s0 & H0 & Hg & _)]|(Ha & _)].
  - apply elem_of_app in Ho as [Ho%retired_dropped|Ho].
    + destruct Hr. apply list_elem_of_fmap. by exists (t, Some g).
    + rewrite <-Hg. by eapply wo_dropped.
  - apply (tk_added _ _ T) in Ha. simpl in Ha. lia.
Qed.

Lemma retired_missing t : rs_targets st !! t = None → remove_many retired.*1 (rw_output w) !! t = None.
Proof.
  intros E. rewrite lookup_remove_many. case_bool_decide as Hr; [done|].
  destruct (rs_targets (rw_state w) !! t) as [s|] eqn:Es; [|by eapply wo_missing].
  destruct Hr. apply (tk_missing _ _ T t E). simpl. by rewrite Es.
Qed.

(** What the removals leave of a target's row. *)
Lemma retired_rows t s :
  rs_targets st !! t = Some s → last_value (Batch pending) t = None →
  remove_many retired.*1 (rw_output w) !! t = store !! t ∨
  ((t, ts_generation s) ∈ added ∧ remove_many retired.*1 (rw_output w) !! t = None).
Proof.
  intros Hs Hp. rewrite lookup_remove_many. destruct (tk_target _ _ T t s Hs) as [[Hr (s0 & H0 & _)]|(Ha & _ & Hr)].
  - left. rewrite bool_decide_false by done. eapply wo_rows; [done| |done]. by rewrite H0.
  - right. split; [done|]. case_bool_decide as Hr'; [done|]. eapply wo_missing; [done|].
    simpl in Hr. destruct (rs_targets (rw_state w) !! t) eqn:E; [|done]. destruct Hr'. by apply Hr.
Qed.

Lemma sparse_ok m' n' :
  rs_edge_targets st = omap related_id m' → within n' (st, [], []) → rs_bulk_targets st = false →
  watch_ok n' m' store pending
    (foldl (install_related_target_subscription store)
       (mkRelatedWatch st (remove_many retired.*1 (rw_output w)) (retired_subscriptions retired ++ rw_dropped w)) added).
Proof.
  intros E W B.
  set (w1 := mkRelatedWatch st (remove_many retired.*1 (rw_output w)) (retired_subscriptions retired ++ rw_dropped w)).
  pose proof (install_all store added w1) as [D1 E1 N1 B1 G1 T1 O1]. subst w1. simpl in *.
  assert (∀ t s', rs_targets (rw_state (foldl (install_related_target_subscription store)
      (mkRelatedWatch st (remove_many retired.*1 (rw_output w)) (retired_subscriptions retired ++ rw_dropped w)) added)) !! t = Some s' →
      ∃ s, rs_targets st !! t = Some s ∧ s' = guarded added t s) as Hinv.
  { intros t s'. rewrite T1. intros (s & -> & Hs)%fmap_Some. by exists s. }
  set (w2 := foldl _ _ _) in *. clearbody w2.
  pose proof (tk_counts _ _ T) as C. pose proof (tk_generations _ _ T) as [G0 G]. simpl in C, G0, G.
  split; rewrite ?E1, ?N1, ?B1, ?D1, ?G1; try done.
  - intros t. rewrite T1, E1. specialize (C t). destruct (rs_targets st !! t) as [s|]; simpl; [|done].
    unfold guarded. by destruct (_ && _).
  - split; [by rewrite N1|]. rewrite N1. intros t s' (s & Hs & ->)%Hinv. rewrite guarded_generation. by eapply G.
  - destruct W. by split; simpl in *; rewrite ?N1, ?E1.
  - pose proof (tk_bulk_guard _ _ T) as Hb. pose proof (tk_bulk _ _ T) as Hb'. simpl in *. rewrite Hb, Hb'. by eapply wo_flags.
  - rewrite B. intros t s' (s & Hs & ->)%Hinv. rewrite guarded_generation. unfold guarded.
    pose proof (tk_bulk _ _ T) as Hb. simpl in Hb.
    destruct (tk_target _ _ T t s Hs) as [[_ (s0 & H0 & Hg & Hgu)]|(Ha & Hgu & _)].
    + pose proof (wo_guards _ _ _ _ _ OK _ _ H0) as Hgs. rewrite <-Hb, B in Hgs.
      rewrite <-Hgu, Hgs. rewrite (bool_decide_false (Some _ = None)) by done. rewrite andb_false_r, <-Hgu, Hgs. congruence.
    + simpl in Ha. rewrite (bool_decide_true _ Ha), Hgu. by rewrite bool_decide_true.
  - intros t g s' Hd (s & Hs & ->)%Hinv. rewrite guarded_generation. by eapply dropped_not_current.
  - intros t g Hd. apply dropped_issued in Hd. pose proof (tk_next _ _ T). simpl in *. lia.
  - intros t. rewrite T1, O1. destruct (rs_targets st !! t) eqn:Es; simpl; [done|]. intros _. by apply retired_missing.
  - intros t. rewrite T1, O1. destruct (rs_targets st !! t) as [s|] eqn:Es; simpl; [|by intros []]. intros _ Hp.
    case_bool_decide as Ha; [done|]. by destruct (retired_rows t s Es Hp) as [?|[? _]].
Qed.

(** A watch on the whole store, once the rows of the given targets have been read. *)
Lemma bulk_ok m' n' st' (hydrated : list string) :
  rs_edge_targets st = omap related_id m' → within n' (st, [], []) →
  rs_edge_targets st' = rs_edge_targets st → rs_next_generation st' = rs_next_generation st →
  (∀ t, rs_targets st' !! t = (λ s, mkTargetSub (ts_references s) (ts_generation s) None) <$> rs_targets st !! t) →
  rs_bulk_targets st' = true → rs_bulk_target_guard st' = true →
  (∀ t, t ∈ hydrated → is_Some (rs_targets st !! t)) → (∀ t g, (t, g) ∈ added → is_Some (rs_targets st !! t) → t ∈ hydrated) →
  watch_ok n' m' store pending
    (mkRelatedWatch st' (insert_many (stored_rows store hydrated) (remove_many retired.*1 (rw_output w)))
       (retired_subscriptions retired ++ rw_dropped w)).
Proof.
  intros E W Ee En Et Hb Hbg H1 H2.
  pose proof (tk_counts _ _ T) as C. pose proof (tk_generations _ _ T) as [G0 G]. simpl in C, G0, G.
  split; simpl; rewrite ?Ee, ?En, ?Hb, ?Hbg; try done.
  - intros t. simpl. rewrite Et, Ee. specialize (C t). destruct (rs_targets st !! t); simpl; done.
  - split; [by rewrite En|]. rewrite En. intros t s'. rewrite Et. intros (s & Hs & ->)%fmap_Some. simpl; by eapply G.
  - destruct W. by split; simpl in *; rewrite ?En, ?Ee.
  - intros t s'. rewrite Et. by intros (s & Hs & ->)%fmap_Some.
  - intros t g s' Hd. rewrite Et. intros (s & Hs & ->)%fmap_Some. simpl; by eapply dropped_not_current.
  - intros t g Hd. apply dropped_issued in Hd. pose proof (tk_next _ _ T). simpl in *. lia.
  - intros t. rewrite Et, lookup_hydrated. destruct (rs_targets st !! t) eqn:Es; simpl; [done|]. intros _.
    rewrite bool_decide_false; [by apply retired_missing|]. intros [? Hs]%H1. congruence.
  - intros t. rewrite Et, lookup_hydrated. destruct (rs_targets st !! t) as [s|] eqn:Es; simpl; [|by intros []]. intros _ Hp.
    destruct (retired_rows t s Es Hp) as [Hr|[Ha Hr]]; rewrite Hr.
    + case_bool_decide; [|done]. by destruct (store !! t).
    + rewrite bool_decide_true; [by destruct (store !! t)|]. eapply H2; [done|]. by rewrite Es.
Qed.
End edges.

Lemma within_state n acc : within n acc → within n (acc.1.1, [], []).
Proof. done. Qed.

#[local] Arguments apply_related_output_actions : simpl never.

Lemma edge_callback_ok n m store pending w d :
  watch_ok n m store pending w → diff_valid d m → (n + Z.of_nat (diff_weight d) ≤ u64_max)%Z →
  (rs_bulk_targets (rw_state w) = true → one_change_per_id d) →
  watch_ok (n + Z.of_nat (diff_weight d)) (apply_diff d m) store pending (edge_callback related_id store d w).
Proof.
  intros OK V Hn Hone. pose proof (tracks_start _ (wo_counts _ _ _ _ _ OK) (wo_generations _ _ _ _ _ OK)) as T0.
  destruct (related_diff_tracks related_id (rw_state w) d _ m n T0 (wo_within _ _ _ _ _ OK) Hn V (wo_edges _ _ _ _ _ OK)) as (T & W & E).
  assert (rs_bulk_targets (rw_state w) = true →
    settled (diff_ids d ++ []) (apply_related_edge_diff related_id d (rw_state w, [], []))) as S.
  { intros [N ND]%Hone. apply diff_settled; [done|by rewrite app_nil_r|]. by intros t g ?%elem_of_nil. }
  unfold edge_callback. destruct (apply_related_edge_diff related_id d (rw_state w, [], [])) as [[st retired] added].
  simpl in E. pose proof (tk_bulk _ _ T) as Hb. pose proof (tk_bulk_guard _ _ T) as Hbg. simpl in Hb, Hbg.
  pose proof (wo_flags _ _ _ _ _ OK) as Hf. apply within_state in W. simpl in W.
  destruct (negb (rs_bulk_targets st) && prefer_bulk_target_subscription _ store) eqn:Ea.
  - apply andb_true_iff in Ea as [Ea _]. apply negb_true_iff in Ea. rewrite install_bulk; simpl; [|done|congruence].
    rewrite output_actions. simpl. eapply (bulk_ok _ _ _ _ _ OK st retired added T); try done; simpl.
    + intros t. apply lookup_take_guards.
    + intros t ([t' s] & -> & Hs%elem_of_map_to_list)%list_elem_of_fmap. simpl. rewrite lookup_take_guards in Hs.
      apply fmap_Some in Hs as (s' & Hs & _). by rewrite Hs.
    + intros t g _ [s Hs]. apply list_elem_of_fmap. eexists (t, _). split; [done|]. apply elem_of_map_to_list.
      by rewrite lookup_take_guards, Hs.
  - destruct (rs_bulk_targets st) eqn:Ebulk.
    + unfold with_output. simpl. rewrite output_actions. eapply (bulk_ok _ _ _ _ _ OK st retired added T); try done.
      * intros t. destruct (rs_targets st !! t) as [s|] eqn:Es; [|done]. simpl. do 2 f_equal.
        destruct (tk_target _ _ T t s Es) as [[_ (s0 & H0 & _ & Hg)]|(_ & Hg & _)].
        -- rewrite (wo_guards _ _ _ _ _ OK _ _ H0), <-Hb in Hg. destruct s; simpl in *. congruence.
        -- destruct s; simpl in *. congruence.
      * congruence.
      * intros t ([t' g] & -> & Ha)%list_elem_of_fmap. simpl. destruct (S (eq_sym Hb) _ _ Ha) as (e & _ & He). simpl in He.
        apply counted_pos in He. pose proof (tk_counts _ _ T t') as C. simpl in C.
        destruct (rs_targets st !! t'); [done|lia].
      * intros t g Ha _. apply list_elem_of_fmap. by exists (t, g).
    + unfold with_output. simpl. rewrite output_actions. by eapply sparse_ok.
Qed.
End invariant.
