(* ===== verification/RelatedRun.v ===== *)
(** * Runs of a related-entity watch

    Notifications of the store, the invariant over any interleaving of edge changes, store
    writes, their notifications and late callbacks, and the way the changes of the canonical
    edges reach the watch. *)

From stdpp Require Import base strings numbers option countable gmap sets list.
From S2P Require Import Prelude Order GraphTypes EdgeIds GraphIndex GraphQuery GraphWatch WatchProof RelatedWatch RelatedProof.

Section notify.
Context {P : Type} `{!CellMap (Item P)}.
Implicit Types (st : RelatedEntityWatchState) (m store output : gmap string (Item P)) (d : MapDiff (Item P))
  (w : RelatedWatch P) (s : RelatedTargetSubscription) (t : string) (pending : list (MapDiff (Item P))).

(** ** The value a diff leaves *)

Lemma last_value_foldl t changes (o : option (option (Item P))) :
  foldl (λ last change, match last_value change t with Some o => Some o | None => last end) o changes =
  match last_value (Batch changes) t with Some o => Some o | None => o end.
Proof.
  simpl. revert o. induction changes as [|d changes IH]; intros o; simpl; [done|].
  rewrite (IH (match last_value d t with Some o' => Some o' | None => o end)),
    (IH (match last_value d t with Some o' => Some o' | None => None end)).
  by destruct (foldl _ None changes), (last_value d t).
Qed.

Lemma last_value_cons d changes t :
  last_value (Batch (d :: changes)) t =
  match last_value (Batch changes) t with Some o => Some o | None => last_value d t end.
Proof.
  change (last_value (Batch (d :: changes)) t) with
    (foldl (λ last change, match last_value change t with Some o => Some o | None => last end)
       (match last_value d t with Some o => Some o | None => None end) changes).
  rewrite last_value_foldl. by destruct (last_value d t).
Qed.

Lemma last_value_snoc d changes t :
  last_value (Batch (changes ++ [d])) t =
  match last_value d t with Some o => Some o | None => last_value (Batch changes) t end.
Proof. simpl. rewrite foldl_app. done. Qed.

Lemma last_value_apply d m t :
  no_initial d = true → apply_diff d m !! t = match last_value d t with Some o => o | None => m !! t end.
Proof.
  revert m. induction d as [entries|k x|k x|k x y|changes IH] using MapDiff_rect'; intros m N; [done|..].
  - rewrite apply_insert. simpl. case_bool_decide; subst; by rewrite ?lookup_insert_eq, ?lookup_insert_ne.
  - rewrite apply_remove. simpl. case_bool_decide; subst; by rewrite ?lookup_delete_eq, ?lookup_delete_ne.
  - rewrite apply_update. simpl. case_bool_decide; subst; by rewrite ?lookup_insert_eq, ?lookup_insert_ne.
  - rewrite apply_batch. simpl in N. revert m N. induction IH as [|d changes Hd _ IH']; intros m N; [done|].
    simpl in N. apply andb_true_iff in N as [Nd N]. cbn [foldl]. rewrite IH', Hd, last_value_cons by done.
    by destruct (last_value (Batch changes) t).
Qed.

Lemma last_value_ids d t : last_value d t ≠ None → t ∈ diff_ids d.
Proof.
  induction d as [entries|k x|k x|k x y|changes IH] using MapDiff_rect'; try (simpl; case_bool_decide; subst; set_solver).
  - done.
  - induction IH as [|d changes Hd _ IH']; [done|]. rewrite last_value_cons. cbn [diff_ids fmap list_fmap concat].
    rewrite elem_of_app. destruct (last_value (Batch changes) t); [right; by apply IH'|left; by apply Hd].
Qed.

(** ** The two kinds of subscription *)

Lemma notify_targets d l w :
  NoDup l.*1 → (∀ e, e ∈ l → rs_targets (rw_state w) !! e.1 = Some e.2) →
  (∀ e, e ∈ l → ts_guard e.2 = Some (ts_generation e.2)) →
  let w' := foldl (notify_target d) w l in
  rw_state w' = rw_state w ∧ rw_dropped w' = rw_dropped w ∧
  ∀ t, rw_output w' !! t = if bool_decide (t ∈ l.*1) then match last_value d t with Some o => o | None => rw_output w !! t end
                           else rw_output w !! t.
Proof.
  revert w. induction l as [|[t s] l IH]; intros w ND Hl Hg; cbn zeta; [done|]. cbn [foldl].
  rewrite fmap_cons in ND. apply NoDup_cons in ND as [Ht ND].
  assert (notify_target d w (t, s) = with_output (match last_value d t with Some o => set_row t o (rw_output w) | None => rw_output w end) w) as ->.
  { unfold notify_target. pose proof (Hg (t, s) ltac:(by left)) as Hs. cbn [fst snd] in *. rewrite Hs. destruct (last_value d t); [|by destruct w].
    unfold target_callback. pose proof (Hl (t, s) ltac:(by left)) as Ht'. cbn [fst snd] in Ht'. rewrite Ht'. by rewrite bool_decide_true. }
  set (w1 := with_output _ w). destruct (IH w1) as (S & D & O); [done|intros e He; apply Hl; by right|intros e He; apply Hg; by right|].
  rewrite S, D. split; [done|]. split; [done|]. intros t'. rewrite O. subst w1. cbn [with_output rw_output]. rewrite fmap_cons. cbn [fst].
  destruct (decide (t' = t)) as [->|Hne].
  - rewrite (bool_decide_false _ Ht), bool_decide_true by (by left). destruct (last_value d t) as [o|]; [|done].
    rewrite lookup_set_row. by rewrite bool_decide_true.
  - assert (match last_value d t with Some o => set_row t o (rw_output w) | None => rw_output w end !! t' = rw_output w !! t') as Ho.
    { destruct (last_value d t); [|done]. rewrite lookup_set_row. by rewrite bool_decide_false. }
    rewrite Ho. erewrite bool_decide_ext; [done|]. rewrite elem_of_cons. tauto.
Qed.

Lemma collect_spec d st acc :
  no_initial d = true → NoDup (diff_ids d) →
  (∀ t x, (t, x) ∈ (collect_bulk_target_actions d st acc).1 ↔
     (t, x) ∈ acc.1 ∨ is_Some (rs_targets st !! t) ∧ last_value d t = Some (Some x)) ∧
  (∀ t, t ∈ (collect_bulk_target_actions d st acc).2 ↔
     t ∈ acc.2 ∨ is_Some (rs_targets st !! t) ∧ last_value d t = Some None).
Proof.
  revert acc. induction d as [entries|k x|k x|k x y|changes IH] using MapDiff_rect'; intros acc N ND; [done|..].
  1-3: simpl; case_bool_decide as Hk; split; intros t; try intros z; simpl; rewrite ?elem_of_app, ?list_elem_of_singleton;
    case_bool_decide as Et; subst; naive_solver.
  simpl in N, ND. cbn [collect_bulk_target_actions]. revert acc N ND. induction IH as [|d changes Hd _ IH']; intros acc N ND.
  - simpl. split; intros; naive_solver.
  - simpl in N, ND. apply andb_true_iff in N as [Nd N]. apply NoDup_app in ND as (NDd & Hdis & ND). cbn [foldl].
    destruct (Hd acc Nd NDd) as [H1 H2]. destruct (IH' (collect_bulk_target_actions d st acc) N ND) as [H3 H4].
    assert (∀ t o, last_value (Batch (d :: changes)) t = Some o ↔ last_value (Batch changes) t = Some o ∨ last_value d t = Some o) as Hl.
    { intros t o. rewrite last_value_cons. destruct (last_value (Batch changes) t) as [o'|] eqn:E; [|naive_solver].
      split; [by left|]. intros [?|E']; [done|]. destruct (Hdis t).
      - apply last_value_ids. congruence.
      - apply (last_value_ids (Batch changes)). congruence. }
    split; [intros t x; rewrite H3, H1, Hl|intros t; rewrite H4, H2, Hl]; tauto.
Qed.

Lemma bulk_notified d w :
  one_change_per_id d → rs_bulk_targets (rw_state w) = true →
  rw_state (bulk_callback d w) = rw_state w ∧ rw_dropped (bulk_callback d w) = rw_dropped w ∧
  ∀ t, rw_output (bulk_callback d w) !! t =
    match rs_targets (rw_state w) !! t with
    | Some _ => match last_value d t with Some o => o | None => rw_output w !! t end
    | None => rw_output w !! t
    end.
Proof.
  intros [N ND] Hb. unfold bulk_callback. rewrite Hb. simpl. destruct (collect_spec d (rw_state w) ([], []) N ND) as [Hu Hr].
  destruct (collect_bulk_target_actions d (rw_state w) ([], [])) as [upserts removals]. simpl in Hu, Hr.
  split; [done|]. split; [done|]. intros t. cbn [with_output rw_output]. rewrite output_actions.
  assert (∀ x, (t, x) ∈ upserts ↔ is_Some (rs_targets (rw_state w) !! t) ∧ last_value d t = Some (Some x)) as Hu'.
  { intros x. rewrite Hu. set_solver. }
  assert (t ∈ removals ↔ is_Some (rs_targets (rw_state w) !! t) ∧ last_value d t = Some None) as Hr'.
  { rewrite Hr. set_solver. }
  assert (t ∈ upserts.*1 ↔ is_Some (rs_targets (rw_state w) !! t) ∧ ∃ x, last_value d t = Some (Some x)) as Hk.
  { rewrite list_elem_of_fmap. split.
    - intros ([t' x] & -> & Hx). simpl in *. apply Hu' in Hx as [? ?]. by eauto.
    - intros [? [x Hx]]. exists (t, x). split; [done|]. by apply Hu'. }
  destruct (rs_targets (rw_state w) !! t) as [s|] eqn:Es.
  - destruct (last_value d t) as [[x|]|] eqn:El.
    + apply lookup_insert_many; [intros y [_ Ey]%Hu'; congruence|]. apply (Hu' x). by split.
    + rewrite lookup_insert_many_notin; [|rewrite Hk; intros [_ [? Ey]]; congruence].
      rewrite lookup_remove_many. rewrite bool_decide_true; [done|]. by apply Hr'.
    + rewrite lookup_insert_many_notin; [|rewrite Hk; intros [_ [? Ey]]; congruence].
      rewrite lookup_remove_many, bool_decide_false; [done|]. rewrite Hr'. intros [_ Ey]. congruence.
  - rewrite lookup_insert_many_notin; [|rewrite Hk; by intros [[? ?] _]].
    rewrite lookup_remove_many, bool_decide_false; [done|]. rewrite Hr'. by intros [[? ?] _].
Qed.

(** Whichever subscriptions the watch has, a notification writes the rows of its targets. *)
Lemma store_notified_spec related_id n m store pending d w :
  watch_ok related_id n m store pending w → one_change_per_id d →
  rw_state (store_notified d w) = rw_state w ∧ rw_dropped (store_notified d w) = rw_dropped w ∧
  ∀ t, rw_output (store_notified d w) !! t =
    match rs_targets (rw_state w) !! t with
    | Some _ => match last_value d t with Some o => o | None => rw_output w !! t end
    | None => rw_output w !! t
    end.
Proof.
  intros OK O1. unfold store_notified. pose proof (wo_flags _ _ _ _ _ _ OK) as Hf. pose proof (wo_guards _ _ _ _ _ _ OK) as Hg.
  destruct (rs_bulk_targets (rw_state w)) eqn:Eb.
  - assert (foldl (notify_target d) w (map_to_list (rs_targets (rw_state w))) = w) as ->.
    { assert (∀ l, (∀ e, e ∈ l → rs_targets (rw_state w) !! e.1 = Some e.2) → foldl (notify_target d) w l = w) as Hl.
      { induction l as [|e l IH]; intros Hl; [done|]. cbn [foldl].
        assert (notify_target d w e = w) as ->; [|apply IH; intros e' He; apply Hl; by right].
        unfold notify_target. by rewrite (Hg e.1 e.2) by (apply Hl; by left). }
      apply Hl. intros [t s] ?%elem_of_map_to_list. done. }
    rewrite Hf. by apply bulk_notified.
  - destruct (notify_targets d (map_to_list (rs_targets (rw_state w))) w) as (S & D & O).
    + apply NoDup_fst_map_to_list.
    + by intros [t s] ?%elem_of_map_to_list.
    + intros [t s] ?%elem_of_map_to_list. by apply (Hg t).
    + rewrite S, Hf. split; [done|]. split; [done|]. intros t. rewrite O.
      destruct (rs_targets (rw_state w) !! t) as [s|] eqn:Es.
      * rewrite bool_decide_true; [done|]. apply list_elem_of_fmap. exists (t, s). split; [done|]. by apply elem_of_map_to_list.
      * rewrite bool_decide_false; [done|]. intros ([t' s] & -> & Hs%elem_of_map_to_list)%list_elem_of_fmap. simpl in *. congruence.
Qed.
End notify.

(** ** The invariant over runs *)
Section run.
Context {P : Type} `{!CellMap (Item P)}.
Context (related_id : Item P → option string).
Implicit Types (m store : gmap string (Item P)) (d : MapDiff (Item P)) (w : RelatedWatch P) (s : RelatedWorld P)
  (pending : list (MapDiff (Item P))).

Record world_ok (n : Z) s : Prop := {
  rl_watch_ok : watch_ok related_id n (rl_edges s) (rl_store s) (rl_pending s) (rl_watch s);
  (** the store has what the last pending write of an id says *)
  rl_pending_ok t o : last_value (Batch (rl_pending s)) t = Some o → rl_store s !! t = o;
  rl_pending_once : Forall one_change_per_id (rl_pending s)
}.

(** Edge diffs describe changes of the edges; once the watch is on the whole store they are
    about each edge once, as the diffs of the store are throughout; a late callback is one of
    a subscription that was dropped. *)
Definition related_event_fine (event : RelatedEvent P) s : Prop :=
  match event with
  | EdgesChanged d =>
      diff_valid d (rl_edges s) ∧ (rs_bulk_targets (rw_state (rl_watch s)) = true → one_change_per_id d)
  | StoreWritten d => one_change_per_id d
  | StoreNotified => True
  | LateTarget t g _ => (t, g) ∈ rw_dropped (rl_watch s)
  end.

Fixpoint related_events_fine (events : list (RelatedEvent P)) s : Prop :=
  match events with
  | [] => True
  | event :: events => related_event_fine event s ∧ related_events_fine events (related_event related_id s event)
  end.

Definition event_weight (event : RelatedEvent P) : nat :=
  match event with EdgesChanged d => diff_weight d | _ => 0 end.

Lemma watch_ok_weaken n n' m store pending w :
  (n ≤ n')%Z → watch_ok related_id n m store pending w → watch_ok related_id n' m store pending w.
Proof. intros Hn [E C G [W1 W2] F Gu D I M R]. split; try done. split; simpl in *; lia. Qed.

Lemma with_output_id w : with_output (rw_output w) w = w.
Proof. by destruct w. Qed.

Lemma related_event_ok n s event :
  world_ok n s → related_event_fine event s → (n + Z.of_nat (event_weight event) ≤ u64_max)%Z →
  world_ok (n + Z.of_nat (event_weight event)) (related_event related_id s event).
Proof.
  intros [OK PO PF] F Hn. destruct event as [d|d| |t g v]; simpl in *.
  - destruct F as [V O]. split; simpl; [by apply edge_callback_ok|done..].
  - rewrite Z.add_0_r. pose proof F as [N _]. split; simpl.
    + destruct OK as [E C G W Fl Gu D I M R]. split; try done. intros t Ht Hl. change (last_value (Batch (rl_pending s ++ [d])) t = None) in Hl.
      rewrite last_value_snoc in Hl. destruct (last_value d t) as [o|] eqn:El; [done|].
      rewrite (last_value_apply d _ t N), El. by apply R.
    + intros t o Hl. change (last_value (Batch (rl_pending s ++ [d])) t = Some o) in Hl. rewrite last_value_snoc in Hl.
      rewrite (last_value_apply d _ t N). destruct (last_value d t) as [o'|]; [by injection Hl|]. by apply PO.
    + apply Forall_app. split; [done|]. by constructor.
  - rewrite Z.add_0_r. destruct (rl_pending s) as [|d pending] eqn:Ep; [by split; rewrite ?Ep|].
    apply Forall_cons in PF as [O PF]. destruct (store_notified_spec related_id _ _ _ _ d _ OK O) as (S & D' & Ho).
    split; cbn [rl_edges rl_store rl_pending rl_watch]; [|intros t o Hl; apply PO; change (last_value (Batch (d :: pending)) t = Some o);
      by rewrite last_value_cons, Hl|done].
    destruct OK as [E C G W Fl Gu D I M R]. split; rewrite ?S, ?D'; try done.
    + intros t Ht. rewrite Ho, Ht. by apply M.
    + intros t [s0 Hs0] Hl. rewrite Ho, Hs0. assert (last_value (Batch (d :: pending)) t = last_value d t) as El.
      { by rewrite last_value_cons, Hl. }
      destruct (last_value d t) as [o|]; [symmetry; by apply PO|]. apply R; [by rewrite Hs0|exact El].
  - rewrite Z.add_0_r. assert (target_callback t g v (rl_watch s) = rl_watch s) as ->; [|by split].
    unfold target_callback. destruct (rs_targets _ !! t) as [s0|] eqn:Es; [|done].
    rewrite bool_decide_false; [done|]. by eapply wo_dropped.
Qed.

Lemma world_ok_weaken n n' s : (n ≤ n')%Z → world_ok n s → world_ok n' s.
Proof. intros Hn [OK PO PF]. split; [by eapply watch_ok_weaken|done..]. Qed.

Lemma run_related_ok n s events :
  world_ok n s → related_events_fine events s → (n + Z.of_nat (sum_list_with event_weight events) ≤ u64_max)%Z →
  world_ok (n + Z.of_nat (sum_list_with event_weight events)) (run_related related_id events s).
Proof.
  revert n s. induction events as [|event events IH]; intros n s OK F Hn; simpl in *; [by rewrite Z.add_0_r|].
  destruct F as [Fe F]. pose proof (related_event_ok n s event OK Fe) as OK1.
  specialize (IH _ _ (OK1 ltac:(lia)) F ltac:(lia)). replace (n + Z.of_nat (event_weight event + sum_list_with event_weight events))%Z
    with (n + Z.of_nat (event_weight event) + Z.of_nat (sum_list_with event_weight events))%Z by lia. done.
Qed.

Definition related_world edges store : RelatedWorld P :=
  mkRelatedWorld edges store [] (graph_related_entity_watch_by related_id edges store).

Lemma related_world_ok edges store :
  (Z.of_nat (size edges) ≤ u64_max)%Z → world_ok (Z.of_nat (size edges)) (related_world edges store).
Proof.
  intros Hn. split; simpl; [|done|done]. unfold graph_related_entity_watch_by.
  assert (watch_ok related_id 0 ∅ store [] (mkRelatedWatch related_default ∅ [])) as OK0.
  { split; simpl; try done.
    - intros t g Hg. by apply elem_of_nil in Hg.
    - intros t. rewrite lookup_empty. by intros [? ?]. }
  pose proof (edge_callback_ok related_id 0 ∅ store [] _ (Initial (map_to_list edges)) OK0) as OK.
  simpl diff_weight in OK. rewrite length_map_to_list in OK. rewrite apply_initial in OK by apply NoDup_fst_map_to_list.
  rewrite list_to_map_to_list in OK. apply OK; [apply NoDup_fst_map_to_list|done|done].
Qed.

(** ** The entities the edges reference *)

Definition referenced edges (t : string) : bool :=
  existsb (λ entry : string * Item P, bool_decide (related_id entry.2 = Some t)) (map_to_list edges).

Definition related_rows edges store : gmap string (Item P) :=
  filter (λ kv : string * Item P, referenced edges kv.1 = true) store.

Lemma referenced_spec edges t : referenced edges t = true ↔ ∃ e x, edges !! e = Some x ∧ related_id x = Some t.
Proof.
  unfold referenced. rewrite existsb_exists. split.
  - intros ([e x] & He & Ht). apply list_elem_of_In, elem_of_map_to_list in He. apply bool_decide_eq_true in Ht. by eauto.
  - intros (e & x & He & Ht). exists (e, x). split; [by apply list_elem_of_In, elem_of_map_to_list|]. by apply bool_decide_eq_true.
Qed.

Lemma watch_targets n m store pending w t :
  watch_ok related_id n m store pending w → is_Some (rs_targets (rw_state w) !! t) ↔ referenced m t = true.
Proof.
  intros [E C _ _ _ _ _ _ _ _]. rewrite referenced_spec. specialize (C t). split.
  - intros [s Hs]. rewrite Hs in C. destruct C as [Cr Cp]. rewrite Cr in Cp. apply counted_some in Cp as [e He].
    rewrite E, lookup_omap in He. destruct (m !! e) as [x|] eqn:Ex; [|done]. by exists e, x.
  - intros (e & x & He & Ht). destruct (rs_targets (rw_state w) !! t); [done|]. destruct (counted_zero _ _ C e).
    by rewrite E, lookup_omap, He.
Qed.

Lemma world_shows n s :
  world_ok n s → rl_pending s = [] → rw_output (rl_watch s) = related_rows (rl_edges s) (rl_store s).
Proof.
  intros [OK _ _] Ep. apply map_eq. intros t. unfold related_rows. pose proof (watch_targets _ _ _ _ _ t OK) as Ht.
  destruct (rs_targets (rw_state (rl_watch s)) !! t) as [s0|] eqn:Es.
  - rewrite (wo_rows _ _ _ _ _ _ OK t); [|by rewrite Es|by rewrite Ep]. symmetry.
    destruct (rl_store s !! t) as [x|] eqn:Ex.
    + apply map_lookup_filter_Some. split; [done|]. by apply Ht.
    + apply map_lookup_filter_None. by left.
  - rewrite (wo_missing _ _ _ _ _ _ OK t Es). symmetry. apply map_lookup_filter_None. right. intros x _ Hr. apply Ht in Hr as [? ?]. done.
Qed.
End run.
