(* ===== verification/RelatedView.v ===== *)
(** * Routed views over the graph ([core/src/core/query/context.rs])

    The graph methods of [QueryBuildContext]: edge watches of generated queries, and the
    views of related and neighboring entities, which open an edge watch, narrow it to the
    edge type, and join it to the entities.  The way a change of the canonical edges reaches
    such a view: filtered by the edge watch, narrowed by the typed map, and joined. *)

From stdpp Require Import base strings numbers option countable gmap sets list.
From S2P Require Import Prelude Order GraphTypes EdgeIds GraphIndex GraphQuery GraphWatch WatchProof GraphWindow.
From S2P Require Import RelatedWatch RelatedProof RelatedRun.

Section view.
Context {P CB : Type} `{!CellMap (Item P)}.
Implicit Types (g : GraphIndex P) (r : EdgeRegistration P) (st : GraphState) (registry : StoreRegistry P)
  (counters : PlanCounters) (w : GraphWatchRouter CB) (cb : CB) (position : EndPosition) (endpoint : EndpointValue)
  (server : option (option (GraphIndex P))).

(** [server_ctx] and its [graph_index], either of which can be absent. *)
Definition graph_of server : result string (GraphIndex P) :=
  match server with
  | None => Err "graph query requires server context"
  | Some None => Err "application has no graph registrations"
  | Some (Some g) => Ok g
  end.

Definition map_display {A} (x : result GraphError A) : result string A :=
  match x with Ok a => Ok a | Err e => Err (display e) end.

Abbreviation Watched V := (result string (GraphWatchRouter CB * option (gset GraphWatchRoute * Z) * PlanCounters * V))%type.

Definition graph_watch_at server st registry counters w r position endpoint cb : Watched (gmap string (Item P)) :=
  match graph_of server with
  | Err e => Err e
  | Ok g => map_display (watch_at g st registry counters w (edge_type r) position endpoint cb)
  end.

Definition graph_watch_many_at server st registry counters w r position (endpoints : list EndpointValue) cb
  : Watched (gmap string (Item P)) :=
  match graph_of server with
  | Err e => Err e
  | Ok g => map_display (watch_many_at g st registry counters w (edge_type r) position endpoints cb)
  end.

Definition graph_watch_between server st registry counters w r (a b : EndpointValue) cb : Watched (gmap string (Item P)) :=
  match graph_of server with
  | Err e => Err e
  | Ok g => map_display (watch_between g st registry counters w (edge_type r) a b cb)
  end.

Definition graph_watch_incident server st registry counters w r endpoint cb : Watched (gmap string (Item P)) :=
  match graph_of server with
  | Err e => Err e
  | Ok g => map_display (watch_incident g st registry counters w (edge_type r) endpoint cb)
  end.

(** Narrowing an opened edge watch and joining it. *)
Definition join_related (opened : Watched (gmap string (Item P))) r (join : gmap string (Item P) → RelatedWatch P)
  : Watched (RelatedWatch P) :=
  match opened with
  | Err e => Err e
  | Ok (w, guard, counters, edges) => Ok (w, guard, counters, join (typed_map_arc_from_any_item (edge_type r) edges))
  end.

Definition graph_related_at server st registry counters w r edge_position endpoint (target : string) related_position cb :=
  join_related (graph_watch_at server st registry counters w r edge_position endpoint cb) r
    (λ edges, graph_related_entity_watch r target edges (get_or_create registry target) related_position).

Definition graph_related_many_at server st registry counters w r edge_position (endpoints : list EndpointValue)
    (target : string) related_position cb :=
  join_related (graph_watch_many_at server st registry counters w r edge_position endpoints cb) r
    (λ edges, graph_related_entity_watch r target edges (get_or_create registry target) related_position).

Definition graph_neighbors_at server st registry counters w r endpoint (target : string) cb :=
  join_related (graph_watch_incident server st registry counters w r endpoint cb) r
    (λ edges, graph_neighbor_entity_watch r target edges (get_or_create registry target) endpoint).

(** ** Changes of the canonical edges *)

Context (r : EdgeRegistration P) (s : WatchSelector) (related_id : Item P → option string).
Implicit Types (m : gmap string (Item P)) (d : MapDiff (Item P)) (event : RelatedEvent P).

Abbreviation matches := (watch_matches r (selector_matches r s)).

(** What the join's subscription receives for an event of the canonical stores. *)
Definition routed_event event : list (RelatedEvent P) :=
  match event with
  | EdgesChanged d =>
      match watch_diff_matching r (selector_matches r s) d ≫= downcast_any_item_map_diff_arc (edge_type r) with
      | Some d => [EdgesChanged d]
      | None => []
      end
  | _ => [event]
  end.

Fixpoint run_canonical (events : list (RelatedEvent P)) (world : RelatedWorld P) : RelatedWorld P :=
  match events with
  | [] => world
  | event :: events => run_canonical events (run_related related_id (routed_event event) world)
  end.

(** The canonical edges after the events. *)
Definition edges_after (events : list (RelatedEvent P)) m : gmap string (Item P) :=
  foldl (λ m event, match event with EdgesChanged d => apply_diff d m | _ => m end) m events.
End view.

(** ** Routing keeps diffs in shape *)
Section routed.
Context {P : Type} `{!CellMap (Item P)}.
Context (r : EdgeRegistration P) (p : EdgeEndpoints → bool).
Implicit Types (m : gmap string (Item P)) (d : MapDiff (Item P)).

Lemma watch_diff_valid d m :
  diff_valid d m → match watch_diff_matching r p d with
                   | Some d => diff_valid d (select (watch_matches r p) m)
                   | None => True
                   end.
Proof.
  revert m. induction d as [entries|k x|k x|k x y|changes IH] using MapDiff_rect'; intros m V; simpl in *.
  - by apply filter_keys_NoDup.
  - destruct (watch_matches r p x); [|done]. simpl. unfold select. apply map_lookup_filter_None. by left.
  - destruct (watch_matches r p x) eqn:E; [|done]. simpl. by apply lookup_select.
  - destruct (watch_matches r p x) eqn:Ex, (watch_matches r p y) eqn:Ey; simpl; try done.
    + by apply lookup_select.
    + by apply lookup_select.
    + unfold select. apply map_lookup_filter_None. right. simpl. intros z Hz. rewrite V in Hz. injection Hz as <-. by rewrite Ex.
  - assert (diff_valid (Batch (omap (watch_diff_matching r p) changes)) (select (watch_matches r p) m)) as Hb.
    { simpl. revert m V. induction IH as [|d changes Hd _ IH']; intros m V; [done|]. destruct V as [Vd V].
      pose proof (Hd m Vd) as Hv. pose proof (watch_diff_commutes r p d m Vd) as Hc. simpl.
      destruct (watch_diff_matching r p d) as [d'|]; simpl in *; rewrite <-?Hc.
      - split; [done|]. rewrite Hc. by apply IH'.
      - rewrite Hc. by apply IH'. }
    by destruct (omap _ changes).
Qed.

Lemma watch_diff_weight d :
  match watch_diff_matching r p d with Some d' => diff_weight d' ≤ diff_weight d | None => True end.
Proof.
  induction d as [entries|k x|k x|k x y|changes IH] using MapDiff_rect'; simpl.
  - induction entries as [|e l IHl]; simpl; [done|]. destruct (watch_matches r p e.2); simpl; lia.
  - by destruct (watch_matches r p x).
  - by destruct (watch_matches r p x).
  - by destruct (watch_matches r p x), (watch_matches r p y); simpl; try lia.
  - assert (sum_list_with diff_weight (omap (watch_diff_matching r p) changes) ≤ sum_list_with diff_weight changes) as Hb.
    { induction IH as [|d changes Hd _ IH']; csimpl; [done|]. destruct (watch_diff_matching r p d); csimpl; lia. }
    by destruct (omap _ changes).
Qed.

Lemma watch_diff_once d :
  one_change_per_id d → match watch_diff_matching r p d with Some d' => one_change_per_id d' | None => True end.
Proof.
  assert (no_initial d = true → match watch_diff_matching r p d with
            | Some d' => no_initial d' = true ∧ sublist (diff_ids d') (diff_ids d) | None => True end) as H.
  { induction d as [entries|k x|k x|k x y|changes IH] using MapDiff_rect'; simpl; intros N; [done|..].
    - by destruct (watch_matches r p x).
    - by destruct (watch_matches r p x).
    - by destruct (watch_matches r p x), (watch_matches r p y).
    - assert (forallb no_initial (omap (watch_diff_matching r p) changes) = true ∧
        sublist (concat (diff_ids <$> omap (watch_diff_matching r p) changes)) (concat (diff_ids <$> changes))) as Hb.
      { induction IH as [|d changes Hd _ IH']; csimpl; [by split|]. simpl in N. apply andb_true_iff in N as [Nd N].
        destruct (IH' N) as [N' S']. specialize (Hd Nd). destruct (watch_diff_matching r p d) as [d'|]; csimpl.
        - destruct Hd as [Nd' Sd]. split; [by rewrite Nd', N'|]. by apply sublist_app.
        - split; [done|]. by apply sublist_inserts_l. }
      by destruct (omap _ changes). }
  intros [N ND]. specialize (H N). destruct (watch_diff_matching r p d) as [d'|]; [|done]. destruct H as [N' S'].
  split; [done|]. by eapply sublist_NoDup.
Qed.

(** Every edge the watch selects is of the edge type, so narrowing to it changes nothing. *)
Definition typed_edges : Prop := ∀ item e, extract r item = Ok e → item_type item = edge_type r.

Lemma matched_type x : typed_edges → watch_matches r p x = true → downcast_any_item_arc (edge_type r) x = Some x.
Proof.
  intros T Hm. unfold watch_matches in Hm. destruct (extract r x) as [e|] eqn:E; [|done]. unfold downcast_any_item_arc.
  by rewrite bool_decide_true by (by eapply T).
Qed.

Lemma downcast_entries (entries : list (string * Item P)) :
  typed_edges → Forall (λ entry, watch_matches r p entry.2 = true) entries →
  omap (λ entry : string * Item P, pair entry.1 <$> downcast_any_item_arc (edge_type r) entry.2) entries = entries.
Proof.
  intros T. induction 1 as [|[k x] l Hx _ IH]; [done|]. csimpl. rewrite (matched_type x T Hx). simpl. by rewrite IH.
Qed.

Lemma downcast_matched d :
  typed_edges → watch_diff_matching r p d ≫= downcast_any_item_map_diff_arc (edge_type r) = watch_diff_matching r p d.
Proof.
  intros T. induction d as [entries|k x|k x|k x y|changes IH] using MapDiff_rect'; simpl.
  - rewrite downcast_entries; [done|done|]. apply Forall_forall. intros e He. apply list_elem_of_In, filter_In in He. tauto.
  - destruct (watch_matches r p x) eqn:E; [|done]. simpl. by rewrite matched_type.
  - destruct (watch_matches r p x) eqn:E; [|done]. simpl. by rewrite matched_type.
  - destruct (watch_matches r p x) eqn:Ex, (watch_matches r p y) eqn:Ey; simpl; rewrite ?matched_type by done; simpl; try done.
  - assert (omap (downcast_any_item_map_diff_arc (edge_type r)) (omap (watch_diff_matching r p) changes) = omap (watch_diff_matching r p) changes) as Hb.
    { induction IH as [|d changes Hd _ IH']; [done|]. csimpl. destruct (watch_diff_matching r p d) as [d'|]; csimpl; [|done].
      simpl in Hd. rewrite Hd. by rewrite IH'. }
    destruct (omap (watch_diff_matching r p) changes) as [|d' l]; [done|]. simpl in *. destruct (downcast_any_item_map_diff_arc (edge_type r) d').
    + by rewrite Hb.
    + by rewrite Hb.
Qed.

Lemma typed_selected m :
  typed_edges → typed_map_arc_from_any_item (edge_type r) (select (watch_matches r p) m) = select (watch_matches r p) m.
Proof.
  intros T. unfold typed_map_arc_from_any_item, typed_callback. simpl. rewrite downcast_entries; [|done|].
  - rewrite apply_initial by apply NoDup_fst_map_to_list. apply list_to_map_to_list.
  - apply Forall_forall. intros [k x] [_ Hx]%elem_of_map_to_list%lookup_select. done.
Qed.
End routed.
