(* ===== verification/RelatedTheorems.v ===== *)
(** * What related-entity views show

    The views of related and neighboring entities over [core/src/core/graph.rs], from the
    canonical edges and entities to their output, with an instance at the graph of
    [Fixtures], and what happens under the diffs the theorem excludes. *)

From stdpp Require Import base strings numbers option countable gmap sets list pretty.
From S2P Require Import Prelude Order GraphTypes EdgeIds GraphIndex GraphQuery GraphWatch WatchProof GraphWindow Fixtures WatchTheorems.
From S2P Require Import RelatedWatch RelatedProof RelatedRun RelatedView.

Section views.
Context {P CB : Type} `{!CellMap (Item P)}.
Implicit Types (g : GraphIndex P) (r : EdgeRegistration P) (st : GraphState) (registry : StoreRegistry P)
  (counters : PlanCounters) (w : GraphWatchRouter CB) (cb : CB) (m : gmap string (Item P)) (events : list (RelatedEvent P)).

(** The three routed views. *)
Inductive RelatedView :=
| RelatedAt (position : EndPosition) (endpoint : EndpointValue) (related_position : EndPosition)
| RelatedManyAt (position : EndPosition) (endpoints : gset EndpointValue) (related_position : EndPosition)
| NeighborsAt (endpoint : EndpointValue).

Definition view_selector (v : RelatedView) : WatchSelector :=
  match v with
  | RelatedAt position endpoint _ => WatchAt position endpoint
  | RelatedManyAt position endpoints _ => WatchManyAt position endpoints
  | NeighborsAt endpoint => WatchIncident endpoint
  end.

(** The entity of type [target] an edge brings into the view. *)
Definition view_related_id r (target : string) (v : RelatedView) : Item P → option string :=
  match v with
  | RelatedAt _ _ related_position | RelatedManyAt _ _ related_position => related_entity_id r target related_position
  | NeighborsAt endpoint => neighbor_entity_id r target endpoint
  end.

Definition open_view server st registry counters w r target (v : RelatedView) cb :=
  match v with
  | RelatedAt position endpoint related_position =>
      graph_related_at server st registry counters w r position endpoint target related_position cb
  | RelatedManyAt position endpoints related_position =>
      graph_related_many_at server st registry counters w r position (elements endpoints) target related_position cb
  | NeighborsAt endpoint => graph_neighbors_at server st registry counters w r endpoint target cb
  end.

Abbreviation selects r v := (watch_matches r (selector_matches r (view_selector v))).

(** Events the view can follow: the diffs of the canonical edges describe changes of theirs,
    and once the view is on the whole entity store they are about each edge once. *)
Fixpoint canonical_fine r (v : RelatedView) (related_id : Item P → option string) events m (world : RelatedWorld P) : Prop :=
  match events with
  | [] => True
  | event :: events =>
      match event with
      | EdgesChanged d => diff_valid d m ∧ (rs_bulk_targets (rw_state (rl_watch world)) = true → one_change_per_id d)
      | _ => related_event_fine event world
      end ∧ canonical_fine r v related_id events (edges_after [event] m)
              (run_related related_id (routed_event r (view_selector v) event) world)
  end.

Lemma opened_view g registry st counters w r target v cb :
  registrations_ok g → registry_ok registry → graph_ok g registry st → registration g (edge_type r) = Some r →
  scopes_ok r → typed_edges r →
  ∃ w' guard counters', open_view (Some (Some g)) st registry counters w r target v cb =
    Ok (w', guard, counters', graph_related_entity_watch_by (view_related_id r target v)
      (select (selects r v) (get_or_create registry (edge_type r))) (get_or_create registry target)).
Proof.
  intros R W G Hr So T. destruct (watch_opens g registry st counters w (edge_type r) r (view_selector v) cb R W G Hr So) as [c E].
  exists (subscribe_many w (selector_routes r (view_selector v)) cb).1, (subscribe_many w (selector_routes r (view_selector v)) cb).2, c.
  destruct v as [position endpoint related|position endpoints related|endpoint]; simpl in E |- *;
    unfold graph_related_at, graph_related_many_at, graph_neighbors_at, join_related, graph_watch_at, graph_watch_many_at, graph_watch_incident;
    simpl; rewrite E; simpl; (rewrite typed_selected; [reflexivity|exact T]).
Qed.

Lemma run_canonical_ok r v related_id n events m world :
  typed_edges r → world_ok related_id n world → rl_edges world = select (selects r v) m →
  canonical_fine r v related_id events m world →
  (n + Z.of_nat (sum_list_with event_weight events) ≤ u64_max)%Z →
  let after := run_canonical r (view_selector v) related_id events world in
  (∃ n', world_ok related_id n' after) ∧ rl_edges after = select (selects r v) (edges_after events m).
Proof.
  intros T. revert n m world. induction events as [|event events IH]; intros n m world OK E F Hn; cbn zeta; simpl in F, Hn.
  { split; [by exists n|done]. }
  destruct F as [Fe F]. cbn [run_canonical]. change (edges_after (event :: events) m) with (edges_after events (edges_after [event] m)).
  apply (IH (n + Z.of_nat (event_weight event))%Z); [| |exact F|lia].
  - destruct event as [d|d| |t g x]; try (by apply (related_event_ok related_id n world); [done|done|lia]).
    simpl. rewrite downcast_matched by done. destruct Fe as [V O]. pose proof (watch_diff_valid r (selector_matches r (view_selector v)) d m V) as V'.
    pose proof (watch_diff_weight r (selector_matches r (view_selector v)) d) as Hw.
    pose proof (λ H, watch_diff_once r (selector_matches r (view_selector v)) d (O H)) as O'.
    destruct (watch_diff_matching r _ d) as [d'|].
    + eapply world_ok_weaken; [|apply (related_event_ok related_id n world (EdgesChanged d')); simpl; [done|by rewrite E|simpl in Hn; lia]].
      simpl. lia.
    + eapply world_ok_weaken; [|done]. lia.
  - destruct event as [d|d| |t g x]; simpl; try done.
    + rewrite downcast_matched by done. destruct Fe as [V _].
      pose proof (watch_diff_commutes r (selector_matches r (view_selector v)) d m V) as Hc. rewrite <-E in Hc.
      destruct (watch_diff_matching r _ d) as [d'|]; simpl in *; done.
    + by destruct (rl_pending world).
Qed.

(** C26: A view of related or neighboring entities opens on a server with a graph, and from then
    on follows the graph and the entities: after any interleaving of edge changes, writes of
    the entity store, their notifications and late callbacks, whenever no notification is
    outstanding, it shows exactly the stored entities at the related ends of the stored
    edges that its selector picks, whether it subscribes to each of them or to the store. *)
Theorem related_views_follow_the_graph g registry st counters w r target v cb events :
  registrations_ok g → registry_ok registry → graph_ok g registry st → registration g (edge_type r) = Some r →
  scopes_ok r → typed_edges r →
  let m := get_or_create registry (edge_type r) in
  let related_id := view_related_id r target v in
  let world := related_world related_id (select (selects r v) m) (get_or_create registry target) in
  let after := run_canonical r (view_selector v) related_id events world in
  (∃ w' guard counters', open_view (Some (Some g)) st registry counters w r target v cb =
     Ok (w', guard, counters', rl_watch world)) ∧
  (canonical_fine r v related_id events m world →
   (Z.of_nat (size m) + Z.of_nat (sum_list_with event_weight events) ≤ u64_max)%Z →
   rl_pending after = [] →
   rw_output (rl_watch after) = related_rows related_id (select (selects r v) (edges_after events m)) (rl_store after)).
Proof.
  intros R W G Hr So T m related_id world after. split; [by eapply opened_view|]. intros F Hn Ep.
  assert (size (select (selects r v) m) ≤ size m) as Hs by apply map_subseteq_size, map_filter_subseteq.
  pose proof (related_world_ok related_id (select (selects r v) m) (get_or_create registry target) ltac:(lia)) as OK.
  destruct (run_canonical_ok r v related_id _ events m world T OK eq_refl F) as [[n' OK'] E']; [lia|].
  rewrite <-E'. by eapply world_shows.
Qed.
End views.

(** ** The views at the graph of [Fixtures] *)

Definition fx_typed_state : GraphState := (rebuild fx_typed_graph Fx.registry).1.

Lemma fx_typed_registrations : registrations_ok fx_typed_graph.
Proof. by apply registrations_okb_spec; vm_compute. Qed.

Lemma fx_typed_ok : graph_ok fx_typed_graph Fx.registry fx_typed_state.
Proof. unfold fx_typed_state. by apply rebuild_checked; vm_compute. Qed.

Lemma fx_typed_link_edges : typed_edges fx_typed_link.
Proof.
  intros item e X. unfold fx_typed_link, fx_extract_typed in X. cbn in X. by case_bool_decide.
Qed.

Lemma fx_typed_link_scopes : scopes_ok fx_typed_link.
Proof. intros _ item s E. unfold fx_typed_link, Fx.no_scope in E. cbn in E. congruence. Qed.

(** The nodes that [n1] links to. *)
Definition fx_view : RelatedView := RelatedAt PosA (Fx.at_node "n1") PosB.

(** [l1] leaves [n1] and [l2] goes; [n3] is deleted; [n1] gets a link to [n4] before that
    deletion is announced; the callback of the dropped subscription to [n2] runs late. *)
Definition fx_events : list (RelatedEvent Fx.Payload) :=
  [EdgesChanged fx_diff; StoreWritten (Remove "n3" (Fx.node "n3"));
   EdgesChanged (Insert "l9" (Fx.edge "Link" "l9" "n1" "n4"));
   LateTarget "n2" 2 (Some (Fx.node "n2")); StoreNotified].

Lemma related_views_follow_the_graph_witness :
  let m := get_or_create Fx.registry "Link" in
  let related_id := view_related_id fx_typed_link "Node" fx_view in
  let world := related_world related_id (select (watch_matches fx_typed_link (selector_matches fx_typed_link (view_selector fx_view))) m)
    (get_or_create Fx.registry "Node") in
  let after := run_canonical fx_typed_link (view_selector fx_view) related_id fx_events world in
  rw_output (rl_watch after) = related_rows related_id
    (select (watch_matches fx_typed_link (selector_matches fx_typed_link (view_selector fx_view))) (edges_after fx_events m)) (rl_store after) ∧
  rw_output (rl_watch after) = ({["n4" := Fx.node "n4"]} : gmap string (Item Fx.Payload)).
Proof.
  cbv zeta. split.
  - apply (related_views_follow_the_graph fx_typed_graph Fx.registry fx_typed_state ∅ (router_default (CB := nat))
      fx_typed_link "Node" fx_view 7 fx_events fx_typed_registrations Fx.registry_fx fx_typed_ok eq_refl fx_typed_link_scopes
      fx_typed_link_edges).
    + split; [split; [vm_compute; repeat split|intros Hb; vm_compute in Hb; discriminate Hb]|].
      split; [split; [reflexivity|apply (bool_decide_eq_true_1 _); vm_compute; reflexivity]|].
      split; [split; [vm_compute; repeat split|intros Hb; vm_compute in Hb; discriminate Hb]|].
      split; [unfold related_event_fine; apply (bool_decide_eq_true_1 _); vm_compute; reflexivity|].
      split; [exact I|exact I].
    + vm_compute. discriminate.
    + vm_compute. reflexivity.
  - vm_compute. reflexivity.
Defined.

(** ** What the hypotheses exclude *)

(** A node that links to enough others for the view to subscribe to the whole store. *)
Definition hub_link (i : nat) : string * Item Fx.Payload :=
  let id := pretty i in ("e" +:+ id, Fx.edge "Link" ("e" +:+ id) "hub" ("n" +:+ id)).
Definition hub_edges : gmap string (Item Fx.Payload) := list_to_map (hub_link <$> seq 0 1024).
Definition hub_nodes : gmap string (Item Fx.Payload) :=
  <["far" := Fx.node "far"]> (list_to_map ((λ i : nat, ("n" +:+ pretty i, Fx.node ("n" +:+ pretty i))) <$> seq 0 1024)).
Definition hub_related : Item Fx.Payload → option string := related_entity_id Fx.link "Node" PosB.
Definition hub_world : RelatedWorld Fx.Payload := related_world hub_related hub_edges hub_nodes.

(** The hub's links are watched through the whole store. *)
Lemma hub_watches_the_store :
  rs_bulk_target_guard (rw_state (rl_watch hub_world)) = true ∧ size (rw_output (rl_watch hub_world)) = 1024.
Proof. vm_compute. done. Qed.

(** A link to [far] that comes and goes within one diff leaves [far] in the view for good: the
    retired targets are removed before the added ones, whether still wanted or not, are
    inserted. *)
Lemma transient_edge_leaves_its_target :
  let link := Fx.edge "Link" "x" "hub" "far" in
  let after := run_related hub_related [EdgesChanged (Batch [Insert "x" link; Remove "x" link])] hub_world in
  rw_output (rl_watch after) !! "far" = Some (Fx.node "far") ∧
  rs_targets (rw_state (rl_watch after)) !! "far" = None ∧ rl_edges after !! "x" = None.
Proof. vm_compute. done. Qed.

(** A write that inserts and removes an entity in one diff leaves it in the view, although the
    store does not have it: the removals of a diff are applied before its insertions. *)
Lemma transient_entity_stays_in_the_view :
  let events := [StoreWritten (Remove "n0" (Fx.node "n0")); StoreNotified;
                 StoreWritten (Batch [Insert "n0" (Fx.node "n0"); Remove "n0" (Fx.node "n0")]); StoreNotified] in
  let after := run_related hub_related events hub_world in
  rl_store after !! "n0" = None ∧ rl_pending after = [] ∧ rw_output (rl_watch after) !! "n0" = Some (Fx.node "n0").
Proof. vm_compute. done. Qed.
