(* ===== verification/ReplaceOutcome.v ===== *)
(** * Outcome of a replacement

    A replacement of items whose type has no relationships, at the current generation of the
    graph: it is not refused as stale, and when it succeeds the stores are those before it
    with the deletes and the upserts applied. *)

From stdpp Require Import base strings numbers option countable gmap sets list.
From S2P Require Import Prelude Order GraphTypes EdgeIds GraphIndex GraphQuery GraphPreflight GraphWatch ServerTypes Relationship Pipeline Ingest PipelineProof PipelineInvariant PipelineTotal PipelineOutcome.

Section replace.
Context {P CB J : Type} (env : Env P J).
Implicit Types (s : Ctx P CB J) (items upserts deletes : list (Item P)) (g : GraphIndex P).

(** No relationship concerns the type. *)
Definition plain (tables : RelationshipTables P) (t : string) : Prop :=
  ∀ rm change, rm_tables rm = tables → rel_coordinates rm t change = false.

(** No stored edge would be cascaded from a deletion of the items. *)
Definition uncascaded g (registry : StoreRegistry P) items : Prop :=
  ∀ x t id, x ∈ items → ¬ incident_edge g registry (entity_of x) CascadeEdge t id.

(** What a root leaves as it was. *)
Record settled s s' : Prop := mkSettled {
  se_causal : ctx_causal s' = None;
  se_graph : ctx_graph s' = ctx_graph s;
  se_limits : ctx_limits s' = ctx_limits s;
  se_tables : rm_tables (ctx_rel s') = rm_tables (ctx_rel s)
}.

Lemma root_settled s s1 s2 : root_of s s1 → frame s1 s2 → settled s (set_causal None s2).
Proof. intros [] []. split; simpl; congruence. Qed.

Lemma root_ctx_ok og s s1 st : root_of s s1 → ctx_causal s1 = Some st → cs_queue st = [] → ctx_ok og s → ctx_ok og s1.
Proof.
  intros R Ec Eq [H1 H2 H3 H4 H5]. split.
  - by rewrite (ro_graph _ _ R).
  - by rewrite (ro_registry _ _ R).
  - by rewrite (ro_registry _ _ R), (ro_gstate _ _ R).
  - intros st'. rewrite Ec. intros [= <-]. by rewrite Eq.
  - by rewrite (ro_rel _ _ R).
Qed.

Lemma close_ctx_ok og s : ctx_ok og s → ctx_ok og (set_causal None s).
Proof. intros [H1 H2 H3 H4 H5]. by split. Qed.

Lemma aside_ctx_ok og s s' : aside s s' → ctx_ok og s → ctx_ok og s'.
Proof.
  intros [F Er Eg] [H1 H2 H3 H4 H5].
  split; [by rewrite (frame_graph _ _ F)|by rewrite Er|by rewrite Er, Eg|by rewrite (frame_causal _ _ F)|by rewrite (frame_tables _ _ F)].
Qed.

(** A root whose queue is empty is done. *)
Lemma drain_empty submit steps stop s st :
  ctx_causal s = Some st → cs_queue st = [] → drain (CB := CB) env submit (S steps) stop s = Some (s, Ok true).
Proof. intros Ec Eq. simpl. unfold mbind, M_bind, pop_pending. by rewrite Ec, Eq. Qed.

Lemma elem_of_replace_by_type upserts deletes group :
  group ∈ replace_by_type deletes upserts → (∀ x, x ∈ group.1 → x ∈ deletes) ∧ (∀ x, x ∈ group.2 → x ∈ upserts).
Proof.
  unfold replace_by_type. intros (t & -> & _)%list_elem_of_fmap. simpl.
  split; intros x [_ Hx]%list_elem_of_filter; done.
Qed.

Lemma replacement_effects submit tables t upserts deletes origin :
  plain tables t → (∀ x, x ∈ deletes ++ upserts → item_type x = t) →
  keeps (λ s : Ctx P CB J, rm_tables (ctx_rel s) = tables) aside
    (for_each (λ group : list (Item P) * list (Item P),
       _ ← apply_effects env submit group.1 DEL origin true;
       apply_effects env submit group.2 SET origin true) (replace_by_type deletes upserts)).
Proof.
  intros Pl Ht. apply keeps_for_each; [apply _|]. intros group [Hd Hu]%elem_of_replace_by_type.
  apply keeps_bind; [apply _| |intros u]; (eapply uncoordinated_effects with t; [|by intros _ rm Erm; apply Pl]);
    intros x Hx; apply Ht, elem_of_app; [left; by apply Hd|right; by apply Hu].
Qed.

Lemma uncascaded_nil g registry items cascades :
  uncascaded g registry items → cascaded (Some g) registry items cascades → cascades = [].
Proof.
  intros U [_ C]. destruct cascades as [|c cascades]; [done|].
  destruct (C c) as (x & g' & Hx & [= <-] & Hi); [by left|]. by destruct (U x _ _ Hx Hi).
Qed.

(** The stores after a replacement, by id. *)
Definition replaced (registry : StoreRegistry P) upserts deletes : StoreRegistry P :=
  foldl reduce_replacement registry (replace_by_type (effective registry deletes) upserts).

(** The emission of a replacement in a root just opened. *)
Lemma emit_replace_plain fuel steps g t s upserts deletes expected st :
  ctx_ok (Some g) s → ctx_causal s = Some st → cs_queue st = [] →
  plain (rm_tables (ctx_rel s)) t → (∀ x, x ∈ deletes ++ upserts → item_type x = t) → uncascaded g (ctx_registry s) deletes →
  (∀ generation, expected = Some generation → gs_generation (ctx_gstate s) = generation) →
  upserts ++ deletes ≠ [] →
  ∃ s' r, emit_replace_grouped env (submit_mutation env (S fuel) steps) upserts deletes Local Authoritative expected s = Some (s', r) ∧
    frame s s' ∧ r ≠ Ok false ∧
    (r = Ok true → ctx_ok (Some g) s' ∧ ctx_registry s' = replaced (ctx_registry s) upserts deletes).
Proof.
  intros H0 Ec Eq Pl Ht U Hg Ne. unfold emit_replace_grouped. destruct (upserts ++ deletes) eqn:El; [done|]. clear El.
  unfold mbind at 1, M_bind at 1.
  destruct (commit_replacement_frame env (λ _, True) (λ _ _ _ _, I) upserts deletes Local Authoritative expected s I)
    as (s1 & r1 & E1 & _ & F1). rewrite E1. destruct r1 as [plan|e]; [|by exists s1, (Err e)].
  destruct (commit_replacement_spec env (Some g) s upserts deletes Local Authoritative expected H0 s s1 plan eq_refl E1)
    as (Ok1 & _ & Hp).
  destruct plan as [[by_type cascades]|]; [|destruct Hp as (_ & generation & Ex & N); by apply Hg in Ex].
  destruct Hp as (Eb & Er & Hc). apply uncascaded_nil in Hc; [|done]. subst cascades by_type.
  unfold mbind at 1, M_bind at 1.
  destruct (replacement_effects (submit_mutation env (S fuel) steps) (rm_tables (ctx_rel s)) t upserts
              (effective (ctx_registry s) deletes) Local) with (s := s1) as (s2 & r2 & E2 & _ & A2); [done| |apply F1|].
  { intros x [[_ Hx]%list_elem_of_filter|Hx]%elem_of_app; apply Ht, elem_of_app; by (left + right). }
  rewrite E2. pose proof (aside_frame _ _ A2) as F2. assert (frame s s2) as F by by etrans.
  destruct r2 as [u|e]; [|by exists s2, (Err e)].
  unfold mbind, M_bind, submit_mutation. cbn [submit_mutation_mode]. rewrite (frame_causal _ _ F), Ec.
  eexists _, _. split; [done|]. split; [done|]. split; [done|]. intros _. split; [by eapply aside_ctx_ok|].
  by rewrite (aside_registry _ _ A2), Er.
Qed.

Lemma submit_replace_plain fuel steps g t s upserts deletes expected :
  ctx_ok (Some g) s → ctx_causal s = None → (0 ≤ max_depth (ctx_limits s))%Z →
  plain (rm_tables (ctx_rel s)) t → (∀ x, x ∈ deletes ++ upserts → item_type x = t) → uncascaded g (ctx_registry s) deletes →
  NoDup (item_key <$> deletes ++ upserts) →
  (∀ generation, expected = Some generation → gs_generation (ctx_gstate s) = generation) →
  upserts ++ deletes ≠ [] →
  ∃ s' r, submit_replace_mutation_inner env (S fuel) (S (S steps)) upserts deletes Local expected s = Some (s', r) ∧
    settled s s' ∧ r ≠ Ok false ∧
    (r = Ok true → ctx_ok (Some g) s' ∧ ctx_registry s' = replaced (ctx_registry s) upserts deletes).
Proof.
  intros H0 Ec Hd Pl Ht U ND Hg Ne.
  destruct (root_replaces env (S fuel) (S steps) upserts deletes Local expected s) as (s1 & st & R & Ec1 & Eq1 & ->); [done..|].
  destruct (emit_replace_plain fuel (S (S steps)) g t s1 upserts deletes expected st) as (s2 & r & E2 & F2 & Nr & Hr);
    rewrite ?(ro_registry _ _ R), ?(ro_gstate _ _ R), ?(ro_rel _ _ R); try done; [by eapply root_ctx_ok|].
  unfold mbind, M_bind. rewrite E2. destruct r as [[]|e]; [|done|].
  - destruct (Hr eq_refl) as [Ok2 Er]. rewrite (ro_registry _ _ R) in Er.
    rewrite (drain_empty _ _ _ _ st); [|by rewrite (frame_causal _ _ F2)|done].
    eexists _, _. split; [done|]. split; [by eapply root_settled|]. split; [done|]. intros _. split; [by apply close_ctx_ok|done].
  - eexists _, _. split; [done|]. split; [by eapply root_settled|done].
Qed.

(** ** A set of one item *)

(** A set that succeeds was accepted by the preflight. *)
Lemma commit_set_accepted g s item origin s' cascades :
  ctx_graph s = Some g → coordinates g item SET = true → commit_one env item SET origin Authoritative s = Some (s', Ok cascades) →
  (preflight g (ctx_registry s) (ctx_gstate s) (canonical_item s item) (Some item) Authoritative).2 = Ok ().
Proof.
  intros Eg C. unfold commit_one, validate_step, preflight_step, graph_result, lift, mbind, M_bind, get. rewrite Eg, C.
  cbn [new_value mret M_ret]. unfold M_ret. simpl. destruct (preflight _ _ _ _ _ _) as [gst [[]|e]]; [done|]. simpl. done.
Qed.

Lemma emit_set_plain fuel steps og s item st :
  ctx_ok og s → ctx_causal s = Some st → plain (rm_tables (ctx_rel s)) (item_type item) →
  ∃ s' r, emit_uniform env (submit_mutation env (S fuel) steps) [item] SET Local Authoritative s = Some (s', r) ∧
    frame s s' ∧ (r = Ok () → ctx_ok og s' ∧ ctx_registry s' = store_insert (ctx_registry s) item ∧
      ∀ g, og = Some g → coordinates g item SET = true →
        (preflight g (ctx_registry s) (ctx_gstate s) (canonical_item s item) (Some item) Authoritative).2 = Ok ()).
Proof.
  intros H0 Ec Pl. unfold emit_uniform, emit_one. unfold mbind at 1, M_bind at 1.
  destruct (commit_one_frame env (λ _, True) (λ _ _ _ _, I) item SET Local Authoritative s I) as (s1 & r1 & E1 & _ & F1).
  rewrite E1. destruct r1 as [cascades|e]; [|by exists s1, (Err e)].
  destruct (commit_one_ok env og s item SET Local Authoritative H0 s s1 cascades eq_refl E1) as [Ok1 _].
  destruct (commit_one_stores env s item SET Local Authoritative s s1 cascades eq_refl E1) as [Er Ecas].
  specialize (Ecas eq_refl). subst cascades. unfold mbind at 1, M_bind at 1.
  destruct (uncoordinated_effects (CB := CB) env (rm_tables (ctx_rel s)) (submit_mutation env (S fuel) steps) (item_type item) [item] SET Local true)
    with (s := s1) as (s2 & r2 & E2 & _ & A2); [by intros x ->%list_elem_of_singleton|by intros _ rm Erm; apply Pl|apply F1|].
  rewrite E2. pose proof (aside_frame _ _ A2) as F2. assert (frame s s2) as F by by etrans.
  destruct r2 as [u|e]; [|by exists s2, (Err e)].
  unfold submit_mutation. cbn [submit_mutation_mode]. rewrite (frame_causal _ _ F), Ec.
  eexists _, _. split; [done|]. split; [done|]. intros _. split; [by eapply aside_ctx_ok|].
  split; [by rewrite (aside_registry _ _ A2), Er|]. intros g Eg C. eapply commit_set_accepted; [|done|done].
  by rewrite (co_graph_is _ _ H0).
Qed.

Lemma submit_set_plain fuel steps g s item :
  ctx_ok (Some g) s → ctx_causal s = None → (0 ≤ max_depth (ctx_limits s))%Z →
  plain (rm_tables (ctx_rel s)) (item_type item) → is_Some (registration g (item_type item)) →
  ∃ s' r, submit_mutation env (S (S fuel)) (S (S steps)) [item] SET Local s = Some (s', r) ∧ settled s s' ∧
    (r = Ok () → ctx_ok (Some g) s' ∧ ctx_registry s' = store_insert (ctx_registry s) item ∧
      (preflight g (ctx_registry s) (ctx_gstate s) (canonical_item s item) (Some item) Authoritative).2 = Ok ()).
Proof.
  intros H0 Ec Hd Pl [reg Hr]. assert (needs_causal_root s [item] SET Local = true) as N.
  { unfold needs_causal_root. rewrite (co_graph_is _ _ H0). simpl. unfold coordinates. by rewrite Hr, orb_true_r. }
  unfold submit_mutation.
  destruct (root_emits env (S fuel) (S steps) [item] SET Local Authoritative s) as (s1 & st & R & Ec1 & Eq1 & ->);
    [done..|apply NoDup_singleton|done|].
  destruct (emit_set_plain fuel (S (S steps)) (Some g) s1 item st) as (s2 & r & E2 & F2 & Hr2);
    rewrite ?(ro_registry _ _ R), ?(ro_rel _ _ R); try done; [by eapply root_ctx_ok|].
  unfold mbind, M_bind. rewrite E2. destruct r as [[]|e].
  - destruct (Hr2 eq_refl) as (Ok2 & Er & Hp). rewrite (ro_registry _ _ R) in Er.
    rewrite (drain_empty _ _ _ _ st); [|by rewrite (frame_causal _ _ F2)|done].
    eexists _, _. split; [done|]. split; [by eapply root_settled|]. intros _. split; [by apply close_ctx_ok|]. split; [done|].
    unfold canonical_item in Hp. rewrite (ro_registry _ _ R), (ro_gstate _ _ R) in Hp. apply Hp; [done|]. unfold coordinates. by rewrite Hr.
  - eexists _, _. split; [done|]. split; [by eapply root_settled|done].
Qed.

(** ** The stores after a replacement *)

Lemma replaced_lookup registry upserts deletes t id :
  NoDup (item_key <$> deletes ++ upserts) →
  lookup_item (replaced registry upserts deletes) t id =
    match list_find (λ x, item_key x = (t, id)) upserts with
    | Some (_, x) => Some x
    | None => if decide ((t, id) ∈ item_key <$> deletes) then None else lookup_item registry t id
    end.
Proof.
  intros ND. set (eff := effective registry deletes).
  assert (NoDup (item_key <$> eff ++ upserts)) as NDe.
  { eapply (sublist_NoDup (item_key <$> eff ++ upserts)); [exact ND|]. rewrite !fmap_app. apply sublist_app; [|done].
    apply fmap_sublist, sublist_filter. }
  set (ops := ops_of DEL eff ++ ops_of SET upserts).
  assert (op_key <$> ops = item_key <$> eff ++ upserts) as Ek by (unfold ops; by rewrite fmap_app, !ops_of_keys, <-fmap_app).
  assert (lookup_item (replaced registry upserts deletes) t id = lookup_item (run_ops registry ops) t id) as ->.
  { unfold replaced. rewrite !lookup_get_or_create, reduce_replacements. f_equal. apply run_ops_perm; [|apply replacement_perm].
    rewrite replacement_perm. by rewrite fmap_app, !ops_of_keys, <-fmap_app. }
  destruct (list_find _ upserts) as [[i x]|] eqn:Ef.
  - apply list_find_Some in Ef as (Hx & Ekx & _). unfold item_key in Ekx. injection Ekx as <- <-.
    apply (lookup_run_op registry ops (SET, x)); [by rewrite Ek|]. apply elem_of_app. right.
    apply list_elem_of_fmap. exists x. split; [done|]. by eapply list_elem_of_lookup_2.
  - assert ((t, id) ∉ item_key <$> upserts) as Nu.
    { intros (x & Ex & Hx)%list_elem_of_fmap. eapply list_find_None in Ef. rewrite Forall_forall in Ef. by eapply Ef. }
    case_decide as Hin.
    + destruct (decide ((t, id) ∈ item_key <$> eff)) as [He|He].
      * apply list_elem_of_fmap in He as (x & Ex & Hx). unfold item_key in Ex. injection Ex as -> ->.
        apply (lookup_run_op registry ops (DEL, x)); [by rewrite Ek|]. apply elem_of_app. left.
        apply list_elem_of_fmap. by exists x.
      * rewrite lookup_run_other by (rewrite Ek, fmap_app, elem_of_app; tauto).
        apply list_elem_of_fmap in Hin as (x & Ex & Hx). unfold item_key in Ex. injection Ex as -> ->.
        destruct (lookup_item registry (item_type x) (item_id x)) eqn:El; [|done]. exfalso. apply He.
        change (item_type x, item_id x) with (item_key x). apply list_elem_of_fmap_2, list_elem_of_filter. by split; [eexists|].
    + apply lookup_run_other. rewrite Ek, fmap_app, elem_of_app. intros [He|He]; [|done]. apply Hin.
      apply list_elem_of_fmap in He as (x & Ex & [_ Hx]%list_elem_of_filter). rewrite Ex. by apply list_elem_of_fmap_2.
Qed.
End replace.
