(* ===== verification/TypedGraph.v ===== *)
(** * The typed graph facade

    The endpoint, scope and edge traits of [core/src/core/graph.rs] and the registration
    [macros/src/graph.rs] derives from them, and [EdgeQuery], the typed one-hop queries of a
    server context.

    A trait whose implementations are types is a record of its items: an [EndpointSpec] is a
    requirement and the erasure of its values, a [GraphEdge] the constants and functions of
    an edge type [E].  [downcast_ref::<E>()] and [Arc::new(edge) as Arc<dyn AnyItem>] are the
    fields [ge_downcast] and [ge_any]; what holds of them for every Rust type is
    [GraphEdgeLaws].  The CBOR encoding of qualifiers and scopes is a crate's, and is given. *)

From stdpp Require Import base strings numbers option countable gmap sets list.
From S2P Require Import Prelude Order GraphTypes EdgeIds GraphIndex GraphQuery GraphPreflight GraphWatch ServerTypes RelatedWatch.

(** ** Endpoint specifications *)

Record EndpointSpec (V : Type) := mkEndpointSpec {
  es_requirement : EndpointRequirement;
  es_qualifier_type : option string;
  es_erase : V → result GraphError EndpointValue
}.
Arguments mkEndpointSpec {V}.
Arguments es_requirement {V}.
Arguments es_qualifier_type {V}.
Arguments es_erase {V}.

(** [ConcreteEndpoint<T>], whose values are the ids of [T]. *)
Definition ConcreteEndpoint {I} (t : string) (id_into_str : I → string) : EndpointSpec I :=
  mkEndpointSpec (Concrete t) None (λ value, Ok (mkEndpointValue (mkEntityRef t (id_into_str value)) None)).

Definition CategoryEndpoint (category : string) : EndpointSpec EntityRef :=
  mkEndpointSpec (Category category) None (λ value, Ok (mkEndpointValue value None)).

Definition AnyItemEndpoint : EndpointSpec EntityRef :=
  mkEndpointSpec AnyRegisteredItem None (λ value, Ok (mkEndpointValue value None)).

Definition OneOfEndpoint (types : list string) : EndpointSpec EntityRef :=
  mkEndpointSpec (OneOf types) None (λ value, Ok (mkEndpointValue value None)).

Record QualifiedAddress (I Q : Type) := mkQualifiedAddress { qa_entity : I; qa_qualifier : Q }.
Arguments mkQualifiedAddress {I Q}.
Arguments qa_entity {I Q}.
Arguments qa_qualifier {I Q}.

(** [QualifiedEndpoint<T, Q>]; [type_name] is the name of [Q] and [index_value] its encoding. *)
Definition QualifiedEndpoint {I Q} (t : string) (id_into_str : I → string) (type_name : string)
    (index_value : Q → result GraphError IndexValue) : EndpointSpec (QualifiedAddress I Q) :=
  mkEndpointSpec (Concrete t) (Some type_name) (λ value,
    match index_value (qa_qualifier value) with
    | Ok qualifier => Ok (mkEndpointValue (mkEntityRef t (id_into_str (qa_entity value))) (Some qualifier))
    | Err e => Err e
    end).

(** ** Scopes *)

Record EdgeScope (V : Type) := mkEdgeScope {
  sc_scope_type : option string;
  sc_erase : V → result GraphError IndexValue
}.
Arguments mkEdgeScope {V}.
Arguments sc_scope_type {V}.
Arguments sc_erase {V}.

Definition NoScope : EdgeScope unit := mkEdgeScope None (λ _, Err (ErrMsg "NoScope has no index value")).
Definition ConcreteScope {I} (t : string) (from_serializable : I → result GraphError IndexValue) : EdgeScope I :=
  mkEdgeScope (Some t) from_serializable.

(** [scope.as_ref().map(S::erase).transpose()] *)
Definition erase_scope {V} (scope : EdgeScope V) (value : option V) : result GraphError (option IndexValue) :=
  match value with None => Ok None | Some v => map_ok Some (sc_erase scope v) end.

(** ** Edges *)

Record GraphEdge (P E VA VB VS : Type) := mkGraphEdge {
  ge_name : string;
  ge_shape : EdgeShapeKind;
  ge_a : EndpointSpec VA;
  ge_b : EndpointSpec VB;
  ge_scope_spec : EdgeScope VS;
  ge_validator : option ((EntityRef → bool) → E → result GraphError unit);
  ge_ends : E → VA * VB;
  ge_scope : E → option VS;
  ge_pair_policy : PairPolicy;
  ge_pair_projection : PairProjectionPolicy;
  ge_adjacency : AdjacencyPolicy;
  ge_a_adjacency : AdjacencyPolicy;
  ge_b_adjacency : AdjacencyPolicy;
  ge_self_loops : SelfLoopPolicy;
  ge_a_delete : EndpointDeletePolicy;
  ge_b_delete : EndpointDeletePolicy;
  ge_id : E → string;
  ge_eq : E → E → bool;
  ge_any : E → Item P;
  ge_downcast : Item P → option E
}.
Arguments mkGraphEdge {P E VA VB VS}.
Arguments ge_name {P E VA VB VS}.
Arguments ge_shape {P E VA VB VS}.
Arguments ge_a {P E VA VB VS}.
Arguments ge_b {P E VA VB VS}.
Arguments ge_scope_spec {P E VA VB VS}.
Arguments ge_validator {P E VA VB VS}.
Arguments ge_ends {P E VA VB VS}.
Arguments ge_scope {P E VA VB VS}.
Arguments ge_pair_policy {P E VA VB VS}.
Arguments ge_pair_projection {P E VA VB VS}.
Arguments ge_adjacency {P E VA VB VS}.
Arguments ge_a_adjacency {P E VA VB VS}.
Arguments ge_b_adjacency {P E VA VB VS}.
Arguments ge_self_loops {P E VA VB VS}.
Arguments ge_a_delete {P E VA VB VS}.
Arguments ge_b_delete {P E VA VB VS}.
Arguments ge_id {P E VA VB VS}.
Arguments ge_eq {P E VA VB VS}.
Arguments ge_any {P E VA VB VS}.
Arguments ge_downcast {P E VA VB VS}.

(** The item of an edge carries its type's name and its id, and gives the edge back; every
    item under the name is one; equal edges are interchangeable. *)
Class GraphEdgeLaws {P E VA VB VS} (ge : GraphEdge P E VA VB VS) := {
  any_type e : item_type (ge_any ge e) = ge_name ge;
  any_id e : item_id (ge_any ge e) = ge_id ge e;
  downcast_any e : ge_downcast ge (ge_any ge e) = Some e;
  downcast_Some item e : ge_downcast ge item = Some e → item = ge_any ge e;
  downcast_name item : item_type item = ge_name ge → is_Some (ge_downcast ge item);
  edge_eq e e' : ge_eq ge e e' = true → e = e'
}.

Section edge.
Context {P E VA VB VS : Type} (ge : GraphEdge P E VA VB VS).
Implicit Types (edge : E) (item : Item P).

(** [E::Ends::erase]. *)
Definition erase_ends (values : VA * VB) : result GraphError EdgeEndpoints :=
  match es_erase (ge_a ge) values.1 with
  | Err e => Err e
  | Ok a => match es_erase (ge_b ge) values.2 with
            | Err e => Err e
            | Ok b => Ok (mkEdgeEndpoints a b)
            end
  end.

Definition extract_edge item : result GraphError EdgeEndpoints :=
  match ge_downcast ge item with
  | None => Err (ErrMsg "edge registration item type mismatch")
  | Some edge => erase_ends (ge_ends ge edge)
  end.

Definition extract_edge_scope item : result GraphError (option IndexValue) :=
  match ge_downcast ge item with
  | None => Err (ErrMsg "edge registration item type mismatch")
  | Some edge => erase_scope (ge_scope_spec ge) (ge_scope ge edge)
  end.

Definition validate_edge (validator : (EntityRef → bool) → E → result GraphError unit) (exists_ : EntityRef → bool) item
  : result GraphError unit :=
  match ge_downcast ge item with
  | None => Err (ErrMsg "edge validator item type mismatch")
  | Some edge => validator exists_ edge
  end.

(** The [EdgeRegistration] and [EdgeAdjacencyRegistration] the macro submits. *)
Definition edge_registration : EdgeRegistration P :=
  mkEdgeRegistration P (ge_name ge) (ge_shape ge) (ge_pair_policy ge) (ge_pair_projection ge)
    (mkEndpointReg PosA (es_requirement (ge_a ge)) (es_qualifier_type (ge_a ge)))
    (mkEndpointReg PosB (es_requirement (ge_b ge)) (es_qualifier_type (ge_b ge)))
    (sc_scope_type (ge_scope_spec ge)) (ge_adjacency ge) (ge_self_loops ge) (ge_a_delete ge) (ge_b_delete ge)
    extract_edge extract_edge_scope (validate_edge <$> ge_validator ge).

Definition edge_adjacency_registration : string * (AdjacencyPolicy * AdjacencyPolicy) :=
  (ge_name ge, (ge_a_adjacency ge, ge_b_adjacency ge)).
End edge.

(** ** Typed one-hop queries

    [EdgeQuery<'_, E>]: the server context [s], and the plan counters its lookups feed.
    Every method erases its addresses and its scope before it asks for the index. *)
Section edge_query.
Context {P E VA VB VS CB J : Type} (ge : GraphEdge P E VA VB VS) (s : Ctx P CB J) (counters : PlanCounters).
Abbreviation name := (ge_name ge).
Abbreviation Counted A := (result GraphError (PlanCounters * A)).

Definition graph : result GraphError (GraphIndex P) :=
  ok_or (ErrMsg "application has no graph registrations") (ctx_graph s).

Definition materialize (ids : list string) : list E :=
  match ctx_registry s !! name with
  | None => []
  | Some store => omap (λ id, (store !! id : option (Item P)) ≫= ge_downcast ge) ids
  end.

Definition materialize_one (id : string) : option E :=
  store ← ctx_registry s !! name;
  (store !! id : option (Item P)) ≫= ge_downcast ge.

(** [f] of the erased address and the index. *)
Definition at_address {V A} (spec : EndpointSpec V) (value : V) (f : EndpointValue → GraphIndex P → A) : result GraphError A :=
  endpoint ← es_erase spec value;
  g ← graph;
  Ok (f endpoint g).

Definition between_addresses {A} (a : VA) (b : VB) (f : EndpointValue → EndpointValue → GraphIndex P → A) : result GraphError A :=
  a ← es_erase (ge_a ge) a;
  b ← es_erase (ge_b ge) b;
  g ← graph;
  Ok (f a b g).

Definition between_in_scope_addresses {A} (scope : VS) (a : VA) (b : VB)
    (f : IndexValue → EndpointValue → EndpointValue → GraphIndex P → A) : result GraphError A :=
  scope ← sc_erase (ge_scope_spec ge) scope;
  between_addresses a b (f scope).

Definition from_ids (value : VA) : Counted (list string) :=
  at_address (ge_a ge) value (λ endpoint g, edge_ids_at g (ctx_gstate s) (ctx_registry s) counters name PosA endpoint).
Definition count_from (value : VA) : result GraphError Z :=
  at_address (ge_a ge) value (λ endpoint g, edge_count_at g (ctx_gstate s) (ctx_registry s) name PosA endpoint).
Definition exists_from (value : VA) : result GraphError bool :=
  at_address (ge_a ge) value (λ endpoint g, has_edge_at g (ctx_gstate s) (ctx_registry s) name PosA endpoint).
Definition from (value : VA) : Counted (list E) := map_ok (λ r, (r.1, materialize r.2)) (from_ids value).
Definition from_at := from.

Definition to_ids (value : VB) : Counted (list string) :=
  at_address (ge_b ge) value (λ endpoint g, edge_ids_at g (ctx_gstate s) (ctx_registry s) counters name PosB endpoint).
Definition count_to (value : VB) : result GraphError Z :=
  at_address (ge_b ge) value (λ endpoint g, edge_count_at g (ctx_gstate s) (ctx_registry s) name PosB endpoint).
Definition exists_to (value : VB) : result GraphError bool :=
  at_address (ge_b ge) value (λ endpoint g, has_edge_at g (ctx_gstate s) (ctx_registry s) name PosB endpoint).
Definition to (value : VB) : Counted (list E) := map_ok (λ r, (r.1, materialize r.2)) (to_ids value).
Definition to_at := to.

Definition between_ids (a : VA) (b : VB) : result GraphError (list string) :=
  between_addresses a b (λ a b g, edge_ids_between g (ctx_gstate s) (ctx_registry s) name a b).
Definition between (a : VA) (b : VB) : result GraphError (list E) := map_ok materialize (between_ids a b).
Definition count_between (a : VA) (b : VB) : result GraphError Z :=
  between_addresses a b (λ a b g, edge_count_between g (ctx_gstate s) (ctx_registry s) name a b).
Definition exists_between (a : VA) (b : VB) : result GraphError bool :=
  between_addresses a b (λ a b g, has_edge_between g (ctx_gstate s) (ctx_registry s) name a b).

Definition not_unique : GraphError := ErrMsg (name +:+ " does not declare unique pairs").

Definition between_id (a : VA) (b : VB) : result GraphError (option string) :=
  if bool_decide (ge_pair_policy ge ≠ Unique) then Err not_unique else map_ok head (between_ids a b).
Definition one_between (a : VA) (b : VB) : result GraphError (option E) :=
  map_ok (λ id, id ≫= materialize_one) (between_id a b).

Definition between_ids_in_scope (scope : VS) (a : VA) (b : VB) : result GraphError (list string) :=
  between_in_scope_addresses scope a b (λ scope a b g, edge_ids_between_in_scope g (ctx_gstate s) (ctx_registry s) name a b scope).
Definition between_in_scope (scope : VS) (a : VA) (b : VB) : result GraphError (list E) :=
  map_ok materialize (between_ids_in_scope scope a b).
Definition count_between_in_scope (scope : VS) (a : VA) (b : VB) : result GraphError Z :=
  between_in_scope_addresses scope a b (λ scope a b g, edge_count_between_in_scope g (ctx_gstate s) (ctx_registry s) name a b scope).
Definition exists_between_in_scope (scope : VS) (a : VA) (b : VB) : result GraphError bool :=
  between_in_scope_addresses scope a b (λ scope a b g, has_edge_between_in_scope g (ctx_gstate s) (ctx_registry s) name a b scope).
Definition between_id_in_scope (scope : VS) (a : VA) (b : VB) : result GraphError (option string) :=
  if bool_decide (ge_pair_policy ge ≠ Unique) then Err not_unique else map_ok head (between_ids_in_scope scope a b).
Definition one_between_in_scope (scope : VS) (a : VA) (b : VB) : result GraphError (option E) :=
  map_ok (λ id, id ≫= materialize_one) (between_id_in_scope scope a b).

(** ** Live queries: the opened watch, its map narrowed to the edge type *)
Abbreviation Watched V := (result GraphError (GraphWatchRouter CB * option (gset GraphWatchRoute * Z) * PlanCounters * V))%type.
Implicit Types (cb : CB) (m : gmap string (Item P)).
Context `{!CellMap (Item P)}.

Definition typed_watch (opened : Watched (gmap string (Item P))) : Watched (gmap string (Item P)) :=
  map_ok (λ o : _ * gmap string (Item P), (o.1, typed_map_arc_from_any_item name o.2)) opened.

Definition watch_from (value : VA) cb : Watched (gmap string (Item P)) :=
  endpoint ← es_erase (ge_a ge) value; g ← graph;
  typed_watch (watch_at g (ctx_gstate s) (ctx_registry s) counters (ctx_router s) name PosA endpoint cb).
Definition watch_from_at := watch_from.
Definition watch_to (value : VB) cb : Watched (gmap string (Item P)) :=
  endpoint ← es_erase (ge_b ge) value; g ← graph;
  typed_watch (watch_at g (ctx_gstate s) (ctx_registry s) counters (ctx_router s) name PosB endpoint cb).
Definition watch_to_at := watch_to.

(** [values.iter().map(erase).collect::<Result<Vec<_>>>()] *)
Definition erase_all {V} (spec : EndpointSpec V) (values : list V) : result GraphError (list EndpointValue) :=
  try_fold (λ endpoints value, map_ok (λ endpoint, endpoints ++ [endpoint]) (es_erase spec value)) [] values.

Definition watch_from_many (values : list VA) cb : Watched (gmap string (Item P)) :=
  endpoints ← erase_all (ge_a ge) values; g ← graph;
  typed_watch (watch_many_at g (ctx_gstate s) (ctx_registry s) counters (ctx_router s) name PosA endpoints cb).
Definition watch_to_many (values : list VB) cb : Watched (gmap string (Item P)) :=
  endpoints ← erase_all (ge_b ge) values; g ← graph;
  typed_watch (watch_many_at g (ctx_gstate s) (ctx_registry s) counters (ctx_router s) name PosB endpoints cb).

Definition watch_count_from (value : VA) cb : Watched Z :=
  endpoint ← es_erase (ge_a ge) value; g ← graph;
  watch_count_at g (ctx_gstate s) (ctx_registry s) counters (ctx_router s) name PosA endpoint cb.
Definition watch_count_to (value : VB) cb : Watched Z :=
  endpoint ← es_erase (ge_b ge) value; g ← graph;
  watch_count_at g (ctx_gstate s) (ctx_registry s) counters (ctx_router s) name PosB endpoint cb.

Definition typed_watch_between (a : VA) (b : VB) cb : Watched (gmap string (Item P)) :=
  a ← es_erase (ge_a ge) a; b ← es_erase (ge_b ge) b; g ← graph;
  typed_watch (watch_between g (ctx_gstate s) (ctx_registry s) counters (ctx_router s) name a b cb).
Definition typed_watch_count_between (a : VA) (b : VB) cb : Watched Z :=
  a ← es_erase (ge_a ge) a; b ← es_erase (ge_b ge) b; g ← graph;
  watch_count_between g (ctx_gstate s) (ctx_registry s) counters (ctx_router s) name a b cb.
End edge_query.

(** The methods of edges whose ends have one specification. *)
Section incident.
Context {P E V VS CB J : Type} `{!CellMap (Item P)} (ge : GraphEdge P E V V VS) (s : Ctx P CB J) (counters : PlanCounters).

Definition incident (value : V) : result GraphError (PlanCounters * list E) :=
  endpoint ← es_erase (ge_a ge) value; g ← graph s;
  let '(counters, ids) := incident_ids g (ctx_gstate s) (ctx_registry s) counters (ge_name ge) endpoint in
  Ok (counters, materialize ge s ids).

Definition typed_watch_incident (value : V) (cb : CB) :=
  endpoint ← es_erase (ge_a ge) value; g ← graph s;
  typed_watch ge (watch_incident g (ctx_gstate s) (ctx_registry s) counters (ctx_router s) (ge_name ge) endpoint cb).
End incident.
