(* ===== verification/TypedProof.v ===== *)
(** * Typed queries of the graph, proved

    A typed query erases its addresses, asks the index for ids and reads the edges of the
    store under them.  It answers with the stored edges its addresses describe, each once; its
    count and its existence test agree with them; and where pairs are unique there is at most
    one between two ends. *)

From stdpp Require Import base strings numbers option countable gmap sets list.
From S2P Require Import Prelude Order GraphTypes EdgeIds GraphIndex GraphQuery GraphPreflight GraphWatch ServerTypes Relationship Pipeline RelatedWatch.
From S2P Require Import PipelineProof PipelineInvariant TypedGraph.

(** A scope whose type has no name has no values. *)
Class EdgeScopeLaws {V} (scope : EdgeScope V) := unnamed_scope v x : sc_scope_type scope = None → sc_erase scope v ≠ Ok x.
#[export] Instance NoScope_laws : EdgeScopeLaws NoScope.
Proof. by intros v x. Qed.
#[export] Instance ConcreteScope_laws {I} t (from_serializable : I → _) : EdgeScopeLaws (ConcreteScope t from_serializable).
Proof. by intros v x. Qed.

Section typed.
Context {P E VA VB VS CB J : Type} (ge : GraphEdge P E VA VB VS) `{!GraphEdgeLaws ge, !EdgeScopeLaws (ge_scope_spec ge)}.
Implicit Types (s : Ctx P CB J) (edge : E) (edges : list E) (p : E → bool).
Abbreviation name := (ge_name ge).
Abbreviation r := (edge_registration ge).

Lemma edge_scopes_ok : scopes_ok r.
Proof.
  intros Et item x. simpl in *. unfold extract_edge_scope. destruct (ge_downcast ge item) as [edge|]; [|done].
  unfold erase_scope. destruct (ge_scope ge edge) as [v|]; [|by intros [= <-]].
  destruct (sc_erase _ v) as [i|] eqn:Ei; [|done]. by destruct (unnamed_scope v i Et).
Qed.

(** The stored edges that satisfy [p], each once. *)
Definition finds s p edges : Prop :=
  NoDup (ge_id ge <$> edges) ∧
  ∀ edge, edge ∈ edges ↔ lookup_item (ctx_registry s) name (ge_id ge edge) = Some (ge_any ge edge) ∧ p edge = true.

Lemma stored_edge s id item :
  registry_ok (ctx_registry s) → lookup_item (ctx_registry s) name id = Some item →
  ∃ edge, ge_downcast ge item = Some edge ∧ item = ge_any ge edge ∧ id = ge_id ge edge.
Proof.
  intros W El. rewrite lookup_get_or_create in El. apply get_or_create_ok in El as [Et Ei]; [|done].
  destruct (downcast_name item Et) as [edge Ed]. pose proof (downcast_Some _ _ Ed) as ->.
  exists edge. by rewrite <-any_id, Ei.
Qed.

Lemma materialize_cons s id ids edge :
  lookup_item (ctx_registry s) name id = Some (ge_any ge edge) →
  materialize ge s (id :: ids) = edge :: materialize ge s ids.
Proof.
  unfold materialize, lookup_item. destruct (ctx_registry s !! name) as [store|]; [|done]. simpl. intros El.
  change (omap (M := list) ?f (id :: ids)) with (match f id with Some y => y :: omap f ids | None => omap f ids end). cbv beta.
  rewrite El. simpl. by rewrite downcast_any.
Qed.

Lemma materialize_one_stored s id edge :
  lookup_item (ctx_registry s) name id = Some (ge_any ge edge) → materialize_one ge s id = Some edge.
Proof.
  unfold materialize_one, lookup_item. destruct (ctx_registry s !! name) as [store|]; [|done]. simpl. intros ->. apply downcast_any.
Qed.

(** The edges under the ids of a selection. *)
Lemma materialize_selected s (sel : Item P → bool) q ids :
  registry_ok (ctx_registry s) → selected (get_or_create (ctx_registry s) name) sel ids → (∀ edge, sel (ge_any ge edge) = q edge) →
  finds s q (materialize ge s ids) ∧ ge_id ge <$> materialize ge s ids = ids.
Proof.
  intros W [ND Sel] Hpq.
  assert (∀ id, id ∈ ids → ∃ edge, lookup_item (ctx_registry s) name id = Some (ge_any ge edge) ∧ id = ge_id ge edge ∧ q edge = true) as Hids.
  { intros id (item & El & Hp)%Sel. rewrite <-lookup_get_or_create in El. destruct (stored_edge s id item W El) as (edge & _ & -> & Ei).
    exists edge. by rewrite <-Hpq. }
  assert (ge_id ge <$> materialize ge s ids = ids ∧
    ∀ edge, edge ∈ materialize ge s ids ↔ ge_id ge edge ∈ ids ∧ lookup_item (ctx_registry s) name (ge_id ge edge) = Some (ge_any ge edge)) as [Em Hm].
  { clear ND Sel. induction ids as [|id ids IH].
    - unfold materialize. assert ((match ctx_registry s !! name with None => [] | Some store => omap (λ id, (store !! id : option (Item P)) ≫= ge_downcast ge) [] end) = []) as ->
        by by destruct (ctx_registry s !! name). split; [done|]. intros edge. rewrite !elem_of_nil. tauto.
    - destruct IH as [IH1 IH2]; [intros i Hi; apply Hids; by right|].
      destruct (Hids id) as (edge & El & -> & _); [left|]. rewrite (materialize_cons s _ ids edge El). split; [csimpl; by rewrite IH1|].
      intros e. rewrite !elem_of_cons, IH2. split.
      + intros [->|[? ?]]; [auto|]. split; [by right|done].
      + intros [[Ee|He] Es]; [left|by right]. rewrite Ee, El in Es. injection Es as Es. pose proof (downcast_any e) as De.
        rewrite <-Es, downcast_any in De. congruence. }
  split; [|done]. split; [by rewrite Em|]. intros edge. rewrite Hm. split.
  - intros [Hin Es]. split; [done|]. destruct (Hids _ Hin) as (edge' & El & _ & Hq). rewrite Es in El. injection El as El.
    pose proof (downcast_any edge) as De. rewrite El, downcast_any in De. congruence.
  - intros [Es Hq]. split; [|done]. apply Sel. exists (ge_any ge edge). by rewrite <-lookup_get_or_create, Hpq.
Qed.

Lemma materialize_nil s ids edges : ge_id ge <$> edges = ids → bool_decide (ids = []) = bool_decide (edges = []).
Proof. intros <-. apply bool_decide_ext. split; [apply fmap_nil_inv|by intros ->]. Qed.

(** ** What addresses describe *)

Definition has_end (position : EndPosition) (endpoint : EndpointValue) edge : bool :=
  match erase_ends ge (ge_ends ge edge) with Ok ends => bool_decide (end_at position ends = endpoint) | Err _ => false end.

Definition joins (ends : EndpointValue * EndpointValue) edge : bool :=
  match erase_ends ge (ge_ends ge edge) with Ok e => endpoints_match r e ends.1 ends.2 | Err _ => false end.

Definition joins_in_scope (address : IndexValue * (EndpointValue * EndpointValue)) edge : bool :=
  joins address.2 edge &&
  match erase_scope (ge_scope_spec ge) (ge_scope ge edge) with Ok scope => bool_decide (scope = Some address.1) | Err _ => false end.

Definition erase_pair (a : VA) (b : VB) : result GraphError (EndpointValue * EndpointValue) :=
  a ← es_erase (ge_a ge) a; b ← es_erase (ge_b ge) b; Ok (a, b).
Definition erase_scoped_pair (scope : VS) (a : VA) (b : VB) : result GraphError (IndexValue * (EndpointValue * EndpointValue)) :=
  scope ← sc_erase (ge_scope_spec ge) scope; ends ← erase_pair a b; Ok (scope, ends).

(** A query over an address: its error is that of the erasure; otherwise it finds what the
    address describes, and its count and existence test agree. *)
Definition answers {K} s (address : result GraphError K) (describes : K → E → bool)
    (query : result GraphError (list E)) (count : result GraphError Z) (exists_ : result GraphError bool) : Prop :=
  match address with
  | Err e => query = Err e ∧ count = Err e ∧ exists_ = Err e
  | Ok key => ∃ edges, query = Ok edges ∧ finds s (describes key) edges ∧
                count = Ok (len edges) ∧ exists_ = Ok (negb (bool_decide (edges = [])))
  end.

Lemma matches_any position endpoint edge : matches_at r position endpoint (ge_any ge edge) = has_end position endpoint edge.
Proof. unfold matches_at, has_end. simpl. unfold extract_edge. by rewrite downcast_any. Qed.

Lemma matches_pair a b edge : matches_between r a b (ge_any ge edge) = joins (a, b) edge.
Proof. unfold matches_between, joins. simpl. unfold extract_edge. by rewrite downcast_any. Qed.

Lemma matches_scoped_pair scope a b edge : matches_between_in_scope r a b scope (ge_any ge edge) = joins_in_scope (scope, (a, b)) edge.
Proof.
  unfold matches_between_in_scope, joins_in_scope, joins. simpl. unfold extract_edge, extract_edge_scope. rewrite downcast_any.
  destruct (erase_ends _ _) as [e|]; [|done]. destruct (erase_scope _ _); [by rewrite andb_comm|by rewrite andb_false_r].
Qed.

Lemma answered {K} s (key : K) describes (sel : Item P → bool) ids count exists_ :
  registry_ok (ctx_registry s) → selected (get_or_create (ctx_registry s) name) sel ids →
  (∀ edge, sel (ge_any ge edge) = describes key edge) → count = len ids → exists_ = negb (bool_decide (ids = [])) →
  answers s (Ok key) describes (Ok (materialize ge s ids)) (Ok count) (Ok exists_).
Proof.
  intros W Sel Hp -> ->. destruct (materialize_selected s sel (describes key) ids W Sel Hp) as [F Em]. simpl.
  eexists. split; [done|]. split; [done|]. rewrite <-(materialize_nil s ids _ Em). split; [|done]. unfold len. rewrite <-Em at 1. by rewrite length_fmap.
Qed.

(** The same for a query that answers with at most one edge. *)
Definition answers_one {K} s (address : result GraphError K) (describes : K → E → bool) (query : result GraphError (option E)) : Prop :=
  match address with
  | Err e => query = Err e
  | Ok key => ∃ found, query = Ok found ∧
      ∀ edge, found = Some edge ↔ lookup_item (ctx_registry s) name (ge_id ge edge) = Some (ge_any ge edge) ∧ describes key edge = true
  end.

Section graph.
Context (g : GraphIndex P) (Hg : registration g name = Some r) (s : Ctx P CB J) (Hs : ctx_ok (Some g) s).
Implicit Types (counters : PlanCounters).

Lemma typed_graph : graph s = Ok g.
Proof. unfold graph. by rewrite (co_graph_is _ _ Hs). Qed.

Lemma typed_exact : registrations_ok g ∧ graph_ok g (ctx_registry s) (ctx_gstate s).
Proof. destruct Hs as [_ _ G _ _]. by destruct (G g eq_refl). Qed.

Lemma from_answers counters value :
  answers s (es_erase (ge_a ge) value) (has_end PosA) (map_ok snd (from ge s counters value)) (count_from ge s value) (exists_from ge s value).
Proof.
  destruct typed_exact as [R G]. unfold from, from_ids, count_from, exists_from, at_address.
  destruct (es_erase _ value) as [endpoint|e]; [|done]. rewrite typed_graph. apply (answered s endpoint (has_end PosA) (matches_at r PosA endpoint)).
  - apply Hs.
  - apply edge_ids_at_selected; [done|apply Hs|done..].
  - intros edge. apply matches_any.
  - apply edge_count_at_ids.
  - apply has_edge_at_ids.
Qed.

Lemma to_answers counters value :
  answers s (es_erase (ge_b ge) value) (has_end PosB) (map_ok snd (to ge s counters value)) (count_to ge s value) (exists_to ge s value).
Proof.
  destruct typed_exact as [R G]. unfold to, to_ids, count_to, exists_to, at_address.
  destruct (es_erase _ value) as [endpoint|e]; [|done]. rewrite typed_graph. apply (answered s endpoint (has_end PosB) (matches_at r PosB endpoint)).
  - apply Hs.
  - apply edge_ids_at_selected; [done|apply Hs|done..].
  - intros edge. apply matches_any.
  - apply edge_count_at_ids.
  - apply has_edge_at_ids.
Qed.

Lemma between_answers a b :
  answers s (erase_pair a b) joins (between ge s a b) (count_between ge s a b) (exists_between ge s a b).
Proof.
  destruct typed_exact as [R G]. unfold between, between_ids, count_between, exists_between, between_addresses, erase_pair.
  destruct (es_erase (ge_a ge) a) as [a'|e]; [|done]. destruct (es_erase (ge_b ge) b) as [b'|e]; [|done]. rewrite typed_graph.
  apply (answered s (a', b') joins (matches_between r a' b')).
  - apply Hs.
  - apply edge_ids_between_selected; [done|apply Hs|done|apply edge_scopes_ok|done].
  - intros edge. apply matches_pair.
  - apply edge_count_between_ids.
  - apply has_edge_between_ids.
Qed.

Lemma between_in_scope_answers scope a b :
  answers s (erase_scoped_pair scope a b) joins_in_scope (between_in_scope ge s scope a b) (count_between_in_scope ge s scope a b)
    (exists_between_in_scope ge s scope a b).
Proof.
  destruct typed_exact as [R G]. unfold between_in_scope, between_ids_in_scope, count_between_in_scope, exists_between_in_scope,
    between_in_scope_addresses, between_addresses, erase_scoped_pair, erase_pair.
  destruct (sc_erase _ scope) as [scope'|e]; [|done].
  destruct (es_erase (ge_a ge) a) as [a'|e]; [|done]. destruct (es_erase (ge_b ge) b) as [b'|e]; [|done]. rewrite typed_graph.
  apply (answered s (scope', (a', b')) joins_in_scope (matches_between_in_scope r a' b' scope')).
  - apply Hs.
  - apply edge_ids_between_in_scope_selected; [done|apply Hs|done..].
  - intros edge. apply matches_scoped_pair.
  - apply edge_count_between_in_scope_ids.
  - apply has_edge_between_in_scope_ids.
Qed.

(** ** Unique pairs *)

Lemma unique_selection a b scope ids :
  unique_pairs g (ctx_registry s) → ge_pair_policy ge = Unique → (scope = None → sc_scope_type (ge_scope_spec ge) = None) →
  selected (get_or_create (ctx_registry s) name) (between_pred r a b scope) ids → ids = [] ∨ ∃ id, ids = [id].
Proof.
  intros Up Eu Hn [ND Sel]. destruct typed_exact as [_ G]. destruct (G _ _ Hg) as [X _].
  assert (∀ id, id ∈ ids → ∃ item e, get_or_create (ctx_registry s) name !! id = Some item ∧ indexed r item = Ok e ∧
    pair_key_of r e = pair_key_from_values r a b scope) as Hids.
  { intros id (item & El & Hp)%Sel. destruct (proj1 (is_ok_True _) (X _ _ El)) as [e Xe]. exists item, e. split; [done|]. split; [done|].
    rewrite (between_pred_indexed _ _ _ _ _ _ Xe) in Hp. apply andb_true_iff in Hp as [Hm Hsc]. apply pair_key_match. split; [|done].
    destruct scope as [x|]; [by apply bool_decide_eq_true in Hsc|]. apply indexed_extract in Xe as [_ Xs].
    by apply (edge_scopes_ok (Hn eq_refl) item). }
  destruct ids as [|id [|id' ids]]; [by left|right; by exists id|]. exfalso.
  destruct (Hids id) as (x & e & L1 & X1 & K1); [left|]. destruct (Hids id') as (x' & e' & L2 & X2 & K2); [right; left|].
  apply NoDup_cons in ND as [N _]. apply N. assert (id = id') as ->; [|left]. eapply Up; try done. by rewrite K1, K2.
Qed.

Lemma one_answered {K} (key : K) describes (sel : Item P → bool) ids :
  selected (get_or_create (ctx_registry s) name) sel ids → (∀ edge, sel (ge_any ge edge) = describes key edge) →
  ids = [] ∨ (∃ id, ids = [id]) → answers_one s (Ok key) describes (Ok (head ids ≫= materialize_one ge s)).
Proof.
  intros Sel Hp One. simpl. eexists. split; [done|]. pose proof (co_registry _ _ Hs) as W. destruct Sel as [_ Sel]. intros edge.
  rewrite <-Hp, lookup_get_or_create. split.
  - destruct One as [->|[id ->]]; [done|]. simpl. destruct (proj1 (Sel id)) as (item & El & Hi); [left|].
    rewrite <-lookup_get_or_create in El. destruct (stored_edge s id item W El) as (e & _ & -> & ->).
    rewrite (materialize_one_stored _ _ _ El). intros [= <-]. by rewrite <-lookup_get_or_create.
  - intros [El Hd]. assert (ge_id ge edge ∈ ids) as Hin by (apply Sel; eauto). destruct One as [->|[id ->]]; [by apply elem_of_nil in Hin|].
    apply list_elem_of_singleton in Hin as <-. apply materialize_one_stored. by rewrite lookup_get_or_create.
Qed.

Lemma one_between_answers a b :
  unique_pairs g (ctx_registry s) → ge_pair_policy ge = Unique → sc_scope_type (ge_scope_spec ge) = None →
  answers_one s (erase_pair a b) joins (one_between ge s a b).
Proof.
  intros Up Eu En. destruct typed_exact as [R G]. unfold one_between, between_id, between_ids, between_addresses, erase_pair.
  rewrite bool_decide_eq_false_2 by (intros N; by apply N).
  destruct (es_erase (ge_a ge) a) as [a'|e]; [|done]. destruct (es_erase (ge_b ge) b) as [b'|e]; [|done]. rewrite typed_graph.
  pose proof (edge_ids_between_selected g (ctx_registry s) (ctx_gstate s) name r a' b' R (co_registry _ _ Hs) G edge_scopes_ok Hg) as Sel.
  eapply (one_answered (a', b') joins); [exact Sel|intros; apply matches_pair|]. by eapply (unique_selection a' b' None).
Qed.

Lemma one_between_in_scope_answers scope a b :
  unique_pairs g (ctx_registry s) → ge_pair_policy ge = Unique →
  answers_one s (erase_scoped_pair scope a b) joins_in_scope (one_between_in_scope ge s scope a b).
Proof.
  intros Up Eu. destruct typed_exact as [R G].
  unfold one_between_in_scope, between_id_in_scope, between_ids_in_scope, between_in_scope_addresses, between_addresses, erase_scoped_pair, erase_pair.
  rewrite bool_decide_eq_false_2 by (intros N; by apply N). destruct (sc_erase _ scope) as [scope'|e]; [|done].
  destruct (es_erase (ge_a ge) a) as [a'|e]; [|done]. destruct (es_erase (ge_b ge) b) as [b'|e]; [|done]. rewrite typed_graph.
  pose proof (edge_ids_between_in_scope_selected g (ctx_registry s) (ctx_gstate s) name r a' b' scope' R (co_registry _ _ Hs) G Hg) as Sel.
  eapply (one_answered (scope', (a', b')) joins_in_scope); [exact Sel|intros; apply matches_scoped_pair|].
  by eapply (unique_selection a' b' (Some scope')).
Qed.

End graph.
End typed.

(** ** Edges whose ends have one specification *)

Section incident.
Context {P E V VS CB J : Type} (ge : GraphEdge P E V V VS) `{!GraphEdgeLaws ge}.
Context (g : GraphIndex P) (Hg : registration g (ge_name ge) = Some (edge_registration ge)) (s : Ctx P CB J) (Hs : ctx_ok (Some g) s).

Lemma incident_answers counters value :
  match es_erase (ge_a ge) value with
  | Err e => incident ge s counters value = Err e
  | Ok endpoint => ∃ counters' edges, incident ge s counters value = Ok (counters', edges) ∧
      finds ge s (λ edge, has_end ge PosA endpoint edge || has_end ge PosB endpoint edge) edges
  end.
Proof.
  destruct (typed_exact g s Hs) as [R G]. unfold incident. destruct (es_erase _ value) as [endpoint|e]; [|done].
  unfold mbind, result_bind. rewrite (typed_graph g s Hs).
  pose proof (incident_ids_selected g (ctx_registry s) (ctx_gstate s) counters (ge_name ge) (edge_registration ge) endpoint R
    (co_registry _ _ Hs) G Hg) as Sel.
  destruct (incident_ids _ _ _ _ _ _) as [counters' ids]. eexists _, _. split; [done|].
  apply (materialize_selected ge s _ _ ids (co_registry _ _ Hs) Sel). intros edge. unfold matches_incident.
  by rewrite !matches_any.
Qed.
End incident.
