(* ===== verification/TypedFixtures.v ===== *)
(** * A typed edge

    [Route] edges join [Node]s within a [Zone], at most one per pair and zone, and carry a
    label; the server of [TFx] stores some.  The properties of typed queries and of graph
    commands are instantiated at it. *)

From Stdlib Require Import Strings.Byte.
From stdpp Require Import base strings numbers option countable gmap sets list pretty.
From S2P Require Import Prelude Order GraphTypes EdgeIds GraphIndex GraphQuery GraphPreflight GraphWatch Fixtures ServerTypes Relationship Pipeline Ingest ServerFixtures TypedGraph.
From S2P Require Import PipelineProof PipelineInvariant TypedProof.

Module TFx.
(** The ends, the zone and the label of a route; whatever for a node. *)
Record Road := mkRoad { road_a : string; road_b : string; road_zone : option string; road_label : nat }.
#[global] Instance Road_eq_dec : EqDecision Road.
Proof. solve_decision. Defined.
#[global] Instance Road_countable : Countable Road.
Proof.
  refine (inj_countable' (λ r, (road_a r, road_b r, road_zone r, road_label r)) (λ '(a, b, z, l), mkRoad a b z l) _).
  by intros [].
Defined.

(** A route: its id and what it carries. *)
Definition Route : Type := string * Road.
Definition route (id a b zone : string) (label : nat) : Route := (id, mkRoad a b (Some zone) label).
Definition zone_value (zone : string) : result GraphError IndexValue := Ok (mkIndexValue (String.list_byte_of_string zone)).
Definition node_ref (id : string) : string := id.

Definition any_route (r : Route) : Item Road := mkItem "Route" r.1 r.2.

Definition ge : GraphEdge Road Route string string string :=
  mkGraphEdge "Route" Directed (ConcreteEndpoint "Node" node_ref) (ConcreteEndpoint "Node" node_ref)
    (ConcreteScope "Zone" zone_value) None (λ r, (road_a r.2, road_b r.2)) (λ r, road_zone r.2) Unique PairEager
    Eager Eager Eager RejectLoops CascadeEdge CascadeEdge fst (λ r r', bool_decide (r = r'))
    any_route
    (λ item, if bool_decide (item_type item = "Route") then Some (item_id item, item_payload item) else None).

#[global] Instance ge_laws : GraphEdgeLaws ge.
Proof.
  split; simpl.
  - done.
  - done.
  - by intros [].
  - intros [t id p] e. simpl. case_bool_decide as Et; [|done]. simpl in Et. subst t. by intros [= <-].
  - intros item ->. by eexists.
  - by intros e e' ?%bool_decide_eq_true.
Qed.

#[global] Instance ge_scope_laws : EdgeScopeLaws (ge_scope_spec ge).
Proof. unfold ge. simpl. apply _. Qed.

Definition inventory : Inventory (P := Road) :=
  mkInventory [edge_registration ge] [edge_adjacency_registration ge] [] [] ["Node"; "Route"].

Definition index : GraphIndex Road :=
  match from_inventory inventory with Ok (Some g) => g | _ => mkGraphIndex ∅ ∅ ∅ ∅ ∅ end.

Definition node (id : string) : Item Road := mkItem "Node" id (mkRoad "" "" None 0).

(** In the north zone [n1] is joined to [n2] and [n3], in the south zone to [n2]. *)
Definition registry : StoreRegistry Road :=
  foldl store_insert ∅ (node "n1" :: node "n2" :: node "n3" :: node "n4" ::
    (any_route <$> [route "r1" "n1" "n2" "north" 1; route "r2" "n1" "n3" "north" 2; route "r3" "n1" "n2" "south" 3;
                     route "r4" "n2" "n1" "north" 4])).

Definition state : GraphState := (rebuild index registry).1.

Definition env : Env Road (Item Road) := env_fx accepting.
Definition ctx : Ctx Road nat (Item Road) := ctx_fx registry (Some index) state no_relations.

Lemma index_ok : registrations_ok index.
Proof. by apply registrations_okb_spec; vm_compute. Qed.
Lemma registry_fine : registry_ok registry.
Proof. by apply registry_okb_spec; vm_compute. Qed.

Lemma state_fine : graph_ok index registry state.
Proof. unfold state. by apply rebuild_checked; vm_compute. Qed.

Lemma ctx_fine : ctx_ok (Some index) ctx.
Proof.
  apply mkCtxOk; [reflexivity|exact registry_fine| |intros st E; discriminate E|].
  - intros g E. apply Some_inj in E as <-. split; [exact index_ok|exact state_fine].
  - intros t lookups lookup parent child parent' E. simpl in E. by rewrite lookup_empty in E.
Qed.

Lemma registered : registration index "Route" = Some (edge_registration ge).
Proof. reflexivity. Qed.

Lemma unique : unique_pairs index registry.
Proof. by apply unique_pairsb_spec; vm_compute. Qed.
End TFx.
