(* ===== verification/GraphCommands.v ===== *)
(** * Graph commands

    The part of [CommandContext] ([core/src/core/command/handler.rs]) and of the
    [EventPublishing] capability ([core/src/core/capability.rs]) that the generated graph
    commands use, the reconciliation of an endpoint's edges, and the commands themselves
    ([macros/src/graph.rs]).

    The reconciliation holds no lock between its reads and the replacement it submits, so it
    is a machine of atomic steps, [sync_step]: other operations of the server can run between
    any two of them ([run_sync]).  [graph_sync_at] runs the steps one after the other. *)

From stdpp Require Import base strings numbers option countable gmap sets list.
From S2P Require Import Prelude Order GraphTypes EdgeIds GraphIndex GraphQuery GraphPreflight GraphWatch ServerTypes Relationship Pipeline Ingest RelatedWatch TypedGraph.

(** ** Commands *)

Record CommandError := mkCommandError { ce_tx : string; ce_command_id : string; ce_message : string }.
#[export] Instance CommandError_eq_dec : EqDecision CommandError.
Proof. solve_decision. Defined.

(** The request's transaction and the id of the command that runs. *)
Record CommandContext := mkCommandContext { cmd_tx : string; cmd_command_id : string }.

(** The [Display] of [PersistError]. *)
Definition display_persist (e : PersistError) : string :=
  "persist failed for " +:+ pe_entity_type e +:+ ": " +:+ pe_message e.

(** State, command errors, and the [None] of exhausted fuel. *)
Definition CommandM (P CB J A : Type) : Type := Ctx P CB J → option (Ctx P CB J * result CommandError A).

#[export] Instance CommandM_ret {P CB J} : MRet (CommandM P CB J) := λ A a s, Some (s, Ok a).
#[export] Instance CommandM_bind {P CB J} : MBind (CommandM P CB J) := λ A B k m s,
  match m s with
  | Some (s', Ok a) => k a s'
  | Some (s', Err e) => Some (s', Err e)
  | None => None
  end.

(** Counts of a reconciliation, saturating [usize]s. *)
Record GraphSyncResult := mkSyncResult { sr_inserted : Z; sr_updated : Z; sr_deleted : Z; sr_unchanged : Z }.
Definition sync_result_default : GraphSyncResult := mkSyncResult 0 0 0 0.
#[export] Instance GraphSyncResult_eq_dec : EqDecision GraphSyncResult.
Proof. solve_decision. Defined.

Definition count_inserted (r : GraphSyncResult) : GraphSyncResult :=
  mkSyncResult (sat_add (sr_inserted r) 1) (sr_updated r) (sr_deleted r) (sr_unchanged r).
Definition count_updated (r : GraphSyncResult) : GraphSyncResult :=
  mkSyncResult (sr_inserted r) (sat_add (sr_updated r) 1) (sr_deleted r) (sr_unchanged r).
Definition count_deleted (r : GraphSyncResult) : GraphSyncResult :=
  mkSyncResult (sr_inserted r) (sr_updated r) (sat_add (sr_deleted r) 1) (sr_unchanged r).
Definition count_unchanged (r : GraphSyncResult) : GraphSyncResult :=
  mkSyncResult (sr_inserted r) (sr_updated r) (sr_deleted r) (sat_add (sr_unchanged r) 1).

Section commands.
Context {P CB J E VA VB VS Scope : Type} (env : Env P J) (fuel steps : nat) (ctx : CommandContext) (ge : GraphEdge P E VA VB VS).
(** [IndexValue::from_serializable] of a JSON scope, and the iteration order of a [HashMap]
    of edges. *)
Context (from_serializable : Scope → result GraphError IndexValue) (iterate_edges : gmap string E → list (string * E)).
Abbreviation CommandM := (CommandM P CB J).
Abbreviation name := (ge_name ge).
Implicit Types (s : Ctx P CB J) (edge : E) (edges : list E) (current : gmap string E).

(** [graph_command_error] and [__emit_err]. *)
Definition graph_command_error (message : string) : CommandError := mkCommandError (cmd_tx ctx) (cmd_command_id ctx) message.

Definition emit {A} (m : M P CB J A) : CommandM A := λ s,
  match m s with
  | Some (s, Ok a) => Some (s, Ok a)
  | Some (s, Err e) => Some (s, Err (graph_command_error (display_persist e)))
  | None => None
  end.

Definition command_result {A} (r : result GraphError A) : result CommandError A :=
  match r with Ok a => Ok a | Err e => Err (graph_command_error (display e)) end.

Definition emit_set edge : CommandM unit := emit (submit_mutation env fuel steps [ge_any ge edge] SET Local).
Definition emit_set_batch edges : CommandM unit := emit (set_batch_any env fuel steps (ge_any ge <$> edges)).
Definition emit_set_transient edge : CommandM unit := emit (set_transient env fuel steps (ge_any ge edge)).
Definition emit_del edge : CommandM unit := emit (del_dyn env fuel steps (ge_any ge edge)).
Definition emit_del_batch edges : CommandM unit := emit (del_batch_any env fuel steps (ge_any ge <$> edges)).
Definition emit_replace_batch (upserts deletes : list E) : CommandM unit :=
  emit (replace_batch_any env fuel steps (ge_any ge <$> upserts) (ge_any ge <$> deletes)).

(** ** The unique edge of a pair *)

Definition graph_unique_edge (a : VA) (b : VB) (scope : option VS) : CommandM (option E) := λ s,
  if bool_decide (ge_pair_policy ge ≠ Unique)
  then Some (s, Err (graph_command_error (name +:+ " does not declare unique pairs")))
  else Some (s, command_result match scope with
                               | None => one_between ge s a b
                               | Some scope => one_between_in_scope ge s scope a b
                               end).

(** ** Reconciliation *)

(** The loop over the desired edges: each one at the endpoint and in the scope, under a new
    id. *)
Definition check_desired (position : EndPosition) (endpoint : EndpointValue) (expected_scope : option IndexValue)
    (desired_ids : gset string) edge : result CommandError (gset string) :=
  ends ← command_result (erase_ends ge (ge_ends ge edge));
  if bool_decide (end_at position ends ≠ endpoint)
  then Err (graph_command_error "desired edge does not match the reconciled endpoint")
  else
    edge_scope ← command_result (erase_scope (ge_scope_spec ge) (ge_scope ge edge));
    if bool_decide (edge_scope ≠ expected_scope)
    then Err (graph_command_error "desired edge does not match the reconciled scope")
    else if bool_decide (ge_id ge edge ∈ desired_ids)
    then Err (graph_command_error "desired edge IDs must be unique")
    else Ok ({[ge_id ge edge]} ∪ desired_ids).

(** What is checked before the first attempt: the index, the scope and the ids desired. *)
Definition check_sync s (position : EndPosition) (endpoint : EndpointValue) (scope : option Scope) edges
  : result CommandError (GraphIndex P * option IndexValue * gset string) :=
  g ← ok_or (graph_command_error "application has no graph registrations") (ctx_graph s);
  expected_scope ← command_result match scope with None => Ok None | Some scope => map_ok Some (from_serializable scope) end;
  let is_scoped := bool_decide (is_Some (sc_scope_type (ge_scope_spec ge))) in
  if bool_decide (is_scoped ≠ bool_decide (is_Some expected_scope))
  then Err (graph_command_error (if is_scoped then "scoped graph reconciliation requires a scope"
                                 else "unscoped graph reconciliation does not accept a scope"))
  else
    desired_ids ← try_fold (check_desired position endpoint expected_scope) ∅ edges;
    Ok (g, expected_scope, desired_ids).

(** An attempt: the generation, the ids at the endpoint, the store, one edge after the other,
    and the replacement. *)
Inductive SyncState :=
| SyncAttempt (remaining : nat)
| SyncLookup (remaining : nat) (generation : Z)
| SyncStore (remaining : nat) (generation : Z) (ids : list string)
| SyncRead (remaining : nat) (generation : Z) (ids : list string) (current : gmap string E)
| SyncApply (remaining : nat) (generation : Z) (result : GraphSyncResult) (upserts deletes : list (Item P))
| SyncDone (outcome : result CommandError GraphSyncResult).

Section attempt.
Context (g : GraphIndex P) (position : EndPosition) (endpoint : EndpointValue) (expected_scope : option IndexValue)
  (desired_ids : gset string) (edges : list E).

(** [current] after one id was read. *)
Definition read_current s current (id : string) : gmap string E :=
  match lookup_item (ctx_registry s) name id ≫= ge_downcast ge with
  | None => current
  | Some edge =>
      match erase_scope (ge_scope_spec ge) (ge_scope ge edge) with
      | Ok scope => if bool_decide (scope = expected_scope) then <[ge_id ge edge := edge]> current else current
      | Err _ => current
      end
  end.

Definition plan_upsert current (acc : GraphSyncResult * list (Item P)) edge : GraphSyncResult * list (Item P) :=
  match current !! ge_id ge edge with
  | Some old => if ge_eq ge old edge then (count_unchanged acc.1, acc.2)
                else (count_updated acc.1, acc.2 ++ [ge_any ge edge])
  | None => (count_inserted acc.1, acc.2 ++ [ge_any ge edge])
  end.

Definition plan_delete_edge (acc : GraphSyncResult * list (Item P)) (entry : string * E) : GraphSyncResult * list (Item P) :=
  if bool_decide (entry.1 ∈ desired_ids) then acc else (count_deleted acc.1, acc.2 ++ [ge_any ge entry.2]).

Definition plan_sync current : GraphSyncResult * list (Item P) * list (Item P) :=
  let '(result, upserts) := foldl (plan_upsert current) (sync_result_default, []) edges in
  let '(result, deletes) := foldl plan_delete_edge (result, []) (iterate_edges current) in
  (result, upserts, deletes).

Definition budget_exhausted : CommandError :=
  graph_command_error "graph endpoint kept changing; reconciliation retry budget exhausted".

(** One atomic step. *)
Definition sync_step (st : SyncState) s : option (Ctx P CB J * SyncState) :=
  match st with
  | SyncAttempt O => Some (s, SyncDone (Err budget_exhausted))
  | SyncAttempt (S remaining) => Some (s, SyncLookup remaining (gs_generation (ctx_gstate s)))
  | SyncLookup remaining generation =>
      Some (s, SyncStore remaining generation (edge_ids_at g (ctx_gstate s) (ctx_registry s) ∅ name position endpoint).2)
  | SyncStore remaining generation ids =>
      Some (s, match ctx_registry s !! name with
               | None => SyncRead remaining generation [] ∅
               | Some _ => SyncRead remaining generation ids ∅
               end)
  | SyncRead remaining generation [] current =>
      let '(result, upserts, deletes) := plan_sync current in
      Some (s, SyncApply remaining generation result upserts deletes)
  | SyncRead remaining generation (id :: ids) current =>
      Some (s, SyncRead remaining generation ids (read_current s current id))
  | SyncApply remaining generation result [] [] =>
      Some (s, if bool_decide (gs_generation (ctx_gstate s) = generation) then SyncDone (Ok result) else SyncAttempt remaining)
  | SyncApply remaining generation result upserts deletes =>
      match replace_batch_any_if_graph_generation env fuel steps upserts deletes generation s with
      | None => None
      | Some (s, Ok true) => Some (s, SyncDone (Ok result))
      | Some (s, Ok false) => Some (s, SyncAttempt remaining)
      | Some (s, Err e) => Some (s, SyncDone (Err (graph_command_error (display_persist e))))
      end
  | SyncDone outcome => Some (s, SyncDone outcome)
  end.

(** A step of the reconciliation, or an operation of another thread. *)
Inductive SyncEvent :=
| SyncTick
| OtherOperation (f : Ctx P CB J → Ctx P CB J).

Fixpoint run_sync (events : list SyncEvent) s (st : SyncState) : option (Ctx P CB J * SyncState) :=
  match events with
  | [] => Some (s, st)
  | SyncTick :: events => match sync_step st s with Some (s, st) => run_sync events s st | None => None end
  | OtherOperation f :: events => run_sync events (f s) st
  end.

(** The steps alone, [ticks] of them at most. *)
Fixpoint run_alone (ticks : nat) s (st : SyncState) : option (Ctx P CB J * result CommandError GraphSyncResult) :=
  match st, ticks with
  | SyncDone outcome, _ => Some (s, outcome)
  | _, O => None
  | _, S ticks => match sync_step st s with Some (s, st) => run_alone ticks s st | None => None end
  end.
End attempt.

Definition sync_attempts : nat := 64.

Definition graph_sync_at (ticks : nat) (position : EndPosition) (endpoint : EndpointValue) (scope : option Scope) edges
  : CommandM GraphSyncResult := λ s,
  match check_sync s position endpoint scope edges with
  | Err e => Some (s, Err e)
  | Ok (g, expected_scope, desired_ids) =>
      run_alone g position endpoint expected_scope desired_ids edges ticks s (SyncAttempt sync_attempts)
  end.

Definition graph_sync_from (ticks : nat) (endpoint : VA) (scope : option Scope) edges : CommandM GraphSyncResult := λ s,
  match command_result (es_erase (ge_a ge) endpoint) with
  | Err e => Some (s, Err e)
  | Ok endpoint => graph_sync_at ticks PosA endpoint scope edges s
  end.

Definition graph_sync_to (ticks : nat) (endpoint : VB) (scope : option Scope) edges : CommandM GraphSyncResult := λ s,
  match command_result (es_erase (ge_b ge) endpoint) with
  | Err e => Some (s, Err e)
  | Ok endpoint => graph_sync_at ticks PosB endpoint scope edges s
  end.

(** ** Generated commands *)

Definition Connect edge : CommandM unit := emit_set edge.

Definition ConnectMany edges : CommandM Z := _ ← emit_set_batch edges; mret (len edges).

Record EnsureResult := mkEnsureResult { er_id : string; er_created : bool }.

(** [before] and [after] are the operations of other threads before and after the set. *)
Definition Ensure (before after : Ctx P CB J → Ctx P CB J) edge : CommandM EnsureResult := λ s,
  let '(a, b) := ge_ends ge edge in
  let scope := ge_scope ge edge in
  match graph_unique_edge a b scope s with
  | None => None
  | Some (s, Err e) => Some (s, Err e)
  | Some (s, Ok (Some existing)) => Some (s, Ok (mkEnsureResult (ge_id ge existing) false))
  | Some (s, Ok None) =>
      match emit_set edge (before s) with
      | None => None
      | Some (s, Ok _) => Some (s, Ok (mkEnsureResult (ge_id ge edge) true))
      | Some (s, Err error) =>
          match graph_unique_edge a b scope (after s) with
          | None => None
          | Some (s, Ok (Some existing)) => Some (s, Ok (mkEnsureResult (ge_id ge existing) false))
          | Some (s, _) => Some (s, Err error)
          end
      end
  end.
End commands.
