(* ===== verification/SyncProof.v ===== *)
(** * Reconciling an endpoint's edges

    What the reads of an attempt add up to, what the planned replacement does to the stores,
    and the invariant of a reconciliation that other operations interleave with: its plan is
    that of the stored edges whenever the generation it read is still the current one. *)

From stdpp Require Import base strings numbers option countable gmap sets list.
From S2P Require Import Prelude Order GraphTypes EdgeIds GraphIndex GraphQuery GraphPreflight GraphWatch ServerTypes Relationship Pipeline Ingest RelatedWatch.
From S2P Require Import PipelineProof PipelineInvariant PipelineTotal PipelineOutcome ReplaceOutcome TypedGraph GraphCommands.

(** ** Counting loops *)

Lemma count_loop (n m : Z) : (0 ≤ n)%Z → (0 ≤ m)%Z → sat_add (Z.min n u64_max) m = Z.min (n + m) u64_max.
Proof. unfold sat_add, u64_max. lia. Qed.

Section plan.
Context {P E VA VB VS : Type} (ge : GraphEdge P E VA VB VS) `{!GraphEdgeLaws ge}.
Context (iterate_edges : gmap string E → list (string * E)) (Hiterate : ∀ m, iterate_edges m ≡ₚ map_to_list m).
Context (position : EndPosition) (endpoint : EndpointValue) (expected_scope : option IndexValue).
Implicit Types (edge : E) (edges : list E) (current : gmap string E) (store : gmap string (Item P)).

(** The edge is one of those the reconciliation decides about. *)
Definition in_reach edge : bool :=
  match erase_ends ge (ge_ends ge edge), erase_scope (ge_scope_spec ge) (ge_scope ge edge) with
  | Ok ends, Ok scope => bool_decide (end_at position ends = endpoint) && bool_decide (scope = expected_scope)
  | _, _ => false
  end.

(** The stored edges in reach. *)
Definition current_of store : gmap string E :=
  omap (λ item, edge ← ge_downcast ge item; if in_reach edge then Some edge else None) store.

Lemma lookup_current_of store id edge :
  current_of store !! id = Some edge ↔ store !! id = Some (ge_any ge edge) ∧ in_reach edge = true.
Proof.
  unfold current_of. rewrite lookup_omap. destruct (store !! id) as [item|]; simpl; [|naive_solver].
  destruct (ge_downcast ge item) as [e|] eqn:D; simpl.
  - apply downcast_Some in D as ->. destruct (in_reach e) eqn:R; split; try naive_solver.
    + intros [[= Ee] R']. f_equal. pose proof (downcast_any e) as De. rewrite Ee, downcast_any in De. congruence.
    + intros [[= Ee] R']. pose proof (downcast_any e) as De. rewrite Ee, downcast_any in De. congruence.
  - split; [done|]. intros [[= ->] _]. by rewrite downcast_any in D.
Qed.

Lemma any_inj edge edge' : ge_any ge edge = ge_any ge edge' → edge = edge'.
Proof. intros Ee. pose proof (downcast_any edge) as D. rewrite Ee, downcast_any in D. congruence. Qed.

(** ** The desired edges *)

Lemma check_desired_spec ctx position' endpoint' scope' edges ids ids' :
  try_fold (check_desired ctx ge position' endpoint' scope') ids edges = Ok ids' →
  ids' = ids ∪ list_to_set (ge_id ge <$> edges) ∧ NoDup (ge_id ge <$> edges) ∧
  (∀ edge, edge ∈ edges → ge_id ge edge ∉ ids) ∧
  ∀ edge, edge ∈ edges → ∃ ends, erase_ends ge (ge_ends ge edge) = Ok ends ∧ end_at position' ends = endpoint' ∧
    erase_scope (ge_scope_spec ge) (ge_scope ge edge) = Ok scope'.
Proof using Type.
  clear dependent iterate_edges. clear GraphEdgeLaws0.
  revert ids. induction edges as [|edge edges IH]; intros ids; simpl.
  { intros [= <-]. split; [set_solver|]. split; [constructor|]. split; by intros edge ?%elem_of_nil. }
  unfold check_desired at 1. unfold mbind, result_bind, command_result.
  destruct (erase_ends ge (ge_ends ge edge)) as [ends|e] eqn:Ee; [|done].
  case_bool_decide as Np; [done|].
  destruct (erase_scope _ _) as [scope|e] eqn:Es; [|done].
  case_bool_decide as Ns; [done|]. case_bool_decide as Nd; [done|].
  intros (-> & ND & Fr & Hr)%IH. subst scope. split; [set_solver|].
  split; [|split].
  - csimpl. apply NoDup_cons. split; [|done]. intros (edge' & Ee' & He')%list_elem_of_fmap.
    apply (Fr edge' He'). rewrite <-Ee'. set_solver.
  - intros edge' [->|He']%elem_of_cons; [done|]. specialize (Fr edge' He'). set_solver.
  - intros edge' [->|He']%elem_of_cons; [eauto|by apply Hr].
Qed.

(** Nothing else is refused. *)
Lemma check_desired_total ctx position' endpoint' scope' edges ids :
  NoDup (ge_id ge <$> edges) → (∀ edge, edge ∈ edges → ge_id ge edge ∉ ids) →
  (∀ edge, edge ∈ edges → ∃ ends, erase_ends ge (ge_ends ge edge) = Ok ends ∧ end_at position' ends = endpoint' ∧
    erase_scope (ge_scope_spec ge) (ge_scope ge edge) = Ok scope') →
  try_fold (check_desired ctx ge position' endpoint' scope') ids edges = Ok (ids ∪ list_to_set (ge_id ge <$> edges)).
Proof using Type.
  clear dependent iterate_edges. clear GraphEdgeLaws0.
  revert ids. induction edges as [|edge edges IH]; intros ids ND Fr Hr; simpl.
  { f_equal. set_solver. }
  csimpl in ND. apply NoDup_cons in ND as [N ND]. destruct (Hr edge) as (ends & Ee & Ep & Es); [left|].
  unfold check_desired at 1. unfold mbind, result_bind, command_result. rewrite Ee, (bool_decide_eq_false_2 (_ ≠ _)) by (intros C; by apply C).
  rewrite Es, (bool_decide_eq_false_2 (_ ≠ _)) by (intros C; by apply C). rewrite bool_decide_eq_false_2 by (apply Fr; left).
  rewrite IH; [f_equal; set_solver|done| |by intros e He; apply Hr; right].
  intros e He Hin. assert (ge_id ge e ∉ ids) by (apply Fr; by right). apply elem_of_union in Hin as [Hin|]; [|done].
  apply elem_of_singleton in Hin. apply N. rewrite <-Hin. by apply list_elem_of_fmap_2.
Qed.

Lemma desired_in_reach edge ends :
  erase_ends ge (ge_ends ge edge) = Ok ends → end_at position ends = endpoint →
  erase_scope (ge_scope_spec ge) (ge_scope ge edge) = Ok expected_scope → in_reach edge = true.
Proof using Type.
  clear dependent iterate_edges. clear GraphEdgeLaws0. unfold in_reach. intros -> <- ->. by rewrite !bool_decide_eq_true_2. Qed.

(** ** The plan *)

(** How a desired edge compares with the stored ones. *)
Definition is_inserted current edge : bool := bool_decide (current !! ge_id ge edge = None).
Definition is_unchanged current edge : bool :=
  match current !! ge_id ge edge with Some old => ge_eq ge old edge | None => false end.
Definition is_updated current edge : bool :=
  match current !! ge_id ge edge with Some old => negb (ge_eq ge old edge) | None => false end.

Definition count {A} (p : A → bool) (l : list A) : Z := Z.min (len (List.filter p l)) u64_max.

Lemma count_cons {A} (p : A → bool) x l n :
  (0 ≤ n)%Z → Z.min (n + len (List.filter p (x :: l))) u64_max = Z.min ((if p x then n + 1 else n) + len (List.filter p l)) u64_max.
Proof. intros Hn. unfold len. simpl. destruct (p x); simpl; lia. Qed.

Lemma plan_upserts_loop current edges d items n m k :
  (0 ≤ n)%Z → (0 ≤ m)%Z → (0 ≤ k)%Z →
  foldl (plan_upsert ge current) (mkSyncResult (Z.min n u64_max) (Z.min m u64_max) d (Z.min k u64_max), items) edges =
    (mkSyncResult (Z.min (n + len (List.filter (is_inserted current) edges)) u64_max)
       (Z.min (m + len (List.filter (is_updated current) edges)) u64_max) d
       (Z.min (k + len (List.filter (is_unchanged current) edges)) u64_max),
     items ++ (ge_any ge <$> List.filter (λ edge, negb (is_unchanged current edge)) edges)).
Proof.
  revert items n m k.
  induction edges as [|edge edges IH]; intros items n m k Hn Hm Hk; [unfold len; simpl; rewrite app_nil_r, !Z.add_0_r; done|].
  simpl foldl. unfold plan_upsert at 2. rewrite !count_cons by done.
  cbn [List.filter]. unfold is_inserted at 1, is_updated at 1, is_unchanged at 1 3.
  destruct (current !! ge_id ge edge) as [old|]; [destruct (ge_eq ge old edge)|].
  - rewrite (bool_decide_eq_false_2 (Some old = None)) by done. simpl. unfold count_unchanged. simpl.
    rewrite count_loop by lia. by rewrite IH by lia.
  - rewrite (bool_decide_eq_false_2 (Some old = None)) by done. simpl. unfold count_updated. simpl.
    rewrite count_loop by lia. rewrite IH by lia. by rewrite <-app_assoc.
  - rewrite (bool_decide_eq_true_2 (None = None)) by done. simpl. unfold count_inserted. simpl.
    rewrite count_loop by lia. rewrite IH by lia. by rewrite <-app_assoc.
Qed.

Lemma plan_deletes_loop desired_ids (entries : list (string * E)) r d items :
  (0 ≤ d)%Z → sr_deleted r = Z.min d u64_max →
  let kept := List.filter (λ entry, negb (bool_decide (entry.1 ∈ desired_ids))) entries in
  foldl (plan_delete_edge ge desired_ids) (r, items) entries =
    (mkSyncResult (sr_inserted r) (sr_updated r) (Z.min (d + len kept) u64_max) (sr_unchanged r),
     items ++ ((λ entry : string * E, ge_any ge entry.2) <$> kept)).
Proof.
  revert r d items. induction entries as [|[id edge] entries IH]; intros r d items Hd Er; simpl.
  { unfold len. simpl. rewrite app_nil_r, Z.add_0_r, <-Er. by destruct r. }
  unfold plan_delete_edge at 2. simpl. case_bool_decide as Hin; simpl.
  - by rewrite (IH r d).
  - rewrite (IH _ (d + 1)%Z); [|lia|simpl; rewrite Er; by apply count_loop].
    rewrite <-app_assoc. do 3 f_equal. unfold len. simpl length. lia.
Qed.

(** The plan of an attempt: its counts, its upserts and its deletes. *)
Lemma plan_sync_spec desired_ids edges current :
  let kept := List.filter (λ entry, negb (bool_decide (entry.1 ∈ desired_ids))) (iterate_edges current) in
  plan_sync ge iterate_edges desired_ids edges current =
    (mkSyncResult (count (is_inserted current) edges) (count (is_updated current) edges)
       (Z.min (len kept) u64_max) (count (is_unchanged current) edges),
     ge_any ge <$> List.filter (λ edge, negb (is_unchanged current edge)) edges,
     (λ entry : string * E, ge_any ge entry.2) <$> kept).
Proof.
  intros kept. unfold plan_sync, sync_result_default, count.
  pose proof (plan_upserts_loop current edges 0 [] 0 0 0) as E1. rewrite !Z.add_0_l in E1.
  change (Z.min 0 u64_max) with 0%Z in E1. rewrite E1 by done. clear E1. simpl app.
  by rewrite (plan_deletes_loop _ _ _ 0).
Qed.

(** ** What the plan does to the stores *)

(** The desired edges: in reach, under distinct ids. *)
Definition desired edges : Prop := NoDup (ge_id ge <$> edges) ∧ ∀ edge, edge ∈ edges → in_reach edge = true.

(** The edges in reach are exactly the desired ones, and nothing else changed. *)
Definition synced edges (registry registry' : StoreRegistry P) : Prop :=
  (∀ edge, lookup_item registry' (ge_name ge) (ge_id ge edge) = Some (ge_any ge edge) ∧ in_reach edge = true ↔ edge ∈ edges) ∧
  ∀ t id, (t = ge_name ge → (id ∉ (ge_id ge <$> edges)) ∧
            ∀ edge, lookup_item registry t id = Some (ge_any ge edge) → in_reach edge = false) →
    lookup_item registry' t id = lookup_item registry t id.

(** The counts, over the edges in reach before. *)
Definition sync_counts edges current : GraphSyncResult :=
  mkSyncResult (count (is_inserted current) edges) (count (is_updated current) edges)
    (count (λ entry : string * E, negb (bool_decide (entry.1 ∈ ge_id ge <$> edges))) (map_to_list current))
    (count (is_unchanged current) edges).

Definition planned_upserts edges current : list (Item P) := ge_any ge <$> List.filter (λ edge, negb (is_unchanged current edge)) edges.
Definition planned_deletes edges current : list (Item P) :=
  (λ entry : string * E, ge_any ge entry.2) <$>
    List.filter (λ entry, negb (bool_decide (entry.1 ∈ (ge_id ge <$> edges)))) (iterate_edges current).

Lemma filter_ext_in {A} (p q : A → bool) l : (∀ x, p x = q x) → List.filter p l = List.filter q l.
Proof. intros H. induction l as [|x l IH]; simpl; [done|]. by rewrite H, IH. Qed.

Lemma List_filter_perm {A} (p : A → bool) l l' : l ≡ₚ l' → List.filter p l ≡ₚ List.filter p l'.
Proof.
  induction 1 as [|x l l' _ IH|x y l|l1 l2 l3 _ IH1 _ IH2]; simpl; [done|by destruct (p x); rewrite ?IH| |by etrans].
  destruct (p x), (p y); (done || apply Permutation_swap).
Qed.

Lemma plan_sync_counts edges current :
  plan_sync ge iterate_edges (list_to_set (ge_id ge <$> edges)) edges current =
    (sync_counts edges current, planned_upserts edges current, planned_deletes edges current).
Proof.
  rewrite plan_sync_spec. unfold sync_counts, planned_upserts, planned_deletes, count, len.
  set (p := λ entry : string * E, negb (bool_decide (entry.1 ∈ list_to_set (C := gset string) (ge_id ge <$> edges)))).
  set (q := λ entry : string * E, negb (bool_decide (entry.1 ∈ ge_id ge <$> edges))).
  assert (∀ x, p x = q x) as Epq.
  { intros x. unfold p, q. f_equal. apply bool_decide_ext. by rewrite elem_of_list_to_set. }
  rewrite (filter_ext_in p q) by done.
  assert (length (List.filter q (iterate_edges current)) = length (List.filter q (map_to_list current))) as ->; [|done].
  by rewrite (List_filter_perm q _ _ (Hiterate current)).
Qed.

Lemma elem_of_planned_upserts edges current x :
  x ∈ planned_upserts edges current ↔ ∃ edge, x = ge_any ge edge ∧ edge ∈ edges ∧ is_unchanged current edge = false.
Proof.
  unfold planned_upserts. rewrite list_elem_of_fmap. setoid_rewrite elem_of_List_filter.
  setoid_rewrite negb_true_iff. done.
Qed.

Lemma elem_of_planned_deletes edges current x :
  x ∈ planned_deletes edges current ↔
    ∃ id edge, x = ge_any ge edge ∧ current !! id = Some edge ∧ id ∉ ge_id ge <$> edges.
Proof.
  unfold planned_deletes. rewrite list_elem_of_fmap. setoid_rewrite elem_of_List_filter. split.
  - intros ([id edge] & -> & Hin & Hn). rewrite Hiterate, elem_of_map_to_list in Hin. simpl in *.
    apply negb_true_iff, bool_decide_eq_false in Hn. by exists id, edge.
  - intros (id & edge & -> & Hin & Hn). exists (id, edge). split; [done|]. rewrite Hiterate, elem_of_map_to_list.
    split; [done|]. by apply negb_true_iff, bool_decide_eq_false.
Qed.

Lemma current_id registry id edge :
  registry_ok registry → current_of (get_or_create registry (ge_name ge)) !! id = Some edge → id = ge_id ge edge.
Proof.
  intros W [El R]%lookup_current_of. apply get_or_create_ok in El as [_ El]; [|done]. by rewrite any_id in El.
Qed.

Lemma any_key edge : item_key (ge_any ge edge) = (ge_name ge, ge_id ge edge).
Proof. unfold item_key. by rewrite any_type, any_id. Qed.

(** The edges read are kept under their own ids. *)
Definition keyed current : Prop := ∀ id edge, current !! id = Some edge → id = ge_id ge edge.

Section keyed.
Context (edges : list E) (D : desired edges) (current : gmap string E) (K : keyed current).
Abbreviation ups := (planned_upserts edges current).
Abbreviation dels := (planned_deletes edges current).

Lemma planned_type x : x ∈ dels ++ ups → item_type x = ge_name ge.
Proof.
  intros [Hx|Hx]%elem_of_app; [apply elem_of_planned_deletes in Hx as (id & edge & -> & _)|apply elem_of_planned_upserts in Hx as (edge & -> & _)];
    apply any_type.
Qed.

Lemma same_edge edge edge' : edge ∈ edges → edge' ∈ edges → ge_id ge edge = ge_id ge edge' → edge = edge'.
Proof.
  destruct D as [ND _]. intros (i & Hi)%list_elem_of_lookup (j & Hj)%list_elem_of_lookup Ei.
  assert (i = j) as ->; [|congruence].
  eapply (NoDup_lookup (ge_id ge <$> edges)); [done|by rewrite list_lookup_fmap, Hi|]. rewrite list_lookup_fmap, Hj. simpl. by f_equal.
Qed.

Lemma planned_NoDup : NoDup (item_key <$> dels ++ ups).
Proof.
  rewrite fmap_app. apply NoDup_app. split; [|split].
  - unfold planned_deletes. rewrite <-list_fmap_compose. set (kept := List.filter _ _).
    assert (∀ id edge, (id, edge) ∈ kept → current !! id = Some edge) as Sub.
    { intros id edge [Hx _]%elem_of_List_filter. by rewrite Hiterate, elem_of_map_to_list in Hx. }
    apply NoDup_fmap_2_strong.
    + intros [id edge] [id' edge'] H1%Sub H2%Sub. simpl. rewrite !any_key. intros [= Ek].
      pose proof (K _ _ H1). pose proof (K _ _ H2). congruence.
    + apply NoDup_ListNoDup, List.NoDup_filter, NoDup_ListNoDup. rewrite Hiterate. apply NoDup_map_to_list.
  - intros k Hk Hk'. apply list_elem_of_fmap in Hk as (x & -> & (id & edge & -> & Hc & Hn)%elem_of_planned_deletes).
    apply list_elem_of_fmap in Hk' as (y & Ey & (edge' & -> & He' & _)%elem_of_planned_upserts). rewrite !any_key in Ey.
    injection Ey as Ey. apply Hn. rewrite (K _ _ Hc), Ey. by apply list_elem_of_fmap_2.
  - unfold planned_upserts. rewrite <-list_fmap_compose. apply NoDup_fmap_2_strong.
    + intros edge edge' [H1 _]%elem_of_List_filter [H2 _]%elem_of_List_filter. simpl. rewrite !any_key. intros [= Ek].
      by apply same_edge.
    + apply NoDup_ListNoDup, List.NoDup_filter, NoDup_ListNoDup. destruct D as [ND _]. by eapply NoDup_fmap_1.
Qed.
End keyed.

Section effect.
Context (edges : list E) (registry : StoreRegistry P) (W : registry_ok registry) (D : desired edges).
Abbreviation current := (current_of (get_or_create registry (ge_name ge))).
Abbreviation ups := (planned_upserts edges current).
Abbreviation dels := (planned_deletes edges current).

Lemma current_keyed : keyed current.
Proof. intros id edge. by apply current_id. Qed.

Lemma planned_deletes_key x : x ∈ dels → ∃ edge, x = ge_any ge edge ∧ (ge_id ge edge ∉ (ge_id ge <$> edges)) ∧
  lookup_item registry (ge_name ge) (ge_id ge edge) = Some (ge_any ge edge) ∧ in_reach edge = true.
Proof.
  intros (id & edge & -> & Hc & Hn)%elem_of_planned_deletes. pose proof (current_id _ _ _ W Hc) as ->.
  apply lookup_current_of in Hc as [El R]. exists edge. by rewrite lookup_get_or_create.
Qed.

Lemma unchanged_stored edge : is_unchanged current edge = true → current !! ge_id ge edge = Some edge.
Proof.
  unfold is_unchanged. destruct (current !! ge_id ge edge) as [old|]; [|done]. by intros ->%edge_eq.
Qed.

(** The replacement makes the desired edges the edges in reach. *)
Lemma planned_syncs : synced edges registry (replaced registry ups dels).
Proof.
  pose proof (planned_NoDup edges D current current_keyed) as ND. split.
  - intros edge. rewrite replaced_lookup by done. destruct (list_find _ ups) as [[i x]|] eqn:Ef.
    + apply list_find_Some in Ef as (Hx & Ek & _). apply list_elem_of_lookup_2, elem_of_planned_upserts in Hx as (edge' & -> & He' & _).
      rewrite any_key in Ek. injection Ek as Ek. split.
      * intros [[= <-%any_inj] _]. done.
      * intros He. rewrite (same_edge edges D edge' edge) by done. split; [done|]. by apply D.
    + assert (∀ e, e ∈ edges → ge_id ge e = ge_id ge edge → current !! ge_id ge e = Some e) as Un.
      { intros e He Ee. apply unchanged_stored. destruct (is_unchanged current e) eqn:U; [done|]. exfalso.
        eapply list_find_None in Ef. rewrite Forall_forall in Ef. apply (Ef (ge_any ge e)).
        - apply elem_of_planned_upserts. by exists e.
        - rewrite any_key. by rewrite Ee. }
      case_decide as Hd.
      * apply list_elem_of_fmap in Hd as (x & Ex & (e & -> & Hn & _)%planned_deletes_key). rewrite any_key in Ex. injection Ex as Ex.
        split; [by intros [? _]|]. intros He. exfalso. apply Hn. rewrite <-Ex. by apply list_elem_of_fmap_2.
      * split.
        -- intros [El R]. rewrite lookup_get_or_create in El. assert (current !! ge_id ge edge = Some edge) as Ec by by apply lookup_current_of.
           destruct (decide (ge_id ge edge ∈ (ge_id ge <$> edges))) as [Hin|Hn].
           ++ apply list_elem_of_fmap in Hin as (e & Ee & He). specialize (Un e He (eq_sym Ee)). rewrite <-Ee in Un. congruence.
           ++ exfalso. apply Hd. rewrite <-any_key. apply list_elem_of_fmap_2, elem_of_planned_deletes. by exists (ge_id ge edge), edge.
        -- intros He. specialize (Un edge He eq_refl). apply lookup_current_of in Un as [El R]. by rewrite lookup_get_or_create.
  - intros t id H. rewrite replaced_lookup by done. destruct (list_find _ ups) as [[i x]|] eqn:Ef.
    + exfalso. apply list_find_Some in Ef as (Hx & Ek & _). apply list_elem_of_lookup_2, elem_of_planned_upserts in Hx as (e & -> & He & _).
      rewrite any_key in Ek. injection Ek as <- <-. destruct (H eq_refl) as [Hn _]. apply Hn. by apply list_elem_of_fmap_2.
    + rewrite decide_False; [done|]. intros (x & Ex & (e & -> & _ & El & R)%planned_deletes_key)%list_elem_of_fmap.
      rewrite any_key in Ex. injection Ex as -> ->. destruct (H eq_refl) as [_ Hr]. by rewrite (Hr e El) in R.
Qed.
End effect.
End plan.
