(* ===== verification/SyncRun.v ===== *)
(** * Runs of a reconciliation

    The invariant of [sync_step] while other operations of the server run between its steps,
    and the step at which a reconciliation reports success. *)

From stdpp Require Import base strings numbers option countable gmap sets list.
From S2P Require Import Prelude Order GraphTypes EdgeIds GraphIndex GraphQuery GraphPreflight GraphWatch ServerTypes Relationship Pipeline Ingest RelatedWatch.
From S2P Require Import PipelineProof PipelineInvariant PipelineTotal PipelineOutcome ReplaceOutcome TypedGraph GraphCommands SyncProof.
From S2P Require Import TypedProof.

Section run.
Context {P CB J E VA VB VS : Type} (env : Env P J) (fuel steps : nat) (ctx : CommandContext)
  (ge : GraphEdge P E VA VB VS) `{!GraphEdgeLaws ge}.
Context (iterate_edges : gmap string E → list (string * E)) (Hiterate : ∀ m, iterate_edges m ≡ₚ map_to_list m).
Context (g : GraphIndex P) (Hg : registration g (ge_name ge) = Some (edge_registration ge)).
Context (position : EndPosition) (endpoint : EndpointValue) (expected_scope : option IndexValue) (edges : list E).
Context (D : desired ge position endpoint expected_scope edges).
Abbreviation desired_ids := (list_to_set (ge_id ge <$> edges) : gset string).
Abbreviation step := (sync_step (CB := CB) env (S fuel) (S (S steps)) ctx ge iterate_edges g position endpoint expected_scope desired_ids edges).
Abbreviation run := (run_sync (CB := CB) env (S fuel) (S (S steps)) ctx ge iterate_edges g position endpoint expected_scope desired_ids edges).
Abbreviation name := (ge_name ge).
Abbreviation gen s := (gs_generation (ctx_gstate s)).
Abbreviation store s := (get_or_create (ctx_registry s) name).
Abbreviation reach := (current_of ge position endpoint expected_scope).
Implicit Types (s : Ctx P CB J) (st : SyncState (P := P) (E := E)).

(** A context outside any root, with no relationship of the edge type and no edge that ends
    at an edge of the type. *)
Record sync_ready s : Prop := mkSyncReady {
  sy_ok : ctx_ok (Some g) s;
  sy_causal : ctx_causal s = None;
  sy_depth : (0 ≤ max_depth (ctx_limits s))%Z;
  sy_plain : plain (rm_tables (ctx_rel s)) name;
  sy_free (x : Item P) t id : item_type x = name → ¬ incident_edge g (ctx_registry s) (entity_of x) CascadeEdge t id
}.

(** What an operation of another thread does: it advances the generation of the graph when
    it changes the edges. *)
Record versioned s s' : Prop := mkVersioned {
  ve_ready : sync_ready s';
  ve_generation : (gen s ≤ gen s')%Z;
  ve_edges : gen s' = gen s → store s' = store s
}.

(** What an attempt has read is what is stored, if the generation has not moved. *)
Definition sync_ok s st : Prop :=
  match st with
  | SyncAttempt _ | SyncDone _ => True
  | SyncLookup _ n => (n ≤ gen s)%Z
  | SyncStore _ n ids => (n ≤ gen s)%Z ∧
      (gen s = n → selected (store s) (matches_at (edge_registration ge) position endpoint) ids)
  | SyncRead _ n ids current => (n ≤ gen s)%Z ∧ keyed ge current ∧
      (gen s = n →
        (∀ id, id ∈ ids → ∃ item, store s !! id = Some item ∧ matches_at (edge_registration ge) position endpoint item = true) ∧
        (∀ id edge, current !! id = Some edge → reach (store s) !! id = Some edge) ∧
        (∀ id, id ∉ ids → reach (store s) !! id = current !! id))
  | SyncApply _ n result upserts deletes => (n ≤ gen s)%Z ∧ ∃ current, keyed ge current ∧
      result = sync_counts ge edges current ∧ upserts = planned_upserts ge edges current ∧
      deletes = planned_deletes ge iterate_edges edges current ∧ (gen s = n → current = reach (store s))
  end.

Lemma versioned_ok s s' st : versioned s s' → sync_ok s st → sync_ok s' st.
Proof.
  intros [_ Hge He]. assert (∀ n, n ≤ gen s → gen s' = n → gen s = n ∧ store s' = store s)%Z as H.
  { intros n Hn Eg. assert (gen s' = gen s) as Es by lia. split; [lia|by apply He]. }
  destruct st as [|r n|r n ids|r n ids current|r n result upserts deletes|]; simpl; try done.
  - lia.
  - intros [Hn Hs]. split; [lia|]. intros Eg. destruct (H n Hn Eg) as [Es ->]. by apply Hs.
  - intros (Hn & K & Hs). split; [lia|]. split; [done|]. intros Eg. destruct (H n Hn Eg) as [Es ->]. by apply Hs.
  - intros (Hn & current & K & Er & Eu & Ed & Hs). split; [lia|]. exists current. split_and!; try done.
    intros Eg. destruct (H n Hn Eg) as [Es ->]. by apply Hs.
Qed.

Lemma matches_in_reach item edge :
  ge_downcast ge item = Some edge → matches_at (edge_registration ge) position endpoint item = true →
  in_reach ge position endpoint expected_scope edge =
    match erase_scope (ge_scope_spec ge) (ge_scope ge edge) with Ok scope => bool_decide (scope = expected_scope) | Err _ => false end.
Proof.
  intros Ed. unfold matches_at, in_reach. simpl. unfold extract_edge. rewrite Ed. destruct (erase_ends _ _) as [ends|]; [|done].
  intros ->. by destruct (erase_scope _ _).
Qed.

Lemma in_reach_matches edge :
  in_reach ge position endpoint expected_scope edge = true →
  matches_at (edge_registration ge) position endpoint (ge_any ge edge) = true.
Proof.
  unfold matches_at, in_reach. simpl. unfold extract_edge. rewrite downcast_any. destruct (erase_ends _ _) as [ends|]; [|done].
  destruct (erase_scope _ _); [|done]. by intros [? _]%andb_true_iff.
Qed.

Lemma reach_stored s id edge : reach (store s) !! id = Some edge →
  ∃ item, store s !! id = Some item ∧ matches_at (edge_registration ge) position endpoint item = true.
Proof. intros [El R]%lookup_current_of; [|done]. eexists. split; [done|]. by apply in_reach_matches. Qed.

(** Reading one more edge. *)
Lemma read_current_ok s remaining n id ids current :
  sync_ready s → sync_ok s (SyncRead remaining n (id :: ids) current) →
  sync_ok s (SyncRead remaining n ids (read_current ge expected_scope s current id)).
Proof.
  intros Hs (Hn & K & H). split; [done|]. split.
  { intros id' edge. unfold read_current. destruct (_ ≫= _) as [e|]; [|apply K]. destruct (erase_scope _ _); [|apply K].
    case_bool_decide; [|apply K]. intros [[<- <-]|[_ Hl]]%lookup_insert_Some; [done|by apply K]. }
  intros Eg. destruct (H Eg) as (H1 & H2 & H3). clear H.
  destruct (H1 id) as (item & El & M); [by left|].
  pose proof (get_or_create_ok _ _ _ _ (co_registry _ _ (sy_ok _ Hs)) El) as [Et Ei].
  destruct (downcast_name item Et) as [edge Ed]. pose proof (downcast_Some _ _ Ed) as ->. rewrite any_id in Ei. subst id.
  pose proof (matches_in_reach _ _ Ed M) as R.
  assert (read_current ge expected_scope s current (ge_id ge edge) =
    if in_reach ge position endpoint expected_scope edge then <[ge_id ge edge := edge]> current else current) as ->.
  { unfold read_current. rewrite lookup_get_or_create, El. simpl. rewrite Ed, R. by destruct (erase_scope _ _). }
  assert (in_reach ge position endpoint expected_scope edge = true → reach (store s) !! ge_id ge edge = Some edge) as Hr
    by (intros Hr; by apply lookup_current_of).
  split; [intros id Hid; apply H1; by right|]. destruct (in_reach _ _ _ _ edge) eqn:Re.
  - specialize (Hr eq_refl). split.
    + intros id e [[<- <-]|[_ Hl]]%lookup_insert_Some; [done|by apply H2].
    + intros id Hid. destruct (decide (id = ge_id ge edge)) as [->|Ne]; [by rewrite lookup_insert_eq|].
      rewrite lookup_insert_ne by done. apply H3. by apply not_elem_of_cons.
  - split; [done|]. intros id Hid. destruct (decide (id = ge_id ge edge)) as [->|Ne]; [|apply H3; by apply not_elem_of_cons].
    assert (reach (store s) !! ge_id ge edge = None) as Hno.
    { apply eq_None_not_Some. intros [e [El' R']%lookup_current_of]; [|done]. rewrite El in El'. injection El' as Ee%any_inj; [|done].
      subst e. congruence. }
    rewrite Hno. symmetry. apply eq_None_not_Some. intros [e Hc]. by rewrite (H2 _ _ Hc) in Hno.
Qed.

(** ** Steps *)

(** The outcome of a reconciliation that succeeds: the counts and the stores are those of an
    atomic replacement. *)
Definition synced_at s s' (result : GraphSyncResult) : Prop :=
  sync_ready s ∧ result = sync_counts ge edges (reach (store s)) ∧
  synced ge position endpoint expected_scope edges (ctx_registry s) (ctx_registry s') ∧ ctx_ok (Some g) s'.

Lemma unchanged_ready s s' : unchanged s s' → sync_ready s → sync_ready s' ∧ gen s' = gen s ∧ ctx_registry s' = ctx_registry s.
Proof.
  intros [Er Ei _ Erel _ (Eg & _ & El) Ec] [[H1 H2 H3 H4 H5] Hc Hd Hp Hf].
  split; [|split; [by destruct Ei|done]].
  split; [split|done|by rewrite El|by rewrite Erel|by rewrite Er].
  - by rewrite Eg.
  - by rewrite Er.
  - rewrite Er. by eapply exact_same_index.
  - by rewrite Ec.
  - by rewrite Erel.
Qed.

Lemma apply_concerned upserts deletes :
  upserts ++ deletes ≠ [] → (∀ x, x ∈ deletes ++ upserts → item_type x = name) → concerned g upserts deletes = true.
Proof.
  intros Ne Ht. unfold concerned. apply orb_true_iff. assert (∀ x change, item_type x = name → coordinates g x change = true) as Co.
  { intros x change Ex. unfold coordinates. by rewrite Ex, Hg. }
  destruct deletes as [|x deletes]; [|left; simpl; by rewrite Co by (apply Ht; left)].
  destruct upserts as [|x upserts]; [done|]. right. simpl. rewrite Co; [done|]. apply Ht. simpl. left.
Qed.

(** Submitting the planned replacement: stale exactly when the generation moved. *)
Lemma submit_planned s remaining n result upserts deletes :
  sync_ready s → sync_ok s (SyncApply remaining n result upserts deletes) → upserts ++ deletes ≠ [] →
  ∃ s' r, replace_batch_any_if_graph_generation env (S fuel) (S (S steps)) upserts deletes n s = Some (s', r) ∧
    match r with
    | Ok false => gen s ≠ n ∧ sync_ready s' ∧ (n < gen s')%Z
    | Ok true => gen s = n ∧ synced_at s s' result
    | Err _ => ctx_causal s' = None
    end.
Proof.
  intros Hs (Hn & current & K & -> & -> & -> & H) Ne. unfold replace_batch_any_if_graph_generation.
  pose proof (planned_type ge iterate_edges Hiterate edges current) as Ht.
  pose proof (planned_NoDup ge iterate_edges Hiterate position endpoint expected_scope edges D current K) as ND.
  destruct (decide (gen s = n)) as [Eg|Ns].
  - specialize (H Eg). subst current. pose proof Hs as [Ok0 Ec Hd Pl Fr].
    destruct (submit_replace_plain env fuel steps g name s (planned_upserts ge edges (reach (store s)))
                (planned_deletes ge iterate_edges edges (reach (store s))) (Some n)) as (s' & r & E1 & St & Nr & Hr); try done.
    + intros x t id Hx. apply Fr, Ht, elem_of_app. by left.
    + by intros ? [= <-].
    + exists s', r. split; [done|]. destruct r as [[|]|e]; [|done|apply St]. destruct (Hr eq_refl) as [Ok' Er].
      split; [done|]. split; [done|]. split; [done|]. split; [|done]. rewrite Er. apply planned_syncs; [done..|apply Ok0|done].
  - destruct (submit_stale env (S fuel) (S steps) g s (planned_upserts ge edges current)
                (planned_deletes ge iterate_edges edges current) Local n) as (s' & E1 & U); try done; try apply Hs.
    + by apply apply_concerned.
    + exists s', (Ok false). split; [done|]. destruct (unchanged_ready _ _ U Hs) as (Hs' & Eg & _). split; [done|]. split; [done|]. lia.
Qed.

(** A step keeps the invariant, or ends the reconciliation. *)
Lemma step_ok s st :
  sync_ready s → sync_ok s st → (∀ outcome, st ≠ SyncDone outcome) →
  ∃ s' st', step st s = Some (s', st') ∧
    match st' with
    | SyncDone (Ok result) => synced_at s s' result
    | SyncDone (Err _) => ctx_causal s' = None
    | _ => sync_ready s' ∧ sync_ok s' st'
    end.
Proof.
  intros Hs Hk Nd. destruct st as [[|r]|r n|r n ids|r n [|id ids] current|r n result upserts deletes|outcome]; simpl.
  - eexists _, _. split; [done|]. apply Hs.
  - eexists _, _. split; [done|]. split; [done|]. simpl. lia.
  - eexists _, _. split; [done|]. split; [done|]. split; [done|]. intros Eg. destruct (sy_ok _ Hs) as [_ W G _ _].
    destruct (G g eq_refl) as [R Gk]. by apply edge_ids_at_selected.
  - eexists _, _. split; [done|]. destruct Hk as [Hn Hk]. destruct (ctx_registry s !! name) as [m|] eqn:Em.
    + split; [done|]. split; [done|]. split; [by intros id edge|]. intros Eg. destruct (Hk Eg) as [_ Sel].
      split; [intros id; apply Sel|]. split; [done|]. intros id Hid. rewrite lookup_empty. apply eq_None_not_Some.
      intros [edge Hr]. apply Hid, Sel. by eapply reach_stored.
    + split; [done|]. split; [done|]. split; [by intros id edge|]. intros Eg. split; [by intros id ?%elem_of_nil|]. split; [done|].
      intros id Hid. unfold get_or_create. by rewrite Em.
  - rewrite plan_sync_counts by done. eexists _, _. split; [done|]. split; [done|]. destruct Hk as (Hn & K & Hk). split; [done|].
    exists current. split_and!; try done. intros Eg. destruct (Hk Eg) as (_ & _ & H3). apply map_eq. intros id. symmetry. apply H3.
    apply not_elem_of_nil.
  - eexists _, _. split; [done|]. split; [done|]. by apply read_current_ok.
  - destruct (decide (upserts ++ deletes = [])) as [[-> ->]%app_nil|Ne].
    + eexists _, _. split; [done|]. case_bool_decide as Eg; [|by split].
      destruct Hk as (Hn & current & K & -> & Eu & Ed & Hk). specialize (Hk Eg). subst current. split; [done|]. split; [done|].
      split; [|apply Hs]. pose proof (planned_syncs ge iterate_edges Hiterate position endpoint expected_scope edges
        (ctx_registry s) (co_registry _ _ (sy_ok _ Hs)) D) as Sy. by rewrite <-Eu, <-Ed in Sy.
    + destruct (submit_planned s r n result upserts deletes Hs Hk Ne) as (s' & o & E1 & Ho).
      destruct upserts as [|u upserts], deletes as [|d deletes]; try done; rewrite E1;
        (destruct o as [[|]|e]; (eexists _, _; split; [done|]; simpl; try apply Ho)); by destruct Ho as (_ & ? & _).
  - by destruct (Nd outcome).
Qed.

(** ** Runs *)

Lemma done_stays events s s' st' outcome : run events s (SyncDone outcome) = Some (s', st') → st' = SyncDone outcome.
Proof.
  revert s. induction events as [|[|f] events IH]; intros s; simpl; [by intros [= _ <-]|by apply IH|by apply IH].
Qed.

(** The operations of the other threads are such, where they run. *)
Fixpoint others_versioned (events : list (SyncEvent (P := P) (CB := CB) (J := J))) s st : Prop :=
  match events with
  | [] => True
  | SyncTick :: events => match step st s with Some (s', st') => others_versioned events s' st' | None => True end
  | OtherOperation f :: events => (sync_ready s → versioned s (f s)) ∧ others_versioned events (f s) st
  end.

Lemma others_versioned_app events events' s st s1 st1 :
  run events s st = Some (s1, st1) → others_versioned events s st → others_versioned events' s1 st1 →
  others_versioned (events ++ events') s st.
Proof.
  revert s st. induction events as [|[|f] events IH]; intros s st; simpl.
  - by intros [= -> ->].
  - destruct (step st s) as [[s2 st2]|]; [apply IH|done].
  - intros R [V O] H. split; [done|]. by apply IH.
Qed.

Lemma others_versioned_ticks n s st : others_versioned (replicate n SyncTick) s st.
Proof. revert s st. induction n as [|n IH]; intros s st; simpl; [done|]. by destruct (step st s) as [[]|]. Qed.

(** Steps that only read leave the server as it is. *)
Fixpoint only_reads (n : nat) s st : bool :=
  match n with
  | O => true
  | S n =>
      match st with
      | SyncApply _ _ _ _ _ => false
      | _ => match step st s with Some (s', st') => only_reads n s' st' | None => false end
      end
  end.

Lemma read_step s st s' st' : (∀ r n result upserts deletes, st ≠ SyncApply r n result upserts deletes) → step st s = Some (s', st') → s' = s.
Proof.
  intros Na. destruct st as [[|r]|r n|r n ids|r n [|id ids] current|r n result upserts deletes|outcome]; simpl; try by intros [= <- _].
  - by destruct (plan_sync _ _ _ _ _) as [[]]; intros [= <- _].
  - by destruct (Na r n result upserts deletes).
Qed.

Lemma only_reads_run n s st : only_reads n s st = true → ∃ st', run (replicate n SyncTick) s st = Some (s, st').
Proof.
  revert st. induction n as [|n IH]; intros st; cbn [only_reads replicate]; [by eexists|]. intros R.
  assert (∀ r k result upserts deletes, st ≠ SyncApply r k result upserts deletes) as Na by by intros ? ? ? ? ? ->.
  change (run (SyncTick :: replicate n SyncTick) s st) with
    (match step st s with Some (s, st) => run (replicate n SyncTick) s st | None => None end).
  destruct (step st s) as [[s1 st1]|] eqn:E1; [|by destruct st].
  pose proof (read_step _ _ _ _ Na E1) as ->. apply IH. by destruct st.
Qed.

(** Among operations of other threads that advance the generation when they change the edges,
    a reconciliation that reports success replaced the edges at one of its steps. *)
Lemma run_ok events s st s' result :
  others_versioned events s st → sync_ready s → sync_ok s st → (∀ outcome, st ≠ SyncDone outcome) →
  run events s st = Some (s', SyncDone (Ok result)) →
  ∃ before after s1 st1 s2, events = before ++ SyncTick :: after ∧ run before s st = Some (s1, st1) ∧
    step st1 s1 = Some (s2, SyncDone (Ok result)) ∧ synced_at s1 s2 result.
Proof.
  revert s st. induction events as [|event events IH]; intros s st B Hs Hk Nd R; simpl in R.
  { injection R as _ ->. by destruct (Nd (Ok result)). }
  destruct event as [|f]; simpl in B.
  - destruct (step_ok s st Hs Hk Nd) as (s1 & st1 & E1 & Ho). rewrite E1 in R, B.
    destruct st1 as [r|r n|r n ids|r n ids current|r n res upserts deletes|outcome].
    6:{ pose proof (done_stays _ _ _ _ _ R) as [= <-]. by exists [], events, s, st, s1. }
    all: destruct Ho as [Hs1 Hk1]; destruct (IH _ _ B Hs1 Hk1 ltac:(done) R) as (before & after & s2 & st2 & s3 & -> & Rb & E2 & Sy);
      exists (SyncTick :: before), after, s2, st2, s3; (split; [done|]); simpl; by rewrite E1.
  - destruct B as [V B]. specialize (V Hs). destruct (IH _ _ B (ve_ready _ _ V) (versioned_ok _ _ _ V Hk) Nd R)
      as (before & after & s2 & st2 & s3 & -> & Rb & E2 & Sy).
    by exists (OtherOperation f :: before), after, s2, st2, s3.
Qed.

(** ** A reconciliation on its own *)

Abbreviation alone := (run_alone (CB := CB) env (S fuel) (S (S steps)) ctx ge iterate_edges g position endpoint expected_scope desired_ids edges).

Lemma alone_apply ticks s r result upserts deletes :
  sync_ready s → sync_ok s (SyncApply r (gen s) result upserts deletes) →
  ∃ s' outcome, alone (S (S ticks)) s (SyncApply r (gen s) result upserts deletes) = Some (s', outcome) ∧
    outcome ≠ Err (budget_exhausted ctx) ∧ (∀ result, outcome = Ok result → synced_at s s' result).
Proof.
  intros Hs Hk. simpl run_alone. destruct (decide (upserts ++ deletes = [])) as [[-> ->]%app_nil|Ne].
  - destruct (step_ok s _ Hs Hk) as (s' & st' & E1 & Ho); [done|]. simpl in E1. rewrite bool_decide_eq_true_2 in E1 by done.
    injection E1 as <- <-. rewrite bool_decide_eq_true_2 by done. eexists _, _. split; [done|]. split; [done|].
    by intros ? [= <-].
  - destruct (submit_planned s r (gen s) result upserts deletes Hs Hk Ne) as (s' & o & E1 & Ho).
    assert (∃ outcome, step (SyncApply r (gen s) result upserts deletes) s = Some (s', SyncDone outcome) ∧
      match o with Ok true => outcome = Ok result | Ok false => False
                 | Err e => outcome = Err (graph_command_error ctx (display_persist e)) end) as (outcome & E2 & Eo).
    { simpl. destruct upserts as [|u upserts], deletes as [|d deletes]; try done; rewrite E1;
        (destruct o as [[|]|e]; [by eexists|by destruct Ho as (N & _)|by eexists]). }
    simpl in E2. rewrite E2. exists s', outcome. split; [done|]. destruct o as [[|]|e]; [subst outcome|done|subst outcome; done].
    split; [done|]. intros ? [= <-]. apply Ho.
Qed.

Lemma alone_reads ticks s r ids current :
  sync_ready s → sync_ok s (SyncRead r (gen s) ids current) →
  ∃ s' outcome, alone (S (length ids) + S (S ticks)) s (SyncRead r (gen s) ids current) = Some (s', outcome) ∧
    outcome ≠ Err (budget_exhausted ctx) ∧ (∀ result, outcome = Ok result → synced_at s s' result).
Proof.
  revert current. induction ids as [|id ids IH]; intros current Hs Hk.
  - destruct (step_ok s _ Hs Hk) as (s' & st' & E1 & Ho); [done|]. cbn [length Nat.add run_alone]. simpl sync_step in E1 |- *.
    destruct (plan_sync _ _ _ _ _) as [[result upserts] deletes]. injection E1 as <- <-. apply alone_apply; [done|apply Ho].
  - destruct (IH (read_current ge expected_scope s current id) Hs) as (s' & outcome & E1 & Ho); [by apply read_current_ok|].
    exists s', outcome. split; [exact E1|exact Ho].
Qed.

Lemma alone_tick ticks s st s' st' : (∀ outcome, st ≠ SyncDone outcome) → step st s = Some (s', st') → alone (S ticks) s st = alone ticks s' st'.
Proof. intros Nd E1. destruct st as [| | | | |outcome]; try (by destruct (Nd outcome)); cbn [run_alone]; by rewrite E1. Qed.

(** Enough steps for one attempt. *)
Definition attempt_ticks s : nat :=
  6 + length (edge_ids_at g (ctx_gstate s) (ctx_registry s) ∅ name position endpoint).2.

Lemma alone_ok s r : sync_ready s →
  ∃ s' outcome, alone (attempt_ticks s) s (SyncAttempt (S r)) = Some (s', outcome) ∧
    outcome ≠ Err (budget_exhausted ctx) ∧ (∀ result, outcome = Ok result → synced_at s s' result).
Proof.
  intros Hs. unfold attempt_ticks. set (ids := (edge_ids_at _ _ _ _ _ _ _).2).
  assert (sync_ok s (SyncLookup r (gen s))) as Hk by (simpl; lia).
  destruct (step_ok s _ Hs Hk) as (s1 & st1 & E1 & Ho1); [done|]. simpl in E1. injection E1 as <- <-. destruct Ho1 as [_ Hk1]. fold ids in Hk1.
  destruct (step_ok s _ Hs Hk1) as (s1 & st1 & E1 & Ho1); [done|]. simpl in E1.
  replace (6 + length ids) with (S (S (S (S (length ids) + 2)))) by lia.
  rewrite (alone_tick _ s (SyncAttempt (S r)) s (SyncLookup r (gen s))) by done.
  rewrite (alone_tick _ s (SyncLookup r (gen s)) s (SyncStore r (gen s) ids)) by done.
  destruct (ctx_registry s !! name) eqn:Em; injection E1 as <- <-; destruct Ho1 as [_ Hk2].
  - rewrite (alone_tick _ s (SyncStore r (gen s) ids) s (SyncRead r (gen s) ids ∅)) by (simpl; by rewrite ?Em). by apply alone_reads.
  - rewrite (alone_tick _ s (SyncStore r (gen s) ids) s (SyncRead r (gen s) [] ∅)) by (simpl; by rewrite ?Em).
    replace (S (length ids) + 2) with (S (length (@nil string)) + S (S (length ids))) by (simpl; lia). by apply alone_reads.
Qed.
(** More steps change nothing. *)
Lemma alone_more ticks k s st o : alone ticks s st = Some o → alone (ticks + k) s st = Some o.
Proof.
  revert s st. induction ticks as [|ticks IH]; intros s st; [by destruct st, k|].
  change (S ticks + k) with (S (ticks + k)).
  destruct st as [| | | | |outcome]; [..|done]; cbn [run_alone]; (destruct (step _ s) as [[s1 st1]|]; [apply IH|done]).
Qed.
End run.

(** * Graph commands, proved

    What the checks of a reconciliation accept, a reconciliation as a whole, and [Ensure]:
    whatever other threads do around its set, the pair is occupied by the edge it names. *)

Section commands.
Context {P CB J E VA VB VS Scope : Type} (env : Env P J) (fuel steps : nat) (ctx : CommandContext)
  (ge : GraphEdge P E VA VB VS) `{!GraphEdgeLaws ge}.
Context (from_serializable : Scope → result GraphError IndexValue).
Context (g : GraphIndex P).
Abbreviation name := (ge_name ge).
Implicit Types (s : Ctx P CB J) (edge : E) (edges : list E) (scope : option Scope).

(** ** What a reconciliation accepts *)

Definition scope_value scope : result GraphError (option IndexValue) :=
  match scope with None => Ok None | Some scope => map_ok Some (from_serializable scope) end.

(** A scope when the type has one, and distinct edges at the endpoint and in the scope. *)
Definition acceptable (position : EndPosition) (endpoint : EndpointValue) scope edges (expected : option IndexValue) : Prop :=
  scope_value scope = Ok expected ∧ (is_Some (sc_scope_type (ge_scope_spec ge)) ↔ is_Some expected) ∧
  desired ge position endpoint expected edges.

Lemma in_reach_spec position endpoint expected edge :
  in_reach ge position endpoint expected edge = true ↔
  ∃ ends, erase_ends ge (ge_ends ge edge) = Ok ends ∧ end_at position ends = endpoint ∧
    erase_scope (ge_scope_spec ge) (ge_scope ge edge) = Ok expected.
Proof.
  split; [|intros (ends & ? & ? & ?); by eapply desired_in_reach]. unfold in_reach.
  destruct (erase_ends _ _) as [ends|]; [|done]. destruct (erase_scope _ _) as [sc|]; [|done].
  intros [<-%bool_decide_eq_true ->%bool_decide_eq_true]%andb_true_iff. by exists ends.
Qed.

Lemma check_sync_spec s position endpoint scope edges expected ids :
  check_sync ctx ge from_serializable s position endpoint scope edges = Ok (g, expected, ids) ↔
  ctx_graph s = Some g ∧ acceptable position endpoint scope edges expected ∧ ids = list_to_set (ge_id ge <$> edges).
Proof.
  unfold check_sync, acceptable, mbind, result_bind, ok_or. destruct (ctx_graph s) as [g'|]; [|by split; [|intros (? & _)]].
  assert (command_result ctx match scope with None => Ok None | Some sc => map_ok Some (from_serializable sc) end =
    command_result ctx (scope_value scope)) as -> by done.
  unfold command_result. destruct (scope_value scope) as [ex|e]; [|split; [done|by intros (_ & (? & _) & _)]].
  case_bool_decide as Nb.
  { split; [done|]. intros (_ & ([= ->] & Hs & _) & _). exfalso. apply Nb. by apply bool_decide_ext. }
  split.
  - destruct (try_fold _ _ _) as [ids'|e] eqn:Ef; [|done]. intros [= -> -> ->]. apply check_desired_spec in Ef as (-> & ND & _ & Hr).
    split; [done|]. split; [|set_solver]. split; [done|]. split.
    + repeat case_bool_decide; naive_solver.
    + split; [done|]. intros edge He. apply in_reach_spec. by apply Hr.
  - intros ([= ->] & ([= ->] & _ & ND & Hr) & ->). rewrite check_desired_total.
    + do 2 f_equal. set_solver.
    + done.
    + set_solver.
    + intros edge He. by apply in_reach_spec, Hr.
Qed.

(** ** A reconciliation on its own *)

(** What the caller of a reconciliation is told, and what it did. *)
Definition reconciled position endpoint scope edges s s' (outcome : result CommandError GraphSyncResult) : Prop :=
  match outcome with
  | Ok counts => ∃ expected, acceptable position endpoint scope edges expected ∧
      counts = sync_counts ge edges (current_of ge position endpoint expected (get_or_create (ctx_registry s) name)) ∧
      synced ge position endpoint expected edges (ctx_registry s) (ctx_registry s') ∧ ctx_ok (Some g) s'
  | Err e => (∀ expected, acceptable position endpoint scope edges expected → e ≠ budget_exhausted ctx) ∧
      ((∀ expected, ¬ acceptable position endpoint scope edges expected) → s' = s)
  end.

Lemma check_sync_graph s position endpoint scope edges g' expected ids :
  check_sync ctx ge from_serializable s position endpoint scope edges = Ok (g', expected, ids) → ctx_graph s = Some g'.
Proof.
  unfold check_sync, mbind, result_bind, ok_or. destruct (ctx_graph s) as [g0|]; [|done].
  destruct (command_result _ _); [|done]. case_bool_decide; [done|]. destruct (try_fold _ _ _); [|done]. by intros [= -> _ _].
Qed.

Lemma check_sync_error s position endpoint scope edges e :
  check_sync ctx ge from_serializable s position endpoint scope edges = Err e → ctx_graph s = Some g →
  ∀ expected, ¬ acceptable position endpoint scope edges expected.
Proof.
  intros Ec Eg expected A. pose proof (proj2 (check_sync_spec s position endpoint scope edges expected _) (conj Eg (conj A eq_refl))).
  congruence.
Qed.

Context (iterate_edges : gmap string E → list (string * E)) (Hiterate : ∀ m, iterate_edges m ≡ₚ map_to_list m).
Context (Hg : registration g (ge_name ge) = Some (edge_registration ge)).

Lemma sync_at_reconciles ticks position endpoint scope edges s :
  sync_ready ge g s → (attempt_ticks ge g position endpoint s ≤ ticks)%nat →
  ∃ s' outcome, graph_sync_at env (S fuel) (S (S steps)) ctx ge from_serializable iterate_edges ticks position endpoint scope edges s =
    Some (s', outcome) ∧ reconciled position endpoint scope edges s s' outcome.
Proof.
  intros Hs Ht. pose proof (co_graph_is _ _ (sy_ok _ _ _ Hs)) as Eg. unfold graph_sync_at.
  destruct (check_sync _ _ _ _ _ _ _ _) as [[[g' expected] ids]|e] eqn:Ec.
  - pose proof (check_sync_graph _ _ _ _ _ _ _ _ Ec) as Eg'. rewrite Eg in Eg'. injection Eg' as <-.
    apply check_sync_spec in Ec as (_ & A & ->). pose proof A as (_ & _ & D).
    destruct (alone_ok env fuel steps ctx ge iterate_edges Hiterate g Hg position endpoint expected edges D s 63 Hs) as (s' & outcome & E1 & Nb & Hr).
    pose proof (alone_more env fuel steps ctx ge iterate_edges g position endpoint expected edges
      (attempt_ticks ge g position endpoint s) (ticks - attempt_ticks ge g position endpoint s) _ _ _ E1) as E2.
    replace (attempt_ticks _ _ _ _ _ + _) with ticks in E2 by lia.
    exists s', outcome. split; [exact E2|]. destruct outcome as [counts|e]; simpl.
    + destruct (Hr counts eq_refl) as (_ & Ecount & Sy & Ok'). by exists expected.
    + split; [intros ? _ ->; by apply Nb|]. intros N. by destruct (N expected).
  - eexists _, _. split; [done|]. simpl. pose proof (check_sync_error s position endpoint scope edges e Ec Eg) as N.
    split; [intros expected A; by destruct (N expected)|done].
Qed.

(** ** Ensure *)

(** Outside any root, with no relationship of the edge type, and with unique pairs. *)
Record idle s : Prop := mkIdle {
  id_ok : ctx_ok (Some g) s;
  id_causal : ctx_causal s = None;
  id_depth : (0 ≤ max_depth (ctx_limits s))%Z;
  id_plain : plain (rm_tables (ctx_rel s)) name;
  id_unique : unique_pairs g (ctx_registry s)
}.

(** The two edges join the same ends, in the same scope. *)
Definition same_pair edge edge' : bool :=
  match erase_pair ge (ge_ends ge edge).1 (ge_ends ge edge).2 with
  | Err _ => false
  | Ok ends =>
      match ge_scope ge edge with
      | None => joins ge ends edge'
      | Some sc => match sc_erase (ge_scope_spec ge) sc with
                      | Err _ => false
                      | Ok x => joins_in_scope ge (x, ends) edge'
                      end
      end
  end.

Definition is_stored s edge : Prop := lookup_item (ctx_registry s) name (ge_id ge edge) = Some (ge_any ge edge).

Context `{!EdgeScopeLaws (ge_scope_spec ge)} (Hu : ge_pair_policy ge = Unique) (Ha : effective_apply_mode g name Authoritative = Authoritative).
Context (edge : E) (Hscope : ge_scope ge edge = None → sc_scope_type (ge_scope_spec ge) = None).

Lemma unique_edge_spec s : idle s →
  ∃ r, graph_unique_edge ctx ge (ge_ends ge edge).1 (ge_ends ge edge).2 (ge_scope ge edge) s = Some (s, r) ∧
    match r with
    | Ok found => (∀ edge', found = Some edge' ↔ is_stored s edge' ∧ same_pair edge edge' = true) ∧
        ∃ ends, erase_pair ge (ge_ends ge edge).1 (ge_ends ge edge).2 = Ok ends ∧
          ∀ sc, ge_scope ge edge = Some sc → is_ok (sc_erase (ge_scope_spec ge) sc) = true
    | Err _ => ∀ edge', same_pair edge edge' = false
    end.
Proof.
  intros [H0 _ _ _ Up]. unfold graph_unique_edge. rewrite bool_decide_eq_false_2 by (intros N; by apply N).
  eexists. split; [done|]. unfold same_pair, is_stored. destruct (ge_scope ge edge) as [sc|].
  - pose proof (one_between_in_scope_answers ge g Hg s H0 sc (ge_ends ge edge).1 (ge_ends ge edge).2 Up Hu) as A.
    unfold answers_one, erase_scoped_pair in A. unfold mbind, result_bind in A.
    destruct (sc_erase _ sc) as [x|e] eqn:Esc; [|rewrite A; intros edge'; by destruct (erase_pair ge _ _)].
    destruct (erase_pair ge _ _) as [ends|e]; [|by rewrite A].
    destruct A as (found & -> & F). simpl. split; [exact F|]. exists ends. split; [done|]. intros ? [= <-]. by rewrite Esc.
  - pose proof (one_between_answers ge g Hg s H0 (ge_ends ge edge).1 (ge_ends ge edge).2 Up Hu (Hscope eq_refl)) as A.
    unfold answers_one in A. destruct (erase_pair ge _ _) as [ends|e]; [|by rewrite A].
    destruct A as (found & -> & F). simpl. split; [exact F|]. by exists ends.
Qed.

(** The edge itself joins its ends. *)
Lemma same_pair_self ends :
  erase_pair ge (ge_ends ge edge).1 (ge_ends ge edge).2 = Ok ends →
  (∀ sc, ge_scope ge edge = Some sc → is_ok (sc_erase (ge_scope_spec ge) sc) = true) → same_pair edge edge = true.
Proof.
  intros Ee Hs. unfold same_pair. rewrite Ee. unfold joins_in_scope, joins, erase_ends. revert Ee.
  unfold erase_pair, mbind, result_bind. destruct (es_erase (ge_a ge) _) as [a|]; [|done]. destruct (es_erase (ge_b ge) _) as [b|]; [|done].
  intros [= <-]. assert (endpoints_match (edge_registration ge) (mkEdgeEndpoints a b) a b = true) as M
    by (unfold endpoints_match; simpl; by rewrite (bool_decide_eq_true_2 (a = a)), (bool_decide_eq_true_2 (b = b))).
  destruct (ge_scope ge edge) as [sc|]; [|exact M]. specialize (Hs sc eq_refl). simpl.
  destruct (sc_erase _ sc) as [x|]; [|done]. simpl. rewrite M. simpl. by rewrite bool_decide_eq_true_2.
Qed.

(** Setting the edge, when the preflight lets it. *)
Lemma set_edge s : idle s →
  ∃ s' r, emit_set env (S (S fuel)) (S (S steps)) ctx ge edge s = Some (s', r) ∧ ctx_causal s' = None ∧
    (r = Ok () → idle s' ∧ ctx_registry s' = store_insert (ctx_registry s) (ge_any ge edge)).
Proof.
  intros [H0 Ec Hd Pl Up]. unfold emit_set, emit.
  destruct (submit_set_plain env fuel steps g s (ge_any ge edge)) as (s' & r & E1 & [S1 S2 S3 S4] & Hr);
    rewrite ?any_type; try done.
  rewrite E1. destruct r as [[]|e]; [|eexists _, _; by split].
  eexists _, _. split; [done|]. split; [done|]. intros _. destruct (Hr eq_refl) as (Ok' & Er & Hp). split; [|done].
  split; [done|done|by rewrite S3|by rewrite S4|]. rewrite Er. apply unique_pairs_insert; [done|]. rewrite any_type.
  intros r e Hreg U Xe. rewrite Hg in Hreg. injection Hreg as <-. destruct (co_graph _ _ H0 g eq_refl) as [R Gk].
  unfold preflight in Hp. apply (preflight_ignoring_spec g _ _ _ _ (edge_registration ge)) in Hp; [|done..|by rewrite any_type|done].
  pose proof (candidate_valid_pair _ _ _ _ _ _ Hp U Xe) as F. by rewrite any_id in F |- *.
Qed.

(** A set that the preflight refuses changes nothing. *)
Lemma refused_set s gst e s' r :
  idle s → preflight g (ctx_registry s) (ctx_gstate s) (canonical_item s (ge_any ge edge)) (Some (ge_any ge edge)) Authoritative = (gst, Err e) →
  emit_set env (S (S fuel)) (S (S steps)) ctx ge edge s = Some (s', r) → is_ok r = false ∧ idle s'.
Proof.
  intros [H0 Ec Hd Pl Up] V. unfold emit_set, emit, submit_mutation.
  destruct (submit_rejected env (S fuel) (S steps) g s (ge_any ge edge) [] Local Authoritative gst (ge_any ge edge) e)
    as (s1 & -> & [U1 U2 _ U4 _ (U6 & _ & U7) U8]); [done|apply H0|done| |apply NoDup_singleton|done|by simpl; rewrite V|].
  { simpl. unfold coordinates. by rewrite any_type, Hg. }
  intros [= <- <-]. split; [done|]. destruct H0 as [H1 H2 H3 H4 H5]. split; [|done|by rewrite U7|by rewrite U4|by rewrite U1].
  split; [by rewrite U6|by rewrite U1|rewrite U1; by eapply exact_same_index|by rewrite U8|by rewrite U4].
Qed.

Lemma set_is_stored s s' : ctx_registry s' = store_insert (ctx_registry s) (ge_any ge edge) → is_stored s' edge.
Proof.
  intros Er. unfold is_stored. rewrite lookup_get_or_create, Er, get_or_create_insert, any_type, any_id, decide_True by done. by rewrite lookup_insert_eq.
Qed.

Section threads.
Context (before after : Ctx P CB J → Ctx P CB J).
Abbreviation ensure := (Ensure env (S (S fuel)) (S (S steps)) ctx ge).

(** The state [s] when the command looks for the edge, when it sets it, and when it looks
    again after a refusal. *)
Record undisturbed s : Prop := mkUndisturbed {
  un_first : idle s;
  un_set : idle (before s);
  un_refused s' e : emit_set env (S (S fuel)) (S (S steps)) ctx ge edge (before s) = Some (s', Err e) → idle (after s')
}.

(** When [Ensure] answers, the pair is occupied by the edge it names. *)
Lemma ensure_occupies s s' result :
  undisturbed s → ensure before after edge s = Some (s', Ok result) →
  idle s' ∧ ∃ edge', ge_id ge edge' = er_id result ∧ is_stored s' edge' ∧ same_pair edge edge' = true.
Proof.
  intros [Hs Hs1 Hs3]. unfold Ensure. destruct (ge_ends ge edge) as [a b] eqn:Eends.
  destruct (unique_edge_spec s Hs) as (r & E1 & Hr). rewrite Eends in E1. simpl in E1. rewrite E1.
  destruct r as [found|e]; [|done]. destruct Hr as (F & ends & Ee & Hsc). destruct found as [existing|].
  { intros [= <- <-]. split; [done|]. exists existing. simpl. split; [done|]. by apply F. }
  destruct (set_edge (before s) Hs1) as (s2 & r2 & E2 & Ec2 & Hr2). rewrite E2. destruct r2 as [[]|e].
  - intros [= <- <-]. destruct (Hr2 eq_refl) as [Id Er]. split; [done|]. exists edge. split; [done|].
    split; [by eapply set_is_stored|by eapply same_pair_self].
  - specialize (Hs3 _ _ E2). destruct (unique_edge_spec (after s2) Hs3) as (r3 & E3 & Hr3). rewrite Eends in E3. simpl in E3.
    rewrite E3. destruct r3 as [[existing|]|e3]; [|done..]. intros [= <- <-]. split; [done|]. exists existing. split; [done|]. by apply Hr3.
Qed.

(** An occupied pair is left alone. *)
Lemma ensure_existing s edge' :
  idle s → is_stored s edge' → same_pair edge edge' = true →
  ensure before after edge s = Some (s, Ok (mkEnsureResult (ge_id ge edge') false)).
Proof.
  intros Hs St Sp. unfold Ensure. destruct (ge_ends ge edge) as [a b] eqn:Eends.
  destruct (unique_edge_spec s Hs) as (r & E1 & Hr). rewrite Eends in E1. simpl in E1. rewrite E1.
  destruct r as [found|e]; [|by rewrite Hr in Sp]. destruct Hr as (F & _). by rewrite (proj2 (F edge') (conj St Sp)).
Qed.

(** A free pair is taken, or the error of the set is returned. *)
Lemma ensure_free s s' result :
  undisturbed s → ensure before after edge s = Some (s', Ok result) → er_created result = true →
  er_id result = ge_id ge edge ∧ ctx_registry s' = store_insert (ctx_registry (before s)) (ge_any ge edge) ∧
  ∀ edge', is_stored s edge' → same_pair edge edge' = false.
Proof.
  intros [Hs Hs1 _]. unfold Ensure. destruct (ge_ends ge edge) as [a b] eqn:Eends.
  destruct (unique_edge_spec s Hs) as (r & E1 & Hr). rewrite Eends in E1. simpl in E1. rewrite E1.
  destruct r as [found|e]; [|done]. destruct Hr as (F & _). destruct found as [existing|]; [by intros [= <- <-]|].
  destruct (set_edge (before s) Hs1) as (s2 & r2 & E2 & Ec2 & Hr2). rewrite E2. destruct r2 as [[]|e].
  - intros [= <- <-] _. destruct (Hr2 eq_refl) as [_ Er]. split; [done|]. split; [done|]. intros edge' St.
    destruct (same_pair edge edge') eqn:Sp; [|done]. pose proof (proj2 (F edge') (conj St Sp)) as C. discriminate C.
  - destruct (graph_unique_edge ctx ge a b (ge_scope ge edge) (after s2)) as [[s3 r3]|]; [|done].
    destruct r3 as [[existing|]|e3]; [by intros [= <- <-]|done..].
Qed.
End threads.
End commands.
