(* ===== verification/GraphCommandTheorems.v ===== *)
(** * What the graph commands promise

    The reconciliation of an endpoint's edges among the operations of other threads and on
    its own, and [Ensure], instantiated at the server of [TFx]; and what the commands report
    in cases their contract does not mention. *)

From stdpp Require Import base strings numbers option countable gmap sets list pretty.
From S2P Require Import Prelude Order GraphTypes EdgeIds GraphIndex GraphQuery GraphPreflight GraphWatch ServerTypes Relationship Pipeline Ingest RelatedWatch.
From S2P Require Import PipelineProof PipelineInvariant PipelineTotal PipelineOutcome ReplaceOutcome TypedGraph TypedProof GraphCommands SyncProof SyncRun ServerFixtures TypedFixtures.

Section properties.
Context {P CB J E VA VB VS Scope : Type} (env : Env P J) (fuel steps : nat) (ctx : CommandContext)
  (ge : GraphEdge P E VA VB VS) `{!GraphEdgeLaws ge}.
Context (from_serializable : Scope → result GraphError IndexValue) (iterate_edges : gmap string E → list (string * E)).
Implicit Types (g : GraphIndex P) (s : Ctx P CB J) (edges : list E).
Abbreviation reach position endpoint expected s := (current_of ge position endpoint expected (get_or_create (ctx_registry s) (ge_name ge))).

(** C27: A reconciliation is atomic.  It takes no lock while it reads; but if the operations
    of other threads that run between its steps advance the graph's generation whenever they
    change the edges of the type, then a reconciliation that reports success did its work in
    one of its steps: that step starts in some state and ends in one where the edges at the
    endpoint and in the scope are exactly the desired ones and no other item is touched, and
    the counts reported are those of the edges that were there when the step began. *)
Theorem reconciliation_is_atomic g position endpoint scope edges expected desired_ids attempts events s0 s s' result :
  (∀ m, iterate_edges m ≡ₚ map_to_list m) → registration g (ge_name ge) = Some (edge_registration ge) →
  check_sync ctx ge from_serializable s0 position endpoint scope edges = Ok (g, expected, desired_ids) →
  sync_ready ge g s →
  others_versioned env fuel steps ctx ge iterate_edges g position endpoint expected edges events s (SyncAttempt attempts) →
  let run := run_sync env (S fuel) (S (S steps)) ctx ge iterate_edges g position endpoint expected desired_ids edges in
  let step := sync_step env (S fuel) (S (S steps)) ctx ge iterate_edges g position endpoint expected desired_ids edges in
  run events s (SyncAttempt attempts) = Some (s', SyncDone (Ok result)) →
  ∃ before after s1 st1 s2,
    events = before ++ SyncTick :: after ∧ run before s (SyncAttempt attempts) = Some (s1, st1) ∧
    step st1 s1 = Some (s2, SyncDone (Ok result)) ∧
    result = sync_counts ge edges (reach position endpoint expected s1) ∧
    synced ge position endpoint expected edges (ctx_registry s1) (ctx_registry s2) ∧ ctx_ok (Some g) s2.
Proof.
  intros Hi Hg Ec Hs Ho run step R.
  apply (check_sync_spec ctx ge from_serializable g) in Ec as (_ & (_ & _ & D) & ->).
  destruct (run_ok env fuel steps ctx ge iterate_edges Hi g Hg position endpoint expected edges D events s _ s' result Ho Hs I ltac:(done) R)
    as (before & after & s1 & st1 & s2 & Ee & Rb & Rs & _ & Er & Sy & Ok2).
  by exists before, after, s1, st1, s2.
Qed.

(** A reconciliation that no other thread disturbs needs one attempt: it returns, and
    never because its retry budget is exhausted.  If it succeeds then the scope is one the
    type takes, the desired edges have distinct ids and are at the endpoint and in the scope,
    they are afterwards exactly the edges there, nothing else was touched, and the counts are
    those of the edges that were there; what does not fit is refused and changes nothing. *)
Theorem reconciliation_on_its_own g scope edges s ticks :
  (∀ m, iterate_edges m ≡ₚ map_to_list m) → registration g (ge_name ge) = Some (edge_registration ge) → sync_ready ge g s →
  (∀ value endpoint, es_erase (ge_a ge) value = Ok endpoint → (attempt_ticks ge g PosA endpoint s ≤ ticks)%nat →
     ∃ s' outcome, graph_sync_from env (S fuel) (S (S steps)) ctx ge from_serializable iterate_edges ticks value scope edges s = Some (s', outcome) ∧
       reconciled ctx ge from_serializable g PosA endpoint scope edges s s' outcome) ∧
  (∀ value endpoint, es_erase (ge_b ge) value = Ok endpoint → (attempt_ticks ge g PosB endpoint s ≤ ticks)%nat →
     ∃ s' outcome, graph_sync_to env (S fuel) (S (S steps)) ctx ge from_serializable iterate_edges ticks value scope edges s = Some (s', outcome) ∧
       reconciled ctx ge from_serializable g PosB endpoint scope edges s s' outcome).
Proof.
  intros Hi Hg Hs. unfold graph_sync_from, graph_sync_to. split; intros value endpoint -> Ht; by apply sync_at_reconciles.
Qed.

(** Whatever other threads do to the graph before the set of an [Ensure] and after its
    refusal, an [Ensure] that answers names the edge that occupies the pair then; it says that
    it created the edge only if the pair was free when it looked and the set stored its own
    edge; and a second [Ensure] of the same edge answers with the same edge, does not claim to
    have created it, and changes nothing. *)
Theorem ensure_names_the_edge_of_the_pair `{!EdgeScopeLaws (ge_scope_spec ge)} g before after edge s s' result :
  registration g (ge_name ge) = Some (edge_registration ge) → ge_pair_policy ge = Unique →
  effective_apply_mode g (ge_name ge) Authoritative = Authoritative →
  (ge_scope ge edge = None → sc_scope_type (ge_scope_spec ge) = None) →
  undisturbed env fuel steps ctx ge g edge before after s →
  let ensure := Ensure env (S (S fuel)) (S (S steps)) ctx ge in
  ensure before after edge s = Some (s', Ok result) →
  (∃ edge', ge_id ge edge' = er_id result ∧ is_stored ge s' edge' ∧ same_pair ge edge edge' = true) ∧
  (er_created result = true →
     er_id result = ge_id ge edge ∧ ctx_registry s' = store_insert (ctx_registry (before s)) (ge_any ge edge) ∧
     ∀ edge', is_stored ge s edge' → same_pair ge edge edge' = false) ∧
  ∀ before' after', ensure before' after' edge s' = Some (s', Ok (mkEnsureResult (er_id result) false)).
Proof.
  intros Hg Hu Ha Hsc Hs ensure R.
  destruct (ensure_occupies env fuel steps ctx ge g Hg Hu Ha edge Hsc before after s s' result Hs R) as (Id & edge' & Ei & St & Sp).
  split; [by exists edge'|]. split; [by eapply ensure_free|]. intros before' after'. rewrite <-Ei. by eapply ensure_existing.
Qed.
End properties.

(** ** The commands at the server of [TFx] *)

Definition tfx_context : CommandContext := mkCommandContext "tx" "SyncRoutesFrom".
Definition tfx_scope (zone : string) : Prelude.result GraphError IndexValue := TFx.zone_value zone.

Lemma tfx_registrations : g_registrations TFx.index = {["Route" := edge_registration TFx.ge]}.
Proof. reflexivity. Qed.

(** No route ends at a route. *)
Lemma tfx_free registry (x : Item TFx.Road) t id :
  item_type x = "Route" → ¬ incident_edge TFx.index registry (entity_of x) CascadeEdge t id.
Proof.
  intros Ex (r & y & e & Hr & _ & Xe & Hi). unfold registration in Hr. rewrite tfx_registrations in Hr.
  apply lookup_singleton_Some in Hr as [<- <-]. apply indexed_extract in Xe as [Xe _]. simpl in Xe. unfold extract_edge in Xe.
  destruct (ge_downcast TFx.ge y) as [[i p]|]; [|done]. injection Xe as Xe.
  unfold incident_with, a_entity_key, b_entity_key, a_key, b_key, entity_of in Hi. rewrite Ex, <-Xe in Hi. simpl in Hi. destruct Hi as [[Hi _]|[Hi _]]; discriminate Hi.
Qed.

Lemma tfx_ready (s : Ctx TFx.Road nat (Item TFx.Road)) :
  ctx_ok (Some TFx.index) s → ctx_causal s = None → (0 <=? max_depth (ctx_limits s))%Z = true →
  rm_tables (ctx_rel s) = tables_default → sync_ready TFx.ge TFx.index s.
Proof.
  intros H0 Ec Hd%Z.leb_le Et. split; [done..| |].
  - rewrite Et. intros rm change Erm. unfold rel_coordinates. rewrite Erm. by destruct change.
  - intros x t id Ex. by apply tfx_free.
Qed.

Lemma tfx_ctx_ready : sync_ready TFx.ge TFx.index TFx.ctx.
Proof. apply tfx_ready; [exact TFx.ctx_fine|reflexivity..]. Qed.

(** Another client deletes [r2]. *)
Definition tfx_delete (s : Ctx TFx.Road nat (Item TFx.Road)) : Ctx TFx.Road nat (Item TFx.Road) :=
  match submit_mutation TFx.env 3 10 [TFx.any_route (TFx.route "r2" "n1" "n3" "north" 2)] DEL Local s with
  | Some (s, Ok _) => s
  | _ => s
  end.

Lemma tfx_delete_ok (s : Ctx TFx.Road nat (Item TFx.Road)) : ctx_ok (Some TFx.index) s → ctx_ok (Some TFx.index) (tfx_delete s).
Proof.
  intros Hs. unfold tfx_delete. destruct (submit_mutation _ _ _ _ _ _ s) as [[s' [u|e]]|] eqn:E1; [|done..].
  refine (proj1 (submit_ok TFx.env (Some TFx.index) 3 10) [_] DEL Local Authoritative _ s s' u Hs E1). apply NoDup_singleton.
Qed.

Lemma tfx_delete_versioned : versioned TFx.ge TFx.index TFx.ctx (tfx_delete TFx.ctx).
Proof.
  assert ((gs_generation (ctx_gstate TFx.ctx) <? gs_generation (ctx_gstate (tfx_delete TFx.ctx)))%Z = true) as Hg%Z.ltb_lt
    by (vm_compute; reflexivity).
  split; [|lia|intros Eg; rewrite Eg in Hg; lia].
  apply tfx_ready; [apply tfx_delete_ok; exact TFx.ctx_fine|vm_compute; reflexivity..].
Qed.

(** In the north [n1] is to have [r1], relabelled, and [r5] to [n4]; [r2], which is there, is
    deleted by the other client after the first attempt has read the edges.  The attempt is
    refused as stale, and the next one finds nothing to delete. *)
Definition tfx_desired : list TFx.Route := [TFx.route "r1" "n1" "n2" "north" 7; TFx.route "r5" "n1" "n4" "north" 5].
Definition tfx_events : list (SyncEvent (P := TFx.Road) (CB := nat) (J := Item TFx.Road)) :=
  replicate 6 SyncTick ++ OtherOperation tfx_delete :: replicate 12 SyncTick.
Definition tfx_north : option IndexValue := Some (mkIndexValue (String.list_byte_of_string "north")).
Abbreviation tfx_run :=
  (run_sync TFx.env 3 10 tfx_context TFx.ge map_to_list TFx.index PosA (Fixtures.Fx.at_node "n1") tfx_north (list_to_set (ge_id TFx.ge <$> tfx_desired)) tfx_desired).

Definition sync_outcome (o : option (Ctx TFx.Road nat (Item TFx.Road) * SyncState (P := TFx.Road) (E := TFx.Route)))
  : option (Prelude.result CommandError GraphSyncResult) :=
  match o with Some (_, SyncDone outcome) => Some outcome | _ => None end.

Lemma sync_outcome_run o outcome : sync_outcome o = Some outcome → ∃ s, o = Some (s, SyncDone outcome).
Proof. destruct o as [[s st]|]; [|done]. destruct st; try done. intros [= <-]. by exists s. Qed.

Lemma tfx_others :
  others_versioned TFx.env 2 8 tfx_context TFx.ge map_to_list TFx.index PosA (Fixtures.Fx.at_node "n1") tfx_north tfx_desired
    tfx_events TFx.ctx (SyncAttempt 64).
Proof.
  destruct (only_reads_run TFx.env 2 8 tfx_context TFx.ge map_to_list TFx.index PosA (Fixtures.Fx.at_node "n1") tfx_north tfx_desired
    6 TFx.ctx (SyncAttempt 64)) as [st R]; [vm_compute; reflexivity|].
  eapply others_versioned_app; [exact R|apply others_versioned_ticks|].
  split; [intros _; exact tfx_delete_versioned|apply others_versioned_ticks].
Qed.

Lemma tfx_checked :
  check_sync tfx_context TFx.ge tfx_scope TFx.ctx PosA (Fixtures.Fx.at_node "n1") (Some "north") tfx_desired =
    Ok (TFx.index, tfx_north, list_to_set (ge_id TFx.ge <$> tfx_desired)).
Proof.
  refine (proj2 (check_sync_spec tfx_context TFx.ge tfx_scope TFx.index TFx.ctx PosA _ (Some "north") tfx_desired tfx_north _) _).
  split; [reflexivity|]. split; [|reflexivity]. split; [reflexivity|]. split; [by split|].
  split; [apply (bool_decide_eq_true_1 _); vm_compute; reflexivity|].
  intros edge He. apply list_elem_of_In in He as [<-|[<-|[]]]; vm_compute; reflexivity.
Qed.

Lemma reconciliation_is_atomic_witness :
  ∃ s', tfx_run tfx_events TFx.ctx (SyncAttempt 64) = Some (s', SyncDone (Ok (mkSyncResult 1 1 0 0))) ∧
    ∃ before after (s1 : Ctx TFx.Road nat (Item TFx.Road)) st1 (s2 : Ctx TFx.Road nat (Item TFx.Road)),
      tfx_events = before ++ SyncTick :: after ∧ tfx_run before TFx.ctx (SyncAttempt 64) = Some (s1, st1) ∧
      mkSyncResult 1 1 0 0 = sync_counts TFx.ge tfx_desired
        (current_of TFx.ge PosA (Fixtures.Fx.at_node "n1") tfx_north (get_or_create (ctx_registry s1) "Route")) ∧
      synced TFx.ge PosA (Fixtures.Fx.at_node "n1") tfx_north tfx_desired (ctx_registry s1) (ctx_registry s2).
Proof.
  destruct (sync_outcome_run (tfx_run tfx_events TFx.ctx (SyncAttempt 64)) (Ok (mkSyncResult 1 1 0 0))) as [s' R];
    [vm_compute; reflexivity|].
  exists s'. split; [exact R|].
  destruct (reconciliation_is_atomic TFx.env 2 8 tfx_context TFx.ge tfx_scope map_to_list TFx.index PosA (Fixtures.Fx.at_node "n1")
    (Some "north") tfx_desired tfx_north (list_to_set (ge_id TFx.ge <$> tfx_desired)) 64 tfx_events TFx.ctx TFx.ctx s' (mkSyncResult 1 1 0 0)
    (λ m, Permutation_refl _) TFx.registered tfx_checked tfx_ctx_ready tfx_others R) as (before & after & s1 & st1 & s2 & E1 & E2 & _ & E3 & E4 & _).
  exists before, after, s1, st1, s2. split; [exact E1|split; [exact E2|split; [exact E3|exact E4]]].
Defined.

Lemma tfx_enough : (attempt_ticks TFx.ge TFx.index PosA (Fixtures.Fx.at_node "n1") TFx.ctx ≤ 20)%nat.
Proof. apply Nat.leb_le. vm_compute. reflexivity. Qed.

(** On its own, the same reconciliation also deletes [r2]. *)
Lemma reconciliation_on_its_own_witness :
  (∃ s' outcome, graph_sync_from TFx.env 3 10 tfx_context TFx.ge tfx_scope map_to_list 20 "n1" (Some "north") tfx_desired TFx.ctx = Some (s', outcome) ∧
     reconciled tfx_context TFx.ge tfx_scope TFx.index PosA (Fixtures.Fx.at_node "n1") (Some "north") tfx_desired TFx.ctx s' outcome) ∧
  snd <$> graph_sync_from TFx.env 3 10 tfx_context TFx.ge tfx_scope map_to_list 20 "n1" (Some "north") tfx_desired TFx.ctx =
    Some (Ok (mkSyncResult 1 1 1 0)).
Proof.
  split; [|vm_compute; reflexivity].
  exact (proj1 (reconciliation_on_its_own TFx.env 2 8 tfx_context TFx.ge tfx_scope map_to_list TFx.index (Some "north") tfx_desired TFx.ctx 20
    (λ m, Permutation_refl _) TFx.registered tfx_ctx_ready) "n1" (Fixtures.Fx.at_node "n1") eq_refl tfx_enough).
Defined.

(** *** Ensuring a route that another client creates first *)

Definition tfx_wanted : TFx.Route := TFx.route "r6" "n2" "n3" "north" 0.
Definition tfx_rival : TFx.Route := TFx.route "r9" "n2" "n3" "north" 1.
Definition tfx_create (s : Ctx TFx.Road nat (Item TFx.Road)) : Ctx TFx.Road nat (Item TFx.Road) :=
  match emit_set TFx.env 3 10 tfx_context TFx.ge tfx_rival s with
  | Some (s, Ok _) => s
  | _ => s
  end.

Lemma tfx_idle : idle TFx.ge TFx.index TFx.ctx.
Proof. destruct tfx_ctx_ready as [H1 H2 H3 H4 _]. split; [done..|exact TFx.unique]. Qed.

Lemma tfx_created : idle TFx.ge TFx.index (tfx_create TFx.ctx).
Proof.
  destruct (set_edge TFx.env 1 8 tfx_context TFx.ge TFx.index TFx.registered eq_refl tfx_rival TFx.ctx tfx_idle) as (s' & r & E1 & _ & Hr).
  unfold tfx_create. rewrite E1. destruct r as [[]|e]; [by apply Hr|exact tfx_idle].
Qed.

Lemma tfx_undisturbed : undisturbed TFx.env 1 8 tfx_context TFx.ge TFx.index tfx_wanted tfx_create (λ s, s) TFx.ctx.
Proof.
  split; [exact tfx_idle|exact tfx_created|]. intros s' e R.
  assert (is_ok (preflight TFx.index (ctx_registry (tfx_create TFx.ctx)) (ctx_gstate (tfx_create TFx.ctx))
    (canonical_item (tfx_create TFx.ctx) (ge_any TFx.ge tfx_wanted)) (Some (ge_any TFx.ge tfx_wanted)) Authoritative).2 = false) as N
    by (vm_compute; reflexivity).
  destruct (preflight _ _ _ _ _ _) as [gst [u|err]] eqn:V; [done|].
  exact (proj2 (refused_set TFx.env 1 8 tfx_context TFx.ge TFx.index TFx.registered tfx_wanted _ gst err s' _ tfx_created V R)).
Qed.

Lemma ensure_names_the_edge_of_the_pair_witness :
  ∃ s', Ensure TFx.env 3 10 tfx_context TFx.ge tfx_create (λ s, s) tfx_wanted TFx.ctx = Some (s', Ok (mkEnsureResult "r9" false)) ∧
    (∃ edge', ge_id TFx.ge edge' = "r9" ∧ is_stored TFx.ge s' edge' ∧ same_pair TFx.ge tfx_wanted edge' = true) ∧
    Ensure TFx.env 3 10 tfx_context TFx.ge (λ s, s) (λ s, s) tfx_wanted s' = Some (s', Ok (mkEnsureResult "r9" false)).
Proof.
  assert (snd <$> Ensure TFx.env 3 10 tfx_context TFx.ge tfx_create (λ s, s) tfx_wanted TFx.ctx = Some (Ok (mkEnsureResult "r9" false))) as H
    by (vm_compute; reflexivity).
  destruct (Ensure _ _ _ _ _ _ _ _ TFx.ctx) as [[s' r]|] eqn:R; [|discriminate H]. apply Some_inj in H. simpl in H. subst r.
  exists s'. split; [reflexivity|].
  destruct (ensure_names_the_edge_of_the_pair TFx.env 1 8 tfx_context TFx.ge TFx.index tfx_create (λ s, s) tfx_wanted TFx.ctx s'
    (mkEnsureResult "r9" false) TFx.registered eq_refl eq_refl (λ E, False_ind _ (eq_ind (Some "north") (λ o, match o with Some _ => True | None => False end) I _ E))
    tfx_undisturbed R) as (H1 & _ & H3).
  split; [exact H1|exact (H3 (λ s, s) (λ s, s))].
Defined.

(** ** What the commands hide *)

(** A persister that refuses every event. *)
Definition tfx_refusing : Env TFx.Road (Item TFx.Road) :=
  env_fx (λ _ event, Err (mkPersistError "Route" "disk full")).

(** The set of an [Ensure] stores its edge and then fails to persist it; the command looks
    again, finds the edge it has just stored, and answers that it existed: the error is lost,
    and so is the edge when the server restarts. *)
Lemma ensure_hides_a_failed_persist :
  is_ok <$> (snd <$> emit_set tfx_refusing 3 10 tfx_context TFx.ge tfx_wanted TFx.ctx) = Some false ∧
  snd <$> Ensure tfx_refusing 3 10 tfx_context TFx.ge (λ s, s) (λ s, s) tfx_wanted TFx.ctx = Some (Ok (mkEnsureResult "r6" false)) ∧
  (ctx_persisted ∘ fst) <$> Ensure tfx_refusing 3 10 tfx_context TFx.ge (λ s, s) (λ s, s) tfx_wanted TFx.ctx = Some [].
Proof. split; [|split]; vm_compute; reflexivity. Qed.

(** Reconciling one scope with an edge whose id another scope uses moves that edge, and
    counts it as inserted. *)
Lemma reconciliation_moves_an_edge_of_another_scope :
  let moved := TFx.route "r3" "n1" "n2" "north" 3 in
  lookup_item (ctx_registry TFx.ctx) "Route" "r3" = Some (TFx.any_route (TFx.route "r3" "n1" "n2" "south" 3)) ∧
  snd <$> graph_sync_from TFx.env 3 10 tfx_context TFx.ge tfx_scope map_to_list 20 "n1" (Some "north") [moved] TFx.ctx =
    Some (Ok (mkSyncResult 1 0 2 0)) ∧
  ((λ s, lookup_item (ctx_registry s) "Route" "r3") ∘ fst) <$>
    graph_sync_from TFx.env 3 10 tfx_context TFx.ge tfx_scope map_to_list 20 "n1" (Some "north") [moved] TFx.ctx =
    Some (Some (TFx.any_route moved)).
Proof. cbv zeta. split; [|split]; vm_compute; reflexivity. Qed.

(** * What the typed queries of the graph find

    A typed query erases its addresses, asks the index for ids and reads the edges of the
    store under them.  The property below puts this together, from the addresses of the
    caller to the edges; it is instantiated at the server of [TFx]. *)

(** A typed query fails when an address it is given cannot be encoded, and otherwise
    returns, once each, exactly the stored edges that its addresses describe: those that
    leave [a], those that reach [b], those that join the two, and those that join them in a
    scope; the count is their number and the existence test tells whether there are any.  In
    a type with unique pairs, the query for one edge finds it exactly when it is stored. *)
Theorem typed_queries_find_the_described_edges {P E VA VB VS CB J : Type} (ge : GraphEdge P E VA VB VS)
    `{!GraphEdgeLaws ge, !EdgeScopeLaws (ge_scope_spec ge)} (g : GraphIndex P) (s : Ctx P CB J) counters :
  registration g (ge_name ge) = Some (edge_registration ge) → ctx_ok (Some g) s →
  (∀ a, answers ge s (es_erase (ge_a ge) a) (has_end ge PosA)
          (map_ok snd (from ge s counters a)) (count_from ge s a) (exists_from ge s a)) ∧
  (∀ b, answers ge s (es_erase (ge_b ge) b) (has_end ge PosB)
          (map_ok snd (to ge s counters b)) (count_to ge s b) (exists_to ge s b)) ∧
  (∀ a b, answers ge s (erase_pair ge a b) (joins ge) (between ge s a b) (count_between ge s a b) (exists_between ge s a b)) ∧
  (∀ scope a b, answers ge s (erase_scoped_pair ge scope a b) (joins_in_scope ge) (between_in_scope ge s scope a b)
          (count_between_in_scope ge s scope a b) (exists_between_in_scope ge s scope a b)) ∧
  (unique_pairs g (ctx_registry s) → ge_pair_policy ge = Unique →
   (∀ scope a b, answers_one ge s (erase_scoped_pair ge scope a b) (joins_in_scope ge) (one_between_in_scope ge s scope a b)) ∧
   (sc_scope_type (ge_scope_spec ge) = None → ∀ a b, answers_one ge s (erase_pair ge a b) (joins ge) (one_between ge s a b))).
Proof.
  intros Hg Hs. split_and!; intros.
  - by apply (from_answers ge g).
  - by apply (to_answers ge g).
  - by apply (between_answers ge g).
  - by apply (between_in_scope_answers ge g).
  - split; intros; [by apply (one_between_in_scope_answers ge g)|by apply (one_between_answers ge g)].
Qed.

(** From [n1] there are three routes, to [n2] two, and in the south zone [r3] joins them. *)
Lemma typed_queries_find_the_described_edges_witness :
  (∃ edges, map_ok snd (from TFx.ge TFx.ctx ∅ "n1") = Ok edges ∧ finds TFx.ge TFx.ctx (has_end TFx.ge PosA (Fixtures.Fx.at_node "n1")) edges ∧
     count_from TFx.ge TFx.ctx "n1" = Ok (len edges)) ∧
  count_from TFx.ge TFx.ctx "n1" = Ok 3%Z ∧ count_to TFx.ge TFx.ctx "n2" = Ok 2%Z ∧
  (∃ found, one_between_in_scope TFx.ge TFx.ctx "south" "n1" "n2" = Ok found ∧
     ∀ edge, found = Some edge ↔ lookup_item (ctx_registry TFx.ctx) "Route" (ge_id TFx.ge edge) = Some (ge_any TFx.ge edge) ∧
       joins_in_scope TFx.ge (mkIndexValue (String.list_byte_of_string "south"), (Fixtures.Fx.at_node "n1", Fixtures.Fx.at_node "n2")) edge = true) ∧
  one_between_in_scope TFx.ge TFx.ctx "south" "n1" "n2" = Ok (Some (TFx.route "r3" "n1" "n2" "south" 3)).
Proof.
  destruct (typed_queries_find_the_described_edges TFx.ge TFx.index TFx.ctx ∅ TFx.registered TFx.ctx_fine) as (From & _ & _ & _ & One).
  split; [|split; [vm_compute; reflexivity|split; [vm_compute; reflexivity|split; [|vm_compute; reflexivity]]]].
  - destruct (From "n1") as (edges & Ef & Hf & Ec & _). exists edges. split; [exact Ef|split; [exact Hf|exact Ec]].
  - destruct (One TFx.unique eq_refl) as [Os _]. exact (Os "south" "n1" "n2").
Defined.

(** Asking for the edge between two ends without a scope ignores the zones: it answers with
    some route. *)
Lemma unscoped_lookup_ignores_scopes :
  one_between TFx.ge TFx.ctx "n1" "n2" = Ok (Some (TFx.route "r1" "n1" "n2" "north" 1)) ∧
  one_between_in_scope TFx.ge TFx.ctx "south" "n1" "n2" = Ok (Some (TFx.route "r3" "n1" "n2" "south" 3)).
Proof. split; vm_compute; reflexivity. Qed.
