(* ===== verification/ViewSampling.v ===== *)
(** * Sampled views

    [ViewDelivery] of [server/src/view_sampling.rs], through which the writer of a connection
    sends the responses of views: a subscription with a rate keeps the changes of an interval
    and sends them as one response when the interval is over.  The parts of [run_writer] and
    [handle_subscription_control] of [server/src/ws_handler.rs] that drive it, and the view
    watch of the client, [core/src/client/view_map.rs].

    Instants and durations are integers, an [Instant] at most [instant_max]; the interval of a
    rate is a floating-point division, and the order of a [HashMap]'s values unspecified: both
    are given. *)

From stdpp Require Import base strings numbers option countable gmap sets list.
From S2P Require Import Prelude Order GraphTypes EdgeIds GraphWatch ClientSession ClientWatch.

(** ** Pending changes *)

(** [latest] holds no rows and no deletes once merged; [changes] is a [BTreeMap]. *)
Record PendingDelta (P : Type) := mkPendingDelta {
  pd_latest : PendingQueryResponse P;
  pd_changes : gmap string (option (Item P))
}.
Arguments mkPendingDelta {P}.
Arguments pd_latest {P}.
Arguments pd_changes {P}.

Record Subscription (P Rate : Type) := mkSubscription {
  sb_rate : option Rate;
  sb_next_sequence : Z;
  sb_last_emit : Z;
  sb_pending : option (PendingDelta P)
}.
Arguments mkSubscription {P Rate}.
Arguments sb_rate {P Rate}.
Arguments sb_next_sequence {P Rate}.
Arguments sb_last_emit {P Rate}.
Arguments sb_pending {P Rate}.

Inductive ViewDeliveryControl (Rate : Type) :=
| ControlSubscribe (tx : string) (rate : option Rate)
| ControlSetRate (tx : string) (rate : option Rate)
| ControlCancel (tx : string).
Arguments ControlSubscribe {Rate}.
Arguments ControlSetRate {Rate}.
Arguments ControlCancel {Rate}.

Section delivery.
Context {P Rate : Type} (interval : Rate → Z) (instant_max : Z).
Abbreviation Subscription := (Subscription P Rate).
Abbreviation ViewDelivery := (gmap string Subscription).
Context (subscriptions_order : ViewDelivery → list (string * Subscription)).
Implicit Types (r : PendingQueryResponse P) (sb : Subscription) (v : ViewDelivery) (now : Z) (tx : string).

(** The response with another sequence number. *)
Definition with_sequence r (sequence : Z) : PendingQueryResponse P :=
  mkPending (pr_tx r) sequence (pr_upsert_items r) (pr_deletes r) (pr_total_count r) (pr_window r) (pr_window_order_ids r).

Definition merge (pending : PendingDelta P) r : PendingDelta P :=
  let changes := foldl (λ changes id, <[id := None]> changes) (pd_changes pending) (pr_deletes r) in
  let changes := foldl (λ changes item, <[item_id item := Some item]> changes) changes (pr_upsert_items r) in
  let order := match pr_window_order_ids r with
               | None => pr_window_order_ids (pd_latest pending)
               | Some ids => Some ids
               end in
  mkPendingDelta (mkPending (pr_tx r) (pr_sequence r) [] [] (pr_total_count r) (pr_window r) order) changes.

Definition delta_new r : PendingDelta P := merge (mkPendingDelta r ∅) r.

(** The loop over the [BTreeMap], in the order of its keys. *)
Definition finish_change (changes : gmap string (option (Item P))) (latest : PendingQueryResponse P) (id : string) : PendingQueryResponse P :=
  match changes !! id with
  | Some (Some item) =>
      mkPending (pr_tx latest) (pr_sequence latest) (pr_upsert_items latest ++ [item]) (pr_deletes latest)
        (pr_total_count latest) (pr_window latest) (pr_window_order_ids latest)
  | Some None =>
      mkPending (pr_tx latest) (pr_sequence latest) (pr_upsert_items latest) (pr_deletes latest ++ [id])
        (pr_total_count latest) (pr_window latest) (pr_window_order_ids latest)
  | None => latest
  end.

Definition finish_delta (pending : PendingDelta P) (sequence : Z) : PendingQueryResponse P :=
  foldl (finish_change (pd_changes pending)) (with_sequence (pd_latest pending) sequence) (sorted_keys (pd_changes pending)).

(** ** Delivery *)

Definition delivery_default : ViewDelivery := ∅.

Definition control v (c : ViewDeliveryControl Rate) now : ViewDelivery :=
  match c with
  | ControlSubscribe tx rate => <[tx := mkSubscription rate 0 now None]> v
  | ControlSetRate tx rate =>
      match v !! tx with
      | Some sb => <[tx := mkSubscription rate (sb_next_sequence sb) (sb_last_emit sb) (sb_pending sb)]> v
      | None => v
      end
  | ControlCancel tx => delete tx v
  end.

Definition push v r now : ViewDelivery * option (PendingQueryResponse P) :=
  match v !! pr_tx r with
  | None => (v, None)
  | Some sb =>
      if bool_decide (pr_sequence r = 0%Z) then
        (<[pr_tx r := mkSubscription (sb_rate sb) 1 now None]> v, Some r)
      else
        match sb_rate sb, sb_pending sb with
        | None, None =>
            (<[pr_tx r := mkSubscription (sb_rate sb) (sat_add (sb_next_sequence sb) 1) now None]> v,
             Some (with_sequence r (sb_next_sequence sb)))
        | _, Some pending =>
            (<[pr_tx r := mkSubscription (sb_rate sb) (sb_next_sequence sb) (sb_last_emit sb) (Some (merge pending r))]> v, None)
        | _, None =>
            (<[pr_tx r := mkSubscription (sb_rate sb) (sb_next_sequence sb) (sb_last_emit sb) (Some (delta_new r))]> v, None)
        end
  end.

(** [Instant::checked_add]. *)
Definition checked_add (instant duration : Z) : option Z :=
  if (instant_max <? instant + duration)%Z then None else Some (instant + duration)%Z.

(** [last_emit.checked_add(rate.map_or(ZERO, interval))] *)
Definition sb_deadline sb : option Z :=
  checked_add (sb_last_emit sb) (match sb_rate sb with None => 0%Z | Some rate => interval rate end).

Definition min_deadline (a : option Z) (b : Z) : option Z :=
  match a with None => Some b | Some a => Some (Z.min a b) end.

Definition next_deadline v : option Z :=
  foldl min_deadline None
    (omap (λ entry : string * Subscription, _ ← sb_pending entry.2; sb_deadline entry.2) (subscriptions_order v)).

(** The subscription's interval is over. *)
Definition is_due now sb : bool :=
  bool_decide (is_Some (sb_pending sb)) &&
  match sb_deadline sb with None => false | Some deadline => (deadline <=? now)%Z end.

Definition take_due v now : ViewDelivery * option (PendingQueryResponse P) :=
  match find (λ entry : string * Subscription, is_due now entry.2) (subscriptions_order v) with
  | None => (v, None)
  | Some (tx, sb) =>
      match sb_pending sb with
      | None => (v, None)
      | Some pending =>
          (<[tx := mkSubscription (sb_rate sb) (sat_add (sb_next_sequence sb) 1) now None]> v,
           Some (finish_delta pending (sb_next_sequence sb)))
      end
  end.

(** ** The writer

    The turns of [run_writer] that concern views: a control message, a wake-up at the
    deadline, a response of a view taken from the queue. *)
Inductive WriterEvent :=
| WriterControl (c : ViewDeliveryControl Rate)
| WriterDeadline
| WriterView (r : PendingQueryResponse P).

(** One turn, at [now]: the next state and the view response it writes. *)
Definition writer_turn v (e : WriterEvent) now : ViewDelivery * option (PendingQueryResponse P) :=
  match e with
  | WriterControl c => (control v c now, None)
  | WriterDeadline => take_due v now
  | WriterView r => push v r now
  end.
End delivery.
Arguments WriterEvent P Rate : clear implicits.
Arguments WriterControl {P Rate}.
Arguments WriterDeadline {P Rate}.
Arguments WriterView {P Rate}.

(** ** View watches of the client *)

Inductive ViewMessage (Rate : Type) :=
| MsgView (rate : option Rate)
| MsgViewSampleRate (rate : option Rate).
Arguments MsgView {Rate}.
Arguments MsgViewSampleRate {Rate}.

Section client.
Context {V T Rate : Type} `{!Entity V T} `{!CellMapMany T} `{EqDecision Rate}.

(** The map and its readiness, and the request kept for reconnecting. *)
Record ViewMapWatch := mkViewWatch {
  vw_map : gmap string T;
  vw_ready : bool;
  vw_sequences : SequenceState;
  vw_sample_rate : option Rate
}.

Definition view_watch_new (rate : option Rate) : ViewMapWatch := mkViewWatch ∅ false sequence_new rate.

Definition view_response tx (response : option (ClientQueryResponse V)) (w : ViewMapWatch) : ViewMapWatch :=
  match screen_response tx response (vw_sequences w) with
  | (s, None) => mkViewWatch (vw_map w) (vw_ready w) s (vw_sample_rate w)
  | (s, Some (response, upserts)) =>
      if decide (cr_sequence response = 0%Z) then mkViewWatch (replace_all upserts (vw_map w)) true s (vw_sample_rate w)
      else mkViewWatch (apply_incremental_map_update (cr_deletes response) upserts (vw_map w)) (vw_ready w) s (vw_sample_rate w)
  end.

Definition view_status (connected : bool) (w : ViewMapWatch) : ViewMapWatch * list (ViewMessage Rate) :=
  (mkViewWatch (vw_map w) false (reset_epoch (vw_sequences w)) (vw_sample_rate w),
   if connected then [MsgView (vw_sample_rate w)] else []).

(** [set_sample_rate]: nothing if the rate is the same, otherwise kept for the next
    subscription, and sent when connected. *)
Definition set_rate (connected : bool) (rate : option Rate) (w : ViewMapWatch) : ViewMapWatch * list (ViewMessage Rate) :=
  if bool_decide (vw_sample_rate w = rate) then (w, [])
  else (mkViewWatch (vw_map w) (vw_ready w) (vw_sequences w) rate, if connected then [MsgViewSampleRate rate] else []).
End client.
Arguments ViewMapWatch T Rate : clear implicits.
Arguments mkViewWatch {T Rate}.
Arguments vw_map {T Rate}.
Arguments vw_ready {T Rate}.
Arguments vw_sequences {T Rate}.
Arguments vw_sample_rate {T Rate}.
