(* ===== verification/ViewSamplingProof.v ===== *)
(** * Sampled views: the pending changes of an interval

    A pending delta describes the rows it turns into the rows after the responses merged into
    it; finished, it is a response that does so on the client. *)

From stdpp Require Import base strings numbers option countable gmap sets list.
From S2P Require Import Prelude Order GraphTypes EdgeIds GraphWatch ClientSession ClientWatch SessionProof SessionRun Connection ViewSampling.

Section pending.
Context {P V T : Type} `{Transport P V T} `{!CellMapMany T}.
Implicit Types (r : PendingQueryResponse P) (pd : PendingDelta P) (changes : gmap string (option (Item P))) (rows : gmap string T)
  (Q : list (PendingQueryResponse P)) (tx : string) (n : Z).

(** The rows of a map watch after responses, from nothing. *)
Definition rows_after Q : gmap string T := foldl (λ rows r, apply_response view r rows) ∅ Q.

Lemma rows_after_snoc Q r : rows_after (Q ++ [r]) = apply_response view r (rows_after Q).
Proof. unfold rows_after. by rewrite foldl_app. Qed.

(** [changes] turn [rows] into [rows']. *)
Definition changed (change : option (option (Item P))) (row : option T) : option T :=
  match change with Some (Some x) => Some (view x) | Some None => None | None => row end.

Definition overlays changes rows rows' : Prop := ∀ k, rows' !! k = changed (changes !! k) (rows !! k).

Definition changes_keyed changes : Prop := ∀ k x, changes !! k = Some (Some x) → item_id x = k.

Record pending_ok pd : Prop := {
  pending_upserts : pr_upsert_items (pd_latest pd) = [];
  pending_deletes : pr_deletes (pd_latest pd) = [];
  pending_keyed : changes_keyed (pd_changes pd)
}.

Lemma overlays_insert changes rows rows' k c :
  overlays changes rows rows' →
  overlays (<[k := c]> changes) rows (match c with Some x => <[k := view x]> rows' | None => delete k rows' end).
Proof.
  intros O k'. destruct (decide (k = k')) as [->|N].
  - rewrite lookup_insert_eq. destruct c; [by rewrite lookup_insert_eq|by rewrite lookup_delete_eq].
  - rewrite lookup_insert_ne by done. destruct c; [rewrite lookup_insert_ne by done|rewrite lookup_delete_ne by done]; apply O.
Qed.

Lemma keyed_insert changes k c :
  changes_keyed changes → (∀ x, c = Some x → item_id x = k) → changes_keyed (<[k := c]> changes).
Proof.
  intros K E k' x. destruct (decide (k = k')) as [->|N]; [rewrite lookup_insert_eq|rewrite lookup_insert_ne by done; apply K].
  intros [= ->]. by apply E.
Qed.

(** The two loops of [merge]. *)
Lemma overlay_deletes ids changes rows rows' :
  changes_keyed changes →
  let changes' := foldl (λ changes id, <[id := None]> changes) changes ids in
  changes_keyed changes' ∧ (overlays changes rows rows' → overlays changes' rows (foldl (λ acc id, delete id acc) rows' ids)).
Proof.
  revert changes rows'. induction ids as [|id ids IH]; intros changes rows' K; [done|]. simpl.
  destruct (IH (<[id := None]> changes) (delete id rows')) as [K' O']; [by apply keyed_insert|].
  split; [done|]. intros O. by apply O', (overlays_insert _ _ _ _ None).
Qed.

Lemma overlay_upserts items changes rows rows' :
  changes_keyed changes →
  let changes' := foldl (λ changes item, <[item_id item := Some item]> changes) changes items in
  changes_keyed changes' ∧
  (overlays changes rows rows' → overlays changes' rows (foldl (λ m u, <[u.1 := u.2]> m) rows' (entry_of view <$> items))).
Proof.
  revert changes rows'. induction items as [|x items IH]; intros changes rows' K; [done|]. simpl.
  destruct (IH (<[item_id x := Some x]> changes) (<[item_id x := view x]> rows')) as [K' O']; [apply keyed_insert; [done|by intros ? [= ->]]|].
  split; [done|]. intros O. by apply O', (overlays_insert _ _ _ _ (Some x)).
Qed.

Lemma merge_ok pd r : changes_keyed (pd_changes pd) → pending_ok (merge pd r).
Proof.
  intros K. destruct (overlay_deletes (pr_deletes r) _ ∅ ∅ K) as [K1 _].
  by destruct (overlay_upserts (pr_upsert_items r) _ ∅ ∅ K1) as [K2 _].
Qed.

Lemma merge_spec pd r rows rows' :
  changes_keyed (pd_changes pd) → pr_sequence r ≠ 0%Z → overlays (pd_changes pd) rows rows' →
  overlays (pd_changes (merge pd r)) rows (apply_response view r rows').
Proof.
  intros K N O. destruct (overlay_deletes (pr_deletes r) _ rows rows' K) as [K1 O1].
  destruct (overlay_upserts (pr_upsert_items r) _ rows (foldl (λ acc id, delete id acc) rows' (pr_deletes r)) K1) as [K2 O2].
  unfold apply_response, accumulate. rewrite bool_decide_false by done. by apply O2, O1.
Qed.

Lemma nothing_pending : changes_keyed ∅.
Proof. intros k x. by rewrite lookup_empty. Qed.

Lemma delta_new_ok r : pending_ok (delta_new r).
Proof. apply merge_ok, nothing_pending. Qed.

Lemma delta_new_spec r rows : pr_sequence r ≠ 0%Z → overlays (pd_changes (delta_new r)) rows (apply_response view r rows).
Proof. intros N. apply merge_spec; [apply nothing_pending|done|]. intros k. simpl. by rewrite lookup_empty. Qed.

(** ** Finishing *)

Definition upsert_of changes k : option (Item P) := c ← changes !! k; c.
Definition is_delete changes k : bool := match changes !! k with Some None => true | _ => false end.

Lemma finish_loop changes ks r :
  let r' := foldl (finish_change changes) r ks in
  pr_tx r' = pr_tx r ∧ pr_sequence r' = pr_sequence r ∧ pr_total_count r' = pr_total_count r ∧ pr_window r' = pr_window r ∧
  pr_window_order_ids r' = pr_window_order_ids r ∧
  pr_upsert_items r' = pr_upsert_items r ++ omap (upsert_of changes) ks ∧
  pr_deletes r' = pr_deletes r ++ List.filter (is_delete changes) ks.
Proof.
  revert r. induction ks as [|k ks IH]; intros r; simpl; [by rewrite !app_nil_r|].
  destruct (IH (finish_change changes r k)) as (-> & -> & -> & -> & -> & -> & ->).
  unfold finish_change, upsert_of, is_delete. destruct (changes !! k) as [[x|]|] eqn:E; simpl.
  - by rewrite <-(assoc_L (++)).
  - by rewrite <-(assoc_L (++)).
  - done.
Qed.

Lemma finish_spec pd n :
  pending_ok pd →
  let r := finish_delta pd n in
  pr_tx r = pr_tx (pd_latest pd) ∧ pr_sequence r = n ∧
  pr_upsert_items r = omap (upsert_of (pd_changes pd)) (sorted_keys (pd_changes pd)) ∧
  pr_deletes r = List.filter (is_delete (pd_changes pd)) (sorted_keys (pd_changes pd)).
Proof.
  intros [Eu Ed _] r. destruct (finish_loop (pd_changes pd) (sorted_keys (pd_changes pd)) (with_sequence (pd_latest pd) n))
    as (E1 & E2 & _ & _ & _ & E3 & E4).
  simpl in *. rewrite Eu in E3. rewrite Ed in E4. done.
Qed.

Lemma omap_keyed_ids changes ks :
  changes_keyed changes → item_id <$> omap (upsert_of changes) ks = List.filter (λ k, bool_decide (is_Some (upsert_of changes k))) ks.
Proof.
  intros K. induction ks as [|k ks IH]; [done|]. cbn [omap list_omap List.filter].
  destruct (upsert_of changes k) as [x|] eqn:E; simpl; [|exact IH]. rewrite <-IH. f_equal.
  unfold upsert_of in E. destruct (changes !! k) as [[y|]|] eqn:Ec; simplify_eq/=. by apply K.
Qed.

Lemma upserted_keys r : (upserted (T:=T) r).*1 = item_id <$> pr_upsert_items r.
Proof. unfold upserted. rewrite <-list_fmap_compose. by apply list_fmap_ext. Qed.

Lemma finish_upserts pd n : pending_ok pd → NoDup (upserted (T:=T) (finish_delta pd n)).*1.
Proof.
  intros Ok. destruct (finish_spec pd n Ok) as (_ & _ & Eu & _). rewrite upserted_keys, Eu, omap_keyed_ids by apply Ok.
  apply NoDup_List_filter, sorted_NoDup, sorted_keys_sorted.
Qed.

(** The finished response does to the rows of the client what the merged ones would have. *)
Lemma finish_applies pd n rows rows' :
  pending_ok pd → n ≠ 0%Z → overlays (pd_changes pd) rows rows' → apply_response view (finish_delta pd n) rows = rows'.
Proof.
  intros Ok N O. pose proof (finish_upserts pd n Ok) as ND. destruct (finish_spec pd n Ok) as (_ & Es & Eu & Ed).
  unfold apply_response, accumulate. rewrite Es, bool_decide_false by done. fold (upserted (T:=T) (finish_delta pd n)).
  rewrite foldl_insert_spec by done. apply map_eq. intros k. rewrite O, lookup_union, lookup_foldl_delete, Ed.
  set (changes := pd_changes pd) in *. set (news := list_to_map (upserted (T:=T) (finish_delta pd n)) : gmap string T).
  assert (∀ x, news !! k = Some x ↔ ∃ y, changes !! k = Some (Some y) ∧ x = view y) as L.
  { intros x. unfold news. rewrite <-elem_of_list_to_map by done. unfold upserted. rewrite Eu, list_elem_of_fmap. split.
    - intros (y & [= -> ->] & (k' & Hk' & Ey)%list_elem_of_omap). unfold upsert_of in Ey.
      destruct (changes !! k') as [[z|]|] eqn:Ec; simplify_eq/=. exists y. rewrite (pending_keyed _ Ok k' y Ec). by split.
    - intros (y & Ec & ->). exists y. unfold entry_of. rewrite (pending_keyed _ Ok k y Ec). split; [done|].
      apply list_elem_of_omap. exists k. unfold upsert_of. rewrite elem_of_sorted_keys, Ec. by eauto. }
  destruct (changes !! k) as [[y|]|] eqn:Ec; simpl.
  - rewrite (proj2 (L (view y))) by eauto. by destruct (decide _), (rows !! k).
  - rewrite decide_True; [|apply list_elem_of_In, filter_In; rewrite <-list_elem_of_In, elem_of_sorted_keys, Ec; split; [eauto|]; unfold is_delete; by rewrite Ec].
    rewrite (right_id_L None (∪)). destruct (news !! k) as [x|]; [|done]. by destruct (proj1 (L x) eq_refl) as (y & [=] & _).
  - rewrite decide_False; [|intros Hk; apply list_elem_of_In, filter_In in Hk as [_ Hk]; unfold is_delete in Hk; by rewrite Ec in Hk].
    destruct (news !! k) as [x|]; [by destruct (proj1 (L x) eq_refl) as (y & [=] & _)|]. by destruct (rows !! k).
Qed.
End pending.

(** * Sampled views: a writer and the watch of its client

    The turns of a writer one after the other, and the invariant of one subscription between
    what was pushed, what was written and what is pending. *)

Section writer.
Context {P V T Rate : Type} `{Transport P V T} `{!CellMapMany T}.
Context (interval : Rate → Z) (instant_max : Z) (subscriptions_order : gmap string (Subscription P Rate) → list (string * Subscription P Rate)).
Context (order_spec : ∀ v, subscriptions_order v ≡ₚ map_to_list v).
Implicit Types (r : PendingQueryResponse P) (pd : PendingDelta P) (sb : Subscription P Rate) (v : gmap string (Subscription P Rate))
  (w : ViewMapWatch T Rate) (e : WriterEvent P Rate) (Q written : list (PendingQueryResponse P)) (tx : string) (now : Z).

Abbreviation turn := (writer_turn interval instant_max subscriptions_order).
Abbreviation due := (is_due interval instant_max).
Abbreviation take := (take_due interval instant_max subscriptions_order).

(** The turns of a writer, and everything it writes. *)
Fixpoint writer_run v (events : list (WriterEvent P Rate * Z)) : gmap string (Subscription P Rate) * list (PendingQueryResponse P) :=
  match events with
  | [] => (v, [])
  | (e, now) :: events =>
      let '(v, o) := turn v e now in
      let '(v, written) := writer_run v events in
      (v, option_list o ++ written)
  end.

(** The responses of a view that reach the writer. *)
Definition pushed_of tx e : list (PendingQueryResponse P) :=
  match e with WriterView r => if bool_decide (pr_tx r = tx) then [r] else [] | _ => [] end.
Definition pushed tx (events : list (WriterEvent P Rate * Z)) : list (PendingQueryResponse P) := events ≫= λ event, pushed_of tx event.1.

(** The subscription is neither opened again nor cancelled. *)
Definition keeps tx e : bool :=
  match e with
  | WriterControl (ControlSubscribe tx' _) | WriterControl (ControlCancel tx') => negb (bool_decide (tx' = tx))
  | _ => true
  end.

Definition view_deliver tx w r : ViewMapWatch T Rate := view_response tx (transport (into_wire r)) w.
Definition view_deliver_all tx w written : ViewMapWatch T Rate := foldl (view_deliver tx) w written.

(** ** Turns *)

(** A pending delta is of its own subscription. *)
Definition delivery_ok v : Prop := ∀ tx sb pd, v !! tx = Some sb → sb_pending sb = Some pd → pending_ok pd ∧ pr_tx (pd_latest pd) = tx.

Definition sb_ok tx sb : Prop := ∀ pd, sb_pending sb = Some pd → pending_ok pd ∧ pr_tx (pd_latest pd) = tx.

Lemma delivery_insert v tx sb : delivery_ok v → sb_ok tx sb → delivery_ok (<[tx := sb]> v).
Proof.
  intros Ok Sb tx' sb' pd. destruct (decide (tx = tx')) as [->|N]; [rewrite lookup_insert_eq; by intros [= <-] ?; apply Sb|].
  rewrite lookup_insert_ne by done. apply Ok.
Qed.

Lemma idle_ok tx rate n now : sb_ok tx (mkSubscription rate n now None).
Proof. intros pd [=]. Qed.

(** The subscription that is taken: one of the map, due. *)
Lemma take_due_spec v now :
  (take v now = (v, None) ∧ ∀ tx sb, v !! tx = Some sb → due now sb = false) ∨
  ∃ tx sb pd, v !! tx = Some sb ∧ due now sb = true ∧ sb_pending sb = Some pd ∧
    take v now = (<[tx := mkSubscription (sb_rate sb) (sat_add (sb_next_sequence sb) 1) now None]> v, Some (finish_delta pd (sb_next_sequence sb))).
Proof.
  unfold take_due. destruct (find _ (subscriptions_order v)) as [[tx sb]|] eqn:E.
  - right. apply find_some in E as [Hin Hd]. simpl in Hd. rewrite <-list_elem_of_In, order_spec, elem_of_map_to_list in Hin.
    assert (∃ pd, sb_pending sb = Some pd) as [pd Ep].
    { unfold is_due in Hd. apply andb_true_iff in Hd as [Hp _]. by apply bool_decide_eq_true in Hp. }
    exists tx, sb, pd. by rewrite Ep.
  - left. split; [done|]. intros tx sb Hl. apply (find_none _ _ E (tx, sb)).
    by rewrite <-list_elem_of_In, order_spec, elem_of_map_to_list.
Qed.

Lemma push_spec v r now sb :
  v !! pr_tx r = Some sb →
  push v r now =
    if bool_decide (pr_sequence r = 0%Z) then (<[pr_tx r := mkSubscription (sb_rate sb) 1 now None]> v, Some r)
    else match sb_pending sb with
         | Some pd => (<[pr_tx r := mkSubscription (sb_rate sb) (sb_next_sequence sb) (sb_last_emit sb) (Some (merge pd r))]> v, None)
         | None => match sb_rate sb with
                   | None => (<[pr_tx r := mkSubscription None (sat_add (sb_next_sequence sb) 1) now None]> v, Some (with_sequence r (sb_next_sequence sb)))
                   | Some rate => (<[pr_tx r := mkSubscription (Some rate) (sb_next_sequence sb) (sb_last_emit sb) (Some (delta_new r))]> v, None)
                   end
         end.
Proof. intros E. unfold push. rewrite E. case_bool_decide; [done|]. by destruct (sb_rate sb), (sb_pending sb). Qed.

(** What is written is of the view pushed, or of the subscription that is due. *)
Lemma turn_ok v e now v' o : delivery_ok v → turn v e now = (v', o) → delivery_ok v'.
Proof.
  intros Ok E. destruct e as [c| |r]; simpl in E.
  - injection E as <- _. destruct c as [tx rate|tx rate|tx]; simpl.
    + by apply delivery_insert, idle_ok.
    + destruct (v !! tx) as [sb|] eqn:Es; [|done]. apply delivery_insert; [done|]. intros pd. simpl. by apply Ok.
    + intros tx' sb pd [_ Hl]%lookup_delete_Some. by apply Ok.
  - destruct (take_due_spec v now) as [[Et _]|(tx & sb & pd & _ & _ & _ & Et)]; rewrite Et in E; injection E as <- _; [done|].
    by apply delivery_insert, idle_ok.
  - destruct (v !! pr_tx r) as [sb|] eqn:Es; [|unfold push in E; rewrite Es in E; by injection E as <- _].
    rewrite (push_spec v r now sb Es) in E. destruct (bool_decide (pr_sequence r = 0%Z)) eqn:E0; [injection E as <- _; by apply delivery_insert, idle_ok|].
    apply bool_decide_eq_false in E0. destruct (sb_pending sb) as [pd|] eqn:Ep; [|destruct (sb_rate sb)]; injection E as <- _.
    + destruct (Ok _ _ _ Es Ep) as [Pk _]. apply delivery_insert; [done|]. intros ? [= <-]. split; [|done].
      by apply merge_ok, Pk.
    + apply delivery_insert; [done|]. intros ? [= <-]. split; [apply delta_new_ok|done].
    + by apply delivery_insert, idle_ok.
Qed.

(** ** The invariant of a subscription *)

(** [Q1] has been written, in one form or another; the rest of [Q] is pending. *)
Record live tx (Q1 Q2 : list (PendingQueryResponse P)) sb w : Prop := {
  live_written : Q1 ≠ [];
  live_map : vw_map w = rows_after Q1;
  live_ready : vw_ready w = true;
  live_sequences : vw_sequences w = mkSequence false (sb_next_sequence sb);
  live_started : (1 ≤ sb_next_sequence sb)%Z;
  live_pending : match sb_pending sb with
                 | None => Q2 = []
                 | Some pd => overlays (pd_changes pd) (rows_after Q1) (rows_after (Q1 ++ Q2))
                 end
}.

Lemma deliver_other tx w r : pr_tx r ≠ tx → view_deliver tx w r = w.
Proof. intros N. unfold view_deliver, view_response. rewrite screen_other by done. by destruct w. Qed.

Lemma view_deliver_in_order tx w r :
  pr_tx r = tx → in_order (pr_sequence r) (vw_sequences w) → (pr_sequence r < u64_max)%Z → NoDup (upserted (T:=T) r).*1 →
  view_deliver tx w r = mkViewWatch (apply_response view r (vw_map w)) (bool_decide (pr_sequence r = 0%Z) || vw_ready w)
                          (mkSequence false (pr_sequence r + 1)) (vw_sample_rate w).
Proof.
  intros Et Hq Hb N. unfold view_deliver, view_response. rewrite (screen_spec tx r _ Et Hq Hb). cbn beta iota.
  change (cr_sequence _) with (pr_sequence r). change (cr_deletes _) with (pr_deletes r). fold (upserted (T:=T) r).
  destruct (decide (pr_sequence r = 0%Z)) as [E|E]; [by rewrite snapshot_rows, bool_decide_true|by rewrite bulk_rows, bool_decide_false].
Qed.

(** Another number does not change what a response that is no snapshot does. *)
Lemma renumbered r n rows : pr_sequence r ≠ 0%Z → n ≠ 0%Z → apply_response view (with_sequence r n) rows = apply_response view r rows.
Proof. intros N N'. unfold apply_response. simpl. by rewrite !bool_decide_false. Qed.

Lemma snapshot_forgets r rows rows' : pr_sequence r = 0%Z → apply_response view r rows = apply_response (T:=T) view r rows'.
Proof. intros E. unfold apply_response, accumulate. by rewrite bool_decide_true. Qed.

(** The pending delta, delivered. *)
Lemma deliver_pending tx Q1 Q2 sb w pd :
  live tx Q1 Q2 sb w → sb_pending sb = Some pd → pending_ok pd → pr_tx (pd_latest pd) = tx → (sb_next_sequence sb < u64_max)%Z →
  view_deliver tx w (finish_delta pd (sb_next_sequence sb)) =
    mkViewWatch (rows_after (Q1 ++ Q2)) true (mkSequence false (sb_next_sequence sb + 1)) (vw_sample_rate w).
Proof.
  intros [_ Em Er Eq Hs Hp] Ep Ok Et Hb. rewrite Ep in Hp. destruct (finish_spec pd (sb_next_sequence sb) Ok) as (Et' & Es & _).
  rewrite view_deliver_in_order; [|by rewrite Et'|rewrite Es, Eq; by right|by rewrite Es|by apply finish_upserts].
  rewrite Es, Er, orb_true_r, Em. f_equal. apply finish_applies; [done|lia|done].
Qed.

(** Pushing to another subscription. *)
Lemma push_other tx v r now v' o w :
  pr_tx r ≠ tx → push v r now = (v', o) → v' !! tx = v !! tx ∧ view_deliver_all tx w (option_list o) = w.
Proof.
  intros N E. destruct (v !! pr_tx r) as [sb|] eqn:Es; [|unfold push in E; rewrite Es in E; by injection E as <- <-].
  rewrite (push_spec v r now sb Es) in E.
  destruct (bool_decide (pr_sequence r = 0%Z)); [|destruct (sb_pending sb); [|destruct (sb_rate sb)]]; injection E as <- <-;
    rewrite lookup_insert_ne by done; simpl; by rewrite ?deliver_other.
Qed.

(** The snapshot, at any time. *)
Lemma push_snapshot tx Q v r now sb v' o w :
  pr_tx r = tx → v !! tx = Some sb → pr_sequence r = 0%Z → NoDup (upserted (T:=T) r).*1 → push v r now = (v', o) →
  ∃ sb', v' !! tx = Some sb' ∧ live tx (Q ++ [r]) [] sb' (view_deliver_all tx w (option_list o)) ∧ sb_next_sequence sb' = 1%Z.
Proof.
  intros Et Es E0 N E. rewrite <-Et in Es. rewrite (push_spec v r now sb Es), bool_decide_true in E by done. injection E as <- <-.
  eexists. rewrite <-Et, lookup_insert_eq. split; [done|]. split; [|done]. simpl.
  rewrite view_deliver_in_order; [|done|by left|by rewrite E0|done]. rewrite E0. split; simpl; try done; [by intros [_ ?]%app_eq_nil|].
  rewrite rows_after_snoc. by apply snapshot_forgets.
Qed.

Lemma push_live tx Q1 Q2 sb v r now v' o w :
  pr_tx r = tx → delivery_ok v → v !! tx = Some sb → live tx Q1 Q2 sb w → (sb_next_sequence sb < u64_max)%Z →
  pr_sequence r ≠ 0%Z → NoDup (upserted (T:=T) r).*1 → push v r now = (v', o) →
  ∃ sb' Q1' Q2', v' !! tx = Some sb' ∧ live tx Q1' Q2' sb' (view_deliver_all tx w (option_list o)) ∧
    Q1' ++ Q2' = (Q1 ++ Q2) ++ [r] ∧ (sb_next_sequence sb' ≤ sb_next_sequence sb + 1)%Z.
Proof.
  intros Et Ok Es [Hw Em Er Eq Hs Hp] Hb N0 N E. rewrite <-Et in Es.
  rewrite (push_spec v r now sb Es), bool_decide_false in E by done.
  destruct (sb_pending sb) as [pd|] eqn:Ep; [|destruct (sb_rate sb) as [rate|]]; injection E as <- <-.
  - destruct (Ok _ _ _ Es Ep) as [Pk _]. eexists _, Q1, (Q2 ++ [r]). rewrite <-Et, lookup_insert_eq.
    split_and!; [done| |by rewrite (assoc_L (++))|simpl; lia]. split; simpl; try done.
    rewrite (assoc_L (++)), rows_after_snoc. by apply merge_spec; [apply Pk| |].
  - subst Q2. eexists _, Q1, [r]. rewrite <-Et, lookup_insert_eq, app_nil_r. split_and!; [done| |done|simpl; lia].
    split; simpl; try done. rewrite rows_after_snoc. by apply delta_new_spec.
  - subst Q2. eexists _, (Q1 ++ [r]), []. rewrite <-Et, lookup_insert_eq, !app_nil_r. split_and!; [done| |done|simpl; unfold sat_add; lia].
    simpl. rewrite view_deliver_in_order; simpl; [|done|by right|done|done]. rewrite bool_decide_false by lia.
    split; simpl; try done; [by intros [_ ?]%app_eq_nil| |unfold sat_add; f_equal; lia|unfold sat_add; lia]. rewrite renumbered, Em, rows_after_snoc by lia. done.
Qed.

(** One turn of the writer, received: what was pushed joins the pending changes, or all of
    them are written. *)
Lemma live_turn tx Q1 Q2 sb v e now v' o w :
  delivery_ok v → v !! tx = Some sb → live tx Q1 Q2 sb w → (sb_next_sequence sb < u64_max)%Z →
  keeps tx e = true → (∀ r, r ∈ pushed_of tx e → NoDup (upserted (T:=T) r).*1) → turn v e now = (v', o) →
  ∃ sb' Q1' Q2', v' !! tx = Some sb' ∧ live tx Q1' Q2' sb' (view_deliver_all tx w (option_list o)) ∧
    Q1' ++ Q2' = (Q1 ++ Q2) ++ pushed_of tx e ∧ (sb_next_sequence sb' ≤ sb_next_sequence sb + 1)%Z.
Proof.
  intros Ok Es L Hb K N E. destruct e as [c| |r]; simpl in E.
  - injection E as <- <-. simpl. rewrite app_nil_r. destruct L as [Hw Em Er Eq Hs Hp].
    destruct c as [tx' rate|tx' rate|tx']; simpl in K |- *.
    + apply negb_true_iff, bool_decide_eq_false in K. exists sb, Q1, Q2. rewrite lookup_insert_ne by done. split_and!; [done|done|done|lia].
    + destruct (decide (tx' = tx)) as [->|Ne].
      * rewrite Es. eexists _, Q1, Q2. rewrite lookup_insert_eq. split_and!; [done|by split|done|simpl; lia].
      * exists sb, Q1, Q2. split_and!; [|done|done|lia]. destruct (v !! tx'); [by rewrite lookup_insert_ne|done].
    + apply negb_true_iff, bool_decide_eq_false in K. exists sb, Q1, Q2. rewrite lookup_delete_ne by done. split_and!; [done|done|done|lia].
  - simpl. rewrite app_nil_r. destruct (take_due_spec v now) as [[Et _]|(tx' & sb' & pd & Es' & _ & Ep & Et)]; rewrite Et in E; injection E as <- <-.
    { exists sb, Q1, Q2. split_and!; [done|done|done|lia]. }
    destruct (Ok _ _ _ Es' Ep) as [Pk Ptx]. simpl. destruct (decide (tx' = tx)) as [->|Ne].
    + rewrite Es in Es'. injection Es' as <-. rewrite (deliver_pending _ Q1 Q2 sb w pd L Ep Pk Ptx Hb).
      eexists _, (Q1 ++ Q2), []. rewrite lookup_insert_eq, app_nil_r. split_and!; [done| |done|simpl; unfold sat_add; lia].
      destruct L as [Hw _ _ _ Hs _]. split; simpl; try done; [by intros [? _]%app_eq_nil|unfold sat_add; f_equal; lia|unfold sat_add; lia].
    + rewrite deliver_other by (destruct (finish_spec pd (sb_next_sequence sb') Pk) as (-> & _); congruence).
      exists sb, Q1, Q2. rewrite lookup_insert_ne by done. split_and!; [done|done|done|lia].
  - destruct (decide (pr_tx r = tx)) as [<-|Ne].
    + simpl in N |- *. rewrite bool_decide_true in N |- * by done. specialize (N r ltac:(left)).
      destruct (decide (pr_sequence r = 0%Z)) as [E0|E0].
      * destruct (push_snapshot _ (Q1 ++ Q2) v r now sb v' o w eq_refl Es E0 N E) as (sb' & Es' & L' & Hn).
        exists sb', ((Q1 ++ Q2) ++ [r]), []. rewrite app_nil_r. split_and!; [done|done|done|]. destruct L. lia.
      * by apply (push_live _ Q1 Q2 sb v r now v' o w eq_refl Ok Es L Hb E0 N E).
    + simpl. rewrite bool_decide_false, app_nil_r by done. destruct (push_other tx v r now v' o w Ne E) as [-> ->].
      exists sb, Q1, Q2. split_and!; [done|done|done|lia].
Qed.

(** ** Runs *)

(** The responses pushed are well formed: the ids of a response are distinct. *)
Definition distinct_upserts Q : Prop := ∀ r, r ∈ Q → NoDup (upserted (T:=T) r).*1.

Definition kept tx (events : list (WriterEvent P Rate * Z)) : Prop := Forall (λ event, keeps tx event.1 = true) events.

Lemma live_run tx events Q1 Q2 sb v w :
  delivery_ok v → v !! tx = Some sb → live tx Q1 Q2 sb w → (sb_next_sequence sb + Z.of_nat (length events) < u64_max)%Z →
  kept tx events → distinct_upserts (pushed tx events) →
  let '(v', written) := writer_run v events in
  delivery_ok v' ∧ ∃ sb' Q1' Q2', v' !! tx = Some sb' ∧ live tx Q1' Q2' sb' (view_deliver_all tx w written) ∧
    Q1' ++ Q2' = (Q1 ++ Q2) ++ pushed tx events ∧ (sb_next_sequence sb' ≤ sb_next_sequence sb + Z.of_nat (length events))%Z.
Proof.
  revert Q1 Q2 sb v w. induction events as [|[e now] events IH]; intros Q1 Q2 sb v w Ok Es L Hb K N.
  { simpl. split; [done|]. exists sb, Q1, Q2. rewrite app_nil_r. simpl in Hb. split_and!; [done|done|done|lia]. }
  inversion K as [|? ? K1 K2]; subst. simpl in K1, Hb |- *. destruct (turn v e now) as [v1 o] eqn:E.
  destruct (live_turn tx Q1 Q2 sb v e now v1 o w Ok Es L ltac:(lia) K1) as (sb1 & Q3 & Q4 & Es1 & L1 & EQ & Hn); [|done|].
  { intros r Hr. apply N. unfold pushed. simpl. apply elem_of_app. by left. }
  assert (distinct_upserts (pushed tx events)) as N2 by (intros r Hr; apply N; unfold pushed; simpl; apply elem_of_app; by right).
  specialize (IH Q3 Q4 sb1 v1 _ (turn_ok _ _ _ _ _ Ok E) Es1 L1 ltac:(lia) K2 N2).
  destruct (writer_run v1 events) as [v2 written]. destruct IH as (Ok2 & sb2 & Q5 & Q6 & Es2 & L2 & EQ2 & Hn2).
  split; [done|]. exists sb2, Q5, Q6. unfold view_deliver_all in *. rewrite foldl_app. split_and!; [done|done| |lia].
  rewrite EQ2, EQ. unfold pushed. simpl. by rewrite <-!(assoc_L (++)).
Qed.

(** Until the snapshot is pushed. *)
Lemma waiting_turn tx sb v e now v' o w :
  delivery_ok v → v !! tx = Some sb → sb_pending sb = None → keeps tx e = true → pushed_of tx e = [] → turn v e now = (v', o) →
  view_deliver_all tx w (option_list o) = w ∧ ∃ sb', v' !! tx = Some sb' ∧ sb_pending sb' = None.
Proof.
  intros Ok Es Ep K Hq E. destruct e as [c| |r]; simpl in E.
  - injection E as <- <-. split; [done|]. destruct c as [tx' rate|tx' rate|tx']; simpl in K |- *.
    + apply negb_true_iff, bool_decide_eq_false in K. exists sb. by rewrite lookup_insert_ne.
    + destruct (v !! tx') as [sb1|] eqn:E1; [|by exists sb]. destruct (decide (tx' = tx)) as [->|Ne].
      * eexists. rewrite lookup_insert_eq. split; [done|]. simpl. congruence.
      * exists sb. by rewrite lookup_insert_ne.
    + apply negb_true_iff, bool_decide_eq_false in K. exists sb. by rewrite lookup_delete_ne.
  - destruct (take_due_spec v now) as [[Et _]|(tx' & sb' & pd & Es' & _ & Ep' & Et)]; rewrite Et in E; injection E as <- <-; [split; [done|by exists sb]|].
    assert (tx' ≠ tx) as Ne by (intros ->; congruence). destruct (Ok _ _ _ Es' Ep') as [Pk Ptx]. simpl. split.
    + apply deliver_other. destruct (finish_spec pd (sb_next_sequence sb') Pk) as (-> & _). congruence.
    + exists sb. by rewrite lookup_insert_ne.
  - simpl in Hq. case_bool_decide as Ne; [done|]. destruct (push_other tx v r now v' o w Ne E) as [-> ->]. split; [done|by exists sb].
Qed.

(** From the control message on: nothing until the snapshot, and from there the invariant. *)
Lemma opened_run tx events sb v w :
  delivery_ok v → v !! tx = Some sb → sb_pending sb = None → (1 + Z.of_nat (length events) < u64_max)%Z →
  kept tx events → distinct_upserts (pushed tx events) → (∀ r, head (pushed tx events) = Some r → pr_sequence r = 0%Z) →
  let '(v', written) := writer_run v events in
  delivery_ok v' ∧ ∃ sb', v' !! tx = Some sb' ∧
    if decide (pushed tx events = []) then view_deliver_all tx w written = w ∧ sb_pending sb' = None
    else ∃ Q1 Q2, live tx Q1 Q2 sb' (view_deliver_all tx w written) ∧ Q1 ++ Q2 = pushed tx events ∧ (sb_next_sequence sb' ≤ 1 + Z.of_nat (length events))%Z.
Proof.
  revert sb v. induction events as [|[e now] events IH]; intros sb v Ok Es Ep Hb K N H0'.
  { simpl. split; [done|]. by exists sb. }
  inversion K as [|? ? K1 K2]; subst. cbn [length] in Hb. simpl in K1 |- *.
  destruct (turn v e now) as [v1 o] eqn:E. pose proof (turn_ok _ _ _ _ _ Ok E) as Ok1.
  assert (pushed tx ((e, now) :: events) = pushed_of tx e ++ pushed tx events) as Epush by done. rewrite Epush in *.
  assert (distinct_upserts (pushed tx events)) as N2 by (intros r Hr; apply N, elem_of_app; by right).
  destruct (decide (pushed_of tx e = [])) as [Hq|Hq].
  - destruct (waiting_turn tx sb v e now v1 o w Ok Es Ep K1 Hq E) as [Ew (sb1 & Es1 & Ep1)]. rewrite Hq in *.
    specialize (IH sb1 v1 Ok1 Es1 Ep1 ltac:(lia) K2 N2 H0'). destruct (writer_run v1 events) as [v2 written].
    destruct IH as (Ok2 & sb2 & Es2 & R). split; [done|]. exists sb2. split; [done|]. simpl app in *.
    unfold view_deliver_all in *. rewrite foldl_app, Ew. case_decide; [done|]. destruct R as (Q1 & Q2 & ? & ? & ?).
    exists Q1, Q2. split_and!; [done|done|]. cbn [length]. lia.
  - destruct e as [c| |r]; [done..|]. simpl in *. case_bool_decide as Et; [|done].
    destruct (push_snapshot tx [] v r now sb v1 o w Et Es (H0' r eq_refl) (N r ltac:(left)) E) as (sb1 & Es1 & L1 & Hn).
    pose proof (live_run tx events ([] ++ [r]) [] sb1 v1 _ Ok1 Es1 L1 ltac:(lia) K2 N2) as R.
    destruct (writer_run v1 events) as [v2 written]. destruct R as (Ok2 & sb2 & Q1 & Q2 & Es2 & L2 & EQ & Hn2).
    split; [done|]. exists sb2. split; [done|]. rewrite decide_False by done. exists Q1, Q2. unfold view_deliver_all in *. rewrite foldl_app.
    split_and!; [done|done|]. cbn [length]. lia.
Qed.
End writer.

(** ** The responses of a view's session

    A view without a window over a changing source: the snapshot it opens with, and the
    responses to the changes. *)
Section session.
Context {P V T : Type} `{!CellMap (Item P)} `{Transport P V T} `{!CellMapMany T}.
Implicit Types (s : QuerySubscriptionState P) (m : gmap string (Item P)) (d : MapDiff (Item P)) (Q : list (PendingQueryResponse P)).

Fixpoint session_run tx s (ds : list (MapDiff (Item P))) : QuerySubscriptionState P * list (PendingQueryResponse P) :=
  match ds with
  | [] => (s, [])
  | d :: ds =>
      let '(s, o) := apply_source_diff s d tx in
      let '(s, Q) := session_run tx s ds in
      (s, option_list o ++ Q)
  end.

Definition view_session tx (entries : list (string * Item P)) (ds : list (MapDiff (Item P))) : list (PendingQueryResponse P) :=
  let '(s, o) := apply_source_diff (sub_default None) (Initial entries) tx in option_list o ++ (session_run tx s ds).2.

(** The states of the source, and changes that are changes of it. *)
Fixpoint source_states m (ds : list (MapDiff (Item P))) : list (gmap string (Item P)) :=
  m :: match ds with [] => [] | d :: ds => source_states (apply_diff d m) ds end.
Definition source_after m (ds : list (MapDiff (Item P))) : gmap string (Item P) := foldl (λ m d, apply_diff d m) m ds.
Fixpoint changes_fine m (ds : list (MapDiff (Item P))) : Prop :=
  match ds with [] => True | d :: ds => diff_fine m d ∧ changes_fine (apply_diff d m) ds end.

Lemma describes_distinct r s tx : well_keyed (qs_all_items s) → describes r s tx → NoDup (upserted (T:=T) r).*1.
Proof. intros W (_ & _ & _ & _ & ids & ND & Eu). unfold upserted. rewrite Eu. by apply upserts_spec. Qed.

Lemma source_states_head m ds : m ∈ source_states m ds.
Proof. destruct ds; left. Qed.

(** Every part of the responses leads to a state of the source, all of them to the last. *)
Lemma session_run_rows tx s m ds :
  is_unwindowed s = true → qs_all_items s = m → well_keyed m → qs_sequence s ≠ 0%Z → (0 ≤ qs_sequence s)%Z → changes_fine m ds →
  let Q := (session_run tx s ds).2 in
  (∀ r, r ∈ Q → pr_tx r = tx ∧ NoDup (upserted (T:=T) r).*1) ∧
  foldl (λ rows r, apply_response view r rows) (view <$> m) Q = view <$> source_after m ds ∧
  ∀ Q1 Q2, Q = Q1 ++ Q2 → ∃ m', m' ∈ source_states m ds ∧ foldl (λ rows r, apply_response view r rows) (view <$> m) Q1 = view <$> m'.
Proof.
  revert s m. induction ds as [|d ds IH]; intros s m Hu Ea W N0 Hpos F.
  { simpl. split_and!; [by intros ? ?%elem_of_nil|done|]. intros Q1 Q2 [-> ->]%eq_sym%app_eq_nil. exists m. split; [left|done]. }
  destruct F as [Fd F]. pose proof (source_step tx m s d Hu Ea W N0 Fd) as R. cbn [session_run].
  destruct (apply_source_diff s d tx) as [s1 o] eqn:E. destruct R as (Hu1 & Ea1 & W1 & R).
  assert (qs_sequence s1 ≠ 0 ∧ 0 ≤ qs_sequence s1)%Z as [N1 Hpos1].
  { destruct o as [r|]; [|by destruct R as [_ ->]]. destruct R as (_ & Eseq & -> & _). unfold sat_add, u64_max. destruct Eseq as [-> | ->]; lia. }
  specialize (IH s1 (apply_diff d m) Hu1 Ea1 W1 N1 Hpos1 F). destruct (session_run tx s1 ds) as [s2 Q]. simpl in IH |- *.
  destruct IH as (IHr & IHa & IHp). destruct o as [r|]; simpl.
  - destruct R as (D & _ & _ & Erows). split_and!.
    + intros r' [->|Hr']%elem_of_cons; [|by apply IHr]. split; [by destruct D|]. apply (describes_distinct r s1 tx); [by rewrite Ea1|done].
    + by rewrite Erows.
    + intros [|r1 Q1] Q2 EQ; [exists m; split; [left|done]|]. simplify_eq/=. rewrite Erows.
      destruct (IHp Q1 Q2 eq_refl) as (m' & Hm' & Em'). exists m'. split; [by right|done].
  - destruct R as [Em _]. rewrite Em in IHa, IHp |- *. split_and!; [done|done|].
    intros Q1 Q2 EQ. destruct (IHp Q1 Q2 EQ) as (m' & Hm' & Em'). exists m'. split; [by right|done].
Qed.

Lemma view_session_rows tx m entries ds :
  (∀ k x, (k, x) ∈ entries ↔ m !! k = Some x) → NoDup entries.*1 → well_keyed m → changes_fine m ds →
  let Q := view_session tx entries ds in
  (∃ r Q', Q = r :: Q' ∧ pr_sequence r = 0%Z) ∧ (∀ r, r ∈ Q → pr_tx r = tx ∧ NoDup (upserted (T:=T) r).*1) ∧
  rows_after Q = view <$> source_after m ds ∧
  ∀ Q1 Q2, Q = Q1 ++ Q2 → Q1 ≠ [] → ∃ m', m' ∈ source_states m ds ∧ rows_after Q1 = view <$> m'.
Proof.
  intros Hent ND Wk F. unfold view_session. destruct (apply_source_diff (sub_default None) (Initial entries) tx) as [s o] eqn:E.
  pose proof (opening tx m entries Hent ND Wk) as R. rewrite E in R. destruct R as (Ea & Eu & Eq & r & -> & D & E0 & Erows).
  assert (rows_after [r] = view <$> m) as E1 by done.
  destruct (session_run_rows tx s m ds Eu Ea Wk) as (Hr & Ha & Hp); [by rewrite Eq|by rewrite Eq|done|].
  cbn [option_list app]. split_and!.
  - by exists r, (session_run tx s ds).2.
  - intros r' [->|Hr']%elem_of_cons; [|by apply Hr]. split; [by destruct D|]. apply (describes_distinct r s tx); [by rewrite Ea|done].
  - unfold rows_after in *. simpl in *. by rewrite E1.
  - intros [|r1 Q1] Q2 EQ NQ; [done|]. simplify_eq/=. unfold rows_after in *. simpl in *. rewrite E1. by apply (Hp Q1 Q2).
Qed.
End session.
