(* ===== verification/ViewSamplingTheorems.v ===== *)
(** * Theorems about sampled views *)

From stdpp Require Import base strings numbers option countable gmap sets list.
From S2P Require Import Prelude Order GraphTypes EdgeIds GraphWatch WatchProof ClientSession ClientWatch SessionProof SessionRun Connection ViewSampling ViewSamplingProof Fixtures MapWindow.

(** ** Wake-ups *)
Section wake.
Context {P V T Rate : Type} `{Transport P V T} `{!CellMapMany T}.
Context (interval : Rate → Z) (instant_max : Z) (subscriptions_order : gmap string (Subscription P Rate) → list (string * Subscription P Rate)).
Context (order_spec : ∀ v, subscriptions_order v ≡ₚ map_to_list v).
Implicit Types (r : PendingQueryResponse P) (sb : Subscription P Rate) (v : gmap string (Subscription P Rate)) (e : WriterEvent P Rate) (tx : string) (now : Z).

Abbreviation turn := (writer_turn interval instant_max subscriptions_order).
Abbreviation run := (writer_run interval instant_max subscriptions_order).
Abbreviation due := (is_due interval instant_max).

Definition deadlines v : list Z :=
  omap (λ entry : string * Subscription P Rate, _ ← sb_pending entry.2; sb_deadline interval instant_max entry.2) (subscriptions_order v).

Lemma min_deadline_spec (ds : list Z) (o : option Z) :
  match foldl min_deadline o ds with
  | None => o = None ∧ ds = []
  | Some d => (o = Some d ∨ d ∈ ds) ∧ (∀ d', d' ∈ ds → (d ≤ d')%Z) ∧ ∀ d', o = Some d' → (d ≤ d')%Z
  end.
Proof.
  revert o. induction ds as [|d ds IH]; intros o; simpl.
  - destruct o as [d|]; [|done]. split_and!; [by left|by intros ? ?%elem_of_nil|intros ? [= ->]; lia].
  - specialize (IH (min_deadline o d)). destruct (foldl min_deadline (min_deadline o d) ds) as [d'|]; [|by destruct o, IH].
    destruct IH as (Hin & Hle & Ho). assert (∀ d'', min_deadline o d = Some d'' → (d'' ≤ d)%Z ∧ (Some d'' = o ∨ d'' = d) ∧ ∀ d3, o = Some d3 → (d'' ≤ d3)%Z) as M.
    { unfold min_deadline. destruct o as [d1|]; intros ? [= <-]; [|split_and!; [lia|by right|done]].
      split_and!; [lia|destruct (Z.min_spec d1 d) as [[_ ->]|[_ ->]]; auto|intros ? [= <-]; lia]. }
    assert (∃ d'', min_deadline o d = Some d'') as [d'' E''] by (unfold min_deadline; destruct o; eauto).
    destruct (M d'' E'') as (M1 & M2 & M3). specialize (Ho d'' E''). split_and!.
    + destruct Hin as [Hin|Hin]; [|right; by right]. assert (d'' = d') as -> by congruence. destruct M2 as [M2|M2]; [by left|right; rewrite M2; left].
    + intros d3 [->|Hd3]%elem_of_cons; [lia|by apply Hle].
    + intros d3 Hd3. specialize (M3 d3 Hd3). lia.
Qed.

Lemma due_deadline now sb :
  due now sb = true ↔ ∃ d, (_ ← sb_pending sb; sb_deadline interval instant_max sb) = Some d ∧ (d ≤ now)%Z.
Proof.
  unfold is_due. destruct (sb_pending sb) as [pd|]; simpl; [|by split; [|intros (d & ? & _)]].
  destruct (sb_deadline interval instant_max sb) as [d|]; [|by split; [|intros (d & ? & _)]].
  rewrite Z.leb_le. split; [by exists d|by intros (d' & [= ->] & ?)].
Qed.

(** The writer sleeps until exactly the first instant at which there is something to take. *)
Lemma wakes_when_due v now :
  (take_due interval instant_max subscriptions_order v now).2 = None ↔
  match next_deadline interval instant_max subscriptions_order v with None => True | Some d => (now < d)%Z end.
Proof using order_spec.
  assert ((∀ tx sb, v !! tx = Some sb → due now sb = false) ↔
    match next_deadline interval instant_max subscriptions_order v with None => True | Some d => (now < d)%Z end) as D.
  { unfold next_deadline. pose proof (min_deadline_spec (deadlines v) None) as M. unfold deadlines in *.
    set (ds := omap _ _) in *. assert (∀ d, d ∈ ds ↔ ∃ tx sb, v !! tx = Some sb ∧ (_ ← sb_pending sb; sb_deadline interval instant_max sb) = Some d) as Hds.
    { intros d. unfold ds. rewrite list_elem_of_omap. split.
      - intros ([tx sb] & Hin & E). rewrite order_spec, elem_of_map_to_list in Hin. by exists tx, sb.
      - intros (tx & sb & El & E). exists (tx, sb). by rewrite order_spec, elem_of_map_to_list. }
    destruct (foldl min_deadline None ds) as [d|].
    - destruct M as ([?|Hin] & Hle & _); [done|]. split.
      + intros A. apply Hds in Hin as (tx & sb & El & E). specialize (A tx sb El). apply not_true_iff_false in A.
        destruct (Z.le_gt_cases d now) as [L|L]; [|lia]. exfalso. apply A, due_deadline. eauto.
      + intros L tx sb El. apply not_true_iff_false. intros (d' & E & L')%due_deadline.
        assert (d' ∈ ds) as Hd' by (apply Hds; eauto). specialize (Hle d' Hd'). lia.
    - split; [done|]. intros _ tx sb El. apply not_true_iff_false. intros (d' & E & L')%due_deadline.
      destruct M as [_ M]. assert (d' ∈ ds) as Hd' by (apply Hds; eauto). rewrite M in Hd'. by apply elem_of_nil in Hd'. }
  rewrite <-D. destruct (take_due_spec interval instant_max subscriptions_order order_spec v now) as [[Et A]|(tx & sb & pd & El & Ed & _ & Et)]; rewrite Et; simpl.
  - by split.
  - split; [done|]. intros A. rewrite (A tx sb El) in Ed. done.
Qed.

(** Whatever is written is a snapshot, of a view without a rate, or comes a whole interval
    after the last response of the view. *)
Lemma written_spaced v e now v' r sb rate :
  turn v e now = (v', Some r) → delivery_ok v → v !! pr_tx r = Some sb → sb_rate sb = Some rate →
  ((∃ r', e = WriterView r' ∧ pr_sequence r' = 0%Z) ∨ (sb_last_emit sb + interval rate ≤ now)%Z) ∧
  ∃ sb', v' !! pr_tx r = Some sb' ∧ sb_last_emit sb' = now.
Proof using order_spec.
  intros E Ok Es Er. destruct e as [c| |r']; simpl in E; [done| |].
  - destruct (take_due_spec interval instant_max subscriptions_order order_spec v now) as [[Et _]|(tx & sb1 & pd & El & Ed & Ep & Et)];
      rewrite Et in E; [done|]. injection E as <- <-. destruct (Ok tx sb1 pd El Ep) as [Pk Ptx].
    destruct (finish_spec pd (sb_next_sequence sb1) Pk) as (Et' & _). rewrite Et', Ptx in *. simplify_eq. rewrite lookup_insert_eq. split; [|by eexists].
    right. apply due_deadline in Ed as (d & Ed & L). rewrite Ep in Ed. simpl in Ed. unfold sb_deadline, checked_add in Ed. rewrite Er in Ed.
    destruct (Z.ltb_spec instant_max (sb_last_emit sb + interval rate)); [done|]. injection Ed as <-. lia.
  - destruct (v !! pr_tx r') as [sb1|] eqn:Es1; [|unfold push in E; by rewrite Es1 in E]. rewrite (push_spec v r' now sb1 Es1) in E.
    destruct (bool_decide (pr_sequence r' = 0%Z)) eqn:E0.
    + injection E as <- <-. rewrite lookup_insert_eq. split; [|by eexists]. left. apply bool_decide_eq_true in E0. eauto.
    + destruct (sb_pending sb1); [done|]. destruct (sb_rate sb1) eqn:Er1; [done|]. injection E as <- <-. simpl in Es. congruence.
Qed.

(** Woken often enough, the writer leaves nothing due. *)
Lemma wake_all v now :
  ∃ n, n ≤ size v ∧ let v' := (run v (replicate n (WriterDeadline, now))).1 in
    ∀ tx sb, v' !! tx = Some sb → due now sb = false ∧ (v !! tx = Some sb ∨ sb_pending sb = None).
Proof using order_spec.
  assert (∃ n, n ≤ size (filter (λ entry : string * Subscription P Rate, due now entry.2 = true) v) ∧
    let v' := (run v (replicate n (WriterDeadline, now))).1 in
    ∀ tx sb, v' !! tx = Some sb → due now sb = false ∧ (v !! tx = Some sb ∨ sb_pending sb = None)) as (n & Hn & A);
    [|exists n; split; [|done]; etrans; [exact Hn|apply map_subseteq_size, map_filter_subseteq]].
  remember (size (filter _ v)) as k eqn:Ek. revert v Ek. induction k as [|k IH]; intros v Ek.
  - exists 0. split; [done|]. simpl. intros tx sb El. split; [|by left]. symmetry in Ek. apply map_size_empty_inv in Ek.
    apply not_true_iff_false. intros Hd. apply (map_filter_empty_not_lookup _ _ tx sb Ek); done.
  - destruct (take_due_spec interval instant_max subscriptions_order order_spec v now) as [[_ A]|(tx & sb & pd & El & Ed & Ep & Et)].
    { exfalso. rewrite (proj2 (map_empty_filter _ v)) in Ek; [by rewrite map_size_empty in Ek|]. intros tx sb El Hd. simpl in Hd. by rewrite (A tx sb El) in Hd. }
    set (sb' := mkSubscription (sb_rate sb) (sat_add (sb_next_sequence sb) 1) now None) in *.
    assert (due now sb' = false) as Hd' by done.
    destruct (IH (<[tx := sb']> v)) as (n & Hn & A).
    { rewrite map_filter_insert_False by (simpl; by rewrite Hd'). rewrite map_filter_delete, map_size_delete_Some; [by rewrite <-Ek|].
      exists sb. by apply map_lookup_filter_Some. }
    exists (S n). split; [lia|]. cbn [replicate writer_run writer_turn]. rewrite Et.
    destruct (run (<[tx := sb']> v) (replicate n (WriterDeadline, now))) as [v2 written]. simpl in A |- *.
    intros tx1 sb1 El1. destruct (A tx1 sb1 El1) as [A1 A2]. split; [done|].
    destruct (decide (tx = tx1)) as [->|N]; [rewrite lookup_insert_eq in A2|rewrite lookup_insert_ne in A2 by done; done].
    right. destruct A2 as [[= <-]|A2]; done.
Qed.

(** A turn adds at most one subscription. *)
Lemma turn_size v e now : size (turn v e now).1 ≤ S (size v).
Proof using order_spec.
  assert (∀ v tx (sb : Subscription P Rate), size (<[tx := sb]> v) ≤ S (size v)) as I by (intros v0 tx sb; rewrite map_size_insert; case_match; simpl; lia).
  destruct e as [[tx rate|tx rate|tx]| |r]; simpl.
  - apply I.
  - destruct (v !! tx); [apply I|lia].
  - rewrite map_size_delete. case_match; simpl; lia.
  - destruct (take_due_spec interval instant_max subscriptions_order order_spec v now) as [[-> _]|(tx & sb & pd & _ & _ & _ & ->)]; simpl; [lia|apply I].
  - destruct (v !! pr_tx r) as [sb|] eqn:Es; [rewrite (push_spec v r now sb Es)|unfold push; rewrite Es; simpl; lia].
    destruct (bool_decide _); [apply I|]. destruct (sb_pending sb); [apply I|]. destruct (sb_rate sb); apply I.
Qed.

Lemma run_size v events : size (run v events).1 ≤ length events + size v.
Proof using order_spec.
  revert v. induction events as [|[e now] events IH]; intros v; simpl; [lia|].
  pose proof (turn_size v e now) as Ht. destruct (turn v e now) as [v1 o]. simpl in Ht. specialize (IH v1).
  destruct (run v1 events) as [v2 written]. simpl in *. lia.
Qed.

Lemma writer_run_ok v events : delivery_ok v → delivery_ok (run v events).1.
Proof.
  revert v. induction events as [|[e now] events IH]; intros v Ok; simpl; [done|].
  destruct (turn v e now) as [v1 o] eqn:E. apply (turn_ok _ _ _ order_spec _ _ _ _ _ Ok), IH in E.
  by destruct (run v1 events) as [v2 written].
Qed.
End wake.

(** C28: A sampled view catches up: the writer of a connection holds back, merges and renumbers
    the responses of a view's session; whatever else it does between its turns, the watch of
    the client that receives what is written is ready, holds exactly the rows of some state
    the source has been in, and holds those of the source as it is when nothing is pending;
    otherwise, once the deadline of the pending changes has passed, waking the writer often
    enough writes them, and the watch has caught up. *)
Theorem sampled_view_follows_the_source {P V T Rate : Type} `{!CellMap (Item P), Transport P V T, !CellMapMany T}
    (interval : Rate → Z) (instant_max : Z) subscriptions_order tx (m : gmap string (Item P)) entries ds
    (before events : list (WriterEvent P Rate * Z)) rate now (w : ViewMapWatch T Rate) :
  (∀ v, subscriptions_order v ≡ₚ map_to_list v) →
  (∀ k x, (k, x) ∈ entries ↔ m !! k = Some x) → NoDup entries.*1 → well_keyed m → changes_fine m ds →
  kept tx events → pushed tx events = view_session tx entries ds →
  (Z.of_nat (length before) + 2 * Z.of_nat (length events) + 3 < u64_max)%Z →
  let run := writer_run interval instant_max subscriptions_order in
  let source := source_after m ds in
  let v := control (run delivery_default before).1 (ControlSubscribe tx rate) now in
  let '(v', written) := run v events in
  let w' := view_deliver_all tx w written in
  vw_ready w' = true ∧ (∃ m', m' ∈ source_states m ds ∧ vw_map w' = view <$> m') ∧
  ∃ sb, v' !! tx = Some sb ∧
  (sb_pending sb = None → vw_map w' = view <$> source) ∧
  ∀ deadline now', sb_deadline interval instant_max sb = Some deadline → (deadline ≤ now')%Z →
    ∃ n, vw_map (view_deliver_all tx w' (run v' (replicate n (WriterDeadline, now'))).2) = view <$> source.
Proof.
  intros Ho Hent ND Wk F K Hp Hb run source v.
  destruct (view_session_rows (T:=T) tx m entries ds Hent ND Wk F) as ((r0 & Q0 & EQ0 & E0) & Hr & Ha & Hpre).
  set (sb0 := mkSubscription rate 0 now None : Subscription P Rate).
  assert (v !! tx = Some sb0) as Ev by apply lookup_insert_eq.
  assert (delivery_ok v) as Ok.
  { apply delivery_insert, idle_ok. apply writer_run_ok; [done|]. intros tx0 sb1 pd E. unfold delivery_default in E. by rewrite lookup_empty in E. }
  assert (distinct_upserts (T:=T) (pushed tx events)) as N by (rewrite Hp; intros r Hin; by apply Hr).
  pose proof (opened_run interval instant_max subscriptions_order Ho tx events sb0 v w Ok Ev eq_refl ltac:(lia) K N) as R.
  pose proof (run_size interval instant_max subscriptions_order Ho v events) as Sz.
  assert (size v ≤ S (length before)) as Sv.
  { etrans; [apply (turn_size interval instant_max subscriptions_order Ho _ (WriterControl (ControlSubscribe tx rate)) now)|].
    apply le_n_S. etrans; [by apply run_size|]. unfold delivery_default. rewrite map_size_empty. lia. }
  fold run in R, Sz. destruct (run v events) as [v' written]. simpl in Sz. rewrite Hp, EQ0 in R.
  destruct R as (Ok' & sb & Es & R); [by intros r [= <-]|]. rewrite decide_False in R by done. destruct R as (Q1 & Q2 & L & EQ & Hn).
  rewrite EQ0 in *. intros w'. fold w' in L. destruct (Hpre Q1 Q2 (eq_sym EQ)) as (m1 & Hm1 & E1).
  { by destruct L. }
  split; [by destruct L|]. split; [exists m1; split; [done|]; rewrite <-E1; by destruct L|]. exists sb. split; [done|]. split.
  - intros Ep. destruct L as [_ Em _ _ _ Lp]. rewrite Ep in Lp. subst Q2. rewrite app_nil_r in EQ. by rewrite Em, EQ.
  - intros deadline now' Ed Hd.
    destruct (wake_all interval instant_max subscriptions_order Ho v' now') as (n & Hsz & A). exists n.
    set (wakes := replicate n (WriterDeadline, now')) in *.
    assert (pushed tx wakes = []) as Hw by (unfold wakes; clear; induction n; done).
    assert (kept tx wakes) as Kw by (unfold wakes; clear; induction n; by constructor).
    assert (length wakes = n) as Ln by apply length_replicate.
    pose proof (live_run interval instant_max subscriptions_order Ho tx wakes Q1 Q2 sb v' w' Ok' Es L ltac:(lia) Kw) as R.
    rewrite Hw in R. fold run in A, R. destruct (run v' wakes) as [v2 written2]. simpl in A |- *.
    destruct R as (_ & sb2 & Q3 & Q4 & Es2 & L2 & EQ2 & _); [by intros ? ?%elem_of_nil|].
    destruct L2 as [_ Em2 _ _ _ Lp2]. destruct (A tx sb2 Es2) as [Nd Old].
    assert (sb_pending sb2 = None) as Ep2.
    { destruct Old as [Old|?]; [|done]. rewrite Es in Old. injection Old as <-.
      destruct (sb_pending sb) as [pd|] eqn:Ep; [|done]. exfalso. apply not_true_iff_false in Nd. apply Nd, due_deadline.
      exists deadline. by rewrite Ep. }
    rewrite Ep2 in Lp2. subst Q4. rewrite !app_nil_r in EQ2. by rewrite Em2, EQ2, EQ.
Qed.

(** Thirty a second, in milliseconds; a node goes and another takes its place. *)
Module Vx.
Definition interval (fps : Z) : Z := (1000 / fps)%Z.
Definition instant_max : Z := 1000000.
Definition changes : list (MapDiff Row) := [Cx.removal; Insert "n5" (Fx.node "n5")].
Definition events : list (WriterEvent Fx.Payload Z * Z) :=
  (λ r, (WriterView r, 5%Z)) <$> view_session "tx" Cx.entries changes.
Definition delivery : gmap string (Subscription Fx.Payload Z) := control delivery_default (ControlSubscribe "tx" (Some 30%Z)) 0.
Definition after : gmap string (Subscription Fx.Payload Z) * list (PendingQueryResponse Fx.Payload) :=
  writer_run interval instant_max map_to_list delivery events.
End Vx.

Lemma sampled_view_follows_the_source_witness :
  let w : ViewMapWatch Row Z := view_watch_new (Some 30%Z) in
  let w' := view_deliver_all "tx" w Vx.after.2 in
  vw_ready w' = true ∧ ∃ n, vw_map (view_deliver_all "tx" w'
    (writer_run Vx.interval Vx.instant_max map_to_list Vx.after.1 (replicate n (WriterDeadline, 40%Z))).2)
      = source_after Cx.source Vx.changes.
Proof.
  intros w w'. pose proof (sampled_view_follows_the_source (Rate:=Z) Vx.interval Vx.instant_max map_to_list "tx" Cx.source Cx.entries Vx.changes
    [] Vx.events (Some 30%Z) 0 w) as R.
  assert (∃ sb, Vx.after.1 !! "tx" = Some sb ∧ sb_deadline Vx.interval Vx.instant_max sb = Some 38%Z) as (sb & Es & Ed).
  { eexists. split; [vm_compute; reflexivity|vm_compute; reflexivity]. }
  cbv zeta in R. change (control _ _ _) with Vx.delivery in R. change (writer_run _ _ _ Vx.delivery Vx.events) with Vx.after in R.
  destruct Vx.after as [v' written] eqn:Ea. unfold w'; simpl in Es |- *. destruct R as (Rr & _ & sb' & Es' & _ & Rn).
  - done.
  - intros k x. unfold Cx.source. apply elem_of_list_to_map. apply (bool_decide_eq_true_1 _). vm_compute. reflexivity.
  - apply (bool_decide_eq_true_1 _). vm_compute. reflexivity.
  - exact cx_keyed.
  - split_and!; try done; vm_compute; done.
  - apply (bool_decide_eq_true_1 _). vm_compute. reflexivity.
  - vm_compute. reflexivity.
  - vm_compute. reflexivity.
  - split; [done|]. rewrite Es in Es'. injection Es' as <-. destruct (Rn 38%Z 40%Z Ed ltac:(lia)) as [n Hn]. exists n.
    rewrite Hn. apply map_fmap_id.
Defined.

(** C29: Sampling paces a view: in any state a writer reaches, a response of a view with a
    rate is written as the snapshot, or when a whole interval has passed since the view's last
    one, which the turn records; and the writer sleeps exactly until there is something to
    take: waking it writes a response if and only if the deadline it computes has passed. *)
Theorem sampling_paces_the_view {P V T Rate : Type} `{Transport P V T, !CellMapMany T}
    (interval : Rate → Z) (instant_max : Z) subscriptions_order (before : list (WriterEvent P Rate * Z)) :
  (∀ v, subscriptions_order v ≡ₚ map_to_list v) →
  let v := (writer_run interval instant_max subscriptions_order delivery_default before).1 in
  (∀ e now v' r sb rate,
    writer_turn interval instant_max subscriptions_order v e now = (v', Some r) → v !! pr_tx r = Some sb → sb_rate sb = Some rate →
    ((∃ r', e = WriterView r' ∧ pr_sequence r' = 0%Z) ∨ (sb_last_emit sb + interval rate ≤ now)%Z) ∧
    ∃ sb', v' !! pr_tx r = Some sb' ∧ sb_last_emit sb' = now) ∧
  ∀ now, (writer_turn interval instant_max subscriptions_order v WriterDeadline now).2 = None ↔
    match next_deadline interval instant_max subscriptions_order v with None => True | Some d => (now < d)%Z end.
Proof.
  intros Ho v. assert (delivery_ok v) as Ok.
  { apply writer_run_ok; [done|]. intros tx0 sb1 pd E. unfold delivery_default in E. by rewrite lookup_empty in E. }
  split; [intros e now v' r sb rate E Es Er; exact (written_spaced interval instant_max subscriptions_order Ho v e now v' r sb rate E Ok Es Er)|].
  intros now. by apply wakes_when_due.
Qed.

Lemma sampling_paces_the_view_witness :
  let v := (writer_run Vx.interval Vx.instant_max map_to_list delivery_default
    ((WriterControl (ControlSubscribe "tx" (Some 30%Z)), 0%Z) :: Vx.events)).1 in
  (writer_turn Vx.interval Vx.instant_max map_to_list v WriterDeadline 37).2 = None ∧
  (writer_turn Vx.interval Vx.instant_max map_to_list v WriterDeadline 38).2 ≠ None.
Proof.
  intros v. pose proof (proj2 (sampling_paces_the_view (V:=option Row) (T:=Row) Vx.interval Vx.instant_max map_to_list
    ((WriterControl (ControlSubscribe "tx" (Some 30%Z)), 0%Z) :: Vx.events) (λ _, reflexivity _))) as R.
  assert (next_deadline Vx.interval Vx.instant_max map_to_list v = Some 38%Z) as E by (vm_compute; reflexivity).
  fold v in R. rewrite E in R. split; [apply R; lia|]. rewrite R. lia.
Defined.
