(* ===== verification/SearchIndex.v ===== *)
(** * The search index of an entity type

    [core/src/search/typed]: ids interned into dense slots, one record of lowercased text per
    slot, posting bitmaps per token, and a search in three tiers (exact token, subsequence,
    typo).  Removal only clears the slot's live bit; compaction drops dead slots and renumbers
    the others.  [SearchRegistry] routes items of any type to the index of their type.

    Text is a list of Unicode scalar values, positions are byte positions of its UTF-8.  The
    bitmaps of the roaring crate, the scores of nucleo and the distances of strsim are given,
    and so are Unicode lowercasing, the [f32] comparison that decides compaction and the
    iteration order of a [HashMap]. *)

From stdpp Require Import base strings numbers option countable gmap sets list.
From S2P Require Import Prelude Order GraphTypes ServerTypes.

(** ** Text *)

Definition text : Type := list Z.

Definition utf8_len (c : Z) : Z := if (c <? 128)%Z then 1 else if (c <? 2048)%Z then 2 else if (c <? 65536)%Z then 3 else 4.

(** [str::len]. *)
Definition byte_len (t : text) : Z := foldr (λ c n, (utf8_len c + n)%Z) 0%Z t.

(** [str::make_ascii_lowercase]. *)
Definition make_ascii_lowercase (t : text) : text := (λ c, if ((65 <=? c) && (c <=? 90))%Z then (c + 32)%Z else c) <$> t.

(** [char::is_whitespace]: the Unicode property [White_Space]. *)
Definition is_whitespace (c : Z) : bool :=
  (((9 <=? c) && (c <=? 13)) || (c =? 32) || (c =? 133) || (c =? 160) || (c =? 5760) || ((8192 <=? c) && (c <=? 8202)) ||
   (c =? 8232) || (c =? 8233) || (c =? 8239) || (c =? 8287) || (c =? 12288))%Z.

Definition FIELD_SEP : Z := 31.

(** The separators are [/], [:], [.], [-] and [_]. *)
Definition is_token_boundary (c : Z) : bool :=
  (is_whitespace c || (c =? FIELD_SEP) || (c =? 47) || (c =? 58) || (c =? 46) || (c =? 45) || (c =? 95))%Z.

(** [str::split] by a predicate on characters. *)
Fixpoint split (p : Z → bool) (t : text) : list text :=
  match t with
  | [] => [[]]
  | c :: t' => if p c then [] :: split p t' else match split p t' with [] => [[c]] | word :: words => (c :: word) :: words end
  end.

Definition tokenize (t : text) : list text := List.filter (λ token, negb (bool_decide (token = []))) (split is_token_boundary t).

Fixpoint starts_with (pattern t : text) : bool :=
  match pattern, t with
  | [], _ => true
  | p :: pattern, c :: t => bool_decide (p = c) && starts_with pattern t
  | _ :: _, [] => false
  end.

(** [str::find] with a string, or a character as a string of its own. *)
Fixpoint find_str (pattern t : text) : option Z :=
  if starts_with pattern t then Some 0%Z
  else match t with [] => None | c :: t => (λ n, (utf8_len c + n)%Z) <$> find_str pattern t end.

Definition u32_max : Z := 4294967295.
Definition to_u32 (n : Z) : option Z := if (n <=? u32_max)%Z then Some n else None.
Definition u32_or_max (n : Z) : Z := default u32_max (to_u32 n).

(** ** Scores *)

Inductive Score := Exact | Prefix | Subsequence (score : Z) | Typo (distance : Z).

#[export] Instance score_eq_dec : EqDecision Score.
Proof. solve_decision. Defined.

Definition tier (s : Score) : Z := match s with Exact => 3 | Prefix => 2 | Subsequence _ => 1 | Typo _ => 0 end.

Definition score_cmp (x y : Score) : comparison :=
  match Z.compare (tier x) (tier y) with
  | Eq => match x, y with
          | Subsequence a, Subsequence b => Z.compare a b
          | Typo a, Typo b => Z.compare b a
          | _, _ => Eq
          end
  | order => order
  end.

Definition score_gt (x y : Score) : bool := match score_cmp x y with Gt => true | _ => false end.

Record Hit (Id : Type) := mkHit { hit_id : Id; hit_score : Score; matched_field : Z }.
Arguments mkHit {Id}.
Arguments hit_id {Id}.
Arguments hit_score {Id}.
Arguments matched_field {Id}.

(** ** Interned ids *)

Section interner.
Context {Id : Type} `{Countable Id}.

Record IdInterner := mkInterner {
  in_forward : gmap Id Z;
  in_reverse : list (option Id);
  in_free_list : list Z
}.
Implicit Types (n : IdInterner) (id : Id) (slot : Z).

Definition interner_new : IdInterner := mkInterner ∅ [] [].

(** [free_list] is a stack, its top first. *)
Definition intern id n : IdInterner * Z :=
  match in_forward n !! id with
  | Some existing => (n, existing)
  | None =>
      match in_free_list n with
      | reused :: free => (mkInterner (<[id := reused]> (in_forward n)) (<[Z.to_nat reused := Some id]> (in_reverse n)) free, reused)
      | [] =>
          let new_slot := u32_or_max (len (in_reverse n)) in
          (mkInterner (<[id := new_slot]> (in_forward n)) (in_reverse n ++ [Some id]) [], new_slot)
      end
  end.

Definition interner_lookup id n : option Z := in_forward n !! id.

Definition id_of slot n : option Id := in_reverse n !! Z.to_nat slot ≫= λ entry, entry.

Definition release id n : IdInterner :=
  match in_forward n !! id with
  | None => n
  | Some slot => mkInterner (delete id (in_forward n)) (<[Z.to_nat slot := None]> (in_reverse n)) (slot :: in_free_list n)
  end.

Definition interner_len n : Z := Z.of_nat (size (in_forward n)).
End interner.
Arguments IdInterner Id {_ _}.

(** ** Bitmaps *)

(** What the program relies on of [RoaringBitmap]: sets of 32-bit integers, iterated in order. *)
Class RoaringBitmap (B : Type) := {
  rb_new : B;
  rb_contains : Z → B → bool;
  rb_insert : Z → B → B;
  rb_remove : Z → B → B;
  rb_and : B → B → B;
  rb_iter : B → list Z;
  rb_from_iter : list Z → B;
  rb_new_spec x : rb_contains x rb_new = false;
  rb_insert_spec x y b : rb_contains x (rb_insert y b) = bool_decide (x = y) || rb_contains x b;
  rb_remove_spec x y b : rb_contains x (rb_remove y b) = negb (bool_decide (x = y)) && rb_contains x b;
  rb_and_spec x b b' : rb_contains x (rb_and b b') = rb_contains x b && rb_contains x b';
  rb_iter_sorted b : sorted (rb_iter b);
  rb_iter_spec x b : x ∈ rb_iter b ↔ rb_contains x b = true;
  rb_from_iter_spec x l : rb_contains x (rb_from_iter l) = bool_decide (x ∈ l)
}.

(** ** Extraction *)

Class Searchable (T Id : Type) := {
  typed_id : T → Id;
  (** the values of the [#[searchable]] fields, in the order of their declaration *)
  searchable_values : T → list text
}.

(** [SearchableExtractor]: the buffer and the offsets of the fields. *)
Definition Extractor : Type := text * list Z.

Definition push_field (e : Extractor) (value : text) : Extractor :=
  (e.1 ++ value ++ [FIELD_SEP], e.2 ++ [u32_or_max (byte_len e.1)]).

Definition extract_searchable {T Id} `{Searchable T Id} (entity : T) (e : Extractor) : Extractor :=
  foldl push_field e (searchable_values entity).

Record SearchOptions := mkOptions {
  so_limit : Z;
  max_edit_distance : Z;
  include_subsequence : bool;
  include_typo : bool
}.

Definition options_default : SearchOptions := mkOptions 100 2 true true.

Record EntityRecord := mkEntityRecord {
  er_internal_id : Z;
  searchable_text : text;
  field_offsets : list Z
}.

(** [slice::partition_point], for the byte position of a match. *)
Fixpoint offsets_up_to (byte_pos : Z) (offsets : list Z) : Z :=
  match offsets with
  | [] => 0
  | off :: offsets => if (off <=? byte_pos)%Z then (1 + offsets_up_to byte_pos offsets)%Z else 0
  end.

Definition field_of_position (byte_pos : Z) (r : EntityRecord) : Z := sat_sub (offsets_up_to byte_pos (field_offsets r)) 1.

Definition field_of_match (pattern : text) (r : EntityRecord) : Z :=
  match find_str pattern (searchable_text r) with None => 0 | Some pos => field_of_position pos r end.

(** ** The index *)

Section index.
Context {T Id B : Type} `{Countable Id} `{!Searchable T Id} `{!RoaringBitmap B}.

(** The scratch buffers of the insertion and the pool of matchers carry nothing from one call
    to the next. *)
Record SearchIndex := mkSearchIndex {
  sx_interner : IdInterner Id;
  sx_live : B;
  sx_entities : list (option EntityRecord);
  sx_exact : gmap text B;
  sx_dead_count : Z
}.
Implicit Types (idx : SearchIndex) (entity : T) (id : Id) (slot internal_id : Z) (query lower : text) (opts : SearchOptions).

(** [dead / total > compaction_threshold], in [f32]. *)
Variable above_threshold : Z → Z → bool.
(** [nucleo_matcher::Matcher::fuzzy_match] of a haystack and a needle, and [strsim::levenshtein]. *)
Variable fuzzy_match : text → text → option Z.
Variable levenshtein : text → text → Z.
(** [str::to_lowercase]. *)
Variable to_lowercase : text → text.
Variable hits_order : gmap Z (Score * Z) → list (Z * (Score * Z)).

Definition search_index_new : SearchIndex := mkSearchIndex interner_new rb_new [] ∅ 0.

Definition record_at idx slot : option EntityRecord := sx_entities idx !! Z.to_nat slot ≫= λ entry, entry.

Definition index_len idx : Z := len (rb_iter (sx_live idx)).

Definition purge_tokens slot idx : SearchIndex :=
  match record_at idx slot with
  | None => idx
  | Some record =>
      mkSearchIndex (sx_interner idx) (sx_live idx) (sx_entities idx)
        (foldl (λ exact token, match exact !! token with
                               | Some bitmap => <[token := rb_remove slot bitmap]> exact
                               | None => exact
                               end) (sx_exact idx) (tokenize (searchable_text record)))
        (sx_dead_count idx)
  end.

(** [Vec::resize_with(slot + 1, || None)]. *)
Definition resize_entities (slot : nat) (entities : list (option EntityRecord)) : list (option EntityRecord) :=
  if (length entities <=? slot)%nat then entities ++ replicate (S slot - length entities) None else entities.

Definition insert_token internal_id (exact : gmap text B) (token : text) : gmap text B :=
  <[token := rb_insert internal_id (default rb_new (exact !! token))]> exact.

Definition index_insert entity idx : SearchIndex :=
  let id := typed_id entity in
  let idx := match interner_lookup id (sx_interner idx) with Some slot => purge_tokens slot idx | None => idx end in
  let '(interner, internal_id) := intern id (sx_interner idx) in
  let '(scratch, offsets) := extract_searchable entity ([], []) in
  let scratch := make_ascii_lowercase scratch in
  let record := mkEntityRecord internal_id scratch offsets in
  let slot := Z.to_nat internal_id in
  let entities := <[slot := Some record]> (resize_entities slot (sx_entities idx)) in
  let exact := foldl (insert_token internal_id) (sx_exact idx) (tokenize scratch) in
  let live := if rb_contains internal_id (sx_live idx) then sx_live idx else rb_insert internal_id (sx_live idx) in
  mkSearchIndex interner live entities exact (sx_dead_count idx).

Definition index_update entity idx : SearchIndex := index_insert entity idx.

(** ** Compaction *)

(** The renumbering of slots, the records that are left, and those that have been moved. *)
Record Compaction := mkCompaction {
  cp_remap : gmap Z Z;
  cp_entities : list (option EntityRecord);
  cp_new : list (option EntityRecord)
}.

Fixpoint renumber (new_id : Z) (live_ids : list Z) (c : Compaction) : Compaction :=
  match live_ids with
  | [] => c
  | old_id :: live_ids =>
      match to_u32 new_id with
      | None => c
      | Some new_id =>
          let remap := <[old_id := new_id]> (cp_remap c) in
          renumber (new_id + 1) live_ids
            match cp_entities c !! Z.to_nat old_id with
            | Some (Some record) =>
                mkCompaction remap (<[Z.to_nat old_id := None]> (cp_entities c))
                  (cp_new c ++ [Some (mkEntityRecord new_id (searchable_text record) (field_offsets record))])
            | _ => mkCompaction remap (cp_entities c) (cp_new c)
            end
      end
  end.

Definition remap_bitmap (remap : gmap Z Z) (bitmap : B) : B := rb_from_iter (omap (λ old, remap !! old) (rb_iter bitmap)).

Definition reintern (old : IdInterner Id) (new : IdInterner Id) (old_id : Z) : IdInterner Id :=
  match id_of old_id old with Some id => (intern id new).1 | None => new end.

(** [0..n] *)
Definition slots_below (n : Z) : list Z := Z.of_nat <$> seq 0 (Z.to_nat n).

Definition compact idx : SearchIndex :=
  let live_ids := rb_iter (sx_live idx) in
  let c := renumber 0 live_ids (mkCompaction ∅ (sx_entities idx) []) in
  let exact := filter (λ entry : text * B, rb_iter entry.2 ≠ []) (remap_bitmap (cp_remap c) <$> sx_exact idx) in
  let interner := foldl (reintern (sx_interner idx)) interner_new live_ids in
  mkSearchIndex interner (rb_from_iter (slots_below (u32_or_max (len live_ids)))) (cp_new c) exact 0.

Definition should_compact idx : bool :=
  let total := len (sx_entities idx) in
  (1000 <? total)%Z && above_threshold (sx_dead_count idx) total.

Definition index_remove id idx : SearchIndex :=
  match interner_lookup id (sx_interner idx) with
  | None => idx
  | Some internal_id =>
      if rb_contains internal_id (sx_live idx) then
        let idx := mkSearchIndex (sx_interner idx) (rb_remove internal_id (sx_live idx)) (sx_entities idx) (sx_exact idx)
                     (sat_add (sx_dead_count idx) 1) in
        if should_compact idx then compact idx else idx
      else idx
  end.

(** ** Search *)

Definition exact_hit idx lower internal_id : option (Z * (Score * Z)) :=
  (λ record, (internal_id, (Exact, field_of_match lower record))) <$> record_at idx internal_id.

Definition exact_scan idx lower : list (Z * (Score * Z)) :=
  match sx_exact idx !! lower with
  | None => []
  | Some bitmap => omap (exact_hit idx lower) (rb_iter (rb_and bitmap (sx_live idx)))
  end.

(** The records of the live slots. *)
Definition candidates idx : list EntityRecord :=
  List.filter (λ record, rb_contains (er_internal_id record) (sx_live idx)) (omap (λ entry, entry) (sx_entities idx)).

Definition subsequence_hit lower (record : EntityRecord) : option (Z * (Score * Z)) :=
  score ← fuzzy_match (searchable_text record) lower;
  let field := match lower with [] => 0%Z | c :: _ => field_of_match [c] record end in
  Some (er_internal_id record, (Subsequence score, field)).

Definition subsequence_scan idx lower : list (Z * (Score * Z)) := omap (subsequence_hit lower) (candidates idx).

Definition typo_token lower (max_dist : Z) (record : EntityRecord) (best : option (Z * Z)) (token : text) : option (Z * Z) :=
  if (max_dist <? Z.abs (len lower - len token))%Z then best
  else
    let dist := levenshtein lower token in
    if (max_dist <? dist)%Z || (dist =? 0)%Z then best
    else match best with
         | None => Some (dist, field_of_match token record)
         | Some (cur, field) => if (dist <? cur)%Z then Some (dist, field_of_match token record) else best
         end.

Definition typo_hit lower (max_dist : Z) (record : EntityRecord) : option (Z * (Score * Z)) :=
  (λ best : Z * Z, (er_internal_id record, (Typo best.1, best.2))) <$>
    foldl (typo_token lower max_dist record) None (tokenize (searchable_text record)).

Definition typo_scan idx lower (max_dist : Z) : list (Z * (Score * Z)) :=
  if (max_dist =? 0)%Z then [] else omap (typo_hit lower max_dist) (candidates idx).

(** A hit replaces one of a lower score. *)
Definition merge_hit (hits : gmap Z (Score * Z)) (hit : Z * (Score * Z)) : gmap Z (Score * Z) :=
  match hits !! hit.1 with
  | None => <[hit.1 := hit.2]> hits
  | Some cur => if score_gt hit.2.1 cur.1 then <[hit.1 := hit.2]> hits else hits
  end.

(** [sort_by_key(Reverse(score))], a stable sort. *)
Fixpoint insert_hit (hit : Z * (Score * Z)) (l : list (Z * (Score * Z))) : list (Z * (Score * Z)) :=
  match l with
  | [] => [hit]
  | hit' :: l' => if score_gt hit'.2.1 hit.2.1 then hit' :: insert_hit hit l' else hit :: l
  end.
Definition sort_hits (l : list (Z * (Score * Z))) : list (Z * (Score * Z)) := foldr insert_hit [] l.

Definition collect_hits idx lower opts : gmap Z (Score * Z) :=
  let hits := foldl (λ hits hit, <[hit.1 := hit.2]> hits) ∅ (exact_scan idx lower) in
  let below (hits : gmap Z (Score * Z)) : bool := (Z.of_nat (size hits) <? so_limit opts)%Z in
  let hits := if include_subsequence opts && below hits then foldl merge_hit hits (subsequence_scan idx lower) else hits in
  if include_typo opts && below hits then foldl merge_hit hits (typo_scan idx lower (max_edit_distance opts)) else hits.

Definition index_search idx query opts : list (Hit Id) :=
  if bool_decide (query = []) || (so_limit opts =? 0)%Z then []
  else
    let hits := collect_hits idx (to_lowercase query) opts in
    omap (λ hit : Z * (Score * Z), (λ id, mkHit id hit.2.1 hit.2.2) <$> id_of hit.1 (sx_interner idx))
      (take_z (so_limit opts) (sort_hits (hits_order hits))).
End index.
Arguments SearchIndex Id B {_ _}.
Arguments mkSearchIndex {Id B _ _}.
Arguments sx_interner {Id B _ _}.
Arguments sx_live {Id B _ _}.
Arguments sx_entities {Id B _ _}.
Arguments sx_exact {Id B _ _}.
Arguments sx_dead_count {Id B _ _}.

(** ** The registry

    The concrete types of entities are seen through [downcast]: the value behind an erased
    item, when it is of the type that was registered under a name.  Typed ids are strings. *)
Section registry.
Context {P T B : Type} `{!Searchable T string} `{!RoaringBitmap B}.
Variable above_threshold : Z → Z → bool.
Variable fuzzy_match : text → text → option Z.
Variable levenshtein : text → text → Z.
Variable to_lowercase : text → text.
Variable hits_order : gmap Z (Score * Z) → list (Z * (Score * Z)).
Variable downcast : string → Item P → option T.
Abbreviation SearchRegistry := (gmap string (SearchIndex string B)).
Implicit Types (reg : SearchRegistry) (item : Item P) (entity_type id : string).

(** [build_typed_registry]: an index per registered type; registering a type again replaces
    its index. *)
Definition register_typed (reg : SearchRegistry) entity_type : SearchRegistry := <[entity_type := search_index_new]> reg.
Definition build_typed_registry (registrations : list string) : SearchRegistry := foldl register_typed ∅ registrations.

Definition insert_dyn entity_type item (idx : SearchIndex string B) : SearchIndex string B :=
  match downcast entity_type item with None => idx | Some entity => index_insert entity idx end.

Definition registry_insert item reg : SearchRegistry :=
  match reg !! item_type item with
  | None => reg
  | Some idx => <[item_type item := insert_dyn (item_type item) item idx]> reg
  end.

Definition registry_remove entity_type id reg : SearchRegistry :=
  match reg !! entity_type with
  | None => reg
  | Some idx => <[entity_type := index_remove above_threshold id idx]> reg
  end.

Definition registry_search entity_type (query : text) (opts : SearchOptions) reg : list (Hit string) :=
  match reg !! entity_type with
  | None => []
  | Some idx => index_search fuzzy_match levenshtein to_lowercase hits_order idx query opts
  end.

(** ** The index of the process *)

(** [MYKO_SEARCH_INDEX_DISABLED] is set. *)
Variable disabled : bool.

Definition index_item item reg : SearchRegistry := if disabled then reg else registry_insert item reg.
Definition remove_entity entity_type id reg : SearchRegistry := registry_remove entity_type id reg.

Definition search_ids entity_type (query : text) (limit : Z) reg : list string :=
  hit_id <$> registry_search entity_type query
    (mkOptions limit (max_edit_distance options_default) (include_subsequence options_default) (include_typo options_default)) reg.

Definition is_searchable entity_type reg : bool := bool_decide (is_Some (reg !! entity_type)).

(** The registered types, in the order of their map, and the entries of each store. *)
Definition build_from_registry (types : list string) (entries : string → option (list (Item P))) reg : SearchRegistry :=
  foldl (λ reg entity_type, match entries entity_type with
                            | None => reg
                            | Some items => foldl (λ reg item, registry_insert item reg) reg items
                            end) reg types.

(** A call the server makes. *)
Definition apply_call reg (call : SearchCall P) : SearchRegistry :=
  match call with
  | IndexItem item => index_item item reg
  | RemoveEntity entity_type id => remove_entity entity_type id reg
  end.
End registry.
