(* ===== verification/SearchProof.v ===== *)
(** * The search index as a map of documents

    Ranks, the invariant that ties slots, bitmaps and records to the documents that are
    indexed, and the operations that keep it. *)

From stdpp Require Import base strings numbers option countable gmap sets list sorting.
From S2P Require Import Prelude Order GraphTypes ServerTypes SearchIndex.

(** ** Scores *)

Definition score_key (s : Score) : Z * Z :=
  (tier s, match s with Exact | Prefix => 0 | Subsequence n => n | Typo d => - d end)%Z.

Lemma score_cmp_key x y : score_cmp x y = cmp (score_key x) (score_key y).
Proof.
  destruct x as [| |a|a], y as [| |b|b]; try reflexivity.
  unfold score_cmp, score_key, cmp, prod_cmp, then_cmp. simpl. unfold cmp, Z_cmp.
  destruct (Z.compare_spec b a), (Z.compare_spec (- a) (- b)); try done; lia.
Qed.

(** [x] ranks at least as high as [y]. *)
Definition ranks (x y : Score) : Prop := score_gt y x = false.

Lemma ranks_spec x y : ranks x y ↔ ¬ cmp_lt (score_key x) (score_key y).
Proof.
  unfold ranks, score_gt, cmp_lt. rewrite score_cmp_key.
  pose proof (cmp_gt_lt (score_key y) (score_key x)) as G. destruct (cmp (score_key y) (score_key x)) eqn:E; simpl.
  - split; [intros _ L|done]. apply G in L. done.
  - split; [intros _ L|done]. apply G in L. done.
  - split; [done|]. intros N. exfalso. by apply N, G.
Qed.

Lemma ranks_refl x : ranks x x.
Proof. apply ranks_spec, cmp_lt_irrefl. Qed.

Lemma ranks_total x y : score_gt x y = true → ranks x y.
Proof.
  intros G. apply ranks_spec. intros L. unfold score_gt in G. rewrite score_cmp_key in G. unfold cmp_lt in L. by rewrite L in G.
Qed.

Lemma ranks_trans x y z : ranks x y → ranks y z → ranks x z.
Proof.
  rewrite !ranks_spec. intros N1 N2 L. destruct (cmp_spec (score_key x) (score_key y)) as [E|L1|L1].
  - rewrite E in L. done.
  - done.
  - apply N2. by eapply cmp_lt_trans.
Qed.

Lemma tier_ranks x y : (tier y < tier x)%Z → ranks x y.
Proof.
  intros L. apply ranks_spec. unfold score_key, cmp_lt, cmp, prod_cmp, then_cmp. simpl. unfold cmp, Z_cmp.
  destruct (Z.compare_spec (tier x) (tier y)); [lia|lia|done].
Qed.

(** ** Sorting *)
Definition hit_ranks (x y : Z * (Score * Z)) : Prop := ranks x.2.1 y.2.1.

Lemma insert_hit_perm x l : insert_hit x l ≡ₚ x :: l.
Proof.
  induction l as [|y l IH]; simpl; [done|]. destruct (score_gt y.2.1 x.2.1); [|done]. rewrite IH. apply Permutation_swap.
Qed.

Lemma insert_hit_sorted x l : StronglySorted hit_ranks l → StronglySorted hit_ranks (insert_hit x l).
Proof.
  induction 1 as [|y l S IH F]; simpl; [by repeat constructor|]. destruct (score_gt y.2.1 x.2.1) eqn:E.
  - constructor; [done|]. rewrite insert_hit_perm. constructor; [by apply ranks_total|done].
  - constructor; [by constructor|]. constructor; [done|]. eapply Forall_impl; [exact F|]. intros z Hz.
    by eapply ranks_trans; [|exact Hz].
Qed.

Lemma sort_hits_perm l : sort_hits l ≡ₚ l.
Proof. induction l as [|x l IH]; simpl; [done|]. by rewrite insert_hit_perm, IH. Qed.

Lemma sort_hits_sorted l : StronglySorted hit_ranks (sort_hits l).
Proof. induction l; simpl; [constructor|]. by apply insert_hit_sorted. Qed.

(** The head of a sorted list ranks at least as high as the rest. *)
Lemma sorted_take_ranks n l x y : StronglySorted hit_ranks l → x ∈ take n l → y ∈ drop n l → hit_ranks x y.
Proof.
  intros S. revert n. induction S as [|z l S IH F]; intros n Hx Hy; [by rewrite take_nil in Hx; apply elem_of_nil in Hx|].
  destruct n as [|n]; [by apply elem_of_nil in Hx|]. simpl in Hx, Hy. apply elem_of_cons in Hx as [->|Hx].
  - rewrite Forall_forall in F. apply F. eapply elem_of_subseteq; [|exact Hy]. apply subseteq_drop.
  - by apply (IH n).
Qed.

(** ** Interned ids *)
Section interner.
Context {Id : Type} `{Countable Id}.
Implicit Types (n : IdInterner Id) (id : Id) (slot : Z).

(** A slot belongs to at most one id; the free slots are those of no id. *)
Record interner_ok n : Prop := {
  in_agree : ∀ id slot, in_forward n !! id = Some slot ↔ (0 ≤ slot)%Z ∧ in_reverse n !! Z.to_nat slot = Some (Some id);
  in_free : ∀ slot, slot ∈ in_free_list n ↔ (0 ≤ slot)%Z ∧ in_reverse n !! Z.to_nat slot = Some None;
  in_free_once : NoDup (in_free_list n)
}.

Lemma interner_new_ok : interner_ok interner_new.
Proof.
  split; simpl; [|intros slot; split; [by intros ?%elem_of_nil|by intros [_ ?]]|constructor].
  intros id slot. split; [intros E; by rewrite lookup_empty in E|by intros [_ ?]].
Qed.

Lemma in_reverse_lt n slot (x : option Id) : in_reverse n !! Z.to_nat slot = Some x → (Z.to_nat slot < length (in_reverse n))%nat.
Proof. apply lookup_lt_Some. Qed.

(** What interning an id gives: its slot, which was nobody else's; nothing else changes. *)
Lemma intern_spec id n :
  interner_ok n → (len (in_reverse n) < u32_max)%Z →
  let '(n', slot) := intern id n in
  interner_ok n' ∧ in_forward n' = <[id := slot]> (in_forward n) ∧ (0 ≤ slot)%Z ∧
  (∀ id', in_forward n !! id' = Some slot → id' = id) ∧
  (len (in_reverse n') ≤ len (in_reverse n) + 1)%Z.
Proof.
  intros Ok Hb. unfold intern. destruct (in_forward n !! id) as [slot|] eqn:E.
  { pose proof (proj1 (in_agree n Ok id slot) E) as [Hs Er].
    split_and!; [done|by rewrite insert_id|done| |unfold len; lia].
    intros id' [_ E']%(in_agree n Ok). congruence. }
  assert (∀ s, in_reverse n !! s ≠ Some (Some id)) as Nid.
  { intros s Es. assert (in_forward n !! id = Some (Z.of_nat s)) as E'; [|congruence].
    apply (in_agree n Ok). rewrite Nat2Z.id. split; [lia|done]. }
  destruct (in_free_list n) as [|reused free] eqn:Ef.
  - unfold u32_or_max, to_u32, len in *. replace (_ <=? u32_max)%Z with true by lia. cbn [default]; unfold Datatypes.id.
    set (k := length (in_reverse n)) in *.
    assert (∀ id', in_forward n !! id' = Some (Z.of_nat k) → id' = id) as Nk.
    { intros id' [_ E']%(in_agree n Ok). rewrite Nat2Z.id in E'. apply lookup_lt_Some in E'. unfold k in E'. lia. }
    split_and!; [|done|lia|done|cbn [in_reverse]; rewrite length_app; simpl; lia]. split; simpl.
    + intros id' slot. destruct (decide (id' = id)) as [->|Ne].
      * rewrite lookup_insert_eq. split.
        -- intros [= <-]. rewrite Nat2Z.id. split; [lia|]. by rewrite lookup_app_r, Nat.sub_diag by (unfold k; lia).
        -- intros [Hs Er]. apply lookup_app_Some in Er as [Er|[Hl Er]]; [by apply Nid in Er|]. apply list_lookup_singleton_Some in Er as [El _].
           f_equal. unfold k. lia.
      * rewrite lookup_insert_ne, (in_agree n Ok) by done. split; intros [Hs Er]; (split; [done|]).
        -- by apply lookup_app_l_Some.
        -- apply lookup_app_Some in Er as [Er|[Hl Er]]; [done|]. apply list_lookup_singleton_Some in Er as [_ Er]. congruence.
    + intros slot. split; [by intros ?%elem_of_nil|]. intros [Hs Er]. rewrite <-Ef. apply (in_free n Ok). split; [done|].
      apply lookup_app_Some in Er as [Er|[Hl Er]]; [done|]. apply list_lookup_singleton_Some in Er as [_ Er]. done.
    + constructor.
  - pose proof (proj1 (in_free n Ok reused)) as Fr. rewrite Ef in Fr. destruct (Fr ltac:(left)) as [Hr Er]. pose proof (in_free_once n Ok) as Nd. rewrite Ef in Nd.
    apply NoDup_cons in Nd as [Nr Nd]. pose proof (lookup_lt_Some _ _ _ Er) as Hlt.
    split_and!; [|done|done| |unfold len; cbn [in_reverse]; rewrite length_insert; lia].
    + split; simpl; [| |done].
      * intros id' slot. destruct (decide (id' = id)) as [->|Ne].
        -- rewrite lookup_insert_eq. split.
           ++ intros [= <-]. split; [done|]. by apply list_lookup_insert_eq.
           ++ intros [Hs Es]. destruct (decide (Z.to_nat reused = Z.to_nat slot)) as [Eq|Nq]; [f_equal; lia|].
              rewrite list_lookup_insert_ne in Es by done. by apply Nid in Es.
        -- rewrite lookup_insert_ne, (in_agree n Ok) by done. destruct (decide (Z.to_nat reused = Z.to_nat slot)) as [Eq|Nq].
           ++ rewrite <-Eq, list_lookup_insert_eq, Er by done. split; intros [_ ?]; congruence.
           ++ by rewrite list_lookup_insert_ne.
      * intros slot. destruct (decide (Z.to_nat reused = Z.to_nat slot)) as [Eq|Nq].
        -- rewrite <-Eq, list_lookup_insert_eq by done. split; [|by intros [_ ?]]. intros Hf. assert (slot = reused) as ->; [|done].
           assert (0 ≤ slot)%Z; [|lia]. apply (in_free n Ok). rewrite Ef. by right.
        -- rewrite list_lookup_insert_ne by done. rewrite <-(in_free n Ok slot), Ef, elem_of_cons. split; [by right|]. intros [->|?]; done.
    + intros id' [_ E']%(in_agree n Ok). congruence.
Qed.

Lemma release_spec id n :
  interner_ok n → interner_ok (release id n) ∧ in_forward (release id n) = delete id (in_forward n).
Proof.
  intros Ok. unfold release. destruct (in_forward n !! id) as [slot|] eqn:E; [|by rewrite delete_id].
  pose proof (proj1 (in_agree n Ok id slot) E) as [Hs Er]. pose proof (lookup_lt_Some _ _ _ Er) as Hlt. split; [|done]. split; simpl.
  - intros id' slot'. destruct (decide (Z.to_nat slot = Z.to_nat slot')) as [Eq|Nq].
    + rewrite <-Eq, list_lookup_insert_eq by done. split; [|by intros [_ ?]].
      intros [Ne [Hs' Er']%(in_agree n Ok)]%lookup_delete_Some. rewrite <-Eq in Er'. congruence.
    + rewrite list_lookup_insert_ne by done. rewrite <-(in_agree n Ok), lookup_delete_Some. split; [by intros [_ ?]|].
      intros E'. split; [|done]. intros <-. congruence.
  - intros slot'. rewrite elem_of_cons, (in_free n Ok slot'). destruct (decide (Z.to_nat slot = Z.to_nat slot')) as [Eq|Nq].
    + rewrite <-Eq, list_lookup_insert_eq by done. split; [|intros [? _]; left; lia]. intros [->|[? ?]]; (split; [done|done]).
    + rewrite list_lookup_insert_ne by done. split; [intros [->|?]; done|by right].
  - constructor; [|by apply (in_free_once n Ok)]. intros [_ Er']%(in_free n Ok). congruence.
Qed.

Lemma id_of_spec n id slot : interner_ok n → (0 ≤ slot)%Z → id_of slot n = Some id ↔ in_forward n !! id = Some slot.
Proof.
  intros Ok Hs. rewrite (in_agree n Ok). unfold id_of. destruct (in_reverse n !! Z.to_nat slot) as [[id'|]|]; simpl; naive_solver.
Qed.
End interner.

(** ** The invariant *)
Section index.
Context {T Id B : Type} `{Countable Id} `{!Searchable T Id} `{!RoaringBitmap B}.
Implicit Types (idx : SearchIndex Id B) (entity : T) (id : Id) (slot internal_id : Z) (tok : text) (toks : list text).

(** What the index keeps of an entity. *)
Definition doc : Type := text * list Z.
Definition doc_of entity : doc := let '(scratch, offsets) := extract_searchable entity ([], []) in (make_ascii_lowercase scratch, offsets).
Definition doc_record slot (d : doc) : EntityRecord := mkEntityRecord slot d.1 d.2.
Implicit Types (docs : gmap Id doc).

Definition posted (exact : gmap text B) tok slot : bool := rb_contains slot (default rb_new (exact !! tok)).

Record index_ok idx docs : Prop := {
  ix_interner : interner_ok (sx_interner idx);
  ix_free : in_free_list (sx_interner idx) = [];
  ix_length : length (sx_entities idx) = length (in_reverse (sx_interner idx));
  ix_record : ∀ k r, sx_entities idx !! k = Some (Some r) → er_internal_id r = Z.of_nat k;
  ix_present : ∀ k, (k < length (sx_entities idx))%nat → ∃ r, sx_entities idx !! k = Some (Some r);
  ix_live : ∀ slot, rb_contains slot (sx_live idx) = true ↔ ∃ id, in_forward (sx_interner idx) !! id = Some slot ∧ is_Some (docs !! id);
  ix_docs : ∀ id d, docs !! id = Some d →
    ∃ slot, in_forward (sx_interner idx) !! id = Some slot ∧ sx_entities idx !! Z.to_nat slot = Some (Some (doc_record slot d));
  ix_tokens : ∀ tok slot, posted (sx_exact idx) tok slot = true ↔
    (0 ≤ slot)%Z ∧ ∃ r, sx_entities idx !! Z.to_nat slot = Some (Some r) ∧ tok ∈ tokenize (searchable_text r)
}.

Lemma search_index_new_ok : index_ok search_index_new ∅.
Proof.
  split; simpl; try done.
  - apply interner_new_ok.
  - lia.
  - intros slot. rewrite rb_new_spec. split; [done|]. intros (id & E & _). by rewrite lookup_empty in E.
  - intros tok slot. unfold posted. rewrite lookup_empty. simpl. rewrite rb_new_spec. split; [done|]. by intros (_ & r & ? & _).
Qed.

(** ** Postings *)

Lemma posted_insert_tokens internal_id toks (exact : gmap text B) tok slot :
  posted (foldl (insert_token internal_id) exact toks) tok slot = bool_decide (slot = internal_id ∧ tok ∈ toks) || posted exact tok slot.
Proof.
  revert exact. induction toks as [|t toks IH]; intros exact; simpl.
  { rewrite bool_decide_false; [done|]. intros [_ ?%elem_of_nil]. done. }
  rewrite IH. unfold insert_token, posted. destruct (decide (t = tok)) as [->|N].
  - rewrite lookup_insert_eq. simpl. rewrite rb_insert_spec.
    destruct (decide (slot = internal_id)) as [->|Ne].
    + rewrite (bool_decide_true (internal_id = internal_id)), !orb_true_l, orb_true_r by done. symmetry. rewrite bool_decide_true; [done|]. split; [done|left].
    + rewrite !(bool_decide_false (slot = internal_id ∧ _)), (bool_decide_false (slot = internal_id)) by tauto. done.
  - rewrite lookup_insert_ne by done. f_equal. apply bool_decide_ext. rewrite elem_of_cons. naive_solver.
Qed.

Lemma posted_purge slot toks (exact : gmap text B) tok slot' :
  posted (foldl (λ exact token, match exact !! token with
                               | Some bitmap => <[token := rb_remove slot bitmap]> exact
                               | None => exact
                               end) exact toks) tok slot' = negb (bool_decide (slot' = slot ∧ tok ∈ toks)) && posted exact tok slot'.
Proof.
  revert exact. induction toks as [|t toks IH]; intros exact; simpl.
  { rewrite bool_decide_false; [done|]. intros [_ ?%elem_of_nil]. done. }
  rewrite IH. unfold posted. destruct (decide (t = tok)) as [->|N].
  - destruct (exact !! tok) as [b|] eqn:E; [|rewrite E; simpl; rewrite rb_new_spec, !andb_false_r; done].
    rewrite lookup_insert_eq. simpl. rewrite rb_remove_spec. destruct (decide (slot' = slot)) as [->|Ne].
    + rewrite (bool_decide_true (slot = slot)) by done. simpl. rewrite andb_false_r. symmetry. rewrite bool_decide_true; [done|]. split; [done|left].
    + rewrite (bool_decide_false (slot' = slot)) by done. rewrite !bool_decide_false by tauto. done.
  - assert (bool_decide (slot' = slot ∧ tok ∈ t :: toks) = bool_decide (slot' = slot ∧ tok ∈ toks)) as ->
      by (apply bool_decide_ext; rewrite elem_of_cons; naive_solver).
    destruct (exact !! t) as [b|] eqn:E; [|done]. by rewrite lookup_insert_ne.
Qed.

(** Purging the record of a slot leaves nothing posted for it. *)
Lemma purge_tokens_spec idx docs slot :
  index_ok idx docs → (0 ≤ slot)%Z →
  let idx' := purge_tokens slot idx in
  sx_interner idx' = sx_interner idx ∧ sx_live idx' = sx_live idx ∧ sx_entities idx' = sx_entities idx ∧
  sx_dead_count idx' = sx_dead_count idx ∧
  ∀ tok slot', posted (sx_exact idx') tok slot' = negb (bool_decide (slot' = slot)) && posted (sx_exact idx) tok slot'.
Proof.
  intros Ok Hs. unfold purge_tokens, record_at. pose proof (ix_tokens _ _ Ok) as Tk.
  destruct (sx_entities idx !! Z.to_nat slot ≫= λ entry, entry) as [r|] eqn:Er.
  - assert (sx_entities idx !! Z.to_nat slot = Some (Some r)) as Er' by (by destruct (sx_entities idx !! Z.to_nat slot) as [[?|]|]; simplify_eq/=).
    simpl. split_and!; try done. intros tok slot'. rewrite posted_purge.
    destruct (posted (sx_exact idx) tok slot') eqn:Ep; [|by rewrite !andb_false_r]. rewrite !andb_true_r. f_equal. apply bool_decide_ext.
    split; [by intros [? _]|]. intros ->. split; [done|]. apply Tk in Ep as (_ & r' & Er2 & Ht). congruence.
  - simpl. split_and!; try done. intros tok slot'. destruct (decide (slot' = slot)) as [->|Ne]; [|by rewrite bool_decide_false].
    rewrite bool_decide_true by done. simpl. apply not_true_iff_false. intros (_ & r & Er2 & _)%Tk. by rewrite Er2 in Er.
Qed.

(** ** Insertion *)

Lemma intern_fresh id (n : IdInterner Id) :
  in_free_list n = [] → (len (in_reverse n) < u32_max)%Z →
  let '(n', slot) := intern id n in
  in_free_list n' = [] ∧
  ((in_forward n !! id = Some slot ∧ n' = n) ∨
   (in_forward n !! id = None ∧ slot = len (in_reverse n) ∧ length (in_reverse n') = S (length (in_reverse n)))).
Proof.
  intros Ef Hb. unfold intern. destruct (in_forward n !! id) as [slot|] eqn:E; [split; [done|by left]|]. rewrite Ef.
  split; [done|]. right. split; [done|]. unfold u32_or_max, to_u32. replace (_ <=? u32_max)%Z with true by lia.
  cbn [in_reverse]. rewrite length_app. simpl. split; [done|lia].
Qed.

(** Storing a record in its slot, at most one past the end. *)
Lemma put_entity (k : nat) (entities : list (option EntityRecord)) (x : option EntityRecord) :
  (k ≤ length entities)%nat →
  let entities' := <[k := x]> (resize_entities k entities) in
  length entities' = Nat.max (length entities) (S k) ∧
  ∀ j, entities' !! j = if decide (j = k) then Some x else entities !! j.
Proof.
  intros Hk. unfold resize_entities. destruct (Nat.leb_spec (length entities) k) as [L|L]; simpl.
  - assert (k = length entities) as -> by lia. replace (S (length entities) - length entities)%nat with 1%nat by lia. simpl.
    rewrite length_insert, length_app. simpl. split; [lia|]. intros j. destruct (decide (j = length entities)) as [->|N].
    + apply list_lookup_insert_eq. rewrite length_app. simpl. lia.
    + rewrite list_lookup_insert_ne by done. destruct (decide (j < length entities)%nat); [by apply lookup_app_l|].
      rewrite !lookup_ge_None_2; [done|lia|rewrite length_app; simpl; lia].
  - rewrite length_insert. split; [lia|]. intros j. destruct (decide (j = k)) as [->|N]; [by apply list_lookup_insert_eq|by rewrite list_lookup_insert_ne].
Qed.

Lemma index_insert_ok idx docs entity :
  index_ok idx docs → (len (sx_entities idx) < u32_max)%Z →
  index_ok (index_insert entity idx) (<[typed_id entity := doc_of entity]> docs) ∧
  (len (sx_entities (index_insert entity idx)) ≤ len (sx_entities idx) + 1)%Z.
Proof.
  intros Ok Hb. unfold index_insert. set (id := typed_id entity).
  set (idx1 := match interner_lookup id (sx_interner idx) with Some slot => purge_tokens slot idx | None => idx end).
  assert (sx_interner idx1 = sx_interner idx ∧ sx_live idx1 = sx_live idx ∧ sx_entities idx1 = sx_entities idx) as (E1 & E2 & E3).
  { unfold idx1, interner_lookup. destruct (in_forward (sx_interner idx) !! id) as [slot|] eqn:E; [|done].
    apply (in_agree _ (ix_interner _ _ Ok)) in E as [Hs _]. by destruct (purge_tokens_spec idx docs slot Ok Hs) as (? & ? & ? & _). }
  assert (len (in_reverse (sx_interner idx)) < u32_max)%Z as Hb' by (unfold len in *; by rewrite <-(ix_length _ _ Ok)).
  rewrite E1. pose proof (intern_spec id _ (ix_interner _ _ Ok) Hb') as I. pose proof (intern_fresh id _ (ix_free _ _ Ok) Hb') as F.
  destruct (intern id (sx_interner idx)) as [n slot] eqn:Ei. destruct I as (Ok' & Efw & Hs & Own & _). destruct F as [Efr F].
  destruct (extract_searchable entity ([], [])) as [scratch offsets] eqn:Ex.
  set (d := doc_of entity). assert (d = (make_ascii_lowercase scratch, offsets)) as Ed by (unfold d, doc_of; by rewrite Ex).
  assert (∀ tok slot', posted (sx_exact idx1) tok slot' = true ↔ slot' ≠ slot ∧ posted (sx_exact idx) tok slot' = true) as Ep.
  { intros tok slot'. unfold idx1, interner_lookup. destruct F as [[E _]|(E & El & _)]; rewrite E.
    - destruct (purge_tokens_spec idx docs slot Ok Hs) as (_ & _ & _ & _ & ->). rewrite andb_true_iff, negb_true_iff, bool_decide_eq_false. done.
    - split; [|by intros [_ ?]]. intros Ep. split; [|done]. intros ->. apply (ix_tokens _ _ Ok) in Ep as (_ & r & Er & _).
      apply lookup_lt_Some in Er. rewrite (ix_length _ _ Ok) in Er. unfold len in El. lia. }
  assert (Z.to_nat slot ≤ length (sx_entities idx))%nat as Hk.
  { rewrite (ix_length _ _ Ok). destruct F as [[E _]|(_ & -> & _)]; [|unfold len; lia].
    apply (in_agree _ (ix_interner _ _ Ok)) in E as [_ E]. apply lookup_lt_Some in E. lia. }
  rewrite E2, E3. destruct (put_entity (Z.to_nat slot) (sx_entities idx) (Some (doc_record slot d)) Hk) as [Hlen Hput].
  change (mkEntityRecord slot (make_ascii_lowercase scratch) offsets) with (doc_record slot (make_ascii_lowercase scratch, offsets)).
  rewrite <-Ed. set (entities := <[Z.to_nat slot := Some (doc_record slot d)]> (resize_entities (Z.to_nat slot) (sx_entities idx))) in *.
  assert (length entities = length (in_reverse n)) as Hlen'.
  { rewrite Hlen, (ix_length _ _ Ok). destruct F as [[E ->]|(_ & -> & ->)]; [|unfold len; lia].
    apply (in_agree _ (ix_interner _ _ Ok)) in E as [_ E]. apply lookup_lt_Some in E. lia. }
  split; [|unfold len in *; cbn [sx_entities]; lia].
  split; cbn [sx_interner sx_live sx_entities sx_exact sx_dead_count]; [done|done|done| | | | |].
  - intros k r. rewrite Hput. destruct (decide (k = Z.to_nat slot)) as [->|N]; [intros [= <-]; simpl; lia|apply (ix_record _ _ Ok)].
  - intros k Hk'. rewrite Hput. destruct (decide (k = Z.to_nat slot)) as [->|N]; [eauto|]. apply (ix_present _ _ Ok). lia.
  - intros slot'. transitivity (slot' = slot ∨ rb_contains slot' (sx_live idx) = true).
    { destruct (rb_contains slot (sx_live idx)) eqn:El; [naive_solver|]. rewrite rb_insert_spec, orb_true_iff, bool_decide_eq_true. done. }
    rewrite (ix_live _ _ Ok), Efw. split.
    + intros [->|(id' & E & Hd)].
      * exists id. by rewrite !lookup_insert_eq.
      * destruct (decide (id' = id)) as [->|Ne]; [|exists id'; by rewrite !lookup_insert_ne].
        exists id. rewrite !lookup_insert_eq. split; [|by eexists]. destruct F as [[E' _]|[E' _]]; congruence.
    + intros (id' & E & Hd). destruct (decide (id' = id)) as [->|Ne]; [rewrite lookup_insert_eq in E; left; congruence|].
      rewrite lookup_insert_ne in E by done. rewrite lookup_insert_ne in Hd by done. right. by exists id'.
  - intros id' d'. rewrite Efw. destruct (decide (id' = id)) as [->|Ne].
    + rewrite !lookup_insert_eq. intros [= <-]. exists slot. split; [done|]. by rewrite Hput, decide_True.
    + rewrite !lookup_insert_ne by done. intros (slot' & E & Er)%(ix_docs _ _ Ok). exists slot'. split; [done|].
      rewrite Hput, decide_False; [done|]. intros Eq. apply Ne, Own. rewrite E. f_equal.
      apply (in_agree _ (ix_interner _ _ Ok)) in E as [? _]. lia.
  - intros tok slot'. rewrite posted_insert_tokens, orb_true_iff, bool_decide_eq_true, Ep.
    assert (searchable_text (doc_record slot d) = make_ascii_lowercase scratch) as Et by by rewrite Ed.
    rewrite (ix_tokens _ _ Ok). split.
    + intros [[-> Ht]|(Ne & Hs' & r & Er & Ht)].
      * split; [done|]. exists (doc_record slot d). rewrite Hput, decide_True, Et by done. done.
      * split; [done|]. exists r. rewrite Hput, decide_False by lia. done.
    + intros (Hs' & r & Er & Ht). rewrite Hput in Er. destruct (decide (Z.to_nat slot' = Z.to_nat slot)) as [Eq|Ne].
      * left. injection Er as <-. rewrite Et in Ht. split; [lia|done].
      * right. split; [intros ->; done|]. eauto.
Qed.

(** ** Removal *)

Lemma forward_slot_inj (n : IdInterner Id) id id' slot :
  interner_ok n → in_forward n !! id = Some slot → in_forward n !! id' = Some slot → id = id'.
Proof. intros Ok [_ E]%(in_agree n Ok) [_ E']%(in_agree n Ok). congruence. Qed.

Lemma unlive_ok idx docs id slot dead :
  index_ok idx docs → in_forward (sx_interner idx) !! id = Some slot →
  index_ok (mkSearchIndex (sx_interner idx) (rb_remove slot (sx_live idx)) (sx_entities idx) (sx_exact idx) dead) (delete id docs).
Proof.
  intros Ok E. split; cbn [sx_interner sx_live sx_entities sx_exact sx_dead_count]; try apply Ok.
  - intros slot'. rewrite rb_remove_spec, andb_true_iff, negb_true_iff, bool_decide_eq_false, (ix_live _ _ Ok). split.
    + intros [Ne (id' & E' & Hd)]. exists id'. split; [done|]. rewrite lookup_delete_ne; [done|]. intros <-. congruence.
    + intros (id' & E' & [d Hd]). apply lookup_delete_Some in Hd as [Ne Hd]. split; [|eauto]. intros ->. apply Ne. by apply (forward_slot_inj _ _ _ slot (ix_interner _ _ Ok)).
  - intros id' d [_ Hd]%lookup_delete_Some. by apply (ix_docs _ _ Ok).
Qed.

(** ** Compaction *)

Definition renumbered (recs : Z → EntityRecord) (new_id : Z) (l : list Z) : list (option EntityRecord) :=
  imap (λ i s, Some (mkEntityRecord (new_id + Z.of_nat i) (searchable_text (recs s)) (field_offsets (recs s)))) l.

Lemma renumber_spec recs new_id l c :
  NoDup l → (∀ s, s ∈ l → (0 ≤ s)%Z ∧ cp_entities c !! Z.to_nat s = Some (Some (recs s))) →
  (0 ≤ new_id)%Z → (new_id + len l ≤ u32_max + 1)%Z →
  let c' := renumber new_id l c in
  cp_new c' = cp_new c ++ renumbered recs new_id l ∧
  (∀ s, s ∉ l → cp_remap c' !! s = cp_remap c !! s) ∧
  (∀ i s, l !! i = Some s → cp_remap c' !! s = Some (new_id + Z.of_nat i)%Z).
Proof.
  revert new_id c. induction l as [|s l IH]; intros new_id c ND Hl Hn Hb; [by simpl; rewrite app_nil_r|].
  apply NoDup_cons in ND as [Ns ND]. unfold len in Hb. cbn [length] in Hb. simpl.
  unfold to_u32. replace (new_id <=? u32_max)%Z with true by lia. destruct (Hl s ltac:(left)) as [Hs ->].
  match goal with |- context [renumber _ l ?c1] => set (c' := c1) end.
  destruct (IH (new_id + 1)%Z c' ND) as (En & Eo & Ei); [|lia|unfold len; lia|].
  { intros s' Hs'. destruct (Hl s' ltac:(by right)) as [? E]. split; [done|]. unfold c'. simpl.
    rewrite list_lookup_insert_ne; [done|]. intros Eq. assert (s = s') as -> by lia. done. }
  rewrite En. split_and!.
  - unfold c'. simpl. rewrite <-(assoc_L (++)). f_equal. unfold renumbered. simpl. rewrite Z.add_0_r. f_equal. apply imap_ext.
    intros i s' _. simpl. do 2 f_equal. lia.
  - intros s' [N1 N2]%not_elem_of_cons. rewrite Eo by done. unfold c'. simpl. by rewrite lookup_insert_ne.
  - intros [|i] s' E; simpl in E; [injection E as <-; rewrite Eo by done; unfold c'; simpl; rewrite lookup_insert_eq; f_equal; lia|].
    rewrite (Ei i s' E). f_equal. lia.
Qed.

Lemma reintern_spec (old : IdInterner Id) l ids :
  Forall2 (λ s id, id_of s old = Some id) l ids → NoDup ids → (len l ≤ u32_max)%Z →
  let n := foldl (reintern old) interner_new l in
  interner_ok n ∧ in_free_list n = [] ∧ in_reverse n = Some <$> ids.
Proof.
  revert ids. induction l as [|s l IH] using rev_ind; intros ids F ND Hb.
  { apply Forall2_nil_inv_l in F as ->. simpl. split; [apply interner_new_ok|done]. }
  apply Forall2_app_inv_l in F as (ids1 & ids2 & F1 & F2 & ->).
  apply Forall2_cons_inv_l in F2 as (id & ids3 & Eid & ->%Forall2_nil_inv_l & ->).
  apply NoDup_app in ND as (ND1 & Dj & _). unfold len in Hb. rewrite length_app in Hb. cbn [length] in Hb.
  destruct (IH ids1 F1 ND1 ltac:(unfold len; lia)) as (Ok & Ef & Er). cbv zeta. rewrite foldl_app. simpl.
  set (n := foldl (reintern old) interner_new l) in *. unfold reintern. rewrite Eid.
  assert (len (in_reverse n) < u32_max)%Z as Hn.
  { rewrite Er. unfold len. rewrite length_fmap, <-(Forall2_length _ _ _ F1). lia. }
  assert (in_forward n !! id = None) as Efw.
  { destruct (in_forward n !! id) as [slot|] eqn:E; [|done]. apply (in_agree n Ok) in E as [_ E]. rewrite Er, list_lookup_fmap in E.
    destruct (ids1 !! Z.to_nat slot) as [id'|] eqn:E'; simplify_eq/=. exfalso. apply (Dj id); [by apply list_elem_of_lookup_2 in E'|left]. }
  pose proof (intern_spec id n Ok Hn) as I. unfold intern in *. rewrite Efw, Ef in I |- *. destruct I as (Ok' & _).
  split; [exact Ok'|]. split; [done|]. simpl. by rewrite Er, fmap_app.
Qed.

Lemma Forall2_of_exists {A C} (R : A → C → Prop) (l : list A) : (∀ x, x ∈ l → ∃ y, R x y) → ∃ ys, Forall2 R l ys.
Proof.
  induction l as [|x l IH]; intros E; [by exists []|]. destruct (E x ltac:(left)) as [y Hy].
  destruct IH as [ys Hys]; [intros z Hz; apply E; by right|]. exists (y :: ys). by constructor.
Qed.

Lemma slots_below_spec n slot : slot ∈ slots_below n ↔ (0 ≤ slot < n)%Z.
Proof.
  unfold slots_below. rewrite list_elem_of_fmap. split.
  - intros (k & -> & [_ Hk]%elem_of_seq). lia.
  - intros Hs. exists (Z.to_nat slot). rewrite elem_of_seq. split; lia.
Qed.

(** The live slots, in order, with their ids and records. *)
Lemma live_slots idx docs :
  index_ok idx docs →
  let l := rb_iter (sx_live idx) in
  ∃ ids recs, NoDup l ∧ Forall2 (λ s id, id_of s (sx_interner idx) = Some id) l ids ∧ NoDup ids ∧
    (∀ s, s ∈ l → (0 ≤ s)%Z ∧ sx_entities idx !! Z.to_nat s = Some (Some (recs s))) ∧
    (length l ≤ length (sx_entities idx))%nat ∧
    ∀ i s id, l !! i = Some s → ids !! i = Some id →
      in_forward (sx_interner idx) !! id = Some s ∧ ∃ d, docs !! id = Some d ∧ recs s = doc_record s d.
Proof.
  intros Ok l. pose proof (ix_interner _ _ Ok) as Oki.
  assert (NoDup l) as ND by apply sorted_NoDup, rb_iter_sorted.
  assert (∀ s, s ∈ l → ∃ id, in_forward (sx_interner idx) !! id = Some s ∧ is_Some (docs !! id)) as Hl
    by (intros s; unfold l; by rewrite rb_iter_spec, (ix_live _ _ Ok)).
  assert (∀ s, s ∈ l → (0 ≤ s)%Z) as Hpos by (intros s (id & [? _]%(in_agree _ Oki) & _)%Hl; done).
  destruct (Forall2_of_exists (λ s id, in_forward (sx_interner idx) !! id = Some s ∧ is_Some (docs !! id)) l Hl) as [ids F].
  exists ids, (λ s, default (mkEntityRecord 0 [] []) (record_at idx s)).
  assert (∀ i s id, l !! i = Some s → ids !! i = Some id → in_forward (sx_interner idx) !! id = Some s ∧ is_Some (docs !! id)) as Fi
    by (intros i s id Es Eid; exact (Forall2_lookup_lr _ _ _ _ _ _ F Es Eid)).
  assert (∀ s id d, in_forward (sx_interner idx) !! id = Some s → docs !! id = Some d → sx_entities idx !! Z.to_nat s = Some (Some (doc_record s d))) as He.
  { intros s id d E Ed. destruct (ix_docs _ _ Ok id d Ed) as (s' & E' & Er). congruence. }
  split_and!; [done| | | | |].
  - eapply Forall2_impl; [exact F|]. intros s id [E _]. apply id_of_spec; [done| |done]. by apply (in_agree _ Oki) in E as [? _].
  - apply NoDup_alt. intros i j id Ei Ej. destruct (Forall2_lookup_r _ _ _ _ _ F Ei) as (s & Es & E & _).
    destruct (Forall2_lookup_r _ _ _ _ _ F Ej) as (s' & Es' & E' & _). assert (s = s') as <- by congruence.
    by eapply NoDup_lookup.
  - intros s Hs. split; [by apply Hpos|]. destruct (Hl s Hs) as (id & E & d & Ed). unfold record_at. by rewrite (He s id d E Ed).
  - rewrite <-(length_fmap Z.to_nat l), <-(length_seq (length (sx_entities idx)) 0). apply submseteq_length, NoDup_submseteq.
    + apply NoDup_fmap_2_strong; [|done]. intros x y Hx Hy E. pose proof (Hpos x Hx). pose proof (Hpos y Hy). lia.
    + intros k (s & -> & Hs)%list_elem_of_fmap. destruct (Hl s Hs) as (id & E & d & Ed). apply He with (d := d) in E; [|done].
      apply lookup_lt_Some in E. rewrite elem_of_seq. lia.
  - intros i s id Es Eid. destruct (Fi i s id Es Eid) as [E [d Ed]]. split; [done|]. exists d. split; [done|].
    unfold record_at. by rewrite (He s id d E Ed).
Qed.

Lemma posted_compact (remap : gmap Z Z) (exact : gmap text B) tok slot :
  posted (filter (λ entry : text * B, rb_iter entry.2 ≠ []) (remap_bitmap remap <$> exact)) tok slot = true ↔
  ∃ old, posted exact tok old = true ∧ remap !! old = Some slot.
Proof.
  unfold posted. set (filtered := filter _ _).
  assert (∀ b, filtered !! tok = Some b ↔ ∃ b0, exact !! tok = Some b0 ∧ b = remap_bitmap remap b0 ∧ rb_iter b ≠ []) as L.
  { intros b. unfold filtered. rewrite map_lookup_filter_Some, lookup_fmap, fmap_Some. simpl. naive_solver. }
  assert (∀ b0 : B, rb_contains slot (remap_bitmap remap b0) = true ↔ ∃ old, rb_contains old b0 = true ∧ remap !! old = Some slot) as R.
  { intros b0. unfold remap_bitmap. rewrite rb_from_iter_spec, bool_decide_eq_true, list_elem_of_omap. by setoid_rewrite rb_iter_spec. }
  split.
  - destruct (filtered !! tok) as [b|] eqn:E; simpl; [|by rewrite rb_new_spec]. destruct (proj1 (L b) eq_refl) as (b0 & -> & -> & _). simpl. apply R.
  - intros (old & Hp & Hr). destruct (exact !! tok) as [b0|] eqn:E; simpl in Hp; [|by rewrite rb_new_spec in Hp].
    assert (rb_contains slot (remap_bitmap remap b0) = true) as Hc by (apply R; eauto).
    rewrite (proj2 (L (remap_bitmap remap b0))); [done|]. exists b0. split_and!; [done|done|].
    apply rb_iter_spec in Hc. intros En. rewrite En in Hc. by apply elem_of_nil in Hc.
Qed.

Lemma compact_ok idx docs :
  index_ok idx docs → (len (sx_entities idx) ≤ u32_max)%Z →
  index_ok (compact idx) docs ∧ (len (sx_entities (compact idx)) ≤ len (sx_entities idx))%Z.
Proof.
  intros Ok Hb. destruct (live_slots idx docs Ok) as (ids & recs & ND & F & NDi & Hl & Hlen & Hd).
  pose proof (ix_interner _ _ Ok) as Oki. unfold compact. set (l := rb_iter (sx_live idx)) in *.
  set (c := renumber 0 l (mkCompaction ∅ (sx_entities idx) [])). unfold len in Hb.
  destruct (renumber_spec recs 0 l (mkCompaction ∅ (sx_entities idx) []) ND Hl ltac:(lia) ltac:(unfold len; lia)) as (En & Eo & Ei).
  fold c in En, Eo, Ei. cbn [cp_new cp_remap app] in En, Eo.
  destruct (reintern_spec (sx_interner idx) l ids F NDi ltac:(unfold len; lia)) as (Ok' & Ef & Er).
  set (n := foldl (reintern (sx_interner idx)) interner_new l) in *.
  assert (u32_or_max (len l) = len l) as -> by (unfold u32_or_max, to_u32, len; by replace (_ <=? u32_max)%Z with true by lia).
  pose proof (Forall2_length _ _ _ F) as Hli.
  assert (∀ k, cp_new c !! k = (λ s, Some (mkEntityRecord (Z.of_nat k) (searchable_text (recs s)) (field_offsets (recs s)))) <$> l !! k) as Ec
    by (intros k; rewrite En; unfold renumbered; by rewrite list_lookup_imap).
  assert (∀ id slot, in_forward n !! id = Some slot ↔ (0 ≤ slot)%Z ∧ ids !! Z.to_nat slot = Some id) as Fw.
  { intros id slot. rewrite (in_agree n Ok'), Er, list_lookup_fmap. destruct (ids !! Z.to_nat slot); naive_solver. }
  assert (∀ i id d, ids !! i = Some id → docs !! id = Some d → cp_new c !! i = Some (Some (doc_record (Z.of_nat i) d))) as Hdoc.
  { intros i id d Ei' Ed. destruct (Forall2_lookup_r _ _ _ _ _ F Ei') as (s & Es & _). rewrite Ec, Es. simpl.
    destruct (Hd i s id Es Ei') as (_ & d' & Ed' & ->). assert (d = d') as <- by congruence. done. }
  assert (∀ i s, l !! i = Some s → ∃ id d, ids !! i = Some id ∧ docs !! id = Some d) as Hex.
  { intros i s Es. destruct (Forall2_lookup_l _ _ _ _ _ F Es) as (id & Eid & _). destruct (Hd i s id Es Eid) as (_ & d & Ed & _). eauto. }
  split; [|unfold len; cbn [sx_entities]; rewrite En; unfold renumbered; rewrite length_imap; lia].
  split; cbn [sx_interner sx_live sx_entities sx_exact]; [done|done| | | | | |].
  - rewrite En, Er. unfold renumbered. by rewrite length_imap, length_fmap.
  - intros k r. rewrite Ec. destruct (l !! k) as [s|]; [|done]. intros [= <-]. done.
  - intros k Hk. rewrite Ec. destruct (l !! k) as [s|] eqn:E; [simpl; eauto|].
    apply lookup_ge_None in E. rewrite En in Hk. unfold renumbered in Hk. rewrite length_imap in Hk. lia.
  - intros slot. rewrite rb_from_iter_spec, bool_decide_eq_true, slots_below_spec. split.
    + intros Hs. unfold len in Hs. destruct (lookup_lt_is_Some_2 l (Z.to_nat slot)) as [s Es]; [lia|].
      destruct (Hex _ s Es) as (id & d & Eid & Ed). exists id. rewrite Fw. split; [split; [lia|done]|by eexists].
    + intros (id & [Hs Eid]%Fw & _). apply lookup_lt_Some in Eid. unfold len. lia.
  - intros id d Ed. destruct (ix_docs _ _ Ok id d Ed) as (s & E & _).
    assert (s ∈ l) as Hs by (unfold l; rewrite rb_iter_spec, (ix_live _ _ Ok); exists id; split; [done|by eexists]).
    apply list_elem_of_lookup in Hs as [i Es]. destruct (Hex i s Es) as (id' & d' & Eid & _).
    destruct (Hd i s id' Es Eid) as [E' _]. assert (id' = id) as -> by (by apply (forward_slot_inj _ _ _ s Oki)).
    exists (Z.of_nat i). rewrite Fw, Nat2Z.id. split; [split; [lia|done]|]. by apply (Hdoc i id d).
  - intros tok slot. rewrite posted_compact. split.
    + intros (old & Hp & Hr). destruct (decide (old ∈ l)) as [Hin|Hout]; [|rewrite Eo, lookup_empty in Hr by done; done].
      pose proof Hin as Hin'. apply list_elem_of_lookup in Hin as [i Es]. rewrite (Ei i old Es) in Hr. injection Hr as <-.
      split; [lia|]. rewrite Ec. replace (Z.to_nat (0 + Z.of_nat i)) with i by lia. rewrite Es. simpl. eexists. split; [done|]. simpl.
      apply (ix_tokens _ _ Ok) in Hp as (_ & r & Er' & Ht). destruct (Hl old Hin') as [_ Er2]. congruence.
    + intros (Hs & r & Er' & Ht). rewrite Ec in Er'. destruct (l !! Z.to_nat slot) as [old|] eqn:Es; [|done]. injection Er' as <-.
      exists old. split; [|rewrite (Ei _ old Es); f_equal; lia]. destruct (Hl old ltac:(by apply list_elem_of_lookup_2 in Es)) as [Ho Eo'].
      apply (ix_tokens _ _ Ok). split; [done|]. eexists. split; [exact Eo'|done].
Qed.

Lemma index_remove_ok (above_threshold : Z → Z → bool) idx docs id :
  index_ok idx docs → (len (sx_entities idx) ≤ u32_max)%Z →
  index_ok (index_remove above_threshold id idx) (delete id docs) ∧
  (len (sx_entities (index_remove above_threshold id idx)) ≤ len (sx_entities idx))%Z.
Proof.
  intros Ok Hb. unfold index_remove, interner_lookup. destruct (in_forward (sx_interner idx) !! id) as [slot|] eqn:E.
  - destruct (rb_contains slot (sx_live idx)) eqn:El.
    + pose proof (unlive_ok idx docs id slot (sat_add (sx_dead_count idx) 1) Ok E) as Ok'. destruct (should_compact _ _); [|by split].
      exact (compact_ok _ _ Ok' Hb).
    + split; [|done]. rewrite delete_id; [done|]. destruct (docs !! id) as [d|] eqn:Ed; [|done].
      apply not_true_iff_false in El. destruct El. apply (ix_live _ _ Ok). exists id. split; [done|by eexists].
  - split; [|done]. rewrite delete_id; [done|]. destruct (docs !! id) as [d|] eqn:Ed; [|done].
    destruct (ix_docs _ _ Ok id d Ed) as (slot & E' & _). congruence.
Qed.
End index.

(** * What a search returns

    The tiers of a search, each a scan of the live records; the map that merges them; and the
    result: the best matches, whichever tiers were skipped. *)

Section rank.
Context {T Id B : Type} `{Countable Id} `{!Searchable T Id} `{!RoaringBitmap B}.
Context (fuzzy_match : text → text → option Z) (levenshtein : text → text → Z) (to_lowercase : text → text).
Context (hits_order : gmap Z (Score * Z) → list (Z * (Score * Z))).
Implicit Types (idx : SearchIndex Id B) (docs : gmap Id doc) (id : Id) (d : doc) (slot : Z) (lower : text)
  (x y : Score * Z) (hits : gmap Z (Score * Z)) (l : list (Z * (Score * Z))) (opts : SearchOptions).

(** ** The rank of a document in each tier *)

Definition exact_rank lower d : option (Score * Z) :=
  if decide (lower ∈ tokenize d.1) then Some (Exact, field_of_match lower (doc_record 0 d)) else None.
Definition subsequence_rank lower d : option (Score * Z) := snd <$> subsequence_hit fuzzy_match lower (doc_record 0 d).
Definition typo_rank lower (max_dist : Z) d : option (Score * Z) :=
  if (max_dist =? 0)%Z then None else snd <$> typo_hit levenshtein lower max_dist (doc_record 0 d).

(** The first of two. *)
Definition or_else (f g : doc → option (Score * Z)) d : option (Score * Z) := match f d with Some x => Some x | None => g d end.
Definition when (b : bool) (f : doc → option (Score * Z)) d : option (Score * Z) := if b then f d else None.

(** The rank of a document is that of the best tier it matches in. *)
Definition best lower opts : doc → option (Score * Z) :=
  or_else (or_else (exact_rank lower) (when (include_subsequence opts) (subsequence_rank lower)))
          (when (include_typo opts) (typo_rank lower (max_edit_distance opts))).

Lemma exact_rank_tier lower d x : exact_rank lower d = Some x → tier x.1 = 3%Z.
Proof. unfold exact_rank. case_decide; [|done]. by intros [= <-]. Qed.

Lemma subsequence_rank_tier lower d x : subsequence_rank lower d = Some x → tier x.1 = 1%Z.
Proof. unfold subsequence_rank, subsequence_hit. destruct (fuzzy_match _ _); [|done]. by intros [= <-]. Qed.

Lemma typo_rank_tier lower max_dist d x : typo_rank lower max_dist d = Some x → tier x.1 = 0%Z.
Proof.
  unfold typo_rank, typo_hit. destruct (max_dist =? 0)%Z; [done|]. destruct (foldl _ _ _) as [b|]; [|done]. by intros [= <-].
Qed.

(** ** Scans *)

(** The document at a live slot. *)
Definition at_slot idx docs slot d : Prop := ∃ id, in_forward (sx_interner idx) !! id = Some slot ∧ docs !! id = Some d.

Lemma at_slot_fun idx docs slot d d' : index_ok idx docs → at_slot idx docs slot d → at_slot idx docs slot d' → d = d'.
Proof.
  intros Ok (id & E & Ed) (id' & E' & Ed'). assert (id = id') as -> by (by apply (forward_slot_inj _ _ _ slot (ix_interner _ _ Ok))). congruence.
Qed.

Lemma at_slot_record idx docs slot d :
  index_ok idx docs → at_slot idx docs slot d → (0 ≤ slot)%Z ∧ sx_entities idx !! Z.to_nat slot = Some (Some (doc_record slot d)).
Proof.
  intros Ok (id & E & Ed). split; [by apply (in_agree _ (ix_interner _ _ Ok)) in E as [? _]|].
  destruct (ix_docs _ _ Ok id d Ed) as (slot' & E' & Er). congruence.
Qed.

Lemma live_at_slot idx docs slot : index_ok idx docs → rb_contains slot (sx_live idx) = true ↔ ∃ d, at_slot idx docs slot d.
Proof. intros Ok. rewrite (ix_live _ _ Ok). unfold at_slot, is_Some. naive_solver. Qed.

(** A scan lists, once each, the live slots whose document ranks. *)
Definition scans idx docs l (f : doc → option (Score * Z)) : Prop :=
  NoDup l.*1 ∧ ∀ slot x, (slot, x) ∈ l ↔ ∃ d, at_slot idx docs slot d ∧ f d = Some x.

Lemma omap_fst_NoDup {A} (f : A → option (Z * (Score * Z))) (key : A → Z) (l : list A) :
  (∀ a hit, f a = Some hit → hit.1 = key a) → NoDup (key <$> l) → NoDup (omap f l).*1.
Proof.
  intros K. induction l as [|a l IH]; simpl; [constructor|]. intros [Na ND]%NoDup_cons.
  destruct (f a) as [hit|] eqn:E; [|by apply IH]. simpl. constructor; [|by apply IH].
  rewrite (K a hit E). intros (hit' & Ek & (a' & Ha' & E')%list_elem_of_omap)%list_elem_of_fmap.
  apply Na. rewrite Ek, (K a' hit' E'). by apply list_elem_of_fmap_2.
Qed.

Lemma exact_scans idx docs lower : index_ok idx docs → scans idx docs (exact_scan idx lower) (exact_rank lower).
Proof.
  intros Ok. unfold exact_scan. assert (∀ slot hit, exact_hit idx lower slot = Some hit → hit.1 = slot) as K.
  { intros slot hit. unfold exact_hit. destruct (record_at idx slot); [|done]. by intros [= <-]. }
  assert (∀ slot, rb_contains slot (sx_live idx) = true → posted (sx_exact idx) lower slot = true ↔ ∃ d, at_slot idx docs slot d ∧ lower ∈ tokenize d.1) as Hp.
  { intros slot (d & Hd)%(live_at_slot _ docs); [|done]. destruct (at_slot_record _ _ _ _ Ok Hd) as [Hs Er]. rewrite (ix_tokens _ _ Ok). split.
    - intros (_ & r & Er' & Ht). exists d. split; [done|]. rewrite Er in Er'. by injection Er' as <-.
    - intros (d' & Hd' & Ht). rewrite (at_slot_fun _ _ _ _ _ Ok Hd' Hd) in Ht. split; [done|]. by exists (doc_record slot d). }
  assert (∀ slot d x, at_slot idx docs slot d → lower ∈ tokenize d.1 → exact_hit idx lower slot = Some (slot, x) ↔ exact_rank lower d = Some x) as Hx.
  { intros slot d x Hd Ht. destruct (at_slot_record _ _ _ _ Ok Hd) as [_ Er]. unfold exact_hit, record_at, exact_rank. rewrite Er, decide_True by done.
    simpl. split; by intros [= <-]. }
  destruct (sx_exact idx !! lower) as [b|] eqn:Eb.
  - split.
    { apply (omap_fst_NoDup _ id); [done|]. rewrite list_fmap_id. apply sorted_NoDup, rb_iter_sorted. }
    intros slot x. rewrite list_elem_of_omap. split.
    + intros (slot' & Hin & Eh). pose proof (K _ _ Eh) as <-. simpl in *. rewrite rb_iter_spec, rb_and_spec, andb_true_iff in Hin. destruct Hin as [Hc Hl].
      destruct (proj1 (Hp slot Hl)) as (d & Hd & Ht); [unfold posted; by rewrite Eb|]. exists d. split; [done|]. by apply (Hx slot d x).
    + intros (d & Hd & Ed). assert (lower ∈ tokenize d.1) as Ht by (unfold exact_rank in Ed; by case_decide). exists slot. split; [|by apply (Hx slot d x)].
      assert (rb_contains slot (sx_live idx) = true) as Hl by (apply (live_at_slot _ docs); [done|by exists d]).
      rewrite rb_iter_spec, rb_and_spec, andb_true_iff. split; [|done]. assert (posted (sx_exact idx) lower slot = true) as P by (apply Hp; eauto).
      unfold posted in P. by rewrite Eb in P.
  - split; [constructor|]. intros slot x. split; [by intros ?%elem_of_nil|]. intros (d & Hd & Ed).
    assert (lower ∈ tokenize d.1) as Ht by (unfold exact_rank in Ed; by case_decide).
    assert (posted (sx_exact idx) lower slot = true) as P by (apply Hp; [apply (live_at_slot _ docs); [done|]|]; eauto).
    unfold posted in P. rewrite Eb in P. simpl in P. by rewrite rb_new_spec in P.
Qed.

Lemma candidates_spec idx docs r : index_ok idx docs → r ∈ candidates idx ↔ ∃ slot d, at_slot idx docs slot d ∧ r = doc_record slot d.
Proof.
  intros Ok. unfold candidates. rewrite list_elem_of_In, filter_In, <-list_elem_of_In, list_elem_of_omap. split.
  - intros [(entry & Hin & ->) Hl]. apply list_elem_of_lookup in Hin as [k Ek]. pose proof (ix_record _ _ Ok k r Ek) as Ei.
    apply (live_at_slot _ docs) in Hl as [d Hd]; [|done]. exists (er_internal_id r), d. split; [done|].
    destruct (at_slot_record _ _ _ _ Ok Hd) as [Hs Er]. rewrite Ei, Nat2Z.id in Er. rewrite Ek in Er. injection Er as ->. by rewrite Ei.
  - intros (slot & d & Hd & ->). destruct (at_slot_record _ _ _ _ Ok Hd) as [Hs Er]. split.
    + exists (Some (doc_record slot d)). split; [by apply list_elem_of_lookup_2 in Er|done].
    + apply (live_at_slot _ docs); [done|by exists d].
Qed.

Lemma candidates_ids idx docs : index_ok idx docs → NoDup (er_internal_id <$> candidates idx).
Proof.
  intros Ok. unfold candidates. assert (∀ (p : EntityRecord → bool) (l : list EntityRecord), NoDup (er_internal_id <$> l) → NoDup (er_internal_id <$> List.filter p l)) as Fp.
  { intros p. induction l as [|r l IH]; simpl; [done|]. intros [Nr ND]%NoDup_cons. destruct (p r); [|by apply IH]. simpl. constructor; [|by apply IH].
    intros (r' & Er & [Hr' _]%list_elem_of_In%filter_In)%list_elem_of_fmap. apply Nr. rewrite Er. apply list_elem_of_fmap_2. by apply list_elem_of_In. }
  apply Fp. clear Fp. assert (∀ (l : list (option EntityRecord)) (k : nat), (∀ j r, l !! j = Some (Some r) → er_internal_id r = Z.of_nat (k + j)) →
    NoDup (er_internal_id <$> omap (λ entry, entry) l) ∧ ∀ i, i ∈ er_internal_id <$> omap (λ entry, entry) l → (Z.of_nat k ≤ i)%Z) as G.
  { induction l as [|[r|] l IH]; intros k Hl; [split; [constructor|by intros i ?%elem_of_nil]| |]; destruct (IH (S k)) as [ND Hge].
    - intros j r' E. rewrite (Hl (S j) r' E). f_equal. lia.
    - simpl. pose proof (Hl 0%nat r eq_refl) as E0. split; [|intros i [->|Hi%Hge]%elem_of_cons; lia]. constructor; [|done]. intros Hi%Hge. lia.
    - intros j r' E. rewrite (Hl (S j) r' E). f_equal. lia.
    - simpl. split; [done|]. intros i Hi%Hge. lia. }
  apply (G _ 0%nat). intros j r E. by apply (ix_record _ _ Ok).
Qed.

Lemma candidate_scans idx docs (hit : EntityRecord → option (Z * (Score * Z))) (f : doc → option (Score * Z)) :
  index_ok idx docs → (∀ slot d, hit (doc_record slot d) = (λ x, (slot, x)) <$> f d) → scans idx docs (omap hit (candidates idx)) f.
Proof.
  intros Ok Hf. assert (∀ r, hit r = (λ x, (er_internal_id r, x)) <$> f (searchable_text r, field_offsets r)) as Hf'
    by (intros [i t o]; apply (Hf i (t, o))).
  split.
  - apply (omap_fst_NoDup _ er_internal_id); [|by apply (candidates_ids _ docs)]. intros r h. rewrite Hf'. destruct (f _); [|done]. by intros [= <-].
  - intros slot x. rewrite list_elem_of_omap. setoid_rewrite (candidates_spec idx docs _ Ok). split.
    + intros (r & (slot' & d & Hd & ->) & Eh). rewrite Hf in Eh. destruct (f d) as [x'|] eqn:Ef; simplify_eq/=. eauto.
    + intros (d & Hd & Ef). exists (doc_record slot d). split; [eauto|]. by rewrite Hf, Ef.
Qed.

Lemma subsequence_scans idx docs lower : index_ok idx docs → scans idx docs (subsequence_scan fuzzy_match idx lower) (subsequence_rank lower).
Proof.
  intros Ok. apply candidate_scans; [done|]. intros slot d. unfold subsequence_rank, subsequence_hit, doc_record. simpl.
  by destruct (fuzzy_match d.1 lower).
Qed.

Lemma typo_scans idx docs lower max_dist :
  index_ok idx docs → scans idx docs (typo_scan levenshtein idx lower max_dist) (typo_rank lower max_dist).
Proof.
  intros Ok. unfold typo_scan, typo_rank. destruct (max_dist =? 0)%Z.
  - split; [constructor|]. intros slot x. split; [by intros ?%elem_of_nil|by intros (d & _ & ?)].
  - apply candidate_scans; [done|]. intros slot d. unfold typo_hit, doc_record. cbn [searchable_text er_internal_id].
    change (typo_token levenshtein lower max_dist (mkEntityRecord slot d.1 d.2)) with (typo_token levenshtein lower max_dist (mkEntityRecord 0 d.1 d.2)).
    by destruct (foldl _ _ _).
Qed.

(** ** Merging *)

Definition shows idx docs hits (f : doc → option (Score * Z)) : Prop :=
  ∀ slot x, hits !! slot = Some x ↔ ∃ d, at_slot idx docs slot d ∧ f d = Some x.

Lemma merge_hits_spec l hits :
  NoDup l.*1 →
  let hits' := foldl merge_hit hits l in
  (∀ slot, slot ∉ l.*1 → hits' !! slot = hits !! slot) ∧
  ∀ slot x, (slot, x) ∈ l → hits' !! slot = Some (match hits !! slot with
                                                  | Some cur => if score_gt x.1 cur.1 then x else cur
                                                  | None => x
                                                  end).
Proof.
  revert hits. induction l as [|[s y] l IH]; intros hits ND; [split; [done|by intros ? ? ?%elem_of_nil]|].
  apply NoDup_cons in ND as [Ns ND]. simpl in Ns. destruct (IH (merge_hit hits (s, y)) ND) as [Ho Hi]. simpl.
  assert (∀ slot, slot ≠ s → merge_hit hits (s, y) !! slot = hits !! slot) as Hne.
  { intros slot N. unfold merge_hit. simpl. destruct (hits !! s); [destruct (score_gt _ _); [|done]|]; by rewrite lookup_insert_ne. }
  split.
  - intros slot [N1 N2]%not_elem_of_cons. rewrite Ho by done. by apply Hne.
  - intros slot x [[= -> ->]|Hin]%elem_of_cons.
    + rewrite Ho by done. unfold merge_hit. simpl. destruct (hits !! s) as [cur|] eqn:E; [destruct (score_gt _ _); [|done]|]; by rewrite lookup_insert_eq.
    + rewrite (Hi slot x Hin), Hne; [done|]. intros ->. apply Ns. apply list_elem_of_fmap. by exists (s, x).
Qed.

Lemma shows_merge idx docs hits l f g :
  index_ok idx docs → shows idx docs hits f → scans idx docs l g →
  (∀ d x y, f d = Some x → g d = Some y → score_gt y.1 x.1 = false) → shows idx docs (foldl merge_hit hits l) (or_else f g).
Proof.
  intros Ok Hf [ND Hg] Hgt. destruct (merge_hits_spec l hits ND) as [Ho Hi]. intros slot x. unfold or_else.
  destruct (decide (slot ∈ l.*1)) as [Hin|Hout].
  - apply list_elem_of_fmap in Hin as ([s y] & -> & Hin). simpl in *. rewrite (Hi s y Hin). apply Hg in Hin as (d & Hd & Eg).
    assert (∀ d', at_slot idx docs s d' → d' = d) as Fun by (intros d' Hd'; by apply (at_slot_fun idx docs s)).
    destruct (hits !! s) as [cur|] eqn:E.
    + apply Hf in E as (d' & Hd' & Ef). pose proof (Fun d' Hd') as ->. rewrite (Hgt d cur y Ef Eg). split.
      * intros [= <-]. exists d. by rewrite Ef.
      * intros (d' & Hd2 & E). rewrite (Fun d' Hd2), Ef in E. done.
    + assert (f d = None) as Ef by (destruct (f d) as [x'|] eqn:Ef; [|done]; rewrite (proj2 (Hf s x')) in E by eauto; done). split.
      * intros [= <-]. exists d. by rewrite Ef.
      * intros (d' & Hd2 & E2). rewrite (Fun d' Hd2), Ef in E2. congruence.
  - rewrite Ho, (Hf slot x) by done. split; intros (d & Hd & E); exists d; (split; [done|]); [by rewrite E|].
    destruct (f d) as [x'|]; [done|]. exfalso. apply Hout, list_elem_of_fmap. exists (slot, x). split; [done|]. apply Hg. eauto.
Qed.

(** The exact tier starts from nothing. *)
Lemma shows_exact idx docs l f :
  scans idx docs l f → shows idx docs (foldl (λ hits hit, <[hit.1 := hit.2]> hits) ∅ l) f.
Proof.
  intros [ND Hl] slot x. rewrite <-Hl.
  assert (∀ hits, foldl (λ hits hit, <[hit.1 := hit.2]> hits) hits l !! slot = Some x ↔ (slot, x) ∈ l ∨ ((slot ∉ l.*1) ∧ hits !! slot = Some x)) as G.
  { clear Hl. induction l as [|[s y] l IH]; intros hits; simpl.
    - split; [intros E; right; split; [apply not_elem_of_nil|done]|by intros [?%elem_of_nil|[_ ?]]].
    - apply NoDup_cons in ND as [Ns ND]. simpl in Ns. rewrite (IH ND), elem_of_cons, not_elem_of_cons. destruct (decide (s = slot)) as [->|N].
      + rewrite lookup_insert_eq. split.
        * intros [?|[_ [= ->]]]; [by left; right|by left; left].
        * intros [[[= ->]|?]|[[? _] _]]; [by right|by left|done].
      + rewrite lookup_insert_ne by done. split.
        * intros [?|[? ?]]; [by left; right|by right].
        * intros [[[= -> ->]|?]|[[_ ?] ?]]; [done|by left|by right]. }
  rewrite G, lookup_empty. split; [by intros [?|[_ ?]]|by left].
Qed.

(** ** Skipped tiers *)

(** The hits are those of the best tiers; if some matches are missing there are enough hits
    without them, and every hit ranks at least as high. *)
Definition enough idx docs hits (f full : doc → option (Score * Z)) (limit : Z) : Prop :=
  shows idx docs hits f ∧ (∀ d x, f d = Some x → full d = Some x) ∧
  ∀ d x, full d = Some x → f d = None → (limit ≤ Z.of_nat (size hits))%Z ∧ ∀ d' y, f d' = Some y → ranks y.1 x.1.

Lemma enough_next idx docs hits f g l (b : bool) limit :
  index_ok idx docs → shows idx docs hits f → scans idx docs l g →
  (∀ d d' x y, f d = Some x → g d' = Some y → (tier y.1 < tier x.1)%Z) →
  let hits' := if b && (Z.of_nat (size hits) <? limit)%Z then foldl merge_hit hits l else hits in
  enough idx docs hits' (if b && (Z.of_nat (size hits) <? limit)%Z then or_else f g else f) (or_else f (when b g)) limit.
Proof.
  intros Ok Hf Hg Ht. destruct b; simpl.
  - destruct (Z.ltb_spec (Z.of_nat (size hits)) limit) as [L|L].
    + split_and!; [|done|].
      * apply shows_merge; try done. intros d x y Ef Eg. apply (tier_ranks x.1 y.1). by apply (Ht d d x y).
      * intros d x. unfold or_else, when. destruct (f d); [done|]. congruence.
    + split_and!; [done| |].
      * intros d x Ef. unfold or_else. by rewrite Ef.
      * intros d x Efull Ef. split; [done|]. intros d' y Ey. apply tier_ranks. unfold or_else, when in Efull. rewrite Ef in Efull. by apply (Ht d' d y x).
  - split_and!; [done| |].
    + intros d x Ef. unfold or_else. by rewrite Ef.
    + intros d x Efull Ef. unfold or_else in Efull. by rewrite Ef in Efull.
Qed.

Lemma collect_enough idx docs lower opts :
  index_ok idx docs → ∃ f, enough idx docs (collect_hits fuzzy_match levenshtein idx lower opts) f (best lower opts) (so_limit opts).
Proof.
  intros Ok. unfold collect_hits. set (hits0 := foldl _ _ (exact_scan idx lower)). set (limit := so_limit opts).
  pose proof (shows_exact idx docs _ _ (exact_scans idx docs lower Ok)) as S0. fold hits0 in S0.
  pose proof (enough_next idx docs hits0 (exact_rank lower) (subsequence_rank lower) (subsequence_scan fuzzy_match idx lower) (include_subsequence opts) limit Ok S0
    (subsequence_scans idx docs lower Ok)) as E1.
  destruct E1 as (S1 & Sub1 & Miss1).
  { intros d d' x y Ex Ey. rewrite (exact_rank_tier _ _ _ Ex), (subsequence_rank_tier _ _ _ Ey). lia. }
  match type of S1 with shows _ _ ?h ?f => set (hits1 := h) in *; set (f1 := f) in * end.
  assert (∀ d x, f1 d = Some x → (1 ≤ tier x.1)%Z) as T1.
  { intros d x Ef. apply Sub1 in Ef. unfold or_else, when in Ef. destruct (exact_rank lower d) as [x'|] eqn:Ee.
    - injection Ef as <-. rewrite (exact_rank_tier _ _ _ Ee). lia.
    - destruct (include_subsequence opts); [|done]. rewrite (subsequence_rank_tier _ _ _ Ef). lia. }
  pose proof (enough_next idx docs hits1 f1 (typo_rank lower (max_edit_distance opts)) (typo_scan levenshtein idx lower (max_edit_distance opts)) (include_typo opts) limit Ok S1
    (typo_scans idx docs lower (max_edit_distance opts) Ok)) as E2.
  destruct E2 as (S2 & Sub2 & Miss2).
  { intros d d' x y Ex Ey. rewrite (typo_rank_tier _ _ _ _ Ey). pose proof (T1 d x Ex). lia. }
  match type of S2 with shows _ _ ?h ?f => exists f; change (enough idx docs h f (best lower opts) limit) end.
  set (full1 := or_else (exact_rank lower) (when (include_subsequence opts) (subsequence_rank lower))) in *.
  destruct (include_typo opts && (Z.of_nat (size hits1) <? limit)%Z) eqn:Gate.
  - assert (∀ d, f1 d = None → full1 d = None) as Same.
    { intros d Ef. destruct (full1 d) as [x|] eqn:E; [|done]. destruct (Miss1 d x E Ef) as [L _]. apply andb_true_iff in Gate as [_ Gate]. lia. }
    assert (∀ d, best lower opts d = or_else f1 (when (include_typo opts) (typo_rank lower (max_edit_distance opts))) d) as Eb.
    { intros d. unfold best. fold full1. unfold or_else at 1 2. destruct (f1 d) as [x|] eqn:Ef; [by rewrite (Sub1 d x Ef)|by rewrite (Same d Ef)]. }
    split_and!; [done|intros d x; rewrite Eb; apply Sub2|intros d x; rewrite Eb; apply Miss2].
  - split_and!; [done| |].
    + intros d x Ef. unfold best. fold full1. unfold or_else at 1. by rewrite (Sub1 d x Ef).
    + intros d x. unfold best. fold full1. unfold or_else at 1. destruct (full1 d) as [x'|] eqn:E1.
      * intros [= ->] Ef. by apply (Miss1 d x).
      * intros Et Ef. apply (Miss2 d x); [|done]. unfold or_else at 1. by rewrite Ef.
Qed.

(** ** The result *)

(** Hits are distinct documents with their rank, the best first; fewer than the limit are all
    there are, and what is left out ranks no higher than anything returned. *)
Record ranked docs (rank : doc → option (Score * Z)) (limit : Z) (hs : list (Hit Id)) : Prop := {
  ranked_once : NoDup (hit_id <$> hs);
  ranked_hits : ∀ h, h ∈ hs → ∃ d, docs !! hit_id h = Some d ∧ rank d = Some (hit_score h, matched_field h);
  ranked_sorted : StronglySorted (λ h h', ranks (hit_score h) (hit_score h')) hs;
  ranked_limit : (0 ≤ limit → len hs ≤ limit)%Z;
  ranked_all : (len hs < limit)%Z → ∀ id d x, docs !! id = Some d → rank d = Some x → id ∈ hit_id <$> hs;
  ranked_best : ∀ id d x, docs !! id = Some d → rank d = Some x → id ∉ hit_id <$> hs → ∀ h, h ∈ hs → ranks (hit_score h) x.1
}.

Lemma take_z_take_drop {A} n (l : list A) : (0 ≤ n)%Z → take_z n l = take (Z.to_nat n) l ∧ (len (take_z n l) ≤ n)%Z.
Proof. intros Hn. rewrite take_z_take. split; [done|]. unfold len. rewrite length_take. lia. Qed.

Lemma omap_all {A C} (f : A → option C) (l : list A) (k : list C) : Forall2 (λ a c, f a = Some c) l k → omap f l = k.
Proof. induction 1 as [|a c l k E _ IH]; csimpl; [done|]. by rewrite E, IH. Qed.

Lemma Forall2_sorted {A C} (R : A → C → Prop) (S : relation A) (S' : relation C) (l : list A) (k : list C) :
  Forall2 R l k → (∀ a a' c c', R a c → R a' c' → S a a' → S' c c') → StronglySorted S l → StronglySorted S' k.
Proof.
  intros F HS. induction F as [|a c l k E F IH]; intros So; [constructor|]. inversion So as [|? ? So' Fa]; subst.
  constructor; [by apply IH|]. apply Forall_forall. intros c' Hc'. apply list_elem_of_lookup in Hc' as [i Ei].
  destruct (Forall2_lookup_r _ _ _ _ _ F Ei) as (a' & Ea & E'). apply (HS a a' c c' E E'). rewrite Forall_forall in Fa.
  apply Fa. by apply list_elem_of_lookup_2 in Ea.
Qed.

Lemma search_ranked idx docs query opts :
  (∀ m, hits_order m ≡ₚ map_to_list m) → index_ok idx docs → query ≠ [] → (0 ≤ so_limit opts)%Z →
  ranked docs (best (to_lowercase query) opts) (so_limit opts)
    (index_search fuzzy_match levenshtein to_lowercase hits_order idx query opts).
Proof.
  intros Ho Ok Nq Hlim. unfold index_search. rewrite bool_decide_false by done. simpl.
  destruct (Z.eqb_spec (so_limit opts) 0) as [E0|N0].
  { rewrite E0. split; simpl; [constructor|by intros h ?%elem_of_nil|constructor|done|done|by intros ? ? ? ? ? ? h ?%elem_of_nil]. }
  set (lower := to_lowercase query). destruct (collect_enough idx docs lower opts Ok) as (f & Sh & Sub & Miss).
  set (hits := collect_hits fuzzy_match levenshtein idx lower opts) in *. set (all := sort_hits (hits_order hits)).
  destruct (take_z_take_drop (so_limit opts) all Hlim) as [Et Hlen]. rewrite Et in *. set (shown := take (Z.to_nat (so_limit opts)) all) in *.
  assert (∀ slot x, (slot, x) ∈ all ↔ hits !! slot = Some x) as Hall
    by (intros slot x; unfold all; by rewrite sort_hits_perm, Ho, elem_of_map_to_list).
  assert (NoDup all.*1) as NDall by (unfold all; rewrite sort_hits_perm, Ho; apply NoDup_fst_map_to_list).
  assert (StronglySorted hit_ranks all) as Sall by apply sort_hits_sorted.
  assert (∀ h, h ∈ shown → h ∈ all) as Hsub by (intros h; apply elem_of_subseteq, subseteq_take).
  set (to_hit := λ hit : Z * (Score * Z), (λ id, mkHit id hit.2.1 hit.2.2) <$> id_of hit.1 (sx_interner idx)).
  assert (∀ slot x, (slot, x) ∈ all → ∃ id d, in_forward (sx_interner idx) !! id = Some slot ∧ docs !! id = Some d ∧ f d = Some x ∧
            to_hit (slot, x) = Some (mkHit id x.1 x.2)) as Hslot.
  { intros slot x Hin. apply Hall, Sh in Hin as (d & (id & E & Ed) & Ef). exists id, d. split_and!; [done|done|done|]. unfold to_hit. simpl.
    rewrite (proj2 (id_of_spec _ id slot (ix_interner _ _ Ok) (proj1 (proj1 (in_agree _ (ix_interner _ _ Ok) id slot) E)))); [done|done]. }
  destruct (Forall2_of_exists (λ hit h, to_hit hit = Some h) shown) as [hs F].
  { intros [slot x] Hin%Hsub. destruct (Hslot slot x Hin) as (id & d & _ & _ & _ & E). eauto. }
  fold to_hit. rewrite (omap_all _ _ _ F). pose proof (Forall2_length _ _ _ F) as Hls.
  assert (∀ i slot x h, shown !! i = Some (slot, x) → hs !! i = Some h →
    ∃ d, in_forward (sx_interner idx) !! hit_id h = Some slot ∧ docs !! hit_id h = Some d ∧ f d = Some x ∧ h = mkHit (hit_id h) x.1 x.2) as Hi.
  { intros i slot x h Es Eh. destruct (Hslot slot x) as (id & d & E & Ed & Ef & Eth); [by apply list_elem_of_lookup_2, Hsub in Es|].
    pose proof (Forall2_lookup_lr _ _ _ _ _ _ F Es Eh) as Eh'. cbv beta in Eh'. rewrite Eth in Eh'. injection Eh' as <-. simpl. eauto. }
  assert (∀ slot x, (slot, x) ∈ shown → ∃ h, h ∈ hs ∧ in_forward (sx_interner idx) !! hit_id h = Some slot) as Hback.
  { intros slot x Hin. apply list_elem_of_lookup in Hin as [i Es]. destruct (Forall2_lookup_l _ _ _ _ _ F Es) as (h & Eh & _).
    destruct (Hi i slot x h Es Eh) as (d & E & _). exists h. split; [by apply list_elem_of_lookup_2 in Eh|done]. }
  assert (∀ h, h ∈ hs → ∃ slot d, (slot, (hit_score h, matched_field h)) ∈ shown ∧ docs !! hit_id h = Some d ∧ f d = Some (hit_score h, matched_field h)) as Hh.
  { intros h Hin. apply list_elem_of_lookup in Hin as [i Eh]. destruct (Forall2_lookup_r _ _ _ _ _ F Eh) as ([slot x] & Es & _).
    destruct (Hi i slot x h Es Eh) as (d & E & Ed & Ef & ->). exists slot, d. simpl. destruct x. split_and!; [by apply list_elem_of_lookup_2 in Es|done|done]. }
  (* a document that ranks is shown, or is left out below everything shown *)
  assert (∀ id d x, docs !! id = Some d → best lower opts d = Some x → id ∈ hit_id <$> hs ∨ ((so_limit opts ≤ len hs)%Z ∧ ∀ h, h ∈ hs → ranks (hit_score h) x.1)) as Hcase.
  { intros id d x Ed Eb. destruct (ix_docs _ _ Ok id d Ed) as (slot & E & _). destruct (f d) as [x'|] eqn:Ef.
    - assert (x' = x) as -> by (apply Sub in Ef; congruence).
      assert ((slot, x) ∈ all) as Hin by (apply Hall, Sh; exists d; split; [by exists id|done]).
      rewrite <-(take_drop (Z.to_nat (so_limit opts)) all) in Hin. apply elem_of_app in Hin as [Hin|Hin].
      + left. destruct (Hback slot x Hin) as (h & Hin' & E'). apply list_elem_of_fmap. exists h. split; [|done].
        by apply (forward_slot_inj (sx_interner idx) id (hit_id h) slot (ix_interner _ _ Ok)).
      + right. split.
        * apply list_elem_of_lookup in Hin as [i Ei]. rewrite lookup_drop in Ei. apply lookup_lt_Some in Ei.
          unfold len. rewrite <-Hls. unfold shown. rewrite length_take. lia.
        * intros h (slot' & d' & Hin' & _)%Hh. exact (sorted_take_ranks _ _ _ _ Sall Hin' Hin).
    - right. destruct (Miss d x Eb Ef) as [L Hr]. split; [|intros h (slot' & d' & _ & _ & Ef')%Hh; exact (Hr d' _ Ef')].
      assert (length all = size hits) as Ea by (unfold all; by rewrite sort_hits_perm, Ho, length_map_to_list).
      unfold len. rewrite <-Hls. unfold shown. rewrite length_take. lia. }
  split.
  - apply NoDup_alt. intros i j id Ei Ej. rewrite list_lookup_fmap in Ei, Ej.
    destruct (hs !! i) as [h|] eqn:Eh; [|done]. destruct (hs !! j) as [h'|] eqn:Eh'; [|done]. injection Ei as Ei. injection Ej as Ej.
    destruct (Forall2_lookup_r _ _ _ _ _ F Eh) as ([slot x] & Es & _). destruct (Forall2_lookup_r _ _ _ _ _ F Eh') as ([slot' x'] & Es' & _).
    destruct (Hi i slot x h Es Eh) as (d & E & _). destruct (Hi j slot' x' h' Es' Eh') as (d' & E' & _).
    assert (slot = slot') as <- by congruence.
    assert (NoDup shown.*1) as NDs by (unfold shown; rewrite fmap_take; eapply sublist_NoDup; [exact NDall|apply sublist_take]).
    eapply (NoDup_lookup _ i j slot NDs); rewrite list_lookup_fmap; [by rewrite Es|by rewrite Es'].
  - intros h (slot & d & _ & Ed & Ef)%Hh. exists d. split; [done|]. by apply Sub.
  - eapply (Forall2_sorted _ hit_ranks); [exact F| |].
    + intros [s1 x1] [s2 x2] h1 h2 E1 E2 Hr. unfold to_hit in E1, E2. simpl in E1, E2. apply fmap_Some in E1 as (? & _ & ->), E2 as (? & _ & ->). exact Hr.
    + rewrite <-(take_drop (Z.to_nat (so_limit opts)) all) in Sall. by apply StronglySorted_app_1_l in Sall.
  - intros _. unfold len in *. by rewrite <-Hls.
  - intros L id d x Ed Eb. destruct (Hcase id d x Ed Eb) as [?|[L' _]]; [done|lia].
  - intros id d x Ed Eb N. destruct (Hcase id d x Ed Eb) as [?|[_ Hr]]; done.
Qed.
End rank.
