(* ===== verification/SearchTheorems.v ===== *)
(** * Theorems about search *)

From stdpp Require Import base strings numbers option countable gmap sets list sorting.
From S2P Require Import Prelude Order GraphTypes ServerTypes Fixtures SearchIndex SearchProof.

(** ** Histories of calls *)
Section history.
Context {P T B : Type} `{!Searchable T string} `{!RoaringBitmap B}.
Context (above_threshold : Z → Z → bool) (downcast : string → Item P → option T) (disabled : bool).
Implicit Types (reg : gmap string (SearchIndex string B)) (call : SearchCall P) (calls : list (SearchCall P)) (t : string).

(** The documents of a type, as the calls of the server describe them. *)
Definition describe t (docs : gmap string doc) call : gmap string doc :=
  match call with
  | IndexItem item =>
      if negb disabled && bool_decide (item_type item = t)
      then match downcast t item with Some entity => <[typed_id entity := doc_of entity]> docs | None => docs end
      else docs
  | RemoveEntity t' id => if bool_decide (t' = t) then delete id docs else docs
  end.
Definition documents t calls : gmap string doc := foldl (describe t) ∅ calls.

Abbreviation apply_calls := (foldl (apply_call above_threshold downcast disabled)).

Lemma built_registry (types : list string) t : (build_typed_registry types : gmap string (SearchIndex string B)) !! t = if decide (t ∈ types) then Some search_index_new else None.
Proof.
  unfold build_typed_registry. assert (∀ reg, foldl register_typed reg types !! t = if decide (t ∈ types) then Some search_index_new else reg !! t) as G; [|by rewrite G, lookup_empty].
  induction types as [|t' types IH]; intros reg; [by destruct (decide (t ∈ [])) as [?%elem_of_nil|]|].
  cbn [foldl]. rewrite IH. unfold register_typed.
  destruct (decide (t ∈ types)) as [Hin|Hout]; [by rewrite decide_True by (by right)|]. destruct (decide (t' = t)) as [->|N].
  - by rewrite lookup_insert_eq, decide_True by left.
  - rewrite lookup_insert_ne, decide_False by (done || by intros [?|?]%elem_of_cons). done.
Qed.

(** The index of a type follows the calls about that type, and no other. *)
Lemma apply_call_index reg t call :
  apply_call above_threshold downcast disabled reg call !! t =
    (λ idx, match call with
            | IndexItem item => if negb disabled && bool_decide (item_type item = t) then insert_dyn downcast t item idx else idx
            | RemoveEntity t' id => if bool_decide (t' = t) then index_remove above_threshold id idx else idx
            end) <$> reg !! t.
Proof.
  destruct call as [item|t' id]; simpl.
  - unfold index_item. destruct disabled; simpl; [by rewrite option_fmap_id|]. unfold registry_insert.
    destruct (decide (item_type item = t)) as [<-|N].
    + rewrite bool_decide_true by done. destruct (reg !! item_type item) as [idx|] eqn:E; [by rewrite lookup_insert_eq|by rewrite E].
    + rewrite bool_decide_false by done. rewrite option_fmap_id. destruct (reg !! item_type item); [by rewrite lookup_insert_ne|done].
  - unfold remove_entity, registry_remove. destruct (decide (t' = t)) as [<-|N].
    + rewrite bool_decide_true by done. destruct (reg !! t') as [idx|] eqn:E; [by rewrite lookup_insert_eq|by rewrite E].
    + rewrite bool_decide_false by done. rewrite option_fmap_id. destruct (reg !! t'); [by rewrite lookup_insert_ne|done].
Qed.

Lemma apply_calls_index (types : list string) t calls :
  (len calls ≤ u32_max)%Z →
  match apply_calls (build_typed_registry types) calls !! t with
  | Some idx => t ∈ types ∧ index_ok idx (documents t calls) ∧ (len (sx_entities idx) ≤ len calls)%Z
  | None => t ∉ types
  end.
Proof.
  induction calls as [|call calls IH] using rev_ind; intros Hb.
  { simpl. rewrite built_registry. case_decide; [|done]. split_and!; [done|apply search_index_new_ok|done]. }
  unfold len in Hb. rewrite length_app in Hb. cbn [length] in Hb. specialize (IH ltac:(unfold len; lia)).
  unfold documents. rewrite !foldl_app. simpl. fold (documents t calls). rewrite apply_call_index.
  destruct (apply_calls (build_typed_registry types) calls !! t) as [idx|]; simpl; [|done]. destruct IH as (Ht & Ok & Hl).
  assert (len (calls ++ [call]) = len calls + 1)%Z as -> by (unfold len; rewrite length_app; simpl; lia).
  split; [done|]. destruct call as [item|t' id]; simpl.
  - destruct (negb disabled && _); [|split; [done|lia]]. unfold insert_dyn. destruct (downcast t item) as [entity|]; [|split; [done|lia]].
    destruct (index_insert_ok idx (documents t calls) entity Ok) as [Ok' Hl']; [unfold len in *; lia|]. split; [done|lia].
  - case_bool_decide; [|split; [done|lia]]. destruct (index_remove_ok above_threshold idx (documents t calls) id Ok) as [Ok' Hl']; [unfold len in *; lia|].
    split; [done|lia].
Qed.
End history.

(** C30: A search returns the best matches: whatever was indexed, updated and removed before,
    with compactions whenever the index chose to compact, a search in a registered type
    returns distinct documents of that type as they were last indexed, each with the rank of
    the best tier it matches in, best first; if fewer than the limit are returned they are all
    that match, otherwise nothing that was left out ranks higher, although tiers are skipped;
    and the result does not depend on other types.  A type that is not registered has no
    results. *)
Theorem search_returns_the_best_matches {P T B} `{!Searchable T string} `{!RoaringBitmap B}
    (above_threshold : Z → Z → bool) (fuzzy_match : text → text → option Z) (levenshtein : text → text → Z) (to_lowercase : text → text)
    hits_order (downcast : string → Item P → option T) (disabled : bool) (types : list string) (calls : list (SearchCall P)) t query opts :
  (∀ m, hits_order m ≡ₚ map_to_list m) → (len calls ≤ u32_max)%Z → query ≠ [] → (0 ≤ so_limit opts)%Z →
  let reg := foldl (apply_call above_threshold downcast disabled) (build_typed_registry types : gmap string (SearchIndex string B)) calls in
  let hits := registry_search fuzzy_match levenshtein to_lowercase hits_order t query opts reg in
  (t ∈ types → ranked (documents downcast disabled t calls) (best fuzzy_match levenshtein (to_lowercase query) opts) (so_limit opts) hits) ∧
  (t ∉ types → hits = []).
Proof.
  intros Ho Hb Nq Hlim reg hits. unfold hits, registry_search.
  pose proof (apply_calls_index above_threshold downcast disabled types t calls Hb) as A. fold reg in A.
  destruct (reg !! t) as [idx|].
  - destruct A as (Ht & Ok & _). split; [intros _|done]. by apply search_ranked.
  - split; [done|]. by intros _.
Qed.

(** ** Concrete searches *)

#[export] Instance gset_bitmap : RoaringBitmap (gset Z).
Proof.
  refine {| rb_new := ∅; rb_contains x s := bool_decide (x ∈ s); rb_insert x s := {[x]} ∪ s; rb_remove x s := s ∖ {[x]};
            rb_and s s' := s ∩ s'; rb_iter s := bt_of_list (elements s); rb_from_iter l := list_to_set l |}.
  - intros x. by apply bool_decide_false.
  - intros x y s. apply eq_iff_eq_true. rewrite orb_true_iff, !bool_decide_eq_true. set_solver.
  - intros x y s. apply eq_iff_eq_true. rewrite andb_true_iff, negb_true_iff, bool_decide_eq_false, !bool_decide_eq_true. set_solver.
  - intros x s s'. apply eq_iff_eq_true. rewrite andb_true_iff, !bool_decide_eq_true. set_solver.
  - intros s. apply bt_of_list_sorted.
  - intros x s. by rewrite elem_of_bt_of_list, elem_of_elements, bool_decide_eq_true.
  - intros x l. apply bool_decide_ext. by rewrite elem_of_list_to_set.
Defined.

Module Sx.
Definition Payload : Type := list text.
Definition Found : Type := string * list text.

(** Characters by their codes. *)
Definition word (s : string) : text := (λ c, Z.of_N (Ascii.N_of_ascii c)) <$> String.list_ascii_of_string s.
Definition item (id : string) (fields : list string) : Item Payload := mkItem "Track" id (word <$> fields).

#[global] Instance found_searchable : Searchable Found string := {| typed_id := fst; searchable_values := snd |}.
Definition downcast (t : string) (i : Item Payload) : option Found := if bool_decide (t = "Track") then Some (item_id i, item_payload i) else None.

Fixpoint subsequence (hay needle : text) : bool :=
  match needle, hay with
  | [], _ => true
  | _, [] => false
  | c :: needle', d :: hay => if bool_decide (c = d) then subsequence hay needle' else subsequence hay needle
  end.
Definition fuzzy (hay needle : text) : option Z := if subsequence hay needle then Some (len needle) else None.
(** Replacements only. *)
Fixpoint distance (a b : text) : Z :=
  match a, b with
  | c :: a, d :: b => ((if bool_decide (c = d) then 0 else 1) + distance a b)%Z
  | a, b => (len a + len b)%Z
  end.
Definition lower (t : text) : text := (λ c, if (c =? 196)%Z then 228%Z else c) <$> make_ascii_lowercase t.
Definition never (dead total : Z) : bool := false.
Definition exactly : SearchOptions := mkOptions 100 2 false false.

Definition registry (calls : list (SearchCall Payload)) : gmap string (SearchIndex string (gset Z)) :=
  foldl (apply_call never downcast false) (build_typed_registry ["Track"]) calls.
Definition find (query : text) (opts : SearchOptions) (calls : list (SearchCall Payload)) : list (Hit string) :=
  registry_search fuzzy distance lower map_to_list "Track" query opts (registry calls).

Definition calls : list (SearchCall Payload) :=
  [IndexItem (item "t1" ["Main Mix"; "bus"]); IndexItem (item "t2" ["mixer"; "aux"]); IndexItem (item "t3" ["max"; "fx"]);
   IndexItem (item "t4" ["mix"; "old"]); RemoveEntity "Track" "t4"; IndexItem (item "t2" ["drums"; "mixer-left"])].
End Sx.

(** One exact hit, one subsequence, one typo; the removed track is not found. *)
Example tiers_in_order : (λ h, (hit_id h, hit_score h)) <$> Sx.find (Sx.word "MIX") options_default Sx.calls
  = [("t1", Exact); ("t2", Subsequence 3); ("t3", Typo 1)].
Proof. vm_compute. reflexivity. Qed.

Lemma search_returns_the_best_matches_witness :
  ranked (documents Sx.downcast false "Track" Sx.calls) (best Sx.fuzzy Sx.distance (Sx.lower (Sx.word "MIX")) options_default) 100
    (Sx.find (Sx.word "MIX") options_default Sx.calls).
Proof.
  refine (proj1 (search_returns_the_best_matches Sx.never Sx.fuzzy Sx.distance Sx.lower map_to_list Sx.downcast false ["Track"] Sx.calls
    "Track" (Sx.word "MIX") options_default (λ _, reflexivity _) _ _ _) _).
  - vm_compute. done.
  - vm_compute. done.
  - vm_compute. done.
  - left.
Defined.

(** *** Departures *)

(** Text is lowercased in ASCII only when it is indexed, and in Unicode when it is searched: a
    name with a capital letter outside ASCII is not found by its own text. *)
Lemma capital_umlaut_is_not_found :
  let name := [196; 112; 102; 101; 108]%Z in
  Sx.find name Sx.exactly [IndexItem (mkItem "Track" "t1" [name])] = [].
Proof. vm_compute. reflexivity. Qed.

(** The field of an exact hit is that of the first occurrence of the text, not of the token. *)
Lemma exact_hit_names_another_field :
  matched_field <$> Sx.find (Sx.word "mixer") Sx.exactly [IndexItem (Sx.item "t1" ["premixer"; "mixer"])] = [0%Z].
Proof. vm_compute. reflexivity. Qed.

(** The tier of prefixes is never given. *)
Lemma prefix_is_never_returned (fuzzy_match : text → text → option Z) (levenshtein : text → text → Z) lower opts d x :
  best fuzzy_match levenshtein lower opts d = Some x → x.1 ≠ Prefix.
Proof.
  unfold best, or_else, when. intros E Ep.
  destruct (exact_rank lower d) as [y|] eqn:E1; [apply exact_rank_tier in E1; injection E as ->; by rewrite Ep in E1|].
  destruct (include_subsequence opts), (subsequence_rank fuzzy_match lower d) as [y|] eqn:E2;
    try (apply subsequence_rank_tier in E2; injection E as ->; by rewrite Ep in E2);
    (destruct (include_typo opts); [|done]); apply typo_rank_tier in E; by rewrite Ep in E.
Qed.

(** A removal is still counted as a dead slot when its slot has come back to life. *)
Lemma revived_slots_are_counted_dead :
  (λ idx, (len (sx_entities idx), index_len idx, sx_dead_count idx)) <$>
    Sx.registry [IndexItem (Sx.item "t1" ["mix"]); RemoveEntity "Track" "t1"; IndexItem (Sx.item "t1" ["mix"]);
                 RemoveEntity "Track" "t1"; IndexItem (Sx.item "t1" ["mix"])] !! "Track" = Some (1, 1, 2)%Z.
Proof. vm_compute. reflexivity. Qed.
