(* ===== verification/CacheKey.v ===== *)
(** * Request contexts and cache keys

    [RequestContext] of [core/core/request.rs] and the keys under which
    [core/server/context.rs] caches query, view and report cells. *)

From Stdlib Require Import Ascii.
From stdpp Require Import base strings numbers option list.
From S2P Require Import Prelude.

#[local] Open Scope string_scope.
#[local] Open Scope Z_scope.

(** ** Request contexts *)

Inductive RequestCacheScope := Shared | PerClient.

#[export] Instance RequestCacheScope_eq_dec : EqDecision RequestCacheScope.
Proof. solve_decision. Defined.

(** [Uuid]s are kept as they are rendered, in the hyphenated form. *)
Record RequestContext := mkRequestContext {
  rc_tx : string;
  rc_client_id : option string;
  rc_lineage : list string;
  rc_host_id : string;
  rc_created_at : string;
  rc_windback : option string
}.

#[export] Instance RequestContext_eq_dec : EqDecision RequestContext.
Proof. solve_decision. Defined.

Implicit Types (req : RequestContext) (tx client_id host_id created_at now : string).

Definition context_new tx (client_id : option string) (lineage : list string) host_id created_at : RequestContext :=
  mkRequestContext tx client_id lineage host_id created_at None.

(** [now] is the clock's reading, in RFC 3339. *)
Definition from_client_with_windback now tx client_id host_id (windback : option string) : RequestContext :=
  mkRequestContext tx (Some client_id) ["client"] host_id now windback.

Definition from_client now tx client_id host_id : RequestContext :=
  mkRequestContext tx (Some client_id) ["client"] host_id now None.

Definition internal now tx host_id (origin : string) : RequestContext :=
  mkRequestContext tx None [origin] host_id now None.

(** [MykoServerContext::new_server_transaction]; [tx] is the fresh UUID. *)
Definition new_server_transaction now tx host_id : RequestContext :=
  mkRequestContext tx None [] host_id now None.

Definition child req (operation : string) : RequestContext :=
  mkRequestContext (rc_tx req) (rc_client_id req) (rc_lineage req ++ [operation]) (rc_host_id req)
    (rc_created_at req) (rc_windback req).

Definition is_windback req : bool := bool_decide (is_Some (rc_windback req)).

Definition origin req : string := match rc_lineage req with [] => "unknown" | o :: _ => o end.

Definition lineage_string req : string := String.concat " → " (rc_lineage req).

(** ** Keys *)

Definition hex_digit (d : Z) : ascii :=
  ascii_of_N (Z.to_N (if bool_decide (d < 10) then d + 48 else d + 87)).

(** [format!("{n:0kx}")] of a number of at most [k] hexadecimal digits. *)
Fixpoint hex (k : nat) (n : Z) : string :=
  match k with
  | O => ""
  | S k' => hex k' (Z.shiftr n 4) +:+ String (hex_digit (Z.land n 15)) ""
  end.

Definition hex16 (n : Z) : string := hex 16 n.

Definition cache_key_with_scope (kind id : string) (payload_hash : Z) req (scope : RequestCacheScope) : string :=
  let shared := rc_host_id req +:+ ":" +:+ kind +:+ ":" +:+ id +:+ ":" +:+ hex16 payload_hash in
  match scope with
  | Shared => shared
  | PerClient =>
      match rc_client_id req with
      | None => shared +:+ ":request-server"
      | Some client_id => shared +:+ ":request-client:" +:+ client_id
      end
  end.

Definition cache_key (kind id : string) (payload_hash : Z) req : string :=
  cache_key_with_scope kind id payload_hash req Shared.

(** ** Lemmas *)

#[local] Arguments String.append !_ _ / : assert.

Definition colon : ascii := ":"%char.

(** Names of types, kinds and rendered UUIDs hold no separator. *)
Fixpoint no_colon (s : string) : bool :=
  match s with
  | EmptyString => true
  | String c s' => negb (bool_decide (c = colon)) && no_colon s'
  end.

Lemma append_assoc (a b c : string) : (a +:+ b) +:+ c = a +:+ (b +:+ c).
Proof. induction a as [|x a IH]; simpl; [done|by rewrite IH]. Qed.

Lemma append_nil_r (a : string) : a +:+ "" = a.
Proof. induction a as [|x a IH]; simpl; [done|by rewrite IH]. Qed.

Lemma split_at_colon a b a' b' :
  no_colon a = true → no_colon a' = true → a +:+ String colon b = a' +:+ String colon b' → a = a' ∧ b = b'.
Proof.
  revert a'. induction a as [|x a IH]; intros [|x' a']; simpl; rewrite ?andb_true_iff, ?negb_true_iff, ?bool_decide_eq_false.
  - intros _ _ E. by injection E.
  - intros _ [N _] E. injection E as E _. by destruct N.
  - intros [N _] _ E. injection E as E _. by destruct N.
  - intros [_ N] [_ N'] E. injection E as -> E. destruct (IH a' N N' E) as [-> ->]. done.
Qed.

Lemma append_length_inj a b a' b' :
  String.length a = String.length a' → a +:+ b = a' +:+ b' → a = a' ∧ b = b'.
Proof.
  revert a'. induction a as [|x a IH]; intros [|x' a']; simpl; intros L E; try done.
  injection E as -> E. injection L as L. destruct (IH a' L E) as [-> ->]. done.
Qed.

Lemma hex_length k n : String.length (hex k n) = k.
Proof.
  revert n. induction k as [|k IH]; intros n; simpl; [done|].
  assert (∀ a b, String.length (a +:+ b) = (String.length a + String.length b)%nat) as La.
  { intros a b. induction a as [|x a IHa]; simpl; [done|by rewrite IHa]. }
  rewrite La, IH. simpl. lia.
Qed.

Lemma hex_digit_inj d e : 0 ≤ d < 16 → 0 ≤ e < 16 → hex_digit d = hex_digit e → d = e.
Proof.
  intros Hd He E. unfold hex_digit in E. apply (f_equal N_of_ascii) in E.
  rewrite !N_ascii_embedding in E by (repeat case_bool_decide; lia).
  apply Z2N.inj in E; repeat case_bool_decide; lia.
Qed.

Lemma nibble n : 0 ≤ Z.land n 15 < 16 ∧ n = Z.shiftr n 4 * 16 + Z.land n 15.
Proof.
  change 15 with (Z.ones 4). rewrite Z.land_ones, Z.shiftr_div_pow2 by lia. change (2 ^ 4) with 16.
  pose proof (Z.mod_pos_bound n 16). pose proof (Z.div_mod n 16). lia.
Qed.

Lemma hex_inj k n m : 0 ≤ n < 16 ^ Z.of_nat k → 0 ≤ m < 16 ^ Z.of_nat k → hex k n = hex k m → n = m.
Proof.
  revert n m. induction k as [|k IH]; intros n m Hn Hm E; simpl in E; [simpl in Hn, Hm; lia|].
  apply append_length_inj in E as [E Ed]; [|by rewrite !hex_length].
  destruct (nibble n) as [Bn Sn], (nibble m) as [Bm Sm].
  replace (16 ^ Z.of_nat (S k)) with (16 * 16 ^ Z.of_nat k) in Hn, Hm by (rewrite Nat2Z.inj_succ, Z.pow_succ_r; lia).
  injection Ed as Ed. apply hex_digit_inj in Ed; [|done..].
  apply IH in E; lia.
Qed.

Lemma hex16_inj n m : 0 ≤ n ≤ u64_max → 0 ≤ m ≤ u64_max → hex16 n = hex16 m → n = m.
Proof. intros Hn Hm. apply hex_inj; unfold u64_max in *; lia. Qed.

(** What tells two keys of one kind, operation and payload apart. *)
Definition key_suffix req (scope : RequestCacheScope) : string :=
  match scope with
  | Shared => ""
  | PerClient => match rc_client_id req with
                 | None => ":request-server"
                 | Some client_id => ":request-client:" +:+ client_id
                 end
  end.

Lemma cache_key_parts kind id h req scope :
  cache_key_with_scope kind id h req scope =
    rc_host_id req +:+ ":" +:+ kind +:+ ":" +:+ id +:+ ":" +:+ hex16 h +:+ key_suffix req scope.
Proof.
  unfold cache_key_with_scope, key_suffix. destruct scope; [|destruct (rc_client_id req)]; rewrite ?append_assoc; [|done..].
  by rewrite append_nil_r.
Qed.

Lemma key_suffix_inj req req' scope scope' :
  key_suffix req scope = key_suffix req' scope' ↔
    scope = scope' ∧ (scope = PerClient → rc_client_id req = rc_client_id req').
Proof.
  unfold key_suffix. destruct scope, scope', (rc_client_id req), (rc_client_id req'); simpl; split; intros; deex; simplify_eq; try done;
    naive_solver.
Qed.

Lemma cache_key_inj kind id h req scope kind' id' h' req' scope' :
  no_colon (rc_host_id req) = true → no_colon (rc_host_id req') = true →
  no_colon kind = true → no_colon kind' = true → no_colon id = true → no_colon id' = true →
  0 ≤ h ≤ u64_max → 0 ≤ h' ≤ u64_max →
  cache_key_with_scope kind id h req scope = cache_key_with_scope kind' id' h' req' scope' ↔
    rc_host_id req = rc_host_id req' ∧ kind = kind' ∧ id = id' ∧ h = h' ∧ scope = scope' ∧
    (scope = PerClient → rc_client_id req = rc_client_id req').
Proof.
  intros H1 H2 H3 H4 H5 H6 H7 H8. rewrite !cache_key_parts. split.
  - intros E. apply split_at_colon in E as [Eh E]; [|done..].
    apply split_at_colon in E as [Ek E]; [|done..]. apply split_at_colon in E as [Ei E]; [|done..].
    apply append_length_inj in E as [Ex E]; [|by unfold hex16; rewrite !hex_length].
    apply key_suffix_inj in E as [Es Ec]. apply hex16_inj in Ex; [|done..]. naive_solver.
  - intros (-> & -> & -> & -> & -> & Ec). f_equal. f_equal. f_equal. f_equal. f_equal. f_equal. f_equal.
    by apply key_suffix_inj.
Qed.
