(* ===== verification/CellCache.v ===== *)
(** * The caches of query, view and report cells

    [core/server/context.rs]: queries, views and reports are materialized once per key and
    shared.  A cache only has weak handles on its cells, so an entry dies with the last
    subscriber, and a per-key gate keeps two threads from building the same cell.

    A request is a small program ([Phase]): look the key up, take the gate, look again,
    build, publish, let go of the gate, project.  Every call on a shared map and every lock
    operation is one step, and [act] runs the threads of the server, the owners of the cells
    and the periodic sweep in any order.  The nested requests of a build are a parameter, as
    the build is application code; everything it holds can be dropped at any time. *)

From stdpp Require Import base strings numbers option gmap gmultiset list.
From S2P Require Import Prelude CacheKey.

(** ** Requests *)

Inductive CacheKind := QueryCache | ViewCache | ReportCache.

#[export] Instance CacheKind_eq_dec : EqDecision CacheKind.
Proof. solve_decision. Defined.

Definition kind_name (kind : CacheKind) : string :=
  match kind with QueryCache => "query" | ViewCache => "view" | ReportCache => "report" end.

(** [rq_hash] is [cache_key_hash] of the parameters, [rq_typed] the type of the projection
    that [query_map], [query_map_by_str] and [view] put on top of the cached map. *)
Record Request := mkRequest {
  rq_kind : CacheKind;
  rq_id : string;
  rq_hash : Z;
  rq_scope : RequestCacheScope;
  rq_context : RequestContext;
  rq_typed : option string
}.

Definition rq_key (r : Request) : string :=
  cache_key_with_scope (kind_name (rq_kind r)) (rq_id r) (rq_hash r) (rq_context r) (rq_scope r).

(** The entry points. *)
Definition query_map_untyped (id : string) (hash : Z) (request : RequestContext) : Request :=
  mkRequest QueryCache id hash Shared request None.
(** The projection is keyed by typed ids or by strings, which are two types. *)
Definition query_map (id : string) (hash : Z) (request : RequestContext) (item : string) : Request :=
  mkRequest QueryCache id hash Shared request (Some (item +:+ "::Id")).
Definition query_map_by_str (id : string) (hash : Z) (request : RequestContext) (item : string) : Request :=
  mkRequest QueryCache id hash Shared request (Some (item +:+ "::str")).
Definition view_map_untyped (id : string) (hash : Z) (scope : RequestCacheScope) (request : RequestContext) : Request :=
  mkRequest ViewCache id hash scope request None.
Definition view (id : string) (hash : Z) (scope : RequestCacheScope) (request : RequestContext) (item : string) : Request :=
  mkRequest ViewCache id hash scope request (Some (item +:+ "::str")).
Definition report (id : string) (hash : Z) (scope : RequestCacheScope) (request : RequestContext) : Request :=
  mkRequest ReportCache id hash scope request None.

(** ** State *)

(** A cell is named by a number; it was built for a request, or projects another one. *)
Inductive CellInfo :=
| Materialized (built_for : Request)
| Projected (type_key : string) (source : nat).

Record MapCacheEntry := mkEntry {
  ce_weak : nat;
  (** weak handles on the typed projections *)
  ce_typed : gmap string nat
}.

(** A gate is named by the key it was made for and a number. *)
Abbreviation Gate := (string * nat)%type.

Inductive Phase :=
| FastPath                              (* [try_get_cached] *)
| FastEvict                             (* its [cache.remove], after the guard was dropped *)
| TakeGate                              (* [compute_gates.entry(key).or_insert_with(..)] *)
| AwaitGate (gate : Gate)               (* [gate.lock()] *)
| Recheck (gate : Gate)
| RecheckEvict (gate : Gate)
| Computing (gate : Gate) (nested : list Request)
| Publish (gate : Gate) (cell : nat)    (* [cache.insert] *)
| RemoveGate (gate : Gate) (cell : nat) (* [compute_gates.remove] *)
| Unlock (gate : Gate) (cell : nat)     (* [_lock] is dropped *)
| Project (cell : nat)                  (* [typed_projection] *)
| Reinsert (cell : nat)
| ProjectAgain (cell : nat)
| Finished (cell : nat).

Record Frame := mkFrame { fr_request : Request; fr_phase : Phase }.

Record ReportCounts := mkReportCounts { hits : Z; hits_after_gate : Z; misses : Z }.

Record World := mkWorld {
  w_query_cache : gmap string MapCacheEntry;
  w_view_cache : gmap string MapCacheEntry;
  w_report_cache : gmap string MapCacheEntry;
  w_compute_gates : gmap string Gate;
  (** the thread that has locked a gate *)
  w_owner : gmap Gate nat;
  w_cells : gmap nat CellInfo;
  (** the strong handles that requests have returned *)
  w_pool : gmultiset nat;
  (** the requests of each thread, innermost first *)
  w_threads : gmap nat (list Frame);
  w_report_stats : gmap string ReportCounts;
  w_next : nat
}.
Implicit Types (w : World) (r q : Request) (kind : CacheKind) (key : string) (tid c p : nat) (gate : Gate) (ph : Phase).

Definition w_empty : World := mkWorld ∅ ∅ ∅ ∅ ∅ ∅ ∅ ∅ ∅ 0.

Definition cache_of kind w : gmap string MapCacheEntry :=
  match kind with QueryCache => w_query_cache w | ViewCache => w_view_cache w | ReportCache => w_report_cache w end.

Definition with_cache kind (f : gmap string MapCacheEntry → gmap string MapCacheEntry) w : World :=
  let on k m := if decide (k = kind) then f m else m in
  mkWorld (on QueryCache (w_query_cache w)) (on ViewCache (w_view_cache w)) (on ReportCache (w_report_cache w))
    (w_compute_gates w) (w_owner w) (w_cells w) (w_pool w) (w_threads w) (w_report_stats w) (w_next w).

Definition with_gates (f : gmap string Gate → gmap string Gate) w : World :=
  mkWorld (w_query_cache w) (w_view_cache w) (w_report_cache w) (f (w_compute_gates w)) (w_owner w) (w_cells w)
    (w_pool w) (w_threads w) (w_report_stats w) (w_next w).

Definition with_owner (f : gmap Gate nat → gmap Gate nat) w : World :=
  mkWorld (w_query_cache w) (w_view_cache w) (w_report_cache w) (w_compute_gates w) (f (w_owner w)) (w_cells w)
    (w_pool w) (w_threads w) (w_report_stats w) (w_next w).

Definition with_pool (f : gmultiset nat → gmultiset nat) w : World :=
  mkWorld (w_query_cache w) (w_view_cache w) (w_report_cache w) (w_compute_gates w) (w_owner w) (w_cells w)
    (f (w_pool w)) (w_threads w) (w_report_stats w) (w_next w).

Definition with_stack tid (stack : list Frame) w : World :=
  mkWorld (w_query_cache w) (w_view_cache w) (w_report_cache w) (w_compute_gates w) (w_owner w) (w_cells w)
    (w_pool w) (<[tid := stack]> (w_threads w)) (w_report_stats w) (w_next w).

Definition with_stats (f : gmap string ReportCounts → gmap string ReportCounts) w : World :=
  mkWorld (w_query_cache w) (w_view_cache w) (w_report_cache w) (w_compute_gates w) (w_owner w) (w_cells w)
    (w_pool w) (w_threads w) (f (w_report_stats w)) (w_next w).

(** A new cell; its number is [w_next] of the world before. *)
Definition allocate (info : CellInfo) w : World :=
  mkWorld (w_query_cache w) (w_view_cache w) (w_report_cache w) (w_compute_gates w) (w_owner w)
    (<[w_next w := info]> (w_cells w)) (w_pool w) (w_threads w) (w_report_stats w) (S (w_next w)).

Definition next_number w : World :=
  mkWorld (w_query_cache w) (w_view_cache w) (w_report_cache w) (w_compute_gates w) (w_owner w) (w_cells w)
    (w_pool w) (w_threads w) (w_report_stats w) (S (w_next w)).

Definition stack_of tid w : list Frame := default [] (w_threads w !! tid).

(** ** Weak handles *)

Definition phase_handle ph : option nat :=
  match ph with
  | Publish _ c | RemoveGate _ c | Unlock _ c | Project c | Reinsert c | ProjectAgain c | Finished c => Some c
  | FastPath | FastEvict | TakeGate | AwaitGate _ | Recheck _ | RecheckEvict _ | Computing _ _ => None
  end.

(** Somebody has a strong handle: a caller, or a request in progress. *)
Definition held w c : Prop :=
  c ∈ w_pool w ∨ map_Exists (λ _ stack, Exists (λ f, phase_handle (fr_phase f) = Some c) stack) (w_threads w).

#[export] Instance held_dec w c : Decision (held w c).
Proof. unfold held. apply _. Defined.

Definition projects w c p (info : CellInfo) : Prop :=
  match info with Projected _ source => source = c ∧ held w p | Materialized _ => False end.

#[export] Instance projects_dec w c p info : Decision (projects w c p info).
Proof. destruct info; apply _. Defined.

(** A projection owns the subscription to its source, which keeps the source alive. *)
Definition alive w c : Prop := held w c ∨ map_Exists (projects w c) (w_cells w).

#[export] Instance alive_dec w c : Decision (alive w c).
Proof. unfold alive. apply _. Defined.

(** ** The operations on a cache *)

Inductive Lookup := Missing | Dead | Live (cell : nat).

(** [cache.get(key)] and [weak.upgrade()], under the guard of the entry. *)
Definition lookup_cached kind key w : Lookup :=
  match cache_of kind w !! key with
  | None => Missing
  | Some entry => if decide (alive w (ce_weak entry)) then Live (ce_weak entry) else Dead
  end.

Definition cache_remove kind key w : World := with_cache kind (delete key) w.
Definition cache_insert kind key c w : World := with_cache kind <[key := mkEntry c ∅]> w.

Definition record (f : ReportCounts → ReportCounts) r w : World :=
  match rq_kind r with
  | ReportCache => with_stats (λ stats, <[rq_id r := f (default (mkReportCounts 0 0 0) (stats !! rq_id r))]> stats) w
  | QueryCache | ViewCache => w
  end.

Definition fetch_add_1 (n : Z) : Z := ((n + 1) `mod` (u64_max + 1))%Z.

Definition record_hit : Request → World → World :=
  record (λ n, mkReportCounts (fetch_add_1 (hits n)) (hits_after_gate n) (misses n)).
Definition record_hit_after_gate : Request → World → World :=
  record (λ n, mkReportCounts (hits n) (fetch_add_1 (hits_after_gate n)) (misses n)).
Definition record_miss : Request → World → World :=
  record (λ n, mkReportCounts (hits n) (hits_after_gate n) (fetch_add_1 (misses n))).

(** [MapCacheEntry::get_or_create_typed] of the entry under the key, if there is one. *)
Definition get_or_create_typed kind key (type_key : string) w : option (World * nat) :=
  match cache_of kind w !! key with
  | None => None
  | Some entry =>
      if decide (alive w (ce_weak entry)) then
        let create :=
          let p := w_next w in
          let entry' := mkEntry (ce_weak entry) (<[type_key := p]> (ce_typed entry)) in
          Some (with_cache kind <[key := entry']> (allocate (Projected type_key (ce_weak entry)) w), p) in
        match ce_typed entry !! type_key with
        | Some p => if decide (alive w p) then Some (w, p) else create
        | None => create
        end
      else None
  end.

(** What a request does with the shared cell. *)
Definition returned r c : Phase := match rq_typed r with None => Finished c | Some _ => Project c end.

(** A projection that is not cached. *)
Definition uncached (type_key : string) c w : World * Phase :=
  (allocate (Projected type_key c) w, Finished (w_next w)).

(** ** The steps of a request *)
Section machine.
(** The requests a build makes, in order. *)
Variable nested : Request → list Request.

(** One step of a request in phase [ph] of thread [tid]; [None] when it has to wait. *)
Definition step tid r ph w : option (World * Phase) :=
  let kind := rq_kind r in
  let key := rq_key r in
  match ph with
  | FastPath =>
      match lookup_cached kind key w with
      | Live c => Some (record_hit r w, returned r c)
      | Dead => Some (w, FastEvict)
      | Missing => Some (w, TakeGate)
      end
  | FastEvict => Some (cache_remove kind key w, TakeGate)
  | TakeGate =>
      match w_compute_gates w !! key with
      | Some gate => Some (w, AwaitGate gate)
      | None =>
          let gate := (key, w_next w) in
          Some (with_gates <[key := gate]> (next_number w), AwaitGate gate)
      end
  | AwaitGate gate =>
      match w_owner w !! gate with
      | None => Some (with_owner <[gate := tid]> w, Recheck gate)
      | Some _ => None
      end
  | Recheck gate =>
      match lookup_cached kind key w with
      | Live c => Some (record_hit_after_gate r w, Unlock gate c)
      | Dead => Some (w, RecheckEvict gate)
      | Missing => Some (w, Computing gate (nested r))
      end
  | RecheckEvict gate => Some (cache_remove kind key w, Computing gate (nested r))
  | Computing gate [] => Some (allocate (Materialized r) w, Publish gate (w_next w))
  | Computing _ (_ :: _) => None
  | Publish gate c => Some (cache_insert kind key c w, RemoveGate gate c)
  | RemoveGate gate c => Some (record_miss r (with_gates (delete key) w), Unlock gate c)
  | Unlock gate c => Some (with_owner (delete gate) w, returned r c)
  | Project c =>
      match rq_typed r with
      | None => Some (w, Finished c)
      | Some type_key =>
          match get_or_create_typed kind key type_key w with
          | Some (w', p) => Some (w', Finished p)
          | None => match kind with
                    | ViewCache => Some (uncached type_key c w)
                    | QueryCache | ReportCache => Some (w, Reinsert c)
                    end
          end
      end
  | Reinsert c => Some (cache_insert kind key c w, ProjectAgain c)
  | ProjectAgain c =>
      match rq_typed r with
      | None => Some (w, Finished c)
      | Some type_key =>
          match get_or_create_typed kind key type_key w with
          | Some (w', p) => Some (w', Finished p)
          | None => Some (uncached type_key c w)
          end
      end
  | Finished _ => None
  end.

(** One step of the innermost request of a thread: it calls the next nested request, hands
    its handle over to its caller, or moves on. *)
Definition run_thread tid w : option World :=
  match stack_of tid w with
  | [] => None
  | mkFrame r (Computing gate (q :: rest)) :: below =>
      Some (with_stack tid (mkFrame q FastPath :: mkFrame r (Computing gate rest) :: below) w)
  | mkFrame r (Finished c) :: below => Some (with_pool (λ pool, {[+ c +]} ⊎ pool) (with_stack tid below w))
  | mkFrame r ph :: below =>
      match step tid r ph w with
      | Some (w', ph') => Some (with_stack tid (mkFrame r ph' :: below) w')
      | None => None
      end
  end.

Inductive Action :=
| Arrive (tid : nat) (request : Request)
| Run (tid : nat)
| Panic (tid : nat)                            (* a build panics and its thread unwinds *)
| DropHandle (cell : nat)
| SweepEntry (kind : CacheKind) (key : string).

Definition computing ph : bool := match ph with Computing _ _ => true | _ => false end.

(** The guards of an unwinding thread unlock their gates; the poison is ignored. *)
Definition unwind tid w : World := with_owner (filter (λ '(_, owner), owner ≠ tid)) (with_stack tid [] w).

(** [retain(|_, entry| entry.weak.upgrade().is_some())], entry by entry. *)
Definition sweep_entry kind key w : World :=
  match lookup_cached kind key w with Dead => cache_remove kind key w | Missing | Live _ => w end.

Definition act (a : Action) w : option World :=
  match a with
  | Arrive tid r => match stack_of tid w with [] => Some (with_stack tid [mkFrame r FastPath] w) | _ :: _ => None end
  | Run tid => run_thread tid w
  | Panic tid => match stack_of tid w with
                 | f :: _ => if computing (fr_phase f) then Some (unwind tid w) else None
                 | [] => None
                 end
  | DropHandle c => if decide (c ∈ w_pool w) then Some (with_pool (λ pool, pool ∖ {[+ c +]}) w) else None
  | SweepEntry kind key => Some (sweep_entry kind key w)
  end.

Fixpoint run (actions : list Action) w : option World :=
  match actions with
  | [] => Some w
  | a :: rest => match act a w with Some w' => run rest w' | None => None end
  end.

End machine.

(** ** Counting and sweeping *)

Definition live_count kind w : nat :=
  size (filter (λ '(_, entry), alive w (ce_weak entry)) (cache_of kind w)).
Definition cache_len kind w : nat := size (cache_of kind w).

Definition retain_live w (cache : gmap string MapCacheEntry) : gmap string MapCacheEntry :=
  filter (λ '(_, entry), alive w (ce_weak entry)) cache.

Definition sweep_dead_cache_entries w : World :=
  with_cache ReportCache (retain_live w) (with_cache ViewCache (retain_live w) (with_cache QueryCache (retain_live w) w)).
