(* ===== verification/CellCacheProof.v ===== *)
(** * What the cell caches hand out

    Runs of [CellCache.act]: the parts of the world a step leaves alone, and the invariant
    that an entry, and the handle of a request in progress, is of a cell that was built for
    the same key. *)

From stdpp Require Import base strings numbers option gmap gmultiset list.
From S2P Require Import Prelude CacheKey CellCache.

Implicit Types (w : World) (r q : Request) (kind : CacheKind) (key : string) (tid c p : nat) (gate : Gate) (ph : Phase).
Implicit Types (f : Frame) (a : Action).

(** ** Projections *)

Lemma cache_of_with_cache kind kind' F w :
  cache_of kind (with_cache kind' F w) = if decide (kind = kind') then F (cache_of kind w) else cache_of kind w.
Proof. destruct kind, kind'; reflexivity. Qed.

Lemma cache_of_same w w' :
  w_query_cache w' = w_query_cache w → w_view_cache w' = w_view_cache w → w_report_cache w' = w_report_cache w →
  ∀ kind, cache_of kind w' = cache_of kind w.
Proof. intros E1 E2 E3 []; simpl; congruence. Qed.

Lemma stack_of_with_stack tid tid' stack w :
  stack_of tid (with_stack tid' stack w) = if decide (tid = tid') then stack else stack_of tid w.
Proof.
  unfold stack_of, with_stack. simpl. destruct (decide (tid = tid')) as [->|N].
  - by rewrite lookup_insert_eq.
  - by rewrite lookup_insert_ne.
Qed.

Lemma stack_of_threads w w' : w_threads w' = w_threads w → ∀ tid, stack_of tid w' = stack_of tid w.
Proof. unfold stack_of. by intros ->. Qed.

Lemma record_same F r w :
  w_query_cache (record F r w) = w_query_cache w ∧ w_view_cache (record F r w) = w_view_cache w ∧
  w_report_cache (record F r w) = w_report_cache w ∧ w_compute_gates (record F r w) = w_compute_gates w ∧
  w_owner (record F r w) = w_owner w ∧ w_cells (record F r w) = w_cells w ∧ w_pool (record F r w) = w_pool w ∧
  w_threads (record F r w) = w_threads w ∧ w_next (record F r w) = w_next w.
Proof. unfold record. destruct (rq_kind r); repeat split. Qed.

Lemma record_eq F r w :
  record F r w = with_stats (λ _, w_report_stats (record F r w)) w.
Proof. unfold record. by destruct w, (rq_kind r). Qed.

(** ** Runs *)

Lemma run_invariant nested (I : World → Prop) (A : Action → Prop) :
  (∀ a w w', A a → act nested a w = Some w' → I w → I w') →
  ∀ actions w w', Forall A actions → run nested actions w = Some w' → I w → I w'.
Proof.
  intros Hs actions. induction actions as [|a rest IH]; intros w w' Ha E Iw; simpl in E; [congruence|].
  inversion Ha as [|? ? Aa Arest]; subst. destruct (act nested a w) as [w1|] eqn:E1; [|done]. eauto.
Qed.

Lemma run_app nested l1 l2 w :
  run nested (l1 ++ l2) w = run nested l1 w ≫= run nested l2.
Proof. revert w. induction l1 as [|a l1 IH]; intros w; simpl; [done|]. destruct (act nested a w); [apply IH|done]. Qed.

(** A step of a request only changes the caches, gates, cells and statistics. *)
Lemma step_leaves nested tid r ph w w' ph' :
  step nested tid r ph w = Some (w', ph') → w_threads w' = w_threads w ∧ w_pool w' = w_pool w.
Proof.
  unfold step, record_hit, record_hit_after_gate, record_miss, get_or_create_typed, uncached. intros E.
  repeat case_match; simplify_eq/=; try done; rewrite record_eq; done.
Qed.

(** The cases of a thread's step. *)
Inductive thread_step nested tid w : World → Prop :=
| Thread_call r gate q rest below :
    stack_of tid w = mkFrame r (Computing gate (q :: rest)) :: below →
    thread_step nested tid w (with_stack tid (mkFrame q FastPath :: mkFrame r (Computing gate rest) :: below) w)
| Thread_return r c below :
    stack_of tid w = mkFrame r (Finished c) :: below →
    thread_step nested tid w (with_pool (λ pool, {[+ c +]} ⊎ pool) (with_stack tid below w))
| Thread_step r ph below w' ph' :
    stack_of tid w = mkFrame r ph :: below → step nested tid r ph w = Some (w', ph') →
    thread_step nested tid w (with_stack tid (mkFrame r ph' :: below) w').

Lemma run_thread_cases nested tid w w' : run_thread nested tid w = Some w' → thread_step nested tid w w'.
Proof.
  unfold run_thread. destruct (stack_of tid w) as [|[r ph] below] eqn:Es; [done|].
  destruct ph as [| | |g|g|g|g [|q rest]|g c|g c|g c|c|c|c|c]; intros E;
    try (destruct (step _ _ _ _ _) as [[w1 ph1]|] eqn:E1 in E; [|done]; injection E as <-; by econstructor);
    injection E as <-; by econstructor.
Qed.

(** ** Where cells come from *)

Definition built_as w c kind key : Prop :=
  ∃ r, w_cells w !! c = Some (Materialized r) ∧ rq_kind r = kind ∧ rq_key r = key.

Definition projection_of w p (type_key : string) kind key : Prop :=
  ∃ source, w_cells w !! p = Some (Projected type_key source) ∧ built_as w source kind key.

Definition entry_sound w kind key (e : MapCacheEntry) : Prop :=
  built_as w (ce_weak e) kind key ∧
  ∀ type_key p, ce_typed e !! type_key = Some p → w_cells w !! p = Some (Projected type_key (ce_weak e)).

Definition result_for w r c : Prop :=
  match rq_typed r with
  | None => built_as w c (rq_kind r) (rq_key r)
  | Some type_key => projection_of w c type_key (rq_kind r) (rq_key r)
  end.

Definition frame_sound w f : Prop :=
  match fr_phase f with
  | Finished c => result_for w (fr_request f) c
  | ph => ∀ c, phase_handle ph = Some c → built_as w c (rq_kind (fr_request f)) (rq_key (fr_request f))
  end.

Definition entries_sound w : Prop := ∀ kind key e, cache_of kind w !! key = Some e → entry_sound w kind key e.
Definition cells_named w : Prop := ∀ c, w_next w ≤ c → w_cells w !! c = None.

Record sound w : Prop := {
  sound_entries : entries_sound w;
  sound_frames : ∀ tid, Forall (frame_sound w) (stack_of tid w);
  sound_named : cells_named w
}.

Section grow.
Context {w w' : World} (Hc : w_cells w ⊆ w_cells w').

Lemma built_as_mono c kind key : built_as w c kind key → built_as w' c kind key.
Proof. intros (r & E & H). exists r. split; [|done]. by eapply lookup_weaken. Qed.

Lemma projection_of_mono p ty kind key : projection_of w p ty kind key → projection_of w' p ty kind key.
Proof. intros (s & E & H). exists s. split; [by eapply lookup_weaken|by apply built_as_mono]. Qed.

Lemma entry_sound_mono kind key e : entry_sound w kind key e → entry_sound w' kind key e.
Proof. intros [H1 H2]. split; [by apply built_as_mono|]. intros. by eapply lookup_weaken; [apply H2|]. Qed.

Lemma frame_sound_mono f : frame_sound w f → frame_sound w' f.
Proof.
  unfold frame_sound, result_for. destruct (fr_phase f); try (intros H ? E; by apply built_as_mono, H).
  destruct (rq_typed _); [apply projection_of_mono|apply built_as_mono].
Qed.
End grow.

Lemma allocate_grows info w : cells_named w → w_cells w ⊆ w_cells (allocate info w).
Proof. intros N. apply insert_subseteq, N. done. Qed.

Lemma entries_insert w w' kind key e :
  w_cells w' = w_cells w → entries_sound w → entry_sound w kind key e →
  (∀ k, cache_of k w' = if decide (k = kind) then <[key := e]> (cache_of k w) else cache_of k w) → entries_sound w'.
Proof.
  intros Ec H He Hk k key' e' E. apply (entry_sound_mono (w := w)); [by rewrite Ec|].
  rewrite Hk in E. destruct (decide (k = kind)) as [->|]; [|by apply H].
  apply lookup_insert_Some in E as [[<- <-]|[_ E]]; [done|by apply H].
Qed.

Lemma lookup_cached_live kind key w c :
  lookup_cached kind key w = Live c → ∃ e, cache_of kind w !! key = Some e ∧ ce_weak e = c ∧ alive w c.
Proof. unfold lookup_cached. intros E. repeat case_match; simplify_eq. eauto. Qed.

(** [get_or_create_typed] hands out the cached projection or a new one of the cached cell. *)
Inductive typed_result kind key type_key w : World → nat → Prop :=
| Typed_cached e p :
    cache_of kind w !! key = Some e → alive w (ce_weak e) → ce_typed e !! type_key = Some p → alive w p →
    typed_result kind key type_key w w p
| Typed_created e :
    cache_of kind w !! key = Some e → alive w (ce_weak e) →
    (∀ p, ce_typed e !! type_key = Some p → ¬ alive w p) →
    typed_result kind key type_key w
      (with_cache kind <[key := mkEntry (ce_weak e) (<[type_key := w_next w]> (ce_typed e))]>
        (allocate (Projected type_key (ce_weak e)) w)) (w_next w).

Lemma get_or_create_typed_cases kind key type_key w w' p :
  get_or_create_typed kind key type_key w = Some (w', p) → typed_result kind key type_key w w' p.
Proof.
  unfold get_or_create_typed. intros E. destruct (cache_of kind w !! key) as [e|] eqn:Ee; [|done].
  destruct (decide (alive w (ce_weak e))) as [A|]; [|done].
  destruct (ce_typed e !! type_key) as [p'|] eqn:Ep; [destruct (decide (alive w p'))|]; simplify_eq.
  - by eapply Typed_cached.
  - eapply Typed_created; [done..|]. intros ? ?. by simplify_eq.
  - eapply Typed_created; [done..|]. intros ? ?. by simplify_eq.
Qed.

(** ** The invariant *)

Lemma projection_created w type_key source kind key :
  cells_named w → built_as w source kind key →
  projection_of (allocate (Projected type_key source) w) (w_next w) type_key kind key.
Proof.
  intros N B. exists source. simpl. rewrite lookup_insert_eq. split; [done|].
  eapply built_as_mono; [|done]. by apply allocate_grows.
Qed.

Lemma named_allocate info w : cells_named w → cells_named (allocate info w).
Proof. intros N c L. simpl in *. rewrite lookup_insert_ne by lia. apply N. lia. Qed.

(** What a step keeps: entries stay sound, cells are only added, and their names are fresh. *)
Record extends w w' : Prop := {
  extends_entries : entries_sound w';
  extends_cells : w_cells w ⊆ w_cells w';
  extends_named : cells_named w'
}.

Lemma extends_same w w' :
  (∀ kind, cache_of kind w' = cache_of kind w) → w_cells w' = w_cells w → w_next w ≤ w_next w' →
  entries_sound w → cells_named w → extends w w'.
Proof.
  intros Hc Hcells Hn He N. split.
  - intros kind key e E. rewrite Hc in E. eapply (entry_sound_mono (w := w)); [by rewrite Hcells|by apply He].
  - by rewrite Hcells.
  - intros c L. rewrite Hcells. apply N. lia.
Qed.

Lemma extends_remove kind key w : entries_sound w → cells_named w → extends w (cache_remove kind key w).
Proof.
  intros He N. split; [|done|done]. intros k key' e E. unfold cache_remove in E. rewrite cache_of_with_cache in E.
  apply (entry_sound_mono (w := w)); [done|]. apply He. destruct (decide (k = kind)); [|done].
  by apply lookup_delete_Some in E as [_ E].
Qed.

Lemma extends_insert kind key e w :
  entries_sound w → cells_named w → entry_sound w kind key e → extends w (with_cache kind <[key := e]> w).
Proof.
  intros He N Hs. split; [|done|done].
  apply (entries_insert w _ kind key e); [done..|]. intros k. by rewrite cache_of_with_cache.
Qed.

Lemma extends_allocate info w : entries_sound w → cells_named w → extends w (allocate info w).
Proof.
  intros He N. pose proof (allocate_grows info w N) as G. split; [|done|by apply named_allocate].
  intros kind key e E. apply (entry_sound_mono G), He. by destruct kind.
Qed.

Lemma extends_trans w1 w2 w3 : extends w1 w2 → extends w2 w3 → extends w1 w3.
Proof. intros [_ C1 _] [E2 C2 N2]. split; [done|by etrans|done]. Qed.

Lemma fresh_entry_sound w kind key c : built_as w c kind key → entry_sound w kind key (mkEntry c ∅).
Proof. intros B. split; [done|]. intros ty p E. done. Qed.

(** The projection is of the cell that is cached. *)
Lemma get_or_create_source kind key type_key w w' p :
  typed_result kind key type_key w w' p → entries_sound w → cells_named w →
  extends w w' ∧ ∃ e, cache_of kind w !! key = Some e ∧ w_cells w' !! p = Some (Projected type_key (ce_weak e)).
Proof.
  intros R He N; destruct R as [e p' E A Ep Ap|e E A Np]; destruct (He _ _ _ E) as [B T].
  - split; [by apply extends_same|]. exists e. split; [done|by apply T].
  - set (w1 := allocate (Projected type_key (ce_weak e)) w).
    assert (extends w w1) as X1 by by apply extends_allocate.
    assert (w_cells w1 !! w_next w = Some (Projected type_key (ce_weak e))) as P by apply lookup_insert_eq.
    split; [|exists e; split; [done|exact P]].
    eapply extends_trans; [exact X1|]. apply extends_insert; [apply X1..|]. split.
    + eapply built_as_mono; [apply X1|done].
    + intros ty p0 Etp. simpl in Etp. apply lookup_insert_Some in Etp as [[<- <-]|[_ Etp]]; [done|].
      eapply lookup_weaken; [by apply T|apply X1].
Qed.

Lemma get_or_create_sound kind key type_key w w' p :
  typed_result kind key type_key w w' p → entries_sound w → cells_named w →
  extends w w' ∧ projection_of w' p type_key kind key.
Proof.
  intros R He N. destruct (get_or_create_source _ _ _ _ _ _ R He N) as [X (e & E & Ep)]. split; [done|].
  exists (ce_weak e). split; [done|]. eapply built_as_mono; [apply X|]. by destruct (He _ _ _ E).
Qed.

Lemma returned_sound w r c : built_as w c (rq_kind r) (rq_key r) → frame_sound w (mkFrame r (returned r c)).
Proof.
  intros B. unfold returned, frame_sound, result_for. destruct (rq_typed r) eqn:E; simpl; [|by rewrite E].
  intros ? [= <-]. done.
Qed.

Lemma extends_record F r w : entries_sound w → cells_named w → extends w (record F r w).
Proof. intros. rewrite record_eq. by apply extends_same; [intros []|..]. Qed.

Lemma built_sound w r ph c :
  phase_handle ph = Some c → (∀ c', ph ≠ Finished c') →
  built_as w c (rq_kind r) (rq_key r) → frame_sound w (mkFrame r ph).
Proof. intros E N B. destruct ph; simpl in *; simplify_eq; try (intros ? [= <-]; done). by destruct (N c). Qed.

Lemma uncached_sound w r ty c w' ph :
  uncached ty c w = (w', ph) → rq_typed r = Some ty → entries_sound w → cells_named w →
  built_as w c (rq_kind r) (rq_key r) → extends w w' ∧ frame_sound w' (mkFrame r ph).
Proof.
  unfold uncached. intros E Et He N B. simplify_eq. split; [by apply extends_allocate|].
  unfold frame_sound, result_for. simpl. rewrite Et. by apply projection_created.
Qed.

Lemma step_sound nested tid r ph w w' ph' :
  step nested tid r ph w = Some (w', ph') → entries_sound w → cells_named w → frame_sound w (mkFrame r ph) →
  extends w w' ∧ frame_sound w' (mkFrame r ph').
Proof.
  intros E He N Hf.
  assert (extends w w) as Id by by apply extends_same.
  destruct ph as [| | |g|g|g|g [|q rest]|g c|g c|g c|c|c|c|c]; simpl in E; try done.
  - destruct (lookup_cached _ _ w) as [| |c] eqn:El; simplify_eq; [done..|].
    apply lookup_cached_live in El as (e & Ee & <- & _). destruct (He _ _ _ Ee) as [B _].
    assert (extends w (record_hit r w)) as X by by apply extends_record. split; [done|].
    eapply frame_sound_mono; [apply X|]. by apply returned_sound.
  - simplify_eq. split; [by apply extends_remove|done].
  - destruct (w_compute_gates w !! rq_key r); simplify_eq; [done|].
    split; [|done]. apply extends_same; [by intros []|done|simpl; lia|done..].
  - destruct (w_owner w !! g); simplify_eq. split; [|done]. by apply extends_same; [intros []|..].
  - destruct (lookup_cached _ _ w) as [| |c] eqn:El; simplify_eq; [done..|].
    apply lookup_cached_live in El as (e & Ee & <- & _). destruct (He _ _ _ Ee) as [B _].
    assert (extends w (record_hit_after_gate r w)) as X by by apply extends_record. split; [done|].
    eapply frame_sound_mono; [apply X|]. by apply (built_sound _ _ _ (ce_weak e)).
  - simplify_eq. split; [by apply extends_remove|done].
  - simplify_eq. split; [by apply extends_allocate|]. apply (built_sound _ _ _ (w_next w)); [done..|].
    exists r. simpl. by rewrite lookup_insert_eq.
  - simplify_eq. specialize (Hf c eq_refl).
    split; [apply extends_insert; [done..|by apply fresh_entry_sound]|by apply (built_sound _ _ _ c)].
  - simplify_eq. specialize (Hf c eq_refl). unfold record_miss.
    split; [|apply (built_sound _ _ _ c); [done..|by rewrite record_eq]].
    assert (extends w (with_gates (delete (rq_key r)) w)) as X by by apply extends_same; [intros []|..].
    eapply extends_trans; [exact X|]. apply extends_record; apply X.
  - simplify_eq. specialize (Hf c eq_refl). split; [by apply extends_same; [intros []|..]|by apply returned_sound].
  - specialize (Hf c eq_refl). destruct (rq_typed r) as [ty|] eqn:Et.
    + destruct (get_or_create_typed _ _ _ w) as [[w1 p]|] eqn:Eg.
      * simplify_eq. apply get_or_create_typed_cases in Eg.
        destruct (get_or_create_sound _ _ _ _ _ _ Eg He N) as [X P]. split; [done|].
        unfold frame_sound, result_for. simpl. by rewrite Et.
      * destruct (rq_kind r) eqn:Ek; injection E as E1 E2; subst; [split; [done|by apply (built_sound _ _ _ c)]| |
                                                   split; [done|by apply (built_sound _ _ _ c)]].
        by eapply uncached_sound.
    + simplify_eq. split; [done|]. unfold frame_sound, result_for. simpl. by rewrite Et.
  - simplify_eq. specialize (Hf c eq_refl).
    split; [apply extends_insert; [done..|by apply fresh_entry_sound]|by apply (built_sound _ _ _ c)].
  - specialize (Hf c eq_refl). destruct (rq_typed r) as [ty|] eqn:Et.
    + destruct (get_or_create_typed _ _ _ w) as [[w1 p]|] eqn:Eg; injection E as E1 E2; subst.
      * apply get_or_create_typed_cases in Eg.
        destruct (get_or_create_sound _ _ _ _ _ _ Eg He N) as [X P]. split; [done|].
        unfold frame_sound, result_for. simpl. by rewrite Et.
      * by eapply uncached_sound.
    + simplify_eq. split; [done|]. unfold frame_sound, result_for. simpl. by rewrite Et.
Qed.

Ltac same S := apply extends_same; [by intros []|done|simpl; lia|apply S..].

Lemma sound_other_stack w w' tid stack :
  (∀ t, stack_of t w' = if decide (t = tid) then stack else stack_of t w) →
  extends w w' → sound w → Forall (frame_sound w') stack → sound w'.
Proof.
  intros Hs [He Hc N] S F. split; [done| |done]. intros t. rewrite Hs. destruct (decide (t = tid)); [done|].
  eapply Forall_impl; [apply (sound_frames w S)|]. intros f. by apply frame_sound_mono.
Qed.

Lemma extends_refl w : sound w → extends w w.
Proof. intros [He _ N]. by apply extends_same. Qed.

Lemma thread_step_sound nested tid w w' : thread_step nested tid w w' → sound w → sound w'.
Proof.
  intros H S. pose proof (extends_refl w S) as X.
  destruct H as [r g q rest below Es|r c below Es|r ph below w1 ph' Es E];
    pose proof (sound_frames w S tid) as F; rewrite Es in F; inversion F as [|? ? F1 F2]; subst; clear F.
  - eapply (sound_other_stack w _ tid); [intros t; by rewrite stack_of_with_stack|same S|done|].
    by repeat constructor.
  - eapply (sound_other_stack w _ tid below);
      [intros t; apply (stack_of_with_stack t tid below w)|same S|done..].
  - destruct (step_sound _ _ _ _ _ _ _ E) as [X1 F']; [apply S..|done|].
    assert (w_threads w1 = w_threads w) as Ht by apply (step_leaves _ _ _ _ _ _ _ E).
    eapply (sound_other_stack w _ tid); [|split; apply X1|done|].
    + intros t. rewrite stack_of_with_stack. by rewrite (stack_of_threads _ _ Ht).
    + constructor; [done|]. eapply Forall_impl; [done|]. intros f. by apply (frame_sound_mono (w := w)), X1.
Qed.

Lemma act_sound nested a w w' : act nested a w = Some w' → sound w → sound w'.
Proof.
  intros E S. destruct a as [tid r|tid|tid|c|kind key]; simpl in E.
  - destruct (stack_of tid w) eqn:Es; [|done]. simplify_eq.
    eapply (sound_other_stack w _ tid); [intros t; by rewrite stack_of_with_stack| |done|by repeat constructor].
    same S.
  - by apply run_thread_cases, thread_step_sound in E.
  - destruct (stack_of tid w) as [|f below] eqn:Es; [done|]. destruct (computing _); [|done]. simplify_eq.
    eapply (sound_other_stack w _ tid []); [intros t; apply (stack_of_with_stack t tid [] w)| |done|constructor].
    same S.
  - destruct (decide (c ∈ w_pool w)); [|done]. simplify_eq. destruct S as [He F N]. by split.
  - simplify_eq. unfold sweep_entry. destruct (lookup_cached kind key w); try done.
    pose proof (extends_remove kind key w) as X. destruct S as [He F N]. specialize (X He N). by split; [apply X| |apply X].
Qed.

Lemma sound_empty : sound w_empty.
Proof.
  split; [intros [] key e E; done| |done].
  intros tid. unfold stack_of. simpl. rewrite lookup_empty. constructor.
Qed.

Lemma run_sound nested actions w w' : run nested actions w = Some w' → sound w → sound w'.
Proof.
  apply (run_invariant nested sound (λ _, True)); [|by apply Forall_true]. intros a v v' _. apply act_sound.
Qed.

(** A step adds at most one cell. *)
Lemma typed_result_grows kind key ty w w' p (Q : Request → Prop) :
  typed_result kind key ty w w' p →
  w_cells w' = w_cells w ∨ ∃ info, w_cells w' = <[w_next w := info]> (w_cells w) ∧ ∀ q, info = Materialized q → Q q.
Proof. intros [e p' *|e *]; [by left|right]. eexists. split; [simpl; done|]. by intros ? [=]. Qed.

Lemma typed_step kind key ty w w' ph' (F : option (World * Phase)) :
  match get_or_create_typed kind key ty w with Some (w1, p) => Some (w1, Finished p) | None => F end = Some (w', ph') →
  (∃ p, typed_result kind key ty w w' p ∧ ph' = Finished p) ∨ F = Some (w', ph').
Proof.
  destruct (get_or_create_typed kind key ty w) as [[w1 p]|] eqn:Eg; [|by right].
  injection 1 as <- <-. left. exists p. split; [by apply get_or_create_typed_cases|done].
Qed.

Lemma step_cells nested tid r ph w w' ph' :
  step nested tid r ph w = Some (w', ph') →
  w_cells w' = w_cells w ∨
  ∃ info, w_cells w' = <[w_next w := info]> (w_cells w) ∧
    ∀ q, info = Materialized q → q = r ∧ ∃ gate, ph = Computing gate [] ∧ ph' = Publish gate (w_next w).
Proof.
  intros E.
  destruct ph as [| | |g|g|g|g [|q rest]|g c|g c|g c|c|c|c|c]; simpl in E; try done.
  - left. destruct (lookup_cached _ _ w); injection E as <- <-; [done..|]. unfold record_hit. by rewrite record_eq.
  - left. by injection E as <- <-.
  - left. by destruct (w_compute_gates w !! rq_key r); injection E as <- <-.
  - left. destruct (w_owner w !! g); [done|]. by injection E as <- <-.
  - left. destruct (lookup_cached _ _ w); injection E as <- <-; [done..|]. unfold record_hit_after_gate. by rewrite record_eq.
  - left. by injection E as <- <-.
  - injection E as <- <-. right. eexists. split; [done|]. intros ? [= <-]. eauto.
  - left. by injection E as <- <-.
  - left. injection E as <- <-. unfold record_miss. by rewrite record_eq.
  - left. by injection E as <- <-.
  - destruct (rq_typed r) as [ty|] eqn:Et; [|left; by injection E as <- <-].
    apply typed_step in E as [(p & R & _)|E].
    + by eapply typed_result_grows.
    + destruct (rq_kind r); injection E as <- <-; [by left| |by left]. right. eexists. split; [done|]. by intros ? [=].
  - left. by injection E as <- <-.
  - destruct (rq_typed r) as [ty|] eqn:Et; [|left; by injection E as <- <-].
    apply typed_step in E as [(p & R & _)|E].
    + by eapply typed_result_grows.
    + injection E as <- <-. right. eexists. split; [done|]. by intros ? [=].
Qed.

(** ** The requests of a run *)
Section requests.
Variable nested : Request → list Request.
Variable P : Request → Prop.
Hypothesis nested_ok : ∀ r, P r → Forall P (nested r).

Definition phase_requests ph : list Request := match ph with Computing _ rest => rest | _ => [] end.
Definition frame_ok f : Prop := P (fr_request f) ∧ Forall P (phase_requests (fr_phase f)).

Record requests_ok w : Prop := {
  cells_ok : ∀ c r, w_cells w !! c = Some (Materialized r) → P r;
  stacks_ok : ∀ tid, Forall frame_ok (stack_of tid w)
}.

Definition arrival_ok a : Prop := match a with Arrive _ r => P r | _ => True end.

Lemma step_cells_ok tid r ph w w' ph' :
  step nested tid r ph w = Some (w', ph') → P r →
  (∀ c q, w_cells w !! c = Some (Materialized q) → P q) → ∀ c q, w_cells w' !! c = Some (Materialized q) → P q.
Proof.
  intros E Pr H c q Ec. destruct (step_cells _ _ _ _ _ _ _ E) as [Eq|(info & Eq & Hi)]; rewrite Eq in Ec; [by eapply H|].
  apply lookup_insert_Some in Ec as [[_ Ei]|[_ Ec]]; [|by eapply H].
  destruct (Hi q Ei) as [-> _]. done.
Qed.

Lemma step_phase_ok tid r ph w w' ph' :
  step nested tid r ph w = Some (w', ph') → frame_ok (mkFrame r ph) → frame_ok (mkFrame r ph').
Proof.
  intros E [Pr _]. split; [done|]. simpl in *. pose proof (nested_ok r Pr) as Hn.
  unfold step, returned, uncached in E. repeat case_match; simplify_eq/=; try done; by constructor.
Qed.

Lemma requests_other_stack w w' tid stack :
  (∀ t, stack_of t w' = if decide (t = tid) then stack else stack_of t w) →
  (∀ c r, w_cells w' !! c = Some (Materialized r) → P r) → requests_ok w → Forall frame_ok stack → requests_ok w'.
Proof. intros Hs Hc [_ Hf] F. split; [done|]. intros t. rewrite Hs. by destruct (decide (t = tid)). Qed.

Lemma act_requests_ok a w w' : arrival_ok a → act nested a w = Some w' → requests_ok w → requests_ok w'.
Proof.
  intros Ha E S. pose proof S as [Hc Hf]. destruct a as [tid r|tid|tid|c|kind key]; simpl in E.
  - destruct (stack_of tid w) eqn:Es; [|done]. simplify_eq.
    apply (requests_other_stack w _ tid [mkFrame r FastPath]); [intros t; by rewrite stack_of_with_stack|done|done|by repeat constructor].
  - apply run_thread_cases in E as [r g q rest below Es|r c below Es|r ph below w1 ph' Es E];
      pose proof (Hf tid) as F; rewrite Es in F; inversion F as [|? ? F1 F2]; subst.
    + destruct F1 as [Pr Fr]. simpl in Pr, Fr. inversion Fr; subst.
      eapply (requests_other_stack w _ tid); [intros t; by rewrite stack_of_with_stack|done|done|by repeat constructor].
    + apply (requests_other_stack w _ tid below); [intros t; apply (stack_of_with_stack t tid below w)|done..].
    + pose proof F1 as [Pr _]. apply (requests_other_stack w _ tid (mkFrame r ph' :: below)).
      * intros t. rewrite stack_of_with_stack. apply step_leaves in E as [Ht _]. by rewrite (stack_of_threads _ _ Ht).
      * by apply (step_cells_ok _ _ _ _ _ _ E Pr).
      * done.
      * constructor; [by eapply step_phase_ok|done].
  - destruct (stack_of tid w) as [|f below] eqn:Es; [done|]. destruct (computing _); [|done]. simplify_eq.
    apply (requests_other_stack w _ tid []); [intros t; apply (stack_of_with_stack t tid [] w)|done..].
  - destruct (decide (c ∈ w_pool w)); [|done]. by simplify_eq.
  - simplify_eq. unfold sweep_entry. by destruct (lookup_cached kind key w).
Qed.

Lemma run_requests_ok actions w w' :
  Forall arrival_ok actions → run nested actions w = Some w' → requests_ok w → requests_ok w'.
Proof. apply (run_invariant nested requests_ok arrival_ok). intros. by eapply act_requests_ok. Qed.

Lemma requests_empty : requests_ok w_empty.
Proof. split; [done|]. intros tid. unfold stack_of. simpl. rewrite lookup_empty. constructor. Qed.

End requests.
