(* ===== verification/CellCacheProgress.v ===== *)
(** * Gates: mutual exclusion, no deadlock, termination

    Which thread holds which gate, and why a set of threads whose builds only ask for keys
    of a lower rank cannot wait for each other in a circle and comes to an end. *)

From stdpp Require Import base strings numbers option gmap gmultiset list sorting.
From S2P Require Import Prelude CacheKey CellCache CellCacheProof.

Implicit Types (w : World) (r q : Request) (kind : CacheKind) (key : string) (tid c p : nat) (gate : Gate) (ph : Phase).
Implicit Types (f : Frame) (a : Action).

(** ** Ownership *)

Definition owned ph : option Gate :=
  match ph with
  | Recheck g | RecheckEvict g | Computing g _ | Publish g _ | RemoveGate g _ | Unlock g _ => Some g
  | FastPath | FastEvict | TakeGate | AwaitGate _ | Project _ | Reinsert _ | ProjectAgain _ | Finished _ => None
  end.

Definition phase_gate ph : option Gate := match ph with AwaitGate g => Some g | ph => owned ph end.

Definition owned_by (stack : list Frame) : list Gate := omap (λ f, owned (fr_phase f)) stack.

Definition gate_fits f : Prop := ∀ g, phase_gate (fr_phase f) = Some g → g.1 = rq_key (fr_request f).

Record locks w : Prop := {
  locks_owner : ∀ g tid, w_owner w !! g = Some tid ↔ g ∈ owned_by (stack_of tid w);
  locks_once : ∀ tid, NoDup (owned_by (stack_of tid w));
  locks_frames : ∀ tid, Forall gate_fits (stack_of tid w);
  locks_gates : ∀ key g, w_compute_gates w !! key = Some g → g.1 = key
}.

Definition Owner_change tid ph ph' w w' : Prop :=
  match owned ph, owned ph' with
  | None, Some g => w_owner w !! g = None ∧ w_owner w' = <[g := tid]> (w_owner w)
  | Some g, None => w_owner w' = delete g (w_owner w)
  | g, g' => g = g' ∧ w_owner w' = w_owner w
  end.

Lemma typed_result_locks kind key ty w w' p :
  typed_result kind key ty w w' p → w_owner w' = w_owner w ∧ w_compute_gates w' = w_compute_gates w.
Proof. by intros [e p' *|e *]. Qed.

(** How a step of a request moves the gate it owns. *)
Lemma step_owner nested tid r ph w w' ph' :
  step nested tid r ph w = Some (w', ph') → Owner_change tid ph ph' w w'.
Proof.
  intros E. unfold Owner_change, returned, uncached in *.
  destruct ph as [| | |g|g|g|g [|q rest]|g c|g c|g c|c|c|c|c]; simpl in E; try done.
  - destruct (lookup_cached _ _ w); injection E as <- <-; [done..|]. unfold record_hit, returned. rewrite record_eq.
    by destruct (rq_typed r).
  - by injection E as <- <-.
  - by destruct (w_compute_gates w !! rq_key r); injection E as <- <-.
  - destruct (w_owner w !! g) eqn:Eo; [done|]. by injection E as <- <-.
  - destruct (lookup_cached _ _ w); injection E as <- <-; [done..|]. unfold record_hit_after_gate. by rewrite record_eq.
  - by injection E as <- <-.
  - by injection E as <- <-.
  - by injection E as <- <-.
  - injection E as <- <-. unfold record_miss. by rewrite record_eq.
  - injection E as <- <-. unfold returned. by destruct (rq_typed r).
  - destruct (rq_typed r) as [ty|]; [|by injection E as <- <-].
    apply typed_step in E as [(p & R & ->)|E]; [by apply typed_result_locks in R as [-> _]|].
    by destruct (rq_kind r); injection E as <- <-.
  - by injection E as <- <-.
  - destruct (rq_typed r) as [ty|]; [|by injection E as <- <-].
    apply typed_step in E as [(p & R & ->)|E]; [by apply typed_result_locks in R as [-> _]|].
    by injection E as <- <-.
Qed.

(** A step keeps the gate of the request under its key. *)
Lemma step_gates nested tid r ph w w' ph' :
  step nested tid r ph w = Some (w', ph') →
  gate_fits (mkFrame r ph) → (∀ key g, w_compute_gates w !! key = Some g → g.1 = key) →
  gate_fits (mkFrame r ph') ∧ ∀ key g, w_compute_gates w' !! key = Some g → g.1 = key.
Proof.
  unfold gate_fits. simpl. intros E Hf Hg. unfold returned, uncached in *.
  destruct ph as [| | |g|g|g|g [|q rest]|g c|g c|g c|c|c|c|c]; simpl in *; try done.
  - destruct (lookup_cached _ _ w); injection E as <- <-; [done..|]. unfold record_hit, returned. rewrite record_eq.
    by destruct (rq_typed r).
  - by injection E as <- <-.
  - destruct (w_compute_gates w !! rq_key r) as [g|] eqn:Eg; injection E as <- <-; split; try done.
    + simpl. intros ? [= <-]. by apply Hg.
    + simpl. by intros ? [= <-].
    + intros key g. simpl. intros [[<- <-]|[_ E]]%lookup_insert_Some; [done|by apply Hg].
  - destruct (w_owner w !! g) eqn:Eo; [done|]. by injection E as <- <-.
  - destruct (lookup_cached _ _ w); injection E as <- <-; [done..|]. unfold record_hit_after_gate. by rewrite record_eq.
  - by injection E as <- <-.
  - by injection E as <- <-.
  - by injection E as <- <-.
  - injection E as <- <-. unfold record_miss. rewrite record_eq. split; [done|].
    intros key g'. simpl. intros [_ E]%lookup_delete_Some. by apply Hg.
  - injection E as <- <-. unfold returned. by destruct (rq_typed r).
  - destruct (rq_typed r) as [ty|]; [|by injection E as <- <-].
    apply typed_step in E as [(p & R & ->)|E]; [by apply typed_result_locks in R as [_ ->]|].
    by destruct (rq_kind r); injection E as <- <-.
  - by injection E as <- <-.
  - destruct (rq_typed r) as [ty|]; [|by injection E as <- <-].
    apply typed_step in E as [(p & R & ->)|E]; [by apply typed_result_locks in R as [_ ->]|].
    by injection E as <- <-.
Qed.

(** Replacing the stack of one thread: the other threads keep their gates. *)
Lemma locks_change w w' tid stack :
  (∀ t, stack_of t w' = if decide (t = tid) then stack else stack_of t w) →
  (∀ key g, w_compute_gates w' !! key = Some g → g.1 = key) →
  (∀ g, w_owner w' !! g = Some tid ↔ g ∈ owned_by stack) →
  (∀ g t, t ≠ tid → w_owner w' !! g = Some t ↔ w_owner w !! g = Some t) →
  NoDup (owned_by stack) → Forall gate_fits stack → locks w → locks w'.
Proof.
  intros Hs Hg Ho Ho' N F [L1 L2 L3 L4]. split; [..|done].
  - intros g t. rewrite Hs. destruct (decide (t = tid)) as [->|]; [apply Ho|]. by rewrite Ho'.
  - intros t. rewrite Hs. by destruct (decide (t = tid)).
  - intros t. rewrite Hs. by destruct (decide (t = tid)).
Qed.

Lemma locks_same_owned w w' tid stack :
  (∀ t, stack_of t w' = if decide (t = tid) then stack else stack_of t w) →
  w_owner w' = w_owner w → (∀ key g, w_compute_gates w' !! key = Some g → g.1 = key) →
  owned_by stack = owned_by (stack_of tid w) → Forall gate_fits stack → locks w → locks w'.
Proof.
  intros Hs Ho Hg Es F L. apply (locks_change w w' tid stack); [done|done| | | |done|done]; rewrite ?Ho, ?Es; [|done|apply L].
  intros g. apply L.
Qed.

(** A thread locks a gate nobody has locked. *)
Lemma locks_acquire w w' tid g stack :
  (∀ t, stack_of t w' = if decide (t = tid) then stack else stack_of t w) →
  (∀ key g, w_compute_gates w' !! key = Some g → g.1 = key) →
  w_owner w !! g = None → w_owner w' = <[g := tid]> (w_owner w) →
  owned_by stack = g :: owned_by (stack_of tid w) → Forall gate_fits stack → locks w → locks w'.
Proof.
  intros Hs Hg Hn Ho Es F L. pose proof (locks_owner w L) as L1.
  assert (g ∉ owned_by (stack_of tid w)) as Hi by (rewrite <- L1; congruence).
  apply (locks_change w w' tid stack); [done|done| | | |done|done].
  - intros h. rewrite Ho, Es, lookup_insert_Some, elem_of_cons, <- L1. split; [naive_solver|].
    intros [->|E]; [by left|]. right. split; [congruence|done].
  - intros h t Ht. rewrite Ho, lookup_insert_Some. split; [naive_solver|]. intros E. right. split; [congruence|done].
  - rewrite Es. constructor; [done|apply L].
Qed.

(** A thread unlocks a gate. *)
Lemma locks_release w w' tid g stack :
  (∀ t, stack_of t w' = if decide (t = tid) then stack else stack_of t w) →
  (∀ key g, w_compute_gates w' !! key = Some g → g.1 = key) →
  w_owner w' = delete g (w_owner w) →
  owned_by (stack_of tid w) = g :: owned_by stack → Forall gate_fits stack → locks w → locks w'.
Proof.
  intros Hs Hg Ho Es F L. pose proof (locks_owner w L) as L1. pose proof (locks_once w L tid) as N.
  rewrite Es in N. apply NoDup_cons in N as [Hi N].
  assert (w_owner w !! g = Some tid) as Hgo by (apply L1; rewrite Es; left).
  apply (locks_change w w' tid stack); [done|done| | |done|done|done].
  - intros h. rewrite Ho, lookup_delete_Some, L1, Es, elem_of_cons. split; [naive_solver|].
    intros E. split; [congruence|by right].
  - intros h t Ht. rewrite Ho, lookup_delete_Some. split; [naive_solver|]. intros E. split; [congruence|done].
Qed.

Lemma thread_step_locks nested tid w w' : thread_step nested tid w w' → locks w → locks w'.
Proof.
  intros H L. pose proof (locks_frames w L tid) as F.
  destruct H as [r g q rest below Es|r c below Es|r ph below w1 ph' Es E]; rewrite Es in F;
    inversion F as [|? ? F1 F2]; subst.
  - eapply (locks_same_owned w _ tid); [intros t; by rewrite stack_of_with_stack|done|apply L|by rewrite Es| |done].
    repeat constructor; [|exact F1|done]. by intros ? [=].
  - eapply (locks_same_owned w _ tid below);
      [intros t; apply (stack_of_with_stack t tid below w)|done|apply L|by rewrite Es|done|done].
  - destruct (step_gates _ _ _ _ _ _ _ E F1 (locks_gates w L)) as [Ff Fg].
    pose proof (step_owner _ _ _ _ _ _ _ E) as Ho. destruct (step_leaves _ _ _ _ _ _ _ E) as [Ht _].
    assert (∀ t, stack_of t (with_stack tid (mkFrame r ph' :: below) w1) =
                 if decide (t = tid) then mkFrame r ph' :: below else stack_of t w) as Hs.
    { intros t. rewrite stack_of_with_stack. by rewrite (stack_of_threads _ _ Ht). }
    assert (∀ ph0, owned_by (mkFrame r ph0 :: below) = match owned ph0 with Some g => g :: owned_by below | None => owned_by below end)
      as Hb by done.
    unfold Owner_change in Ho.
    destruct (owned ph) as [g|] eqn:Eph, (owned ph') as [g'|] eqn:Eph'.
    + destruct Ho as [[= ->] Ho]. apply (locks_same_owned w _ tid _ Hs); [done|done| |by constructor|done].
      by rewrite Es, !Hb, Eph, Eph'.
    + apply (locks_release w _ tid g _ Hs); [done|done| |by constructor|done]. by rewrite Es, !Hb, Eph, Eph'.
    + destruct Ho as [Hn Ho]. apply (locks_acquire w _ tid g' _ Hs); [done..| |by constructor|done].
      by rewrite Es, !Hb, Eph, Eph'.
    + destruct Ho as [_ Ho]. apply (locks_same_owned w _ tid _ Hs); [done|done| |by constructor|done].
      by rewrite Es, !Hb, Eph, Eph'.
Qed.

Lemma locks_empty : locks w_empty.
Proof.
  assert (∀ tid, stack_of tid w_empty = []) as E by (intros; unfold stack_of; simpl; by rewrite lookup_empty).
  split.
  - intros g tid. rewrite E. simpl. split; [by intros ?%lookup_empty_Some|by intros ?%not_elem_of_nil].
  - intros tid. rewrite E. constructor.
  - intros tid. rewrite E. constructor.
  - simpl. by intros key g ?%lookup_empty_Some.
Qed.

Lemma act_locks nested a w w' : act nested a w = Some w' → locks w → locks w'.
Proof.
  intros E L. destruct a as [tid r|tid|tid|c|kind key]; simpl in E.
  - destruct (stack_of tid w) eqn:Es; [|done]. injection E as <-.
    eapply (locks_same_owned w _ tid); [intros t; by rewrite stack_of_with_stack|done|apply L|by rewrite Es| |done].
    repeat constructor. by intros ? [=].
  - by apply run_thread_cases, thread_step_locks in E.
  - destruct (stack_of tid w) as [|f below] eqn:Es; [done|]. destruct (computing _); [|done]. injection E as <-.
    apply (locks_change w _ tid []); [intros t; apply (stack_of_with_stack t tid [] w)|apply L| | |constructor|constructor|done].
    + intros g. simpl. split; [|by intros ?%not_elem_of_nil]. intros [_ N]%map_lookup_filter_Some. by destruct N.
    + intros g t Ht. simpl. rewrite map_lookup_filter_Some. naive_solver.
  - destruct (decide (c ∈ w_pool w)); [|done]. injection E as <-. destruct L. by split.
  - injection E as <-. unfold sweep_entry. destruct L. destruct (lookup_cached kind key w); by split.
Qed.

Lemma run_locks nested actions w w' : run nested actions w = Some w' → locks w → locks w'.
Proof.
  apply (run_invariant nested locks (λ _, True)); [|by apply Forall_true]. intros a v v' _. apply act_locks.
Qed.

(** At most one request in the whole server holds a gate. *)
Lemma gate_exclusive w tid tid' g :
  locks w → g ∈ owned_by (stack_of tid w) → g ∈ owned_by (stack_of tid' w) → tid = tid'.
Proof. intros L H H'. apply (locks_owner w L) in H, H'. congruence. Qed.

(** ** Progress *)

Lemma step_waits nested tid r ph w :
  step nested tid r ph w = None →
  (∃ g, ph = AwaitGate g ∧ is_Some (w_owner w !! g)) ∨ (∃ g q rest, ph = Computing g (q :: rest)) ∨ ∃ c, ph = Finished c.
Proof.
  destruct ph as [| | |g|g|g|g [|q rest]|g c|g c|g c|c|c|c|c]; simpl; intros E; try done; eauto.
  - by destruct (lookup_cached _ _ w).
  - by destruct (w_compute_gates w !! rq_key r).
  - destruct (w_owner w !! g) eqn:Eo; [|done]. left. eauto.
  - by destruct (lookup_cached _ _ w).
  - right. left. eauto.
  - destruct (rq_typed r); [|done]. destruct (get_or_create_typed _ _ _ w) as [[]|]; [done|]. by destruct (rq_kind r).
  - destruct (rq_typed r); [|done]. by destruct (get_or_create_typed _ _ _ w) as [[]|].
Qed.

(** A thread can always move, unless it is idle or waits for a gate. *)
Lemma thread_waits nested tid w :
  run_thread nested tid w = None →
  stack_of tid w = [] ∨ ∃ r g below, stack_of tid w = mkFrame r (AwaitGate g) :: below ∧ is_Some (w_owner w !! g).
Proof.
  unfold run_thread. destruct (stack_of tid w) as [|[r ph] below]; [by left|]. intros E. right.
  assert (step nested tid r ph w = None ∧ (∀ g q rest, ph ≠ Computing g (q :: rest)) ∧ ∀ c, ph ≠ Finished c) as (Es & N1 & N2).
  { destruct ph as [| | |g|g|g|g [|q rest]|g c|g c|g c|c|c|c|c]; try done;
      (destruct (step _ _ _ _ _) as [[]|]; [done|]; split; [done|split; by intros]). }
  destruct (step_waits _ _ _ _ _ Es) as [(g & -> & Ho)|[(g & q & rest & ->)|[c ->]]]; [eauto|by destruct (N1 g q rest)|by destruct (N2 c)].
Qed.

Section ranked.
Variable nested : Request → list Request.
Variable P : Request → Prop.
Hypothesis nested_ok : ∀ r, P r → Forall P (nested r).
Variable rank : Request → nat.
(** A build only asks for keys of a lower rank. *)
Hypothesis rank_nested : ∀ r q, P r → q ∈ nested r → rank q < rank r.
Hypothesis rank_key : ∀ r r', P r → P r' → rq_key r = rq_key r' → rank r = rank r'.

Definition inner (f f' : Frame) : Prop := rank (fr_request f) < rank (fr_request f').
Definition asks_below f : Prop := Forall (λ q, rank q < rank (fr_request f)) (phase_requests (fr_phase f)).

Definition stack_ordered (stack : list Frame) : Prop := StronglySorted inner stack ∧ Forall asks_below stack.

Definition ordered w : Prop := ∀ tid, stack_ordered (stack_of tid w).

Lemma ordered_replace f f' below :
  fr_request f' = fr_request f → asks_below f' → stack_ordered (f :: below) → stack_ordered (f' :: below).
Proof.
  intros Er Ha [S F]. inversion S as [|? ? S1 S2]; inversion F as [|? ? F1 F2]; subst.
  split; [|by constructor]. constructor; [done|]. eapply Forall_impl; [exact S2|]. unfold inner. by rewrite Er.
Qed.

Lemma step_asks tid r ph w w' ph' : step nested tid r ph w = Some (w', ph') → P r → asks_below (mkFrame r ph').
Proof.
  intros E Pr. unfold asks_below. simpl.
  assert (Forall (λ q, rank q < rank r) (nested r)) as Hn by (apply Forall_forall; intros; by apply rank_nested).
  unfold step, returned, uncached in E. repeat case_match; simplify_eq/=; try constructor; done.
Qed.

Lemma act_ordered a w w' :
  arrival_ok P a → act nested a w = Some w' → requests_ok P w → ordered w → ordered w'.
Proof.
  intros Ha E R O. destruct a as [tid r|tid|tid|c|kind key]; simpl in E.
  - destruct (stack_of tid w) eqn:Es; [|done]. injection E as <-. intros t. rewrite stack_of_with_stack.
    destruct (decide (t = tid)); [|apply O]. split; repeat constructor.
  - pose proof (stacks_ok P w R tid) as F. pose proof (O tid) as Ot.
    apply run_thread_cases in E as [r g q rest below Es|r c below Es|r ph below w1 ph' Es E];
      rewrite Es in F, Ot; inversion F as [|? ? [Pr Fr] F2]; subst; intros t.
    + rewrite stack_of_with_stack. destruct (decide (t = tid)); [|apply O].
      pose proof Ot as [S A]. inversion A as [|? ? A1 A2]; subst. unfold asks_below in A1. simpl in A1.
      inversion A1 as [|? ? Aq Arest]; subst. inversion S as [|? ? S1 S2]; subst.
      split; repeat constructor; try done.
      eapply Forall_impl; [exact S2|]. unfold inner. simpl. lia.
    + change (stack_of t (with_stack tid below w)) with (stack_of t (with_stack tid below w)).
      assert (stack_of t (with_pool (λ pool, {[+ c +]} ⊎ pool) (with_stack tid below w)) = if decide (t = tid) then below else stack_of t w)
        as -> by apply (stack_of_with_stack t tid below w).
      destruct (decide (t = tid)); [|apply O]. destruct Ot as [S A]. inversion S; inversion A; subst. by split.
    + rewrite stack_of_with_stack. destruct (step_leaves _ _ _ _ _ _ _ E) as [Ht _].
      rewrite (stack_of_threads _ _ Ht). destruct (decide (t = tid)); [|apply O].
      eapply ordered_replace; [|by eapply step_asks|exact Ot]. done.
  - destruct (stack_of tid w) as [|f below] eqn:Es; [done|]. destruct (computing _); [|done]. injection E as <-.
    intros t. assert (stack_of t (unwind tid w) = if decide (t = tid) then [] else stack_of t w) as ->
      by apply (stack_of_with_stack t tid [] w).
    destruct (decide (t = tid)); [split; constructor|apply O].
  - destruct (decide (c ∈ w_pool w)); [|done]. by injection E as <-.
  - injection E as <-. unfold sweep_entry. by destruct (lookup_cached kind key w).
Qed.

Lemma run_ordered actions w w' :
  Forall (arrival_ok P) actions → run nested actions w = Some w' →
  requests_ok P w → ordered w → requests_ok P w' ∧ ordered w'.
Proof.
  intros Ha E R O. eapply (run_invariant nested (λ w, requests_ok P w ∧ ordered w)); [|exact Ha|exact E|done].
  intros a v v' Aa Ea [R1 O1]. split; [by eapply act_requests_ok|by eapply act_ordered].
Qed.

Lemma ordered_empty : ordered w_empty.
Proof. intros tid. unfold stack_of. simpl. rewrite lookup_empty. split; constructor. Qed.

(** If a thread is busy, some thread can move. *)
Lemma somebody_moves w n tid f below :
  locks w → requests_ok P w → ordered w → stack_of tid w = f :: below → rank (fr_request f) < n →
  ∃ tid', is_Some (run_thread nested tid' w).
Proof.
  intros L R O. revert tid f below. induction n as [|n IH]; intros tid f below Es Hn; [lia|].
  destruct (run_thread nested tid w) as [w'|] eqn:E; [eauto|].
  apply thread_waits in E as [E|(r & g & below' & E & [tid' Ho])]; [congruence|].
  rewrite E in Es. injection Es as <- <-. simpl in Hn.
  pose proof (stacks_ok P w R tid) as Fr. rewrite E in Fr. inversion Fr as [|? ? [Pr _] _]; subst.
  pose proof (locks_frames w L tid) as Ff. rewrite E in Ff. inversion Ff as [|? ? Hg _]; subst.
  specialize (Hg g eq_refl). simpl in Hg.
  apply (locks_owner w L) in Ho. apply list_elem_of_omap in Ho as (f' & Hf' & Eg).
  pose proof (locks_frames w L tid') as Ff'. rewrite Forall_forall in Ff'.
  assert (g.1 = rq_key (fr_request f')) as Hk.
  { apply (Ff' f' Hf'). destruct (fr_phase f'); simpl in *; done. }
  pose proof (stacks_ok P w R tid') as Fr'. rewrite Forall_forall in Fr'. destruct (Fr' f' Hf') as [Pr' _].
  assert (rank (fr_request f') = rank r) as Hr by (apply rank_key; [done..|congruence]).
  destruct (stack_of tid' w) as [|f1 below1] eqn:Es'; [by apply not_elem_of_nil in Hf'|].
  apply elem_of_cons in Hf' as [->|Hin].
  - destruct (run_thread nested tid' w) eqn:E'; [eauto|].
    apply thread_waits in E' as [E'|(r' & g' & b' & E' & _)]; [congruence|]. rewrite Es' in E'. injection E' as -> _. done.
  - apply (IH tid' f1 below1 Es'). destruct (O tid') as [S _]. rewrite Es' in S. inversion S as [|? ? _ Sf]; subst.
    rewrite Forall_forall in Sf. specialize (Sf f' Hin). unfold inner in Sf. lia.
Qed.

(** ** Termination *)

(** How many steps a request takes at most, with everything its build asks for. *)
Fixpoint cost_fuel (n : nat) r : nat :=
  match n with
  | O => 14
  | S n => 14 + sum_list_with (λ q, S (cost_fuel n q)) (nested r)
  end.
Definition cost r : nat := cost_fuel (S (rank r)) r.
Definition calls (rest : list Request) : nat := sum_list_with (λ q, S (cost q)) rest.

Definition phase_work r ph : nat :=
  match ph with
  | FastPath => 14 + calls (nested r)
  | FastEvict => 13 + calls (nested r)
  | TakeGate => 12 + calls (nested r)
  | AwaitGate _ => 11 + calls (nested r)
  | Recheck _ => 10 + calls (nested r)
  | RecheckEvict _ => 9 + calls (nested r)
  | Computing _ rest => 8 + calls rest
  | Publish _ _ => 7
  | RemoveGate _ _ => 6
  | Unlock _ _ => 5
  | Project _ => 4
  | Reinsert _ => 3
  | ProjectAgain _ => 2
  | Finished _ => 1
  end.

Definition stack_work (stack : list Frame) : nat := sum_list_with (λ f, phase_work (fr_request f) (fr_phase f)) stack.
Definition work w : nat := map_fold (λ _ stack n, stack_work stack + n) 0 (w_threads w).

Lemma sum_list_with_ext {A} (g h : A → nat) l : Forall (λ x, g x = h x) l → sum_list_with g l = sum_list_with h l.
Proof using. induction 1 as [|x l E _ IH]; simpl; [done|]. by rewrite E, IH. Qed.

Lemma cost_enough n m r : P r → rank r < n → rank r < m → cost_fuel n r = cost_fuel m r.
Proof.
  revert m r. induction n as [|n IH]; intros [|m] r Pr Hn Hm; try lia. cbn [cost_fuel]. f_equal. apply sum_list_with_ext.
  assert (Forall (λ q, cost_fuel n q = cost_fuel m q) (nested r)) as Hq.
  { apply Forall_forall. intros q Hq. pose proof (rank_nested r q Pr Hq).
    pose proof (nested_ok r Pr) as F. rewrite Forall_forall in F. apply IH; [by apply F|lia|lia]. }
  eapply Forall_impl; [exact Hq|]. simpl. congruence.
Qed.

Lemma cost_eq r : P r → cost r = 14 + calls (nested r).
Proof.
  intros Pr. unfold cost at 1. cbn [cost_fuel]. f_equal. apply sum_list_with_ext.
  pose proof (nested_ok r Pr) as F. rewrite Forall_forall in F.
  assert (Forall (λ q, cost_fuel (rank r) q = cost q) (nested r)) as Hq.
  { apply Forall_forall. intros q Hq. pose proof (rank_nested r q Pr Hq). apply cost_enough; [by apply F|lia|lia]. }
  eapply Forall_impl; [exact Hq|]. simpl. congruence.
Qed.

Lemma work_with_stack tid stack w : work (with_stack tid stack w) + stack_work (stack_of tid w) = work w + stack_work stack.
Proof.
  unfold work, stack_of. simpl. set (m := w_threads w).
  assert (∀ (m' : gmap nat (list Frame)) i x, m' !! i = None → map_fold (λ _ stack n, stack_work stack + n) 0 (<[i := x]> m') =
    stack_work x + map_fold (λ _ stack n, stack_work stack + n) 0 m') as Hi.
  { intros m' i x E. apply (map_fold_insert_L (λ (_ : nat) stack n, stack_work stack + n)); [|done]. intros. lia. }
  rewrite <- insert_delete_eq, Hi by apply lookup_delete_eq.
  destruct (m !! tid) as [old|] eqn:E; simpl.
  - rewrite <- (insert_delete_id m tid old E) at 2. rewrite Hi by apply lookup_delete_eq. lia.
  - rewrite delete_id by done. lia.
Qed.

Lemma work_threads w w' : w_threads w' = w_threads w → work w' = work w.
Proof. unfold work. by intros ->. Qed.

Lemma step_work tid r ph w w' ph' :
  step nested tid r ph w = Some (w', ph') → phase_work r ph' < phase_work r ph.
Proof.
  intros E. destruct ph as [| | |g|g|g|g [|q rest]|g c|g c|g c|c|c|c|c]; simpl in E; try done;
    unfold returned, uncached in E.
  - destruct (lookup_cached _ _ w); injection E as <- <-; try destruct (rq_typed r); simpl; lia.
  - injection E as <- <-. simpl. lia.
  - destruct (w_compute_gates w !! rq_key r); injection E as <- <-; simpl; lia.
  - destruct (w_owner w !! g); [done|]. injection E as <- <-. simpl. lia.
  - destruct (lookup_cached _ _ w); injection E as <- <-; simpl; lia.
  - injection E as <- <-. simpl. lia.
  - injection E as <- <-. simpl. lia.
  - injection E as <- <-. simpl. lia.
  - injection E as <- <-. simpl. lia.
  - injection E as <- <-. destruct (rq_typed r); simpl; lia.
  - destruct (rq_typed r) as [ty|]; [|injection E as <- <-; simpl; lia].
    apply typed_step in E as [(p & _ & ->)|E]; [simpl; lia|]. destruct (rq_kind r); injection E as <- <-; simpl; lia.
  - injection E as <- <-. simpl. lia.
  - destruct (rq_typed r) as [ty|]; [|injection E as <- <-; simpl; lia].
    apply typed_step in E as [(p & _ & ->)|E]; [simpl; lia|]. injection E as <- <-. simpl. lia.
Qed.

(** Every step of a thread is progress. *)
Lemma thread_work tid w w' : requests_ok P w → run_thread nested tid w = Some w' → work w' < work w.
Proof.
  intros R E. pose proof (stacks_ok P w R tid) as F.
  apply run_thread_cases in E as [r g q rest below Es|r c below Es|r ph below w1 ph' Es E]; rewrite Es in F;
    inversion F as [|? ? [Pr Fr] _]; subst.
  - simpl in Fr. inversion Fr as [|? ? Pq _]; subst.
    pose proof (work_with_stack tid (mkFrame q FastPath :: mkFrame r (Computing g rest) :: below) w) as H.
    rewrite Es in H. cbn [stack_work sum_list_with fr_request fr_phase phase_work] in H.
    rewrite <- (cost_eq q Pq) in H. unfold calls in H. cbn [sum_list_with] in H. lia.
  - pose proof (work_with_stack tid below w) as H. rewrite Es in H. simpl in H.
    rewrite (work_threads (with_stack tid below w)) by done. lia.
  - apply step_work in E as Hw. destruct (step_leaves _ _ _ _ _ _ _ E) as [Ht _].
    pose proof (work_with_stack tid (mkFrame r ph' :: below) w1) as H.
    rewrite (stack_of_threads _ _ Ht), (work_threads _ _ Ht), Es in H. simpl in H. lia.
Qed.

Definition idle w : Prop := ∀ tid, stack_of tid w = [].

(** The threads run to the end in any order, within [work] steps. *)
Lemma threads_bounded sched w w' :
  requests_ok P w → run nested (Run <$> sched) w = Some w' → length sched + work w' ≤ work w.
Proof.
  revert w. induction sched as [|tid sched IH]; intros w R E; simpl in *; [by simplify_eq|].
  destruct (run_thread nested tid w) as [w1|] eqn:E1; [|done].
  pose proof (thread_work _ _ _ R E1). assert (requests_ok P w1) as R1.
  { by apply (act_requests_ok nested P nested_ok (Run tid) w). }
  specialize (IH w1 R1 E). lia.
Qed.

Lemma threads_finish w :
  locks w → requests_ok P w → ordered w → ∃ sched w', run nested (Run <$> sched) w = Some w' ∧ idle w'.
Proof.
  remember (work w) as n eqn:En. revert w En. induction n as [n IH] using lt_wf_ind. intros w -> L R O.
  destruct (decide (map_Forall (λ _ stack, stack = []) (w_threads w))) as [I|B].
  - exists [], w. split; [done|]. intros tid. unfold stack_of.
    destruct (w_threads w !! tid) as [s|] eqn:E; [by apply (I tid)|done].
  - apply map_not_Forall in B as (tid & [|f below] & E & B); [done| |apply _].
    destruct (somebody_moves w (S (rank (fr_request f))) tid f below L R O) as [tid' [w1 E1]];
      [unfold stack_of; by rewrite E|lia|].
    assert (act nested (Run tid') w = Some w1) as A by done.
    destruct (IH (work w1)) with (w := w1) as (sched & w' & Er & I);
      [by eapply thread_work|done|by eapply act_locks|by apply (act_requests_ok nested P nested_ok (Run tid') w)|by apply (act_ordered (Run tid') w)|].
    exists (tid' :: sched), w'. simpl. by rewrite E1.
Qed.

Lemma stuck_idle w : locks w → requests_ok P w → ordered w → (∀ tid, run_thread nested tid w = None) → idle w.
Proof.
  intros L R O N tid. destruct (stack_of tid w) as [|f below] eqn:Es; [done|].
  destruct (somebody_moves w (S (rank (fr_request f))) tid f below L R O Es) as [tid' [? E]]; [lia|].
  by rewrite N in E.
Qed.

End ranked.
