(* ===== verification/CellCacheSharing.v ===== *)
(** * Which cells are shared

    A cell that is published and kept alive is handed to every later request for its key,
    whatever else the server does; and as long as no handle is dropped, a key is built once, however
    many threads ask for it at the same time. *)

From stdpp Require Import base strings numbers option gmap gmultiset list sorting.
From S2P Require Import Prelude CacheKey CellCache CellCacheProof CellCacheProgress.

Implicit Types (w : World) (r q : Request) (kind : CacheKind) (key : string) (tid c p : nat) (gate : Gate) (ph : Phase).
Implicit Types (f : Frame) (a : Action).

(** ** What a step does to the entries *)

Lemma typed_result_entry kind key ty w w' p k' key' :
  typed_result kind key ty w w' p →
  ce_weak <$> cache_of k' w' !! key' = ce_weak <$> cache_of k' w !! key'.
Proof.
  intros [e p' *|e E A N]; [done|]. rewrite cache_of_with_cache. destruct (decide (k' = kind)) as [->|]; [|by destruct k'].
  assert (cache_of kind (allocate (Projected ty (ce_weak e)) w) = cache_of kind w) as -> by by destruct kind.
  destruct (decide (key' = key)) as [->|]; [|by rewrite lookup_insert_ne].
  by rewrite lookup_insert_eq, E.
Qed.

(** The cells cached under the keys of other requests stay. *)
Lemma step_other_entry nested tid r ph w w' ph' kind key :
  step nested tid r ph w = Some (w', ph') → (kind, key) ≠ (rq_kind r, rq_key r) →
  ce_weak <$> cache_of kind w' !! key = ce_weak <$> cache_of kind w !! key.
Proof.
  intros E N.
  assert (∀ F, (F = delete (rq_key r) ∨ ∃ e, F = <[rq_key r := e]>) →
    ce_weak <$> cache_of kind (with_cache (rq_kind r) F w) !! key = ce_weak <$> cache_of kind w !! key) as Hw.
  { intros F HF. rewrite cache_of_with_cache. destruct (decide (kind = rq_kind r)) as [->|]; [|done].
    destruct HF as [->|[e ->]]; [by rewrite lookup_delete_ne by congruence|by rewrite lookup_insert_ne by congruence]. }
  destruct ph as [| | |g|g|g|g [|q rest]|g c|g c|g c|c|c|c|c]; simpl in E; try done; unfold uncached in E.
  - destruct (lookup_cached _ _ w); injection E as <- <-; [done..|]. unfold record_hit. rewrite record_eq. by destruct kind.
  - injection E as <- <-. apply Hw. by left.
  - destruct (w_compute_gates w !! rq_key r); injection E as <- <-; by destruct kind.
  - destruct (w_owner w !! g); [done|]. injection E as <- <-. by destruct kind.
  - destruct (lookup_cached _ _ w); injection E as <- <-; [done..|]. unfold record_hit_after_gate. rewrite record_eq. by destruct kind.
  - injection E as <- <-. apply Hw. by left.
  - injection E as <- <-. by destruct kind.
  - injection E as <- <-. apply Hw. by eauto.
  - injection E as <- <-. unfold record_miss. rewrite record_eq. by destruct kind.
  - injection E as <- <-. by destruct kind.
  - destruct (rq_typed r) as [ty|]; [|by injection E as <- <-].
    apply typed_step in E as [(p & R & _)|E]; [by eapply typed_result_entry|].
    destruct (rq_kind r); injection E as <- <-; by destruct kind.
  - injection E as <- <-. apply Hw. by eauto.
  - destruct (rq_typed r) as [ty|]; [|by injection E as <- <-].
    apply typed_step in E as [(p & R & _)|E]; [by eapply typed_result_entry|].
    injection E as <- <-. by destruct kind.
Qed.

Lemma lookup_cached_weak kind key w c :
  ce_weak <$> cache_of kind w !! key = Some c → alive w c → lookup_cached kind key w = Live c.
Proof.
  unfold lookup_cached. intros E A. destruct (cache_of kind w !! key) as [e|]; [|done].
  injection E as <-. by destruct (decide (alive w (ce_weak e))).
Qed.

Lemma get_or_create_live kind key ty w c :
  ce_weak <$> cache_of kind w !! key = Some c → alive w c → is_Some (get_or_create_typed kind key ty w).
Proof.
  unfold get_or_create_typed. intros E A. destruct (cache_of kind w !! key) as [e|]; [|done].
  injection E as <-. destruct (decide (alive w (ce_weak e))); [|done].
  destruct (ce_typed e !! ty) as [p|]; [destruct (decide (alive w p))|]; eauto.
Qed.

(** ** Settled cells *)
Section settled.
Variable nested : Request → list Request.
Variables (kind : CacheKind) (key : string) (c : nat).

Definition for_key r : Prop := rq_kind r = kind ∧ rq_key r = key.

#[local] Instance for_key_dec r : Decision (for_key r).
Proof. unfold for_key. apply _. Defined.

(** The result of a request is the cell, or a projection of it. *)
Definition result_is w r (x : nat) : Prop :=
  match rq_typed r with None => x = c | Some ty => w_cells w !! x = Some (Projected ty c) end.

(** The request is not about to evict the entry or to replace it by another cell. *)
Definition calm w r ph : Prop :=
  match ph with
  | FastPath | TakeGate | AwaitGate _ | Recheck _ => True
  | RemoveGate _ x | Unlock _ x | Project x | Reinsert x | ProjectAgain x => x = c
  | Finished x => result_is w r x
  | FastEvict | RecheckEvict _ | Computing _ _ | Publish _ _ => False
  end.

Definition calm_frame w f : Prop := for_key (fr_request f) → calm w (fr_request f) (fr_phase f).

Record settled w : Prop := {
  settled_cached : ce_weak <$> cache_of kind w !! key = Some c;
  settled_calm : ∀ tid, Forall (calm_frame w) (stack_of tid w)
}.

Lemma calm_mono w w' f : w_cells w ⊆ w_cells w' → calm_frame w f → calm_frame w' f.
Proof.
  intros Hc H K. specialize (H K). unfold calm, result_is in *. destruct (fr_phase f); try done.
  destruct (rq_typed _); [|done]. by eapply lookup_weaken.
Qed.

Lemma calm_returned w r : calm w r (returned r c).
Proof. unfold returned. destruct (rq_typed r) eqn:E; simpl; [done|]. unfold result_is. by rewrite E. Qed.

(** A projection of the entry. *)
Lemma projection_calm r ty w w1 p :
  rq_typed r = Some ty → get_or_create_typed kind key ty w = Some (w1, p) → sound w → ce_weak <$> cache_of kind w !! key = Some c →
  ce_weak <$> cache_of kind w1 !! key = Some c ∧ calm w1 r (Finished p) ∧
  (w_cells w1 = w_cells w ∨ ∃ ty s, w_cells w1 = <[w_next w := Projected ty s]> (w_cells w)).
Proof.
  intros Et Eg [He _ N] Ew. apply get_or_create_typed_cases in Eg. rewrite (typed_result_entry _ _ _ _ _ _ _ _ Eg). split; [done|].
  destruct (get_or_create_source _ _ _ _ _ _ Eg He N) as [X (e & Ee & Ep)].
  rewrite Ee in Ew. injection Ew as Ew. rewrite Ew in Ep. split.
  - simpl. unfold result_is. by rewrite Et.
  - destruct Eg as [? ? ? ? ? ?|? ? ? ?]; [by left|right; eauto].
Qed.

(** What a calm request of the key does while the cell is alive. *)
Lemma step_calm tid r ph w w' ph' :
  step nested tid r ph w = Some (w', ph') → sound w → for_key r → calm w r ph →
  ce_weak <$> cache_of kind w !! key = Some c → alive w c →
  ce_weak <$> cache_of kind w' !! key = Some c ∧ calm w' r ph' ∧
  (w_cells w' = w_cells w ∨ ∃ ty s, w_cells w' = <[w_next w := Projected ty s]> (w_cells w)).
Proof.
  intros E S [Hk Hy] C Ew A.
  destruct ph as [| | |g|g|g|g [|q rest]|g x|g x|g x|x|x|x|x]; simpl in E, C; try done; rewrite ?Hk, ?Hy in E.
  - rewrite (lookup_cached_weak _ _ _ _ Ew A) in E. injection E as <- <-. unfold record_hit. rewrite record_eq.
    split; [by destruct kind|]. split; [apply calm_returned|by left].
  - destruct (w_compute_gates w !! key); injection E as <- <-; (split; [by destruct kind|split; [done|by left]]).
  - destruct (w_owner w !! g); [done|]. injection E as <- <-. split; [by destruct kind|]. split; [done|by left].
  - rewrite (lookup_cached_weak _ _ _ _ Ew A) in E. injection E as <- <-. unfold record_hit_after_gate. rewrite record_eq.
    split; [by destruct kind|]. split; [done|by left].
  - subst x. injection E as <- <-. unfold record_miss. rewrite record_eq. split; [by destruct kind|]. split; [done|by left].
  - subst x. injection E as <- <-. split; [by destruct kind|]. split; [apply calm_returned|by left].
  - subst x. destruct (rq_typed r) as [ty|] eqn:Et.
    + destruct (get_or_create_live kind key ty w c Ew A) as [[w1 p] Eg]. rewrite Eg in E. injection E as <- <-.
      by apply (projection_calm r ty).
    + injection E as <- <-. split; [done|]. simpl. unfold result_is. rewrite Et. split; [done|by left].
  - subst x. injection E as <- <-. unfold cache_insert. rewrite cache_of_with_cache, decide_True by done.
    rewrite lookup_insert_eq. split; [done|]. split; [done|]. left. by destruct kind.
  - subst x. destruct (rq_typed r) as [ty|] eqn:Et.
    + destruct (get_or_create_live kind key ty w c Ew A) as [[w1 p] Eg]. rewrite Eg in E. injection E as <- <-.
      by apply (projection_calm r ty).
    + injection E as <- <-. split; [done|]. simpl. unfold result_is. rewrite Et. split; [done|by left].
Qed.

(** It does not come to put the cell back. *)
Definition forward ph : bool := match ph with RemoveGate _ _ | Reinsert _ | ProjectAgain _ => false | _ => true end.

Lemma step_forward tid r ph w w' ph' :
  step nested tid r ph w = Some (w', ph') → for_key r → calm w r ph →
  ce_weak <$> cache_of kind w !! key = Some c → alive w c → (∀ x, ph ≠ Reinsert x) → forward ph' = true.
Proof.
  intros E [Hk Hy] C Ew A N. assert (∀ x, forward (returned r x) = true) as R by (intros x; unfold returned; by destruct (rq_typed r)).
  destruct ph as [| | |g|g|g|g [|q rest]|g x|g x|g x|x|x|x|x]; simpl in E, C; try done; rewrite ?Hk, ?Hy in E.
  - rewrite (lookup_cached_weak _ _ _ _ Ew A) in E. by injection E as <- <-.
  - destruct (w_compute_gates w !! key); by injection E as <- <-.
  - destruct (w_owner w !! g); [done|]. by injection E as <- <-.
  - rewrite (lookup_cached_weak _ _ _ _ Ew A) in E. by injection E as <- <-.
  - by injection E as <- <-.
  - by injection E as <- <-.
  - destruct (rq_typed r) as [ty|]; [|by injection E as <- <-].
    destruct (get_or_create_live kind key ty w c Ew A) as [[w1 p] Eg]. rewrite Eg in E. by injection E as <- <-.
  - by destruct (N x).
  - destruct (rq_typed r) as [ty|]; [|by injection E as <- <-].
    destruct (get_or_create_live kind key ty w c Ew A) as [[w1 p] Eg]. rewrite Eg in E. by injection E as <- <-.
Qed.

Lemma settled_other_stack w w' tid stack :
  (∀ t, stack_of t w' = if decide (t = tid) then stack else stack_of t w) →
  w_cells w ⊆ w_cells w' → ce_weak <$> cache_of kind w' !! key = Some c →
  settled w → Forall (calm_frame w') stack → settled w'.
Proof.
  intros Hs Hc Ew [_ F] Fs. split; [done|]. intros t. rewrite Hs. destruct (decide (t = tid)); [done|].
  eapply Forall_impl; [apply F|]. intros f. by apply calm_mono.
Qed.

Lemma act_settled a w w' :
  act nested a w = Some w' → sound w → alive w c → settled w → settled w'.
Proof.
  intros E Sd A S. pose proof S as [Ew F]. destruct a as [tid r|tid|tid|x|kind' key']; simpl in E.
  - destruct (stack_of tid w) eqn:Es; [|done]. injection E as <-.
    eapply (settled_other_stack w _ tid); [intros t; by rewrite stack_of_with_stack|done|by destruct kind|done|].
    by repeat constructor.
  - pose proof (F tid) as Ft. apply run_thread_cases in E as [r g q rest below Es|r x below Es|r ph below w1 ph' Es E];
      rewrite Es in Ft; inversion Ft as [|? ? F1 F2]; subst.
    + eapply (settled_other_stack w _ tid); [intros t; by rewrite stack_of_with_stack|done|by destruct kind|done|].
      constructor; [done|]. constructor; [exact F1|done].
    + apply (settled_other_stack w _ tid below); [intros t; apply (stack_of_with_stack t tid below w)|done|by destruct kind|done|done].
    + destruct (step_leaves _ _ _ _ _ _ _ E) as [Ht _].
      assert (frame_sound w (mkFrame r ph)) as Fs.
      { pose proof (sound_frames w Sd tid) as Fr. rewrite Es in Fr. by inversion Fr. }
      destruct (step_sound _ _ _ _ _ _ _ E (sound_entries w Sd) (sound_named w Sd) Fs) as [[_ Hc _] _].
      assert (ce_weak <$> cache_of kind w1 !! key = Some c ∧ calm_frame w1 (mkFrame r ph')) as [Ew1 C1].
      { destruct (decide (for_key r)) as [K|K].
        - destruct (step_calm _ _ _ _ _ _ E Sd K (F1 K) Ew A) as (E1 & C1 & _).
          split; [done|by intros _].
        - split; [|by intros ?]. rewrite (step_other_entry _ _ _ _ _ _ _ kind key E); [done|].
          intros [= Ek Ey]. by apply K. }
      apply (settled_other_stack w _ tid (mkFrame r ph' :: below)).
      * intros t. rewrite stack_of_with_stack. by rewrite (stack_of_threads _ _ Ht).
      * done.
      * by destruct kind.
      * done.
      * constructor; [done|]. eapply Forall_impl; [exact F2|]. intros f. by apply calm_mono.
  - destruct (stack_of tid w) as [|f below] eqn:Es; [done|]. destruct (computing _); [|done]. injection E as <-.
    apply (settled_other_stack w _ tid []); [intros t; apply (stack_of_with_stack t tid [] w)|done|by destruct kind|done|constructor].
  - destruct (decide (x ∈ w_pool w)); [|done]. injection E as <-. split; [by destruct kind|done].
  - injection E as <-. unfold sweep_entry. destruct (lookup_cached kind' key' w) eqn:El; [done| |done].
    split; [|done]. unfold cache_remove. rewrite cache_of_with_cache. destruct (decide (kind = kind')) as [->|]; [|done].
    destruct (decide (key' = key)) as [->|]; [|by rewrite lookup_delete_ne].
    by rewrite (lookup_cached_weak _ _ _ _ Ew A) in El.
Qed.

(** The cells built for the key. *)
Definition build_of w (x : nat) : Prop := ∃ r, w_cells w !! x = Some (Materialized r) ∧ for_key r.

Lemma act_no_build a w w' :
  act nested a w = Some w' → settled w → ∀ x, build_of w' x → build_of w x.
Proof.
  intros E [_ F] x B. destruct a as [tid r|tid|tid|y|kind' key']; simpl in E.
  - destruct (stack_of tid w); [|done]. by injection E as <-.
  - pose proof (F tid) as Ft. apply run_thread_cases in E. destruct E as [r g q rest below Es|r y below Es|r ph below w1 ph' Es E]; try done.
    rewrite Es in Ft. inversion Ft as [|? ? F1 F2]; subst. destruct B as (b & Eq & K). simpl in Eq.
    destruct (step_cells _ _ _ _ _ _ _ E) as [Ec|(info & Ec & Hi)]; rewrite Ec in Eq; [by exists b|].
    apply lookup_insert_Some in Eq as [[_ Ei]|[_ Eq]]; [|by exists b].
    destruct (Hi b Ei) as [-> (g & -> & _)]. by destruct (F1 K).
  - destruct (stack_of tid w) as [|f below]; [done|]. destruct (computing _); [|done]. by injection E as <-.
  - destruct (decide (y ∈ w_pool w)); [|done]. by injection E as <-.
  - injection E as <-. unfold sweep_entry in B. by destruct (lookup_cached kind' key' w).
Qed.

(** Somebody has the cell, or a projection of it, in every state of a run. *)
Fixpoint kept actions w : bool :=
  bool_decide (alive w c) &&
  match actions with
  | [] => true
  | a :: rest => match act nested a w with Some w' => kept rest w' | None => true end
  end.

Lemma run_settled actions w w' :
  run nested actions w = Some w' → kept actions w = true → sound w → settled w →
  settled w' ∧ sound w' ∧ alive w' c ∧ ∀ x, build_of w' x → build_of w x.
Proof.
  revert w. induction actions as [|a actions IH]; intros w E K Sd S; simpl in E, K;
    apply andb_prop in K as [A%bool_decide_eq_true K]; [by simplify_eq|].
  destruct (act nested a w) as [w1|] eqn:E1; [|done].
  destruct (IH w1 E K) as (S' & Sd' & A' & B').
  - by eapply act_sound.
  - by eapply act_settled.
  - split; [done|]. split; [done|]. split; [done|]. intros x Bx. eapply act_no_build; [done..|by apply B'].
Qed.

End settled.
