(* ===== verification/CellCacheOnce.v ===== *)
(** * A key is built once

    As long as no handle is dropped, the requests for one key, however many run at the same
    time, go through three stages: nobody has built the cell, one request has built it and
    is about to publish it, it is cached. *)

From stdpp Require Import base strings numbers option gmap gmultiset list sorting.
From S2P Require Import Prelude CacheKey CellCache CellCacheProof CellCacheProgress CellCacheSharing.

Implicit Types (w : World) (r q : Request) (kind : CacheKind) (key : string) (tid c p : nat) (gate : Gate) (ph : Phase).
Implicit Types (f : Frame) (a : Action).

(** ** Callers wait in their build *)

Definition callers_computing w : Prop := ∀ tid, Forall (λ f, computing (fr_phase f) = true) (tail (stack_of tid w)).

Lemma act_callers nested a w w' : act nested a w = Some w' → callers_computing w → callers_computing w'.
Proof.
  intros E C t. destruct a as [tid r|tid|tid|x|kind key]; simpl in E.
  - destruct (stack_of tid w) eqn:Es; [|done]. injection E as <-. rewrite stack_of_with_stack.
    destruct (decide (t = tid)); [constructor|apply C].
  - pose proof (C tid) as F. apply run_thread_cases in E. destruct E as [r g q rest below Es|r x below Es|r ph below w1 ph' Es E];
      rewrite Es in F; simpl in F.
    + rewrite stack_of_with_stack. destruct (decide (t = tid)); [|apply C]. by constructor.
    + change (Forall (λ f, computing (fr_phase f) = true) (tail (stack_of t (with_stack tid below w)))).
      rewrite stack_of_with_stack. destruct (decide (t = tid)); [|apply C]. destruct F; [constructor|done].
    + rewrite stack_of_with_stack. destruct (step_leaves _ _ _ _ _ _ _ E) as [Ht _]. rewrite (stack_of_threads _ _ Ht).
      destruct (decide (t = tid)); [done|apply C].
  - destruct (stack_of tid w) as [|f below] eqn:Es; [done|]. destruct (computing _); [|done]. injection E as <-.
    change (Forall (λ f, computing (fr_phase f) = true) (tail (stack_of t (with_stack tid [] w)))).
    rewrite stack_of_with_stack. destruct (decide (t = tid)); [constructor|apply C].
  - destruct (decide (x ∈ w_pool w)); [|done]. injection E as <-; apply C.
  - injection E as <-. unfold sweep_entry. destruct (lookup_cached kind key w); apply C.
Qed.

(** ** Handles *)

Lemma held_iff w x :
  held w x ↔ x ∈ w_pool w ∨ ∃ tid f, f ∈ stack_of tid w ∧ phase_handle (fr_phase f) = Some x.
Proof.
  unfold held, stack_of. split; (intros [H|H]; [by left|right]).
  - destruct H as (tid & stack & E & H). apply Exists_exists in H as (f & Hf & Eh). exists tid, f. by rewrite E.
  - destruct H as (tid & f & Hf & Eh). destruct (w_threads w !! tid) as [stack|] eqn:E; [|by apply not_elem_of_nil in Hf].
    exists tid, stack. split; [done|]. apply Exists_exists. eauto.
Qed.

Lemma alive_iff w x : alive w x ↔ held w x ∨ ∃ p ty, w_cells w !! p = Some (Projected ty x) ∧ held w p.
Proof.
  unfold alive. split; (intros [H|H]; [by left|right]).
  - destruct H as (p & [r|ty s] & E & H); [done|]. destruct H as [-> H]. eauto.
  - destruct H as (p & ty & E & H). exists p, (Projected ty x). done.
Qed.

(** A cell stays alive if its handles go to its projections at most. *)
Lemma alive_keep w w' x :
  w_cells w ⊆ w_cells w' → (held w x → alive w' x) →
  (∀ p ty, w_cells w !! p = Some (Projected ty x) → held w p → held w' p) → alive w x → alive w' x.
Proof.
  intros Hc Hx Hp A. apply alive_iff in A as [A|(p & ty & E & H)]; [by apply Hx|].
  apply alive_iff. right. exists p, ty. split; [by eapply lookup_weaken|by eapply Hp].
Qed.

Lemma held_other_stack w w' tid stack x :
  (∀ t, stack_of t w' = if decide (t = tid) then stack else stack_of t w) →
  (∀ y, y ∈ w_pool w → y ∈ w_pool w') →
  (∀ f, f ∈ stack_of tid w → phase_handle (fr_phase f) = Some x → held w' x) → held w x → held w' x.
Proof.
  intros Hs Hp Hf H. apply held_iff in H as [H|(t & f & Hin & E)]; [apply held_iff; left; by apply Hp|].
  destruct (decide (t = tid)) as [->|N]; [by eapply Hf|]. apply held_iff. right. exists t, f. split; [|done].
  rewrite Hs. by destruct (decide (t = tid)).
Qed.

(** A step keeps its handle, or exchanges it for that of a projection. *)
Lemma step_handle nested tid r ph w w' ph' x :
  step nested tid r ph w = Some (w', ph') → phase_handle ph = Some x →
  phase_handle ph' = Some x ∨ ph = Project x ∨ ph = ProjectAgain x.
Proof.
  intros E. unfold returned in E.
  destruct ph as [| | |g|g|g|g [|q rest]|g c|g c|g c|c|c|c|c]; simpl in *; try done; intros [= ->]; eauto.
  - injection E as <- <-. by left.
  - injection E as <- <-. by left.
  - injection E as <- <-. left. unfold returned. by destruct (rq_typed r).
  - injection E as <- <-. by left.
Qed.

Section once.
Variable nested : Request → list Request.
Variable P : Request → Prop.
Hypothesis nested_ok : ∀ r, P r → Forall P (nested r).
Variables (kind : CacheKind) (key : string).
(** The key tells the cache. *)
Hypothesis key_kind : ∀ r, P r → rq_key r = key → rq_kind r = kind.

Abbreviation mine := (for_key kind key).
Abbreviation builds := (build_of kind key).

Inductive Stage := Fresh | Built (cell : nat) | Cached (cell : nat).
Implicit Types (st : Stage).

Definition stage_phase st w r ph : Prop :=
  match ph with
  | FastPath | TakeGate => True
  | AwaitGate g => match st with Cached _ => True | Fresh | Built _ => w_compute_gates w !! key = Some g end
  | Recheck g => match st with Cached _ => True | Fresh => w_compute_gates w !! key = Some g | Built _ => False end
  | Computing g _ => st = Fresh ∧ w_compute_gates w !! key = Some g
  | Publish g x => st = Built x ∧ w_compute_gates w !! key = Some g
  | RemoveGate _ x | Unlock _ x | Project x => st = Cached x
  | Finished x => ∃ c, st = Cached c ∧ result_is c w r x
  | FastEvict | RecheckEvict _ | Reinsert _ | ProjectAgain _ => False
  end.

Definition stage_frame st w f : Prop := mine (fr_request f) → stage_phase st w (fr_request f) (fr_phase f).

(** What is true of the world outside of the stacks. *)
Record stage_shared st w : Prop := {
  stage_entry : ce_weak <$> cache_of kind w !! key = match st with Cached c => Some c | Fresh | Built _ => None end;
  stage_cells : ∀ x, builds w x ↔ st = Built x ∨ st = Cached x
}.

Record staged st w : Prop := {
  staged_shared : stage_shared st w;
  staged_frames : ∀ tid, Forall (stage_frame st w) (stack_of tid w);
  staged_builder : ∀ c, st = Built c → ∃ tid r g below, stack_of tid w = mkFrame r (Publish g c) :: below ∧ mine r;
  staged_alive : ∀ c, st = Cached c → alive w c
}.

Lemma stage_phase_mono st w w' r ph :
  w_cells w ⊆ w_cells w' → w_compute_gates w' !! key = w_compute_gates w !! key → stage_phase st w r ph → stage_phase st w' r ph.
Proof.
  intros Hc Hg H. unfold stage_phase in *. rewrite Hg. destruct ph; try done. destruct H as (c & E & H). exists c. split; [done|].
  unfold result_is in *. destruct (rq_typed r); [|done]. by eapply lookup_weaken.
Qed.

Lemma stage_frame_mono st w w' f :
  w_cells w ⊆ w_cells w' → w_compute_gates w' !! key = w_compute_gates w !! key → stage_frame st w f → stage_frame st w' f.
Proof. intros Hc Hg H M. apply (stage_phase_mono st w); [done..|by apply H]. Qed.

(** Nobody else owns the gate that a request owns. *)
Lemma others_free w tid r ph below g t f :
  locks w → stack_of tid w = mkFrame r ph :: below → owned ph = Some g →
  f ∈ (if decide (t = tid) then below else stack_of t w) → owned (fr_phase f) ≠ Some g.
Proof.
  intros L Es Eo Hf Ef. pose proof (locks_once w L tid) as N. rewrite Es in N. cbn [owned_by omap fr_phase] in N.
  unfold owned_by in N. cbn in N. rewrite Eo in N. apply NoDup_cons in N as [N _].
  destruct (decide (t = tid)) as [->|Nt].
  - apply N. apply list_elem_of_omap. eauto.
  - apply Nt, (gate_exclusive w t tid g L).
    + apply list_elem_of_omap. eauto.
    + rewrite Es. apply list_elem_of_omap. exists (mkFrame r ph). split; [left|done].
Qed.

(** *** Steps of requests for other keys *)

Lemma step_other_gate tid r ph w w' ph' :
  step nested tid r ph w = Some (w', ph') → rq_key r ≠ key → w_compute_gates w' !! key = w_compute_gates w !! key.
Proof.
  intros E N. destruct ph as [| | |g|g|g|g [|q rest]|g c|g c|g c|c|c|c|c]; simpl in E; try done; unfold uncached in E.
  - destruct (lookup_cached _ _ w); injection E as <- <-; [done..|]. unfold record_hit. by rewrite record_eq.
  - by injection E as <- <-.
  - destruct (w_compute_gates w !! rq_key r); injection E as <- <-; [done|]. simpl. by rewrite lookup_insert_ne.
  - destruct (w_owner w !! g); [done|]. by injection E as <- <-.
  - destruct (lookup_cached _ _ w); injection E as <- <-; [done..|]. unfold record_hit_after_gate. by rewrite record_eq.
  - by injection E as <- <-.
  - by injection E as <- <-.
  - by injection E as <- <-.
  - injection E as <- <-. unfold record_miss. rewrite record_eq. simpl. by rewrite lookup_delete_ne.
  - by injection E as <- <-.
  - destruct (rq_typed r) as [ty|]; [|by injection E as <- <-].
    apply typed_step in E as [(p & R & _)|E]; [by apply typed_result_locks in R as [_ ->]|].
    by destruct (rq_kind r); injection E as <- <-.
  - by injection E as <- <-.
  - destruct (rq_typed r) as [ty|]; [|by injection E as <- <-].
    apply typed_step in E as [(p & R & _)|E]; [by apply typed_result_locks in R as [_ ->]|].
    by injection E as <- <-.
Qed.

Lemma builds_grow w w' : w_cells w ⊆ w_cells w' → (∀ x r, w_cells w' !! x = Some (Materialized r) → mine r → w_cells w !! x = Some (Materialized r)) →
  ∀ x, builds w' x ↔ builds w x.
Proof.
  intros Hc Hn x. split; intros (r & E & M); exists r; (split; [|done]); [by apply Hn|by eapply lookup_weaken].
Qed.

Lemma step_other_shared tid r ph w w' ph' st :
  step nested tid r ph w = Some (w', ph') → w_cells w ⊆ w_cells w' → ¬ mine r → stage_shared st w → stage_shared st w'.
Proof.
  intros E Hc N [He Hb]. split.
  - rewrite (step_other_entry _ _ _ _ _ _ _ kind key E); [done|]. intros [= Ek Ey]. by apply N.
  - intros x. rewrite <- Hb. apply builds_grow; [done|]. intros y q Eq M.
    destruct (step_cells _ _ _ _ _ _ _ E) as [Ec|(info & Ec & Hi)]; rewrite Ec in Eq; [done|].
    apply lookup_insert_Some in Eq as [[_ Ei]|[_ Eq]]; [|done]. destruct (Hi q Ei) as [-> _]. done.
Qed.

(** *** Steps of requests for the key *)

(** What the step of a request for the key does to the stage and to the other frames. *)
Definition advances w r ph w' ph' st st' : Prop :=
  stage_shared st' w' ∧ stage_phase st' w' r ph' ∧
  (∀ r' ph0, (∀ g, owned ph = Some g → owned ph0 ≠ Some g) → stage_phase st w r' ph0 → stage_phase st' w' r' ph0) ∧
  (∀ c, st' = Built c → st = Built c ∧ (∀ g, ph ≠ Publish g c) ∨ ∃ g, ph' = Publish g c) ∧
  (∀ c, st' = Cached c → st = Cached c ∨ phase_handle ph' = Some c).

Lemma lookup_missing w : ce_weak <$> cache_of kind w !! key = None → lookup_cached kind key w = Missing.
Proof. unfold lookup_cached. by destruct (cache_of kind w !! key). Qed.

Lemma advances_same w r ph w' ph' st :
  (∀ k, cache_of k w' = cache_of k w) → w_cells w' = w_cells w → w_compute_gates w' !! key = w_compute_gates w !! key →
  stage_shared st w → stage_phase st w' r ph' → (∀ g c, ph ≠ Publish g c) → advances w r ph w' ph' st st.
Proof.
  intros Hk Hc Hg [He Hb] Hp N. split; [|split; [done|split; [|split; [|by left]]]].
  - split; [by rewrite Hk|]. intros x. rewrite <- Hb. unfold builds. by rewrite Hc.
  - intros r' ph0 _. apply stage_phase_mono; [by rewrite Hc|done].
  - intros c ->. left. split; [done|]. intros g. apply N.
Qed.

(** Taking the gate registers one only if there is none. *)
Lemma take_gate_advances tid r w w' ph' st :
  step nested tid r TakeGate w = Some (w', ph') → rq_key r = key → stage_shared st w →
  (∀ c, st = Built c → is_Some (w_compute_gates w !! key)) → advances w r TakeGate w' ph' st st.
Proof.
  simpl. intros E Hy Hs Hb. rewrite Hy in E. destruct (w_compute_gates w !! key) as [g|] eqn:Eg; injection E as <- <-.
  - apply advances_same; try done. by destruct st.
  - destruct Hs as [He Hc]. split; [|split; [|split; [|split; [|by left]]]].
    + split; [by destruct kind|done].
    + destruct st; simpl; rewrite ?lookup_insert_eq; done.
    + intros r' ph0 _. unfold stage_phase. simpl. rewrite lookup_insert_eq.
      destruct ph0, st; try done; rewrite ?Eg; try (by intros [=]); by intros [? [=]].
    + intros c ->. by destruct (Hb c eq_refl).
Qed.

Lemma step_fresh tid r ph w w' ph' :
  step nested tid r ph w = Some (w', ph') → mine r → cells_named w →
  stage_shared Fresh w → stage_phase Fresh w r ph → ∃ st', advances w r ph w' ph' Fresh st'.
Proof.
  intros E [Hk Hy] N Hs Hp. pose proof Hs as [He Hb].
  destruct ph as [| | |g|g|g|g [|q rest]|g x|g x|g x|x|x|x|x]; try done; try (by destruct Hp as (? & ? & _)); try (by destruct Hp).
  - simpl in E. rewrite Hk, Hy, (lookup_missing _ He) in E. injection E as <- <-. exists Fresh. by apply advances_same.
  - exists Fresh. by eapply take_gate_advances.
  - simpl in E. destruct (w_owner w !! g); [done|]. injection E as <- <-. exists Fresh. by apply advances_same; [intros []|..].
  - simpl in E. rewrite Hk, Hy, (lookup_missing _ He) in E. injection E as <- <-. exists Fresh. by apply advances_same.
  - destruct Hp as [_ Hg]. injection E as <- <-. exists (Built (w_next w)).
    split; [split; [by destruct kind|]|split; [by split|split; [|split; [by intros ? [= <-]; right; eauto|done]]]].
    + intros x. unfold builds. simpl. split.
      * intros (q & Eq & M). apply lookup_insert_Some in Eq as [[<- _]|[_ Eq]]; [by left|].
        assert (builds w x) as B by by exists q. by apply Hb in B as [|].
      * intros [[= <-]|[=]]. exists r. rewrite lookup_insert_eq. by split.
    + intros r' ph0 Hfree. specialize (Hfree g eq_refl). unfold stage_phase. simpl.
      destruct ph0; simpl in *; try done; try (intros H; congruence).
      * intros [_ H]. congruence.
      * by intros [? _].
      * by intros (? & ? & _).
Qed.

Lemma step_built tid r ph w w' ph' c tid0 r0 g0 below0 :
  step nested tid r ph w = Some (w', ph') → mine r → locks w → frame_sound w (mkFrame r ph) →
  stack_of tid0 w = mkFrame r0 (Publish g0 c) :: below0 → w_compute_gates w !! key = Some g0 →
  stage_shared (Built c) w → stage_phase (Built c) w r ph → ∃ st', advances w r ph w' ph' (Built c) st'.
Proof.
  intros E [Hk Hy] L Fs Es Hg Hs Hp. pose proof Hs as [He Hb].
  destruct ph as [| | |g|g|g|g [|q rest]|g x|g x|g x|x|x|x|x]; try done; try (by destruct Hp as (? & ? & _)); try (by destruct Hp).
  - simpl in E. rewrite Hk, Hy, (lookup_missing _ He) in E. injection E as <- <-. exists (Built c). by apply advances_same.
  - exists (Built c). eapply take_gate_advances; [done..|]. rewrite Hg. eauto.
  - exfalso. simpl in Hp, E. rewrite Hg in Hp. injection Hp as ->.
    assert (w_owner w !! g = Some tid0) as Ho by (apply (locks_owner w L); rewrite Es; left).
    by rewrite Ho in E.
  - destruct Hp as [[= <-] Hg']. rewrite Hg in Hg'. injection Hg' as <-. simpl in E. rewrite Hk, Hy in E. injection E as <- <-.
    exists (Cached c). split; [split|split; [done|split; [|split; [done|by intros ? [= <-]; right]]]].
    + unfold cache_insert. rewrite cache_of_with_cache. destruct (decide (kind = kind)); [|done]. by rewrite lookup_insert_eq.
    + intros y. unfold cache_insert, builds. simpl. unfold builds in Hb. rewrite Hb. naive_solver.
    + intros r' ph0 Hfree. specialize (Hfree g0 eq_refl). unfold stage_phase. simpl.
      destruct ph0; simpl in *; try done.
      * by intros [? _].
      * intros [_ H]. congruence.
      * by intros (? & ? & _).
Qed.

Lemma step_cached tid r ph w w' ph' c :
  step nested tid r ph w = Some (w', ph') → mine r → sound w → alive w c →
  stage_shared (Cached c) w → stage_phase (Cached c) w r ph → ∃ st', advances w r ph w' ph' (Cached c) st'.
Proof.
  intros E M Sd A Hs Hp. pose proof M as [Hk Hy]. pose proof Hs as [He Hb]. exists (Cached c).
  destruct (match ph with RemoveGate g x => Some (g, x) | _ => None end) as [[g x]|] eqn:Eph.
  - assert (ph = RemoveGate g x) as -> by (destruct ph; simplify_eq; done). simpl in Hp, E. injection Hp as <-.
    injection E as <- <-. unfold record_miss. rewrite record_eq, Hy.
    split; [by split; [destruct kind|]|]. split; [done|]. split; [|by split; [|left]].
    intros r' ph0 _. unfold stage_phase. destruct ph0; try done; by intros [? _].
  - assert (calm c w r ph) as C.
    { destruct ph; simpl in *; try done; try congruence; naive_solver. }
    destruct (step_calm nested kind key c tid r ph w w' ph' E Sd M C He A) as (He' & C' & Hc).
    assert (forward ph' = true) as Fw.
    { apply (step_forward nested kind key c tid r ph w w' ph' E M C He A). intros x ->. done. }
    assert (∀ x, builds w' x ↔ builds w x) as Hb'.
    { intros x. unfold builds. destruct Hc as [->|(ty & s & ->)]; [done|]. split; intros (q & Eq & Mq); exists q; (split; [|done]).
      - by apply lookup_insert_Some in Eq as [[_ [=]]|[_ Eq]].
      - rewrite lookup_insert_ne; [done|]. intros <-.
        pose proof (sound_named w Sd (w_next w) (le_n _)). congruence. }
    split; [by split; [|intros x; rewrite Hb'; apply Hb]|]. split; [|split; [|by split; [|left]]].
    + destruct ph'; simpl in *; try done; try congruence. eauto.
    + assert (w_cells w ⊆ w_cells w') as Hg.
      { destruct Hc as [->|(ty & s & ->)]; [done|]. by apply insert_subseteq, (sound_named w Sd). }
      intros r' ph0 _. unfold stage_phase. destruct ph0; try done; try by intros [? _].
      intros (c0 & Ec & H). exists c0. split; [done|]. unfold result_is in *. destruct (rq_typed r'); [|done].
      by eapply lookup_weaken.
Qed.

(** *** Runs *)

Lemma alive_mono w w' x : w_cells w ⊆ w_cells w' → (∀ y, held w y → held w' y) → alive w x → alive w' x.
Proof using. intros Hc Hh. apply alive_keep; [done| |eauto]. intros H. apply alive_iff. left. by apply Hh. Qed.

(** Moves that leave the caches, gates and cells alone. *)
Lemma staged_other_stack st w w' tid stack :
  (∀ t, stack_of t w' = if decide (t = tid) then stack else stack_of t w) →
  (∀ k, cache_of k w' = cache_of k w) → w_cells w' = w_cells w → w_compute_gates w' = w_compute_gates w →
  (∀ y, held w y → held w' y) → (∀ r g c below, stack_of tid w ≠ mkFrame r (Publish g c) :: below) →
  Forall (stage_frame st w') stack → staged st w → staged st w'.
Proof.
  intros Hs Hk Hc Hg Hh Nb F [[He Hb] Hf Hbu Ha]. split.
  - split; [by rewrite Hk|]. unfold builds. by rewrite Hc.
  - intros t. rewrite Hs. destruct (decide (t = tid)); [done|]. eapply Forall_impl; [apply Hf|].
    intros f. apply stage_frame_mono; [by rewrite Hc|by rewrite Hg].
  - intros c Ec. destruct (Hbu c Ec) as (t & r & g & below & Es & M). exists t, r, g, below. split; [|done].
    rewrite Hs. destruct (decide (t = tid)) as [->|]; [by destruct (Nb r g c below)|done].
  - intros c Ec. apply (alive_mono w); [by rewrite Hc|done|by apply Ha].
Qed.

Lemma built_mine w c r : builds w c → built_as w c (rq_kind r) (rq_key r) → mine r.
Proof. intros (q & E & Mk & My) (q' & E' & Ek & Ey). rewrite E in E'. injection E' as <-. split; congruence. Qed.

Lemma step_projects tid r c w w' ph' :
  step nested tid r (Project c) w = Some (w', ph') → (∃ y, ph' = Reinsert y) ∨ ∃ y, ph' = Finished y.
Proof.
  simpl. unfold uncached. destruct (rq_typed r) as [ty|]; [|injection 1 as _ <-; eauto].
  destruct (get_or_create_typed _ _ _ w) as [[w1 p]|]; [injection 1 as _ <-; eauto|].
  destruct (rq_kind r); injection 1 as _ <-; eauto.
Qed.

(** The handles of a cell and of its projections after a step. *)
Lemma step_alive tid r ph below w w' ph' c :
  step nested tid r ph w = Some (w', ph') → stack_of tid w = mkFrame r ph :: below → sound w → w_cells w ⊆ w_cells w' →
  (ph = Project c ∨ ph = ProjectAgain c → alive (with_stack tid (mkFrame r ph' :: below) w') c) →
  alive w c → alive (with_stack tid (mkFrame r ph' :: below) w') c.
Proof.
  intros E Es Sd Hc Hp. set (w2 := with_stack tid (mkFrame r ph' :: below) w').
  destruct (step_leaves _ _ _ _ _ _ _ E) as [Ht Hpool].
  assert (∀ t, stack_of t w2 = if decide (t = tid) then mkFrame r ph' :: below else stack_of t w) as Hs.
  { intros t. unfold w2. rewrite stack_of_with_stack. by rewrite (stack_of_threads _ _ Ht). }
  assert (frame_sound w (mkFrame r ph)) as Fs.
  { pose proof (sound_frames w Sd tid) as Fr. rewrite Es in Fr. by inversion Fr. }
  assert (∀ x, held w x → held w2 x ∨ ph = Project x ∨ ph = ProjectAgain x) as Hh.
  { intros x H. destruct (decide (phase_handle ph = Some x)) as [Ex|Nx].
    - destruct (step_handle _ _ _ _ _ _ _ _ E Ex) as [Ex'|[->| ->]]; [left|by eauto..].
      apply held_iff. right. exists tid, (mkFrame r ph'). rewrite Hs. destruct (decide (tid = tid)); [|done]. split; [left|done].
    - left. apply held_iff in H as [H|(t & f & Hf & Ef)]; apply held_iff; [left; unfold w2; simpl; by rewrite Hpool|right].
      exists t, f. split; [|done]. rewrite Hs. destruct (decide (t = tid)) as [->|]; [|done].
      rewrite Es in Hf. apply elem_of_cons in Hf as [->|Hf]; [done|by right]. }
  apply alive_keep; [done| |].
  - intros H. destruct (Hh c H) as [H'|H']; [apply alive_iff; by left|by apply Hp].
  - intros p ty Ep H. destruct (Hh p H) as [H'|H']; [done|].
    assert (built_as w p (rq_kind r) (rq_key r)) as (q & Eq & _) by (destruct H' as [-> | ->]; by apply (Fs p)).
    by rewrite Ep in Eq.
Qed.

Lemma mine_or_other r : P r → mine r ∨ ¬ mine r ∧ rq_key r ≠ key.
Proof.
  intros Pr. destruct (decide (rq_key r = key)) as [Ey|Ny]; [left; split; [by apply key_kind|done]|].
  right. split; [|done]. by intros [_ ?].
Qed.

Lemma step_staged tid r ph below w w' ph' st :
  step nested tid r ph w = Some (w', ph') → stack_of tid w = mkFrame r ph :: below →
  sound w → locks w → P r → staged st w →
  ∃ st', staged st' (with_stack tid (mkFrame r ph' :: below) w').
Proof.
  intros E Es Sd L Pr [Hsh Hf Hbu Ha]. set (w2 := with_stack tid (mkFrame r ph' :: below) w').
  destruct (step_leaves _ _ _ _ _ _ _ E) as [Ht Hpool].
  assert (∀ t, stack_of t w2 = if decide (t = tid) then mkFrame r ph' :: below else stack_of t w) as Hs.
  { intros t. unfold w2. rewrite stack_of_with_stack. by rewrite (stack_of_threads _ _ Ht). }
  assert (frame_sound w (mkFrame r ph)) as Fs.
  { pose proof (sound_frames w Sd tid) as Fr. rewrite Es in Fr. by inversion Fr. }
  destruct (step_sound _ _ _ _ _ _ _ E (sound_entries w Sd) (sound_named w Sd) Fs) as [[_ Hc _] _].
  pose proof (Hf tid) as Ft. rewrite Es in Ft. inversion Ft as [|? ? F1 F2]; subst.
  assert (∀ st0, stage_shared st0 w' → stage_shared st0 w2) as Hsh2 by (intros st0 [H1 H2]; split; [by destruct kind|done]).
  destruct (mine_or_other r Pr) as [M|[M Ny]].
  - assert (∃ st', advances w r ph w' ph' st st') as [st' (A1 & A2 & A3 & A4 & A5)].
    { specialize (F1 M). simpl in F1. destruct st as [|c|c].
      - eapply step_fresh; [done..|apply Sd|done|done].
      - destruct (Hbu c eq_refl) as (t0 & r0 & g0 & b0 & Es0 & M0). pose proof (Hf t0) as Ft0. rewrite Es0 in Ft0.
        inversion Ft0 as [|? ? G1 _]; subst. destruct (G1 M0) as [_ Hg0]. by eapply step_built.
      - eapply step_cached; try done. by apply Ha. }
    exists st'. split; [by apply Hsh2| | |].
    + intros t. rewrite Hs. apply Forall_forall. intros f Hin.
      assert (f = mkFrame r ph' ∧ t = tid ∨ f ∈ (if decide (t = tid) then below else stack_of t w)) as [[-> _]|Hin'].
      { destruct (decide (t = tid)); [|by right]. apply elem_of_cons in Hin as [->|Hin]; [by left|by right]. }
      * by intros _.
      * intros Mf. apply (A3 (fr_request f)); [intros g Eo; by eapply others_free|].
        assert (f ∈ stack_of t w) as Hin2.
        { destruct (decide (t = tid)) as [->|]; [|done]. rewrite Es. by right. }
        pose proof (Hf t) as Fo. rewrite Forall_forall in Fo. by apply (Fo f Hin2).
    + intros c Ec. destruct (A4 c Ec) as [[Ec' Np]|[g ->]].
      * destruct (Hbu c Ec') as (t0 & r0 & g0 & b0 & Es0 & M0). exists t0, r0, g0, b0. split; [|done].
        rewrite Hs. destruct (decide (t0 = tid)) as [->|]; [|done]. rewrite Es in Es0. injection Es0 as _ E0 _. by destruct (Np g0).
      * exists tid, r, g, below. split; [|done]. rewrite Hs. by destruct (decide (tid = tid)).
    + intros c Ec. destruct (A5 c Ec) as [Ec'|Eh].
      * apply (step_alive tid r ph below w w' ph' c); try done; [|by apply Ha].
        intros [-> | ->]; [|by destruct (F1 M)].
        destruct (step_projects _ _ _ _ _ _ E) as [[y ->]|[y ->]]; [done|].
        destruct A2 as (c' & Ec2 & Hr). rewrite Ec in Ec2. injection Ec2 as <-.
        assert (held w2 y) as Hy.
        { apply held_iff. right. exists tid, (mkFrame r (Finished y)). rewrite Hs. destruct (decide (tid = tid)); [|done].
          split; [left|done]. }
        apply alive_iff. unfold result_is in Hr. destruct (rq_typed r) as [ty|]; [right; by exists y, ty|left; by subst].
      * apply alive_iff. left. apply held_iff. right. exists tid, (mkFrame r ph'). rewrite Hs.
        destruct (decide (tid = tid)); [|done]. split; [left|done].
  - exists st. assert (stage_shared st w') as Hsh' by by eapply step_other_shared.
    pose proof (step_other_gate _ _ _ _ _ _ E Ny) as Hg. split; [by apply Hsh2| | |].
    + intros t. rewrite Hs. assert (∀ f, stage_frame st w f → stage_frame st w2 f) as Hm.
      { intros f. by apply stage_frame_mono. }
      destruct (decide (t = tid)); [|eapply Forall_impl; [apply Hf|done]].
      constructor; [by intros ?|]. eapply Forall_impl; [exact F2|done].
    + intros c Ec. destruct (Hbu c Ec) as (t0 & r0 & g0 & b0 & Es0 & M0). exists t0, r0, g0, b0. split; [|done].
      rewrite Hs. destruct (decide (t0 = tid)) as [->|]; [|done]. rewrite Es in Es0. injection Es0 as -> _ _. done.
    + intros c Ec. apply (step_alive tid r ph below w w' ph' c); try done; [|by apply Ha].
      intros Hp. exfalso. apply M. apply (built_mine w c).
      * apply (stage_cells st w Hsh). by right.
      * destruct Hp as [-> | ->]; by apply (Fs c).
Qed.

Lemma act_staged a w w' st :
  act nested a w = Some w' → (∀ c, a ≠ DropHandle c) →
  sound w → locks w → requests_ok P w → callers_computing w → staged st w → ∃ st', staged st' w'.
Proof.
  intros E Nd Sd L R C S. destruct a as [tid r|tid|tid|x|kind' key']; simpl in E.
  - destruct (stack_of tid w) as [|] eqn:Es; [|done]. injection E as <-. exists st.
    assert (∀ t, stack_of t (with_stack tid [mkFrame r FastPath] w) = if decide (t = tid) then [mkFrame r FastPath] else stack_of t w) as Hs
      by (intros t; by rewrite stack_of_with_stack).
    apply (staged_other_stack st w _ tid _ Hs); try done; [|by rewrite Es|by repeat constructor].
    intros y. apply (held_other_stack w _ tid _ y Hs); [done|]. rewrite Es. by intros f ?%not_elem_of_nil.
  - pose proof (stacks_ok P w R tid) as F. apply run_thread_cases in E.
    destruct E as [r g q rest below Es|r x below Es|r ph below w1 ph' Es E]; rewrite Es in F; inversion F as [|? ? [Pr _] _]; subst.
    + exists st. set (stack := mkFrame q FastPath :: mkFrame r (Computing g rest) :: below).
      assert (∀ t, stack_of t (with_stack tid stack w) = if decide (t = tid) then stack else stack_of t w) as Hs
        by (intros t; by rewrite stack_of_with_stack).
      pose proof (staged_frames st w S tid) as Ft. rewrite Es in Ft. inversion Ft as [|? ? F1 F2]; subst.
      apply (staged_other_stack st w _ tid _ Hs); try done; [|by rewrite Es|constructor; [by intros _|]; constructor; [exact F1|exact F2]].
      intros y. apply (held_other_stack w _ tid _ y Hs); [done|]. rewrite Es. intros f Hf Eh.
      apply elem_of_cons in Hf as [->|Hf]; [done|]. apply held_iff. right. exists tid, f. rewrite Hs.
      destruct (decide (tid = tid)); [|done]. split; [by do 2 right|done].
    + exists st. set (w2 := with_pool _ _).
      assert (∀ t, stack_of t w2 = if decide (t = tid) then below else stack_of t w) as Hs
        by (intros t; apply (stack_of_with_stack t tid below w)).
      pose proof (staged_frames st w S tid) as Ft. rewrite Es in Ft. inversion Ft as [|? ? F1 F2]; subst.
      apply (staged_other_stack st w _ tid _ Hs); try done; [|by rewrite Es].
      assert (∀ y, y ∈ w_pool w → y ∈ w_pool w2) as Hpool by (intros y Hy; unfold w2; simpl; multiset_solver).
      intros y. apply (held_other_stack w _ tid _ y Hs); [done|]. rewrite Es. intros f Hf Eh.
      apply elem_of_cons in Hf as [->|Hf]; apply held_iff.
      * left. injection Eh as <-. unfold w2. simpl. multiset_solver.
      * right. exists tid, f. rewrite Hs. by destruct (decide (tid = tid)).
    + by eapply step_staged.
  - destruct (stack_of tid w) as [|f below] eqn:Es; [done|]. destruct (computing (fr_phase f)) eqn:Ef; [|done].
    injection E as <-. exists st.
    assert (∀ t, stack_of t (unwind tid w) = if decide (t = tid) then [] else stack_of t w) as Hs
      by (intros t; apply (stack_of_with_stack t tid [] w)).
    apply (staged_other_stack st w _ tid _ Hs); try done; [|].
    + intros y. apply (held_other_stack w _ tid _ y Hs); [done|]. rewrite Es. intros f' Hf Eh. exfalso.
      assert (computing (fr_phase f') = true) as Cf.
      { apply elem_of_cons in Hf as [->|Hf]; [done|]. pose proof (C tid) as Ct. rewrite Es in Ct. simpl in Ct.
        rewrite Forall_forall in Ct. by apply Ct. }
      by destruct (fr_phase f').
    + rewrite Es. intros r g c b [= -> _]. done.
  - by destruct (Nd x).
  - injection E as <-. exists st. unfold sweep_entry. destruct (lookup_cached kind' key' w) eqn:El; [done| |done].
    destruct S as [[He Hb] Hf Hbu Ha]. split; try done. split; [|done]. unfold cache_remove. rewrite cache_of_with_cache.
    destruct (decide (kind = kind')) as [Ek|]; [|done]. rewrite <- Ek in El.
    destruct (decide (key' = key)) as [Ey|]; [rewrite Ey in El|by rewrite lookup_delete_ne].
    destruct st as [|c|c].
    + by rewrite (lookup_missing _ He) in El.
    + by rewrite (lookup_missing _ He) in El.
    + by rewrite (lookup_cached_weak _ _ _ _ He (Ha c eq_refl)) in El.
Qed.

Lemma staged_empty : staged Fresh w_empty.
Proof using.
  clear key_kind nested_ok P.
  assert (∀ tid, stack_of tid w_empty = []) as E by (intros; unfold stack_of; simpl; by rewrite lookup_empty).
  split; [split|..]; try done; try (intros tid; rewrite E; constructor).
  - by destruct kind.
  - intros x. split; [|by intros [|]]. intros (r & Er & _). done.
Qed.

(** Everything that is true of every run in which no handle is dropped. *)
Lemma run_staged actions w w' st :
  Forall (λ a, arrival_ok P a ∧ ∀ c, a ≠ DropHandle c) actions → run nested actions w = Some w' →
  sound w → locks w → requests_ok P w → callers_computing w → staged st w →
  sound w' ∧ ∃ st', staged st' w'.
Proof.
  intros Ha E Sd L R C S.
  assert (sound w' ∧ locks w' ∧ requests_ok P w' ∧ callers_computing w' ∧ ∃ st', staged st' w') as (? & _ & _ & _ & ?); [|done].
  eapply (run_invariant nested (λ v, sound v ∧ locks v ∧ requests_ok P v ∧ callers_computing v ∧ ∃ st', staged st' v));
    [|exact Ha|exact E|by eauto 10].
  intros a v v' [Aa Nd] Ea (Sd1 & L1 & R1 & C1 & [st1 S1]).
  split; [by eapply act_sound|]. split; [by eapply act_locks|]. split; [by eapply act_requests_ok|].
  split; [by eapply act_callers|by eapply act_staged].
Qed.

Lemma staged_once st w x y : staged st w → builds w x → builds w y → x = y.
Proof. intros [[_ Hb] _ _ _] Hx%Hb Hy%Hb. naive_solver. Qed.

End once.
