(* ===== verification/CellCacheTheorems.v ===== *)
(** * Properties of the cell caches

    What a caller is given, when callers share, and that requests come to an end; then what
    the caches do not promise, shown on runs. *)

From stdpp Require Import base strings numbers option gmap gmultiset list sorting.
From S2P Require Import Prelude CacheKey CellCache CellCacheProof CellCacheProgress CellCacheSharing CellCacheOnce.

Implicit Types (w : World) (r q : Request) (kind : CacheKind) (key : string) (tid c p : nat) (gate : Gate) (ph : Phase).

(** The names in a request hold no separator, and its hash is a [u64]. *)
Definition well_formed r : Prop :=
  no_colon (rc_host_id (rq_context r)) = true ∧ no_colon (rq_id r) = true ∧ (0 ≤ rq_hash r ≤ u64_max)%Z.

Definition same_graph r r' : Prop :=
  rc_host_id (rq_context r) = rc_host_id (rq_context r') ∧ rq_kind r = rq_kind r' ∧ rq_id r = rq_id r' ∧
  rq_hash r = rq_hash r' ∧ rq_scope r = rq_scope r' ∧
  (rq_scope r = PerClient → rc_client_id (rq_context r) = rc_client_id (rq_context r')).

(** The request a cell was built for, through its projection. *)
Definition origin w c : option Request :=
  match w_cells w !! c with
  | Some (Materialized r) => Some r
  | Some (Projected _ source) => match w_cells w !! source with Some (Materialized r) => Some r | _ => None end
  | None => None
  end.

Lemma key_same r r' : well_formed r → well_formed r' → rq_key r = rq_key r' ↔ same_graph r r'.
Proof.
  intros (H1 & H2 & H3) (H4 & H5 & H6). unfold rq_key, same_graph.
  rewrite cache_key_inj by (done || by destruct (rq_kind _)).
  split; intros; deex; repeat split; try done; [|by f_equal]. by destruct (rq_kind r), (rq_kind r').
Qed.

Lemma well_formed_kind r r' : well_formed r → well_formed r' → rq_key r = rq_key r' → rq_kind r = rq_kind r'.
Proof. intros H H' E. apply key_same in E; [|done..]. apply E. Qed.

Lemma result_origin w r c :
  requests_ok well_formed w → well_formed r → result_for w r c → ∃ r0, origin w c = Some r0 ∧ same_graph r0 r.
Proof.
  intros R W H. assert (∀ x, built_as w x (rq_kind r) (rq_key r) → ∃ r0, w_cells w !! x = Some (Materialized r0) ∧ same_graph r0 r) as Hb.
  { intros x (r0 & E & Ek & Ey). exists r0. split; [done|]. apply key_same; [by eapply cells_ok|done..]. }
  unfold result_for in H. unfold origin. destruct (rq_typed r) as [ty|].
  - destruct H as (s & E & B). destruct (Hb s B) as (r0 & E0 & S). exists r0. by rewrite E, E0.
  - destruct (Hb c H) as (r0 & E0 & S). exists r0. by rewrite E0.
Qed.

(** ** Properties *)

(** C31: However the threads interleave with each other, with panics, with owners dropping
    their cells and with sweeps of the caches, a request returns a cell that was built on the
    same host for the same operation with the same hash of the parameters, and, when the
    operation depends on its caller, for the same client: two clients never share a per-client
    view or report, while transactions do share.  (The cache knows parameters by their 64-bit
    [cache_key_hash] only, here as in the code.) *)
Theorem cached_cells_belong_to_their_callers nested actions w tid r c :
  (∀ q, well_formed q → Forall well_formed (nested q)) → Forall (arrival_ok well_formed) actions →
  run nested actions w_empty = Some w → mkFrame r (Finished c) ∈ stack_of tid w →
  (∃ r0, origin w c = Some r0 ∧ same_graph r0 r) ∧
  ∀ tid' r', mkFrame r' (Finished c) ∈ stack_of tid' w → same_graph r' r.
Proof.
  intros Hn Ha E Hf. pose proof (run_sound _ _ _ _ E sound_empty) as Sd.
  assert (requests_ok well_formed w) as R by (apply (run_requests_ok nested _ Hn actions w_empty w Ha E), requests_empty).
  assert (∀ t q, mkFrame q (Finished c) ∈ stack_of t w → ∃ r0, origin w c = Some r0 ∧ same_graph r0 q) as Ho.
  { intros t q Hq. pose proof (stacks_ok _ _ R t) as Fr. pose proof (sound_frames _ Sd t) as Fs.
    rewrite Forall_forall in Fr, Fs. destruct (Fr _ Hq) as [W _]. by apply result_origin, (Fs _ Hq). }
  split; [by eapply Ho|]. intros t' r' Hf'. destruct (Ho _ _ Hf) as (r0 & E0 & S), (Ho _ _ Hf') as (r0' & E0' & S').
  rewrite E0 in E0'. injection E0' as <-. destruct S as (? & ? & ? & ? & Es & Ec), S' as (? & ? & ? & ? & Es' & Ec').
  repeat split; try congruence. intros Ep. transitivity (rc_client_id (rq_context r0)); [symmetry; apply Ec'|apply Ec]; congruence.
Qed.

(** C32: A cell that is cached is the one every later request for its key is given, directly
    or through a projection of it, and nothing is built for the key again, whatever else the
    server does and whichever handles are dropped, as long as somebody holds the cell or a
    projection of it: if the requests for the key that are already under way have not found
    it missing or dead, and what they carry is the cell. *)
Theorem held_cells_are_shared nested before actions w w' kind key c :
  run nested before w_empty = Some w →
  ce_weak <$> cache_of kind w !! key = Some c →
  (∀ tid f, f ∈ stack_of tid w → for_key kind key (fr_request f) → calm c w (fr_request f) (fr_phase f)) →
  run nested actions w = Some w' → kept nested c actions w = true →
  (∀ tid r x, mkFrame r (Finished x) ∈ stack_of tid w' → for_key kind key r → result_is c w' r x) ∧
  (∀ x, build_of kind key w' x → build_of kind key w x) ∧
  lookup_cached kind key w' = Live c.
Proof.
  intros E0 Ew Hq E K. pose proof (run_sound _ _ _ _ E0 sound_empty) as Sd.
  destruct (run_settled nested kind key c actions w w' E K Sd) as ([Ew' F'] & Sd' & A' & Hb).
  { split; [done|]. intros tid. apply Forall_forall. intros f Hf Kf. by apply (Hq tid f). }
  split; [|split; [done|]].
  - intros tid r x Hx Kr. pose proof (F' tid) as Ft. rewrite Forall_forall in Ft. by apply (Ft _ Hx).
  - by apply lookup_cached_weak.
Qed.

(** C33: As long as no cell is dropped, a key is built at most once, however many threads
    ask for it at the same time and even if builds panic; all who asked for the map itself
    are given the same one. *)
Theorem keys_are_built_once nested actions w :
  (∀ q, well_formed q → Forall well_formed (nested q)) →
  Forall (λ a, arrival_ok well_formed a ∧ ∀ c, a ≠ DropHandle c) actions → run nested actions w_empty = Some w →
  (∀ kind key x y, build_of kind key w x → build_of kind key w y → x = y) ∧
  ∀ tid tid' r r' x y, mkFrame r (Finished x) ∈ stack_of tid w → mkFrame r' (Finished y) ∈ stack_of tid' w →
    same_graph r r' → rq_typed r = None → rq_typed r' = None → x = y.
Proof.
  intros Hn Ha E.
  assert (Forall (arrival_ok well_formed) actions) as Ha' by (eapply Forall_impl; [exact Ha|by intros a []]).
  assert (requests_ok well_formed w) as R by (apply (run_requests_ok nested _ Hn actions w_empty w Ha' E), requests_empty).
  assert (∀ kind key x y, build_of kind key w x → build_of kind key w y → x = y) as Hu.
  { intros kind key x y (r & Er & Mk & My) Hy.
    assert (∀ q, well_formed q → rq_key q = key → rq_kind q = kind) as Hk.
    { intros q W Ey. rewrite <- Mk. apply well_formed_kind; [done|by eapply cells_ok|congruence]. }
    destruct (run_staged nested well_formed Hn kind key Hk actions w_empty w Fresh Ha E) as [_ [st S]];
      [apply sound_empty|apply locks_empty|apply requests_empty| |apply staged_empty|].
    - intros tid. unfold stack_of. simpl. rewrite lookup_empty. constructor.
    - eapply (staged_once kind key); [done| |done]. by exists r. }
  split; [done|]. intros tid tid' r r' x y Hx Hy S T T'. pose proof (run_sound _ _ _ _ E sound_empty) as Sd.
  pose proof (sound_frames _ Sd tid) as F. pose proof (sound_frames _ Sd tid') as F'.
  pose proof (stacks_ok _ _ R tid) as W. pose proof (stacks_ok _ _ R tid') as W'. rewrite Forall_forall in F, F', W, W'.
  specialize (F _ Hx). specialize (F' _ Hy). destruct (W _ Hx) as [Wr _], (W' _ Hy) as [Wr' _].
  simpl in Wr, Wr'.
  unfold frame_sound, result_for in F, F'. simpl in F, F'. rewrite T in F. rewrite T' in F'.
  apply key_same in S as Ek; [|done..]. pose proof (well_formed_kind _ _ Wr Wr' Ek) as Ekk.
  apply (Hu (rq_kind r) (rq_key r)); [exact F|]. rewrite Ekk, Ek. exact F'.
Qed.

(** C34: If builds only ask for keys of a lower rank, the threads of a server cannot
    deadlock on the gates: from every state they can run to the end; however they are
    scheduled they take at most [work] steps; and a state in which no thread can move is one
    in which every request has returned. *)
Theorem requests_come_to_an_end nested rank actions w :
  (∀ q, well_formed q → Forall well_formed (nested q)) →
  (∀ r q, well_formed r → q ∈ nested r → rank q < rank r) →
  (∀ r r', well_formed r → well_formed r' → rq_key r = rq_key r' → rank r = rank r') →
  Forall (arrival_ok well_formed) actions → run nested actions w_empty = Some w →
  (∃ sched w', run nested (Run <$> sched) w = Some w' ∧ idle w') ∧
  ∀ sched w', run nested (Run <$> sched) w = Some w' →
    length sched ≤ work nested rank w ∧ ((∀ tid, run_thread nested tid w' = None) → idle w').
Proof.
  intros Hn Hr Hk Ha E. pose proof (run_locks _ _ _ _ E locks_empty) as L.
  destruct (run_ordered nested well_formed Hn rank Hr actions w_empty w Ha E) as [R O];
    [apply requests_empty|apply ordered_empty|].
  split; [by eapply threads_finish|]. intros sched w' Es. split.
  - pose proof (threads_bounded nested well_formed Hn rank Hr sched w w' R Es). lia.
  - assert (Forall (arrival_ok well_formed) (Run <$> sched)) as Hs by by apply Forall_fmap, Forall_true.
    destruct (run_ordered nested well_formed Hn rank Hr (Run <$> sched) w w' Hs Es R O) as [R' O'].
    eapply stuck_idle; [done..|by eapply run_locks|done|done].
Qed.

(** ** Runs to instantiate the properties at *)
Module Example.

Definition client (name : string) : RequestContext := from_client "2026-01-01T00:00:00Z" "tx" name "host-1".
Definition people : Request := query_map_untyped "GetAllPeople" 7 (client "ann").
Definition typed_people : Request := query_map "GetAllPeople" 7 (client "bob") "Person".
Definition status (name : string) : Request := report "WindbackStatus" 11 PerClient (client name).

(** A report reads a query; queries ask for nothing. *)
Definition nested r : list Request :=
  match rq_kind r with
  | ReportCache => [query_map_untyped "GetAllPeople" 7 (rq_context r)]
  | QueryCache | ViewCache => []
  end.
Definition rank r : nat := match rq_kind r with ReportCache => 1 | QueryCache | ViewCache => 0 end.

Definition steps (n tid : nat) : list Action := replicate n (Run tid).

Definition world (actions : list Action) : World := default w_empty (run nested actions w_empty).

(** Two clients ask for their status at the same time, a third for the people. *)
Definition actions : list Action :=
  [Arrive 0 (status "ann"); Arrive 1 (status "bob"); Arrive 2 typed_people]
  ++ steps 5 0 ++ steps 3 1 ++ steps 2 2 ++ steps 8 0 ++ steps 5 1 ++ steps 4 2 ++ steps 5 0 ++ steps 3 1.

Lemma nested_fine q : well_formed q → Forall well_formed (nested q).
Proof. unfold nested. intros (H & _ & _). destruct (rq_kind q); repeat constructor; done. Qed.

Lemma nested_rank r q : well_formed r → q ∈ nested r → rank q < rank r.
Proof.
  intros _ H. unfold nested in H. unfold rank at 2. destruct (rq_kind r); try by apply not_elem_of_nil in H.
  apply list_elem_of_singleton in H as ->. unfold rank. simpl. lia.
Qed.

Lemma rank_key r r' : well_formed r → well_formed r' → rq_key r = rq_key r' → rank r = rank r'.
Proof. intros W W' E. unfold rank. by rewrite (well_formed_kind r r' W W' E). Qed.

Lemma actions_fine : Forall (λ a, arrival_ok well_formed a ∧ ∀ c, a ≠ DropHandle c) actions.
Proof. by repeat constructor. Qed.

End Example.

(** ** The properties at these runs *)

Lemma cached_cells_belong_to_their_callers_witness :
  (∃ r0, origin (Example.world Example.actions) 6 = Some r0 ∧ same_graph r0 (Example.status "ann")) ∧
  ∀ tid' r', mkFrame r' (Finished 6) ∈ stack_of tid' (Example.world Example.actions) → same_graph r' (Example.status "ann").
Proof.
  apply (cached_cells_belong_to_their_callers Example.nested Example.actions _ 0).
  - apply Example.nested_fine.
  - eapply Forall_impl; [apply Example.actions_fine|]. by intros a [].
  - vm_compute. reflexivity.
  - assert (stack_of 0 (Example.world Example.actions) = [mkFrame (Example.status "ann") (Finished 6)]) as -> by by vm_compute.
    left.
Defined.

(** The query built for ann's status, and bob's typed projection of it, about to be returned.
    Both handles on the query are dropped and the server sweeps: the projection keeps the
    query for the session that asks next. *)
Lemma held_cells_are_shared_witness :
  let before := Example.actions in
  let later := [Run 0; Run 1; Run 2; DropHandle 3; DropHandle 3; SweepEntry QueryCache (rq_key Example.people);
                Arrive 0 Example.people; DropHandle 6; Run 0] in
  (∀ tid r x, mkFrame r (Finished x) ∈ stack_of tid (Example.world (before ++ later)) →
    for_key QueryCache (rq_key Example.people) r → result_is 3 (Example.world (before ++ later)) r x) ∧
  (∀ x, build_of QueryCache (rq_key Example.people) (Example.world (before ++ later)) x →
    build_of QueryCache (rq_key Example.people) (Example.world before) x) ∧
  lookup_cached QueryCache (rq_key Example.people) (Example.world (before ++ later)) = Live 3.
Proof.
  intros before later. apply (held_cells_are_shared Example.nested before later).
  - by vm_compute.
  - by vm_compute.
  - intros tid f Hf [Hk _].
    assert (map_Forall (λ _ stack, Forall (λ f, rq_kind (fr_request f) = QueryCache →
      rq_typed (fr_request f) = Some "Person::Id" ∧ (match fr_phase f with Finished x => bool_decide (x = 5) | _ => false end) = true) stack)
      (w_threads (Example.world before))) as I.
    { apply (bool_decide_unpack _). by vm_compute. }
    assert (w_cells (Example.world before) !! 5 = Some (Projected "Person::Id" 3)) as C5 by by vm_compute.
    revert I C5 Hf. generalize (Example.world before). intros w I C5 Hf.
    unfold stack_of in Hf. destruct (w_threads w !! tid) as [s|] eqn:E; simpl in Hf; [|by apply not_elem_of_nil in Hf].
    pose proof (I tid s E) as Fs. rewrite Forall_forall in Fs. destruct (Fs f Hf Hk) as [Et Ep].
    destruct (fr_phase f) as [| | | | | | | | | | | | |x]; try done. apply bool_decide_eq_true in Ep as ->.
    unfold calm, result_is. by rewrite Et.
  - by vm_compute.
  - by vm_compute.
Defined.

Lemma keys_are_built_once_witness :
  (∀ kind key x y, build_of kind key (Example.world Example.actions) x →
    build_of kind key (Example.world Example.actions) y → x = y) ∧
  ∀ tid tid' r r' x y, mkFrame r (Finished x) ∈ stack_of tid (Example.world Example.actions) →
    mkFrame r' (Finished y) ∈ stack_of tid' (Example.world Example.actions) →
    same_graph r r' → rq_typed r = None → rq_typed r' = None → x = y.
Proof.
  apply (keys_are_built_once Example.nested Example.actions).
  - apply Example.nested_fine.
  - apply Example.actions_fine.
  - vm_compute. reflexivity.
Defined.

Lemma requests_come_to_an_end_witness :
  let w := Example.world [Arrive 0 (Example.status "ann"); Arrive 1 (Example.status "ann"); Run 0; Run 1; Run 0] in
  (∃ sched w', run Example.nested (Run <$> sched) w = Some w' ∧ idle w') ∧
  ∀ sched w', run Example.nested (Run <$> sched) w = Some w' →
    length sched ≤ work Example.nested Example.rank w ∧ ((∀ tid, run_thread Example.nested tid w' = None) → idle w').
Proof.
  intros w. apply (requests_come_to_an_end Example.nested Example.rank
    [Arrive 0 (Example.status "ann"); Arrive 1 (Example.status "ann"); Run 0; Run 1; Run 0]).
  - apply Example.nested_fine.
  - apply Example.nested_rank.
  - apply Example.rank_key.
  - by repeat constructor.
  - vm_compute. reflexivity.
Defined.

(** ** What the caches do not promise *)

Definition independent (_ : Request) : list Request := [].
Definition outcome (actions : list Action) : World := default w_empty (run independent actions w_empty).

(** A cell is built and dropped; thread 1 sees its entry dead and is interrupted; thread 2
    builds the cell again and keeps it; thread 1 goes on. *)
Definition late_eviction : list Action :=
  Arrive 0 Example.people :: Example.steps 9 0 ++ [DropHandle 1]
  ++ [Arrive 1 Example.people; Run 1] ++ Arrive 2 Example.people :: Example.steps 10 2 ++ Example.steps 9 1.

(** Thread 0 looks the key up and is interrupted; thread 1 builds the cell; thread 0 goes on. *)
Definition late_gate : list Action :=
  [Arrive 0 Example.people; Run 0] ++ Arrive 1 Example.people :: Example.steps 9 1 ++ Example.steps 5 0.

(** Thread 1 waits for the gate of thread 0, whose caller drops the cell at once; thread 2
    comes after thread 0 has removed the gate. *)
Definition two_gates : list Action :=
  Arrive 0 Example.people :: Example.steps 4 0 ++ Arrive 1 Example.people :: Example.steps 2 1
  ++ Example.steps 5 0 ++ [DropHandle 1] ++ Example.steps 3 1 ++ Arrive 2 Example.people :: Example.steps 4 2.

Lemma these_runs_happen :
  run independent late_eviction w_empty = Some (outcome late_eviction) ∧
  run independent late_gate w_empty = Some (outcome late_gate) ∧
  run independent two_gates w_empty = Some (outcome two_gates).
Proof. by vm_compute. Qed.

(** [try_get_cached] removes whatever is under the key, not the entry it saw dead: a thread
    that saw a dead entry evicts the cell another thread has just published, and builds the
    key a second time while the first cell is in use. *)
Lemma late_eviction_splits_a_key :
  let w := outcome late_eviction in
  3 ∈ w_pool w ∧ 5 ∈ w_pool w ∧ w_cells w !! 3 = Some (Materialized Example.people) ∧
  w_cells w !! 5 = Some (Materialized Example.people) ∧
  lookup_cached QueryCache (rq_key Example.people) w = Live 5.
Proof. split_and!; [apply (bool_decide_unpack _)..| | |]; by vm_compute. Qed.

(** A request that finds the cell on its second look returns without removing the gate it
    has just registered: with all requests done the gate is still there. *)
Lemma late_gates_are_left_behind :
  let w := outcome late_gate in
  map_Forall (λ _ stack, stack = []) (w_threads w) ∧ is_Some (w_compute_gates w !! rq_key Example.people).
Proof. split; [apply (bool_decide_unpack _); by vm_compute|]. vm_compute. eauto. Qed.

(** The gate is removed while a thread still waits for it, so that two builds of one key can
    run at the same time. *)
Lemma two_gates_build_at_once :
  let w := outcome two_gates in
  (∃ gate, stack_of 1 w = [mkFrame Example.people (Computing gate [])]) ∧
  ∃ gate, stack_of 2 w = [mkFrame Example.people (Computing gate [])].
Proof. vm_compute. eauto. Qed.

(** A build that asks for its own key waits for its own gate. *)
Lemma self_requests_block :
  let w := default w_empty (run (λ r, [r]) (Arrive 0 Example.people :: Example.steps 7 0) w_empty) in
  run_thread (λ r, [r]) 0 w = None ∧ length (stack_of 0 w) = 2.
Proof. by vm_compute. Qed.

(** ** Sweeping *)

Lemma with_cache_alive kind F w c : alive (with_cache kind F w) c ↔ alive w c.
Proof. done. Qed.

(** A sweep removes the dead entries and nothing else: lookups of live entries are not
    changed, and every entry that is left is live. *)
Lemma sweep_keeps_the_live kind key w :
  cache_of kind (sweep_dead_cache_entries w) = retain_live w (cache_of kind w) ∧
  lookup_cached kind key (sweep_dead_cache_entries w) =
    match lookup_cached kind key w with Live c => Live c | Dead | Missing => Missing end ∧
  cache_len kind (sweep_dead_cache_entries w) = live_count kind w.
Proof.
  assert (cache_of kind (sweep_dead_cache_entries w) = retain_live w (cache_of kind w)) as E by by destruct kind.
  split; [done|]. split; [|unfold cache_len, live_count; by rewrite E].
  unfold lookup_cached. rewrite E. unfold retain_live. destruct (cache_of kind w !! key) as [e|] eqn:Ee.
  - destruct (decide (alive w (ce_weak e))) as [A|A].
    + rewrite (map_lookup_filter_Some_2 _ _ _ e) by done. destruct (decide _) as [|N]; [done|by destruct N].
    + rewrite map_lookup_filter_None_2; [done|]. right. intros x Ex. rewrite Ee in Ex. by injection Ex as <-.
  - by rewrite map_lookup_filter_None_2 by (by left).
Qed.
