(* ===== verification/McpGateway.v ===== *)
(** * The MCP gateway

    [server/mcp]: clients of the Model Context Protocol reach the queries, views, reports and
    commands of a server through three tools, one of which runs scripts.  [filter.rs] is what
    an operator lets a client see and call, [sandbox.rs] the calls a script makes,
    [dispatch.rs] the requests, and [core/core/reflection.rs] the check of arguments.

    JSON values are those of serde_json, behind the class [JsonValue]; a script is the tree
    of the calls it makes; the executor is a state with the operations of the server. *)

From Stdlib Require Import Ascii.
From stdpp Require Import base strings numbers option gmap list.
From S2P Require Import Prelude CacheKey.

#[local] Open Scope string_scope.

(** ** Strings *)

(** [char::is_whitespace] on ASCII. *)
Definition is_whitespace (c : ascii) : bool :=
  let n := nat_of_ascii c in (n =? 32)%nat || ((9 <=? n)%nat && (n <=? 13)%nat).

Fixpoint trim_start (s : string) : string :=
  match s with
  | String c s' => if is_whitespace c then trim_start s' else s
  | EmptyString => EmptyString
  end.

Definition string_rev (s : string) : string := String.string_of_list_ascii (reverse (String.list_ascii_of_string s)).

Definition trim (s : string) : string := string_rev (trim_start (string_rev (trim_start s))).

(** [str::split] at a character. *)
Fixpoint split (at_char : ascii) (s : string) : list string :=
  match s with
  | EmptyString => [EmptyString]
  | String c s' =>
      if bool_decide (c = at_char) then EmptyString :: split at_char s'
      else match split at_char s' with
           | part :: parts => String c part :: parts
           | [] => [String c EmptyString]
           end
  end.

Definition star : ascii := "*"%char.

Definition starts_with_star (s : string) : bool :=
  match s with String c _ => bool_decide (c = star) | EmptyString => false end.
Definition ends_with_star (s : string) : bool := starts_with_star (string_rev s).

(** [s.get(..s.len() - 1)] and [s.get(1..)]. *)
Definition without_last (s : string) : string := String.string_of_list_ascii (removelast (String.list_ascii_of_string s)).
Definition without_first (s : string) : string := match s with String _ s' => s' | EmptyString => EmptyString end.

Definition starts_with (s prefix : string) : bool := String.prefix prefix s.
Definition ends_with (s suffix : string) : bool := String.prefix (string_rev suffix) (string_rev s).

(** ** Names and patterns *)

(** Only the first colon is replaced. *)
Fixpoint normalize_tool_name (name : string) : string :=
  match name with
  | EmptyString => EmptyString
  | String c rest => if bool_decide (c = colon) then String "_" rest else String c (normalize_tool_name rest)
  end.

Inductive Pattern :=
| Any
| Prefix (prefix : string)
| Suffix (suffix : string)
| Exact (name : string).

Definition pattern_parse (s : string) : option Pattern :=
  let s := normalize_tool_name (trim s) in
  if bool_decide (s = "") then None
  else if bool_decide (s = "*") then Some Any
  else match starts_with_star s, ends_with_star s with
       | true, true => if bool_decide (String.length s = 2) then Some Any else Some (Exact s)
       | false, true => Some (Prefix (without_last s))
       | true, false => Some (Suffix (without_first s))
       | false, false => Some (Exact s)
       end.

Definition pattern_matches (p : Pattern) (name : string) : bool :=
  match p with
  | Any => true
  | Prefix prefix => starts_with name prefix
  | Suffix suffix => ends_with name suffix
  | Exact e => bool_decide (name = e)
  end.

Definition parse_patterns (raw : option string) : list Pattern :=
  match raw with
  | None => []
  | Some raw => omap pattern_parse (split "," raw)
  end.

(** ** JSON *)

(** What the gateway uses of [serde_json::Value]. *)
Class JsonValue (V : Type) := {
  json_eq_dec :: EqDecision V;
  as_str : V → option string;
  as_bool : V → option bool;
  (** [Value::get] with a string, which is [None] on everything but objects. *)
  json_get : V → string → option V;
  is_object : V → bool;
  empty_object : V;
  null : V;
  json_from_str : string → result string V
}.

Section gateway.
Context {V : Type} `{!JsonValue V}.

Abbreviation CallabilityMap := (gmap string (gmap string (list V))).

Section filters.
(** The unspecified order in which a [HashMap] is iterated, and the deserializer. *)
Variable iterate : ∀ {A}, gmap string A → list (string * A).
Variable callability_from_str : string → option CallabilityMap.

Record ClientFilters := mkFilters {
  visibility_allow : list Pattern;
  visibility_deny : list Pattern;
  callable_allow : CallabilityMap;
  callable_deny : CallabilityMap
}.

Definition allow_all : ClientFilters := mkFilters [] [] ∅ ∅.

Definition parse_callability (raw : option string) : CallabilityMap :=
  match raw with
  | None => ∅
  | Some raw =>
      let trimmed := trim raw in
      if bool_decide (trimmed = "") then ∅
      else match callability_from_str trimmed with
           | Some parsed =>
               foldl (λ m '(k, v), <[normalize_tool_name k := v]> m) ∅ (iterate parsed)
           | None => ∅
           end
  end.

Definition from_strings (allow deny callable_allow_json callable_deny_json : option string) : ClientFilters :=
  mkFilters (parse_patterns allow) (parse_patterns deny)
    (parse_callability callable_allow_json) (parse_callability callable_deny_json).

Definition tool_visible (f : ClientFilters) (name : string) : bool :=
  let name := normalize_tool_name name in
  if existsb (λ p, pattern_matches p name) (visibility_deny f) then false
  else match visibility_allow f with
       | [] => true
       | allow => existsb (λ p, pattern_matches p name) allow
       end.

Definition meta_tool_visible (f : ClientFilters) (name : string) : bool :=
  let name := normalize_tool_name name in
  negb (existsb (λ p, pattern_matches p name) (visibility_deny f)).

Fixpoint denied (arguments : V) (deny_args : list (string * list V)) : option string :=
  match deny_args with
  | [] => None
  | (arg_name, denied_values) :: rest =>
      match json_get arguments arg_name with
      | None => denied arguments rest
      | Some value =>
          if bool_decide (value ∈ denied_values) then Some ("argument `" +:+ arg_name +:+ "` value not allowed")
          else denied arguments rest
      end
  end.

Fixpoint not_allowed (arguments : V) (allow_args : list (string * list V)) : option string :=
  match allow_args with
  | [] => None
  | (arg_name, allowed_values) :: rest =>
      match json_get arguments arg_name with
      | Some v =>
          if bool_decide (v ∈ allowed_values) then not_allowed arguments rest
          else Some ("argument `" +:+ arg_name +:+ "` value not in allowlist")
      | None => Some ("argument `" +:+ arg_name +:+ "` is required by filter")
      end
  end.

Definition tool_callable (f : ClientFilters) (tool_name : string) (arguments : V) : result string unit :=
  let tool_name := normalize_tool_name tool_name in
  match callable_deny f !! tool_name ≫= λ deny_args, denied arguments (iterate deny_args) with
  | Some message => Err message
  | None =>
      match callable_allow f !! tool_name ≫= λ allow_args, not_allowed arguments (iterate allow_args) with
      | Some message => Err message
      | None => Ok tt
      end
  end.

End filters.

(** ** Operations *)

Inductive OpKind := Query | View | Report | Command.

Definition op_kind (kind : string) : option OpKind :=
  if bool_decide (kind = "query") then Some Query
  else if bool_decide (kind = "view") then Some View
  else if bool_decide (kind = "report") then Some Report
  else if bool_decide (kind = "command") then Some Command
  else None.

Record OperationInputContract := mkContract {
  oc_kind : string;
  oc_id : string;
  oc_validate : V → result string unit
}.

(** [validate_input] before the deserializer of the operation's type. *)
Definition validate_input (deserialize : V → result string unit) (input : V) : result string unit :=
  if is_object input then deserialize input else Err "$: expected an argument object".

Definition validate_operation_input (contracts : list OperationInputContract) (kind id : string) (input : V) : result string unit :=
  match List.find (λ contract, bool_decide (oc_kind contract = kind) && bool_decide (oc_id contract = id)) contracts with
  | None => Err ("Unknown operation: " +:+ kind +:+ "_" +:+ id)
  | Some contract =>
      match oc_validate contract input with
      | Ok _ => Ok tt
      | Err message => Err ("Invalid arguments for " +:+ kind +:+ "_" +:+ id +:+ ": " +:+ message)
      end
  end.

(** What a call of the sandbox answers: [{"value": v}] or [{"error": m}]. *)
Inductive Reply := Value (v : V) | JsonError (message : string).

(** A script runs to its result, calling [__myko_call] on the way. *)
Inductive Script :=
| Done (r : result string V)
| Call (kind id : string) (args_json : option string) (next : Reply → Script).

Record OperationSchema := mkOperation {
  op_id : string;
  op_kind_name : string;
  op_description : option string
}.

(** The registrations of the program, by kind: their ids. *)
Record Registrations := mkRegistrations {
  query_ids : list string;
  view_ids : list string;
  report_ids : list string;
  command_ids : list string
}.

Record ServerInfo := mkServerInfo {
  si_name : string;
  si_version : string;
  si_instructions : option string;
  si_operation_index : list OperationSchema
}.

(** [McpServer::with_info] and [with_instructions]. *)
Definition with_info (name version : string) : ServerInfo := mkServerInfo name version None [].
Definition with_instructions (text : string) (info : ServerInfo) : ServerInfo :=
  mkServerInfo (si_name info) (si_version info) (Some text) (si_operation_index info).

(** ** Messages *)

Record McpRequest := mkMcpRequest { rq_id : V; rq_method : string; rq_params : option V }.

Inductive ToolData :=
| ConnectionStatus (status : V)
| Operations (details : bool) (operations : list OperationSchema)
| ScriptResult (v : V).

Inductive McpResult :=
| Initialized (name version : string) (instructions : option string)
| Tools (names : list string)
| Content (data : ToolData)
| ErrorContent (message : string)               (* [isError: true] *)
| Resources (uris : list string)
| Schema (uri kind id : string).

Inductive McpResponse :=
| Success (id : V) (r : McpResult)
| Error (id : V) (code : Z) (message : string).

Definition METHOD_NOT_FOUND : Z := -32601.
Definition INVALID_PARAMS : Z := -32602.

Definition CONNECTION_STATUS_TOOL : string := "connection_status".
Definition SEARCH_TOOL : string := "search".
Definition EXECUTE_TOOL : string := "execute".

Section dispatch.
Variable iterate : ∀ {A}, gmap string A → list (string * A).
(** [str::to_lowercase]. *)
Variable to_lowercase : string → string.
(** The JavaScript engine, with its limits. *)
Variable compile : string → Script.
Variable contracts : list OperationInputContract.
Variable registrations : Registrations.

(** The executor: the state of the server behind the gateway. *)
Context {S : Type}.
Variable execute_operation : OpKind → string → V → S → S * result string V.
Variable connection_status : S → V.
Implicit Types (s : S) (filter : ClientFilters).

(** *** The sandbox *)

Definition call_operation filter (kind id : string) (args_json : option string) s : S * Reply :=
  let name := kind +:+ "_" +:+ id in
  if negb (tool_visible filter name) then (s, JsonError ("Unknown operation: " +:+ name))
  else
    match json_from_str (default "{}" args_json) with
    | Err e => (s, JsonError ("Invalid arguments for " +:+ name +:+ ": " +:+ e))
    | Ok args =>
        match tool_callable (@iterate) filter name args with
        | Err message => (s, JsonError message)
        | Ok _ =>
            match validate_operation_input contracts kind id args with
            | Err message => (s, JsonError message)
            | Ok _ =>
                match op_kind kind with
                | None => (s, JsonError ("Unknown operation kind: " +:+ kind))
                | Some k =>
                    let '(s, r) := execute_operation k id args s in
                    (s, match r with Ok value => Value value | Err message => JsonError message end)
                end
            end
        end
    end.

Fixpoint run_script filter (script : Script) s : S * result string V :=
  match script with
  | Done r => (s, r)
  | Call kind id args_json next =>
      let '(s, reply) := call_operation filter kind id args_json s in
      run_script filter (next reply) s
  end.

(** *** Tools *)

Definition handle_search (args : V) filter (index : list OperationSchema) : ToolData :=
  let query := to_lowercase <$> (json_get args "query" ≫= as_str) in
  let kind := json_get args "kind" ≫= as_str in
  let visible op := tool_visible filter (op_kind_name op +:+ "_" +:+ op_id op) in
  let of_kind op := match kind with None => true | Some k => bool_decide (op_kind_name op = k) end in
  let found op := match query with
                  | None => true
                  | Some q => str_contains q (to_lowercase (op_id op))
                              || match op_description op with Some d => str_contains q (to_lowercase d) | None => false end
                  end in
  Operations (default false (json_get args "details" ≫= as_bool))
    (List.filter found (List.filter of_kind (List.filter visible index))).

Definition handle_execute (args : V) filter s : S * result string ToolData :=
  match json_get args "code" ≫= as_str with
  | None => (s, Err "Missing required `code` argument")
  | Some code => let '(s, r) := run_script filter (compile code) s in (s, map_ok ScriptResult r)
  end.

Definition execute_tool (info : ServerInfo) filter (tool_name : string) (args : V) s : S * result string ToolData :=
  if bool_decide (tool_name = CONNECTION_STATUS_TOOL) then (s, Ok (ConnectionStatus (connection_status s)))
  else if bool_decide (tool_name = SEARCH_TOOL) then (s, Ok (handle_search args filter (si_operation_index info)))
  else if bool_decide (tool_name = EXECUTE_TOOL) then handle_execute args filter s
  else (s, Err ("Unknown tool: " +:+ tool_name +:+ ". This server uses search + execute — call `search` to discover operations, then `execute` to run them.")).

Definition handle_tools_call (id : V) (params : option V) filter (info : ServerInfo) s : S * McpResponse :=
  match params with
  | None => (s, Error id INVALID_PARAMS "Missing params")
  | Some params =>
      match json_get params "name" ≫= as_str with
      | None => (s, Error id INVALID_PARAMS "Missing tool name")
      | Some tool_name =>
          if negb (meta_tool_visible filter tool_name) then (s, Error id INVALID_PARAMS ("Unknown tool: " +:+ tool_name))
          else
            let arguments := default empty_object (json_get params "arguments") in
            match tool_callable (@iterate) filter tool_name arguments with
            | Err message => (s, Success id (ErrorContent message))
            | Ok _ =>
                let '(s, r) := execute_tool info filter tool_name arguments s in
                (s, match r with
                    | Ok data => Success id (Content data)
                    | Err message => Success id (ErrorContent ("Error: " +:+ message))
                    end)
            end
      end
  end.

Definition handle_initialize (id : V) (info : ServerInfo) : McpResponse :=
  Success id (Initialized (si_name info) (si_version info) (si_instructions info)).

Definition handle_tools_list (id : V) filter : McpResponse :=
  Success id (Tools (List.filter (meta_tool_visible filter) [CONNECTION_STATUS_TOOL; SEARCH_TOOL; EXECUTE_TOOL])).

(** *** Resources *)

Definition schema_uri (kind id : string) : string := "myko://schema/" +:+ kind +:+ "/" +:+ id.

Definition listed filter (kind : string) (ids : list string) : list string :=
  schema_uri kind <$> List.filter (λ id, tool_visible filter (kind +:+ "_" +:+ id)) ids.

Definition handle_resources_list (id : V) filter : McpResponse :=
  Success id (Resources
    (listed filter "query" (query_ids registrations) ++ listed filter "view" (view_ids registrations) ++
     listed filter "report" (report_ids registrations) ++ listed filter "command" (command_ids registrations))).

(** [str::strip_prefix] and [str::split_once] at a slash. *)
Fixpoint strip_prefix (prefix s : string) : option string :=
  match prefix, s with
  | EmptyString, _ => Some s
  | String c prefix', String d s' => if bool_decide (c = d) then strip_prefix prefix' s' else None
  | String _ _, EmptyString => None
  end.

Fixpoint split_once (at_char : ascii) (s : string) : option (string * string) :=
  match s with
  | EmptyString => None
  | String c s' =>
      if bool_decide (c = at_char) then Some (EmptyString, s')
      else '(a, b) ← split_once at_char s'; Some (String c a, b)
  end.

Definition ids_of_kind (kind : string) : list string :=
  match op_kind kind with
  | Some Query => query_ids registrations
  | Some View => view_ids registrations
  | Some Report => report_ids registrations
  | Some Command => command_ids registrations
  | None => []
  end.

(** The schema of a registered operation. *)
Definition get_schema (kind id : string) : bool := bool_decide (id ∈ ids_of_kind kind).

Definition handle_resources_read (id : V) (params : option V) filter : McpResponse :=
  match params with
  | None => Error id INVALID_PARAMS "Missing params"
  | Some params =>
      match json_get params "uri" ≫= as_str with
      | None => Error id INVALID_PARAMS "Missing uri"
      | Some uri =>
          match strip_prefix "myko://schema/" uri ≫= split_once "/" with
          | Some (schema_type, schema_id) =>
              if negb (tool_visible filter (schema_type +:+ ":" +:+ schema_id)) then
                Error id INVALID_PARAMS ("Resource not accessible: " +:+ uri)
              else if get_schema schema_type schema_id then Success id (Schema uri schema_type schema_id)
              else Error id INVALID_PARAMS ("Resource not found: " +:+ uri)
          | None => Error id INVALID_PARAMS ("Resource not found: " +:+ uri)
          end
      end
  end.

(** *** Requests *)

Definition handle_request (request : McpRequest) filter (info : ServerInfo) s : S * option McpResponse :=
  let id := rq_id request in
  let method := rq_method request in
  if bool_decide (method = "initialize") then (s, Some (handle_initialize id info))
  else if bool_decide (method ∈ ["notifications/initialized"; "notifications/cancelled"]) then (s, None)
  else if bool_decide (method = "tools/list") then (s, Some (handle_tools_list id filter))
  else if bool_decide (method = "tools/call") then
    let '(s, response) := handle_tools_call id (rq_params request) filter info s in (s, Some response)
  else if bool_decide (method = "resources/list") then (s, Some (handle_resources_list id filter))
  else if bool_decide (method = "resources/read") then (s, Some (handle_resources_read id (rq_params request) filter))
  else (s, Some (Error id METHOD_NOT_FOUND ("Method not found: " +:+ method))).

End dispatch.
End gateway.

Arguments ClientFilters V : clear implicits.
Arguments Script V : clear implicits.
