(* ===== verification/McpTheorems.v ===== *)
(** * Properties of the MCP gateway

    What a filter written by an operator lets through, and that nothing else reaches the
    operations of the server. *)

From Stdlib Require Import Ascii.
From stdpp Require Import base strings numbers option gmap list.
From S2P Require Import Prelude CacheKey McpGateway.

#[local] Open Scope string_scope.
#[local] Arguments String.append !_ _ / : assert.

(** ** Strings *)

Abbreviation chars := String.list_ascii_of_string.
Abbreviation of_chars := String.string_of_list_ascii.

Lemma of_chars_chars s : of_chars (chars s) = s.
Proof. apply String.string_of_list_ascii_of_string. Qed.

Lemma chars_of_chars l : chars (of_chars l) = l.
Proof. apply String.list_ascii_of_string_of_list_ascii. Qed.

Lemma chars_append a b : chars (a +:+ b) = (chars a ++ chars b)%list.
Proof. induction a as [|c a IH]; simpl; [done|by rewrite IH]. Qed.

Lemma chars_inj a b : chars a = chars b → a = b.
Proof. intros E. by rewrite <- (of_chars_chars a), E, of_chars_chars. Qed.

Lemma chars_rev s : chars (string_rev s) = reverse (chars s).
Proof. unfold string_rev. by rewrite chars_of_chars. Qed.

Lemma prefix_iff p s : String.prefix p s = true ↔ ∃ rest, s = p +:+ rest.
Proof.
  revert s. induction p as [|c p IH]; intros s; simpl; [split; [eauto|by destruct s]|].
  destruct s as [|d s]; [split; [done|by intros [? [=]]]|].
  change (String.prefix (String c p) (String d s)) with (if ascii_dec c d then String.prefix p s else false).
  destruct (ascii_dec c d) as [->|N].
  - rewrite IH. split; intros [rest E]; exists rest; [by rewrite E|]. by injection E.
  - split; [done|]. intros [rest [= E _]]. congruence.
Qed.

Lemma ends_with_iff s q : ends_with s q = true ↔ ∃ front, s = front +:+ q.
Proof.
  unfold ends_with. rewrite prefix_iff. split.
  - intros [rest E]. exists (string_rev rest). apply chars_inj. apply (f_equal chars) in E.
    rewrite chars_append, !chars_rev in E. rewrite chars_append, chars_rev.
    apply (f_equal reverse) in E. rewrite reverse_involutive, reverse_app, reverse_involutive in E. done.
  - intros [front ->]. exists (string_rev front). apply chars_inj.
    by rewrite chars_append, !chars_rev, chars_append, reverse_app.
Qed.

Lemma without_last_app q c : without_last (q +:+ String c "") = q.
Proof. unfold without_last. rewrite chars_append. simpl. rewrite removelast_last. apply of_chars_chars. Qed.

Lemma ends_with_star_app q : ends_with_star (q +:+ "*") = true.
Proof.
  unfold ends_with_star. assert (string_rev (q +:+ "*") = String star (string_rev q)) as ->.
  { apply chars_inj. simpl. by rewrite !chars_rev, chars_append, reverse_app. }
  done.
Qed.

(** ** Names *)

Lemma normalize_colon kind id : no_colon kind = true → normalize_tool_name (kind +:+ ":" +:+ id) = kind +:+ "_" +:+ id.
Proof.
  induction kind as [|c kind IH]; simpl in *; [done|]. rewrite andb_true_iff, negb_true_iff. intros [N H].
  by rewrite N, IH.
Qed.

Lemma normalize_id s : no_colon s = true → normalize_tool_name s = s.
Proof.
  induction s as [|c s IH]; simpl; [done|]. rewrite andb_true_iff, negb_true_iff. intros [N H]. by rewrite N, IH.
Qed.

Lemma no_colon_app a b : no_colon (a +:+ b) = no_colon a && no_colon b.
Proof. induction a as [|c a IH]; simpl; [done|]. by rewrite IH, andb_assoc. Qed.

Lemma normalize_name kind id :
  no_colon kind = true → no_colon id = true → normalize_tool_name (kind +:+ "_" +:+ id) = kind +:+ "_" +:+ id.
Proof. intros Hk Hi. apply normalize_id. rewrite !no_colon_app, Hk, Hi. done. Qed.

(** ** Globs *)

(** The usual meaning of a glob: a star stands for any string. *)
Inductive glob : string → string → Prop :=
| glob_nil : glob "" ""
| glob_char c p s : c ≠ star → glob p s → glob (String c p) (String c s)
| glob_star p s1 s2 : glob p s2 → glob (String star p) (s1 +:+ s2).

Fixpoint star_free (s : string) : bool :=
  match s with EmptyString => true | String c s' => negb (bool_decide (c = star)) && star_free s' end.

(** The globs the patterns are meant for: no star, or stars at one end. *)
Inductive simple_glob : string → Prop :=
| Simple_exact p : star_free p = true → simple_glob p
| Simple_prefix p : star_free p = true → simple_glob (p +:+ "*")
| Simple_suffix p : star_free p = true → simple_glob ("*" +:+ p)
| Simple_any : simple_glob "**".

Lemma glob_star_free p s : star_free p = true → glob p s ↔ s = p.
Proof.
  intros F. split.
  - intros G. induction G as [|c p s N G IH|p s1 s2 G IH]; simpl in F; [done| |done].
    apply andb_true_iff in F as [_ F]. by rewrite IH.
  - intros ->. induction p as [|c p IH]; [constructor|]. simpl in F. apply andb_true_iff in F as [N F].
    apply negb_true_iff, bool_decide_eq_false in N. constructor; [done|by apply IH].
Qed.

Lemma glob_star_inv p s : glob (String star p) s → ∃ s1 s2, s = s1 +:+ s2 ∧ glob p s2.
Proof. inversion 1; subst; [done|eauto]. Qed.

Lemma glob_prefix p s : star_free p = true → glob (p +:+ "*") s ↔ ∃ rest, s = p +:+ rest.
Proof.
  revert s. induction p as [|c p IH]; intros s F; simpl.
  - split.
    + intros G. eauto.
    + intros [rest ->]. rewrite <- (append_nil_r rest). constructor. constructor.
  - simpl in F. apply andb_true_iff in F as [N F]. apply negb_true_iff, bool_decide_eq_false in N. split.
    + inversion 1; subst; [|done]. apply IH in H4 as [rest ->]; [|done]. by exists rest.
    + intros [rest ->]. constructor; [done|]. apply IH; [done|]. eauto.
Qed.

Lemma glob_suffix p s : star_free p = true → glob ("*" +:+ p) s ↔ ∃ front, s = front +:+ p.
Proof.
  intros F. simpl. split.
  - intros G. apply glob_star_inv in G as (s1 & s2 & -> & G). apply glob_star_free in G as ->; [eauto|done].
  - intros [front ->]. apply (glob_star p front p). by apply glob_star_free.
Qed.

Lemma glob_any s : glob "**" s.
Proof.
  rewrite <- (append_nil_r s). apply (glob_star "*" s ""). apply (glob_star "" "" ""). constructor.
Qed.

Lemma star_free_ends p : star_free p = true → starts_with_star p = false ∧ ends_with_star p = false.
Proof.
  intros F. assert (∀ c, c ∈ chars p → c ≠ star) as H.
  { induction p as [|d p IH]; simpl in *; [by intros ? ?%not_elem_of_nil|]. apply andb_true_iff in F as [N F].
    apply negb_true_iff, bool_decide_eq_false in N. intros c [->|Hc]%elem_of_cons; [done|by apply IH]. }
  split.
  - destruct p as [|c p]; [done|]. simpl. apply bool_decide_eq_false, H. by left.
  - unfold ends_with_star. destruct (string_rev p) as [|c q] eqn:E; [done|]. simpl. apply bool_decide_eq_false, H.
    apply (f_equal chars) in E. rewrite chars_rev in E. apply elem_of_reverse. rewrite E. left.
Qed.

(** A parsed pattern matches what its text does as a glob. *)
Lemma pattern_is_glob raw :
  let n := normalize_tool_name (trim raw) in
  n ≠ "" → simple_glob n → ∃ p, pattern_parse raw = Some p ∧ ∀ name, pattern_matches p name = true ↔ glob n name.
Proof.
  unfold pattern_parse. set (n := normalize_tool_name (trim raw)). clearbody n. intros Hn Hs.
  rewrite (bool_decide_false (n = "")) by done.
  destruct (decide (n = "*")) as [->|Ns].
  { rewrite bool_decide_true by done. exists Any. split; [done|]. intros name. split; [|done]. intros _.
    apply (glob_prefix "" name); [done|]. eauto. }
  rewrite (bool_decide_false (n = "*")) by done. destruct Hs as [p F|p F|p F|].
  - destruct (star_free_ends p F) as [-> ->]. eexists. split; [done|]. intros name. simpl.
    rewrite bool_decide_eq_true. by rewrite glob_star_free.
  - rewrite ends_with_star_app. assert (starts_with_star (p +:+ "*") = false) as ->.
    { destruct p as [|c p]; [done|]. by destruct (star_free_ends (String c p) F) as [? _]. }
    eexists. split; [done|]. intros name. simpl. rewrite without_last_app. unfold starts_with.
    by rewrite prefix_iff, glob_prefix.
  - assert (starts_with_star ("*" +:+ p) = true) as -> by done.
    assert (ends_with_star ("*" +:+ p) = false) as ->.
    { unfold ends_with_star. destruct (star_free_ends p F) as [_ E]. unfold ends_with_star in E.
      assert (string_rev ("*" +:+ p) = string_rev p +:+ "*") as ->.
      { apply chars_inj. rewrite chars_append, !chars_rev. simpl. by rewrite reverse_cons. }
      destruct (string_rev p) as [|c q] eqn:Ep; [|done].
      destruct Ns. simpl. f_equal. apply chars_inj. apply (f_equal chars) in Ep. rewrite chars_rev in Ep.
      apply (f_equal reverse) in Ep. by rewrite reverse_involutive in Ep. }
    eexists. split; [done|]. intros name. simpl. rewrite ends_with_iff. symmetry. by apply glob_suffix.
  - eexists. split; [done|]. intros name. split; [|done]. intros _. apply glob_any.
Qed.

(** The globs of a configuration string. *)
Definition entries (raw : option string) : list string :=
  match raw with
  | None => []
  | Some raw => filter (λ g, g ≠ "") ((λ part, normalize_tool_name (trim part)) <$> split "," raw)
  end.

Lemma parse_patterns_globs raw :
  Forall simple_glob (entries raw) →
  Forall2 (λ g p, ∀ name, pattern_matches p name = true ↔ glob g name) (entries raw) (parse_patterns raw).
Proof.
  destruct raw as [raw|]; simpl; [|constructor]. induction (split "," raw) as [|part parts IH]; intros F; simpl; [constructor|].
  simpl in F. rewrite filter_cons in F |- *.
  destruct (decide (normalize_tool_name (trim part) ≠ "")) as [N|N].
  - inversion F as [|? ? F1 F2]; subst. destruct (pattern_is_glob part N F1) as (p & -> & Hp). constructor; [done|by apply IH].
  - apply dec_stable in N. unfold pattern_parse. rewrite N. simpl. by apply IH.
Qed.

Lemma existsb_globs gs ps n :
  Forall2 (λ g p, ∀ name, pattern_matches p name = true ↔ glob g name) gs ps →
  existsb (λ p, pattern_matches p n) ps = true ↔ ∃ g, g ∈ gs ∧ glob g n.
Proof.
  induction 1 as [|g p gs ps H _ IH]; simpl.
  - split; [done|]. by intros (g & ?%not_elem_of_nil & _).
  - rewrite orb_true_iff, H, IH. setoid_rewrite elem_of_cons. naive_solver.
Qed.

Section properties.
Context {V : Type} `{!JsonValue V}.
Variable iterate : ∀ {A}, gmap string A → list (string * A).
Hypothesis iterate_perm : ∀ A (m : gmap string A), iterate m ≡ₚ map_to_list m.
Implicit Types (f : ClientFilters V) (args : V).

Lemma denied_None args l :
  denied args l = None ↔ ∀ arg values v, (arg, values) ∈ l → json_get args arg = Some v → v ∉ values.
Proof using.
  induction l as [|[arg values] l IH]; simpl; [split; [by intros _ ? ? ? ?%not_elem_of_nil|done]|].
  setoid_rewrite elem_of_cons. destruct (json_get args arg) as [v|] eqn:E; [case_bool_decide as H|].
  - split; [done|]. intros Hd. exfalso. by eapply (Hd arg values v); [left|..].
  - rewrite IH. split; [|naive_solver]. intros Hd arg' values' v' [[= -> ->]|Hin] E'; [congruence|by eapply Hd].
  - rewrite IH. split; [|naive_solver]. intros Hd arg' values' v' [[= -> ->]|Hin] E'; [congruence|by eapply Hd].
Qed.

Lemma not_allowed_None args l :
  not_allowed args l = None ↔ ∀ arg values, (arg, values) ∈ l → ∃ v, json_get args arg = Some v ∧ v ∈ values.
Proof using.
  induction l as [|[arg values] l IH]; simpl; [split; [by intros _ ? ? ?%not_elem_of_nil|done]|].
  setoid_rewrite elem_of_cons. destruct (json_get args arg) as [v|] eqn:E; [case_bool_decide as H|].
  - rewrite IH. split; [|naive_solver]. intros Hd arg' values' [[= -> ->]|Hin]; [eauto|by apply Hd].
  - split; [done|]. intros Hd. destruct (Hd arg values) as (v' & E' & Hv); [by left|]. congruence.
  - split; [done|]. intros Hd. destruct (Hd arg values) as (v' & E' & Hv); [by left|]. congruence.
Qed.

(** What an operator's argument rules permit. *)
Definition arguments_permitted f (name : string) args : Prop :=
  (∀ rules arg values v, callable_deny f !! name = Some rules → rules !! arg = Some values →
    json_get args arg = Some v → v ∉ values) ∧
  ∀ rules arg values, callable_allow f !! name = Some rules → rules !! arg = Some values →
    ∃ v, json_get args arg = Some v ∧ v ∈ values.

Lemma tool_callable_spec f name args :
  tool_callable (@iterate) f name args = Ok tt ↔ arguments_permitted f (normalize_tool_name name) args.
Proof using iterate_perm.
  unfold tool_callable, arguments_permitted. set (n := normalize_tool_name name).
  assert (∀ A (m : gmap string A) arg x, (arg, x) ∈ iterate m ↔ m !! arg = Some x) as Hi.
  { intros A m arg x. by rewrite iterate_perm, elem_of_map_to_list. }
  assert ((callable_deny f !! n ≫= λ deny_args, denied args (iterate deny_args)) = None ↔
    ∀ rules arg values v, callable_deny f !! n = Some rules → rules !! arg = Some values → json_get args arg = Some v → v ∉ values) as Hd.
  { destruct (callable_deny f !! n) as [rules|]; simpl; [|naive_solver]. rewrite denied_None. setoid_rewrite Hi. naive_solver. }
  assert ((callable_allow f !! n ≫= λ allow_args, not_allowed args (iterate allow_args)) = None ↔
    ∀ rules arg values, callable_allow f !! n = Some rules → rules !! arg = Some values → ∃ v, json_get args arg = Some v ∧ v ∈ values) as Ha.
  { destruct (callable_allow f !! n) as [rules|]; simpl; [|naive_solver]. rewrite not_allowed_None. setoid_rewrite Hi. naive_solver. }
  rewrite <- Hd, <- Ha. destruct (callable_deny f !! n ≫= _); [naive_solver|]. destruct (callable_allow f !! n ≫= _); naive_solver.
Qed.

(** ** Properties *)

(** A tool is visible to a client exactly when no glob of the deny list matches its
    name and, unless the allow list is empty, some glob of the allow list does; a name
    counts the same with its legacy colon and with an underscore, in the lists as in the
    request. *)
Theorem visibility_is_by_globs (callability_from_str : string → option (gmap string (gmap string (list V)))) allow deny callable_allow_json callable_deny_json kind id :
  Forall simple_glob (entries allow) → Forall simple_glob (entries deny) → no_colon kind = true → no_colon id = true →
  let f := from_strings (@iterate) callability_from_str allow deny callable_allow_json callable_deny_json in
  let name := kind +:+ "_" +:+ id in
  (tool_visible f name = true ↔
    (∀ g, g ∈ entries deny → ¬ glob g name) ∧ (entries allow = [] ∨ ∃ g, g ∈ entries allow ∧ glob g name)) ∧
  tool_visible f (kind +:+ ":" +:+ id) = tool_visible f name.
Proof using.
  intros Fa Fd Hk Hi f name.
  subst name. split; [|unfold tool_visible; by rewrite normalize_colon, normalize_name].
  pose proof (parse_patterns_globs allow Fa) as Ga. pose proof (parse_patterns_globs deny Fd) as Gd.
  unfold tool_visible. rewrite normalize_name by done. set (name := kind +:+ "_" +:+ id). simpl.
  destruct (existsb (λ p, pattern_matches p name) (parse_patterns deny)) eqn:Ed.
  - split; [done|]. intros [H _]. apply (existsb_globs _ _ name Gd) in Ed as (g & Hg & G). by destruct (H g).
  - assert (∀ g, g ∈ entries deny → ¬ glob g name) as Hd.
    { intros g Hg G. assert (existsb (λ p, pattern_matches p name) (parse_patterns deny) = true); [|congruence].
      apply (existsb_globs _ _ name Gd). eauto. }
    destruct (parse_patterns allow) as [|p ps] eqn:Ep.
    + inversion Ga. naive_solver.
    + rewrite (existsb_globs _ _ name Ga). split; [by intros; split; [|right]|]. intros [_ [E|H]]; [|done].
      rewrite E in Ga. inversion Ga.
Qed.

(** A schema can be read exactly when it is listed, which is when its operation is
    registered and visible. *)
Theorem listed_schemas_are_readable (registrations : Registrations) f request_id kind k id params :
  op_kind kind = Some k → no_colon id = true →
  json_get params "uri" ≫= as_str = Some (schema_uri kind id) →
  handle_resources_read registrations request_id (Some params) f = Success request_id (Schema (schema_uri kind id) kind id) ↔
  schema_uri kind id ∈ listed f kind (ids_of_kind registrations kind).
Proof using.
  intros Hk Hi Hu.
  assert (no_colon kind = true ∧ split_once "/" (kind +:+ "/" +:+ id) = Some (kind, id)) as [Nk Hs].
  { unfold op_kind in Hk. repeat case_bool_decide; simplify_eq; done. }
  assert (schema_uri kind id ∈ listed f kind (ids_of_kind registrations kind) ↔
          tool_visible f (kind +:+ "_" +:+ id) = true ∧ id ∈ ids_of_kind registrations kind) as ->.
  { unfold listed. rewrite list_elem_of_fmap. setoid_rewrite list_elem_of_In. setoid_rewrite filter_In. split.
    - intros (id' & E & Hin & Hv). unfold schema_uri in E. 
      assert (id' = id) as -> by (unfold op_kind in Hk; repeat case_bool_decide; by simplify_eq). done.
    - intros [Hv Hin]. exists id. done. }
  unfold handle_resources_read. rewrite Hu.
  assert (strip_prefix "myko://schema/" (schema_uri kind id) ≫= split_once "/" = Some (kind, id)) as -> by exact Hs.
  assert (tool_visible f (kind +:+ ":" +:+ id) = tool_visible f (kind +:+ "_" +:+ id)) as ->.
  { unfold tool_visible. by rewrite normalize_colon, normalize_name. }
  unfold get_schema. destruct (tool_visible f (kind +:+ "_" +:+ id)); cbn [negb]; [|naive_solver].
  case_bool_decide; naive_solver.
Qed.

Section handling.
Variable to_lowercase : string → string.
Variable compile : string → Script V.
Variable contracts : list (@OperationInputContract V).
Variable registrations : Registrations.
Context {S : Type}.
Variable execute_operation : OpKind → string → V → S → S * result string V.
Variable connection_status : S → V.
Implicit Types (s : S).

Abbreviation call := (call_operation (@iterate) contracts execute_operation).
Abbreviation handle := (handle_request (@iterate) to_lowercase compile contracts registrations execute_operation connection_status).

(** An operation reaches the executor under its own kind, visible, with permitted and
    valid arguments. *)
Definition permitted f (k : OpKind) (id : string) args : Prop :=
  ∃ kind, op_kind kind = Some k ∧ tool_visible f (kind +:+ "_" +:+ id) = true ∧
    arguments_permitted f (normalize_tool_name (kind +:+ "_" +:+ id)) args ∧
    validate_operation_input contracts kind id args = Ok tt.

Lemma call_preserves f (I : S → Prop) :
  (∀ k id args s, permitted f k id args → I s → I (execute_operation k id args s).1) →
  ∀ kind id args_json s, I s → I (call f kind id args_json s).1.
Proof using iterate_perm.
  intros H kind id args_json s Is. unfold call_operation.
  destruct (tool_visible f (kind +:+ "_" +:+ id)) eqn:Ev; cbn [negb]; [|done].
  destruct (json_from_str _) as [args|]; [|done].
  destruct (tool_callable (@iterate) f (kind +:+ "_" +:+ id) args) as [[]|] eqn:Ec; [|done].
  destruct (validate_operation_input contracts kind id args) as [[]|] eqn:Ei; [|done].
  destruct (op_kind kind) as [k|] eqn:Ek; [|done].
  pose proof (H k id args s) as Hs. destruct (execute_operation k id args s) as [s' r]. simpl in *. apply Hs; [|done].
  exists kind. split; [done|]. split; [done|]. split; [by apply tool_callable_spec|done].
Qed.

Lemma script_preserves f (I : S → Prop) :
  (∀ k id args s, permitted f k id args → I s → I (execute_operation k id args s).1) →
  ∀ script s, I s → I (run_script (@iterate) contracts execute_operation f script s).1.
Proof using iterate_perm.
  intros H script. induction script as [r|kind id args_json next IH]; intros s Is; simpl; [done|].
  pose proof (call_preserves f I H kind id args_json s Is) as Hc.
  destruct (call f kind id args_json s) as [s' reply]. by apply IH.
Qed.

(** C35: Whatever a client sends, and whatever its scripts do, the operations of the server
    that are performed are ones the filter shows to it, with arguments that pass the
    filter's rules and the operation's own contract: a property of the server's state that
    permitted operations keep is kept. *)
Theorem only_permitted_operations_run f (I : S → Prop) request info s :
  (∀ k id args s, permitted f k id args → I s → I (execute_operation k id args s).1) →
  I s → I (handle request f info s).1.
Proof using iterate_perm.
  intros H Is. unfold handle_request. repeat case_bool_decide; try done.
  unfold handle_tools_call. destruct (rq_params request) as [params|]; [|done].
  destruct (json_get params "name" ≫= as_str) as [tool|]; [|done].
  destruct (meta_tool_visible f tool); cbn [negb]; [|done].
  destruct (tool_callable (@iterate) f tool _); [|done]. unfold execute_tool. repeat case_bool_decide; try done.
  unfold handle_execute. destruct (json_get _ "code" ≫= as_str) as [code|]; [|done].
  pose proof (script_preserves f I H (compile code) s Is) as Hs.
  by destruct (run_script (@iterate) _ _ f (compile code) s) as [s' r].
Qed.

(** An operation the filter hides answers like one that is not registered. *)
Theorem hidden_operations_look_unregistered f f' kind id args_json s args :
  tool_visible f (kind +:+ "_" +:+ id) = false →
  tool_visible f' (kind +:+ "_" +:+ id) = true → json_from_str (default "{}" args_json) = Ok args →
  tool_callable (@iterate) f' (kind +:+ "_" +:+ id) args = Ok tt →
  Forall (λ contract, ¬ (oc_kind contract = kind ∧ oc_id contract = id)) contracts →
  call f kind id args_json s = call f' kind id args_json s.
Proof using.
  intros Hh Hv Hp Hc Hr. unfold call_operation. rewrite Hh, Hv. cbn [negb]. rewrite Hp, Hc.
  unfold validate_operation_input.
  assert (List.find (λ contract, bool_decide (oc_kind contract = kind) && bool_decide (oc_id contract = id)) contracts = None) as ->; [|done].
  induction Hr as [|c l N _ IH]; simpl; [done|]. destruct (bool_decide (oc_kind c = kind) && _) eqn:E; [|done].
  rewrite andb_true_iff, !bool_decide_eq_true in E. done.
Qed.

End handling.
End properties.

(** ** A gateway to instantiate the properties at *)
Module Example.

(** JSON values as trees: strings, [null], booleans and objects. *)
Abbreviation Json := (gen_tree string).

Fixpoint fields (l : list Json) (key : string) : option Json :=
  match l with
  | GenLeaf k :: v :: rest => if bool_decide (k = key) then Some v else fields rest key
  | _ => None
  end.

#[global] Instance json : JsonValue Json := {
  as_str v := match v with GenLeaf s => Some s | GenNode _ _ => None end;
  as_bool v := match v with GenNode 1 [] => Some true | GenNode 3 [] => Some false | _ => None end;
  json_get v key := match v with GenNode 2 l => fields l key | _ => None end;
  is_object v := match v with GenNode 2 _ => true | _ => false end;
  empty_object := GenNode 2 [];
  null := GenNode 0 [];
  json_from_str s := match split "=" s with
                     | [k; v] => Ok (GenNode 2 [GenLeaf k; GenLeaf v])
                     | _ => if bool_decide (s = "{}") then Ok (GenNode 2 []) else Err "expected value"
                     end
}.

Definition object (l : list (string * Json)) : Json := GenNode 2 (l ≫= λ '(k, v), [GenLeaf k; v]).

Definition iterate {A} (m : gmap string A) : list (string * A) := map_to_list m.

Lemma iterate_perm A (m : gmap string A) : iterate m ≡ₚ map_to_list m.
Proof. done. Qed.

(** The operator allows commands and lookups, hides what is internal, and lets only two
    playbooks be run. *)
Definition rules (_ : string) : option (gmap string (gmap string (list Json))) :=
  Some {[ "command:RunPlaybook" := {[ "playbook" := [GenLeaf "site"; GenLeaf "deploy"] ]} ]}.
Definition filter : ClientFilters Json :=
  from_strings (@iterate) rules (Some "command:*, query_Get*") (Some "*Internal") (Some "rules") None.

(** The server logs what it runs. *)
Definition Log : Type := list (OpKind * string).
Definition execute_logged (k : OpKind) (id : string) (args : Json) (log : Log) : Log * result string Json := ((k, id) :: log, Ok args).
Definition status (_ : Log) : Json := GenLeaf "In-process (always connected)".

Definition contracts : list OperationInputContract :=
  (λ '(kind, id), mkContract kind id (validate_input (λ _, Ok tt))) <$>
    [("command", "RunPlaybook"); ("query", "GetAllServers"); ("command", "ResetInternal"); ("report", "ServerStats")].

(** A script that runs two playbooks, resets the server and reads a report. *)
Definition compile (code : string) : Script Json :=
  Call "command" "RunPlaybook" (Some "playbook=site") (λ _,
  Call "command" "RunPlaybook" (Some "playbook=danger") (λ _,
  Call "command" "ResetInternal" None (λ _,
  Call "report" "ServerStats" None (λ reply, Done (match reply with Value v => Ok v | JsonError m => Err m end))))).

Definition registrations : Registrations := mkRegistrations ["GetAllServers"] [] ["ServerStats"] ["RunPlaybook"; "ResetInternal"].
Definition request : McpRequest :=
  mkMcpRequest (GenLeaf "1") "tools/call"
    (Some (object [("name", GenLeaf "execute"); ("arguments", object [("code", GenLeaf "...")])])).

Definition handle := handle_request (@iterate) (λ s, s) compile contracts registrations execute_logged status.

(** Of the four calls only the first is performed. *)
Example one_call_runs :
  handle request filter (with_info "myko" "1") [] =
    ([(Command, "RunPlaybook")], Some (Success (GenLeaf "1") (ErrorContent "Error: Unknown operation: report_ServerStats"))).
Proof. by vm_compute. Qed.

End Example.

Lemma visibility_is_by_globs_witness :
  let name := "command" +:+ "_" +:+ "ResetInternal" in
  (tool_visible Example.filter name = true ↔
    (∀ g, g ∈ entries (Some "*Internal") → ¬ glob g name) ∧
    (entries (Some "command:*, query_Get*") = [] ∨ ∃ g, g ∈ entries (Some "command:*, query_Get*") ∧ glob g name)) ∧
  tool_visible Example.filter ("command" +:+ ":" +:+ "ResetInternal") = tool_visible Example.filter name.
Proof.
  apply (visibility_is_by_globs (@Example.iterate) Example.rules (Some "command:*, query_Get*") (Some "*Internal") (Some "rules") None
    "command" "ResetInternal").
  - assert (entries (Some "command:*, query_Get*") = ["command_" +:+ "*"; "query_Get" +:+ "*"]) as -> by by vm_compute.
    constructor; [by apply Simple_prefix|]. constructor; [by apply Simple_prefix|constructor].
  - assert (entries (Some "*Internal") = ["*" +:+ "Internal"]) as -> by by vm_compute.
    constructor; [by apply Simple_suffix|constructor].
  - reflexivity.
  - reflexivity.
Defined.

Lemma only_permitted_operations_run_witness :
  let shown (log : Example.Log) := Forall (λ entry, ∃ kind, op_kind kind = Some entry.1 ∧
    tool_visible Example.filter (kind +:+ "_" +:+ entry.2) = true) log in
  shown (Example.handle Example.request Example.filter (with_info "myko" "1") []).1.
Proof.
  intros shown. apply (only_permitted_operations_run (@Example.iterate) (@Example.iterate_perm) (λ s, s) Example.compile
    Example.contracts Example.registrations Example.execute_logged Example.status Example.filter shown).
  - intros k id args s (kind & Hk & Hv & _) Hs. constructor; [by exists kind|exact Hs].
  - constructor.
Defined.

(** ** What the gateway does not do *)

(** A star at each end is not a glob here: such a pattern is compared as it is, and hides
    nothing. *)
Lemma contains_patterns_hide_nothing :
  pattern_parse "*Delete*" = Some (Exact "*Delete*") ∧
  let f := mkFilters (V := Example.Json) [] (parse_patterns (Some "*Delete*")) ∅ ∅ in
  tool_visible f "command_DeleteServer" = true ∧ glob "*Delete*" "command_DeleteServer".
Proof.
  split; [by vm_compute|]. split; [by vm_compute|].
  apply (glob_star "Delete*" "command_" "DeleteServer"). apply (glob_prefix "Delete"); [done|]. by exists "Server".
Qed.

(** Rules for both spellings of a tool do not add up: which of them are kept depends on the
    order in which a map is iterated. *)
Lemma spellings_of_a_tool_collide :
  let deny (_ : string) : option (gmap string (gmap string (list Example.Json))) :=
    Some {[ "command:Tag" := {[ "namespace" := [GenLeaf "prod"] ]}; "command_Tag" := {[ "owner" := [GenLeaf "root"] ]} ]} in
  let some_order {A} (m : gmap string A) := map_to_list m in
  let other_order {A} (m : gmap string A) := reverse (map_to_list m) in
  let prod := Example.object [("namespace", GenLeaf "prod")] in
  let callable (iterate : ∀ A, gmap string A → list (string * A)) :=
    tool_callable iterate (from_strings iterate deny None None None (Some "rules")) "command_Tag" prod in
  callable (@some_order) ≠ callable (@other_order).
Proof. by vm_compute. Qed.

(** A tool that is hidden and a tool that does not exist are told apart: the first is an
    error of the protocol, the second the result of a call. *)
Lemma hidden_tools_are_told_apart :
  let call name := Example.handle (mkMcpRequest (GenLeaf "1") "tools/call" (Some (Example.object [("name", GenLeaf name)]))) in
  let hidden := mkFilters (V := Example.Json) [] [Exact "search"] ∅ ∅ in
  (∃ message, (call "search" hidden (with_info "myko" "1") []).2 = Some (Error (GenLeaf "1") INVALID_PARAMS message)) ∧
  ∃ message, (call "serach" hidden (with_info "myko" "1") []).2 = Some (Success (GenLeaf "1") (ErrorContent message)).
Proof. vm_compute. eauto. Qed.

(** A server made with a name and a version finds no operation. *)
Lemma named_servers_find_nothing name version args (f : ClientFilters Example.Json) :
  handle_search (λ s, s) args f (si_operation_index (with_info name version)) =
    Operations (default false (json_get args "details" ≫= as_bool)) [].
Proof. done. Qed.
