(* ===== verification/DurableLog.v ===== *)
(** * The durable log

    [server/postgres.rs], [core/server/persister.rs] and [core/server/history_replay.rs]: hosts
    append the events of their mutations to one table and follow the rows of the others.  A
    producer thread sends its events in batches and retries what fails; a consumer thread
    loads the latest state of every entity and then polls for rows with larger ids; windows
    on the history of an entity are read again when one of its rows is seen.

    The database is the class [Database] (what it makes of the text of an event and of a
    timestamp) and the table of the rows it shows; the queries are those of the source.  Ids
    are drawn when a statement executes and rows are shown when it commits, as sequences do.
    A [World] is the table and the hosts; [exec] runs one step of one of their threads, and
    the outcome of everything that touches the network is part of the step. *)

From Stdlib Require Import Ascii.
From stdpp Require Import base strings numbers option countable pretty gmap sets list sorting.
From S2P Require Import Prelude GraphTypes EdgeIds GraphIndex GraphQuery ServerTypes.

(** ** Events *)

(** [MEvent] with all its fields. *)
Record LogEvent (J : Type) := mkLogEvent {
  le_item : J;
  le_change_type : MEventType;
  le_item_type : string;
  le_created_at : string;
  le_tx : string;
  le_source_id : option string
}.
Arguments mkLogEvent {J}.
Arguments le_item {J}.
Arguments le_change_type {J}.
Arguments le_item_type {J}.
Arguments le_created_at {J}.
Arguments le_tx {J}.
Arguments le_source_id {J}.

(** ** Health of a persister *)

Definition fetch_sub (x n : Z) : Z := (x - n) `mod` (u64_max + 1).

Record PersistHealth := mkHealth {
  ph_queued : Z;
  ph_total_persisted : Z;
  ph_total_errors : Z;
  ph_consecutive_errors : Z;
  ph_last_error : option string
}.
Definition health_default : PersistHealth := mkHealth 0 0 0 0 None.

Definition record_enqueue (h : PersistHealth) : PersistHealth :=
  mkHealth (fetch_add (ph_queued h) 1) (ph_total_persisted h) (ph_total_errors h) (ph_consecutive_errors h) (ph_last_error h).

Definition record_success_batch (h : PersistHealth) (count : Z) : PersistHealth :=
  mkHealth (fetch_sub (ph_queued h) count) (fetch_add (ph_total_persisted h) count) (ph_total_errors h) 0
    (if (0 <? ph_consecutive_errors h)%Z then None else ph_last_error h).

Definition record_dropped (h : PersistHealth) (msg : string) : PersistHealth :=
  mkHealth (ph_queued h) (ph_total_persisted h) (fetch_add (ph_total_errors h) 1) (fetch_add (ph_consecutive_errors h) 1)
    (Some msg).

(** The event is retried, and stays queued. *)
Definition record_error_no_dequeue (h : PersistHealth) (msg : string) : PersistHealth :=
  mkHealth (ph_queued h) (ph_total_persisted h) (fetch_add (ph_total_errors h) 1) (fetch_add (ph_consecutive_errors h) 1)
    (Some msg).

(** ** The database *)

Class Database (J D T : Type) := {
  (** The text of an event as a [JSONB] value, unless the database rejects it. *)
  to_jsonb : LogEvent J → option D;
  (** [MEvent::from_str_trim] on the text of a value. *)
  from_jsonb : D → option (LogEvent J);
  (** A text as a [TIMESTAMPTZ], and their order. *)
  timestamptz : string → option T;
  timestamptz_le : T → T → bool;
  (** [event.item.get("id").and_then(|v| v.as_str())] *)
  json_id : J → option string
}.

Record Row (D T : Type) := mkRow {
  row_id : Z;
  row_item_type : string;
  row_item_id : string;
  row_change_type : string;
  row_created_at : T;
  row_tx : string;
  row_source_id : option string;
  row_event : D
}.
Arguments mkRow {D T}.
Arguments row_id {D T}.
Arguments row_item_type {D T}.
Arguments row_item_id {D T}.
Arguments row_change_type {D T}.
Arguments row_created_at {D T}.
Arguments row_tx {D T}.
Arguments row_source_id {D T}.
Arguments row_event {D T}.

(** [HistoryEntityKey] *)
Abbreviation HistoryEntityKey := (string * string)%type.

(** [HistoryEvent] *)
Record HistoryEvent (J T : Type) := mkHistoryEvent { he_id : Z; he_created_at : T; he_event : LogEvent J }.
Arguments mkHistoryEvent {J T}.
Arguments he_id {J T}.
Arguments he_created_at {J T}.
Arguments he_event {J T}.

Record HistoryPage (J T : Type) := mkPage { hp_events : list (HistoryEvent J T); hp_total_count : Z }.
Arguments mkPage {J T}.
Arguments hp_events {J T}.
Arguments hp_total_count {J T}.

Section tables.
Context {J D T : Type} `{!Database J D T}.
Implicit Types (table : list (Row D T)) (row : Row D T) (event : LogEvent J).

Definition change_text (change : MEventType) : string := match change with SET => "SET" | DEL => "DEL" end.

Definition row_key row : HistoryEntityKey := (row_item_type row, row_item_id row).

(** One row of an [INSERT]. *)
Definition row_of (id : Z) event : option (Row D T) :=
  d ← to_jsonb event;
  t ← timestamptz (le_created_at event);
  Some (mkRow id (le_item_type event) (default "unknown" (json_id (le_item event))) (change_text (le_change_type event))
          t (le_tx event) (le_source_id event) d).

(** The rows of one statement, with consecutive ids; [None] when the database rejects one. *)
Fixpoint insert_event_batch (next_id : Z) (events : list (LogEvent J)) : option (list (Row D T)) :=
  match events with
  | [] => Some []
  | event :: events =>
      row ← row_of next_id event;
      rows ← insert_event_batch (next_id + 1) events;
      Some (row :: rows)
  end.

(** [ORDER BY id ASC] *)
Definition row_le (row other : Row D T) : Prop := (row_id row ≤ row_id other)%Z.
#[export] Instance row_le_dec : RelDecision row_le := λ r s, Z.le_dec (row_id r) (row_id s).
Definition order_by_id table : list (Row D T) := merge_sort row_le table.

(** [COALESCE(MAX(id), 0)] *)
Definition max_id table : Z :=
  match row_id <$> table with [] => 0 | id :: ids => foldl Z.max id ids end.

(** [DISTINCT ON (item_type, item_id) .. ORDER BY item_type, item_id, id DESC] *)
Definition latest table : list (Row D T) :=
  filter (λ row, Forall (λ other, row_key other = row_key row → (row_id other ≤ row_id row)%Z) table) table.

(** The latest row of every entity among the visible ones, unless it deletes the entity. *)
Definition latest_set_rows (visible : Row D T → bool) table : list (Row D T) :=
  order_by_id (filter (λ row, row_change_type row = "SET") (latest (filter visible table))).

Definition snapshot_rows (high_water : Z) table : list (Row D T) :=
  latest_set_rows (λ row, (row_id row <=? high_water)%Z) table.

Definition fetch_rows (last_seen_id : Z) (limit : nat) table : list (Row D T) :=
  take limit (order_by_id (filter (λ row, (last_seen_id < row_id row)%Z) table)).

(** ** The history of one entity *)

Definition i64_max : Z := 9223372036854775807%Z.

Definition to_history_event row : result string (HistoryEvent J T) :=
  match from_jsonb (row_event row) with
  | Some event => Ok (mkHistoryEvent (row_id row) (row_created_at row) event)
  | None => Err ("invalid history event payload for id=" +:+ pretty (row_id row))
  end.

Definition load_entity_history_page table (key : HistoryEntityKey) (window : QueryWindow)
  : result string (HistoryPage J T) :=
  let rows := filter (λ row, row_key row = key) table in
  if (i64_max <? limit window)%Z then Err "history page size is too large"
  else if (i64_max <? offset window)%Z then Err "history page offset is too large"
  else
    events ← foldr (λ row acc, event ← to_history_event row; events ← acc; Ok (event :: events)) (Ok [])
               (take_z (limit window) (skip_z (offset window) (reverse (order_by_id rows))));
    Ok (mkPage events (len rows)).
End tables.

(** ** Loading rows into a store *)

Section loading.
Context {P J D T : Type} `{!Database J D T}.
(** [HandlerRegistry::item_parser] *)
Variable item_parser : string → option (J → option (Item P)).
(** The unspecified order in which a [HashMap] is iterated. *)
Variable iterate : gmap string (list (Item P)) → list (string * list (Item P)).
Implicit Types (registry : StoreRegistry P) (event : LogEvent J) (table : list (Row D T)).

Definition is_my_event (host_id : string) event : bool := bool_decide (le_source_id event = Some host_id).

Definition parse_event event : option (Item P) := parse ← item_parser (le_item_type event); parse (le_item event).

(** An event of another host; what does not parse is logged and left out. *)
Definition apply_remote_event (host_id : string) registry event : StoreRegistry P :=
  if is_my_event host_id event then registry
  else match le_change_type event with
       | SET => match parse_event event with Some item => store_insert registry item | None => registry end
       | DEL => match json_id (le_item event) with
                | Some id => store_remove registry (le_item_type event) id
                | None => registry
                end
       end.

(** [insert_many] on the store of a type. *)
Definition insert_many registry (entries : list (Item P)) : StoreRegistry P := foldl store_insert registry entries.

Definition PG_SNAPSHOT_STORE_BATCH : nat := 512.

Definition queue_snapshot_event (host_id : string) (acc : StoreRegistry P * gmap string (list (Item P))) event
  : StoreRegistry P * gmap string (list (Item P)) :=
  let '(registry, pending) := acc in
  if is_my_event host_id event then acc
  else match parse_event event with
       | None => acc
       | Some item =>
           let entries := default [] (pending !! item_type item) ++ [item] in
           if (PG_SNAPSHOT_STORE_BATCH <=? length entries)%nat
           then (insert_many registry entries, <[item_type item := []]> pending)
           else (registry, <[item_type item := entries]> pending)
       end.

Definition flush_snapshot_entries registry (pending : gmap string (list (Item P))) : StoreRegistry P :=
  foldl (λ registry entry, insert_many registry entry.2) registry (iterate pending).

(** The rows of the snapshot query as they stream in; a row that does not decode is logged. *)
Definition queue_rows (host_id : string) registry (rows : list (Row D T))
  : StoreRegistry P * gmap string (list (Item P)) :=
  foldl (λ acc row, match from_jsonb (row_event row) with
                    | Some event => queue_snapshot_event host_id acc event
                    | None => acc
                    end) (registry, ∅) rows.

Definition load_rows (host_id : string) registry (rows : list (Row D T)) : StoreRegistry P :=
  let '(registry, pending) := queue_rows host_id registry rows in flush_snapshot_entries registry pending.

Definition load_consumer_snapshot (host_id : string) (high_water : Z) registry table : StoreRegistry P :=
  load_rows host_id registry (snapshot_rows high_water table).

(** [c.is_ascii_alphanumeric() || "-.:+TZ ".contains(c)] *)
Definition timestamp_char (c : ascii) : bool :=
  let n := nat_of_ascii c in
  ((48 <=? n) && (n <=? 57) || (65 <=? n) && (n <=? 90) || (97 <=? n) && (n <=? 122))%nat
  || bool_decide (c ∈ String.list_ascii_of_string "-.:+TZ ").

(** [replay_to_store]: the state as of [until], the events of every host included. *)
Definition replay_to_store (until : string) table : result string (StoreRegistry P) :=
  if negb (forallb timestamp_char (String.list_ascii_of_string until)) then Err ("Invalid timestamp format: " +:+ until)
  else match timestamptz until with
  | None => Err "history snapshot query failed"
  | Some t =>
      Ok (foldl (λ registry row,
            match from_jsonb (row_event row) with
            | Some event => match parse_event event with Some item => store_insert registry item | None => registry end
            | None => registry
            end) ∅ (latest_set_rows (λ row, timestamptz_le (row_created_at row) t) table))
  end.
End loading.

(** What hosts rely on: a stored event decodes to itself, an item's JSON parses to the item and
    carries its id. *)
Class LogLaws {P J D T : Type} `{!Database J D T} (item_parser : string → option (J → option (Item P)))
    (to_value : Item P → J) : Prop := {
  stored_decodes (event : LogEvent J) (d : D) : to_jsonb event = Some d → from_jsonb d = Some event;
  value_parses (item : Item P) : ∃ parse, item_parser (item_type item) = Some parse ∧ parse (to_value item) = Some item;
  value_id (item : Item P) : json_id (to_value item) = Some (item_id item)
}.

(** ** The producer *)

Inductive ProducerPhase (J D T : Type) :=
| PIdle (retry_batch : list (LogEvent J))
(** A batch was collected. *)
| PBatch (batch : list (LogEvent J))
(** Its statement was executed, and is not committed yet. *)
| PSent (batch : list (LogEvent J)) (rows : list (Row D T)).
Arguments PIdle {J D T}.
Arguments PBatch {J D T}.
Arguments PSent {J D T}.

Inductive CommitOutcome := Committed | RolledBack | ReplyLost.

Record Producer (J D T : Type) := mkProducer {
  pr_phase : ProducerPhase J D T;
  pr_connected : bool;
  pr_channel : list (LogEvent J);
  (** The producer thread holds the receiver of the channel. *)
  pr_receiver : bool;
  (** Calls of [produce] between their [send] and their [record_enqueue]. *)
  pr_unrecorded : nat;
  pr_health : PersistHealth
}.
Arguments mkProducer {J D T}.
Arguments pr_phase {J D T}.
Arguments pr_connected {J D T}.
Arguments pr_channel {J D T}.
Arguments pr_receiver {J D T}.
Arguments pr_unrecorded {J D T}.
Arguments pr_health {J D T}.

Section producer.
Context {J D T : Type} `{!Database J D T}.
Implicit Types (p : Producer J D T) (event : LogEvent J) (batch : list (LogEvent J)).

Definition producer_new : Producer J D T := mkProducer (PIdle []) false [] true 0 health_default.

Definition PG_PRODUCER_MAX_BATCH : nat := 256.

(** [produce] up to [record_enqueue]. *)
Definition produce (host_id : string) event p : Producer J D T * result PersistError unit :=
  let event := match le_source_id event with
               | Some _ => event
               | None => mkLogEvent (le_item event) (le_change_type event) (le_item_type event) (le_created_at event)
                           (le_tx event) (Some host_id)
               end in
  if pr_receiver p
  then (mkProducer (pr_phase p) (pr_connected p) (pr_channel p ++ [event]) true (S (pr_unrecorded p)) (pr_health p), Ok ())
  else
    let msg := "Postgres producer thread not running" in
    (mkProducer (pr_phase p) (pr_connected p) (pr_channel p) false (pr_unrecorded p) (record_dropped (pr_health p) msg),
     Err (mkPersistError (le_item_type event) msg)).

Definition record_enqueue_step p : option (Producer J D T) :=
  match pr_unrecorded p with
  | O => None
  | S n => Some (mkProducer (pr_phase p) (pr_connected p) (pr_channel p) (pr_receiver p) n (record_enqueue (pr_health p)))
  end.

(** The turn's batch: the one to retry or the next event, and what else is ready. *)
Definition collect p : option (Producer J D T) :=
  let drain batch channel :=
    let n := (PG_PRODUCER_MAX_BATCH - length batch)%nat in
    Some (mkProducer (PBatch (batch ++ take n channel)) (pr_connected p) (drop n channel) (pr_receiver p)
            (pr_unrecorded p) (pr_health p)) in
  match pr_phase p with
  | PIdle [] => match pr_channel p with [] => None | event :: channel => drain [event] channel end
  | PIdle retry_batch => drain retry_batch (pr_channel p)
  | _ => None
  end.

(** The turn's batch is kept for the next one. *)
Definition retry_later batch (connected : bool) (msg : string) p : Producer J D T :=
  mkProducer (PIdle batch) connected (pr_channel p) (pr_receiver p) (pr_unrecorded p)
    (record_error_no_dequeue (pr_health p) msg).

(** Connecting if there is no client ([connects] is whether that succeeds), and executing. *)
Definition execute (connects : bool) (next_id : Z) p : option (Producer J D T) :=
  match pr_phase p with
  | PBatch batch =>
      Some
        (if negb (pr_connected p || connects)
         then retry_later batch false "Postgres producer connection failed" p
         else match insert_event_batch next_id batch with
              | None => retry_later batch false "insert_event_batch(producer) failed" p
              | Some rows => mkProducer (PSent batch rows) true (pr_channel p) (pr_receiver p) (pr_unrecorded p) (pr_health p)
              end)
  | _ => None
  end.

(** The end of the statement, and the rows the table then shows. *)
Definition finish (outcome : CommitOutcome) p : option (Producer J D T * list (Row D T)) :=
  match pr_phase p with
  | PSent batch rows =>
      Some match outcome with
           | Committed =>
               (mkProducer (PIdle []) true (pr_channel p) (pr_receiver p) (pr_unrecorded p)
                  (record_success_batch (pr_health p) (len batch)), rows)
           | RolledBack => (retry_later batch false "insert_event_batch(producer) failed" p, [])
           | ReplyLost => (retry_later batch false "insert_event_batch(producer) failed" p, rows)
           end
  | _ => None
  end.
End producer.

(** ** Windows on the history of an entity *)

Record HistoryWindow (J T : Type) := mkHistoryWindow {
  hw_key : HistoryEntityKey;
  hw_selection : QueryWindow;
  (** The snapshot: its entries, its total count and its window. *)
  hw_entries : list (string * HistoryEvent J T);
  hw_total_count : Z;
  hw_window : QueryWindow;
  (** The warning logged by the last refresh. *)
  hw_warning : option string
}.
Arguments mkHistoryWindow {J T}.
Arguments hw_key {J T}.
Arguments hw_selection {J T}.
Arguments hw_entries {J T}.
Arguments hw_total_count {J T}.
Arguments hw_window {J T}.
Arguments hw_warning {J T}.

Section windows.
Context {J D T : Type} `{!Database J D T}.
Implicit Types (w : HistoryWindow J T) (table : list (Row D T)).

(** [entity_history_page] of the provider; [ok] is whether the database answers. *)
Definition entity_history_page (ok : bool) table (key : HistoryEntityKey) (window : QueryWindow)
  : result string (HistoryPage J T) :=
  if ok then load_entity_history_page table key window else Err "history query failed".

Definition page_entries (page : HistoryPage J T) : list (string * HistoryEvent J T) :=
  (λ event, (pretty (he_id event), event)) <$> hp_events page.

(** The snapshot is replaced by the selected page, or kept when that cannot be read. *)
Definition refresh_history_window (ok : bool) table w : result string (HistoryWindow J T) :=
  page ← entity_history_page ok table (hw_key w) (hw_selection w);
  Ok (mkHistoryWindow (hw_key w) (hw_selection w) (page_entries page) (hp_total_count page) (hw_selection w) None).

Definition warn w (error : string) : HistoryWindow J T :=
  mkHistoryWindow (hw_key w) (hw_selection w) (hw_entries w) (hw_total_count w) (hw_window w) (Some error).

Definition refresh_or_warn (ok : bool) table w : HistoryWindow J T :=
  match refresh_history_window ok table w with Ok w' => w' | Err error => warn w error end.

Definition entity_history_window_source (ok : bool) table (key : HistoryEntityKey) (initial_window : QueryWindow)
  : result string (HistoryWindow J T) :=
  refresh_history_window ok table (mkHistoryWindow key initial_window [] 0 initial_window None).

(** The subscription to committed rows. *)
Definition on_committed (ok : bool) table (key : HistoryEntityKey) w : HistoryWindow J T :=
  if bool_decide (key = hw_key w) then refresh_or_warn ok table w else w.

Definition set_window (ok : bool) table (next : option QueryWindow) w : HistoryWindow J T :=
  match next with
  | None => w
  | Some next =>
      refresh_or_warn ok table
        (mkHistoryWindow (hw_key w) next (hw_entries w) (hw_total_count w) (hw_window w) (hw_warning w))
  end.
End windows.

(** ** The consumer *)

Inductive ConsumerPhase (D T : Type) :=
(** Before the first query. *)
| CStarting
| CHighWater (high_water : Z)
(** The top of the loop. *)
| CReading
| CApplying (rows : list (Row D T))
(** The thread returned an error. *)
| CFailed.
Arguments CStarting {D T}.
Arguments CHighWater {D T}.
Arguments CReading {D T}.
Arguments CApplying {D T}.
Arguments CFailed {D T}.

(** The thread's variables, and [CatchUpStatus]. *)
Record Consumer (D T : Type) := mkConsumer {
  co_phase : ConsumerPhase D T;
  co_last_seen_id : Z;
  co_initial_done : bool;
  co_caught_up : bool;
  co_failure_reason : option string
}.
Arguments mkConsumer {D T}.
Arguments co_phase {D T}.
Arguments co_last_seen_id {D T}.
Arguments co_initial_done {D T}.
Arguments co_caught_up {D T}.
Arguments co_failure_reason {D T}.

Definition FETCH_LIMIT : nat := 1000.

Section consumer.
Context {D T : Type}.
Implicit Types (c : Consumer D T) (table : list (Row D T)).

Definition consumer_new : Consumer D T := mkConsumer CStarting 0 false false None.

(** [CatchUpStatus::fail], and the end of the thread. *)
Definition fail (reason : string) c : Consumer D T :=
  mkConsumer CFailed (co_last_seen_id c) (co_initial_done c) false (Some ("Postgres consumer failed: " +:+ reason)).

Definition read_high_water (ok : bool) table c : option (Consumer D T) :=
  match co_phase c with
  | CStarting =>
      Some (if ok
            then mkConsumer (CHighWater (max_id table)) (co_last_seen_id c) (co_initial_done c) (co_caught_up c)
                   (co_failure_reason c)
            else fail "query(high_water)" c)
  | _ => None
  end.

(** One query for new rows; when it fails the reader reconnects, and when it finds none the
    thread waits for a notification, for at most half a second. *)
Definition fetch (ok : bool) table c : option (Consumer D T) :=
  match co_phase c with
  | CReading =>
      Some (if ok
            then match fetch_rows (co_last_seen_id c) FETCH_LIMIT table with
                 | [] => mkConsumer CReading (co_last_seen_id c) true
                           (if co_initial_done c then co_caught_up c else true) (co_failure_reason c)
                 | rows => mkConsumer (CApplying rows) (co_last_seen_id c) (co_initial_done c) (co_caught_up c)
                             (co_failure_reason c)
                 end
            else c)
  | _ => None
  end.

(** The row leaves the ones to apply. *)
Definition seen (row : Row D T) (rows : list (Row D T)) c : Consumer D T :=
  mkConsumer (match rows with [] => CReading | _ => CApplying rows end) (row_id row) (co_initial_done c) (co_caught_up c)
    (co_failure_reason c).

(** One look of [wait_until_caught_up_configured] at the status, [elapsed_ms] after it began. *)
Definition wait_poll (timeout : option Z) (elapsed_ms : Z) c : option (result string unit) :=
  if co_caught_up c then Some (Ok ())
  else match co_failure_reason c with
       | Some reason => Some (Err reason)
       | None =>
           match timeout with
           | Some timeout_ms =>
               if (timeout_ms <=? elapsed_ms)%Z
               then Some (Err ("Postgres catch-up timed out after " +:+ pretty (timeout_ms / 1000)%Z +:+ "s")) else None
           | None => None
           end
       end.
End consumer.

(** ** Hosts and the world *)

Record Host (P J D T : Type) := mkHost {
  h_registry : StoreRegistry P;
  (** Mutations in the stores whose event is still to be persisted. *)
  h_unpersisted : list (MEventType * Item P);
  h_producer : Producer J D T;
  h_consumer : Consumer D T;
  (** [committed]: the last row observed. *)
  h_committed : option (HistoryEntityKey * Z);
  h_windows : list (HistoryWindow J T)
}.
Arguments mkHost {P J D T}.
Arguments h_registry {P J D T}.
Arguments h_unpersisted {P J D T}.
Arguments h_producer {P J D T}.
Arguments h_consumer {P J D T}.
Arguments h_committed {P J D T}.
Arguments h_windows {P J D T}.

Record World (P J D T : Type) := mkWorld {
  (** The rows the table shows, in the order they became visible. *)
  w_table : list (Row D T);
  (** The sequence of ids. *)
  w_next_id : Z;
  w_hosts : gmap string (Host P J D T)
}.
Arguments mkWorld {P J D T}.
Arguments w_table {P J D T}.
Arguments w_next_id {P J D T}.
Arguments w_hosts {P J D T}.

(** The steps.  A host has a fresh id unless it was configured with one; [Reduce] and
    [Persist] are the two halves of a mutation ([emit_one]), which other threads of the
    host may come between.  A [Restart] ends the process with what its producer holds; a
    statement the database has been sent is taken to be settled before it, by a [Finish],
    whose outcome [ReplyLost] is a commit the process does not hear of. *)
Inductive Step (P : Type) :=
| Start (host : string)
| Restart (host : string)
| Reduce (host : string) (change : MEventType) (item : Item P) (origin : Origin)
| Persist (host : string) (n : nat) (created_at tx : string)
| RecordEnqueue (host : string)
| Collect (host : string)
| Execute (host : string) (connects : bool)
| Finish (host : string) (outcome : CommitOutcome)
| ReadHighWater (host : string) (ok : bool)
| LoadSnapshot (host : string) (broken_after : option nat)
| Fetch (host : string) (ok : bool)
| ApplyRow (host : string) (oks : list bool)
| OpenWindow (host : string) (ok : bool) (key : HistoryEntityKey) (window : QueryWindow)
| SetWindow (host : string) (n : nat) (ok : bool) (next : option QueryWindow).
Arguments Start {P}.
Arguments Restart {P}.
Arguments Reduce {P}.
Arguments Persist {P}.
Arguments RecordEnqueue {P}.
Arguments Collect {P}.
Arguments Execute {P}.
Arguments Finish {P}.
Arguments ReadHighWater {P}.
Arguments LoadSnapshot {P}.
Arguments Fetch {P}.
Arguments ApplyRow {P}.
Arguments OpenWindow {P}.
Arguments SetWindow {P}.

Section world.
Context {P J D T : Type} `{!Database J D T}.
Variable item_parser : string → option (J → option (Item P)).
(** [AnyItem::to_value] *)
Variable to_value : Item P → J.
Variable iterate : gmap string (list (Item P)) → list (string * list (Item P)).
Implicit Types (h : Host P J D T) (w : World P J D T) (table : list (Row D T)).

Definition host_new : Host P J D T := mkHost ∅ [] producer_new consumer_new None [].

Definition with_producer h (p : Producer J D T) : Host P J D T :=
  mkHost (h_registry h) (h_unpersisted h) p (h_consumer h) (h_committed h) (h_windows h).
Definition with_consumer h (c : Consumer D T) : Host P J D T :=
  mkHost (h_registry h) (h_unpersisted h) (h_producer h) c (h_committed h) (h_windows h).
Definition with_windows h (windows : list (HistoryWindow J T)) : Host P J D T :=
  mkHost (h_registry h) (h_unpersisted h) (h_producer h) (h_consumer h) (h_committed h) windows.

(** [reduce_one], and what is left to do of the mutation. *)
Definition reduce_step change (item : Item P) (origin : Origin) h : Host P J D T :=
  mkHost (reduce (h_registry h) change item)
    (if should_produce origin then h_unpersisted h ++ [(change, item)] else h_unpersisted h)
    (h_producer h) (h_consumer h) (h_committed h) (h_windows h).

(** [MEvent::set_from_value] and [MEvent::del_from_any]. *)
Definition event_of (host_id : string) (change : MEventType) (item : Item P) (created_at tx : string) : LogEvent J :=
  mkLogEvent (to_value item) change (item_type item) created_at tx (Some host_id).

(** [persist_dyn] of the mutation that is [n]-th to be persisted. *)
Definition persist_step (host_id : string) (n : nat) (created_at tx : string) h : option (Host P J D T) :=
  '(change, item) ← h_unpersisted h !! n;
  Some (mkHost (h_registry h) (delete n (h_unpersisted h))
          (produce host_id (event_of host_id change item created_at tx) (h_producer h)).1
          (h_consumer h) (h_committed h) (h_windows h)).

(** The snapshot; [broken_after] is how many rows had come when the stream broke, if it did. *)
Definition load_snapshot (host_id : string) (broken_after : option nat) table h : option (Host P J D T) :=
  match co_phase (h_consumer h) with
  | CHighWater high_water =>
      let c := h_consumer h in
      let with_load registry c := mkHost registry (h_unpersisted h) (h_producer h) c (h_committed h) (h_windows h) in
      Some match broken_after with
           | None =>
               with_load (load_consumer_snapshot item_parser iterate host_id high_water (h_registry h) table)
                 (mkConsumer CReading high_water (co_initial_done c) (co_caught_up c) (co_failure_reason c))
           | Some n =>
               with_load (queue_rows item_parser host_id (h_registry h) (take n (snapshot_rows high_water table))).1
                 (fail "stream(snapshot latest events)" c)
           end
  | _ => None
  end.

(** [observe_committed]: the cell, and the windows subscribed to it; [oks] is which of their
    reads succeed. *)
Definition observe_committed (key : HistoryEntityKey) (id : Z) (oks : list bool) table h : Host P J D T :=
  mkHost (h_registry h) (h_unpersisted h) (h_producer h) (h_consumer h) (Some (key, id))
    (imap (λ i window, on_committed (default true (oks !! i)) table key window) (h_windows h)).

(** One row of a fetched batch. *)
Definition apply_row (host_id : string) (oks : list bool) table h : option (Host P J D T) :=
  match co_phase (h_consumer h) with
  | CApplying (row :: rows) =>
      let h := with_consumer h (seen row rows (h_consumer h)) in
      Some match from_jsonb (row_event row) with
           | Some event =>
               observe_committed (row_key row) (row_id row) oks table
                 (mkHost (apply_remote_event item_parser host_id (h_registry h) event) (h_unpersisted h) (h_producer h)
                    (h_consumer h) (h_committed h) (h_windows h))
           | None => h
           end
  | _ => None
  end.

Definition open_window (ok : bool) (key : HistoryEntityKey) (window : QueryWindow) table h : Host P J D T :=
  match entity_history_window_source ok table key window with
  | Ok source => with_windows h (h_windows h ++ [source])
  | Err _ => h
  end.

Definition world_new : World P J D T := mkWorld [] 1 ∅.

Definition host_of (step : Step P) : string :=
  match step with
  | Start host | Restart host | Reduce host _ _ _ | Persist host _ _ _ | RecordEnqueue host | Collect host
  | Execute host _ | Finish host _ | ReadHighWater host _ | LoadSnapshot host _ | Fetch host _ | ApplyRow host _
  | OpenWindow host _ _ _ | SetWindow host _ _ _ => host
  end.

(** A step of a running host: its new state, the rows that become visible and how many ids
    were drawn; [None] when the thread is not at that point. *)
Definition host_exec (step : Step P) table (next_id : Z) h : option (Host P J D T * list (Row D T) * Z) :=
  let quiet (h : option (Host P J D T)) := h ← h; Some (h, [], 0%Z) in
  match step with
  | Start _ | Restart _ => None
  | Reduce _ change item origin => quiet (Some (reduce_step change item origin h))
  | Persist host n created_at tx => quiet (persist_step host n created_at tx h)
  | RecordEnqueue _ => quiet (with_producer h <$> record_enqueue_step (h_producer h))
  | Collect _ => quiet (with_producer h <$> collect (h_producer h))
  | Execute _ connects =>
      p ← execute connects next_id (h_producer h);
      Some (with_producer h p, [], match pr_phase p with PSent _ rows => len rows | _ => 0%Z end)
  | Finish _ outcome => '(p, rows) ← finish outcome (h_producer h); Some (with_producer h p, rows, 0%Z)
  | ReadHighWater _ ok => quiet (with_consumer h <$> read_high_water ok table (h_consumer h))
  | LoadSnapshot host broken_after => quiet (load_snapshot host broken_after table h)
  | Fetch _ ok => quiet (with_consumer h <$> fetch ok table (h_consumer h))
  | ApplyRow host oks => quiet (apply_row host oks table h)
  | OpenWindow _ ok key window => quiet (Some (open_window ok key window table h))
  | SetWindow _ n ok next => quiet (Some (with_windows h (alter (set_window ok table next) n (h_windows h))))
  end.

Definition exec (step : Step P) w : option (World P J D T) :=
  let host := host_of step in
  match step, w_hosts w !! host with
  | Start _, None | Restart _, Some _ => Some (mkWorld (w_table w) (w_next_id w) (<[host := host_new]> (w_hosts w)))
  | Start _, Some _ | _, None => None
  | _, Some h =>
      '(h, rows, drawn) ← host_exec step (w_table w) (w_next_id w) h;
      Some (mkWorld (w_table w ++ rows) (w_next_id w + drawn) (<[host := h]> (w_hosts w)))
  end.

Fixpoint run (steps : list (Step P)) w : option (World P J D T) :=
  match steps with
  | [] => Some w
  | step :: steps => w ← exec step w; run steps w
  end.
End world.
