(* ===== verification/DurableProof.v ===== *)
(** * The durable log: what rows do to an entity

    The effect of an event on one entity, the value a list of events leaves it with, and the
    loads of [DurableLog] in these terms; then the invariants of a world of hosts. *)

From stdpp Require Import base strings numbers option countable pretty gmap sets list sorting.
From S2P Require Import Prelude GraphTypes EdgeIds GraphIndex ServerTypes PipelineInvariant DurableLog.

(** ** Lists *)

Lemma last_repeat {A} (l b c : list A) : last (l ++ b ++ b ++ c) = last (l ++ b ++ c).
Proof.
  rewrite !last_app. destruct (last c) as [x|]; [done|]. by destruct (last b).
Qed.

Lemma StronglySorted_app_inv_l {A} (R : relation A) l k : StronglySorted R (l ++ k) → StronglySorted R l.
Proof.
  induction l as [|x l IH]; simpl; [constructor|]. intros [S F]%StronglySorted_inv.
  constructor; [by apply IH|]. by apply Forall_app in F as [F _].
Qed.

Lemma StronglySorted_app_lt {A} (R : relation A) l k x y : StronglySorted R (l ++ k) → x ∈ l → y ∈ k → R x y.
Proof.
  induction l as [|z l IH]; simpl; intros S Hx Hy; [by apply not_elem_of_nil in Hx|].
  apply StronglySorted_inv in S as [S F]. apply elem_of_cons in Hx as [->|Hx]; [|by apply IH].
  rewrite Forall_forall in F. apply F, elem_of_app. by right.
Qed.

Lemma StronglySorted_filter {A} (R : relation A) (Q : A → Prop) `{!∀ x, Decision (Q x)} l :
  StronglySorted R l → StronglySorted R (filter Q l).
Proof.
  induction 1 as [|x l S IH F]; simpl; [constructor|]. rewrite filter_cons. case_decide; [|done].
  constructor; [done|]. apply Forall_forall. intros y [_ Hy]%list_elem_of_filter. rewrite Forall_forall in F. by apply F.
Qed.

Lemma last_elem {A} (l : list A) x : last l = Some x → x ∈ l.
Proof. intros [l' ->]%last_Some. apply elem_of_app. right. by apply list_elem_of_singleton. Qed.

Lemma disjoint_swap {A} (l k : list A) : l ## k → k ## l.
Proof. intros D x Hk Hl. by apply (D x). Qed.
Lemma nil_disjoint_l {A} (l : list A) : [] ## l.
Proof. by intros x ?%not_elem_of_nil. Qed.
Lemma nil_disjoint_r {A} (l : list A) : l ## [].
Proof. by intros x _ ?%not_elem_of_nil. Qed.

Section rows.
Context {D T : Type}.
Implicit Types (row : Row D T) (table : list (Row D T)).

(** ** Tables sorted by id *)

Definition id_lt (row other : Row D T) : Prop := (row_id row < row_id other)%Z.
Definition upto (s : Z) table : list (Row D T) := filter (λ row, (row_id row ≤ s)%Z) table.
Definition after (s : Z) table : list (Row D T) := filter (λ row, (s < row_id row)%Z) table.

Lemma id_lt_NoDup table : StronglySorted id_lt table → NoDup (row_id <$> table).
Proof.
  induction 1 as [|row table S IH F]; simpl; [constructor|]. constructor; [|done].
  intros (other & E & Ho)%list_elem_of_fmap. rewrite Forall_forall in F. specialize (F _ Ho). unfold id_lt in F. lia.
Qed.

Lemma NoDup_ids_inj table row other :
  NoDup (row_id <$> table) → row ∈ table → other ∈ table → row_id row = row_id other → row = other.
Proof.
  induction table as [|x table IH]; simpl; intros N Hr Ho E; [by apply not_elem_of_nil in Hr|].
  apply NoDup_cons in N as [Nx N]. apply elem_of_cons in Hr as [->|Hr], Ho as [->|Ho]; [done|..|by apply IH].
  - destruct Nx. rewrite E. by apply list_elem_of_fmap_2.
  - destruct Nx. rewrite <- E. by apply list_elem_of_fmap_2.
Qed.

Lemma order_by_id_perm table : order_by_id table ≡ₚ table.
Proof. apply merge_sort_Permutation. Qed.

Lemma order_by_id_le table : StronglySorted row_le (order_by_id table).
Proof.
  apply StronglySorted_merge_sort.
  - intros x y z. unfold row_le. lia.
  - intros x y. unfold row_le. lia.
Qed.

Lemma order_by_id_sorted table : StronglySorted id_lt table → order_by_id table = table.
Proof.
  intros S. apply (StronglySorted_unique_strong row_le).
  - intros x y Hx Hy. unfold row_le. intros. rewrite order_by_id_perm in Hx.
    eapply NoDup_ids_inj; [by apply id_lt_NoDup|done..|lia].
  - apply order_by_id_le.
  - clear -S. induction S as [|x l S IH F]; constructor; [done|]. eapply Forall_impl; [done|]. unfold id_lt, row_le. intros. lia.
  - apply order_by_id_perm.
Qed.

Lemma foldl_max_spec ids z :
  (z ≤ foldl Z.max z ids)%Z ∧ Forall (λ id, (id ≤ foldl Z.max z ids)%Z) ids ∧ (foldl Z.max z ids = z ∨ foldl Z.max z ids ∈ ids).
Proof.
  revert z. induction ids as [|id ids IH]; intros z; simpl; [split_and!; [lia|constructor|by left]|].
  destruct (IH (Z.max z id)) as (H1 & H2 & H3). split_and!; [lia|constructor; [lia|done]|].
  destruct H3 as [->|H3]; [|right; by right]. destruct (Z.max_spec z id) as [[_ ->]|[_ ->]]; [right; by left|by left].
Qed.

Lemma max_id_above table row : row ∈ table → (row_id row ≤ max_id table)%Z.
Proof.
  intros Hr%(list_elem_of_fmap_2 row_id). unfold max_id. destruct (row_id <$> table) as [|id ids]; [by apply not_elem_of_nil in Hr|].
  destruct (foldl_max_spec ids id) as (H1 & H2 & _). rewrite Forall_forall in H2.
  apply elem_of_cons in Hr as [->|Hr]; [done|by apply H2].
Qed.

Lemma max_id_elem table : table ≠ [] → ∃ row, row ∈ table ∧ row_id row = max_id table.
Proof.
  intros N. unfold max_id. destruct (row_id <$> table) as [|id ids] eqn:E; [by apply fmap_nil_inv in E|].
  assert (foldl Z.max id ids ∈ row_id <$> table) as (row & -> & Hr)%list_elem_of_fmap; [|eauto].
  rewrite E. destruct (foldl_max_spec ids id) as (_ & _ & [->|H]); [by left|by right].
Qed.

Lemma upto_all s table : Forall (λ row, (row_id row ≤ s)%Z) table → upto s table = table.
Proof. unfold upto. induction 1 as [|row table H F IH]; simpl; [done|]. rewrite filter_cons, decide_True by done. by rewrite IH. Qed.

Lemma upto_none s table : Forall (λ row, (s < row_id row)%Z) table → upto s table = [].
Proof. unfold upto. induction 1 as [|row table H F IH]; simpl; [done|]. rewrite filter_cons, decide_False by lia. done. Qed.

Lemma after_none s table : Forall (λ row, (row_id row ≤ s)%Z) table → after s table = [].
Proof. unfold after. induction 1 as [|row table H F IH]; simpl; [done|]. rewrite filter_cons, decide_False by lia. done. Qed.

Lemma after_all s table : Forall (λ row, (s < row_id row)%Z) table → after s table = table.
Proof. unfold after. induction 1 as [|row table H F IH]; simpl; [done|]. rewrite filter_cons, decide_True by done. by rewrite IH. Qed.

Lemma upto_app s table rows : upto s (table ++ rows) = upto s table ++ upto s rows.
Proof. apply filter_app. Qed.
Lemma after_app s table rows : after s (table ++ rows) = after s table ++ after s rows.
Proof. apply filter_app. Qed.

Lemma sorted_cons_above row table : StronglySorted id_lt (row :: table) → Forall (λ other, (row_id row < row_id other)%Z) table.
Proof. by intros [_ F]%StronglySorted_inv. Qed.

(** The first row after [s] is the next one up to its id. *)
Lemma after_cons s table row rows :
  StronglySorted id_lt table → after s table = row :: rows →
  upto (row_id row) table = upto s table ++ [row] ∧ after (row_id row) table = rows ∧ (s < row_id row)%Z.
Proof.
  induction 1 as [|x table S IH F]; [done|]. unfold after, upto in *. rewrite !filter_cons.
  fold (after s table) (upto s table) (upto (row_id row) table) (after (row_id row) table) in *.
  destruct (decide (s < row_id x)%Z) as [L|L].
  - intros [= -> <-]. rewrite decide_True, (decide_False (P := (row_id row < row_id row)%Z)), (decide_False (P := (row_id row ≤ s)%Z)) by lia.
    rewrite (after_all (row_id row)), (after_all s), (upto_none s), (upto_none (row_id row)); [done|..];
      (eapply Forall_impl; [exact F|]; unfold id_lt; simpl; intros; lia).
  - intros E. destruct (IH E) as (-> & -> & Hs). split_and!; [|by rewrite decide_False by lia|done].
    rewrite decide_True by lia. by rewrite (decide_True (P := (row_id x ≤ s)%Z)) by lia.
Qed.

Lemma fetch_rows_sorted s n table : StronglySorted id_lt table → fetch_rows s n table = take n (after s table).
Proof. intros S. unfold fetch_rows. rewrite order_by_id_sorted; [done|]. by apply StronglySorted_filter. Qed.
End rows.

(** ** What events do to one entity *)

Section entity.
Context {P J D T : Type} `{!Database J D T}.
Variable item_parser : string → option (J → option (Item P)).
Variable to_value : Item P → J.
Context `{!LogLaws item_parser to_value}.
Variable k : HistoryEntityKey.
Implicit Types (registry : StoreRegistry P) (event : LogEvent J) (row : Row D T) (table : list (Row D T)) (item : Item P).

Definition effect event : option (option (Item P)) :=
  match le_change_type event with
  | SET => item ← parse_event item_parser event; if decide (item_key item = k) then Some (Some item) else None
  | DEL => id ← json_id (le_item event); if decide ((le_item_type event, id) = k) then Some None else None
  end.

(** The effect of a mutation that is not persisted yet. *)
Definition op_effect (op : MEventType * Item P) : option (option (Item P)) :=
  if decide (item_key op.2 = k) then Some (new_value op.1 op.2) else None.

Definition row_effect row : option (option (Item P)) := from_jsonb (row_event row) ≫= effect.

(** The value the last effect leaves. *)
Definition outcome (effects : list (option (Item P))) : option (Item P) := default None (last effects).

(** The value of the entity that a table stands for. *)
Definition table_value table : option (Item P) := outcome (omap row_effect table).

Definition value_in registry : option (Item P) := lookup_item registry k.1 k.2.

Lemma value_in_reduce registry change item :
  value_in (reduce registry change item) = default (value_in registry) (op_effect (change, item)).
Proof.
  unfold value_in, op_effect. rewrite lookup_reduce. destruct k as [t id]. simpl. by case_decide.
Qed.

Lemma outcome_snoc effects e : outcome (effects ++ [e]) = e.
Proof. unfold outcome. by rewrite last_snoc. Qed.

Lemma value_in_apply host registry event :
  value_in (apply_remote_event item_parser host registry event) =
    if is_my_event host event then value_in registry else default (value_in registry) (effect event).
Proof.
  unfold apply_remote_event, effect. destruct (is_my_event host event); [done|].
  destruct (le_change_type event).
  - destruct (parse_event item_parser event) as [item|]; simpl; [|done].
    change (store_insert registry item) with (reduce registry SET item). by rewrite value_in_reduce.
  - destruct (json_id (le_item event)) as [id|]; simpl; [|done].
    unfold value_in. rewrite !lookup_get_or_create, get_or_create_remove. destruct k as [t i]. simpl.
    destruct (decide (le_item_type event = t)) as [->|N].
    + destruct (decide (id = i)) as [->|N]; [by rewrite lookup_delete_eq, decide_True|].
      rewrite lookup_delete_ne by done. rewrite decide_False; [done|congruence].
    + rewrite decide_False; [done|congruence].
Qed.

(** *** Events and rows that hosts write *)

Definition written_by (host : string) event : Prop :=
  ∃ change item created_at tx, event = event_of to_value host change item created_at tx.

Definition written event : Prop := ∃ host, written_by host event.

Definition row_ok row : Prop := ∃ event, written event ∧ row_of (row_id row) event = Some row.

Lemma effect_event_of host change item created_at tx :
  effect (event_of to_value host change item created_at tx) = op_effect (change, item).
Proof.
  unfold effect, op_effect, parse_event. simpl. destruct change.
  - destruct (value_parses item) as (parse & -> & E). simpl. by rewrite E.
  - by rewrite value_id.
Qed.

Lemma row_of_decodes id event row :
  row_of id event = Some row →
  from_jsonb (row_event row) = Some event ∧ row_id row = id ∧ row_item_type row = le_item_type event ∧
  row_item_id row = default "unknown" (json_id (le_item event)) ∧ row_change_type row = change_text (le_change_type event) ∧
  row_source_id row = le_source_id event.
Proof.
  unfold row_of. destruct (to_jsonb event) as [d|] eqn:E; [|done]. simpl.
  destruct (timestamptz (le_created_at event)); [|done]. simpl. intros [= <-]. simpl. split_and!; [|done..].
  by apply (stored_decodes (item_parser := item_parser) (to_value := to_value)).
Qed.

(** A row of a host: its columns are those of the mutation it stands for. *)
Lemma row_ok_spec row :
  row_ok row → ∃ host change item event,
    from_jsonb (row_event row) = Some event ∧ le_source_id event = Some host ∧ row_source_id row = Some host ∧
    row_key row = item_key item ∧ row_change_type row = change_text change ∧
    row_effect row = op_effect (change, item) ∧
    parse_event item_parser event = Some item.
Proof.
  intros (event & (host & change & item & c & tx & ->) & E).
  apply row_of_decodes in E as (Ed & _ & Et & Ei & Ec & Es). exists host, change, item. eexists.
  split_and!; [exact Ed|done|done| |done| |].
  - unfold row_key, item_key. rewrite Et, Ei. simpl. by rewrite value_id.
  - unfold row_effect. rewrite Ed. apply effect_event_of.
  - unfold parse_event. simpl. destruct (value_parses item) as (parse & -> & Ep). done.
Qed.

Lemma row_effect_other row : row_ok row → row_key row ≠ k → row_effect row = None.
Proof.
  intros (host & change & item & event & _ & _ & _ & Ek & _ & -> & _)%row_ok_spec N. unfold op_effect. simpl.
  by rewrite decide_False by congruence.
Qed.

Lemma row_effect_own row : row_ok row → row_key row = k → is_Some (row_effect row).
Proof.
  intros (host & change & item & event & _ & _ & _ & Ek & _ & -> & _)%row_ok_spec E. unfold op_effect. simpl.
  rewrite decide_True by congruence. done.
Qed.
End entity.

(** ** Snapshots *)

Section snapshots.
Context {P J D T : Type} `{!Database J D T}.
Variable item_parser : string → option (J → option (Item P)).
Variable to_value : Item P → J.
Context `{!LogLaws item_parser to_value}.
Variable iterate : gmap string (list (Item P)) → list (string * list (Item P)).
Hypothesis iterate_perm : ∀ m, iterate m ≡ₚ map_to_list m.
Implicit Types (registry : StoreRegistry P) (row : Row D T) (table rows : list (Row D T)) (item : Item P)
  (pending : gmap string (list (Item P))) (k : HistoryEntityKey).

Definition pend pending : list (Item P) := concat (map_to_list pending).*2.

Lemma concat_perm {A} (l k : list (list A)) : l ≡ₚ k → concat l ≡ₚ concat k.
Proof.
  induction 1; simpl; [done|by f_equiv| |by etrans]. rewrite !(assoc (++)). by rewrite (comm (++) y).
Qed.

Lemma pend_insert t items pending : pend (<[t:=items]> pending) ≡ₚ items ++ pend (delete t pending).
Proof.
  unfold pend. rewrite <- insert_delete_eq. by rewrite (concat_perm _ _ (fmap_Permutation _ _ _ (map_to_list_insert _ _ _ (lookup_delete_eq _ _)))).
Qed.

Lemma pend_delete t pending : pend pending ≡ₚ default [] (pending !! t) ++ pend (delete t pending).
Proof.
  destruct (pending !! t) as [items|] eqn:E; simpl; [|by rewrite delete_id].
  rewrite <- (insert_id pending t items E) at 1. by rewrite pend_insert.
Qed.

(** The items a load stores, in the order of the rows. *)
Definition loaded (skipped : LogEvent J → bool) rows : list (Item P) :=
  omap (λ row, event ← from_jsonb (row_event row);
               if skipped event then None else parse_event item_parser event) rows.

Lemma queue_event_spec host registry pending event registry' pending' :
  queue_snapshot_event item_parser host (registry, pending) event = (registry', pending') →
  ∃ flushed, registry' = foldl store_insert registry flushed ∧
    flushed ++ pend pending' ≡ₚ
      pend pending ++ option_list (if is_my_event host event then None else parse_event item_parser event).
Proof.
  unfold queue_snapshot_event. destruct (is_my_event host event); simpl.
  { intros [= <- <-]. exists []. by rewrite app_nil_r. }
  destruct (parse_event item_parser event) as [item|]; simpl.
  2:{ intros [= <- <-]. exists []. by rewrite app_nil_r. }
  set (entries := default [] (pending !! item_type item)).
  case_match; intros [= <- <-].
  - exists (entries ++ [item]). split; [done|].
    rewrite pend_insert, (pend_delete (item_type item) pending). fold entries. simpl. solve_Permutation.
  - exists []. split; [done|]. rewrite pend_insert, (pend_delete (item_type item) pending). fold entries. simpl. solve_Permutation.
Qed.

Lemma queue_spec host rows registry pending registry' pending' :
  foldl (λ acc row, match from_jsonb (row_event row) with
                    | Some event => queue_snapshot_event item_parser host acc event
                    | None => acc
                    end) (registry, pending) rows = (registry', pending') →
  ∃ flushed, registry' = foldl store_insert registry flushed ∧
    flushed ++ pend pending' ≡ₚ pend pending ++ loaded (is_my_event host) rows.
Proof.
  revert registry pending. induction rows as [|row rows IH]; intros registry pending; cbn [foldl].
  - intros [= <- <-]. exists []. by rewrite app_nil_r.
  - unfold loaded. cbn [omap list_omap]. destruct (from_jsonb (row_event row)) as [event|]; cbn [mbind option_bind]; [|apply IH].
    destruct (queue_snapshot_event item_parser host (registry, pending) event) as [registry1 pending1] eqn:Q.
    apply queue_event_spec in Q as (flushed1 & -> & H1). intros E. apply IH in E as (flushed & -> & H2).
    exists (flushed1 ++ flushed). split; [by rewrite foldl_app|].
    rewrite <- (assoc (++)), H2, (assoc (++)), H1, <- (assoc (++)). f_equiv.
    destruct (if is_my_event host event then None else parse_event item_parser event); done.
Qed.

Lemma flush_spec registry pending :
  flush_snapshot_entries iterate registry pending = foldl store_insert registry (concat (iterate pending).*2).
Proof.
  unfold flush_snapshot_entries. generalize (iterate pending) as l. intros l. revert registry.
  induction l as [|[t items] l IH]; intros registry; simpl; [done|]. by rewrite IH, foldl_app.
Qed.

Lemma load_rows_spec host registry rows :
  ∃ items, load_rows item_parser iterate host registry rows = foldl store_insert registry items ∧
    items ≡ₚ loaded (is_my_event host) rows.
Proof.
  unfold load_rows, queue_rows. destruct (foldl _ _ _) as [registry' pending] eqn:E.
  apply queue_spec in E as (flushed & -> & Hp). exists (flushed ++ concat (iterate pending).*2). split.
  - by rewrite flush_spec, foldl_app.
  - rewrite (concat_perm _ _ (fmap_Permutation snd _ _ (iterate_perm pending))). rewrite Hp. unfold pend.
    by rewrite map_to_list_empty.
Qed.

(** Items of different entities may be stored in any order. *)
Lemma value_in_foldl k registry items :
  NoDup (item_key <$> items) →
  (∀ item, item ∈ items → item_key item = k → value_in k (foldl store_insert registry items) = Some item) ∧
  ((∀ item, item ∈ items → item_key item ≠ k) → value_in k (foldl store_insert registry items) = value_in k registry).
Proof.
  intros N. unfold value_in. rewrite !lookup_get_or_create, get_or_create_foldl by done. destruct k as [t i]. simpl. split.
  - intros item Hi Ek. destruct (List.find _ items) as [other|] eqn:F.
    + apply List.find_some in F as [Ho Eo%bool_decide_eq_true]. apply list_elem_of_In in Ho. f_equal.
      assert (item_key other = item_key item) as E by congruence. clear -N Hi Ho E.
      induction items as [|x items IH]; [by apply not_elem_of_nil in Hi|]. apply NoDup_cons in N as [Nx N].
      apply elem_of_cons in Hi as [->|Hi], Ho as [->|Ho]; [done|..|by apply IH].
      * destruct Nx. rewrite <- E. by apply list_elem_of_fmap_2.
      * destruct Nx. rewrite E. by apply list_elem_of_fmap_2.
    + eapply List.find_none in F; [|by apply list_elem_of_In]. apply bool_decide_eq_false in F. done.
  - intros H. destruct (List.find _ items) as [other|] eqn:F; [|done].
    apply List.find_some in F as [Ho Eo%bool_decide_eq_true]. apply list_elem_of_In in Ho. by apply H in Ho.
Qed.

Lemma NoDup_omap_keys {A B K : Type} (f : A → option B) (ka : A → K) (kb : B → K) (l : list A) :
  NoDup (ka <$> l) → (∀ x y, x ∈ l → f x = Some y → kb y = ka x) → NoDup (kb <$> omap f l).
Proof.
  induction l as [|x l IH]; intros N H; [constructor|]. csimpl in *. apply NoDup_cons in N as [Nx N].
  assert (NoDup (kb <$> omap f l)) as Nl by (apply IH; [done|intros; apply H; [by right|done]]).
  destruct (f x) as [y|] eqn:E; [|done]. csimpl. constructor; [|done].
  intros (z & Ez & (x' & Hx' & Ez')%list_elem_of_omap)%list_elem_of_fmap. apply Nx.
  rewrite <- (H x y), Ez, (H x' z); [by apply list_elem_of_fmap_2|by right|done|by left|done].
Qed.

Lemma latest_set_rows_elem visible table row :
  row ∈ latest_set_rows visible table ↔
    (row ∈ table ∧ visible row = true) ∧ row_change_type row = "SET" ∧
    ∀ other, other ∈ table → visible other = true → row_key other = row_key row → (row_id other ≤ row_id row)%Z.
Proof.
  unfold latest_set_rows, latest. rewrite order_by_id_perm, !list_elem_of_filter, Forall_forall.
  assert (∀ other, other ∈ filter (λ row, visible row) table ↔ visible other = true ∧ other ∈ table) as H.
  { intros other. by rewrite list_elem_of_filter, Is_true_true. }
  setoid_rewrite H. rewrite Is_true_true. split.
  - intros (E & M & Hv & Hr). split_and!; [done..|]. intros other Ho Vo. by apply M.
  - intros ((Hr & Hv) & E & M). split_and!; [done| |done..]. intros other [Vo Ho]. by apply M.
Qed.

Lemma latest_set_rows_keys visible table :
  NoDup (row_id <$> table) → NoDup (row_key <$> latest_set_rows visible table).
Proof.
  intros N. apply NoDup_fmap_2_strong.
  - intros r s Hr Hs E. apply latest_set_rows_elem in Hr as ((Hr & Vr) & _ & Mr), Hs as ((Hs & Vs) & _ & Ms).
    eapply NoDup_ids_inj; [done..|]. specialize (Mr s Hs Vs (eq_sym E)). specialize (Ms r Hr Vr E). lia.
  - unfold latest_set_rows, latest. rewrite order_by_id_perm. apply NoDup_filter, NoDup_filter, NoDup_filter.
    by apply NoDup_fmap_1 in N.
Qed.

(** The value of an entity in a table is what its last row leaves. *)
Lemma table_value_last k table :
  Forall (row_ok to_value) table →
  table_value item_parser k table =
    match last (filter (λ row, row_key row = k) table) with
    | Some row => default None (row_effect item_parser k row)
    | None => None
    end.
Proof.
  unfold table_value. induction table as [|row table IH] using rev_ind; [done|].
  intros [Ft [Fr _]%Forall_cons]%Forall_app. rewrite omap_app, filter_app. csimpl.
  destruct (decide (row_key row = k)) as [E|E].
  - edestruct (row_effect_own item_parser to_value) as [e Ee]; [exact Fr|exact E|]. rewrite Ee. csimpl.
    assert (filter (λ row, row_key row = k) [row] = [row]) as -> by (by rewrite filter_cons, decide_True).
    by rewrite outcome_snoc, last_snoc, Ee.
  - rewrite (row_effect_other item_parser to_value) by done. csimpl. rewrite filter_cons, decide_False by done.
    rewrite filter_nil, !app_nil_r. by apply IH.
Qed.

(** Storing the latest rows gives every entity the value of the whole history. *)
Lemma latest_rows_value k visible skipped table registry items :
  Forall (row_ok to_value) table → NoDup (row_id <$> table) → value_in k registry = None →
  (∀ row event, row ∈ table → row_key row = k → from_jsonb (row_event row) = Some event → skipped event = false) →
  items ≡ₚ loaded skipped (latest_set_rows visible table) →
  value_in k (foldl store_insert registry items) = table_value item_parser k (order_by_id (filter visible table)).
Proof.
  intros F N V S Hp. set (rows := latest_set_rows visible table) in *.
  assert (∀ row item, row ∈ rows →
    (event ← from_jsonb (row_event row); if skipped event then None else parse_event item_parser event) = Some item →
    item_key item = row_key row) as Hk.
  { intros row item Hr E. apply latest_set_rows_elem in Hr as ((Hr & _) & Ec & _). rewrite Forall_forall in F.
    destruct (row_ok_spec item_parser to_value k row (F _ Hr)) as (h & change & it & event & Ed & _ & _ & Ek & Ec' & _ & Ep).
    rewrite Ed in E. simpl in E. destruct (skipped event); [done|].
    rewrite Ep in E. congruence. }
  assert (NoDup (item_key <$> items)) as Ni.
  { rewrite Hp. unfold loaded. eapply NoDup_omap_keys; [by apply latest_set_rows_keys|]. exact Hk. }
  destruct (value_in_foldl k registry items Ni) as [Hsome Hnone].
  assert (∀ item, item ∈ items ↔ item ∈ loaded skipped rows) as Hi by (intros; by rewrite Hp).
  rewrite table_value_last by (rewrite order_by_id_perm; apply Forall_forall; intros row [_ Hr]%list_elem_of_filter; rewrite Forall_forall in F; by apply F).
  destruct (last _) as [row|] eqn:El.
  - pose proof (last_elem _ _ El) as Hr. rewrite list_elem_of_filter, order_by_id_perm, list_elem_of_filter, Is_true_true in Hr.
    destruct Hr as (Ek & Hv & Hr).
    assert (∀ other, other ∈ table → visible other = true → row_key other = row_key row → (row_id other ≤ row_id row)%Z) as M.
    { intros other Ho Vo Eo. apply last_Some in El as [l El].
      assert (StronglySorted row_le (l ++ [row])) as Sl by (rewrite <- El; apply StronglySorted_filter, order_by_id_le).
      assert (other ∈ l ++ [row]) as Hin.
      { rewrite <- El. rewrite list_elem_of_filter, order_by_id_perm, list_elem_of_filter, Is_true_true. split; [congruence|done]. }
      apply elem_of_app in Hin as [Hin| ->%list_elem_of_singleton]; [|done].
      eapply (StronglySorted_app_lt row_le); [exact Sl|done|by left]. }
    rewrite Forall_forall in F.
    destruct (row_ok_spec item_parser to_value k row (F _ Hr)) as (h & change & it & event & Ed & _ & _ & Ek' & Ec & Ee & Ep).
    rewrite Ee. unfold op_effect. simpl. rewrite decide_True by congruence. simpl. destruct change; simpl.
    + apply Hsome; [|congruence]. apply Hi. unfold loaded. apply list_elem_of_omap. exists row. split.
      * by apply latest_set_rows_elem.
      * rewrite Ed. simpl. by rewrite (S row event).
    + rewrite Hnone; [done|]. intros item Hit Eit. apply Hi in Hit. unfold loaded in Hit.
      apply list_elem_of_omap in Hit as (row' & Hr' & E'). pose proof (Hk _ _ Hr' E') as Ek2.
      apply latest_set_rows_elem in Hr' as ((Hr' & Vr') & Ec2 & M').
      assert (row' = row) as ->.
      { eapply NoDup_ids_inj; [exact N|done..|]. specialize (M row' Hr' Vr'). specialize (M' row Hr Hv).
        assert (row_key row' = row_key row) by congruence. assert (row_key row = row_key row') by congruence. naive_solver lia. }
      by rewrite Ec in Ec2.
  - rewrite Hnone; [done|]. intros item Hit Eit. apply Hi in Hit. unfold loaded in Hit.
    apply list_elem_of_omap in Hit as (row' & Hr' & E'). pose proof (Hk _ _ Hr' E') as Ek2.
    apply latest_set_rows_elem in Hr' as ((Hr' & Vr') & _ & _).
    apply last_None in El. assert (row' ∈ filter (λ row, row_key row = k) (order_by_id (filter visible table))) as Hin.
    { rewrite list_elem_of_filter, order_by_id_perm, list_elem_of_filter, Is_true_true. split; [congruence|done]. }
    rewrite El in Hin. by apply not_elem_of_nil in Hin.
Qed.

(** Applying every row in order. *)
Lemma replay_value k host rows :
  Forall (λ row, row_ok to_value row ∧ row_source_id row ≠ Some host) rows →
  value_in k (foldl (apply_remote_event item_parser host) ∅ (omap (λ row, from_jsonb (row_event row)) rows)) =
    table_value item_parser k rows.
Proof.
  unfold table_value. induction rows as [|row rows IH] using rev_ind; [done|]. intros [F [[Rr Ns] _]%Forall_cons]%Forall_app.
  destruct (row_ok_spec item_parser to_value k row Rr) as (h & change & item & event & Ed & Es & Ers & _ & _ & Ee & _).
  rewrite !omap_app, foldl_app. csimpl. rewrite Ed. csimpl. rewrite value_in_apply. unfold is_my_event.
  rewrite bool_decide_false by congruence. rewrite (IH F).
  assert (row_effect item_parser k row = effect item_parser k event) as -> by (unfold row_effect; by rewrite Ed).
  destruct (effect item_parser k event) as [e|]; csimpl; [by rewrite outcome_snoc|by rewrite app_nil_r].
Qed.

Lemma replayed_rows registry rows :
  foldl (λ registry row,
    match from_jsonb (row_event row) with
    | Some event => match parse_event item_parser event with Some item => store_insert registry item | None => registry end
    | None => registry
    end) registry rows = foldl store_insert registry (loaded (λ _, false) rows).
Proof.
  revert registry. induction rows as [|row rows IH]; intros registry; [done|]. unfold loaded. csimpl. rewrite IH.
  destruct (from_jsonb (row_event row)) as [event|]; csimpl; [|done]. by destruct (parse_event item_parser event).
Qed.
End snapshots.
