(* ===== verification/DurableWorld.v ===== *)
(** * The durable log: hosts that share it

    Invariants of the runs of a [World]: what the events a host has written and still has to
    write say of an entity only it changes, and how far the other hosts are. *)

From stdpp Require Import base strings numbers option countable pretty gmap sets list sorting.
From S2P Require Import Prelude GraphTypes EdgeIds GraphIndex ServerTypes PipelineInvariant DurableLog DurableProof.

Lemma quiet_inv {P J D T} (h0 : option (Host P J D T)) h' (rows : list (Row D T)) drawn :
  (h0 ≫= λ h0, Some (h0, [], 0%Z)) = Some (h', rows, drawn) → h0 = Some h' ∧ rows = [] ∧ drawn = 0%Z.
Proof. destruct h0; [|done]. by intros [= -> <- <-]. Qed.

(** The cases of a step of a running host; the steps that show no rows are simplified. *)
Ltac host_cases step E :=
  destruct step; cbn [host_exec] in E; cbv zeta in E; try done; try (apply quiet_inv in E as (E & -> & ->)).

Section world.
Context {P J D T : Type} `{!Database J D T}.
Variable item_parser : string → option (J → option (Item P)).
Variable to_value : Item P → J.
Context `{!LogLaws item_parser to_value}.
Variable iterate : gmap string (list (Item P)) → list (string * list (Item P)).
Hypothesis iterate_perm : ∀ m, iterate m ≡ₚ map_to_list m.
Implicit Types (registry : StoreRegistry P) (row : Row D T) (table rows : list (Row D T)) (item : Item P)
  (p : Producer J D T) (c : Consumer D T) (h : Host P J D T) (w : World P J D T) (k : HistoryEntityKey)
  (event : LogEvent J) (batch : list (LogEvent J)).

Abbreviation exec := (exec item_parser to_value iterate).
Abbreviation run := (run item_parser to_value iterate).
Abbreviation host_exec := (host_exec item_parser to_value iterate).

Lemma exec_inv step w w' :
  exec step w = Some w' →
  (w_table w' = w_table w ∧ w_next_id w' = w_next_id w ∧ w_hosts w' = <[host_of step := host_new]> (w_hosts w) ∧
   (step = Start (host_of step) ∧ w_hosts w !! host_of step = None ∨ step = Restart (host_of step))) ∨
  ∃ h h' rows drawn, w_hosts w !! host_of step = Some h ∧
    host_exec step (w_table w) (w_next_id w) h = Some (h', rows, drawn) ∧
    w' = mkWorld (w_table w ++ rows) (w_next_id w + drawn) (<[host_of step := h']> (w_hosts w)).
Proof.
  intros E. unfold DurableLog.exec in E.
  assert ((step = Start (host_of step) ∨ step = Restart (host_of step)) ∨
    (h ← w_hosts w !! host_of step; '(h', rows, drawn) ← host_exec step (w_table w) (w_next_id w) h;
     Some (mkWorld (w_table w ++ rows) (w_next_id w + drawn) (<[host_of step := h']> (w_hosts w)))) = Some w') as [H|H].
  { destruct step; simpl in *; eauto; right; destruct (w_hosts w !! host); done. }
  - left. destruct H as [H|H]; rewrite H in E; simpl in E; destruct (w_hosts w !! host_of step) eqn:Eh; simplify_eq/=; eauto 10.
  - right. destruct (w_hosts w !! host_of step) as [h|] eqn:Eh; [|done]. simpl in H.
    destruct (host_exec _ _ _ h) as [[[h' rows] drawn]|] eqn:Ex; [|done]. simpl in H. injection H as <-. eauto 10.
Qed.

(** The batch a producer has in hand, and everything it has still to write. *)
Definition batch_of p : list (LogEvent J) :=
  match pr_phase p with PIdle batch | PBatch batch | PSent batch _ => batch end.
Definition outbox p : list (LogEvent J) := batch_of p ++ pr_channel p.

(** ** The rows of a batch *)

Lemma insert_event_batch_spec (host : string) n batch rows :
  Forall (written_by to_value host) batch → insert_event_batch n batch = Some rows →
  Forall (row_ok to_value) rows ∧ Forall (λ row, (n ≤ row_id row)%Z) rows ∧
  (λ row, from_jsonb (row_event row)) <$> rows = Some <$> batch ∧ Forall (λ row, row_source_id row = Some host) rows.
Proof.
  revert n rows. induction batch as [|event batch IH]; intros n rows F; simpl.
  - intros [= <-]. auto.
  - apply Forall_cons in F as [Fe F]. destruct (row_of n event) as [row|] eqn:Er; [|done]. simpl.
    destruct (insert_event_batch (n + 1) batch) as [rest|] eqn:Eb; [|done]. simpl. intros [= <-].
    destruct (IH _ _ F Eb) as (H1 & H2 & H3 & H4). pose proof Er as Er'.
    apply (row_of_decodes item_parser to_value) in Er' as (Ed & Ei & _ & _ & _ & Es). split_and!.
    + constructor; [|done]. exists event. split; [by exists host|]. by rewrite Ei.
    + constructor; [lia|]. eapply Forall_impl; [exact H2|]. intros ? Hi. cbv beta in *. lia.
    + csimpl. by rewrite Ed, H3.
    + constructor; [|done]. rewrite Es. by destruct Fe as (? & ? & ? & ? & ->).
Qed.

Lemma omap_decoded {A} (f : LogEvent J → option A) rows batch :
  (λ row, from_jsonb (row_event row)) <$> rows = Some <$> batch →
  omap (λ row, from_jsonb (row_event row) ≫= f) rows = omap f batch.
Proof.
  revert batch. induction rows as [|row rows IH]; intros [|event batch]; csimpl; try done.
  intros [= E1 E2]. rewrite E1. csimpl. by rewrite (IH batch E2).
Qed.

(** ** What a step does to a producer *)

(** The statement in flight is the one of the batch. *)
Definition sent_ok p : Prop :=
  match pr_phase p with
  | PSent batch rows => ∃ n, (0 < n)%Z ∧ insert_event_batch n batch = Some rows
  | _ => True
  end.

Lemma collected p p' :
  collect p = Some p' → outbox p' = outbox p ∧ sent_ok p' ∧ pr_receiver p' = pr_receiver p ∧ batch_of p' ≠ [].
Proof.
  unfold collect, outbox, batch_of, sent_ok. destruct (pr_phase p) as [[|e retry]| |]; [|..|done|done].
  - destruct (pr_channel p) as [|e channel]; [done|]. intros [= <-]. simpl. by rewrite take_drop.
  - intros [= <-]. cbn [pr_phase pr_channel pr_receiver app]. split_and!; [|done..]. f_equal. by rewrite <- (assoc (++)), take_drop.
Qed.

Lemma execute_spec connects next p p' :
  (0 < next)%Z → execute connects next p = Some p' →
  outbox p' = outbox p ∧ sent_ok p' ∧ pr_receiver p' = pr_receiver p ∧
  (∀ batch rows, pr_phase p' = PSent batch rows → insert_event_batch next batch = Some rows).
Proof.
  unfold execute, outbox, batch_of, sent_ok. intros N. destruct (pr_phase p) as [|batch|]; [done| |done].
  destruct (negb _); [intros [= <-]; done|]. destruct (insert_event_batch next batch) as [rows|] eqn:E; intros [= <-]; [|done].
  simpl. split_and!; [done|eauto|done|]. by intros ? ? [= <- <-].
Qed.

Lemma finished outcome p p' rows :
  sent_ok p → finish outcome p = Some (p', rows) →
  sent_ok p' ∧ pr_receiver p' = pr_receiver p ∧
  ∃ n, (0 < n)%Z ∧ insert_event_batch n (match outcome with RolledBack => [] | _ => batch_of p end) = Some rows ∧
  outbox p = (match outcome with Committed => batch_of p | _ => [] end) ++ outbox p'.
Proof.
  unfold finish, sent_ok, outbox, batch_of. destruct (pr_phase p) as [| |batch rows0]; [done..|].
  intros (n & Hn & E). destruct outcome; intros [= <- <-]; simpl; (split_and!; [done..|]); exists n; done.
Qed.

Lemma produce_spec host event p p' r :
  pr_receiver p = true → le_source_id event = Some host → produce host event p = (p', r) →
  outbox p' = outbox p ++ [event] ∧ (sent_ok p → sent_ok p') ∧ pr_receiver p' = true ∧ batch_of p' = batch_of p.
Proof.
  unfold produce, outbox, batch_of, sent_ok. intros -> ->. intros [= <- <-]. simpl. by rewrite (assoc (++)).
Qed.

(** ** What hosts write *)

(** The events in a producer are those of its host. *)
Record sends_ok (name : string) p : Prop := {
  se_outbox : Forall (written_by to_value name) (outbox p);
  se_sent : sent_ok p;
  se_receiver : pr_receiver p = true
}.

(** The event a step hands to the producer. *)
Definition given (step : Step P) h : list (LogEvent J) :=
  match step with
  | Persist host n created_at tx =>
      match h_unpersisted h !! n with
      | Some (change, item) => [event_of to_value host change item created_at tx]
      | None => []
      end
  | _ => []
  end.

Definition loses_reply (step : Step P) : bool := match step with Finish _ ReplyLost => true | _ => false end.

(** A step may put the batch in hand into the table, and may let go of it; the rest of the
    outbox stays as it is, up to the event it is given. *)
Lemma host_exec_sends step table next h h' rows drawn :
  (0 < next)%Z → host_exec step table next h = Some (h', rows, drawn) → sends_ok (host_of step) (h_producer h) →
  sends_ok (host_of step) (h_producer h') ∧
  ∃ n sent acked, (0 < n)%Z ∧ insert_event_batch n sent = Some rows ∧
    (sent = [] ∨ sent = batch_of (h_producer h)) ∧ (acked = [] ∨ acked = sent) ∧
    (loses_reply step = false → acked = sent) ∧
    outbox (h_producer h) ++ given step h = acked ++ outbox (h_producer h').
Proof.
  intros Hn E H.
  assert (outbox (h_producer h) ++ given step h = outbox (h_producer h') → sent_ok (h_producer h') →
    pr_receiver (h_producer h') = pr_receiver (h_producer h) → Forall (written_by to_value (host_of step)) (given step h) →
    rows = [] →
    sends_ok (host_of step) (h_producer h') ∧
    ∃ n sent acked, (0 < n)%Z ∧ insert_event_batch n sent = Some rows ∧
      (sent = [] ∨ sent = batch_of (h_producer h)) ∧ (acked = [] ∨ acked = sent) ∧
      (loses_reply step = false → acked = sent) ∧
      outbox (h_producer h) ++ given step h = acked ++ outbox (h_producer h')) as quiet.
  { intros Eo Se Er Fg ->. destruct H. split.
    - constructor; [|done|by rewrite Er]. rewrite <- Eo. by apply Forall_app.
    - exists 1%Z, [], []. split_and!; [lia|done|by left|by left|done|done]. }
  destruct H as [Ho Hs Hr].
  host_cases step E; cbn [given host_of loses_reply] in quiet |- *; rewrite ?app_nil_r in quiet |- *.
  - injection E as <-. by apply quiet.
  - unfold persist_step in E. destruct (h_unpersisted h !! n) as [[change item]|]; [|done]. simpl in E. injection E as <-. simpl in *.
    set (event := event_of to_value host change item created_at tx) in *.
    destruct (produce host event (h_producer h)) as [p' r] eqn:Ep. apply produce_spec in Ep as (Eo & Es & Er & _); [|done|done].
    apply quiet; simpl; [done|by apply Es|by rewrite Er| |done]. constructor; [|done]. by exists change, item, created_at, tx.
  - apply fmap_Some in E as (p & Ep & ->). unfold record_enqueue_step in Ep. destruct (pr_unrecorded _); [done|].
    injection Ep as <-. by apply quiet.
  - apply fmap_Some in E as (p & Ep & ->). apply collected in Ep as (? & ? & ? & _). by apply quiet.
  - destruct (execute connects next (h_producer h)) as [p|] eqn:Ep; [|done]. simpl in E. injection E as <- <- <-.
    apply execute_spec in Ep as (? & ? & ? & _); [|done]. by apply quiet.
  - clear quiet. destruct (finish outcome (h_producer h)) as [[p rows']|] eqn:Ep; [|done]. simpl in E. injection E as <- <- <-.
    destruct (finished _ _ _ _ Hs Ep) as (Hs' & Hr' & n & Hn' & Ei & Eo). simpl. split.
    + constructor; [|done|by rewrite Hr']. rewrite Eo in Ho. by apply Forall_app in Ho as [_ ?].
    + exists n. eexists. exists (match outcome with Committed => batch_of (h_producer h) | _ => [] end).
      split_and!; [done|exact Ei| | | |done]; destruct outcome; auto; done.
  - apply fmap_Some in E as (c & _ & ->). by apply quiet.
  - unfold load_snapshot in E. destruct (co_phase _); try done. destruct broken_after; injection E as <-; by apply quiet.
  - apply fmap_Some in E as (c & _ & ->). by apply quiet.
  - unfold apply_row in E. destruct (co_phase _) as [| | |[|row todo]|]; try done. destruct (from_jsonb _); injection E as <-; by apply quiet.
  - injection E as <-. unfold open_window in *. destruct (entity_history_window_source _ _ _ _); by apply quiet.
  - injection E as <-. by apply quiet.
Qed.

Record writes_ok w : Prop := {
  wr_next : (0 < w_next_id w)%Z;
  wr_rows : Forall (row_ok to_value) (w_table w);
  wr_hosts : ∀ name h, w_hosts w !! name = Some h → sends_ok name (h_producer h)
}.

(** The rows of a step are rows of the host's events. *)
Lemma host_exec_rows step table next h h' rows drawn :
  (0 < next)%Z → host_exec step table next h = Some (h', rows, drawn) → sends_ok (host_of step) (h_producer h) →
  Forall (row_ok to_value) rows ∧ Forall (λ row, (0 < row_id row)%Z) rows ∧
  Forall (λ row, row_source_id row = Some (host_of step)) rows ∧
  ∃ sent, (sent = [] ∨ sent = batch_of (h_producer h)) ∧ (λ row, from_jsonb (row_event row)) <$> rows = Some <$> sent.
Proof.
  intros Hn E H. destruct (host_exec_sends _ _ _ _ _ _ _ Hn E H) as (_ & n & sent & acked & Hp & Ei & Hs & _).
  assert (Forall (written_by to_value (host_of step)) sent) as Fs.
  { destruct Hs as [->| ->]; [done|]. destruct H as [Ho _ _]. unfold outbox in Ho. by apply Forall_app in Ho as [? _]. }
  destruct (insert_event_batch_spec _ n sent rows Fs Ei) as (F1 & F2 & F3 & F4). split_and!; [done| |done|eauto].
  eapply Forall_impl; [exact F2|]. simpl. intros. lia.
Qed.

(** ** Ids are used once *)

Definition in_flight p : list (Row D T) := match pr_phase p with PSent _ rows => rows | _ => [] end.

Abbreviation ids rows := (row_id <$> rows).

Record ids_ok w : Prop := {
  io_next : (0 < w_next_id w)%Z;
  io_unique : NoDup (ids (w_table w));
  io_below : Forall (λ id, (0 < id < w_next_id w)%Z) (ids (w_table w));
  io_flight : ∀ name h, w_hosts w !! name = Some h →
    NoDup (ids (in_flight (h_producer h))) ∧ Forall (λ id, (0 < id < w_next_id w)%Z) (ids (in_flight (h_producer h))) ∧
    ids (w_table w) ## ids (in_flight (h_producer h));
  io_apart : ∀ name other h h', name ≠ other → w_hosts w !! name = Some h → w_hosts w !! other = Some h' →
    ids (in_flight (h_producer h)) ## ids (in_flight (h_producer h'))
}.

Lemma insert_event_batch_ids n batch rows :
  insert_event_batch n batch = Some rows → NoDup (ids rows) ∧ Forall (λ id, (n ≤ id < n + len rows)%Z) (ids rows).
Proof.
  revert n rows. induction batch as [|event batch IH]; intros n rows; simpl.
  - intros [= <-]. split; constructor.
  - destruct (row_of n event) as [row|] eqn:Er; [|done]. simpl.
    destruct (insert_event_batch (n + 1) batch) as [rest|] eqn:Eb; [|done]. simpl. intros [= <-].
    apply (row_of_decodes item_parser to_value) in Er as (_ & Ei & _). destruct (IH _ _ Eb) as [N F]. csimpl. rewrite Ei.
    unfold len in *. simpl length. split; constructor; [|done|lia|].
    + intros Hn. rewrite Forall_forall in F. specialize (F _ Hn). simpl in F. lia.
    + eapply Forall_impl; [exact F|]. simpl. intros. lia.
Qed.

(** The rows of a step were in flight, and leave it; those that enter it are new. *)
Lemma host_exec_flight step table next h h' rows drawn :
  host_exec step table next h = Some (h', rows, drawn) →
  (0 ≤ drawn)%Z ∧ (rows = [] ∨ rows = in_flight (h_producer h) ∧ in_flight (h_producer h') = []) ∧
  (in_flight (h_producer h') = [] ∨ in_flight (h_producer h') = in_flight (h_producer h) ∨
   NoDup (ids (in_flight (h_producer h'))) ∧
   Forall (λ id, (next ≤ id < next + drawn)%Z) (ids (in_flight (h_producer h')))).
Proof.
  intros E.
  assert (in_flight (h_producer h') = [] ∨ in_flight (h_producer h') = in_flight (h_producer h) →
    rows = [] → drawn = 0%Z →
    (0 ≤ drawn)%Z ∧ (rows = [] ∨ rows = in_flight (h_producer h) ∧ in_flight (h_producer h') = []) ∧
    (in_flight (h_producer h') = [] ∨ in_flight (h_producer h') = in_flight (h_producer h) ∨
     NoDup (ids (in_flight (h_producer h'))) ∧ Forall (λ id, (next ≤ id < next + drawn)%Z) (ids (in_flight (h_producer h')))))
    as quiet.
  { intros Q -> ->. destruct Q; (split_and!; [lia|auto..]). }
  host_cases step E; try (apply quiet; [clear quiet|done..]); try clear quiet.
  - injection E as <-. by right.
  - unfold persist_step in E. destruct (h_unpersisted h !! n) as [[change item]|]; [|done]. simpl in E.
    injection E as <-. right. unfold produce. by destruct (pr_receiver _).
  - apply fmap_Some in E as (p & Ep & ->). unfold record_enqueue_step in Ep.
    destruct (pr_unrecorded _); [done|]. injection Ep as <-. by right.
  - apply fmap_Some in E as (p & Ep & ->). left. unfold collect in Ep.
    destruct (pr_phase (h_producer h)) as [[|e l]| |]; try done; [destruct (pr_channel _); [done|]|]; by injection Ep as <-.
  - destruct (execute connects next (h_producer h)) as [p|] eqn:Ep; [|done]. simpl in E. injection E as <- <- <-. simpl.
    unfold execute in Ep. destruct (pr_phase (h_producer h)) as [|batch|]; try done. injection Ep as <-. unfold in_flight.
    destruct (negb _); simpl; [split_and!; [lia|auto..]|].
    destruct (insert_event_batch next batch) as [rows'|] eqn:Ei; simpl; [|split_and!; [lia|auto..]].
    apply insert_event_batch_ids in Ei. split_and!; [apply len_nonneg|auto|auto].
  - destruct (finish outcome (h_producer h)) as [[p rows']|] eqn:Ep; [|done]. simpl in E. injection E as <- <- <-. simpl.
    unfold finish, in_flight in *. destruct (pr_phase (h_producer h)) as [| |batch sent]; try done.
    split; [lia|]. destruct outcome; injection Ep as <- <-; simpl; auto.
  - apply fmap_Some in E as (c & Ec & ->). by right.
  - unfold load_snapshot in E. destruct (co_phase _); try done. destruct broken_after; injection E as <-; by right.
  - apply fmap_Some in E as (c & Ec & ->). by right.
  - unfold apply_row in E. destruct (co_phase _) as [| | |[|row todo]|]; try done.
    destruct (from_jsonb _); injection E as <-; by right.
  - injection E as <-. unfold open_window. destruct (entity_history_window_source _ _ _ _); by right.
  - injection E as <-. by right.
Qed.

Lemma exec_ids step w w' : exec step w = Some w' → ids_ok w → ids_ok w'.
Proof.
  intros E [Hn Hu Hb Hf Ha]. apply exec_inv in E as [(Et & En & Eh & _)|(h & h' & rows & drawn & Eh & Ex & ->)].
  - constructor; rewrite ?Et, ?En; [done..| |].
    + intros name h. rewrite Eh. intros [[_ <-]|[_ ?]]%lookup_insert_Some; [|by apply (Hf name)].
      split_and!; [constructor|constructor|]. apply nil_disjoint_r.
    + intros name other h h' N. rewrite Eh.
      intros [[_ <-]|[_ E1]]%lookup_insert_Some; [intros _; apply nil_disjoint_l|].
      intros [[_ <-]|[_ E2]]%lookup_insert_Some; [apply nil_disjoint_r|]. by apply (Ha name other).
  - apply host_exec_flight in Ex as (Hd & Hr & Hi). destruct (Hf _ _ Eh) as (F1 & F2 & F3).
    assert (∀ l : list Z, Forall (λ id, (0 < id < w_next_id w)%Z) l → Forall (λ id, (0 < id < w_next_id w + drawn)%Z) l) as Wk.
    { intros l F. eapply Forall_impl; [exact F|]. simpl. intros. lia. }
    assert (∀ l l' : list Z, Forall (λ id, (0 < id < w_next_id w)%Z) l → Forall (λ id, (w_next_id w ≤ id < w_next_id w + drawn)%Z) l' → l ## l') as Ap.
    { intros l l' G G' id Hl Hl'. rewrite Forall_forall in G, G'. specialize (G _ Hl). specialize (G' _ Hl'). simpl in *. lia. }
    assert (∀ l : list Z, l ## ids rows → (ids (w_table w) ## l) → ids (w_table w ++ rows) ## l) as Dj.
    { intros l D1 D2 id. rewrite fmap_app. intros [H|H]%elem_of_app Hl; [by eapply D2|by eapply D1]. }
    constructor; simpl; [lia| | | |].
    + rewrite fmap_app. apply NoDup_app. destruct Hr as [->|[-> _]]; simpl; (split_and!; [done|intros id Hl Hl'|]); try done.
      * by apply not_elem_of_nil in Hl'.
      * constructor.
      * by eapply F3.
    + rewrite fmap_app. apply Forall_app. split; [by apply Wk|]. destruct Hr as [->|[-> _]]; [constructor|by apply Wk].
    + intros name h0 [[_ <-]|[N E0]]%lookup_insert_Some.
      * destruct Hi as [->|[Ei|[Ei Fi]]].
        -- split_and!; [constructor|constructor|]. apply nil_disjoint_r.
        -- rewrite Ei. split_and!; [done|by apply Wk|]. destruct Hr as [->|[-> Er]]; [by rewrite app_nil_r|].
           rewrite <- Ei, Er. apply nil_disjoint_r.
        -- split_and!; [done|eapply Forall_impl; [exact Fi|]; simpl; intros; lia|]. apply Dj; [|by apply Ap].
           apply disjoint_swap. apply Ap; [|done]. destruct Hr as [->|[-> _]]; [constructor|done].
      * destruct (Hf _ _ E0) as (G1 & G2 & G3). split_and!; [done|by apply Wk|]. apply Dj; [|done].
        destruct Hr as [->|[-> _]]; [apply nil_disjoint_r|]. by apply (Ha name (host_of step)).
    + assert (∀ name h0, host_of step ≠ name → w_hosts w !! name = Some h0 →
        ids (in_flight (h_producer h')) ## ids (in_flight (h_producer h0))) as One.
      { intros name h0 N E0. destruct Hi as [->|[->|[_ Fi]]]; [apply nil_disjoint_l|by apply (Ha (host_of step) name)|].
        apply disjoint_swap. apply Ap; [|done]. by apply (Hf name). }
      intros name other h1 h2 N [[<- <-]|[N1 E1]]%lookup_insert_Some [[<- <-]|[N2 E2]]%lookup_insert_Some; [done|..].
      * by apply (One other).
      * apply disjoint_swap. by apply (One name).
      * by apply (Ha name other).
Qed.

Lemma run_ids steps w w' : run steps w = Some w' → ids_ok w → ids_ok w'.
Proof.
  revert w. induction steps as [|step steps IH]; simpl; intros w E H; [by injection E as <-|].
  destruct (exec step w) as [w1|] eqn:E1; [|done]. simpl in E. apply (IH w1); [done|]. by eapply exec_ids.
Qed.

Lemma world_new_ids : ids_ok world_new.
Proof. constructor; simpl; [done|constructor|constructor|done|done]. Qed.
Lemma exec_writes step w w' : exec step w = Some w' → ids_ok w' → writes_ok w → writes_ok w'.
Proof.
  intros E Io [Hn Hr Hh]. apply exec_inv in E as [(Et & En & Eh & _)|(h & h' & rows & drawn & Eh & Ex & ->)].
  - constructor; rewrite ?Et, ?En; [done..|]. rewrite Eh. intros name h [[_ <-]|[_ ?]]%lookup_insert_Some; [|by apply Hh].
    by constructor; [constructor| |].
  - destruct (host_exec_rows _ _ _ _ _ _ _ Hn Ex (Hh _ _ Eh)) as (F & _).
    destruct (host_exec_sends _ _ _ _ _ _ _ Hn Ex (Hh _ _ Eh)) as (Hs & _).
    constructor; simpl; [apply Io|by apply Forall_app|]. intros name h0 [[<- <-]|[_ ?]]%lookup_insert_Some; [done|by apply Hh].
Qed.

Lemma run_writes steps w w' : run steps w = Some w' → ids_ok w → writes_ok w → writes_ok w'.
Proof.
  revert w. induction steps as [|step steps IH]; simpl; intros w E Io H; [by injection E as <-|].
  destruct (exec step w) as [w1|] eqn:E1; [|done]. simpl in E. apply (IH w1); [done|by eapply exec_ids|].
  eapply exec_writes; [done|by eapply exec_ids|done].
Qed.

Lemma world_new_writes : writes_ok world_new.
Proof. by constructor; [|constructor|]. Qed.

(** ** Where a consumer is in the table *)

Definition bounded (s : Z) table : Prop := s = 0%Z ∨ ∃ row, row ∈ table ∧ row_id row = s.

(** The last row it saw is in the table, and the rows it is applying are the next ones. *)
Definition position table c : Prop :=
  match co_phase c with
  | CStarting | CFailed => True
  | CHighWater high_water => bounded high_water table
  | CReading => bounded (co_last_seen_id c) table
  | CApplying rows => bounded (co_last_seen_id c) table ∧ rows `prefix_of` after (co_last_seen_id c) table
  end.

Lemma bounded_above s table rows :
  StronglySorted id_lt (table ++ rows) → Forall (λ row, (0 < row_id row)%Z) rows → bounded s table →
  Forall (λ row, (s < row_id row)%Z) rows.
Proof.
  intros S F [->|(row & Hr & <-)]; [done|]. apply Forall_forall. intros other Ho.
  by apply (StronglySorted_app_lt id_lt table rows).
Qed.

Lemma bounded_grows s table rows : bounded s table → bounded s (table ++ rows).
Proof. intros [->|(row & Hr & <-)]; [by left|]. right. exists row. rewrite elem_of_app. auto. Qed.

Lemma position_grows table rows c : position table c → position (table ++ rows) c.
Proof.
  unfold position. destruct (co_phase c); try done; [apply bounded_grows..|].
  intros [B Pre]. split; [by apply bounded_grows|]. rewrite after_app. by apply prefix_app_r.
Qed.

Lemma read_high_water_position ok table c c' : read_high_water ok table c = Some c' → position table c'.
Proof.
  unfold read_high_water, position. destruct (co_phase c); try done. intros [= <-]. destruct ok; [|done]. simpl.
  destruct table as [|r table]; [by left|]. right. by apply max_id_elem.
Qed.

Lemma fetch_position ok table c c' :
  StronglySorted id_lt table → fetch ok table c = Some c' → position table c → position table c'.
Proof.
  intros S. unfold fetch. destruct (co_phase c) eqn:Ep; try done. intros [= <-] Po. destruct ok; [|done].
  unfold position in *. rewrite Ep in Po. destruct (fetch_rows _ _ _) as [|row rows] eqn:Ef; simpl; [done|].
  split; [done|]. rewrite <- Ef, fetch_rows_sorted by done. apply prefix_take.
Qed.

(** The next row: what the consumer has seen grows by it. *)
Lemma seen_position table row rows c :
  StronglySorted id_lt table → co_phase c = CApplying (row :: rows) → position table c →
  position table (seen row rows c) ∧ row ∈ table ∧ (co_last_seen_id c < row_id row)%Z ∧
  upto (row_id row) table = upto (co_last_seen_id c) table ++ [row].
Proof.
  intros S Ep. unfold position, seen. rewrite Ep. simpl. intros [B [more Pre]].
  destruct (after_cons _ _ _ _ S Pre) as (Eu & Ea & L).
  assert (row ∈ table) as Hr.
  { assert (row ∈ after (co_last_seen_id c) table) as Hr by (rewrite Pre; by left). unfold after in Hr.
    by apply list_elem_of_filter in Hr as [_ Hr]. }
  assert (bounded (row_id row) table) by (right; eauto).
  split_and!; [|done..]. destruct rows; [done|]. split; [done|]. rewrite Ea. by exists more.
Qed.

Lemma host_exec_position step table next h h' rows drawn :
  StronglySorted id_lt table → host_exec step table next h = Some (h', rows, drawn) →
  position table (h_consumer h) → position table (h_consumer h').
Proof.
  intros S E Po. host_cases step E.
  - by injection E as <-.
  - unfold persist_step in E. destruct (h_unpersisted h !! n) as [[change item]|]; [|done]. by injection E as <-.
  - by apply fmap_Some in E as (p & _ & ->).
  - by apply fmap_Some in E as (p & _ & ->).
  - destruct (execute connects next (h_producer h)) as [p|]; [|done]. simpl in E. by injection E as <- _ _.
  - destruct (finish outcome (h_producer h)) as [[p rows']|]; [|done]. simpl in E. by injection E as <- _ _.
  - apply fmap_Some in E as (c & Ec & ->). by eapply read_high_water_position.
  - unfold load_snapshot in E. unfold position in Po |- *. destruct (co_phase _); try done. by destruct broken_after; injection E as <-.
  - apply fmap_Some in E as (c & Ec & ->). by eapply fetch_position.
  - unfold apply_row in E. destruct (co_phase _) as [| | |[|row todo]|] eqn:Ep; try done.
    destruct (seen_position table row todo _ S Ep Po) as [Po' _]. destruct (from_jsonb _); by injection E as <-.
  - injection E as <-. unfold open_window. by destruct (entity_history_window_source _ _ _ _).
  - by injection E as <-.
Qed.

Definition placed w : Prop := ∀ name h, w_hosts w !! name = Some h → position (w_table w) (h_consumer h).

Lemma exec_placed step w w' : exec step w = Some w' → StronglySorted id_lt (w_table w') → placed w → placed w'.
Proof.
  intros E S Po. unfold placed. apply exec_inv in E as [(Et & _ & Eh & _)|(h & h' & rows & drawn & Eh & Ex & ->)].
  - rewrite Et, Eh. intros name h [[_ <-]|[_ ?]]%lookup_insert_Some; [done|by apply (Po name)].
  - simpl in *. intros name h0 [[_ <-]|[_ E0]]%lookup_insert_Some; apply position_grows; [|by apply (Po name)].
    eapply host_exec_position; [by eapply StronglySorted_app_inv_l|exact Ex|by eapply Po].
Qed.

(** A condition on the steps of a run. *)
Fixpoint along (cond : Step P → World P J D T → bool) (steps : list (Step P)) w : bool :=
  match steps with
  | [] => true
  | step :: steps => cond step w && match exec step w with Some w => along cond steps w | None => true end
  end.

(** ** One entity that only one host changes *)

Section entity.
Variable k : HistoryEntityKey.
Variable W : string.

Abbreviation effect := (effect item_parser k).
Abbreviation row_effect := (row_effect item_parser k).
Abbreviation op_effect := (op_effect (P := P) k).

(** The store of a host that does not change the entity shows what it has read. *)
Definition shows table h : Prop :=
  match co_phase (h_consumer h) with
  | CStarting | CHighWater _ => value_in k (h_registry h) = None
  | CReading | CApplying _ =>
      value_in k (h_registry h) = table_value item_parser k (upto (co_last_seen_id (h_consumer h)) table)
  | CFailed => True
  end.

(** The store of the host that does shows what it has written and has still to write. *)
Definition leads table h : Prop :=
  value_in k (h_registry h) =
    outcome (omap row_effect table ++ omap effect (outbox (h_producer h)) ++ omap op_effect (h_unpersisted h)).

Record host_ok table (name : string) h : Prop := {
  ho_leads : name = W → leads table h;
  ho_follows : name ≠ W →
    omap effect (outbox (h_producer h)) = [] ∧ omap op_effect (h_unpersisted h) = [] ∧ shows table h
}.

Record table_ok table : Prop := {
  to_rows : Forall (row_ok to_value) table;
  to_source : Forall (λ row, row_key row = k → row_source_id row = Some W) table
}.

(** The conditions on a run: the entity is changed by [W] alone and by mutations that are
    persisted, in the order they were made, and [W] does not start again under its id. *)
Definition orderly (step : Step P) w : bool :=
  match step with
  | Restart host => bool_decide (host ≠ W)
  | Reduce host change item origin => negb (bool_decide (item_key item = k)) || (bool_decide (host = W) && should_produce origin)
  | Persist host n _ _ =>
      match w_hosts w !! host ≫= λ h, h_unpersisted h !! n with
      | Some op =>
          negb (bool_decide (item_key op.2 = k)) ||
          forallb (λ other, negb (bool_decide (item_key other.2 = k)))
            (take n (default [] (h_unpersisted <$> w_hosts w !! host)))
      | None => true
      end
  | _ => true
  end.

Lemma row_source_decoded row event :
  row_ok to_value row → from_jsonb (row_event row) = Some event → le_source_id event = row_source_id row.
Proof.
  intros (host & _ & _ & event' & Ed & Es & Er & _)%(row_ok_spec item_parser to_value k) E. congruence.
Qed.

(** *** Tables that grow *)

Lemma shows_grows table rows h :
  StronglySorted id_lt (table ++ rows) → Forall (λ row, (0 < row_id row)%Z) rows → position table (h_consumer h) →
  shows table h → shows (table ++ rows) h.
Proof.
  intros S F Po. unfold shows, position in *. rewrite upto_app.
  destruct (co_phase (h_consumer h)); try done; intros ->; rewrite (upto_none _ rows), app_nil_r; try done;
    eapply bounded_above; try done; by destruct Po.
Qed.

Lemma omap_none_Forall {A B} (f : A → option B) l : omap f l = [] ↔ Forall (λ x, f x = None) l.
Proof.
  induction l as [|x l IH]; csimpl; [done|]. rewrite Forall_cons. destruct (f x); csimpl; [split; [done|by intros [? ?]]|].
  rewrite IH. tauto.
Qed.

Lemma host_grows table rows name h :
  StronglySorted id_lt (table ++ rows) → Forall (λ row, (0 < row_id row)%Z) rows →
  position table (h_consumer h) →
  (name = W → omap row_effect rows = []) → host_ok table name h → host_ok (table ++ rows) name h.
Proof.
  intros S F Po N []. constructor.
  - intros E. unfold leads. rewrite omap_app, (N E), app_nil_r. by apply ho_leads0.
  - intros E. destruct (ho_follows0 E) as (? & ? & ?). eauto using shows_grows.
Qed.

(** *** The steps of a host *)

Lemma op_effect_other op : item_key op.2 ≠ k → op_effect op = None.
Proof. intros N. unfold DurableProof.op_effect. by rewrite decide_False. Qed.

Lemma shows_same table h h' :
  value_in k (h_registry h') = value_in k (h_registry h) → h_consumer h' = h_consumer h → shows table h → shows table h'.
Proof. unfold shows. intros -> ->. done. Qed.

Lemma host_same table name h h' :
  host_ok table name h →
  value_in k (h_registry h') = value_in k (h_registry h) → h_unpersisted h' = h_unpersisted h →
  outbox (h_producer h') = outbox (h_producer h) →
  (name ≠ W → shows table h → shows table h') →
  host_ok table name h'.
Proof.
  intros [] V U O Fo. constructor; rewrite ?O.
  - intros E. unfold leads. rewrite V, U, O. by apply ho_leads0.
  - intros E. rewrite U. destruct (ho_follows0 E) as (? & ? & ?). auto.
Qed.

Lemma reduce_step_ok table name change item origin h :
  (item_key item = k → name = W ∧ should_produce origin = true) →
  host_ok table name h → host_ok table name (reduce_step change item origin h).
Proof.
  intros O []. unfold reduce_step. constructor; simpl.
  - intros E. unfold leads. simpl. rewrite value_in_reduce, (ho_leads0 E).
    destruct (decide (item_key item = k)) as [Ek|Ek].
    + destruct (O Ek) as [_ ->]. assert (op_effect (change, item) = Some (new_value change item)) as Eop.
      { unfold DurableProof.op_effect. simpl. by rewrite decide_True. }
      rewrite omap_app. csimpl. rewrite Eop. csimpl. by rewrite !(assoc (++)), outcome_snoc.
    + rewrite op_effect_other by done. simpl. destruct (should_produce origin); [|done].
      rewrite omap_app. csimpl. rewrite op_effect_other by done. csimpl. by rewrite app_nil_r.
  - intros E. assert (item_key item ≠ k) as Ek by (intros Ek; by destruct (O Ek)).
    destruct (ho_follows0 E) as (H1 & H2 & H3). split_and!; [done| |].
    + destruct (should_produce origin); [|done]. rewrite omap_app, H2. csimpl. by rewrite op_effect_other.
    + apply (shows_same _ h); [|done|exact H3]. simpl. by rewrite value_in_reduce, op_effect_other.
Qed.

Lemma persist_ok table name n created_at tx h h' :
  (∀ op, h_unpersisted h !! n = Some op → item_key op.2 = k →
    Forall (λ other, item_key other.2 ≠ k) (take n (h_unpersisted h))) →
  persist_step to_value name n created_at tx h = Some h' → pr_receiver (h_producer h) = true →
  host_ok table name h → host_ok table name h'.
Proof.
  intros O. unfold persist_step. destruct (h_unpersisted h !! n) as [[change item]|] eqn:E; [|done]. simpl. intros [= <-] Rc [].
  set (event := event_of to_value name change item created_at tx).
  destruct (produce name event (h_producer h)) as [p' r] eqn:Ep.
  apply produce_spec in Ep as (Eo & _); [|done|done].
  assert (effect event = op_effect (change, item)) as Ee by apply (effect_event_of item_parser to_value).
  assert (omap op_effect (delete n (h_unpersisted h)) =
          omap op_effect (take n (h_unpersisted h)) ++ omap op_effect (drop (S n) (h_unpersisted h))) as Ed.
  { by rewrite delete_take_drop, omap_app. }
  assert (omap op_effect (h_unpersisted h) = omap op_effect (take n (h_unpersisted h)) ++
          option_list (op_effect (change, item)) ++ omap op_effect (drop (S n) (h_unpersisted h))) as Eu.
  { rewrite <- (take_drop_middle _ _ _ E) at 1. rewrite omap_app. f_equal. csimpl. by destruct (op_effect _). }
  assert (omap effect [event] = option_list (op_effect (change, item))) as Eev.
  { csimpl. rewrite Ee. by destruct (op_effect _). }
  constructor; simpl.
  - intros EW. unfold leads. simpl. rewrite (ho_leads0 EW), Eo, omap_app, Ed, Eu, Eev. f_equal. f_equal. rewrite <- (assoc (++)). f_equal.
    destruct (decide (item_key item = k)) as [Ek|Ek].
    + assert (omap op_effect (take n (h_unpersisted h)) = []) as ->; [|done]. apply omap_none_Forall.
      eapply Forall_impl; [by apply (O _ eq_refl)|]. intros op. apply op_effect_other.
    + rewrite op_effect_other by done. done.
  - intros EW. destruct (ho_follows0 EW) as (H1 & H2 & H3). rewrite Eu in H2. apply app_eq_nil in H2 as [H2 [H4 H5]%app_eq_nil].
    split_and!; [|by rewrite Ed, H2, H5|done]. by rewrite Eo, omap_app, H1, Eev, H4.
Qed.

Lemma producer_ok table name h p :
  outbox p = outbox (h_producer h) → host_ok table name h → host_ok table name (with_producer h p).
Proof. intros O H. by apply (host_same _ _ h). Qed.

(** A committed batch moves from the outbox to the table. *)
Lemma finish_ok table name o h p rows :
  finish o (h_producer h) = Some (p, rows) → sent_ok (h_producer h) → position table (h_consumer h) →
  Forall (written_by to_value name) (batch_of (h_producer h)) →
  StronglySorted id_lt (table ++ rows) → host_ok table name h → host_ok (table ++ rows) name (with_producer h p).
Proof.
  intros E Hs Po Fb Srt []. destruct (finished _ _ _ _ Hs E) as (_ & _ & n & Hn & Ei & Eo).
  set (written := match o with RolledBack => [] | _ => batch_of (h_producer h) end) in *.
  assert (Forall (written_by to_value name) written) as Fw by (by subst written; destruct o).
  destruct (insert_event_batch_spec name n written rows Fw Ei) as (_ & F2 & F3 & _).
  assert (omap row_effect rows = omap effect written) as Er by (by apply omap_decoded). constructor; simpl.
  - intros EW. unfold leads. simpl. rewrite (ho_leads0 EW), omap_app, Er. unfold outcome.
    destruct o; subst written; simpl in Eo; rewrite ?Eo; csimpl.
    + by rewrite omap_app, <- !(assoc (++)).
    + by rewrite app_nil_r.
    + assert (outbox p = batch_of (h_producer h) ++ pr_channel (h_producer h)) as Eb by (rewrite <- Eo; done).
      rewrite Eb, omap_app, <- !(assoc (++)). by rewrite last_repeat.
  - intros N. destruct (ho_follows0 N) as (H1 & H2 & H3). split_and!; [|done|].
    + rewrite Eo, omap_app in H1. by apply app_eq_nil in H1 as [_ ?].
    + apply (shows_same _ h); [done..|]. apply shows_grows; [done| |done|done].
      eapply Forall_impl; [exact F2|]. simpl. intros. lia.
Qed.

Lemma read_high_water_ok ok table name h c :
  read_high_water ok table (h_consumer h) = Some c → host_ok table name h → host_ok table name (with_consumer h c).
Proof.
  intros E H. apply (host_same _ _ h); [done..|]. intros _. unfold shows, read_high_water in *.
  destruct (co_phase (h_consumer h)); try done. injection E as <-. by destruct ok.
Qed.

Lemma fetch_ok ok table name h c :
  fetch ok table (h_consumer h) = Some c → host_ok table name h → host_ok table name (with_consumer h c).
Proof.
  intros E H. apply (host_same _ _ h); [done..|]. intros _. unfold shows, fetch in *.
  destruct (co_phase (h_consumer h)) eqn:Ep; try done. injection E as <-. destruct ok; simpl; [|by rewrite Ep].
  by destruct (fetch_rows _ _ _).
Qed.

Lemma windows_ok table name h windows : host_ok table name h → host_ok table name (with_windows h windows).
Proof. intros H. by apply (host_same _ _ h). Qed.

Lemma row_effects_app table row : table_value item_parser k (table ++ [row]) = default (table_value item_parser k table) (row_effect row).
Proof.
  unfold table_value. rewrite omap_app. csimpl. destruct (row_effect row) as [e|]; csimpl; [apply outcome_snoc|by rewrite app_nil_r].
Qed.

(** A row of the entity is skipped by its writer and applied by the others. *)
Lemma value_in_remote table name row event registry :
  table_ok table → row ∈ table → from_jsonb (row_event row) = Some event →
  value_in k (apply_remote_event item_parser name registry event) =
    if decide (name = W) then value_in k registry else default (value_in k registry) (row_effect row).
Proof.
  intros [Tr Ts] Hr Ed. rewrite Forall_forall in Tr, Ts. rewrite value_in_apply.
  assert (row_effect row = effect event) as Ee by (unfold DurableProof.row_effect; by rewrite Ed). rewrite Ee.
  unfold is_my_event. rewrite (row_source_decoded row) by auto.
  destruct (decide (row_key row = k)) as [Ek|Ek].
  - rewrite (Ts _ Hr Ek). destruct (decide (name = W)) as [->|N]; [by rewrite bool_decide_true|].
    rewrite bool_decide_false by congruence. done.
  - rewrite (row_effect_other item_parser to_value) in Ee by auto. rewrite <- Ee. simpl. repeat case_match; done.
Qed.

Lemma apply_row_ok oks table name h h' :
  StronglySorted id_lt table → table_ok table → position table (h_consumer h) →
  apply_row item_parser name oks table h = Some h' → host_ok table name h → host_ok table name h'.
Proof.
  intros S To Po E []. unfold apply_row in E.
  destruct (co_phase (h_consumer h)) as [| | |[|row rows]|] eqn:Ep; try done.
  destruct (seen_position _ _ _ _ S Ep Po) as (_ & Hr & _ & Eu). pose proof (to_rows _ To) as Tr. rewrite Forall_forall in Tr.
  destruct (row_ok_spec item_parser to_value k row (Tr _ Hr)) as (_ & _ & _ & event & Ed & _). rewrite Ed in E. injection E as <-.
  pose proof (value_in_remote table name row event (h_registry h) To Hr Ed) as V.
  constructor; unfold leads; simpl; rewrite ?V.
  - intros EW. rewrite decide_True by done. by apply ho_leads0.
  - intros NW. rewrite decide_False in V by done. destruct (ho_follows0 NW) as (H1 & H2 & Vs). split_and!; [done..|].
    unfold shows in *. rewrite Ep in Vs. simpl. rewrite V, Eu, row_effects_app, Vs. by destruct rows.
Qed.

Lemma value_in_foldl_other registry items :
  (∀ item, item ∈ items → item_key item ≠ k) → value_in k (foldl store_insert registry items) = value_in k registry.
Proof.
  revert registry. induction items as [|item items IH]; intros registry H; simpl; [done|].
  rewrite IH by (intros; apply H; by right). change (store_insert registry item) with (reduce registry SET item).
  rewrite value_in_reduce, op_effect_other; [done|]. apply H. by left.
Qed.

(** A snapshot does not load the writer's own rows. *)
Lemma loaded_not_own table rows item :
  table_ok table → (∀ row, row ∈ rows → row ∈ table) → item ∈ loaded item_parser (is_my_event W) rows → item_key item ≠ k.
Proof.
  intros [Tr Ts] Hin Hi Ek. unfold loaded in Hi. apply list_elem_of_omap in Hi as (row & Hr & E). rewrite Forall_forall in Tr, Ts.
  pose proof (Tr _ (Hin _ Hr)) as Rr.
  destruct (row_ok_spec item_parser to_value k row Rr) as (host & change & it & event & Ed & Es & Ers & Ekr & Ec & Ee & Ep).
  rewrite Ed in E. simpl in E. unfold is_my_event in E. destruct (bool_decide _) eqn:Eb; [done|]. apply bool_decide_eq_false in Eb.
  apply Eb. rewrite (row_source_decoded row event) by done. apply Ts; [by apply Hin|]. rewrite Ekr, <- Ek.
  rewrite Ep in E. by injection E as ->.
Qed.

Lemma load_snapshot_ok broken_after table name h h' :
  StronglySorted id_lt table → table_ok table →
  load_snapshot item_parser iterate name broken_after table h = Some h' → host_ok table name h → host_ok table name h'.
Proof.
  intros S To E H. unfold load_snapshot in E. destruct (co_phase (h_consumer h)) as [|hw| | |] eqn:Ep; try done.
  assert (∀ row, row ∈ snapshot_rows hw table → row ∈ table) as Hin.
  { intros row Hr. by apply latest_set_rows_elem in Hr as ((Hr & _) & _). }
  destruct broken_after as [n|]; injection E as <-.
  - set (rows := take n (snapshot_rows hw table)).
    destruct (queue_rows item_parser name (h_registry h) rows) as [registry pending] eqn:Eq.
    apply queue_spec in Eq as (flushed & -> & Hp). destruct H. constructor; simpl; [|intros NW; by destruct (ho_follows0 NW) as (? & ? & _)].
    intros EW. subst name. unfold leads. simpl. rewrite value_in_foldl_other; [by apply ho_leads0|].
    intros item Hi. eapply (loaded_not_own table rows); [done| |].
    + intros row (i & Hr & _)%elem_of_take. apply Hin. by apply list_elem_of_lookup_2 in Hr.
    + assert (item ∈ pend ∅ ++ loaded item_parser (is_my_event W) rows) as Hi' by (rewrite <- Hp; apply elem_of_app; by left).
      by rewrite elem_of_app in Hi'; destruct Hi' as [Hi'|?]; [unfold pend in Hi'; rewrite map_to_list_empty in Hi'; by apply not_elem_of_nil in Hi'|].
  - unfold load_consumer_snapshot.
    destruct (load_rows_spec item_parser iterate iterate_perm name (h_registry h) (snapshot_rows hw table)) as (items & -> & Hp).
    destruct H. constructor; simpl.
    + intros EW. subst name. unfold leads. simpl. rewrite value_in_foldl_other; [by apply ho_leads0|].
      intros item Hi. rewrite Hp in Hi. by eapply (loaded_not_own table).
    + intros NW. destruct (ho_follows0 NW) as (H1 & H2 & H3). unfold shows in H3 |- *. rewrite Ep in H3.
      split_and!; [done..|]. simpl.
      rewrite (latest_rows_value item_parser to_value k (λ row, (row_id row <=? hw)%Z) (is_my_event name) table); [|apply To|by apply id_lt_NoDup|done| |done].
      * f_equal. rewrite order_by_id_sorted by (by apply StronglySorted_filter). apply list_filter_iff. intros row.
        rewrite Is_true_true. apply Z.leb_le.
      * intros row event Hr Ek Ed. unfold is_my_event. apply bool_decide_eq_false. destruct To as [Tr Ts]. rewrite Forall_forall in Tr, Ts.
        rewrite (row_source_decoded row event) by auto. rewrite (Ts _ Hr Ek). congruence.
Qed.

(** What a step of a running host needs of [orderly]. *)
Definition in_order (step : Step P) (name : string) h : Prop :=
  match step with
  | Reduce _ _ item origin => item_key item = k → name = W ∧ should_produce origin = true
  | Persist _ n _ _ =>
      ∀ op, h_unpersisted h !! n = Some op → item_key op.2 = k →
        Forall (λ other, item_key other.2 ≠ k) (take n (h_unpersisted h))
  | _ => True
  end.

Lemma orderly_in_order step w h : orderly step w = true → w_hosts w !! host_of step = Some h → in_order step (host_of step) h.
Proof.
  intros O Eh. destruct step; simpl in *; try done.
  - intros Ek. rewrite bool_decide_true in O by done. simpl in O. apply andb_true_iff in O as [->%bool_decide_eq_true ->]. done.
  - rewrite Eh in O. simpl in O. intros op Eo Ek. rewrite Eo in O. rewrite bool_decide_true in O by done. simpl in O.
    apply Forall_forall. intros other Ho. rewrite forallb_forall in O. specialize (O other (proj1 (list_elem_of_In _ _) Ho)).
    by apply negb_true_iff, bool_decide_eq_false in O.
Qed.

Lemma host_exec_ok step table next h h' rows drawn :
  StronglySorted id_lt (table ++ rows) → table_ok table → position table (h_consumer h) →
  sends_ok (host_of step) (h_producer h) →
  host_exec step table next h = Some (h', rows, drawn) → in_order step (host_of step) h →
  host_ok table (host_of step) h → host_ok (table ++ rows) (host_of step) h'.
Proof.
  intros S To Po [Ho Hs Hr] E O H. pose proof (StronglySorted_app_inv_l _ _ _ S) as St.
  host_cases step E; cbn [host_of in_order] in O, H, Ho |- *; rewrite ?app_nil_r.
  - injection E as <-. by apply reduce_step_ok.
  - by eapply persist_ok.
  - apply fmap_Some in E as (p & Ep & ->). unfold record_enqueue_step in *.
    destruct (pr_unrecorded (h_producer h)); [done|]. simplify_eq. by apply producer_ok.
  - apply fmap_Some in E as (p & Ep & ->). apply collected in Ep as (? & _). by apply producer_ok.
  - destruct (execute connects next (h_producer h)) as [p|] eqn:Ep; [|done]. simpl in E. injection E as <- <- _.
    rewrite app_nil_r. apply producer_ok; [|done]. unfold execute, outbox, batch_of in *. destruct (pr_phase (h_producer h)); try done.
    injection Ep as <-. destruct (negb _); [done|]. by destruct (insert_event_batch next _).
  - destruct (finish outcome (h_producer h)) as [[p rows']|] eqn:Ep; [|done]. simpl in E. injection E as <- <- _.
    eapply finish_ok; [done..| |done|done]. unfold outbox in Ho. by apply Forall_app in Ho as [? _].
  - apply fmap_Some in E as (c & Ec & ->). by eapply read_high_water_ok.
  - by eapply load_snapshot_ok.
  - apply fmap_Some in E as (c & Ec & ->). by eapply fetch_ok.
  - by eapply apply_row_ok.
  - injection E as <-. unfold open_window. destruct (entity_history_window_source _ _ _ _); [|done]. by apply windows_ok.
  - injection E as <-. by apply windows_ok.
Qed.

Record world_ok w : Prop := {
  wo_source : Forall (λ row, row_key row = k → row_source_id row = Some W) (w_table w);
  wo_hosts : ∀ name h, w_hosts w !! name = Some h → host_ok (w_table w) name h;
  wo_absent : w_hosts w !! W = None → omap row_effect (w_table w) = []
}.

Lemma world_new_ok : world_ok world_new.
Proof. by constructor; [constructor| |]. Qed.

Lemma host_new_ok table name : omap row_effect table = [] ∨ name ≠ W → host_ok table name host_new.
Proof.
  intros N. constructor; [|done]. intros EW. destruct N as [N|]; [|done]. unfold leads. simpl. by rewrite N.
Qed.

(** The rows of the other hosts are not about the entity. *)
Lemma host_exec_effects step table next h h' rows drawn :
  (0 < next)%Z → host_exec step table next h = Some (h', rows, drawn) → sends_ok (host_of step) (h_producer h) →
  host_ok table (host_of step) h → host_of step ≠ W → omap row_effect rows = [].
Proof.
  intros Hn E Hs [_ Hf] N. destruct (host_exec_rows _ _ _ _ _ _ _ Hn E Hs) as (_ & _ & _ & sent & Hst & Ed).
  assert (omap row_effect rows = omap effect sent) as -> by (by apply omap_decoded).
  destruct (Hf N) as (H & _ & _). unfold outbox in H. rewrite omap_app in H. apply app_eq_nil in H as [H _].
  by destruct Hst as [->| ->].
Qed.

Lemma source_grows rows name :
  Forall (row_ok to_value) rows → Forall (λ row, row_source_id row = Some name) rows →
  (name ≠ W → omap row_effect rows = []) → Forall (λ row, row_key row = k → row_source_id row = Some W) rows.
Proof.
  intros F1 F3 N. apply Forall_forall. intros row Hr Ek.
  rewrite Forall_forall in F1, F3. rewrite (F3 _ Hr). destruct (decide (name = W)) as [->|NW]; [done|].
  specialize (N NW). apply omap_none_Forall in N. rewrite Forall_forall in N. specialize (N _ Hr).
  destruct (row_effect_own item_parser to_value k row) as [e Ee]; [by apply F1|done|]. congruence.
Qed.

Lemma exec_ok step w w' :
  exec step w = Some w' → orderly step w = true → StronglySorted id_lt (w_table w') → placed w → writes_ok w →
  world_ok w → world_ok w'.
Proof.
  intros E O S Po [Hn Hr Hw] [Ht Hh Ha]. apply exec_inv in E as [(Et & En & Eh & Est)|(h & h' & rows & drawn & Eh & Ex & ->)].
  - constructor; rewrite ?Et; [done| |].
    + intros name h. rewrite Eh. intros [[<- <-]|[_ ?]]%lookup_insert_Some; [|by apply Hh].
      apply host_new_ok. destruct Est as [[_ N]|R].
      * destruct (decide (host_of step = W)) as [EW|]; [|by right]. left. apply Ha. by rewrite <- EW.
      * right. rewrite R in O |- *. simpl in *. by apply bool_decide_eq_true in O.
    + rewrite Eh. intros N. apply lookup_insert_None in N as [N _]. by apply Ha.
  - simpl in S. destruct (host_exec_rows _ _ _ _ _ _ _ Hn Ex (Hw _ _ Eh)) as (F1 & F2 & F3 & _).
    pose proof (host_exec_effects _ _ _ _ _ _ _ Hn Ex (Hw _ _ Eh) (Hh _ _ Eh)) as Ef.
    assert (host_ok (w_table w ++ rows) (host_of step) h') as Hok.
    { eapply host_exec_ok; [done|by constructor|by eapply Po|by apply Hw|done|by eapply orderly_in_order|by apply Hh]. }
    constructor; simpl.
    + apply Forall_app. split; [done|]. by eapply source_grows.
    + intros name h0 [[<- <-]|[N Eh0]]%lookup_insert_Some; [done|].
      apply host_grows; [done..|by apply (Po name)| |by apply Hh]. intros ->. by apply Ef.
    + intros N. apply lookup_insert_None in N as [N NW]. by rewrite omap_app, Ha, Ef.
Qed.

Lemma exec_table step w w' : exec step w = Some w' → w_table w `prefix_of` w_table w'.
Proof. intros [(-> & _)|(h & h' & rows & drawn & _ & _ & ->)]%exec_inv; [done|]. by exists rows. Qed.

Lemma run_table steps w w' : run steps w = Some w' → w_table w `prefix_of` w_table w'.
Proof.
  revert w. induction steps as [|step steps IH]; simpl; intros w E; [by injection E as ->|].
  destruct (exec step w) as [w1|] eqn:E1; [|done]. simpl in E. etrans; [by eapply exec_table|by apply IH].
Qed.

Lemma world_run_ok steps w w' :
  run steps w = Some w' → along orderly steps w = true → StronglySorted id_lt (w_table w') → placed w → ids_ok w → writes_ok w →
  world_ok w → world_ok w'.
Proof.
  revert w. induction steps as [|step steps IH]; simpl; intros w E O S Po Io Wr H; [by injection E as <-|].
  destruct (exec step w) as [w1|] eqn:E1; [|done]. simpl in E. apply andb_true_iff in O as [O O'].
  assert (StronglySorted id_lt (w_table w1)) as S1.
  { apply run_table in E as [rows Er]. rewrite Er in S. by eapply StronglySorted_app_inv_l. }
  assert (ids_ok w1) by (by eapply exec_ids).
  apply (IH w1); [done..|by eapply exec_placed|done|by eapply exec_writes|by eapply exec_ok].
Qed.

(** *** Hosts that have caught up *)

(** Everything the host did is in the table. *)
Definition drained h : Prop := outbox (h_producer h) = [] ∧ h_unpersisted h = [].

(** The consumer waits for rows beyond those of the table. *)
Definition at_head table h : Prop :=
  co_phase (h_consumer h) = CReading ∧ Forall (λ row, (row_id row ≤ co_last_seen_id (h_consumer h))%Z) table.

Lemma drained_value table h : host_ok table W h → drained h → value_in k (h_registry h) = table_value item_parser k table.
Proof.
  intros H [O U]. pose proof (ho_leads _ _ _ H eq_refl) as L. unfold leads in L. rewrite O, U in L. simpl in L.
  by rewrite app_nil_r in L.
Qed.

Lemma at_head_value table name h :
  host_ok table name h → name ≠ W → at_head table h → value_in k (h_registry h) = table_value item_parser k table.
Proof.
  intros H N [Ep Ha]. destruct (ho_follows _ _ _ H N) as (_ & _ & Fo). unfold shows in Fo. rewrite Ep in Fo.
  by rewrite Fo, upto_all.
Qed.
End entity.

End world.
