(* ===== verification/DurableProgress.v ===== *)
(** * The durable log: catching up, delivery and history windows

    A consumer whose reads succeed catches up in a bounded number of steps; a producer loses
    nothing and keeps the order; the windows on the history of an entity show a page of it. *)

From stdpp Require Import base strings numbers option countable pretty gmap sets list sorting.
From S2P Require Import Prelude GraphTypes EdgeIds GraphIndex ServerTypes PipelineInvariant DurableLog DurableProof DurableWorld.

Section progress.
Context {P J D T : Type} `{!Database J D T}.
Variable item_parser : string → option (J → option (Item P)).
Variable to_value : Item P → J.
Context `{!LogLaws item_parser to_value}.
Variable iterate : gmap string (list (Item P)) → list (string * list (Item P)).
Implicit Types (row : Row D T) (table rows : list (Row D T)) (item : Item P)
  (p : Producer J D T) (c : Consumer D T) (h : Host P J D T) (w : World P J D T)
  (event : LogEvent J) (batch : list (LogEvent J)).

Abbreviation exec := (exec item_parser to_value iterate).
Abbreviation run := (run item_parser to_value iterate).
Abbreviation host_exec := (host_exec item_parser to_value iterate).
Abbreviation ids rows := (row_id <$> rows).

(** ** Catching up *)

(** The rows being applied are unread rows of the table, in order; a consumer that ended its
    first pass is caught up. *)
Definition reading_ok table c : Prop :=
  (co_phase c ≠ CFailed → co_initial_done c = true → co_caught_up c = true) ∧
  match co_phase c with
  | CApplying rows =>
      rows ≠ [] ∧ StronglySorted id_lt rows ∧ Forall (λ row, row ∈ table ∧ (co_last_seen_id c < row_id row)%Z) rows
  | _ => True
  end.

Lemma reading_grows table rows c : reading_ok table c → reading_ok (table ++ rows) c.
Proof.
  intros [I R]. split; [done|]. destruct (co_phase c) as [| | |todo|]; try done. destruct R as (N & S & F). split_and!; [done..|].
  eapply Forall_impl; [exact F|]. intros row [Hr ?]. split; [|done]. apply elem_of_app. by left.
Qed.

Lemma fetch_rows_ok s n table :
  NoDup (ids table) →
  StronglySorted id_lt (fetch_rows s n table) ∧ Forall (λ row, row ∈ table ∧ (s < row_id row)%Z) (fetch_rows s n table).
Proof.
  intros N. unfold fetch_rows. set (rows := filter _ table).
  assert (∀ row, row ∈ order_by_id rows → row ∈ table ∧ (s < row_id row)%Z) as Hin.
  { intros row. rewrite order_by_id_perm. subst rows. rewrite list_elem_of_filter. tauto. }
  split.
  - assert (NoDup (ids (order_by_id rows))) as No.
    { rewrite (fmap_Permutation row_id _ _ (order_by_id_perm rows)). subst rows. clear -N.
      induction table as [|row table IH]; [constructor|]. csimpl in N. apply NoDup_cons in N as [Nr N]. rewrite filter_cons.
      case_decide; [|by apply IH]. csimpl. constructor; [|by apply IH].
      intros (r & E & [_ Hr]%list_elem_of_filter)%list_elem_of_fmap. apply Nr. rewrite E. by apply list_elem_of_fmap_2. }
    apply (StronglySorted_app_inv_l _ _ (drop n (order_by_id rows))). rewrite take_drop.
    pose proof (order_by_id_le rows) as S. revert S No. generalize (order_by_id rows) as l. clear.
    induction l as [|row l IH]; intros S No; [constructor|]. apply StronglySorted_inv in S as [S F]. csimpl in No.
    apply NoDup_cons in No as [Nr No]. constructor; [by apply IH|]. apply Forall_forall. intros r Hr.
    rewrite Forall_forall in F. specialize (F _ Hr). unfold row_le, id_lt in *.
    assert (row_id row ≠ row_id r); [|lia]. intros E. apply Nr. rewrite E. by apply list_elem_of_fmap_2.
  - apply Forall_forall. intros row (i & Hr & _)%elem_of_take. apply list_elem_of_lookup_2 in Hr. by apply Hin.
Qed.

Lemma read_high_water_reading ok table c c' : read_high_water ok table c = Some c' → reading_ok table c → reading_ok table c'.
Proof.
  unfold read_high_water. destruct (co_phase c) eqn:Ep; try done. intros [= <-] [I _].
  destruct ok; (split; simpl; [|done]); [|done]. intros _. apply I. by rewrite Ep.
Qed.

Lemma fetch_reading ok table c c' : NoDup (ids table) → fetch ok table c = Some c' → reading_ok table c → reading_ok table c'.
Proof.
  intros N. unfold fetch. destruct (co_phase c) eqn:Ep; try done. intros [= <-] [I R]. destruct ok; [|exact (conj I R)].
  destruct (fetch_rows (co_last_seen_id c) FETCH_LIMIT table) as [|row rows] eqn:Ef.
  - split; [|done]. simpl. intros _ _. destruct (co_initial_done c); [|done]. apply I; [by rewrite Ep|done].
  - split; [simpl; intros _; apply I; by rewrite Ep|]. simpl. rewrite <- Ef. split; [by rewrite Ef|]. by apply fetch_rows_ok.
Qed.

Lemma seen_reading table row rows c :
  co_phase c = CApplying (row :: rows) → reading_ok table c → reading_ok table (seen row rows c).
Proof.
  intros Ep [I R]. rewrite Ep in I, R. destruct R as (_ & [S F]%StronglySorted_inv & [_ Fr]%Forall_cons).
  unfold reading_ok, seen. simpl. destruct rows as [|r rows]; (split; [intros _; by apply I|]); [done|]. split_and!; [done..|].
  rewrite Forall_forall in F, Fr |- *. intros r' Hr. split; [by apply Fr|by apply F].
Qed.

Lemma host_exec_reading step table next h h' rows drawn :
  NoDup (ids table) → host_exec step table next h = Some (h', rows, drawn) →
  reading_ok table (h_consumer h) → reading_ok table (h_consumer h').
Proof.
  intros N E R. host_cases step E.
  - by injection E as <-.
  - unfold persist_step in E. destruct (h_unpersisted h !! n) as [[change item]|]; [|done]. by injection E as <-.
  - by apply fmap_Some in E as (p & _ & ->).
  - by apply fmap_Some in E as (p & _ & ->).
  - destruct (execute connects next (h_producer h)) as [p|]; [|done]. simpl in E. by injection E as <- _ _.
  - destruct (finish outcome (h_producer h)) as [[p rows']|]; [|done]. simpl in E. by injection E as <- _ _.
  - apply fmap_Some in E as (c & Ec & ->). by eapply read_high_water_reading.
  - unfold load_snapshot in E. destruct (co_phase _) eqn:Ep; try done.
    destruct R as [I _]. destruct broken_after; injection E as <-; (split; [|done]); simpl; [done|]. intros _. apply I. by rewrite Ep.
  - apply fmap_Some in E as (c & Ec & ->). by eapply fetch_reading.
  - unfold apply_row in E. destruct (co_phase _) as [| | |[|row todo]|] eqn:Ep; try done.
    destruct (from_jsonb _); injection E as <-; by apply seen_reading.
  - injection E as <-. unfold open_window. by destruct (entity_history_window_source _ _ _ _).
  - by injection E as <-.
Qed.

(** Worlds whose consumers are as above. *)
Definition world_reading w : Prop :=
  ids_ok w ∧ ∀ name h, w_hosts w !! name = Some h → reading_ok (w_table w) (h_consumer h).

Lemma exec_reading step w w' : exec step w = Some w' → world_reading w → world_reading w'.
Proof.
  intros E [Io R]. split; [by eapply exec_ids|].
  apply exec_inv in E as [(Et & _ & Eh & _)|(h & h' & rows & drawn & Eh & Ex & ->)].
  - rewrite Et, Eh. intros name h [[_ <-]|[_ ?]]%lookup_insert_Some; [by split|by apply (R name)].
  - simpl. intros name h0 [[_ <-]|[_ E0]]%lookup_insert_Some; apply reading_grows; [|by apply (R name)].
    eapply host_exec_reading; [by apply Io|exact Ex|by eapply R].
Qed.

Lemma run_reading steps w w' : run steps w = Some w' → world_reading w → world_reading w'.
Proof.
  revert w. induction steps as [|step steps IH]; simpl; intros w E H; [by injection E as <-|].
  destruct (exec step w) as [w1|] eqn:E1; [|done]. simpl in E. apply (IH w1); [done|]. by eapply exec_reading.
Qed.

Lemma world_new_reading : world_reading world_new.
Proof. split; [apply world_new_ids|done]. Qed.

(** The next step of a consumer whose database answers. *)
Definition consumer_step (host : string) c : Step P :=
  match co_phase c with
  | CStarting => ReadHighWater host true
  | CHighWater _ => LoadSnapshot host None
  | CApplying _ => ApplyRow host []
  | CReading | CFailed => Fetch host true
  end.

(** How many steps it is from having caught up. *)
Definition behind table c : nat :=
  match co_phase c with
  | CStarting => 2 * length table + 3
  | CHighWater _ => 2 * length table + 2
  | CReading => 2 * length (after (co_last_seen_id c) table) + 1
  | CApplying _ => 2 * length (after (co_last_seen_id c) table)
  | CFailed => 0
  end.

Lemma after_length s table : length (after s table) ≤ length table.
Proof. unfold after. apply length_filter. Qed.

Lemma after_shrinks s s' table row :
  row ∈ table → (s < row_id row)%Z → (row_id row <= s')%Z → length (after s' table) < length (after s table).
Proof.
  intros Hr L L'. unfold after. induction table as [|x table IH]; [by apply not_elem_of_nil in Hr|]. rewrite !filter_cons.
  assert (length (filter (λ row, (s' < row_id row)%Z) table) ≤ length (filter (λ row, (s < row_id row)%Z) table)) as Le.
  { clear -L L'. induction table as [|y table IH]; [done|]. rewrite !filter_cons. repeat case_decide; simpl; lia. }
  apply elem_of_cons in Hr as [->|Hr].
  - rewrite decide_False, decide_True by lia. simpl. lia.
  - specialize (IH Hr). repeat case_decide; simpl; lia.
Qed.

(** Each of these steps runs, leaves the table and the other hosts alone, and is the last one
    or brings the consumer closer. *)
Lemma consumer_step_runs w host h :
  w_hosts w !! host = Some h → reading_ok (w_table w) (h_consumer h) → co_phase (h_consumer h) ≠ CFailed →
  ∃ h', exec (consumer_step host (h_consumer h)) w = Some (mkWorld (w_table w) (w_next_id w) (<[host := h']> (w_hosts w))) ∧
    co_phase (h_consumer h') ≠ CFailed ∧
    (behind (w_table w) (h_consumer h') < behind (w_table w) (h_consumer h) ∨
     at_head (w_table w) h' ∧ co_caught_up (h_consumer h') = true).
Proof.
  intros Eh [I R] N.
  assert (∀ step h', host_of step = host → host_exec step (w_table w) (w_next_id w) h = Some (h', [], 0%Z) →
    exec step w = Some (mkWorld (w_table w) (w_next_id w) (<[host := h']> (w_hosts w)))) as go.
  { intros step h' Es Ex. unfold DurableLog.exec. rewrite Es, Eh. destruct step; try done; rewrite Ex; simpl;
      by rewrite app_nil_r, Z.add_0_r. }
  unfold consumer_step, behind. destruct (co_phase (h_consumer h)) as [|hw| |[|row rows]|] eqn:Ep; try done.
  - eexists. split; [apply go; [done|]; simpl; unfold read_high_water; by rewrite Ep|]. simpl. split; [done|]. left. lia.
  - eexists. split; [apply go; [done|]; simpl; unfold load_snapshot; by rewrite Ep|]. simpl. split; [done|]. left.
    pose proof (after_length hw (w_table w)). lia.
  - eexists. split; [apply go; [done|]; simpl; unfold fetch; by rewrite Ep|]. simpl.
    destruct (fetch_rows _ _ _) as [|row rows] eqn:Ef; simpl; (split; [done|]); [right|left; lia].
    split; [split; [done|]|].
    + simpl. unfold fetch_rows, FETCH_LIMIT in Ef. apply (f_equal length) in Ef. rewrite length_take, order_by_id_perm in Ef. simpl in Ef.
      apply Forall_forall. intros row Hr. destruct (decide (co_last_seen_id (h_consumer h) < row_id row)%Z) as [L|]; [|lia].
      assert (row ∈ filter (λ row, (co_last_seen_id (h_consumer h) < row_id row)%Z) (w_table w)) as Hf by by apply list_elem_of_filter.
      destruct (filter _ _); [by apply not_elem_of_nil in Hf|]. simpl in Ef. lia.
    + destruct (co_initial_done (h_consumer h)); [|done]. by apply I.
  - by destruct R.
  - destruct R as (_ & _ & [Hr Hs]%Forall_inv).
    assert (∃ h', apply_row item_parser host [] (w_table w) h = Some h' ∧ h_consumer h' = seen row rows (h_consumer h)) as (h' & Ea & Ec).
    { unfold apply_row. rewrite Ep. destruct (from_jsonb (row_event row)); eauto. }
    exists h'. split; [apply go; [done|]; simpl; by rewrite Ea|]. rewrite Ec. unfold seen. simpl.
    pose proof (after_shrinks _ _ _ row Hr Hs (Z.le_refl _)).
    destruct rows; simpl; (split; [done|]); left; lia.
Qed.

Lemma catches_up n w host h :
  world_reading w → w_hosts w !! host = Some h → co_phase (h_consumer h) ≠ CFailed → behind (w_table w) (h_consumer h) ≤ n →
  ∃ steps w' h', length steps ≤ S n ∧ Forall (λ step, ∃ c, step = consumer_step host c) steps ∧ run steps w = Some w' ∧
    w_hosts w' !! host = Some h' ∧ w_table w' = w_table w ∧ (∀ other, other ≠ host → w_hosts w' !! other = w_hosts w !! other) ∧
    at_head (w_table w) h' ∧ co_caught_up (h_consumer h') = true.
Proof.
  revert w h. induction n as [n IH] using lt_wf_ind. intros w h R Eh N Hb.
  destruct (consumer_step_runs w host h Eh (proj2 R _ _ Eh) N) as (h1 & E1 & N1 & Hd).
  set (w1 := mkWorld (w_table w) (w_next_id w) (<[host := h1]> (w_hosts w))) in *.
  assert (w_hosts w1 !! host = Some h1) as Eh1 by (simpl; by rewrite lookup_insert_eq).
  assert (∀ other, other ≠ host → w_hosts w1 !! other = w_hosts w !! other) as Ho by (intros; simpl; by rewrite lookup_insert_ne).
  destruct Hd as [Hd|[Ha Hc]].
  - destruct (IH (behind (w_table w) (h_consumer h1)) ltac:(lia) w1 h1 (exec_reading _ _ _ E1 R) Eh1 N1 (le_n _))
      as (steps & w' & h' & Hl & Fs & Er & Eh' & Et & Hother & Ha & Hc).
    exists (consumer_step host (h_consumer h) :: steps), w', h'. split_and!; [simpl; lia| | |done|done| |done|done].
    + constructor; [eauto|done].
    + simpl. by rewrite E1.
    + intros other No. rewrite Hother by done. by apply Ho.
  - exists [consumer_step host (h_consumer h)], w1, h1. split_and!; [simpl; lia| | |done|done|done|done|done].
    + constructor; [eauto|constructor].
    + simpl. by rewrite E1.
Qed.

(** ** Windows on the history of an entity *)

(** The window shows a page of the table as it was, and has been told of every row of its
    entity that the consumer saw. *)
Definition window_ok table c (v : HistoryWindow J T) : Prop :=
  hw_warning v = None →
  hw_window v = hw_selection v ∧
  ∃ n page, load_entity_history_page (take n table) (hw_key v) (hw_selection v) = Ok page ∧
    hw_entries v = page_entries page ∧ hw_total_count v = hp_total_count page ∧
    Forall (λ row, row_key row = hw_key v → (co_last_seen_id c < row_id row)%Z) (drop n table).

Definition started c : Prop := match co_phase c with CReading | CApplying _ => True | _ => False end.

(** Windows are opened once the consumer is caught up. *)
Record windows_inv table h : Prop := {
  wi_caught_up : co_caught_up (h_consumer h) = true → started (h_consumer h);
  wi_started : h_windows h ≠ [] → started (h_consumer h);
  wi_windows : Forall (window_ok table (h_consumer h)) (h_windows h)
}.

Lemma refresh_ok ok table c v v' : refresh_history_window ok table v = Ok v' → window_ok table c v'.
Proof.
  unfold refresh_history_window, entity_history_page. destruct ok; [|done].
  destruct (load_entity_history_page table (hw_key v) (hw_selection v)) as [page|] eqn:E; [|done]. simpl. intros [= <-] _. simpl.
  split; [done|]. exists (length table), page. rewrite take_ge, drop_ge by done. split_and!; [done..|constructor].
Qed.

Lemma refresh_or_warn_ok ok table c v : window_ok table c (refresh_or_warn ok table v).
Proof.
  unfold refresh_or_warn. destruct (refresh_history_window ok table v) as [v'|error] eqn:E; [by eapply refresh_ok|]. done.
Qed.

Lemma set_window_ok ok table c next v : window_ok table c v → window_ok table c (set_window ok table next v).
Proof. unfold set_window. destruct next; [|done]. intros _. apply refresh_or_warn_ok. Qed.

Lemma window_grows table rows c v :
  StronglySorted id_lt (table ++ rows) → Forall (λ row, (0 < row_id row)%Z) rows → bounded (co_last_seen_id c) table →
  window_ok table c v → window_ok (table ++ rows) c v.
Proof.
  intros S F B V N. destruct (V N) as (Ew & n & page & El & Ee & Et & Fd). split; [done|].
  exists (Nat.min n (length table)), page. rewrite take_app_le by lia. rewrite (drop_app_le table rows) by lia.
  destruct (Nat.min_spec n (length table)) as [[L ->]|[L ->]].
  - split_and!; [done..|]. apply Forall_app. split; [done|]. eapply Forall_impl; [by eapply bounded_above|]. simpl. auto.
  - rewrite take_ge in El by lia. rewrite take_ge by done. split_and!; [done..|]. rewrite drop_all. simpl.
    eapply Forall_impl; [by eapply bounded_above|]. simpl. auto.
Qed.

(** Windows on other entities are not told of a row, and need not be. *)
Lemma on_committed_ok ok table row rows c v :
  StronglySorted id_lt table → co_phase c = CApplying (row :: rows) → position table c →
  window_ok table c v → window_ok table (seen row rows c) (on_committed ok table (row_key row) v).
Proof.
  intros S Ep Po V. unfold on_committed. case_bool_decide as Ek; [apply refresh_or_warn_ok|].
  intros N. destruct (V N) as (Ew & n & page & El & Ee & Et & Fd). split; [done|]. exists n, page. split_and!; [done..|].
  destruct (seen_position _ _ _ _ S Ep Po) as (_ & _ & _ & Eu). apply Forall_forall. intros other Ho Eo. simpl.
  rewrite Forall_forall in Fd. specialize (Fd _ Ho Eo).
  assert (other ∈ table) as Ht by (rewrite <- (take_drop n table); apply elem_of_app; by right). destruct (decide (row_id other ≤ row_id row)%Z) as [L|]; [|lia].
  assert (other ∈ upto (row_id row) table) as Hu by (unfold upto; by apply list_elem_of_filter).
  rewrite Eu in Hu. apply elem_of_app in Hu as [Hu| ->%list_elem_of_singleton]; [|done].
  unfold upto in Hu. apply list_elem_of_filter in Hu as [? _]. lia.
Qed.

(** The condition on a run: windows are opened on hosts that are caught up. *)
Definition opens_when_ready (step : Step P) w : bool :=
  match step with
  | OpenWindow host _ _ _ =>
      match w_hosts w !! host with Some h => co_caught_up (h_consumer h) | None => true end
  | _ => true
  end.

Lemma windows_same table h h' :
  h_consumer h' = h_consumer h → h_windows h' = h_windows h → windows_inv table h → windows_inv table h'.
Proof. intros Ec Ew []. constructor; by rewrite ?Ec, ?Ew. Qed.

Lemma host_exec_windows step table next h h' rows drawn :
  StronglySorted id_lt table → Forall (row_ok to_value) table → position table (h_consumer h) →
  host_exec step table next h = Some (h', rows, drawn) →
  (∀ host ok key window, step = OpenWindow host ok key window → co_caught_up (h_consumer h) = true) →
  windows_inv table h → windows_inv table h'.
Proof.
  intros S Fr Po E O V. host_cases step E.
  - injection E as <-. by apply (windows_same _ h).
  - unfold persist_step in E. destruct (h_unpersisted h !! n) as [[change item]|]; [|done]. injection E as <-. by apply (windows_same _ h).
  - apply fmap_Some in E as (p & _ & ->). by apply (windows_same _ h).
  - apply fmap_Some in E as (p & _ & ->). by apply (windows_same _ h).
  - destruct (execute connects next (h_producer h)) as [p|]; [|done]. simpl in E. injection E as <- _ _. by apply (windows_same _ h).
  - destruct (finish outcome (h_producer h)) as [[p rows']|]; [|done]. simpl in E. injection E as <- _ _. by apply (windows_same _ h).
  - apply fmap_Some in E as (c & Ec & ->). destruct V as [V1 V2 V3]. unfold read_high_water, started in *.
    destruct (co_phase (h_consumer h)) eqn:Ep; try done. injection Ec as <-.
    assert (h_windows h = []) as Ew by (destruct (h_windows h); [done|by destruct V2]).
    constructor; simpl; rewrite ?Ew; [|done|constructor]. destruct ok; simpl; [|done]. intros C. by apply V1 in C.
  - destruct V as [V1 V2 V3]. unfold load_snapshot, started in *.
    destruct (co_phase (h_consumer h)) eqn:Ep; try done.
    assert (h_windows h = []) as Ew by (destruct (h_windows h); [done|by destruct V2]).
    destruct broken_after; injection E as <-; constructor; simpl; rewrite ?Ew; try done; by constructor.
  - apply fmap_Some in E as (c & Ec & ->). unfold fetch in Ec. destruct (co_phase (h_consumer h)) eqn:Ep; try done.
    injection Ec as <-. destruct ok; [|by apply (windows_same _ h)]. destruct V as [V1 V2 V3].
    destruct (fetch_rows _ _ _); constructor; done.
  - unfold apply_row in E. destruct (co_phase (h_consumer h)) as [| | |[|row todo]|] eqn:Ep; try done.
    destruct V as [V1 V2 V3]. assert (started (seen row todo (h_consumer h))) as St by (unfold started, seen; simpl; by destruct todo).
    assert (∀ ok v, window_ok table (h_consumer h) v → window_ok table (seen row todo (h_consumer h)) (on_committed ok table (row_key row) v)) as On.
    { intros ok v Hv. by apply on_committed_ok. }
    destruct (seen_position _ _ _ _ S Ep Po) as (_ & Hr & _). rewrite Forall_forall in Fr.
    destruct (row_ok_spec item_parser to_value (row_key row) row (Fr _ Hr)) as (_ & _ & _ & event & Ed & _).
    rewrite Ed in E. injection E as <-. constructor; simpl; [done|done|].
    apply Forall_lookup. intros i v. rewrite list_lookup_imap. intros (v0 & Ev & ->)%fmap_Some. apply On.
    rewrite Forall_lookup in V3. by eapply V3.
  - injection E as <-. specialize (O _ _ _ _ eq_refl). destruct V as [V1 V2 V3]. specialize (V1 O).
    unfold open_window. destruct (entity_history_window_source ok table key window) as [v|] eqn:Ev; [|done].
    constructor; simpl; [done|done|]. apply Forall_app. split; [done|]. constructor; [|constructor]. by eapply refresh_ok.
  - injection E as <-. destruct V as [V1 V2 V3]. constructor; simpl; [done| |].
    + intros N. apply V2. intros Ew. rewrite Ew in N. by destruct n.
    + apply Forall_alter; [done|]. intros v _ Hv. by apply set_window_ok.
Qed.

Lemma windows_grow table rows h :
  StronglySorted id_lt (table ++ rows) → Forall (λ row, (0 < row_id row)%Z) rows → position table (h_consumer h) →
  windows_inv table h → windows_inv (table ++ rows) h.
Proof.
  intros S F Po [V1 V2 V3]. constructor; [done..|]. destruct (h_windows h) as [|v vs] eqn:Ew; [constructor|].
  assert (started (h_consumer h)) as St by (by apply V2). eapply Forall_impl; [exact V3|]. intros v'. apply window_grows; [done..|].
  unfold started, position in *. destruct (co_phase (h_consumer h)); try done. by destruct Po.
Qed.

Definition world_windows w : Prop := ∀ name h, w_hosts w !! name = Some h → windows_inv (w_table w) h.

Lemma exec_windows step w w' :
  exec step w = Some w' → opens_when_ready step w = true → StronglySorted id_lt (w_table w') → placed w → writes_ok to_value w →
  world_windows w → world_windows w'.
Proof.
  intros E O S Po Wr V. unfold world_windows. apply exec_inv in E as [(Et & _ & Eh & _)|(h & h' & rows & drawn & Eh & Ex & ->)].
  - rewrite Et, Eh. intros name h [[_ <-]|[_ ?]]%lookup_insert_Some; [by constructor; [| |constructor]|by apply (V name)].
  - simpl in *. pose proof (StronglySorted_app_inv_l _ _ _ S) as St.
    destruct (host_exec_rows _ _ _ _ _ _ _ _ _ _ (wr_next _ _ Wr) Ex (wr_hosts _ _ Wr _ _ Eh)) as (_ & F2 & _).
    assert (∀ name h0, name ≠ host_of step → w_hosts w !! name = Some h0 → windows_inv (w_table w ++ rows) h0) as others.
    { intros name h0 _ E0. apply windows_grow; [done..|by apply (Po name)|by apply (V name)]. }
    intros name h0 [[<- <-]|[N E0]]%lookup_insert_Some; [|by apply (others name)].
    apply windows_grow; [done..| |].
    + eapply host_exec_position; [done|exact Ex|by eapply Po].
    + eapply host_exec_windows; [done|apply Wr|by eapply Po|exact Ex| |by eapply V].
      intros host ok key window Es. rewrite Es in O, Eh. simpl in *. by rewrite Eh in O.
Qed.

Lemma run_windows steps w w' :
  run steps w = Some w' → along item_parser to_value iterate opens_when_ready steps w = true → StronglySorted id_lt (w_table w') →
  placed w → ids_ok w → writes_ok to_value w → world_windows w → world_windows w' ∧ placed w'.
Proof.
  revert w. induction steps as [|step steps IH]; simpl; intros w E O S Po Io Wr V; [by injection E as <-|].
  destruct (exec step w) as [w1|] eqn:E1; [|done]. simpl in E. apply andb_true_iff in O as [O O'].
  assert (StronglySorted id_lt (w_table w1)) as S1.
  { apply run_table in E as [rows Er]. rewrite Er in S. by eapply StronglySorted_app_inv_l. }
  assert (ids_ok w1) by (by eapply exec_ids).
  apply (IH w1); [done..|by eapply exec_placed|done|by eapply exec_writes|by eapply exec_windows].
Qed.

(** Rows of other entities are not on the page. *)
Lemma page_of_key (table rows : list (Row D T)) key window :
  Forall (λ row, row_key row ≠ key) rows →
  load_entity_history_page (J := J) (table ++ rows) key window = load_entity_history_page table key window.
Proof.
  intros F. unfold load_entity_history_page. rewrite filter_app.
  assert (filter (λ row, row_key row = key) rows = []) as ->; [|by rewrite app_nil_r].
  induction F; [done|]. rewrite filter_cons, decide_False; done.
Qed.

Lemma window_at_head table h v :
  windows_inv table h → at_head table h → v ∈ h_windows h → hw_warning v = None →
  hw_window v = hw_selection v ∧
  ∃ page, load_entity_history_page table (hw_key v) (hw_selection v) = Ok page ∧
    hw_entries v = page_entries page ∧ hw_total_count v = hp_total_count page.
Proof.
  intros [_ _ V] [_ Ha] Hv N. rewrite Forall_forall in V. destruct (V _ Hv N) as (Ew & n & page & El & Ee & Et & Fd).
  split; [done|]. exists page. split_and!; [|done..]. rewrite <- (take_drop n table), page_of_key; [done|].
  apply Forall_forall. intros row Hr Ek. rewrite Forall_forall in Fd, Ha. specialize (Fd _ Hr Ek).
  assert (row ∈ table) as Ht by (rewrite <- (take_drop n table); apply elem_of_app; by right). specialize (Ha _ Ht). simpl in *. lia.
Qed.

(** ** Delivery *)

Section delivery.
Variable name : string.

(** The events the host's producer was given in a run. *)
Fixpoint handed (steps : list (Step P)) w : list (LogEvent J) :=
  match steps with
  | [] => []
  | step :: steps =>
      (if bool_decide (host_of step = name) then default [] (given to_value step <$> w_hosts w !! name) else []) ++
      match exec step w with Some w => handed steps w | None => [] end
  end.

(** The events of its rows. *)
Definition authored table : list (LogEvent J) :=
  omap (λ row, from_jsonb (row_event row)) (filter (λ row, row_source_id row = Some name) table).

Definition not_restarted (step : Step P) : bool :=
  match step with Restart host => negb (bool_decide (host = name)) | _ => true end.

Definition keeps_reply (step : Step P) : bool := negb (bool_decide (host_of step = name) && loses_reply step).

(** The events of the rows written since the table had [base] rows. *)
Definition authored_since (base : nat) table : list (LogEvent J) := authored (drop base table).

(** What was given is written or waiting, in order; nothing else is written. *)
Definition delivered (base : nat) (replies_kept : bool) (all : list (LogEvent J)) w : Prop :=
  base ≤ length (w_table w) ∧
  match w_hosts w !! name with
  | None => all = [] ∧ authored_since base (w_table w) = []
  | Some h =>
      ∃ acked, all = acked ++ outbox (h_producer h) ∧ acked `sublist_of` authored_since base (w_table w) ∧
        (∀ event, event ∈ authored_since base (w_table w) → event ∈ all) ∧
        (replies_kept = true → authored_since base (w_table w) = acked)
  end.

Lemma authored_app table rows : authored (table ++ rows) = authored table ++ authored rows.
Proof. unfold authored. by rewrite filter_app, omap_app. Qed.

Lemma authored_since_app base table rows :
  base ≤ length table → authored_since base (table ++ rows) = authored_since base table ++ authored rows.
Proof. intros L. unfold authored_since. by rewrite drop_app_le, authored_app. Qed.

Lemma authored_other rows other : other ≠ name → Forall (λ row, row_source_id row = Some other) rows → authored rows = [].
Proof.
  intros N F. unfold authored. induction F as [|row rows E F IH]; [done|]. rewrite filter_cons, decide_False by congruence. done.
Qed.

Lemma authored_own rows sent :
  Forall (λ row, row_source_id row = Some name) rows → (λ row, from_jsonb (row_event row)) <$> rows = Some <$> sent →
  authored rows = sent.
Proof.
  intros F E. unfold authored. assert (filter (λ row, row_source_id row = Some name) rows = rows) as ->.
  { clear E. induction F; [done|]. rewrite filter_cons, decide_True by done. by f_equal. }
  clear F. revert sent E. induction rows as [|row rows IH]; intros [|event sent]; csimpl; try done.
  intros [= E1 E2]. by rewrite E1, (IH _ E2).
Qed.

Lemma exec_delivered base kept all step w w' :
  exec step w = Some w' → not_restarted step = true → writes_ok to_value w →
  delivered base kept all w →
  delivered base (kept && keeps_reply step)
    (all ++ (if bool_decide (host_of step = name) then default [] (given to_value step <$> w_hosts w !! name) else [])) w'.
Proof.
  intros E Nr Wr [Lb Dl]. unfold delivered, keeps_reply in *. apply exec_inv in E as [(Et & _ & Eh & Est)|(h & h' & rows & drawn & Eh & Ex & ->)].
  - rewrite Et, Eh. split; [done|]. destruct (decide (host_of step = name)) as [En|Nn].
    + destruct Est as [[Es N]|Es]; rewrite Es in Nr |- *; simpl in *; rewrite En in *.
      * rewrite N in Dl |- *. destruct Dl as [-> Ea]. rewrite lookup_insert_eq, Ea, bool_decide_true by done. simpl.
        exists []. split_and!; [done|apply sublist_nil_l|by intros ? ?%not_elem_of_nil|done].
      * by rewrite bool_decide_true in Nr.
    + rewrite lookup_insert_ne, bool_decide_false, app_nil_r by done. simpl. by rewrite andb_true_r.
  - destruct (host_exec_rows _ _ _ _ _ _ _ _ _ _ (wr_next _ _ Wr) Ex (wr_hosts _ _ Wr _ _ Eh)) as (_ & _ & Fs & _).
    simpl. split; [rewrite length_app; lia|]. destruct (decide (host_of step = name)) as [En|Nn].
    + destruct (host_exec_sends _ _ _ _ _ _ _ _ _ _ (wr_next _ _ Wr) Ex (wr_hosts _ _ Wr _ _ Eh))
        as (_ & n & sent & acks & Hn & Ei & Hs & Ha & Hk & Eo).
      assert (Forall (written_by to_value name) sent) as Fw.
      { destruct (wr_hosts _ _ Wr _ _ Eh) as [Ho _ _]. rewrite En in Ho. unfold outbox in Ho. apply Forall_app in Ho as [Ho _].
        by destruct Hs as [->| ->]. }
      destruct (insert_event_batch_spec item_parser to_value name n sent rows Fw Ei) as (_ & _ & Ed & _).
      rewrite En in Eh, Fs |- *. rewrite Eh in Dl |- *. rewrite lookup_insert_eq, bool_decide_true by done. simpl.
      destruct Dl as (acked & -> & Su & In & Kp). rewrite authored_since_app, (authored_own rows sent Fs Ed) by done. exists (acked ++ acks).
      split_and!.
      * by rewrite <- !(assoc (++)), Eo.
      * apply sublist_app; [done|]. destruct Ha as [->| ->]; [apply sublist_nil_l|done].
      * intros event [Hin|Hin]%elem_of_app; [apply elem_of_app; left; by apply In|].
        destruct Hs as [->| ->]; [by apply not_elem_of_nil in Hin|]. rewrite !elem_of_app. unfold outbox.
        left. right. apply elem_of_app. by left.
      * intros [Hk1 Hk2]%andb_true_iff. rewrite Kp by done. by rewrite Hk by (by destruct (loses_reply step)).
    + rewrite lookup_insert_ne, bool_decide_false, app_nil_r by done. simpl. rewrite andb_true_r, authored_since_app by done.
      by rewrite (authored_other rows (host_of step)), app_nil_r.
Qed.

Lemma run_delivered base kept all steps w w' :
  run steps w = Some w' → forallb not_restarted steps = true → ids_ok w → writes_ok to_value w →
  delivered base kept all w → delivered base (kept && forallb keeps_reply steps) (all ++ handed steps w) w'.
Proof.
  revert w kept all. induction steps as [|step steps IH]; simpl; intros w kept all E N Io Wr Dl.
  - injection E as <-. by rewrite app_nil_r, andb_true_r.
  - destruct (exec step w) as [w1|] eqn:E1; [|done]. simpl in E. apply andb_true_iff in N as [N N'].
    rewrite (assoc (++)), andb_assoc. assert (ids_ok w1) by (by eapply exec_ids).
    apply (IH w1); [done|done|done|by eapply exec_writes|]. by apply exec_delivered.
Qed.

(** A host that starts, for the first time or again, has been given nothing. *)
Definition starts (step : Step P) : bool :=
  match step with Start host | Restart host => bool_decide (host = name) | _ => false end.

Lemma start_delivered step w w' : exec step w = Some w' → starts step = true → delivered (length (w_table w)) true [] w'.
Proof.
  intros E St. assert (host_of step = name) as En by by (destruct step; try done; apply bool_decide_eq_true in St).
  apply exec_inv in E as [(Et & _ & Eh & _)|(h & h' & rows & drawn & _ & Ex & _)]; [|by destruct step].
  unfold delivered. rewrite Et, Eh, En, lookup_insert_eq. split; [done|].
  assert (authored_since (length (w_table w)) (w_table w) = []) as -> by (unfold authored_since; by rewrite drop_ge).
  exists []. split_and!; [done|apply sublist_nil_l|by intros ? ?%not_elem_of_nil|done].
Qed.
End delivery.
End progress.
