(* ===== verification/DurableTheorems.v ===== *)
(** * The durable log: properties

    Hosts that share a log agree, snapshots are replays, consumers catch up, produced events
    are delivered and history windows show their page; at the end, what the log does not
    keep. *)

From Stdlib Require Import Ascii.
From stdpp Require Import base strings numbers option countable pretty gmap sets list sorting.
From S2P Require Import Prelude GraphTypes EdgeIds GraphIndex GraphQuery Fixtures ServerTypes.
From S2P Require Import DurableLog DurableProof DurableWorld DurableProgress.

(** ** Data

    An item is a string under an id, its JSON the pair of both; the database refuses texts
    with a null character, as [JSONB] does, and reads a timestamp as the length of its text. *)
Module Dx.
Definition Json : Type := string * string.

Definition has_null (s : string) : bool := existsb (λ c, bool_decide (c = "000"%char)) (String.list_ascii_of_string s).

#[global] Instance database : Database Json (LogEvent Json) nat := {
  to_jsonb event := if has_null (le_item event).2 then None else Some event;
  from_jsonb := Some;
  timestamptz text := Some (String.length text);
  timestamptz_le := Nat.leb;
  json_id json := Some json.1
}.

Definition item_parser (t : string) : option (Json → option (Item string)) :=
  Some (λ json, Some (mkItem t json.1 json.2)).
Definition to_value (item : Item string) : Json := (item_id item, item_payload item).

#[global] Instance laws : LogLaws item_parser to_value.
Proof.
  constructor.
  - intros event d. simpl. destruct (has_null _); [done|]. by intros [= ->].
  - intros []. eexists. split; [done|]. done.
  - done.
Qed.

Definition node (id value : string) : Item string := mkItem "Node" id value.
Abbreviation Steps := (list (Step string)).
Abbreviation Worlds := (World string Json (LogEvent Json) nat).
Definition run : Steps → Worlds → option Worlds := run item_parser to_value map_to_list.
Definition after_run (steps : Steps) : Worlds := default world_new (run steps world_new).
Definition stored (w : Worlds) (host id : string) : option string :=
  h ← w_hosts w !! host; item ← lookup_item (h_registry h) "Node" id; Some (item_payload item).

Definition set (host id value : string) : Steps := [Reduce host SET (node id value) Local; Persist host 0 "now" "tx"].
Definition del (host id : string) : Steps := [Reduce host DEL (node id "") Local; Persist host 0 "now" "tx"].
Definition flush (host : string) (outcome : CommitOutcome) : Steps :=
  [Collect host; Execute host true; Finish host outcome].
Definition boot (host : string) : Steps := [Start host; ReadHighWater host true; LoadSnapshot host None; Fetch host true].
(** A fetch and the application of [n] rows. *)
Definition follow (host : string) (n : nat) : Steps :=
  [Fetch host true] ++ replicate n (ApplyRow host []) ++ [Fetch host true].
End Dx.

(** ** Deciding the hypotheses *)
Section checkers.
Context {P J D T : Type}.
Implicit Types (table : list (Row D T)) (h : Host P J D T).

Fixpoint increasing (ids : list Z) : bool :=
  match ids with x :: (y :: _) as rest => (x <? y)%Z && increasing rest | _ => true end.

Lemma increasing_spec table : increasing (row_id <$> table) = true → StronglySorted id_lt table.
Proof.
  intros H. apply Sorted_StronglySorted; [intros x y z; unfold id_lt; lia|]. induction table as [|row table IH]; [constructor|].
  destruct table as [|other table]; [by repeat constructor|]. csimpl in H. apply andb_true_iff in H as [L H].
  constructor; [by apply IH|]. constructor. by apply Z.ltb_lt.
Qed.

Definition at_headb table h : bool :=
  match co_phase (h_consumer h) with
  | CReading => forallb (λ row, (row_id row <=? co_last_seen_id (h_consumer h))%Z) table
  | _ => false
  end.

Lemma at_headb_spec table h : at_headb table h = true → at_head table h.
Proof.
  unfold at_headb. destruct (co_phase (h_consumer h)) eqn:Ep; try done. intros H. split; [done|]. apply Forall_forall. intros row Hr.
  rewrite forallb_forall in H. by apply Z.leb_le, H, list_elem_of_In.
Qed.
End checkers.

(** ** Replicas *)

Section replicas.
Context {P J D T : Type} `{!Database J D T}.
Variable item_parser : string → option (J → option (Item P)).
Variable to_value : Item P → J.
Context `{!LogLaws item_parser to_value}.
Variable iterate : gmap string (list (Item P)) → list (string * list (Item P)).
Hypothesis iterate_perm : ∀ m, iterate m ≡ₚ map_to_list m.

(** C36: An entity that one host changes, by mutations whose origin is produced and which it
    persists in the order it made them, and without starting again: in any run of hosts on
    one log, with failed connections, rolled back, repeated and retried batches, snapshots and
    restarts of other hosts, once the host's events are in the table, every host that has read
    the table has the entity as the host has it, provided rows became visible in the order of
    their ids. *)
Theorem replicas_agree steps w (k : HistoryEntityKey) (writer reader : string) hw hr :
  run item_parser to_value iterate steps world_new = Some w →
  along item_parser to_value iterate (orderly k writer) steps world_new = true →
  StronglySorted id_lt (w_table w) →
  w_hosts w !! writer = Some hw → w_hosts w !! reader = Some hr → reader ≠ writer →
  drained hw → at_head (w_table w) hr →
  lookup_item (h_registry hr) k.1 k.2 = lookup_item (h_registry hw) k.1 k.2.
Proof.
  intros E O S Ew Er N Dr Ah.
  assert (world_ok item_parser k writer w) as [_ Hh _].
  { eapply (world_run_ok item_parser to_value iterate); [done|exact E|exact O|done|done|apply world_new_ids|apply world_new_writes|].
    apply world_new_ok. }
  transitivity (table_value item_parser k (w_table w)).
  - eapply at_head_value; [by apply Hh|done|done].
  - symmetry. eapply drained_value; [by apply Hh|done].
Qed.

(** C37: Startup is a replay: the snapshot a host loads of the latest row of every entity, and
    the store replayed as of a time, hold what applying every event to an empty store in the
    order of the ids leaves, for a host that wrote none of them and rows whose items parse. *)
Theorem snapshots_are_replays (host : string) (table : list (Row D T)) :
  Forall (row_ok to_value) table → NoDup (row_id <$> table) →
  Forall (λ row, row_source_id row ≠ Some host) table →
  let replay (visible : Row D T → bool) :=
    foldl (apply_remote_event item_parser host) ∅
      (omap (λ row, from_jsonb (row_event row)) (order_by_id (filter visible table))) in
  (∀ high_water t i,
     lookup_item (load_consumer_snapshot item_parser iterate host high_water ∅ table) t i =
     lookup_item (replay (λ row, (row_id row <=? high_water)%Z)) t i) ∧
  ∀ text time, forallb timestamp_char (String.list_ascii_of_string text) = true → timestamptz text = Some time →
    ∃ registry, replay_to_store item_parser text table = Ok registry ∧
      ∀ t i, lookup_item registry t i = lookup_item (replay (λ row, timestamptz_le (row_created_at row) time)) t i.
Proof.
  intros F N Fs replay.
  assert (∀ k row event, row ∈ table → row_key row = k → from_jsonb (row_event row) = Some event → is_my_event host event = false) as Ns.
  { intros k row event Hr _ Ed. rewrite Forall_forall in F, Fs. unfold is_my_event. apply bool_decide_eq_false.
    rewrite (row_source_decoded item_parser to_value k row event) by auto. by apply Fs. }
  assert (∀ visible (k : HistoryEntityKey), value_in k (replay visible) = table_value item_parser k (order_by_id (filter visible table))) as Rp.
  { intros visible k. apply (replay_value item_parser to_value).
    apply Forall_forall. intros row Hr. rewrite order_by_id_perm in Hr. apply list_elem_of_filter in Hr as [_ Hr].
    rewrite Forall_forall in F, Fs. split; [by apply F|by apply Fs]. }
  split.
  - intros hw t i. change (value_in (t, i) (load_consumer_snapshot item_parser iterate host hw ∅ table) = value_in (t, i) (replay (λ row, (row_id row <=? hw)%Z))).
    rewrite Rp. unfold load_consumer_snapshot.
    destruct (load_rows_spec item_parser iterate iterate_perm host ∅ (snapshot_rows hw table)) as (items & -> & Hp).
    eapply (latest_rows_value item_parser to_value); [done|done|done|by apply Ns|done].
  - intros text time Hu Ht. unfold replay_to_store. rewrite Hu, Ht. simpl. eexists. split; [done|]. intros t i.
    match goal with |- lookup_item ?r _ _ = _ => change (value_in (t, i) r = value_in (t, i) (replay (λ row, timestamptz_le (row_created_at row) time))) end.
    rewrite Rp, replayed_rows.
    eapply (latest_rows_value item_parser to_value); done.
Qed.

(** C38: Consumers catch up: in any reachable world a consumer that has not failed, and whose
    database answers, has read every row of the table after at most two steps per row and
    four more, and then reports that it caught up; nothing else changes meanwhile. *)
Theorem consumers_catch_up steps w (host : string) h :
  run item_parser to_value iterate steps world_new = Some w →
  w_hosts w !! host = Some h → co_phase (h_consumer h) ≠ CFailed →
  ∃ more w' h', length more ≤ 2 * length (w_table w) + 4 ∧
    Forall (λ step, ∃ c : Consumer D T, step = consumer_step host c) more ∧
    run item_parser to_value iterate more w = Some w' ∧ w_hosts w' !! host = Some h' ∧
    w_table w' = w_table w ∧ (∀ other, other ≠ host → w_hosts w' !! other = w_hosts w !! other) ∧
    at_head (w_table w) h' ∧ wait_poll None 0 (h_consumer h') = Some (Ok ()).
Proof.
  intros E Eh N.
  assert (behind (w_table w) (h_consumer h) ≤ 2 * length (w_table w) + 3) as B.
  { unfold behind. pose proof (after_length (co_last_seen_id (h_consumer h)) (w_table w)).
    destruct (co_phase (h_consumer h)); lia. }
  destruct (catches_up item_parser to_value iterate (2 * length (w_table w) + 3) w host h) as (more & w' & h' & Hl & Fs & Er & Eh' & Et & Ho & Ha & Hc);
    [|exact Eh|done|exact B|].
  { eapply (run_reading item_parser to_value iterate); [exact E|apply world_new_reading]. }
  exists more, w', h'. split_and!; [lia|done..|]. unfold wait_poll. by rewrite Hc.
Qed.

(** C39: Delivery: of the events a host produced since it last started, in order, those its
    producer no longer holds are rows written since, in order; every row it wrote since is
    one of those events; and if no commit went unacknowledged its rows are exactly the events
    it has let go of, once each.  (What a producer holds is lost when the process ends.) *)
Theorem produced_events_are_delivered before start after w0 w1 w (host : string) h :
  run item_parser to_value iterate before world_new = Some w0 →
  exec item_parser to_value iterate start w0 = Some w1 → starts host start = true →
  run item_parser to_value iterate after w1 = Some w → forallb (not_restarted host) after = true →
  w_hosts w !! host = Some h →
  let events := handed item_parser to_value iterate host after w1 in
  let rows := authored_since host (length (w_table w0)) (w_table w) in
  ∃ written, events = written ++ outbox (h_producer h) ∧ written `sublist_of` rows ∧
    (∀ event, event ∈ rows → event ∈ events) ∧
    (forallb (keeps_reply host) after = true → rows = written).
Proof.
  intros E0 E1 St E N Eh events rows.
  pose proof (run_ids item_parser to_value iterate before world_new w0 E0 world_new_ids) as Io.
  pose proof (run_writes item_parser to_value iterate before world_new w0 E0 world_new_ids (world_new_writes to_value)) as Wr.
  destruct (run_delivered item_parser to_value iterate host (length (w_table w0)) true [] after w1 w E N) as [_ Dl].
  - by apply (exec_ids item_parser to_value iterate start w0).
  - apply (exec_writes item_parser to_value iterate start w0); [done| |done]. by apply (exec_ids item_parser to_value iterate start w0).
  - by apply (start_delivered item_parser to_value iterate host start).
  - rewrite Eh in Dl. simpl in Dl. destruct Dl as (written & F1 & F2 & F3 & F4). eauto 10.
Qed.

(** C40: A window on the history of an entity that was opened after its host had caught up
    shows, once the host has read the table, the selected page of the entity's rows, newest
    first, and their number, however commits, rows and moves of the window interleaved, unless
    its last read failed; provided rows became visible in the order of their ids. *)
Theorem history_windows_show_the_page steps w (host : string) h v :
  run item_parser to_value iterate steps world_new = Some w →
  along item_parser to_value iterate opens_when_ready steps world_new = true →
  StronglySorted id_lt (w_table w) →
  w_hosts w !! host = Some h → at_head (w_table w) h → v ∈ h_windows h → hw_warning v = None →
  hw_window v = hw_selection v ∧
  ∃ page, load_entity_history_page (w_table w) (hw_key v) (hw_selection v) = Ok page ∧
    hw_entries v = page_entries page ∧ hw_total_count v = hp_total_count page.
Proof.
  intros E O S Eh Ha Hv Nw.
  assert (world_windows w ∧ placed w) as [V _].
  { eapply (run_windows item_parser to_value iterate); [exact E|exact O|done|done|apply world_new_ids|apply world_new_writes|done]. }
  eapply window_at_head; [by eapply V|done..].
Qed.
End replicas.

(** ** Runs *)
Module Wx.
Import Dx.

(** Two hosts and a third that starts late; a batch is written twice because the reply to its
    commit is lost, and one is rolled back. *)
Definition steps : Steps :=
  boot "A" ++ boot "B" ++ set "A" "x" "1" ++ flush "A" ReplyLost ++ set "A" "x" "2" ++ flush "A" Committed ++
  set "B" "y" "1" ++ flush "B" Committed ++ set "A" "z" "1" ++ del "A" "z" ++ flush "A" RolledBack ++
  [OpenWindow "B" true ("Node", "x") (mkQueryWindow 0 2)] ++
  flush "A" Committed ++ follow "B" 6 ++ boot "C" ++ set "A" "x" "3" ++ flush "A" Committed ++
  follow "C" 1 ++ follow "B" 1 ++ follow "A" 7.
Definition world : Worlds := after_run steps.
Definition host (name : string) : Host string Json (LogEvent Json) nat := default host_new (w_hosts world !! name).

Lemma ran : DurableLog.run item_parser to_value map_to_list steps world_new = Some world.
Proof. vm_compute. reflexivity. Qed.

Lemma rows_ok : Forall (row_ok to_value) (w_table world).
Proof.
  destruct (run_writes item_parser to_value map_to_list steps world_new world ran world_new_ids (world_new_writes _)) as [_ F _].
  exact F.
Qed.
End Wx.

Lemma replicas_agree_witness :
  lookup_item (h_registry (Wx.host "B")) "Node" "x" = lookup_item (h_registry (Wx.host "A")) "Node" "x" ∧
  lookup_item (h_registry (Wx.host "C")) "Node" "x" = lookup_item (h_registry (Wx.host "A")) "Node" "x" ∧
  Dx.stored Wx.world "A" "x" = Some "3".
Proof.
  split_and!; [| |vm_compute; reflexivity].
  - apply (replicas_agree Dx.item_parser Dx.to_value map_to_list (λ _, reflexivity _) Wx.steps Wx.world ("Node", "x") "A" "B");
      try (vm_compute; reflexivity).
    + apply increasing_spec. vm_compute. reflexivity.
    + done.
    + split; vm_compute; reflexivity.
    + apply at_headb_spec. vm_compute. reflexivity.
  - apply (replicas_agree Dx.item_parser Dx.to_value map_to_list (λ _, reflexivity _) Wx.steps Wx.world ("Node", "x") "A" "C");
      try (vm_compute; reflexivity).
    + apply increasing_spec. vm_compute. reflexivity.
    + done.
    + split; vm_compute; reflexivity.
    + apply at_headb_spec. vm_compute. reflexivity.
Defined.

Lemma snapshots_are_replays_witness :
  let replay (visible : Row (LogEvent Dx.Json) nat → bool) :=
    foldl (apply_remote_event Dx.item_parser "D") ∅
      (omap (λ row, from_jsonb (row_event row)) (order_by_id (filter visible (w_table Wx.world)))) in
  lookup_item (load_consumer_snapshot Dx.item_parser map_to_list "D" 7 ∅ (w_table Wx.world)) "Node" "x" =
    lookup_item (replay (λ row, (row_id row <=? 7)%Z)) "Node" "x" ∧
  lookup_item (load_consumer_snapshot Dx.item_parser map_to_list "D" 7 ∅ (w_table Wx.world)) "Node" "x" = Some (Dx.node "x" "2") ∧
  ∃ registry, replay_to_store Dx.item_parser "now" (w_table Wx.world) = Ok registry ∧
    lookup_item registry "Node" "z" = None ∧
    lookup_item registry "Node" "x" = lookup_item (replay (λ row, (row_created_at row <=? 3)%nat)) "Node" "x".
Proof.
  intros replay.
  destruct (snapshots_are_replays Dx.item_parser Dx.to_value map_to_list (λ _, reflexivity _) "D" (w_table Wx.world)) as [H1 H2].
  - exact Wx.rows_ok.
  - apply (id_lt_NoDup (w_table Wx.world)), increasing_spec. vm_compute. reflexivity.
  - apply (bool_decide_eq_true_1 _). vm_compute. reflexivity.
  - split; [apply (H1 7%Z)|]. split; [vm_compute; reflexivity|].
    destruct (H2 "now" 3%nat) as (registry & E & Hr); [vm_compute; reflexivity..|].
    exists registry. split; [exact E|]. split; [|apply Hr].
    rewrite Hr. vm_compute. reflexivity.
Defined.

(** A host that starts while another has written three events. *)
Definition late_steps : Dx.Steps :=
  Dx.boot "A" ++ Dx.set "A" "x" "1" ++ Dx.set "A" "y" "1" ++ Dx.flush "A" Committed ++ [Start "B"; ReadHighWater "B" true] ++
  Dx.del "A" "x" ++ Dx.flush "A" Committed.

Lemma consumers_catch_up_witness :
  let w := Dx.after_run late_steps in
  ∃ more w' h', length more ≤ 10 ∧
    Forall (λ step, ∃ c : Consumer (LogEvent Dx.Json) nat, step = consumer_step "B" c) more ∧
    Dx.run more w = Some w' ∧ w_hosts w' !! "B" = Some h' ∧ w_table w' = w_table w ∧
    at_head (w_table w) h' ∧ wait_poll None 0 (h_consumer h') = Some (Ok ()).
Proof.
  intros w.
  destruct (consumers_catch_up Dx.item_parser Dx.to_value map_to_list late_steps w "B" (default host_new (w_hosts w !! "B")))
    as (more & w' & h' & Hl & Fs & Er & Eh & Et & _ & Ha & Hc); [vm_compute; reflexivity..|vm_compute; discriminate|].
  exists more, w', h'. split; [exact Hl|]. auto 10.
Defined.

(** A host that starts again after the run, writes an event twice, as the reply to its commit
    is lost, and one that is still in its outbox. *)
Definition wx_after : Dx.Steps := Dx.set "A" "w" "1" ++ Dx.flush "A" ReplyLost ++ Dx.flush "A" Committed ++ Dx.set "A" "w" "2".
Definition wx_restarted := default world_new (DurableLog.exec Dx.item_parser Dx.to_value map_to_list (Restart "A") Wx.world).
Definition wx_ends := default world_new (DurableLog.run Dx.item_parser Dx.to_value map_to_list wx_after wx_restarted).

Lemma produced_events_are_delivered_witness :
  let h := default host_new (w_hosts wx_ends !! "A") in
  let events := handed Dx.item_parser Dx.to_value map_to_list "A" wx_after wx_restarted in
  let rows := authored_since "A" (length (w_table Wx.world)) (w_table wx_ends) in
  (∃ written, events = written ++ outbox (h_producer h) ∧ written `sublist_of` rows ∧
    (∀ event, event ∈ rows → event ∈ events) ∧ (forallb (keeps_reply "A") wx_after = true → rows = written)) ∧
  length events = 2 ∧ length (outbox (h_producer h)) = 1 ∧ length rows = 2.
Proof.
  assert (DurableLog.exec Dx.item_parser Dx.to_value map_to_list (Restart "A") Wx.world = Some wx_restarted) as E1 by (vm_compute; reflexivity).
  assert (starts (P:=string) "A" (Restart "A") = true) as St by (vm_compute; reflexivity).
  assert (DurableLog.run Dx.item_parser Dx.to_value map_to_list wx_after wx_restarted = Some wx_ends) as E by (vm_compute; reflexivity).
  assert (forallb (not_restarted "A") wx_after = true) as N by (vm_compute; reflexivity).
  assert (w_hosts wx_ends !! "A" = Some (default host_new (w_hosts wx_ends !! "A"))) as Eh by (vm_compute; reflexivity).
  pose proof (produced_events_are_delivered Dx.item_parser Dx.to_value map_to_list Wx.steps (Restart "A") wx_after
    Wx.world wx_restarted wx_ends "A" _ Wx.ran E1 St E N Eh) as H.
  cbv zeta in H |- *. split; [exact H|]. vm_compute. auto.
Defined.

Lemma history_windows_show_the_page_witness :
  ∃ v page, v ∈ h_windows (Wx.host "B") ∧ hw_window v = mkQueryWindow 0 2 ∧
    load_entity_history_page (w_table Wx.world) ("Node", "x") (mkQueryWindow 0 2) = Ok page ∧
    hw_entries v = page_entries page ∧ hw_total_count v = hp_total_count page ∧
    (hw_entries v).*1 = ["9"; "3"] ∧ hw_total_count v = 4%Z.
Proof.
  destruct (h_windows (Wx.host "B")) as [|v vs] eqn:Ev; [vm_compute in Ev; discriminate|].
  assert (v = default v (head (h_windows (Wx.host "B")))) as Hv by (rewrite Ev; reflexivity).
  destruct (history_windows_show_the_page Dx.item_parser Dx.to_value map_to_list Wx.steps Wx.world "B" (Wx.host "B") v Wx.ran)
    as (H1 & page & H2 & H3 & H4).
  - vm_compute. reflexivity.
  - apply increasing_spec. vm_compute. reflexivity.
  - vm_compute. reflexivity.
  - apply at_headb_spec. vm_compute. reflexivity.
  - rewrite Ev. left.
  - vm_compute in Ev. injection Ev as <- _. reflexivity.
  - exists v, page. vm_compute in Ev. injection Ev as <- _. split; [left|].
    split; [exact H1|]. split; [exact H2|]. split; [exact H3|]. split; [exact H4|]. split; vm_compute; reflexivity.
Defined.

(** ** What the log does not keep *)

(** Ids are drawn when a statement executes and rows are shown when it commits, so a row can
    become visible after one with a larger id: a host that has seen that one is caught up
    and never reads it. *)
Theorem late_rows_are_skipped :
  let w := Dx.after_run (Dx.boot "A" ++ Dx.boot "B" ++ Dx.boot "C" ++ Dx.set "A" "x" "1" ++ Dx.set "B" "y" "1" ++
    [Collect "A"; Execute "A" true; Collect "B"; Execute "B" true; Finish "B" Committed] ++ Dx.follow "C" 1 ++
    [Finish "A" Committed; Fetch "C" true]) in
  (row_id <$> w_table w) = [2; 1]%Z ∧
  option_map (at_headb (w_table w)) (w_hosts w !! "C") = Some true ∧
  Dx.stored w "A" "x" = Some "1" ∧ Dx.stored w "C" "x" = None ∧ Dx.stored w "C" "y" = Some "1".
Proof. vm_compute. repeat split. Qed.

(** Two hosts that set one entity at a time: each applies the other's row and skips its own, so
    they end with each other's value, and only one of them with the value of the log. *)
Theorem concurrent_writers_diverge :
  let w := Dx.after_run (Dx.boot "A" ++ Dx.boot "B" ++ Dx.boot "C" ++ Dx.set "A" "x" "a" ++ Dx.set "B" "x" "b" ++
    Dx.flush "B" Committed ++ Dx.flush "A" Committed ++ Dx.follow "A" 2 ++ Dx.follow "B" 2 ++ Dx.follow "C" 2) in
  (λ name, option_map (at_headb (w_table w)) (w_hosts w !! name)) <$> ["A"; "B"; "C"] = [Some true; Some true; Some true] ∧
  Dx.stored w "A" "x" = Some "b" ∧ Dx.stored w "B" "x" = Some "a" ∧ Dx.stored w "C" "x" = Some "a".
Proof. vm_compute. repeat split. Qed.

(** A server with a configured id that starts again takes its own rows for an echo: it comes up
    without what it wrote. *)
Theorem restart_forgets_own_rows :
  let w := Dx.after_run (Dx.boot "A" ++ Dx.set "A" "x" "1" ++ Dx.flush "A" Committed ++
    [Restart "A"; ReadHighWater "A" true; LoadSnapshot "A" None; Fetch "A" true]) in
  option_map (at_headb (w_table w)) (w_hosts w !! "A") = Some true ∧ length (w_table w) = 1 ∧ Dx.stored w "A" "x" = None.
Proof. vm_compute. repeat split. Qed.

(** Two threads of a host may persist in the other order than they stored. *)
Lemma persisted_out_of_order :
  let w := Dx.after_run (Dx.boot "A" ++ Dx.boot "B" ++
    [Reduce "A" SET (Dx.node "x" "1") Local; Reduce "A" SET (Dx.node "x" "2") Local;
     Persist "A" 1 "now" "tx"; Persist "A" 0 "now" "tx"] ++ Dx.flush "A" Committed ++ Dx.follow "A" 2 ++ Dx.follow "B" 2) in
  Dx.stored w "A" "x" = Some "2" ∧ Dx.stored w "B" "x" = Some "1".
Proof. vm_compute. repeat split. Qed.

(** A batch with an event the database refuses is kept as it is, whatever the network does,
    and everything behind it waits. *)
Lemma refused_batch_is_retried {J D T} `{!Database J D T} connects next (p : Producer J D T) batch p' :
  pr_phase p = PBatch batch → (∃ event, event ∈ batch ∧ ∀ id, row_of (D := D) (T := T) id event = None) →
  execute connects next p = Some p' → pr_phase p' = PIdle batch ∧ pr_channel p' = pr_channel p.
Proof.
  intros Ep (event & He & Hn). unfold execute. rewrite Ep.
  assert (insert_event_batch (D := D) (T := T) next batch = None) as ->.
  { clear Ep. revert next. induction batch as [|e batch IH]; intros next; [by apply not_elem_of_nil in He|]. simpl.
    apply elem_of_cons in He as [->|He]; [by rewrite Hn|]. destruct (row_of next e); simpl; [|done]. by rewrite IH. }
  by destruct (negb _); intros [= <-].
Qed.

Lemma null_character_stops_the_producer :
  let null := String "000" "" in
  let turn := [Collect "A"; Execute "A" true] in
  let w := Dx.after_run (Dx.boot "A" ++ Dx.set "A" "x" null ++ turn ++ Dx.set "A" "y" "1" ++ turn ++ turn ++ turn) in
  w_table w = [] ∧ option_map (λ h, length (outbox (h_producer h))) (w_hosts w !! "A") = Some 2 ∧
  option_map (λ h, ph_total_errors (pr_health (h_producer h))) (w_hosts w !! "A") = Some 4%Z.
Proof. vm_compute. repeat split. Qed.

(** [record_enqueue] runs after the event was sent: a producer that is quicker takes the count
    of queued events below zero. *)
Lemma queued_count_wraps :
  let queued w := option_map (λ h, ph_queued (pr_health (h_producer h))) (w_hosts w !! "A") in
  let steps := Dx.boot "A" ++ Dx.set "A" "x" "1" ++ Dx.flush "A" Committed in
  queued (Dx.after_run steps) = Some u64_max ∧ queued (Dx.after_run (steps ++ [RecordEnqueue "A"])) = Some 0%Z.
Proof. vm_compute. repeat split. Qed.

(** A host whose parser refuses the last row of an entity starts without the entity, while one
    that was running keeps the value before it. *)
Lemma refused_row_hides_the_entity :
  let strict (t : string) : option (Dx.Json → option (Item string)) :=
    Some (λ json, if bool_decide (json.2 = "new") then None else Some (mkItem t json.1 json.2)) in
  let table := w_table (Dx.after_run (Dx.boot "A" ++ Dx.set "A" "x" "old" ++ Dx.set "A" "x" "new" ++ Dx.flush "A" Committed)) in
  lookup_item (load_consumer_snapshot strict map_to_list "B" 2 ∅ table) "Node" "x" = None ∧
  lookup_item (foldl (apply_remote_event strict "B") ∅ (omap (λ row, from_jsonb (row_event row)) table)) "Node" "x" =
    Some (Dx.node "x" "old").
Proof. vm_compute. repeat split. Qed.

(** A row of another host is stored without the graph: an edge that arrives this way is in its
    store, and its endpoint does not list it. *)
Definition edge_parser (t : string) : option (Item Fx.Payload → option (Item Fx.Payload)) := Some Some.
#[local] Instance edge_database : Database (Item Fx.Payload) (LogEvent (Item Fx.Payload)) nat :=
  { to_jsonb := Some; from_jsonb := Some; timestamptz text := Some (String.length text); timestamptz_le := Nat.leb;
    json_id item := Some (item_id item) }.

Lemma remote_edges_are_not_indexed :
  let edge := Fx.edge "Link" "l9" "n1" "n4" in
  let registry := apply_remote_event edge_parser "B" Fx.registry (mkLogEvent edge SET "Link" "now" "tx" (Some "A")) in
  lookup_item registry "Link" "l9" = Some edge ∧
  "l9" ∈ scan registry "Link" (matches_at Fx.link PosA (Fx.at_node "n1")) ∧
  (edge_ids_at Fx.graph Fx.state registry ∅ "Link" PosA (Fx.at_node "n1")).2 = ["l1"; "l3"].
Proof.
  intros edge registry. split; [vm_compute; reflexivity|]. split; [|vm_compute; reflexivity].
  apply (bool_decide_eq_true_1 _). vm_compute. reflexivity.
Qed.
